(* ===== verification/_CoqProject ===== *)
-Q . S2P
Prelude.v
RustText.v
Refusal.v
Float64.v
Value.v
Expr.v
ExprFacts.v
Json.v
JsonFacts.v
Vocab.v
Collecting.v
Repository.v
Dispatch.v
EntityDispatch.v
DispatchFacts.v
EntityFacts.v
Needs.v
Query.v
QueryFacts.v
ReadModel.v
ReadModelFacts.v
ReferenceLookup.v
Present.v
Reactions.v
Routing.v
Preview.v
Orchestrate.v
OrchestrateFacts.v
CascadeReturns.v
CommandLine.v
CommandLineFacts.v
Serve.v
ServeFacts.v
Pattern.v
PatternFacts.v
Clock.v
IpText.v
Crypto.v
RateLimit.v
RateLimitFacts.v
Naming.v
Serde.v
ExprText.v
ExprTextFacts.v
ExprJson.v
RubyValue.v
HostNeeds.v
HostStore.v
HostStoreFacts.v
Delivery.v
HostDispatch.v
HostDispatchFacts.v
HostQuery.v
Ledger.v
StrictJson.v
Verifier.v
VerifierFacts.v
Tokens.v
Members.v
Provision.v
MemberFacts.v
SigninConfig.v
SigninFlow.v
SigninFlowFacts.v
SigninWitness.v
WebText.v
Forms.v
FormsFacts.v
WebPages.v
WebPagesFacts.v
GoogleSignin.v
MemberRoutes.v
WebRoutes.v
UiSchema.v
Presentation.v
Eras.v
Api.v
WebRoutesFacts.v
WebWitness.v
