(* ===== verification/Prelude.v ===== *)
(** * The Rust kernel and host of hecks, modelled and verified

    hecks runs domains declared in bluebooks.  A generated crate per domain
    calls the kernel ([src/rust/src/kernel/]) to decode a command's arguments,
    hold them and the stored record to the declared rules, change the record,
    store it, emit events, and react to those events with policies and sagas;
    the rules are expressions the evaluator ([src/rust/expr/src/]) interprets.
    This development models that path from the text of a request to the last
    reaction, in the order the code composes it, and around it the command line
    and the host protocol that run it over a list or a stream of steps.  On the
    other side of the kernel's text is the Rust host ([src/rust/host/]).  It
    keeps a domain's journal, asks the kernel, persists what it accepted,
    seals the journal and delivers its reactions; in front of that it decides
    who is asking (sign-in, accounts, members) and answers requests with pages
    and with the console's /api/ routes.  Before both is the text of a rule,
    which the bluebook parser reads and the host reads again as a document.

    ** Files

    Each file of definitions names its source files in its own header; a
    Rust function, type or constant keeps its name, qualified where two share
    one ([aggregate_step], [entity_step]).

    The kernel:

    - [Prelude]: characters, strings, UTF-8, sorting, results with [let?],
      64-bit integers, tactics and hints the other files share.
    - [RustText], [Float64]: what the language itself computes, Rust's
      formatting of texts and numbers, [f64] arithmetic, printing and parsing.
    - [Refusal]: the error type ([expr/src/refusal.rs]) and the table of
      wordings ([vocab/refusal_template.rs]).
    - [Value], [Expr], facts in [ExprFacts]: values, the expression tree, one
      section per operator category, [interpret].
    - [Json], facts in [JsonFacts]: the JSON value, its writer and its parser
      ([kernel/json.rs]).
    - [Vocab]: the declared orders of dispatch steps and the classes of
      refusals ([kernel/vocab/]).
    - [Collecting]: state with refusals; the collector of a dry run
      ([collecting.rs]), a thread-local there, a component of the state here.
    - [Repository]: the interface [Repository] with its laws
      [RepositoryLaws], the in-memory store that discharges them, scans
      ([repository.rs]).
    - [Dispatch], [EntityDispatch], facts in [DispatchFacts], [EntityFacts]:
      the two dispatch loops, the rules, element commands, the argument gates
      ([dispatch.rs]).  They are written and proved against [Repository]
      alone.
    - [Needs]: the facts a command needs and who answers them ([needs.rs]).
    - [Query], facts in [QueryFacts]: comparators, ordering, cursors, declared
      queries, reference hops, role checks ([query_comparators.rs],
      [query_ordering.rs], [query_cursor.rs], [named_query.rs],
      [repository.rs], [read_model.rs]), over the interface [AggregateScan].
    - [ReadModel], facts in [ReadModelFacts]: reports over several heads,
      grouping and reducing ([read_model.rs], [vocab/reducer.rs]).
    - [ReferenceLookup]: references followed for a rule, and projected fields
      ([reference_lookup.rs]), over the interface [ReferenceLookup].
    - [Present]: answers in their bare shape, and the presenter read from a
      domain's IR ([present.rs], [ir_presenter.rs]).
    - [Reactions], [Orchestrate], facts in [OrchestrateFacts],
      [CascadeReturns]: policies, sagas, compensation, the cascade
      ([orchestrate.rs]).
    - [Routing]: the receiver and the facts of an invocation ([routing.rs]),
      and what a reaction sends read back through it.
    - [Preview]: the arm a generated router has for a command - its arguments
      decoded and held to the gates, the dispatch, the payload of its events
      ([generated/pizzas/registry.rs]) - and its dry runs and validations
      ([cli.rs]).
    - [CommandLine], facts in [CommandLineFacts]: a run over a document of
      steps, saga snapshots, a session, a run resumed from a snapshot
      ([cli.rs]), over the interface [Domain] of a generated crate.
    - [Serve], facts in [ServeFacts]: the line-framed protocol, its sessions and
      callbacks ([serve.rs]), over the interface [Outside].
    - [Pattern], facts in [PatternFacts]: declared patterns, parsed and matched
      ([pattern.rs]).

    The host's commands and data:

    - [Clock]: timestamps ([host/core/src/clock.rs]) and their facts.
    - [IpText], [RateLimit], facts in [RateLimitFacts]: addresses as the
      standard library writes them, the sliding window, who a client is behind
      its proxies, the settings ([host/src/rate_limit.rs]).
    - [Naming]: names in snake case, plurals ([codegen/src/hecks_naming.rs]).
    - [Serde]: the interface [Serde] of the host's JSON values with its laws
      [SerdeLaws], both discharged by the tree of [Json].
    - [HostNeeds]: the facts and defaults a command is filled with
      ([host/core/src/needs.rs]).
    - [HostStore], facts in [HostStoreFacts]: the journal, the snapshot, the
      sagas and the heads, commits, and a step relation [transition] of units,
      reads and lock-free writes ([host/core/src/store.rs], [store/memory.rs],
      [journal.rs]).
    - [Delivery]: reactions sent to other domains, their retries and dead
      letters ([host/core/src/lambda_client.rs]), over the interface [Invoker].
    - [HostDispatch], facts in [HostDispatchFacts]: one command, one dry run,
      reads and queries ([host/core/src/dispatch.rs], [validation.rs]), over the
      interface [Sandbox] of the kernel as a program from text to text.
    - [HostQuery]: who answers a question, and what a plugin is asked
      ([query_step.rs], [plugins.rs]).
    - [Crypto], [Ledger]: digests, and the seals over a
      domain's lineage journal ([crypto.rs], [ledger.rs]), over the interface
      [Sha256].
    - [Eras]: the shape a bluebook stores records in and the hash that names
      it, what a boot does about the eras it finds, the rules that carry a
      record over an edge between two, and the audit of an edge
      ([storage_shape.rs], [boot.rs], [reference_transform.rs],
      [store/mint.rs]).

    Who is asking:

    - [StrictJson]: the reader of tokens and key sets
      ([platform_signin/strict_json.rs]).
    - [Verifier], facts in [VerifierFacts]: compact tokens, the cache
      of an issuer's keys, single use, the ordered checks
      ([platform_signin/jws.rs], [jwks.rs], [jti.rs], [verify.rs]), over the
      interface [Signatures].
    - [Tokens]: the host's own signed tokens and cookies
      ([auth.rs]), over the interface [Hmac].
    - [Members], [Provision], facts in [MemberFacts]: the membership head, its
      amendments, admission of a person through the dispatch ([auth.rs]).
    - [SigninConfig], [SigninFlow], facts in [SigninFlowFacts]: settings,
      cookie, query and the two halves of the platform sign-in
      ([platform_signin/]).
    - [GoogleSignin]: the sign-in with Google ([auth/google_signin.rs]).
    - [SigninWitness]: the concrete instances the sign-in's theorems hold on.

    What is answered:

    - [WebText], [Forms], facts in [FormsFacts]: urlencoded texts and cookies,
      a command's fields and the arguments read from a posted form ([web.rs]).
    - [WebPages], facts in [WebPagesFacts]: the pages, as texts whose markup is
      told apart from what is put in them.
    - [MemberRoutes], [WebRoutes], facts in [WebRoutesFacts]: the gate, the
      account, member and sign-in routes, the domain's pages and commands
      ([web.rs], [extension.rs]).  The extensions and the /api/ routes are the
      interfaces [HostExtension] and [ApiRoutes].
    - [UiSchema]: the documents that describe a domain to the console
      ([host/core/src/ui_schema.rs]).
    - [Presentation]: the console's configuration, read
      from what is stored, checked, and saved as commands
      ([host/core/src/presentation.rs], [presentation_write.rs]).
    - [Api]: the /api/ routes ([host/src/api.rs]), the instance of [ApiRoutes].
    - [WebWitness]: the concrete instances the web's and the console's theorems
      hold on.

    What a bluebook's rules mean:

    - [ExprText], facts in [ExprTextFacts]: a rule's text, parsed to its tree,
      and arithmetic printed ([parser/src/expr/mod.rs], [evaluator.rs],
      [resolver.rs]).
    - [ExprJson]: the tree written as a document by the parser
      ([parser/src/expr/ast_json.rs]), and read and evaluated by the host
      ([host/core/src/expr_json.rs]).  The evaluator is the kernel's, [Expr].
    - [RubyValue]: captured literals, rendered and read
      ([parser/src/ruby_value.rs]).

    ** Conventions

    A string is the list of its Unicode scalar values, an integer of 64 bits a
    [Z] whose wrap-around is written out ([wrap64]), an [f64] is IEEE 754
    binary64 on [spec_float].  [Result<T, Refusal>] is [res T], in the host
    [Prelude.result].  A [BTreeMap] is the list of its entries in key order
    where the order is read, a [HashMap] a [gmap].  [&mut] arguments and
    thread-locals are the state of a monad; what was written before a refusal
    stays written.  A handler of the host takes what it may change and gives it
    back beside its answer; awaiting is sequencing, except in [HostStore] and
    [Members], where steps of several callers interleave.

    What is not this repository's Rust is an argument: the functions the
    generator writes (a command's [apply_mutations], the router
    [dispatch_by_name], the tables of policies), the [regex] crate
    ([RegexCrate]), the Unicode tables ([UnicodeTables], [UnicodeUpper]), the
    host's clock and callback ([HostFacts], which [Serve] gives the wire of a
    connection); for the host, [serde_json] ([Serde], and the classes
    [SerdeNumbers], [SerdeEntries], [SerdeKinds] of what else is asked of it),
    the wasm sandbox ([Sandbox]), the cloud's invoker ([Invoker]), digests and
    signatures ([Sha256], [Hmac], [Signatures]), base64 ([Base64Url]), Google's
    endpoints ([GoogleHttp], [JsonWebTokens]).  Every theorem that assumes
    something of one has a witness with a concrete instance.

    ** What the theorems show

    - Commands ([DispatchFacts], [EntityFacts]): the loop over a declared
      order with its take-once locals is the straight-line pipeline; a refusal
      has written nothing; a success wrote one record that met every rule;
      argument gates run in order; only the matching element changes.
    - Dry runs ([Preview]): a dry run answers ok exactly where a run of the
      router's arm succeeds, and lists first the refusal it raises, or name by
      name the one it raises of several names.
    - Reactions ([OrchestrateFacts], [CascadeReturns]): every relation the
      elementary steps of a cascade respect ([Respects]) holds across an
      orchestration, so logs only grow, and what the saga log gains accounts
      for every conversation, birth, legs and end; a refused leg leaves no compensation behind; nothing is
      dispatched at the depth ceiling; which cascades return, and one that
      does not.
    - Queries ([QueryFacts]): the declared order is strict and independent of
      storage order, pages cover the answer exactly, a token names its
      position, roles decide access.
    - Reports ([ReadModelFacts]): a checked grouping keeps every row at one
      leaf, grouped counts add up, a reducer's declared identity is what it
      computes, a report answers its heads in declared order.
    - References ([ReferenceLookup]): a clause reads through up to four
      references what the store holds; projected fields are scalars of it.
    - Invocations ([Routing]): a receiver names something, and what a saga leg
      is dispatched with is read back whole.
    - Runs ([CommandLineFacts]): logs are in step with the steps, asking
      changes nothing, saga snapshots are read back, and a run resumed from its
      answer goes on as if the past had been run again: cascades are [framed],
      so no step can tell how much was logged before it.
    - Connections ([ServeFacts]): sessions share nothing, a restore undoes what
      was done since the snapshot, a connection ends with its stream.
    - Patterns ([PatternFacts]): the matcher finds the spans the tree denotes,
      except where a required repetition is empty; an anchored pattern is met
      by whole values only.
    - Answers ([Present]): presenting loses nothing of a stored value.
    - Values and text ([ExprFacts], [JsonFacts], [Needs]): evaluation
      keeps values well formed and fails only with faults, integer division
      floors, JSON round-trips and is nested at most [MAX_DEPTH] deep, the
      clock counts calendar days.
    - Stores and orders ([Repository], [Vocab]): the in-memory store is a
      finite map; the declared orders name every step once.
    - The host's commands ([HostDispatchFacts]): a run keeps the domain or
      writes one row, a preview keeps nothing, the saga table becomes what the
      kernel reports, a read that follows answers the command's instances, and
      what each mode of role enforcement lets through.
    - The host's store ([HostStoreFacts]): in every interleaving the lock
      allows, what a unit loaded is still what is committed; what a failed
      commit leaves; when an amendment of a head may lose a write.
    - Facts and time ([HostNeeds], [Clock]): a request cannot say what time it
      is, recorded arguments replay to themselves, timestamps are read back.
    - The limiter ([RateLimitFacts]): while clients fit it counts as one that
      forgets nothing would, no interval as long as the window exceeds a limit,
      it stays bounded, and forged headers change nothing.
    - Deliveries and questions ([Delivery], [HostQuery]): no reaction is lost,
      a question keeps its bluebook, references become records.
    - Seals ([Ledger]): a journal kept and sealed walks clean, and two
      that walk clean to one head are one unless what they digest collides; a
      seal read before the lock breaks the chain.
    - Eras ([Eras]): an edge that passes its audit loses no record and no value
      its rules do not name, and backfills each; two bluebooks that declare the
      same in any order have one hash and boot at one era.
    - Sign-in ([StrictJson], [VerifierFacts], [Tokens],
      [SigninFlowFacts]): an accepted token passed every check and is accepted
      once while it is remembered; a callback signs in members only, and has
      two answers; what a signed token may be taken for.
    - Members ([MemberFacts]): a site that has an admin without an end date
      keeps one; which writes undo a disabling.
    - Forms and pages ([FormsFacts], [WebPagesFacts]): what is sent for the
      inputs of a command, a list's lines among them, arrives as its arguments;
      what is put in a page is never markup.
    - Routes ([WebRoutesFacts]): the member routes and the members' page change
      something for admins only, by either cookie, a sign-in with
      Google stays in the browser it began in, no route opens the gate.
    - The console ([UiSchema], [Presentation], [Api]): the documents end
      and any more levels give the same; what the console is shown it can do;
      it writes only through declared commands; a creation met its
      preconditions, and its identity is minted by the declared rule; records have one order; a saved entry
      is loaded as it was submitted; an admitted configuration fits the domain.
    - Rules ([ExprTextFacts], [ExprJson]): every text is parsed; what the host
      reads of a rule's document is the expression of its tree, a literal set
      as an or of equalities that has the set's answers; arithmetic is printed
      as it is read.  A literal ([RubyValue]) is read back as it was rendered.

    ** Bounds and fuel

    Expressions, JSON values and rows are recursed on structurally.  The JSON
    parser descends on the nesting left ([MAX_DEPTH] = 128) and loops over the
    characters left, which every turn consumes.  A loop of the source that
    ends by a measure (splitting, escaping, printing digits, base64) runs on
    that measure: the pattern parser on the length of the pattern, a repetition
    on the characters left, a connection on the lines left ([serve_ends]: one
    more than there are is enough).  A percentile past the end of its values,
    where the source panics, reads null.  [Cascade::run] and the draining of a
    ledger have no bound in the source: they take turns from a budget, [None]
    means it ran out, and [orchestration_returns] and [root_loop_never_returns]
    say when it need not, and when it always does.  The hypothesis of the first
    on compensating commands is not idle: a ledger is read again at every turn,
    so one whose entries earn new entries is drained for ever.  In the host a
    delivery is tried [max_delivery_attempts] times, and the table of declared
    defaults descends through the entities of the IR to a given depth, which an
    IR's own nesting is enough for.  A command's fields and a described field
    descend through value objects for as long as the source does, which is for
    ever where one contains itself: they take levels, [None] means they ran
    out, and where value objects are ranked above what they hold twice the
    highest rank and two ([command_forms_arrive]), or the highest rank and one
    ([interface_documents_end]), are enough; the shape of an aggregate names a
    type met again, so as many levels as it has types and one more are enough
    ([enough_levels]).  What follows a document already
    read ([inspect], a stat's [where]) descends [DEPTH] = 129 levels, one more
    than [serde_json] reads.  The parsers of a rule's text
    take a turn for every character and one more, which is enough and any more
    give the same ([texts_are_parsed]); a rule's document is read on its depth,
    a literal on its length.  Ordinals, [i64] there, are unbounded here.

    ** Not modelled

    Of the host: the shop's registrations and newsletter, the exchange with
    payment providers, boot, the HTTP server and the loading of wasm modules
    are adapters or extensions around what is modelled; the Postgres backend is
    SQL, of which the in-memory backend is the executable counterpart.  Of the
    eras, the shape, the choice at a boot, the rules and the audit of an edge are
    modelled; the tables an era is minted into are such SQL too, and the check
    of the rules as they are declared ([reference_validate.rs]) is not reached.  Of the bluebook
    parser the expression grammar and the literals are modelled, as what they
    say is what the kernel does; the sentences around them, the language server
    and code generator, the generated crates and the Ruby implementation are
    other programs.  Debug assertions and panics of a debug
    build are modelled as the release build's behaviour. *)

From Stdlib Require Export NArith ZArith Lia Permutation Sorted.
From Stdlib Require Import Strings.Byte.
From stdpp Require Export base list numbers countable decidable.

#[export] Set Warnings "-via-type-remapping,-via-type-mismatch,-register-all,-clear-no-such-hyp".

(** ** Characters and strings

    A Rust [char] is a Unicode scalar value, a Rust [String] the sequence of
    them that its UTF-8 bytes spell: [str] is that sequence.  The order Rust
    gives strings (byte order of the UTF-8 text) is the order of the scalar
    values, [str_compare]. *)
Abbreviation char := N.
Definition str : Type := list char.

#[global] Instance str_eq_dec : EqDecision str := _ : EqDecision (list N).
#[global] Instance str_countable : Countable str := _ : Countable (list N).
#[global] Instance str_inhabited : Inhabited str := populate (@nil N).

(** A Unicode scalar value: below 0x110000 and not a surrogate. *)
Definition is_scalar (c : char) : bool :=
  ((c <? 55296) || ((57343 <? c) && (c <? 1114112)))%N.

(** *** UTF-8, as [str::as_bytes] and [String::from_utf8] read it.  A byte is
    an [N] below 256; decoding refuses overlong forms, surrogates and
    values past 0x10FFFF. *)
Definition utf8_char (c : char) : list N :=
  (if c <? 128 then [c]
   else if c <? 2048 then [192 + c / 64; 128 + c mod 64]
   else if c <? 65536 then [224 + c / 4096; 128 + (c / 64) mod 64; 128 + c mod 64]
   else [240 + c / 262144; 128 + (c / 4096) mod 64; 128 + (c / 64) mod 64; 128 + c mod 64])%N.

Definition utf8_encode (s : str) : list N := flat_map utf8_char s.

Definition is_cont (b : N) : bool := ((128 <=? b) && (b <? 192))%N.

Definition scalar_from (low c : N) : option char :=
  if (low <=? c)%N && is_scalar c then Some c else None.

Fixpoint utf8_decode (bs : list N) : option str :=
  match bs with
  | [] => Some []
  | b1 :: r1 =>
    if (b1 <? 128)%N then cons b1 <$> utf8_decode r1
    else match r1 with
    | [] => None
    | b2 :: r2 =>
      if negb (is_cont b2) then None
      else if ((192 <=? b1) && (b1 <? 224))%N then
        c ← scalar_from 128 ((b1 - 192) * 64 + (b2 - 128));
        cons c <$> utf8_decode r2
      else match r2 with
      | [] => None
      | b3 :: r3 =>
        if negb (is_cont b3) then None
        else if ((224 <=? b1) && (b1 <? 240))%N then
          c ← scalar_from 2048 ((b1 - 224) * 4096 + (b2 - 128) * 64 + (b3 - 128));
          cons c <$> utf8_decode r3
        else match r3 with
        | [] => None
        | b4 :: r4 =>
          if negb (is_cont b4) then None
          else if ((240 <=? b1) && (b1 <? 248))%N then
            c ← scalar_from 65536
              ((b1 - 240) * 262144 + (b2 - 128) * 4096 + (b3 - 128) * 64 + (b4 - 128));
            cons c <$> utf8_decode r4
          else None
        end
      end
    end
  end.

(** *** String literals, in [str_scope]: the text between the quotes, decoded. *)
Inductive str_literal : Set := StrLiteral (bytes : list Byte.byte).
Definition str_literal_parse (bytes : list Byte.byte) : str_literal := StrLiteral bytes.
Definition str_literal_print (l : str_literal) : list Byte.byte :=
  match l with StrLiteral bytes => bytes end.
Definition text (bytes : list Byte.byte) : str :=
  default [] (utf8_decode (map Byte.to_N bytes)).
Arguments text : simpl never.

Declare Scope str_scope.
Delimit Scope str_scope with str.
Bind Scope str_scope with str.
String Notation str str_literal_parse str_literal_print
  (via str_literal mapping [text => StrLiteral]) : str_scope.
Open Scope str_scope.

(** The double quote and the backslash, which no literal spells. *)
Definition dquote : str := [34%N].
Definition backslash : str := [92%N].

Ltac N_bool :=
  repeat match goal with
  | |- context [(?a <? ?b)%N] =>
      first [ rewrite (proj2 (N.ltb_lt a b)) by lia
            | rewrite (proj2 (N.ltb_ge a b)) by lia ]; cbn [negb andb orb]
  | |- context [(?a <=? ?b)%N] =>
      first [ rewrite (proj2 (N.leb_le a b)) by lia
            | rewrite (proj2 (N.leb_gt a b)) by lia ]; cbn [negb andb orb]
  end.

(** Reads every [c / 64^k] and [c mod 64] of the goal as a linear fact. *)
Ltac N_digits c :=
  pose proof (N.div_mod c 64 ltac:(done)); pose proof (N.mod_lt c 64 ltac:(done));
  pose proof (N.le_0_l (c mod 64)); pose proof (N.le_0_l ((c / 64) mod 64));
  pose proof (N.le_0_l ((c / 64 / 64) mod 64));
  pose proof (N.div_mod (c / 64) 64 ltac:(done));
  pose proof (N.mod_lt (c / 64) 64 ltac:(done));
  pose proof (N.div_mod (c / 64 / 64) 64 ltac:(done));
  pose proof (N.mod_lt (c / 64 / 64) 64 ltac:(done));
  replace (c / 4096)%N with (c / 64 / 64)%N in * by (by rewrite N.Div0.div_div);
  replace (c / 262144)%N with (c / 64 / 64 / 64)%N in * by (by rewrite !N.Div0.div_div).

Lemma utf8_char_decode (c : char) (bs : list N) :
  is_scalar c = true →
  utf8_decode (utf8_char c ++ bs) = cons c <$> utf8_decode bs.
Proof.
  intros Hs. assert (Hs' := Hs). unfold is_scalar in Hs'.
  apply orb_true_iff in Hs'. rewrite andb_true_iff, !N.ltb_lt in Hs'.
  unfold utf8_char.
  destruct (N.ltb_spec c 128); [cbn [app utf8_decode]; by N_bool|].
  N_digits c.
  destruct (N.ltb_spec c 2048); [|destruct (N.ltb_spec c 65536)];
    cbn [app utf8_decode]; unfold scalar_from, is_cont; N_bool.
  - replace (_ * 64 + _)%N with c by lia. by N_bool; rewrite Hs.
  - replace (_ * 4096 + _ * 64 + _)%N with c by lia. by N_bool; rewrite Hs.
  - replace (_ * 262144 + _ * 4096 + _ * 64 + _)%N with c by lia. by N_bool; rewrite Hs.
Qed.

(** A string is well formed when each of its characters is a scalar value,
    as the type [char] guarantees in Rust. *)
Definition wf_str (s : str) : bool := forallb is_scalar s.

Lemma utf8_roundtrip (s : str) :
  wf_str s = true → utf8_decode (utf8_encode s) = Some s.
Proof.
  induction s as [|c s IH]; [done|]. cbn [wf_str forallb].
  rewrite andb_true_iff. intros [Hc Hs].
  cbn [utf8_encode flat_map]. rewrite utf8_char_decode by done.
  fold (utf8_encode s). by rewrite IH.
Qed.

(** *** The operations of [str] and [String] the sources use *)

(** [Ord::cmp] on strings. *)
Fixpoint str_compare (a b : str) : comparison :=
  match a, b with
  | [], [] => Eq
  | [], _ :: _ => Lt
  | _ :: _, [] => Gt
  | x :: a', y :: b' =>
    match (x ?= y)%N with Eq => str_compare a' b' | c => c end
  end.

Definition str_ltb (a b : str) : bool := match str_compare a b with Lt => true | _ => false end.
Definition str_leb (a b : str) : bool := match str_compare a b with Gt => false | _ => true end.
Definition str_eqb (a b : str) : bool := bool_decide (a = b).
Definition str_lt (a b : str) : Prop := str_compare a b = Lt.

Fixpoint starts_with (s prefix : str) : bool :=
  match prefix, s with
  | [], _ => true
  | p :: prefix', c :: s' => (c =? p)%N && starts_with s' prefix'
  | _ :: _, [] => false
  end.
Definition ends_with (s suffix : str) : bool := starts_with (rev s) (rev suffix).
Definition strip_prefix (s prefix : str) : option str :=
  if starts_with s prefix then Some (drop (length prefix) s) else None.

(** [str::contains] of a string: some suffix starts with it. *)
Fixpoint contains (s part : str) : bool :=
  starts_with s part || match s with [] => false | _ :: s' => contains s' part end.

(** [str::split] on a non-empty separator: left to right, matches do not
    overlap; [skip] counts the characters of a match still to pass. *)
Fixpoint split_go (sep : str) (skip : nat) (piece s : str) : list str :=
  match s with
  | [] => [rev piece]
  | c :: s' =>
    match skip with
    | S k => split_go sep k piece s'
    | O =>
      if starts_with s sep then rev piece :: split_go sep (length sep - 1) [] s'
      else split_go sep 0 (c :: piece) s'
    end
  end.
Definition split (s sep : str) : list str := split_go sep 0 [] s.

(** [split(sep).next()]. *)
Definition first_piece (s sep : str) : str := default s (head (split s sep)).
(** [rsplit(sep).next()], for a separator that reads the same both ways. *)
Definition last_piece (s sep : str) : str := rev (first_piece (rev s) sep).

(** [str::split] on any of a set of characters. *)
Fixpoint split_chars_go (is_sep : char → bool) (piece s : str) : list str :=
  match s with
  | [] => [rev piece]
  | c :: s' =>
    if is_sep c then rev piece :: split_chars_go is_sep [] s'
    else split_chars_go is_sep (c :: piece) s'
  end.
Definition split_chars (is_sep : char → bool) (s : str) : list str := split_chars_go is_sep [] s.

Fixpoint join (sep : str) (parts : list str) : str :=
  match parts with
  | [] => []
  | [p] => p
  | p :: rest => p ++ sep ++ join sep rest
  end.

(** [str::replace]. *)
Definition replace_all (s from to : str) : str := join to (split s from).

(** [str::split_once] and [str::rsplit_once] on one character. *)
Fixpoint split_once (s : str) (c : char) : option (str * str) :=
  match s with
  | [] => None
  | x :: s' =>
    if (x =? c)%N then Some ([], s')
    else match split_once s' c with Some (a, b) => Some (x :: a, b) | None => None end
  end.
Definition rsplit_once (s : str) (c : char) : option (str * str) :=
  match split_once (rev s) c with Some (a, b) => Some (rev b, rev a) | None => None end.

Fixpoint trim_start (p : char → bool) (s : str) : str :=
  match s with c :: s' => if p c then trim_start p s' else s | [] => [] end.
Definition trim_end (p : char → bool) (s : str) : str := rev (trim_start p (rev s)).
Definition trim_both (p : char → bool) (s : str) : str := trim_end p (trim_start p s).

Definition is_digit (c : char) : bool := ((48 <=? c) && (c <=? 57))%N.
Definition is_upper (c : char) : bool := ((65 <=? c) && (c <=? 90))%N.
Definition is_lower (c : char) : bool := ((97 <=? c) && (c <=? 122))%N.

(** [char::is_whitespace]: Unicode's White_Space property. *)
Definition is_whitespace (c : char) : bool :=
  ((9 <=? c) && (c <=? 13) || (c =? 32) || (c =? 133) || (c =? 160) || (c =? 5760)
   || (8192 <=? c) && (c <=? 8202) || (c =? 8232) || (c =? 8233) || (c =? 8239)
   || (c =? 8287) || (c =? 12288))%N.

(** *** Decimal digits: [to_string] and [parse] of the integer types *)
Fixpoint dec_go (fuel : nat) (n : N) (acc : str) : str :=
  match fuel with
  | O => acc
  | S f =>
    let acc' := ((48 + n mod 10) :: acc)%N in
    if (n <? 10)%N then acc' else dec_go f (n / 10)%N acc'
  end.
Definition dec_N (n : N) : str := dec_go (S (N.size_nat n)) n [].
Definition dec_Z (z : Z) : str :=
  if (z <? 0)%Z then "-" ++ dec_N (Z.abs_N z) else dec_N (Z.abs_N z).
Definition dec_nat (n : nat) : str := dec_N (N.of_nat n).

(** The value of a digit string, most significant first. *)
Definition digits_value (s : str) : N := fold_left (fun a c => a * 10 + (c - 48))%N s 0%N.
Definition parse_digits (s : str) : option N :=
  match s with [] => None | _ => if forallb is_digit s then Some (digits_value s) else None end.

(** ** Machine integers: the 64-bit signed range and its checked operations *)
Definition i64_min : Z := -(2 ^ 63).
Definition i64_max : Z := 2 ^ 63 - 1.
Definition in_i64 (z : Z) : bool := ((i64_min <=? z) && (z <=? i64_max))%Z.
Definition checked (z : Z) : option Z := if in_i64 z then Some z else None.
Definition checked_add (a b : Z) : option Z := checked (a + b).
Definition checked_sub (a b : Z) : option Z := checked (a - b).
Definition checked_mul (a b : Z) : option Z := checked (a * b).
(** [checked_div] truncates, and has no answer for a zero divisor or [MIN / -1]. *)
Definition checked_div (a b : Z) : option Z :=
  if (b =? 0)%Z then None else checked (Z.quot a b).

(** What an [i64] operation leaves of a result in a release build. *)
Definition wrap64 (z : Z) : Z := ((z + 2 ^ 63) mod 2 ^ 64 - 2 ^ 63)%Z.

(** [str::parse::<i64>]: an optional sign, then digits; out of range is an error. *)
Definition parse_i64 (s : str) : option Z :=
  let signed neg ds :=
    n ← parse_digits ds; checked (if neg : bool then - Z.of_N n else Z.of_N n)%Z in
  match s with
  | 45%N :: ds => signed true ds
  | 43%N :: ds => signed false ds
  | ds => signed false ds
  end.

(** ** Results *)
Inductive result (E A : Type) : Type :=
| Ok (a : A)
| Err (e : E).
Arguments Ok {E A} a.
Arguments Err {E A} e.

Notation "'let?' x ':=' c 'in' k" :=
  (match c with Ok x => k | Err e => Err e end)
  (at level 10, x name, c at level 100, k at level 200,
   format "'let?'  x  ':='  c  'in' '//' k").
Notation "c ';;?' k" :=
  (match c with Ok _ => k | Err e => Err e end)
  (at level 100, k at level 200, right associativity, format "c  ';;?' '//' k").

Definition is_ok {E A} (r : result E A) : bool := match r with Ok _ => true | Err _ => false end.
Definition ok_or {E A} (o : option A) (e : E) : result E A :=
  match o with Some a => Ok a | None => Err e end.

(** [iter().map(f).collect::<Result<Vec<_>, _>>()]: the first error, left to right. *)
Fixpoint collect_results {E A B} (f : A → result E B) (l : list A) : result E (list B) :=
  match l with
  | [] => Ok []
  | a :: l' => let? b := f a in let? bs := collect_results f l' in Ok (b :: bs)
  end.

(** A loop that carries a value and returns at the first error ([for] with [?]). *)
Fixpoint try_fold {E A B} (f : B → A → result E B) (acc : B) (l : list A) : result E B :=
  match l with
  | [] => Ok acc
  | a :: l' => let? acc' := f acc a in try_fold f acc' l'
  end.

(** ** Lists: [iter().find], [position], and the stable [sort_by] *)
Fixpoint find_index {A} (p : A → bool) (l : list A) : option nat :=
  match l with
  | [] => None
  | a :: l' => if p a then Some O else S <$> find_index p l'
  end.

Fixpoint sort_insert {A} (cmp : A → A → comparison) (x : A) (l : list A) : list A :=
  match l with
  | [] => [x]
  | y :: l' => match cmp x y with Gt => y :: sort_insert cmp x l' | _ => x :: l end
  end.
Definition sort_by {A} (cmp : A → A → comparison) (l : list A) : list A :=
  foldr (sort_insert cmp) [] l.

(** The value held under [k], first match (a [Vec<(String, _)>] searched with [find]). *)
Fixpoint assoc {A} (k : str) (l : list (str * A)) : option A :=
  match l with
  | [] => None
  | (k', v) :: l' => if bool_decide (k = k') then Some v else assoc k l'
  end.

(** ** Lemmas *)

Lemma collect_results_all {E A B} (f : A → result E B) (l : list A) (bs : list B) :
  collect_results f l = Ok bs ↔ Forall2 (λ a b, f a = Ok b) l bs.
Proof.
  revert bs. induction l as [|a l IH]; intros bs; simpl; [split; [by intros [= <-]|by inversion 1]|].
  destruct (f a) as [b|] eqn:Ef; [|split; [done|inversion 1; congruence]].
  destruct (collect_results f l) as [bs'|] eqn:Ec.
  - split; [intros [= <-]; constructor; [done|by apply IH]|].
    inversion 1 as [|? b' ? bs'' Hb Hbs]; subst. apply IH in Hbs. congruence.
  - split; [done|]. inversion 1 as [|? b' ? bs'' Hb Hbs]; subst. apply IH in Hbs. congruence.
Qed.

Lemma str_compare_refl (s : str) : str_compare s s = Eq.
Proof. induction s as [|c s IH]; simpl; [done|]. by rewrite N.compare_refl. Qed.

Lemma str_compare_eq (a b : str) : str_compare a b = Eq ↔ a = b.
Proof.
  split; [|intros ->; apply str_compare_refl].
  revert b; induction a as [|x a IH]; intros [|y b]; simpl; try done.
  destruct (N.compare_spec x y); try done. intros H'. subst. f_equal. by apply IH.
Qed.

Lemma str_compare_antisym (a b : str) : str_compare b a = CompOpp (str_compare a b).
Proof.
  revert b; induction a as [|x a IH]; intros [|y b]; simpl; try done.
  rewrite (N.compare_antisym x y). destruct (x ?= y)%N; simpl; [apply IH|done..].
Qed.

Lemma str_lt_trans (a b c : str) : str_lt a b → str_lt b c → str_lt a c.
Proof.
  unfold str_lt. revert b c.
  induction a as [|x a IH]; intros [|y b] [|z c]; simpl; try done.
  destruct (N.compare_spec x y), (N.compare_spec y z); try done; subst.
  - rewrite N.compare_refl. eauto.
  - by rewrite (proj2 (N.compare_lt_iff y z)).
  - by rewrite (proj2 (N.compare_lt_iff x z)).
  - intros _ _. by rewrite (proj2 (N.compare_lt_iff x z)) by lia.
Qed.

#[global] Instance str_lt_strict : StrictOrder str_lt.
Proof.
  split; [|intros a b c; apply str_lt_trans].
  intros s. unfold complement, str_lt. by rewrite str_compare_refl.
Qed.

Lemma str_compare_gt (a b : str) : str_compare a b = Gt ↔ str_lt b a.
Proof.
  unfold str_lt. rewrite (str_compare_antisym a b). by destruct (str_compare a b).
Qed.

Lemma str_lt_trichotomy (a b : str) : str_lt a b ∨ a = b ∨ str_lt b a.
Proof.
  destruct (str_compare a b) eqn:E.
  - right; left. by apply str_compare_eq.
  - by left.
  - right; right. by apply str_compare_gt.
Qed.

(** *** Splitting and joining *)
Lemma starts_with_split (s p : str) :
  starts_with s p = true ↔ s = p ++ drop (length p) s.
Proof.
  revert s; induction p as [|x p IH]; intros [|c s]; simpl; try done.
  rewrite andb_true_iff, N.eqb_eq, IH. split; [intros [-> <-]; done|].
  intros [= -> ?]. done.
Qed.

Lemma starts_with_app (p r : str) : starts_with (p ++ r) p = true.
Proof. induction p as [|x p IH]; simpl; [by destruct r|]. by rewrite N.eqb_refl. Qed.

Lemma split_go_nonnil (sep : str) (k : nat) (piece s : str) : split_go sep k piece s ≠ [].
Proof.
  revert k piece; induction s as [|c s IH]; intros k piece; simpl; [done|].
  destruct k; [by case_match|apply IH].
Qed.

Lemma join_cons (sep p : str) (ps : list str) :
  ps ≠ [] → join sep (p :: ps) = p ++ sep ++ join sep ps.
Proof. by destruct ps. Qed.

Lemma join_split_go (sep piece s : str) (k : nat) :
  sep ≠ [] → k ≤ length s →
  join sep (split_go sep k piece s) = rev piece ++ drop k s.
Proof.
  intros Hsep. revert k piece.
  induction s as [|c s IH]; intros k piece Hk; cbn [length] in Hk.
  { replace k with 0 by lia. simpl. by rewrite app_nil_r. }
  cbn [split_go]. destruct k as [|k]; [|rewrite IH by lia; done].
  destruct (starts_with (c :: s) sep) eqn:E.
  - apply starts_with_split in E. destruct sep as [|p sep]; [done|].
    assert (length (p :: sep) ≤ length (c :: s)) as Hl.
    { rewrite E, length_app. lia. }
    cbn [length] in Hl. rewrite join_cons by apply split_go_nonnil.
    cbn [length]. rewrite IH by lia. simpl in *. rewrite Nat.sub_0_r.
    injection E as -> E. by rewrite <- E.
  - rewrite IH by lia. simpl. by rewrite <- app_assoc.
Qed.

(** Joining the pieces of a split gives the text back. *)
Lemma join_split (s sep : str) : sep ≠ [] → join sep (split s sep) = s.
Proof. intros H. unfold split. rewrite join_split_go by (try done; lia). done. Qed.

(** *** Decimal digits *)
Lemma dec_go_app (fuel : nat) (n : N) (acc : str) :
  dec_go fuel n acc = dec_go fuel n [] ++ acc.
Proof.
  revert n acc; induction fuel as [|f IH]; intros n acc; simpl; [done|].
  case_match; [done|]. rewrite IH, (IH _ [_]). by rewrite <- app_assoc.
Qed.

Lemma digits_value_app (a : str) (c : char) :
  digits_value (a ++ [c]) = (digits_value a * 10 + (c - 48))%N.
Proof. unfold digits_value. by rewrite fold_left_app. Qed.

Lemma dec_go_S (f : nat) (n : N) (acc : str) :
  dec_go (S f) n acc =
  if (n <? 10)%N then ((48 + n mod 10) :: acc)%N else dec_go f (n / 10) ((48 + n mod 10) :: acc)%N.
Proof. done. Qed.

Lemma dec_go_digits (fuel : nat) (n : N) :
  (n < 2 ^ N.of_nat fuel)%N →
  forallb is_digit (dec_go (S fuel) n []) = true ∧ digits_value (dec_go (S fuel) n []) = n.
Proof.
  assert (∀ m, (m < 10)%N → is_digit (48 + m) = true) as Hd.
  { intros m Hm. unfold is_digit. by N_bool. }
  revert n; induction fuel as [|f IH]; intros n Hn.
  { assert (n = 0)%N as -> by (simpl in Hn; lia). done. }
  rewrite dec_go_S. destruct (N.ltb_spec n 10).
  { rewrite N.mod_small by done. cbn [forallb]. rewrite Hd by done. split; [done|].
    unfold digits_value; simpl. lia. }
  rewrite dec_go_app.
  destruct (IH (n / 10)%N) as [H1 H2].
  { rewrite Nat2N.inj_succ, N.pow_succ_r' in Hn.
    pose proof (N.le_0_l (2 ^ N.of_nat f)). apply N.Div0.div_lt_upper_bound. lia. }
  rewrite forallb_app, H1, digits_value_app, H2. cbn [forallb].
  pose proof (N.mod_lt n 10 ltac:(done)). pose proof (N.le_0_l (n mod 10)). rewrite Hd by done. split; [done|].
  pose proof (N.div_mod n 10 ltac:(done)). lia.
Qed.

Lemma dec_N_spec (n : N) :
  forallb is_digit (dec_N n) = true ∧ digits_value (dec_N n) = n ∧ dec_N n ≠ [].
Proof.
  assert (n < 2 ^ N.of_nat (N.size_nat n))%N as Hn.
  { destruct n as [|p]; [done|]. pose proof (N.size_gt (N.pos p)) as Hp.
    replace (N.of_nat (N.size_nat (N.pos p))) with (N.size (N.pos p)); [done|].
    symmetry. simpl. clear Hp. induction p as [p IH|p IH|]; simpl Pos.size_nat;
      rewrite ?Nat2N.inj_succ, ?IH; done. }
  destruct (dec_go_digits _ _ Hn) as [H1 H2]. split_and!; [done..|].
  unfold dec_N. rewrite dec_go_S. destruct (_ <? _)%N; [done|].
  rewrite dec_go_app. intros Heq. apply app_nil in Heq as [_ Heq]. discriminate Heq.
Qed.

Lemma parse_digits_dec_N (n : N) : parse_digits (dec_N n) = Some n.
Proof.
  destruct (dec_N_spec n) as (H1 & H2 & H3). unfold parse_digits.
  destruct (dec_N n) eqn:E; [done|]. by rewrite H1, H2.
Qed.

(** A printed digit string never begins with a sign. *)
Lemma dec_N_head (n : N) : ∃ c r, dec_N n = c :: r ∧ (48 ≤ c)%N.
Proof.
  destruct (dec_N_spec n) as (H1 & _ & H3). destruct (dec_N n) as [|c r]; [done|].
  exists c, r. split; [done|]. simpl in H1. apply andb_true_iff in H1 as [H1 _].
  unfold is_digit in H1. apply andb_true_iff in H1 as [H1 _]. by apply N.leb_le in H1.
Qed.

Lemma parse_i64_dec_Z (z : Z) : in_i64 z = true → parse_i64 (dec_Z z) = Some z.
Proof.
  intros Hz. unfold dec_Z. destruct (Z.ltb_spec z 0).
  - change ("-" ++ dec_N (Z.abs_N z)) with (45%N :: dec_N (Z.abs_N z)).
    unfold parse_i64. rewrite parse_digits_dec_N. simpl. unfold checked.
    replace (- Z.of_N (Z.abs_N z))%Z with z by lia. by rewrite Hz.
  - destruct (dec_N_head (Z.abs_N z)) as (c & r & E & Hc).
    assert (parse_i64 (dec_N (Z.abs_N z)) =
            (n ← parse_digits (dec_N (Z.abs_N z)); checked (Z.of_N n))) as ->.
    { rewrite E. unfold parse_i64. by repeat (case_match; try lia). }
    rewrite parse_digits_dec_N. simpl. unfold checked.
    replace (Z.of_N (Z.abs_N z)) with z by lia. by rewrite Hz.
Qed.

Lemma wrap64_small (z : Z) : (-2 ^ 63 <= z < 2 ^ 63)%Z → wrap64 z = z.
Proof. intros H. unfold wrap64. rewrite Z.mod_small; lia. Qed.

(** *** Sorting *)
Section sorting.
Context {A : Type} (cmp : A → A → comparison).

Definition cmp_le (x y : A) : Prop := cmp x y ≠ Gt.

Lemma sort_insert_perm (x : A) (l : list A) : sort_insert cmp x l ≡ₚ x :: l.
Proof.
  induction l as [|y l IH]; simpl; [done|].
  destruct (cmp x y); [done..|]. rewrite IH. constructor.
Qed.

Lemma sort_by_perm (l : list A) : sort_by cmp l ≡ₚ l.
Proof. induction l as [|x l IH]; simpl; [done|]. by rewrite sort_insert_perm, IH. Qed.

(** An already sorted list is left as it is, whatever the comparison. *)
Lemma sort_by_sorted_id (l : list A) : StronglySorted cmp_le l → sort_by cmp l = l.
Proof.
  induction 1 as [|x l _ IH Hx]; simpl; [done|]. fold (sort_by cmp l). rewrite IH.
  destruct Hx as [|y l Hy _]; simpl; [done|].
  unfold cmp_le in Hy. by destruct (cmp x y).
Qed.

Context (antisym : ∀ x y, cmp y x = CompOpp (cmp x y)).
Context (trans : ∀ x y z, cmp_le x y → cmp_le y z → cmp_le x z).

Lemma sort_insert_sorted (x : A) (l : list A) :
  StronglySorted cmp_le l → StronglySorted cmp_le (sort_insert cmp x l).
Proof.
  induction 1 as [|y l Hl IH Hy]; simpl; [repeat constructor|].
  destruct (cmp x y) eqn:E.
  1,2: constructor; [by constructor|]; constructor; [by unfold cmp_le; rewrite E|];
       eapply Forall_impl; [|exact Hy]; intros z Hz; eapply trans; [|exact Hz];
       by unfold cmp_le; rewrite E.
  constructor; [done|]. rewrite sort_insert_perm. constructor; [|done].
  unfold cmp_le. by rewrite antisym, E.
Qed.

Lemma sort_by_sorted (l : list A) : StronglySorted cmp_le (sort_by cmp l).
Proof. induction l as [|x l IH]; simpl; [constructor|]. by apply sort_insert_sorted. Qed.
End sorting.

(** Two sorted lists of the same elements are equal when the comparison
    separates distinct ones. *)
Lemma sorted_unique {A} (R : A → A → Prop) (l1 l2 : list A) :
  (∀ x y, R x y → R y x → x = y) →
  StronglySorted R l1 → StronglySorted R l2 → l1 ≡ₚ l2 → l1 = l2.
Proof.
  intros Ha H1. revert l2. induction H1 as [|x l1 H1 IH Hx]; intros l2 H2 HP.
  { by apply Permutation_nil in HP. }
  destruct H2 as [|y l2 H2 Hy].
  { by apply Permutation_sym, Permutation_nil in HP. }
  assert (x = y) as <-.
  { assert (x ∈ y :: l2) as Hin by (rewrite <- HP; left).
    assert (y ∈ x :: l1) as Hin' by (rewrite HP; left).
    apply elem_of_cons in Hin as [->|Hin]; [done|].
    apply elem_of_cons in Hin' as [->|Hin']; [done|].
    rewrite Forall_forall in Hx, Hy. apply Ha.
    - by apply Hx, list_elem_of_In.
    - by apply Hy, list_elem_of_In. }
  f_equal. apply IH; [done|]. by apply Permutation_cons_inv in HP.
Qed.

(** Sorting by identifier: the order the queries and the stores answer in. *)
Definition by_id {A} (x y : str * A) : comparison := str_compare x.1 y.1.

Lemma by_id_antisym {A} (x y : str * A) : by_id y x = CompOpp (by_id x y).
Proof. apply str_compare_antisym. Qed.

Lemma by_id_le_trans {A} (x y z : str * A) :
  cmp_le by_id x y → cmp_le by_id y z → cmp_le by_id x z.
Proof.
  unfold cmp_le, by_id. rewrite !str_compare_gt. intros H1 H2 H3.
  destruct (str_lt_trichotomy x.1 y.1) as [H|[H|H]]; [|congruence|done].
  apply H2. by transitivity x.1.
Qed.

(** *** Association lists *)
Lemma assoc_elem_of {A} (k : str) (l : list (str * A)) (v : A) :
  assoc k l = Some v → (k, v) ∈ l.
Proof.
  induction l as [|[k' v'] l IH]; simpl; [done|].
  case_bool_decide; [intros [= ->]; subst; left|right; auto].
Qed.

Lemma assoc_None {A} (k : str) (l : list (str * A)) : assoc k l = None ↔ k ∉ l.*1.
Proof.
  induction l as [|[k' v'] l IH]; simpl; [split; [intros _; apply not_elem_of_nil|done]|].
  rewrite not_elem_of_cons, <- IH. case_bool_decide; naive_solver.
Qed.

Lemma assoc_app {A} (k : str) (l1 l2 : list (str * A)) :
  assoc k (l1 ++ l2) = match assoc k l1 with Some v => Some v | None => assoc k l2 end.
Proof. induction l1 as [|[k' v'] l1 IH]; simpl; [done|]. by case_bool_decide. Qed.

Create HintDb hecks.
Create Rewrite HintDb hecks.
#[export] Hint Resolve str_compare_refl sort_by_perm : hecks.
#[export] Hint Rewrite str_compare_refl @sort_by_perm parse_digits_dec_N : hecks.

(** Splits every [match] and [if] of the goal and its hypotheses, closing the
    contradictory branches. *)
Ltac split_cases := repeat (case_match; simplify_eq/=; try done).
