(* ===== verification/RustText.v ===== *)
(** What Rust's formatting writes of texts, numbers and options: the pieces of
    [{:?}] and [{:X}] the kernel's messages are made of.  The Unicode tables of
    the standard library's version are a class: [debug_printable] is
    [core::unicode::printable::is_printable] less the grapheme extenders,
    [to_lower] is [char::to_lowercase], both beyond ASCII. *)
From S2P Require Export Prelude.

Class UnicodeTables := {
  debug_printable : char → bool;
  to_lower : char → str
}.

(** Lower- and upper-case hexadecimal digits. *)
Definition hex_digit (upper : bool) (d : N) : char :=
  (if d <? 10 then 48 + d else (if upper then 55 else 87) + d)%N.
Fixpoint hex_go (fuel : nat) (upper : bool) (n : N) (acc : str) : str :=
  match fuel with
  | O => acc
  | S f =>
    let acc' := hex_digit upper (n mod 16)%N :: acc in
    if (n <? 16)%N then acc' else hex_go f upper (n / 16)%N acc'
  end.
Definition hex (upper : bool) (n : N) : str := hex_go (S (N.size_nat n)) upper n [].

(** Zero-padded on the left to [width]. *)
Definition pad_left (c : char) (width : nat) (s : str) : str :=
  replicate (width - length s) c ++ s.
(** [{:04X}] and [{:04x}]. *)
Definition hex4 (upper : bool) (n : N) : str := pad_left 48 4 (hex upper n).

(** [\u{...}], the unpadded lower-case escape. *)
Definition unicode_escape (c : char) : str := backslash ++ "u{" ++ hex false c ++ "}".

Section text_debug.
Context `{U : UnicodeTables}.

(** [char::escape_debug_ext]: the simple escapes, then the printable
    characters as they are, the rest by code point. *)
Definition escape_debug (quote : char) (c : char) : str :=
  if (c =? 0)%N then backslash ++ "0"
  else if (c =? 9)%N then backslash ++ "t"
  else if (c =? 13)%N then backslash ++ "r"
  else if (c =? 10)%N then backslash ++ "n"
  else if (c =? 92)%N then backslash ++ backslash
  else if (c =? quote)%N then backslash ++ [c]
  else if (c <? 128)%N then
    if ((32 <=? c) && (c <? 127))%N then [c] else unicode_escape c
  else if debug_printable c then [c] else unicode_escape c.

(** [{:?}] of a [&str], of a [char] and of an [Option<char>]. *)
Definition debug_str (s : str) : str := dquote ++ flat_map (escape_debug 34) s ++ dquote.
Definition debug_char (c : char) : str := "'" ++ escape_debug 39 c ++ "'".
Definition debug_option_char (o : option char) : str :=
  match o with Some c => "Some(" ++ debug_char c ++ ")" | None => "None" end.
End text_debug.

(** [{}] and [{:?}] of the other primitives. *)
Definition debug_bool (b : bool) : str := if b then "true" else "false".
Definition debug_list (items : list str) : str := "[" ++ join ", " items ++ "]".

Section ascii_case.
Definition ascii_lower (c : char) : char := if is_upper c then (c + 32)%N else c.
Context `{U : UnicodeTables}.
(** [str::to_lowercase], less the final-sigma rule. *)
Definition to_lowercase (s : str) : str :=
  flat_map (λ c, if (c <? 128)%N then [ascii_lower c] else to_lower c) s.
End ascii_case.

Lemma starts_with_one (x c : char) (l : str) : starts_with (x :: l) [c] = (x =? c)%N.
Proof. cbn [starts_with]. destruct l; apply andb_true_r. Qed.
Lemma starts_with_cons (x c : char) (l p : str) :
  starts_with (x :: l) (c :: p) = (x =? c)%N && starts_with l p.
Proof. done. Qed.

(** *** [str::split_once] and [rsplit_once] at the one separator *)
Lemma split_once_single (a b : str) (c : char) : c ∉ a → split_once (a ++ c :: b) c = Some (a, b).
Proof.
  induction a as [|x a IH]; intros Ha; cbn [split_once app]; [by rewrite N.eqb_refl|].
  apply not_elem_of_cons in Ha as [Hx Ha]. destruct (N.eqb_spec x c); [by subst|]. by rewrite IH.
Qed.
Lemma split_once_join (s a b : str) (c : char) : split_once s c = Some (a, b) → s = a ++ [c] ++ b.
Proof.
  revert a; induction s as [|x s IH]; intros a; cbn [split_once]; [done|].
  destruct (N.eqb_spec x c) as [->|]; [by intros [= <- <-]|].
  destruct (split_once s c) as [[a' b']|]; [|done]. intros [= <- <-]. cbn. f_equal. by apply IH.
Qed.
Lemma rsplit_once_last (a b : str) (c : char) : c ∉ b → rsplit_once (a ++ [c] ++ b) c = Some (a, b).
Proof.
  intros Hb. unfold rsplit_once. rewrite !rev_app_distr. cbn [rev app]. rewrite <- app_assoc. cbn [app].
  rewrite split_once_single; [by rewrite !rev_involutive|].
  intros Hin. apply Hb. by apply list_elem_of_In, in_rev, list_elem_of_In.
Qed.

(** *** [str::replace] by a marker's first character *)
Lemma split_go_piece (sep piece s : str) :
  ∃ h t, split_go sep 0 [] s = h :: t ∧ split_go sep 0 piece s = (rev piece ++ h) :: t.
Proof.
  assert (∀ k s piece, ∃ h t, split_go sep k [] s = h :: t ∧
            split_go sep k piece s = (rev piece ++ h) :: t) as H; [|apply H].
  clear. intros k s; revert k; induction s as [|c s IH]; intros k piece; cbn [split_go].
  { exists [], []. split; [done|]. by rewrite app_nil_r. }
  destruct k as [|k]; [|by apply IH].
  destruct (starts_with (c :: s) sep).
  { eexists [], _. split; [reflexivity|]. by rewrite app_nil_r. }
  destruct (IH 0 [c]) as (h1 & t1 & E1 & E2), (IH 0 (c :: piece)) as (h2 & t2 & E3 & E4).
  rewrite E2, E4. rewrite E1 in E3. injection E3 as <- <-.
  eexists _, _. split; [reflexivity|]. simpl. by rewrite <- app_assoc.
Qed.

Lemma replace_all_nil (from to : str) : replace_all [] from to = [].
Proof. done. Qed.

Lemma replace_all_skip (c : char) (s from to : str) :
  starts_with (c :: s) from = false →
  replace_all (c :: s) from to = c :: replace_all s from to.
Proof.
  intros H. unfold replace_all, split. cbn [split_go]. rewrite H.
  destruct (split_go_piece from [c] s) as (h & t & E1 & E2). rewrite E1, E2.
  destruct t; simpl; [done|]. done.
Qed.

Lemma split_go_skip (sep a s : str) : split_go sep (length a) [] (a ++ s) = split_go sep 0 [] s.
Proof. induction a as [|c a IH]; simpl; [done|]. apply IH. Qed.

Lemma replace_all_match (from to s : str) :
  from ≠ [] → replace_all (from ++ s) from to = to ++ replace_all s from to.
Proof.
  intros Hf. unfold replace_all, split. destruct from as [|c from]; [done|].
  cbn [app split_go]. pose proof (starts_with_app (c :: from) s) as Hs. cbn [app] in Hs. rewrite Hs.
  cbn [length]. replace (S (length from) - 1) with (length from) by lia.
  rewrite split_go_skip.
  destruct (split_go (c :: from) 0 [] s) eqn:E; [by apply split_go_nonnil in E|]. done.
Qed.

Lemma replace_all_app_skip (a s from to : str) (f : char) (rest : str) :
  from = f :: rest → f ∉ a →
  replace_all (a ++ s) from to = a ++ replace_all s from to.
Proof.
  intros -> Ha. induction a as [|c a IH]; [done|].
  apply not_elem_of_cons in Ha as [Hc Ha]. cbn [app].
  rewrite replace_all_skip, IH; [done..|].
  cbn [starts_with]. destruct (N.eqb_spec c f); [congruence|done].
Qed.
