(* ===== verification/Refusal.v ===== *)
(** Refusals: the error type of the whole kernel ([src/rust/expr/src/refusal.rs])
    and the wording table every refusal message is rendered from
    ([src/rust/src/kernel/vocab/refusal_template.rs]).  A site's typed arguments
    are a [site_args]: the values under their keys, with the evidence that
    every marker of the site's template is one of them. *)
From S2P Require Export Prelude RustText.

(** ** The error type *)
Inductive Refusal :=
| GivenNotMet (msg : str)
| EnsuresNotMet (msg : str)
| InvariantViolation (msg : str)
| LifecycleRefused (msg : str)
| AlreadyExists (msg : str)
| NotFound (msg : str)
| TypeMismatch (msg : str)
| AbsentArgument (msg : str)
| UnknownArgument (msg : str)
| Unauthorized (msg : str)
| Fault (msg : str)
| NothingToCorrect (msg : str).

#[global] Instance Refusal_eq_dec : EqDecision Refusal.
Proof. solve_decision. Defined.

(** [Refusal::kind]: the class name, spelled as Ruby raises it. *)
Definition kind (r : Refusal) : str :=
  match r with
  | GivenNotMet _ => "GivenNotMet"
  | EnsuresNotMet _ => "EnsuresNotMet"
  | InvariantViolation _ => "InvariantViolation"
  | LifecycleRefused _ => "LifecycleRefused"
  | AlreadyExists _ => "AlreadyExists"
  | NotFound _ => "NotFound"
  | TypeMismatch _ => "TypeMismatch"
  | AbsentArgument _ => "AbsentArgument"
  | UnknownArgument _ => "UnknownArgument"
  | Unauthorized _ => "Unauthorized"
  | Fault _ => "Fault"
  | NothingToCorrect _ => "NothingToCorrect"
  end.

(** [Display for Refusal]. *)
Definition message (r : Refusal) : str :=
  match r with
  | GivenNotMet msg | EnsuresNotMet msg | InvariantViolation msg | LifecycleRefused msg
  | AlreadyExists msg | NotFound msg | TypeMismatch msg | AbsentArgument msg
  | UnknownArgument msg | Unauthorized msg | Fault msg | NothingToCorrect msg => msg
  end.

(** A refusal that is not a declared one: the evaluator's and the kernel's own
    breakage. *)
Definition is_fault (r : Refusal) : bool := match r with Fault _ => true | _ => false end.

Abbreviation res := (result Refusal).

(** ** The wording table *)
Inductive RefusalSite :=
| NotFoundCreatingNoIdentity
| AlreadyExistsCreatingDuplicate
| AlreadyExistsEntityDuplicate
| NotFoundActingNoIdentity
| NotFoundRecordMissing
| NotFoundEntityParentNoIdentity
| UnknownVerbEntityUnknown
| NotFoundEntityElementNoIdentity
| NotFoundEntityElementMissing
| NotFoundReferenceTargetMissing
| NotFoundReadModelReferenceMissing
| TypeMismatchReadModelObjectReference
| UnknownVerbNoQuery
| UnknownVerbEntityQueryMissing
| UnknownVerbEntityHoldsNoList
| UnknownVerbEntityNoCommand
| UnknownVerbAggregateNoCommand
| UnknownVerbPortNoOperation
| UnknownVerbNoDomain
| UnknownVerbNoReadModel
| UnknownVerbNotFullyQualified
| UnknownVerbNoAggregate
| LifecycleRefusedTransitionBlocked
| TypeMismatchValueObjectShape
| TypeMismatchReferenceWrongShape
| TypeMismatchMultiFieldScalar
| TypeMismatchCompositeIdentity
| TypeMismatchNumericField
| TypeMismatchNonFiniteField
| TypeMismatchIntegerRange
| TypeMismatchPatternMismatch
| TypeMismatchArithmeticAmount
| TypeMismatchArithmeticCurrent
| TypeMismatchArithmeticSharedField
| UnknownArgumentUnknownArgs
| AbsentArgumentAbsentArgs
| InvariantViolationClosedSetMember
| InvariantViolationValueObjectInvariant
| InvariantViolationAdmitsDeclaredSet
| InvariantViolationUndeclaredSet
| InvariantViolationGroupByCollision
| UnauthorizedTenantRequired
| UnauthorizedRoleMismatch
| UnauthorizedCrossTenantReference
| AttributeAbsentAbsentRead
| ProjectionAbsentAbsentRead.

#[global] Instance RefusalSite_eq_dec : EqDecision RefusalSite.
Proof. solve_decision. Defined.

(** Every row, in declared order. *)
Definition RefusalSite_ALL : list RefusalSite :=
  [NotFoundCreatingNoIdentity;
   AlreadyExistsCreatingDuplicate;
   AlreadyExistsEntityDuplicate;
   NotFoundActingNoIdentity;
   NotFoundRecordMissing;
   NotFoundEntityParentNoIdentity;
   UnknownVerbEntityUnknown;
   NotFoundEntityElementNoIdentity;
   NotFoundEntityElementMissing;
   NotFoundReferenceTargetMissing;
   NotFoundReadModelReferenceMissing;
   TypeMismatchReadModelObjectReference;
   UnknownVerbNoQuery;
   UnknownVerbEntityQueryMissing;
   UnknownVerbEntityHoldsNoList;
   UnknownVerbEntityNoCommand;
   UnknownVerbAggregateNoCommand;
   UnknownVerbPortNoOperation;
   UnknownVerbNoDomain;
   UnknownVerbNoReadModel;
   UnknownVerbNotFullyQualified;
   UnknownVerbNoAggregate;
   LifecycleRefusedTransitionBlocked;
   TypeMismatchValueObjectShape;
   TypeMismatchReferenceWrongShape;
   TypeMismatchMultiFieldScalar;
   TypeMismatchCompositeIdentity;
   TypeMismatchNumericField;
   TypeMismatchNonFiniteField;
   TypeMismatchIntegerRange;
   TypeMismatchPatternMismatch;
   TypeMismatchArithmeticAmount;
   TypeMismatchArithmeticCurrent;
   TypeMismatchArithmeticSharedField;
   UnknownArgumentUnknownArgs;
   AbsentArgumentAbsentArgs;
   InvariantViolationClosedSetMember;
   InvariantViolationValueObjectInvariant;
   InvariantViolationAdmitsDeclaredSet;
   InvariantViolationUndeclaredSet;
   InvariantViolationGroupByCollision;
   UnauthorizedTenantRequired;
   UnauthorizedRoleMismatch;
   UnauthorizedCrossTenantReference;
   AttributeAbsentAbsentRead;
   ProjectionAbsentAbsentRead].

(** The row's declared [refusal]. *)
Definition refusal_class (s : RefusalSite) : str :=
  match s with
  | NotFoundCreatingNoIdentity => "NotFound"
  | AlreadyExistsCreatingDuplicate => "AlreadyExists"
  | AlreadyExistsEntityDuplicate => "AlreadyExists"
  | NotFoundActingNoIdentity => "NotFound"
  | NotFoundRecordMissing => "NotFound"
  | NotFoundEntityParentNoIdentity => "NotFound"
  | UnknownVerbEntityUnknown => "UnknownVerb"
  | NotFoundEntityElementNoIdentity => "NotFound"
  | NotFoundEntityElementMissing => "NotFound"
  | NotFoundReferenceTargetMissing => "NotFound"
  | NotFoundReadModelReferenceMissing => "NotFound"
  | TypeMismatchReadModelObjectReference => "TypeMismatch"
  | UnknownVerbNoQuery => "UnknownVerb"
  | UnknownVerbEntityQueryMissing => "UnknownVerb"
  | UnknownVerbEntityHoldsNoList => "UnknownVerb"
  | UnknownVerbEntityNoCommand => "UnknownVerb"
  | UnknownVerbAggregateNoCommand => "UnknownVerb"
  | UnknownVerbPortNoOperation => "UnknownVerb"
  | UnknownVerbNoDomain => "UnknownVerb"
  | UnknownVerbNoReadModel => "UnknownVerb"
  | UnknownVerbNotFullyQualified => "UnknownVerb"
  | UnknownVerbNoAggregate => "UnknownVerb"
  | LifecycleRefusedTransitionBlocked => "LifecycleRefused"
  | TypeMismatchValueObjectShape => "TypeMismatch"
  | TypeMismatchReferenceWrongShape => "TypeMismatch"
  | TypeMismatchMultiFieldScalar => "TypeMismatch"
  | TypeMismatchCompositeIdentity => "TypeMismatch"
  | TypeMismatchNumericField => "TypeMismatch"
  | TypeMismatchNonFiniteField => "TypeMismatch"
  | TypeMismatchIntegerRange => "TypeMismatch"
  | TypeMismatchPatternMismatch => "TypeMismatch"
  | TypeMismatchArithmeticAmount => "TypeMismatch"
  | TypeMismatchArithmeticCurrent => "TypeMismatch"
  | TypeMismatchArithmeticSharedField => "TypeMismatch"
  | UnknownArgumentUnknownArgs => "UnknownArgument"
  | AbsentArgumentAbsentArgs => "AbsentArgument"
  | InvariantViolationClosedSetMember => "InvariantViolation"
  | InvariantViolationValueObjectInvariant => "InvariantViolation"
  | InvariantViolationAdmitsDeclaredSet => "InvariantViolation"
  | InvariantViolationUndeclaredSet => "InvariantViolation"
  | InvariantViolationGroupByCollision => "InvariantViolation"
  | UnauthorizedTenantRequired => "Unauthorized"
  | UnauthorizedRoleMismatch => "Unauthorized"
  | UnauthorizedCrossTenantReference => "Unauthorized"
  | AttributeAbsentAbsentRead => "AttributeAbsent"
  | ProjectionAbsentAbsentRead => "ProjectionAbsent"
  end.

(** The row's declared [site]. *)
Definition site (s : RefusalSite) : str :=
  match s with
  | NotFoundCreatingNoIdentity => "creating_no_identity"
  | AlreadyExistsCreatingDuplicate => "creating_duplicate"
  | AlreadyExistsEntityDuplicate => "entity_duplicate"
  | NotFoundActingNoIdentity => "acting_no_identity"
  | NotFoundRecordMissing => "record_missing"
  | NotFoundEntityParentNoIdentity => "entity_parent_no_identity"
  | UnknownVerbEntityUnknown => "entity_unknown"
  | NotFoundEntityElementNoIdentity => "entity_element_no_identity"
  | NotFoundEntityElementMissing => "entity_element_missing"
  | NotFoundReferenceTargetMissing => "reference_target_missing"
  | NotFoundReadModelReferenceMissing => "read_model_reference_missing"
  | TypeMismatchReadModelObjectReference => "read_model_object_reference"
  | UnknownVerbNoQuery => "no_query"
  | UnknownVerbEntityQueryMissing => "entity_query_missing"
  | UnknownVerbEntityHoldsNoList => "entity_holds_no_list"
  | UnknownVerbEntityNoCommand => "entity_no_command"
  | UnknownVerbAggregateNoCommand => "aggregate_no_command"
  | UnknownVerbPortNoOperation => "port_no_operation"
  | UnknownVerbNoDomain => "no_domain"
  | UnknownVerbNoReadModel => "no_read_model"
  | UnknownVerbNotFullyQualified => "not_fully_qualified"
  | UnknownVerbNoAggregate => "no_aggregate"
  | LifecycleRefusedTransitionBlocked => "transition_blocked"
  | TypeMismatchValueObjectShape => "value_object_shape"
  | TypeMismatchReferenceWrongShape => "reference_wrong_shape"
  | TypeMismatchMultiFieldScalar => "multi_field_scalar"
  | TypeMismatchCompositeIdentity => "composite_identity"
  | TypeMismatchNumericField => "numeric_field"
  | TypeMismatchNonFiniteField => "non_finite_field"
  | TypeMismatchIntegerRange => "integer_range"
  | TypeMismatchPatternMismatch => "pattern_mismatch"
  | TypeMismatchArithmeticAmount => "arithmetic_amount"
  | TypeMismatchArithmeticCurrent => "arithmetic_current"
  | TypeMismatchArithmeticSharedField => "arithmetic_shared_field"
  | UnknownArgumentUnknownArgs => "unknown_args"
  | AbsentArgumentAbsentArgs => "absent_args"
  | InvariantViolationClosedSetMember => "closed_set_member"
  | InvariantViolationValueObjectInvariant => "value_object_invariant"
  | InvariantViolationAdmitsDeclaredSet => "admits_declared_set"
  | InvariantViolationUndeclaredSet => "undeclared_set"
  | InvariantViolationGroupByCollision => "group_by_collision"
  | UnauthorizedTenantRequired => "tenant_required"
  | UnauthorizedRoleMismatch => "role_mismatch"
  | UnauthorizedCrossTenantReference => "cross_tenant_reference"
  | AttributeAbsentAbsentRead => "absent_read"
  | ProjectionAbsentAbsentRead => "absent_read"
  end.

(** The row's declared [template]. *)
Definition template (s : RefusalSite) : str :=
  match s with
  | NotFoundCreatingNoIdentity => "{command} creates a {aggregate} — pass {identity}:"
  | AlreadyExistsCreatingDuplicate => "{command} creates a {aggregate} that already exists — {identity} {offered}"
  | AlreadyExistsEntityDuplicate => "a {entity} already exists on {aggregate} — {identity} {offered}"
  | NotFoundActingNoIdentity => "{command} acts on an existing {aggregate} — pass {identity}:"
  | NotFoundRecordMissing => "no {aggregate} with {identity} {offered}"
  | NotFoundEntityParentNoIdentity => "{command} acts on a {aggregate}'s {entity} — pass {identity}:"
  | UnknownVerbEntityUnknown => "{aggregate} has no entity {entity}"
  | NotFoundEntityElementNoIdentity => "{command} acts on one {entity} — pass {identity}:"
  | NotFoundEntityElementMissing => "no {entity} with {identity} {wants} on {aggregate} {parent_id}"
  | NotFoundReferenceTargetMissing => "no {target} with {heads} {key}"
  | NotFoundReadModelReferenceMissing => "no {aggregate} with reference {offered}"
  | TypeMismatchReadModelObjectReference => "{query} refused — a reference is an id, and {field} arrived as an object"
  | UnknownVerbNoQuery => "{aggregate} has no query {query}"
  | UnknownVerbEntityQueryMissing => "{entity} has no query {query}"
  | UnknownVerbEntityHoldsNoList => "{aggregate} holds no list of {entity}"
  | UnknownVerbEntityNoCommand => "{entity} has no command {command}"
  | UnknownVerbAggregateNoCommand => "{aggregate} has no command {command}"
  | UnknownVerbPortNoOperation => "{port} has no operation {operation}"
  | UnknownVerbNoDomain => "no domain {domain} loaded (verb {verb})"
  | UnknownVerbNoReadModel => "{domain} has no read model {query}"
  | UnknownVerbNotFullyQualified => "{verb} is not a fully-qualified verb (Domain::Aggregate.Command)"
  | UnknownVerbNoAggregate => "{domain} has no aggregate {aggregate}"
  | LifecycleRefusedTransitionBlocked => "{command} refused — {field} is {current}, and {command} moves it only from {allowed}"
  | TypeMismatchValueObjectShape => "{name} is a {type} — pass its fields as an object, not {offered}"
  | TypeMismatchReferenceWrongShape => "{command} refused — a reference is an id, and {attribute} arrived as {offered}{known_by}"
  | TypeMismatchMultiFieldScalar => "{type} has multiple fields and cannot stand in for a scalar"
  | TypeMismatchCompositeIdentity => "{type} is a composite identity — an identity must have exactly one field"
  | TypeMismatchNumericField => "{type}.{field} expects {expected}, got {offered}"
  | TypeMismatchNonFiniteField => "{type}.{field} must be a finite number, got {offered}"
  | TypeMismatchIntegerRange => "{type}.{field} must fit in a 64-bit integer, got {offered}"
  | TypeMismatchPatternMismatch => "{type}.{field} must match {pattern}, got {offered}"
  | TypeMismatchArithmeticAmount => "{op} of {target} needs an Integer, got {offered}"
  | TypeMismatchArithmeticCurrent => "{op} of {target} needs an Integer {target}, got {offered}"
  | TypeMismatchArithmeticSharedField => "{op} of {target} needs a value object with one shared Integer field"
  | UnknownArgumentUnknownArgs => "{command} does not declare {unknown} — it takes {declared}"
  | AbsentArgumentAbsentArgs => "{command} was not given {absent} — it takes {declared}"
  | InvariantViolationClosedSetMember => "{type} admits {admitted} — got {offered}"
  | InvariantViolationValueObjectInvariant => "{name} invariant violated — {description} (given {offered})"
  | InvariantViolationAdmitsDeclaredSet => "{name} admits {admits} — {admitted} — got {offered}"
  | InvariantViolationUndeclaredSet => "{name} admits {admits}, which this bluebook does not declare — a closed set is named Aggregate::SetName, and it must be one the bluebook actually holds"
  | InvariantViolationGroupByCollision => "{read_model} groups by {fields}, but rows {ids} share {key} — a group_by leaf holds one row; add a field that tells them apart"
  | UnauthorizedTenantRequired => "{query} declares authorize with tenant: {field} — pass {field}: to name which {field} this ask is scoped to"
  | UnauthorizedRoleMismatch => "{command} refused — role: {role}, and the caller stated {caller_role}"
  | UnauthorizedCrossTenantReference => "{aggregate} {field} is {tenant}, but {attribute} names a {target} whose own {target_field} is {other} — a cross-tenant reference"
  | AttributeAbsentAbsentRead => "{aggregate} {field} is absent on this record — declared, not optional, and added since it was written. Backfill it in a translation (backfill :{field}, default: ...), or declare it optional: true"
  | ProjectionAbsentAbsentRead => "{aggregate} {field} is not yet projected on this record — declared via projects :{field}, but no rebuild sweep has populated it. Run the sweep, or read {reference}.{remote_field} directly if this rule cannot wait"
  end.

(** [RefusalSite::from_name]: the first row of that site. *)
Definition from_name (name : str) : option RefusalSite :=
  snd <$> list_find (λ row, site row = name) RefusalSite_ALL.

(** [RefusalSite::render]: every [{key}] marker replaced, in the order given. *)
Definition marker (key : str) : str := "{" ++ key ++ "}".
Definition render (s : RefusalSite) (values : list (str * str)) : str :=
  fold_left (λ text kv, replace_all text (marker kv.1) kv.2) values (template s).

Section formatting.
Context `{U : UnicodeTables}.
Definition quoted (t : str) : str := debug_str t.

(** [list]: sorted first (before quoting), each item quoted, then joined. *)
Definition list_text (items : list str) (sorted inspect : bool) (separator when_empty : str) : str :=
  let items := if sorted then sort_by str_compare items else items in
  match items with
  | [] => when_empty
  | _ => join separator (map (λ item, if inspect then quoted item else item) items)
  end.
End formatting.

(** A template read as the literal texts and the markers it is made of: the
    specification [render] is compared with. *)
Inductive segment :=
| Text (t : str)
| Marker (key : str).

(** Reads up to the closing brace of a marker, or to its opening one. *)
Fixpoint segments_go (inside : bool) (piece s : str) : list segment :=
  match s with
  | [] => [Text (rev piece)]
  | c :: s' =>
    if inside then
      if (c =? 125)%N then Marker (rev piece) :: segments_go false [] s'
      else segments_go true (c :: piece) s'
    else
      if (c =? 123)%N then Text (rev piece) :: segments_go true [] s'
      else segments_go false (c :: piece) s'
  end.
Definition segments (s : str) : list segment := segments_go false [] s.

Definition markers (segs : list segment) : list str :=
  omap (λ g, match g with Marker k => Some k | Text _ => None end) segs.

Definition show_segment (g : segment) : str :=
  match g with Text t => t | Marker k => marker k end.

(** Every marker replaced by its value, all at once. *)
Definition fill (values : list (str * str)) (g : segment) : str :=
  match g with Text t => t | Marker k => default (marker k) (assoc k values) end.
Definition fill_template (s : RefusalSite) (values : list (str * str)) : str :=
  concat (map (fill values) (segments (template s))).

(** A site's typed arguments, each formatted by its declared row.  The last
    field is what the [<Site>Args] structs of the source give by their type:
    no marker of the template is left without an argument. *)
Definition covers (s : RefusalSite) (values : list (str * str)) : bool :=
  forallb (λ k, existsb (λ k', str_eqb k k') (map fst values)) (markers (segments (template s))).
Record site_args := SiteArgs {
  sa_site : RefusalSite;
  sa_values : list (str * str);
  sa_complete : covers sa_site sa_values = true
}.

(** [<Site>Args::render_args]. *)
Definition render_args (a : site_args) : str := render (sa_site a) (sa_values a).

Section site_arguments.
Context `{U : UnicodeTables}.

Definition NotFoundCreatingNoIdentityArgs (command aggregate identity : str) : site_args :=
  SiteArgs NotFoundCreatingNoIdentity
    [("command", command); ("aggregate", aggregate); ("identity", identity)]
    eq_refl.

Definition AlreadyExistsCreatingDuplicateArgs
    (command aggregate identity offered : str) : site_args :=
  SiteArgs AlreadyExistsCreatingDuplicate
    [("command", command); ("aggregate", aggregate); ("identity", identity);
     ("offered", offered)]
    eq_refl.

Definition AlreadyExistsEntityDuplicateArgs
    (entity aggregate identity : str) (offered : list str) : site_args :=
  SiteArgs AlreadyExistsEntityDuplicate
    [("entity", entity); ("aggregate", aggregate); ("identity", identity);
     ("offered", list_text offered false false ", " [])]
    eq_refl.

Definition NotFoundActingNoIdentityArgs (command aggregate identity : str) : site_args :=
  SiteArgs NotFoundActingNoIdentity
    [("command", command); ("aggregate", aggregate); ("identity", identity)]
    eq_refl.

Definition NotFoundRecordMissingArgs (aggregate identity offered : str) : site_args :=
  SiteArgs NotFoundRecordMissing
    [("aggregate", aggregate); ("identity", identity); ("offered", offered)]
    eq_refl.

Definition NotFoundEntityParentNoIdentityArgs
    (command aggregate entity identity : str) : site_args :=
  SiteArgs NotFoundEntityParentNoIdentity
    [("command", command); ("aggregate", aggregate); ("entity", entity);
     ("identity", identity)]
    eq_refl.

Definition UnknownVerbEntityUnknownArgs (aggregate entity : str) : site_args :=
  SiteArgs UnknownVerbEntityUnknown
    [("aggregate", aggregate); ("entity", quoted entity)]
    eq_refl.

Definition NotFoundEntityElementNoIdentityArgs (command entity identity : str) : site_args :=
  SiteArgs NotFoundEntityElementNoIdentity
    [("command", command); ("entity", entity); ("identity", identity)]
    eq_refl.

Definition NotFoundEntityElementMissingArgs
    (entity identity wants aggregate parent_id : str) : site_args :=
  SiteArgs NotFoundEntityElementMissing
    [("entity", entity); ("identity", identity); ("wants", wants);
     ("aggregate", aggregate); ("parent_id", parent_id)]
    eq_refl.

Definition NotFoundReferenceTargetMissingArgs (target heads key : str) : site_args :=
  SiteArgs NotFoundReferenceTargetMissing
    [("target", target); ("heads", heads); ("key", quoted key)]
    eq_refl.

Definition NotFoundReadModelReferenceMissingArgs (aggregate offered : str) : site_args :=
  SiteArgs NotFoundReadModelReferenceMissing
    [("aggregate", aggregate); ("offered", offered)]
    eq_refl.

Definition TypeMismatchReadModelObjectReferenceArgs (query field : str) : site_args :=
  SiteArgs TypeMismatchReadModelObjectReference
    [("query", query); ("field", field)]
    eq_refl.

Definition UnknownVerbNoQueryArgs (aggregate query : str) : site_args :=
  SiteArgs UnknownVerbNoQuery
    [("aggregate", aggregate); ("query", quoted query)]
    eq_refl.

Definition UnknownVerbEntityQueryMissingArgs (entity query : str) : site_args :=
  SiteArgs UnknownVerbEntityQueryMissing
    [("entity", entity); ("query", quoted query)]
    eq_refl.

Definition UnknownVerbEntityHoldsNoListArgs (aggregate entity : str) : site_args :=
  SiteArgs UnknownVerbEntityHoldsNoList
    [("aggregate", aggregate); ("entity", entity)]
    eq_refl.

Definition UnknownVerbEntityNoCommandArgs (entity command : str) : site_args :=
  SiteArgs UnknownVerbEntityNoCommand
    [("entity", entity); ("command", quoted command)]
    eq_refl.

Definition UnknownVerbAggregateNoCommandArgs (aggregate command : str) : site_args :=
  SiteArgs UnknownVerbAggregateNoCommand
    [("aggregate", aggregate); ("command", quoted command)]
    eq_refl.

Definition UnknownVerbPortNoOperationArgs (port operation : str) : site_args :=
  SiteArgs UnknownVerbPortNoOperation
    [("port", port); ("operation", quoted operation)]
    eq_refl.

Definition UnknownVerbNoDomainArgs (domain verb : str) : site_args :=
  SiteArgs UnknownVerbNoDomain
    [("domain", quoted domain); ("verb", verb)]
    eq_refl.

Definition UnknownVerbNoReadModelArgs (domain query : str) : site_args :=
  SiteArgs UnknownVerbNoReadModel
    [("domain", domain); ("query", quoted query)]
    eq_refl.

Definition UnknownVerbNotFullyQualifiedArgs (verb : str) : site_args :=
  SiteArgs UnknownVerbNotFullyQualified
    [("verb", quoted verb)]
    eq_refl.

Definition UnknownVerbNoAggregateArgs (domain aggregate : str) : site_args :=
  SiteArgs UnknownVerbNoAggregate
    [("domain", domain); ("aggregate", quoted aggregate)]
    eq_refl.

Definition LifecycleRefusedTransitionBlockedArgs
    (command field current : str) (allowed : list str) : site_args :=
  SiteArgs LifecycleRefusedTransitionBlocked
    [("command", command); ("field", field); ("current", current);
     ("allowed", list_text allowed false true " or " [])]
    eq_refl.

Definition TypeMismatchValueObjectShapeArgs (name type_ offered : str) : site_args :=
  SiteArgs TypeMismatchValueObjectShape
    [("name", name); ("type", type_); ("offered", offered)]
    eq_refl.

Definition TypeMismatchReferenceWrongShapeArgs
    (command attribute offered known_by : str) : site_args :=
  SiteArgs TypeMismatchReferenceWrongShape
    [("command", command); ("attribute", attribute); ("offered", offered);
     ("known_by", known_by)]
    eq_refl.

Definition TypeMismatchMultiFieldScalarArgs (type_ : str) : site_args :=
  SiteArgs TypeMismatchMultiFieldScalar
    [("type", type_)]
    eq_refl.

Definition TypeMismatchCompositeIdentityArgs (type_ : str) : site_args :=
  SiteArgs TypeMismatchCompositeIdentity
    [("type", type_)]
    eq_refl.

Definition TypeMismatchNumericFieldArgs (type_ field expected offered : str) : site_args :=
  SiteArgs TypeMismatchNumericField
    [("type", type_); ("field", field); ("expected", expected); ("offered", offered)]
    eq_refl.

Definition TypeMismatchNonFiniteFieldArgs (type_ field offered : str) : site_args :=
  SiteArgs TypeMismatchNonFiniteField
    [("type", type_); ("field", field); ("offered", offered)]
    eq_refl.

Definition TypeMismatchIntegerRangeArgs (type_ field offered : str) : site_args :=
  SiteArgs TypeMismatchIntegerRange
    [("type", type_); ("field", field); ("offered", offered)]
    eq_refl.

Definition TypeMismatchPatternMismatchArgs (type_ field pattern offered : str) : site_args :=
  SiteArgs TypeMismatchPatternMismatch
    [("type", type_); ("field", field); ("pattern", pattern); ("offered", offered)]
    eq_refl.

Definition TypeMismatchArithmeticAmountArgs (op target offered : str) : site_args :=
  SiteArgs TypeMismatchArithmeticAmount
    [("op", op); ("target", target); ("offered", offered)]
    eq_refl.

Definition TypeMismatchArithmeticCurrentArgs (op target offered : str) : site_args :=
  SiteArgs TypeMismatchArithmeticCurrent
    [("op", op); ("target", target); ("offered", offered)]
    eq_refl.

Definition TypeMismatchArithmeticSharedFieldArgs (op target : str) : site_args :=
  SiteArgs TypeMismatchArithmeticSharedField
    [("op", op); ("target", target)]
    eq_refl.

Definition UnknownArgumentUnknownArgsArgs
    (command : str) (unknown declared : list str) : site_args :=
  SiteArgs UnknownArgumentUnknownArgs
    [("command", command); ("unknown", list_text unknown true false ", " []);
     ("declared", list_text declared false false ", " "none")]
    eq_refl.

Definition AbsentArgumentAbsentArgsArgs
    (command : str) (absent declared : list str) : site_args :=
  SiteArgs AbsentArgumentAbsentArgs
    [("command", command); ("absent", list_text absent true false ", " []);
     ("declared", list_text declared false false ", " "none")]
    eq_refl.

Definition InvariantViolationClosedSetMemberArgs
    (type_ : str) (admitted : list str) (offered : str) : site_args :=
  SiteArgs InvariantViolationClosedSetMember
    [("type", type_); ("admitted", list_text admitted false true ", " []);
     ("offered", offered)]
    eq_refl.

Definition InvariantViolationValueObjectInvariantArgs
    (name description offered : str) : site_args :=
  SiteArgs InvariantViolationValueObjectInvariant
    [("name", name); ("description", description); ("offered", offered)]
    eq_refl.

Definition InvariantViolationAdmitsDeclaredSetArgs
    (name admits : str) (admitted : list str) (offered : str) : site_args :=
  SiteArgs InvariantViolationAdmitsDeclaredSet
    [("name", name); ("admits", admits);
     ("admitted", list_text admitted false true ", " []); ("offered", offered)]
    eq_refl.

Definition InvariantViolationUndeclaredSetArgs (name admits : str) : site_args :=
  SiteArgs InvariantViolationUndeclaredSet
    [("name", name); ("admits", admits)]
    eq_refl.

Definition InvariantViolationGroupByCollisionArgs
    (read_model : str) (fields ids : list str) (key : str) : site_args :=
  SiteArgs InvariantViolationGroupByCollision
    [("read_model", read_model); ("fields", list_text fields false false ", " []);
     ("ids", list_text ids true true ", " []); ("key", key)]
    eq_refl.

Definition UnauthorizedTenantRequiredArgs (query field : str) : site_args :=
  SiteArgs UnauthorizedTenantRequired
    [("query", query); ("field", field)]
    eq_refl.

Definition UnauthorizedRoleMismatchArgs (command role caller_role : str) : site_args :=
  SiteArgs UnauthorizedRoleMismatch
    [("command", command); ("role", role); ("caller_role", caller_role)]
    eq_refl.

Definition UnauthorizedCrossTenantReferenceArgs
    (aggregate field tenant attribute target target_field other : str) : site_args :=
  SiteArgs UnauthorizedCrossTenantReference
    [("aggregate", aggregate); ("field", field); ("tenant", tenant);
     ("attribute", attribute); ("target", target); ("target_field", target_field);
     ("other", other)]
    eq_refl.

Definition AttributeAbsentAbsentReadArgs (aggregate field : str) : site_args :=
  SiteArgs AttributeAbsentAbsentRead
    [("aggregate", aggregate); ("field", field)]
    eq_refl.

Definition ProjectionAbsentAbsentReadArgs
    (aggregate field reference remote_field : str) : site_args :=
  SiteArgs ProjectionAbsentAbsentRead
    [("aggregate", aggregate); ("field", field); ("reference", reference);
     ("remote_field", remote_field)]
    eq_refl.

End site_arguments.

(** ** Lemmas *)
Lemma marker_cons (k : str) : marker k = 123%N :: k ++ [125%N].
Proof. reflexivity. Qed.

Definition brace_free (s : str) : Prop := (123%N ∉ s) ∧ (125%N ∉ s).
#[global] Instance brace_free_dec (s : str) : Decision (brace_free s) := _.

Definition segment_text (g : segment) : str := match g with Text t => t | Marker k => k end.

(** A key without a closing brace is where its marker says it ends. *)
Lemma marker_prefix (k k' s : str) :
  125%N ∉ k → 125%N ∉ k' → starts_with (k' ++ 125%N :: s) (k ++ [125%N]) = true → k = k'.
Proof.
  revert k'; induction k as [|c k IH]; intros [|c' k'] Hk Hk'; cbn [app starts_with];
    rewrite ?andb_true_iff, ?N.eqb_eq;
    try apply not_elem_of_cons in Hk as [Hc Hk]; try apply not_elem_of_cons in Hk' as [Hc' Hk'].
  - done.
  - intros [? _]. congruence.
  - intros [? _]. congruence.
  - intros [-> H]. f_equal. by apply IH.
Qed.

Lemma replace_all_other_marker (k k' v s : str) :
  brace_free k → brace_free k' → k ≠ k' →
  replace_all (marker k' ++ s) (marker k) v = marker k' ++ replace_all s (marker k) v.
Proof.
  intros [_ Hk] [Ho' Hk'] Hne. rewrite !marker_cons. cbn [app].
  rewrite replace_all_skip; [f_equal|].
  - apply (replace_all_app_skip _ _ _ _ 123%N (k ++ [125%N]) eq_refl).
    rewrite elem_of_app, list_elem_of_singleton. naive_solver.
  - cbn [starts_with]. rewrite N.eqb_refl. cbn [andb]. rewrite <- app_assoc. cbn [app].
    apply not_true_is_false. intros H. by apply marker_prefix in H.
Qed.

(** One more replacement is one more value to fill with. *)
Lemma replace_fill (k v : str) (vs : list (str * str)) (segs : list segment) :
  brace_free k → Forall (λ kv, brace_free kv.2) vs →
  Forall (λ g, brace_free (segment_text g)) segs →
  replace_all (concat (map (fill vs) segs)) (marker k) v =
  concat (map (fill (vs ++ [(k, v)])) segs).
Proof.
  intros Hk Hvs. induction 1 as [|g segs Hg _ IH]; [done|]. cbn [map concat].
  rewrite <- IH. clear IH.
  assert (∀ t s, brace_free t →
            replace_all (t ++ s) (marker k) v = t ++ replace_all s (marker k) v) as Hskip.
  { intros t s [Ht _]. by apply (replace_all_app_skip _ _ _ _ 123%N (k ++ [125%N]) eq_refl). }
  destruct g as [t|k']; cbn [fill segment_text] in *; [by apply Hskip|].
  rewrite assoc_app. destruct (assoc k' vs) as [v'|] eqn:E; cbn [default].
  { apply Hskip. rewrite Forall_forall in Hvs.
    apply (Hvs (k', v')), list_elem_of_In, assoc_elem_of, E. }
  cbn [assoc]. case_bool_decide as Hkk; cbn [default].
  - subst k'. by rewrite replace_all_match.
  - apply replace_all_other_marker; auto.
Qed.

Definition template_ok (s : RefusalSite) : bool :=
  let segs := segments (template s) in
  bool_decide (Forall (λ g, brace_free (segment_text g)) segs) &&
  str_eqb (concat (map show_segment segs)) (template s).

Lemma templates_ok (s : RefusalSite) :
  Forall (λ g, brace_free (segment_text g)) (segments (template s)) ∧
  concat (map show_segment (segments (template s))) = template s.
Proof.
  assert (template_ok s = true) as H by (by destruct s; vm_compute).
  apply andb_true_iff in H as [H1 H2]. by apply bool_decide_eq_true in H1, H2.
Qed.

Lemma fill_nil (segs : list segment) : map (fill []) segs = map show_segment segs.
Proof. apply map_ext. by intros []. Qed.

(** *** The wording table, as its rows are read *)
Lemma RefusalSite_ALL_complete (s : RefusalSite) : s ∈ RefusalSite_ALL.
Proof. destruct s; refine (bool_decide_unpack _ _); vm_compute; exact I. Qed.

(** ** Properties *)

(** The sequential replacement the wording table performs is the
    simultaneous one: with arguments that hold no braces, what [render_args]
    writes is the template with every one of its markers, each in its place,
    replaced by the first value given for it, and none is left over. *)
Theorem render_args_fills (a : site_args) :
  Forall (λ kv, brace_free kv.1 ∧ brace_free kv.2) (sa_values a) →
  render_args a = fill_template (sa_site a) (sa_values a) ∧
  Forall (λ k, is_Some (assoc k (sa_values a))) (markers (segments (template (sa_site a)))).
Proof.
  intros Hb. destruct a as [s vs Hc]; cbn [sa_site sa_values] in *. split.
  - unfold render_args, render, fill_template; cbn [sa_site sa_values].
    destruct (templates_ok s) as [Hs Ht]. rewrite <- Ht at 1. rewrite <- fill_nil.
    clear Hc Ht. change vs with ([] ++ vs) at 2.
    assert (Forall (λ kv : str * str, brace_free kv.2) []) as Hd by constructor.
    revert Hd. generalize (@nil (str * str)) as d.
    induction Hb as [|[k v] vs [Hk Hv] _ IH]; intros d Hd; cbn [fold_left fst snd] in *.
    { by rewrite app_nil_r. }
    rewrite replace_fill by done. rewrite IH, <- app_assoc; [done|].
    apply Forall_app. auto.
  - unfold covers in Hc. rewrite forallb_forall in Hc. apply Forall_forall. intros k Hk.
    apply Hc, existsb_exists in Hk as (k' & Hin & E). apply bool_decide_eq_true in E as <-.
    destruct (assoc k vs) eqn:E; [eauto|]. apply assoc_None in E.
    by apply list_elem_of_In in Hin.
Qed.

(** A table with no printable character beyond ASCII, for the witnesses. *)
Definition ascii_tables : UnicodeTables := {| debug_printable := λ _, false; to_lower := λ c, [c] |}.

Definition blocked_example : site_args :=
  @LifecycleRefusedTransitionBlockedArgs ascii_tables "Ship" "status" "draft" ["paid"; "packed"].

Lemma render_args_fills_witness :
  render_args blocked_example =
  fill_template (sa_site blocked_example) (sa_values blocked_example) ∧
  Forall (λ k, is_Some (assoc k (sa_values blocked_example)))
    (markers (segments (template (sa_site blocked_example)))).
Proof.
  apply (render_args_fills blocked_example). refine (bool_decide_unpack _ _). vm_compute. exact I.
Defined.

Example blocked_example_text :
  render_args blocked_example =
  "Ship refused — status is draft, and Ship moves it only from " ++ dquote ++ "paid" ++ dquote
    ++ " or " ++ dquote ++ "packed" ++ dquote.
Proof. vm_compute. reflexivity. Qed.
