(* ===== verification/Float64.v ===== *)
(** Rust's [f64]: IEEE 754 binary64 with one NaN, on the Standard Library's
    [spec_float] (no axioms), with the operations, the casts, the printing and
    the parsing that the kernel uses from the language.

    Arithmetic, comparison and rounding are [SpecFloat]'s, at precision 53 and
    exponent bound 1024.  Printing follows the shortest-digits algorithm of
    Rust's [fmt] ([Dragon4], the reference its fast path agrees with) in exact
    integer arithmetic; parsing rounds the exact decimal to nearest, ties to
    even, as [f64::from_str] does. *)

From Stdlib Require Export Floats.SpecFloat.
From S2P Require Export Prelude.
Open Scope Z_scope.

Abbreviation f64 := spec_float.
Definition prec : Z := 53.
Definition emax : Z := 1024.

Definition f64_add : f64 → f64 → f64 := SFadd prec emax.
Definition f64_sub : f64 → f64 → f64 := SFsub prec emax.
Definition f64_mul : f64 → f64 → f64 := SFmul prec emax.
Definition f64_div : f64 → f64 → f64 := SFdiv prec emax.
Definition f64_abs : f64 → f64 := SFabs.
Definition f64_eqb : f64 → f64 → bool := SFeqb.
Definition f64_ltb : f64 → f64 → bool := SFltb.
Definition f64_leb : f64 → f64 → bool := SFleb.
(** [PartialOrd::partial_cmp]: no answer when a side is NaN. *)
Definition f64_cmp : f64 → f64 → option comparison := SFcompare.

(** [z as f64], rounding to nearest, ties to even. *)
Definition f64_of_Z (z : Z) : f64 := binary_normalize prec emax z 0 false.
Definition f64_zero : f64 := S754_zero false.

Definition is_finite (x : f64) : bool :=
  match x with S754_zero _ | S754_finite _ _ _ => true | _ => false end.
Definition is_infinite (x : f64) : bool := match x with S754_infinity _ => true | _ => false end.
Definition is_nan (x : f64) : bool := match x with S754_nan => true | _ => false end.
Definition sign_negative (x : f64) : bool :=
  match x with S754_zero s | S754_infinity s | S754_finite s _ _ => s | S754_nan => false end.

(** The integer part of a finite value, toward zero. *)
Definition trunc_Z (x : f64) : Z :=
  match x with
  | S754_finite s m e =>
    let q := if (0 <=? e)%Z then Z.pos m * 2 ^ e else Z.quot (Z.pos m) (2 ^ (- e)) in
    if s then - q else q
  | _ => 0
  end.

(** [x.fract() == 0.0]: the value is a whole number (false for NaN and the
    infinities, whose fractional part is NaN). *)
Definition is_whole (x : f64) : bool :=
  match x with
  | S754_zero _ => true
  | S754_finite _ m e => (0 <=? e)%Z || (Z.rem (Z.pos m) (2 ^ (- e)) =? 0)%Z
  | _ => false
  end.

(** The integer a whole float is, exactly. *)
Definition f64_int (x : f64) : option Z := if is_whole x then Some (trunc_Z x) else None.

(** [x as i64]: toward zero, saturating, NaN to 0. *)
Definition as_i64 (x : f64) : Z :=
  match x with
  | S754_infinity true => i64_min
  | S754_infinity false => i64_max
  | _ => Z.max i64_min (Z.min i64_max (trunc_Z x))
  end.

(** [x as usize] on a 64-bit target: toward zero, saturating. *)
Definition as_usize (x : f64) : Z :=
  match x with
  | S754_infinity true => 0
  | S754_infinity false => 2 ^ 64 - 1
  | _ => Z.max 0 (Z.min (2 ^ 64 - 1) (trunc_Z x))
  end.

(** [x.floor()]. *)
Definition f64_floor (x : f64) : f64 :=
  match x with
  | S754_finite s m e =>
    if is_whole x then x
    else let t := trunc_Z x in
         if s then f64_of_Z (t - 1) else f64_of_Z t
  | _ => x
  end.

(** [x % y]: the exact remainder of the truncated quotient, with [x]'s sign. *)
Definition f64_rem (x y : f64) : f64 :=
  match x, y with
  | S754_nan, _ | _, S754_nan | S754_infinity _, _ | _, S754_zero _ => S754_nan
  | S754_zero _, _ | _, S754_infinity _ => x
  | S754_finite sx mx ex, S754_finite _ my ey =>
    let e := Z.min ex ey in
    let r := (Z.pos mx * 2 ^ (ex - e)) mod (Z.pos my * 2 ^ (ey - e)) in
    if (r =? 0)%Z then S754_zero sx
    else binary_normalize prec emax (if sx then - r else r) e sx
  end.

(** ** Shortest decimal digits *)
Record decoded := Decoded { dmant : Z; dminus : Z; dplus : Z; dexp : Z; dincl : bool }.

(** [core::num::flt2dec::decode] on a finite non-zero value. *)
Definition decode (m : positive) (e : Z) : decoded :=
  if (Z.pos m <? 2 ^ 52)%Z then Decoded (2 * Z.pos m) 1 1 (e - 1) true
  else if (Z.pos m =? 2 ^ 52)%Z then Decoded (4 * Z.pos m) 1 2 (e - 2) true
  else Decoded (2 * Z.pos m) 1 1 (e - 1) (Z.even (Z.pos m)).

Fixpoint digit_loop (fuel : nat) (incl : bool) (mant minus plus scale : Z) (digits : str)
  : str * Z * bool * bool :=
  let d := mant / scale in
  let mant := mant mod scale in
  let digits := digits ++ [Z.to_N (48 + d)] in
  let down := if incl then (mant <=? minus)%Z else (mant <? minus)%Z in
  let up := if incl then (scale <=? mant + plus)%Z else (scale <? mant + plus)%Z in
  match fuel with
  | O => (digits, mant, down, up)
  | S f =>
    if down || up then (digits, mant, down, up)
    else digit_loop f incl (mant * 10) (minus * 10) (plus * 10) scale digits
  end.

(** [round_up]: the incremented digits, and a digit more when all were 9. *)
Fixpoint incr_digits (rev_digits : str) : str * bool :=
  match rev_digits with
  | [] => ([], true)
  | c :: r =>
    if (c =? 57)%N then let (r', carry) := incr_digits r in (48%N :: r', carry)
    else ((c + 1)%N :: r, false)
  end.

(** [dragon::format_shortest]: digits [d1 d2 ...] and [k] with value [0.d1d2... * 10^k]. *)
Definition format_shortest (m : positive) (e : Z) : str * Z :=
  let d := decode m e in
  let nbits := Z.log2_up (dmant d + dplus d) in
  let k := ((nbits + dexp d) * 1292913986) / 2 ^ 32 in
  let up2 := 2 ^ Z.max 0 (dexp d) in
  let dn2 := 2 ^ Z.max 0 (- dexp d) in
  let up10 := 10 ^ Z.max 0 (- k) in
  let scale := dn2 * 10 ^ Z.max 0 k in
  let mant := dmant d * up2 * up10 in
  let minus := dminus d * up2 * up10 in
  let plus := dplus d * up2 * up10 in
  let bump := if dincl d then (scale <=? mant + plus)%Z else (scale <? mant + plus)%Z in
  let '(k, mant, minus, plus) :=
    if bump then (k + 1, mant, minus, plus) else (k, mant * 10, minus * 10, plus * 10) in
  let '(digits, rest, down, up) := digit_loop 20 (dincl d) mant minus plus scale [] in
  if up && (negb down || (scale <=? 2 * rest)%Z) then
    let (r, carry) := incr_digits (rev digits) in
    if carry then ((49%N :: rev r), k + 1) else (rev r, k)
  else (digits, k).

Definition zeros (n : Z) : str := repeat 48%N (Z.to_nat n).

(** [to_string] of a float ([Display]): never an exponent, no point for a whole number. *)
Definition f64_display (x : f64) : str :=
  match x with
  | S754_nan => "NaN"
  | S754_infinity s => (if s then "-" else []) ++ "inf"
  | S754_zero s => (if s then "-" else []) ++ "0"
  | S754_finite s m e =>
    let (digits, k) := format_shortest m e in
    let len := Z.of_nat (length digits) in
    (if s then "-" else []) ++
    (if (k <=? 0)%Z then "0." ++ zeros (- k) ++ digits
     else if (k <? len)%Z then take (Z.to_nat k) digits ++ "." ++ drop (Z.to_nat k) digits
     else digits ++ zeros (k - len))
  end.

(** [{:e}] of a positive finite value: its digits and its decimal exponent. *)
Definition f64_exp_digits (m : positive) (e : Z) : str * Z :=
  let (digits, k) := format_shortest m e in (digits, k - 1).

(** [{:?}]: scientific below 1e-4 and from 1e16 on, and always with a point. *)
Definition f64_debug (x : f64) : str :=
  match x with
  | S754_finite s m e =>
    let (digits, k) := format_shortest m e in
    if ((-4 <=? k - 1) && (k - 1 <? 16))%Z then
      let shown := f64_display x in
      if contains shown "." then shown else shown ++ ".0"
    else
      (if s then "-" else []) ++ take 1 digits ++
      (if (length digits =? 1)%nat then [] else "." ++ drop 1 digits) ++ "e" ++ dec_Z (k - 1)
  | S754_zero s => (if s then "-" else []) ++ "0.0"
  | _ => f64_display x
  end.

(** ** Parsing *)

(** The float nearest to [(-1)^neg * D * 10^E]. *)
Definition f64_of_decimal (neg : bool) (D : N) (E : Z) : f64 :=
  let signed z := if neg then - z else z in
  if (D =? 0)%N then S754_zero neg
  else if (0 <=? E)%Z then binary_normalize prec emax (signed (Z.of_N D * 10 ^ E)) 0 neg
  else
    let den := 10 ^ (- E) in
    let shift := Z.max 0 (Z.log2 den - Z.log2 (Z.of_N D) + 66) in
    let num := Z.of_N D * 2 ^ shift in
    let sticky := if (num mod den =? 0)%Z then 0 else 1 in
    binary_normalize prec emax (signed (2 * (num / den) + sticky)) (- shift - 1) neg.

Fixpoint span (p : char → bool) (s : str) : str * str :=
  match s with
  | c :: s' => if p c then let (a, b) := span p s' in (c :: a, b) else ([], s)
  | [] => ([], [])
  end.

Definition lowercase_ascii (s : str) : str := map (λ c, if is_upper c then (c + 32)%N else c) s.

(** An exponent: an optional sign and at least one digit. *)
Definition parse_exponent (s : str) : option Z :=
  match s with
  | 45%N :: ds => Z.opp ∘ Z.of_N <$> parse_digits ds
  | 43%N :: ds => Z.of_N <$> parse_digits ds
  | ds => Z.of_N <$> parse_digits ds
  end.

(** [str::parse::<f64>]. *)
Definition parse_f64 (s : str) : option f64 :=
  let '(neg, body) :=
    match s with 45%N :: r => (true, r) | 43%N :: r => (false, r) | _ => (false, s) end in
  let word := lowercase_ascii body in
  if bool_decide (word = "inf") || bool_decide (word = "infinity") then Some (S754_infinity neg)
  else if bool_decide (word = "nan") then Some S754_nan
  else
    let (whole, r1) := span is_digit body in
    let '(frac, r2) :=
      match r1 with 46%N :: r => span is_digit r | _ => ([], r1) end in
    if bool_decide (whole = []) && bool_decide (frac = []) then None
    else
      e ← match r2 with
          | [] => Some 0
          | c :: r => if ((c =? 101) || (c =? 69))%N then parse_exponent r else None
          end;
      Some (f64_of_decimal neg (digits_value (whole ++ frac)) (e - Z.of_nat (length frac))).

(** A decimal literal of the source, read at full precision. *)
Definition f64_lit (s : str) : f64 := default S754_nan (parse_f64 s).

(** Printing and parsing agree with the values Rust prints. *)
Example display_whole : f64_display (f64_lit "10.0") = "10".
Proof. vm_compute. reflexivity. Qed.
Example display_tenth : f64_display (f64_lit "0.1") = "0.1".
Proof. vm_compute. reflexivity. Qed.
Example display_large : f64_display (f64_lit "1e21") = "1000000000000000000000".
Proof. vm_compute. reflexivity. Qed.
Example display_subnormal_digits : format_shortest 1 (-1074) = ("5", -323).
Proof. vm_compute. reflexivity. Qed.
Example parse_third : parse_f64 "0.3333333333333333" = Some (f64_div (f64_of_Z 1) (f64_of_Z 3)).
Proof. vm_compute. reflexivity. Qed.
Example display_max : f64_exp_digits (2 ^ 53 - 1) 971 = ("17976931348623157", 308).
Proof. vm_compute. reflexivity. Qed.
Example sum_of_tenths : f64_display (f64_add (f64_lit "0.1") (f64_lit "0.2")) = "0.30000000000000004".
Proof. vm_compute. reflexivity. Qed.

(** ** Rounding never loses a non-zero integer *)
Lemma shr_1_pos (mrs : shr_record) (p : positive) :
  shr_m mrs = Zpos p → 2 <= Zpos p → shr_m (shr_1 mrs) = Zpos p / 2.
Proof.
  destruct mrs as [m r s]; simpl. intros -> Hp. destruct p as [p|p|]; cbn [shr_m]; [..|lia].
  - apply (Z.div_unique _ 2 _ 1); lia.
  - apply (Z.div_unique _ 2 _ 0); lia.
Qed.

Lemma iter_pos_nat {A} (f : A → A) (n : positive) (x : A) :
  SpecFloat.iter_pos f n x = Nat.iter (Pos.to_nat n) f x.
Proof.
  revert x; induction n as [n IH|n IH|]; intros x; cbn [SpecFloat.iter_pos]; [..|done].
  - rewrite !IH, Pos2Nat.inj_xI, Nat.iter_succ_r. simpl. by rewrite Nat.add_0_r, Nat.iter_add.
  - rewrite !IH, Pos2Nat.inj_xO. simpl. by rewrite Nat.add_0_r, Nat.iter_add.
Qed.

Lemma iter_shr_pos (n : nat) (mrs : shr_record) (m : Z) :
  shr_m mrs = m → 2 ^ Z.of_nat n <= m → 0 < shr_m (Nat.iter n shr_1 mrs).
Proof.
  revert mrs m. induction n as [|n IH]; intros mrs m Hm Hp.
  { simpl in *. lia. }
  rewrite Nat.iter_succ_r. rewrite Nat2Z.inj_succ, Z.pow_succ_r in Hp by lia.
  pose proof (Z.pow_pos_nonneg 2 (Z.of_nat n) eq_refl ltac:(lia)).
  destruct m as [|p|p]; [lia| |lia].
  apply (IH _ (Zpos p / 2)); [apply shr_1_pos; [done|lia]|].
  apply Z.div_le_lower_bound; lia.
Qed.

Lemma digits2_pos_bound (p : positive) : 2 ^ (Zpos (digits2_pos p) - 1) <= Zpos p.
Proof.
  induction p as [p IH|p IH|]; cbn [digits2_pos]; [..|done];
    rewrite Pos2Z.inj_succ, <- Z.add_1_r, Z.add_simpl_r;
    replace (Zpos (digits2_pos p)) with (Z.succ (Zpos (digits2_pos p) - 1)) by lia;
    rewrite Z.pow_succ_r by lia; lia.
Qed.

Lemma shr_fexp_pos (m e : Z) (l : location) :
  0 < m → -1000 <= e →
  0 < shr_m (shr_fexp prec emax m e l).1 ∧ -1000 <= (shr_fexp prec emax m e l).2.
Proof.
  intros Hm He. destruct m as [|p|p]; [lia| |lia].
  unfold shr_fexp, shr. destruct (_ - e) as [|n|n] eqn:En; cbn [fst snd].
  2: split; [|lia]; rewrite iter_pos_nat; eapply iter_shr_pos; [reflexivity|].
  1,3: split; [by destruct l as [|[]]|done].
  replace (shr_m (shr_record_of_loc (Zpos p) l)) with (Zpos p) by (by destruct l as [|[]]).
  etrans; [|apply digits2_pos_bound]. apply Z.pow_le_mono_r; [done|].
  rewrite positive_nat_Z, <- En. unfold fexp, emin, prec, emax. simpl Zdigits2. lia.
Qed.

Lemma round_nearest_even_pos (m : Z) (l : location) : 0 < m → 0 < round_nearest_even m l.
Proof. intros. destruct l as [|[]]; simpl; try done; [case_match|]; lia. Qed.

Lemma binary_round_aux_nonzero (s : bool) (m e : Z) (l : location) :
  0 < m → -1000 <= e → f64_eqb (binary_round_aux prec emax s m e l) f64_zero = false.
Proof.
  intros Hm He. unfold binary_round_aux.
  destruct (shr_fexp_pos m e l Hm He) as [H1 H2].
  destruct (shr_fexp prec emax m e l) as [mrs e']; cbn [fst snd] in *.
  destruct (shr_fexp_pos (round_nearest_even (shr_m mrs) (loc_of_shr_record mrs)) e' loc_Exact)
    as [H3 H4]; [by apply round_nearest_even_pos|done|].
  destruct (shr_fexp prec emax (round_nearest_even _ _) e' loc_Exact) as [mrs2 e2]; cbn [fst snd] in *.
  destruct (shr_m mrs2); [lia| |lia]. by destruct (e2 <=? _), s.
Qed.

(** A non-zero integer never rounds to the zero it is tested against. *)
Lemma f64_of_Z_eqb_zero (z : Z) : f64_eqb (f64_of_Z z) f64_zero = (z =? 0).
Proof.
  assert (∀ s p, f64_eqb (binary_round prec emax s p 0) f64_zero = false) as H.
  { intros s p. unfold binary_round, shl_align.
    destruct (_ - 0) as [|n|n] eqn:En; apply binary_round_aux_nonzero; try lia.
    revert En. unfold fexp, emin, prec, emax. lia. }
  destruct z as [|p|p]; [done|apply H|apply H].
Qed.

(** ** Integers below 2^53 are exact, and ordered as the integers they are *)
Lemma digits2_pos_upper (p : positive) : Zpos p < 2 ^ Zpos (digits2_pos p).
Proof.
  induction p as [p IH|p IH|]; cbn [digits2_pos]; [..|done];
    rewrite Pos2Z.inj_succ, Z.pow_succ_r by lia; lia.
Qed.

Lemma digits2_pos_le (p : positive) : Zpos p < 2 ^ 53 → Zpos (digits2_pos p) <= 53.
Proof.
  intros Hp. pose proof (digits2_pos_bound p) as Hb.
  destruct (Z.le_gt_cases (Zpos (digits2_pos p)) 53) as [|Hd]; [done|].
  assert (2 ^ 53 <= 2 ^ (Zpos (digits2_pos p) - 1)) by (apply Z.pow_le_mono_r; lia). lia.
Qed.

Lemma iter_xO (n p : positive) : Zpos (Pos.iter xO p n) = Zpos p * 2 ^ Zpos n.
Proof.
  induction n as [|n IH] using Pos.peano_ind; [simpl; lia|].
  rewrite Pos.iter_succ, Pos2Z.inj_xO, IH, Pos2Z.inj_succ, Z.pow_succ_r by lia. lia.
Qed.

Lemma digits2_pos_iter_xO (n p : positive) :
  digits2_pos (Pos.iter xO p n) = (digits2_pos p + n)%positive.
Proof.
  induction n as [|n IH] using Pos.peano_ind; [simpl; lia|].
  rewrite Pos.iter_succ. simpl. rewrite IH. lia.
Qed.

(** A mantissa already of the right width passes the rounding untouched. *)
Lemma shr_fexp_exact (p : positive) (e : Z) :
  fexp prec emax (Zpos (digits2_pos p) + e) = e →
  shr_fexp prec emax (Zpos p) e loc_Exact = (Build_shr_record (Zpos p) false false, e).
Proof. intros H. unfold shr_fexp. cbn [Zdigits2]. rewrite H, Z.sub_diag. done. Qed.

Lemma binary_round_aux_exact (s : bool) (p : positive) (e : Z) :
  fexp prec emax (Zpos (digits2_pos p) + e) = e → e <= emax - prec →
  binary_round_aux prec emax s (Zpos p) e loc_Exact = S754_finite s p e.
Proof.
  intros H He. unfold binary_round_aux. rewrite shr_fexp_exact by done.
  cbn [shr_m loc_of_shr_record round_nearest_even]. rewrite shr_fexp_exact by done.
  cbn [shr_m]. by rewrite (proj2 (Z.leb_le _ _) He).
Qed.

(** The float of an integer below 2^53: 53 digits, the exponent its width sets. *)
Definition exact_mantissa (p : positive) : positive :=
  match (53 - Zpos (digits2_pos p))%Z with Zpos n => Pos.iter xO p n | _ => p end.

Lemma exact_mantissa_value (p : positive) :
  Zpos p < 2 ^ 53 → Zpos (exact_mantissa p) = Zpos p * 2 ^ (53 - Zpos (digits2_pos p)).
Proof.
  intros Hp. apply digits2_pos_le in Hp. unfold exact_mantissa.
  destruct (53 - _) as [|n|n] eqn:E; [lia|apply iter_xO|lia].
Qed.

Lemma binary_round_small (s : bool) (p : positive) :
  Zpos p < 2 ^ 53 →
  binary_round prec emax s p 0 = S754_finite s (exact_mantissa p) (Zpos (digits2_pos p) - 53).
Proof.
  intros Hp. pose proof (digits2_pos_le p Hp) as Hd.
  unfold binary_round, shl_align, exact_mantissa.
  assert (fexp prec emax (Zpos (digits2_pos p) + 0) = Zpos (digits2_pos p) - 53) as ->.
  { unfold fexp, emin, prec, emax. lia. }
  rewrite Z.sub_0_r. destruct (Zpos (digits2_pos p) - 53) as [|n|n] eqn:En.
  - replace (53 - _) with 0 by lia. apply binary_round_aux_exact; [|done].
    unfold fexp, emin, prec, emax. lia.
  - lia.
  - replace (53 - Zpos (digits2_pos p)) with (Zpos n) by lia.
    apply binary_round_aux_exact; [|unfold emax, prec; lia].
    rewrite digits2_pos_iter_xO. unfold fexp, emin, prec, emax. lia.
Qed.

(** Comparing canonical floats is comparing widths, then mantissas. *)
Lemma small_compare (p q : positive) :
  Zpos p < 2 ^ 53 → Zpos q < 2 ^ 53 →
  match Z.compare (Zpos (digits2_pos p) - 53) (Zpos (digits2_pos q) - 53) with
  | Lt => Lt | Gt => Gt | Eq => Pos.compare_cont Eq (exact_mantissa p) (exact_mantissa q)
  end = Z.compare (Zpos p) (Zpos q).
Proof.
  intros Hp Hq.
  pose proof (digits2_pos_bound p). pose proof (digits2_pos_upper p).
  pose proof (digits2_pos_bound q). pose proof (digits2_pos_upper q).
  assert (∀ a b : positive, Zpos a < Zpos b → 2 ^ Zpos a <= 2 ^ (Zpos b - 1)) as Hmono.
  { intros a b Hab. apply Z.pow_le_mono_r; lia. }
  destruct (Z.compare_spec (Zpos (digits2_pos p) - 53) (Zpos (digits2_pos q) - 53)) as [E|E|E].
  - change (Z.compare (Zpos (exact_mantissa p)) (Zpos (exact_mantissa q)) = Z.compare (Zpos p) (Zpos q)).
    rewrite !exact_mantissa_value by done.
    replace (digits2_pos q) with (digits2_pos p) by lia.
    symmetry. apply Zmult_compare_compat_r. pose proof (digits2_pos_le p Hp).
    pose proof (Z.pow_pos_nonneg 2 (53 - Zpos (digits2_pos p)) eq_refl ltac:(lia)). lia.
  - specialize (Hmono (digits2_pos p) (digits2_pos q) ltac:(lia)).
    symmetry. apply Z.compare_lt_iff. lia.
  - specialize (Hmono (digits2_pos q) (digits2_pos p) ltac:(lia)).
    symmetry. apply Z.compare_gt_iff. lia.
Qed.

Lemma f64_of_Z_ltb (a b : Z) :
  Z.abs a < 2 ^ 53 → Z.abs b < 2 ^ 53 → f64_ltb (f64_of_Z a) (f64_of_Z b) = (a <? b).
Proof.
  intros Ha Hb. unfold f64_ltb, SFltb, f64_of_Z, binary_normalize, Z.ltb.
  destruct a as [|p|p], b as [|q|q]; rewrite ?binary_round_small by lia; try done;
    unfold SFcompare.
  - rewrite <- (small_compare p q) by lia.
    destruct (_ ?= _); [|done..]. by destruct (Pos.compare_cont _ _ _).
  - change (Z.neg p ?= Z.neg q) with (CompOpp (Z.pos p ?= Z.pos q)).
    rewrite <- Z.compare_antisym.
    rewrite <- (small_compare q p) by lia.
    rewrite (Z.compare_antisym (Zpos (digits2_pos q) - 53) (Zpos (digits2_pos p) - 53)).
    destruct (_ ?= _); [|done..]. cbn [CompOpp].
    change (Pos.compare_cont Eq) with Pos.compare. rewrite (Pos.compare_antisym (exact_mantissa q)).
    by destruct (_ ?= _)%positive.
Qed.
