(* ===== verification/Value.v ===== *)
(** The values expressions evaluate to ([src/rust/expr/src/expr.rs]), how an
    error message names them ([rendering.rs], [ruby_float.rs]) and their four
    shapes ([attribute_shapes/]).  A [BTreeMap] is the list of its entries in
    key order. *)
From S2P Require Export Float64 Refusal.
Open Scope Z_scope.

(** ** [expr::Value] *)
Inductive Value :=
| VInt (n : Z)
| VFloat (f : f64)
| VStr (s : str)
| VBool (b : bool)
| VList (len : Z)
| VNil
| VArray (items : list Value)
| VObject (fields : list (str * Value)).

(** Induction with a hypothesis for every element of a list and every field. *)
Section value_ind.
Context (P : Value → Prop).
Context (HInt : ∀ n, P (VInt n)) (HFloat : ∀ f, P (VFloat f)) (HStr : ∀ s, P (VStr s))
        (HBool : ∀ b, P (VBool b)) (HList : ∀ n, P (VList n)) (HNil : P VNil)
        (HArray : ∀ items, Forall P items → P (VArray items))
        (HObject : ∀ fields, Forall (λ kv, P kv.2) fields → P (VObject fields)).

Fixpoint Value_rich_ind (v : Value) : P v :=
  match v with
  | VInt n => HInt n
  | VFloat f => HFloat f
  | VStr s => HStr s
  | VBool b => HBool b
  | VList n => HList n
  | VNil => HNil
  | VArray items =>
    HArray items ((fix go l : Forall P l :=
      match l with [] => Forall_nil_2 P | v :: l' => Forall_cons_2 P v l' (Value_rich_ind v) (go l') end) items)
  | VObject fields =>
    HObject fields ((fix go l : Forall (λ kv, P kv.2) l :=
      match l with
      | [] => Forall_nil_2 _
      | kv :: l' => Forall_cons_2 (λ kv, P kv.2) kv l' (Value_rich_ind kv.2) (go l')
      end) fields)
  end.
End value_ind.

(** [Value::truthy]. *)
Definition truthy (v : Value) : bool :=
  match v with VNil | VBool false => false | _ => true end.

(** The [into_*] readers. *)
Definition into_string (v : Value) : option str := match v with VStr s => Some s | _ => None end.
Definition into_i64 (v : Value) : option Z := match v with VInt n => Some n | _ => None end.
Definition into_f64 (v : Value) : option f64 := match v with VFloat f => Some f | _ => None end.
Definition into_bool (v : Value) : option bool := match v with VBool b => Some b | _ => None end.

(** [n as i64] of a [usize]: the same bits. *)
Definition usize_as_i64 (n : Z) : Z := (n + 2 ^ 63) mod 2 ^ 64 - 2 ^ 63.

(** ** [ruby_float] *)
Definition FIXED_MIN_EXPONENT : Z := -4.
Definition FIXED_MAX_EXPONENT : Z := 14.

(** [fixed]: the point [exponent] digits after the first digit. *)
Definition fixed (digits : str) (exponent : Z) : str :=
  if exponent <? 0 then "0." ++ zeros (- exponent - 1) ++ digits
  else
    let whole_len := Z.to_nat (exponent + 1) in
    if (length digits <=? whole_len)%nat then
      digits ++ zeros (Z.of_nat (whole_len - length digits)) ++ ".0"
    else take whole_len digits ++ "." ++ drop whole_len digits.

(** [ruby_float::to_s], Ruby's [Float#to_s]. *)
Definition float_to_s (n : f64) : str :=
  match n with
  | S754_nan => "NaN"
  | S754_infinity s => if s then "-Infinity" else "Infinity"
  | S754_zero s => (if s then "-" else []) ++ "0.0"
  | S754_finite s m e =>
    let sign := if s then "-" else [] in
    let (digits, exponent) := f64_exp_digits m e in
    if (FIXED_MIN_EXPONENT <=? exponent) && (exponent <=? FIXED_MAX_EXPONENT) then
      sign ++ fixed digits exponent
    else
      let tail := match drop 1 digits with [] => "0" | t => t end in
      let exponent_sign := if exponent <? 0 then "-" else "+" in
      sign ++ take 1 digits ++ "." ++ tail ++ "e" ++ exponent_sign
        ++ pad_left 48 2 (dec_Z (Z.abs exponent))
  end.

(** [finite_or_fault]: a float result, unless it is not finite (C3.4). *)
Definition finite_or_fault (op symbol : str) (lhs rhs result : f64) : res f64 :=
  if is_finite result then Ok result
  else Err (Fault (op ++ " overflowed: " ++ float_to_s lhs ++ " " ++ symbol ++ " "
                     ++ float_to_s (f64_abs rhs) ++ " is not a finite number")).

(** ** [rendering] *)

(** [ruby_inspect]: Ruby's [String#inspect]. *)
Fixpoint ruby_inspect_go (s : str) : str :=
  match s with
  | [] => []
  | c :: s' =>
    let escaped :=
      if (c =? 34)%N then backslash ++ dquote
      else if (c =? 92)%N then backslash ++ backslash
      else if (c =? 10)%N then backslash ++ "n"
      else if (c =? 9)%N then backslash ++ "t"
      else if (c =? 13)%N then backslash ++ "r"
      else if (c =? 7)%N then backslash ++ "a"
      else if (c =? 8)%N then backslash ++ "b"
      else if (c =? 11)%N then backslash ++ "v"
      else if (c =? 12)%N then backslash ++ "f"
      else if (c =? 27)%N then backslash ++ "e"
      else if (c =? 35)%N && match s' with d :: _ => (d =? 123) || (d =? 36) || (d =? 64) | [] => false end%N
        then backslash ++ "#"
      else if ((c <? 32) || (c =? 127))%N then backslash ++ "u" ++ hex4 true c
      else [c]
    in escaped ++ ruby_inspect_go s'
  end.
Definition ruby_inspect (s : str) : str := dquote ++ ruby_inspect_go s ++ dquote.

(** [json_string]: quoted, with the escapes JSON requires. *)
Definition json_escape (c : char) : str :=
  if (c =? 34)%N then backslash ++ dquote
  else if (c =? 92)%N then backslash ++ backslash
  else if (c =? 10)%N then backslash ++ "n"
  else if (c =? 13)%N then backslash ++ "r"
  else if (c =? 9)%N then backslash ++ "t"
  else if (c <? 32)%N then backslash ++ "u" ++ hex4 false c
  else [c].
Definition json_string (s : str) : str := dquote ++ flat_map json_escape s ++ dquote.

(** [generate]: Ruby's [JSON.generate]. *)
Fixpoint generate (v : Value) : str :=
  match v with
  | VNil => "null"
  | VBool b => debug_bool b
  | VInt i => dec_Z i
  | VFloat f => float_to_s f
  | VStr s => json_string s
  | VList _ => "[]"
  | VArray items => "[" ++ join "," (map generate items) ++ "]"
  | VObject fields =>
    "{" ++ join "," (map (λ '(key, field), json_string key ++ ":" ++ generate field) fields) ++ "}"
  end.

(** [rendering::describe]: a value as an error message names it. *)
Definition describe (v : Value) : str :=
  match v with
  | VNil => "nil"
  | VStr s => ruby_inspect s
  | other => generate other
  end.

(** [rendering::class_of], also [comparison::ruby_class_of]. *)
Definition class_of (v : Value) : str :=
  match v with
  | VNil => "nil"
  | VInt _ => "Integer"
  | VFloat _ => "Float"
  | VStr _ => "String"
  | VBool true => "TrueClass"
  | VBool false => "FalseClass"
  | VList _ | VArray _ => "Array"
  | VObject _ => "Hash"
  end.

(** [{:?}] of a value, as [derive(Debug)] writes it. *)
Fixpoint debug_value `{U : UnicodeTables} (v : Value) : str :=
  match v with
  | VInt n => "Int(" ++ dec_Z n ++ ")"
  | VFloat f => "Float(" ++ f64_debug f ++ ")"
  | VStr s => "Str(" ++ debug_str s ++ ")"
  | VBool b => "Bool(" ++ debug_bool b ++ ")"
  | VList n => "List(" ++ dec_Z n ++ ")"
  | VNil => "Nil"
  | VArray items => "Array(" ++ debug_list (map debug_value items) ++ ")"
  | VObject fields =>
    "Object({" ++ join ", " (map (λ '(k, f), debug_str k ++ ": " ++ debug_value f) fields) ++ "})"
  end.

(** ** [attribute_shapes] *)
Inductive AttributeShape := Scalar | ListShape | Optional | Composite.
Definition shape_module_name (s : AttributeShape) : str :=
  match s with
  | Scalar => "scalar" | ListShape => "list" | Optional => "optional" | Composite => "composite"
  end.

Definition list_is_empty (v : Value) : option bool :=
  match v with VList n => Some (n =? 0) | _ => None end.
Definition list_size (v : Value) : option Z :=
  match v with VList n => Some (usize_as_i64 n) | _ => None end.

Definition optional_to_s (v : Value) : option Value :=
  match v with VNil => Some (VStr []) | _ => None end.

Definition numeric (v : Value) : option f64 :=
  match v with VInt i => Some (f64_of_Z i) | VFloat f => Some f | _ => None end.
Definition scalar_to_s (v : Value) : option Value :=
  match v with
  | VStr s => Some (VStr s)
  | VInt i => Some (VStr (dec_Z i))
  | VFloat f => Some (VStr (float_to_s f))
  | VBool b => Some (VStr (debug_bool b))
  | VList _ | VNil | VArray _ | VObject _ => None
  end.
Definition scalar_is_empty (v : Value) : option bool :=
  match v with VStr s => Some (bool_decide (s = [])) | _ => None end.
Definition scalar_size (v : Value) : option Z :=
  match v with VStr s => Some (usize_as_i64 (Z.of_nat (length s))) | _ => None end.

(** ** The invariant of values: integers of 64 bits, lengths of 64 bits, and
    the fields of an object in strictly increasing key order. *)
Definition in_usize (n : Z) : bool := (0 <=? n) && (n <? 2 ^ 64).
Fixpoint keys_sorted (keys : list str) : bool :=
  match keys with
  | [] => true
  | k :: rest => match rest with [] => true | k' :: _ => str_ltb k k' && keys_sorted rest end
  end.
Fixpoint wf_value (v : Value) : bool :=
  match v with
  | VInt n => in_i64 n
  | VList n => in_usize n
  | VArray items => forallb wf_value items
  | VObject fields => keys_sorted (map fst fields) && forallb (λ '(_, f), wf_value f) fields
  | VFloat _ | VStr _ | VBool _ | VNil => true
  end.

(** ** What Ruby and Rust print of the same floats *)
Example ruby_floats :
  map (λ t, float_to_s (f64_lit t))
    ["3.0"; "0.5"; "-0.0"; "100000000000000.0"; "999999999999999.9"; "1e15"; "1.5e15"; "1e20";
     "0.0001"; "0.00001"; "1.5e-7"; "123456789.12345679"] =
    ["3.0"; "0.5"; "-0.0"; "100000000000000.0"; "999999999999999.9"; "1.0e+15"; "1.5e+15"; "1.0e+20";
     "0.0001"; "1.0e-05"; "1.5e-07"; "123456789.12345679"].
Proof. vm_compute. reflexivity. Qed.

Example inspect_text :
  ruby_inspect ("a" ++ dquote ++ "b" ++ backslash ++ "c" ++ [10; 1]%N ++ "#{x}" ++ [127]%N ++ "é") =
  dquote ++ "a" ++ backslash ++ dquote ++ "b" ++ backslash ++ backslash ++ "c" ++ backslash ++ "n"
    ++ backslash ++ "u0001" ++ backslash ++ "#{x}" ++ backslash ++ "u007F" ++ "é" ++ dquote.
Proof. vm_compute. reflexivity. Qed.
