(* ===== verification/Expr.v ===== *)
(** The expression evaluator ([src/rust/expr/src/]): the AST, what a lookup
    walks, one section per operator category and the router.  An object behind
    [&dyn Fielded] is the record of what its methods answer; every operator is
    written over the evaluator it calls back ([eval]), and [interpret] closes
    the knot by recursion on the expression.  The [regex] crate is a class. *)
From S2P Require Export Value.
Open Scope Z_scope.

(** The [regex] crate: compiling a source under its three options (the error
    is the crate's own text) and matching. *)
Class RegexCrate := {
  regex : Type;
  regex_build : ∀ (source : str) (case_insensitive dot_matches_new_line ignore_whitespace : bool),
    result str regex;
  is_match : regex → str → bool
}.

(** ** What a lookup walks: [Field], [Fielded] and its wrappers *)
Inductive Fielded :=
| MkFielded (field_of : str → option Field) (scalar_of : option Value) (value_of : option Value)
            (items_of : str → option (list Field))
with Field :=
| FValue (v : Value)
| FNested (o : Fielded).

Definition field (o : Fielded) (name : str) : option Field := let 'MkFielded f _ _ _ := o in f name.
Definition as_scalar (o : Fielded) : option Value := let 'MkFielded _ s _ _ := o in s.
Definition to_value (o : Fielded) : option Value := let 'MkFielded _ _ v _ := o in v.
Definition items (o : Fielded) (name : str) : option (list Field) := let 'MkFielded _ _ _ i := o in i name.

(** A block's own parameter, checked before the rest. *)
Definition Bound (name : str) (value : Field) (rest : Fielded) : Fielded :=
  MkFielded (λ n, if str_eqb n name then Some value else field rest n) None None
            (λ n, if str_eqb n name then None else items rest n).
Definition NoFields : Fielded := MkFielded (λ _, None) None None (λ _, None).
(** [ensures]: [old] before the arguments. *)
Definition WithOld (args old : Fielded) : Fielded :=
  MkFielded (λ n, if str_eqb n "old" then Some (FNested old) else field args n) None None
            (λ n, if str_eqb n "old" then None else items args n).
(** [ensures]: an argument is hidden by a settled field of its name (C2.3). *)
Definition StateFirst (args settled : Fielded) : Fielded :=
  MkFielded (λ n, match field settled n with Some _ => None | None => field args n end) None None
            (λ n, match field settled n with Some _ => None | None => items args n end).
(** An entity command's owning record, as [parent]. *)
Definition WithParent (args parent : Fielded) : Fielded :=
  MkFielded (λ n, if str_eqb n "parent" then Some (FNested parent) else field args n) None None
            (λ n, if str_eqb n "parent" then None else items args n).

Record EvalContext := { args : Fielded; instance : Fielded }.

(** ** The AST *)
Record Comparison := { less_than : bool; equal : bool; negated : bool }.

Inductive BlockMode := All | Any | NoneOf.
Definition ruby_name (m : BlockMode) : str :=
  match m with All => "all?" | Any => "any?" | NoneOf => "none?" end.

Inductive StripSide := Both | Left | Right.

Inductive Expr :=
| EOr (l r : Expr)
| EAnd (l r : Expr)
| ENot (e : Expr)
| ECompare (op : Comparison) (left right : Expr)
| EInclude (haystack needle : Expr)
| EInt (v : Z)
| EFloat (v : f64)
| EStr (v : str)
| EBool (v : bool)
| ENil
| EAdd (l r : Expr)
| ESub (l r : Expr)
| EMul (l r : Expr)
| EDiv (l r : Expr)
| ESignTest (op : Comparison) (receiver : Expr)
| EEmpty (receiver : Expr)
| EToS (receiver : Expr)
| EModulo (receiver divisor : Expr)
| ESize (receiver : Expr)
| ELookup (path : str)
| EBlockPredicate (mode : BlockMode) (receiver : Expr) (param : str) (predicate : Expr)
| EFind (receiver : Expr) (param : str) (predicate : Expr) (path : list str)
| ESum (receiver : Expr) (param : str) (predicate : Expr)
| EArray (elements : list Expr)
| EMatchesRegex (receiver : Expr) (pattern flags : str)
| EPresence (receiver : Expr) (negated : bool)
| EAssignment (receiver : Expr) (negated : bool)
| ESplit (receiver : Expr) (separator : str)
| EStrip (receiver : Expr) (side : StripSide)
| EStartsWith (receiver : Expr) (substring : str)
| EEndsWith (receiver : Expr) (substring : str)
| EFirst (receiver : Expr)
| ELast (receiver : Expr).

(** [StripSide::trim]: Ruby's whitespace set, never a Unicode space. *)
Definition is_stripped (c : char) : bool :=
  ((c =? 0) || (c =? 9) || (c =? 10) || (c =? 11) || (c =? 12) || (c =? 13) || (c =? 32))%N.
Definition trim (side : StripSide) (t : str) : str :=
  match side with
  | Both => trim_both is_stripped t
  | Left => trim_start is_stripped t
  | Right => trim_end is_stripped t
  end.

(** [OperatorCategory], in the order the grammar declares it. *)
Inductive OperatorCategory :=
| Logical | Membership | ComparisonCategory | Arithmetic | SignTest | Sized | ToString
| Enumeration | PatternMatch | Presence | TextCategory | Positional.
Definition category_module_name (c : OperatorCategory) : str :=
  match c with
  | Logical => "logical" | Membership => "membership" | ComparisonCategory => "comparison"
  | Arithmetic => "arithmetic" | SignTest => "sign_test" | Sized => "sized"
  | ToString => "to_string" | Enumeration => "enumeration" | PatternMatch => "pattern_match"
  | Presence => "presence" | TextCategory => "text" | Positional => "positional"
  end.

(** [category_of]: a leaf has none, where the source is [unreachable!]. *)
Definition category_of (e : Expr) : option OperatorCategory :=
  match e with
  | EOr _ _ | EAnd _ _ | ENot _ => Some Logical
  | EInclude _ _ => Some Membership
  | ECompare _ _ _ => Some ComparisonCategory
  | EAdd _ _ | ESub _ _ | EMul _ _ | EDiv _ _ | EModulo _ _ => Some Arithmetic
  | ESignTest _ _ => Some SignTest
  | EEmpty _ | ESize _ => Some Sized
  | EToS _ => Some ToString
  | EBlockPredicate _ _ _ _ | EFind _ _ _ _ | ESum _ _ _ => Some Enumeration
  | EMatchesRegex _ _ _ => Some PatternMatch
  | EPresence _ _ | EAssignment _ _ => Some Presence
  | ESplit _ _ | EStrip _ _ | EStartsWith _ _ | EEndsWith _ _ => Some TextCategory
  | EFirst _ | ELast _ => Some Positional
  | EInt _ | EFloat _ | EStr _ | EBool _ | ENil | ELookup _ | EArray _ => None
  end.

(** [eval_error]. *)
Definition eval_error (m : str) : Refusal := Fault m.

(** [{:?}] of an expression, for the router's own faults. *)
Section debug_expr.
Context `{U : UnicodeTables}.
Definition debug_comparison (op : Comparison) : str :=
  "Comparison { less_than: " ++ debug_bool (less_than op) ++ ", equal: " ++ debug_bool (equal op)
    ++ ", negated: " ++ debug_bool (negated op) ++ " }".
Definition debug_mode (m : BlockMode) : str :=
  match m with All => "All" | Any => "Any" | NoneOf => "None" end.
Definition debug_side (s : StripSide) : str :=
  match s with Both => "Both" | Left => "Left" | Right => "Right" end.
Definition debug_node (name : str) (fields : list (str * str)) : str :=
  name ++ " { " ++ join ", " (map (λ '(k, v), k ++ ": " ++ v) fields) ++ " }".

Fixpoint debug_expr (e : Expr) : str :=
  let tuple name parts := name ++ "(" ++ join ", " parts ++ ")" in
  match e with
  | EOr l r => tuple "Or" [debug_expr l; debug_expr r]
  | EAnd l r => tuple "And" [debug_expr l; debug_expr r]
  | ENot e => tuple "Not" [debug_expr e]
  | ECompare op l r => debug_node "Compare"
      [("op", debug_comparison op); ("left", debug_expr l); ("right", debug_expr r)]
  | EInclude h n => debug_node "Include" [("haystack", debug_expr h); ("needle", debug_expr n)]
  | EInt v => tuple "Int" [dec_Z v]
  | EFloat v => tuple "Float" [f64_debug v]
  | EStr v => tuple "Str" [debug_str v]
  | EBool v => tuple "Bool" [debug_bool v]
  | ENil => "Nil"
  | EAdd l r => tuple "Add" [debug_expr l; debug_expr r]
  | ESub l r => tuple "Sub" [debug_expr l; debug_expr r]
  | EMul l r => tuple "Mul" [debug_expr l; debug_expr r]
  | EDiv l r => tuple "Div" [debug_expr l; debug_expr r]
  | ESignTest op r => debug_node "SignTest" [("op", debug_comparison op); ("receiver", debug_expr r)]
  | EEmpty r => tuple "Empty" [debug_expr r]
  | EToS r => tuple "ToS" [debug_expr r]
  | EModulo r d => debug_node "Modulo" [("receiver", debug_expr r); ("divisor", debug_expr d)]
  | ESize r => tuple "Size" [debug_expr r]
  | ELookup p => tuple "Lookup" [debug_str p]
  | EBlockPredicate m r p q => debug_node "BlockPredicate"
      [("mode", debug_mode m); ("receiver", debug_expr r); ("param", debug_str p);
       ("predicate", debug_expr q)]
  | EFind r p q path => debug_node "Find"
      [("receiver", debug_expr r); ("param", debug_str p); ("predicate", debug_expr q);
       ("path", debug_list (map debug_str path))]
  | ESum r p q => debug_node "Sum"
      [("receiver", debug_expr r); ("param", debug_str p); ("predicate", debug_expr q)]
  | EArray es => tuple "Array" [debug_list (map debug_expr es)]
  | EMatchesRegex r p f => debug_node "MatchesRegex"
      [("receiver", debug_expr r); ("pattern", debug_str p); ("flags", debug_str f)]
  | EPresence r n => debug_node "Presence" [("receiver", debug_expr r); ("negated", debug_bool n)]
  | EAssignment r n => debug_node "Assignment" [("receiver", debug_expr r); ("negated", debug_bool n)]
  | ESplit r s => debug_node "Split" [("receiver", debug_expr r); ("separator", debug_str s)]
  | EStrip r s => debug_node "Strip" [("receiver", debug_expr r); ("side", debug_side s)]
  | EStartsWith r s => debug_node "StartsWith" [("receiver", debug_expr r); ("substring", debug_str s)]
  | EEndsWith r s => debug_node "EndsWith" [("receiver", debug_expr r); ("substring", debug_str s)]
  | EFirst r => tuple "First" [debug_expr r]
  | ELast r => tuple "Last" [debug_expr r]
  end.
End debug_expr.

Section evaluator.
Context `{U : UnicodeTables} `{R : RegexCrate}.

(** ** [attribute_shapes::composite]: dotted paths, a segment at a time *)
Definition step_value (value : Value) (seg : str) : res Field :=
match value with
| VStr t => if contains t seg then Ok (FValue (VStr seg)) else Ok (FValue VNil)
| VNil | VFloat _ | VBool _ => Ok (FValue VNil)
| VObject fields => Ok (FValue (default VNil (assoc seg fields)))
| VInt _ | VList _ | VArray _ =>
  Err (eval_error ("cannot read " ++ ruby_inspect seg ++ " from " ++ describe value))
end.

Definition step (current : Field) (seg head : str) : res Field :=
match current with
| FNested obj =>
  ok_or (field obj seg) (eval_error ("cannot resolve " ++ debug_str seg ++ " on " ++ debug_str head))
| FValue v => step_value v seg
end.

Definition finish (current : Field) (path : str) : res Value :=
match current with
| FValue v => Ok v
| FNested obj =>
  ok_or (match as_scalar obj with Some v => Some v | None => to_value obj end)
        (eval_error (path ++ " resolved to an object, not a scalar"))
end.

(** ** [Resolver#fetch] *)

(** The head segment: [args] first, then the instance. *)
Definition lookup_head (head : str) (ctx : EvalContext) : res Field :=
ok_or (match field (args ctx) head with Some f => Some f | None => field (instance ctx) head end)
      (eval_error ("cannot resolve " ++ debug_str head ++ " — no such attribute or argument")).

Definition lookup_field (path : str) (ctx : EvalContext) : res Field :=
let segments := split path "." in
let head := default [] (hd_error segments) in
let? current := lookup_head head ctx in
try_fold (λ current seg, step current seg head) current (tl segments).

Definition lookup (path : str) (ctx : EvalContext) : res Value :=
let? f := lookup_field path ctx in finish f path.

Definition describe_field (f : option Field) : str :=
match f with
| None => "nothing"
| Some (FValue v) => describe v
| Some (FNested _) => "an object"
end.

(** The elements of a list named by a path: only its end can be one. *)
Definition lookup_items (path : str) (ctx : EvalContext) (op : str) : res (list Field) :=
let segments := split path "." in
let head := default [] (hd_error segments) in
let rest := tl segments in
match list.last rest with
| None =>
  let side := match field (args ctx) head with Some _ => args ctx | None => instance ctx end in
  ok_or (items side head)
        (eval_error (op ++ " expects a list, got " ++ describe_field (field side head)))
| Some last_seg =>
  let? start := lookup_head head ctx in
  let? current := try_fold (λ current seg, step current seg head) start (removelast rest) in
  match current with
  | FNested obj =>
    ok_or (items obj last_seg)
          (eval_error (op ++ " expects a list, got " ++ describe_field (field obj last_seg)))
  | FValue v =>
    Err (eval_error (path ++ " — cannot look up " ++ debug_str last_seg ++ " on scalar " ++ debug_value v))
  end
end.

(** ** [arithmetic] *)
Definition require_number (v : Value) (operation : str) : res f64 :=
ok_or (numeric v) (eval_error (operation ++ " expects a number, got " ++ describe v)).

(** An operand as Ruby prints it. *)
Definition quote_operand (v : Value) : str :=
match v with VInt i => dec_Z i | VFloat f => float_to_s f | other => debug_value other end.

Definition finite (name symbol : str) (operands : Value * Value) (result : f64) : res Value :=
if is_finite result then Ok (VFloat result)
else Err (eval_error (name ++ " overflowed: " ++ quote_operand operands.1 ++ " " ++ symbol ++ " "
                        ++ quote_operand operands.2 ++ " is not a finite number")).

Definition checked_op (name symbol : str) (lhs rhs : Value)
  (int_op : Z → Z → option Z) (float_op : f64 → f64 → f64) : res Value :=
match lhs, rhs with
| VInt l, VInt r =>
  ok_or (VInt <$> int_op l r)
        (eval_error (name ++ " overflowed: " ++ dec_Z l ++ " " ++ symbol ++ " " ++ dec_Z r
                       ++ " does not fit in a 64-bit integer"))
| _, _ =>
  let? l := require_number lhs name in
  let? r := require_number rhs name in
  finite name symbol (lhs, rhs) (float_op l r)
end.

Definition sum (lhs rhs : Value) : res Value :=
match lhs, rhs with
| VInt l, VInt r =>
  ok_or (VInt <$> checked_add l r)
        (eval_error ("addition overflowed: " ++ dec_Z l ++ " + " ++ dec_Z r
                       ++ " does not fit in a 64-bit integer"))
| _, _ =>
  let? l := require_number lhs "addition" in
  let? r := require_number rhs "addition" in
  let sum := f64_add l r in
  if is_finite sum then Ok (VFloat sum)
  else Err (eval_error ("addition overflowed: " ++ quote_operand lhs ++ " + " ++ quote_operand rhs
                          ++ " is not a finite number"))
end.

(** [None] only for a quotient that does not fit. *)
Definition floored_div (l r : Z) : option Z :=
quotient ← checked_div l r;
Some (if negb (Z.rem l r =? 0) && negb (Bool.eqb (l <? 0) (r <? 0)) then quotient - 1
      else quotient).

Definition floored_mod (r d : Z) : Z :=
if d =? -1 then 0
else
  let raw := Z.rem r d in
  if negb (raw =? 0) && negb (Bool.eqb (raw <? 0) (d <? 0)) then raw + d else raw.

Definition divide (lhs rhs : Value) : res Value :=
let? r := require_number rhs "division" in
if f64_eqb r f64_zero then Err (eval_error "divided by 0")
else match lhs, rhs with
| VInt l, VInt r =>
  ok_or (VInt <$> floored_div l r)
        (eval_error ("division overflowed: " ++ dec_Z l ++ " / " ++ dec_Z r
                       ++ " does not fit in a 64-bit integer"))
| _, _ =>
  let? l := require_number lhs "division" in
  finite "division" "/" (lhs, rhs) (f64_div l r)
end.

(** Ruby's [Float#%]: the divisor's sign; an infinite divisor leaves a finite
  receiver be. *)
Definition float_mod (x y : f64) : f64 :=
let remainder := if is_infinite y && negb (is_infinite x) then x else f64_rem x y in
if f64_ltb (f64_mul y remainder) f64_zero then f64_add remainder y else remainder.

Definition modulo_values (receiver divisor : Value) : res Value :=
let? x := require_number receiver "modulo" in
let? y := require_number divisor "modulo" in
if f64_eqb y f64_zero then Err (eval_error "divided by 0")
else match receiver, divisor with
| VInt r, VInt d => Ok (VInt (floored_mod r d))
| _, _ => Ok (VFloat (float_mod x y))
end.

(** ** [comparison] *)

(** An integer and a float are equal only when the float is that integer. *)
Definition int_equals_float (i : Z) (f : f64) : bool :=
is_finite f && is_whole f
&& (f64_leb (f64_of_Z i64_min) f && f64_ltb f (f64_of_Z (2 ^ 63))) && (as_i64 f =? i).

Definition values_eqb_plain (lhs rhs : Value) : bool :=
match lhs, rhs with
| VStr a, VStr b => str_eqb a b
| VBool a, VBool b => Bool.eqb a b
| VList a, VList b => a =? b
| VNil, VNil => true
| _, _ => false
end.

Fixpoint values_equal (lhs rhs : Value) {struct lhs} : bool :=
match lhs, rhs with
| VInt a, VInt b => a =? b
| VInt i, VFloat f | VFloat f, VInt i => int_equals_float i f
| VFloat a, VFloat b => f64_eqb a b
| VArray a, VArray b =>
  (length a =? length b)%nat && (fix all_pairs (a b : list Value) : bool :=
    match a, b with
    | x :: a', y :: b' => values_equal x y && all_pairs a' b'
    | _, _ => true
    end) a b
| VObject a, VObject b =>
  (length a =? length b)%nat && forallb (λ '(key, x),
    match assoc key b with Some y => values_equal x y | None => false end) a
| _, _ => values_eqb_plain lhs rhs
end.

(** [comparison::describe]: unlike [rendering::describe], strings and keys are
  quoted as Rust quotes them. *)
Fixpoint describe_compared (v : Value) : str :=
let json v := match v with VNil => "null" | other => describe_compared other end in
match v with
| VNil => "nil"
| VInt n => dec_Z n
| VBool b => debug_bool b
| VFloat f => float_to_s f
| VStr s => debug_str s
| VList _ => "[]"
| VArray items => "[" ++ join "," (map json items) ++ "]"
| VObject fields =>
  "{" ++ join "," (map (λ '(key, field), debug_str key ++ ":" ++ json field) fields) ++ "}"
end.

Definition values_less (lhs rhs : Value) : res bool :=
match numeric lhs, numeric rhs with
| Some l, Some r => Ok (f64_ltb l r)
| _, _ =>
  match lhs, rhs with
  | VStr l, VStr r => Ok (str_ltb l r)
  | _, _ => Err (eval_error ("comparison of " ++ class_of lhs ++ " with "
                               ++ describe_compared rhs ++ " failed"))
  end
end.

Definition apply (op : Comparison) (lhs rhs : Value) : res bool :=
let? lt := if less_than op then values_less lhs rhs else Ok false in
let eq := equal op && values_equal lhs rhs in
Ok (if negated op then negb (lt || eq) else lt || eq).

(** ** [pattern_match]: a Ruby regexp source rewritten for the [regex] crate *)

(** The class a backslash escape stands for: its members and its complement. *)
Definition escape_class (c : char) : option (str * str) :=
let space := backslash ++ "x20" ++ backslash ++ "t" ++ backslash ++ "r" ++ backslash ++ "n"
               ++ backslash ++ "f" ++ backslash ++ "x0B" in
if (c =? 100)%N then Some ("0-9", "[^0-9]")
else if (c =? 119)%N then Some ("A-Za-z0-9_", "[^A-Za-z0-9_]")
else if (c =? 115)%N then Some (space, "[^" ++ space ++ "]")
else if (c =? 104)%N then Some ("0-9a-fA-F", "[^0-9a-fA-F]")
else None.

(** The scan: [in_class] holds, inside a class, how many characters may still
  pass before a closing bracket can end it (its first member is literal). *)
Fixpoint ruby_source_go (in_class : option nat) (chars : str) : str :=
match chars with
| [] => []
| c :: rest =>
  if (c =? 92)%N then
    match rest with
    | [] => [c]
    | next :: rest' =>
      let inside := match in_class with Some _ => true | None => false end in
      let in_class' := match in_class with Some n => Some (n - 2)%nat | None => None end in
      (match escape_class (ascii_lower next) with
       | Some (positive, negative) =>
         if is_upper next then negative
         else if inside then positive else "[" ++ positive ++ "]"
       | None =>
         if (next =? 90)%N && negb inside then "(?:" ++ backslash ++ "n?" ++ backslash ++ "z)"
         else [c; next]
       end) ++ ruby_source_go in_class' rest'
    end
  else match in_class with
  | Some n =>
    let in_class' := if (c =? 93)%N && (n =? 0)%nat then None else Some (n - 1)%nat in
    c :: ruby_source_go in_class' rest
  | None =>
    if (c =? 91)%N then
      let n := match rest with d :: _ => if (d =? 94)%N then 2%nat else 1%nat | [] => 1%nat end in
      c :: ruby_source_go (Some n) rest
    else if (c =? 94)%N then "(?m:^)" ++ ruby_source_go None rest
    else if (c =? 36)%N then "(?m:$)" ++ ruby_source_go None rest
    else c :: ruby_source_go None rest
  end
end.

Definition ruby_regex (pattern flags : str) : res regex :=
match regex_build (ruby_source_go None pattern)
        (contains flags "i") (contains flags "m") (contains flags "x") with
| Ok re => Ok re
| Err e => Err (eval_error ("match? given an invalid pattern " ++ ruby_inspect pattern ++ " — " ++ e))
end.

(** Text form of a scalar receiver: nil is empty, booleans and lists refuse. *)
Definition coerce_text (v : Value) : res str :=
match v with
| VStr s => Ok s
| VInt i => Ok (dec_Z i)
| VFloat f => Ok (float_to_s f)
| VNil => Ok []
| VBool _ | VList _ | VArray _ | VObject _ =>
  Err (eval_error ("match? expects a scalar, got " ++ class_of v))
end.

(** ** [presence], [sized], [to_string], [text], [positional]: their readings of a value *)

(** Rails-style blankness. *)
Definition blank (v : Value) : bool :=
match v with
| VNil | VBool false => true
| VStr s => bool_decide (s = [])
| VArray elements => bool_decide (length elements = 0%nat)
| VObject fields => bool_decide (length fields = 0%nat)
| VInt _ | VFloat _ | VBool true | VList _ => false
end.

Definition empty_of (v : Value) : res Value :=
match v with
| VStr _ => let? b := ok_or (scalar_is_empty v) (eval_error "router bug: Str always answers is_empty") in
            Ok (VBool b)
| VList _ => let? b := ok_or (list_is_empty v) (eval_error "router bug: List always answers is_empty") in
             Ok (VBool b)
| VArray elements => Ok (VBool (bool_decide (length elements = 0%nat)))
| VInt _ | VFloat _ | VBool _ | VNil | VObject _ =>
  Err (eval_error ("empty? expects a list or string, got " ++ describe v))
end.

Definition size_of (v : Value) : res Value :=
match v with
| VStr _ => let? n := ok_or (scalar_size v) (eval_error "router bug: Str always answers size") in
            Ok (VInt n)
| VList _ => let? n := ok_or (list_size v) (eval_error "router bug: List always answers size") in
             Ok (VInt n)
| VArray elements => Ok (VInt (usize_as_i64 (Z.of_nat (length elements))))
| VInt _ | VFloat _ | VBool _ | VNil | VObject _ =>
  Err (eval_error ("size expects a list or string, got " ++ describe v))
end.

Definition to_s_of (v : Value) : res Value :=
match v with
| VStr _ | VInt _ | VFloat _ | VBool _ =>
  ok_or (scalar_to_s v) (eval_error "router bug: scalar shape always stringifies")
| VNil => ok_or (optional_to_s VNil)
            (eval_error ("router bug: Nil always stringifies to " ++ dquote ++ dquote))
| VList _ | VArray _ | VObject _ =>
  Err (eval_error ("to_s expects a scalar, got " ++ describe v))
end.

Definition require_str (v : Value) (op : str) : res str :=
match v with
| VStr s => Ok s
| other => Err (eval_error (op ++ " expects a string, got " ++ describe other))
end.

(** Trailing empty fields are dropped. *)
Fixpoint drop_empty (rev_parts : list str) : list str :=
match rev_parts with [] :: rest => drop_empty rest | _ => rev_parts end.

(** Ruby's [String#split] with a string separator. *)
Definition split_text (t separator : str) : list Value :=
let parts :=
  if str_eqb separator " " then
    List.filter (λ p, negb (str_eqb p []))
      (split_chars (λ c, ((c =? 32) || (c =? 9) || (c =? 10) || (c =? 11) || (c =? 12) || (c =? 13))%N) t)
  else if str_eqb separator [] then map (λ c, [c]) t
  else split t separator in
map VStr (rev (drop_empty (rev parts))).

(** The element a list of fields answers first or last. *)
Definition field_value (item : option Field) (op : str) : res Value :=
match item with
| None => Ok VNil
| Some (FValue v) => Ok v
| Some (FNested _) =>
  Err (eval_error (op ++ " on a list of objects is not generated yet — only scalar-element lists are"))
end.

(** [.find]: the path past the found element. *)
Definition project (item : Field) (path : list str) : res Value :=
let? current := try_fold (λ current seg, step current seg "find") item path in
finish current ("find { }." ++ join "." path).

(** A node handed to an operator that is not its own. *)
Definition router_bug (called what : str) (e : Expr) : Refusal :=
TypeMismatch (called ++ " called with " ++ what ++ debug_expr e ++ " — a router bug").

(** ** The operators, each over the evaluator it calls back *)
Section operators.
Variable eval : Expr → EvalContext → res Value.

Definition logical_interpret (e : Expr) (ctx : EvalContext) : res Value :=
  match e with
  | EOr l r =>
    let? a := eval l ctx in
    if truthy a then Ok (VBool true) else let? b := eval r ctx in Ok (VBool (truthy b))
  | EAnd l r =>
    let? a := eval l ctx in
    if truthy a then let? b := eval r ctx in Ok (VBool (truthy b)) else Ok (VBool false)
  | ENot n => let? a := eval n ctx in Ok (VBool (negb (truthy a)))
  | _ => Err (router_bug "logical::interpret" "a non-logical node " e)
  end.

Definition membership_interpret (e : Expr) (ctx : EvalContext) : res Value :=
  match e with
  | EInclude haystack needle =>
    let? wanted := eval needle ctx in
    let? v := eval haystack ctx in
    match v with
    | VArray items => Ok (VBool (existsb (λ item, values_equal item wanted) items))
    | VStr t =>
      match wanted with
      | VStr part => Ok (VBool (contains t part))
      | other => Err (eval_error ("no implicit conversion of " ++ class_of other ++ " into String"))
      end
    | _ => Ok (VBool false)
    end
  | _ => Err (router_bug "membership::interpret" "a non-membership node " e)
  end.

Definition comparison_interpret (e : Expr) (ctx : EvalContext) : res Value :=
  match e with
  | ECompare op lhs rhs =>
    let? l := eval lhs ctx in
    let? r := eval rhs ctx in
    let? b := apply op l r in Ok (VBool b)
  | _ => Err (router_bug "comparison::interpret" "a non-comparison node " e)
  end.

(** [arithmetic::binary]. *)
Definition binary (e : Expr) (ctx : EvalContext) : res Value :=
  let run name symbol l r :=
    let? lhs := eval l ctx in
    let? rhs := eval r ctx in
    if str_eqb symbol "+" then sum lhs rhs
    else if str_eqb symbol "-" then checked_op name symbol lhs rhs checked_sub f64_sub
    else if str_eqb symbol "*" then checked_op name symbol lhs rhs checked_mul f64_mul
    else divide lhs rhs in
  match e with
  | EAdd l r => run "addition" "+" l r
  | ESub l r => run "subtraction" "-" l r
  | EMul l r => run "multiplication" "*" l r
  | EDiv l r => run "division" "/" l r
  | _ => Err (router_bug "arithmetic::binary" "a non-binary node " e)
  end.

Definition modulo (e : Expr) (ctx : EvalContext) : res Value :=
  match e with
  | EModulo receiver divisor =>
    let? receiver := eval receiver ctx in
    let? divisor := eval divisor ctx in
    modulo_values receiver divisor
  | _ => Err (router_bug "arithmetic::modulo" "a non-modulo node " e)
  end.

Definition sign_test_name (op : Comparison) : str :=
  match less_than op, equal op with
  | true, true => "positive?"
  | true, false => "negative?"
  | _, _ => "zero?"
  end.
Definition sign_test_interpret (e : Expr) (ctx : EvalContext) : res Value :=
  match e with
  | ESignTest op receiver =>
    let? v := eval receiver ctx in
    require_number v (sign_test_name op) ;;?
    let? b := apply op v (VInt 0) in Ok (VBool b)
  | _ => Err (router_bug "sign_test::interpret" "a non-sign-test node " e)
  end.

Definition sized_empty (e : Expr) (ctx : EvalContext) : res Value :=
  match e with
  | EEmpty receiver => let? v := eval receiver ctx in empty_of v
  | _ => Err (router_bug "sized::empty" "a non-empty? node " e)
  end.
Definition sized_size (e : Expr) (ctx : EvalContext) : res Value :=
  match e with
  | ESize receiver => let? v := eval receiver ctx in size_of v
  | _ => Err (router_bug "sized::size" "a non-size node " e)
  end.

Definition to_string_interpret (e : Expr) (ctx : EvalContext) : res Value :=
  match e with
  | EToS receiver => let? v := eval receiver ctx in to_s_of v
  | _ => Err (router_bug "to_string::interpret" "a non-to_s node " e)
  end.

(** [enumeration]: only a [Lookup] names a list; any other receiver is
    evaluated to word the error. *)
Definition block_elements (receiver : Expr) (ctx : EvalContext) (op : str) : res (list Field) :=
  match receiver with
  | ELookup path => lookup_items path ctx op
  | other =>
    let? v := eval other ctx in
    Err (eval_error (op ++ " expects a list, got " ++ describe v))
  end.

(** The context of a block, for one element. *)
Definition block_ctx (param : str) (item : Field) (ctx : EvalContext) : EvalContext :=
  {| args := Bound param item (args ctx); instance := instance ctx |}.

Fixpoint find_loop (param : str) (predicate : EvalContext → res Value) (path : list str)
    (ctx : EvalContext) (l : list Field) : res Value :=
  match l with
  | [] => Ok VNil
  | item :: l' =>
    let? accepted := predicate (block_ctx param item ctx) in
    if truthy accepted then project item path else find_loop param predicate path ctx l'
  end.

Definition enumeration_interpret (e : Expr) (ctx : EvalContext) : res Value :=
  match e with
  | EBlockPredicate mode receiver param predicate =>
    let? l := block_elements receiver ctx (ruby_name mode) in
    let? outcomes := collect_results (λ item,
      let? v := eval predicate (block_ctx param item ctx) in Ok (truthy v)) l in
    Ok (VBool (match mode with
               | All => forallb id outcomes
               | Any => existsb id outcomes
               | NoneOf => negb (existsb id outcomes)
               end))
  | ESum receiver param predicate =>
    let? l := block_elements receiver ctx "sum" in
    try_fold (λ total item,
      let? v := eval predicate (block_ctx param item ctx) in sum total v) (VInt 0) l
  | EFind receiver param predicate path =>
    let? l := block_elements receiver ctx "find" in
    find_loop param (eval predicate) path ctx l
  | _ => Err (router_bug "enumeration::interpret" "a non-enumeration node " e)
  end.

Definition pattern_match_interpret (e : Expr) (ctx : EvalContext) : res Value :=
  match e with
  | EMatchesRegex receiver pattern flags =>
    let? v := eval receiver ctx in
    let? t := coerce_text v in
    let? re := ruby_regex pattern flags in
    Ok (VBool (is_match re t))
  | _ => Err (router_bug "pattern_match::interpret" "a non-match? node " e)
  end.

Definition presence_interpret (e : Expr) (ctx : EvalContext) : res Value :=
  match e with
  | EPresence receiver negated =>
    let? v := eval receiver ctx in
    let present := negb (blank v) in
    Ok (VBool (if negated then negb present else present))
  | _ => Err (router_bug "presence::interpret" "a non-presence node " e)
  end.

Definition interpret_assignment (e : Expr) (ctx : EvalContext) : res Value :=
  match e with
  | EAssignment receiver negated =>
    let is_set v := match v with VNil => false | _ => true end in
    let? set :=
      match receiver with
      | ELookup path =>
        let? f := lookup_field path ctx in
        Ok (match f with FNested _ => true | FValue v => is_set v end)
      | other => let? v := eval other ctx in Ok (is_set v)
      end in
    Ok (VBool (if negated then negb set else set))
  | _ => Err (router_bug "presence::interpret_assignment" "a non-assignment node " e)
  end.

Definition text_interpret (e : Expr) (ctx : EvalContext) : res Value :=
  match e with
  | ESplit receiver separator =>
    let? v := eval receiver ctx in
    let? t := require_str v "split" in Ok (VArray (split_text t separator))
  | EStrip receiver side =>
    let? v := eval receiver ctx in
    let? t := require_str v "strip" in Ok (VStr (trim side t))
  | EStartsWith receiver substring =>
    let? v := eval receiver ctx in
    let? t := require_str v "start_with?" in Ok (VBool (starts_with t substring))
  | EEndsWith receiver substring =>
    let? v := eval receiver ctx in
    let? t := require_str v "end_with?" in Ok (VBool (ends_with t substring))
  | _ => Err (router_bug "text::interpret" "a non-text node " e)
  end.

Definition positional_interpret (e : Expr) (ctx : EvalContext) : res Value :=
  let run op (receiver : Expr) (take_first : bool) :=
    match receiver with
    | ELookup path =>
      let? l := lookup_items path ctx op in
      field_value (if take_first then hd_error l else list.last l) op
    | other =>
      let? v := eval other ctx in
      match v with
      | VArray elements =>
        Ok (default VNil (if take_first then hd_error elements else list.last elements))
      | v => Err (eval_error (op ++ " expects a list, got " ++ describe v))
      end
    end in
  match e with
  | EFirst receiver => run "first" receiver true
  | ELast receiver => run "last" receiver false
  | _ => Err (router_bug "positional::interpret" "a non-positional node " e)
  end.

(** [dispatch_operator]: one arm per category. *)
Definition dispatch_operator (category : OperatorCategory) (e : Expr) (ctx : EvalContext)
  : res Value :=
  match category with
  | Logical => logical_interpret e ctx
  | Membership => membership_interpret e ctx
  | ComparisonCategory => comparison_interpret e ctx
  | Arithmetic =>
    match e with
    | EAdd _ _ | ESub _ _ | EMul _ _ | EDiv _ _ => binary e ctx
    | EModulo _ _ => modulo e ctx
    | _ => Err (router_bug "dispatch_operator(Arithmetic, ..)" [] e)
    end
  | SignTest => sign_test_interpret e ctx
  | Sized =>
    match e with
    | EEmpty _ => sized_empty e ctx
    | ESize _ => sized_size e ctx
    | _ => Err (router_bug "dispatch_operator(Sized, ..)" [] e)
    end
  | ToString => to_string_interpret e ctx
  | Enumeration => enumeration_interpret e ctx
  | PatternMatch => pattern_match_interpret e ctx
  | Presence =>
    match e with
    | EPresence _ _ => presence_interpret e ctx
    | EAssignment _ _ => interpret_assignment e ctx
    | _ => Err (router_bug "dispatch_operator(Presence, ..)" [] e)
    end
  | TextCategory => text_interpret e ctx
  | Positional => positional_interpret e ctx
  end.
End operators.

(** Where [category_of] is asked about a leaf, the source panics. *)
Definition unreachable : Refusal :=
Fault "internal error: entered unreachable code".

(** [interpret]: leaves here, everything else through the router. *)
Fixpoint interpret (e : Expr) (ctx : EvalContext) : res Value :=
match e with
| EInt v => Ok (VInt v)
| EFloat v => Ok (VFloat v)
| EStr v => Ok (VStr v)
| EBool v => Ok (VBool v)
| ENil => Ok VNil
| ELookup path => lookup path ctx
| EArray elements =>
  let? vs := collect_results (λ e, interpret e ctx) elements in Ok (VArray vs)
| _ =>
  match category_of e with
  | Some category => dispatch_operator interpret category e ctx
  | None => Err unreachable
  end
end.

End evaluator.
