(* ===== verification/ExprFacts.v ===== *)
(** What the evaluator of [Expr.v] guarantees: it only ever fails with a
    fault, keeps its values well formed (integers of 64 bits), floors its
    integer division, and evaluates every element of a block.  Proved by
    induction over the children of an expression, operator by operator. *)
From S2P Require Export Expr.
Open Scope Z_scope.

(** ** Induction over the direct subexpressions *)
Definition children (e : Expr) : list Expr :=
  match e with
  | EOr l r | EAnd l r | ECompare _ l r | EInclude l r | EAdd l r | ESub l r | EMul l r | EDiv l r
  | EModulo l r | EBlockPredicate _ l _ r | EFind l _ r _ | ESum l _ r => [l; r]
  | ENot e | ESignTest _ e | EEmpty e | EToS e | ESize e | EMatchesRegex e _ _ | EPresence e _
  | EAssignment e _ | ESplit e _ | EStrip e _ | EStartsWith e _ | EEndsWith e _ | EFirst e
  | ELast e => [e]
  | EArray es => es
  | EInt _ | EFloat _ | EStr _ | EBool _ | ENil | ELookup _ => []
  end.

Lemma Expr_children_ind (P : Expr → Prop) :
  (∀ e, Forall P (children e) → P e) → ∀ e, P e.
Proof.
  intros H. fix IH 1. intros e. apply H. destruct e; cbn [children];
    try (repeat (apply Forall_cons; [apply IH|]); apply Forall_nil).
  induction elements as [|x l IHl]; [apply Forall_nil|apply Forall_cons; [apply IH|exact IHl]].
Qed.

(** ** Well-formed data *)
Definition wf_literal (e : Expr) : bool := match e with EInt v => in_i64 v | _ => true end.
Inductive wf_expr : Expr → Prop :=
| WfExpr e : wf_literal e = true → Forall wf_expr (children e) → wf_expr e.

(** Every value an object can answer with is well formed. *)
Inductive wf_fielded : Fielded → Prop :=
| WfFielded o :
    (∀ n f, field o n = Some f → wf_field f) →
    (∀ v, as_scalar o = Some v → wf_value v = true) →
    (∀ v, to_value o = Some v → wf_value v = true) →
    (∀ n l, items o n = Some l → ∀ f, f ∈ l → wf_field f) →
    wf_fielded o
with wf_field : Field → Prop :=
| WfFValue v : wf_value v = true → wf_field (FValue v)
| WfFNested o : wf_fielded o → wf_field (FNested o).

Definition wf_ctx (ctx : EvalContext) : Prop := wf_fielded (args ctx) ∧ wf_fielded (instance ctx).

(** An outcome that satisfies [P], or a fault: what evaluation may end in. *)
Definition faulting {A} (P : A → Prop) (r : res A) : Prop :=
  match r with Ok a => P a | Err e => is_fault e = true end.
Abbreviation wf_v := (λ v, wf_value v = true).
Abbreviation anything := (λ _, True).

Lemma faulting_bind {A B} (P : A → Prop) (Q : B → Prop) (r : res A) (k : A → res B) :
  faulting P r → (∀ a, P a → faulting Q (k a)) →
  faulting Q (match r with Ok a => k a | Err e => Err e end).
Proof. destruct r; simpl; auto. Qed.

Lemma faulting_weaken {A} (P Q : A → Prop) (r : res A) :
  (∀ a, P a → Q a) → faulting P r → faulting Q r.
Proof. destruct r; simpl; auto. Qed.

Lemma faulting_ok_or {A} (P : A → Prop) (o : option A) (m : str) :
  (∀ a, o = Some a → P a) → faulting P (ok_or o (eval_error m)).
Proof. destruct o; simpl; auto. Qed.

Lemma faulting_collect {A B} (P : B → Prop) (f : A → res B) (l : list A) :
  (∀ a, a ∈ l → faulting P (f a)) → faulting (Forall P) (collect_results f l).
Proof.
  induction l as [|a l IH]; intros H; simpl; [constructor|].
  apply (faulting_bind P); [apply H; left|]. intros b Hb.
  apply (faulting_bind (Forall P)); [apply IH; intros; apply H; by right|].
  intros bs Hbs. simpl. by constructor.
Qed.

Lemma faulting_fold {A B} (P : B → Prop) (f : B → A → res B) (l : list A) :
  (∀ a b, a ∈ l → P b → faulting P (f b a)) → ∀ b, P b → faulting P (try_fold f b l).
Proof.
  induction l as [|a l IH]; intros H b Hb; simpl; [done|].
  apply (faulting_bind P); [apply H; [left|done]|].
  intros b' Hb'. apply IH; [|done]. intros; apply H; [by right|done].
Qed.

#[export] Hint Resolve faulting_ok_or : hecks.

Section evaluator_facts.
Context `{U : UnicodeTables} `{R : RegexCrate}.

(** ** Lookups *)
Lemma wf_assoc (k : str) (fields : list (str * Value)) (v : Value) :
wf_value (VObject fields) = true → assoc k fields = Some v → wf_value v = true.
Proof.
simpl. rewrite andb_true_iff, forallb_forall. intros [_ H] E.
apply assoc_elem_of, list_elem_of_In in E. by apply (H (k, v)).
Qed.

Lemma wf_fielded_field (o : Fielded) (n : str) (f : Field) :
wf_fielded o → field o n = Some f → wf_field f.
Proof. intros []; eauto. Qed.

Lemma wf_fielded_items (o : Fielded) (n : str) (l : list Field) :
wf_fielded o → items o n = Some l → ∀ f, f ∈ l → wf_field f.
Proof. intros []; eauto. Qed.

Lemma step_wf (current : Field) (seg head : str) :
wf_field current → faulting wf_field (step current seg head).
Proof.
intros [v Hv|o [o' Hf _ _ _]]; cbn [step].
- destruct v; cbn [step_value]; try done; try by constructor.
  + case_match; by constructor.
  + constructor. destruct (assoc seg fields) eqn:E; [|done]. by eapply wf_assoc.
- apply faulting_ok_or. eauto.
Qed.

Lemma finish_wf (current : Field) (path : str) :
wf_field current → faulting wf_v (finish current path).
Proof.
intros [v Hv|o [o' _ Hs Hv _]]; cbn [finish]; [done|].
apply faulting_ok_or. intros a. case_match; [intros [= <-]; eauto|eauto].
Qed.

Lemma steps_wf (current : Field) (segs : list str) (head : str) :
wf_field current → faulting wf_field (try_fold (λ c seg, step c seg head) current segs).
Proof. revert current. apply faulting_fold. intros; by apply step_wf. Qed.

Lemma lookup_head_wf (head : str) (ctx : EvalContext) :
wf_ctx ctx → faulting wf_field (lookup_head head ctx).
Proof.
intros [Ha Hi]. apply faulting_ok_or. intros f.
destruct (field (args ctx) head) eqn:E; [intros [= <-]|];
  eauto using wf_fielded_field.
Qed.

Lemma lookup_field_wf (path : str) (ctx : EvalContext) :
wf_ctx ctx → faulting wf_field (lookup_field path ctx).
Proof.
intros H. apply (faulting_bind wf_field); [by apply lookup_head_wf|].
intros f Hf. by apply steps_wf.
Qed.

Lemma lookup_wf (path : str) (ctx : EvalContext) : wf_ctx ctx → faulting wf_v (lookup path ctx).
Proof.
intros H. apply (faulting_bind wf_field); [by apply lookup_field_wf|].
intros f Hf. by apply finish_wf.
Qed.

Lemma items_wf (o : Fielded) (name m : str) :
wf_fielded o → faulting (λ l, ∀ f, f ∈ l → wf_field f) (ok_or (items o name) (eval_error m)).
Proof. intros [o' _ _ _ Hl]. apply faulting_ok_or. eauto. Qed.

Lemma lookup_items_wf (path op : str) (ctx : EvalContext) :
wf_ctx ctx → faulting (λ l, ∀ f, f ∈ l → wf_field f) (lookup_items path ctx op).
Proof.
intros H. unfold lookup_items. destruct (list.last _) as [seg|].
- apply (faulting_bind wf_field); [by apply lookup_head_wf|]. intros f Hf.
  apply (faulting_bind wf_field); [by apply steps_wf|].
  intros g [v Hv|o Ho]; [done|]. by apply items_wf.
- destruct H as [Ha Hi]. case_match; by apply items_wf.
Qed.

(** ** Arithmetic *)
Lemma in_i64_spec (z : Z) : in_i64 z = true ↔ i64_min ≤ z ≤ i64_max.
Proof. unfold in_i64. by rewrite andb_true_iff, !Z.leb_le. Qed.

Lemma checked_spec (z r : Z) : checked z = Some r ↔ z = r ∧ in_i64 r = true.
Proof. unfold checked. destruct (in_i64 z) eqn:E; (split; [intros [= ->]|intros [<- ?]]); congruence || done. Qed.

Lemma usize_as_i64_range (n : Z) : in_i64 (usize_as_i64 n) = true.
Proof.
apply in_i64_spec. unfold usize_as_i64, i64_min, i64_max.
pose proof (Z.mod_pos_bound (n + 2 ^ 63) (2 ^ 64) eq_refl).
change (2 ^ 64) with (2 ^ 63 + 2 ^ 63) in *. lia.
Qed.

Lemma require_number_faulting (v : Value) (op : str) : faulting anything (require_number v op).
Proof. by apply faulting_ok_or. Qed.

Lemma checked_some_wf (o : option Z) (m : str) :
(∀ z, o = Some z → in_i64 z = true) → faulting wf_v (ok_or (VInt <$> o) (eval_error m)).
Proof. intros H. apply faulting_ok_or. destruct o; simpl; [|done]. intros ? [= <-]. by apply H. Qed.

Lemma finite_wf (name symbol : str) (p : Value * Value) (f : f64) :
faulting wf_v (finite name symbol p f).
Proof. unfold finite. by destruct (is_finite f). Qed.

Lemma checked_op_wf (name symbol : str) (l r : Value) (iop : Z → Z → option Z) (fop : f64 → f64 → f64) :
(∀ a b z, iop a b = Some z → in_i64 z = true) →
faulting wf_v (checked_op name symbol l r iop fop).
Proof.
intros H.
assert (faulting wf_v
  (let? a := require_number l name in let? b := require_number r name in
   finite name symbol (l, r) (fop a b))) as Hf.
{ do 2 (apply (faulting_bind anything); [apply require_number_faulting|intros ? _]).
  apply finite_wf. }
unfold checked_op. destruct l, r; try exact Hf. by apply checked_some_wf; eauto.
Qed.

Lemma sum_as_checked_op (l r : Value) : sum l r = checked_op "addition" "+" l r checked_add f64_add.
Proof. by destruct l, r. Qed.

Lemma checked_wf (z r : Z) : checked z = Some r → in_i64 r = true.
Proof. by intros [_ H]%checked_spec. Qed.

Lemma sum_wf (l r : Value) : faulting wf_v (sum l r).
Proof. rewrite sum_as_checked_op. apply checked_op_wf. intros a b. apply checked_wf. Qed.

(** Truncated division with its remainder, corrected towards minus infinity. *)
Lemma floored_correction (l r : Z) :
r ≠ 0 →
l / r = (if negb (Z.rem l r =? 0) && negb (Bool.eqb (l <? 0) (r <? 0)) then Z.quot l r - 1 else Z.quot l r) ∧
l mod r = (if negb (Z.rem l r =? 0) && negb (Bool.eqb (Z.rem l r <? 0) (r <? 0)) then Z.rem l r + r
           else Z.rem l r).
Proof.
intros Hr. pose proof (Z.quot_rem l r Hr) as E.
pose proof (Z.rem_bound_abs l r Hr) as Hb.
assert (Z.rem l r ≠ 0 → Z.sgn (Z.rem l r) = Z.sgn l) as Hs by (intros; by apply Z.rem_sign_nz).
assert (∀ q m, l = r * q + m → (0 ≤ m < r ∨ r < m ≤ 0) → l / r = q ∧ l mod r = m) as Hu.
{ intros q m Hl Hm. split; symmetry; [by eapply Z.div_unique|by eapply Z.mod_unique]. }
destruct (Z.eqb_spec (Z.rem l r) 0) as [E0|E0]; cbn [negb andb].
{ destruct (Hu (Z.quot l r) 0); [lia|lia|]. by rewrite E0. }
specialize (Hs E0).
destruct (Z.ltb_spec l 0), (Z.ltb_spec r 0), (Z.ltb_spec (Z.rem l r) 0);
  cbn [Bool.eqb negb]; try lia; first
  [ destruct (Hu (Z.quot l r) (Z.rem l r)); [lia|lia|done]
  | destruct (Hu (Z.quot l r - 1) (Z.rem l r + r)); [lia|lia|done] ].
Qed.

Lemma floored_mod_eq (r d : Z) : d ≠ 0 → floored_mod r d = r mod d.
Proof.
intros Hd. unfold floored_mod. destruct (Z.eqb_spec d (-1)) as [->|].
{ pose proof (Z.mod_neg_bound r (-1) eq_refl). lia. }
by rewrite (proj2 (floored_correction r d Hd)).
Qed.

Lemma floored_div_eq (l r : Z) :
in_i64 l = true → in_i64 r = true → r ≠ 0 →
floored_div l r = if bool_decide (l = i64_min ∧ r = -1) then None else Some (l / r).
Proof.
rewrite !in_i64_spec. unfold i64_min, i64_max. intros Hl Hr Hr0.
unfold floored_div, checked_div. rewrite (proj2 (Z.eqb_neq r 0) Hr0).
rewrite (proj1 (floored_correction l r Hr0)).
pose proof (Z.quot_rem l r Hr0) as E. pose proof (Z.rem_bound_abs l r Hr0).
assert (Z.abs (Z.quot l r) ≤ Z.abs l) as Hq.
{ rewrite <- Z.quot_abs, Z.quot_div_nonneg by lia. apply Z.div_le_upper_bound; nia. }
case_bool_decide as Hc.
- destruct Hc as [-> ->]. done.
- assert (checked (Z.quot l r) = Some (Z.quot l r)) as ->; [|done].
  apply checked_spec. split; [done|]. apply in_i64_spec. unfold i64_min, i64_max.
  assert (Z.quot l r = 2 ^ 63 → False) as Hn; [|lia].
  intros Hq2. rewrite Hq2 in *. apply Hc. split; nia.
Qed.

Lemma floored_mod_wf (r d : Z) :
in_i64 d = true → d ≠ 0 → in_i64 (floored_mod r d) = true.
Proof.
rewrite !in_i64_spec. unfold i64_min, i64_max. intros Hd Hd0.
rewrite floored_mod_eq by done.
destruct (proj1 (Z.neg_pos_cases d) Hd0) as [Hs|Hs];
  [pose proof (Z.mod_neg_bound r d Hs)|pose proof (Z.mod_pos_bound r d Hs)]; lia.
Qed.

Lemma zero_divisor_eqb (d : Z) : f64_eqb (f64_of_Z d) f64_zero = false → d ≠ 0.
Proof. by intros H ->. Qed.

Lemma divide_wf (l r : Value) :
wf_value l = true → wf_value r = true → faulting wf_v (divide l r).
Proof.
intros Hl Hr.
unfold divide. destruct (require_number r "division") as [y|e] eqn:Ey.
2: { pose proof (require_number_faulting r "division"). by rewrite Ey in *. }
destruct (f64_eqb y f64_zero) eqn:Ez; [done|].
assert (faulting wf_v (let? a := require_number l "division" in
                       finite "division" "/" (l, r) (f64_div a y))) as Hf.
{ apply (faulting_bind anything); [apply require_number_faulting|]. intros; apply finite_wf. }
destruct l, r; try exact Hf. injection Ey as <-.
apply checked_some_wf. intros z. simpl in Hl, Hr.
rewrite floored_div_eq by (eauto using zero_divisor_eqb).
case_bool_decide as Hc; [done|]. intros [= <-]. apply zero_divisor_eqb in Ez.
revert Hl Hr Hc. rewrite !in_i64_spec. unfold i64_min, i64_max. intros Hl Hr Hc.
pose proof (Z.div_mod n n0 Ez).
destruct (proj1 (Z.neg_pos_cases n0) Ez) as [Hs|Hs];
  [pose proof (Z.mod_neg_bound n n0 Hs)|pose proof (Z.mod_pos_bound n n0 Hs)].
- destruct (decide (n0 = -1)) as [->|]; [|nia]. lia.
- nia.
Qed.

Lemma modulo_wf (l r : Value) :
wf_value l = true → wf_value r = true → faulting wf_v (modulo_values l r).
Proof.
intros Hl Hr. unfold modulo_values.
apply (faulting_bind anything); [apply require_number_faulting|intros x _].
destruct (require_number r "modulo") as [y|e] eqn:Ey.
2: { pose proof (require_number_faulting r "modulo"). by rewrite Ey in *. }
destruct (f64_eqb y f64_zero) eqn:Ez; [done|].
destruct l, r; try done. injection Ey as <-.
apply floored_mod_wf; [done|]. by apply zero_divisor_eqb.
Qed.

(** ** Comparison *)
Lemma values_less_faulting (l r : Value) : faulting anything (values_less l r).
Proof. unfold values_less. by repeat case_match. Qed.

Lemma apply_faulting (op : Comparison) (l r : Value) : faulting anything (apply op l r).
Proof.
apply (faulting_bind anything); [|done].
destruct (less_than op); [apply values_less_faulting|done].
Qed.

(** ** The operators, over an evaluator that is good on the children *)
Section operators_wf.
Variable eval : Expr → EvalContext → res Value.
Definition good_on (l : list Expr) : Prop :=
  Forall (λ e, ∀ ctx, wf_ctx ctx → faulting wf_v (eval e ctx)) l.

Lemma good_on_1 (e : Expr) (ctx : EvalContext) : good_on [e] → wf_ctx ctx → faulting wf_v (eval e ctx).
Proof. intros H ?. by apply Forall_inv in H; auto. Qed.
Lemma good_on_2l (l r : Expr) (ctx : EvalContext) :
  good_on [l; r] → wf_ctx ctx → faulting wf_v (eval l ctx).
Proof. intros H ?. by apply Forall_inv in H; auto. Qed.
Lemma good_on_2r (l r : Expr) (ctx : EvalContext) :
  good_on [l; r] → wf_ctx ctx → faulting wf_v (eval r ctx).
Proof. intros H ?. by apply Forall_inv_tail, Forall_inv in H; auto. Qed.
Hint Resolve good_on_1 good_on_2l good_on_2r : hecks.

(** Evaluates the next subexpression. *)
Ltac eval_step := apply (faulting_bind wf_v); [eauto with hecks|intros ? ?].

Lemma logical_wf (e : Expr) (ctx : EvalContext) :
  category_of e = Some Logical → good_on (children e) → wf_ctx ctx →
  faulting wf_v (logical_interpret eval e ctx).
Proof.
  intros Hc H Hx. destruct e; try discriminate Hc; cbn [logical_interpret children] in *;
    repeat (eval_step; try case_match; try done).
Qed.

Lemma arithmetic_wf (e : Expr) (ctx : EvalContext) :
  category_of e = Some Arithmetic → good_on (children e) → wf_ctx ctx →
  faulting wf_v (dispatch_operator eval Arithmetic e ctx).
Proof.
  intros Hc H Hx. destruct e; try discriminate Hc;
    cbn [dispatch_operator binary modulo children] in *; eval_step; eval_step.
  - apply sum_wf.
  - apply checked_op_wf. intros ? ?; apply checked_wf.
  - apply checked_op_wf. intros ? ?; apply checked_wf.
  - by apply divide_wf.
  - by apply modulo_wf.
Qed.

Lemma bool_outcome_wf {A} (r : res A) (f : A → bool) :
  faulting anything r → faulting wf_v (let? b := r in Ok (VBool (f b))).
Proof. intros H. by apply (faulting_bind anything). Qed.

Lemma elements_wf (receiver : Expr) (ctx : EvalContext) (op : str) :
  (∀ ctx, wf_ctx ctx → faulting wf_v (eval receiver ctx)) → wf_ctx ctx →
  faulting (λ l, ∀ f, f ∈ l → wf_field f) (block_elements eval receiver ctx op).
Proof.
  intros H Hx. destruct receiver; cbn [block_elements]; try by apply lookup_items_wf.
  all: by apply (faulting_bind wf_v); [auto|].
Qed.

Lemma block_ctx_wf (param : str) (item : Field) (ctx : EvalContext) :
  wf_field item → wf_ctx ctx → wf_ctx (block_ctx param item ctx).
Proof.
  intros Hi [Ha Hx]. split; [|done]. constructor; simpl; try done.
  - intros n f. case_match; [by intros [= <-]|]. by apply wf_fielded_field.
  - intros n l. case_match; [done|]. by apply wf_fielded_items.
Qed.

Lemma project_wf (item : Field) (path : list str) :
  wf_field item → faulting wf_v (project item path).
Proof.
  intros H. apply (faulting_bind wf_field); [by apply steps_wf|]. intros; by apply finish_wf.
Qed.

Lemma enumeration_wf (e : Expr) (ctx : EvalContext) :
  category_of e = Some Enumeration → good_on (children e) → wf_ctx ctx →
  faulting wf_v (enumeration_interpret eval e ctx).
Proof.
  intros Hc H Hx. destruct e; try discriminate Hc; cbn [enumeration_interpret children] in *;
    (apply (faulting_bind (λ l, ∀ f, f ∈ l → wf_field f));
     [apply elements_wf; eauto with hecks|intros l Hl]).
  - apply (faulting_bind anything); [|done].
    eapply faulting_weaken, (faulting_collect anything); [done|].
    intros item Hin. apply (faulting_bind wf_v); [|done].
    eapply good_on_2r; eauto using block_ctx_wf.
  - induction l as [|item l IH]; cbn [find_loop]; [done|].
    apply (faulting_bind wf_v).
    { eapply good_on_2r; eauto. apply block_ctx_wf; [apply Hl; left|done]. }
    intros v _. case_match; [apply project_wf, Hl; left|].
    apply IH. intros; apply Hl; by right.
  - apply (faulting_fold wf_v); [|done]. intros item b Hin Hb.
    apply (faulting_bind wf_v); [|intros; apply sum_wf].
    eapply good_on_2r; eauto using block_ctx_wf.
Qed.

Lemma size_of_wf (v : Value) : faulting wf_v (size_of v).
Proof. destruct v; cbn; try done; apply usize_as_i64_range. Qed.

Lemma split_text_wf (t sep : str) : wf_value (VArray (split_text t sep)) = true.
Proof. unfold split_text. simpl. apply forallb_forall. intros v [s [<- _]]%in_map_iff. done. Qed.

Lemma require_str_faulting (v : Value) (op : str) : faulting anything (require_str v op).
Proof. by destruct v. Qed.

Lemma text_wf (e : Expr) (ctx : EvalContext) :
  category_of e = Some TextCategory → good_on (children e) → wf_ctx ctx →
  faulting wf_v (text_interpret eval e ctx).
Proof.
  intros Hc H Hx. destruct e; try discriminate Hc; cbn [text_interpret children] in *;
    eval_step; (apply (faulting_bind anything); [apply require_str_faulting|intros t _]); try done.
  apply split_text_wf.
Qed.

Lemma field_value_wf (o : option Field) (op : str) :
  (∀ f, o = Some f → wf_field f) → faulting wf_v (field_value o op).
Proof. intros H. destruct o as [f|]; [|done]. by destruct (H f eq_refl). Qed.

Lemma hd_error_elem_of {A} (l : list A) (x : A) : hd_error l = Some x → x ∈ l.
Proof. destruct l; [done|]. intros [= ->]. left. Qed.

Lemma positional_wf (e : Expr) (ctx : EvalContext) :
  category_of e = Some Positional → good_on (children e) → wf_ctx ctx →
  faulting wf_v (positional_interpret eval e ctx).
Proof.
  intros Hc H Hx.
  assert (∀ l v, wf_value (VArray l) = true → v ∈ l → wf_value v = true) as Hin.
  { intros l v Hl Hv. simpl in Hl. rewrite forallb_forall in Hl. by apply Hl, list_elem_of_In. }
  destruct e; try discriminate Hc; cbn [positional_interpret children] in *; destruct e;
    try (eval_step; case_match; try done; destruct (hd_error _ || list.last _) eqn:E;
         [|done]; eapply Hin; eauto using hd_error_elem_of).
  all: try (eval_step; case_match; try done; subst; simpl;
    match goal with |- wf_value (default _ ?o) = true => destruct o eqn:E; [|done] end;
    eapply Hin; eauto using hd_error_elem_of, list.last_Some_elem_of).
  all: apply (faulting_bind (λ l, ∀ f, f ∈ l → wf_field f)); [by apply lookup_items_wf|];
    intros l Hl; apply field_value_wf; intros f Hf; apply Hl;
    eauto using hd_error_elem_of, list.last_Some_elem_of.
Qed.

Lemma lookup_field_set_wf (receiver : Expr) (ctx : EvalContext) (neg : bool) :
  good_on [receiver] → wf_ctx ctx →
  faulting wf_v (interpret_assignment eval (EAssignment receiver neg) ctx).
Proof.
  intros H Hx. cbn [interpret_assignment]. apply (faulting_bind anything); [|done].
  destruct receiver; try (eval_step; done).
  apply (faulting_bind wf_field); [by apply lookup_field_wf|done].
Qed.

Lemma coerce_text_faulting (v : Value) : faulting anything (coerce_text v).
Proof. by destruct v. Qed.
Lemma ruby_regex_faulting (pattern flags : str) : faulting anything (ruby_regex pattern flags).
Proof. unfold ruby_regex. by case_match. Qed.

Lemma dispatch_operator_wf (c : OperatorCategory) (e : Expr) (ctx : EvalContext) :
  category_of e = Some c → good_on (children e) → wf_ctx ctx →
  faulting wf_v (dispatch_operator eval c e ctx).
Proof.
  intros Hc H Hx. destruct c;
    try first [by apply logical_wf | by apply arithmetic_wf | by apply enumeration_wf
              | by apply text_wf | by apply positional_wf]; destruct e; try discriminate Hc; cbn [children] in H; cbn [dispatch_operator].
  - cbn [membership_interpret]. eval_step. eval_step. by repeat case_match.
  - cbn [comparison_interpret]. eval_step. eval_step. apply bool_outcome_wf, apply_faulting.
  - cbn [sign_test_interpret]. eval_step.
    apply (faulting_bind anything); [apply require_number_faulting|intros _ _].
    apply bool_outcome_wf, apply_faulting.
  - cbn [sized_empty]. eval_step. by destruct a.
  - cbn [sized_size]. eval_step. apply size_of_wf.
  - cbn [to_string_interpret]. eval_step. by destruct a.
  - cbn [pattern_match_interpret]. eval_step.
    apply (faulting_bind anything); [apply coerce_text_faulting|intros t _].
    apply bool_outcome_wf, ruby_regex_faulting.
  - cbn [presence_interpret]. by eval_step.
  - by apply lookup_field_set_wf.
Qed.
End operators_wf.

(** The router sends every node to an operator that takes it. *)
Lemma interpret_routed (e : Expr) (c : OperatorCategory) (ctx : EvalContext) :
category_of e = Some c → interpret e ctx = dispatch_operator interpret c e ctx.
Proof. by destruct e; intros [= <-]. Qed.

(** What [interpret_wf] states, for other proofs. *)
Lemma interpret_faulting (e : Expr) (ctx : EvalContext) : wf_expr e → wf_ctx ctx → faulting wf_v (interpret e ctx).
Proof.
  revert ctx. induction e as [e' IH] using Expr_children_ind. intros ctx He Hx.
  inversion He as [? Hl He']; subst. clear He.
  assert (good_on interpret (children e')) as Hg.
  { unfold good_on. rewrite Forall_forall in IH, He' |- *. intros e Hin ctx0 Hx0. apply IH; auto. }
  destruct (category_of e') as [c|] eqn:Ec.
  - rewrite (interpret_routed e' c) by done. by apply dispatch_operator_wf.
  - destruct e'; try discriminate Ec; cbn [interpret]; try done; [by apply lookup_wf|].
    apply (faulting_bind (Forall wf_v)).
    + apply faulting_collect. intros e Hin. unfold good_on in Hg. rewrite Forall_forall in Hg.
      apply Hg; [by apply list_elem_of_In|done].
    + intros vs Hvs. simpl. apply forallb_forall. by rewrite Forall_forall in Hvs.
Qed.

End evaluator_facts.

(** ** Properties *)

(** C33: whatever the expression and whatever the objects it reads, evaluation
    ends in a value of the right width (integers and lengths of 64 bits, at
    every depth) or in a [Fault]: never in a router-bug [TypeMismatch], never
    in an arithmetic result out of range. *)
Theorem interpret_wf `{U : UnicodeTables} `{R : RegexCrate} (e : Expr) (ctx : EvalContext) :
  wf_expr e → wf_ctx ctx → faulting wf_v (interpret e ctx).
Proof. apply interpret_faulting. Qed.

(** A context for the witnesses: one record with a list of two numbers, and
    no regular expressions. *)
Definition no_regex : RegexCrate :=
  {| regex := unit; regex_build := λ _ _ _ _, Err "no engine"; is_match := λ _ _, false |}.
Definition two_prices : Fielded :=
  MkFielded (λ n, if str_eqb n "prices" then Some (FValue (VList 2)) else None) None None
    (λ n, if str_eqb n "prices" then Some [FValue (VInt 7); FValue (VInt 35)] else None).
Definition prices_ctx : EvalContext := {| args := NoFields; instance := two_prices |}.

Lemma wf_NoFields : wf_fielded NoFields.
Proof. by constructor. Qed.
Lemma wf_prices_ctx : wf_ctx prices_ctx.
Proof.
  split; [apply wf_NoFields|]. constructor; simpl; try done; intros n; case_match; try done.
  - intros f [= <-]. by constructor.
  - intros l [= <-] f Hf. repeat (apply elem_of_cons in Hf as [->|Hf]; [by constructor|]).
    by apply not_elem_of_nil in Hf.
Qed.

(** [prices.sum { |p| p % -4 }]. *)
Definition price_sum : Expr := ESum (ELookup "prices") "p" (EModulo (ELookup "p") (EInt (-4))).

Lemma interpret_wf_witness :
  @interpret ascii_tables no_regex price_sum prices_ctx = Ok (VInt (-2)) ∧
  faulting wf_v (@interpret ascii_tables no_regex price_sum prices_ctx).
Proof.
  split; [vm_compute; reflexivity|].
  apply (@interpret_wf ascii_tables no_regex price_sum prices_ctx).
  - repeat constructor.
  - exact wf_prices_ctx.
Defined.

(** Integer [/] and [%] floor towards minus infinity, as Ruby's do: they
    are the mathematical quotient and modulus, a zero divisor is the fault
    "divided by 0", and the only quotient refused is the one that does not fit,
    [i64::MIN / -1], while [i64::MIN % -1] is 0. *)
Theorem integer_division_floors `{U : UnicodeTables} (l r : Z) :
  in_i64 l = true → in_i64 r = true →
  divide (VInt l) (VInt r) =
    (if r =? 0 then Err (Fault "divided by 0")
     else if bool_decide (l = i64_min ∧ r = -1) then
       Err (Fault ("division overflowed: " ++ dec_Z l ++ " / " ++ dec_Z r
                     ++ " does not fit in a 64-bit integer"))
     else Ok (VInt (l / r))) ∧
  modulo_values (VInt l) (VInt r) =
    (if r =? 0 then Err (Fault "divided by 0") else Ok (VInt (l mod r))).
Proof.
  intros Hl Hr. unfold divide, modulo_values, require_number; cbn [numeric ok_or].
  rewrite f64_of_Z_eqb_zero. destruct (Z.eqb_spec r 0); [done|].
  rewrite floored_div_eq, floored_mod_eq by done. by case_bool_decide.
Qed.

Lemma integer_division_floors_witness :
  @divide ascii_tables (VInt (-7)) (VInt 2) = Ok (VInt (-4)) ∧
  modulo_values (VInt (-7)) (VInt 2) = Ok (VInt 1).
Proof. apply (@integer_division_floors ascii_tables (-7) 2); reflexivity. Defined.

Section block_facts.
Context `{U : UnicodeTables} `{R : RegexCrate}.

Lemma lookup_items_op (path op op' : str) (ctx : EvalContext) (l : list Field) :
  lookup_items path ctx op = Ok l → lookup_items path ctx op' = Ok l.
Proof. unfold lookup_items, ok_or. by repeat case_match. Qed.

Lemma collect_results_ok {A B} (f : A → res B) (l : list A) (g : A → B) :
  Forall (λ a, f a = Ok (g a)) l → collect_results f l = Ok (map g l).
Proof. induction 1 as [|a l Ha _ IH]; simpl; [done|]. by rewrite Ha, IH. Qed.

Lemma collect_results_err {A B} (f : A → res B) (l : list A) (e : Refusal) :
  collect_results f l = Err e ↔
  ∃ l1 a l2, l = l1 ++ a :: l2 ∧ Forall (λ b, is_ok (f b) = true) l1 ∧ f a = Err e.
Proof.
  induction l as [|a l IH]; simpl.
  { split; [done|]. by intros ([|]&?&?&?&?). }
  destruct (f a) as [b|e'] eqn:Ea.
  - assert (collect_results f l = Err e ↔
            (let? bs := collect_results f l in Ok (b :: bs)) = Err e) as <-
      by (by destruct (collect_results f l)).
    rewrite IH. split.
    + intros (l1&x&l2&->&H1&Hx). exists (a :: l1), x, l2. split_and!; [done| |done].
      constructor; [by rewrite Ea|done].
    + intros ([|a' l1]&x&l2&[= -> ->]&H1&Hx); [congruence|].
      exists l1, x, l2. by inversion H1.
  - split.
    + intros [= ->]. by exists [], a, l.
    + intros ([|a' l1]&x&l2&[= -> ->]&H1&Hx); [congruence|].
      inversion H1 as [|? ? H]. by rewrite Ea in H.
Qed.

Lemma map_truth (l : list Field) (f : Field → bool) :
  forallb id (map f l) = forallb f l ∧ existsb id (map f l) = existsb f l.
Proof. induction l as [|x l [IH1 IH2]]; simpl; [done|]. by rewrite IH1, IH2. Qed.
End block_facts.

(** The truth a block gives an element, where it evaluates at all. *)
Definition block_truth `{U : UnicodeTables} `{R : RegexCrate} (param : str) (q : Expr)
    (ctx : EvalContext) (item : Field) : bool :=
  match interpret q (block_ctx param item ctx) with Ok v => truthy v | Err _ => false end.

(** [any?], [all?] and [none?] evaluate their block on every element, in
    order and without short circuit: the outcome is an error exactly when some
    element's is, and then it is the first one's, even past an element that
    would have settled the answer; otherwise they answer what their names say. *)
Theorem block_predicates `{U : UnicodeTables} `{R : RegexCrate}
    (mode : BlockMode) (path param : str) (q : Expr) (ctx : EvalContext) (l : list Field) :
  lookup_items path ctx (ruby_name mode) = Ok l →
  let run := interpret (EBlockPredicate mode (ELookup path) param q) ctx in
  (∀ e, run = Err e ↔
     ∃ l1 x l2, l = l1 ++ x :: l2 ∧
       Forall (λ y, is_ok (interpret q (block_ctx param y ctx)) = true) l1 ∧
       interpret q (block_ctx param x ctx) = Err e) ∧
  (Forall (λ y, is_ok (interpret q (block_ctx param y ctx)) = true) l →
   run = Ok (VBool (match mode with
                    | All => forallb (block_truth param q ctx) l
                    | Any => existsb (block_truth param q ctx) l
                    | NoneOf => negb (existsb (block_truth param q ctx) l)
                    end))).
Proof.
  intros Hl run. unfold run.
  rewrite (interpret_routed _ Enumeration) by done.
  cbn [dispatch_operator enumeration_interpret block_elements]. rewrite Hl.
  pose (f := λ item, let? v := interpret q (block_ctx param item ctx) in Ok (truthy v) : res bool).
  fold f. split.
  - intros e. transitivity (collect_results f l = Err e); [destruct (collect_results f l); split; congruence|].
    rewrite collect_results_err. unfold f.
    assert (∀ x, (let? v := interpret q (block_ctx param x ctx) in Ok (truthy v) : res bool) = Err e
                 ↔ interpret q (block_ctx param x ctx) = Err e) as He.
    { intros x. destruct (interpret q _); split; congruence. }
    assert (∀ l1, Forall (λ b, is_ok (let? v := interpret q (block_ctx param b ctx) in
                                      Ok (truthy v) : res bool) = true) l1
                  ↔ Forall (λ y, is_ok (interpret q (block_ctx param y ctx)) = true) l1) as Ho.
    { intros l1. apply Forall_proper; [|done]. intros y. by destruct (interpret q _). }
    by setoid_rewrite He; setoid_rewrite Ho.
  - intros H. rewrite (collect_results_ok f l (block_truth param q ctx)).
    + destruct (map_truth l (block_truth param q ctx)) as [-> ->]. done.
    + revert H. apply Forall_impl. intros y. unfold f, block_truth. by destruct (interpret q _).
Qed.

Lemma block_predicates_witness :
  @interpret ascii_tables no_regex
    (EBlockPredicate Any (ELookup "prices") "p"
       (ECompare {| less_than := true; equal := false; negated := false |} (ELookup "p") (EInt 8)))
    prices_ctx = Ok (VBool true).
Proof.
  refine (eq_trans (proj2 (@block_predicates ascii_tables no_regex Any "prices" "p"
    (ECompare {| less_than := true; equal := false; negated := false |} (ELookup "p") (EInt 8))
    prices_ctx [FValue (VInt 7); FValue (VInt 35)] _) _) _).
  - vm_compute. reflexivity.
  - repeat constructor.
  - vm_compute. reflexivity.
Defined.

(** The six operators of the language, as the rows of its comparison algebra. *)
Definition op_lt : Comparison := {| less_than := true; equal := false; negated := false |}.
Definition op_gt : Comparison := {| less_than := true; equal := true; negated := true |}.

(** What a row of the comparison algebra says of two integers. *)
Definition compares (op : Comparison) (a b : Z) : bool :=
  xorb (negated op) ((less_than op && (a <? b)) || (equal op && (a =? b))).

(** On integers below 2^53 in absolute value every comparison operator
    answers as the integers themselves compare. *)
Theorem integer_comparison_exact `{U : UnicodeTables} (op : Comparison) (a b : Z) :
  Z.abs a < 2 ^ 53 → Z.abs b < 2 ^ 53 →
  apply op (VInt a) (VInt b) = Ok (compares op a b).
Proof.
  intros Ha Hb. unfold apply, values_less, compares. cbn [numeric values_equal].
  rewrite f64_of_Z_ltb by done.
  destruct op as [[] [] []]; cbn; by destruct (a <? b), (a =? b).
Qed.

Lemma integer_comparison_exact_witness :
  @apply ascii_tables op_gt (VInt (2 ^ 53 - 1)) (VInt (2 ^ 53 - 2)) = Ok true.
Proof. apply (@integer_comparison_exact ascii_tables op_gt (2 ^ 53 - 1) (2 ^ 53 - 2)); reflexivity. Defined.

(** From 2^53 on the ordering goes through 64-bit floats and is lost: of
    the integers 2^53 and 2^53 + 1, both 64-bit, the smaller is not less than
    the greater, and each is greater than the other, although they are told
    apart by [==]. *)
Theorem large_integer_order_lost `{U : UnicodeTables} :
  let a := VInt (2 ^ 53) in let b := VInt (2 ^ 53 + 1) in
  wf_value a = true ∧ wf_value b = true ∧ values_equal a b = false ∧
  apply op_lt a b = Ok false ∧ apply op_gt a b = Ok true ∧ apply op_gt b a = Ok true.
Proof. split_and!; vm_compute; reflexivity. Qed.

(** *** Equality *)
Lemma f64_eqb_sym (x y : f64) : f64_eqb x y = f64_eqb y x.
Proof.
  unfold f64_eqb, SFeqb, SFcompare. destruct x as [[]|[]| |[] m e], y as [[]|[]| |[] n f]; try done;
    change (Pos.compare_cont Eq) with Pos.compare; rewrite (Z.compare_antisym f e);
    destruct (f ?= e); try done; cbn [CompOpp];
    rewrite (Pos.compare_antisym n m); by destruct (_ ?= _)%positive.
Qed.

Lemma keys_sorted_NoDup (l : list str) : keys_sorted l = true → NoDup l.
Proof.
  intros H. assert (StronglySorted str_lt l) as Hs.
  { apply Sorted_StronglySorted; [intros ???; apply str_lt_trans|].
    induction l as [|k l IH]; constructor; simpl in H.
    - apply IH. destruct l; [done|]. by apply andb_true_iff in H as [_ H].
    - destruct l as [|k' l]; constructor. apply andb_true_iff in H as [H _].
      unfold str_ltb in H. unfold str_lt. by destruct (str_compare k k'). }
  clear H. induction Hs as [|k l _ IH Hk]; constructor; [|done].
  intros Hin. rewrite Forall_forall in Hk. apply list_elem_of_In, Hk in Hin.
  unfold str_lt in Hin. by rewrite str_compare_refl in Hin.
Qed.

Lemma assoc_NoDup {A} (k : str) (l : list (str * A)) (v : A) :
  NoDup l.*1 → (k, v) ∈ l → assoc k l = Some v.
Proof.
  induction l as [|[k' v'] l IH]; simpl; [by intros _ ?%not_elem_of_nil|].
  intros [Hk Hl]%list.NoDup_cons [[= <- <-]|Hin]%elem_of_cons; [by rewrite bool_decide_true|].
  rewrite bool_decide_false; [auto|]. intros <-. apply Hk. by apply (list_elem_of_fmap_2 fst) in Hin.
Qed.

(** One direction of the comparison of two objects, under the symmetric
    comparison of their fields. *)
Lemma object_equal_flip (eqv : Value → Value → bool) (a b : list (str * Value)) :
  NoDup a.*1 → NoDup b.*1 → length a = length b →
  (∀ k x y, (k, x) ∈ a → (k, y) ∈ b → eqv x y = true → eqv y x = true) →
  forallb (λ '(k, x), match assoc k b with Some y => eqv x y | None => false end) a = true →
  forallb (λ '(k, y), match assoc k a with Some x => eqv y x | None => false end) b = true.
Proof.
  intros Ha Hb Hlen Hsym H. rewrite forallb_forall in H.
  assert (a.*1 ≡ₚ b.*1) as HP.
  { apply submseteq_length_Permutation; [|by rewrite !length_fmap, Hlen].
    apply NoDup_submseteq; [done|]. intros k ((k'&x)&->&Hin)%list_elem_of_fmap.
    specialize (H _ (proj1 (list_elem_of_In _ _) Hin)). simpl in H.
    destruct (assoc k' b) eqn:E; [|done]. apply assoc_elem_of in E.
    by apply (list_elem_of_fmap_2 fst) in E. }
  apply forallb_forall. intros [k y] Hin%list_elem_of_In.
  assert (k ∈ a.*1) as ((k'&x)&Hk&Hx)%list_elem_of_fmap.
  { rewrite HP. by apply (list_elem_of_fmap_2 fst) in Hin. }
  simpl in Hk; subst k'. rewrite (assoc_NoDup k a x) by done.
  specialize (H _ (proj1 (list_elem_of_In _ _) Hx)). simpl in H.
  rewrite (assoc_NoDup k b y) in H by done. eauto.
Qed.

(** The language's equality is symmetric at every depth, across integers
    and floats, lists and objects of any shape. *)
Theorem values_equal_symmetric (a b : Value) :
  wf_value a = true → wf_value b = true → values_equal a b = values_equal b a.
Proof.
  assert (∀ a b, wf_value a = true → wf_value b = true →
                 values_equal a b = true → values_equal b a = true) as H.
  { clear. intros a. induction a as [n|f|s|c|n| |l IH|fs IH] using Value_rich_ind; intros b Ha Hb.
    all: destruct b as [m|g|t|d|m| |l'|fs']; try done; cbn [values_equal values_eqb_plain].
    - by rewrite Z.eqb_sym.
    - by rewrite f64_eqb_sym.
    - unfold str_eqb. rewrite !bool_decide_eq_true. done.
    - by destruct c, d.
    - by rewrite Z.eqb_sym.
    - rewrite !andb_true_iff, Nat.eqb_sym. intros [Hlen Hall]. split; [done|]. clear Hlen.
      cbn [wf_value] in Ha, Hb. revert l' Hb Hall.
      induction IH as [|x l Hx _ IHl]; intros [|y l'] Hb Hall; try done.
      cbn [forallb] in Ha, Hb. apply andb_true_iff in Ha as [Hx1 Ha], Hb as [Hy1 Hb].
      apply andb_true_iff in Hall as [H1 H2]. apply andb_true_iff. auto.
    - cbn [wf_value] in Ha, Hb. apply andb_true_iff in Ha as [Hs Ha], Hb as [Hs' Hb].
      rewrite !andb_true_iff, Nat.eqb_sym. intros [Hlen Hall]. split; [done|].
      apply Nat.eqb_eq in Hlen. revert Hall.
      apply object_equal_flip; [by apply keys_sorted_NoDup..|by rewrite Hlen|].
      intros k x y Hx%list_elem_of_In Hy%list_elem_of_In Hxy.
      rewrite Forall_forall in IH. rewrite forallb_forall in Ha, Hb.
      exact (IH (k, x) Hx y (Ha (k, x) Hx) (Hb (k, y) Hy) Hxy). }
  intros Ha Hb. apply eq_true_iff_eq. split; auto.
Qed.

Lemma values_equal_symmetric_witness :
  let a := VArray [VInt 1; VObject [("k", VFloat (f64_lit "2.0"))]] in
  let b := VArray [VFloat (f64_lit "1.0"); VObject [("k", VInt 2)]] in
  values_equal a b = values_equal b a ∧ values_equal a b = true.
Proof.
  intros a b. split; [apply (values_equal_symmetric a b); reflexivity|vm_compute; reflexivity].
Defined.

(** *** Text *)
Lemma drop_empty_spec (l : list str) :
  ∃ n, l = replicate n [] ++ drop_empty l ∧ hd_error (drop_empty l) ≠ Some [].
Proof.
  induction l as [|[|c s] l (n & E & H)]; [by exists 0%nat|..].
  - exists (S n). simpl. by rewrite <- E.
  - by exists 0%nat.
Qed.

Lemma hd_error_rev {A} (l : list A) : hd_error (rev l) = list.last l.
Proof.
  induction l as [|x l _] using rev_ind; [done|].
  rewrite rev_app_distr, last_snoc. done.
Qed.

(** [split] loses nothing but the trailing empty fields Ruby drops: for a
    literal separator the fields, none of them empty at the end, followed by
    as many empty ones as were dropped, join back to the text. *)
Theorem split_text_join (t sep : str) :
  sep ≠ [] → sep ≠ " " →
  ∃ fields n, split_text t sep = map VStr fields ∧ list.last fields ≠ Some [] ∧
              join sep (fields ++ replicate n []) = t.
Proof.
  intros Hne Hsp. unfold split_text, str_eqb. rewrite !bool_decide_false by done.
  destruct (drop_empty_spec (rev (split t sep))) as (n & E & Hl).
  exists (rev (drop_empty (rev (split t sep)))), n. split_and!; [done| |].
  - by rewrite <- hd_error_rev, rev_involutive.
  - assert (rev (replicate n ([] : str)) = replicate n []) as Hr.
    { rewrite rev_alt. exact (reverse_replicate n _). }
    apply (f_equal (@rev str)) in E. rewrite rev_involutive, rev_app_distr in E.
    unfold str in *. rewrite Hr in E. rewrite <- E. by apply join_split.
Qed.

Lemma split_text_join_witness :
  split_text "a::b::::" "::" = map VStr ["a"; "b"] ∧
  ∃ fields n, split_text "a::b::::" "::" = map VStr fields ∧ list.last fields ≠ Some [] ∧
              join "::" (fields ++ replicate n []) = "a::b::::".
Proof. split; [vm_compute; reflexivity|]. apply (split_text_join "a::b::::" "::"); discriminate. Defined.

Lemma trim_start_spec (p : char → bool) (s : str) :
  ∃ pre, s = pre ++ trim_start p s ∧ forallb p pre = true ∧
         (∀ c, hd_error (trim_start p s) = Some c → p c = false).
Proof.
  induction s as [|c s (pre & E & Hp & Hh)]; [by exists []|]. cbn [trim_start].
  destruct (p c) eqn:Ec.
  - exists (c :: pre). cbn [app forallb]. rewrite Ec, <- E. done.
  - exists []. split_and!; [done..|]. by intros ? [= <-].
Qed.

Lemma trim_end_spec (p : char → bool) (s : str) :
  ∃ post, s = trim_end p s ++ post ∧ forallb p post = true ∧
          (∀ c, list.last (trim_end p s) = Some c → p c = false).
Proof.
  destruct (trim_start_spec p (rev s)) as (pre & E & Hp & Hh). exists (rev pre).
  unfold trim_end. split_and!.
  - rewrite <- rev_app_distr, <- E. by rewrite rev_involutive.
  - rewrite forallb_forall in *. intros c Hc. apply Hp. by apply in_rev.
  - intros c Hc. apply Hh. by rewrite <- Hc, <- hd_error_rev, rev_involutive.
Qed.

(** [strip] removes only Ruby's whitespace, only from the two ends, and
    all of it: what is left neither begins nor ends with a stripped character. *)
Theorem strip_spec (t : str) :
  ∃ pre post, t = pre ++ trim Both t ++ post ∧
    forallb is_stripped pre = true ∧ forallb is_stripped post = true ∧
    (∀ c, hd_error (trim Both t) = Some c → is_stripped c = false) ∧
    (∀ c, list.last (trim Both t) = Some c → is_stripped c = false).
Proof.
  cbn [trim]. unfold trim_both.
  destruct (trim_start_spec is_stripped t) as (pre & E & Hp & Hh).
  destruct (trim_end_spec is_stripped (trim_start is_stripped t)) as (post & E' & Hp' & Hl).
  exists pre, post. split_and!; [by rewrite <- E'|done..| |done].
  intros c Hc. apply Hh. rewrite E'. by destruct (trim_end _ _).
Qed.
