(* ===== verification/Json.v ===== *)
(** The JSON value of the kernel's boundary ([src/rust/src/kernel/json.rs]):
    its data, equality, lookups, coercions, overlays, its writer and its parser. *)
From S2P Require Export Expr.
Open Scope Z_scope.

(** [Num]'s second field is the literal's exact source text, kept where the
    64-bit float would not reproduce it. *)
Inductive Json :=
| JObject (fields : list (str * Json))
| JArray (items : list Json)
| JStr (s : str)
| JNum (n : f64) (raw : option str)
| JFloat (n : f64)
| JBool (b : bool)
| JNull.

Section json_ind.
Context (P : Json → Prop).
Context (HObject : ∀ fields, Forall (λ kv, P kv.2) fields → P (JObject fields))
        (HArray : ∀ items, Forall P items → P (JArray items))
        (HStr : ∀ s, P (JStr s)) (HNum : ∀ n raw, P (JNum n raw)) (HFloat : ∀ n, P (JFloat n))
        (HBool : ∀ b, P (JBool b)) (HNull : P JNull).

Fixpoint Json_rich_ind (j : Json) : P j :=
  match j with
  | JObject fields =>
    HObject fields ((fix go l : Forall (λ kv, P kv.2) l :=
      match l with
      | [] => Forall_nil_2 _
      | kv :: l' => Forall_cons_2 (λ kv, P kv.2) kv l' (Json_rich_ind kv.2) (go l')
      end) fields)
  | JArray items =>
    HArray items ((fix go l : Forall P l :=
      match l with [] => Forall_nil_2 P | v :: l' => Forall_cons_2 P v l' (Json_rich_ind v) (go l') end) items)
  | JStr s => HStr s
  | JNum n raw => HNum n raw
  | JFloat n => HFloat n
  | JBool b => HBool b
  | JNull => HNull
  end.
End json_ind.

(** [PartialEq for Json]: the source text is provenance, compared only when
    both sides have it. *)
Fixpoint json_eqb (a b : Json) {struct a} : bool :=
  match a, b with
  | JObject a, JObject b =>
    (fix go (a b : list (str * Json)) : bool :=
      match a, b with
      | [], [] => true
      | (k, x) :: a', (k', y) :: b' => str_eqb k k' && json_eqb x y && go a' b'
      | _, _ => false
      end) a b
  | JArray a, JArray b =>
    (fix go (a b : list Json) : bool :=
      match a, b with
      | [], [] => true
      | x :: a', y :: b' => json_eqb x y && go a' b'
      | _, _ => false
      end) a b
  | JStr a, JStr b => str_eqb a b
  | JNum _ (Some araw), JNum _ (Some braw) => str_eqb araw braw
  | JNum a _, JNum b _ => f64_eqb a b
  | JFloat a, JFloat b => f64_eqb a b
  | JBool a, JBool b => Bool.eqb a b
  | JNull, JNull => true
  | _, _ => false
  end.

(** ** Numbers *)

(** [integral_i64]: a whole number within [i64], never saturated. *)
Definition integral_i64 (n : f64) : option Z :=
  if is_whole n && f64_leb (f64_of_Z i64_min) n && f64_ltb n (f64_of_Z i64_max)
  then Some (as_i64 n) else None.

(** [exact_i64]: the source text first. *)
Definition exact_i64 (n : f64) (raw : option str) : option Z :=
  match raw ≫= parse_i64 with Some i => Some i | None => integral_i64 n end.

Definition canonical_integer_digits (n : f64) : str :=
  if is_whole n && f64_ltb (f64_abs n) (f64_lit "1e15") then dec_Z (as_i64 n) else f64_display n.

(** ** A [Json] as a [Fielded] *)
Fixpoint json_fielded (j : Json) : Fielded :=
  let leaf v :=
    match v with
    | JObject _ => FNested (json_fielded v)
    | JArray items => FValue (VList (Z.of_nat (length items)))
    | JStr s => FValue (VStr s)
    | JNum n raw => FValue (match exact_i64 n raw with Some i => VInt i | None => VFloat n end)
    | JFloat n => FValue (VFloat n)
    | JBool b => FValue (VBool b)
    | JNull => FValue VNil
    end in
  match j with
  | JObject pairs =>
    let fields := map (λ '(k, v), (k, leaf v)) pairs in
    let lists := map (λ '(k, v), (k, match v with JArray items => Some (map leaf items) | _ => None end))
                     pairs in
    MkFielded
      (λ name, assoc name fields)
      (match fields with [(_, FValue v)] => Some v | _ => None end)
      None
      (λ name, match assoc name lists with Some (Some l) => Some l | _ => None end)
  | _ => MkFielded (λ _, None) None None (λ _, None)
  end.

(** ** Construction and lookup *)
Definition json_int (i : Z) : Json := JNum (f64_of_Z i) (Some (dec_Z i)).

Definition get (j : Json) (key : str) : option Json :=
  match j with JObject fields => assoc key fields | _ => None end.

(** [dig]: a dotted path; a non-object reached on the way is the answer. *)
Fixpoint dig_segments (current : Json) (segments : list str) : option Json :=
  match segments with
  | [] => Some current
  | segment :: rest =>
    match current with
    | JObject _ => next ← get current segment; dig_segments next rest
    | _ => Some current
    end
  end.
Definition dig (j : Json) (path : str) : option Json := dig_segments j (split path ".").

Definition as_str (j : Json) : option str := match j with JStr s => Some s | _ => None end.
Definition json_as_i64 (j : Json) : option Z :=
  match j with JNum n raw => exact_i64 n raw | _ => None end.
Definition as_f64 (j : Json) : option f64 :=
  match j with JNum n _ | JFloat n => Some n | _ => None end.
Definition as_bool (j : Json) : option bool := match j with JBool b => Some b | _ => None end.
Definition as_array (j : Json) : option (list Json) :=
  match j with JArray items => Some items | _ => None end.

(** [coerce_single_field]: a bare scalar as a one-field object. *)
Definition coerce_single_field (j : Json) (field_name : str) : Json :=
  match j with JObject _ => j | other => JObject [(field_name, other)] end.

(** Replaces the first entry of a key, or appends one. *)
Fixpoint put (key : str) (value : Json) (fields : list (str * Json)) : list (str * Json) :=
  match fields with
  | [] => [(key, value)]
  | (k, v) :: rest =>
    if str_eqb k key then (k, value) :: rest else (k, v) :: put key value rest
  end.

(** [overlay]: [patch] wins per top-level key, the other keys of [base] stay. *)
Definition overlay (base patch : Json) : Json :=
  match base, patch with
  | JObject base_fields, JObject patch_fields =>
    JObject (fold_left (λ merged '(key, value), put key value merged) patch_fields base_fields)
  | _, _ => base
  end.

(** [with_aliases]: each target key takes its source key's value. *)
Definition with_aliases (j : Json) (pairs : list (str * str)) : Json :=
  match j with
  | JObject fields =>
    JObject (fold_left (λ merged '(target_key, source_key),
      match assoc source_key fields with
      | Some value => put target_key value merged
      | None => merged
      end) pairs fields)
  | _ => j
  end.

(** [unknown_keys]: sorted. *)
Definition unknown_keys (j : Json) (known : list str) : list str :=
  match j with
  | JObject fields =>
    sort_by str_compare
      (map fst (List.filter (λ '(k, _), negb (existsb (str_eqb k) known)) fields))
  | _ => []
  end.

(** ** Writing *)
Definition write_escape (c : char) : str :=
  if (c =? 34)%N then backslash ++ dquote
  else if (c =? 92)%N then backslash ++ backslash
  else if (c =? 10)%N then backslash ++ "n"
  else if (c =? 9)%N then backslash ++ "t"
  else if (c =? 13)%N then backslash ++ "r"
  else if (c =? 8)%N then backslash ++ "b"
  else if (c =? 12)%N then backslash ++ "f"
  else if (c <? 32)%N then backslash ++ "u" ++ hex4 false c
  else [c].
Definition write_escaped_string (s : str) : str := dquote ++ flat_map write_escape s ++ dquote.

(** [to_json_string]. *)
Fixpoint write (j : Json) : str :=
  match j with
  | JObject fields =>
    "{" ++ join "," (map (λ '(k, v), write_escaped_string k ++ ":" ++ write v) fields) ++ "}"
  | JArray items => "[" ++ join "," (map write items) ++ "]"
  | JStr s => write_escaped_string s
  | JNum _ (Some raw) => raw
  | JNum n None => canonical_integer_digits n
  | JFloat n =>
    let rendered := f64_display n in
    rendered ++ (if negb (contains rendered ".") && negb (contains rendered "e")
                      && negb (contains rendered "E") then ".0" else [])
  | JBool b => if b then "true" else "false"
  | JNull => "null"
  end.
Definition to_json_string (j : Json) : str := write j.

(** ** Rendering for refusals *)
Fixpoint inspect (j : Json) : str :=
  match j with
  | JStr s => write_escaped_string s
  | JNull => "nil"
  | JArray items => "[" ++ join ", " (map inspect items) ++ "]"
  | _ => to_json_string j
  end.

Definition ruby_to_s (j : Json) : str :=
  match j with
  | JStr s => s
  | JNull => []
  | JBool b => debug_bool b
  | JNum n _ =>
    if is_whole n && f64_ltb (f64_abs n) (f64_lit "1e15") then dec_Z (as_i64 n)
    else to_json_string j
  | _ => to_json_string j
  end.

Definition json_describe (j : Json) : str :=
  match j with JArray _ | JObject _ => to_json_string j | other => inspect other end.

Definition mistyped_scalar (j : Json) (type_name : str) : bool :=
  if str_eqb type_name "Integer" then
    negb (match j with JNum n _ => is_whole n | _ => false end)
  else if str_eqb type_name "Float" then
    negb (match j with JNum _ _ => true | _ => false end)
  else if str_eqb type_name "String" then
    match j with JArray _ | JObject _ => true | _ => false end
  else false.

Section json_refusals.
Context `{U : UnicodeTables}.

Definition expect_scalar_shape (j : Json) (owner field type_name : str) : res unit :=
  let is_null := match j with JNull => true | _ => false end in
  if is_null || negb (mistyped_scalar j type_name) then Ok tt
  else Err (TypeMismatch (render_args
    (TypeMismatchNumericFieldArgs owner field type_name (json_describe j)))).

Definition expect_value_object_shape (j : Json) (name type_name : str) : res Json :=
  match j with
  | JObject _ => Ok j
  | other => Err (TypeMismatch (render_args
      (TypeMismatchValueObjectShapeArgs name type_name (json_describe other))))
  end.

Definition require (j : Json) (key struct_name : str) : res Json :=
  ok_or (get j key) (TypeMismatch (struct_name ++ "." ++ key ++ ": missing from JSON args")).

(** [{:?}] of a [Json]. *)
Fixpoint debug_json (j : Json) : str :=
  match j with
  | JObject fields =>
    "Object(" ++ debug_list (map (λ '(k, v), "(" ++ debug_str k ++ ", " ++ debug_json v ++ ")") fields) ++ ")"
  | JArray items => "Array(" ++ debug_list (map debug_json items) ++ ")"
  | JStr s => "Str(" ++ debug_str s ++ ")"
  | JNum n raw =>
    "Num(" ++ f64_debug n ++ ", "
      ++ match raw with Some r => "Some(" ++ debug_str r ++ ")" | None => "None" end ++ ")"
  | JFloat n => "Float(" ++ f64_debug n ++ ")"
  | JBool b => "Bool(" ++ debug_bool b ++ ")"
  | JNull => "Null"
  end.

(** [to_id_component]: a scalar as an identity component. *)
Definition to_id_component (j : Json) : res str :=
  match j with
  | JStr [] => Err (TypeMismatch "identity component must not be empty")
  | JStr s => Ok s
  | JNum n raw =>
    Ok (match exact_i64 n raw with
        | Some i => dec_Z i
        | None => default (f64_display n) raw
        end)
  | JBool b => Ok (debug_bool b)
  | other => Err (TypeMismatch ("cannot use " ++ debug_json other ++ " as an identity component"))
  end.
Definition to_id_component_lenient (j : Json) : res str :=
  match j with JStr s => Ok s | other => to_id_component other end.
End json_refusals.

(** ** The parser *)

(** The recursive-descent JSON parser ([src/rust/src/kernel/json.rs],
    [Parser]): a parser takes the characters left and answers a value with
    the characters after it, or an error text.  The nesting still allowed
    ([room], [MAX_DEPTH] less the source's [depth]) is what the recursion
    descends on; the loops over fields and items run on the number of
    characters left, which each turn consumes. *)
Open Scope Z_scope.

Definition MAX_DEPTH : nat := 128.

Definition parsed (A : Type) : Type := result str (A * str).

Section json_parser.
Context `{U : UnicodeTables}.

Definition skip_ws (s : str) : str := trim_start is_whitespace s.

(** [expect] and its error. *)
Definition expect (ch : char) (s : str) : parsed unit :=
  let failed o := Err ("expected " ++ debug_char ch ++ ", got " ++ debug_option_char o) in
  match s with
  | c :: rest => if (c =? ch)%N then Ok (tt, rest) else failed (Some c)
  | [] => failed None
  end.

Definition consume_literal (lit s : str) : option str := strip_prefix s lit.

(** [u32::from_str_radix] in base 16 of four characters. *)
Definition hex_value (c : char) : option N :=
  (if is_digit c then Some (c - 48)
   else if (97 <=? c) && (c <=? 102) then Some (c - 87)
   else if (65 <=? c) && (c <=? 70) then Some (c - 55)
   else None)%N.
Fixpoint hex_digits (acc : N) (s : str) : option N :=
  match s with
  | [] => Some acc
  | c :: rest => d ← hex_value c; hex_digits (acc * 16 + d)%N rest
  end.
Definition from_hex (s : str) : option N :=
  match s with
  | 43%N :: ((_ :: _) as ds) => hex_digits 0 ds
  | [] => None
  | ds => hex_digits 0 ds
  end.
Definition replacement : char := 65533%N.
(** [char::from_u32]. *)
Definition char_of (code : N) : char := if is_scalar code then code else replacement.

(** The four characters of a [\u] escape, [0] where the input ends. *)
Definition take_hex (s : str) : str * str :=
  (take 4 s ++ replicate (4 - length s) 48%N, drop 4 s).

Fixpoint string_body (fuel : nat) (out s : str) : parsed str :=
  match fuel with
  | O => Err []
  | S fuel' =>
    match s with
    | [] => Err "unterminated string"
    | c :: rest =>
      if (c =? 34)%N then Ok (rev out, rest)
      else if (c =? 92)%N then
        match rest with
        | [] => Err ("bad escape sequence " ++ backslash ++ debug_option_char None)
        | e :: rest' =>
          let one d := string_body fuel' (d :: out) rest' in
          if (e =? 34)%N then one 34%N
          else if (e =? 92)%N then one 92%N
          else if (e =? 47)%N then one 47%N
          else if (e =? 110)%N then one 10%N
          else if (e =? 116)%N then one 9%N
          else if (e =? 114)%N then one 13%N
          else if (e =? 98)%N then one 8%N
          else if (e =? 102)%N then one 12%N
          else if (e =? 117)%N then
            let (hex, rest'') := take_hex rest' in
            match from_hex hex with
            | Some code => string_body fuel' (char_of code :: out) rest''
            | None => Err ("bad " ++ backslash ++ "u escape " ++ debug_str hex)
            end
          else Err ("bad escape sequence " ++ backslash ++ debug_option_char (Some e))
        end
      else string_body fuel' (c :: out) rest
    end
  end.
Definition parse_string (s : str) : parsed str :=
  let? p := expect 34 s in string_body (S (length p.2)) [] p.2.

Definition parse_bool (s : str) : parsed Json :=
  match consume_literal "true" s with
  | Some rest => Ok (JBool true, rest)
  | None =>
    match consume_literal "false" s with
    | Some rest => Ok (JBool false, rest)
    | None => Err "expected true/false"
    end
  end.

Definition parse_null (s : str) : parsed Json :=
  match consume_literal "null" s with Some rest => Ok (JNull, rest) | None => Err "expected null" end.

(** [take_one]: the next character, when it satisfies [pred]. *)
Definition take_one (pred : char → bool) (s : str) : str * str :=
  match s with c :: rest => if pred c then ([c], rest) else ([], s) | [] => ([], []) end.
Definition take_digits (s : str) : str * str := span is_digit s.

(** The characters of a number literal, and those after it. *)
Definition number_literal (s : str) : str * str :=
  let (sign, s1) := take_one (N.eqb 45) s in
  let (whole, s2) := take_digits s1 in
  let (point, s3) := take_one (N.eqb 46) s2 in
  let (frac, s4) := match point with [] => ([], s3) | _ => take_digits s3 end in
  let (e, s5) := take_one (λ c, (c =? 101) || (c =? 69))%N s4 in
  let (exp_sign, s6) := match e with [] => ([], s5) | _ => take_one (λ c, (c =? 43) || (c =? 45))%N s5 end in
  let (exp, s7) := match e with [] => ([], s6) | _ => take_digits s6 end in
  (sign ++ whole ++ point ++ frac ++ e ++ exp_sign ++ exp, s7).

(** A literal keeps its source text where writing the float back would not
    reproduce it. *)
Definition parse_number (keep_number_text : bool) (s : str) : parsed Json :=
  let (lit, rest) := number_literal s in
  match parse_f64 lit with
  | None => Err ("bad number " ++ debug_str lit ++ ": invalid float literal")
  | Some value =>
    let is_plain_integer :=
      negb (contains lit ".") && negb (contains lit "e" || contains lit "E") in
    let keeps_source :=
      keep_number_text || (is_plain_integer && negb (str_eqb (canonical_integer_digits value) lit)) in
    if negb (is_finite value) && negb keeps_source then
      Err ("number " ++ debug_str lit ++ " is out of range")
    else Ok (JNum value (if keeps_source then Some lit else None), rest)
  end.

(** The bodies of an array and an object, over the value parser they call. *)
Section bodies.
Variable parse_value : str → parsed Json.

Fixpoint items_loop (fuel : nat) (items : list Json) (s : str) : parsed Json :=
  match fuel with
  | O => Err []
  | S fuel' =>
    let? p := parse_value s in
    let failed o := Err ("expected ',' or ']' in array, got " ++ debug_option_char o) in
    match skip_ws p.2 with
    | c :: rest =>
      if (c =? 44)%N then items_loop fuel' (p.1 :: items) rest
      else if (c =? 93)%N then Ok (JArray (rev (p.1 :: items)), rest)
      else failed (Some c)
    | [] => failed None
    end
  end.

Definition parse_array_body (s : str) : parsed Json :=
  let? p := expect 91 s in
  let s' := skip_ws p.2 in
  if starts_with s' "]" then Ok (JArray [], tl s') else items_loop (S (length s')) [] s'.

Fixpoint fields_loop (fuel : nat) (fields : list (str * Json)) (s : str) : parsed Json :=
  match fuel with
  | O => Err []
  | S fuel' =>
    let? k := parse_string (skip_ws s) in
    let? colon := expect 58 (skip_ws k.2) in
    let? v := parse_value colon.2 in
    let failed o := Err ("expected ',' or '}' in object, got " ++ debug_option_char o) in
    match skip_ws v.2 with
    | c :: rest =>
      if (c =? 44)%N then fields_loop fuel' ((k.1, v.1) :: fields) rest
      else if (c =? 125)%N then Ok (JObject (rev ((k.1, v.1) :: fields)), rest)
      else failed (Some c)
    | [] => failed None
    end
  end.

Definition parse_object_body (s : str) : parsed Json :=
  let? p := expect 123 s in
  let s' := skip_ws p.2 in
  if starts_with s' "}" then Ok (JObject [], tl s') else fields_loop (S (length s')) [] s'.
End bodies.

Definition too_deep : str := "JSON nests deeper than " ++ dec_nat MAX_DEPTH ++ " levels".

Fixpoint parse_value (keep : bool) (room : nat) (s : str) : parsed Json :=
  let s := skip_ws s in
  let nested body := match room with O => Err too_deep | S room' => body (parse_value keep room') s end in
  let unexpected o := Err ("unexpected " ++ debug_option_char o ++ " in JSON") in
  match s with
  | [] => unexpected None
  | c :: _ =>
    if (c =? 123)%N then nested parse_object_body
    else if (c =? 91)%N then nested parse_array_body
    else if (c =? 34)%N then let? p := parse_string s in Ok (JStr p.1, p.2)
    else if ((c =? 116) || (c =? 102))%N then parse_bool s
    else if (c =? 110)%N then parse_null s
    else if (c =? 45)%N || is_digit c then parse_number keep s
    else unexpected (Some c)
  end.

(** [parse_with]: what follows the value is only skipped, never read. *)
Definition parse_with (input : str) (keep_number_text : bool) : result str Json :=
  let? p := parse_value keep_number_text MAX_DEPTH input in Ok p.1.
Definition parse (input : str) : result str Json := parse_with input false.
Definition parse_keeping_number_text (input : str) : result str Json := parse_with input true.
End json_parser.

Example parse_example :
  @parse ascii_tables (" {" ++ dquote ++ "a" ++ dquote ++ ": [1, -2.5e1, true, null, " ++ dquote
    ++ "x" ++ backslash ++ "n" ++ dquote ++ "] }") =
  Ok (JObject [("a", JArray [JNum (f64_of_Z 1) None; JNum (f64_of_Z (-25)) None; JBool true; JNull;
                             JStr [120; 10]%N])]).
Proof. vm_compute. reflexivity. Qed.
