(* ===== verification/JsonFacts.v ===== *)
(** What the JSON layer guarantees: writing then parsing gives the value back,
    nesting is bounded, the parser's loops never run out of input to read, and
    overlays and aliases keep the arguments they do not name. *)
From S2P Require Export Json.
Open Scope Z_scope.

Section json_facts.
Context `{U : UnicodeTables}.

(** ** Strings *)

(** The reader's turn on one escape of the writer. *)
Lemma string_body_escape (c : char) (fuel : nat) (out s : str) :
  string_body (S fuel) out (write_escape c ++ s) = string_body fuel (c :: out) s.
Proof.
  assert (c < 32 → string_body (S fuel) out (write_escape c ++ s) = string_body fuel (c :: out) s)%N
    as Hlow.
  { intros Hc. assert (∃ n : nat, c = N.of_nat n ∧ (n < 32)%nat) as (n & -> & Hn).
    { exists (N.to_nat c). lia. }
    do 32 (destruct n as [|n]; [reflexivity|]). lia. }
  destruct (N.ltb_spec c 32) as [Hc|Hc]; [by apply Hlow|]. clear Hlow.
  unfold write_escape. destruct (N.eqb_spec c 34) as [->|H34]; [reflexivity|].
  destruct (N.eqb_spec c 92) as [->|H92]; [reflexivity|].
  rewrite !(proj2 (N.eqb_neq c _)) by lia. rewrite (proj2 (N.ltb_ge c 32)) by done.
  cbn [app string_body]. by rewrite (proj2 (N.eqb_neq c 34)), (proj2 (N.eqb_neq c 92)).
Qed.

Lemma string_body_write (s : str) (fuel : nat) (out rest : str) :
  (length s < fuel)%nat →
  string_body fuel out (flat_map write_escape s ++ 34%N :: rest) = Ok (rev out ++ s, rest).
Proof.
  revert fuel out; induction s as [|c s IH]; intros fuel out Hf; cbn [length flat_map] in *.
  - destruct fuel; [lia|]. cbn. by rewrite app_nil_r.
  - destruct fuel as [|fuel]; [lia|].
    rewrite <- app_assoc, string_body_escape, IH by lia. simpl. by rewrite <- app_assoc.
Qed.

Lemma write_escape_length (c : char) : (1 ≤ length (write_escape c))%nat.
Proof. unfold write_escape. repeat case_match; simpl; lia. Qed.

Lemma flat_map_length_le (s : str) : (length s ≤ length (flat_map write_escape s))%nat.
Proof.
  induction s as [|c s IH]; simpl; [lia|]. rewrite length_app.
  pose proof (write_escape_length c). lia.
Qed.

Lemma written_string (s rest : str) :
  write_escaped_string s ++ rest = 34%N :: flat_map write_escape s ++ 34%N :: rest.
Proof. unfold write_escaped_string. rewrite <- !app_assoc. reflexivity. Qed.

Lemma parse_string_write (s rest : str) :
  parse_string (write_escaped_string s ++ rest) = Ok (s, rest).
Proof.
  rewrite written_string. unfold parse_string. cbn [expect]. cbn [N.eqb Pos.eqb fst snd].
  rewrite string_body_write; [done|].
  rewrite length_app. pose proof (flat_map_length_le s). lia.
Qed.

(** ** Numbers *)

(** What may follow a number: nothing that continues its literal. *)
Definition ends_number (rest : str) : bool :=
  match rest with
  | [] => true
  | c :: _ => negb (is_digit c || (c =? 46) || (c =? 101) || (c =? 69))%N
  end.

Lemma span_digits (ds rest : str) :
  forallb is_digit ds = true → ends_number rest = true → span is_digit (ds ++ rest) = (ds, rest).
Proof.
  intros Hd Hr. induction ds as [|c ds IH]; cbn [app forallb span] in *.
  - destruct rest as [|c rest]; [done|]. cbn [span ends_number] in *.
    by destruct (is_digit c).
  - apply andb_true_iff in Hd as [-> Hd]. by rewrite IH.
Qed.

Lemma ends_number_take_one (p : char → bool) (rest : str) :
  ends_number rest = true →
  (∀ c, p c = true → ends_number [c] = false) → take_one p rest = ([], rest).
Proof.
  intros Hr Hp. destruct rest as [|c rest]; [done|]. cbn [take_one].
  destruct (p c) eqn:E; [|done]. specialize (Hp c E).
  change (ends_number (c :: rest)) with (ends_number [c]) in Hr. congruence.
Qed.

(** A decimal integer is read as one literal, up to what follows it. *)
Lemma number_literal_dec (z : Z) (rest : str) :
  ends_number rest = true → number_literal (dec_Z z ++ rest) = (dec_Z z, rest).
Proof.
  intros Hr.
  assert (∀ sign ds, forallb is_digit ds = true → take_one (N.eqb 45) (sign ++ ds ++ rest) = (sign, ds ++ rest) →
    number_literal (sign ++ ds ++ rest) = (sign ++ ds, rest)) as H.
  { intros sign ds Hd Hs. unfold number_literal, take_digits. rewrite Hs.
    rewrite (span_digits ds rest) by done.
    assert (take_one (N.eqb 46) rest = ([], rest)) as ->.
    { apply ends_number_take_one; [done|]. by intros c <-%N.eqb_eq. }
    assert (take_one (λ c, (c =? 101) || (c =? 69))%N rest = ([], rest)) as ->.
    { apply ends_number_take_one; [done|].
      intros c [->%N.eqb_eq| ->%N.eqb_eq]%orb_true_iff; reflexivity. }
    by rewrite !app_nil_r. }
  unfold dec_Z. destruct (dec_N_spec (Z.abs_N z)) as (Hd & _ & _). destruct (z <? 0).
  - rewrite <- app_assoc. apply H; [done|]. reflexivity.
  - apply (H [] (dec_N (Z.abs_N z))); [done|].
    destruct (dec_N_head (Z.abs_N z)) as (c & r & -> & Hc). cbn [app take_one].
    by rewrite (proj2 (N.eqb_neq 45 c)) by lia.
Qed.

Lemma dec_N_letters (n : N) (c : char) : c ∈ dec_N n → is_digit c = true.
Proof.
  destruct (dec_N_spec n) as (Hd & _ & _). rewrite forallb_forall in Hd.
  intros H. by apply Hd, list_elem_of_In.
Qed.

Lemma contains_char (c : char) (s : str) : c ∉ s → contains s [c] = false.
Proof.
  induction s as [|x s IH]; intros H; [done|]. apply not_elem_of_cons in H as [H1 H2].
  cbn [contains starts_with]. rewrite IH by done. rewrite (proj2 (N.eqb_neq x c)) by congruence.
  reflexivity.
Qed.

Lemma dec_Z_plain (z : Z) (c : char) :
  is_digit c = false → c ≠ 45%N → contains (dec_Z z) [c] = false.
Proof.
  intros Hd Hc. apply contains_char. unfold dec_Z. intros Hin.
  destruct (z <? 0); [apply elem_of_app in Hin as [Hin|Hin]|].
  - change (c ∈ [45%N]) in Hin. apply list_elem_of_singleton in Hin. done.
  - apply dec_N_letters in Hin. congruence.
  - apply dec_N_letters in Hin. congruence.
Qed.

Lemma lowercase_digits (ds : str) : forallb is_digit ds = true → lowercase_ascii ds = ds.
Proof.
  induction ds as [|c ds IH]; [done|]. cbn [forallb]. intros [Hc Hd]%andb_true_iff.
  unfold lowercase_ascii in *. cbn [map]. rewrite IH by done. f_equal.
  unfold is_digit in Hc. unfold is_upper. apply andb_true_iff in Hc as [_ Hc]. apply N.leb_le in Hc.
  by rewrite (proj2 (N.leb_gt 65 c)) by lia.
Qed.

Lemma unsigned_text (c : char) (s : str) :
  (48 ≤ c)%N →
  match c :: s with 45%N :: r => (true, r) | 43%N :: r => (false, r) | _ => (false, c :: s) end
  = (false, c :: s).
Proof.
  intros Hc. destruct c as [|p]; [done|].
  do 6 (destruct p as [p|p|]; try reflexivity; try lia).
Qed.

Lemma parse_f64_digits (neg : bool) (s ds : str) :
  (s = 45%N :: ds ∧ neg = true ∨ s = ds ∧ neg = false) →
  forallb is_digit ds = true → ds ≠ [] →
  parse_f64 s = Some (f64_of_decimal neg (digits_value ds) 0).
Proof.
  intros Hs Hd Hne.
  assert (parse_f64 s = (let word := lowercase_ascii ds in
    if bool_decide (word = "inf") || bool_decide (word = "infinity") then Some (S754_infinity neg)
    else if bool_decide (word = "nan") then Some S754_nan
    else
      let (whole, r1) := span is_digit ds in
      let '(frac, r2) := match r1 with 46%N :: r => span is_digit r | _ => ([], r1) end in
      if bool_decide (whole = []) && bool_decide (frac = []) then None
      else
        e ← match r2 with
            | [] => Some 0
            | c :: r => if ((c =? 101) || (c =? 69))%N then parse_exponent r else None
            end;
        Some (f64_of_decimal neg (digits_value (whole ++ frac)) (e - Z.of_nat (length frac))))) as ->.
  { destruct Hs as [[-> ->]|[-> ->]]; [done|]. destruct ds as [|c ds]; [done|].
    cbn [forallb] in Hd. apply andb_true_iff in Hd as [Hc _]. unfold is_digit in Hc.
    apply andb_true_iff in Hc as [Hc _]. apply N.leb_le in Hc.
    unfold parse_f64. by rewrite unsigned_text. }
  cbv zeta. rewrite lowercase_digits by done.
  assert (∀ w, forallb is_digit w = false → ds ≠ w) as Hw by (intros w Hw ->; congruence).
  rewrite !bool_decide_false by (apply Hw; reflexivity). cbn [orb].
  rewrite <- (app_nil_r ds) at 1. rewrite span_digits by done. cbv iota beta.
  rewrite bool_decide_false by done. cbn [andb mbind option_bind length]. by rewrite app_nil_r.
Qed.

Lemma parse_f64_dec (z : Z) : parse_f64 (dec_Z z) = Some (f64_of_Z z).
Proof.
  destruct (dec_N_spec (Z.abs_N z)) as (Hd & Hv & Hne). unfold dec_Z.
  destruct (Z.ltb_spec z 0) as [Hz|Hz].
  - rewrite (parse_f64_digits true _ (dec_N (Z.abs_N z))); [|left; split; reflexivity|done..].
    rewrite Hv. unfold f64_of_decimal. rewrite (proj2 (N.eqb_neq _ 0)) by lia. cbn [Z.leb].
    rewrite Z.pow_0_r, Z.mul_1_r. replace (- Z.of_N (Z.abs_N z)) with z by lia.
    by destruct z.
  - rewrite (parse_f64_digits false _ (dec_N (Z.abs_N z))); [|right; split; reflexivity|done..].
    rewrite Hv. unfold f64_of_decimal. destruct (N.eqb_spec (Z.abs_N z) 0) as [E|E].
    + by replace z with 0 by lia.
    + cbn [Z.leb Z.compare]. rewrite Z.pow_0_r, Z.mul_1_r.
      by replace (Z.of_N (Z.abs_N z)) with z by lia.
Qed.

(** The number a decimal integer is read as: its source text kept exactly
    where the float's own digits differ. *)
Definition integer_json (z : Z) : Json :=
  JNum (f64_of_Z z)
    (if str_eqb (canonical_integer_digits (f64_of_Z z)) (dec_Z z) then None else Some (dec_Z z)).

Lemma write_integer (z : Z) : write (integer_json z) = dec_Z z.
Proof.
  unfold integer_json, str_eqb. by case_bool_decide.
Qed.

(** An integer past the floats' range always keeps its source text. *)
Lemma nonfinite_digits (z : Z) :
  is_finite (f64_of_Z z) = false →
  str_eqb (canonical_integer_digits (f64_of_Z z)) (dec_Z z) = false.
Proof.
  intros Hf. apply bool_decide_eq_false. intros E.
  assert (contains (canonical_integer_digits (f64_of_Z z)) [110%N] = false) as H1
    by (rewrite E; by apply dec_Z_plain).
  assert (contains (canonical_integer_digits (f64_of_Z z)) [97%N] = false) as H2
    by (rewrite E; by apply dec_Z_plain).
  destruct (f64_of_Z z) as [s|s| |s m e];
    [discriminate Hf|destruct s; discriminate H1|discriminate H2|discriminate Hf].
Qed.

(** ** Whole documents *)

(** The documents a writer produces from texts, integers of any size, booleans
    and null: what [parse] reads back as it was. *)
Inductive wire : Json → Prop :=
| WireObject fields : Forall (λ kv, wire kv.2) fields → wire (JObject fields)
| WireArray items : Forall wire items → wire (JArray items)
| WireStr s : wire (JStr s)
| WireInt z : wire (integer_json z)
| WireBool b : wire (JBool b)
| WireNull : wire JNull.

Fixpoint json_depth (j : Json) : nat :=
  match j with
  | JObject fields => S (list_max (map (λ '(_, v), json_depth v) fields))
  | JArray items => S (list_max (map json_depth items))
  | _ => 0%nat
  end.

(** A document begins with no space, and neither closes nor separates. *)
Definition opens (c : char) : bool :=
  negb (is_whitespace c || (c =? 93) || (c =? 125) || (c =? 44))%N.

Lemma is_digit_opens (c : char) : is_digit c = true → opens c = true.
Proof.
  unfold is_digit, opens, is_whitespace. rewrite andb_true_iff, !N.leb_le. intros [H1 H2].
  by N_bool; rewrite !(proj2 (N.eqb_neq c _)) by lia.
Qed.

Lemma dec_Z_opens (z : Z) : ∃ c r, dec_Z z = c :: r ∧ opens c = true ∧ (c = 45%N ∨ is_digit c = true).
Proof.
  unfold dec_Z. destruct (dec_N_spec (Z.abs_N z)) as (Hd & _ & Hne). destruct (z <? 0).
  - exists 45%N, (dec_N (Z.abs_N z)). split_and!; [reflexivity..|by left].
  - destruct (dec_N (Z.abs_N z)) as [|c r]; [done|]. exists c, r.
    cbn [forallb] in Hd. apply andb_true_iff in Hd as [Hc _]. auto using is_digit_opens.
Qed.

Lemma write_opens (j : Json) : wire j → ∃ c r, write j = c :: r ∧ opens c = true.
Proof.
  intros []; try (by eexists _, _; split; reflexivity).
  - rewrite write_integer. destruct (dec_Z_opens z) as (c & r & -> & H & _). eauto.
  - destruct b; by eexists _, _; split; reflexivity.
Qed.

Lemma skip_ws_opens (c : char) (s : str) : opens c = true → skip_ws (c :: s) = c :: s.
Proof.
  unfold opens. intros H. unfold skip_ws. cbn [trim_start].
  destruct (is_whitespace c); [discriminate H|done].
Qed.

(** The parser of one value reads back [j], whatever may follow. *)
Definition reads (parse : str → parsed Json) (j : Json) : Prop :=
  ∀ rest, ends_number rest = true → parse (write j ++ rest) = Ok (j, rest).

Lemma items_loop_write (parse : str → parsed Json) (x : Json) (l acc : list Json) (fuel : nat) (rest : str) :
  Forall (reads parse) (x :: l) → (length l < fuel)%nat →
  items_loop parse fuel acc (join "," (map write (x :: l)) ++ 93%N :: rest)
  = Ok (JArray (rev acc ++ x :: l), rest).
Proof.
  revert x acc fuel. induction l as [|y l IH]; intros x acc fuel Hr Hf;
    (destruct fuel as [|fuel]; [simpl in Hf; lia|]); inversion Hr as [|? ? Hx Hl]; subst;
    cbn [items_loop].
  - cbn [map join]. rewrite Hx by done. reflexivity.
  - cbn [map]. rewrite join_cons by done. rewrite <- !app_assoc.
    rewrite Hx by reflexivity. cbn [fst snd app].
    change (skip_ws (("," ++ join "," (map write (y :: l)) ++ 93%N :: rest)))
      with (44%N :: join "," (map write (y :: l)) ++ 93%N :: rest).
    cbn [N.eqb Pos.eqb]. cbn [length] in Hf.
    etrans; [apply IH; [done|lia]|]. simpl. by rewrite <- app_assoc.
Qed.

Definition write_field (kv : str * Json) : str := write_escaped_string kv.1 ++ ":" ++ write kv.2.

Lemma fields_loop_write (parse : str → parsed Json) (x : str * Json) (l acc : list (str * Json))
    (fuel : nat) (rest : str) :
  Forall (λ kv, reads parse kv.2) (x :: l) → (length l < fuel)%nat →
  fields_loop parse fuel acc (join "," (map write_field (x :: l)) ++ 125%N :: rest)
  = Ok (JObject (rev acc ++ x :: l), rest).
Proof.
  assert (∀ kv s, write_field kv ++ s = write_escaped_string kv.1 ++ 58%N :: write kv.2 ++ s) as Hw.
  { intros kv s. unfold write_field. rewrite <- !app_assoc. reflexivity. }
  assert (∀ k s, skip_ws (write_escaped_string k ++ s) = write_escaped_string k ++ s) as Hk.
  { intros k s. rewrite written_string. by rewrite skip_ws_opens. }
  revert x acc fuel. induction l as [|y l IH]; intros [k v] acc fuel Hr Hf;
    (destruct fuel as [|fuel]; [simpl in Hf; lia|]); inversion Hr as [|? ? Hx Hl]; subst;
    cbn [fields_loop].
  - cbn [map join]. rewrite Hw. cbn [fst snd] in *. rewrite Hk, parse_string_write. cbn [fst snd].
    rewrite skip_ws_opens by done. cbn [expect]. cbn [N.eqb Pos.eqb fst snd].
    rewrite Hx by done. reflexivity.
  - cbn [map]. rewrite join_cons by done. rewrite <- !app_assoc, Hw.
    cbn [fst snd] in *. rewrite Hk, parse_string_write. cbn [fst snd].
    rewrite skip_ws_opens by done. cbn [expect]. cbn [N.eqb Pos.eqb fst snd].
    rewrite Hx by reflexivity. cbn [fst snd app].
    change (skip_ws (("," ++ join "," (map write_field (y :: l)) ++ 125%N :: rest)))
      with (44%N :: join "," (map write_field (y :: l)) ++ 125%N :: rest).
    cbn [N.eqb Pos.eqb]. cbn [length] in Hf.
    etrans; [apply IH; [done|lia]|]. simpl. by rewrite <- app_assoc.
Qed.

Lemma join_length (l : list str) :
  Forall (λ s, s ≠ []) l → (length l ≤ length (join "," l))%nat.
Proof.
  induction 1 as [|s l Hs _ IH]; [simpl; lia|].
  destruct l as [|t l]; [destruct s; simpl in *; [done|lia]|].
  rewrite join_cons, !length_app by done. destruct s; [done|]. cbn [length] in *. lia.
Qed.

Lemma list_max_elem (n : nat) (l : list nat) : n ∈ l → (n ≤ list_max l)%nat.
Proof.
  intros H. pose proof (list_max_le l (list_max l)) as [Hm _]. specialize (Hm (le_n _)).
  rewrite Forall_forall in Hm. by apply Hm, list_elem_of_In.
Qed.

Lemma body_start (j : Json) (s : str) (close : char) :
  wire j → (close = 93%N ∨ close = 125%N) →
  skip_ws (write j ++ s) = write j ++ s ∧ starts_with (write j ++ s) [close] = false.
Proof.
  intros Hj Hc. destruct (write_opens j Hj) as (c & r & -> & Ho). cbn [app].
  rewrite skip_ws_opens by done. split; [done|]. cbn [starts_with].
  unfold opens in Ho. destruct (N.eqb_spec c close) as [->|]; [|done].
  destruct Hc as [-> | ->]; discriminate Ho.
Qed.

Lemma parse_value_write (j : Json) (room : nat) :
  wire j → (json_depth j ≤ room)%nat → reads (parse_value false room) j.
Proof.
  revert room. induction j as [fields IH|items IH|s|n raw|n|b|] using Json_rich_ind;
    intros room Hj Hd rest Hr; inversion Hj as [? Hf|? Hf| |z| |]; subst; cbn [json_depth] in Hd.
  - destruct room as [|room]; [lia|].
    assert (Forall (λ kv, reads (parse_value false room) kv.2) fields) as Hall.
    { rewrite Forall_forall in IH, Hf |- *. intros kv Hin. apply IH; [done|by apply Hf|].
      etrans; [|apply le_S_n, Hd]. apply list_max_elem. destruct kv as [k v].
      apply (list_elem_of_fmap_2 (λ '(_, v), json_depth v) fields (k, v)), list_elem_of_In, Hin. }
    assert (write (JObject fields) = "{" ++ join "," (map write_field fields) ++ "}") as Ew.
    { cbn [write]. do 3 f_equal. apply map_ext. by intros []. }
    rewrite Ew. destruct fields as [|[k v] fields]; [by destruct rest|].
    rewrite <- !app_assoc.
    change ("{" ++ join "," (map write_field ((k, v) :: fields)) ++ "}" ++ rest)
      with (123%N :: join "," (map write_field ((k, v) :: fields)) ++ 125%N :: rest).
    assert (∃ s', join "," (map write_field ((k, v) :: fields)) ++ 125%N :: rest = 34%N :: s') as [s' Es].
    { cbn [map]. destruct (map write_field fields); [|rewrite join_cons by done]; cbn [join];
        unfold write_field; rewrite <- !app_assoc, written_string; eauto. }
    cbn [parse_value]. rewrite skip_ws_opens by done. cbn [N.eqb Pos.eqb].
    unfold parse_object_body. cbn [expect]. cbn [N.eqb Pos.eqb fst snd].
    rewrite Es, skip_ws_opens by done. cbn [starts_with]. cbn [N.eqb Pos.eqb andb].
    rewrite <- Es. apply fields_loop_write; [done|].
    rewrite length_app. pose proof (join_length (map write_field ((k, v) :: fields))) as Hl.
    rewrite length_map in Hl. cbn [length] in *.
    assert (Forall (λ s, s ≠ []) (map write_field ((k, v) :: fields))) as Hn; [|specialize (Hl Hn); lia].
    apply Forall_forall. by intros s [kv [<- _]]%in_map_iff.
  - destruct room as [|room]; [lia|].
    assert (Forall (reads (parse_value false room)) items) as Hall.
    { rewrite Forall_forall in IH, Hf |- *. intros v Hin. apply IH; [done|by apply Hf|].
      etrans; [|apply le_S_n, Hd]. apply list_max_elem.
      apply (list_elem_of_fmap_2 json_depth items v), list_elem_of_In, Hin. }
    destruct items as [|x items]; [by destruct rest|].
    cbn [write]. rewrite <- !app_assoc.
    change ("[" ++ join "," (map write (x :: items)) ++ "]" ++ rest)
      with (91%N :: join "," (map write (x :: items)) ++ 93%N :: rest).
    assert (∃ s', join "," (map write (x :: items)) ++ 93%N :: rest = write x ++ s') as [s' Es].
    { cbn [map]. destruct (map write items); [|rewrite join_cons by done]; cbn [join];
        rewrite <- ?app_assoc; eauto. }
    cbn [parse_value]. rewrite skip_ws_opens by done. cbn [N.eqb Pos.eqb].
    unfold parse_array_body. cbn [expect]. cbn [N.eqb Pos.eqb fst snd].
    destruct (body_start x s' 93%N) as [E1 E2]; [by inversion Hf|by left|].
    rewrite Es, E1. change ("]" : str) with [93%N]. rewrite E2, <- Es.
    apply items_loop_write; [done|].
    rewrite length_app. pose proof (join_length (map write (x :: items))) as Hl.
    rewrite length_map in Hl. cbn [length] in *.
    assert (Forall (λ s, s ≠ []) (map write (x :: items))) as Hn; [|specialize (Hl Hn); lia].
    apply Forall_forall. intros s [y [<- Hy]]%in_map_iff. rewrite Forall_forall in Hf.
    destruct (write_opens y (Hf y Hy)) as (c & r & -> & _). done.
  - cbn [write]. pose proof (parse_string_write s rest) as Hp. revert Hp.
    rewrite written_string. intros Hp. destruct room as [|room]; cbn [parse_value];
      rewrite skip_ws_opens by done; cbn [N.eqb Pos.eqb]; by rewrite Hp.
  - fold (integer_json z). rewrite write_integer.
    destruct (dec_Z_opens z) as (c & r & Ez & Ho & Hc).
    assert (parse_number false (dec_Z z ++ rest) = Ok (integer_json z, rest)) as Hp.
    { unfold parse_number. rewrite number_literal_dec, parse_f64_dec by done.
      change ("." : str) with [46%N]. change ("e" : str) with [101%N]. change ("E" : str) with [69%N].
      rewrite !dec_Z_plain by done. cbn [negb orb andb]. unfold integer_json.
      destruct (str_eqb _ (dec_Z z)) eqn:Ek; cbn [negb]; [|by rewrite andb_false_r].
      destruct (is_finite (f64_of_Z z)) eqn:Ef; [done|].
      by rewrite nonfinite_digits in Ek. }
    rewrite Ez in *. cbn [app] in *.
    assert (is_digit c = true ∨ c = 45%N) as Hc' by tauto.
    assert ((c =? 123)%N = false ∧ (c =? 91)%N = false ∧ (c =? 34)%N = false ∧
            ((c =? 116) || (c =? 102))%N = false ∧ (c =? 110)%N = false ∧
            (c =? 45)%N || is_digit c = true) as (E1 & E2 & E3 & E4 & E5 & E6).
    { destruct Hc' as [Hdig| ->]; [|by split_and!]. rewrite Hdig, orb_true_r.
      unfold is_digit in Hdig. rewrite andb_true_iff, !N.leb_le in Hdig.
      rewrite !(proj2 (N.eqb_neq c _)) by lia. done. }
    destruct room; cbn [parse_value]; rewrite skip_ws_opens by done;
      by rewrite E1, E2, E3, E4, E5, E6.
  - destruct room, b; by destruct rest.
  - destruct room; by destruct rest.
Qed.

(** ** The loops end with the input, and the nesting is bounded *)

(** An answer that took at least one character and satisfies [P], or an error
    that says something (the empty text is a loop out of fuel). *)
Definition progress {A} (P : A → Prop) (s : str) (r : parsed A) : Prop :=
  match r with Ok (a, rest) => P a ∧ (length rest < length s)%nat | Err m => m ≠ [] end.
Abbreviation any_text := (λ _ : str, True).

Lemma app_not_nil (a b : str) : a ≠ [] → a ++ b ≠ [].
Proof. by destruct a. Qed.

Lemma skip_ws_length (s : str) : (length (skip_ws s) ≤ length s)%nat.
Proof.
  unfold skip_ws. induction s as [|c s IH]; [done|]. cbn [trim_start].
  case_match; cbn [length]; lia.
Qed.

Lemma expect_progress (ch : char) (s : str) : progress (λ _, True) s (expect ch s).
Proof.
  unfold expect. destruct s as [|c s]; [by apply app_not_nil|].
  destruct (N.eqb c ch); [split; [done|simpl; lia]|by apply app_not_nil].
Qed.

Lemma string_body_progress (fuel : nat) (out s : str) :
  (length s < fuel)%nat → progress any_text s (string_body fuel out s).
Proof.
  revert out s. induction fuel as [|fuel IH]; intros out s Hf; [lia|]. cbn [string_body].
  assert (∀ out s', (length s' < length s)%nat → progress any_text s (string_body fuel out s')) as Hgo.
  { intros out' s' Hl. specialize (IH out' s' ltac:(lia)).
    destruct (string_body fuel out' s') as [[o rest]|m]; [|done]. split; [done|]. destruct IH. lia. }
  destruct s as [|c s]; [done|]. destruct (c =? 34)%N; [split; [done|simpl; lia]|].
  destruct (c =? 92)%N; [|apply Hgo; simpl; lia].
  destruct s as [|e s]; [by apply app_not_nil|].
  repeat (destruct (e =? _)%N; [first [apply Hgo; simpl; lia|idtac]|]); [|by apply app_not_nil].
  unfold take_hex. cbv iota beta. destruct (from_hex _); [|by apply app_not_nil].
  apply Hgo. rewrite length_drop. simpl. lia.
Qed.

Lemma parse_string_progress (s : str) : progress any_text s (parse_string s).
Proof.
  unfold parse_string. pose proof (expect_progress 34 s) as He.
  destruct (expect 34 s) as [[[] s1]|m]; [|done]. destruct He as [_ Hl]. cbn [snd].
  pose proof (string_body_progress (S (length s1)) [] s1 ltac:(lia)) as Hb.
  destruct (string_body _ _ _) as [[o rest]|m]; [|done]. split; [done|]. destruct Hb. lia.
Qed.

Lemma strip_prefix_length (s p rest : str) :
  strip_prefix s p = Some rest → p ≠ [] → (length rest < length s)%nat.
Proof.
  unfold strip_prefix. case_match eqn:E; [|done]. intros [= <-] Hp.
  apply starts_with_split in E. rewrite E at 2. rewrite length_app. destruct p; [done|simpl; lia].
Qed.

Lemma span_length (p : char → bool) (s : str) :
  (length (span p s).1 + length (span p s).2 = length s)%nat.
Proof.
  induction s as [|c s IH]; [done|]. cbn [span]. destruct (p c); [|done].
  destruct (span p s). simpl in *. lia.
Qed.

Lemma take_one_length (p : char → bool) (s : str) :
  (length (take_one p s).1 + length (take_one p s).2 = length s)%nat.
Proof. destruct s as [|c s]; [done|]. cbn [take_one]. by destruct (p c). Qed.

Lemma number_literal_length (c : char) (s : str) :
  (c =? 45)%N || is_digit c = true →
  (length (number_literal (c :: s)).2 < length (c :: s))%nat.
Proof.
  intros Hc. unfold number_literal, take_digits.
  pose proof (take_one_length (N.eqb 45) (c :: s)) as H1.
  destruct (take_one (N.eqb 45) (c :: s)) as [sign s1] eqn:E1.
  pose proof (span_length is_digit s1) as H2. destruct (span is_digit s1) as [whole s2] eqn:E2.
  assert (length s2 < length (c :: s))%nat as Hlt.
  { cbn [fst snd] in *. cbn [take_one] in E1. rewrite N.eqb_sym in E1.
    destruct (N.eqb_spec c 45); injection E1 as <- <-; cbn [length] in *; [lia|].
    cbn [orb] in Hc. cbn [span] in E2. rewrite Hc in E2.
    destruct (span is_digit s). injection E2 as <- <-. cbn [length] in H2. lia. }
  pose proof (take_one_length (N.eqb 46) s2) as H3.
  destruct (take_one (N.eqb 46) s2) as [point s3].
  destruct (match point with [] => ([], s3) | _ => span is_digit s3 end) as [frac s4] eqn:E4.
  assert (length s4 ≤ length s3)%nat.
  { pose proof (span_length is_digit s3) as H. destruct point; [by injection E4 as <- <-|].
    rewrite E4 in H. simpl in H. lia. }
  pose proof (take_one_length (λ c, (c =? 101) || (c =? 69))%N s4) as H5.
  destruct (take_one (λ c, (c =? 101) || (c =? 69))%N s4) as [e s5].
  destruct e as [|e0 e]; cbn [fst snd] in *; [cbn [length] in *; lia|].
  pose proof (take_one_length (λ c, (c =? 43) || (c =? 45))%N s5) as H6.
  destruct (take_one (λ c, (c =? 43) || (c =? 45))%N s5) as [es s6].
  pose proof (span_length is_digit s6) as H7. destruct (span is_digit s6) as [ex s7].
  cbn [fst snd length] in *. lia.
Qed.

(** What a value parser answers, within [room] levels. *)
Abbreviation bounded room := (λ j, json_depth j ≤ room)%nat.

Lemma progress_skip {A} (P : A → Prop) (s : str) (r : parsed A) :
  progress P (skip_ws s) r → progress P s r.
Proof.
  pose proof (skip_ws_length s). destruct r as [[a rest]|m]; [|done].
  intros [Ha Hl]. split; [done|]. lia.
Qed.

Section bodies_progress.
Context (parse : str → parsed Json) (room : nat).
Context (Hparse : ∀ s, progress (bounded room) s (parse s)).

Lemma items_loop_progress (fuel : nat) (acc : list Json) (s : str) :
  (length s < fuel)%nat → Forall (bounded room) acc →
  progress (bounded (S room)) s (items_loop parse fuel acc s).
Proof.
  revert acc s. induction fuel as [|fuel IH]; intros acc s Hf Hacc; [lia|]. cbn [items_loop].
  pose proof (Hparse s) as Hp. destruct (parse s) as [[v s1]|m]; [|done].
  destruct Hp as [Hv Hl]. cbn [fst snd]. pose proof (skip_ws_length s1).
  destruct (skip_ws s1) as [|c s2]; [by apply app_not_nil|]. cbn [length] in *.
  destruct (c =? 44)%N.
  { assert (Forall (bounded room) (v :: acc)) as Hacc' by by constructor.
    specialize (IH (v :: acc) s2 ltac:(lia) Hacc').
    destruct (items_loop _ _ _ _) as [[j rest]|m]; [|done]. destruct IH. split; [done|lia]. }
  destruct (c =? 93)%N; [|by apply app_not_nil]. split; [|lia].
  cbn [json_depth]. apply le_n_S, list_max_le, Forall_map.
  change (rev acc ++ [v]) with (rev (v :: acc)). rewrite Forall_forall in *. intros j Hj.
  apply in_rev in Hj as [<-|Hj]; auto.
Qed.

Lemma fields_loop_progress (fuel : nat) (acc : list (str * Json)) (s : str) :
  (length s < fuel)%nat → Forall (λ kv, bounded room kv.2) acc →
  progress (bounded (S room)) s (fields_loop parse fuel acc s).
Proof.
  revert acc s. induction fuel as [|fuel IH]; intros acc s Hf Hacc; [lia|]. cbn [fields_loop].
  pose proof (progress_skip _ _ _ (parse_string_progress (skip_ws s))) as Hk.
  destruct (parse_string (skip_ws s)) as [[k s1]|m]; [|done]. destruct Hk as [_ Hk]. cbn [fst snd].
  pose proof (progress_skip _ _ _ (expect_progress 58 (skip_ws s1))) as Hc.
  destruct (expect 58 (skip_ws s1)) as [[u s2]|m]; [|done]. destruct Hc as [_ Hc]. cbn [fst snd].
  pose proof (Hparse s2) as Hp. destruct (parse s2) as [[v s3]|m]; [|done].
  destruct Hp as [Hv Hl]. cbn [fst snd]. pose proof (skip_ws_length s3).
  destruct (skip_ws s3) as [|c s4]; [by apply app_not_nil|]. cbn [length] in *.
  destruct (c =? 44)%N.
  { assert (Forall (λ kv, bounded room kv.2) ((k, v) :: acc)) as Hacc' by by constructor.
    specialize (IH ((k, v) :: acc) s4 ltac:(lia) Hacc').
    destruct (fields_loop _ _ _ _) as [[j rest]|m]; [|done]. destruct IH. split; [done|lia]. }
  destruct (c =? 125)%N; [|by apply app_not_nil]. split; [|lia].
  cbn [json_depth]. apply le_n_S, list_max_le, Forall_map.
  change (rev acc ++ [(k, v)]) with (rev ((k, v) :: acc)). rewrite Forall_forall in *.
  intros [k' v'] Hj. apply in_rev in Hj as [[= <- <-]|Hj]; [done|]. by apply (Hacc (k', v')).
Qed.

Lemma parse_array_body_progress (s : str) :
  progress (bounded (S room)) s (parse_array_body parse s).
Proof.
  unfold parse_array_body. pose proof (expect_progress 91 s) as He.
  destruct (expect 91 s) as [[u s1]|m]; [|done]. destruct He as [_ He]. cbn [fst snd].
  pose proof (skip_ws_length s1). destruct (starts_with _ _).
  - split; [simpl; lia|]. destruct (skip_ws s1); simpl in *; lia.
  - pose proof (items_loop_progress (S (length (skip_ws s1))) [] (skip_ws s1) ltac:(lia) (Forall_nil_2 _)) as H'.
    destruct (items_loop _ _ _ _) as [[j rest]|m]; [|done]. destruct H'. split; [done|lia].
Qed.

Lemma parse_object_body_progress (s : str) :
  progress (bounded (S room)) s (parse_object_body parse s).
Proof.
  unfold parse_object_body. pose proof (expect_progress 123 s) as He.
  destruct (expect 123 s) as [[u s1]|m]; [|done]. destruct He as [_ He]. cbn [fst snd].
  pose proof (skip_ws_length s1). destruct (starts_with _ _).
  - split; [simpl; lia|]. destruct (skip_ws s1); simpl in *; lia.
  - pose proof (fields_loop_progress (S (length (skip_ws s1))) [] (skip_ws s1) ltac:(lia) (Forall_nil_2 _)) as H'.
    destruct (fields_loop _ _ _ _) as [[j rest]|m]; [|done]. destruct H'. split; [done|lia].
Qed.
End bodies_progress.

Lemma parse_value_progress (keep : bool) (room : nat) (s : str) :
  progress (bounded room) s (parse_value keep room s).
Proof.
  revert s. induction room as [|room IH]; intros s; apply progress_skip; cbn [parse_value];
    (destruct (skip_ws s) as [|c s1] eqn:Es; [by apply app_not_nil|]);
    (destruct (c =? 123)%N; [first [done|by apply parse_object_body_progress]|]);
    (destruct (c =? 91)%N; [first [done|by apply parse_array_body_progress]|]).
  all: destruct (c =? 34)%N;
    [pose proof (parse_string_progress (c :: s1)) as H;
     destruct (parse_string (c :: s1)) as [[t rest]|m]; [|done]; destruct H;
     split; [cbn; lia|done]|].
  all: destruct ((c =? 116) || (c =? 102))%N;
    [unfold parse_bool, consume_literal;
     destruct (strip_prefix _ "true") eqn:E;
       [split; [cbn; lia|by eapply strip_prefix_length]|];
     destruct (strip_prefix _ "false") eqn:E';
       [split; [cbn; lia|by eapply strip_prefix_length]|done]|].
  all: destruct (c =? 110)%N;
    [unfold parse_null, consume_literal; destruct (strip_prefix _ "null") eqn:E;
     [split; [cbn; lia|by eapply strip_prefix_length]|done]|].
  all: destruct ((c =? 45)%N || is_digit c) eqn:E; [|by apply app_not_nil].
  all: pose proof (number_literal_length c s1 E) as Hl; unfold parse_number;
    destruct (number_literal (c :: s1)) as [lit rest];
    destruct (parse_f64 lit); [|by apply app_not_nil];
    destruct (negb _ && negb _); [by apply app_not_nil|split; [cbn; lia|done]].
Qed.
End json_facts.

(** ** Properties *)

(** C38: writing and parsing round trip.  Every document made of texts (any
    characters, keys included), integers of any magnitude, booleans and nulls,
    nested at most 128 deep, is read back from its JSON text as it was. *)
Theorem json_roundtrip `{U : UnicodeTables} (j : Json) :
  wire j → (json_depth j ≤ MAX_DEPTH)%nat → parse (to_json_string j) = Ok j.
Proof.
  intros Hj Hd. unfold parse, parse_with, to_json_string.
  pose proof (parse_value_write j MAX_DEPTH Hj Hd [] eq_refl) as H.
  rewrite app_nil_r in H. by rewrite H.
Qed.

Definition document_example : Json :=
  JObject [("id", JStr ("a" ++ dquote ++ [10; 1; 128169]%N));
           ("n", integer_json (-9223372036854775809)); ("z", JArray [JNull; JBool false; integer_json 12])].

Lemma json_roundtrip_witness :
  @parse ascii_tables (to_json_string document_example) = Ok document_example.
Proof.
  apply (@json_roundtrip ascii_tables document_example).
  - repeat constructor.
  - apply Nat.leb_le. vm_compute. reflexivity.
Defined.

(** Parsing any text whatever ends, in a value nested at most 128 deep or
    in an error that says why: the loops over characters, items and fields
    never run out of the turns the input's length allows them. *)
Theorem parse_bounded `{U : UnicodeTables} (input : str) (keep : bool) :
  match parse_with input keep with
  | Ok j => (json_depth j ≤ MAX_DEPTH)%nat
  | Err m => m ≠ []
  end.
Proof.
  unfold parse_with. pose proof (parse_value_progress keep MAX_DEPTH input) as H.
  destruct (parse_value _ _ _) as [[j rest]|m]; [|done]. by destruct H.
Qed.

(** What [parse] does not read.  Text after a complete value is accepted
    and ignored, and a character written as a surrogate pair, as JSON writes
    those past U+FFFF, is read as two replacement characters. *)
Theorem parse_leniency `{U : UnicodeTables} :
  parse "{} trailing" = Ok (JObject []) ∧
  parse (dquote ++ backslash ++ "ud83d" ++ backslash ++ "ude00" ++ dquote)
    = Ok (JStr [replacement; replacement]).
Proof. split; vm_compute; reflexivity. Qed.

Lemma assoc_put (k key : str) (v : Json) (fields : list (str * Json)) :
  assoc k (put key v fields) = if bool_decide (k = key) then Some v else assoc k fields.
Proof.
  induction fields as [|[k' v'] fields IH]; cbn [put assoc]; [done|].
  unfold str_eqb. destruct (decide (k' = key)) as [->|Hk].
  - rewrite (bool_decide_true (key = key)) by done. cbn [assoc]. by case_bool_decide.
  - rewrite (bool_decide_false (k' = key)) by done. cbn [assoc]. rewrite IH.
    repeat case_bool_decide; congruence.
Qed.

(** An overlay keeps every argument: a key reads as the patch gives it
    where the patch has it (each key once), and as the base gives it otherwise. *)
Theorem overlay_get (base patch : list (str * Json)) (k : str) :
  NoDup patch.*1 →
  get (overlay (JObject base) (JObject patch)) k =
    match assoc k patch with Some v => Some v | None => assoc k base end.
Proof.
  cbn [overlay get]. revert base.
  induction patch as [|[key v] patch IH]; intros base Hnd; cbn [fold_left assoc]; [done|].
  cbn [fmap list_fmap fst] in Hnd. apply list.NoDup_cons in Hnd as [Hk Hnd].
  rewrite IH, assoc_put by done. case_bool_decide as E; [|done].
  subst k. apply assoc_None in Hk. by rewrite Hk.
Qed.

Lemma overlay_get_witness :
  get (overlay (JObject [("a", JNull); ("b", JBool true)]) (JObject [("b", JBool false); ("c", JNull)])) "b"
  = Some (JBool false).
Proof.
  apply (overlay_get [("a", JNull); ("b", JBool true)] [("b", JBool false); ("c", JNull)] "b").
  refine (bool_decide_unpack _ _). vm_compute. exact I.
Defined.
