(* ===== verification/Vocab.v ===== *)
(** The declared step orders of a dispatch
    ([src/rust/src/kernel/vocab/aggregate_dispatch_order.rs],
    [entity_dispatch_order.rs]), the class of each refusal
    ([refusal_class.rs]) and where the kernel performs each step
    ([dispatch.rs], [StepSite]). *)
From S2P Require Export Refusal.

Inductive AggregateStep :=
| A_DecodeArguments
| A_RefuseUnknownArguments
| A_RefuseAbsentArguments
| A_NormalizeArgs
| A_RefuseRoleMismatch
| A_ResolveReferences
| A_Hydrate
| A_EnforceGivens
| A_AdmissibleTransition
| A_AssignCreationAttributes
| A_ApplyMutations
| A_AdvanceLifecycle
| A_DelegateToEntity
| A_EnforceEnsures
| A_EnforceInvariants
| A_Save
| A_Emit.

#[global] Instance AggregateStep_eq_dec : EqDecision AggregateStep.
Proof. solve_decision. Defined.

(** [AggregateStep::ORDER], first to last. *)
Definition AggregateStep_ORDER : list AggregateStep :=
  [A_DecodeArguments;
   A_RefuseUnknownArguments;
   A_RefuseAbsentArguments;
   A_NormalizeArgs;
   A_RefuseRoleMismatch;
   A_ResolveReferences;
   A_Hydrate;
   A_EnforceGivens;
   A_AdmissibleTransition;
   A_AssignCreationAttributes;
   A_ApplyMutations;
   A_AdvanceLifecycle;
   A_DelegateToEntity;
   A_EnforceEnsures;
   A_EnforceInvariants;
   A_Save;
   A_Emit].

Definition aggregate_step (s : AggregateStep) : str :=
  match s with
  | A_DecodeArguments => "decode_arguments"
  | A_RefuseUnknownArguments => "refuse_unknown_arguments"
  | A_RefuseAbsentArguments => "refuse_absent_arguments"
  | A_NormalizeArgs => "normalize_args"
  | A_RefuseRoleMismatch => "refuse_role_mismatch"
  | A_ResolveReferences => "resolve_references"
  | A_Hydrate => "hydrate"
  | A_EnforceGivens => "enforce_givens"
  | A_AdmissibleTransition => "admissible_transition"
  | A_AssignCreationAttributes => "assign_creation_attributes"
  | A_ApplyMutations => "apply_mutations"
  | A_AdvanceLifecycle => "advance_lifecycle"
  | A_DelegateToEntity => "delegate_to_entity"
  | A_EnforceEnsures => "enforce_ensures"
  | A_EnforceInvariants => "enforce_invariants"
  | A_Save => "save"
  | A_Emit => "emit"
  end.

Definition aggregate_from_name (name : str) : option AggregateStep :=
  snd <$> list_find (λ row, aggregate_step row = name) AggregateStep_ORDER.

(** [position]: the step's index, as the vocabulary declares it. *)
Definition aggregate_declared_position (s : AggregateStep) : nat :=
  match s with
  | A_DecodeArguments => 0
  | A_RefuseUnknownArguments => 1
  | A_RefuseAbsentArguments => 2
  | A_NormalizeArgs => 3
  | A_RefuseRoleMismatch => 4
  | A_ResolveReferences => 5
  | A_Hydrate => 6
  | A_EnforceGivens => 7
  | A_AdmissibleTransition => 8
  | A_AssignCreationAttributes => 9
  | A_ApplyMutations => 10
  | A_AdvanceLifecycle => 11
  | A_DelegateToEntity => 12
  | A_EnforceEnsures => 13
  | A_EnforceInvariants => 14
  | A_Save => 15
  | A_Emit => 16
  end.

Inductive EntityStep :=
| E_DecodeArguments
| E_RefuseUnknownArguments
| E_RefuseAbsentArguments
| E_NormalizeArgs
| E_RefuseRoleMismatch
| E_ResolveReferences
| E_HydrateParent
| E_LocateElement
| E_EnforceGivens
| E_AdmissibleTransition
| E_ApplyMutations
| E_AdvanceLifecycle
| E_EnforceEnsures
| E_EnforceInvariants
| E_Save
| E_Emit.

#[global] Instance EntityStep_eq_dec : EqDecision EntityStep.
Proof. solve_decision. Defined.

(** [EntityStep::ORDER], first to last. *)
Definition EntityStep_ORDER : list EntityStep :=
  [E_DecodeArguments;
   E_RefuseUnknownArguments;
   E_RefuseAbsentArguments;
   E_NormalizeArgs;
   E_RefuseRoleMismatch;
   E_ResolveReferences;
   E_HydrateParent;
   E_LocateElement;
   E_EnforceGivens;
   E_AdmissibleTransition;
   E_ApplyMutations;
   E_AdvanceLifecycle;
   E_EnforceEnsures;
   E_EnforceInvariants;
   E_Save;
   E_Emit].

Definition entity_step (s : EntityStep) : str :=
  match s with
  | E_DecodeArguments => "decode_arguments"
  | E_RefuseUnknownArguments => "refuse_unknown_arguments"
  | E_RefuseAbsentArguments => "refuse_absent_arguments"
  | E_NormalizeArgs => "normalize_args"
  | E_RefuseRoleMismatch => "refuse_role_mismatch"
  | E_ResolveReferences => "resolve_references"
  | E_HydrateParent => "hydrate_parent"
  | E_LocateElement => "locate_element"
  | E_EnforceGivens => "enforce_givens"
  | E_AdmissibleTransition => "admissible_transition"
  | E_ApplyMutations => "apply_mutations"
  | E_AdvanceLifecycle => "advance_lifecycle"
  | E_EnforceEnsures => "enforce_ensures"
  | E_EnforceInvariants => "enforce_invariants"
  | E_Save => "save"
  | E_Emit => "emit"
  end.

Definition entity_from_name (name : str) : option EntityStep :=
  snd <$> list_find (λ row, entity_step row = name) EntityStep_ORDER.

(** [position]: the step's index, as the vocabulary declares it. *)
Definition entity_declared_position (s : EntityStep) : nat :=
  match s with
  | E_DecodeArguments => 0
  | E_RefuseUnknownArguments => 1
  | E_RefuseAbsentArguments => 2
  | E_NormalizeArgs => 3
  | E_RefuseRoleMismatch => 4
  | E_ResolveReferences => 5
  | E_HydrateParent => 6
  | E_LocateElement => 7
  | E_EnforceGivens => 8
  | E_AdmissibleTransition => 9
  | E_ApplyMutations => 10
  | E_AdvanceLifecycle => 11
  | E_EnforceEnsures => 12
  | E_EnforceInvariants => 13
  | E_Save => 14
  | E_Emit => 15
  end.

(** ** [RefusalClass] *)
Inductive RefusalClass :=
| Class_AbsentArgument
| Class_AlreadyExists
| Class_AttributeAbsent
| Class_EnsuresNotMet
| Class_GivenNotMet
| Class_InvariantViolation
| Class_LifecycleRefused
| Class_NothingToCorrect
| Class_NotFound
| Class_ProjectionAbsent
| Class_RemoteRefusal
| Class_TypeMismatch
| Class_Unauthorized
| Class_UnknownArgument
| Class_UnknownVerb.

Definition RefusalClass_ALL : list RefusalClass :=
  [Class_AbsentArgument;
   Class_AlreadyExists;
   Class_AttributeAbsent;
   Class_EnsuresNotMet;
   Class_GivenNotMet;
   Class_InvariantViolation;
   Class_LifecycleRefused;
   Class_NothingToCorrect;
   Class_NotFound;
   Class_ProjectionAbsent;
   Class_RemoteRefusal;
   Class_TypeMismatch;
   Class_Unauthorized;
   Class_UnknownArgument;
   Class_UnknownVerb].

Definition class_name (c : RefusalClass) : str :=
  match c with
  | Class_AbsentArgument => "AbsentArgument"
  | Class_AlreadyExists => "AlreadyExists"
  | Class_AttributeAbsent => "AttributeAbsent"
  | Class_EnsuresNotMet => "EnsuresNotMet"
  | Class_GivenNotMet => "GivenNotMet"
  | Class_InvariantViolation => "InvariantViolation"
  | Class_LifecycleRefused => "LifecycleRefused"
  | Class_NothingToCorrect => "NothingToCorrect"
  | Class_NotFound => "NotFound"
  | Class_ProjectionAbsent => "ProjectionAbsent"
  | Class_RemoteRefusal => "RemoteRefusal"
  | Class_TypeMismatch => "TypeMismatch"
  | Class_Unauthorized => "Unauthorized"
  | Class_UnknownArgument => "UnknownArgument"
  | Class_UnknownVerb => "UnknownVerb"
  end.

Definition class_kind (c : RefusalClass) : str :=
  match c with
  | Class_AbsentArgument => "absent_argument"
  | Class_AlreadyExists => "refused"
  | Class_AttributeAbsent => "refused"
  | Class_EnsuresNotMet => "refused"
  | Class_GivenNotMet => "refused"
  | Class_InvariantViolation => "refused"
  | Class_LifecycleRefused => "refused"
  | Class_NothingToCorrect => "refused"
  | Class_NotFound => "not_found"
  | Class_ProjectionAbsent => "refused"
  | Class_RemoteRefusal => "refused"
  | Class_TypeMismatch => "refused"
  | Class_Unauthorized => "unauthorized"
  | Class_UnknownArgument => "refused"
  | Class_UnknownVerb => "refused"
  end.

Definition class_stage (c : RefusalClass) : str :=
  match c with
  | Class_AbsentArgument => "arguments"
  | Class_AlreadyExists => "state"
  | Class_AttributeAbsent => "state"
  | Class_EnsuresNotMet => "ensures"
  | Class_GivenNotMet => "givens"
  | Class_InvariantViolation => "invariants"
  | Class_LifecycleRefused => "state"
  | Class_NothingToCorrect => "state"
  | Class_NotFound => "state"
  | Class_ProjectionAbsent => "state"
  | Class_RemoteRefusal => "remote"
  | Class_TypeMismatch => "arguments"
  | Class_Unauthorized => "role"
  | Class_UnknownArgument => "arguments"
  | Class_UnknownVerb => "request"
  end.

Definition class_from_name (name : str) : option RefusalClass :=
  snd <$> list_find (λ row, class_name row = name) RefusalClass_ALL.
(** ** [StepSite]: where a declared step is performed *)
Inductive StepSite (S : Type) :=
| Kernel
| ArgumentGateSite
| FoldedInto (step : S).
Arguments Kernel {S}. Arguments ArgumentGateSite {S}. Arguments FoldedInto {S}.

Definition aggregate_step_site (s : AggregateStep) : StepSite AggregateStep :=
  match s with
  | A_DecodeArguments | A_RefuseUnknownArguments | A_RefuseAbsentArguments | A_NormalizeArgs
  | A_RefuseRoleMismatch | A_ResolveReferences => ArgumentGateSite
  | A_AssignCreationAttributes => FoldedInto A_Hydrate
  | A_AdvanceLifecycle | A_DelegateToEntity => FoldedInto A_ApplyMutations
  | A_Hydrate | A_EnforceGivens | A_AdmissibleTransition | A_ApplyMutations | A_EnforceEnsures
  | A_EnforceInvariants | A_Save | A_Emit => Kernel
  end.

Definition entity_step_site (s : EntityStep) : StepSite EntityStep :=
  match s with
  | E_DecodeArguments | E_RefuseUnknownArguments | E_RefuseAbsentArguments | E_NormalizeArgs
  | E_RefuseRoleMismatch | E_ResolveReferences => ArgumentGateSite
  | E_AdvanceLifecycle => FoldedInto E_ApplyMutations
  | E_HydrateParent | E_LocateElement | E_EnforceGivens | E_AdmissibleTransition
  | E_ApplyMutations | E_EnforceEnsures | E_EnforceInvariants | E_Save | E_Emit => Kernel
  end.

(** [aggregate_position] and [entity_position]: the index in the order, where
    a missing step fails the build. *)
Definition aggregate_position (s : AggregateStep) : nat :=
  default 0 (find_index (λ s', bool_decide (s' = s)) AggregateStep_ORDER).
Definition entity_position (s : EntityStep) : nat :=
  default 0 (find_index (λ s', bool_decide (s' = s)) EntityStep_ORDER).

(** ** Properties *)

(** The declared orders are what the dispatch loops rely on: every step
    once, at its declared index and under its own name, a step folded into
    another comes after it, and a step is read only after the one that
    produces what it reads (the assertions the source makes at compile time). *)
Theorem declared_orders :
  (NoDup AggregateStep_ORDER ∧ NoDup EntityStep_ORDER) ∧
  (∀ s, aggregate_position s = aggregate_declared_position s ∧
        AggregateStep_ORDER !! aggregate_position s = Some s ∧
        aggregate_from_name (aggregate_step s) = Some s ∧
        (∀ s', aggregate_step_site s = FoldedInto s' → aggregate_position s' < aggregate_position s) ∧
        (aggregate_step_site s = ArgumentGateSite → aggregate_position s < aggregate_position A_Hydrate)) ∧
  (∀ s, entity_position s = entity_declared_position s ∧
        EntityStep_ORDER !! entity_position s = Some s ∧
        entity_from_name (entity_step s) = Some s ∧
        (∀ s', entity_step_site s = FoldedInto s' → entity_position s' < entity_position s) ∧
        (entity_step_site s = ArgumentGateSite → entity_position s < entity_position E_HydrateParent)) ∧
  Forall (λ s, aggregate_position A_Hydrate < aggregate_position s)
    [A_EnforceGivens; A_AdmissibleTransition; A_ApplyMutations; A_EnforceEnsures;
     A_EnforceInvariants; A_Save; A_Emit] ∧
  aggregate_position A_ApplyMutations < aggregate_position A_EnforceEnsures ∧
  aggregate_position A_NormalizeArgs < aggregate_position A_ResolveReferences ∧
  Forall (λ s, entity_position E_HydrateParent < entity_position s)
    [E_LocateElement; E_EnforceInvariants; E_Save] ∧
  Forall (λ s, entity_position E_LocateElement < entity_position s)
    [E_EnforceGivens; E_AdmissibleTransition; E_ApplyMutations] ∧
  Forall (λ s, entity_position s < entity_position E_ApplyMutations)
    [E_EnforceGivens; E_AdmissibleTransition] ∧
  entity_position E_ApplyMutations < entity_position E_EnforceEnsures ∧
  entity_position E_NormalizeArgs < entity_position E_ResolveReferences.
Proof.
  split_and!; try (refine (bool_decide_unpack _ _); vm_compute; exact I).
  - intros s. split_and!; destruct s; try (vm_compute; reflexivity);
      try (intros ? [= <-]); try discriminate; vm_compute; lia.
  - intros s. split_and!; destruct s; try (vm_compute; reflexivity);
      try (intros ? [= <-]); try discriminate; vm_compute; lia.
Qed.
