(* ===== verification/Collecting.v ===== *)
(** State with refusals: a step reads and writes a state and answers a value
    or a refusal, and what it wrote before refusing stays written, as with the
    source's [&mut] arguments and [?]; and the collector that gathers refusals where a dry run
    asks for all of a stage's ([src/rust/src/kernel/collecting.rs]). *)
From S2P Require Export Refusal.

Definition M (S A : Type) : Type := S → res A * S.

Section monad.
Context {S : Type}.

Definition ret {A} (a : A) : M S A := λ s, (Ok a, s).
Definition raise {A} (e : Refusal) : M S A := λ s, (Err e, s).
Definition bind {A B} (m : M S A) (k : A → M S B) : M S B :=
  λ s, match m s with (Ok a, s') => k a s' | (Err e, s') => (Err e, s') end.
Definition lift {A} (r : res A) : M S A := λ s, (r, s).
Definition read {A} (f : S → A) : M S A := λ s, (Ok (f s), s).
Definition modify (f : S → S) : M S unit := λ s, (Ok tt, f s).

(** A loop that stops at the first refusal. *)
Definition for_each {A} (l : list A) (body : A → M S unit) : M S unit :=
  (fix go (l : list A) : M S unit :=
    match l with
    | [] => ret tt
    | a :: l' => bind (body a) (λ _, go l')
    end) l.

(** A loop that carries a value. *)
Fixpoint fold_steps {A B} (step : A → B → M S B) (l : list A) (b : B) : M S B :=
  match l with
  | [] => ret b
  | a :: l' => bind (step a b) (fold_steps step l')
  end.
End monad.

(** A step on a part of the state. *)
Definition zoom {S T A} (get : S → T) (set : T → S → S) (m : M T A) : M S A :=
  λ s, let (r, t) := m (get s) in (r, set t s).

Declare Scope monad_scope.
Delimit Scope monad_scope with monad.
Notation "'let!' x ':=' c 'in' k" := (bind c (λ x, k))
  (at level 10, x name, c at level 100, k at level 200,
   format "'let!'  x  ':='  c  'in' '//' k") : monad_scope.
Notation "c ';;!' k" := (bind c (λ _, k))
  (at level 100, k at level 200, right associativity, format "c  ';;!' '//' k") : monad_scope.
Open Scope monad_scope.

(** ** Lemmas *)
Section monad_facts.
Context {S : Type}.

Lemma bind_ok {A B} (m : M S A) (k : A → M S B) (s s' : S) (a : A) :
  m s = (Ok a, s') → bind m k s = k a s'.
Proof. unfold bind. by intros ->. Qed.

Lemma bind_err {A B} (m : M S A) (k : A → M S B) (s s' : S) (e : Refusal) :
  m s = (Err e, s') → bind m k s = (Err e, s').
Proof. unfold bind. by intros ->. Qed.

Lemma bind_inv {A B} (m : M S A) (k : A → M S B) (s s' : S) (r : res B) :
  bind m k s = (r, s') →
  (∃ e, m s = (Err e, s') ∧ r = Err e) ∨ (∃ a s1, m s = (Ok a, s1) ∧ k a s1 = (r, s')).
Proof.
  unfold bind. destruct (m s) as [[a|e] s1]; [eauto 6|]. intros [= <- <-]. eauto.
Qed.

Lemma fold_steps_app {A B} (step : A → B → M S B) (l l' : list A) (b : B) (s : S) :
  fold_steps step (l ++ l') b s = bind (fold_steps step l b) (fold_steps step l') s.
Proof.
  revert b s. induction l as [|a l IH]; intros b s; [done|]. cbn [fold_steps app].
  unfold bind at 1 3. destruct (step a b s) as [[b'|e] s'] eqn:E.
  - rewrite IH. unfold bind. by rewrite E.
  - unfold bind. by rewrite E.
Qed.

(** A relation between the state before and after that each step keeps. *)
Definition keeps {A} (R : S → S → Prop) (m : M S A) : Prop := ∀ s, R s (m s).2.

Lemma keeps_ret {A} (R : S → S → Prop) `{!Reflexive R} (a : A) : keeps R (ret a).
Proof. intros s. reflexivity. Qed.
Lemma keeps_lift {A} (R : S → S → Prop) `{!Reflexive R} (r : res A) : keeps R (lift r).
Proof. intros s. reflexivity. Qed.
Lemma keeps_bind {A B} (R : S → S → Prop) `{!Transitive R} (m : M S A) (k : A → M S B) :
  keeps R m → (∀ a, keeps R (k a)) → keeps R (bind m k).
Proof.
  intros Hm Hk s. unfold bind. specialize (Hm s). destruct (m s) as [[a|e] s1]; [|done].
  etransitivity; [exact Hm|apply Hk].
Qed.
Lemma keeps_for_each {A} (R : S → S → Prop) `{!PreOrder R} (l : list A) (body : A → M S unit) :
  (∀ a, keeps R (body a)) → keeps R (for_each l body).
Proof.
  intros H. induction l as [|a l IH]; simpl; [by apply keeps_ret; apply _|].
  apply keeps_bind; [apply _|done|done].
Qed.
End monad_facts.
#[export] Hint Resolve keeps_ret keeps_lift keeps_bind keeps_for_each : hecks.

(** Collecting refusals for a dry run ([src/rust/src/kernel/collecting.rs]).
    The thread-local slot is the state: [None] for a real dispatch, where
    [refuse] raises at once, [Some kept] for a dry run, where it is kept and
    the stage goes on until [settle]. *)

Record Detail := { attribute : option str; path : option str; rule : option str }.
Definition no_detail : Detail := {| attribute := None; path := None; rule := None |}.
Definition attribute_detail (name : str) : Detail :=
  {| attribute := Some name; path := Some ("/" ++ name); rule := None |}.
Definition rule_detail (description : str) : Detail :=
  {| attribute := None; path := None; rule := Some description |}.

Record Collected := { refusal : Refusal; detail : Detail }.

(** [COLLECTED]. *)
Abbreviation collector := (option (list Collected)).

(** Binds a collector, runs, and takes what was collected. *)
Definition collecting {A} (body : collector → A * collector) (c : collector)
  : (A * list Collected) * collector :=
  let (result, c') := body (Some []) in ((result, default [] c'), None).

Definition refuse_with (r : Refusal) (d : Detail) : M collector unit :=
  λ c, match c with
       | Some kept => (Ok tt, Some (kept ++ [{| refusal := r; detail := d |}]))
       | None => (Err r, None)
       end.
Definition refuse (r : Refusal) : M collector unit := refuse_with r no_detail.

(** [refuse_each]: one refusal naming them all, or one per name when collecting. *)
Definition refuse_each (names : list str) (make : list str → Refusal) : M collector unit :=
  λ c, match c with
       | None => (Err (make names), c)
       | Some _ => for_each names (λ name, refuse_with (make [name]) (attribute_detail name)) c
       end.

Definition mark : M collector nat :=
  read (λ c, match c with Some kept => length kept | None => 0 end).

(** [settle]: the first refusal collected since the mark. *)
Definition settle (m : nat) : M collector unit :=
  λ c, match c ≫= (λ kept, kept !! m) with
       | Some kept => (Err (refusal kept), c)
       | None => (Ok tt, c)
       end.

(** A stage: its rules, between a mark and the settling of it. *)
Definition stage {A} (body : M collector A) : M collector unit :=
  let! m := mark in body ;;! settle m.

(** ** Lemmas *)
Lemma refuse_real (r : Refusal) (d : Detail) : refuse_with r d None = (Err r, None).
Proof. done. Qed.
Lemma settle_real (m : nat) : settle m None = (Ok tt, None).
Proof. done. Qed.

(** A collector only grows, and stays bound or unbound. *)
Definition grows (c c' : collector) : Prop :=
  match c, c' with
  | None, None => True
  | Some l, Some l' => ∃ more, l' = l ++ more
  | _, _ => False
  end.
#[global] Instance grows_preorder : PreOrder grows.
Proof.
  split.
  - intros [l|]; simpl; [|done]. exists []. by rewrite app_nil_r.
  - intros [l1|] [l2|] [l3|]; simpl; try done. intros [m1 ->] [m2 ->].
    exists (m1 ++ m2). by rewrite app_assoc.
Qed.

Lemma refuse_grows (r : Refusal) (d : Detail) : keeps grows (refuse_with r d).
Proof. intros [l|]; simpl; eauto. Qed.
Lemma settle_grows (m : nat) : keeps grows (settle m).
Proof. intros c. unfold settle. case_match; simpl; reflexivity. Qed.
Lemma mark_grows : keeps grows mark.
Proof. intros c. simpl. reflexivity. Qed.
#[export] Hint Resolve refuse_grows settle_grows mark_grows : hecks.
