(* ===== verification/Repository.v ===== *)
(** Record storage ([src/rust/src/kernel/repository.rs]): the interface a
    dispatch is written against, with the map it promises to be, and the
    in-memory implementation, a [BTreeMap] of slots each with a cached JSON
    rendering.  A [BTreeMap] is the list of its entries in strictly increasing
    key order. *)
From stdpp Require Import gmap.
From S2P Require Export Json.

(** ** [std::collections::BTreeMap<String, _>] *)
Fixpoint bt_insert {A} (k : str) (v : A) (m : list (str * A)) : list (str * A) :=
  match m with
  | [] => [(k, v)]
  | (k', v') :: rest =>
    match str_compare k k' with
    | Lt => (k, v) :: m
    | Eq => (k, v) :: rest
    | Gt => (k', v') :: bt_insert k v rest
    end
  end.
Definition bt_sorted {A} (m : list (str * A)) : Prop := StronglySorted str_lt m.*1.

(** ** The interface *)
Class Repository (R T : Type) := {
  find : R → str → option T;
  save : R → str → T → R;
  all : R → list T;
  count : R → nat
}.

(** What a store promises: it is a finite map of records by identifier. *)
Class RepositoryLaws (R T : Type) `{Repository R T} := {
  valid : R → Prop;
  contents : R → gmap str T;
  find_contents r id : valid r → find r id = contents r !! id;
  save_contents r id t : valid r → contents (save r id t) = <[id := t]> (contents r);
  save_valid r id t : valid r → valid (save r id t);
  all_contents r : valid r → all r ≡ₚ (map_to_list (contents r)).*2;
  count_contents r : valid r → count r = size (contents r)
}.

(** ** [InMemoryRepository] *)
Record Slot (T : Type) := { record : T; json : option Json }.
Arguments record {T}. Arguments json {T}.
Definition InMemoryRepository (T : Type) : Type := list (str * Slot T).

Section in_memory.
Context {T : Type}.

Definition new : InMemoryRepository T := [].
Definition entries (r : InMemoryRepository T) : list (str * T) := map (λ '(id, s), (id, record s)) r.

#[local] Arguments entries : simpl never.

(** [get_or_init] on a slot's cell. *)
Definition render_slot (to_json : T → Json) (s : Slot T) : Json * Slot T :=
  match json s with
  | Some j => (j, s)
  | None => let j := to_json (record s) in (j, {| record := record s; json := Some j |})
  end.

(** [json_entries], walked to its end: the renderings, and the store with its
    cells filled. *)
Definition json_entries (to_json : T → Json) (r : InMemoryRepository T)
  : list (str * Json) * InMemoryRepository T :=
  (map (λ '(id, s), (id, (render_slot to_json s).1)) r,
   map (λ '(id, s), (id, (render_slot to_json s).2)) r).

#[global] Instance in_memory_repository : Repository (InMemoryRepository T) T := {|
  find r id := record <$> assoc id r;
  save r id t := bt_insert id {| record := t; json := None |} r;
  all r := map (λ '(_, s), record s) r;
  count r := length r
|}.
End in_memory.

(** [check_reference]: a named record must exist; an empty name is no check. *)
Definition check_reference `{U : UnicodeTables} {R T : Type} `{Repository R T}
    (repo : R) (value target heads : str) : res unit :=
  let found := match find repo value with Some _ => true | None => false end in
  if bool_decide (value = []) || found then Ok tt
  else Err (NotFound (render_args (NotFoundReferenceTargetMissingArgs target heads value))).

(** [AggregateScan]: [scan], and [scan_each] as the rows it visits, in order. *)
Class AggregateScan (St : Type) := { scan : St → str → option (list (str * Json)) }.
Definition scan_each `{AggregateScan St} (st : St) (aggregate : str) : option (list (str * Json)) :=
  scan st aggregate.

(** [row_json]: the field [id] put first. *)
Definition row_json (id : str) (record : Json) : Json :=
  match record with JObject fields => JObject (("id", JStr id) :: fields) | _ => record end.

(** ** Lemmas *)
Lemma bt_insert_assoc {A} (k k' : str) (v : A) (m : list (str * A)) :
  assoc k' (bt_insert k v m) = if bool_decide (k' = k) then Some v else assoc k' m.
Proof.
  induction m as [|[k1 v1] m IH]; cbn [bt_insert assoc]; [by case_bool_decide|].
  destruct (str_compare k k1) eqn:E; cbn [assoc]; try done.
  - apply str_compare_eq in E as ->. by case_bool_decide.
  - rewrite IH. repeat case_bool_decide; try done. subst.
    by rewrite str_compare_refl in E.
Qed.

Lemma bt_insert_keys {A} (k : str) (v : A) (m : list (str * A)) (k' : str) :
  k' ∈ (bt_insert k v m).*1 → k' = k ∨ k' ∈ m.*1.
Proof.
  induction m as [|[k1 v1] m IH]; cbn [bt_insert]; [by intros ?%list_elem_of_singleton; left|].
  destruct (str_compare k k1); cbn; rewrite !elem_of_cons; naive_solver.
Qed.

Lemma bt_insert_sorted {A} (k : str) (v : A) (m : list (str * A)) :
  bt_sorted m → bt_sorted (bt_insert k v m).
Proof.
  unfold bt_sorted. induction m as [|[k1 v1] m IH]; cbn [bt_insert fmap list_fmap fst].
  { intros _. by repeat constructor. }
  intros Hs. inversion Hs as [|? ? Hs' Hk]; subst.
  destruct (str_compare k k1) eqn:E; cbn.
  - apply str_compare_eq in E as ->. done.
  - constructor; [done|]. constructor; [done|]. eapply Forall_impl; [|exact Hk].
    intros x Hx. by transitivity k1.
  - constructor; [by apply IH|]. apply Forall_forall. intros x Hx%list_elem_of_In.
    apply bt_insert_keys in Hx as [->|Hx].
    + by apply str_compare_gt.
    + rewrite Forall_forall in Hk. by apply Hk, list_elem_of_In.
Qed.

Lemma bt_sorted_NoDup {A} (m : list (str * A)) : bt_sorted m → NoDup m.*1.
Proof.
  unfold bt_sorted. generalize m.*1 as l. intros l. induction 1 as [|k l _ IH Hk]; constructor; [|done].
  intros Hin. rewrite Forall_forall in Hk. apply list_elem_of_In, Hk in Hin.
  by apply irreflexivity in Hin; [|apply _].
Qed.

Lemma assoc_list_to_map {A} (m : list (str * A)) (k : str) :
  (list_to_map m : gmap str A) !! k = assoc k m.
Proof.
  induction m as [|[k' v] m IH]; cbn [list_to_map foldr assoc fst snd]; [done|].
  case_bool_decide as E; [by subst; rewrite lookup_insert_eq|].
  by rewrite lookup_insert_ne.
Qed.

Section in_memory_laws.
Context {T : Type}.
#[local] Arguments entries : simpl never.

(** Every cached rendering is its record's. *)
Definition coherent (to_json : T → Json) (r : InMemoryRepository T) : Prop :=
  Forall (λ '(_, s), ∀ j, json s = Some j → j = to_json (record s)) r.

Lemma entries_keys (r : InMemoryRepository T) : (entries r).*1 = r.*1.
Proof. unfold entries. rewrite <- list_fmap_compose. by apply list_fmap_ext; intros ? [] ?. Qed.

Lemma entries_cons (k : str) (s : Slot T) (r : InMemoryRepository T) :
  entries ((k, s) :: r) = (k, record s) :: entries r.
Proof. done. Qed.

Lemma assoc_entries (r : InMemoryRepository T) (id : str) : assoc id (entries r) = record <$> assoc id r.
Proof.
  induction r as [|[k s] r IH]; [done|]. rewrite entries_cons. cbn [assoc].
  by case_bool_decide.
Qed.

Lemma entries_insert (r : InMemoryRepository T) (id : str) (t : T) :
  entries (bt_insert id {| record := t; json := None |} r) = bt_insert id t (entries r).
Proof.
  induction r as [|[k s] r IH]; [done|]. rewrite entries_cons. cbn [bt_insert].
  destruct (str_compare id k); rewrite ?entries_cons; try done. by rewrite IH.
Qed.

#[global] Program Instance in_memory_laws : RepositoryLaws (InMemoryRepository T) T := {|
  valid r := bt_sorted r;
  contents r := list_to_map (entries r)
|}.
Next Obligation. intros r id _. cbn. by rewrite assoc_list_to_map, assoc_entries. Qed.
Next Obligation.
  intros r id t _. cbn. rewrite entries_insert. apply map_eq. intros k.
  rewrite assoc_list_to_map, bt_insert_assoc. case_bool_decide as E.
  - subst. by rewrite lookup_insert_eq.
  - by rewrite lookup_insert_ne, assoc_list_to_map by done.
Qed.
Next Obligation. intros r id t Hr. by apply bt_insert_sorted. Qed.
Next Obligation.
  intros r Hr. cbn. rewrite map_to_list_to_map by (rewrite entries_keys; by apply bt_sorted_NoDup).
  unfold entries. rewrite <- list_fmap_compose.
  by erewrite list_fmap_ext; [|intros ? [] ?].
Qed.
Next Obligation.
  intros r Hr. cbn. rewrite <- length_map_to_list, map_to_list_to_map
    by (rewrite entries_keys; by apply bt_sorted_NoDup).
  unfold entries. by rewrite length_map.
Qed.
End in_memory_laws.

(** ** Properties *)

(** The in-memory store is a finite map, answered in identifier order
    whatever the order of the saves: a save is seen by every later find of its
    identifier and by no other, records and renderings are listed in strictly
    increasing identifier order, and each cached rendering is its own record's,
    however saves and scans interleave. *)
Theorem in_memory_refines_map {T} (to_json : T → Json) (r : InMemoryRepository T) (id : str) (t : T) :
  valid r → coherent to_json r →
  (∀ id', find (save r id t) id' = (<[id := t]> (contents r)) !! id') ∧
  (valid (save r id t) ∧ coherent to_json (save r id t)) ∧
  (let (rows, r') := json_entries to_json r in
   rows = map (λ '(i, x), (i, to_json x)) (entries r) ∧ StronglySorted str_lt rows.*1 ∧
   entries r' = entries r ∧ valid r' ∧ coherent to_json r').
Proof.
  intros Hv Hc. split_and!.
  - intros id'. by rewrite find_contents, save_contents by (done || by apply save_valid).
  - by apply save_valid.
  - cbn. clear Hv. induction Hc as [|[k s] r Hs Hc IH]; cbn [bt_insert].
    { by repeat constructor. }
    destruct (str_compare id k); [constructor; [done|done]|constructor; [done|by constructor]|by constructor].
  - assert (∀ r, Forall (λ '(_, s), ∀ j, json s = Some j → j = to_json (record s)) r →
      map (λ '(i, s), (i, (render_slot to_json s).1)) r = map (λ '(i, x), (i, to_json x)) (entries r)) as Hr.
    { clear. induction 1 as [|[k s] r Hs _ IH]; cbn; [done|]. rewrite IH. f_equal. f_equal.
      unfold render_slot. destruct (json s) eqn:E; [by apply Hs|done]. }
    assert (∀ s : Slot T, record (render_slot to_json s).2 = record s) as Hrec.
    { intros s. unfold render_slot. by destruct (json s). }
    cbn. assert ((map (λ '(i, s), (i, (render_slot to_json s).1)) r).*1 = r.*1) as Hk1.
    { rewrite <- list_fmap_compose. by apply list_fmap_ext; intros ? [] ?. }
    assert ((map (λ '(i, s), (i, (render_slot to_json s).2)) r).*1 = r.*1) as Hk2.
    { rewrite <- list_fmap_compose. by apply list_fmap_ext; intros ? [] ?. }
    split_and!; [by apply Hr|by rewrite Hk1| |unfold bt_sorted; by rewrite Hk2|].
    + unfold entries. rewrite map_map. apply map_ext. intros [i s]. by rewrite Hrec.
    + apply Forall_map. eapply Forall_impl; [|exact Hc]. intros [k s] Hs j. simpl in *.
      unfold render_slot. destruct (json s) eqn:E; cbn; [rewrite E; auto|congruence].
Qed.

Lemma in_memory_refines_map_witness :
  find (save (save new "b" 2%nat) "a" 1%nat : InMemoryRepository nat) "b" = Some 2%nat ∧
  valid (save (save new "b" 2%nat) "a" 1%nat : InMemoryRepository nat).
Proof.
  assert (valid (save new "b" 2%nat : InMemoryRepository nat)) as Hv by (cbn; repeat constructor).
  assert (coherent (λ _, JNull) (save new "b" 2%nat)) as Hc by (repeat constructor; done).
  destruct (in_memory_refines_map (λ _, JNull) (save new "b" 2%nat) "a" 1%nat Hv Hc) as (H1 & [H2 _] & _).
  split; [|exact H2]. rewrite H1. vm_compute. reflexivity.
Defined.
