(* ===== verification/Dispatch.v ===== *)
(** Command dispatch ([src/rust/src/kernel/dispatch.rs]): the rules a command
    is held to and the loop over the declared order for an aggregate command.
    The generated closures are arguments of the model: [build] makes a fresh
    record, [apply] changes one or refuses.  The store, the mutation log and
    the refusal collector are the [World]; a refusal leaves in it what was
    written before. *)
From stdpp Require Import gmap.
From S2P Require Export Vocab Collecting Repository.

(** ** The rules of a command *)
Record GivenSpec := { given_description : str; given_expr : Expr; corrects_event : option str }.
Record EnsuresSpec := { ensures_description : str; ensures_expr : Expr }.
Record InvariantSpec := { invariant_description : str; invariant_expr : Expr }.
Inductive EntityInvariants :=
| MkEntityInvariants (entity_inv_name list_field : str) (specs : list InvariantSpec)
                     (nested : list EntityInvariants).
Record InvariantSet := { aggregate_invariants : list InvariantSpec; entity_invariants : list EntityInvariants }.
Record TransitionCheck := { transition_field : str; from_states : list str }.

(** A record as the kernel handles it: what its generated type implements. *)
Class Recorded (T : Type) := {
  fielded : T → Fielded;
  to_json : T → Json;
  set_projected_field : T → str → option Value → T
}.

Record Event := {
  event_name : str; event_aggregate : str; event_id : str; event_payload : Json;
  occurred_at : option str; correlation : option (gmap str str)
}.
Record MutationRecord := {
  mutation_aggregate : str; mutation_id : str; mutation_operation : str; mutation_state : Json
}.

(** How a dispatch obtains its starting record. *)
Inductive Hydrate (T : Type) :=
| Create (id : str) (build : unit → T) (state_independent : bool)
| Act (id : str).
Arguments Create {T}. Arguments Act {T}.

Section rules.
Context `{U : UnicodeTables} `{X : RegexCrate}.

(** One rule: a fault of its expression is raised, a falsy one refused. *)
Definition enforce (e : Expr) (ctx : EvalContext) (r : Refusal) (d : Detail) : M collector unit :=
  let! v := lift (interpret e ctx) in
  if truthy v then ret tt else refuse_with r d.

Definition nested_of (f : Field) : option Fielded := match f with FNested o => Some o | FValue _ => None end.

Fixpoint enforce_entity_invariants (owner : Fielded) (entity : EntityInvariants) : M collector unit :=
  let 'MkEntityInvariants name list_field specs nested := entity in
  match items owner list_field with
  | None => ret tt
  | Some elements =>
    for_each (omap nested_of elements) (λ element,
      for_each specs (λ rule,
        enforce (invariant_expr rule)
          {| args := WithParent NoFields owner; instance := element |}
          (InvariantViolation (name ++ " refused — " ++ invariant_description rule))
          (rule_detail (invariant_description rule))) ;;!
      for_each nested (λ n, enforce_entity_invariants element n))
  end.

Definition enforce_invariants (record : Fielded) (aggregate_name : str) (set : InvariantSet)
  : M collector unit :=
  stage (
    for_each (aggregate_invariants set) (λ rule,
      enforce (invariant_expr rule) {| args := NoFields; instance := record |}
        (InvariantViolation (aggregate_name ++ " refused — " ++ invariant_description rule))
        (rule_detail (invariant_description rule))) ;;!
    for_each (entity_invariants set) (enforce_entity_invariants record)).

Definition nothing_to_correct (command_name event_name aggregate_qualified_name id : str) : Refusal :=
  NothingToCorrect (command_name ++ " refused — corrects " ++ event_name ++ ", but "
    ++ aggregate_qualified_name ++ " #" ++ id ++ " has never emitted it").

Definition given_refusal (command_name aggregate_qualified_name id : str) (given : GivenSpec) : Refusal :=
  match corrects_event given with
  | Some event_name => nothing_to_correct command_name event_name aggregate_qualified_name id
  | None => GivenNotMet (command_name ++ " refused — " ++ given_description given)
  end.

Definition enforce_givens (record args : Fielded) (givens : list GivenSpec)
    (command_name aggregate_qualified_name id : str) : M collector unit :=
  stage (for_each givens (λ given,
    enforce (given_expr given) {| args := args; instance := record |}
      (given_refusal command_name aggregate_qualified_name id given)
      (rule_detail (given_description given)))).

Definition admissible_transition (instance : Fielded) (transition : option TransitionCheck)
    (command_name : str) : res unit :=
  match transition with
  | None => Ok tt
  | Some check =>
    match field instance (transition_field check) with
    | Some (FValue (VStr current)) =>
      if existsb (str_eqb current) (from_states check) then Ok tt
      else Err (LifecycleRefused (render_args (LifecycleRefusedTransitionBlockedArgs
             command_name (transition_field check) (debug_str current) (from_states check))))
    | _ => Err (TypeMismatch (command_name ++ ": lifecycle field " ++ debug_str (transition_field check)
                  ++ " missing or not a string — a codegen bug"))
    end
  end.

(** The settled state first, [old] before the arguments. *)
Definition enforce_ensures (settled old args : Fielded) (ensures : list EnsuresSpec)
    (command_name : str) : M collector unit :=
  stage (for_each ensures (λ rule,
    enforce (ensures_expr rule)
      {| args := WithOld (StateFirst args settled) old; instance := settled |}
      (EnsuresNotMet (command_name ++ " refused — " ++ ensures_description rule))
      (rule_detail (ensures_description rule)))).

(** ** What the declared order guarantees, as the faults that would say it broke *)
Definition HYDRATED : str :=
  "the declared order hydrates before any step that reads the record (const-asserted in this file)".
Definition LOCATED : str :=
  "the declared order locates the element before any step that reads it (const-asserted in this file)".
Definition ONCE : str := "each declared step appears exactly once in its ORDER".
Definition NORMALIZED : str :=
  "the declared order normalizes arguments before resolving references (const-asserted in this file)".
Definition ordered {V} (slot : option V) (because : str) : res V := ok_or slot (Fault because).
End rules.

(** [emitted]: the declared events, in declared order. *)
Definition emitted (emits : list str) (aggregate_qualified_name id : str) (payload : Json) : list Event :=
  map (λ name, {| event_name := name; event_aggregate := aggregate_qualified_name; event_id := id;
                  event_payload := payload; occurred_at := None; correlation := None |}) emits.

(** ** The world a dispatch writes *)
Record World (R : Type) := { repo : R; mutations : list MutationRecord; collected : collector }.
Arguments repo {R}. Arguments mutations {R}. Arguments collected {R}.

Definition on_collector {R A} (m : M collector A) : M (World R) A :=
  zoom collected (λ c w, {| repo := repo w; mutations := mutations w; collected := c |}) m.

(** [persist]: the write and its mutation record. *)
Definition persist {R T} `{Repository R T} `{Recorded T} (id : str) (record : T)
    (aggregate_qualified_name : str) : M (World R) unit :=
  modify (λ w, {|
    repo := save (repo w) id record;
    mutations := mutations w ++ [{| mutation_aggregate := aggregate_qualified_name; mutation_id := id;
                                    mutation_operation := "save"; mutation_state := to_json record |}];
    collected := collected w |}).

(** ** An aggregate command *)
Record Command (T : Type) := {
  hydrate : Hydrate T;
  command_name : str;
  aggregate_qualified_name : str;
  aggregate_name : str;
  identity_reading : str;
  command_args : Fielded;
  givens : list GivenSpec;
  transition : option TransitionCheck;
  apply_mutations : T → M collector T;
  ensures : list EnsuresSpec;
  invariants : InvariantSet;
  emits : list str;
  payload : Json;
  seed_projections : list (str * option Value);
  tenant_boundary_check : res unit
}.
Arguments hydrate {T}. Arguments command_name {T}. Arguments aggregate_qualified_name {T}.
Arguments aggregate_name {T}. Arguments identity_reading {T}. Arguments command_args {T}.
Arguments givens {T}. Arguments transition {T}. Arguments apply_mutations {T}. Arguments ensures {T}.
Arguments invariants {T}. Arguments emits {T}. Arguments payload {T}.
Arguments seed_projections {T}. Arguments tenant_boundary_check {T}.

(** The locals of [dispatch]: what each arm consumes with [take] is there once. *)
Record Frame (T : Type) := {
  hydrate_slot : option (Hydrate T);
  apply_slot : option (T → M collector T);
  tenant_slot : option (res unit);
  seeds_slot : option (list (str * option Value));
  hydrated : option (str * T);
  old_snapshot : option T;
  events : list Event;
  defer_existence_check : bool
}.
Arguments hydrate_slot {T}. Arguments apply_slot {T}. Arguments tenant_slot {T}.
Arguments seeds_slot {T}. Arguments hydrated {T}. Arguments old_snapshot {T}.
Arguments events {T}. Arguments defer_existence_check {T}.

Section dispatch.
Context `{U : UnicodeTables} `{X : RegexCrate}.
Context {R T : Type} `{Repository R T} `{Recorded T}.

Definition already_exists (c : Command T) (id : str) : Refusal :=
  AlreadyExists (render_args (AlreadyExistsCreatingDuplicateArgs (command_name c) (aggregate_name c)
    (identity_reading c) (debug_str id))).

(** [hydrate_record]: the record, and whether the existence check is deferred. *)
Definition hydrate_record (c : Command T) (h : Hydrate T) (r : R) : res (str * T * bool) :=
  match h with
  | Create id build state_independent =>
    if bool_decide (id = []) then
      Err (NotFound (render_args (NotFoundCreatingNoIdentityArgs (command_name c) (aggregate_name c)
             (identity_reading c))))
    else if state_independent then Ok (id, build tt, true)
    else match find r id with
         | Some _ => Err (already_exists c id)
         | None => Ok (id, build tt, false)
         end
  | Act id =>
    match find r id with
    | Some record => Ok (id, record, false)
    | None => Err (NotFound (render_args (NotFoundRecordMissingArgs (aggregate_name c)
                (identity_reading c) (debug_str id))))
    end
  end.

Definition seed (record : T) (seeds : list (str * option Value)) : T :=
  fold_left (λ r '(f, v), set_projected_field r f v) seeds record.

(** The arm of one step: its guards and effects, on the locals it reads. *)
Definition dispatch_step (c : Command T) (s : AggregateStep) (f : Frame T) : M (World R) (Frame T) :=
  match s with
  | A_DecodeArguments | A_RefuseUnknownArguments | A_RefuseAbsentArguments | A_NormalizeArgs
  | A_RefuseRoleMismatch | A_ResolveReferences => ret f
  | A_Hydrate =>
    let! h := lift (ordered (hydrate_slot f) ONCE) in
    let! r := read repo in
    let! got := lift (hydrate_record c h r) in
    let '(id, record, deferred) := got in
    ret {| hydrate_slot := None; apply_slot := apply_slot f; tenant_slot := tenant_slot f;
           seeds_slot := seeds_slot f; hydrated := Some (id, record); old_snapshot := old_snapshot f;
           events := events f;
           defer_existence_check := deferred || defer_existence_check f |}
  | A_EnforceGivens =>
    let! h := lift (ordered (hydrated f) HYDRATED) in
    on_collector (enforce_givens (fielded h.2) (command_args c) (givens c) (command_name c)
                    (aggregate_qualified_name c) h.1) ;;!
    ret f
  | A_AdmissibleTransition =>
    let! h := lift (ordered (hydrated f) HYDRATED) in
    lift (admissible_transition (fielded h.2) (transition c) (command_name c)) ;;!
    ret f
  | A_AssignCreationAttributes => ret f
  | A_ApplyMutations =>
    let! h := lift (ordered (hydrated f) HYDRATED) in
    let old := match ensures c with [] => None | _ => Some h.2 end in
    let! apply := lift (ordered (apply_slot f) ONCE) in
    let! record := on_collector (apply h.2) in
    ret {| hydrate_slot := hydrate_slot f; apply_slot := None; tenant_slot := tenant_slot f;
           seeds_slot := seeds_slot f; hydrated := Some (h.1, record); old_snapshot := old;
           events := events f; defer_existence_check := defer_existence_check f |}
  | A_AdvanceLifecycle => ret f
  | A_DelegateToEntity => ret f
  | A_EnforceEnsures =>
    let! h := lift (ordered (hydrated f) HYDRATED) in
    match old_snapshot f with
    | Some old =>
      on_collector (enforce_ensures (fielded h.2) (fielded old) (command_args c) (ensures c)
                      (command_name c)) ;;!
      ret f
    | None => ret f
    end
  | A_EnforceInvariants =>
    let! h := lift (ordered (hydrated f) HYDRATED) in
    on_collector (enforce_invariants (fielded h.2) (aggregate_name c) (invariants c)) ;;!
    ret f
  | A_Save =>
    let! h := lift (ordered (hydrated f) HYDRATED) in
    let! check := lift (ordered (tenant_slot f) ONCE) in
    lift check ;;!
    let! seeds := lift (ordered (seeds_slot f) ONCE) in
    let record := seed h.2 seeds in
    let! r := read repo in
    let exists_now := match find r h.1 with Some _ => true | None => false end in
    if defer_existence_check f && exists_now then raise (already_exists c h.1)
    else
      persist h.1 record (aggregate_qualified_name c) ;;!
      ret {| hydrate_slot := hydrate_slot f; apply_slot := apply_slot f; tenant_slot := None;
             seeds_slot := None; hydrated := Some (h.1, record); old_snapshot := old_snapshot f;
             events := events f; defer_existence_check := defer_existence_check f |}
  | A_Emit =>
    let! h := lift (ordered (hydrated f) HYDRATED) in
    ret {| hydrate_slot := hydrate_slot f; apply_slot := apply_slot f; tenant_slot := tenant_slot f;
           seeds_slot := seeds_slot f; hydrated := hydrated f; old_snapshot := old_snapshot f;
           events := emitted (emits c) (aggregate_qualified_name c) h.1 (payload c);
           defer_existence_check := defer_existence_check f |}
  end.

(** [dispatch]: the loop over the declared order. *)
Definition dispatch (c : Command T) : M (World R) (T * list Event) :=
  let! f := fold_steps (dispatch_step c) AggregateStep_ORDER
    {| hydrate_slot := Some (hydrate c); apply_slot := Some (apply_mutations c);
       tenant_slot := Some (tenant_boundary_check c); seeds_slot := Some (seed_projections c);
       hydrated := None; old_snapshot := None; events := []; defer_existence_check := false |} in
  let! h := lift (ordered (hydrated f) HYDRATED) in
  ret (h.2, events f).
End dispatch.
