(* ===== verification/EntityDispatch.v ===== *)
(** Entity commands and argument gates ([src/rust/src/kernel/dispatch.rs]):
    the element half ([ElementHalf]) that [apply_entity_command] and
    [dispatch_entity] both drive, the loop of [dispatch_entity], and the gates
    that decode a command's arguments before its identity is resolved. *)
From S2P Require Export Dispatch.

(** A list field of the parent: [get_list], and [get_list_mut] as what it
    reads and writes. *)
Record ListField (T E : Type) := {
  get_list : T → list E;
  get_mut : T → list E;
  set_mut : T → list E → T
}.
Arguments get_list {T E}. Arguments get_mut {T E}. Arguments set_mut {T E}.

(** What the generated closures satisfy: both name the same list. *)
Definition same_list {T E} (l : ListField T E) : Prop :=
  (∀ t, get_mut l t = get_list l t) ∧ (∀ t es, get_list l (set_mut l t es) = es).

Record EntityCommand (T E : Type) := {
  parent_id : str;
  list_of : ListField T E;
  matches : E → bool;
  e_command_name : str;
  e_aggregate_qualified_name : str;
  e_aggregate_name : str;
  parent_identity_reading : str;
  entity_name : str;
  entity_identity_reading : str;
  wants : str;
  e_args : Fielded;
  e_givens : list GivenSpec;
  e_transition : option TransitionCheck;
  e_apply : E → M collector E;
  e_ensures : list EnsuresSpec;
  parent_in_args : bool
}.
Arguments parent_id {T E}. Arguments list_of {T E}. Arguments matches {T E}.
Arguments e_command_name {T E}. Arguments e_aggregate_qualified_name {T E}.
Arguments e_aggregate_name {T E}. Arguments parent_identity_reading {T E}.
Arguments entity_name {T E}. Arguments entity_identity_reading {T E}. Arguments wants {T E}.
Arguments e_args {T E}. Arguments e_givens {T E}. Arguments e_transition {T E}.
Arguments e_apply {T E}. Arguments e_ensures {T E}. Arguments parent_in_args {T E}.

(** The element half's state, carried across the order. *)
Record ElementHalf (T E : Type) := {
  mut_slot : option (ListField T E);
  e_apply_slot : option (E → M collector E);
  position : option nat;
  element : option E;
  parent_before : option T;
  e_old_snapshot : option E
}.
Arguments mut_slot {T E}. Arguments e_apply_slot {T E}. Arguments position {T E}.
Arguments element {T E}. Arguments parent_before {T E}. Arguments e_old_snapshot {T E}.

(** Indexing a list past its end, where the source panics. *)
Definition index_panic : Refusal := Fault "index out of bounds".

Section element_half.
Context `{U : UnicodeTables} `{X : RegexCrate}.
Context {T E : Type} `{RT : Recorded T} `{RE : Recorded E}.

Definition element_half (c : EntityCommand T E) : ElementHalf T E := {|
  mut_slot := Some (list_of c); e_apply_slot := Some (e_apply c); position := None;
  element := None; parent_before := None; e_old_snapshot := None |}.

Definition locate_element (c : EntityCommand T E) (h : ElementHalf T E) (record : T)
  : res (ElementHalf T E) :=
  let elements := get_list (list_of c) record in
  let? p := ok_or (find_index (matches c) elements)
    (NotFound (render_args (NotFoundEntityElementMissingArgs (entity_name c)
       (entity_identity_reading c) (wants c) (e_aggregate_name c) (debug_str (parent_id c))))) in
  let? el := ok_or (elements !! p) index_panic in
  Ok {| mut_slot := mut_slot h; e_apply_slot := e_apply_slot h; position := Some p;
        element := Some el; parent_before := Some record; e_old_snapshot := e_old_snapshot h |}.

(** The [corrects] givens, asked of the parent, raise at once; the others,
    asked of the element, are a stage. *)
Definition element_givens (c : EntityCommand T E) (h : ElementHalf T E) : M collector unit :=
  let! parent := lift (ordered (parent_before h) LOCATED) in
  let! el := lift (ordered (element h) LOCATED) in
  for_each (e_givens c) (λ given,
    match corrects_event given with
    | None => ret tt
    | Some event_name =>
      let! v := lift (interpret (given_expr given) {| args := e_args c; instance := fielded parent |}) in
      if truthy v then ret tt
      else raise (nothing_to_correct (e_command_name c) event_name (e_aggregate_qualified_name c)
                    (parent_id c))
    end) ;;!
  let given_args := if parent_in_args c then WithParent (e_args c) (fielded parent) else e_args c in
  stage (for_each (e_givens c) (λ given,
    match corrects_event given with
    | Some _ => ret tt
    | None =>
      enforce (given_expr given) {| args := given_args; instance := fielded el |}
        (GivenNotMet (e_command_name c ++ " refused — " ++ given_description given))
        (rule_detail (given_description given))
    end)).

(** [record[position] = element]. *)
Definition put_element (l : ListField T E) (record : T) (p : nat) (el : E) : res T :=
  let elements := get_mut l record in
  if decide (p < length elements)%nat then Ok (set_mut l record (<[p := el]> elements)) else Err index_panic.

Definition element_apply (c : EntityCommand T E) (h : ElementHalf T E) (record : T)
  : M collector (ElementHalf T E * T) :=
  let! p := lift (ordered (position h) LOCATED) in
  let! el := lift (ordered (element h) LOCATED) in
  let old := match e_ensures c with [] => None | _ => Some el end in
  let! apply := lift (ordered (e_apply_slot h) ONCE) in
  let! el' := apply el in
  let! l := lift (ordered (mut_slot h) ONCE) in
  let! record' := lift (put_element l record p el') in
  ret ({| mut_slot := None; e_apply_slot := None; position := position h; element := None;
          parent_before := parent_before h; e_old_snapshot := old |}, record').

Definition element_ensures (c : EntityCommand T E) (h : ElementHalf T E) (record : T)
  : M collector unit :=
  match e_old_snapshot h with
  | None => ret tt
  | Some old =>
    let! p := lift (ordered (position h) LOCATED) in
    let ensures_args := if parent_in_args c then WithParent (e_args c) (fielded record) else e_args c in
    let! settled := lift (ok_or (get_list (list_of c) record !! p) index_panic) in
    enforce_ensures (fielded settled) (fielded old) ensures_args (e_ensures c) (e_command_name c)
  end.

(** [ElementHalf::run]: one declared step against the parent in hand. *)
Definition run_element (c : EntityCommand T E) (s : EntityStep) (hr : ElementHalf T E * T)
  : M collector (ElementHalf T E * T) :=
  let (h, record) := hr in
  match s with
  | E_DecodeArguments | E_RefuseUnknownArguments | E_RefuseAbsentArguments | E_NormalizeArgs
  | E_RefuseRoleMismatch | E_ResolveReferences => ret hr
  | E_HydrateParent | E_EnforceInvariants | E_Save | E_Emit => ret hr
  | E_LocateElement => let! h' := lift (locate_element c h record) in ret (h', record)
  | E_EnforceGivens => element_givens c h ;;! ret hr
  | E_AdmissibleTransition =>
    let! el := lift (ordered (element h) LOCATED) in
    lift (admissible_transition (fielded el) (e_transition c) (e_command_name c)) ;;!
    ret hr
  | E_ApplyMutations => element_apply c h record
  | E_AdvanceLifecycle => ret hr
  | E_EnforceEnsures => element_ensures c h record ;;! ret hr
  end.

(** [apply_entity_command]: nothing saved, the parent changed in hand. *)
Definition apply_entity_command (c : EntityCommand T E) (record : T) : M collector T :=
  let! hr := fold_steps (run_element c) EntityStep_ORDER (element_half c, record) in
  ret hr.2.
End element_half.

(** ** An entity command's own dispatch *)
Section dispatch_entity.
Context `{U : UnicodeTables} `{X : RegexCrate}.
Context {R T E : Type} `{RR : Repository R T} `{RT : Recorded T} `{RE : Recorded E}.

Record EntityFrame := {
  half : ElementHalf T E;
  e_seeds_slot : option (list (str * option Value));
  e_hydrated : option T;
  e_events : list Event
}.

Definition entity_step_run (c : EntityCommand T E) (invariants : InvariantSet) (emits : list str)
    (payload : Json) (s : EntityStep) (f : EntityFrame) : M (World R) EntityFrame :=
  match s with
  | E_DecodeArguments | E_RefuseUnknownArguments | E_RefuseAbsentArguments | E_NormalizeArgs
  | E_RefuseRoleMismatch | E_ResolveReferences => ret f
  | E_HydrateParent =>
    let! r := read repo in
    let! record := lift (ok_or (find r (parent_id c))
      (NotFound (render_args (NotFoundRecordMissingArgs (e_aggregate_name c)
         (parent_identity_reading c) (debug_str (parent_id c)))))) in
    ret {| half := half f; e_seeds_slot := e_seeds_slot f; e_hydrated := Some record;
           e_events := e_events f |}
  | E_LocateElement | E_EnforceGivens | E_AdmissibleTransition | E_ApplyMutations
  | E_AdvanceLifecycle | E_EnforceEnsures =>
    let! record := lift (ordered (e_hydrated f) HYDRATED) in
    let! hr := on_collector (run_element c s (half f, record)) in
    ret {| half := hr.1; e_seeds_slot := e_seeds_slot f; e_hydrated := Some hr.2;
           e_events := e_events f |}
  | E_EnforceInvariants =>
    let! record := lift (ordered (e_hydrated f) HYDRATED) in
    on_collector (enforce_invariants (fielded record) (e_aggregate_name c) invariants) ;;!
    ret f
  | E_Save =>
    let! record := lift (ordered (e_hydrated f) HYDRATED) in
    let! seeds := lift (ordered (e_seeds_slot f) ONCE) in
    let record' := seed record seeds in
    persist (parent_id c) record' (e_aggregate_qualified_name c) ;;!
    ret {| half := half f; e_seeds_slot := None; e_hydrated := Some record'; e_events := e_events f |}
  | E_Emit =>
    ret {| half := half f; e_seeds_slot := e_seeds_slot f; e_hydrated := e_hydrated f;
           e_events := emitted emits (e_aggregate_qualified_name c) (parent_id c) payload |}
  end.

(** [dispatch_entity]; its element half always reads the parent. *)
Definition with_parent (c : EntityCommand T E) : EntityCommand T E := {|
  parent_id := parent_id c; list_of := list_of c; matches := matches c;
  e_command_name := e_command_name c; e_aggregate_qualified_name := e_aggregate_qualified_name c;
  e_aggregate_name := e_aggregate_name c; parent_identity_reading := parent_identity_reading c;
  entity_name := entity_name c; entity_identity_reading := entity_identity_reading c;
  wants := wants c; e_args := e_args c; e_givens := e_givens c; e_transition := e_transition c;
  e_apply := e_apply c; e_ensures := e_ensures c; parent_in_args := true |}.

Definition dispatch_entity (c : EntityCommand T E) (invariants : InvariantSet) (emits : list str)
    (payload : Json) (seeds : list (str * option Value)) : M (World R) (T * list Event) :=
  let c := with_parent c in
  let! f := fold_steps (entity_step_run c invariants emits payload) EntityStep_ORDER
    {| half := element_half c; e_seeds_slot := Some seeds; e_hydrated := None; e_events := [] |} in
  let! record := lift (ordered (e_hydrated f) HYDRATED) in
  ret (record, e_events f).
End dispatch_entity.

(** ** Argument gates *)
Record ArgumentGates (A : Type) := {
  decode_arguments : Json → M collector unit;
  refuse_unknown_arguments : Json → M collector unit;
  refuse_absent_arguments : Json → M collector unit;
  normalize_args : Json → M collector A;
  refuse_role_mismatch : M collector unit;
  resolve_references : A → M collector unit
}.
Arguments decode_arguments {A}. Arguments refuse_unknown_arguments {A}.
Arguments refuse_absent_arguments {A}. Arguments normalize_args {A}.
Arguments refuse_role_mismatch {A}. Arguments resolve_references {A}.

Inductive ArgumentGate :=
| G_DecodeArguments | G_RefuseUnknownArguments | G_RefuseAbsentArguments | G_NormalizeArgs
| G_RefuseRoleMismatch | G_ResolveReferences.

Section gates.
Context {A : Type}.

(** [ArgumentGates::run]. *)
Definition run_gate (g : ArgumentGates A) (gate : ArgumentGate) (facts : Json) (a : option A)
  : M collector (option A) :=
  match gate with
  | G_DecodeArguments => decode_arguments g facts ;;! ret a
  | G_RefuseUnknownArguments => refuse_unknown_arguments g facts ;;! ret a
  | G_RefuseAbsentArguments => refuse_absent_arguments g facts ;;! ret a
  | G_NormalizeArgs => let! a' := normalize_args g facts in ret (Some a')
  | G_RefuseRoleMismatch => refuse_role_mismatch g ;;! ret a
  | G_ResolveReferences =>
    let! a' := lift (ordered a NORMALIZED) in
    resolve_references g a' ;;! ret a
  end.

Definition aggregate_gate (s : AggregateStep) : option ArgumentGate :=
  match s with
  | A_DecodeArguments => Some G_DecodeArguments
  | A_RefuseUnknownArguments => Some G_RefuseUnknownArguments
  | A_RefuseAbsentArguments => Some G_RefuseAbsentArguments
  | A_NormalizeArgs => Some G_NormalizeArgs
  | A_RefuseRoleMismatch => Some G_RefuseRoleMismatch
  | A_ResolveReferences => Some G_ResolveReferences
  | _ => None
  end.
Definition entity_gate (s : EntityStep) : option ArgumentGate :=
  match s with
  | E_DecodeArguments => Some G_DecodeArguments
  | E_RefuseUnknownArguments => Some G_RefuseUnknownArguments
  | E_RefuseAbsentArguments => Some G_RefuseAbsentArguments
  | E_NormalizeArgs => Some G_NormalizeArgs
  | E_RefuseRoleMismatch => Some G_RefuseRoleMismatch
  | E_ResolveReferences => Some G_ResolveReferences
  | _ => None
  end.

(** The loop both decoders run: the gates of an order, the stage of unknown
    and absent arguments settled after the latter. *)
Definition decode_step {S : Type} (gate_of : S → option ArgumentGate) (g : ArgumentGates A)
    (facts : Json) (m : nat) (s : S) (a : option A) : M collector (option A) :=
  match gate_of s with
  | None => ret a
  | Some gate =>
    let! a' := run_gate g gate facts a in
    match gate with
    | G_RefuseAbsentArguments => settle m ;;! ret a'
    | _ => ret a'
    end
  end.

Definition decode_aggregate_arguments (facts : Json) (g : ArgumentGates A) : M collector A :=
  let! m := mark in
  let! a := fold_steps (decode_step aggregate_gate g facts m) AggregateStep_ORDER None in
  lift (ordered a NORMALIZED).
Definition decode_entity_arguments (facts : Json) (g : ArgumentGates A) : M collector A :=
  let! m := mark in
  let! a := fold_steps (decode_step entity_gate g facts m) EntityStep_ORDER None in
  lift (ordered a NORMALIZED).
End gates.
