(* ===== verification/DispatchFacts.v ===== *)
(** What a dispatch guarantees: the loop over the declared order is the
    straight-line pipeline it reads as, a refusal leaves store and log as they
    were, a success writes one record that met every rule, and a dry run's
    first reason is the refusal a real dispatch raises. *)
From stdpp Require Import gmap.
From S2P Require Export ExprFacts EntityDispatch.

(** ** The pipeline an aggregate command is *)
Section pipeline.
Context `{U : UnicodeTables} `{X : RegexCrate}.
Context {R T : Type} `{RR : Repository R T} `{RT : Recorded T}.

(** The steps before anything is written: the record to save, its identifier
    and the state it started from. *)
Definition pipeline_rules (c : Command T) (id : str) (before : T) : M collector T :=
  enforce_givens (fielded before) (command_args c) (givens c) (command_name c)
    (aggregate_qualified_name c) id ;;!
  lift (admissible_transition (fielded before) (transition c) (command_name c)) ;;!
  let! after := apply_mutations c before in
  match ensures c with
  | [] => ret tt
  | _ => enforce_ensures (fielded after) (fielded before) (command_args c) (ensures c) (command_name c)
  end ;;!
  enforce_invariants (fielded after) (aggregate_name c) (invariants c) ;;!
  lift (tenant_boundary_check c) ;;!
  ret (seed after (seed_projections c)).

(** The specification: hydrate, hold to the rules, write once, emit. *)
Definition dispatch_spec (c : Command T) (w : World R) : res (T * list Event) * World R :=
  match hydrate_record c (hydrate c) (repo w) with
  | Err e => (Err e, w)
  | Ok (id, before, deferred) =>
    let (outcome, collected') := pipeline_rules c id before (collected w) in
    let w' := {| repo := repo w; mutations := mutations w; collected := collected' |} in
    match outcome with
    | Err e => (Err e, w')
    | Ok after =>
      match deferred, find (repo w) id with
      | true, Some _ => (Err (already_exists c id), w')
      | _, _ =>
        (Ok (after, emitted (emits c) (aggregate_qualified_name c) id (payload c)),
         {| repo := save (repo w) id after;
            mutations := mutations w ++
              [{| mutation_aggregate := aggregate_qualified_name c; mutation_id := id;
                  mutation_operation := "save"; mutation_state := to_json after |}];
            collected := collected' |})
      end
    end
  end.

Lemma on_collector_eq {A} (m : M collector A) (w : World R) :
  on_collector m w =
  ((m (collected w)).1, {| repo := repo w; mutations := mutations w; collected := (m (collected w)).2 |}).
Proof. unfold on_collector, zoom. by destruct (m (collected w)). Qed.

(** Splits the innermost matches first, so that a program is run in order. *)
Ltac inner_cases :=
  repeat (match goal with
          | |- context [match ?x with _ => _ end] =>
            lazymatch x with context [match _ with _ => _ end] => fail | _ => destruct x eqn:? end
          end; try reflexivity).

(** Reads a program of the monad as the matches it performs. *)
Ltac run_monad :=
  cbv beta iota zeta delta
    [fold_steps AggregateStep_ORDER EntityStep_ORDER dispatch_step bind lift read ret raise modify
     ordered ok_or persist on_collector zoom
     hydrate_slot apply_slot tenant_slot seeds_slot hydrated old_snapshot events
     defer_existence_check repo mutations collected fst snd].

(** The loop over the declared order is the pipeline. *)
Lemma dispatch_eq (c : Command T) (w : World R) : dispatch c w = dispatch_spec c w.
Proof.
  unfold dispatch, dispatch_spec, pipeline_rules. run_monad.
  inner_cases; simplify_eq/=; congruence.
Qed.
End pipeline.

(** ** Rules that passed *)
Section rules_facts.
Context `{U : UnicodeTables} `{X : RegexCrate}.

(** A rule holds: its expression evaluates to something truthy. *)
Definition holds (e : Expr) (ctx : EvalContext) : Prop :=
  ∃ v, interpret e ctx = Ok v ∧ truthy v = true.

(** The invariants of an entity hold of every element of its list, and of
    theirs. *)
Inductive entity_holds : Fielded → EntityInvariants → Prop :=
| EntityHolds owner name list_field specs nested :
    (∀ l el, items owner list_field = Some l → FNested el ∈ l →
       Forall (λ rule, holds (invariant_expr rule)
                 {| args := WithParent NoFields owner; instance := el |}) specs ∧
       Forall (entity_holds el) nested) →
    entity_holds owner (MkEntityInvariants name list_field specs nested).

Definition set_holds (record : Fielded) (set : InvariantSet) : Prop :=
  Forall (λ rule, holds (invariant_expr rule) {| args := NoFields; instance := record |})
         (aggregate_invariants set) ∧
  Forall (entity_holds record) (entity_invariants set).

Lemma grows_antisym (c c1 : collector) : grows c c1 → grows c1 c → c1 = c.
Proof.
  destruct c as [l|], c1 as [l1|]; simpl; try done.
  intros [m ->] [m' E]. rewrite <- app_assoc in E.
  rewrite <- (app_nil_r l) in E at 1. apply app_inv_head in E.
  symmetry in E. apply app_nil in E as [-> _]. by rewrite app_nil_r.
Qed.

(** What a step that ends well, with nothing collected, establishes. *)
Definition sound {A} (P : A → Prop) (m : M collector A) : Prop :=
  keeps grows m ∧ ∀ c a, m c = (Ok a, c) → P a.

Lemma sound_ret {A} (a : A) : sound (λ b, b = a) (ret a).
Proof. split; [apply keeps_ret, _|]. by intros c b [= ->]. Qed.
Lemma sound_lift {A} (r : res A) : sound (λ a, r = Ok a) (lift r).
Proof. split; [apply keeps_lift, _|]. by intros c b [= ->]. Qed.
Lemma sound_weaken {A} (P Q : A → Prop) (m : M collector A) :
  (∀ a, P a → Q a) → sound P m → sound Q m.
Proof. intros H [Hk Hs]. split; eauto. Qed.

Lemma sound_real {A} (P : A → Prop) (m : M collector A) (a : A) (c' : collector) :
  sound P m → m None = (Ok a, c') → c' = None ∧ P a.
Proof.
  intros [Hg Hs] E. specialize (Hg None). rewrite E in Hg. destruct c'; [done|]. eauto.
Qed.

Lemma sound_bind {A B} (P : A → Prop) (Q : A → B → Prop) (m : M collector A) (k : A → M collector B) :
  sound P m → (∀ a, sound (Q a) (k a)) → sound (λ b, ∃ a, P a ∧ Q a b) (bind m k).
Proof.
  intros [Hm Pm] Hk. split; [apply keeps_bind; [apply _|done|intros a; apply Hk]|].
  intros c b H. apply bind_inv in H as [(e & _ & ?)|(a & c1 & E1 & E2)]; [done|].
  assert (c1 = c) as ->.
  { apply grows_antisym; [specialize (Hm c); by rewrite E1 in Hm|].
    destruct (Hk a) as [Hg _]. specialize (Hg c1). by rewrite E2 in Hg. }
  exists a. split; [by eapply Pm|]. by eapply (proj2 (Hk a)).
Qed.

Lemma sound_for_each {A} (P : A → Prop) (l : list A) (body : A → M collector unit) :
  (∀ a, a ∈ l → sound (λ _, P a) (body a)) → sound (λ _, Forall P l) (for_each l body).
Proof.
  induction l as [|a l IH]; intros H.
  { split; [apply keeps_ret, _|]. constructor. }
  change (for_each (a :: l) body) with (body a ;;! for_each l body).
  eapply sound_weaken; [|eapply (sound_bind (λ _, P a) (λ _ _, Forall P l)); [apply H; left|]].
  - intros ? (? & ? & ?). by constructor.
  - intros _. apply IH. intros; apply H; by right.
Qed.

Lemma sound_enforce (e : Expr) (ctx : EvalContext) (r : Refusal) (d : Detail) :
  sound (λ _, holds e ctx) (enforce e ctx r d).
Proof.
  split.
  - apply keeps_bind; [apply _|apply keeps_lift, _|]. intros v.
    destruct (truthy v); [apply keeps_ret, _|apply refuse_grows].
  - intros c a H. apply bind_inv in H as [(? & _ & ?)|(v & c1 & [= E <-] & E2)]; [done|].
    exists v. split; [done|]. destruct (truthy v); [done|].
    destruct c as [l|]; simpl in E2; [|done]. injection E2 as _ E2.
    apply (f_equal length) in E2. rewrite length_app in E2. simpl in E2. lia.
Qed.

(** A stage that ends well collected nothing, so what its rules say holds. *)
Lemma stage_ok {A} (P : A → Prop) (body : M collector A) (c c' : collector) (u : unit) :
  sound P body → stage body c = (Ok u, c') → c' = c ∧ ∃ a, P a.
Proof.
  intros [Hg Hs] H. unfold stage, bind, mark, read in H.
  specialize (Hg c). destruct (body c) as [[a|e] c1] eqn:E; [|done]. simpl in Hg.
  assert (c1 = c ∧ c' = c) as [-> ->]; [|split; [done|]; eauto].
  unfold settle in H. destruct c as [l|], c1 as [l1|]; simpl in *; try done.
  - destruct Hg as [more ->]. rewrite lookup_app_r, Nat.sub_diag in H by lia.
    destruct more as [|x more]; simpl in H; [|done]. rewrite app_nil_r in *. by injection H as <-.
  - by injection H as <-.
Qed.

Lemma sound_stage {A} (P : A → Prop) (body : M collector A) :
  sound P body → sound (λ _, ∃ a, P a) (stage body).
Proof.
  intros H. split.
  - destruct H as [Hg _]. apply keeps_bind; [apply _|apply mark_grows|]. intros m.
    apply keeps_bind; [apply _|done|]. intros _. apply settle_grows.
  - intros c a E. eapply stage_ok; eauto.
Qed.

Lemma enforce_givens_ok (record args : Fielded) (gs : list GivenSpec) (cn aqn id : str) :
  sound (λ _, Forall (λ g, holds (given_expr g) {| args := args; instance := record |}) gs)
        (enforce_givens record args gs cn aqn id).
Proof.
  eapply sound_weaken; [|apply sound_stage, (sound_for_each
    (λ g, holds (given_expr g) {| args := args; instance := record |})); intros; apply sound_enforce].
  by intros _ [_ H].
Qed.

Definition ensures_ctx (settled old args : Fielded) : EvalContext :=
  {| args := WithOld (StateFirst args settled) old; instance := settled |}.

Lemma enforce_ensures_ok (settled old args : Fielded) (es : list EnsuresSpec) (cn : str) :
  sound (λ _, Forall (λ r, holds (ensures_expr r) (ensures_ctx settled old args)) es)
        (enforce_ensures settled old args es cn).
Proof.
  eapply sound_weaken; [|apply sound_stage, (sound_for_each
    (λ r, holds (ensures_expr r) (ensures_ctx settled old args))); intros; apply sound_enforce].
  by intros _ [_ H].
Qed.

Lemma EntityInvariants_nested_ind (P : EntityInvariants → Prop) :
  (∀ name lf specs nested, Forall P nested → P (MkEntityInvariants name lf specs nested)) → ∀ e, P e.
Proof.
  intros H. fix IH 1. intros [name lf specs nested]. apply H.
  induction nested as [|e l IHl]; [apply Forall_nil|apply Forall_cons; [apply IH|exact IHl]].
Qed.

Lemma enforce_entity_ok (e : EntityInvariants) (owner : Fielded) :
  sound (λ _, entity_holds owner e) (enforce_entity_invariants owner e).
Proof.
  revert owner. induction e as [name lf specs nested IH] using EntityInvariants_nested_ind.
  intros owner. cbn [enforce_entity_invariants].
  destruct (items owner lf) as [elements|] eqn:El.
  2: { eapply sound_weaken; [|apply sound_ret]. intros ? _. constructor. congruence. }
  eapply sound_weaken; [|apply (sound_for_each (λ el,
    Forall (λ rule, holds (invariant_expr rule)
              {| args := WithParent NoFields owner; instance := el |}) specs ∧
    Forall (entity_holds el) nested))].
  - intros ? H. cbn beta in H. constructor. intros l el El' Hin. rewrite El in El'. injection El' as <-.
    rewrite Forall_forall in H. apply H, list_elem_of_In, list_elem_of_omap. by exists (FNested el).
  - intros el _. eapply sound_weaken; [|eapply sound_bind;
      [apply (sound_for_each (λ rule, holds (invariant_expr rule)
         {| args := WithParent NoFields owner; instance := el |})); intros; apply sound_enforce|
       intros ?; apply (sound_for_each (entity_holds el))]].
    + intros ? (? & H1 & H2). exact (conj H1 H2).
    + intros n Hn. rewrite Forall_forall in IH. by apply IH, list_elem_of_In.
Qed.

Lemma enforce_invariants_ok (record : Fielded) (name : str) (set : InvariantSet) :
  sound (λ _, set_holds record set) (enforce_invariants record name set).
Proof.
  eapply sound_weaken; [|apply sound_stage; eapply sound_bind;
    [apply (sound_for_each (λ rule, holds (invariant_expr rule)
       {| args := NoFields; instance := record |})); intros; apply sound_enforce|
     intros ?; apply (sound_for_each (entity_holds record)); intros; apply enforce_entity_ok]].
  intros ? (? & ? & H1 & H2). exact (conj H1 H2).
Qed.
End rules_facts.

(** ** Previews: what a dry run says of a step, against the real run of it *)
Section previews.

(** The first reason: the first refusal collected, else the one raised. *)
Definition first_reason {A} (more : list Collected) (r : res A) : option Refusal :=
  match more with
  | x :: _ => Some (refusal x)
  | [] => match r with Err e => Some e | Ok _ => None end
  end.

(** Under a collector the step collects nothing and answers the same where the
    real run answers, and gives the real refusal as its first reason where the
    real run refuses. *)
Definition previews {A} (m : M collector A) : Prop :=
  ∀ l, ∃ more, (m (Some l)).2 = Some (l ++ more) ∧ (m None).2 = None ∧
    match (m None).1 with
    | Ok a => (m (Some l)).1 = Ok a ∧ more = []
    | Err e => first_reason more (m (Some l)).1 = Some e
    end.
(** ... and fails where the real run fails. *)
Definition strictly {A} (m : M collector A) : Prop :=
  ∀ l, is_ok (m (Some l)).1 = is_ok (m None).1.

Lemma previews_pure {A} (r : res A) : previews (lift r) ∧ strictly (lift r).
Proof.
  split; [|done]. intros l. exists []. rewrite app_nil_r. split_and!; [done..|]. by destruct r.
Qed.
Lemma previews_ret {A} (a : A) : previews (ret a) ∧ strictly (ret a).
Proof. apply (previews_pure (Ok a)). Qed.

Lemma previews_bind {A B} (m : M collector A) (k : A → M collector B) :
  previews m → (∀ a, previews (k a)) → previews (bind m k).
Proof.
  intros Hm Hk l. destruct (Hm l) as (more & Hc & Hn & Hr).
  unfold bind in *. destruct (m None) as [[a|e] c0]; cbn [fst snd] in *; subst c0.
  - destruct Hr as [Hr ->]. destruct (m (Some l)) as [r c1]; cbn [fst snd] in *; subst.
    rewrite app_nil_r. destruct (Hk a l) as (more & H1 & H2 & H3). eauto.
  - destruct (m (Some l)) as [[a|e'] c1]; cbn [fst snd] in *; subst c1.
    + destruct more as [|x more]; [done|].
      destruct (Hk a (l ++ x :: more)) as (more' & H1 & _ & _).
      exists ((x :: more) ++ more'). by rewrite H1, app_assoc.
    + eauto.
Qed.

Lemma strictly_bind {A B} (m : M collector A) (k : A → M collector B) :
  previews m → strictly m → (∀ a, strictly (k a)) → strictly (bind m k).
Proof.
  intros Hm Hs Hk l. destruct (Hm l) as (more & Hc & Hn & Hr). specialize (Hs l).
  unfold bind in *. destruct (m None) as [[a|e] c0]; cbn [fst snd] in *; subst c0.
  - destruct Hr as [Hr ->]. destruct (m (Some l)) as [r c1]; cbn [fst snd] in *; subst.
    rewrite app_nil_r. apply Hk.
  - by destruct (m (Some l)) as [[a|e'] c1].
Qed.

Lemma previews_for_each {A} (l : list A) (body : A → M collector unit) :
  (∀ a, previews (body a)) → previews (for_each l body).
Proof.
  intros H. induction l as [|a l IH]; [apply (previews_ret tt)|].
  change (previews (body a ;;! for_each l body)). by apply previews_bind.
Qed.

Lemma previews_refuse (r : Refusal) (d : Detail) : previews (refuse_with r d).
Proof. intros l. by exists [{| refusal := r; detail := d |}]. Qed.

(** A stage turns what it collected into its failure. *)
Lemma previews_stage {A} (body : M collector A) :
  previews body → previews (stage body) ∧ strictly (stage body).
Proof.
  intros Hb. assert (∀ l, ∃ more, (stage body (Some l)).2 = Some (l ++ more) ∧ (stage body None).2 = None ∧
    is_ok (stage body (Some l)).1 = is_ok (stage body None).1 ∧
    match (stage body None).1 with
    | Ok a => (stage body (Some l)).1 = Ok a ∧ more = []
    | Err e => first_reason more (stage body (Some l)).1 = Some e
    end) as H.
  { intros l. destruct (Hb l) as (more & Hc & Hn & Hr).
    exists more. unfold stage, bind, mark, read, settle in *.
    destruct (body None) as [[a|e] c0]; cbn [fst snd] in *; subst c0.
    - destruct Hr as [Hr ->]. destruct (body (Some l)) as [r c1]; cbn [fst snd] in *; subst.
      rewrite app_nil_r. cbn [mbind option_bind]. rewrite lookup_ge_None_2 by lia. done.
    - destruct (body (Some l)) as [[a|e'] c1]; cbn [fst snd] in *; subst c1; [|done].
      destruct more as [|x more]; [done|]. cbn [mbind option_bind].
      rewrite lookup_app_r, Nat.sub_diag by lia. done. }
  split; intros l; destruct (H l) as (more & H1 & H2 & H3 & H4); eauto.
Qed.

Section previews_rules.
Context `{U : UnicodeTables} `{X : RegexCrate}.

Lemma previews_enforce (e : Expr) (ctx : EvalContext) (r : Refusal) (d : Detail) :
  previews (enforce e ctx r d).
Proof.
  apply previews_bind; [apply previews_pure|]. intros v.
  destruct (truthy v); [apply previews_ret|apply previews_refuse].
Qed.

Lemma previews_entity (e : EntityInvariants) (owner : Fielded) :
  previews (enforce_entity_invariants owner e).
Proof.
  revert owner. induction e as [name lf specs nested IH] using EntityInvariants_nested_ind.
  intros owner. cbn [enforce_entity_invariants].
  destruct (items owner lf); [|apply previews_ret]. apply previews_for_each. intros el.
  apply previews_bind; [apply previews_for_each; intros; apply previews_enforce|]. intros _.
  induction IH as [|n nested Hn _ IHn]; [apply (previews_ret tt)|].
  change (previews (enforce_entity_invariants el n ;;!
                    for_each nested (λ n, enforce_entity_invariants el n))).
  apply previews_bind; [apply Hn|intros _; apply IHn].
Qed.

Lemma previews_givens (record args : Fielded) (gs : list GivenSpec) (cn aqn id : str) :
  previews (enforce_givens record args gs cn aqn id) ∧
  strictly (enforce_givens record args gs cn aqn id).
Proof. apply previews_stage, previews_for_each. intros; apply previews_enforce. Qed.

Lemma previews_ensures (settled old args : Fielded) (es : list EnsuresSpec) (cn : str) :
  previews (enforce_ensures settled old args es cn) ∧ strictly (enforce_ensures settled old args es cn).
Proof. apply previews_stage, previews_for_each. intros; apply previews_enforce. Qed.

Lemma previews_invariants (record : Fielded) (name : str) (set : InvariantSet) :
  previews (enforce_invariants record name set) ∧ strictly (enforce_invariants record name set).
Proof.
  apply previews_stage, previews_bind; [apply previews_for_each; intros; apply previews_enforce|].
  intros _. apply previews_for_each. intros; apply previews_entity.
Qed.

Lemma previews_pipeline {T} `{Recorded T} (c : Command T) (id : str) (before : T) :
  (∀ t, previews (apply_mutations c t) ∧ strictly (apply_mutations c t)) →
  previews (pipeline_rules c id before) ∧ strictly (pipeline_rules c id before).
Proof.
  intros Ha. unfold pipeline_rules.
  assert (∀ A B (m : M collector A) (k : A → M collector B),
    previews m ∧ strictly m → (∀ a, previews (k a) ∧ strictly (k a)) →
    previews (bind m k) ∧ strictly (bind m k)) as Hbind.
  { intros A B m k [H1 H2] Hk.
    split; [apply previews_bind|apply strictly_bind]; try done; intros a; apply Hk. }
  apply Hbind; [apply previews_givens|intros _].
  apply Hbind; [apply previews_pure|intros _].
  apply Hbind; [apply Ha|intros after].
  apply Hbind; [destruct (ensures c); [apply previews_ret|apply previews_ensures]|intros _].
  apply Hbind; [apply previews_invariants|intros _].
  apply Hbind; [apply previews_pure|intros _; apply previews_ret].
Qed.
End previews_rules.
End previews.

(** ** A command for the witnesses: an account is withdrawn from *)
Section account.
Record Account := { balance : Z; status : str }.
Definition account_fields (a : Account) : Fielded :=
  MkFielded (λ n, if str_eqb n "balance" then Some (FValue (VInt (balance a)))
                  else if str_eqb n "status" then Some (FValue (VStr (status a))) else None)
    None None (λ _, None).
#[export] Instance account_recorded : Recorded Account := {|
  fielded := account_fields;
  to_json a := JObject [("balance", JNum (f64_of_Z (balance a)) None); ("status", JStr (status a))];
  set_projected_field a _ _ := a
|}.

Definition compare_with (o : Comparison) (name : str) (z : Z) : Expr := ECompare o (ELookup name) (EInt z).
Definition above_zero (description : str) (floor : Z) : GivenSpec :=
  {| given_description := description; given_expr := compare_with op_gt "balance" floor;
     corrects_event := None |}.

Definition withdraw (h : Hydrate Account) (floors : list GivenSpec) (amount : Z) : Command Account := {|
  hydrate := h; command_name := "Withdraw"; aggregate_qualified_name := "Bank.Account";
  aggregate_name := "Account"; identity_reading := "number"; command_args := NoFields;
  givens := floors;
  transition := Some {| transition_field := "status"; from_states := ["open"] |};
  apply_mutations a := ret {| balance := balance a - amount; status := status a |};
  ensures := [{| ensures_description := "it went down";
                 ensures_expr := ECompare op_lt (ELookup "balance") (ELookup "old.balance") |}];
  invariants := {| aggregate_invariants :=
                     [{| invariant_description := "never negative";
                         invariant_expr := ENot (compare_with op_lt "balance" 0) |}];
                   entity_invariants := [] |};
  emits := ["Withdrawn"]; payload := JNull; seed_projections := []; tenant_boundary_check := Ok tt |}.
Definition bank : InMemoryRepository Account :=
  save (save new "a1" {| balance := 9; status := "open" |}) "a2" {| balance := 1; status := "closed" |}.
Definition opened (c : collector) : World (InMemoryRepository Account) :=
  {| repo := bank; mutations := []; collected := c |}.
End account.

(** ** Properties *)
Section dispatch_properties.
Context `{U : UnicodeTables} `{X : RegexCrate}.
Context {R T : Type} `{RR : Repository R T} `{RT : Recorded T}.

(** C2: running the arms of the declared order over the shared locals, each
    taken once, is the straight-line pipeline a reader expects: hydrate, hold
    the record to the givens and its lifecycle, apply, hold it to the ensures
    and invariants, check the tenant boundary, seed, save, emit.  No step ever
    finds a local missing or already taken. *)
Theorem dispatch_is_pipeline (c : Command T) (w : World R) : dispatch c w = dispatch_spec c w.
Proof. apply dispatch_eq. Qed.

(** C3: a command that is refused, by whichever step, has written nothing:
    the store and the mutation log are what they were. *)
Theorem dispatch_atomic (c : Command T) (w : World R) (e : Refusal) :
  (dispatch c w).1 = Err e →
  repo (dispatch c w).2 = repo w ∧ mutations (dispatch c w).2 = mutations w.
Proof.
  rewrite dispatch_eq. unfold dispatch_spec.
  destruct (hydrate_record c (hydrate c) (repo w)) as [[[id before] deferred]|e']; [|done].
  destruct (pipeline_rules c id before (collected w)) as [[after|e'] c']; [|done].
  destruct deferred, (find (repo w) id); done.
Qed.
End dispatch_properties.

Lemma dispatch_atomic_witness :
  repo (@dispatch ascii_tables no_regex _ _ _ _ (withdraw (Act "a1") [] 20) (opened None)).2 = bank.
Proof.
  refine (proj1 (@dispatch_atomic ascii_tables no_regex _ _ _ _ (withdraw (Act "a1") [] 20) (opened None)
    (InvariantViolation "Account refused — never negative") _)).
  vm_compute. reflexivity.
Defined.

Section dispatch_success.
Context `{U : UnicodeTables} `{X : RegexCrate}.
Context {R T : Type} `{RL : RepositoryLaws R T} `{RT : Recorded T}.

(** What a successful dispatch has established about the record it started
    from, the one the mutations made, and the one it saved. *)
Record established (c : Command T) (r : R) (id : str) (before settled after : T) : Prop := {
  started : match hydrate c with
            | Create i build _ => i = id ∧ id ≠ [] ∧ find r id = None ∧ before = build tt
            | Act i => i = id ∧ find r id = Some before
            end;
  givens_hold : Forall (λ g, holds (given_expr g)
                          {| args := command_args c; instance := fielded before |}) (givens c);
  lifecycle_admits : admissible_transition (fielded before) (transition c) (command_name c) = Ok tt;
  applied : apply_mutations c before None = (Ok settled, None);
  ensures_hold : Forall (λ s, holds (ensures_expr s)
                           (ensures_ctx (fielded settled) (fielded before) (command_args c))) (ensures c);
  invariants_hold : set_holds (fielded settled) (invariants c);
  boundary_kept : tenant_boundary_check c = Ok tt;
  saved : after = seed settled (seed_projections c)
}.

Lemma pipeline_ok (c : Command T) (id : str) (before after : T) (c' : collector) :
  (∀ t, (apply_mutations c t None).2 = None) →
  pipeline_rules c id before None = (Ok after, c') →
  c' = None ∧ ∃ settled,
    Forall (λ g, holds (given_expr g) {| args := command_args c; instance := fielded before |}) (givens c) ∧
    admissible_transition (fielded before) (transition c) (command_name c) = Ok tt ∧
    apply_mutations c before None = (Ok settled, None) ∧
    Forall (λ s, holds (ensures_expr s)
              (ensures_ctx (fielded settled) (fielded before) (command_args c))) (ensures c) ∧
    set_holds (fielded settled) (invariants c) ∧ tenant_boundary_check c = Ok tt ∧
    after = seed settled (seed_projections c).
Proof.
  intros Ha HP. unfold pipeline_rules in HP.
  apply bind_inv in HP as [(? & _ & ?)|([] & c1 & E1 & HP)]; [done|].
  apply (sound_real _ _ _ _ (enforce_givens_ok _ _ _ _ _ _)) in E1 as [-> E1].
  apply bind_inv in HP as [(? & _ & ?)|([] & c1 & [= E2 <-] & HP)]; [done|].
  apply bind_inv in HP as [(? & _ & ?)|(settled & c1 & E3 & HP)]; [done|].
  specialize (Ha before). rewrite E3 in Ha. simpl in Ha. subst c1.
  apply bind_inv in HP as [(? & _ & ?)|([] & c1 & E4 & HP)]; [done|].
  assert (c1 = None ∧ Forall (λ s, holds (ensures_expr s)
    (ensures_ctx (fielded settled) (fielded before) (command_args c))) (ensures c)) as [-> E4'].
  { destruct (ensures c) as [|s l]; [by injection E4 as <-|].
    by apply (sound_real _ _ _ _ (enforce_ensures_ok _ _ _ _ _)) in E4. }
  apply bind_inv in HP as [(? & _ & ?)|([] & c1 & E5 & HP)]; [done|].
  apply (sound_real _ _ _ _ (enforce_invariants_ok _ _ _)) in E5 as [-> E5].
  apply bind_inv in HP as [(? & _ & ?)|([] & c1 & [= E6 <-] & HP)]; [done|].
  injection HP as <- <-. split; [done|]. exists settled. auto 8.
Qed.

Lemma hydrate_record_ok (c : Command T) (r : R) (id : str) (before : T) (deferred : bool) :
  hydrate_record c (hydrate c) r = Ok (id, before, deferred) →
  match hydrate c with
  | Create i build _ => i = id ∧ id ≠ [] ∧ (deferred = false → find r id = None) ∧ before = build tt
  | Act i => i = id ∧ find r id = Some before ∧ deferred = false
  end.
Proof.
  unfold hydrate_record. destruct (hydrate c) as [i build si|i]; intros E.
  - case_bool_decide as Hi; [done|]. destruct si; [by injection E as <- <- <-|].
    destruct (find r i) eqn:F; [done|]. by injection E as <- <- <-.
  - destruct (find r i) eqn:F; [|done]. by injection E as <- <- <-.
Qed.

(** C1: a real dispatch that succeeds started from the stored record (or, for
    a creation, from a fresh one under a non-empty identifier no record had),
    every given, the lifecycle, every ensure, every invariant of the aggregate
    and of its entities and the tenant boundary held, and it wrote exactly that
    record: it is found under its identifier, every other identifier is
    untouched, one mutation is logged, and the declared events are emitted in
    their declared order. *)
Theorem dispatch_success (c : Command T) (w w' : World R) (after : T) (evs : list Event) :
  valid (repo w) → collected w = None → (∀ t, (apply_mutations c t None).2 = None) →
  dispatch c w = (Ok (after, evs), w') →
  ∃ id before settled, established c (repo w) id before settled after ∧
    find (repo w') id = Some after ∧
    (∀ other, other ≠ id → find (repo w') other = find (repo w) other) ∧ valid (repo w') ∧
    mutations w' = mutations w ++
      [{| mutation_aggregate := aggregate_qualified_name c; mutation_id := id;
          mutation_operation := "save"; mutation_state := to_json after |}] ∧
    collected w' = None ∧
    map event_name evs = emits c ∧ Forall (λ ev, event_id ev = id ∧ event_payload ev = payload c) evs.
Proof.
  intros Hv Hc Ha. rewrite dispatch_eq. unfold dispatch_spec. rewrite Hc.
  destruct (hydrate_record c (hydrate c) (repo w)) as [[[id before] deferred]|] eqn:Hh; [|done].
  destruct (pipeline_rules c id before None) as [[after'|] c'] eqn:Hp; [|done].
  apply hydrate_record_ok in Hh. apply pipeline_ok in Hp as (-> & settled & Hr); [|done].
  intros E. assert (deferred = true → find (repo w) id = None) as Hd.
  { intros ->. by destruct (find (repo w) id). }
  assert ((Ok (after', emitted (emits c) (aggregate_qualified_name c) id (payload c)) : res _,
    {| repo := save (repo w) id after'; mutations := mutations w ++
         [{| mutation_aggregate := aggregate_qualified_name c; mutation_id := id;
             mutation_operation := "save"; mutation_state := to_json after' |}];
       collected := None |}) = (Ok (after, evs), w')) as E'.
  { destruct deferred; [rewrite Hd in E by done|]; exact E. }
  clear E. injection E' as -> <- <-. exists id, before, settled. split.
  - destruct Hr as (? & ? & ? & ? & ? & ? & ?). constructor; try done.
    destruct (hydrate c); destruct deferred; naive_solver.
  - cbn [repo mutations collected].
    split_and!; try done; try by apply save_valid.
    + by rewrite find_contents, save_contents, lookup_insert_eq by (done || by apply save_valid).
    + intros o Ho. by rewrite !find_contents, save_contents, lookup_insert_ne
        by (done || by apply save_valid).
    + unfold emitted. by rewrite map_map, map_id.
    + unfold emitted. apply Forall_map, list.Forall_true. done.
Qed.
End dispatch_success.

Lemma dispatch_success_witness :
  ∃ id before settled, id = "a1" ∧ balance before = 9 ∧ balance settled = 4 ∧
  established (U := ascii_tables) (X := no_regex) (withdraw (Act "a1") [above_zero "some" 3] 5) bank id before settled
    {| balance := 4; status := "open" |}.
Proof.
  destruct (@dispatch_success ascii_tables no_regex (InMemoryRepository Account) Account _ _ _
    (withdraw (Act "a1") [above_zero "some" 3] 5) (opened None)
    (@dispatch ascii_tables no_regex _ _ _ _ (withdraw (Act "a1") [above_zero "some" 3] 5) (opened None)).2
    {| balance := 4; status := "open" |}
    (emitted ["Withdrawn"] "Bank.Account" "a1" JNull))
    as (id & before & settled & H & _).
  - apply save_valid, save_valid. cbn. constructor.
  - reflexivity.
  - intros t. reflexivity.
  - vm_compute. reflexivity.
  - exists id, before, settled. pose proof (started _ _ _ _ _ _ H) as [<- Hf].
    vm_compute in Hf. injection Hf as <-. split_and!; try reflexivity; [|exact H].
    pose proof (applied _ _ _ _ _ _ H) as Ha. vm_compute in Ha. by injection Ha as <-.
Defined.
