(* ===== verification/EntityFacts.v ===== *)
(** What an entity command guarantees: the element half is the pipeline it
    reads as, only the located element of the parent changes, a refusal leaves
    the store as it was; and what decoding a command's arguments guarantees:
    the gates run in their declared order and the first that refuses is the
    refusal. *)
From S2P Require Export DispatchFacts.

(** ** The pipeline an element command is *)
Section element_pipeline.
Context `{U : UnicodeTables} `{X : RegexCrate}.
Context {T E : Type} `{RT : Recorded T} `{RE : Recorded E}.

Definition element_missing (c : EntityCommand T E) : Refusal :=
  NotFound (render_args (NotFoundEntityElementMissingArgs (entity_name c)
    (entity_identity_reading c) (wants c) (e_aggregate_name c) (debug_str (parent_id c)))).

(** What a clause of the command reads beside the element. *)
Definition clause_args (c : EntityCommand T E) (parent : T) : Fielded :=
  if parent_in_args c then WithParent (e_args c) (fielded parent) else e_args c.

(** The givens: those that correct an event, asked of the parent, then those
    asked of the element. *)
Definition givens_spec (c : EntityCommand T E) (parent : T) (el : E) : M collector unit :=
  for_each (e_givens c) (λ given,
    match corrects_event given with
    | None => ret tt
    | Some event_name =>
      let! v := lift (interpret (given_expr given) {| args := e_args c; instance := fielded parent |}) in
      if truthy v then ret tt
      else raise (nothing_to_correct (e_command_name c) event_name (e_aggregate_qualified_name c)
                    (parent_id c))
    end) ;;!
  stage (for_each (e_givens c) (λ given,
    match corrects_event given with
    | Some _ => ret tt
    | None =>
      enforce (given_expr given) {| args := clause_args c parent; instance := fielded el |}
        (GivenNotMet (e_command_name c ++ " refused — " ++ given_description given))
        (rule_detail (given_description given))
    end)).

(** The element half as one function of the parent record. *)
Definition element_spec (c : EntityCommand T E) (parent : T) : M collector T :=
  let elements := get_list (list_of c) parent in
  match find_index (matches c) elements ≫= (λ p, pair p <$> elements !! p) with
  | None => raise (element_missing c)
  | Some (p, el) =>
    givens_spec c parent el ;;!
    lift (admissible_transition (fielded el) (e_transition c) (e_command_name c)) ;;!
    let! el' := e_apply c el in
    let parent' := set_mut (list_of c) parent (<[p := el']> elements) in
    match e_ensures c with
    | [] => ret tt
    | _ => enforce_ensures (fielded el') (fielded el) (clause_args c parent') (e_ensures c)
             (e_command_name c)
    end ;;!
    ret parent'
  end.

Lemma find_index_lookup {A} (p : A → bool) (l : list A) (i : nat) :
  find_index p l = Some i → ∃ a, l !! i = Some a ∧ p a = true ∧
    ∀ j b, (j < i)%nat → l !! j = Some b → p b = false.
Proof.
  revert i. induction l as [|a l IH]; intros i; cbn [find_index]; [done|].
  destruct (p a) eqn:Ep; [intros [= <-]; exists a; split_and!; [done..|intros; lia]|].
  destruct (find_index p l) as [k|]; cbn; [|done]. intros [= <-].
  destruct (IH k eq_refl) as (b & Hb & Hp & Hlt). exists b. split_and!; [done..|].
  intros [|j] b' Hj; cbn; [by intros [= <-]|]. apply Hlt. lia.
Qed.

Lemma find_index_none {A} (p : A → bool) (l : list A) :
  find_index p l = None → Forall (λ a, p a = false) l.
Proof.
  induction l as [|a l IH]; cbn [find_index]; [constructor|].
  destruct (p a) eqn:Ep; [done|]. destruct (find_index p l); [done|]. by constructor; [|apply IH].
Qed.

Lemma sound_raise {A} (e : Refusal) : sound (λ _ : A, False) (raise e : M collector A).
Proof. split; [intros s; reflexivity|done]. Qed.

(** A given of an element command, asked of the parent or of the element. *)
Definition given_holds (c : EntityCommand T E) (parent : T) (el : E) (g : GivenSpec) : Prop :=
  match corrects_event g with
  | Some _ => holds (given_expr g) {| args := e_args c; instance := fielded parent |}
  | None => holds (given_expr g) {| args := clause_args c parent; instance := fielded el |}
  end.

Lemma givens_spec_ok (c : EntityCommand T E) (parent : T) (el : E) :
  sound (λ _, Forall (given_holds c parent el) (e_givens c)) (givens_spec c parent el).
Proof.
  eapply sound_weaken; [|eapply (sound_bind
    (λ _, Forall (λ g, is_Some (corrects_event g) → given_holds c parent el g) (e_givens c))
    (λ _ _, ∃ _ : unit, Forall (λ g, corrects_event g = None → given_holds c parent el g) (e_givens c)))].
  - intros _ (_ & H1 & _ & H2). rewrite !list.Forall_forall in *. intros g Hg.
    destruct (corrects_event g) eqn:Eg; [apply H1; eauto|eauto].
  - apply sound_for_each. intros g _. unfold given_holds. destruct (corrects_event g) as [ev|].
    2: { eapply sound_weaken; [|apply sound_ret]. intros ? _ [? ?]. done. }
    eapply sound_weaken; [|eapply (sound_bind _ (λ v _, truthy v = true));
      [apply sound_lift|intros v]].
    { intros [] (v & Hv & Hq) _. exists v. split; [done|]. exact Hq. }
    destruct (truthy v); [eapply sound_weaken; [|apply sound_ret]; done|].
    eapply sound_weaken; [|apply sound_raise]. done.
  - intros _. apply sound_stage, sound_for_each. intros g _. unfold given_holds.
    destruct (corrects_event g) as [ev|].
    + eapply sound_weaken; [|apply sound_ret]. intros ? _ ?. done.
    + eapply sound_weaken; [|apply sound_enforce]. intros ? ? _. done.
Qed.

Lemma element_spec_ok (c : EntityCommand T E) (parent parent' : T) (k : collector) :
  (∀ el, (e_apply c el None).2 = None) → element_spec c parent None = (Ok parent', k) →
  ∃ p el el', find_index (matches c) (get_list (list_of c) parent) = Some p ∧
    get_list (list_of c) parent !! p = Some el ∧ e_apply c el None = (Ok el', None) ∧
    parent' = set_mut (list_of c) parent (<[p := el']> (get_list (list_of c) parent)) ∧
    Forall (given_holds c parent el) (e_givens c) ∧
    admissible_transition (fielded el) (e_transition c) (e_command_name c) = Ok tt ∧
    Forall (λ s, holds (ensures_expr s)
              (ensures_ctx (fielded el') (fielded el) (clause_args c parent'))) (e_ensures c).
Proof.
  intros Ha HP. unfold element_spec in HP.
  destruct (find_index _ _) as [p|]; [|done]. cbn [mbind option_bind] in HP.
  destruct (get_list _ parent !! p) as [el|] eqn:Hel; [|done]. cbn in HP.
  apply bind_inv in HP as [(? & _ & ?)|([] & c1 & E1 & HP)]; [done|].
  apply (sound_real _ _ _ _ (givens_spec_ok _ _ _)) in E1 as [-> E1].
  apply bind_inv in HP as [(? & _ & ?)|([] & c1 & [= E2 <-] & HP)]; [done|].
  apply bind_inv in HP as [(? & _ & ?)|(el' & c1 & E3 & HP)]; [done|].
  specialize (Ha el). rewrite E3 in Ha. simpl in Ha. subst c1.
  apply bind_inv in HP as [(? & _ & ?)|([] & c1 & E4 & HP)]; [done|].
  injection HP as <- <-. exists p, el, el'. split_and!; try done.
  destruct (e_ensures c) as [|s l]; [constructor|].
  by apply (sound_real _ _ _ _ (enforce_ensures_ok _ _ _ _ _)) in E4 as [_ E4].
Qed.

(** Reads the element half's run as the matches it performs. *)
Ltac run_element_half :=
  cbv beta iota zeta delta
    [fold_steps EntityStep_ORDER run_element element_half locate_element element_givens element_apply
     element_ensures put_element givens_spec clause_args bind lift read ret raise ordered ok_or
     mut_slot e_apply_slot position element parent_before e_old_snapshot fst snd].

Lemma apply_entity_command_eq (c : EntityCommand T E) (parent : T) (k : collector) :
  same_list (list_of c) → apply_entity_command c parent k = element_spec c parent k.
Proof.
  intros [Hget Hset]. unfold apply_entity_command, element_spec.
  destruct (find_index (matches c) (get_list (list_of c) parent)) as [p|] eqn:Ef.
  2: { run_element_half. rewrite Ef. reflexivity. }
  destruct (find_index_lookup _ _ _ Ef) as (el & Hel & _ & _). cbn [mbind option_bind].
  rewrite Hel. cbn [fmap option_fmap option_map]. run_element_half. rewrite Ef, Hel.
  destruct (for_each _ _ k) as [[[]|?] k1]; [|reflexivity].
  destruct (stage _ k1) as [[[]|?] k2]; [|reflexivity].
  destruct (admissible_transition _ _ _); [|reflexivity].
  destruct (e_apply c el k2) as [[el'|?] k3]; [|destruct (e_ensures c); reflexivity].
  cbv beta iota. rewrite Hget, decide_True by (by eapply lookup_lt_Some). rewrite Hset.
  rewrite list_lookup_insert_eq by (by eapply lookup_lt_Some).
  destruct (e_ensures c) as [|s l]; [reflexivity|].
  by destruct (enforce_ensures _ _ _ _ _ k3) as [[[]|?] k4].
Qed.
End element_pipeline.

(** ** The pipeline an entity command's own dispatch is *)
Section entity_dispatch.
Context `{U : UnicodeTables} `{X : RegexCrate}.
Context {R T E : Type} `{RR : Repository R T} `{RT : Recorded T} `{RE : Recorded E}.

Definition dispatch_entity_spec (c : EntityCommand T E) (invariants : InvariantSet)
    (emits : list str) (payload : Json) (seeds : list (str * option Value)) (w : World R)
  : res (T * list Event) * World R :=
  match find (repo w) (parent_id c) with
  | None => (Err (NotFound (render_args (NotFoundRecordMissingArgs (e_aggregate_name c)
               (parent_identity_reading c) (debug_str (parent_id c))))), w)
  | Some parent =>
    let (outcome, k) :=
      (let! parent' := element_spec (with_parent c) parent in
       enforce_invariants (fielded parent') (e_aggregate_name c) invariants ;;!
       ret (seed parent' seeds)) (collected w) in
    match outcome with
    | Err e => (Err e, {| repo := repo w; mutations := mutations w; collected := k |})
    | Ok after =>
      (Ok (after, emitted emits (e_aggregate_qualified_name c) (parent_id c) payload),
       {| repo := save (repo w) (parent_id c) after;
          mutations := mutations w ++
            [{| mutation_aggregate := e_aggregate_qualified_name c; mutation_id := parent_id c;
                mutation_operation := "save"; mutation_state := to_json after |}];
          collected := k |})
    end
  end.

(** The steps before anything is written, over the frame of [dispatch_entity],
    are those of [apply_entity_command] over its own state. *)
Definition element_steps : list EntityStep :=
  [E_LocateElement; E_EnforceGivens; E_AdmissibleTransition; E_ApplyMutations; E_AdvanceLifecycle;
   E_EnforceEnsures].

Definition gate_steps : list EntityStep :=
  [E_DecodeArguments; E_RefuseUnknownArguments; E_RefuseAbsentArguments; E_NormalizeArgs;
   E_RefuseRoleMismatch; E_ResolveReferences; E_HydrateParent].
Definition write_steps : list EntityStep := [E_EnforceInvariants; E_Save; E_Emit].

Lemma entity_order : EntityStep_ORDER = gate_steps ++ element_steps ++ write_steps.
Proof. done. Qed.

Lemma element_run (c : EntityCommand T E) (record : T) (k : collector) :
  apply_entity_command c record k =
  (let! hr := fold_steps (run_element c) element_steps (element_half c, record) in ret hr.2) k.
Proof.
  assert (∀ hr k, fold_steps (run_element c) gate_steps hr k = (Ok hr, k)) as Hg by (by intros [] ?).
  assert (∀ hr k, fold_steps (run_element c) write_steps hr k = (Ok hr, k)) as Hw by (by intros [] ?).
  unfold apply_entity_command. rewrite entity_order. unfold bind at 1 2.
  rewrite fold_steps_app. erewrite bind_ok by apply Hg. rewrite fold_steps_app.
  unfold bind. destruct (fold_steps _ element_steps _ k) as [[hr|] k']; [|done].
  by rewrite Hw.
Qed.

Lemma frame_steps (c : EntityCommand T E) (inv : InvariantSet) (emits : list str) (payload : Json)
    (l : list EntityStep) (h : ElementHalf T E) (record : T) (sd : option (list (str * option Value)))
    (evs : list Event) (w : World R) :
  Forall (λ s, s ∈ element_steps) l →
  fold_steps (entity_step_run c inv emits payload) l
    {| half := h; e_seeds_slot := sd; e_hydrated := Some record; e_events := evs |} w =
  (let (r, k) := fold_steps (run_element c) l (h, record) (collected w) in
   (match r with
    | Ok (h', record') =>
      Ok {| half := h'; e_seeds_slot := sd; e_hydrated := Some record'; e_events := evs |}
    | Err e => Err e
    end, {| repo := repo w; mutations := mutations w; collected := k |})).
Proof.
  intros Hl. revert h record w. induction Hl as [|s l Hs _ IH]; intros h record w.
  { by destruct w. }
  cbn [fold_steps]. unfold bind at 1 2.
  assert (entity_step_run c inv emits payload s
    {| half := h; e_seeds_slot := sd; e_hydrated := Some record; e_events := evs |} w =
    (let (r, k) := run_element c s (h, record) (collected w) in
     (match r with
      | Ok (h', record') =>
        Ok {| half := h'; e_seeds_slot := sd; e_hydrated := Some record'; e_events := evs |}
      | Err e => Err e
      end, {| repo := repo w; mutations := mutations w; collected := k |}))) as ->.
  { assert (entity_step_run c inv emits payload s
      {| half := h; e_seeds_slot := sd; e_hydrated := Some record; e_events := evs |} =
      let! record := lift (ordered (Some record) HYDRATED) in
      let! hr := on_collector (run_element c s (h, record)) in
      ret {| half := hr.1; e_seeds_slot := sd; e_hydrated := Some hr.2; e_events := evs |}) as ->.
    { unfold element_steps in Hs.
      repeat (apply elem_of_cons in Hs as [->|Hs]; [reflexivity|]). by apply not_elem_of_nil in Hs. }
    unfold bind, lift, ordered, ok_or. rewrite on_collector_eq.
    by destruct (run_element c s (h, record) (collected w)) as [[[]|] k]. }
  destruct (run_element c s (h, record) (collected w)) as [[[h' record']|e] k]; [|done].
  by rewrite IH.
Qed.

Lemma dispatch_entity_eq (c : EntityCommand T E) (inv : InvariantSet) (emits : list str)
    (payload : Json) (seeds : list (str * option Value)) (w : World R) :
  same_list (list_of c) →
  dispatch_entity c inv emits payload seeds w = dispatch_entity_spec c inv emits payload seeds w.
Proof.
  intros Hl. unfold dispatch_entity, dispatch_entity_spec.
  rewrite entity_order. unfold bind at 1. rewrite fold_steps_app.
  set (step := entity_step_run _ _ _ _). set (frame := {| half := _ |}).
  assert (fold_steps step gate_steps frame w = match find (repo w) (parent_id c) with
    | Some parent => (Ok {| half := half frame; e_seeds_slot := e_seeds_slot frame;
                            e_hydrated := Some parent; e_events := e_events frame |}, w)
    | None => (Err (NotFound (render_args (NotFoundRecordMissingArgs (e_aggregate_name c)
        (parent_identity_reading c) (debug_str (parent_id c))))), w)
    end) as Hg.
  { unfold bind, read, lift, ret, ok_or, gate_steps. cbn. unfold bind, lift. cbn.
    by destruct (find (repo w) (parent_id c)). }
  destruct (find (repo w) (parent_id c)) as [parent|]; [|by erewrite bind_err].
  erewrite bind_ok by exact Hg. rewrite fold_steps_app. unfold bind at 1. unfold step.
  cbn [frame half e_seeds_slot e_events]. clear Hg step.
  rewrite frame_steps by (by apply list.Forall_forall).
  pose proof (apply_entity_command_eq (with_parent c) parent (collected w) Hl) as Heq.
  rewrite element_run in Heq. unfold bind, ret in *. rewrite <- Heq. clear Heq.
  destruct (fold_steps _ element_steps _ _) as [[[h' record']|e] k]; [|reflexivity].
  cbn [half e_seeds_slot e_hydrated e_events snd fold_steps write_steps entity_step_run].
  unfold bind, on_collector, zoom, read, lift, ret, ok_or. cbn -[enforce_invariants seed emitted].
  by destruct (enforce_invariants _ _ _ k) as [[[]|e] k'].
Qed.
End entity_dispatch.

(** ** An entity command for the witnesses: a line of an order is restocked *)
Section order.
Record Line := { line_id : str; quantity : Z }.
Record Order := { order_lines : list Line }.
Definition line_fields (l : Line) : Fielded :=
  MkFielded (λ n, if str_eqb n "quantity" then Some (FValue (VInt (quantity l))) else None)
    None None (λ _, None).
#[export] Instance line_recorded : Recorded Line :=
  {| fielded := line_fields; to_json l := JStr (line_id l); set_projected_field l _ _ := l |}.
#[export] Instance order_recorded : Recorded Order := {|
  fielded o := MkFielded (λ _, None) None None
    (λ n, if str_eqb n "lines" then Some (map (λ l, FNested (line_fields l)) (order_lines o)) else None);
  to_json o := JArray (map to_json (order_lines o));
  set_projected_field o _ _ := o
|}.
Definition lines_list : ListField Order Line := {|
  get_list := order_lines; get_mut := order_lines; set_mut _ ls := {| order_lines := ls |} |}.
Definition restock (line : str) (amount : Z) : EntityCommand Order Line := {|
  parent_id := "o1"; list_of := lines_list; matches l := str_eqb (line_id l) line;
  e_command_name := "Restock"; e_aggregate_qualified_name := "Shop.Order";
  e_aggregate_name := "Order"; parent_identity_reading := "number"; entity_name := "Line";
  entity_identity_reading := "sku"; wants := line; e_args := NoFields;
  e_givens := [{| given_description := "in stock"; given_expr := compare_with op_gt "quantity" 0;
                  corrects_event := None |}];
  e_transition := None;
  e_apply l := ret {| line_id := line_id l; quantity := quantity l + amount |};
  e_ensures := [{| ensures_description := "it went up";
                   ensures_expr := ECompare op_gt (ELookup "quantity") (ELookup "old.quantity") |}];
  parent_in_args := true |}.
Definition order_one : Order :=
  {| order_lines := [{| line_id := "pen"; quantity := 4 |}; {| line_id := "ink"; quantity := 2 |}] |}.
Definition shop (c : collector) : World (InMemoryRepository Order) :=
  {| repo := save new "o1" order_one; mutations := []; collected := c |}.
Lemma lines_same : same_list lines_list.
Proof. done. Qed.
End order.

(** ** Properties *)
Section entity_properties.
Context `{U : UnicodeTables} `{X : RegexCrate}.

(** C32: an entity command's dispatch is the pipeline a reader expects: find
    the parent, locate the first element that matches, hold the element to the
    givens and its lifecycle, apply to a copy of it, put the copy back, hold
    it to the ensures and the parent to its invariants, save the parent once
    and emit.  Indexing never runs past the list, no step finds a local missing,
    and a refusal has written nothing. *)
Theorem dispatch_entity_is_pipeline {R T E} `{Repository R T} `{Recorded T} `{Recorded E}
    (c : EntityCommand T E) (inv : InvariantSet) (emits : list str) (payload : Json)
    (seeds : list (str * option Value)) (w : World R) :
  same_list (list_of c) →
  dispatch_entity c inv emits payload seeds w = dispatch_entity_spec c inv emits payload seeds w ∧
  ∀ e, (dispatch_entity c inv emits payload seeds w).1 = Err e →
    repo (dispatch_entity c inv emits payload seeds w).2 = repo w ∧
    mutations (dispatch_entity c inv emits payload seeds w).2 = mutations w.
Proof.
  intros Hl. rewrite dispatch_entity_eq by done. split; [done|]. intros e.
  unfold dispatch_entity_spec. destruct (find (repo w) (parent_id c)) as [parent|]; [|done].
  destruct (bind _ _ (collected w)) as [[after|e'] k]; done.
Qed.

(** Where an element command succeeds, a real run of the element half has
    changed exactly one element of the parent's list, the first that matches,
    to what its mutations made of it; the element met every given asked of it
    and every corrected event was asked of the parent, the lifecycle admitted
    it and what it became met every ensure. *)
Theorem element_command_success {T E} `{Recorded T} `{Recorded E} (c : EntityCommand T E)
    (parent parent' : T) :
  same_list (list_of c) → (∀ el, (e_apply c el None).2 = None) →
  apply_entity_command c parent None = (Ok parent', None) →
  ∃ p el el', get_list (list_of c) parent !! p = Some el ∧ matches c el = true ∧
    (∀ j other, (j < p)%nat → get_list (list_of c) parent !! j = Some other → matches c other = false) ∧
    e_apply c el None = (Ok el', None) ∧
    parent' = set_mut (list_of c) parent (<[p := el']> (get_list (list_of c) parent)) ∧
    (∀ j, j ≠ p → get_list (list_of c) parent' !! j = get_list (list_of c) parent !! j) ∧
    Forall (given_holds c parent el) (e_givens c) ∧
    admissible_transition (fielded el) (e_transition c) (e_command_name c) = Ok tt ∧
    Forall (λ s, holds (ensures_expr s)
              (ensures_ctx (fielded el') (fielded el) (clause_args c parent'))) (e_ensures c).
Proof.
  intros Hl Ha HP. rewrite apply_entity_command_eq in HP by done.
  apply element_spec_ok in HP as (p & el & el' & Hf & Hel & Hap & -> & Hr); [|done].
  destruct (find_index_lookup _ _ _ Hf) as (el0 & Hel0 & Hm & Hfirst). simplify_eq.
  exists p, el, el'. split_and!; try done; try apply Hr.
  intros j Hj. destruct Hl as [_ Hset]. rewrite Hset. by apply list_lookup_insert_ne.
Qed.
End entity_properties.

Lemma dispatch_entity_is_pipeline_witness :
  repo (@dispatch_entity ascii_tables no_regex _ _ _ _ _ _ (restock "pen" (-1))
          {| aggregate_invariants := []; entity_invariants := [] |} ["Restocked"] JNull [] (shop None)).2
  = repo (shop None).
Proof.
  refine (proj1 (proj2 (@dispatch_entity_is_pipeline ascii_tables no_regex _ _ _ _ _ _ (restock "pen" (-1))
    {| aggregate_invariants := []; entity_invariants := [] |} ["Restocked"] JNull [] (shop None) lines_same)
    (EnsuresNotMet "Restock refused — it went up") _)).
  vm_compute. reflexivity.
Defined.

Lemma element_command_success_witness :
  ∃ p, (∀ j, j ≠ p → order_lines {| order_lines :=
           [{| line_id := "pen"; quantity := 4 |}; {| line_id := "ink"; quantity := 7 |}] |} !! j
         = order_lines order_one !! j) ∧ p = 1%nat.
Proof.
  destruct (@element_command_success ascii_tables no_regex _ _ _ _ (restock "ink" 5) order_one
    {| order_lines := [{| line_id := "pen"; quantity := 4 |}; {| line_id := "ink"; quantity := 7 |}] |})
    as (p & el & el' & Hel & Hm & _ & _ & _ & Hj & _).
  - exact lines_same.
  - intros el. reflexivity.
  - vm_compute. reflexivity.
  - exists p. split; [exact Hj|]. cbn in Hel. destruct p as [|[|p]]; [|done|done].
    injection Hel as <-. vm_compute in Hm. done.
Defined.

Section gate_properties.
Context {A : Type}.

(** Runs the gates of an order, one outcome at a time. *)
Ltac run_gates :=
  cbv beta iota zeta delta
    [decode_aggregate_arguments decode_entity_arguments fold_steps AggregateStep_ORDER
     EntityStep_ORDER decode_step aggregate_gate entity_gate run_gate bind mark read lift ret
     ordered ok_or];
  repeat (match goal with
          | |- context [match ?x with pair _ _ => _ end] =>
            lazymatch x with context [match _ with pair _ _ => _ end] => fail | _ => destruct x as [[?|?] ?] end
          end; cbv beta iota; try reflexivity).

(** Decoding a command's arguments, by either order, is the gates one
    after the other: decode, then unknown and absent arguments collected as
    one stage and settled, then normalisation, the caller's role, and the
    references of what was normalised.  The arguments are always normalised
    before they are read. *)
Theorem decode_is_gate_pipeline (g : ArgumentGates A) (facts : Json) (c : collector) :
  decode_aggregate_arguments facts g c = decode_entity_arguments facts g c ∧
  decode_aggregate_arguments facts g c =
  (let! m := mark in
   decode_arguments g facts ;;!
   refuse_unknown_arguments g facts ;;!
   refuse_absent_arguments g facts ;;!
   settle m ;;!
   let! a := normalize_args g facts in
   refuse_role_mismatch g ;;!
   resolve_references g a ;;!
   ret a) c.
Proof.
  assert (∀ r, decode_entity_arguments facts g c = r → decode_aggregate_arguments facts g c = r →
    decode_aggregate_arguments facts g c = decode_entity_arguments facts g c ∧
    decode_aggregate_arguments facts g c = r) as Hboth by (intros r -> ->; done).
  apply Hboth; run_gates.
Qed.
End gate_properties.
