(* ===== verification/Needs.v ===== *)
(** Facts a command needs ([src/rust/src/kernel/needs.rs]): the tables the
    host installs, the clock and the callback that answer them, and filling
    in what the caller left out.  The thread-locals are the [Facts]; the
    system clock and the host's callback are arguments of the model over a
    state of their own.  Arithmetic on [i64] wraps, as the release build's
    does.  The facts say that the clock's day
    count is the calendar's, that a stamp is read back as the moment it names, that a
    fact the caller supplied is never replaced and every needed moment is filled. *)
From stdpp Require Import gmap.
From S2P Require Export RustText Json.

Record Need := { need_fact : str; attribute_type : str }.

Record Facts := {
  needs_table : gmap str (list Need);
  defaults_table : gmap str (list (str * Json));
  query_table : gmap str (list Need);
  fixed_clock : option Z
}.

(** What answers from outside: the system clock in seconds, and the host's
    callback when one is installed. *)
Class HostFacts (S : Type) := {
  system_secs : S → Z * S;
  asker : option (str → str → S → option Json * S)
}.

(** A [HashMap] collected from pairs: a later pair replaces an earlier one. *)
Definition collect_map {A} (pairs : list (str * A)) : gmap str A := list_to_map (reverse pairs).

Definition parse_need (n : Json) : option Need :=
  f ← get n "fact" ≫= as_str;
  Some {| need_fact := f; attribute_type := default [] (get n "type" ≫= as_str) |}.
Definition parse_table (table : option Json) : gmap str (list Need) :=
  match table with
  | Some (JObject entries) =>
    collect_map (map (λ '(name, needs), (name, omap parse_need (default [] (as_array needs)))) entries)
  | _ => ∅
  end.

Definition install (t : option Json) (s : Facts) : Facts := {|
  needs_table := parse_table t; defaults_table := defaults_table s; query_table := query_table s;
  fixed_clock := fixed_clock s |}.
Definition install_queries (t : option Json) (s : Facts) : Facts := {|
  needs_table := needs_table s; defaults_table := defaults_table s; query_table := parse_table t;
  fixed_clock := fixed_clock s |}.
Definition install_defaults (t : option Json) (s : Facts) : Facts := {|
  needs_table := needs_table s;
  defaults_table := match t with
    | Some (JObject entries) =>
      collect_map (omap (λ '(verb, attributes),
        match attributes with JObject held => Some (verb, held) | _ => None end) entries)
    | _ => ∅
    end;
  query_table := query_table s; fixed_clock := fixed_clock s |}.
Definition fix_clock (secs : option Z) (s : Facts) : Facts := {|
  needs_table := needs_table s; defaults_table := defaults_table s; query_table := query_table s;
  fixed_clock := secs |}.

(** ** [i64] arithmetic *)
Definition wadd (a b : Z) : Z := wrap64 (a + b).
Definition wsub (a b : Z) : Z := wrap64 (a - b).
Definition wmul (a b : Z) : Z := wrap64 (a * b).
(** [/] truncates; no divisor here is 0 or -1. *)
Definition wdiv (a b : Z) : Z := Z.quot a b.
Declare Scope i64_scope.
Delimit Scope i64_scope with i64.
#[global] Arguments wadd (a b)%_i64_scope.
#[global] Arguments wsub (a b)%_i64_scope.
#[global] Arguments wmul (a b)%_i64_scope.
#[global] Arguments wdiv (a b)%_i64_scope.
Notation "a + b" := (wadd a b) : i64_scope.
Notation "a - b" := (wsub a b) : i64_scope.
Notation "a * b" := (wmul a b) : i64_scope.
Notation "a / b" := (wdiv a b) : i64_scope.

(** Days since 1970-01-01, as the function computes them from a year, a month
    and a day. *)
Definition days_from_civil (y m day : Z) : Z :=
  let y := if m <=? 2 then (y - 1)%i64 else y in
  let era := ((if (y >=? 0)%Z then y else y - 399) / 400)%i64 in
  let yoe := (y - era * 400)%i64 in
  let doy := ((153 * (if (2 <? m)%Z then m - 3 else m + 9) + 2) / 5 + day - 1)%i64 in
  let doe := (yoe * 365 + yoe / 4 - yoe / 100 + doy)%i64 in
  (era * 146097 + doe - 719468)%i64.

(** The first three pieces of a split, each parsed. *)
Definition three_i64 (pieces : list str) (last : str → str) : option (Z * Z * Z) :=
  match pieces with
  | a :: b :: c :: _ =>
    a ← parse_i64 a; b ← parse_i64 b; c ← parse_i64 (last c); Some (a, b, c)
  | _ => None
  end.
Definition strip_suffix_char (s : str) (c : char) : option str :=
  match rev s with x :: r => if (x =? c)%N then Some (rev r) else None | [] => None end.

Definition parse_iso8601_utc (text : str) : option Z :=
  text ← strip_suffix_char text 90;
  '(date, time) ← split_once text 84;
  '(y, m, day) ← three_i64 (split date "-") id;
  '(h, mi, s) ← three_i64 (split time ":") (λ c, default [] (head (split c ".")));
  Some (days_from_civil y m day * 86400 + h * 3600 + mi * 60 + s)%i64.

(** ** Answering *)
Section answering.
Context {S : Type} `{HostFacts S}.

Definition now_secs (fs : Facts) (occurred_at : option str) (s : S) : Z * S :=
  match fixed_clock fs with
  | Some fixed => (fixed, s)
  | None =>
    match occurred_at ≫= parse_iso8601_utc with
    | Some secs => (secs, s)
    | None => system_secs s
    end
  end.

Definition ask (need : Need) (s : S) : option Json * S :=
  match asker with
  | Some f => f (need_fact need) (attribute_type need) s
  | None => (None, s)
  end.

Definition answer (fs : Facts) (need : Need) (occurred_at : option str) (s : S) : option Json * S :=
  if str_eqb (need_fact need) "now" || str_eqb (need_fact need) "today" then
    let (secs, s') := now_secs fs occurred_at s in
    let a := if str_eqb (need_fact need) "today" then secs / 86400 else secs in
    (Some (if str_eqb (attribute_type need) "Integer" then json_int a
           else JObject [("value", json_int a)]), s')
  else ask need s.

Definition has_key (k : str) (fields : list (str * Json)) : bool :=
  existsb (λ '(k', _), str_eqb k' k) fields.

(** The loop over the needs: a fact not held is answered and appended. *)
Fixpoint fill_needs (fs : Facts) (occurred_at : option str) (held : list (str * Json))
    (needs : list Need) (filled : list (str * Json)) (s : S) : list (str * Json) * S :=
  match needs with
  | [] => (filled, s)
  | need :: rest =>
    if has_key (need_fact need) held then fill_needs fs occurred_at held rest filled s
    else
      let (value, s') := answer fs need occurred_at s in
      fill_needs fs occurred_at held rest
        (match value with Some v => filled ++ [(need_fact need, v)] | None => filled end) s'
  end.
Definition fill_defaults (defaults filled : list (str * Json)) : list (str * Json) :=
  fold_left (λ acc '(name, value), if has_key name acc then acc else acc ++ [(name, value)])
    defaults filled.

Definition enrich (fs : Facts) (verb : str) (args : Json) (occurred_at : option str) (s : S)
  : option Json * S :=
  let needs := default [] (needs_table fs !! verb) in
  let defaults := default [] (defaults_table fs !! verb) in
  match needs, defaults with
  | [], [] => (None, s)
  | _, _ =>
    let explicit := match get args "with" with Some (JObject _) => true | _ => false end in
    let facts := if explicit then get args "with" else Some args in
    match facts with
    | Some (JObject held) =>
      let (filled, s') := fill_needs fs occurred_at held needs held s in
      let filled := fill_defaults defaults filled in
      if (length filled =? length held)%nat then (None, s')
      else if negb explicit then (Some (JObject filled), s')
      else match args with
           | JObject envelope =>
             (Some (JObject (map (λ '(k, v), if str_eqb k "with" then (k, JObject filled) else (k, v))
                               envelope)), s')
           | _ => (None, s')
           end
    | _ => (None, s)
    end
  end.

Definition enrich_query (fs : Facts) (question : str) (args : Json) (occurred_at : option str) (s : S)
  : option Json * S :=
  match query_table fs !! question, args with
  | Some needs, JObject held =>
    let (filled, s') := fill_needs fs occurred_at held needs held s in
    if (length filled =? length held)%nat then (None, s') else (Some (JObject filled), s')
  | _, _ => (None, s)
  end.
End answering.

Open Scope Z_scope.

(** ** The calendar the clock is read by *)
Definition leap_year (y : Z) : bool := ((y mod 4 =? 0) && negb (y mod 100 =? 0)) || (y mod 400 =? 0).
Definition days_in_month (y m : Z) : Z :=
  if m =? 2 then if leap_year y then 29 else 28
  else if (m =? 4) || (m =? 6) || (m =? 9) || (m =? 11) then 30 else 31.
Definition valid_date (y m d : Z) : Prop := 1 <= m <= 12 ∧ 1 <= d <= days_in_month y m.
Definition next_date (y m d : Z) : Z * Z * Z :=
  if d <? days_in_month y m then (y, m, d + 1)
  else if m <? 12 then (y, m + 1, 1) else (y + 1, 1, 1).

Definition civil (y m day : Z) : Z :=
  let y := if m <=? 2 then y - 1 else y in
  let era := y / 400 in
  let yoe := y mod 400 in
  let doy := (153 * (if 2 <? m then m - 3 else m + 9) + 2) / 5 + day - 1 in
  era * 146097 + (yoe * 365 + yoe / 4 - yoe / 100 + doy) - 719468.

Lemma days_from_civil_exact (y m d : Z) :
  Z.abs y <= 10 ^ 9 -> 1 <= m <= 12 -> 1 <= d <= 31 -> days_from_civil y m d = civil y m d.
Proof.
  intros Hy Hm Hd. unfold days_from_civil, civil, wadd, wsub, wmul, wdiv.
  set (y' := if m <=? 2 then y - 1 else y).

  assert ((if m <=? 2 then wrap64 (y - 1) else y) = y') as ->.
  { unfold y'. destruct (m <=? 2); [apply wrap64_small; lia|done]. }
  assert (Z.abs y' <= 10 ^ 9 + 1) as Hy' by (unfold y'; destruct (m <=? 2); lia).
  clearbody y'. cbv zeta.
  assert (Z.quot (if y' >=? 0 then y' else wrap64 (y' - 399)) 400 = y' / 400) as ->.
  { destruct (Z.geb_spec y' 0); [apply Z.quot_div_nonneg; lia|].
    rewrite wrap64_small by lia. Z.to_euclidean_division_equations; lia. }
  assert (wrap64 (y' - wrap64 (y' / 400 * 400)) = y' mod 400) as ->.
  { assert (Z.abs (y' / 400) <= 10 ^ 7) by (Z.to_euclidean_division_equations; lia).
    rewrite !wrap64_small by (rewrite ?wrap64_small; lia).  rewrite Z.mod_eq; lia. }
  set (era := y' / 400). set (yoe := y' mod 400).
  assert (0 <= yoe < 400) by (apply Z.mod_pos_bound; lia).
  assert (Z.abs era <= 10 ^ 7) by (unfold era; Z.to_euclidean_division_equations; lia).
  clearbody era yoe.
  set (mp := if 2 <? m then m - 3 else m + 9).
  assert ((if 2 <? m then wrap64 (m - 3) else wrap64 (m + 9)) = mp) as ->
    by (unfold mp; destruct (2 <? m); apply wrap64_small; lia).
  assert (0 <= mp <= 11) by (unfold mp; destruct (Z.ltb_spec 2 m); lia). clearbody mp.
  rewrite (wrap64_small (153 * mp)), (wrap64_small (153 * mp + 2)) by lia.
  rewrite !Z.quot_div_nonneg by lia.
  assert (0 <= (153 * mp + 2) / 5 <= 400) by (Z.to_euclidean_division_equations; lia).
  assert (0 <= yoe / 4 <= 100) by (Z.to_euclidean_division_equations; lia).
  assert (0 <= yoe / 100 <= 4) by (Z.to_euclidean_division_equations; lia).
  generalize dependent ((153 * mp + 2) / 5); intros a ?.
  generalize dependent (yoe / 4); intros b ?.
  generalize dependent (yoe / 100); intros e ?.
  repeat match goal with |- context [wrap64 ?x] =>
    lazymatch x with context [wrap64 _] => fail | _ => rewrite (wrap64_small x) by lia end end.
  lia.
Qed.

Lemma civil_leap (y : Z) :
  civil y 3 1 = civil y 2 28 + (if leap_year y then 2 else 1).
Proof.
  unfold civil, leap_year; cbn -[Z.div Z.modulo].
  assert (y mod 4 = (y mod 400) mod 4) as -> by (Z.to_euclidean_division_equations; lia).
  assert (y mod 100 = (y mod 400) mod 100) as -> by (Z.to_euclidean_division_equations; lia).
  pose proof (Z.div_mod (y - 1) 400 ltac:(lia)). pose proof (Z.div_mod y 400 ltac:(lia)).
  pose proof (Z.mod_pos_bound (y - 1) 400 ltac:(lia)). pose proof (Z.mod_pos_bound y 400 ltac:(lia)).
  generalize dependent (y / 400); intros a. generalize dependent (y mod 400); intros b.
  generalize dependent ((y - 1) / 400); intros a'. generalize dependent ((y - 1) mod 400); intros b' ? ? ? ?.
  assert ((b = 0 ∧ b' = 399 ∧ a' = a - 1) ∨ (0 < b ∧ b' = b - 1 ∧ a' = a)) as [(-> & -> & ->)|(? & -> & ->)]
    by lia; [cbn; rewrite orb_true_r; Z.to_euclidean_division_equations; lia|].
  destruct (Z.eqb_spec (b mod 4) 0), (Z.eqb_spec (b mod 100) 0), (Z.eqb_spec b 0); cbn -[Z.div Z.modulo];
    Z.to_euclidean_division_equations; lia.
Qed.

(** Evaluates the tests of closed numbers. *)
Ltac closed_tests :=
  repeat match goal with
         | |- context [(?a <=? ?b)] => let r := eval vm_compute in (a <=? b) in change (a <=? b) with r
         | |- context [(?a <? ?b)] => let r := eval vm_compute in (a <? b) in change (a <? b) with r
         | |- context [(?a =? ?b)] => let r := eval vm_compute in (a =? b) in change (a =? b) with r
         | |- context [(153 * ?a + 2) / 5] =>
           let r := eval vm_compute in ((153 * a + 2) / 5) in change ((153 * a + 2) / 5) with r
         end; cbv beta iota zeta delta [orb].

Lemma civil_next (y m d : Z) :
  valid_date y m d ->
  let '(y', m', d') := next_date y m d in civil y' m' d' = civil y m d + 1 ∧ valid_date y' m' d'.
Proof.
  intros [Hm Hd]. unfold next_date. destruct (Z.ltb_spec d (days_in_month y m)).
  { split; [unfold civil; lia|split; lia]. }
  assert (d = days_in_month y m) as -> by lia. clear Hd.
  assert (m ∈ ([1; 2; 3; 4; 5; 6; 7; 8; 9; 10; 11; 12] : list Z)) as Hc.
  { rewrite !elem_of_cons. destruct (decide (m = 12)) as [|]; [tauto|]. enough (m = 1 ∨ m = 2 ∨ m = 3 ∨ m = 4 ∨ m = 5 ∨ m = 6 ∨ m = 7 ∨ m = 8 ∨ m = 9 ∨ m = 10 ∨ m = 11) by tauto. lia. }
  pose proof (civil_leap y) as Hleap. unfold valid_date, days_in_month.
  repeat (apply elem_of_cons in Hc as [->|Hc];
    [closed_tests; split; [|split; [lia|split; [lia|repeat case_match; lia]]]; revert Hleap;
     try destruct (leap_year y); unfold civil; closed_tests;
     rewrite ?Z.add_simpl_r; closed_tests; lia|]).
  by apply not_elem_of_nil in Hc.
Qed.

(** ** The stamp the host writes: [YYYY-MM-DDTHH:MM:SSZ] *)
Definition padded (width : nat) (n : N) : str := pad_left 48 width (dec_N n).
Definition iso8601 (y m d h mi s : N) : str :=
  padded 4 y ++ "-" ++ padded 2 m ++ "-" ++ padded 2 d ++ "T" ++
  padded 2 h ++ ":" ++ padded 2 mi ++ ":" ++ padded 2 s ++ "Z".

Lemma padded_digits (w : nat) (n : N) :
  forallb is_digit (padded w n) = true ∧ digits_value (padded w n) = n ∧ padded w n ≠ [].
Proof.
  unfold padded, pad_left. destruct (dec_N_spec n) as (H1 & H2 & H3).
  generalize (w - length (dec_N n))%nat as k. intros k.
  assert (forallb is_digit (replicate k 48%N) = true) as Hk by (by induction k).
  split_and!.
  - change (forallb is_digit (replicate k 48%N ++ dec_N n) = true). by rewrite forallb_app, Hk.
  - change (digits_value (replicate k 48%N ++ dec_N n) = n). unfold digits_value in *. rewrite fold_left_app.
    replace (fold_left _ (replicate k 48%N) 0%N) with 0%N; [done|]. clear. by induction k.
  - intros [_ ?]%app_nil. done.
Qed.

Lemma parse_i64_padded (w : nat) (n : N) : (n < 10 ^ 18)%N → parse_i64 (padded w n) = Some (Z.of_N n).
Proof.
  intros Hn. destruct (padded_digits w n) as (H1 & H2 & H3).
  assert (parse_digits (padded w n) = Some n) as Hp.
  { unfold parse_digits. destruct (padded w n); [done|]. by rewrite H1, H2. }
  assert (checked (Z.of_N n) = Some (Z.of_N n)) as Hc.
  { unfold checked, in_i64, i64_min, i64_max. destruct (Z.leb_spec (-2 ^ 63) (Z.of_N n)); [|lia].
    destruct (Z.leb_spec (Z.of_N n) (2 ^ 63 - 1)); [done|lia]. }
  destruct (padded w n) as [|c r] eqn:E; [done|]. cbn [forallb] in H1.
  apply andb_true_iff in H1 as [Hd _]. unfold is_digit in Hd. apply andb_true_iff in Hd as [Hd _].
  apply N.leb_le in Hd. unfold parse_i64.
  repeat (case_match; try lia); rewrite Hp; cbn; exact Hc.
Qed.

Lemma digits_no (c : char) (w : nat) (n : N) : is_digit c = false → c ∉ padded w n.
Proof.
  intros Hc Hin. destruct (padded_digits w n) as (H1 & _ & _).
  rewrite forallb_forall in H1. apply list_elem_of_In, H1 in Hin. congruence.
Qed.

Lemma split_single_last (a : str) (c : char) : c ∉ a → split a [c] = [a].
Proof.
  intros Ha. unfold split. enough (∀ p, split_go [c] 0 p a = [rev p ++ a]) as H by (by rewrite H).
  induction a as [|x a IH]; intros p; cbn [split_go]; [by rewrite app_nil_r|].
  apply not_elem_of_cons in Ha as [Hx Ha]. cbn [starts_with].
  destruct (N.eqb_spec x c); [by subst|]. cbn [andb]. rewrite IH by done. cbn. by rewrite <- app_assoc.
Qed.

Lemma split_single (a b : str) (c : char) : c ∉ a → split (a ++ c :: b) [c] = a :: split b [c].
Proof.
  intros Ha. unfold split.
  enough (∀ p, split_go [c] 0 p (a ++ c :: b) = (rev p ++ a) :: split_go [c] 0 [] b) as H by (by rewrite H).
  induction a as [|x a IH]; intros p; cbn [split_go app].
  { cbn [starts_with]. rewrite N.eqb_refl, app_nil_r. by destruct b. }
  apply not_elem_of_cons in Ha as [Hx Ha]. cbn [starts_with].
  destruct (N.eqb_spec x c); [by subst|]. cbn [andb]. rewrite IH by done. cbn. by rewrite <- app_assoc.
Qed.

Lemma strip_suffix_app (a : str) (c : char) : strip_suffix_char (a ++ [c]) c = Some a.
Proof. unfold strip_suffix_char. rewrite rev_app_distr. cbn. by rewrite N.eqb_refl, rev_involutive. Qed.

Lemma three_padded (w : nat) (a b c : N) (sep : char) (last : str → str) :
  is_digit sep = false → last (padded 2 c) = padded 2 c →
  (a < 10 ^ 18)%N → (b < 10 ^ 18)%N → (c < 10 ^ 18)%N →
  three_i64 (split (padded w a ++ sep :: padded 2 b ++ sep :: padded 2 c) [sep]) last =
  Some (Z.of_N a, Z.of_N b, Z.of_N c).
Proof.
  intros Hs Hl ? ? ?. rewrite !split_single, split_single_last by (by apply digits_no).
  unfold three_i64. by rewrite Hl, !parse_i64_padded.
Qed.

Lemma parse_iso8601_stamp (y m d h mi s : N) :
  Forall (λ n, n < 10 ^ 18)%N [y; m; d; h; mi; s] →
  parse_iso8601_utc (iso8601 y m d h mi s) =
  Some (days_from_civil (Z.of_N y) (Z.of_N m) (Z.of_N d) * 86400 + Z.of_N h * 3600
        + Z.of_N mi * 60 + Z.of_N s)%i64.
Proof.
  intros Hb. repeat (apply Forall_cons_iff in Hb as [? Hb]). clear Hb.
  set (date := padded 4 y ++ 45%N :: padded 2 m ++ 45%N :: padded 2 d).
  set (time := padded 2 h ++ 58%N :: padded 2 mi ++ 58%N :: padded 2 s).
  assert (iso8601 y m d h mi s = (date ++ 84%N :: time) ++ [90%N]) as ->.
  { unfold iso8601, date, time. rewrite <- !app_assoc. cbn [app]. rewrite <- !app_assoc. cbn [app].
    by rewrite <- !app_assoc. }
  unfold parse_iso8601_utc. rewrite strip_suffix_app. cbn [mbind option_bind].
  rewrite split_once_single.
  2: { unfold date. rewrite !elem_of_app, !elem_of_cons, !elem_of_app, !elem_of_cons.
       pose proof (digits_no 84 4 y eq_refl). pose proof (digits_no 84 2 m eq_refl).
       pose proof (digits_no 84 2 d eq_refl). naive_solver. }
  assert (three_i64 (split date "-") id = Some (Z.of_N y, Z.of_N m, Z.of_N d)) as Hd
    by exact (three_padded 4 y m d 45 id eq_refl eq_refl ltac:(done) ltac:(done) ltac:(done)).
  assert (default [] (head (split (padded 2 s) ".")) = padded 2 s) as Hs.
  { change (default [] (head (split (padded 2 s) [46%N])) = padded 2 s).
    by rewrite split_single_last by (by apply digits_no). }
  assert (three_i64 (split time ":") (λ c, default [] (head (split c "."))) =
          Some (Z.of_N h, Z.of_N mi, Z.of_N s)) as Ht
    by exact (three_padded 2 h mi s 58 _ eq_refl Hs ltac:(done) ltac:(done) ltac:(done)).
  cbn [mbind option_bind]. rewrite Hd. cbn [mbind option_bind]. by rewrite Ht.
Qed.

(** ** Filling in *)
Section filling.
Context {S : Type} `{HF : HostFacts S}.

Lemma has_key_elem (k : str) (l : list (str * Json)) : has_key k l = true ↔ k ∈ l.*1.
Proof.
  unfold has_key. rewrite existsb_exists, list_elem_of_fmap. split.
  - intros ([k' v] & Hin & E%bool_decide_eq_true). subst. exists (k, v). split; [done|].
    by apply list_elem_of_In.
  - intros ([k' v] & -> & Hin). exists (k', v). split; [by apply list_elem_of_In|].
    by apply bool_decide_eq_true.
Qed.

(** A fact the kernel itself answers. *)
Definition clock_fact (n : Need) : Prop := need_fact n = "now" ∨ need_fact n = "today".

Lemma answer_clock (fs : Facts) (n : Need) (occ : option str) (s : S) :
  clock_fact n → ∃ v s', answer fs n occ s = (Some v, s').
Proof.
  unfold answer. intros [->| ->]; cbn [str_eqb bool_decide orb];
    destruct (now_secs fs occ s) as [secs s'];
    change (str_eqb _ _ || _) with true; eauto.
Qed.

(** What the loops add: only facts the caller did not hold. *)
Definition adds (held filled : list (str * Json)) : Prop :=
  ∃ more, filled = held ++ more ∧ Forall (λ '(k, _), k ∉ held.*1) more.

Lemma fill_needs_adds (fs : Facts) (occ : option str) (held : list (str * Json)) (needs : list Need)
    (filled : list (str * Json)) (s : S) :
  adds held filled →
  adds held (fill_needs fs occ held needs filled s).1 ∧
  filled.*1 ⊆ (fill_needs fs occ held needs filled s).1.*1 ∧
  Forall (λ n, clock_fact n → need_fact n ∈ (fill_needs fs occ held needs filled s).1.*1) needs.
Proof.
  revert filled s. induction needs as [|n needs IH]; intros filled s Ha; cbn [fill_needs]; [done|].
  destruct (has_key (need_fact n) held) eqn:Ek.
  - destruct (IH filled s Ha) as (H1 & H2 & H3). split_and!; [done..|]. constructor; [|done].
    intros _. apply H2. destruct Ha as (more & -> & _). rewrite fmap_app, elem_of_app. left.
    by apply has_key_elem.
  - destruct (answer fs n occ s) as [value s'] eqn:Ev.
    assert (adds held (match value with Some v => filled ++ [(need_fact n, v)] | None => filled end)) as Ha'.
    { destruct value as [v|]; [|done]. destruct Ha as (more & -> & Hm).
      exists (more ++ [(need_fact n, v)]). split; [by rewrite app_assoc|]. apply Forall_app; split; [done|].
      constructor; [|constructor]. intros Hin%has_key_elem. congruence. }
    destruct (IH _ s' Ha') as (H1 & H2 & H3). split_and!; [done| |constructor; [|done]].
    + etransitivity; [|exact H2]. destruct value; [|done]. rewrite fmap_app. set_solver.
    + intros Hc. destruct (answer_clock fs n occ s Hc) as (v & s2 & E). rewrite E in Ev.
      injection Ev as <- <-. apply H2. rewrite fmap_app. set_solver.
Qed.

Lemma fill_defaults_adds (defaults held filled : list (str * Json)) :
  adds held filled →
  adds held (fill_defaults defaults filled) ∧ filled.*1 ⊆ (fill_defaults defaults filled).*1 ∧
  defaults.*1 ⊆ (fill_defaults defaults filled).*1.
Proof.
  unfold fill_defaults. revert filled. induction defaults as [|[k v] l IH]; intros filled Ha; cbn [fold_left].
  { split_and!; [done..|]. set_solver. }
  set (acc := if has_key k filled then filled else filled ++ [(k, v)]).
  assert (adds held acc ∧ filled.*1 ⊆ acc.*1 ∧ k ∈ acc.*1) as (H1 & H2 & H3).
  { unfold acc. destruct (has_key k filled) eqn:E.
    - split_and!; [done..|]. by apply has_key_elem.
    - split_and!; [|rewrite fmap_app; set_solver..].
      destruct Ha as (more & -> & Hm). exists (more ++ [(k, v)]). split; [by rewrite app_assoc|].
      apply Forall_app; split; [done|]. constructor; [|constructor]. intros Hin%has_key_elem.
      unfold has_key in *. by rewrite existsb_app, Hin in E. }
  destruct (IH acc H1) as (H4 & H5 & H6). split_and!; [done|set_solver|].
  cbn [fmap list_fmap fst]. set_solver.
Qed.
End filling.

Lemma assoc_with_put (k : str) (new : Json) (l : list (str * Json)) :
  assoc k (map (λ '(k, v), if str_eqb k "with" then (k, new) else (k, v)) l) =
  (if decide (k = "with") then (λ _, new) <$> assoc k l else assoc k l).
Proof.
  induction l as [|[k' v] l IH]; cbn [map assoc]; [by case_decide|].
  unfold str_eqb in *. case_bool_decide as E; cbn [assoc]; rewrite IH; clear IH;
    repeat case_bool_decide; repeat case_decide; naive_solver.
Qed.

(** ** Properties *)

(** The clock's day count is the proleptic Gregorian calendar's: the day
    1970-01-01 is 0, and from each valid date to the next, across months, leap
    days and centuries, it advances by exactly one, with no 64-bit overflow for
    any year within a thousand million of the epoch. *)
Theorem clock_days_are_calendar_days (y m d : Z) :
  Z.abs y < 10 ^ 9 → valid_date y m d →
  days_from_civil 1970 1 1 = 0 ∧
  let '(y', m', d') := next_date y m d in
  days_from_civil y' m' d' = days_from_civil y m d + 1 ∧ valid_date y' m' d'.
Proof.
  intros Hy Hd. split; [reflexivity|]. pose proof (civil_next y m d Hd) as Hn.
  assert (∀ y m, days_in_month y m <= 31) as Hmax
    by (intros; unfold days_in_month; repeat case_match; lia).
  pose proof (Hmax y m). unfold valid_date in Hd.
  destruct (next_date y m d) as [[y' m'] d'] eqn:E. destruct Hn as [Hn [Hm' Hd']].
  pose proof (Hmax y' m'). split; [|done].
  rewrite !days_from_civil_exact; [done|lia..| |lia|lia].
  unfold next_date in E. repeat case_match; simplify_eq; lia.
Qed.

Lemma clock_days_are_calendar_days_witness :
  days_from_civil 2000 2 29 = days_from_civil 2000 2 28 + 1 ∧ next_date 2000 2 28 = (2000, 2, 29).
Proof.
  split; [|reflexivity].
  refine (proj1 (proj2 (clock_days_are_calendar_days 2000 2 28 _ _))).
  - vm_compute. reflexivity.
  - split; vm_compute; split; discriminate.
Defined.

(** A stamp as the host writes it, year to second, is read back as the
    seconds since the epoch of the moment it names, for every date of the
    years 0 to 9999 and every time of day. *)
Theorem stamp_read_back (y m d h mi s : N) :
  (y < 10000)%N → (1 ≤ m ≤ 12)%N → (1 ≤ d ≤ 31)%N → (h < 24)%N → (mi < 60)%N → (s < 61)%N →
  parse_iso8601_utc (iso8601 y m d h mi s) =
  Some (days_from_civil (Z.of_N y) (Z.of_N m) (Z.of_N d) * 86400 + Z.of_N h * 3600
        + Z.of_N mi * 60 + Z.of_N s).
Proof.
  intros. rewrite parse_iso8601_stamp by (repeat constructor; lia).
  assert (-1000000 <= days_from_civil (Z.of_N y) (Z.of_N m) (Z.of_N d) <= 4000000) as Hb.
  { rewrite days_from_civil_exact by lia. unfold civil.
    repeat case_match; Z.to_euclidean_division_equations; lia. }
  revert Hb. generalize (days_from_civil (Z.of_N y) (Z.of_N m) (Z.of_N d)). intros z Hz.
  f_equal. unfold wadd, wmul.
  repeat match goal with |- context [wrap64 ?x] =>
    lazymatch x with context [wrap64 _] => fail | _ => rewrite (wrap64_small x) by lia end end.
  done.
Qed.

Lemma stamp_read_back_witness :
  parse_iso8601_utc (iso8601 2024 2 29 12 30 5) = Some 1709209805.
Proof.
  refine (eq_trans (stamp_read_back 2024 2 29 12 30 5 _ _ _ _ _ _) _); vm_compute; done.
Defined.

(** Filling in a command's facts never replaces what the caller supplied:
    the answer is the caller's facts followed only by names the caller left
    out, the needed moments and the declared defaults all among them, put back
    where the facts were (in [with] for an explicit call, whose other members
    stay); and when nothing is answered, nothing needed was missing. *)
Theorem enrich_preserves_supplied {S} `{HostFacts S} (fs : Facts) (verb : str) (args : Json)
    (occ : option str) (s : S) (held : list (str * Json)) :
  let explicit := match get args "with" with Some (JObject _) => true | _ => false end in
  (if explicit then get args "with" = Some (JObject held) else args = JObject held) →
  ∃ more, Forall (λ '(k, _), k ∉ held.*1) more ∧
    Forall (λ n, clock_fact n → need_fact n ∈ (held ++ more).*1) (default [] (needs_table fs !! verb)) ∧
    (default [] (defaults_table fs !! verb)).*1 ⊆ (held ++ more).*1 ∧
    match (enrich fs verb args occ s).1 with
    | None => more = []
    | Some out =>
      more ≠ [] ∧
      if explicit then get out "with" = Some (JObject (held ++ more)) ∧
                       ∀ k, k ≠ "with" → get out k = get args k
      else out = JObject (held ++ more)
    end.
Proof.
  intros explicit Hheld. unfold enrich.
  set (needs := default [] (needs_table fs !! verb)).
  set (defaults := default [] (defaults_table fs !! verb)).
  assert ((if explicit then get args "with" else Some args) = Some (JObject held)) as Hfacts
    by (destruct explicit; congruence).
  destruct (fill_needs_adds fs occ held needs held s) as (A1 & A2 & A3).
  { exists []. by rewrite app_nil_r. }
  destruct (fill_defaults_adds defaults held _ A1) as (B1 & B2 & B3).
  fold explicit. rewrite Hfacts.
  destruct (fill_needs fs occ held needs held s) as [filled s'] eqn:Ef. cbn [fst] in *.
  destruct B1 as (more & Hmore & Hnew). exists more. rewrite <- Hmore.
  split_and!; [done| |done|].
  { apply list.Forall_forall. intros n Hn Hc. apply B2. rewrite list.Forall_forall in A3. by apply A3. }
  assert ((length (fill_defaults defaults filled) =? length held)%nat = bool_decide (more = [])) as Hlen.
  { rewrite Hmore, length_app. case_bool_decide as E; [subst; cbn; apply Nat.eqb_eq; lia|].
    apply Nat.eqb_neq. destruct more; [done|cbn; lia]. }
  assert (∀ (r : option Json * S),
    r = (if (length (fill_defaults defaults filled) =? length held)%nat then (None, s')
      else if negb explicit then (Some (JObject (fill_defaults defaults filled)), s')
      else match args with
           | JObject envelope =>
             (Some (JObject (map (λ '(k, v), if str_eqb k "with"
                then (k, JObject (fill_defaults defaults filled)) else (k, v)) envelope)), s')
           | _ => (None, s')
           end) →
    match r.1 with
    | None => more = []
    | Some out => more ≠ [] ∧
      if explicit then get out "with" = Some (JObject (fill_defaults defaults filled)) ∧
                       ∀ k, k ≠ "with" → get out k = get args k
      else out = JObject (fill_defaults defaults filled)
    end) as Hr.
  { intros r ->. rewrite Hlen. case_bool_decide as E; [done|].
    destruct explicit eqn:Ex; cbn [negb]; [|done]. destruct args as [envelope| | | | | |]; try done.
    cbn [fst]. split; [done|]. cbn [get] in *.
    set (filled' := fill_defaults defaults filled). split.
    - by rewrite assoc_with_put, decide_True, Hheld.
    - intros k Hk. by rewrite assoc_with_put, decide_False. }
  destruct needs as [|n needs]; [|by apply Hr].
  destruct defaults as [|d defaults]; [|by apply Hr].
  cbn in Ef, Hmore. injection Ef as <- <-. cbn.
  apply (app_inv_head held). by rewrite app_nil_r.
Qed.

(** A host with a clock stopped at 1000 and no callback. *)
Definition stopped_clock : HostFacts unit := {| system_secs s := (1000, s); asker := None |}.
Definition needs_now : Facts := {|
  needs_table := {[ "Shop::Order.Place" := [{| need_fact := "now"; attribute_type := "Integer" |}] ]};
  defaults_table := {[ "Shop::Order.Place" := [("channel", JStr "web")] ]};
  query_table := ∅; fixed_clock := None |}.
Definition place_args : Json := JObject [("as", JStr "clerk"); ("with", JObject [("channel", JStr "phone")])].

Lemma enrich_preserves_supplied_witness :
  ∃ more : list (str * Json), Forall (λ '(k, _), k ∉ (["channel"] : list str)) more ∧ more ≠ [] ∧
  (@enrich unit stopped_clock needs_now "Shop::Order.Place" place_args None tt).1 =
  Some (JObject [("as", JStr "clerk"); ("with", JObject [("channel", JStr "phone"); ("now", json_int 1000)])]).
Proof.
  destruct (@enrich_preserves_supplied unit stopped_clock needs_now "Shop::Order.Place" place_args None tt
    [("channel", JStr "phone")] eq_refl) as (more & H1 & _ & _ & H2).
  assert ((@enrich unit stopped_clock needs_now "Shop::Order.Place" place_args None tt).1 =
    Some (JObject [("as", JStr "clerk"); ("with", JObject [("channel", JStr "phone"); ("now", json_int 1000)])]))
    as E by (vm_compute; reflexivity).
  exists more. split; [exact H1|]. rewrite E in H2. split; [exact (proj1 H2)|exact E].
Defined.
