(* ===== verification/Query.v ===== *)
(** Rows and how they are filtered, ordered and paged: the comparators
    ([src/rust/src/kernel/query_comparators.rs], [vocab/query_comparator.rs]),
    the filters of [repository.rs], the declared order
    ([query_ordering.rs]) and the cursor ([query_cursor.rs]); and the declared queries
    that are answered so ([named_query.rs]). *)
From S2P Require Export Json Repository.

(** ** [QueryComparator] *)
Inductive QueryComparator := QEq | QNe | QGt | QGte | QLt | QLte | QIn | QContains | QNoneInState.
#[global] Instance QueryComparator_eq_dec : EqDecision QueryComparator.
Proof. solve_decision. Defined.
Definition QueryComparator_ALL : list QueryComparator :=
  [QEq; QNe; QGt; QGte; QLt; QLte; QIn; QContains; QNoneInState].
Definition comparator_name (c : QueryComparator) : str :=
  match c with
  | QEq => "eq" | QNe => "ne" | QGt => "gt" | QGte => "gte" | QLt => "lt" | QLte => "lte"
  | QIn => "in" | QContains => "contains" | QNoneInState => "none_in_state"
  end.
Definition comparator_from_name (name : str) : option QueryComparator :=
  List.find (λ c, str_eqb (comparator_name c) name) QueryComparator_ALL.
(** [QueryComparator::parse]. *)
Definition comparator_parse (op : str) : option QueryComparator := comparator_from_name op.

(** A number's float, NaN for anything else ([as_f64] of this file). *)
Definition number_of (value : Json) : f64 :=
  match value with JNum n _ | JFloat n => n | _ => S754_nan end.

Definition to_s (value : Json) : str :=
  match value with
  | JStr s => s
  | JNum _ (Some raw) => raw
  | JNum n None =>
    if is_whole n && f64_ltb (f64_abs n) (f64_of_Z (10 ^ 15)) then dec_Z (as_i64 n) else f64_display n
  | JFloat n =>
    let rendered := f64_display n in
    if contains rendered "." || contains rendered "e" || contains rendered "E" then rendered
    else rendered ++ ".0"
  | JBool b => if b then "true" else "false"
  | JNull => []
  | other => to_json_string other
  end.

Definition is_number (value : Json) : bool :=
  match value with JNum _ _ | JFloat _ => true | _ => false end.

(** [comparable]: a value object's numeric member, or its only member. *)
Definition comparable (value : Json) : Json :=
  match value with
  | JObject fields =>
    match List.find (λ '(_, v), is_number v) fields with
    | Some (_, numeric) => numeric
    | None => match fields with [(_, only)] => only | _ => value end
    end
  | _ => value
  end.

Definition members (value : Json) : list str :=
  match value with
  | JArray items => map (λ item, to_s (comparable item)) items
  | _ => map (trim_both is_whitespace) (split (to_s value) ",")
  end.

Definition contains_value (held want : Json) : bool :=
  match held with
  | JArray _ => existsb (λ member, str_eqb member (to_s want)) (members held)
  | _ => contains (to_s held) (to_s want)
  end.

(** [ordered] of this file. *)
Definition both_numbers (held want : Json) : bool := is_number held && is_number want.

Definition matches_comparator (c : QueryComparator) (held want : Json) : bool :=
  match c with
  | QEq => json_eqb held want
  | QNe => negb (json_eqb held want)
  | QGt => both_numbers held want && f64_ltb (number_of want) (number_of held)
  | QGte => both_numbers held want && f64_leb (number_of want) (number_of held)
  | QLt => both_numbers held want && f64_ltb (number_of held) (number_of want)
  | QLte => both_numbers held want && f64_leb (number_of held) (number_of want)
  | QIn => existsb (λ member, str_eqb member (to_s held)) (members want)
  | QContains => contains_value held want
  | QNoneInState => true
  end.

Abbreviation Rows := (list (str * Json)).
(** The stores a [NoneInState] condition searches, with their domains' names. *)
Abbreviation Domains := (list (str * (str → option Rows))).

Fixpoint none_in_state_search (cross_domain : Domains) (aggregate_name state held_id : str) : bool :=
  match cross_domain with
  | [] => true
  | (domain_name, store) :: rest =>
    match store (domain_name ++ "::" ++ aggregate_name) with
    | None => none_in_state_search rest aggregate_name state held_id
    | Some entries =>
      match List.find (λ '(id, _), str_eqb id held_id) entries with
      | None => true
      | Some (_, record) => negb (str_eqb (to_s (comparable (default JNull (dig record "state")))) state)
      end
    end
  end.
Definition none_in_state_matches (cross_domain : Domains) (held want : Json) : bool :=
  match split_once (to_s want) 58 with
  | None => true
  | Some (aggregate_name, state) => none_in_state_search cross_domain aggregate_name state (to_s held)
  end.

(** ** Filters ([repository.rs]) *)
Definition entry_matches (record : Json) (field : str) (c : QueryComparator) (want : Json)
    (cross_domain : Domains) : bool :=
  let held := comparable (default JNull (dig record field)) in
  match c with
  | QNoneInState => none_in_state_matches cross_domain held want
  | _ => matches_comparator c held want
  end.

Definition filter_entries_cross_domain (entries : Rows) (field : str) (c : QueryComparator)
    (want : Json) (cross_domain : Domains) : Rows :=
  let want := comparable want in
  sort_by by_id
    (List.filter (λ '(_, record), entry_matches record field c want cross_domain) entries).
Definition filter_entries (entries : Rows) (field : str) (c : QueryComparator) (want : Json) : Rows :=
  filter_entries_cross_domain entries field c want [].

(** ** The declared order ([query_ordering.rs]) *)
Inductive NullsMode := NullsNative | NullsFirst | NullsLast.
Record OrderBy := { order_field : str; descending : bool; nulls : NullsMode }.
Inductive Limit := LimitLiteral (n : Z) | LimitArg (name : str).

Definition order_key (record : Json) (field : str) : Json := comparable (default JNull (dig record field)).

Definition compare_comparable (a b : Json) : comparison :=
  match a, b with
  | JNum x _, JNum y _ | JNum x _, JFloat y | JFloat x, JNum y _ | JFloat x, JFloat y =>
    default Eq (f64_cmp x y)
  | JStr x, JStr y => str_compare x y
  | _, _ => Eq
  end.

Definition apply_declared_order (rows : Rows) (order_by : OrderBy) : Rows :=
  let null_key := λ '((_, record) : str * Json), json_eqb (order_key record (order_field order_by)) JNull in
  let null_rows := List.filter null_key rows in
  let valued_rows := List.filter (λ r, negb (null_key r)) rows in
  let valued_rows := sort_by (λ a b, compare_comparable (order_key a.2 (order_field order_by))
                                       (order_key b.2 (order_field order_by))) valued_rows in
  let valued_rows := if descending order_by then rev valued_rows else valued_rows in
  let null_rows := if descending order_by then rev null_rows else null_rows in
  match nulls order_by with
  | NullsFirst => null_rows ++ valued_rows
  | NullsLast => valued_rows ++ null_rows
  | NullsNative => if negb (descending order_by) then null_rows ++ valued_rows else valued_rows ++ null_rows
  end.

Definition resolve_limit (limit : Limit) (args : Json) : nat :=
  Z.to_nat (Z.max (match limit with
                   | LimitLiteral n => n
                   | LimitArg name => default 0%Z (get args name ≫= json_as_i64)
                   end) 0).

(** [apply]: by id, then the declared order, then the offset and the limit. *)
Definition order_rows (rows : Rows) (order_by : option OrderBy) (offset limit : option Limit)
    (args : Json) : Rows :=
  let rows := sort_by by_id rows in
  let rows := match order_by with Some o => apply_declared_order rows o | None => rows end in
  let rows := match offset with
    | Some offset => drop (Nat.min (resolve_limit offset args) (length rows)) rows
    | None => rows
    end in
  match limit with Some limit => take (resolve_limit limit args) rows | None => rows end.

(** ** The cursor ([query_cursor.rs]) *)
Definition ALPHABET : list N :=
  utf8_encode "ABCDEFGHIJKLMNOPQRSTUVWXYZabcdefghijklmnopqrstuvwxyz0123456789-_".

Fixpoint chunks {A} (fuel size : nat) (l : list A) : list (list A) :=
  match fuel, l with
  | O, _ | _, [] => []
  | S f, _ => take size l :: chunks f size (drop size l)
  end.

(** The bytes of a chunk, each shifted to its place and or-ed into 24 bits. *)
Fixpoint pack (width : N) (shift : N) (chunk : list N) : N :=
  match chunk with
  | [] => 0
  | b :: rest => N.lor (N.shiftl b shift) (pack width (shift - width) rest)
  end.

Definition base64_chunk (chunk : list N) : str :=
  let n := pack 8 16 chunk in
  map (λ i, nth (N.to_nat (N.land (N.shiftr n (18 - 6 * N.of_nat i)) 63)) ALPHABET 0%N)
    (seq 0 (S (length chunk))).
Definition base64_url (bytes : list N) : str :=
  flat_map base64_chunk (chunks (length bytes) 3 bytes).

Definition unbase64_chunk (chunk : list N) : option (list N) :=
  if (length chunk =? 1)%nat then None
  else
    let n := pack 6 18 chunk in
    Some (map (λ i, N.land (N.shiftr n (16 - 8 * N.of_nat i)) 255) (seq 0 (length chunk - 1))).
Definition unbase64_url (t : str) : option (list N) :=
  sextets ← mapM (λ b, N.of_nat <$> find_index (N.eqb b) ALPHABET)
    (utf8_encode (trim_end (N.eqb 61) t));
  mjoin <$> mapM unbase64_chunk (chunks (length sextets) 4 sextets).

Section cursor.
Context `{U : UnicodeTables}.

Definition encode (value : Json) (id : str) : str :=
  base64_url (utf8_encode (to_json_string (JArray [value; JStr id]))).
Definition token_for (id : str) (record : Json) (order_by : option OrderBy) : str :=
  encode (match order_by with Some o => order_key record (order_field o) | None => JNull end) id.

Definition not_a_cursor (token : str) : Refusal :=
  TypeMismatch ("after " ++ debug_str token ++ " is not a cursor this query handed out").
Definition decode (token : str) : res (Json * str) :=
  let? bytes := ok_or (unbase64_url token) (not_a_cursor token) in
  let? t := ok_or (utf8_decode bytes) (not_a_cursor token) in
  match parse t with
  | Ok (JArray [value; JStr id]) => Ok (value, id)
  | _ => Err (not_a_cursor token)
  end.

Definition nulls_first (order : OrderBy) : bool :=
  match nulls order with NullsFirst => true | NullsLast => false | NullsNative => negb (descending order) end.

Definition sequence (key : Json) (id : str) (held : Json) (held_id : str) (order : OrderBy) : comparison :=
  let key_null := json_eqb key JNull in
  let held_null := json_eqb held JNull in
  if negb (Bool.eqb key_null held_null) then
    if Bool.eqb key_null (nulls_first order) then Lt else Gt
  else
    let by_value := if key_null then Eq else compare_comparable key held in
    let forward := match by_value with Eq => str_compare id held_id | c => c end in
    if descending order then CompOpp forward else forward.

Definition follows (id : str) (record : Json) (order_by : option OrderBy) (held : Json) (held_id : str)
  : bool :=
  match order_by with
  | None => str_ltb held_id id
  | Some order =>
    match sequence (order_key record (order_field order)) id held held_id order with
    | Gt => true
    | _ => false
    end
  end.

Definition rows_after (rows : Rows) (order_by : option OrderBy) (after : option str) : res Rows :=
  match after with
  | None => Ok rows
  | Some token =>
    let? position := decode token in
    Ok (List.filter (λ '(id, record), follows id record order_by position.1 position.2) rows)
  end.

Definition split_page (rows : Rows) (order_by : option OrderBy) (size : nat) : Rows * option str :=
  if (length rows <=? size)%nat || (size =? 0)%nat then (take size rows, None)
  else
    let rows := take size rows in
    (rows, (λ '(id, record), token_for id record order_by) <$> list.last rows).
End cursor.

(** Declared queries and the roles they decide: running a compiled query over
    a store ([src/rust/src/kernel/named_query.rs]), the reference hops of a
    condition ([read_model.rs]), and the role checks that ask Governance's
    query who holds what ([repository.rs]). *)

(** ** A compiled query *)
Inductive QueryConditionValue :=
| ConditionLiteral (t : str) | ConditionNumber (n : f64) | ConditionArg (name : str) | ConditionNull.
Record QueryCondition := {
  condition_field : str; condition_comparator : QueryComparator; condition_value : QueryConditionValue
}.
Record TenantAuth := { auth_query_name : str; tenant_field : str; policy : str }.
Record HopStep := { step_via_field : str; step_target : str }.
Record ReferenceHopCondition := {
  via_field : str; target_aggregate : str; through : list HopStep; inner_field : str;
  inner_comparator : QueryComparator; inner_value : QueryConditionValue
}.
Record QueryDef := {
  query_verb : str; query_aggregate : str; conditions : list QueryCondition;
  reference_hop_conditions : list ReferenceHopCondition; query_order_by : option OrderBy;
  query_offset : option Limit; query_limit : option Limit; cursor : bool;
  authorization : option TenantAuth
}.

Definition resolve (v : QueryConditionValue) (args : Json) : Json :=
  match v with
  | ConditionLiteral t => JStr t
  | ConditionNumber n => JNum n None
  | ConditionArg name => default JNull (get args name)
  | ConditionNull => JNull
  end.

Section running.
Context `{U : UnicodeTables}.
Context {St : Type} `{SS : AggregateScan St}.

Definition unknown_aggregate (aggregate : str) : Refusal :=
  TypeMismatch ("unknown aggregate " ++ debug_str aggregate).

(** ** Reference hops ([read_model.rs], [apply_reference_hops]) *)
Definition ids_of (entries : Rows) : list Json := map (λ '(id, _), JStr id) entries.

(** The chain's earlier steps, last first: each keeps the rows of its source
    whose next field points at one of the identifiers. *)
Fixpoint narrow (st : St) (steps : list (str * str)) (ids : list Json) : res (list Json) :=
  match steps with
  | [] => Ok ids
  | (via, source) :: rest =>
    let? entries := ok_or (scan st source) (unknown_aggregate source) in
    narrow st rest (ids_of (filter_entries entries via QIn (JArray ids)))
  end.

Definition hop_chain (hop : ReferenceHopCondition) : list (str * str) :=
  (via_field hop, target_aggregate hop) :: map (λ s, (step_via_field s, step_target s)) (through hop).
(** The steps the loop walks from the end of the chain: a step's field with the
    target before it. *)
Definition hop_steps (chain : list (str * str)) : list (str * str) :=
  rev (map (λ '((_, source), (via, _)), (via, source)) (zip chain (tail chain))).

Definition apply_hop (rows : Rows) (hop : ReferenceHopCondition) (args : Json) (st : St) : res Rows :=
  let inner_want := resolve (inner_value hop) args in
  let chain := hop_chain hop in
  let last_target := (default ([] : str, [] : str) (list.last chain)).2 in
  let? entries := ok_or (scan st last_target) (unknown_aggregate last_target) in
  let ids := ids_of (filter_entries entries (inner_field hop) (inner_comparator hop) inner_want) in
  let? ids := narrow st (hop_steps chain) ids in
  Ok (filter_entries rows (via_field hop) QIn (JArray ids)).
Definition apply_reference_hops (rows : Rows) (hops : list ReferenceHopCondition) (args : Json) (st : St)
  : res Rows :=
  try_fold (λ rows hop, apply_hop rows hop args st) rows hops.

(** ** Running *)
Definition tenant_refusal (auth : TenantAuth) : Refusal :=
  Unauthorized (render_args (UnauthorizedTenantRequiredArgs (auth_query_name auth) (tenant_field auth))).

Definition cursor_rows (entries : Rows) (def : QueryDef) (args : Json) : res Rows :=
  let ordered := order_rows entries (query_order_by def) None None args in
  let? rows := rows_after ordered (query_order_by def) (get args "after" ≫= as_str) in
  Ok (match query_limit def with Some limit => take (resolve_limit limit args) rows | None => rows end).

(** The rows that pass the conditions, before they are ordered and paged. *)
Definition matching_rows (st : St) (def : QueryDef) (args : Json) (cross_domain : Domains) : res Rows :=
  let? _ := match authorization def with
            | Some auth => match get args (tenant_field auth) with
                           | None => Err (tenant_refusal auth)
                           | Some _ => Ok tt
                           end
            | None => Ok tt
            end in
  let wants := map (λ c, (c, comparable (resolve (condition_value c) args))) (conditions def) in
  let? rows := ok_or (scan_each st (query_aggregate def)) (unknown_aggregate (query_aggregate def)) in
  let entries := List.filter (λ '(_, record),
    forallb (λ '(c, want), entry_matches record (condition_field c) (condition_comparator c) want cross_domain)
      wants) rows in
  apply_reference_hops (sort_by by_id entries) (reference_hop_conditions def) args st.

Definition run_cross_domain (st : St) (def : QueryDef) (args : Json) (cross_domain : Domains)
    (caller_role : option str) : res Rows :=
  let? entries := matching_rows st def args cross_domain in
  if cursor def then cursor_rows entries def args
  else Ok (order_rows entries (query_order_by def) (query_offset def) (query_limit def) args).
Definition run (st : St) (def : QueryDef) (args : Json) (caller_role : option str) : res Rows :=
  run_cross_domain st def args [] caller_role.

Definition with_limit (def : QueryDef) (limit : Limit) : QueryDef := {|
  query_verb := query_verb def; query_aggregate := query_aggregate def; conditions := conditions def;
  reference_hop_conditions := reference_hop_conditions def; query_order_by := query_order_by def;
  query_offset := query_offset def; query_limit := Some limit; cursor := cursor def;
  authorization := authorization def |}.

Definition run_page (st : St) (def : QueryDef) (args : Json) (caller_role : option str)
  : res (Rows * option str) :=
  let size := match query_limit def with Some limit => resolve_limit limit args | None => 0%nat end in
  let widened := with_limit def (LimitLiteral (wrap64 (Z.of_nat size + 1))) in
  let? rows := run st widened args caller_role in
  Ok (split_page rows (query_order_by def) size).

Definition find_query (table : list QueryDef) (verb : str) : option QueryDef :=
  List.find (λ def, str_eqb (query_verb def) verb) table.

(** ** Roles ([repository.rs]) *)
Definition holds_role_via (st : St) (queries : list QueryDef) (assignments : option str)
    (actor_id role : str) : bool :=
  match assignments ≫= find_query queries with
  | None => false
  | Some def =>
    match run st def (JObject [("actor_id", JStr actor_id)]) None with
    | Err _ => false
    | Ok rows =>
      existsb (λ '(_, record), match dig record "role_name.value" ≫= as_str with
                               | Some held => str_eqb held role
                               | None => false
                               end) rows
    end
  end.

Definition check_role_via (command_role : option str) (command_name : str)
    (caller_role caller_actor_id : option str) (st : St) (queries : list QueryDef)
    (assignments : option str) : res unit :=
  let attached := match assignments ≫= find_query queries with Some _ => true | None => false end in
  match caller_role, command_role, caller_actor_id with
  | None, Some role, Some actor_id =>
    if negb attached || holds_role_via st queries assignments actor_id role then Ok tt
    else Err (Unauthorized (render_args (UnauthorizedRoleMismatchArgs command_name role "no assigned role")))
  | Some caller, Some role, _ =>
    let authorized :=
      match caller_actor_id with
      | Some actor_id =>
        if attached then holds_role_via st queries assignments actor_id role else str_eqb caller role
      | None => str_eqb caller role
      end in
    if authorized then Ok tt
    else Err (Unauthorized (render_args (UnauthorizedRoleMismatchArgs command_name role caller)))
  | _, _, _ => Ok tt
  end.

Definition check_roles_via (command_roles : list str) (command_name : str)
    (caller_role caller_actor_id : option str) (st : St) (queries : list QueryDef)
    (assignments : option str) : res unit :=
  let refused := forallb (λ role,
    negb (is_ok (check_role_via (Some role) command_name caller_role caller_actor_id st queries assignments)))
    command_roles in
  if negb refused then Ok tt
  else Err (Unauthorized (render_args (UnauthorizedRoleMismatchArgs command_name
         (join " or " command_roles) (default "no assigned role" caller_role)))).
End running.

(** ** Entity queries *)
Record EntityQueryDef := {
  eq_verb : str; eq_aggregate : str; eq_list_field : str; parent_key : str; identity_keys : list str;
  eq_conditions : list QueryCondition; eq_order_by : option OrderBy; eq_offset : option Limit;
  eq_limit : option Limit
}.
Definition find_entity (table : list EntityQueryDef) (verb : str) : option EntityQueryDef :=
  List.find (λ def, str_eqb (eq_verb def) verb) table.

(** [comparable] of this file: a single-field value object, all the way down. *)
Fixpoint sole_value (value : Json) : Json :=
  match value with JObject [(_, only)] => sole_value only | other => other end.
Definition compare_values (a b : option Json) : comparison :=
  match a, b with
  | Some (JNum x _), Some (JNum y _) => default Eq (f64_cmp x y)
  | Some (JStr x), Some (JStr y) => str_compare x y
  | (None | Some JNull), (None | Some JNull) => Eq
  | (None | Some JNull), _ => Lt
  | _, (None | Some JNull) => Gt
  | _, _ => Eq
  end.
Fixpoint identity_order (a b : Json) (keys : list str) : comparison :=
  match keys with
  | [] => Eq
  | key :: rest =>
    match compare_values (sole_value <$> get a key) (sole_value <$> get b key) with
    | Eq => identity_order a b rest
    | c => c
    end
  end.

Definition row_under_parent (parent_key parent_id : str) (element : Json) : Json :=
  let lead := [(parent_key, JStr parent_id)] in
  JObject (match element with
           | JObject pairs =>
             fold_left (λ fields '(key, value),
               if str_eqb key parent_key then
                 match fields with (k, _) :: rest => (k, value) :: rest | [] => [] end
               else fields ++ [(key, value)]) pairs lead
           | _ => lead
           end).

Definition run_entity `{U : UnicodeTables} {St : Type} `{SS : AggregateScan St} (st : St)
    (def : EntityQueryDef) (args : Json) : res (list Json) :=
  let? records := ok_or (scan st (eq_aggregate def)) (unknown_aggregate (eq_aggregate def)) in
  let entries := flat_map (λ '(parent_id, record),
    map (λ element, (parent_id, element)) (default [] (get record (eq_list_field def) ≫= as_array)))
    records in
  let entries := fold_left (λ entries c,
    filter_entries entries (condition_field c) (condition_comparator c) (resolve (condition_value c) args))
    (eq_conditions def) entries in
  let entries := sort_by (λ '(parent_a, a) '(parent_b, b),
    match str_compare parent_a parent_b with
    | Eq => identity_order a b (identity_keys def)
    | c => c
    end) entries in
  let ordered := order_rows entries (eq_order_by def) (eq_offset def) (eq_limit def) args in
  Ok (map (λ '(parent_id, element), row_under_parent (parent_key def) parent_id element) ordered).
