(* ===== verification/QueryFacts.v ===== *)
(** What queries guarantee: the token of a position is read back as it, the
    declared order is a strict order of the rows that the cursor's rule agrees
    with, and the pages of a cursor query, followed one after the other, are
    the whole answer. *)
From S2P Require Export JsonFacts Query.

Open Scope N_scope.
(** ** Base 64 *)
Lemma lor_shift (a b k : N) : b < 2 ^ k → N.lor (N.shiftl a k) b = a * 2 ^ k + b.
Proof.
  intros Hb. assert (N.land (N.shiftl a k) b = 0) as Hl.
  { apply N.bits_inj. intros i. rewrite N.land_spec, N.bits_0.
    destruct (N.ltb_spec i k); [by rewrite N.shiftl_spec_low|].
    replace (N.testbit b i) with false; [by rewrite andb_false_r|]. symmetry.
    rewrite <- (N.mod_small b (2 ^ k)) by done. by apply N.mod_pow2_bits_high. }
  rewrite <- N.lxor_lor by done. rewrite <- N.add_nocarry_lxor by done. by rewrite N.shiftl_mul_pow2.
Qed.

Lemma alphabet_index (s : N) : s < 64 → find_index (N.eqb (nth (N.to_nat s) ALPHABET 0)) ALPHABET = Some (N.to_nat s).
Proof.
  intros Hs. rewrite <- (N2Nat.id s) in Hs. revert Hs. generalize (N.to_nat s) as n. intros n Hn.
  assert (∀ k, (k < 64)%nat → find_index (N.eqb (nth k ALPHABET 0)) ALPHABET = Some k) as H; [|apply H; lia].
  assert (forallb (λ k, bool_decide (find_index (N.eqb (nth k ALPHABET 0)) ALPHABET = Some k)) (seq 0 64) = true)
    as Hall by (vm_compute; reflexivity).
  rewrite forallb_forall in Hall. intros k Hk. eapply bool_decide_eq_true, Hall, in_seq. lia.
Qed.

Definition byte_list (bs : list N) : Prop := Forall (λ b, b < 256) bs.

Definition sextets_of (chunk : list N) : list N :=
  map (λ i, N.land (N.shiftr (pack 8 16 chunk) (18 - 6 * N.of_nat i)) 63) (seq 0 (S (length chunk))).

Lemma land_63 (n : N) : N.land n 63 = n mod 64.
Proof. apply (N.land_ones n 6). Qed.
Lemma land_255 (n : N) : N.land n 255 = n mod 256.
Proof. apply (N.land_ones n 8). Qed.

(** Or-ing the shifted parts of a chunk is adding them. *)
Lemma pack_bytes (b1 b2 b3 : N) :
  b1 < 256 → b2 < 256 → b3 < 256 →
  pack 8 16 [b1] = b1 * 65536 ∧ pack 8 16 [b1; b2] = b1 * 65536 + b2 * 256 ∧
  pack 8 16 [b1; b2; b3] = b1 * 65536 + b2 * 256 + b3.
Proof.
  intros.
  change (pack 8 16 [b1]) with (N.lor (N.shiftl b1 16) 0).
  change (pack 8 16 [b1; b2]) with (N.lor (N.shiftl b1 16) (N.lor (N.shiftl b2 8) 0)).
  change (pack 8 16 [b1; b2; b3])
    with (N.lor (N.shiftl b1 16) (N.lor (N.shiftl b2 8) (N.lor (N.shiftl b3 0) 0))).
  rewrite !N.lor_0_r, !N.shiftl_0_r.
  assert (N.lor (N.shiftl b2 8) b3 = b2 * 256 + b3) as -> by (by apply lor_shift).
  rewrite !(lor_shift b1) by (rewrite ?N.shiftl_mul_pow2; cbn; lia).
  rewrite !N.shiftl_mul_pow2. cbn. lia.
Qed.

Lemma pack_sextets (s1 s2 s3 s4 : N) :
  s1 < 64 → s2 < 64 → s3 < 64 → s4 < 64 →
  pack 6 18 [s1; s2] = s1 * 262144 + s2 * 4096 ∧
  pack 6 18 [s1; s2; s3] = s1 * 262144 + s2 * 4096 + s3 * 64 ∧
  pack 6 18 [s1; s2; s3; s4] = s1 * 262144 + s2 * 4096 + s3 * 64 + s4.
Proof.
  intros.
  change (pack 6 18 [s1; s2]) with (N.lor (N.shiftl s1 18) (N.lor (N.shiftl s2 12) 0)).
  change (pack 6 18 [s1; s2; s3])
    with (N.lor (N.shiftl s1 18) (N.lor (N.shiftl s2 12) (N.lor (N.shiftl s3 6) 0))).
  change (pack 6 18 [s1; s2; s3; s4]) with
    (N.lor (N.shiftl s1 18) (N.lor (N.shiftl s2 12) (N.lor (N.shiftl s3 6) (N.lor (N.shiftl s4 0) 0)))).
  rewrite !N.lor_0_r, !N.shiftl_0_r.
  assert (N.lor (N.shiftl s3 6) s4 = s3 * 64 + s4) as -> by (by apply lor_shift).
  rewrite !(lor_shift s2) by (rewrite ?N.shiftl_mul_pow2; cbn; lia).
  rewrite !(lor_shift s1) by (rewrite ?N.shiftl_mul_pow2; cbn; lia).
  rewrite !N.shiftl_mul_pow2. cbn. lia.
Qed.

Lemma digits_64 (n : N) :
  n < 16777216 →
  n / 262144 mod 64 * 262144 + n / 4096 mod 64 * 4096 + n / 64 mod 64 * 64 + n mod 64 = n.
Proof.
  intros Hn. change 262144 with (64 * 64 * 64). change 4096 with (64 * 64).
  rewrite <- !N.Div0.div_div. rewrite (N.mod_small (n / 64 / 64 / 64)).
  2: { repeat (apply N.Div0.div_lt_upper_bound; cbn). done. }
  pose proof (N.div_mod n 64 ltac:(done)). pose proof (N.div_mod (n / 64) 64 ltac:(done)).
  pose proof (N.div_mod (n / 64 / 64) 64 ltac:(done)). lia.
Qed.

Lemma digits_256 (b1 b2 b3 : N) :
  b1 < 256 → b2 < 256 → b3 < 256 →
  let n := b1 * 65536 + b2 * 256 + b3 in
  n / 65536 mod 256 = b1 ∧ n / 256 mod 256 = b2 ∧ n mod 256 = b3 ∧ n < 16777216.
Proof.
  intros H1 H2 H3 n.
  assert (n / 256 = b1 * 256 + b2) as Hq by (symmetry; apply N.div_unique with b3; unfold n; lia).
  assert (n / 65536 = b1) as -> by (symmetry; apply N.div_unique with (b2 * 256 + b3); unfold n; lia).
  rewrite Hq. split_and!.
  - by apply N.mod_small.
  - symmetry. apply N.mod_unique with b1; lia.
  - symmetry. apply N.mod_unique with (b1 * 256 + b2); unfold n; lia.
  - unfold n. lia.
Qed.

Lemma low_64 (a : N) : (a * 4096) mod 64 = 0 ∧ (a * 4096) / 64 mod 64 = 0 ∧ (a * 64) mod 64 = 0.
Proof.
  split_and!.
  - replace (a * 4096) with (a * 64 * 64) by lia. apply N.Div0.mod_mul.
  - replace (a * 4096) with (a * 64 * 64) by lia. rewrite N.div_mul by done. apply N.Div0.mod_mul.
  - apply N.Div0.mod_mul.
Qed.

Lemma chunk_roundtrip (chunk : list N) :
  byte_list chunk → (1 ≤ length chunk ≤ 3)%nat →
  unbase64_chunk (sextets_of chunk) = Some chunk ∧ length (sextets_of chunk) = S (length chunk) ∧
  Forall (λ s, s < 64) (sextets_of chunk).
Proof.
  intros Hb Hl. split_and!.
  2: { unfold sextets_of. by rewrite length_map, length_seq. }
  2: { apply Forall_map, list.Forall_true. intros i. rewrite land_63. apply N.mod_lt. done. }
  assert (∀ n, N.land n 63 < 64) as H63 by (intros n; rewrite land_63; by apply N.mod_lt).
  unfold sextets_of, unbase64_chunk.
  destruct chunk as [|b1 [|b2 [|b3 [|? ?]]]]; cbn [length] in Hl; try lia;
    repeat (apply Forall_cons_iff in Hb as [? Hb]); clear Hb;
    cbn [length seq map Nat.eqb Nat.sub].
  - destruct (digits_256 b1 0 0) as (E1 & _ & _ & En); [done..|].
    rewrite (proj1 (pack_bytes b1 0 0 ltac:(done) ltac:(done) ltac:(done))).
    rewrite (proj1 (pack_sextets _ _ 0 0 (H63 _) (H63 _) ltac:(done) ltac:(done))).
    replace (b1 * 65536 + 0 * 256 + 0) with (b1 * 65536) in * by lia.
    pose proof (digits_64 _ En) as D. destruct (low_64 (b1 * 16)) as (L1 & L2 & _).
    replace (b1 * 16 * 4096) with (b1 * 65536) in * by lia. rewrite L1, L2 in D.
    rewrite !land_63, !land_255, !N.shiftr_div_pow2.
    change (2 ^ (18 - 6 * N.of_nat 0)) with 262144. change (2 ^ (18 - 6 * N.of_nat 1)) with 4096.
    change (2 ^ (16 - 8 * N.of_nat 0)) with 65536.
    replace (_ + _) with (b1 * 65536) by lia. by rewrite E1.
  - destruct (digits_256 b1 b2 0) as (E1 & E2 & _ & En); [done..|].
    rewrite (proj1 (proj2 (pack_bytes b1 b2 0 ltac:(done) ltac:(done) ltac:(done)))).
    rewrite (proj1 (proj2 (pack_sextets _ _ _ 0 (H63 _) (H63 _) (H63 _) ltac:(done)))).
    rewrite N.add_0_r in *. pose proof (digits_64 _ En) as D.
    assert ((b1 * 65536 + b2 * 256) mod 64 = 0) as L.
    { replace (b1 * 65536 + b2 * 256) with ((b1 * 1024 + b2 * 4) * 64) by lia. apply N.Div0.mod_mul. }
    rewrite L, N.add_0_r in D. rewrite !land_63, !land_255, !N.shiftr_div_pow2.
    change (2 ^ (18 - 6 * N.of_nat 0)) with 262144. change (2 ^ (18 - 6 * N.of_nat 1)) with 4096.
    change (2 ^ (18 - 6 * N.of_nat 2)) with 64.
    change (2 ^ (16 - 8 * N.of_nat 0)) with 65536. change (2 ^ (16 - 8 * N.of_nat 1)) with 256.
    rewrite D. by rewrite E1, E2.
  - destruct (digits_256 b1 b2 b3) as (E1 & E2 & E3 & En); [done..|].
    rewrite (proj2 (proj2 (pack_bytes b1 b2 b3 ltac:(done) ltac:(done) ltac:(done)))).
    rewrite (proj2 (proj2 (pack_sextets _ _ _ _ (H63 _) (H63 _) (H63 _) (H63 _)))).
    pose proof (digits_64 _ En) as D. rewrite !land_63, !land_255, !N.shiftr_div_pow2.
    change (2 ^ (18 - 6 * N.of_nat 0)) with 262144. change (2 ^ (18 - 6 * N.of_nat 1)) with 4096.
    change (2 ^ (18 - 6 * N.of_nat 2)) with 64. change (2 ^ (18 - 6 * N.of_nat 3)) with 1.
    change (2 ^ (16 - 8 * N.of_nat 0)) with 65536. change (2 ^ (16 - 8 * N.of_nat 1)) with 256.
    change (2 ^ (16 - 8 * N.of_nat 2)) with 1.
    rewrite !N.div_1_r, D. by rewrite E1, E2, E3.
Qed.

Lemma chunks_app_flat (size : nat) (fuel : nat) (bytes : list N) :
  (0 < size)%nat → (length bytes ≤ fuel)%nat → concat (chunks fuel size bytes) = bytes ∧
  Forall (λ c, 1 ≤ length c ≤ size)%nat (chunks fuel size bytes).
Proof.
  intros Hs. revert bytes. induction fuel as [|f IH]; intros bytes Hf.
  { destruct bytes; [done|cbn in Hf; lia]. }
  destruct bytes as [|b bytes]; [done|]. cbn [chunks concat].
  destruct (IH (drop size (b :: bytes))) as [H1 H2].
  { rewrite length_drop. cbn [length] in *. lia. }
  split; [by rewrite H1, take_drop|]. constructor; [|done].
  rewrite length_take. cbn [length]. lia.
Qed.

Lemma sextets_text (chunk : list N) :
  base64_chunk chunk = map (λ s, nth (N.to_nat s) ALPHABET 0) (sextets_of chunk).
Proof. unfold base64_chunk, sextets_of. by rewrite map_map. Qed.

Lemma alphabet_ascii (s : N) :
  s < 64 → (nth (N.to_nat s) ALPHABET 0 < 128) ∧ nth (N.to_nat s) ALPHABET 0 ≠ 61.
Proof.
  intros Hs. assert (forallb (λ k, (nth k ALPHABET 0 <? 128) && negb (nth k ALPHABET 0 =? 61)) (seq 0 64) = true)
    as Hall by (vm_compute; reflexivity).
  rewrite forallb_forall in Hall. specialize (Hall (N.to_nat s) ltac:(apply in_seq; lia)).
  apply andb_true_iff in Hall as [H1 H2]. apply N.ltb_lt in H1.
  apply negb_true_iff, N.eqb_neq in H2. done.
Qed.

Lemma chunks_S {A} (f size : nat) (l : list A) :
  l ≠ [] → chunks (S f) size l = take size l :: chunks f size (drop size l).
Proof. by destruct l. Qed.
Lemma chunks_nil {A} (f size : nat) : chunks f size (@nil A) = [].
Proof. by destruct f. Qed.

(** The sextets of every chunk, end to end, split back into those of each. *)
Lemma chunks_sextets (bytes : list N) (fuel fuel' : nat) :
  byte_list bytes → (length bytes ≤ fuel)%nat →
  let ss := flat_map sextets_of (chunks fuel 3 bytes) in
  (length ss ≤ fuel')%nat → chunks fuel' 4 ss = map sextets_of (chunks fuel 3 bytes).
Proof.
  revert bytes fuel'. induction fuel as [|f IH]; intros bytes fuel' Hb Hf ss Hf'; subst ss.
  { destruct bytes; [|cbn in Hf; lia]. apply chunks_nil. }
  destruct (decide (bytes = [])) as [->|Hne]; [apply chunks_nil|].
  rewrite chunks_S in * by done. cbn [flat_map map] in *.
  assert (byte_list (take 3 bytes) ∧ byte_list (drop 3 bytes)) as [Ht Hd].
  { rewrite <- (take_drop 3 bytes) in Hb. by apply Forall_app in Hb. }
  assert (0 < length bytes)%nat by (destruct bytes; [done|cbn; lia]).
  destruct (chunk_roundtrip (take 3 bytes) Ht) as (_ & Hlen & _).
  { rewrite length_take. lia. }
  rewrite length_app, Hlen in Hf'. destruct fuel' as [|f']; [lia|].
  rewrite chunks_S by (intros [E _]%app_nil; by rewrite E in Hlen).
  destruct (decide (length bytes ≤ 3)%nat) as [Hsmall|Hbig].
  - rewrite (drop_ge bytes) in * by done. rewrite chunks_nil in *. cbn [flat_map map].
    rewrite app_nil_r, take_ge, drop_ge by (rewrite Hlen, length_take; lia). by rewrite chunks_nil.
  - assert (length (sextets_of (take 3 bytes)) = 4%nat) as H4 by (rewrite Hlen, length_take; lia).
    rewrite take_app_length', drop_app_length' by done. f_equal. apply IH; [done| |].
    + rewrite length_drop. lia.
    + lia.
Qed.

Lemma unbase64_base64 (bytes : list N) : byte_list bytes → unbase64_url (base64_url bytes) = Some bytes.
Proof.
  intros Hb. unfold unbase64_url, base64_url.
  set (cs := chunks (length bytes) 3 bytes).
  destruct (chunks_app_flat 3 (length bytes) bytes ltac:(lia) ltac:(lia)) as [Hcat Hlen]. fold cs in Hcat, Hlen.
  assert (Forall byte_list cs) as Hcs.
  { rewrite <- Hcat in Hb. clear -Hb. induction cs as [|c cs IH]; [done|]. cbn [concat] in Hb.
    apply Forall_app in Hb as [? ?]. constructor; [done|by apply IH]. }
  assert (flat_map base64_chunk cs = map (λ s, nth (N.to_nat s) ALPHABET 0) (flat_map sextets_of cs)) as ->.
  { clear. induction cs as [|c cs IH]; [done|]. cbn [flat_map]. by rewrite map_app, IH, sextets_text. }
  set (ss := flat_map sextets_of cs).
  assert (Forall (λ s, s < 64) ss) as Hss.
  { unfold ss. clear -Hcs Hlen. induction cs as [|c cs IH]; [constructor|]. cbn [flat_map].
    apply Forall_cons_iff in Hcs as [? ?], Hlen as [? ?]. apply Forall_app. split; [|by apply IH].
    by apply chunk_roundtrip. }
  assert (trim_end (N.eqb 61) (map (λ s, nth (N.to_nat s) ALPHABET 0) ss)
          = map (λ s, nth (N.to_nat s) ALPHABET 0) ss) as ->.
  { unfold trim_end. rewrite <- map_rev.
    assert (Forall (λ s, s < 64) (rev ss)) as Hr by (by apply Forall_rev). destruct (rev ss) as [|s r] eqn:E.
    - apply (f_equal (@rev N)) in E. rewrite rev_involutive in E. by rewrite E.
    - cbn [map trim_start]. apply Forall_cons_iff in Hr as [Hr _]. destruct (alphabet_ascii s Hr) as [_ Hn].
      rewrite (proj2 (N.eqb_neq 61 _)) by congruence.
      change (rev (map (λ s, nth (N.to_nat s) ALPHABET 0) (s :: r)) = map (λ s, nth (N.to_nat s) ALPHABET 0) ss).
      by rewrite <- E, map_rev, rev_involutive. }
  assert (utf8_encode (map (λ s, nth (N.to_nat s) ALPHABET 0) ss)
          = map (λ s, nth (N.to_nat s) ALPHABET 0) ss) as ->.
  { clear -Hss. induction Hss as [|s ss Hs _ IH]; [done|]. cbn [map utf8_encode flat_map].
    fold (utf8_encode (map (λ s, nth (N.to_nat s) ALPHABET 0) ss)). rewrite IH. unfold utf8_char.
    destruct (alphabet_ascii s Hs) as [Hl _]. by rewrite (proj2 (N.ltb_lt _ _) Hl). }
  assert (mapM (λ b, N.of_nat <$> find_index (N.eqb b) ALPHABET) (map (λ s, nth (N.to_nat s) ALPHABET 0) ss)
          = Some ss) as ->.
  { clear -Hss. induction Hss as [|s ss Hs _ IH]; [done|]. cbn [map mapM].
    rewrite alphabet_index by done. cbn. rewrite N2Nat.id. by rewrite IH. }
  cbn [mbind option_bind]. unfold ss at 2, cs.
  rewrite chunks_sextets; [|done|done|done]. fold cs.
  assert (mapM unbase64_chunk (map sextets_of cs) = Some cs) as ->.
  { clear -Hcs Hlen. induction cs as [|c cs IH]; [done|]. cbn [map mapM].
    apply Forall_cons_iff in Hcs as [? ?], Hlen as [? ?].
    destruct (chunk_roundtrip c) as (-> & _ & _); [done..|]. cbn. by rewrite IH. }
  assert (∀ l : list (list N), mjoin l = concat l) as Hj.
  { intros l. induction l as [|c l IH]; [done|]. change (c ++ mjoin l = c ++ concat l). by rewrite IH. }
  change (Some (mjoin cs) = Some bytes). by rewrite Hj, Hcat.
Qed.
Open Scope Z_scope.

(** ** Tokens *)
Lemma utf8_bytes (s : str) : wf_str s = true → byte_list (utf8_encode s).
Proof.
  unfold wf_str, utf8_encode, byte_list. induction s as [|c s IH]; [constructor|]. cbn [forallb flat_map].
  rewrite andb_true_iff. intros [Hc Hs]. apply Forall_app. split; [|by apply IH].
  unfold is_scalar in Hc. assert (c < 1114112)%N as Hc'.
  { apply orb_true_iff in Hc as [Hc|Hc]; [apply N.ltb_lt in Hc; lia|].
    apply andb_true_iff in Hc as [_ Hc]. by apply N.ltb_lt in Hc. }
  pose proof (N.mod_lt c 64 ltac:(done)). pose proof (N.mod_lt (c / 64) 64 ltac:(done)).
  pose proof (N.mod_lt (c / 4096) 64 ltac:(done)). unfold utf8_char.
  assert (∀ k, c < k * 2 ^ 18 → c / 262144 < k)%N as H18
    by (intros; apply N.Div0.div_lt_upper_bound; lia).
  destruct (N.ltb_spec c 128); [repeat constructor; lia|].
  destruct (N.ltb_spec c 2048).
  { assert (c / 64 < 32)%N by (apply N.Div0.div_lt_upper_bound; lia). repeat constructor; lia. }
  destruct (N.ltb_spec c 65536).
  { assert (c / 4096 < 16)%N by (apply N.Div0.div_lt_upper_bound; lia). repeat constructor; lia. }
  assert (c / 262144 < 5)%N by (apply N.Div0.div_lt_upper_bound; lia). repeat constructor; lia.
Qed.

Lemma wf_str_app (a b : str) : wf_str (a ++ b) = wf_str a && wf_str b.
Proof. apply forallb_app. Qed.

Lemma wf_write_str (s : str) : wf_str s = true → wf_str (write (JStr s)) = true.
Proof.
  intros Hs. cbn [write]. unfold write_escaped_string. rewrite !wf_str_app.
  apply andb_true_iff; split; [done|]. apply andb_true_iff; split; [|done].
  unfold wf_str in *. induction s as [|c s IH]; [done|]. cbn [forallb flat_map] in *.
  apply andb_true_iff in Hs as [Hc Hs]. change (wf_str (write_escape c ++ flat_map write_escape s) = true).
  rewrite wf_str_app. apply andb_true_iff; split; [|by apply IH]. unfold write_escape.
  repeat (case_match; [done|]). destruct (N.ltb_spec c 32).
  - assert (forallb (λ n, wf_str (backslash ++ "u" ++ hex4 false (N.of_nat n))) (seq 0 32) = true) as Hall
      by (vm_compute; reflexivity).
    rewrite forallb_forall in Hall. specialize (Hall (N.to_nat c) ltac:(apply in_seq; lia)).
    by rewrite N2Nat.id in Hall.
  - cbn. by rewrite Hc.
Qed.

Lemma wf_dec_Z (z : Z) : wf_str (dec_Z z) = true.
Proof.
  assert (∀ n, wf_str (dec_N n) = true) as Hn.
  { intros n. destruct (dec_N_spec n) as (H & _ & _). unfold wf_str. rewrite forallb_forall in *.
    intros c Hc. specialize (H c Hc). unfold is_digit in H. apply andb_true_iff in H as [_ H].
    apply N.leb_le in H. unfold is_scalar. by rewrite (proj2 (N.ltb_lt c 55296)) by lia. }
  unfold dec_Z. destruct (z <? 0); [|apply Hn]. rewrite wf_str_app, Hn. done.
Qed.

(** The order values a token carries exactly: null, a text, and a whole number
    however its record spells it, read back as [k']. *)
Inductive reads_back : Json → Json → Prop :=
| RB_null : reads_back JNull JNull
| RB_str s : wf_str s = true → reads_back (JStr s) (JStr s)
| RB_int z raw : write (JNum (f64_of_Z z) raw) = dec_Z z →
    reads_back (JNum (f64_of_Z z) raw) (integer_json z).

Lemma reads_back_facts (k k' : Json) :
  reads_back k k' → wire k' ∧ write k = write k' ∧ wf_str (write k) = true ∧ json_depth k' = 0%nat.
Proof.
  intros [|s Hs|z raw Hw].
  - repeat split; constructor.
  - split_and!; [constructor|done|by apply wf_write_str|done].
  - split_and!; [constructor|by rewrite write_integer|rewrite Hw; apply wf_dec_Z|done].
Qed.

Section tokens.
Context `{U : UnicodeTables}.

Lemma decode_encode (k k' : Json) (id : str) :
  reads_back k k' → wf_str id = true → decode (encode k id) = Ok (k', id).
Proof.
  intros Hk Hid. destruct (reads_back_facts k k' Hk) as (Hw & He & Hwf & Hd).
  unfold decode, encode, to_json_string.
  assert (write (JArray [k; JStr id]) = write (JArray [k'; JStr id])) as -> by (cbn [write map]; by rewrite He).
  assert (wf_str (write (JArray [k'; JStr id])) = true) as Hwa.
  { change (wf_str ("[" ++ (write k' ++ "," ++ write (JStr id)) ++ "]") = true).
    rewrite !wf_str_app, <- He, Hwf, wf_write_str by done. done. }
  rewrite unbase64_base64 by (by apply utf8_bytes). cbn [ok_or].
  rewrite utf8_roundtrip by done. cbn [ok_or].
  assert (wire (JArray [k'; JStr id])) as Hwire by (constructor; repeat constructor; done).
  pose proof (parse_value_write (JArray [k'; JStr id]) MAX_DEPTH Hwire) as Hp.
  assert (json_depth (JArray [k'; JStr id]) ≤ MAX_DEPTH)%nat as Hdep.
  { change (S (Nat.max (json_depth k') (Nat.max 0 0)) ≤ MAX_DEPTH)%nat. rewrite Hd. unfold MAX_DEPTH. cbn. lia. }
  unfold parse, parse_with. specialize (Hp Hdep [] eq_refl).
  rewrite app_nil_r in Hp. by rewrite Hp.
Qed.
End tokens.

(** ** The declared order *)

(** A number's place: its sign and size class, its exponent, its digits. *)
Definition rank (x : f64) : Z * Z * Z :=
  match x with
  | S754_nan => (0, 0, 0)
  | S754_infinity s => (if s then -2 else 2, 0, 0)
  | S754_zero _ => (0, 0, 0)
  | S754_finite s m e => if s then (-1, - e, - Zpos m) else (1, e, Zpos m)
  end.
Definition compare3 (a b : Z * Z * Z) : comparison :=
  match a.1.1 ?= b.1.1 with
  | Eq => match a.1.2 ?= b.1.2 with Eq => a.2 ?= b.2 | c => c end
  | c => c
  end.

Lemma f64_cmp_rank (x y : f64) :
  is_nan x = false → is_nan y = false → f64_cmp x y = Some (compare3 (rank x) (rank y)).
Proof.
  unfold f64_cmp. destruct x as [sx|sx| |sx mx ex], y as [sy|sy| |sy my ey]; try done; intros _ _;
    try destruct sx; try destruct sy; try reflexivity;
    unfold compare3, SFcompare; cbn [rank fst snd]; cbn [Z.compare Pos.compare Pos.compare_cont].
  rewrite Z.compare_opp, (Z.compare_antisym ex ey). by destruct (ex ?= ey)%Z.
Qed.

Lemma compare3_antisym (a b : Z * Z * Z) : compare3 b a = CompOpp (compare3 a b).
Proof.
  unfold compare3. rewrite (Z.compare_antisym a.1.1), (Z.compare_antisym a.1.2), (Z.compare_antisym a.2).
  destruct (a.1.1 ?= b.1.1), (a.1.2 ?= b.1.2); done.
Qed.
Lemma compare3_trans (a b c : Z * Z * Z) : cmp_le compare3 a b → cmp_le compare3 b c → cmp_le compare3 a c.
Proof.
  unfold cmp_le, compare3. destruct a as [[a1 a2] a3], b as [[b1 b2] b3], c as [[c1 c2] c3]. cbn [fst snd].
  destruct (Z.compare_spec a1 b1), (Z.compare_spec b1 c1), (Z.compare_spec a1 c1); try lia; try done;
    destruct (Z.compare_spec a2 b2), (Z.compare_spec b2 c2), (Z.compare_spec a2 c2); try lia; try done;
    destruct (Z.compare_spec a3 b3), (Z.compare_spec b3 c3), (Z.compare_spec a3 c3); try lia; done.
Qed.

(** A column's values are all numbers or all texts, where they are not null. *)
Inductive KeyKind := NumberKeys | TextKeys.
Definition of_kind (kd : KeyKind) (j : Json) : Prop :=
  match kd with
  | NumberKeys => ∃ n, as_f64 j = Some n ∧ is_nan n = false
  | TextKeys => ∃ s, j = JStr s
  end.
Definition uniform (kd : KeyKind) (o : OrderBy) (rows : Rows) : Prop :=
  Forall (λ r, order_key r.2 (order_field o) = JNull ∨ of_kind kd (order_key r.2 (order_field o))) rows.

Lemma f64_cmp_antisym (x y : f64) : default Eq (f64_cmp y x) = CompOpp (default Eq (f64_cmp x y)).
Proof.
  destruct (is_nan x) eqn:Ex, (is_nan y) eqn:Ey; [by destruct x, y|by destruct x, y|by destruct x, y|].
  rewrite !f64_cmp_rank by done. cbn. apply compare3_antisym.
Qed.

Lemma compare_antisym (a b : Json) : compare_comparable b a = CompOpp (compare_comparable a b).
Proof. destruct a, b; cbn; try done; try apply f64_cmp_antisym. apply str_compare_antisym. Qed.

Lemma compare_refl (a : Json) : compare_comparable a a = Eq.
Proof. pose proof (compare_antisym a a) as H. by destruct (compare_comparable a a). Qed.

Lemma compare_of_kind (kd : KeyKind) (a b c : Json) :
  of_kind kd a → of_kind kd b → of_kind kd c →
  cmp_le compare_comparable a b → cmp_le compare_comparable b c → cmp_le compare_comparable a c.
Proof.
  unfold cmp_le. destruct kd.
  - assert (∀ a b x y, as_f64 a = Some x → as_f64 b = Some y → is_nan x = false → is_nan y = false →
      compare_comparable a b = compare3 (rank x) (rank y)) as Hc.
    { intros a' b' x y Ha Hb Hx Hy. pose proof (f64_cmp_rank x y Hx Hy) as E.
      destruct a', b'; simplify_eq/=; by rewrite E. }
    intros (x & Hx & Nx) (y & Hy & Ny) (z & Hz & Nz).
    rewrite (Hc a b x y), (Hc b c y z), (Hc a c x z) by done.
    intros H1 H2. exact (compare3_trans _ _ _ H1 H2).
  - intros [x ->] [y ->] [z ->]. cbn. intros H1 H2. apply (by_id_le_trans (x, tt) (y, tt) (z, tt) H1 H2).
Qed.

(** *** A stable sort keeps, among equals, the order it was given *)
Section stable.
Context {A : Type} (cmp : A → A → comparison) (R : A → A → Prop) (P : A → Prop).
Context (antisym : ∀ x y, cmp y x = CompOpp (cmp x y)).
Context (trans : ∀ x y z, P x → P y → P z → cmp_le cmp x y → cmp_le cmp y z → cmp_le cmp x z).

Definition lex (x y : A) : Prop := cmp x y = Lt ∨ (cmp x y = Eq ∧ R x y).

Lemma lex_le (x y : A) : lex x y → cmp_le cmp x y.
Proof. unfold lex, cmp_le. intros [->|[-> _]]; done. Qed.

Lemma sort_insert_stable (x : A) (l : list A) :
  P x → Forall P l → Forall (R x) l → StronglySorted lex l → StronglySorted lex (sort_insert cmp x l).
Proof.
  intros Px. induction l as [|y l IH]; intros Pl Rl Hl; cbn [sort_insert]; [repeat constructor|].
  apply Forall_cons_iff in Pl as [Py Pl], Rl as [Ry Rl].
  apply StronglySorted_inv in Hl as [Hl Hy].
  assert (cmp x y ≠ Gt → StronglySorted lex (x :: y :: l)) as Hfront.
  { intros Hxy. constructor; [by constructor|]. constructor.
    - unfold lex. destruct (cmp x y) eqn:E; [auto|auto|done].
    - apply list.Forall_forall. intros z Hz. rewrite !list.Forall_forall in *.
      assert (cmp x z ≠ Gt) as Hxz by (eapply (trans x y z); auto; apply lex_le; auto).
      unfold lex. destruct (cmp x z) eqn:E; [auto|auto|done]. }
  destruct (cmp x y) eqn:E; [by apply Hfront..|]. constructor; [by apply IH|].
  rewrite sort_insert_perm. constructor; [|done]. left. by rewrite antisym, E.
Qed.

Lemma sort_by_stable (l : list A) :
  Forall P l → StronglySorted R l → StronglySorted lex (sort_by cmp l).
Proof.
  intros Pl Hl. induction Hl as [|x l Hl IH Hx]; [constructor|]. cbn [sort_by foldr].
  apply Forall_cons_iff in Pl as [Px Pl]. fold (sort_by cmp l). pose proof (sort_by_perm cmp l) as Hp.
  apply sort_insert_stable; [done|by rewrite Hp|by rewrite Hp|by apply IH].
Qed.
End stable.

Lemma StronglySorted_filter {A} (R : A → A → Prop) (p : A → bool) (l : list A) :
  StronglySorted R l → StronglySorted R (List.filter p l).
Proof.
  induction 1 as [|x l _ IH Hx]; [constructor|]. cbn [List.filter]. destruct (p x); [|done].
  constructor; [done|]. apply Forall_forall. intros y [Hy _]%filter_In. rewrite Forall_forall in Hx. auto.
Qed.

Lemma StronglySorted_app {A} (R : A → A → Prop) (l1 l2 : list A) :
  StronglySorted R (l1 ++ l2) ↔
  StronglySorted R l1 ∧ StronglySorted R l2 ∧ Forall (λ x, Forall (R x) l2) l1.
Proof.
  induction l1 as [|x l1 IH]; cbn [app].
  { split; [intros H; split_and!; [constructor|done|constructor]|by intros (_ & ? & _)]. }
  split.
  - intros [H1 H2]%StronglySorted_inv. apply IH in H1 as (? & ? & ?). apply Forall_app in H2 as [? ?].
    split_and!; [by constructor|done|by constructor].
  - intros ([H1 H2]%StronglySorted_inv & ? & [? ?]%Forall_cons_iff). constructor; [apply IH; auto|].
    by apply Forall_app.
Qed.

Lemma StronglySorted_rev {A} (R : A → A → Prop) (l : list A) :
  StronglySorted R l → StronglySorted (flip R) (rev l).
Proof.
  induction 1 as [|x l _ IH Hx]; [constructor|]. cbn [rev]. apply StronglySorted_app.
  split_and!; [done|repeat constructor|]. apply Forall_forall. intros y Hy%in_rev.
  constructor; [|constructor]. rewrite Forall_forall in Hx. by apply Hx.
Qed.

Lemma StronglySorted_weaken {A} (R R' : A → A → Prop) (l : list A) :
  (∀ x y, x ∈ l → y ∈ l → R x y → R' x y) → StronglySorted R l → StronglySorted R' l.
Proof.
  intros H Hl. induction Hl as [|x l _ IH Hx]; [constructor|]. constructor.
  - apply IH. intros; apply H; auto; by right.
  - rewrite list.Forall_forall in *. intros y Hy. apply H; [left|by right|auto].
Qed.

(** *** The order the rows of a query are in *)
(** [b] follows [a]: what [sequence] says of [b] against the position of [a]. *)
Definition precedes (o : OrderBy) (a b : str * Json) : Prop :=
  sequence (order_key b.2 (order_field o)) b.1 (order_key a.2 (order_field o)) a.1 o = Gt.
Definition id_lt {A} (a b : str * A) : Prop := str_lt a.1 b.1.

Lemma sequence_antisym (k1 k2 : Json) (i1 i2 : str) (o : OrderBy) :
  sequence k2 i2 k1 i1 o = CompOpp (sequence k1 i1 k2 i2 o).
Proof.
  unfold sequence. rewrite (compare_antisym k1 k2), (str_compare_antisym i1 i2).
  destruct (json_eqb k1 JNull), (json_eqb k2 JNull); cbn [Bool.eqb negb].
  - by destruct (descending o), (str_compare i1 i2).
  - by destruct (nulls_first o).
  - by destruct (nulls_first o).
  - by destruct (descending o), (compare_comparable k1 k2), (str_compare i1 i2).
Qed.

Lemma json_eqb_null (j : Json) : json_eqb j JNull = match j with JNull => true | _ => false end.
Proof. by destruct j as [| | |? [] | | |]. Qed.
Lemma is_null_eqb (j : Json) : json_eqb j JNull = true ↔ j = JNull.
Proof. by destruct j as [| | |? [] | | |]. Qed.

Lemma precedes_valued (o : OrderBy) (a b : str * Json) :
  json_eqb (order_key a.2 (order_field o)) JNull = false →
  json_eqb (order_key b.2 (order_field o)) JNull = false →
  lex (λ a b, compare_comparable (order_key a.2 (order_field o)) (order_key b.2 (order_field o))) id_lt a b →
  if descending o then precedes o b a else precedes o a b.
Proof.
  unfold lex, precedes, sequence, id_lt, str_lt. intros Ha Hb H. rewrite Ha, Hb. cbn [Bool.eqb negb].
  destruct (descending o).
  - destruct H as [->|[-> ->]]; done.
  - rewrite (compare_antisym (order_key a.2 (order_field o))), (str_compare_antisym a.1).
    destruct H as [->|[-> ->]]; done.
Qed.

Lemma precedes_null (o : OrderBy) (a b : str * Json) :
  json_eqb (order_key a.2 (order_field o)) JNull = true →
  json_eqb (order_key b.2 (order_field o)) JNull = true →
  id_lt a b → if descending o then precedes o b a else precedes o a b.
Proof.
  unfold precedes, sequence, id_lt, str_lt. intros Ha Hb H. rewrite Ha, Hb. cbn [Bool.eqb negb].
  destruct (descending o); [by rewrite H|]. by rewrite (str_compare_antisym a.1), H.
Qed.

Lemma directed_sorted {A} (R : A → A → Prop) (d : bool) (l : list A) :
  StronglySorted (λ a b, if d then R b a else R a b) l → StronglySorted R (if d then rev l else l).
Proof. destruct d; [apply StronglySorted_rev|done]. Qed.

Lemma apply_declared_order_sorted (kd : KeyKind) (o : OrderBy) (rows : Rows) :
  uniform kd o rows → StronglySorted id_lt rows → StronglySorted (precedes o) (apply_declared_order rows o).
Proof.
  intros Hu Hs. unfold apply_declared_order.
  set (null_key := λ '((_, record) : str * Json), json_eqb (order_key record (order_field o)) JNull).
  assert (∀ r, null_key r = json_eqb (order_key r.2 (order_field o)) JNull) as Hnk by (by intros []).
  set (nulls := List.filter null_key rows).
  set (cmp := λ a b : str * Json, compare_comparable (order_key a.2 (order_field o)) (order_key b.2 (order_field o))).
  set (valued := sort_by cmp (List.filter (λ r, negb (null_key r)) rows)).
  assert (∀ r, r ∈ nulls → json_eqb (order_key r.2 (order_field o)) JNull = true) as Hn.
  { intros r Hr. apply list_elem_of_In, filter_In in Hr as [_ Hr]. by rewrite <- Hnk. }
  assert (∀ r, r ∈ valued → json_eqb (order_key r.2 (order_field o)) JNull = false) as Hv.
  { intros r Hr. unfold valued in Hr. rewrite sort_by_perm in Hr.
    apply list_elem_of_In, filter_In in Hr as [_ Hr]. apply negb_true_iff in Hr. by rewrite <- Hnk. }
  assert (StronglySorted (precedes o) (if descending o then rev nulls else nulls)) as Sn.
  { apply directed_sorted. eapply StronglySorted_weaken; [|by apply StronglySorted_filter].
    intros a b Ha Hb. by apply precedes_null; apply Hn. }
  assert (StronglySorted (precedes o) (if descending o then rev valued else valued)) as Sv.
  { apply directed_sorted. eapply StronglySorted_weaken;
      [|apply (sort_by_stable cmp id_lt (λ r, of_kind kd (order_key r.2 (order_field o))))].
    - intros a b Ha Hb. apply precedes_valued; by apply Hv.
    - intros x y. apply compare_antisym.
    - intros x y z. apply compare_of_kind.
    - apply list.Forall_forall. intros r Hr. apply list_elem_of_In, filter_In in Hr as [Hr Hnn].
      apply negb_true_iff in Hnn. rewrite Hnk in Hnn. unfold uniform in Hu. rewrite list.Forall_forall in Hu.
      apply list_elem_of_In, Hu in Hr as [Hr|Hr]; [|done]. apply is_null_eqb in Hr. congruence.
    - by apply StronglySorted_filter. }
  assert (∀ a b, a ∈ nulls → b ∈ valued → if nulls_first o then precedes o a b else precedes o b a) as Hc.
  { intros a b Ha Hb. unfold precedes, sequence. rewrite (Hn a Ha), (Hv b Hb).
    by destruct (nulls_first o). }
  assert (∀ a, a ∈ (if descending o then rev nulls else nulls) → a ∈ nulls) as Rn.
  { intros a. destruct (descending o); [|done]. by rewrite list_elem_of_In, <- in_rev, <- list_elem_of_In. }
  assert (∀ a, a ∈ (if descending o then rev valued else valued) → a ∈ valued) as Rv.
  { intros a. destruct (descending o); [|done]. by rewrite list_elem_of_In, <- in_rev, <- list_elem_of_In. }
  assert (if nulls_first o
          then StronglySorted (precedes o) ((if descending o then rev nulls else nulls) ++
                                            (if descending o then rev valued else valued))
          else StronglySorted (precedes o) ((if descending o then rev valued else valued) ++
                                            (if descending o then rev nulls else nulls))) as Hall.
  { destruct (nulls_first o) eqn:En; apply StronglySorted_app; split_and!; try done;
      apply list.Forall_forall; intros a Ha; apply list.Forall_forall; intros b Hb;
      [by apply (Hc a b); auto|by apply (Hc b a); auto]. }
  unfold nulls_first in Hall. by destruct (Query.nulls o), (descending o).
Qed.

Lemma sort_by_id_strict (rows : Rows) : NoDup rows.*1 → StronglySorted id_lt (sort_by by_id rows).
Proof.
  intros Hnd. assert (NoDup (sort_by by_id rows).*1) as Hnd' by (by rewrite sort_by_perm).
  pose proof (sort_by_sorted by_id (@by_id_antisym Json) (@by_id_le_trans Json) rows) as Hs.
  revert Hs Hnd'. generalize (sort_by by_id rows). intros l. induction 1 as [|x l _ IH Hx]; [constructor|].
  cbn [fmap list_fmap]. intros [Hin Hnd']%list.NoDup_cons. constructor; [by apply IH|].
  rewrite list.Forall_forall in *. intros y Hy. specialize (Hx y Hy). unfold cmp_le, by_id in Hx.
  destruct (str_lt_trichotomy x.1 y.1) as [H|[H|H]]; [done| |by apply str_compare_gt in H].
  destruct Hin. rewrite H. apply list_elem_of_fmap. eauto.
Qed.

Lemma filter_partition {A} (p : A → bool) (l : list A) :
  List.filter p l ++ List.filter (λ x, negb (p x)) l ≡ₚ l.
Proof.
  induction l as [|x l IH]; [done|]. cbn [List.filter]. destruct (p x); cbn [negb app]; [by rewrite IH|].
  by rewrite <- Permutation_middle, IH.
Qed.

Lemma apply_declared_order_perm (o : OrderBy) (rows : Rows) : apply_declared_order rows o ≡ₚ rows.
Proof.
  unfold apply_declared_order.
  set (p := λ '((_, record) : str * Json), json_eqb (order_key record (order_field o)) JNull).
  assert (∀ l : Rows, (if descending o then rev l else l) ≡ₚ l) as Hd
    by (intros l; destruct (descending o); [symmetry; apply Permutation_rev|done]).
  destruct (Query.nulls o); [destruct (negb _)|..]; rewrite !Hd, sort_by_perm; try apply filter_partition;
    rewrite Permutation_app_comm; apply filter_partition.
Qed.

(** ** Paging *)
Section paging.
Context `{U : UnicodeTables}.

Definition row_before (ob : option OrderBy) (a b : str * Json) : Prop :=
  match ob with Some o => precedes o a b | None => id_lt a b end.
(** The order value a token for the row carries. *)
Definition token_key (ob : option OrderBy) (record : Json) : Json :=
  match ob with Some o => order_key record (order_field o) | None => JNull end.
Definition tokenable (ob : option OrderBy) (r : str * Json) : Prop :=
  wf_str r.1 = true ∧ ∃ k', reads_back (token_key ob r.2) k'.

Lemma order_rows_sorted (kd : KeyKind) (ob : option OrderBy) (rows : Rows) (args : Json) :
  NoDup rows.*1 → match ob with Some o => uniform kd o rows | None => True end →
  StronglySorted (row_before ob) (order_rows rows ob None None args) ∧
  order_rows rows ob None None args ≡ₚ rows.
Proof.
  intros Hnd Hu. unfold order_rows. destruct ob as [o|].
  - split; [|by rewrite apply_declared_order_perm, sort_by_perm].
    apply (apply_declared_order_sorted kd); [|by apply sort_by_id_strict].
    unfold uniform in *. by rewrite sort_by_perm.
  - split; [by apply sort_by_id_strict|apply sort_by_perm].
Qed.

Lemma follows_reads_back (ob : option OrderBy) (x y : str * Json) (k' : Json) :
  reads_back (token_key ob x.2) k' →
  follows y.1 y.2 ob k' x.1 = true ↔ row_before ob x y.
Proof.
  intros Hk. unfold follows, row_before, precedes, id_lt, str_lt. destruct ob as [o|]; cbn [token_key] in Hk.
  - assert (sequence (order_key y.2 (order_field o)) y.1 k' x.1 o =
      sequence (order_key y.2 (order_field o)) y.1 (order_key x.2 (order_field o)) x.1 o) as ->.
    { unfold sequence. generalize (order_key y.2 (order_field o)). intros k.
      revert Hk. generalize (order_key x.2 (order_field o)). intros k1 Hk. destruct Hk; [done..|]. unfold integer_json. rewrite !json_eqb_null. by destruct k. }
    by destruct (sequence _ _ _ _ _).
  - unfold str_ltb. by destruct (str_compare x.1 y.1).
Qed.

Lemma row_before_asym (ob : option OrderBy) (a b : str * Json) : row_before ob a b → ¬ row_before ob b a.
Proof.
  unfold row_before, precedes, id_lt. destruct ob as [o|].
  - rewrite (sequence_antisym (order_key a.2 _)). by destruct (sequence _ a.1 _ _ _).
  - intros H1 H2. assert (str_lt a.1 a.1) as Ha by (by transitivity b.1).
    by apply irreflexivity in Ha; [|apply _].
Qed.

(** The rows after a row's own token are the rows that come after it. *)
Lemma rows_after_token (ob : option OrderBy) (l1 l2 : Rows) (x : str * Json) :
  StronglySorted (row_before ob) (l1 ++ x :: l2) → tokenable ob x →
  rows_after (l1 ++ x :: l2) ob (Some (token_for x.1 x.2 ob)) = Ok l2.
Proof.
  intros Hs [Hid [k' Hk]]. unfold rows_after, token_for. fold (token_key ob x.2).
  rewrite (decode_encode _ _ _ Hk Hid). cbn [fst snd]. f_equal.
  set (p := λ '((id, record) : str * Json), follows id record ob k' x.1).
  assert (∀ y, p y = true ↔ row_before ob x y) as Hp by (intros []; by apply (follows_reads_back ob x (_, _))).
  apply StronglySorted_app in Hs as (_ & [_ H2]%StronglySorted_inv & H3).
  assert (List.filter p l1 = []) as H1.
  { induction l1 as [|y l1 IH]; [done|]. apply Forall_cons_iff in H3 as [Hy H3]. cbn [List.filter].
    apply Forall_cons_iff in Hy as [Hy _]. destruct (p y) eqn:E; [|by apply IH].
    apply Hp in E. by apply row_before_asym in E. }
  rewrite filter_app, H1. cbn [app List.filter].
  destruct (p x) eqn:E; [apply Hp in E; by pose proof (row_before_asym _ _ _ E)|].
  clear -H2 Hp. induction H2 as [|y l2 Hy _ IH]; [done|]. cbn [List.filter].
  apply Hp in Hy. by rewrite Hy, IH.
Qed.

(** ** Following the tokens *)
Context {St : Type} `{SS : AggregateScan St}.

(** The call's arguments with the position asked for. *)
Definition with_after (args : Json) (after : option str) : Json :=
  match args, after with
  | JObject fields, Some token => JObject (put "after" (JStr token) fields)
  | _, _ => args
  end.

(** A client: asks for page after page until there is no next one. *)
Fixpoint walk (fuel : nat) (st : St) (def : QueryDef) (args : Json) (role : option str)
    (after : option str) : res (list Rows) :=
  match fuel with
  | O => Err (Fault "too few turns")
  | S f =>
    let? page := run_page st def (with_after args after) role in
    match page.2 with
    | None => Ok [page.1]
    | Some token => let? pages := walk f st def args role (Some token) in Ok (page.1 :: pages)
    end
  end.

Definition not_after (v : QueryConditionValue) : bool :=
  match v with ConditionArg name => negb (str_eqb name "after") | _ => true end.
(** No part of the query reads the call's [after] but the cursor. *)
Definition ignores_after (def : QueryDef) : bool :=
  forallb (λ c, not_after (condition_value c)) (conditions def) &&
  forallb (λ h, not_after (inner_value h)) (reference_hop_conditions def) &&
  match authorization def with Some a => negb (str_eqb (tenant_field a) "after") | None => true end &&
  match query_limit def with Some (LimitArg name) => negb (str_eqb name "after") | _ => true end.

Lemma get_with_after (args : Json) (after : option str) (k : str) :
  str_eqb k "after" = false → get (with_after args after) k = get args k.
Proof.
  intros Hk%bool_decide_eq_false. destruct args, after; try done. cbn [with_after get].
  rewrite assoc_put. by rewrite bool_decide_false.
Qed.

Lemma resolve_with_after (v : QueryConditionValue) (args : Json) (after : option str) :
  not_after v = true → resolve v (with_after args after) = resolve v args.
Proof. destruct v; try done. cbn. intros Hn%negb_true_iff. by rewrite get_with_after. Qed.

Lemma matching_with_after (st : St) (def : QueryDef) (args : Json) (after : option str) (cd : Domains) :
  ignores_after def = true → matching_rows st def (with_after args after) cd = matching_rows st def args cd.
Proof.
  unfold ignores_after. rewrite !andb_true_iff. intros [[[Hc Hh] Ht] _]. unfold matching_rows.
  assert (map (λ c, (c, comparable (resolve (condition_value c) (with_after args after)))) (conditions def) =
          map (λ c, (c, comparable (resolve (condition_value c) args))) (conditions def)) as ->.
  { rewrite forallb_forall in Hc. apply map_ext_in. intros c Hin. by rewrite resolve_with_after by auto. }
  assert (∀ rows, apply_reference_hops rows (reference_hop_conditions def) (with_after args after) st =
                  apply_reference_hops rows (reference_hop_conditions def) args st) as Hhops.
  { unfold apply_reference_hops. induction (reference_hop_conditions def) as [|h hops IH]; intros rows; [done|].
    cbn [forallb] in Hh. apply andb_true_iff in Hh as [Hh1 Hh2]. cbn [try_fold].
    assert (apply_hop rows h (with_after args after) st = apply_hop rows h args st) as ->.
    { unfold apply_hop. by rewrite resolve_with_after. }
    destruct (apply_hop rows h args st); [by apply IH|done]. }
  destruct (authorization def) as [a|].
  - apply negb_true_iff in Ht. rewrite get_with_after by done. destruct (get args (tenant_field a)); [|done].
    destruct (ok_or (scan_each st (query_aggregate def)) _); [apply Hhops|done].
  - destruct (ok_or (scan_each st (query_aggregate def)) _); [apply Hhops|done].
Qed.

(** What a page asked for at a position answers: the rows after it. *)
Lemma run_page_at (st : St) (def : QueryDef) (args : Json) (role : option str) (after : option str)
    (entries : Rows) (size : nat) (limit : Limit) (rest : Rows) :
  cursor def = true → ignores_after def = true → query_limit def = Some limit →
  resolve_limit limit args = size → Z.of_nat size < i64_max →
  matching_rows st def args [] = Ok entries →
  rows_after (order_rows entries (query_order_by def) None None args) (query_order_by def)
    (get (with_after args after) "after" ≫= as_str) = Ok rest →
  run_page st def (with_after args after) role = Ok (split_page (take (S size) rest) (query_order_by def) size).
Proof.
  intros Hcur Hig Hlim Hsize Hmax Hm Hr. unfold run_page, run, run_cross_domain. rewrite Hlim.
  assert (resolve_limit limit (with_after args after) = size) as ->.
  { rewrite <- Hsize. unfold resolve_limit. destruct limit as [n|name]; [done|].
    unfold ignores_after in Hig. rewrite Hlim, !andb_true_iff in Hig. destruct Hig as [_ Hn].
    apply negb_true_iff in Hn. by rewrite get_with_after. }
  change (matching_rows st (with_limit def ?l) ?a []) with (matching_rows st def a []).
  rewrite matching_with_after, Hm by done. cbn [with_limit cursor]. rewrite Hcur. unfold cursor_rows.
  cbn [with_limit query_order_by query_limit].
  assert (order_rows entries (query_order_by def) None None (with_after args after) =
          order_rows entries (query_order_by def) None None args) as -> by done.
  rewrite Hr. unfold resolve_limit. rewrite wrap64_small by (unfold i64_max in Hmax; lia).
  by replace (Z.to_nat (Z.max (Z.of_nat size + 1) 0)) with (S size) by lia.
Qed.

Lemma split_page_take (rest : Rows) (ob : option OrderBy) (size : nat) :
  (0 < size)%nat →
  split_page (take (S size) rest) ob size =
  (take size rest, if (length rest <=? size)%nat then None
                   else (λ r, token_for r.1 r.2 ob) <$> list.last (take size rest)).
Proof.
  intros Hs. unfold split_page. rewrite length_take, take_take.
  replace (size `min` S size)%nat with size by lia.
  destruct (Nat.leb_spec (length rest) size).
  - by rewrite (proj2 (Nat.leb_le _ _)) by lia.
  - rewrite (proj2 (Nat.leb_gt _ _)) by lia. rewrite (proj2 (Nat.eqb_neq _ _)) by lia. cbn [orb].
    by destruct (list.last (take size rest)) as [[]|].
Qed.

(** The client's walk from a position: the rows after it, page by page. *)
Lemma walk_from (st : St) (def : QueryDef) (fields : list (str * Json)) (role : option str)
    (entries : Rows) (size : nat) (limit : Limit) :
  cursor def = true → ignores_after def = true → query_limit def = Some limit →
  resolve_limit limit (JObject fields) = size → (0 < size)%nat → Z.of_nat size < i64_max →
  matching_rows st def (JObject fields) [] = Ok entries →
  let full := order_rows entries (query_order_by def) None None (JObject fields) in
  StronglySorted (row_before (query_order_by def)) full → Forall (tokenable (query_order_by def)) full →
  ∀ fuel l1 l2 after, full = l1 ++ l2 → (length l2 < fuel)%nat →
  match after with
  | None => l1 = [] ∧ get (JObject fields) "after" ≫= as_str = None
  | Some token => ∃ l0 x, l1 = l0 ++ [x] ∧ token = token_for x.1 x.2 (query_order_by def)
  end →
  ∃ pages, walk fuel st def (JObject fields) role after = Ok pages ∧ concat pages = l2 ∧
    Forall (λ p, (length p ≤ size)%nat) pages ∧ Forall (λ p, length p = size) (removelast pages).
Proof.
  intros Hcur Hig Hlim Hsize Hpos Hmax Hm full Hsorted Htok.
  induction fuel as [|f IH]; intros l1 l2 after Hfull Hfuel Hafter; [lia|].
  assert (rows_after full (query_order_by def) (get (with_after (JObject fields) after) "after" ≫= as_str)
          = Ok l2) as Hrows.
  { destruct after as [token|].
    - destruct Hafter as (l0 & x & -> & ->). cbn [with_after get]. rewrite assoc_put, bool_decide_true by done.
      cbn [mbind option_bind as_str]. rewrite <- app_assoc in Hfull. cbn [app] in Hfull.
      rewrite Hfull in *. apply rows_after_token; [done|].
      apply Forall_app in Htok as [_ Htok]. by apply Forall_cons_iff in Htok as [? _].
    - destruct Hafter as [-> Hg]. cbn [with_after]. rewrite Hg. by rewrite Hfull. }
  cbn [walk]. erewrite run_page_at by done. rewrite split_page_take by done. cbn [fst snd].
  destruct (Nat.leb_spec (length l2) size) as [Hle|Hgt].
  { exists [l2]. rewrite take_ge by done. split_and!; [done|apply app_nil_r|by repeat constructor|constructor]. }
  destruct (list.last (take size l2)) as [y|] eqn:El.
  2: { apply list.last_None in El. apply (f_equal length) in El. rewrite length_take in El. cbn in El. lia. }
  apply list.last_Some in El as [l2' El]. cbn [fmap option_fmap option_map].
  destruct (IH (l1 ++ take size l2) (drop size l2) (Some (token_for y.1 y.2 (query_order_by def))))
    as (pages & -> & Hcat & Hlen & Hfullp).
  - by rewrite <- app_assoc, take_drop.
  - rewrite length_drop. lia.
  - exists (l1 ++ l2'), y. split; [|done]. by rewrite El, app_assoc.
  - exists (take size l2 :: pages). split_and!; [done|by cbn; rewrite Hcat, take_drop| |].
    + constructor; [|done]. rewrite length_take. lia.
    + destruct pages; [constructor|]. change (removelast (?a :: ?b :: ?c)) with (a :: removelast (b :: c)).
      constructor; [|done]. rewrite length_take. lia.
Qed.
End paging.

(** ** Properties *)

(** C34: the pages of a cursor query, followed from one token to the next, are
    the whole answer in its declared order, nothing twice and nothing missed:
    each page holds exactly the page size but the last, which holds what is
    left.  It holds for every order (direction, placing of nulls, ties), for
    order values that are null, texts or whole numbers. *)
Theorem pages_cover_the_answer `{U : UnicodeTables} {St} `{SS : AggregateScan St} (st : St)
    (def : QueryDef) (fields : list (str * Json)) (role : option str) (entries : Rows) (size : nat)
    (limit : Limit) (kd : KeyKind) :
  cursor def = true → ignores_after def = true → query_limit def = Some limit →
  resolve_limit limit (JObject fields) = size → (0 < size)%nat → Z.of_nat size < i64_max →
  get (JObject fields) "after" ≫= as_str = None →
  matching_rows st def (JObject fields) [] = Ok entries → NoDup entries.*1 →
  match query_order_by def with Some o => uniform kd o entries | None => True end →
  Forall (tokenable (query_order_by def)) entries →
  ∃ pages, walk (S (length entries)) st def (JObject fields) role None = Ok pages ∧
    concat pages = order_rows entries (query_order_by def) None None (JObject fields) ∧
    concat pages ≡ₚ entries ∧
    Forall (λ p, (length p ≤ size)%nat) pages ∧ Forall (λ p, length p = size) (removelast pages).
Proof.
  intros Hcur Hig Hlim Hsize Hpos Hmax Hg Hm Hnd Hu Htok.
  destruct (order_rows_sorted kd (query_order_by def) entries (JObject fields) Hnd Hu) as [Hs Hp].
  destruct (walk_from st def fields role entries size limit Hcur Hig Hlim Hsize Hpos Hmax Hm Hs
    ltac:(by rewrite Hp) (S (length entries)) [] (order_rows entries (query_order_by def) None None (JObject fields))
    None eq_refl) as (pages & Hw & Hcat & Hlen & Hfull).
  - rewrite (Permutation_length Hp). lia.
  - done.
  - exists pages. by rewrite Hcat.
Qed.

(** A query's rows come back in its declared order: the answer is a
    permutation of the rows that matched, each row strictly after the one
    before it by the rule the cursor compares positions with, so it does not
    depend on the order the store lists them in. *)
Theorem declared_order_strict (kd : KeyKind) (ob : option OrderBy) (rows rows' : Rows) (args : Json) :
  NoDup rows.*1 → match ob with Some o => uniform kd o rows | None => True end → rows ≡ₚ rows' →
  StronglySorted (row_before ob) (order_rows rows ob None None args) ∧
  order_rows rows ob None None args ≡ₚ rows ∧
  order_rows rows' ob None None args = order_rows rows ob None None args.
Proof.
  intros Hnd Hu Hp. destruct (order_rows_sorted kd ob rows args Hnd Hu) as [Hs Hperm].
  destruct (order_rows_sorted kd ob rows' args) as [Hs' Hperm'].
  - by rewrite <- Hp.
  - destruct ob; [|done]. unfold uniform in *. by rewrite <- Hp.
  - split_and!; [done..|]. apply (sorted_unique (row_before ob)); [|done..|by rewrite Hperm, Hperm'].
    intros x y H1 H2. by apply row_before_asym in H1.
Qed.

(** A store of named tables, and a cursor query over it for the witnesses. *)
Definition tables_scan : AggregateScan (list (str * Rows)) := {| scan st aggregate := assoc aggregate st |}.
Definition score_row (id : str) (score : option Z) : str * Json :=
  (id, JObject [("score", match score with Some z => json_int z | None => JNull end)]).
Definition score_rows : Rows :=
  [score_row "a" (Some 3); score_row "b" None; score_row "c" (Some 7); score_row "d" (Some 3); score_row "e" None].
Definition score_order : OrderBy := {| order_field := "score"; descending := true; nulls := NullsNative |}.
Definition score_query : QueryDef := {|
  query_verb := "Game::Score.Top"; query_aggregate := "Game::Score"; conditions := [];
  reference_hop_conditions := []; query_order_by := Some score_order; query_offset := None;
  query_limit := Some (LimitLiteral 2); cursor := true; authorization := None |}.

Lemma score_uniform : uniform NumberKeys score_order score_rows.
Proof.
  apply list.Forall_forall. intros r Hr. unfold score_rows in Hr.
  repeat (apply elem_of_cons in Hr as [->|Hr]; [first [left; reflexivity|right; eexists; split; reflexivity]|]).
  by apply not_elem_of_nil in Hr.
Qed.
Lemma score_tokenable : Forall (tokenable (Some score_order)) score_rows.
Proof.
  apply list.Forall_forall. intros r Hr. unfold score_rows in Hr.
  repeat (apply elem_of_cons in Hr as [->|Hr];
    [split; [reflexivity|eexists; first [apply RB_null|apply (RB_int _ (Some (dec_Z _))); reflexivity]]|]).
  by apply not_elem_of_nil in Hr.
Qed.

Lemma pages_cover_the_answer_witness :
  ∃ pages, @walk ascii_tables _ tables_scan 6 [("Game::Score", score_rows)] score_query (JObject []) None None
           = Ok pages ∧ map (map fst) pages = [["c"; "d"]; ["a"; "e"]; ["b"]].
Proof.
  destruct (@pages_cover_the_answer ascii_tables _ tables_scan [("Game::Score", score_rows)] score_query [] None
    score_rows 2 (LimitLiteral 2) NumberKeys) as (pages & Hw & Hc & _).
  - reflexivity.
  - reflexivity.
  - reflexivity.
  - reflexivity.
  - lia.
  - reflexivity.
  - reflexivity.
  - vm_compute. reflexivity.
  - refine (bool_decide_unpack _ _). vm_compute. exact I.
  - exact score_uniform.
  - exact score_tokenable.
  - exists pages. split; [exact Hw|].
    assert (@walk ascii_tables _ tables_scan 6 [("Game::Score", score_rows)] score_query (JObject []) None None
      = Ok [[score_row "c" (Some 7); score_row "d" (Some 3)]; [score_row "a" (Some 3); score_row "e" None];
            [score_row "b" None]]) as E by (vm_compute; reflexivity).
    change (S (length score_rows)) with 6%nat in Hw. rewrite E in Hw. injection Hw as <-. reflexivity.
Defined.

Lemma declared_order_strict_witness :
  order_rows (rev score_rows) (Some score_order) None None JNull =
  order_rows score_rows (Some score_order) None None JNull.
Proof.
  apply (declared_order_strict NumberKeys (Some score_order) score_rows (rev score_rows) JNull).
  - refine (bool_decide_unpack _ _). vm_compute. exact I.
  - exact score_uniform.
  - apply Permutation_rev.
Defined.

(** A cursor token is read back as the position it names, whatever the
    identifier's characters: the order value null, a text or a whole number,
    and the identifier. *)
Theorem token_read_back `{U : UnicodeTables} (k k' : Json) (id : str) :
  reads_back k k' → wf_str id = true →
  decode (Query.encode k id) = Ok (k', id) ∧ ∀ other, compare_comparable other k' = compare_comparable other k.
Proof.
  intros Hk Hid. split; [by apply decode_encode|].
  intros other. destruct Hk; [done..|]. by destruct other.
Qed.

Lemma token_read_back_witness :
  @decode ascii_tables (@Query.encode (JStr "Z" ) ("a/" ++ dquote ++ [233; 128169]%N))
  = Ok (JStr "Z", "a/" ++ dquote ++ [233; 128169]%N).
Proof.
  apply (@token_read_back ascii_tables (JStr "Z") (JStr "Z") ("a/" ++ dquote ++ [233; 128169]%N)).
  - apply RB_str. vm_compute. reflexivity.
  - vm_compute. reflexivity.
Defined.

Section bounds_and_roles.
Context `{U : UnicodeTables} {St : Type} `{SS : AggregateScan St}.

(** The largest page size asks for one row more than a 64-bit integer
    counts, which wraps to a negative limit: the page is empty and says there
    is no next one, whatever rows matched. *)
Theorem largest_page_is_empty (st : St) (def : QueryDef) (args : Json) (role : option str) :
  run_page st (with_limit def (LimitLiteral i64_max)) args role =
  let? _ := run st (with_limit def (LimitLiteral 0)) args role in Ok ([], None).
Proof.
  unfold run_page. change (query_limit (with_limit def ?l)) with (Some l). cbv beta iota.
  assert (wrap64 (Z.of_nat (resolve_limit (LimitLiteral i64_max) args) + 1) = - 2 ^ 63) as ->.
  { unfold resolve_limit. rewrite Z2Nat.id by (unfold i64_max; lia). vm_compute. reflexivity. }
  generalize (resolve_limit (LimitLiteral i64_max) args). intros size.
  unfold run, run_cross_domain.
  change (with_limit (with_limit def ?l) ?l') with (with_limit def l').
  change (matching_rows st (with_limit def ?l) args []) with (matching_rows st def args []).
  destruct (matching_rows st def args []) as [entries|e]; [|done]. cbn [with_limit cursor].
  assert (∀ ob : option OrderBy, split_page [] ob size = ([], None)) as Hsp.
  { intros ob. unfold split_page. by rewrite take_nil. }
  destruct (cursor def).
  - unfold cursor_rows. cbn [with_limit query_order_by query_limit].
    destruct (rows_after _ _ _); [|done]. change (resolve_limit _ _) with 0%nat.
    by rewrite Hsp.
  - cbn [with_limit query_order_by query_limit query_offset]. unfold order_rows.
    change (resolve_limit (LimitLiteral _) args) with 0%nat. by rewrite Hsp.
Qed.

Definition attached (queries : list QueryDef) (assignments : option str) : bool :=
  match assignments ≫= find_query queries with Some _ => true | None => false end.

(** Whether a role lets the caller through: an identified caller must hold it
    where a provider of roles is attached, any other must state it, and one who
    states nothing is not checked. *)
Definition lets_through (caller actor : option str) (st : St) (queries : list QueryDef)
    (assignments : option str) (role : str) : Prop :=
  match actor with
  | Some a =>
    if attached queries assignments then holds_role_via st queries assignments a role = true
    else match caller with Some c => c = role | None => True end
  | None => match caller with Some c => c = role | None => True end
  end.

Lemma check_role_decides (role cmd : str) (caller actor : option str) (st : St) (queries : list QueryDef)
    (assignments : option str) :
  (check_role_via (Some role) cmd caller actor st queries assignments = Ok tt ∧
   lets_through caller actor st queries assignments role) ∨
  (kind <$> match check_role_via (Some role) cmd caller actor st queries assignments with
            | Ok _ => None | Err e => Some e end = Some "Unauthorized" ∧
   ¬ lets_through caller actor st queries assignments role).
Proof.
  unfold check_role_via, lets_through. fold (attached queries assignments).
  destruct actor as [a|], caller as [c|]; cbn [negb orb].
  - destruct (attached queries assignments).
    + destruct (holds_role_via st queries assignments a role); [by left|by right].
    + unfold str_eqb. case_bool_decide; [by left|by right].
  - destruct (attached queries assignments); cbn [negb orb]; [|by left].
    destruct (holds_role_via st queries assignments a role); [by left|by right].
  - unfold str_eqb. case_bool_decide; [by left|by right].
  - by left.
Qed.

(** A command is let through exactly when one of its roles lets the caller
    through: an identified caller, where a domain that assigns roles is
    attached, only on a live assignment of the role and never on the role they
    state; everyone else on the role they state; and a caller who states
    nothing and is not identified always.  Otherwise, and for a command with no
    role at all, it is refused as unauthorized. *)
Theorem roles_decide (roles : list str) (cmd : str) (caller actor : option str) (st : St)
    (queries : list QueryDef) (assignments : option str) :
  (∃ role, role ∈ roles ∧ lets_through caller actor st queries assignments role) ↔
  check_roles_via roles cmd caller actor st queries assignments = Ok tt.
Proof.
  unfold check_roles_via.
  set (p := λ role, negb (is_ok (check_role_via (Some role) cmd caller actor st queries assignments))).
  assert (∀ role, p role = false ↔ lets_through caller actor st queries assignments role) as Hp.
  { intros role. unfold p. destruct (check_role_decides role cmd caller actor st queries assignments)
      as [[-> H]|[H Hn]]; [done|]. destruct (check_role_via _ _ _ _ _ _ _); [done|]. cbn. by split. }
  assert (forallb p roles = false ↔ ∃ role, role ∈ roles ∧ lets_through caller actor st queries assignments role)
    as <-.
  { clear -Hp. induction roles as [|r roles IH]; cbn [forallb].
    - split; [done|]. by intros (? & ?%not_elem_of_nil & _).
    - rewrite andb_false_iff, IH, Hp. setoid_rewrite elem_of_cons. naive_solver. }
  by destruct (forallb p roles).
Qed.
End bounds_and_roles.
