(* ===== verification/ReadModel.v ===== *)
(** Read models ([src/rust/src/kernel/read_model.rs],
    [kernel/vocab/reducer.rs]): the heads of a report joined by reference, their
    rows filtered and paged, grouped or reduced.  Reference hops are in
    [Query].  The per-read-model group function is an argument of the
    definition, as it is a field of it in the source. *)
From stdpp Require Import gmap.
From S2P Require Export Query.

(** ** [Reducer] *)
Inductive Reducer := R_Count | R_Sum | R_Avg | R_Min | R_Max | R_Median | R_Percentile | R_Any | R_All.
#[global] Instance Reducer_eq_dec : EqDecision Reducer.
Proof. solve_decision. Defined.
Definition Reducer_ALL : list Reducer :=
  [R_Count; R_Sum; R_Avg; R_Min; R_Max; R_Median; R_Percentile; R_Any; R_All].
Definition reducer_name (r : Reducer) : str :=
  match r with
  | R_Count => "count" | R_Sum => "sum" | R_Avg => "avg" | R_Min => "min" | R_Max => "max"
  | R_Median => "median" | R_Percentile => "percentile" | R_Any => "any" | R_All => "all"
  end.
Definition reducer_identity (r : Reducer) : str :=
  match r with
  | R_Count | R_Sum => "0"
  | R_Avg | R_Min | R_Max | R_Median | R_Percentile => "null"
  | R_Any => "false"
  | R_All => "true"
  end.
Definition reducer_combine (r : Reducer) : str :=
  match r with
  | R_Count | R_Sum => "add" | R_Avg | R_Median | R_Percentile => "collect"
  | R_Min => "min" | R_Max => "max" | R_Any => "or" | R_All => "and"
  end.
Definition reducer_inverse (r : Reducer) : str :=
  match r with R_Count | R_Sum => "subtract" | _ => [] end.
Definition reducer_from_name (name : str) : option Reducer :=
  List.find (λ r, str_eqb (reducer_name r) name) Reducer_ALL.

(** ** Reductions *)
Inductive Reduction :=
| Count | Median (field : str) | Sum (field : str) | Avg (field : str) | Min (field : str) | Max (field : str)
| Percentile (field : str) (at_ : f64) | AnyOf (field : str) | AllOf (field : str).
Definition reducer (r : Reduction) : Reducer :=
  match r with
  | Count => R_Count | Median _ => R_Median | Sum _ => R_Sum | Avg _ => R_Avg | Min _ => R_Min
  | Max _ => R_Max | Percentile _ _ => R_Percentile | AnyOf _ => R_Any | AllOf _ => R_All
  end.
Definition reduced_field (r : Reduction) : option str :=
  match r with
  | Count => None
  | Median f | Sum f | Avg f | Min f | Max f | Percentile f _ | AnyOf f | AllOf f => Some f
  end.

Definition empty_answer (r : Reducer) : Json :=
  if str_eqb (reducer_identity r) "true" then JBool true
  else if str_eqb (reducer_identity r) "false" then JBool false
  else match parse_f64 (reducer_identity r) with Some v => JNum v None | None => JNull end.

(** The declared field's values, as they are compared. *)
Definition field_values (rows : Rows) (field : str) : list Json :=
  map comparable (omap (λ '(_, row), get row field) rows).
Definition is_null (j : Json) : bool := match j with JNull => true | _ => false end.
Definition held_values (rows : Rows) (field : str) : list Json :=
  List.filter (λ v, negb (is_null v)) (field_values rows field).
Definition holds_no_value (rows : Rows) (field : str) : bool := forallb is_null (field_values rows field).

Definition number_order (a b : Json) : comparison := default Eq (f64_cmp (number_of a) (number_of b)).

(** An index past the end, which panics in the source, reads [JNull]. *)
Definition percentile (rows : Rows) (field : str) (at_ : f64) : Json :=
  match held_values rows field with
  | [] => JNull
  | held =>
    let values := sort_by number_order held in
    let position := f64_mul at_ (f64_of_Z (Z.of_nat (length values - 1))) in
    let lower := Z.to_nat (as_usize (f64_floor position)) in
    let fraction := f64_sub position (f64_of_Z (Z.of_nat lower)) in
    if f64_eqb fraction f64_zero then nth lower values JNull
    else
      let lo := number_of (nth lower values JNull) in
      let hi := number_of (nth (S lower) values JNull) in
      JFloat (f64_add lo (f64_mul fraction (f64_sub hi lo)))
  end.
Definition half : f64 := f64_lit "0.5".
Definition median (rows : Rows) (field : str) : Json := percentile rows field half.

Definition sum (rows : Rows) (field : str) : Json :=
  JNum (fold_left (λ acc v, f64_add acc (number_of v)) (held_values rows field) f64_zero) None.
(** [Iterator::sum] begins at negative zero. *)
Definition avg (rows : Rows) (field : str) : Json :=
  match map number_of (held_values rows field) with
  | [] => JNull
  | values => JFloat (f64_div (fold_left f64_add values (S754_zero true)) (f64_of_Z (Z.of_nat (length values))))
  end.
Definition extreme (rows : Rows) (field : str) (want_max : bool) : Json :=
  let sorted := sort_by number_order (held_values rows field) in
  default JNull (if want_max then list.last sorted else head sorted).
Definition boolean_reduce (rows : Rows) (field : str) (want_all : bool) : Json :=
  let values := omap as_bool (field_values rows field) in
  JBool (if want_all then forallb id values else existsb id values).

Definition reduce (rows : Rows) (r : Reduction) : Json :=
  if match reduced_field r with Some field => holds_no_value rows field | None => false end
  then empty_answer (reducer r)
  else match r with
  | Count => JNum (f64_of_Z (Z.of_nat (length rows))) None
  | Median f => median rows f
  | Sum f => sum rows f
  | Avg f => avg rows f
  | Min f => extreme rows f false
  | Max f => extreme rows f true
  | Percentile f at_ => percentile rows f at_
  | AnyOf f => boolean_reduce rows f false
  | AllOf f => boolean_reduce rows f true
  end.

(** ** Grouping *)
Inductive LeafCheck := IdentityCovered | RefuseCollision (read_model : str).
Inductive Leaf := LeafRow (check : LeafCheck) | LeafReduce (r : Reduction).

(** A row's key under a field, and the row without it. *)
Definition split_key (field : str) (row : Json) : Json * Json :=
  match row with
  | JObject pairs => (default JNull (assoc field pairs),
                      JObject (List.filter (λ '(k, _), negb (str_eqb k field)) pairs))
  | other => (JNull, other)
  end.
(** The group whose key the row has, or a new one at the end. *)
Fixpoint add_to_group (groups : list (Json * list Json)) (key row : Json) : list (Json * list Json) :=
  match groups with
  | [] => [(key, [row])]
  | (k, group) :: rest =>
    if json_eqb k key then (k, group ++ [row]) :: rest else (k, group) :: add_to_group rest key row
  end.
Definition group_rows (field : str) (rows : list Json) : list (Json * list Json) :=
  fold_left (λ groups row, let (key, stripped) := split_key field row in add_to_group groups key stripped)
    rows [].

Definition id_text (row : Json) : str := match get row "id" with Some v => to_s v | None => [] end.
Definition leaf_pairs (group : list Json) : Rows := map (λ row, (id_text row, row)) group.

Section reading.
Context `{U : UnicodeTables}.

Definition leaf (group : list Json) (all_fields : list str) (check : LeafCheck) (path : list (str * Json))
  : res Json :=
  match check with
  | RefuseCollision read_model =>
    if (1 <? length group)%nat then
      Err (InvariantViolation (render_args (InvariantViolationGroupByCollisionArgs read_model all_fields
        (map id_text group) (join ", " (map (λ '(f, v), f ++ " = " ++ to_s v) path)))))
    else Ok (default JNull (head group))
  | IdentityCovered => Ok (default JNull (head group))
  end.

Definition no_fields : Refusal :=
  Fault "nest called with empty fields — read_model_skip_reason should refuse a group_by with none".
Fixpoint nest_level (rows : list Json) (all_fields fields : list str) (answer : Leaf)
    (reached : list (str * Json)) : res Json :=
  match fields with
  | [] => Err no_fields
  | field :: rest =>
    let? out := collect_results (λ '(key, group),
      let path := reached ++ [(field, key)] in
      let? value := match rest, answer with
        | [], LeafRow check => leaf group all_fields check path
        | [], LeafReduce r => Ok (reduce (leaf_pairs group) r)
        | _ :: _, _ => nest_level group all_fields rest answer path
        end in
      Ok (to_s key, value)) (group_rows field rows) in
    Ok (JObject out)
  end.
Definition nest (rows : list Json) (fields : list str) (check : LeafCheck) : res Json :=
  nest_level rows fields fields (LeafRow check) [].
Definition nest_reduced (rows : list Json) (fields : list str) (r : Reduction) : res Json :=
  nest_level rows fields fields (LeafReduce r) [].

(** ** A compiled report *)
Record ReferenceField := { reference_target : str; reference_field : str }.
Record ReadModelHead := {
  head_aggregate : str; as_name : str; many : bool; is_root : bool; reference_fields : list ReferenceField
}.
Record FilteredHead := {
  filtered_as : str; filtered_conditions : list QueryCondition;
  filtered_hops : list ReferenceHopCondition; filtered_order : option OrderBy;
  filtered_offset : option Limit; filtered_limit : option Limit
}.
Record ReadModelDef := {
  rm_verb : str; reference_name : option str; heads : list ReadModelHead;
  filtered_heads : list FilteredHead; rm_authorization : option TenantAuth;
  group_by : option (Rows → res Json); reduction : option Reduction
}.

(** [to_snake]: a word boundary where a capital follows a lower-case letter or a
    digit, or ends a run of capitals. *)
Definition boundary (prev c : char) (next : option char) : bool :=
  (is_upper prev && is_upper c && match next with Some n => is_lower n | None => false end)
  || ((is_lower prev || is_digit prev) && is_upper c).
Fixpoint snake_words (prev : option char) (s : str) : str :=
  match s with
  | [] => []
  | c :: rest =>
    match prev with
    | Some p => if boundary p c (head rest) then 95%N :: c :: snake_words (Some c) rest
                else c :: snake_words (Some c) rest
    | None => c :: snake_words (Some c) rest
    end
  end.
Definition to_snake (name : str) : str := to_lowercase (snake_words None name).
Definition matches_snake_alias (declared_verb asked : str) : bool :=
  match split_once declared_verb 46, split_once asked 46 with
  | Some (domain, name), Some (asked_domain, asked_name) =>
    str_eqb domain asked_domain && str_eqb (to_snake name) asked_name
  | _, _ => false
  end.
Definition find_read_model (table : list ReadModelDef) (verb : str) : option ReadModelDef :=
  List.find (λ def, str_eqb (rm_verb def) verb || matches_snake_alias (rm_verb def) verb) table.

Context {St : Type} `{SS : AggregateScan St}.

(** ** One head's rows *)
Definition fetch_root (st : St) (h : ReadModelHead) (reference_id : str) : res (str * Json) :=
  let? rows := ok_or (scan_each st (head_aggregate h)) (unknown_aggregate (head_aggregate h)) in
  ok_or (List.find (λ '(id, _), str_eqb id reference_id) rows)
    (NotFound (render_args (NotFoundReadModelReferenceMissingArgs (last_piece (head_aggregate h) "::")
       (debug_str reference_id)))).

Abbreviation Projected := (list (str * Rows)).
Definition record_matches (record : Json) (h : ReadModelHead) (projected : Projected) : bool :=
  existsb (λ rf,
    match get record (reference_field rf) ≫= as_str with
    | None => false
    | Some held_id =>
      existsb (λ '(aggregate, rows),
        str_eqb aggregate (reference_target rf) && existsb (λ '(id, _), str_eqb id held_id) rows) projected
    end) (reference_fields h).
Definition scan_matching (st : St) (h : ReadModelHead) (projected : Projected) : Rows :=
  match scan st (head_aggregate h) with
  | None => []
  | Some entries => sort_by by_id (List.filter (λ '(_, record), record_matches record h projected) entries)
  end.

Definition apply_filtered_head_options (rows : Rows) (f : FilteredHead) (args : Json) (st : St) : res Rows :=
  let rows := fold_left (λ rows c,
    filter_entries rows (condition_field c) (condition_comparator c) (resolve (condition_value c) args))
    (filtered_conditions f) rows in
  let? rows := apply_reference_hops rows (filtered_hops f) args st in
  Ok (order_rows rows (filtered_order f) (filtered_offset f) (filtered_limit f) args).

(** ** [run] *)
Definition missing_reference (def : ReadModelDef) (name : str) : Refusal :=
  TypeMismatch (rm_verb def ++ ": missing reference argument " ++ debug_str name).

Record Reading := {
  projected : Projected; rows_by_as : gmap str (bool * Rows); grouped_heads : gset str
}.
Definition head_rows (st : St) (h : ReadModelHead) (reference_id : option str) (projected : Projected)
  : res Rows :=
  match reference_id with
  | None => Ok (default [] (scan st (head_aggregate h)))
  | Some id =>
    if is_root h then let? row := fetch_root st h id in Ok [row]
    else Ok (scan_matching st h projected)
  end.
Definition read_head (st : St) (def : ReadModelDef) (args : Json) (reference_id : option str)
    (r : Reading) (h : ReadModelHead) : res Reading :=
  let? rows := head_rows st h reference_id (projected r) in
  let? rows := match List.find (λ f, str_eqb (filtered_as f) (as_name h)) (filtered_heads def) with
    | Some f => apply_filtered_head_options rows f args st
    | None => Ok rows
    end in
  Ok {| projected := projected r ++ [(head_aggregate h, rows)];
        rows_by_as := <[as_name h := (many h, rows)]> (rows_by_as r);
        grouped_heads := if match group_by def with Some _ => many h | None => false end
                         then {[as_name h]} ∪ grouped_heads r else grouped_heads r |}.

Definition never_computed : Refusal :=
  Fault "every head in def.heads was computed in the loop above — as_name is unique per read model (ReadModelBuilder#add_aggregate_head)".
Definition never_grouped : Refusal :=
  Fault "grouped_heads is only ever populated when def.group_by is Some".
Definition head_value (def : ReadModelDef) (grouped : bool) (many_rows : bool * Rows) : res Json :=
  let (many, rows) := many_rows in
  if grouped then
    match group_by def with Some f => f rows | None => Err never_grouped end
  else match reduction def with
  | Some r => if many then Ok (reduce rows r)
              else Ok (match rows with (id, record) :: _ => row_json id record | [] => JNull end)
  | None =>
    if many then Ok (JArray (map (λ '(id, record), row_json id record) rows))
    else Ok (match rows with (id, record) :: _ => row_json id record | [] => JNull end)
  end.
(** The heads in declared order, each taken out of the rows computed. *)
Fixpoint write_heads (def : ReadModelDef) (grouped : gset str) (left : gmap str (bool * Rows))
    (hs : list ReadModelHead) : res (list (str * Json)) :=
  match hs with
  | [] => Ok []
  | h :: rest =>
    let? entry := ok_or (left !! as_name h) never_computed in
    let? value := head_value def (bool_decide (as_name h ∈ grouped)) entry in
    let? out := write_heads def grouped (delete (as_name h) left) rest in
    Ok ((as_name h, value) :: out)
  end.

Definition run_read_model (st : St) (def : ReadModelDef) (args : Json) : res Json :=
  let? reference_id := match reference_name def with
    | Some name => let? id := ok_or (get args name ≫= as_str) (missing_reference def name) in Ok (Some id)
    | None => Ok None
    end in
  let? _ := match rm_authorization def with
    | Some auth => match get args (tenant_field auth) with None => Err (tenant_refusal auth) | Some _ => Ok tt end
    | None => Ok tt
    end in
  let root_heads := List.filter is_root (heads def) in
  let other_heads := List.filter (λ h, negb (is_root h)) (heads def) in
  let? r := try_fold (read_head st def args reference_id)
              {| projected := []; rows_by_as := ∅; grouped_heads := ∅ |} (root_heads ++ other_heads) in
  let? out := write_heads def (grouped_heads r) (rows_by_as r) (heads def) in
  Ok (JObject out).
End reading.
