(* ===== verification/ReadModelFacts.v ===== *)
(** What a read model guarantees ([src/rust/src/kernel/read_model.rs]): an empty
    reduction answers what folding nothing would, an extreme is one, grouping
    keeps every row, and a report names its heads in declared order without
    ever breaking. *)
From stdpp Require Import gmap.
From S2P Require Import QueryFacts.
From S2P Require Export ReadModel.

(** ** Reductions *)
(** What each reduction computes, whether or not a value is held. *)
Definition reduce_plain (rows : Rows) (r : Reduction) : Json :=
  match r with
  | Count => JNum (f64_of_Z (Z.of_nat (length rows))) None
  | Median f => median rows f
  | Sum f => sum rows f
  | Avg f => avg rows f
  | Min f => extreme rows f false
  | Max f => extreme rows f true
  | Percentile f at_ => percentile rows f at_
  | AnyOf f => boolean_reduce rows f false
  | AllOf f => boolean_reduce rows f true
  end.

Lemma no_value_held rows field : holds_no_value rows field = true → held_values rows field = [].
Proof.
  unfold holds_no_value, held_values. induction (field_values rows field) as [|v l IH]; [done|]. simpl.
  rewrite andb_true_iff. intros [-> Hl]. by apply IH.
Qed.
Lemma no_value_bools rows field : holds_no_value rows field = true → omap as_bool (field_values rows field) = [].
Proof.
  unfold holds_no_value. induction (field_values rows field) as [|v l IH]; [done|]. simpl.
  rewrite andb_true_iff. intros [Hv Hl]. destruct v; try done. by apply IH.
Qed.

(** A reducer's declared identity is what it computes over nothing.  The
    answer a reduction gives without looking at the rows, where none holds a
    value for its field, is the answer the reduction itself comes to, for every
    reducer: nothing is answered that the rows do not say. *)
Theorem reduce_is_plain (rows : Rows) (r : Reduction) : reduce rows r = reduce_plain rows r.
Proof.
  unfold reduce. destruct (reduced_field r) as [f|] eqn:Ef; [|by destruct r].
  destruct (holds_no_value rows f) eqn:Eh; [|by destruct r].
  pose proof (no_value_held _ _ Eh) as H0. pose proof (no_value_bools _ _ Eh) as H1.
  destruct r; simplify_eq/=; cbn [reduce_plain reducer]; unfold median, percentile, sum, avg, extreme, boolean_reduce;
    rewrite ?H0, ?H1; vm_compute; reflexivity.
Qed.

(** A number that is one. *)
Definition proper_number (v : Json) : Prop := ∃ x, as_f64 v = Some x ∧ is_nan x = false.

Lemma number_order_kind a b : number_order b a = CompOpp (number_order a b).
Proof. apply f64_cmp_antisym. Qed.

(** Whole numbers, or any that are not NaN, are put in one order. *)
Lemma sort_numbers (l : list Json) :
  Forall proper_number l →
  StronglySorted (λ a b, f64_leb (number_of a) (number_of b) = true) (sort_by number_order l).
Proof.
  intros Hl. assert (Forall proper_number (sort_by number_order l)) as Hl' by (by rewrite sort_by_perm).
  assert (StronglySorted (λ _ _ : Json, True) l) as Ht.
  { clear. induction l; constructor; [done|]. by apply list.Forall_forall. }
  apply (sort_by_stable number_order (λ _ _, True) proper_number number_order_kind) in Ht; [|clear|done].
  - revert Ht. apply StronglySorted_weaken. intros a b Ha Hb Hab. rewrite list.Forall_forall in Hl'.
    destruct (Hl' a Ha) as (x&Hx&Nx), (Hl' b Hb) as (y&Hy&Ny).
    apply lex_le in Hab. unfold cmp_le, number_order in Hab.
    assert (number_of a = x) as Ea by (by destruct a; simplify_eq/=).
    assert (number_of b = y) as Eb by (by destruct b; simplify_eq/=).
    rewrite Ea, Eb in *. rewrite f64_cmp_rank in Hab by done.
    unfold f64_leb, SFleb. pose proof (f64_cmp_rank x y Nx Ny) as Ec. unfold f64_cmp in Ec. rewrite Ec.
    simpl in Hab. by destruct (compare3 (rank x) (rank y)).
  - intros a b c (x&Hx&Nx) (y&Hy&Ny) (z&Hz&Nz). unfold cmp_le, number_order.
    assert (number_of a = x) as -> by (by destruct a; simplify_eq/=).
    assert (number_of b = y) as -> by (by destruct b; simplify_eq/=).
    assert (number_of c = z) as -> by (by destruct c; simplify_eq/=).
    rewrite !f64_cmp_rank by done. apply compare3_trans.
Qed.

Lemma sorted_ends {A} (R : A → A → Prop) (d : A) (l : list A) :
  StronglySorted R l → (∀ x, x ∈ l → R x x) → l ≠ [] →
  default d (head l) ∈ l ∧ default d (list.last l) ∈ l ∧
  ∀ v, v ∈ l → R (default d (head l)) v ∧ R v (default d (list.last l)).
Proof.
  intros Hs Hr Hl. destruct l as [|x l]; [done|]. cbn [head default]. clear Hl.
  assert (∀ v, v ∈ x :: l → R x v) as Hx.
  { intros v [->|Hv]%elem_of_cons; [apply Hr; left|].
    apply StronglySorted_inv in Hs as [_ Hs]. by apply (proj1 (list.Forall_forall _ _) Hs). }
  split; [left|]. induction l as [|y l IH] using rev_ind; [|clear IH].
  { split; [left|]. intros v [->|[]%elem_of_nil]%elem_of_cons. split; apply Hr; left. }
  rewrite app_comm_cons, list.last_snoc. cbn [default from_option id].
  split; [apply elem_of_app; right; left|]. intros v Hv. split; [by apply Hx|].
  rewrite app_comm_cons in Hs. apply StronglySorted_app in Hs as (_&_&Hs).
  apply elem_of_app in Hv as [Hv| ->%list_elem_of_singleton]; [|apply Hr; rewrite app_comm_cons; apply elem_of_app; right; left].
  rewrite list.Forall_forall in Hs. specialize (Hs v Hv). by apply Forall_cons_iff in Hs as [? _].
Qed.

(** The smallest and the largest value are held and bound the others: where
    the held values are numbers, [min] and [max] answer one of them, at most and
    at least every other. *)
Theorem extremes_bound (rows : Rows) (field : str) :
  held_values rows field ≠ [] → Forall proper_number (held_values rows field) →
  let least := extreme rows field false in
  let greatest := extreme rows field true in
  least ∈ held_values rows field ∧ greatest ∈ held_values rows field ∧
  ∀ v, v ∈ held_values rows field →
    f64_leb (number_of least) (number_of v) = true ∧ f64_leb (number_of v) (number_of greatest) = true.
Proof.
  intros Hne Hp. pose proof (sort_numbers _ Hp) as Hs. unfold extreme.
  pose proof (sort_by_perm number_order (held_values rows field)) as Hperm.
  assert (∀ v, v ∈ held_values rows field → f64_leb (number_of v) (number_of v) = true) as Hrefl.
  { intros v Hv. destruct (proj1 (list.Forall_forall _ _) Hp v Hv) as (x&Hx&Nx).
    assert (number_of v = x) as -> by (by destruct v; simplify_eq/=).
    unfold f64_leb, SFleb. pose proof (f64_cmp_rank x x Nx Nx) as Ec. unfold f64_cmp in Ec. rewrite Ec.
    pose proof (compare3_antisym (rank x) (rank x)). by destruct (compare3 (rank x) (rank x)). }
  destruct (sorted_ends _ JNull _ Hs) as (H1&H2&H3).
  - intros v Hv. apply Hrefl. by rewrite <-Hperm.
  - intros E. rewrite E in Hperm. by apply Permutation_nil in Hperm.
  - assert (∀ v, v ∈ sort_by number_order (held_values rows field) → v ∈ held_values rows field) as Hin
      by (intros v; by rewrite Hperm).
    split_and!; [by apply Hin..|]. intros v Hv. apply H3. by rewrite Hperm.
Qed.

(** ** Grouping *)
(** A row without the fields it is grouped by. *)
Definition stripped (fields : list str) (row : Json) : Json := fold_left (λ row f, (split_key f row).2) fields row.

Lemma add_to_group_rows groups key row :
  concat (add_to_group groups key row).*2 ≡ₚ row :: concat groups.*2.
Proof.
  induction groups as [|[k group] rest IH]; [done|]. cbn [add_to_group]. destruct (json_eqb k key); simpl.
  - rewrite <-app_assoc. apply Permutation_sym, Permutation_middle.
  - rewrite IH. apply Permutation_sym, Permutation_middle.
Qed.
Lemma group_rows_perm field rows : concat (group_rows field rows).*2 ≡ₚ map (λ row, (split_key field row).2) rows.
Proof.
  unfold group_rows.
  assert (∀ groups, concat (fold_left (λ groups row, let (key, s) := split_key field row in add_to_group groups key s)
      rows groups).*2 ≡ₚ map (λ row, (split_key field row).2) rows ++ concat groups.*2) as H.
  { induction rows as [|row rows IH]; intros groups; [done|]. cbn [fold_left map].
    destruct (split_key field row) as [key s] eqn:E. rewrite IH, add_to_group_rows. simpl.
    apply Permutation_sym, Permutation_middle. }
  rewrite H. simpl. by rewrite app_nil_r.
Qed.
Lemma add_to_group_nonempty groups key row :
  Forall (λ g, g.2 ≠ []) groups → Forall (λ g, g.2 ≠ []) (add_to_group groups key row).
Proof.
  induction 1 as [|[k group] rest Hg Hr IH]; [by repeat constructor|]. cbn [add_to_group].
  destruct (json_eqb k key); constructor; try done. simpl. by destruct group.
Qed.
Lemma group_rows_nonempty field rows : Forall (λ g, g.2 ≠ []) (group_rows field rows).
Proof.
  unfold group_rows. assert (Forall (λ g : Json * list Json, g.2 ≠ []) []) as H by constructor.
  revert H. generalize (@nil (Json * list Json)). induction rows as [|row rows IH]; intros groups Hg; [done|].
  cbn [fold_left]. destruct (split_key field row). by apply IH, add_to_group_nonempty.
Qed.

(** The values [depth] levels down. *)
Fixpoint leaves (depth : nat) (j : Json) : list Json :=
  match depth with
  | O => [j]
  | S depth' => match j with JObject out => flat_map (λ '(_, v), leaves depth' v) out | _ => [] end
  end.

Section grouping.
Context `{U : UnicodeTables}.

(** Whatever is true of each leaf and of the rows it was made of, over all the
    leaves: [made rows values] is kept by putting lists together. *)
Variable made : list Json → list Json → Prop.
Hypothesis made_nil : made [] [].
Hypothesis made_app : ∀ r1 v1 r2 v2, made r1 v1 → made r2 v2 → made (r1 ++ r2) (v1 ++ v2).
Hypothesis made_perm : ∀ r1 r2 v, r1 ≡ₚ r2 → made r1 v → made r2 v.

Lemma nest_level_made rows all_fields fields answer reached j :
  (∀ group path v, group ≠ [] →
     match answer with
     | LeafRow check => leaf group all_fields check path
     | LeafReduce r => Ok (reduce (leaf_pairs group) r)
     end = Ok v → made group [v]) →
  nest_level rows all_fields fields answer reached = Ok j →
  made (map (stripped fields) rows) (leaves (length fields) j).
Proof using made_nil made_app made_perm.
  intros Hleaf. revert rows reached j. induction fields as [|field rest IH]; intros rows reached j; [done|].
  cbn [nest_level]. destruct (collect_results _ _) as [out|] eqn:Ec; [|done]. intros [= <-].
  apply collect_results_all in Ec. cbn [leaves length].
  apply (made_perm (map (stripped rest) (concat (group_rows field rows).*2))).
  { rewrite group_rows_perm, map_map. done. }
  pose proof (group_rows_nonempty field rows) as Hne. revert Ec Hne.
  generalize (group_rows field rows). intros groups Ec Hne.
  induction Ec as [|[key group] [k v] groups out Hv _ IHg]; [exact made_nil|]. cbn [fmap list_fmap concat snd flat_map].
  apply Forall_cons_iff in Hne as [Hg Hne]. rewrite map_app. apply made_app; [|by apply IHg].
  destruct rest as [|field' rest].
  - cbn [length leaves]. replace (map (stripped []) group) with group by (symmetry; apply map_id).
    destruct answer as [check|r].
    + destruct (leaf group all_fields check (reached ++ [(field, key)])) as [v'|] eqn:El; [|done].
      injection Hv as <- <-. by apply (Hleaf _ (reached ++ [(field, key)])).
    + injection Hv as <- <-. by apply (Hleaf _ (reached ++ [(field, key)])).
  - destruct (nest_level group all_fields (field' :: rest) answer _) as [v'|] eqn:El; [|done].
    injection Hv as <- <-. by apply (IH _ (reached ++ [(field, key)])).
Qed.
End grouping.

(** A checked grouping keeps every row.  Where a [group_by] refuses two rows
    on one key path, an answer holds at its leaves exactly the rows it was
    given, each once, without the fields they were grouped by. *)
Theorem checked_grouping_keeps_rows `{U : UnicodeTables} (rows : list Json) (fields : list str) (rm : str) (j : Json) :
  nest rows fields (RefuseCollision rm) = Ok j →
  leaves (length fields) j ≡ₚ map (stripped fields) rows.
Proof.
  intros Hn. apply Permutation_sym.
  apply (nest_level_made (≡ₚ) (perm_nil Json)) with (all_fields := fields) (answer := LeafRow (RefuseCollision rm))
    (reached := @nil (str * Json)).
  - intros r1 v1 r2 v2. apply Permutation_app.
  - intros r1 r2 v Hr Hv. by rewrite <-Hr.
  - intros group path v Hg. unfold leaf. destruct (Nat.ltb_spec 1 (length group)) as [|Hl]; [by intros [=]|].
    intros [= <-]. destruct group as [|x [|]]; [done|reflexivity|simpl in Hl; lia].
  - exact Hn.
Qed.

(** Counts of one or more rows each, that come to the number of rows. *)
Definition counted (rows values : list Json) : Prop :=
  ∃ counts : list nat, values = map (λ n, JNum (f64_of_Z (Z.of_nat n)) None) counts ∧
    sum_list counts = length rows ∧ Forall (λ n, (0 < n)%nat) counts.

Lemma counted_app r1 v1 r2 v2 : counted r1 v1 → counted r2 v2 → counted (r1 ++ r2) (v1 ++ v2).
Proof.
  intros (c1&->&H1&P1) (c2&->&H2&P2). exists (c1 ++ c2).
  assert (∀ a b : list nat, sum_list (a ++ b) = (sum_list a + sum_list b)%nat) as Hsum
    by (intros a b; induction a as [|x a IH]; simpl; [done|rewrite IH; lia]).
  rewrite map_app, Hsum, length_app, H1, H2. split_and!; [done..|by apply Forall_app].
Qed.
Lemma counted_leaf group : group ≠ [] → counted group [reduce (leaf_pairs group) Count].
Proof.
  intros Hg. exists [length group].
  assert (reduce (leaf_pairs group) Count = JNum (f64_of_Z (Z.of_nat (length (leaf_pairs group)))) None) as -> by done.
  assert (length (leaf_pairs group) = length group) as -> by apply length_map.
  split; [reflexivity|]. split; [cbn [sum_list]; apply Nat.add_0_r|].
  constructor; [|constructor]. destruct group; [done|apply Nat.lt_0_succ].
Qed.

(** Grouped counts add up.  Counting each group of a [group_by] counts every
    row once, at any depth of nesting: the counts at the leaves are positive and
    come to the number of rows. *)
Theorem grouped_counts_add_up `{U : UnicodeTables} (rows : list Json) (fields : list str) (j : Json) :
  nest_reduced rows fields Count = Ok j → counted rows (leaves (length fields) j).
Proof.
  intros Hn. destruct (nest_level_made counted) with (2 := counted_app) (rows := rows) (all_fields := fields)
    (fields := fields) (answer := LeafReduce Count) (reached := @nil (str * Json)) (j := j) as (counts&E&Hs&Hp).
  - by exists [].
  - intros r1 r2 v Hr (counts&E&Hs&Hp). exists counts. by rewrite <-Hr.
  - intros group path v Hg [= <-]. by apply counted_leaf.
  - exact Hn.
  - exists counts. by rewrite length_map in Hs.
Qed.

(** ** A whole report *)
(** An answer that holds [P], or a refusal that is not a fault. *)
Definition sound_result {A} (P : A → Prop) (r : res A) : Prop :=
  match r with Ok a => P a | Err e => is_fault e = false end.

Lemma sound_step {A B} (P : A → Prop) (Q : B → Prop) (r : res A) (k : A → res B) :
  sound_result P r → (∀ a, P a → sound_result Q (k a)) → sound_result Q (let? a := r in k a).
Proof. destruct r as [a|e]; simpl; auto. Qed.
Lemma sound_ok_or {A} (o : option A) (e : Refusal) :
  is_fault e = false → sound_result (λ _, True) (ok_or o e).
Proof. by destruct o. Qed.
Lemma sound_fold {A B} (P : B → Prop) (f : B → A → res B) (l : list A) (acc : B) :
  (∀ b a, P b → a ∈ l → sound_result P (f b a)) → P acc → sound_result P (try_fold f acc l).
Proof.
  revert acc. induction l as [|a l IH]; intros acc Hf Ha; [done|]. cbn [try_fold].
  apply (sound_step P); [apply Hf; [done|left]|]. intros b Hb. apply IH; [|done].
  intros b' a' Hb' Ha'. apply Hf; [done|by right].
Qed.
Section report.
Context `{U : UnicodeTables} {St : Type} `{SS : AggregateScan St}.
Variable st : St.
Variable args : Json.

Lemma sound_narrow steps ids : sound_result (λ _, True) (narrow st steps ids).
Proof.
  revert ids. induction steps as [|[via source] steps IH]; intros ids; [done|]. cbn [narrow].
  apply (sound_step (λ _, True)); [by apply sound_ok_or|]. intros a _. apply IH.
Qed.
Lemma sound_hops rows hops : sound_result (λ _, True) (apply_reference_hops rows hops args st).
Proof.
  apply sound_fold; [|done]. intros b hop _ _. unfold apply_hop.
  apply (sound_step (λ _, True)); [by apply sound_ok_or|]. intros a _.
  apply (sound_step (λ _, True)); [apply sound_narrow|done].
Qed.

Variable def : ReadModelDef.
Hypothesis grouping_sound : ∀ f rows e, group_by def = Some f → f rows = Err e → is_fault e = false.

(** What is read so far: every head done has its rows, and only a grouped report
    has grouped heads. *)
Definition read_so_far (names : list str) (r : Reading) : Prop :=
  (∀ n, n ∈ names → is_Some (rows_by_as r !! n)) ∧ (group_by def = None → grouped_heads r = ∅).

Lemma sound_read_head reference_id names r h :
  read_so_far names r → sound_result (read_so_far (names ++ [as_name h])) (read_head st def args reference_id r h).
Proof using Type.
  intros [Hr Hg]. unfold read_head. apply (sound_step (λ _, True)).
  { unfold head_rows. destruct reference_id as [id|]; [|done]. destruct (is_root h); [|done].
    apply (sound_step (λ _, True)); [|done]. unfold fetch_root.
    apply (sound_step (λ _, True)); [by apply sound_ok_or|].
    intros a _. by apply sound_ok_or. }
  intros rows _. apply (sound_step (λ _, True)).
  { destruct (List.find _ _) as [f|]; [|done]. unfold apply_filtered_head_options.
    apply (sound_step (λ _, True)); [apply sound_hops|done]. }
  intros rows' _. split; simpl.
  - intros n [Hn| ->%list_elem_of_singleton]%elem_of_app; [|by rewrite lookup_insert_eq].
    destruct (decide (as_name h = n)) as [->|Hne]; [by rewrite lookup_insert_eq|].
    rewrite lookup_insert_ne by done. by apply Hr.
  - intros E. rewrite E. by apply Hg.
Qed.

Lemma sound_read_heads reference_id hs names r :
  read_so_far names r →
  sound_result (read_so_far (names ++ (as_name <$> hs))) (try_fold (read_head st def args reference_id) r hs).
Proof using Type.
  revert names r. induction hs as [|h hs IH]; intros names r Hr; [by rewrite app_nil_r|]. cbn [try_fold fmap list_fmap].
  apply (sound_step (read_so_far (names ++ [as_name h]))); [by apply sound_read_head|].
  intros r' Hr'. specialize (IH (names ++ [as_name h]) r' Hr'). by rewrite <-app_assoc in IH.
Qed.

Lemma sound_write_heads grouped left hs :
  (group_by def = None → grouped = ∅) → NoDup (as_name <$> hs) →
  (∀ n, n ∈ as_name <$> hs → is_Some (left !! n)) →
  sound_result (λ out, out.*1 = as_name <$> hs) (write_heads def grouped left hs).
Proof using grouping_sound.
  intros Hg. revert left. induction hs as [|h hs IH]; intros left Hnd Hl; [done|]. cbn [write_heads].
  cbn [fmap list_fmap] in *. apply list.NoDup_cons in Hnd as [Hh Hnd].
  destruct (Hl (as_name h)) as [entry ->]; [left|]. cbn [ok_or].
  apply (sound_step (λ _, True)).
  { unfold head_value. destruct entry as [many rows]. destruct (bool_decide _) eqn:Eg.
    - apply bool_decide_eq_true in Eg. destruct (group_by def) as [f|] eqn:Ef.
      + destruct (f rows) as [j|e] eqn:Er; [done|]. by apply (grouping_sound f rows).
      + rewrite Hg in Eg by done. by apply not_elem_of_empty in Eg.
    - destruct (reduction def); [by destruct many|]. by destruct many. }
  intros v _. apply (sound_step (λ out, out.*1 = as_name <$> hs)).
  - apply IH; [done|]. intros n Hn. rewrite lookup_delete_ne by (by intros <-). apply Hl. by right.
  - intros out Ho. simpl. f_equal. exact Ho.
Qed.

(** A report answers its heads in declared order and never breaks.  Where its
    heads have names of their own and its group function raises no fault, a
    report answers an object whose keys are those names in the order declared,
    though the heads were read root first; or it refuses, and no refusal is a
    fault of the kernel's. *)
Theorem report_names_its_heads :
  NoDup (as_name <$> heads def) →
  match run_read_model st def args with
  | Ok j => ∃ out, j = JObject out ∧ out.*1 = as_name <$> heads def
  | Err e => is_fault e = false
  end.
Proof using grouping_sound.
  intros Hnd. change (sound_result (λ j, ∃ out, j = JObject out ∧ out.*1 = as_name <$> heads def)
    (run_read_model st def args)). unfold run_read_model.
  apply (sound_step (λ _, True)).
  { destruct (reference_name def) as [name|]; [|done].
    by apply (sound_step (λ _, True)); [apply sound_ok_or|]. }
  intros reference_id _. apply (sound_step (λ _, True)).
  { destruct (rm_authorization def) as [auth|]; [|done]. by destruct (get args _). }
  intros _ _. set (hs := List.filter is_root (heads def) ++ _).
  assert (as_name <$> hs ≡ₚ as_name <$> heads def) as Hp.
  { apply fmap_Permutation. subst hs. clear. induction (heads def) as [|h l IH]; [done|]. simpl.
    destruct (is_root h); simpl; [by rewrite IH|]. by rewrite <-Permutation_middle, IH. }
  apply (sound_step (read_so_far (as_name <$> hs))).
  { apply (sound_read_heads _ _ []). split; [by intros n Hn%elem_of_nil|done]. }
  intros r [Hr Hg]. apply (sound_step (λ out, out.*1 = as_name <$> heads def)).
  - apply sound_write_heads; [done..|]. intros n Hn. apply Hr. by rewrite Hp.
  - intros out Ho. by exists out.
Qed.
End report.

(** ** Reports for the witnesses *)
Definition shelf_row (bin id : str) (units : Z) : Json :=
  JObject [("bin", JStr bin); ("id", JStr id); ("units", json_int units)].
Definition shelf : Rows :=
  [("p1" : str, shelf_row "b1" "p1" 4); ("p2" : str, shelf_row "b2" "p2" 7); ("p3" : str, shelf_row "b1" "p3" 6)].

Lemma shelf_numbers : Forall proper_number (held_values shelf "units").
Proof. repeat constructor; eexists; split; reflexivity. Qed.
Lemma extremes_bound_witness :
  extreme shelf "units" false = json_int 4 ∧ extreme shelf "units" true = json_int 7 ∧
  f64_leb (number_of (json_int 4)) (number_of (json_int 6)) = true.
Proof.
  destruct (extremes_bound shelf "units") as (_&_&H); [by vm_compute|exact shelf_numbers|].
  split; [by vm_compute|]. split; [by vm_compute|].
  apply (proj1 (H (json_int 6) ltac:(apply list_elem_of_In; vm_compute; auto))).
Defined.

Lemma checked_grouping_keeps_rows_witness :
  ∃ j, @nest ascii_tables [shelf_row "b1" "p1" 4; shelf_row "b2" "p2" 7] ["bin"] (RefuseCollision "PartsByBin") = Ok j ∧
       leaves 1 j ≡ₚ [JObject [("id", JStr "p1"); ("units", json_int 4)]; JObject [("id", JStr "p2"); ("units", json_int 7)]].
Proof.
  eexists. split; [vm_compute; reflexivity|].
  refine (@checked_grouping_keeps_rows ascii_tables [shelf_row "b1" "p1" 4; shelf_row "b2" "p2" 7] ["bin"]
    "PartsByBin" _ _). vm_compute. reflexivity.
Defined.

Lemma grouped_counts_add_up_witness :
  ∃ j, @nest_reduced ascii_tables shelf.*2 ["bin"] Count = Ok j ∧ counted shelf.*2 (leaves 1 j) ∧
       leaves 1 j = [JNum (f64_of_Z 2) None; JNum (f64_of_Z 1) None].
Proof.
  eexists. split; [vm_compute; reflexivity|]. split; [|vm_compute; reflexivity].
  refine (@grouped_counts_add_up ascii_tables shelf.*2 ["bin"] _ _). vm_compute. reflexivity.
Defined.

(** An order with its customer as root, declared after the orders it joins. *)
Definition customers : list (str * Rows) :=
  [("Shop::Customer" : str, [("c1" : str, JObject [("name", JStr "Ada")])]);
   ("Shop::Order" : str, [("o2" : str, JObject [("customer", JStr "c1")]); ("o3" : str, JObject [("customer", JStr "c2")]);
                          ("o1" : str, JObject [("customer", JStr "c1")])])].
Definition customer_orders : ReadModelDef := {|
  rm_verb := "Shop.CustomerOrders"; reference_name := Some ("customer" : str);
  heads := [
    {| head_aggregate := "Shop::Order"; as_name := "orders"; many := true; is_root := false;
       reference_fields := [{| reference_target := "Shop::Customer"; reference_field := "customer" |}] |};
    {| head_aggregate := "Shop::Customer"; as_name := "customer"; many := false; is_root := true;
       reference_fields := [] |}];
  filtered_heads := []; rm_authorization := None; group_by := None; reduction := Some Count |}.

Lemma report_names_its_heads_witness :
  ∃ out, @run_read_model ascii_tables _ tables_scan customers customer_orders (JObject [("customer", JStr "c1")]) =
         Ok (JObject out) ∧ out.*1 = ["orders"; "customer"] ∧ assoc "orders" out = Some (JNum (f64_of_Z 2) None).
Proof.
  pose proof (@report_names_its_heads ascii_tables _ tables_scan customers (JObject [("customer", JStr "c1")])
    customer_orders) as H. cbn [group_by customer_orders] in H. specialize (H ltac:(done)).
  assert (NoDup (as_name <$> heads customer_orders)) as Hnd by (refine (bool_decide_unpack _ _); vm_compute; exact I).
  specialize (H Hnd).
  destruct (run_read_model customers customer_orders (JObject [("customer", JStr "c1")])) as [j|e] eqn:E.
  - destruct H as (out&->&Hk). exists out. split; [reflexivity|]. split; [exact Hk|].
    vm_compute in E. injection E as <-. vm_compute. reflexivity.
  - vm_compute in E. discriminate E.
Defined.
