(* ===== verification/ReferenceLookup.v ===== *)
(** Cross-aggregate references ([src/rust/src/kernel/reference_lookup.rs]): the
    records a given or an ensure reaches through the references an aggregate or
    a command declares, and the projected fields seeded from them.  The store a
    lookup reads is the class [ReferenceLookup], as it is a trait in the source. *)
From S2P Require Export Expr.

(** ** Specs and the table *)
Record ReferenceSpec := { spec_field : str; spec_as_name : str; spec_target : str }.
Definition ReferenceTable : Type := list (str * list ReferenceSpec).
Definition DEREFERENCE_DEPTH : nat := 4.
Class ReferenceLookup := find_fielded : str → str → option Fielded.

Definition specs_for (table : ReferenceTable) (target : str) : list ReferenceSpec :=
  match List.find (λ '(name, _), str_eqb name target) table with
  | Some (_, specs) => specs
  | None => []
  end.

(** ** [DerefNode] *)
Inductive DerefNode := MkDerefNode (id : str) (base : Fielded) (nested : list (str * DerefNode)).
Definition node_id (n : DerefNode) : str := let 'MkDerefNode id _ _ := n in id.
Definition node_base (n : DerefNode) : Fielded := let 'MkDerefNode _ base _ := n in base.
Definition node_nested (n : DerefNode) : list (str * DerefNode) := let 'MkDerefNode _ _ nested := n in nested.

(** A node as lookups see it: its references first, then the record's fields. *)
Fixpoint deref_view (node : DerefNode) : Fielded :=
  let 'MkDerefNode id base nested := node in
  MkFielded
    (λ name,
      (fix named (nodes : list (str * DerefNode)) : option Field :=
        match nodes with
        | [] => field base name
        | (n, inner) :: rest => if str_eqb n name then Some (FNested (deref_view inner)) else named rest
        end) nested)
    (Some (VStr id)) None (items base).

Section lookups.
Context `{L : ReferenceLookup} (table : ReferenceTable).

(** The record a spec's stored identifier names; absent, empty and dangling
    identifiers name none. *)
Definition referred (spec : ReferenceSpec) (source : Fielded) : option (str * Fielded) :=
  match field source (spec_field spec) with
  | Some (FValue (VStr [])) => None
  | Some (FValue (VStr id)) =>
    match find_fielded (spec_target spec) id with Some base => Some (id, base) | None => None end
  | _ => None
  end.
Fixpoint deref_layer (depth : nat) (specs : list ReferenceSpec) (source : Fielded) : list (str * DerefNode) :=
  match depth with
  | O => []
  | S depth =>
    omap (λ spec,
      match referred spec source with
      | Some (id, base) =>
        Some (spec_as_name spec, MkDerefNode id base (deref_layer depth (specs_for table (spec_target spec)) base))
      | None => None
      end) specs
  end.

Definition owner_deref (target id : str) : list (str * DerefNode) :=
  match find_fielded target id with
  | None => []
  | Some base => deref_layer DEREFERENCE_DEPTH (specs_for table target) base
  end.
Definition parent_deref (target id : str) : option DerefNode :=
  match find_fielded target id with
  | None => None
  | Some base => Some (MkDerefNode id base (deref_layer DEREFERENCE_DEPTH (specs_for table target) base))
  end.
Definition command_deref (specs : list ReferenceSpec) (args : Fielded) : list (str * DerefNode) :=
  deref_layer DEREFERENCE_DEPTH specs args.
End lookups.

Definition named_node (nodes : list (str * DerefNode)) (name : str) : option DerefNode :=
  match List.find (λ '(n, _), str_eqb n name) nodes with Some (_, node) => Some node | None => None end.
(** What a clause reads: the command's references, its arguments, the owner's
    references. *)
Definition WithReferences (commands : list (str * DerefNode)) (args : Fielded) (owners : list (str * DerefNode))
  : Fielded :=
  MkFielded
    (λ name,
      match named_node commands name with
      | Some node => Some (FNested (deref_view node))
      | None =>
        match field args name with
        | Some f => Some f
        | None =>
          match named_node owners name with
          | Some node => Some (FNested (deref_view node))
          | None => None
          end
        end
      end)
    None None (items args).

(** ** Projected fields *)
Record ProjectedFieldSpec := { proj_field : str; proj_reference : str; proj_remote_field : str }.
Definition projectable (value : Value) : option Value :=
  match value with VStr _ | VInt _ | VFloat _ | VBool _ => Some value | _ => None end.
Definition projected_value (with_references : Fielded) (spec : ProjectedFieldSpec) : option Value :=
  match field with_references (proj_reference spec) with
  | Some (FNested node) =>
    match field node (proj_remote_field spec) with
    | Some (FValue v) => projectable v
    | Some (FNested inner) => as_scalar inner ≫= projectable
    | None => None
    end
  | _ => None
  end.
Definition seeded_projections (with_references : Fielded) (specs : list ProjectedFieldSpec)
  : list (str * option Value) :=
  map (λ spec, (proj_field spec, projected_value with_references spec)) specs.

(** ** A node's fields *)
Lemma view_field node name :
  field (deref_view node) name =
  match named_node (node_nested node) name with
  | Some inner => Some (FNested (deref_view inner))
  | None => field (node_base node) name
  end.
Proof.
  destruct node as [id base nested]. cbn [deref_view field node_nested node_base].
  unfold named_node. induction nested as [|[n inner] nested IH]; cbn [List.find]; [done|].
  destruct (str_eqb n name); [done|apply IH].
Qed.
Lemma view_scalar node : as_scalar (deref_view node) = Some (VStr (node_id node)).
Proof. by destruct node. Qed.
Lemma view_items node name : items (deref_view node) name = items (node_base node) name.
Proof. by destruct node. Qed.

(** ** The store, chased by hand *)
Section chasing.
Context `{L : ReferenceLookup} (table : ReferenceTable).

(** The first declared reference of that name that leads anywhere: the
    aggregate it is of, its identifier and the stored record. *)
Fixpoint hop (specs : list ReferenceSpec) (source : Fielded) (name : str) : option (str * str * Fielded) :=
  match specs with
  | [] => None
  | spec :: specs =>
    if str_eqb (spec_as_name spec) name then
      match referred spec source with
      | Some (id, base) => Some (spec_target spec, id, base)
      | None => hop specs source name
      end
    else hop specs source name
  end.
(** One record after the other, each looked up in the store. *)
Fixpoint chase (specs : list ReferenceSpec) (source : Fielded) (names : list str) {struct names} : option (str * str * Fielded) :=
  match names with
  | [] => None
  | name :: rest =>
    match hop specs source name with
    | None => None
    | Some (target, id, base) =>
      match rest with [] => Some (target, id, base) | _ => chase (specs_for table target) base rest end
    end
  end.

(** Reading a dotted path of nested objects. *)
Fixpoint read_path (o : Fielded) (names : list str) {struct names} : option Fielded :=
  match names with
  | [] => Some o
  | name :: rest => match field o name with Some (FNested inner) => read_path inner rest | _ => None end
  end.

Lemma layer_named depth specs source name :
  named_node (deref_layer table (S depth) specs source) name =
  match hop specs source name with
  | Some (target, id, base) => Some (MkDerefNode id base (deref_layer table depth (specs_for table target) base))
  | None => None
  end.
Proof.
  unfold named_node. cbn [deref_layer]. induction specs as [|spec specs IH]; [done|].
  cbn [omap list_omap hop]. destruct (referred spec source) as [[id base]|]; cbn [List.find];
    destruct (str_eqb (spec_as_name spec) name); done || apply IH.
Qed.

(** What a node reached after [length names] references holds. *)
Definition reached (depth : nat) (target id : str) (base : Fielded) (node : DerefNode) : Prop :=
  node_id node = id ∧ node_base node = base ∧ node_nested node = deref_layer table depth (specs_for table target) base.

Lemma read_layer names : ∀ depth specs source target id base,
  (length names <= depth)%nat → chase specs source names = Some (target, id, base) →
  match names with
  | [] => False
  | name :: rest => ∃ first node, named_node (deref_layer table depth specs source) name = Some first ∧
      read_path (deref_view first) rest = Some (deref_view node) ∧ reached (depth - length names) target id base node
  end.
Proof.
  induction names as [|name rest IH]; intros depth specs source target id base Hd; [done|].
  destruct depth as [|depth]; [simpl in Hd; lia|]. cbn [chase]. rewrite layer_named.
  destruct (hop specs source name) as [[[t i] b]|]; [|done].
  destruct rest as [|next rest].
  - intros [= <- <- <-]. do 2 eexists. split; [reflexivity|]. split; [reflexivity|].
    replace (S depth - length [name])%nat with depth by (simpl; lia). by repeat split.
  - intros Hc. destruct (IH depth _ _ _ _ _ ltac:(cbn [length] in *; lia) Hc) as (first&node&Hf&Hr&Hn).
    eexists _, node. split; [done|]. split; [|done]. cbn [read_path]. rewrite view_field. cbn [node_nested]. by rewrite Hf.
Qed.

(** Past the last layer a node is the bare record. *)
Lemma reached_field depth target id base node name : reached depth target id base node →
  field (deref_view node) name =
  match depth, hop (specs_for table target) base name with
  | S depth, Some (t, i, b) =>
    Some (FNested (deref_view (MkDerefNode i b (deref_layer table depth (specs_for table t) b))))
  | _, _ => field base name
  end.
Proof.
  intros (_&Hb&Hn). rewrite view_field, Hn, Hb. destruct depth; [done|]. rewrite layer_named.
  by destruct (hop _ _ _) as [[[t i] b]|].
Qed.

(** A clause reads through references what the store holds.  A path of at
    most four references from the command's arguments, or from its record where
    neither the command's references nor its arguments have the first name, ends
    in the very record chasing the identifiers through the store ends in: it
    compares as that record's identifier, lists that record's elements, and
    reads that record's fields, except that short of the fourth reference a
    declared reference shadows the field of its name. *)
Theorem references_follow_store (specs : list ReferenceSpec) (args owner : Fielded) (aggregate self : str)
  (name : str) (rest : list str) (target id : str) (base : Fielded) :
  find_fielded aggregate self = Some owner → (length (name :: rest) <= DEREFERENCE_DEPTH)%nat →
  chase specs args (name :: rest) = Some (target, id, base) ∨
  hop specs args name = None ∧ field args name = None ∧
    chase (specs_for table aggregate) owner (name :: rest) = Some (target, id, base) →
  ∃ o, read_path (WithReferences (command_deref table specs args) args (owner_deref table aggregate self)) (name :: rest) = Some o ∧
    as_scalar o = Some (VStr id) ∧ (∀ n, items o n = items base n) ∧
    ∀ n, (length (name :: rest) = DEREFERENCE_DEPTH ∨ hop (specs_for table target) base n = None) → field o n = field base n.
Proof.
  intros Ho Hd Hc.
  assert (∃ first node, field (WithReferences (command_deref table specs args) args (owner_deref table aggregate self)) name
      = Some (FNested (deref_view first)) ∧ read_path (deref_view first) rest = Some (deref_view node) ∧
      reached (DEREFERENCE_DEPTH - length (name :: rest)) target id base node) as (first&node&Hf&Hr&Hn).
  { cbn [field WithReferences]. unfold command_deref, owner_deref. rewrite Ho. unfold DEREFERENCE_DEPTH in *.
    destruct Hc as [Hc|(Hno&Harg&Hc)]; destruct (read_layer (name :: rest) DEREFERENCE_DEPTH _ _ _ _ _ Hd Hc)
      as (first&node&Hf&Hr&Hn); unfold DEREFERENCE_DEPTH in *; exists first, node; split; try done; [by rewrite Hf|].
    rewrite (layer_named _ specs), Hno, Harg. by rewrite Hf. }
  exists (deref_view node). cbn [read_path]. rewrite Hf. split; [done|].
  pose proof (λ n, reached_field _ _ _ _ _ n Hn) as Hfield. destruct Hn as (Hid&Hb&_).
  rewrite view_scalar, Hid. split; [done|]. split; [intros n; by rewrite view_items, Hb|].
  intros n Hn. rewrite Hfield. destruct Hn as [->|Hn]; [by rewrite Nat.sub_diag|]. rewrite Hn.
  by destruct (DEREFERENCE_DEPTH - length (name :: rest))%nat.
Qed.

(** A projected field is the stored record's scalar.  Seeding answers every
    declared projection in order; where the reference leads to a record of the
    store, the value is that record's own scalar field, the one scalar of its
    value object, or the identifier of the record it refers to in turn, and
    nothing where the field is none of these. *)
Theorem projections_read_store (specs : list ReferenceSpec) (args : Fielded) (owners : list (str * DerefNode))
  (spec : ProjectedFieldSpec) (target id : str) (base : Fielded) :
  hop specs args (proj_reference spec) = Some (target, id, base) →
  seeded_projections (WithReferences (command_deref table specs args) args owners) [spec] =
  [(proj_field spec,
    match hop (specs_for table target) base (proj_remote_field spec) with
    | Some (_, remote, _) => Some (VStr remote)
    | None =>
      match field base (proj_remote_field spec) with
      | Some (FValue v) => projectable v
      | Some (FNested inner) => as_scalar inner ≫= projectable
      | None => None
      end
    end)].
Proof.
  intros Hh. unfold seeded_projections, projected_value. cbn [map field WithReferences]. unfold command_deref, DEREFERENCE_DEPTH.
  rewrite layer_named, Hh. rewrite view_field. cbn [node_nested node_base]. rewrite layer_named.
  destruct (hop (specs_for table target) base _) as [[[t i] b]|]; [by rewrite view_scalar|done].
Qed.
End chasing.

(** ** Instances *)
Section witnesses.
(** Two cities that are each other's twin, and a booking in one of them. *)
Let city (name twin : str) : Fielded :=
  MkFielded (λ n, if str_eqb n "name" then Some (FValue (VStr name))
                  else if str_eqb n "twin_id" then Some (FValue (VStr twin)) else None) None None (λ _, None).
Let cities : ReferenceLookup := λ target id,
  if str_eqb target "City" then
    if str_eqb id "c1" then Some (city "Lyon" "c2") else if str_eqb id "c2" then Some (city "Turin" "c1") else None
  else None.
Let twins : ReferenceTable := [("City", [{| spec_field := "twin_id"; spec_as_name := "twin"; spec_target := "City" |}])].
Let booking : Fielded :=
  MkFielded (λ n, if str_eqb n "city" then Some (FValue (VStr "c1")) else None) None None (λ _, None).
Let in_city : list ReferenceSpec := [{| spec_field := "city"; spec_as_name := "city"; spec_target := "City" |}].

Lemma references_follow_store_witness :
  ∃ o, read_path (WithReferences (command_deref (L := cities) twins in_city booking) booking
                   (owner_deref (L := cities) twins "City" "c2")) ["city"; "twin"; "twin"; "twin"] = Some o ∧
    as_scalar o = Some (VStr "c2").
Proof.
  destruct (references_follow_store (L := cities) twins in_city booking (city "Turin" "c1") "City" "c2"
    "city" ["twin"; "twin"; "twin"] "City" "c2" (city "Turin" "c1")) as (o&Ho&Hs&_).
  - reflexivity.
  - unfold DEREFERENCE_DEPTH; simpl; lia.
  - left. reflexivity.
  - exists o. split; [exact Ho|exact Hs].
Defined.
Lemma projections_read_store_witness :
  seeded_projections (WithReferences (command_deref (L := cities) twins in_city booking) booking [])
    [{| proj_field := "place"; proj_reference := "city"; proj_remote_field := "name" |}] =
  [("place" : str, Some (VStr "Lyon"))].
Proof.
  rewrite (projections_read_store (L := cities) twins in_city booking []
    {| proj_field := "place"; proj_reference := "city"; proj_remote_field := "name" |} "City" "c1" (city "Lyon" "c2") eq_refl).
  reflexivity.
Defined.
End witnesses.
