(* ===== verification/Present.v ===== *)
(** Bare answers ([src/rust/src/kernel/present.rs], [kernel/ir_presenter.rs]): a
    run's answer in the shape a caller reads, single-field value objects as
    their sole field, by the generated router or by a domain's IR read at run
    time. *)
From S2P Require Export Json.

(** ** [present_answer] *)
Definition Presenter : Type := str → Json → Json.
Definition map_fields (f : str → Json → Json) (fields : list (str * Json)) : list (str * Json) :=
  map (λ '(key, value), (key, f key value)) fields.
Definition map_items (f : Json → Json) (j : Json) : Json :=
  match j with JArray items => JArray (map f items) | other => other end.
Definition replace_field (object : Json) (name : str) (f : Json → Json) : Json :=
  match object with
  | JObject fields => JObject (map_fields (λ key value, if str_eqb key name then f value else value) fields)
  | other => other
  end.

(** The aggregate of an instance is its key up to the first [#]. *)
Definition instance_aggregate (key : str) : str :=
  match split_once key 35 with Some (head, _) => head | None => key end.
Definition present_instances (present : Presenter) (instances : Json) : Json :=
  match instances with
  | JObject entries => JObject (map_fields (λ key state, present (instance_aggregate key) state) entries)
  | other => other
  end.
Definition present_event (present : Presenter) (event : Json) : Json :=
  match get event "aggregate" ≫= as_str with
  | Some aggregate => replace_field event "payload" (present aggregate)
  | None => event
  end.
Definition query_aggregate_name (entry : Json) : option str :=
  question ← get entry "query" ≫= as_str; fst <$> rsplit_once question 46.
Definition present_query (present : Presenter) (entry : Json) : Json :=
  match query_aggregate_name entry with
  | Some aggregate => replace_field entry "rows" (map_items (present aggregate))
  | None => entry
  end.
Definition present_answer (answer : Json) (present : Presenter) : Json :=
  match answer with
  | JObject fields => JObject (map_fields (λ key value,
      if str_eqb key "instances" then present_instances present value
      else if str_eqb key "events" then map_items (present_event present) value
      else if str_eqb key "queries" then map_items (present_query present) value
      else value) fields)
  | other => other
  end.

(** ** The presenter read from the IR *)
Record IrField := { ir_name : str; ir_type : str; ir_list : bool }.
Record Shape := { shape_name : str; shape_fields : list IrField; value_object : bool }.
Record AggregatePresenter := {
  qualified : str; shapes : list Shape; presented_names : list (str * list (str * bool))
}.
Definition IrPresenter : Type := list AggregatePresenter.

Definition type_of_attribute (attribute : Json) : str :=
  default ("String" : str) (get attribute "type" ≫= as_str).
Definition ir_field_of (attribute : Json) : option IrField :=
  name ← get attribute "name" ≫= as_str;
  Some {| ir_name := name; ir_type := type_of_attribute attribute;
          ir_list := match get attribute "list" with Some (JBool b) => b | _ => false end |}.
Definition ir_items (object : Json) (key : str) : list Json := default [] (get object key ≫= as_array).
Definition fields_in (object : Json) (key : str) : list IrField := omap ir_field_of (ir_items object key).
Definition shape_of (is_value_object : bool) (declared : Json) : option Shape :=
  name ← get declared "name" ≫= as_str;
  Some {| shape_name := name; shape_fields := fields_in declared "attributes"; value_object := is_value_object |}.
Definition projected_of (p : Json) : option IrField :=
  name ← get p "name" ≫= as_str;
  Some {| ir_name := name; ir_type := type_of_attribute p; ir_list := false |}.

Definition candidate_eqb (a b : str * bool) : bool := str_eqb a.1 b.1 && Bool.eqb a.2 b.2.
(** A name with one more declared type, in the order of declaration. *)
Fixpoint add_candidate (names : list (str * list (str * bool))) (name : str) (c : str * bool)
  : list (str * list (str * bool)) :=
  match names with
  | [] => [(name, [c])]
  | (n, cs) :: rest =>
    if str_eqb n name then (n, if existsb (candidate_eqb c) cs then cs else cs ++ [c]) :: rest
    else (n, cs) :: add_candidate rest name c
  end.
Definition ir_aggregate (domain : str) (aggregate : Json) : option AggregatePresenter :=
  name ← get aggregate "name" ≫= as_str;
  let entities := ir_items aggregate "entities" in
  let commands := ir_items aggregate "commands" ++ flat_map (λ e, ir_items e "commands") entities in
  let declared := fields_in aggregate "attributes" ++ omap projected_of (ir_items aggregate "projected_fields")
                  ++ flat_map (λ c, fields_in c "attributes") commands in
  Some {| qualified := domain ++ "::" ++ name;
          shapes := omap (shape_of true) (ir_items aggregate "value_objects") ++ omap (shape_of false) entities;
          presented_names := fold_left (λ names f, add_candidate names (ir_name f) (ir_type f, ir_list f))
                               declared [] |}.
Definition from_ir (ir : Json) : IrPresenter :=
  let domains := match ir with JArray domains => domains | one => [one] end in
  flat_map (λ domain,
    omap (ir_aggregate (default [] (get domain "name" ≫= as_str))) (ir_items domain "aggregates")) domains.

(** ** Unwrapping by declared type *)
Section unwrapping.
Variable a : AggregatePresenter.

Definition shape (type_name : str) : option Shape :=
  List.find (λ s, str_eqb (shape_name s) type_name) (shapes a).

(** The one field of a single-field value object. *)
Definition sole_field (s : Shape) : option IrField :=
  match shape_fields s with [f] => if value_object s then Some f else None | _ => None end.
(** [unwrap]; [seen] are the types being expanded. *)
Fixpoint unwrap (value : Json) (type_name : str) (is_list : bool) (seen : list str) {struct value} : Json :=
  match value with
  | JArray items => if is_list then JArray (map (λ item, unwrap item type_name false seen) items) else value
  | JObject fields =>
    if is_list then value
    else match shape type_name with
    | None => value
    | Some s =>
      if existsb (λ t, str_eqb t type_name) seen then value
      else
        let seen := type_name :: seen in
        let several := JObject (map (λ '(k, v),
          (k, match List.find (λ f, str_eqb (ir_name f) k) (shape_fields s) with
              | Some f => unwrap v (ir_type f) (ir_list f) seen
              | None => v
              end)) fields) in
        match sole_field s with
        | Some f =>
          (fix sole (l : list (str * Json)) : Json :=
            match l with
            | [] => JNull
            | (k, inner) :: rest => if str_eqb k (ir_name f) then unwrap inner (ir_type f) (ir_list f) seen else sole rest
            end) fields
        | None => several
        end
    end
  | other => other
  end.

Definition fits_one (s : Shape) (value : Json) : bool :=
  match value with
  | JObject fields => forallb (λ '(k, _), existsb (λ f, str_eqb (ir_name f) k) (shape_fields s)) fields
  | _ => false
  end.
Definition fits (value : Json) (type_name : str) (is_list : bool) : option bool :=
  s ← shape type_name;
  Some (if is_list then match value with JArray items => forallb (fits_one s) items | _ => false end
        else fits_one s value).

Definition unwrap_candidates (value : Json) (candidates : list (str * bool)) : Json :=
  match candidates with
  | [(type_name, is_list)] => unwrap value type_name is_list []
  | _ =>
    match List.find (λ '(type_name, is_list), match fits value type_name is_list with Some b => b | None => false end)
            candidates with
    | Some (type_name, is_list) => unwrap value type_name is_list []
    | None => value
    end
  end.
Definition present_state (state : Json) : Json :=
  match presented_names a, state with
  | [], _ => state
  | names, JObject fields => JObject (map_fields (λ key value,
      match List.find (λ '(n, _), str_eqb n key) names with
      | Some (_, candidates) => unwrap_candidates value candidates
      | None => value
      end) fields)
  | _, _ => state
  end.
End unwrapping.

Definition ir_present (p : IrPresenter) : Presenter := λ aggregate state,
  match List.find (λ a, str_eqb (qualified a) aggregate) p with
  | Some found => present_state found state
  | None => state
  end.

(** ** Lemmas *)
Lemma map_fields_keys f fields : (map_fields f fields).*1 = fields.*1.
Proof. unfold map_fields. induction fields as [|[k v] l IH]; [done|]. cbn. by f_equal. Qed.
Lemma map_fields_assoc f fields key : assoc key (map_fields f fields) = f key <$> assoc key fields.
Proof.
  induction fields as [|[k v] l IH]; [done|]. cbn [map_fields map assoc]. case_bool_decide; [by subst|apply IH].
Qed.
Lemma get_replace_field object name f key :
  get (replace_field object name f) key = if str_eqb key name then f <$> get object key else get object key.
Proof.
  destruct object as [fields| | | | | |]; cbn [replace_field get]; try by destruct (str_eqb key name).
  rewrite map_fields_assoc. destruct (str_eqb key name); [done|]. by destruct (assoc key fields).
Qed.

(** ** Properties *)

(** A presented answer is the answer but for what a caller reads: it has the
    same keys in the same order, and every key other than [instances],
    [events] and [queries] has the value it had. *)
Lemma presented_elsewhere_verbatim (answer : Json) (present : Presenter) (key : str) :
  key ≠ "instances" → key ≠ "events" → key ≠ "queries" →
  get (present_answer answer present) key = get answer key.
Proof.
  intros Hi He Hq. destruct answer as [fields| | | | | |]; try done. cbn [present_answer get].
  rewrite map_fields_assoc. unfold str_eqb. rewrite !bool_decide_eq_false_2 by done. by destruct (assoc key fields).
Qed.

(** ** Nothing is lost *)
Section conforming.
Variable a : AggregatePresenter.

(** A type that unwraps nothing: undeclared, or being expanded already. *)
Definition transparent (type_name : str) (seen : list str) : bool :=
  match shape a type_name with None => true | Some _ => existsb (λ t, str_eqb t type_name) seen end.

(** A stored value of its declared type: lists where lists are declared, a
    single-field value object with exactly its field, an object otherwise. *)
Fixpoint conforms (value : Json) (type_name : str) (is_list : bool) (seen : list str) {struct value} : Prop :=
  match value with
  | JArray items =>
    if is_list then (fix all l := match l with [] => True | i :: l => conforms i type_name false seen ∧ all l end) items
    else transparent type_name seen = true
  | JObject fields =>
    if is_list then False
    else match shape a type_name with
    | None => True
    | Some s =>
      if existsb (λ t, str_eqb t type_name) seen then True
      else
        let seen := type_name :: seen in
        let several := (fix all l := match l with
          | [] => True
          | (k, v) :: l =>
            match List.find (λ f, str_eqb (ir_name f) k) (shape_fields s) with
            | Some f => conforms v (ir_type f) (ir_list f) seen
            | None => True
            end ∧ all l
          end) fields in
        match sole_field s with
        | Some f =>
          match fields with [(k, inner)] => k = ir_name f ∧ conforms inner (ir_type f) (ir_list f) seen | _ => False end
        | None => several
        end
    end
  | _ => is_list = false ∧ transparent type_name seen = true
  end.

Lemma unwrap_transparent value type_name seen :
  transparent type_name seen = true → unwrap a value type_name false seen = value.
Proof.
  unfold transparent. intros H. destruct value; try done. cbn [unwrap].
  destruct (shape a type_name); [by rewrite H|done].
Qed.

(** How a non-transparent type unwraps an object. *)
Definition unwrap_several (s : Shape) (seen : list str) (fields : list (str * Json)) : list (str * Json) :=
  map (λ '(k, v), (k, match List.find (λ f, str_eqb (ir_name f) k) (shape_fields s) with
                      | Some f => unwrap a v (ir_type f) (ir_list f) seen
                      | None => v
                      end)) fields.
Definition conform_several (s : Shape) (seen : list str) (fields : list (str * Json)) : Prop :=
  Forall (λ '(k, v), match List.find (λ f, str_eqb (ir_name f) k) (shape_fields s) with
                     | Some f => conforms v (ir_type f) (ir_list f) seen
                     | None => True
                     end) fields.

Lemma conforms_object fields type_name seen s :
  shape a type_name = Some s → existsb (λ t, str_eqb t type_name) seen = false →
  conforms (JObject fields) type_name false seen →
  match sole_field s with
  | Some f => ∃ inner, fields = [(ir_name f, inner)] ∧ conforms inner (ir_type f) (ir_list f) (type_name :: seen) ∧
      unwrap a (JObject fields) type_name false seen = unwrap a inner (ir_type f) (ir_list f) (type_name :: seen)
  | None => conform_several s (type_name :: seen) fields ∧
      unwrap a (JObject fields) type_name false seen = JObject (unwrap_several s (type_name :: seen) fields)
  end.
Proof.
  intros Hs Hn. cbn [conforms unwrap]. rewrite Hs, Hn.
  assert (∀ l, (fix all l := match l with
      | [] => True
      | (k, v) :: l => match List.find (λ f, str_eqb (ir_name f) k) (shape_fields s) with
          | Some f => conforms v (ir_type f) (ir_list f) (type_name :: seen) | None => True end ∧ all l
      end) l → conform_several s (type_name :: seen) l) as Hall.
  { unfold conform_several. induction l as [|[k v] l IH]; [done|]. intros [H1 H2]. constructor; [done|by apply IH]. }
  destruct (sole_field s) as [f|]; [|intros H; split; [by apply Hall|done]].
  destruct fields as [|[k inner] [|? ?]]; [done| |done]. intros [-> Hc]. exists inner. split; [done|]. split; [done|].
  unfold str_eqb. by rewrite bool_decide_eq_true_2.
Qed.

Lemma conforms_not_object value type_name is_list seen s :
  shape a type_name = Some s → existsb (λ t, str_eqb t type_name) seen = false →
  conforms value type_name is_list seen →
  match value with JObject _ => is_list = false | JArray _ => is_list = true | _ => False end.
Proof.
  intros Hs Hn. unfold conforms, transparent. destruct value, is_list; try done; rewrite ?Hs, ?Hn; naive_solver.
Qed.

Lemma conforms_list value type_name seen : conforms value type_name true seen →
  ∃ items, value = JArray items ∧ Forall (λ i, conforms i type_name false seen) items ∧
    unwrap a value type_name true seen = JArray (map (λ i, unwrap a i type_name false seen) items).
Proof.
  destruct value as [| items | | | | |]; cbn [conforms]; intros H; try done; try (by destruct H). exists items.
  split; [done|]. split; [|done]. induction items as [|i items IH]; [done|]. destruct H. constructor; [done|by apply IH].
Qed.

Lemma map_injective_on {A B} (f : A → B) (P : A → Prop) l : ∀ l',
  Forall (λ x, ∀ y, P x → P y → f x = f y → x = y) l → Forall P l → Forall P l' → map f l = map f l' → l = l'.
Proof.
  induction l as [|x l IH]; intros [|y l'] Hi Hl Hl' [=]; [done|].
  apply Forall_cons_iff in Hi as [? ?], Hl as [? ?], Hl' as [? ?]. f_equal; eauto.
Qed.

(** Presenting loses nothing.  Two stored values of one declared type that
    are answered alike are the same value: a single-field value object is told
    from its field, a list item by item and an object field by field, however
    deep, types that contain themselves included. *)
Theorem unwrap_injective (v1 v2 : Json) (type_name : str) (is_list : bool) (seen : list str) :
  conforms v1 type_name is_list seen → conforms v2 type_name is_list seen →
  unwrap a v1 type_name is_list seen = unwrap a v2 type_name is_list seen → v1 = v2.
Proof.
  revert v2 type_name is_list seen.
  induction v1 as [fields IH|items IH|x|x raw|x|x|] using Json_rich_ind; intros v2 type_name is_list seen H1 H2 He.
  all: destruct is_list; [|destruct (transparent type_name seen) eqn:Et;
    [by rewrite !unwrap_transparent in He|unfold transparent in Et; destruct (shape a type_name) as [s|] eqn:Es; [|done]]].
  all: try (by apply conforms_list in H1 as (?&?&?)).
  all: try (by eapply conforms_not_object in H1).
  - pose proof (conforms_not_object _ _ _ _ _ Es Et H2) as Hv2. destruct v2 as [fields2| | | | | |]; try done.
    apply (conforms_object _ _ _ s) in H1, H2; try done. destruct (sole_field s) as [f|].
    + destruct H1 as (i1&->&C1&U1), H2 as (i2&->&C2&U2). rewrite U1, U2 in He.
      apply Forall_cons_iff in IH as [IH _]. do 3 f_equal. by eapply IH.
    + destruct H1 as [C1 U1], H2 as [C2 U2]. rewrite U1, U2 in He. injection He as He. f_equal.
      eapply map_injective_on; [|exact C1|exact C2|exact He]. eapply Forall_impl; [|exact IH].
      intros [k x] Hx [k' y] Cx Cy [= <- Hf]. destruct (List.find _ _) as [f|]; [|by subst].
      f_equal. eapply Hx; eauto.
  - apply conforms_list in H1 as (l1&[= <-]&F1&U1), H2 as (l2&->&F2&U2). rewrite U1, U2 in He. injection He as He. f_equal.
    eapply map_injective_on; [|exact F1|exact F2|exact He]. eapply Forall_impl; [|exact IH].
    intros x Hx y Cx Cy. by apply Hx.
Qed.
End conforming.

(** ** Instances *)
Definition pizza_order : AggregatePresenter := {|
  qualified := "Pizzas::Order";
  shapes := [{| shape_name := "PizzaName"; shape_fields := [{| ir_name := "value"; ir_type := "String"; ir_list := false |}];
                value_object := true |};
             {| shape_name := "Pizza"; shape_fields := [{| ir_name := "name"; ir_type := "PizzaName"; ir_list := false |};
                                                        {| ir_name := "size"; ir_type := "String"; ir_list := false |}];
                value_object := true |}];
  presented_names := [("pizza", [("Pizza", false)])] |}.
Definition margherita : Json :=
  JObject [("name", JObject [("value", JStr "Margherita")]); ("size", JStr "large")].
Example margherita_bare :
  unwrap pizza_order margherita "Pizza" false [] = JObject [("name", JStr "Margherita"); ("size", JStr "large")].
Proof. vm_compute. reflexivity. Qed.

Lemma unwrap_injective_witness :
  conforms pizza_order margherita "Pizza" false [] ∧
  ∃ v, conforms pizza_order v "Pizza" false [] ∧
       unwrap pizza_order v "Pizza" false [] = JObject [("name", JStr "Margherita"); ("size", JStr "large")] ∧
       margherita = v.
Proof.
  assert (conforms pizza_order margherita "Pizza" false []) as H by (vm_compute; auto).
  split; [exact H|]. exists margherita. split; [exact H|]. split; [vm_compute; reflexivity|].
  apply (unwrap_injective pizza_order margherita margherita "Pizza" false []); [exact H|exact H|reflexivity].
Defined.
