(* ===== verification/Reactions.v ===== *)
(** What a reaction is called with ([src/rust/src/kernel/orchestrate.rs]): the
    tables of policies and process managers, correlation, the [with:]
    projections and the routing of their facts.  All of it reads an event and
    writes nothing. *)
From stdpp Require Import gmap.
From S2P Require Export Dispatch Query.

(** ** The generated tables *)
Record PolicyRule := {
  policy_name : str; policy_event : str; event_qualifier : option str; target_verb : str;
  where_expr : option Expr; for_each_query : option str; for_each_key : option str; root : bool;
  with_spec : list (str * str)
}.
Record CrossDomainPolicyRule := {
  x_policy_name : str; x_event : str; x_qualifier : option str; x_where_expr : option Expr;
  target_domain : str; x_target_verb : str; x_with_spec : list (str * str)
}.
Record PendingCrossDomainReaction := {
  pending_policy : str; pending_event : str; pending_domain : str; pending_verb : str; pending_payload : Json
}.
Inductive WithValue := WithRef (name : str) | WithLiteral (value : Json).
Inductive DispatchSpec :=
| MkDispatchSpec (spec_command : str) (spec_with : list (str * WithValue)) (spec_compensates : option DispatchSpec).
Definition spec_command (s : DispatchSpec) : str := let 'MkDispatchSpec c _ _ := s in c.
Definition spec_with (s : DispatchSpec) : list (str * WithValue) := let 'MkDispatchSpec _ w _ := s in w.
Definition spec_compensates (s : DispatchSpec) : option DispatchSpec := let 'MkDispatchSpec _ _ c := s in c.
Record Handler := {
  event_type : str; from_state : str; to_state : str; dispatches : list DispatchSpec
}.
Record ProcessManagerDef := {
  pm_name : str; correlates_by : str; starts_on : str; ends_on : str; initial_state : str;
  handlers : list Handler
}.
Definition REFUSED : str := "refused".
Definition MAX_REACTION_DEPTH : nat := 5.
Definition reaction_depth (root : bool) (depth : nat) : nat := if root then 0%nat else S depth.

Record Tables := {
  policies : list PolicyRule; cross_domain_policies : list CrossDomainPolicyRule;
  process_managers : list ProcessManagerDef; reference_key_fn : str → option str;
  queries : list QueryDef; command_creates_fn : str → bool; identity_head_fn : str → option str;
  command_attributes_fn : str → list str; entity_identity_head_fn : str → option str
}.

(** ** Text of names *)
(** [replacen(from, to, 1)]. *)
Fixpoint replace_first (s from to : str) : str :=
  match s with
  | [] => []
  | c :: s' => if starts_with s from then to ++ drop (length from) s else c :: replace_first s' from to
  end.

Section reactions.
Context `{U : UnicodeTables} `{X : RegexCrate}.

(** ** Legs and correlation *)
Definition select_leg (pm : ProcessManagerDef) (event state : str) : option Handler :=
  List.find (λ h, str_eqb (event_type h) event && str_eqb (from_state h) state) (handlers pm).

Definition leg_mismatch (pm : ProcessManagerDef) (event state : str) : str :=
  let expected := fold_left (λ acc h,
    if str_eqb (event_type h) event then
      let spelled := debug_str (from_state h) in
      if existsb (str_eqb spelled) acc then acc else acc ++ [spelled]
    else acc) (handlers pm) [] in
  "in " ++ debug_str state ++ ", not " ++ join " or " expected.

Definition correlation_head (correlates_by : str) : str := first_piece correlates_by ".".

Definition nonempty (s : str) : option str := match s with [] => None | _ => Some s end.
Definition ok {A} (r : res A) : option A := match r with Ok a => Some a | Err _ => None end.

Definition correlation_of (pm : ProcessManagerDef) (event : Event) (reference_key_fn : str → option str)
  : option str :=
  match v ← dig (event_payload event) (correlates_by pm); ok (to_id_component v) ≫= nonempty with
  | Some id => Some id
  | None =>
    match stamp ← correlation event; stamp !! correlation_head (correlates_by pm) ≫= nonempty with
    | Some v => Some v
    | None =>
      key ← reference_key_fn (event_aggregate event);
      v ← get (event_payload event) key;
      ok (to_id_component v) ≫= nonempty
    end
  end.

Definition resolve_with (pm : ProcessManagerDef) (value : WithValue) (event : Event) (correlation : str)
    (memory : Json) : Json :=
  match value with
  | WithLiteral j => j
  | WithRef name =>
    if str_eqb name (correlation_head (correlates_by pm)) then JStr correlation
    else match get (event_payload event) name with
         | Some v => v
         | None => default JNull (get memory name)
         end
  end.

Definition qualify_saga_command_name (domain_name command_name : str) : str :=
  domain_name ++ "::" ++ replace_first command_name "::" ".".

(** ** Routing *)
Definition resolved_id_component (v : Json) : option str :=
  (match ok (to_id_component v) with
   | Some id => Some id
   | None => inner ← get v "value"; ok (to_id_component inner)
   end) ≫= nonempty.

Definition declared_facts (pairs : list (str * Json)) (verb : str) (tables : Tables) : list (str * Json) :=
  List.filter (λ '(k, _), existsb (str_eqb k) (command_attributes_fn tables verb)) pairs.

(** The first of the keys the pairs hold a usable identifier under. *)
Fixpoint first_identity (keys : list (option str)) (pairs : list (str * Json)) : option str :=
  match keys with
  | [] => None
  | key :: rest =>
    match (key ≫= λ k, assoc k pairs) ≫= resolved_id_component with
    | Some id => Some id
    | None => first_identity rest pairs
    end
  end.
Definition identity_candidates (tables : Tables) (aggregate_name : str) : list (option str) :=
  [identity_head_fn tables aggregate_name; reference_key_fn tables aggregate_name].

Definition routed_to (receiver : Json) (facts : list (str * Json)) : Json :=
  JObject [("to", receiver); ("with", JObject facts)].

Definition split_routed_args (projected : Json) (verb : str) (tables : Tables) : Json :=
  match projected with
  | JObject pairs =>
    let facts := declared_facts pairs verb tables in
    if command_creates_fn tables verb then JObject facts
    else match rsplit_once verb 46 with
         | None => JObject facts
         | Some (aggregate_name, _) =>
           match first_identity (identity_candidates tables aggregate_name) pairs with
           | Some id => routed_to (JStr id) facts
           | None => JObject facts
           end
         end
  | _ => projected
  end.

Definition entity_command_paths (verb : str) : option (str * str) :=
  '(aggregate_name, rest) ← split_once verb 46;
  '(entity_name, command_rest) ← split_once rest 46;
  if contains command_rest "." then None
  else Some (aggregate_name, aggregate_name ++ "." ++ entity_name).

Definition has_field (k : str) (j : Json) : bool :=
  match j with JObject fields => existsb (λ '(k', _), str_eqb k' k) fields | _ => false end.

Definition route_dispatch_args (projected : Json) (verb : str) (tables : Tables) (event : Event) : Json :=
  let routed := split_routed_args projected verb tables in
  if has_field "to" routed then routed
  else
    default routed (
      '(aggregate_name, entity_qualified) ← entity_command_paths verb;
      pairs ← match projected with JObject pairs => Some pairs | _ => None end;
      entity_head ← entity_identity_head_fn tables entity_qualified;
      entity_id ← assoc entity_head pairs ≫= resolved_id_component;
      aggregate_id ← match first_identity (identity_candidates tables aggregate_name) pairs with
                     | Some id => Some id
                     | None => if str_eqb (event_aggregate event) aggregate_name then nonempty (event_id event)
                               else None
                     end;
      Some (routed_to (JObject [("aggregate", JStr aggregate_id); ("entities", JArray [JStr entity_id])])
              (declared_facts pairs verb tables))).

Definition build_dispatch_args (pm : ProcessManagerDef) (spec : DispatchSpec) (event : Event)
    (correlation : str) (memory : Json) (domain_name : str) (tables : Tables) : Json :=
  let projected := JObject (map (λ '(key, value), (key, resolve_with pm value event correlation memory))
                              (spec_with spec)) in
  route_dispatch_args projected (qualify_saga_command_name domain_name (spec_command spec)) tables event.

(** ** A policy's [with:] *)
Fixpoint unescape (s : str) : str :=
  match s with
  | 92%N :: next :: rest => next :: unescape rest
  | c :: rest => c :: unescape rest
  | [] => []
  end.
Definition read_literal_wire (binding : str) : Json :=
  if str_eqb binding "nil" then JNull
  else if str_eqb binding "true" then JBool true
  else if str_eqb binding "false" then JBool false
  else match parse_i64 binding with
  | Some i => json_int i
  | None =>
    match parse_f64 binding with
    | Some f => JFloat f
    | None =>
      if (2 <=? length (utf8_encode binding))%nat && starts_with binding dquote && ends_with binding dquote
      then JStr (unescape (drop 1 (take (length binding - 1) binding)))
      else JStr binding
    end
  end.

Definition offer (source : list (str * Json)) (name : str) (value : Json) : list (str * Json) :=
  if existsb (λ '(held, _), str_eqb held name) source then source else source ++ [(name, value)].
Definition object_fields (j : Json) : list (str * Json) := match j with JObject pairs => pairs | _ => [] end.

Definition offer_row_fields (source : list (str * Json)) (row_id : str) (record : Json) : list (str * Json) :=
  fold_left (λ acc '(name, value), offer acc name value)
    (offer (object_fields record) "id" (JStr row_id)) source.
Definition offer_emitter_head (source : list (str * Json)) (event : Event) (tables : Tables)
  : list (str * Json) :=
  match identity_head_fn tables (event_aggregate event), event_id event with
  | Some head, _ :: _ => offer source head (JStr (event_id event))
  | _, _ => source
  end.
Definition offer_emitter_id (source : list (str * Json)) (event : Event) : list (str * Json) :=
  match event_id event with [] => source | _ => offer source "id" (JStr (event_id event)) end.

Definition resolve_with_spec (with_spec : list (str * str)) (source : list (str * Json)) : list (str * Json) :=
  map (λ '(name, binding),
    (name, match strip_prefix binding ":" with
           | None => read_literal_wire binding
           | Some field => default JNull (assoc field source)
           end)) with_spec.

Definition cross_domain_payload (p : CrossDomainPolicyRule) (event : Event) (tables : Tables) : Json :=
  match x_with_spec p with
  | [] => event_payload event
  | spec =>
    let source := offer_emitter_id
      (offer_emitter_head (object_fields (event_payload event)) event tables) event in
    JObject (resolve_with_spec spec source)
  end.

Definition where_holds (where_expr : option Expr) (event : Event) : bool :=
  match where_expr with
  | None => true
  | Some e =>
    match interpret e {| args := json_fielded (event_payload event); instance := NoFields |} with
    | Ok v => truthy v
    | Err _ => false
    end
  end.

Definition for_each_query_args (def : QueryDef) (event : Event) (tables : Tables) : Json :=
  let args := object_fields (event_payload event) in
  JObject (match identity_head_fn tables (event_aggregate event), event_id event with
           | Some head, _ :: _ =>
             if existsb (λ c, match condition_value c with ConditionArg name => str_eqb name head | _ => false end)
                  (conditions def)
             then offer args head (JStr (event_id event)) else args
           | _, _ => args
           end).

(** The receiver of a target on the emitter's own aggregate, when it is not
    created by the command. *)
Definition same_aggregate (extra : option (str * str)) (verb : str) (event : Event) (tables : Tables) : bool :=
  match extra with
  | Some _ => false
  | None =>
    negb (command_creates_fn tables verb) &&
    match rsplit_once verb 46 with
    | Some (aggregate_name, _) => str_eqb aggregate_name (event_aggregate event)
    | None => false
    end
  end.

Definition trigger_args_with_row (p : PolicyRule) (event : Event) (extra : option (str * str))
    (row : option (str * Json)) (verb : str) (tables : Tables) : Json :=
  let source := object_fields (event_payload event) in
  let source := match extra with
    | Some (key, id) => List.filter (λ '(name, _), negb (str_eqb name key)) source ++ [(key, JStr id)]
    | None => source
    end in
  match with_spec p with
  | [] =>
    if same_aggregate extra verb event tables then
      routed_to (JStr (event_id event)) (List.filter (λ '(name, _), negb (str_eqb name "to")) source)
    else JObject source
  | spec =>
    let source := offer_emitter_head source event tables in
    let source := match row with
      | Some (row_id, record) => offer_row_fields source row_id record
      | None => source
      end in
    let source := offer_emitter_id source event in
    let routed := split_routed_args (JObject (resolve_with_spec spec source)) verb tables in
    let already_routed := has_field "to" routed && has_field "with" routed in
    if same_aggregate extra verb event tables && negb already_routed then
      JObject [("to", JStr (event_id event)); ("with", routed)]
    else routed
  end.
Definition trigger_args (p : PolicyRule) (event : Event) (extra : option (str * str)) (verb : str)
    (tables : Tables) : Json :=
  trigger_args_with_row p event extra None verb tables.
End reactions.
