(* ===== verification/Routing.v ===== *)
(** The invocation boundary ([src/rust/src/kernel/routing.rs]): the receiver a
    command names and the facts it brings, read from the JSON of a step; and
    what the reactions of [Reactions] write is read back through it. *)
From S2P Require Export Reactions.

(** ** [RoutingEnvelope] *)
Record RoutingEnvelope := { route_aggregate : str; route_entities : list str }.

Definition routing_refusal (text : str) : Refusal := TypeMismatch ("invalid routing envelope: " ++ text).
Definition nonempty_identity (value location : str) : res str :=
  match value with
  | [] => Err (routing_refusal (location ++ " identity must not be empty"))
  | _ => Ok value
  end.

(** The entries of [to.entities], each named by its index. *)
Definition entities_at (index : nat) : str := "to.entities[" ++ dec_nat index ++ "]".
Fixpoint read_entities (index : nat) (identities : list Json) : res (list str) :=
  match identities with
  | [] => Ok []
  | identity :: rest =>
    let? text := ok_or (as_str identity) (routing_refusal (entities_at index ++ " must be a scalar identity")) in
    let? id := nonempty_identity text (entities_at index) in
    let? ids := read_entities (S index) rest in
    Ok (id :: ids)
  end.
Definition route_needs_entity : Refusal := routing_refusal "entity route requires at least one entity identity".
Definition read_entity_route (value : Json) : res (list str) :=
  match get value "entity", get value "entities" with
  | Some _, Some _ => Err (routing_refusal "entity route accepts either entity or entities, not both")
  | Some (JStr identity), None => let? id := nonempty_identity identity "to.entity" in Ok [id]
  | Some _, None => Err (routing_refusal "to.entity must be a scalar identity")
  | None, Some (JArray []) => Err route_needs_entity
  | None, Some (JArray identities) => read_entities 0 identities
  | None, Some _ => Err (routing_refusal "to.entities must be an ordered identity list")
  | None, None => Err route_needs_entity
  end.
Definition envelope_from_json (value : Json) : res RoutingEnvelope :=
  match value with
  | JStr aggregate =>
    let? a := nonempty_identity aggregate "to" in Ok {| route_aggregate := a; route_entities := [] |}
  | JObject _ =>
    let? aggregate := ok_or (get value "aggregate" ≫= as_str)
                        (routing_refusal "entity route requires a scalar aggregate identity") in
    let? aggregate := nonempty_identity aggregate "to.aggregate" in
    let? entities := read_entity_route value in
    Ok {| route_aggregate := aggregate; route_entities := entities |}
  | _ => Err (routing_refusal "to must be an aggregate identity or an entity route")
  end.

Definition require_depth (r : RoutingEnvelope) (expected : nat) : res unit :=
  if (length (route_entities r) =? expected)%nat then Ok tt
  else Err (TypeMismatch ("to: for an entity command needs " ++ dec_nat expected ++ " entity identit"
         ++ (if (expected =? 1)%nat then "y" else "ies") ++ " after the aggregate — got "
         ++ dec_nat (length (route_entities r)))).

(** ** [CommandInvocation] *)
Definition STEP_ENVELOPE_KEYS : list str := ["verb"; "role"; "actor_id"; "occurred_at"; "dry_run"; "query"].
Record CommandInvocation := { route : option RoutingEnvelope; facts : Json; explicit : bool }.

Definition non_null (value : option Json) : option Json :=
  match value with Some JNull => None | _ => value end.
Definition strip_routing_keys (value : Json) : Json :=
  match value with
  | JObject fields =>
    JObject (List.filter (λ '(name, _), negb (str_eqb name "to") && negb (str_eqb name "with")) fields)
  | other => other
  end.
Definition read_route (target : option Json) : res (option RoutingEnvelope) :=
  match target with
  | None => Ok None
  | Some t => let? r := envelope_from_json t in Ok (Some r)
  end.
(** A key that is neither the envelope's nor the step's. *)
Definition loose_fact (value : Json) : bool :=
  match value with
  | JObject fields => existsb (λ '(key, _),
      negb (str_eqb key "to") && negb (str_eqb key "with") && negb (existsb (str_eqb key) STEP_ENVELOPE_KEYS)) fields
  | _ => false
  end.
Definition invocation_from_json (value : Json) : res CommandInvocation :=
  let target := non_null (get value "to") in
  match non_null (get value "with") with
  | None =>
    let? r := read_route target in
    Ok {| route := r; facts := strip_routing_keys value; explicit := false |}
  | Some explicit_facts =>
    if match get value "args" with Some _ => true | None => false end
    then Err (routing_refusal "cannot combine to/with with legacy args")
    else if loose_fact value
    then Err (routing_refusal "with: takes command facts, not both with: and loose keyword arguments")
    else
      let? r := read_route target in
      match explicit_facts with
      | JObject _ => Ok {| route := r; facts := explicit_facts; explicit := true |}
      | _ => Err (routing_refusal "with must be an object of command facts")
      end
  end.

Section receiver.
Context `{U : UnicodeTables}.
Definition receiver_missing : Refusal := routing_refusal "aggregate-scoped operation requires to".
Definition receiver_fact (i : CommandInvocation) (field : str) : res str :=
  let? v := ok_or (get (facts i) field) receiver_missing in to_id_component v.
Definition split_aggregate_receiver (i : CommandInvocation) (legacy_receiver_field to_receiver_field : option str)
  : res (str * Json) :=
  let? receiver := match route i, legacy_receiver_field, to_receiver_field with
    | Some r, _, _ => let? _ := require_depth r 0 in Ok (route_aggregate r)
    | None, Some field, _ => receiver_fact i field
    | None, None, Some field => receiver_fact i field
    | None, None, None => Err receiver_missing
    end in
  Ok (receiver, match facts i, legacy_receiver_field with
                | JObject fields, Some field => JObject (List.filter (λ '(name, _), negb (str_eqb name field)) fields)
                | _, _ => facts i
                end).
End receiver.

(** ** What an envelope is *)
Lemma nonempty_identity_ok value location id : nonempty_identity value location = Ok id → id = value ∧ id ≠ [].
Proof. destruct value; simpl; [done|]. by intros [= <-]. Qed.

Lemma read_entities_ok index identities ids :
  read_entities index identities = Ok ids → length ids = length identities ∧ Forall (λ id, id ≠ []) ids.
Proof.
  revert index ids. induction identities as [|j rest IH]; intros index ids; cbn [read_entities]; [by intros [= <-]|].
  destruct (as_str j) as [t|]; [|done]. cbn [ok_or].
  destruct (nonempty_identity _ _) as [id|] eqn:Ei; [|done].
  destruct (read_entities _ rest) as [ids'|] eqn:Er; [|done]. intros [= <-].
  apply nonempty_identity_ok in Ei as [_ Hid]. apply IH in Er as [Hl Hf]. simpl. split; [by rewrite Hl|by constructor].
Qed.
Lemma read_entity_route_ok value ids :
  read_entity_route value = Ok ids → ids ≠ [] ∧ Forall (λ id, id ≠ []) ids.
Proof.
  unfold read_entity_route. destruct (get value "entity") as [e|], (get value "entities") as [es|]; [by destruct e| | |by intros [=]].
  - destruct e; try by intros [=]. destruct (nonempty_identity _ _) as [id|] eqn:Ei; [|by intros [=]]. intros [= <-].
    apply nonempty_identity_ok in Ei as [_ Hid]. split; [done|by constructor].
  - destruct es as [| | | | |items|]; try by intros [=]. destruct items as [|i items]; [by intros [=]|].
    intros H. apply read_entities_ok in H as [Hl Hf]. split; [by destruct ids|done].
Qed.

(** A receiver that is read names something.  An accepted [to] has an
    aggregate identity that is not empty and entity identities none of which is;
    it has entities exactly where it was written as an entity route. *)
Theorem receiver_is_named (value : Json) (r : RoutingEnvelope) :
  envelope_from_json value = Ok r →
  route_aggregate r ≠ [] ∧ Forall (λ id, id ≠ []) (route_entities r) ∧
  match value with
  | JStr aggregate => route_aggregate r = aggregate ∧ route_entities r = []
  | _ => get value "aggregate" = Some (JStr (route_aggregate r)) ∧ route_entities r ≠ []
  end.
Proof.
  destruct value as [fields|items|s|n raw|n|b|]; cbn [envelope_from_json]; try by intros [=].
  - destruct (get (JObject fields) "aggregate") as [a|] eqn:Eg; [|by intros [=]]. cbn [mbind option_bind].
    destruct a as [| |t| | | |]; try by intros [=]. cbn [as_str ok_or].
    destruct (nonempty_identity t _) as [a|] eqn:Ea; [|by intros [=]]. apply nonempty_identity_ok in Ea as [-> Ha].
    destruct (read_entity_route _) as [ids|] eqn:Ee; [|by intros [=]]. intros [= <-].
    by apply read_entity_route_ok in Ee as [Hne Hf].
  - destruct (nonempty_identity s "to") as [a|] eqn:Ea; [|by intros [=]]. intros [= <-].
    by apply nonempty_identity_ok in Ea as [-> Ha].
Qed.

(** ** What a reaction sends is read back *)
Lemma routed_to_read receiver r pairs :
  envelope_from_json receiver = Ok r →
  invocation_from_json (routed_to receiver pairs) =
    Ok {| route := Some r; facts := JObject pairs; explicit := true |}.
Proof.
  intros Hr. unfold invocation_from_json.
  assert (get (routed_to receiver pairs) "to" = Some receiver ∧ get (routed_to receiver pairs) "with" = Some (JObject pairs)
    ∧ get (routed_to receiver pairs) "args" = None ∧ loose_fact (routed_to receiver pairs) = false) as (Ht&Hw&Ha&Hl) by done.
  rewrite Ht, Hw, Ha, Hl.
  assert (non_null (Some receiver) = Some receiver) as -> by by destruct receiver.
  cbn [non_null read_route]. by rewrite Hr.
Qed.

Section legs.
Context `{U : UnicodeTables} `{X : RegexCrate}.

Lemma nonempty_some s id : nonempty s = Some id → id = s ∧ id ≠ [].
Proof. destruct s; simpl; [done|]. by intros [= <-]. Qed.
Lemma resolved_nonempty v id : resolved_id_component v = Some id → id ≠ [].
Proof. unfold resolved_id_component. intros (x&_&H)%bind_Some. by apply nonempty_some in H as [_ H]. Qed.
Lemma first_identity_nonempty keys pairs id : first_identity keys pairs = Some id → id ≠ [].
Proof.
  induction keys as [|key keys IH]; cbn [first_identity]; [done|].
  destruct (_ ≫= resolved_id_component) as [i|] eqn:E; [|done]. intros [= <-].
  apply bind_Some in E as (v&_&Hv). by apply resolved_nonempty in Hv.
Qed.

Lemma read_aggregate_route id : id ≠ [] →
  envelope_from_json (JStr id) = Ok {| route_aggregate := id; route_entities := [] |}.
Proof. by destruct id. Qed.
Lemma read_entity_path aggregate entity : aggregate ≠ [] → entity ≠ [] →
  envelope_from_json (JObject [("aggregate", JStr aggregate); ("entities", JArray [JStr entity])]) =
  Ok {| route_aggregate := aggregate; route_entities := [entity] |}.
Proof. intros Ha He. by destruct aggregate, entity. Qed.

(** A leg's arguments are read as it means them.  What a saga leg is
    dispatched with is either its declared facts alone, where no receiver could
    be told, or an invocation the boundary reads back whole: a receiver that
    names an aggregate and at most one entity of it, and exactly the facts the
    target command declares. *)
Theorem leg_arguments_read_back (pairs : list (str * Json)) (verb : str) (tables : Tables) (event : Event) :
  let sent := route_dispatch_args (JObject pairs) verb tables event in
  let declared := JObject (declared_facts pairs verb tables) in
  sent = declared ∨
  ∃ r, invocation_from_json sent = Ok {| route := Some r; facts := declared; explicit := true |} ∧
       route_aggregate r ≠ [] ∧ (length (route_entities r) <= 1)%nat.
Proof.
  cbn zeta. unfold route_dispatch_args.
  assert (split_routed_args (JObject pairs) verb tables = JObject (declared_facts pairs verb tables) ∨
    ∃ id, id ≠ [] ∧ split_routed_args (JObject pairs) verb tables =
          routed_to (JStr id) (declared_facts pairs verb tables)) as Hs.
  { unfold split_routed_args. destruct (command_creates_fn _ _); [by left|].
    destruct (rsplit_once verb 46) as [[aggregate rest]|]; [|by left].
    destruct (first_identity _ _) as [id|] eqn:E; [|by left]. right. exists id. split; [|done].
    by apply first_identity_nonempty in E. }
  assert (∀ id, id ≠ [] → ∃ r, invocation_from_json (routed_to (JStr id) (declared_facts pairs verb tables)) =
      Ok {| route := Some r; facts := JObject (declared_facts pairs verb tables); explicit := true |} ∧
      route_aggregate r ≠ [] ∧ (length (route_entities r) <= 1)%nat) as Hroute.
  { intros id Hid. eexists. split; [apply routed_to_read, read_aggregate_route, Hid|]. simpl. split; [done|lia]. }
  destruct (has_field "to" _).
  { destruct Hs as [->|(id&Hid&->)]; [by left|]. right. by apply Hroute. }
  destruct (_ ≫= _) as [sent|] eqn:E; cbn [default from_option id].
  - apply bind_Some in E as ([aggregate entity]&_&E). apply bind_Some in E as (pairs'&[= <-]&E).
    apply bind_Some in E as (entity_head&_&E). apply bind_Some in E as (entity_id&He&E).
    apply bind_Some in E as (aggregate_id&Ha&E). injection E as <-. right.
    apply bind_Some in He as (v&_&Hv). apply resolved_nonempty in Hv.
    assert (aggregate_id ≠ []) as Hid.
    { destruct (first_identity _ _) as [id|] eqn:Ef; [injection Ha as <-; by apply first_identity_nonempty in Ef|].
      destruct (str_eqb _ _); [|done]. by apply nonempty_some in Ha as [_ ?]. }
    eexists. split; [apply routed_to_read, read_entity_path; done|]. simpl. split; [done|lia].
  - destruct Hs as [->|(id&Hid&->)]; [by left|]. right. by apply Hroute.
Qed.
End legs.

Lemma receiver_is_named_witness :
  envelope_from_json (JObject [("aggregate", JStr "a1"); ("entity", JStr "e1")]) =
    Ok {| route_aggregate := "a1"; route_entities := ["e1"] |} ∧ ("a1" : str) ≠ [].
Proof.
  split; [vm_compute; reflexivity|].
  apply (receiver_is_named (JObject [("aggregate", JStr "a1"); ("entity", JStr "e1")])
    {| route_aggregate := "a1"; route_entities := ["e1"] |}). vm_compute. reflexivity.
Defined.
