(* ===== verification/Preview.v ===== *)
(** Dry runs and validations ([src/rust/src/kernel/cli.rs]): a command run on a
    copy of the store with a collector bound, and what is answered of it; and
    the arm a generated registry's [dispatch_by_name] has for an aggregate's
    command ([src/rust/src/generated/pizzas/registry.rs]): the invocation, the
    gates of its arguments, its receiver's depth, the dispatch and the payload
    its events carry.  The router itself is an argument of the model. *)
From stdpp Require Import gmap.
From S2P Require Export EntityFacts Needs Routing.

(** ** One refusal, as a client reads it *)
(** [refusal_class]. *)
Definition class_of_refusal (r : Refusal) : str * str :=
  match class_from_name (kind r) with
  | Some c => (class_kind c, class_stage c)
  | None => ("refused", "state")
  end.

Definition opt_text (value : option str) : Json := match value with Some s => JStr s | None => JNull end.

Definition refusal_entry (r : Refusal) (d : Detail) : Json :=
  let (k, stage) := class_of_refusal r in
  JObject [("kind", JStr k); ("stage", JStr stage); ("refusal", JStr (kind r));
           ("attribute", opt_text (attribute d)); ("path", opt_text (path d));
           ("rule", opt_text (rule d)); ("message", JStr (message r))].

Definition entries_of (raised : Refusal) (reasons : list Collected) : list Json :=
  match reasons with
  | [] => [refusal_entry raised no_detail]
  | _ => map (λ kept, refusal_entry (refusal kept) (detail kept)) reasons
  end.

Definition refused_dry_run (verb : str) (r : Refusal) (reasons : list Collected) : Json :=
  let (k, stage) := class_of_refusal r in
  JObject [("verb", JStr verb); ("ok", JBool false); ("error", JStr (message r));
           ("refusal", JStr (kind r)); ("kind", JStr k); ("stage", JStr stage);
           ("refusals", JArray (entries_of r reasons))].

Section preview.
Context {R A S : Type} `{HostFacts S}.
Variable dispatch_by_name : str → Json → option str → option str → M (World R) A.

Definition preview (fs : Facts) (store : R) (verb : str) (command_input : Json)
    (caller_role caller_actor_id occurred_at : option str) (s : S)
  : (res unit * list Collected) * S :=
  let (enriched, s') := enrich fs verb command_input occurred_at s in
  let command_input := default command_input enriched in
  let '((outcome, kept), _) :=
    collecting (λ c,
      let (r, w) := dispatch_by_name verb command_input caller_role caller_actor_id
                      {| repo := store; mutations := []; collected := c |} in (r, collected w)) None in
  ((match outcome with Ok _ => Ok tt | Err e => Err e end, kept), s').

Definition dry_run (fs : Facts) (store : R) (verb : str) (command_input : Json)
    (caller_role caller_actor_id occurred_at : option str) (s : S) : Json * S :=
  let '((outcome, kept), s') :=
    preview fs store verb command_input caller_role caller_actor_id occurred_at s in
  (match outcome with
   | Ok _ => JObject [("verb", JStr verb); ("ok", JBool true)]
   | Err r => refused_dry_run verb r kept
   end, s').

Definition validation (fs : Facts) (store : R) (verb : str) (command_input : Json)
    (caller_role caller_actor_id occurred_at : option str) (s : S) : Json * S :=
  let '((outcome, kept), s') :=
    preview fs store verb command_input caller_role caller_actor_id occurred_at s in
  let refusals := match outcome with Ok _ => [] | Err r => entries_of r kept end in
  (JObject [("verb", JStr verb); ("ok", JBool (match refusals with [] => true | _ => false end));
            ("refusals", JArray refusals)], s').
End preview.

(** ** An aggregate command's arm of the generated router *)
(** What the generator knows of a command's arguments. *)
Record ArgsSpec := {
  args_type : str;
  spec_command : str;
  known_keys : list str;
  declared_names : list str;
  required_names : list str
}.

Section argument_checks.
Context `{U : UnicodeTables}.
Variable spec : ArgsSpec.

(** [refuse_unknown_arguments] and [refuse_absent_arguments] word one refusal
    of the names they are given. *)
Definition unknown_refusal (names : list str) : Refusal :=
  UnknownArgument (render_args (UnknownArgumentUnknownArgsArgs (spec_command spec) names (declared_names spec))).
Definition absent_refusal (names : list str) : Refusal :=
  AbsentArgument (render_args (AbsentArgumentAbsentArgsArgs (spec_command spec) names (declared_names spec))).
Definition absent_names (v : Json) : list str :=
  List.filter (λ key, match get v key with None => true | Some _ => false end) (required_names spec).

(** [Args::decode_arguments], [refuse_unknown_arguments] and
    [refuse_absent_arguments]. *)
Definition decode_object (v : Json) : M collector unit :=
  match v with
  | JObject _ => ret tt
  | _ => raise (TypeMismatch (args_type spec ++ " expects an object, got " ++ inspect v))
  end.
Definition refuse_unknown (v : Json) : M collector unit :=
  match unknown_keys v (known_keys spec) with
  | [] => ret tt
  | unknown => refuse_each unknown unknown_refusal
  end.
Definition refuse_absent (v : Json) : M collector unit :=
  match absent_names v with
  | [] => ret tt
  | absent => refuse_each absent absent_refusal
  end.
End argument_checks.

(** What one arm is generated with: how the arguments are read and checked,
    whom the command is for, which references it has, the command dispatched
    of the receiver and the arguments, and the store's part it is run on. *)
Record CommandArm (St R T A : Type) := {
  arm_spec : ArgsSpec;
  arm_normalize : Json → res A;
  arm_authorize : St → option str → option str → res unit;
  arm_references : St → A → res unit;
  arm_to_json : A → Json;
  arm_command : St → option RoutingEnvelope → Json → A → res (Command T);
  arm_part : St → R;
  arm_put : R → St → St
}.
Arguments arm_spec {St R T A}. Arguments arm_normalize {St R T A}. Arguments arm_authorize {St R T A}.
Arguments arm_references {St R T A}. Arguments arm_to_json {St R T A}. Arguments arm_command {St R T A}.
Arguments arm_part {St R T A}. Arguments arm_put {St R T A}.

(** [stamp_payload]. *)
Definition stamp_payload (events : list Event) (args_json : Json) : list Event :=
  map (λ e, {| event_name := event_name e; event_aggregate := event_aggregate e; event_id := event_id e;
               event_payload := args_json; occurred_at := occurred_at e; correlation := correlation e |}) events.

Section arm.
Context `{U : UnicodeTables} `{X : RegexCrate}.
Context {St R T A : Type} `{RR : Repository R T} `{RT : Recorded T}.
Variable arm : CommandArm St R T A.

Definition arm_gates (store : St) (caller_role caller_actor_id : option str) : ArgumentGates A := {|
  decode_arguments := decode_object (arm_spec arm);
  refuse_unknown_arguments := refuse_unknown (arm_spec arm);
  refuse_absent_arguments := refuse_absent (arm_spec arm);
  normalize_args v := lift (arm_normalize arm v);
  refuse_role_mismatch := lift (arm_authorize arm store caller_role caller_actor_id);
  resolve_references a := lift (arm_references arm store a)
|}.

(** The depth of the receiver is read after the arguments where they came
    under [with], before them otherwise. *)
Definition no_entities (route : option RoutingEnvelope) : M collector unit :=
  match route with Some r => lift (require_depth r 0) | None => ret tt end.
Definition arm_arguments (i : CommandInvocation) (gates : ArgumentGates A) : M collector A :=
  if explicit i then
    let! args := decode_aggregate_arguments (facts i) gates in
    no_entities (route i) ;;!
    ret args
  else
    no_entities (route i) ;;!
    decode_aggregate_arguments (facts i) gates.

(** The dispatch's repository is a part of the store. *)
Definition on_part {B : Type} : M (World R) B → M (World St) B :=
  zoom (λ w, {| repo := arm_part arm (repo w); mutations := mutations w; collected := collected w |})
       (λ w' w, {| repo := arm_put arm (repo w') (repo w); mutations := mutations w'; collected := collected w' |}).

(** The arm of [dispatch_by_name]. *)
Definition run_arm (args_json : Json) (caller_role caller_actor_id : option str)
  : M (World St) (list Event) :=
  let! i := lift (invocation_from_json args_json) in
  let! store := read repo in
  let! args := on_collector (arm_arguments i (arm_gates store caller_role caller_actor_id)) in
  let! c := lift (arm_command arm store (route i) (facts i) args) in
  let! done := on_part (dispatch c) in
  ret (stamp_payload done.2 (overlay (facts i) (arm_to_json arm args))).
End arm.

(** ** The gates, with and without a collector *)
Section gate_previews.
Context `{U : UnicodeTables}.
Variable spec : ArgsSpec.

(** The refusal a real run raises for the names of the facts, and the entries
    a dry run lists for them: one for each name. *)
Definition named_refusal (v : Json) : option Refusal :=
  match unknown_keys v (known_keys spec), absent_names spec v with
  | n :: unknown, _ => Some (unknown_refusal spec (n :: unknown))
  | [], n :: absent => Some (absent_refusal spec (n :: absent))
  | [], [] => None
  end.
Definition kept_each (make : list str → Refusal) (names : list str) : list Collected :=
  map (λ name, {| refusal := make [name]; detail := attribute_detail name |}) names.
Definition one_by_one (v : Json) : list Collected :=
  kept_each (unknown_refusal spec) (unknown_keys v (known_keys spec)) ++
  kept_each (absent_refusal spec) (absent_names spec v).

Lemma refuse_each_kept (names : list str) (make : list str → Refusal) (l : list Collected) :
  refuse_each names make (Some l) = (Ok tt, Some (l ++ kept_each make names)).
Proof.
  unfold refuse_each. revert l. induction names as [|n names IH]; intros l.
  - cbn. by rewrite app_nil_r.
  - cbn [for_each]. unfold bind at 1. cbn [refuse_with].
    etransitivity; [apply IH|]. cbn [kept_each map]. by rewrite <- app_assoc.
Qed.
Lemma refuse_unknown_kept (v : Json) (l : list Collected) :
  refuse_unknown spec v (Some l) = (Ok tt, Some (l ++ kept_each (unknown_refusal spec) (unknown_keys v (known_keys spec)))).
Proof.
  unfold refuse_unknown. destruct (unknown_keys v (known_keys spec)); [cbn; by rewrite app_nil_r|].
  apply refuse_each_kept.
Qed.
Lemma refuse_absent_kept (v : Json) (l : list Collected) :
  refuse_absent spec v (Some l) = (Ok tt, Some (l ++ kept_each (absent_refusal spec) (absent_names spec v))).
Proof.
  unfold refuse_absent. destruct (absent_names spec v); [cbn; by rewrite app_nil_r|].
  apply refuse_each_kept.
Qed.

(** What a dry run keeps and answers of a step the real run of which answers [real]. *)
Definition agrees {B} (v : Json) (real dry : res B) (more : list Collected) : Prop :=
  match real with
  | Ok b => dry = Ok b ∧ more = []
  | Err e => is_ok dry = false ∧
      (first_reason more dry = Some e ∨ named_refusal v = Some e ∧ more = one_by_one v)
  end.

(** A dry run of a step tells what a real run of it answers. *)
Definition tells (v : Json) {B} (m : M collector B) : Prop :=
  (m None).2 = None ∧
  ∃ more, (m (Some [])).2 = Some more ∧ agrees v (m None).1 (m (Some [])).1 more.

Lemma tells_ext (v : Json) {B} (m m' : M collector B) : (∀ c, m c = m' c) → tells v m' → tells v m.
Proof. intros H. unfold tells. by rewrite !H. Qed.
Lemma tells_lift (v : Json) {B} (r : res B) : tells v (lift r).
Proof. split; [done|]. exists []. split; [done|]. destruct r; cbn; auto. Qed.
Lemma tells_after (v : Json) {B C} (r : res B) (k : B → M collector C) :
  (∀ b, tells v (k b)) → tells v (let! b := lift r in k b).
Proof. intros Hk. destruct r as [b|e]; [apply Hk|apply (tells_lift v (Err e))]. Qed.
Lemma tells_before (v : Json) {B C} (m : M collector B) (k : B → res C) :
  tells v m → tells v (let! b := m in lift (k b)).
Proof.
  intros [Hn (more & Hc & Hm)]. unfold tells, bind.
  destruct (m None) as [[b|e] c0], (m (Some [])) as [[b'|e'] c1]; cbn [fst snd agrees] in *; subst c0 c1.
  - destruct Hm as [[= ->] ->]. apply (tells_lift v (k b)).
  - by destruct Hm.
  - by destruct Hm.
  - split; [done|]. eauto.
Qed.

(** The stage of the names: settled, it fails exactly where a real run does. *)
Definition names_stage (v : Json) : M collector unit :=
  refuse_unknown spec v ;;! refuse_absent spec v ;;! settle 0.
Lemma tells_names (v : Json) : tells v (names_stage v).
Proof.
  unfold tells, names_stage, bind. rewrite refuse_unknown_kept. cbv iota beta. rewrite refuse_absent_kept.
  unfold refuse_unknown, refuse_absent, settle, agrees, named_refusal, one_by_one. cbn [app].
  destruct (unknown_keys v (known_keys spec)) as [|n unknown];
    [destruct (absent_names spec v) as [|n absent]|];
    (split; [done|]; eexists; split; [cbn; reflexivity|]; cbn; auto).
Qed.
End gate_previews.

Section agreement.
Context `{U : UnicodeTables} `{X : RegexCrate}.
Context {St R T A : Type} `{RR : Repository R T} `{RT : Recorded T}.
Variable arm : CommandArm St R T A.

Lemma dispatch_previews (c : Command T) (store : R) (log : list MutationRecord) :
  (∀ t, previews (apply_mutations c t) ∧ strictly (apply_mutations c t)) →
  ∃ more, collected (dispatch c {| repo := store; mutations := log; collected := Some [] |}).2 = Some more ∧
  let real := (dispatch c {| repo := store; mutations := log; collected := None |}).1 in
  let dry := (dispatch c {| repo := store; mutations := log; collected := Some [] |}).1 in
  match real with
  | Ok a => dry = Ok a ∧ more = []
  | Err e => is_ok dry = false ∧ first_reason more dry = Some e
  end.
Proof.
  intros Ha. rewrite !dispatch_eq. unfold dispatch_spec. cbn [repo mutations collected].
  destruct (hydrate_record c (hydrate c) store) as [[[id before] deferred]|e]; [|by exists []].
  destruct (previews_pipeline c id before Ha) as [Hp Hs]. specialize (Hp []). specialize (Hs []).
  destruct Hp as (more & H1 & H2 & H3). cbn [app] in H1.
  destruct (pipeline_rules c id before None) as [r1 c1], (pipeline_rules c id before (Some [])) as [r2 c2].
  cbn [fst snd] in *. subst c1 c2. exists more.
  destruct r1 as [a|e].
  - destruct H3 as [-> ->]. destruct deferred, (Repository.find store id); done.
  - destruct r2; [done|]. done.
Qed.

Lemma gates_tell (v : Json) (store : St) (role actor : option str) :
  tells (arm_spec arm) v (decode_aggregate_arguments v (arm_gates arm store role actor)).
Proof.
  set (g := arm_gates arm store role actor).
  assert (∀ c, mark c = (Ok 0%nat, c) → decode_aggregate_arguments v g c =
    (let! object := lift (decode_object (arm_spec arm) v None).1 in
     let! named := names_stage (arm_spec arm) v in
     lift (let? a := arm_normalize arm v in
           let? done := arm_authorize arm store role actor in
           let? there := arm_references arm store a in Ok a)) c) as Hpipe.
  { intros c Hc. rewrite (proj2 (decode_is_gate_pipeline g v c)). unfold names_stage, bind. rewrite Hc.
    assert (decode_object (arm_spec arm) v c = ((decode_object (arm_spec arm) v None).1, c)) as Ho by (by destruct v).
    subst g. unfold lift, ret. cbn [arm_gates decode_arguments refuse_unknown_arguments refuse_absent_arguments
      normalize_args refuse_role_mismatch resolve_references]. rewrite Ho.
    destruct (decode_object (arm_spec arm) v None).1 as [[]|]; [|done].
    destruct (refuse_unknown (arm_spec arm) v c) as [[[]|] c1]; [|done].
    destruct (refuse_absent (arm_spec arm) v c1) as [[[]|] c2]; [|done].
    destruct (settle 0 c2) as [[[]|] c3]; [|done].
    unfold lift. destruct (arm_normalize arm v) as [a|]; [|done].
    destruct (arm_authorize arm store role actor); [|done].
    by destruct (arm_references arm store a). }
  unfold tells. rewrite !Hpipe by done.
  apply tells_after. intros object. apply tells_before, tells_names.
Qed.
Lemma arm_arguments_tell (i : CommandInvocation) (store : St) (role actor : option str) :
  tells (arm_spec arm) (facts i) (arm_arguments i (arm_gates arm store role actor)).
Proof.
  assert (no_entities (route i) = lift (match route i with Some r => require_depth r 0 | None => Ok tt end)) as Hd
    by (unfold no_entities; by destruct (route i)).
  pose proof (gates_tell (facts i) store role actor) as Hg.
  unfold arm_arguments. rewrite Hd. destruct (explicit i); [|by apply tells_after].
  apply (tells_before _ _ _ (λ args, let? done := match route i with
    Some r => require_depth r 0 | None => Ok tt end in Ok args)) in Hg.
  eapply tells_ext, Hg. intros c. unfold bind, lift, ret.
  destruct (decode_aggregate_arguments _ _ c) as [[a|e] c']; [|done].
  by destruct (match route i with Some r => _ | None => _ end).
Qed.

(** A dry run of the arm against the real run of it, over the whole store. *)
Lemma arm_tells (store : St) (input : Json) (role actor : option str) :
  (∀ store route facts args c, arm_command arm store route facts args = Ok c →
     ∀ t, previews (apply_mutations c t) ∧ strictly (apply_mutations c t)) →
  let world c := {| repo := store; mutations := []; collected := c |} in
  let real := run_arm arm input role actor (world None) in
  let dry := run_arm arm input role actor (world (Some [])) in
  ∃ more, collected dry.2 = Some more ∧
  match real.1 with
  | Ok events => dry.1 = Ok events ∧ more = []
  | Err e => is_ok dry.1 = false ∧
      (first_reason more dry.1 = Some e ∨
       ∃ i, invocation_from_json input = Ok i ∧ named_refusal (arm_spec arm) (facts i) = Some e ∧
         more = one_by_one (arm_spec arm) (facts i))
  end.
Proof.
  intros Ha. cbv zeta. unfold run_arm, bind, lift, read. cbn [repo].
  destruct (invocation_from_json input) as [i|e]; [|exists []; cbn; auto].
  destruct (arm_arguments_tell i store role actor) as [Hn (more & Hc & Hm)].
  unfold on_collector, zoom. cbn [collected repo mutations].
  destruct (arm_arguments i _ None) as [r0 c0], (arm_arguments i _ (Some [])) as [r1 c1]. cbn [fst snd] in *. subst c0 c1.
  destruct r0 as [args|e].
  - destruct Hm as [-> ->]. destruct (arm_command arm store (route i) (facts i) args) as [c|e] eqn:Ec;
      [|exists []; cbn; auto].
    destruct (dispatch_previews c (arm_part arm store) [] (Ha _ _ _ _ _ Ec)) as (kept & Hk & Hd).
    unfold on_part, zoom. cbn [collected repo mutations].
    destruct (dispatch c {| repo := arm_part arm store; mutations := []; collected := Some [] |}) as [d w].
    destruct (dispatch c {| repo := arm_part arm store; mutations := []; collected := None |}) as [r w0].
    cbn [fst snd] in *. exists kept.
    destruct r as [a|e]; [by destruct Hd as [-> ->]|]. destruct Hd as [Hd Hf]. destruct d; [done|]. cbn in *. auto.
  - destruct Hm as [Hf Hm]. destruct r1 as [|e1]; [done|]. exists more.
    split; [done|]. split; [done|]. destruct Hm as [Hm|[Hm1 Hm2]]; [by left|]. right. by exists i.
Qed.
End agreement.

(** ** Properties *)
Section preview_properties.
Context `{U : UnicodeTables} `{X : RegexCrate}.
Context {St R T A S : Type} `{RR : Repository R T} `{RT : Recorded T} `{HF : HostFacts S}.

Definition listed (kept : list Collected) : list Json :=
  map (λ kept, refusal_entry (refusal kept) (detail kept)) kept.

End preview_properties.

(** The bank's arm for a withdrawal: the account is named by its number, and
    the amount is asked for. *)
Definition withdraw_args : ArgsSpec := {|
  args_type := "WithdrawArgs"; spec_command := "Withdraw"; known_keys := ["number"; "amount"; "id"];
  declared_names := ["number"; "amount"]; required_names := ["amount"; "number"] |}.
Definition text_arg (key : str) (v : Json) : str := match get v key with Some (JStr s) => s | _ => [] end.
Definition withdraw_arm (floors : list GivenSpec)
  : CommandArm (InMemoryRepository Account) (InMemoryRepository Account) Account Z := {|
  arm_spec := withdraw_args;
  arm_normalize v := match get v "amount" ≫= json_as_i64 with Some n => Ok n | _ => Err (TypeMismatch "amount") end;
  arm_authorize _ _ _ := Ok tt;
  arm_references _ _ := Ok tt;
  arm_to_json amount := JObject [("amount", json_int amount)];
  arm_command _ _ facts amount := Ok (withdraw (Act (text_arg "number" facts)) floors amount);
  arm_part store := store;
  arm_put store _ := store
|}.
(** The router of a bank that knows one command. *)
Definition bank_route (floors : list GivenSpec)
  : str → Json → option str → option str → M (World (InMemoryRepository Account)) (list Event) :=
  λ _, @run_arm ascii_tables no_regex _ _ _ _ _ _ (withdraw_arm floors).
Definition no_facts : Facts := {| needs_table := ∅; defaults_table := ∅; query_table := ∅; fixed_clock := None |}.
Definition bank_dry_run (floors : list GivenSpec) (input : Json) : Json :=
  (@dry_run _ _ unit stopped_clock (bank_route floors) no_facts bank "Bank::Account.Withdraw" input None None None tt).1.


(** A given whose expression faults: it reads a field the record does not have. *)
Definition faulty_given : GivenSpec :=
  {| given_description := "limit kept"; given_expr := compare_with op_gt "limit" 0; corrects_event := None |}.

(** Where a later rule of the stage faults, a dry run's "error" and
    "refusal" are that fault's and not the refusal a real dispatch raises,
    which is still the first of the listed refusals; the fault itself is not
    listed. *)
Theorem dry_run_error_masked :
  let c := withdraw (Act "a1") [above_zero "ten left" 9; faulty_given] 5 in
  let dry := bank_dry_run [above_zero "ten left" 9; faulty_given]
               (JObject [("number", JStr "a1"); ("amount", json_int 5)]) in
  (@dispatch ascii_tables no_regex _ _ _ _ c (opened None)).1 =
    Err (GivenNotMet "Withdraw refused — ten left") ∧
  get dry "refusal" = Some (JStr "Fault") ∧
  get dry "refusals" = Some (JArray [refusal_entry (GivenNotMet "Withdraw refused — ten left")
                                       (rule_detail "ten left")]).
Proof. vm_compute. split_and!; reflexivity. Qed.
