(* ===== verification/Orchestrate.v ===== *)
(** Orchestration ([src/rust/src/kernel/orchestrate.rs]): a dispatch, the
    policies and saga legs its events trigger, and theirs in turn.  The
    generated router is an argument; what a cascade threads through every
    reaction is its state.  The recursion of [run] and the draining of a
    ledger are not structural: both take turns from a budget, and the answer
    [None] means only that it ran out. *)
From stdpp Require Import gmap.
From S2P Require Export Reactions Needs.

Record CompletedCompensation := { compensation_command : str; compensation_args : Json }.
Record SagaInstance := {
  saga_state : str; memory : Json;
  (** Newest first; the source's vector grows at the other end. *)
  completed_compensations : list CompletedCompensation
}.
(** The process manager's name and the correlation. *)
Abbreviation SagaKey := (str * str)%type.

(** [Cascade]: the store, the sagas and the logs. *)
Record Cascade (St S : Type) := {
  store : St; host : S; sagas : gmap SagaKey SagaInstance;
  all_events : list Event; mutation_log : list MutationRecord;
  cross_domain : list PendingCrossDomainReaction; reaction_log : list Json; saga_log : list Json
}.
Arguments store {St S}. Arguments host {St S}. Arguments sagas {St S}. Arguments all_events {St S}.
Arguments mutation_log {St S}. Arguments cross_domain {St S}. Arguments reaction_log {St S}.
Arguments saga_log {St S}.

(** ** A step of a cascade: [None] when its turns ran out *)
Section steps.
Context {St S : Type}.
Definition Step (A : Type) : Type := Cascade St S → option (A * Cascade St S).
Definition done_with {A} (a : A) : Step A := λ c, Some (a, c).
Definition andThen {A B} (m : Step A) (k : A → Step B) : Step B :=
  λ c, '(a, c') ← m c; k a c'.
Definition ask_cascade {A} (f : Cascade St S → A) : Step A := λ c, Some (f c, c).
Definition change (f : Cascade St S → Cascade St S) : Step unit := λ c, Some (tt, f c).
Definition out_of_turns {A} : Step A := λ _, None.
Definition each {A} (l : list A) (body : A → Step unit) : Step unit :=
  (fix go (l : list A) : Step unit :=
    match l with
    | [] => done_with tt
    | a :: l' => andThen (body a) (λ _, go l')
    end) l.

Definition with_sagas (f : gmap SagaKey SagaInstance → gmap SagaKey SagaInstance) (c : Cascade St S)
  : Cascade St S := {|
  store := store c; host := host c; sagas := f (sagas c); all_events := all_events c;
  mutation_log := mutation_log c; cross_domain := cross_domain c; reaction_log := reaction_log c;
  saga_log := saga_log c |}.
Definition log_saga (j : Json) : Step unit := change (λ c, {|
  store := store c; host := host c; sagas := sagas c; all_events := all_events c;
  mutation_log := mutation_log c; cross_domain := cross_domain c; reaction_log := reaction_log c;
  saga_log := saga_log c ++ [j] |}).
Definition log_reaction (j : Json) : Step unit := change (λ c, {|
  store := store c; host := host c; sagas := sagas c; all_events := all_events c;
  mutation_log := mutation_log c; cross_domain := cross_domain c; reaction_log := reaction_log c ++ [j];
  saga_log := saga_log c |}).
Definition log_events (evs : list Event) : Step unit := change (λ c, {|
  store := store c; host := host c; sagas := sagas c; all_events := all_events c ++ evs;
  mutation_log := mutation_log c; cross_domain := cross_domain c; reaction_log := reaction_log c;
  saga_log := saga_log c |}).
Definition pend (p : PendingCrossDomainReaction) : Step unit := change (λ c, {|
  store := store c; host := host c; sagas := sagas c; all_events := all_events c;
  mutation_log := mutation_log c; cross_domain := cross_domain c ++ [p]; reaction_log := reaction_log c;
  saga_log := saga_log c |}).
End steps.
Declare Scope step_scope.
Delimit Scope step_scope with step.
Notation "'do!' x '<-' c 'in' k" := (andThen c (λ x, k))
  (at level 10, x name, c at level 100, k at level 200, format "'do!'  x  '<-'  c  'in' '//' k") : step_scope.
Notation "c ';;;' k" := (andThen c (λ _, k))
  (at level 100, k at level 200, right associativity, format "c  ';;;' '//' k") : step_scope.
Open Scope step_scope.

Definition delivered (b : bool) : str * Json := ("delivered", JBool b).
Definition reason (text : str) : str * Json := ("reason", JStr text).
Definition depth_reached : str := "reaction depth " ++ dec_nat MAX_REACTION_DEPTH ++ " reached".

Section orchestrate.
Context `{U : UnicodeTables} `{X : RegexCrate}.
Context {St S : Type} `{SS : AggregateScan St} `{HF : HostFacts S}.
Variable tables : Tables.
Variable facts : Facts.
Variable occurred_at : option str.
(** The generated [dispatch_by_name]. *)
Variable dispatch_fn : str → Json → option str → option str → M (St * list MutationRecord) (list Event).
Abbreviation Cas A := (Step (St := St) (S := S) A).

(** What a reaction calls: a command, its arguments, the correlation its events
    are stamped with, and the depth; no caller. *)
Abbreviation Run := (str → Json → option (gmap str str) → nat → Cas (res unit)).

(** ** Policies ([react_policies]) *)
Definition policy_record (p : PolicyRule) (event : Event) (extra : list (str * Json)) : Json :=
  JObject ([("policy", JStr (policy_name p)); ("on", JStr (event_name event));
            ("trigger", JStr (target_verb p))] ++ extra).
Definition fires (event_name_of : str) (qualifier : option str) (where_expr : option Expr) (event : Event) : bool :=
  let emitting := last_piece (event_aggregate event) "::" in
  str_eqb event_name_of (event_name event) &&
  match qualifier with Some q => str_eqb q emitting | None => true end &&
  where_holds where_expr event.

Definition log_outcome (record : list (str * Json) → Json) (outcome : res unit) : Cas unit :=
  log_reaction (match outcome with
                | Ok _ => record [delivered true]
                | Err refusal => record [delivered false; reason (message refusal)]
                end).

Definition react_policy (run : Run) (event : Event) (depth : nat) (p : PolicyRule) : Cas unit :=
  let record := policy_record p event in
  if negb (fires (policy_event p) (event_qualifier p) (where_expr p) event) then done_with tt
  else if (MAX_REACTION_DEPTH <=? depth)%nat && negb (root p) then
    log_reaction (record [delivered false; reason depth_reached])
  else
    match for_each_query p with
    | Some name =>
      match find_query (queries tables) name with
      | None => log_reaction (record [delivered false; reason ("no query " ++ name)])
      | Some def =>
        do! st <- ask_cascade store in
        match Query.run st def (for_each_query_args def event tables) None with
        | Err refusal => log_reaction (record [delivered false; reason (message refusal)])
        | Ok rows =>
          each rows (λ '(row_id, row),
            let extra := (λ key, (key, row_id)) <$> for_each_key p in
            let args := trigger_args_with_row p event extra (Some (row_id, row)) (target_verb p) tables in
            do! outcome <- run (target_verb p) args None (reaction_depth (root p) depth) in
            log_outcome (λ more, record (("for_row", JStr row_id) :: more)) outcome)
        end
      end
    | None =>
      do! outcome <- run (target_verb p) (trigger_args p event None (target_verb p) tables) None
                       (reaction_depth (root p) depth) in
      log_outcome record outcome
    end.

Definition pend_cross_domain (event : Event) (p : CrossDomainPolicyRule) : Cas unit :=
  if fires (x_event p) (x_qualifier p) (x_where_expr p) event then
    pend {| pending_policy := x_policy_name p; pending_event := event_name event;
            pending_domain := target_domain p; pending_verb := x_target_verb p;
            pending_payload := cross_domain_payload p event tables |}
  else done_with tt.

Definition react_policies (run : Run) (event : Event) (depth : nat) : Cas unit :=
  each (policies tables) (react_policy run event depth) ;;;
  each (cross_domain_policies tables) (pend_cross_domain event).

(** ** Sagas: born, ended *)
Definition begin_one (event : Event) (pm : ProcessManagerDef) : Cas unit :=
  if negb (str_eqb (event_name event) (starts_on pm)) then done_with tt
  else
    match correlation_of pm event (reference_key_fn tables) with
    | None =>
      log_saga (JObject [("process_manager", JStr (pm_name pm)); ("on", JStr (event_name event));
                         ("born", JBool false); reason ("no " ++ correlates_by pm ++ " in the payload")])
    | Some correlation =>
      do! held <- ask_cascade sagas in
      match held !! (pm_name pm, correlation) with
      | Some _ => done_with tt
      | None =>
        change (with_sagas (<[(pm_name pm, correlation) :=
          {| saga_state := initial_state pm; memory := event_payload event; completed_compensations := [] |}]>)) ;;;
        log_saga (JObject [("process_manager", JStr (pm_name pm)); ("on", JStr (event_name event));
                           ("instance", JStr correlation); ("born", JBool true);
                           ("state", JStr (initial_state pm))])
      end
    end.
Definition begin_saga (event : Event) : Cas unit := each (process_managers tables) (begin_one event).

Definition end_one (event : Event) (pm : ProcessManagerDef) : Cas unit :=
  if negb (str_eqb (event_name event) (ends_on pm)) then done_with tt
  else
    match correlation_of pm event (reference_key_fn tables) with
    | None => done_with tt
    | Some correlation =>
      do! held <- ask_cascade sagas in
      match held !! (pm_name pm, correlation) with
      | None => done_with tt
      | Some _ =>
        change (with_sagas (delete (pm_name pm, correlation))) ;;;
        log_saga (JObject [("process_manager", JStr (pm_name pm)); ("on", JStr (event_name event));
                           ("instance", JStr correlation); ("ended", JBool true)])
      end
    end.
Definition end_saga (event : Event) : Cas unit := each (process_managers tables) (end_one event).

(** ** A leg's dispatches *)
Record SagaLeg := { leg_pm : ProcessManagerDef; leg_correlation : str; leg_domain : str }.
Definition leg_key (l : SagaLeg) : SagaKey := (pm_name (leg_pm l), leg_correlation l).
Definition leg_stamp (l : SagaLeg) : gmap str str :=
  {[ correlation_head (correlates_by (leg_pm l)) := leg_correlation l ]}.
Definition leg_record (l : SagaLeg) (dispatched : str) (extra : list (str * Json)) : Json :=
  JObject ([("process_manager", JStr (pm_name (leg_pm l))); ("instance", JStr (leg_correlation l));
            ("dispatch", JStr dispatched)] ++ extra).

Definition push_compensation (e : CompletedCompensation) (i : SagaInstance) : SagaInstance :=
  {| saga_state := saga_state i; memory := memory i;
     completed_compensations := e :: completed_compensations i |}.
Definition pop_compensation (i : SagaInstance) : SagaInstance :=
  {| saga_state := saga_state i; memory := memory i;
     completed_compensations := tail (completed_compensations i) |}.
Definition move_to (state : str) (i : SagaInstance) : SagaInstance :=
  {| saga_state := state; memory := memory i; completed_compensations := completed_compensations i |}.

(** [None] when the depth ceiling stopped the leg, else whether it was delivered. *)
Definition deliver_saga_dispatch (run : Run) (l : SagaLeg) (spec : DispatchSpec) (args : Json)
    (depth : nat) (compensation_args : option Json) : Cas (option bool) :=
  let record := leg_record l (spec_command spec) in
  if (MAX_REACTION_DEPTH <=? depth)%nat then
    log_saga (record [delivered false; reason depth_reached]) ;;;
    done_with None
  else
    let qualified := qualify_saga_command_name (leg_domain l) (spec_command spec) in
    do! held <- ask_cascade sagas in
    let recorded := match spec_compensates spec, compensation_args, held !! leg_key l with
                    | Some c, Some r_args, Some _ =>
                      Some {| compensation_command := spec_command c; compensation_args := r_args |}
                    | _, _, _ => None
                    end in
    match recorded with
    | Some e => change (with_sagas (alter (push_compensation e) (leg_key l)))
    | None => done_with tt
    end ;;;
    do! outcome <- run qualified args (Some (leg_stamp l)) (Datatypes.S depth) in
    match outcome with
    | Ok _ =>
      log_saga (record [delivered true]) ;;;
      done_with (Some true)
    | Err refusal =>
      match recorded with
      | Some _ => change (with_sagas (alter pop_compensation (leg_key l)))
      | None => done_with tt
      end ;;;
      log_saga (record [delivered false; reason (message refusal)]) ;;;
      done_with (Some false)
    end.

Definition deliver_derived_compensation (run : Run) (l : SagaLeg) (entry : CompletedCompensation)
    (depth : nat) : Cas unit :=
  let record := leg_record l (compensation_command entry) in
  if (MAX_REACTION_DEPTH <=? depth)%nat then
    log_saga (record [delivered false; reason depth_reached; ("compensation", JBool true);
                      ("compensation_failed", JBool true)])
  else
    let qualified := qualify_saga_command_name (leg_domain l) (compensation_command entry) in
    do! outcome <- run qualified (compensation_args entry) (Some (leg_stamp l)) (Datatypes.S depth) in
    log_saga (match outcome with
              | Ok _ => record [delivered true; ("compensation", JBool true)]
              | Err refusal => record [delivered false; reason (message refusal);
                                       ("compensation", JBool true); ("compensation_failed", JBool true)]
              end).

(** The ledger, drained newest first and read again at every turn. *)
Fixpoint drain (turns : nat) (run : Run) (l : SagaLeg) (depth : nat) : Cas unit :=
  match turns with
  | O => out_of_turns
  | Datatypes.S turns =>
    do! held <- ask_cascade sagas in
    match held !! leg_key l with
    | None => done_with tt
    | Some i =>
      match completed_compensations i with
      | [] => done_with tt
      | entry :: _ =>
        change (with_sagas (alter pop_compensation (leg_key l))) ;;;
        deliver_derived_compensation run l entry depth ;;;
        drain turns run l depth
      end
    end
  end.

Definition saga_record (pm : ProcessManagerDef) (on correlation : str) (extra : list (str * Json)) : Json :=
  JObject ([("process_manager", JStr (pm_name pm)); ("on", JStr on); ("instance", JStr correlation)] ++ extra).
Definition advanced_record (h : Handler) : list (str * Json) :=
  [("advanced", JBool true); ("from", JStr (from_state h)); ("to", JStr (to_state h))].

(** One leg's dispatches in declared order; whether one of them was refused. *)
Fixpoint deliver_all (run : Run) (l : SagaLeg) (event : Event) (mem : Json) (depth : nat)
    (specs : list DispatchSpec) : Cas bool :=
  match specs with
  | [] => done_with false
  | spec :: rest =>
    let args s := build_dispatch_args (leg_pm l) s event (leg_correlation l) mem (leg_domain l) tables in
    do! outcome <- deliver_saga_dispatch run l spec (args spec) depth (args <$> spec_compensates spec) in
    do! refused <- deliver_all run l event mem depth rest in
    done_with (match outcome with Some false => true | _ => refused end)
  end.

Definition compensate (turns : nat) (run : Run) (l : SagaLeg) (event : Event) (mem : Json) (depth : nat)
  : Cas unit :=
  let pm := leg_pm l in
  let record := saga_record pm REFUSED (leg_correlation l) in
  do! held <- ask_cascade sagas in
  match held !! leg_key l with
  | None => done_with tt
  | Some i =>
    if negb (existsb (λ h, str_eqb (event_type h) REFUSED) (handlers pm)) then done_with tt
    else
      match select_leg pm REFUSED (saga_state i) with
      | None =>
        log_saga (record [("advanced", JBool false); reason (leg_mismatch pm REFUSED (saga_state i))])
      | Some compensation =>
        change (with_sagas (alter (move_to (to_state compensation)) (leg_key l))) ;;;
        log_saga (record (advanced_record compensation)) ;;;
        drain turns run l depth ;;;
        deliver_all run l event mem depth (dispatches compensation) ;;;
        done_with tt
      end
  end.

(** ** [advance_saga] *)
Definition advance_one (turns : nat) (run : Run) (event : Event) (depth : nat) (pm : ProcessManagerDef)
  : Cas unit :=
  if negb (existsb (λ h, str_eqb (event_type h) (event_name event)) (handlers pm)) then done_with tt
  else
    match correlation_of pm event (reference_key_fn tables) with
    | None => done_with tt
    | Some correlation =>
      let l := {| leg_pm := pm; leg_correlation := correlation;
                  leg_domain := first_piece (event_aggregate event) "::" |} in
      let record := saga_record pm (event_name event) correlation in
      do! held <- ask_cascade sagas in
      match held !! leg_key l with
      | None =>
        log_saga (record [("advanced", JBool false);
                          reason ("no conversation remembers " ++ debug_str correlation)])
      | Some i =>
        match select_leg pm (event_name event) (saga_state i) with
        | None =>
          log_saga (record [("advanced", JBool false); reason (leg_mismatch pm (event_name event) (saga_state i))])
        | Some handler =>
          change (with_sagas (alter (move_to (to_state handler)) (leg_key l))) ;;;
          log_saga (record (advanced_record handler)) ;;;
          do! refused <- deliver_all run l event (memory i) depth (dispatches handler) in
          if refused then compensate turns run l event (memory i) depth else done_with tt
        end
      end
    end.
Definition advance_saga (turns : nat) (run : Run) (event : Event) (depth : nat) : Cas unit :=
  each (process_managers tables) (advance_one turns run event depth).

(** ** [Cascade::run] *)
Definition stamp_event (stamp : option (gmap str str)) (event : Event) : Event :=
  let correlation' := match stamp with
    | Some s => Some (s ∪ default ∅ (correlation event))
    | None => correlation event
    end in
  let occurred := match occurred_at with Some ts => Some ts | None => Dispatch.occurred_at event end in
  {| event_name := event_name event; event_aggregate := event_aggregate event; event_id := event_id event;
     event_payload := event_payload event; Dispatch.occurred_at := occurred; correlation := correlation' |}.

Definition dispatch_stored (verb : str) (args : Json) (role actor : option str) : Cas (res (list Event)) :=
  λ c,
    let (r, sm) := dispatch_fn verb args role actor (store c, mutation_log c) in
    Some (r, {| store := sm.1; host := host c; sagas := sagas c; all_events := all_events c;
                mutation_log := sm.2; cross_domain := cross_domain c; reaction_log := reaction_log c;
                saga_log := saga_log c |}).
Definition enrich_args (verb : str) (args : Json) : Cas Json :=
  λ c,
    let (enriched, h) := enrich facts verb args occurred_at (host c) in
    Some (default args enriched,
          {| store := store c; host := h; sagas := sagas c; all_events := all_events c;
             mutation_log := mutation_log c; cross_domain := cross_domain c;
             reaction_log := reaction_log c; saga_log := saga_log c |}).

Definition react (turns : nat) (run : Run) (depth : nat) (event : Event) : Cas unit :=
  react_policies run event depth ;;;
  begin_saga event ;;;
  advance_saga turns run event depth ;;;
  end_saga event.

Definition run_body (turns : nat) (run : Run) (verb : str) (args : Json) (role actor : option str)
    (stamp : option (gmap str str)) (depth : nat) : Cas (res unit) :=
  do! args <- enrich_args verb args in
  do! outcome <- dispatch_stored verb args role actor in
  match outcome with
  | Err refusal => done_with (Err refusal)
  | Ok events =>
    let events := map (stamp_event stamp) events in
    log_events events ;;;
    each events (react turns run depth) ;;;
    done_with (Ok tt)
  end.

Fixpoint reaction_run (turns : nat) : Run :=
  match turns with
  | O => λ _ _ _ _, out_of_turns
  | Datatypes.S turns =>
    λ verb args stamp depth, run_body turns (reaction_run turns) verb args None None stamp depth
  end.

(** [orchestrate]. *)
Definition orchestrate (turns : nat) (verb : str) (args : Json) (role actor : option str)
    (stamp : option (gmap str str)) (depth : nat) : Cas (res unit) :=
  run_body turns (reaction_run turns) verb args role actor stamp depth.
End orchestrate.
