(* ===== verification/OrchestrateFacts.v ===== *)
(** What a cascade keeps ([src/rust/src/kernel/orchestrate.rs]): every relation
    its elementary steps respect holds across a whole orchestration, from
    which its logs only grow and its sagas only move along declared legs; what
    a refusal leaves; what the depth ceiling stops. *)
From stdpp Require Import gmap relations.
From S2P Require Export DispatchFacts Needs.
From S2P Require Export Orchestrate.

(** ** Steps that keep a relation *)
Section keeps.
Context {St S : Type}.
Variable R : relation (Cascade St S).

Definition keeps {A} (m : Step A) : Prop := ∀ c a c', m c = Some (a, c') → R c c'.

Context `{PO : !PreOrder R}.

Lemma keeps_done {A} (a : A) : keeps (done_with a).
Proof using PO. by intros c b c' [= <- <-]. Qed.
Lemma keeps_ask {A} (f : Cascade St S → A) : keeps (ask_cascade f).
Proof using PO. by intros c b c' [= <- <-]. Qed.
Lemma keeps_out_of_turns {A} : keeps (@out_of_turns St S A).
Proof using Type. by intros c b c' [=]. Qed.
Lemma keeps_change (f : Cascade St S → Cascade St S) : (∀ c, R c (f c)) → keeps (change f).
Proof using Type. by intros Hf c b c' [= <- <-]. Qed.
Lemma keeps_andThen {A B} (m : Step A) (k : A → Step B) :
  keeps m → (∀ a, keeps (k a)) → keeps (andThen m k).
Proof using PO.
  unfold andThen. intros Hm Hk c b c'. destruct (m c) as [[a c1]|] eqn:E; [|done]. simpl. intros Hr.
  by etrans; [apply (Hm _ _ _ E)|apply (Hk _ _ _ _ Hr)].
Qed.
(** What was read is what the cascade holds when the rest begins. *)
Lemma keeps_ask_then {A B} (f : Cascade St S → A) (k : A → Step B) :
  (∀ c b c', k (f c) c = Some (b, c') → R c c') → keeps (andThen (ask_cascade f) k).
Proof using Type. intros Hk c b c'. apply Hk. Qed.
Lemma keeps_each {A} (l : list A) (body : A → Step unit) :
  (∀ a, a ∈ l → keeps (body a)) → keeps (each l body).
Proof using PO.
  induction l as [|a l IH]; intros Hb; [apply keeps_done|].
  apply keeps_andThen; [apply Hb, list_elem_of_here|].
  intros []. apply IH. intros a' Ha. by apply Hb, list_elem_of_further.
Qed.
End keeps.

(** ** What a saga's moves are logged as *)
Definition logged {St S : Type} (j : Json) (c : Cascade St S) : Cascade St S := {|
  store := store c; host := host c; sagas := sagas c; all_events := all_events c;
  mutation_log := mutation_log c; cross_domain := cross_domain c; reaction_log := reaction_log c;
  saga_log := saga_log c ++ [j] |}.
Definition born_entry (pm : ProcessManagerDef) (event : Event) (correlation : str) : Json :=
  JObject [("process_manager", JStr (pm_name pm)); ("on", JStr (event_name event));
           ("instance", JStr correlation); ("born", JBool true); ("state", JStr (initial_state pm))].
Definition moved_entry (pm : ProcessManagerDef) (correlation : str) (h : Handler) : Json :=
  saga_record pm (event_type h) correlation (advanced_record h).
Definition ended_entry (pm : ProcessManagerDef) (event : Event) (correlation : str) : Json :=
  JObject [("process_manager", JStr (pm_name pm)); ("on", JStr (event_name event));
           ("instance", JStr correlation); ("ended", JBool true)].

(** Whether an entry tells of a move at all, and of whose. *)
Definition flag (key : str) (entry : Json) : bool :=
  match get entry key with Some (JBool b) => b | _ => false end.
Definition told_of (key value : str) (entry : Json) : bool :=
  match get entry key with Some (JStr s) => str_eqb s value | _ => false end.
Definition moves (entry : Json) : bool := flag "born" entry || flag "advanced" entry || flag "ended" entry.
Definition moves_of (name correlation : str) (entry : Json) : bool :=
  moves entry && told_of "process_manager" name entry && told_of "instance" correlation entry.

(** ** The elementary steps of a cascade *)
Section respects.
Context `{U : UnicodeTables} `{X : RegexCrate}.
Context {St S : Type} `{SS : AggregateScan St} `{HF : HostFacts S}.
Variable tables : Tables.
Variable facts : Facts.
Variable ts : option str.
Variable dispatch_fn : str → Json → option str → option str → M (St * list MutationRecord) (list Event).
(** How many events there were when the orchestration began. *)
Variable base : nat.

(** An event emitted since. *)
Definition emitted_in (event : Event) (c : Cascade St S) : Prop := event ∈ drop base (all_events c).
(** What sets a leg off: a refusal, or an emitted event that correlates. *)
Definition sets_off (pm : ProcessManagerDef) (h : Handler) (correlation : str) (c : Cascade St S) : Prop :=
  event_type h = REFUSED ∨
  ∃ event, emitted_in event c ∧ event_name event = event_type h ∧
    correlation_of pm event (reference_key_fn tables) = Some correlation.

Record Respects (R : relation (Cascade St S)) := {
  respects_preorder : PreOrder R;
  respects_log_saga : ∀ j, moves j = false → keeps R (log_saga j);
  respects_log_reaction : ∀ j, keeps R (log_reaction j);
  respects_log_events : ∀ evs, keeps R (log_events evs);
  respects_pend : ∀ p, keeps R (pend p);
  respects_enrich : ∀ verb args, keeps R (enrich_args facts ts verb args);
  respects_dispatch : ∀ verb args role actor, keeps R (dispatch_stored dispatch_fn verb args role actor);
  respects_birth : ∀ c pm event correlation, pm ∈ process_managers tables →
    emitted_in event c → event_name event = starts_on pm →
    correlation_of pm event (reference_key_fn tables) = Some correlation →
    sagas c !! (pm_name pm, correlation) = None →
    R c (logged (born_entry pm event correlation) (with_sagas (<[(pm_name pm, correlation) :=
      {| saga_state := initial_state pm; memory := event_payload event; completed_compensations := [] |}]>) c));
  respects_death : ∀ c pm event correlation i, pm ∈ process_managers tables →
    emitted_in event c → event_name event = ends_on pm →
    correlation_of pm event (reference_key_fn tables) = Some correlation →
    sagas c !! (pm_name pm, correlation) = Some i →
    R c (logged (ended_entry pm event correlation) (with_sagas (delete (pm_name pm, correlation)) c));
  respects_move : ∀ c l i h, leg_pm l ∈ process_managers tables →
    sagas c !! leg_key l = Some i → select_leg (leg_pm l) (event_type h) (saga_state i) = Some h →
    sets_off (leg_pm l) h (leg_correlation l) c →
    R c (logged (moved_entry (leg_pm l) (leg_correlation l) h)
           (with_sagas (alter (move_to (to_state h)) (leg_key l)) c));
  respects_push : ∀ c l e, R c (with_sagas (alter (push_compensation e) (leg_key l)) c);
  respects_pop : ∀ c l, R c (with_sagas (alter pop_compensation (leg_key l)) c)
}.

Variable R : relation (Cascade St S).
Hypothesis HR : Respects R.
#[local] Instance: PreOrder R := respects_preorder _ HR.

(** The relation from a cascade these events were emitted in on; the events
    there were stay. *)
Definition live (E : list Event) (c : Cascade St S) : Prop :=
  (base <= length (all_events c))%nat ∧ ∀ event, event ∈ E → emitted_in event c.
Definition from_live (E : list Event) (c c' : Cascade St S) : Prop :=
  live E c → R c c' ∧ all_events c `prefix_of` all_events c'.
Lemma live_on E c c' : live E c → all_events c `prefix_of` all_events c' → live E c'.
Proof using Type.
  intros [Hb HE] [more Hp]. split; [rewrite Hp, length_app; lia|].
  intros event He. unfold emitted_in. rewrite Hp, drop_app_le by lia.
  apply elem_of_app. left. by apply HE.
Qed.
#[local] Instance from_live_preorder E : PreOrder (from_live E).
Proof using HR.
  split; [intros c _; by split|].
  intros a b c Hab Hbc Ha. destruct (Hab Ha) as [Rab Pab], (Hbc (live_on _ _ _ Ha Pab)) as [Rbc Pbc].
  split; by etrans.
Qed.
Lemma keeps_any {A} E (m : Step A) : keeps (from_live []) m → keeps (from_live E) m.
Proof using Type. intros Hm c a c' Hr [Hb _]. apply (Hm _ _ _ Hr). split; [done|]. by intros e ?%elem_of_nil. Qed.
Lemma keeps_still {A} E (m : Step A) :
  keeps R m → (∀ c a c', m c = Some (a, c') → all_events c `prefix_of` all_events c') → keeps (from_live E) m.
Proof using Type. intros Hm He c a c' Hr _. eauto. Qed.

Lemma live_log_saga E j : moves j = false → keeps (from_live E) (log_saga j).
Proof using HR. intros Hj. apply keeps_still; [by apply respects_log_saga|]. by intros c a c' [= <- <-]. Qed.
Lemma live_log_reaction E j : keeps (from_live E) (log_reaction j).
Proof using HR. apply keeps_still; [by apply respects_log_reaction|]. by intros c a c' [= <- <-]. Qed.
Lemma live_pend E p : keeps (from_live E) (pend p).
Proof using HR. apply keeps_still; [by apply respects_pend|]. by intros c a c' [= <- <-]. Qed.
Lemma live_enrich E verb args : keeps (from_live E) (enrich_args facts ts verb args).
Proof using HR.
  apply keeps_still; [by apply respects_enrich|]. intros c a c'. unfold enrich_args.
  destruct (enrich _ _ _ _ _). by intros [= <- <-].
Qed.
Lemma live_dispatch E verb args role actor : keeps (from_live E) (dispatch_stored dispatch_fn verb args role actor).
Proof using HR.
  apply keeps_still; [by apply respects_dispatch|]. intros c a c'. unfold dispatch_stored.
  destruct (dispatch_fn _ _ _ _ _). by intros [= <- <-].
Qed.
Lemma live_push E c l e : from_live E c (with_sagas (alter (push_compensation e) (leg_key l)) c).
Proof using HR. intros _. split; [by apply respects_push|done]. Qed.
Lemma live_pop E c l : from_live E c (with_sagas (alter pop_compensation (leg_key l)) c).
Proof using HR. intros _. split; [by apply respects_pop|done]. Qed.

Ltac keep :=
  repeat first
    [ done | apply (from_live_preorder _)
    | apply keeps_done | apply keeps_ask | apply keeps_out_of_turns
    | apply live_log_saga; reflexivity | apply live_log_reaction
    | apply live_pend | apply live_enrich | apply live_dispatch
    | apply keeps_change; intros; first [apply live_push | apply live_pop]
    | apply keeps_andThen; [apply _| |intros ?]
    | apply keeps_each; [apply _|intros ? ?]
    | match goal with
      | |- keeps _ (log_saga (match ?x with _ => _ end)) => destruct x
      | |- keeps _ (match ?x with _ => _ end) => destruct x
      | |- keeps _ (if ?x then _ else _) => destruct x
      | |- keeps _ (let '(_, _) := ?x in _) => destruct x
      end
    | progress cbn beta iota zeta ].

(** A move and its entry, made right after the cascade was read. *)
Lemma keeps_move_then {B : Type} (E : list Event) (f : gmap SagaKey SagaInstance → gmap SagaKey SagaInstance)
    (j : Json) (k : Step B) (c : Cascade St S) (b : B) c' :
  (live E c → R c (logged j (with_sagas f c))) → keeps (from_live E) k →
  (change (with_sagas f) ;;; log_saga j ;;; k) c = Some (b, c') → from_live E c c'.
Proof using HR.
  intros Hf Hk Hr Hl. destruct (Hk (logged j (with_sagas f c)) b c' Hr) as [HRk Hp].
  { by apply (live_on _ c). }
  split; [by etrans; [apply Hf|]|exact Hp].
Qed.
Lemma keeps_move {E : list Event} (f : gmap SagaKey SagaInstance → gmap SagaKey SagaInstance) (j : Json)
    (c : Cascade St S) b c' :
  (live E c → R c (logged j (with_sagas f c))) →
  (change (with_sagas f) ;;; log_saga j) c = Some (b, c') → from_live E c c'.
Proof using Type. intros Hf [= <- <-] Hl. split; [by apply Hf|by exists []; rewrite app_nil_r]. Qed.

#[local] Abbreviation Run := (str → Json → option (gmap str str) → nat → Step (St := St) (S := S) (res unit)).
Definition keeps_run (run : Run) : Prop := ∀ verb args stamp depth, keeps (from_live []) (run verb args stamp depth).

Section reactions.
Variable run : Run.
Hypothesis Hrun : keeps_run run.
Lemma live_run E verb args stamp depth : keeps (from_live E) (run verb args stamp depth).
Proof using Hrun. apply keeps_any, Hrun. Qed.

Lemma keeps_react_policies E event depth : keeps (from_live E) (react_policies tables run event depth).
Proof using HR Hrun.
  unfold react_policies, react_policy, pend_cross_domain, log_outcome.
  keep; apply live_run.
Qed.

Lemma keeps_begin_saga event : keeps (from_live [event]) (begin_saga tables event).
Proof using HR.
  apply keeps_each; first apply _. intros pm Hpm. unfold begin_one.
  destruct (str_eqb (event_name event) (starts_on pm)) eqn:Es; simpl; [|keep].
  destruct (correlation_of _ _ _) as [corr|] eqn:Ec; [|keep].
  apply keeps_ask_then. intros c b c'.
  destruct (sagas c !! _) eqn:E; [by intros [= <- <-]|].
  apply keeps_move. intros [_ He]. apply (respects_birth _ HR); try done; [|exact (bool_decide_eq_true_1 _ Es)].
  apply He, list_elem_of_here.
Qed.

Lemma keeps_end_saga event : keeps (from_live [event]) (end_saga tables event).
Proof using HR.
  apply keeps_each; first apply _. intros pm Hpm. unfold end_one.
  destruct (str_eqb (event_name event) (ends_on pm)) eqn:Es; simpl; [|keep].
  destruct (correlation_of _ _ _) as [corr|] eqn:Ec; [|keep].
  apply keeps_ask_then. intros c b c'.
  destruct (sagas c !! _) as [i|] eqn:E; [|by intros [= <- <-]].
  apply keeps_move. intros [_ He]. apply (respects_death _ HR _ _ _ _ i); try done; [|exact (bool_decide_eq_true_1 _ Es)].
  apply He, list_elem_of_here.
Qed.

Lemma keeps_deliver E l spec args depth rargs : keeps (from_live E) (deliver_saga_dispatch run l spec args depth rargs).
Proof using HR Hrun. unfold deliver_saga_dispatch. keep; apply live_run. Qed.

Lemma keeps_derived E l entry depth : keeps (from_live E) (deliver_derived_compensation run l entry depth).
Proof using HR Hrun. unfold deliver_derived_compensation. keep; apply live_run. Qed.

Lemma keeps_drain E turns l depth : keeps (from_live E) (drain turns run l depth).
Proof using HR Hrun.
  induction turns as [|turns IH]; simpl; keep; apply keeps_derived.
Qed.

Lemma keeps_deliver_all E l event mem depth specs : keeps (from_live E) (deliver_all tables run l event mem depth specs).
Proof using HR Hrun.
  induction specs as [|spec specs IH]; simpl; keep; apply keeps_deliver.
Qed.

Lemma select_leg_on pm on state h : select_leg pm on state = Some h → event_type h = on.
Proof using Type.
  unfold select_leg. intros Hf. apply List.find_some in Hf as [_ Hb].
  by apply andb_true_iff in Hb as [?%bool_decide_eq_true _].
Qed.

Lemma keeps_compensate E turns l event mem depth :
  leg_pm l ∈ process_managers tables → keeps (from_live E) (compensate tables turns run l event mem depth).
Proof using HR Hrun.
  intros Hpm. unfold compensate. apply keeps_ask_then. intros c b c'.
  destruct (sagas c !! _) as [i|] eqn:Ei; [|by intros [= <- <-]].
  destruct (existsb _ _); simpl; [|by intros [= <- <-]].
  destruct (select_leg _ _ _) as [h|] eqn:Eh; [|by apply live_log_saga].
  pose proof (select_leg_on _ _ _ _ Eh) as Hon. rewrite <- Hon.
  apply keeps_move_then; [|keep; first [apply keeps_drain|apply keeps_deliver_all]].
  intros _. apply (respects_move _ HR _ _ i); try done; [by rewrite Hon|by left].
Qed.

Lemma keeps_advance_saga turns event depth : keeps (from_live [event]) (advance_saga tables turns run event depth).
Proof using HR Hrun.
  apply keeps_each; first apply _. intros pm Hpm. unfold advance_one.
  destruct (existsb _ _); simpl; [|keep].
  destruct (correlation_of _ _ _) as [corr|] eqn:Ec; [|keep].
  apply keeps_ask_then. intros c b c'.
  destruct (sagas c !! _) as [i|] eqn:E; [|by apply live_log_saga].
  destruct (select_leg _ _ _) as [h|] eqn:Eh; [|by apply live_log_saga].
  pose proof (select_leg_on _ _ _ _ Eh) as Hon. rewrite <- Hon.
  apply keeps_move_then.
  - intros [_ He]. apply (respects_move _ HR _ {| leg_pm := pm; leg_correlation := corr;
      leg_domain := first_piece (event_aggregate event) "::" |} i); try done; [by rewrite Hon|].
    right. exists event. split; [apply He, list_elem_of_here|done].
  - apply keeps_andThen; [apply _|apply keeps_deliver_all|intros []; [by apply keeps_compensate|keep]].
Qed.

Lemma keeps_react turns depth event : keeps (from_live [event]) (react tables turns run depth event).
Proof using HR Hrun.
  unfold react.
  apply keeps_andThen; [apply _|apply keeps_react_policies|intros _].
  apply keeps_andThen; [apply _|apply keeps_begin_saga|intros _].
  apply keeps_andThen; [apply _|apply keeps_advance_saga|intros _; apply keeps_end_saga].
Qed.

(** Once its events are in the log, the reactions to them may count on them. *)
Lemma keeps_emit {B} (evs : list Event) (k : Step B) :
  keeps (from_live evs) k → keeps (from_live []) (log_events evs ;;; k).
Proof using HR.
  intros Hk c b c' Hr [Hb _].
  assert (∃ c1, log_events evs c = Some (tt, c1) ∧ k c1 = Some (b, c') ∧ all_events c1 = all_events c ++ evs)
    as (c1 & H1 & H2 & H3) by (eexists; split_and!; [reflexivity|exact Hr|done]).
  destruct (Hk _ _ _ H2) as [HRk Hp].
  - split; [rewrite H3, length_app; lia|]. intros event He. unfold emitted_in.
    rewrite H3, drop_app_le by lia. apply elem_of_app. by right.
  - split; [etrans; [by apply (respects_log_events _ HR _ _ _ _ H1)|done]|].
    etrans; [|exact Hp]. rewrite H3. by apply prefix_app_r.
Qed.
Lemma keeps_each_live (evs : list Event) (body : Event → Step unit) :
  (∀ event, keeps (from_live [event]) (body event)) → keeps (from_live evs) (each evs body).
Proof using HR.
  intros Hb. apply keeps_each; [apply _|]. intros event He c b c' Hr [Hl HE].
  apply (Hb _ _ _ _ Hr). split; [done|]. intros e ->%list_elem_of_singleton. by apply HE.
Qed.

Lemma keeps_run_body turns verb args role actor stamp depth :
  keeps (from_live []) (run_body tables facts ts dispatch_fn turns run verb args role actor stamp depth).
Proof using HR Hrun.
  unfold run_body.
  apply keeps_andThen; [apply _|keep|intros args'].
  apply keeps_andThen; [apply _|keep|intros [events|refusal]; [|keep]].
  apply keeps_emit. apply keeps_andThen; [apply _| |intros _; keep].
  apply keeps_each_live. intros event. apply keeps_react.
Qed.
End reactions.

Lemma keeps_reaction_run turns : keeps_run (reaction_run tables facts ts dispatch_fn turns).
Proof using HR.
  induction turns as [|turns IH]; intros verb args stamp depth; [apply keeps_out_of_turns|].
  by apply keeps_run_body.
Qed.

Lemma orchestrate_from turns verb args role actor stamp depth c r c' :
  orchestrate tables facts ts dispatch_fn turns verb args role actor stamp depth c = Some (r, c') →
  (base <= length (all_events c))%nat → R c c' ∧ all_events c `prefix_of` all_events c'.
Proof using HR.
  intros Hr Hb. refine (keeps_run_body _ (keeps_reaction_run turns) _ _ _ _ _ _ _ _ _ _ Hr _).
  split; [done|]. by intros e ?%elem_of_nil.
Qed.
End respects.

(** A relation its steps respect, whatever was emitted. *)
Lemma orchestrate_keeps `{U : UnicodeTables} `{X : RegexCrate} {St S} `{SS : AggregateScan St} `{HF : HostFacts S}
    tables facts ts dispatch_fn (R : relation (Cascade St S)) :
  Respects (HF := HF) tables facts ts dispatch_fn 0 R →
  ∀ turns verb args role actor stamp depth,
  keeps R (orchestrate tables facts ts dispatch_fn turns verb args role actor stamp depth).
Proof. intros HR * c r c' Hr. exact (proj1 (orchestrate_from _ _ _ _ _ _ HR _ _ _ _ _ _ _ _ _ _ Hr (Nat.le_0_l _))). Qed.

(** ** The logs *)
Section logs.
Context `{U : UnicodeTables} `{X : RegexCrate}.
Context {St S : Type} `{SS : AggregateScan St} `{HF : HostFacts S}.

Definition logs_prefix (c c' : Cascade St S) : Prop :=
  all_events c `prefix_of` all_events c' ∧ mutation_log c `prefix_of` mutation_log c' ∧
  cross_domain c `prefix_of` cross_domain c' ∧ reaction_log c `prefix_of` reaction_log c' ∧
  saga_log c `prefix_of` saga_log c'.
#[local] Instance logs_prefix_preorder : PreOrder logs_prefix.
Proof.
  split; [intros c; by repeat split|].
  intros a b c (?&?&?&?&?) (?&?&?&?&?). by repeat split; etrans.
Qed.

Definition logs_its_mutations
    (dispatch_fn : str → Json → option str → option str → M (St * list MutationRecord) (list Event)) : Prop :=
  ∀ verb args role actor s log, log `prefix_of` (dispatch_fn verb args role actor (s, log)).2.2.

Lemma respects_logs tables facts ts dispatch_fn :
  logs_its_mutations dispatch_fn → Respects (HF := HF) tables facts ts dispatch_fn 0 logs_prefix.
Proof.
  intros Hm. split; try apply _; intros; try (intros c0 a c1 [= <- <-]);
    try (repeat split; simpl; first [done|by apply prefix_app_r]).
  - intros c a c'. unfold enrich_args. destruct (enrich _ _ _ _ _) as [? ?]. by intros [= <- <-].
  - intros c a c'. unfold dispatch_stored. pose proof (Hm verb args role actor (store c) (mutation_log c)) as Hp.
    destruct (dispatch_fn _ _ _ _ _) as [r [st log]]. intros [= <- <-]. by repeat split.
Qed.

(** A cascade's records are append-only.  However deep the reactions of an
    orchestration go, whatever they dispatch, compensate or refuse, the events,
    cross-domain reactions, reaction log and saga log it started with are still
    there, in order, before anything it added; and so is the mutation log, where
    the router only appends to it. *)
Theorem logs_only_grow tables facts ts dispatch_fn turns verb args role actor stamp depth c r c' :
  logs_its_mutations dispatch_fn →
  orchestrate (HF := HF) tables facts ts dispatch_fn turns verb args role actor stamp depth c = Some (r, c') →
  logs_prefix c c'.
Proof. intros Hm. apply orchestrate_keeps. by apply respects_logs. Qed.
End logs.

(** ** The declared state machines *)
(** What a conversation holds, as its process manager's declaration reads it:
    not begun, or in a state with what it remembers. *)
Abbreviation Conversation := (option (str * Json)).
Definition conversation (i : SagaInstance) : str * Json := (saga_state i, memory i).

(** A log accounts for a conversation: read entry by entry, over the events
    emitted meanwhile, every entry that tells of a move of it is a move its
    process manager declares from where it then was. *)
Section account.
Context `{U : UnicodeTables}.
Variable tables : Tables.
Variable emitted : list Event.
Variables name correlation : str.

Definition correlates (pm : ProcessManagerDef) (event : Event) : Prop :=
  event ∈ emitted ∧ correlation_of pm event (reference_key_fn tables) = Some correlation.

Inductive accounted : Conversation → list Json → Conversation → Prop :=
| accounted_done held : accounted held [] held
| accounted_other held entry entries held' :
    moves_of name correlation entry = false →
    accounted held entries held' → accounted held (entry :: entries) held'
| accounted_birth pm event entries held' :
    pm ∈ process_managers tables → pm_name pm = name →
    event_name event = starts_on pm → correlates pm event →
    accounted (Some (initial_state pm, event_payload event)) entries held' →
    accounted None (born_entry pm event correlation :: entries) held'
| accounted_leg pm h remembered entries held' :
    pm ∈ process_managers tables → pm_name pm = name → h ∈ handlers pm →
    event_type h = REFUSED ∨ (∃ event, event_name event = event_type h ∧ correlates pm event) →
    accounted (Some (to_state h, remembered)) entries held' →
    accounted (Some (from_state h, remembered)) (moved_entry pm correlation h :: entries) held'
| accounted_death pm event state remembered entries held' :
    pm ∈ process_managers tables → pm_name pm = name →
    event_name event = ends_on pm → correlates pm event →
    accounted None entries held' →
    accounted (Some (state, remembered)) (ended_entry pm event correlation :: entries) held'.

Lemma accounted_app held entries held1 entries' held' :
  accounted held entries held1 → accounted held1 entries' held' → accounted held (entries ++ entries') held'.
Proof. induction 1; intros Ha; cbn [app]; eauto using accounted. Qed.
End account.

Lemma accounted_more `{U : UnicodeTables} tables emitted emitted' name correlation held entries held' :
  (∀ event, event ∈ emitted → event ∈ emitted') →
  accounted tables emitted name correlation held entries held' →
  accounted tables emitted' name correlation held entries held'.
Proof.
  intros He. assert (∀ pm event, correlates tables emitted correlation pm event →
    correlates tables emitted' correlation pm event) as Hc by (intros pm event []; split; auto).
  induction 1 as [| | |pm h remembered entries held' ? ? ? Hset|]; eauto using accounted.
  apply accounted_leg; try done. destruct Hset as [|(event&?&?)]; eauto.
Qed.

Lemma select_leg_sound pm event state h :
  select_leg pm event state = Some h →
  h ∈ handlers pm ∧ event_type h = event ∧ from_state h = state.
Proof.
  unfold select_leg. intros Hf. apply List.find_some in Hf as [Hin Hb].
  apply andb_true_iff in Hb as [?%bool_decide_eq_true ?%bool_decide_eq_true]. by rewrite list_elem_of_In.
Qed.

Section machines.
Context `{U : UnicodeTables} `{X : RegexCrate}.
Context {St S : Type} `{SS : AggregateScan St} `{HF : HostFacts S}.
Variable tables : Tables.

Definition held_of (c : Cascade St S) (name correlation : str) : Conversation :=
  conversation <$> sagas c !! (name, correlation).
(** The entries the saga log gained account for every conversation, over the
    events after the first [base]. *)
Definition conversations_follow (base : nat) (c c' : Cascade St S) : Prop :=
  all_events c `prefix_of` all_events c' ∧
  ∃ entries, saga_log c' = saga_log c ++ entries ∧
  ∀ name correlation,
    accounted tables (drop base (all_events c')) name correlation
      (held_of c name correlation) entries (held_of c' name correlation).
Lemma emitted_on base (c c' : Cascade St S) event :
  all_events c `prefix_of` all_events c' → emitted_in base event c → emitted_in base event c'.
Proof. intros [more Hp]. unfold emitted_in. rewrite Hp, skipn_app. intros He. apply elem_of_app. by left. Qed.
#[local] Instance conversations_follow_preorder base : PreOrder (conversations_follow base).
Proof.
  split.
  - intros c. split; [done|]. exists []. rewrite app_nil_r. split; [done|]. intros. apply accounted_done.
  - intros a b c [Pab (e1 & H1 & A1)] [Pbc (e2 & H2 & A2)]. split; [by etrans|].
    exists (e1 ++ e2). split; [by rewrite H2, H1, app_assoc|]. intros name corr.
    eapply accounted_app, A2. eapply accounted_more, A1. intros event. by apply (emitted_on base).
Qed.

(** A step that logs no move and moves nothing. *)
Lemma follow_quiet base c c' entries :
  all_events c `prefix_of` all_events c' → saga_log c' = saga_log c ++ entries → Forall (λ j, moves j = false) entries →
  (∀ name correlation, held_of c' name correlation = held_of c name correlation) → conversations_follow base c c'.
Proof.
  intros Hp Hs Hq Hh. split; [done|]. exists entries. split; [done|]. intros name corr. rewrite Hh. clear Hs.
  induction Hq as [|j entries Hj _ IH]; [apply accounted_done|]. apply accounted_other; [|done].
  unfold moves_of. by rewrite Hj.
Qed.
Lemma follow_same base c c' :
  sagas c' = sagas c → saga_log c' = saga_log c → all_events c `prefix_of` all_events c' → conversations_follow base c c'.
Proof.
  intros Hs Hl Hp. apply (follow_quiet base c c' []); [done|by rewrite app_nil_r|done|].
  intros. unfold held_of. by rewrite Hs.
Qed.

(** An instance altered without touching its conversation. *)
Lemma follow_alter base c f k :
  (∀ i, conversation (f i) = conversation i) → conversations_follow base c (with_sagas (alter f k) c).
Proof.
  intros Hf. apply (follow_quiet base _ _ []); [done|by rewrite app_nil_r|done|].
  intros name corr. unfold held_of. simpl. rewrite lookup_alter.
  destruct (decide _) as [->|]; [|done]. destruct (sagas c !! _) as [i|]; [|done].
  change (Some (conversation (f i)) = Some (conversation i)). by rewrite Hf.
Qed.

(** A move and its entry: the move of the one conversation, silence on every other. *)
Lemma follow_move base c f pm corr entry :
  told_of "process_manager" (pm_name pm) entry = true → told_of "instance" corr entry = true →
  (∀ key, key ≠ (pm_name pm, corr) → f (sagas c) !! key = sagas c !! key) →
  accounted tables (drop base (all_events c)) (pm_name pm) corr (held_of c (pm_name pm) corr) [entry]
    (conversation <$> f (sagas c) !! (pm_name pm, corr)) →
  conversations_follow base c (logged entry (with_sagas f c)).
Proof.
  intros Hn Hi Hf Ha. split; [done|]. exists [entry]. split; [done|]. intros name corr'.
  destruct (decide ((name, corr') = (pm_name pm, corr))) as [[= -> ->]|Hne]; [exact Ha|].
  unfold held_of. cbn [sagas logged with_sagas]. rewrite (Hf _ Hne). apply accounted_other; [|apply accounted_done].
  revert Hn Hi. unfold moves_of, told_of. destruct (get entry "process_manager") as [[]|]; try done.
  destruct (get entry "instance") as [[]|]; try done.
  intros En%bool_decide_eq_true_1 Ei%bool_decide_eq_true_1.
  destruct (str_eqb s name) eqn:E1; [|by rewrite andb_false_r].
  destruct (str_eqb s0 corr') eqn:E2; [|by rewrite andb_false_r].
  apply bool_decide_eq_true_1 in E1. apply bool_decide_eq_true_1 in E2. congruence.
Qed.

Lemma respects_machines facts ts dispatch_fn base :
  Respects (HF := HF) tables facts ts dispatch_fn base (conversations_follow base).
Proof.
  split; try apply _; intros; try (by apply follow_alter);
    try (by intros c0 a c1 [= <- <-]; apply follow_same; [..|try (by apply prefix_app_r)]).
  - intros c a c' [= <- <-]. apply (follow_quiet base _ _ [j]); try done. by constructor.
  - intros c a c'. unfold enrich_args. destruct (enrich _ _ _ _ _). intros [= <- <-]. by apply follow_same.
  - intros c a c'. unfold dispatch_stored. destruct (dispatch_fn _ _ _ _ _). intros [= <- <-]. by apply follow_same.
  - apply (follow_move base c _ pm correlation); [apply bool_decide_eq_true; done..| |].
    + intros key Hk. by rewrite lookup_insert_ne.
    + rewrite lookup_insert_eq. unfold held_of. rewrite H3. by eapply accounted_birth; [..|apply accounted_done].
  - apply (follow_move base c _ pm correlation); [apply bool_decide_eq_true; done..| |].
    + intros key Hk. by rewrite lookup_delete_ne.
    + rewrite lookup_delete_eq. unfold held_of. rewrite H3. by eapply accounted_death; [..|apply accounted_done].
  - apply select_leg_sound in H1 as (Hin&_&Hfrom).
    apply (follow_move base c _ (leg_pm l) (leg_correlation l)); [apply bool_decide_eq_true; done..| |].
    + intros key Hk. by rewrite lookup_alter_ne.
    + change (pm_name (leg_pm l), leg_correlation l) with (leg_key l). rewrite lookup_alter_eq.
      unfold held_of. change (pm_name (leg_pm l), leg_correlation l) with (leg_key l). rewrite H0.
      unfold conversation, move_to. simpl. rewrite <- Hfrom.
      eapply accounted_leg; try done; [|apply accounted_done].
      destruct H2 as [|(event&?&?&?)]; [by left|right]. by exists event.
Qed.


(** ** The states a process manager declares *)
Definition declared_state (name state : str) : Prop :=
  ∃ pm, pm ∈ process_managers tables ∧ pm_name pm = name ∧
        (state = initial_state pm ∨ ∃ h, h ∈ handlers pm ∧ state = to_state h).
Definition declared_sagas (c : Cascade St S) : Prop :=
  ∀ name correlation i, sagas c !! (name, correlation) = Some i → declared_state name (saga_state i).

Lemma accounted_declared emitted name correlation held entries held' :
  accounted tables emitted name correlation held entries held' →
  (∀ s m, held = Some (s, m) → declared_state name s) → ∀ s m, held' = Some (s, m) → declared_state name s.
Proof.
  induction 1 as [held|held entry entries held' _ _ IH|pm event entries held' Hpm Hn _ _ _ IH
    |pm h remembered entries held' Hpm Hn Hh _ _ IH|pm event state remembered entries held' _ _ _ _ _ IH];
    intros Hd; [exact Hd|by apply IH|apply IH..].
  - intros s m [= <- <-]. exists pm. auto.
  - intros s m [= <- <-]. exists pm. eauto 6.
  - done.
Qed.

(** A conversation is always in a state its process manager declares.  If
    every instance held is in one, so is every instance after an orchestration:
    the initial state or the target of a declared leg. *)
Theorem declared_states_kept facts ts dispatch_fn turns verb args role actor stamp depth c r c' :
  declared_sagas c →
  orchestrate (HF := HF) tables facts ts dispatch_fn turns verb args role actor stamp depth c = Some (r, c') →
  declared_sagas c'.
Proof.
  intros Hc Hr. destruct (orchestrate_from _ _ _ _ _ _ (respects_machines facts ts dispatch_fn 0)
    _ _ _ _ _ _ _ _ _ _ Hr (Nat.le_0_l _)) as [[_ (entries & _ & Ha)] _].
  intros name corr i Hi. refine (accounted_declared _ _ _ _ _ _ (Ha name corr) _ _ (memory i) _).
  - unfold held_of. intros s m. destruct (sagas c !! _) as [j|] eqn:E; [|done]. intros [= <- <-]. by apply (Hc _ _ _ E).
  - unfold held_of. by rewrite Hi.
Qed.
End machines.

(** ** What a refusal leaves *)
Section refusals.
Context `{U : UnicodeTables} `{X : RegexCrate}.
Context {St S : Type} `{SS : AggregateScan St} `{HF : HostFacts S}.
Variable tables : Tables.
Variable facts : Facts.
Variable ts : option str.
Variable dispatch_fn : str → Json → option str → option str → M (St * list MutationRecord) (list Event).

(** Everything of a cascade but the store, its mutation log and the host. *)
Record same_reactions (c c' : Cascade St S) : Prop := {
  same_sagas : sagas c' = sagas c; same_events : all_events c' = all_events c;
  same_cross : cross_domain c' = cross_domain c; same_reaction_log : reaction_log c' = reaction_log c;
  same_saga_log : saga_log c' = saga_log c
}.

(** A refused command sets nothing in motion.  An orchestration whose own
    command is refused answers that refusal and leaves every conversation, the
    recorded events and all three logs as they were; the store and the mutation
    log are those the refusing dispatch left, given the arguments enriched with
    the facts the command needs. *)
Theorem refused_sets_nothing_in_motion turns verb args role actor stamp depth c e c' :
  orchestrate (HF := HF) tables facts ts dispatch_fn turns verb args role actor stamp depth c = Some (Err e, c') →
  same_reactions c c' ∧
  let (enriched, s) := enrich facts verb args ts (host c) in
  host c' = s ∧
  dispatch_fn verb (default args enriched) role actor (store c, mutation_log c) =
    (Err e, (store c', mutation_log c')).
Proof.
  unfold orchestrate, run_body, andThen, enrich_args, dispatch_stored.
  destruct (enrich _ _ _ _ _) as [enriched s] eqn:Ee. simpl.
  destruct (dispatch_fn _ _ _ _ _) as [[evs|r] [st log]] eqn:Ed; simpl.
  - destruct (each _ _ _) as [[[] c1]|]; simpl; [|done]. by intros [=].
  - intros [= <- <-]. simpl. split; [by split|done].
Qed.

Lemma reaction_run_refused turns verb args stamp depth c e c' :
  reaction_run (HF := HF) tables facts ts dispatch_fn turns verb args stamp depth c = Some (Err e, c') →
  sagas c' = sagas c.
Proof.
  destruct turns as [|turns]; [done|]. intros Hr.
  by apply refused_sets_nothing_in_motion in Hr as [Hs _]; apply same_sagas.
Qed.

Lemma alter_compose_id {K A} `{Countable K} (f g : A → A) (k : K) (m : gmap K A) :
  (∀ a, f (g a) = a) → alter f k (alter g k m) = m.
Proof.
  intros Hfg. apply map_eq. intros k'. rewrite lookup_alter. destruct (decide _) as [->|Hne].
  - rewrite lookup_alter_eq. destruct (m !! k'); simpl; [by rewrite Hfg|done].
  - by rewrite lookup_alter_ne.
Qed.

(** A leg that was refused earns no compensation.  The ledger entry a saga's
    dispatch records before it is tried is withdrawn when the dispatch is
    refused, and nothing else of any conversation has changed by then: the entry
    removed is the one that was added, because a refused dispatch triggers no
    reaction that could have pushed another. *)
Theorem refused_leg_earns_nothing turns l spec args depth rargs c c' :
  deliver_saga_dispatch (reaction_run (HF := HF) tables facts ts dispatch_fn turns) l spec args depth rargs c =
    Some (Some false, c') →
  sagas c' = sagas c.
Proof.
  unfold deliver_saga_dispatch, andThen, log_saga, change, done_with, ask_cascade.
  destruct (_ <=? _)%nat; simpl; [by intros [=]|].
  destruct (match spec_compensates spec with Some _ => _ | None => _ end) as [e|]; simpl;
    destruct (reaction_run _ _ _ _ _ _ _ _ _ _) as [[[[]|r] c1]|] eqn:Er; simpl; try done;
    intros [= <-]; apply reaction_run_refused in Er; simpl in *; [|done].
  rewrite Er. apply alter_compose_id. by intros [].
Qed.

(** ** The depth ceiling *)
Section ceiling.
Variables run run' : str → Json → option (gmap str str) → nat → Step (St := St) (S := S) (res unit).

Lemma andThen_ext {A B} (m m' : Step (St := St) (S := S) A) (k k' : A → Step B) c :
  m c = m' c → (∀ a c1, m' c = Some (a, c1) → k a c1 = k' a c1) → andThen m k c = andThen m' k' c.
Proof. unfold andThen. intros ->. destruct (m' c) as [[a c1]|]; simpl; [auto|done]. Qed.
Lemma each_ext {A} (l : list A) (b b' : A → Step (St := St) (S := S) unit) c :
  (∀ a c, a ∈ l → b a c = b' a c) → each l b c = each l b' c.
Proof.
  revert c. induction l as [|a l IH]; intros c Hb; [done|].
  apply andThen_ext; [apply Hb, list_elem_of_here|].
  intros [] c1 _. apply IH. intros a' c2 Ha. by apply Hb, list_elem_of_further.
Qed.

Variable depth : nat.
Hypothesis at_ceiling : (MAX_REACTION_DEPTH <= depth)%nat.
Hypothesis no_root : ∀ p, p ∈ policies tables → root p = false.

Lemma ceiling_policies event c :
  react_policies tables run event depth c = react_policies tables run' event depth c.
Proof using at_ceiling no_root.
  apply andThen_ext; [|done]. apply each_ext. intros p c1 Hp. unfold react_policy.
  destruct (fires _ _ _ _); cbn [negb]; [|done].
  by rewrite (proj2 (Nat.leb_le _ _) at_ceiling), (no_root _ Hp).
Qed.

Lemma ceiling_deliver (r : str → Json → option (gmap str str) → nat → Step (St := St) (S := S) (res unit))
    l spec args rargs c :
  deliver_saga_dispatch r l spec args depth rargs c =
    (log_saga (leg_record l (spec_command spec) [delivered false; reason depth_reached]) ;;; done_with None) c.
Proof using at_ceiling.
  unfold deliver_saga_dispatch. by rewrite (proj2 (Nat.leb_le _ _) at_ceiling).
Qed.

Lemma ceiling_deliver_all l event mem specs (c : Cascade St S) :
  ∃ c' : Cascade St S, ∀ r, deliver_all tables r l event mem depth specs c = Some (false, c').
Proof using at_ceiling.
  revert c. induction specs as [|spec specs IH]; intros c; [by exists c|].
  edestruct IH as [c' Hc']. exists c'. intros r. simpl. unfold andThen at 1. rewrite ceiling_deliver. simpl.
  unfold andThen. by rewrite Hc'.
Qed.

Lemma ceiling_advance turns turns' event c :
  advance_saga tables turns run event depth c = advance_saga tables turns' run' event depth c.
Proof using at_ceiling.
  apply each_ext. intros pm c1 _. unfold advance_one.
  destruct (existsb _ _); simpl; [|done]. destruct (correlation_of _ _ _); [|done].
  apply andThen_ext; [done|]. intros held c2 _. destruct (held !! _) as [i|]; [|done].
  destruct (select_leg _ _ _) as [h|]; [|done].
  apply andThen_ext; [done|]. intros [] c3 _. apply andThen_ext; [done|]. intros [] c4 _.
  edestruct ceiling_deliver_all as [c5 H5].
  apply andThen_ext; [by rewrite !H5|]. intros b c6. rewrite H5. by intros [= <- <-].
Qed.

(** At the depth ceiling nothing is dispatched.  Once a cascade is five
    reactions deep, reacting to an event does not depend on what a dispatch would
    do, nor on any budget of turns, unless a policy declares itself a root:
    policies and saga legs are logged as stopped, conversations still begin,
    advance and end. *)
Theorem ceiling_dispatches_nothing turns turns' event c :
  react tables turns run depth event c = react tables turns' run' depth event c.
Proof using at_ceiling no_root.
  unfold react. apply andThen_ext; [apply ceiling_policies|]. intros [] c1 _.
  apply andThen_ext; [done|]. intros [] c2 _.
  by apply andThen_ext; [apply ceiling_advance|].
Qed.
End ceiling.
End refusals.

(** ** A transfer for the witnesses *)
(** A store that remembers the verbs it carried out; deposits are refused. *)
Definition carried_out : AggregateScan (list str) := {| scan _ _ := None |}.
Definition announced (name : str) (payload : list (str * Json)) : Event := {|
  event_name := name; event_aggregate := "Bank::Transfer"; event_id := "t1";
  event_payload := JObject payload; Dispatch.occurred_at := None; correlation := None |}.
Definition transfer_router (verb : str) (args : Json) (role actor : option str)
  : M (list str * list MutationRecord) (list Event) := λ '(done, log),
  if str_eqb verb "Bank::Account.Deposit" then (Err (LifecycleRefused "closed"), (done, log))
  else
    let mutation := {| mutation_aggregate := "Bank::Transfer"; mutation_id := "t1";
                       mutation_operation := "create"; mutation_state := JNull |} in
    (Ok [if str_eqb verb "Bank::Transfer.Start" then announced "Started" [("ref", JStr "t1")]
         else announced "Recorded" []],
     (done ++ [verb], log ++ [mutation])).

Definition refund : DispatchSpec := MkDispatchSpec "Account::Refund" [] None.
Definition debit : DispatchSpec := MkDispatchSpec "Account::Debit" [] (Some refund).
Definition deposit : DispatchSpec := MkDispatchSpec "Account::Deposit" [] None.
Definition transfer_saga : ProcessManagerDef := {|
  pm_name := "Transfer"; correlates_by := "ref"; starts_on := "Started"; ends_on := "Settled";
  initial_state := "open";
  handlers := [
    {| event_type := "Started"; from_state := "open"; to_state := "sent"; dispatches := [debit; deposit] |};
    {| event_type := REFUSED; from_state := "sent"; to_state := "undone"; dispatches := [] |}] |}.
Definition note_policy (always : bool) : PolicyRule := {|
  policy_name := "NoteEverything"; policy_event := "Recorded"; event_qualifier := None;
  target_verb := "Bank::Audit.Note"; where_expr := None; for_each_query := None; for_each_key := None;
  root := always; with_spec := [] |}.
Definition transfer_tables (rules : list PolicyRule) : Tables := {|
  policies := rules; cross_domain_policies := []; process_managers := [transfer_saga];
  reference_key_fn _ := None; queries := []; command_creates_fn _ := true; identity_head_fn _ := None;
  command_attributes_fn _ := []; entity_identity_head_fn _ := None |}.
Definition no_facts : Facts :=
  {| needs_table := ∅; defaults_table := ∅; query_table := ∅; fixed_clock := None |}.
Definition quiet_bank : Cascade (list str) unit := {|
  store := []; host := tt; sagas := ∅; all_events := []; mutation_log := []; cross_domain := [];
  reaction_log := []; saga_log := [] |}.
Definition transfer_leg : SagaLeg :=
  {| leg_pm := transfer_saga; leg_correlation := "t1"; leg_domain := "Bank" |}.
Definition remembered : Cascade (list str) unit := {|
  store := []; host := tt;
  sagas := {[ ("Transfer", "t1") := {| saga_state := "sent"; memory := JNull; completed_compensations := [] |} ]};
  all_events := []; mutation_log := []; cross_domain := []; reaction_log := []; saga_log := [] |}.

Definition run_transfer (rules : list PolicyRule) (turns : nat) (verb : str) (c : Cascade (list str) unit) :=
  @orchestrate ascii_tables no_regex (list str) unit carried_out stopped_clock (transfer_tables rules) no_facts None
    transfer_router turns verb (JObject []) None None None 0 c.
Definition after (o : option (res unit * Cascade (list str) unit)) : Cascade (list str) unit :=
  match o with Some (_, c) => c | None => quiet_bank end.

(** Debited, refused, undone: the ledger is empty again and the refund ran. *)
Example transfer_is_undone :
  let c := after (run_transfer [] 6 "Bank::Transfer.Start" quiet_bank) in
  store c = ["Bank::Transfer.Start"; "Bank::Account.Debit"; "Bank::Account.Refund"] ∧
  sagas c !! ("Transfer", "t1") =
    Some {| saga_state := "undone"; memory := JObject [("ref", JStr "t1")]; completed_compensations := [] |}.
Proof. by vm_compute. Qed.

Lemma transfer_returns : ∃ r c', run_transfer [] 6 "Bank::Transfer.Start" quiet_bank = Some (r, c').
Proof. eexists _, _. vm_compute. reflexivity. Qed.

Lemma transfer_router_logs : logs_its_mutations transfer_router.
Proof.
  intros verb args role actor done log. unfold transfer_router.
  destruct (str_eqb verb _); simpl; [done|by apply prefix_app_r].
Qed.

Lemma logs_only_grow_witness :
  logs_prefix quiet_bank (after (run_transfer [] 6 "Bank::Transfer.Start" quiet_bank)) ∧
  length (all_events (after (run_transfer [] 6 "Bank::Transfer.Start" quiet_bank))) = 3%nat.
Proof.
  split; [|by vm_compute]. destruct transfer_returns as (r&c'&E). rewrite E.
  refine (@logs_only_grow ascii_tables no_regex (list str) unit carried_out stopped_clock _ _ _ transfer_router
            _ _ _ _ _ _ _ quiet_bank r c' transfer_router_logs _). exact E.
Defined.


Lemma refused_sets_nothing_in_motion_witness :
  ∃ c', run_transfer [] 6 "Bank::Account.Deposit" remembered = Some (Err (LifecycleRefused "closed"), c') ∧
        same_reactions remembered c'.
Proof.
  assert (∃ c', run_transfer [] 6 "Bank::Account.Deposit" remembered = Some (Err (LifecycleRefused "closed"), c'))
    as (c'&E) by (eexists; vm_compute; reflexivity).
  exists c'. split; [exact E|].
  exact (proj1 (@refused_sets_nothing_in_motion ascii_tables no_regex (list str) unit carried_out stopped_clock
    (transfer_tables []) _ _ transfer_router _ _ _ _ _ _ _ remembered _ c' E)).
Defined.

Lemma refused_leg_earns_nothing_witness :
  ∃ c', deliver_saga_dispatch
          (@reaction_run ascii_tables no_regex (list str) unit carried_out stopped_clock (transfer_tables [])
             no_facts None transfer_router 3)
          transfer_leg (MkDispatchSpec "Account::Deposit" [] (Some refund)) (JObject []) 0 (Some JNull) remembered
        = Some (Some false, c') ∧ sagas c' = sagas remembered.
Proof.
  assert (∃ c', deliver_saga_dispatch
          (@reaction_run ascii_tables no_regex (list str) unit carried_out stopped_clock (transfer_tables [])
             no_facts None transfer_router 3)
          transfer_leg (MkDispatchSpec "Account::Deposit" [] (Some refund)) (JObject []) 0 (Some JNull) remembered
        = Some (Some false, c')) as (c'&E) by (eexists; vm_compute; reflexivity).
  exists c'. split; [exact E|].
  exact (@refused_leg_earns_nothing ascii_tables no_regex (list str) unit carried_out stopped_clock
    (transfer_tables []) _ _ transfer_router _ _ _ _ _ _ remembered c' E).
Defined.

(** A run that would record the dispatch it must not make. *)
Lemma ceiling_dispatches_nothing_witness :
  ∃ run : str → Json → option (gmap str str) → nat → Step (St := list str) (S := unit) (res unit),
    run [] JNull None 0%nat quiet_bank ≠ None ∧
    @react ascii_tables no_regex (list str) unit carried_out (transfer_tables [note_policy false]) 1 run 5
      (announced "Recorded" []) quiet_bank =
    @react ascii_tables no_regex (list str) unit carried_out (transfer_tables [note_policy false]) 0
      (λ _ _ _ _, out_of_turns) 5 (announced "Recorded" []) quiet_bank.
Proof.
  exists (λ _ _ _ _, done_with (Ok tt)). split; [done|].
  refine (@ceiling_dispatches_nothing ascii_tables no_regex (list str) unit carried_out
    (transfer_tables [note_policy false]) _ _ 5 _ _ 1 0 _ quiet_bank).
  - unfold MAX_REACTION_DEPTH. lia.
  - intros p [->|H]%elem_of_cons; [done|]. by apply not_elem_of_nil in H.
Defined.
