(* ===== verification/CascadeReturns.v ===== *)
(** When a cascade returns and when it never does
    ([src/rust/src/kernel/orchestrate.rs]): [run] calls itself through the
    reactions of each event and [compensate] drains a ledger until it is empty,
    so neither returns unconditionally. *)
From stdpp Require Import gmap relations.
From S2P Require Export OrchestrateFacts.

(** ** Cascades that return *)
(** A step that takes turns settles when some number of them, and any larger
    one, gives the same answer; it starts and ends where [P] holds. *)
Section settles.
Context {St S : Type}.
Variable P : Cascade St S → Prop.

Definition settles {A} (m : nat → Step (St := St) (S := S) A) : Prop :=
  ∀ c, P c → ∃ n0 a c', P c' ∧ ∀ n, (n0 <= n)%nat → m n c = Some (a, c').

Lemma settles_done {A} (a : A) : settles (λ _, done_with a).
Proof. intros c Hc. by exists 0%nat, a, c. Qed.
Lemma settles_out {A} (m : Step A) : (∀ c, P c → ∃ a c', P c' ∧ m c = Some (a, c')) → settles (λ _, m).
Proof. intros Hm c Hc. destruct (Hm c Hc) as (a&c'&?&?). by exists 0%nat, a, c'. Qed.
Lemma settles_change f : (∀ c, P c → P (f c)) → settles (λ _, change f).
Proof. intros Hf c Hc. exists 0%nat, tt, (f c). auto. Qed.
Lemma settles_andThen {A B} (m : nat → Step A) (k : A → nat → Step B) :
  settles m → (∀ a, settles (k a)) → settles (λ n, andThen (m n) (λ a, k a n)).
Proof.
  intros Hm Hk c Hc. destruct (Hm c Hc) as (n1&a&c1&Hc1&Em). destruct (Hk a c1 Hc1) as (n2&b&c2&Hc2&Ek).
  exists (n1 `max` n2)%nat, b, c2. split; [done|]. intros n Hn. unfold andThen.
  rewrite Em by lia. simpl. apply Ek. lia.
Qed.
Lemma settles_ask {A B} (f : Cascade St S → A) (k : A → nat → Step B) :
  (∀ c, P c → ∃ n0 b c', P c' ∧ ∀ n, (n0 <= n)%nat → k (f c) n c = Some (b, c')) →
  settles (λ n, andThen (ask_cascade f) (λ a, k a n)).
Proof. intros Hk c Hc. apply (Hk c Hc). Qed.
Lemma settles_each {A} (l : list A) (body : nat → A → Step unit) :
  (∀ a, a ∈ l → settles (λ n, body n a)) → settles (λ n, each l (body n)).
Proof.
  induction l as [|a l IH]; intros Hb; [apply settles_done|].
  apply (settles_andThen (λ n, body n a) (λ _ n, each l (body n))); [apply Hb, list_elem_of_here|].
  intros []. apply IH. intros a' Ha. by apply Hb, list_elem_of_further.
Qed.
End settles.

Section returns.
Context `{U : UnicodeTables} `{X : RegexCrate}.
Context {St S : Type} `{SS : AggregateScan St} `{HF : HostFacts S}.
Variable tables : Tables.
Variable facts : Facts.
Variable ts : option str.
Variable dispatch_fn : str → Json → option str → option str → M (St * list MutationRecord) (list Event).

(** An event no policy, leg or birth waits for; it may still end a conversation
    or be pended for another domain. *)
Definition silent (event : Event) : Prop :=
  (∀ p, p ∈ policies tables → policy_event p ≠ event_name event) ∧
  ∀ pm, pm ∈ process_managers tables →
    starts_on pm ≠ event_name event ∧ ∀ h, h ∈ handlers pm → event_type h ≠ event_name event.
Definition quiet_command (name : str) : Prop :=
  ∀ domain args role actor s events s',
    dispatch_fn (qualify_saga_command_name domain name) args role actor s = (Ok events, s') →
    ∀ event, event ∈ events → silent event.
Definition compensations_quiet : Prop :=
  ∀ pm h spec undo, pm ∈ process_managers tables → h ∈ handlers pm → spec ∈ dispatches h →
    spec_compensates spec = Some undo → quiet_command (spec_command undo).
Definition quiet_ledger (i : SagaInstance) : Prop :=
  ∀ e, e ∈ completed_compensations i → quiet_command (compensation_command e).
Definition quiet_ledgers (c : Cascade St S) : Prop := ∀ k i, sagas c !! k = Some i → quiet_ledger i.

Lemma quiet_sub c c' : sagas c' ⊆ sagas c → quiet_ledgers c → quiet_ledgers c'.
Proof. intros Hs Hc k i Hi. by apply (Hc k), (lookup_weaken _ _ _ _ Hi). Qed.
Lemma quiet_same c c' : sagas c' = sagas c → quiet_ledgers c → quiet_ledgers c'.
Proof. intros Hs. apply quiet_sub. by rewrite Hs. Qed.
Lemma quiet_alter c f k : (∀ i, quiet_ledger i → quiet_ledger (f i)) → quiet_ledgers c →
  quiet_ledgers (with_sagas (alter f k) c).
Proof.
  intros Hf Hc k' i. simpl. rewrite lookup_alter_Some. intros [(->&j&Hj&->)|[_ Hi]]; [|by apply (Hc k')].
  by apply Hf, (Hc k').
Qed.
Lemma quiet_pop i : quiet_ledger i → quiet_ledger (pop_compensation i).
Proof.
  intros Hi e He. apply Hi. unfold pop_compensation in He. simpl in He.
  destruct (completed_compensations i); [done|by apply list_elem_of_further].
Qed.

(** *** A silent event's reactions *)
Definition silent_react (event : Event) : Step (St := St) (S := S) unit :=
  each (cross_domain_policies tables) (pend_cross_domain tables event) ;;; end_saga tables event.

Lemma each_nothing {A} (l : list A) (body : A → Step (St := St) (S := S) unit) c :
  (∀ a c, a ∈ l → body a c = Some (tt, c)) → each l body c = Some (tt, c).
Proof.
  intros Hb. rewrite (each_ext l body (λ _, done_with tt)); [|auto].
  clear Hb. by induction l as [|a l IH].
Qed.
Lemma str_eqb_ne (a b : str) : a ≠ b → str_eqb a b = false.
Proof. apply bool_decide_eq_false_2. Qed.

Lemma react_silent turns run depth event c :
  silent event → react tables turns run depth event c = silent_react event c.
Proof.
  intros [Hp Hm]. unfold react, react_policies, begin_saga, advance_saga, silent_react.
  unfold andThen at 1 2. rewrite each_nothing.
  2:{ intros p c1 Hin. unfold react_policy, fires. by rewrite (str_eqb_ne _ _ (Hp p Hin)). }
  simpl. unfold andThen at 3. destruct (each (cross_domain_policies tables) _ _) as [[[] c1]|]; simpl; [|done].
  unfold andThen. rewrite each_nothing.
  2:{ intros pm c2 Hin. unfold begin_one. rewrite str_eqb_ne; [done|].
      apply not_eq_sym, (Hm pm Hin). }
  simpl. rewrite each_nothing; [done|].
  intros pm c2 Hin. unfold advance_one. destruct (existsb _ _) eqn:E; [|done].
  apply existsb_exists in E as (h&Hh%list_elem_of_In&E%bool_decide_eq_true).
  by destruct (proj2 (Hm pm Hin) h Hh).
Qed.

(** *** Steps that always answer and only end conversations *)
Definition ends_only (c c' : Cascade St S) : Prop := sagas c' ⊆ sagas c.
#[local] Instance ends_only_preorder : PreOrder ends_only.
Proof. unfold ends_only. split; [by intros c|intros a b c Hab Hbc; by etrans]. Qed.
Definition answers {A} (m : Step (St := St) (S := S) A) : Prop :=
  ∀ c, ∃ a c', m c = Some (a, c') ∧ ends_only c c'.

Lemma answers_done {A} (a : A) : answers (done_with a).
Proof. intros c. by exists a, c. Qed.
Lemma answers_change f : (∀ c, ends_only c (f c)) → answers (change f).
Proof. intros Hf c. by exists tt, (f c). Qed.
Lemma ends_only_same (c c' : Cascade St S) : sagas c' = sagas c → ends_only c c'.
Proof. unfold ends_only. by intros ->. Qed.
Lemma answers_log f : (∀ c, sagas (f c) = sagas c) → answers (change f).
Proof. intros Hf. apply answers_change. intros c. by apply ends_only_same. Qed.
Lemma answers_andThen {A B} (m : Step A) (k : A → Step B) :
  answers m → (∀ a, answers (k a)) → answers (andThen m k).
Proof.
  intros Hm Hk c. destruct (Hm c) as (a&c1&E1&H1). destruct (Hk a c1) as (b&c2&E2&H2).
  exists b, c2. split; [|by etrans]. unfold andThen. by rewrite E1.
Qed.
Lemma answers_each {A} (l : list A) (body : A → Step unit) : (∀ a, answers (body a)) → answers (each l body).
Proof.
  intros Hb. induction l as [|a l IH]; [apply answers_done|].
  by apply answers_andThen; [|intros []].
Qed.

Lemma answers_end event : answers (end_saga tables event).
Proof.
  apply answers_each. intros pm. unfold end_one. destruct (str_eqb _ _); [|apply answers_done].
  destruct (correlation_of _ _ _); [|apply answers_done].
  intros c1. unfold andThen, ask_cascade. simpl. destruct (sagas c1 !! _); [|by apply answers_done].
  apply (answers_andThen (change _) (λ _, log_saga _)); [|by intros _; apply answers_log].
  apply answers_change. intros c2. apply delete_subseteq.
Qed.
Lemma answers_silent_react event : answers (silent_react event).
Proof.
  apply answers_andThen; [|intros _; apply answers_end]. apply answers_each.
  intros p. unfold pend_cross_domain. destruct (fires _ _ _ _); [by apply answers_log|apply answers_done].
Qed.

Lemma answers_quiet_run name domain args stamp depth c :
  quiet_command name →
  ∃ r c', ends_only c c' ∧ ∀ n, (0 < n)%nat →
    reaction_run (HF := HF) tables facts ts dispatch_fn n (qualify_saga_command_name domain name)
      args stamp depth c = Some (r, c').
Proof.
  intros Hq.
  assert (∀ run turns c1, run_body (HF := HF) tables facts ts dispatch_fn turns run
      (qualify_saga_command_name domain name) args None None stamp depth c1 =
    (do! args <- enrich_args facts ts (qualify_saga_command_name domain name) args in
     do! outcome <- dispatch_stored dispatch_fn (qualify_saga_command_name domain name) args None None in
     match outcome with
     | Err refusal => done_with (Err refusal)
     | Ok events => log_events (map (stamp_event ts stamp) events) ;;;
         each (map (stamp_event ts stamp) events) silent_react ;;; done_with (Ok tt)
     end) c1) as Hbody.
  { intros run turns c1. unfold run_body. apply andThen_ext; [done|]. intros args' c2 _.
    apply andThen_ext; [done|]. intros [events|e] c3; [|done].
    unfold dispatch_stored. destruct (dispatch_fn _ _ _ _ _) as [[evs|] s'] eqn:Ed; intros [= -> <-].
    apply andThen_ext; [done|]. intros [] c4 _. apply andThen_ext; [|done].
    apply each_ext. intros event c5 (e&->&He)%list_elem_of_fmap.
    apply react_silent. exact (Hq _ _ _ _ _ _ _ Ed e He). }
  assert (answers (A := res unit) (
     do! args <- enrich_args facts ts (qualify_saga_command_name domain name) args in
     do! outcome <- dispatch_stored dispatch_fn (qualify_saga_command_name domain name) args None None in
     match outcome with
     | Err refusal => done_with (Err refusal)
     | Ok events => log_events (map (stamp_event ts stamp) events) ;;;
         each (map (stamp_event ts stamp) events) silent_react ;;; done_with (Ok tt)
     end)) as Ha.
  { apply answers_andThen.
    { intros c1. unfold enrich_args. destruct (enrich _ _ _ _ _). eexists _, _. split; [done|by apply ends_only_same]. }
    intros args'. apply answers_andThen.
    { intros c1. unfold dispatch_stored. destruct (dispatch_fn _ _ _ _ _). eexists _, _. split; [done|by apply ends_only_same]. }
    intros [events|e]; [|apply answers_done].
    apply answers_andThen; [by apply answers_log|intros _].
    apply answers_andThen; [apply answers_each, answers_silent_react|intros _; apply answers_done]. }
  destruct (Ha c) as (r&c'&Er&Hr). exists r, c'. split; [done|].
  intros [|n] Hn; [lia|]. cbn [reaction_run]. by rewrite Hbody.
Qed.

(** *** Draining a quiet ledger *)
Abbreviation RunOf := (reaction_run (HF := HF) tables facts ts dispatch_fn).

Lemma derived_settles l entry depth c :
  quiet_command (compensation_command entry) →
  ∃ c', ends_only c c' ∧ ∀ n, (0 < n)%nat →
    deliver_derived_compensation (RunOf n) l entry depth c = Some (tt, c').
Proof.
  intros Hq. unfold deliver_derived_compensation.
  destruct (_ <=? _)%nat; [eexists; split; [|done]; by apply ends_only_same|].
  destruct (answers_quiet_run _ (leg_domain l) (compensation_args entry) (Some (leg_stamp l))
              (Datatypes.S depth) c Hq) as (r&c1&H1&E1).
  destruct r as [[]|e]; (eexists; split; [|intros n Hn; unfold andThen; by rewrite E1]); done.
Qed.

Lemma drain_settles l depth len c :
  quiet_ledgers c →
  (∀ i, sagas c !! leg_key l = Some i → (length (completed_compensations i) <= len)%nat) →
  ∃ c', quiet_ledgers c' ∧ ∀ n m, (len < n)%nat → (0 < m)%nat → drain n (RunOf m) l depth c = Some (tt, c').
Proof.
  revert c. induction len as [|len IH]; intros c Hq Hlen.
  - exists c. split; [done|]. intros [|n] m Hn Hm; [lia|]. simpl. unfold andThen, ask_cascade. simpl.
    destruct (sagas c !! _) as [i|] eqn:Ei; [|done].
    specialize (Hlen i eq_refl). destruct (completed_compensations i); simpl in Hlen; [done|lia].
  - destruct (sagas c !! leg_key l) as [i|] eqn:Ei.
    2:{ exists c. split; [done|]. intros [|n] m Hn Hm; [lia|]. simpl. unfold andThen, ask_cascade. simpl.
        by rewrite Ei. }
    destruct (completed_compensations i) as [|entry rest] eqn:El.
    { exists c. split; [done|]. intros [|n] m Hn Hm; [lia|]. simpl. unfold andThen, ask_cascade. simpl.
      by rewrite Ei, El. }
    set (c1 := with_sagas (alter pop_compensation (leg_key l)) c).
    destruct (derived_settles l entry depth c1) as (c2&H2&E2).
    { apply (Hq _ _ Ei). rewrite El. apply list_elem_of_here. }
    assert (quiet_ledgers c1) as Hq1 by (apply quiet_alter; [apply quiet_pop|done]).
    destruct (IH c2) as (c3&Hq3&E3); [by apply (quiet_sub c1)| |].
    { intros j Hj. apply (lookup_weaken _ (sagas c1)) in Hj; [|done]. simpl in Hj.
      rewrite lookup_alter_eq, Ei in Hj. injection Hj as <-. simpl. rewrite El.
      specialize (Hlen i eq_refl). rewrite El in Hlen. simpl in *. lia. }
    exists c3. split; [done|]. intros [|n] m Hn Hm; [lia|]. cbn [drain]. unfold andThen at 1.
    simpl. rewrite Ei, El. unfold andThen, change. simpl. fold c1. rewrite E2 by done. simpl. apply E3; lia.
Qed.

(** *** Reactions at one depth, given those one deeper *)
Hypothesis no_root : ∀ p, p ∈ policies tables → root p = false.
Hypothesis undone_quietly : compensations_quiet.

Section depth.
Variable depth : nat.
Hypothesis deeper : (depth < MAX_REACTION_DEPTH)%nat →
  ∀ verb args stamp, settles quiet_ledgers (λ n, RunOf n verb args stamp (Datatypes.S depth)).

Lemma settles_log f : (∀ c, sagas (f c) = sagas c) → settles quiet_ledgers (λ _, change f).
Proof using Type. intros Hf. apply settles_change. intros c. by apply quiet_same. Qed.

Lemma settles_policies event :
  settles quiet_ledgers (λ n, react_policies tables (RunOf n) event depth).
Proof using no_root deeper.
  unfold react_policies. apply (settles_andThen _ (λ n, each _ _) (λ _ _, each _ _)).
  2:{ intros _. apply settles_each. intros p _. unfold pend_cross_domain.
      destruct (fires _ _ _ _); [by apply settles_log|apply settles_done]. }
  apply (settles_each _ _ (λ n, react_policy tables (RunOf n) event depth)). intros p Hp. unfold react_policy.
  destruct (fires _ _ _ _); cbn [negb]; [|apply settles_done].
  rewrite (no_root p Hp). destruct (MAX_REACTION_DEPTH <=? depth)%nat eqn:Ed; cbn [andb negb];
    [by apply settles_log|]. apply Nat.leb_gt in Ed.
  destruct (for_each_query p) as [q|].
  - destruct (find_query _ _) as [def|]; [|by apply settles_log].
    apply (settles_ask _ _ (λ st n, match Query.run st def _ None with Ok rows => _ | Err e => _ end)).
    intros c Hc. destruct (Query.run _ _ _ _) as [rows|e]; [|by apply settles_log].
    revert c Hc. apply (settles_each _ rows (λ n '(row_id, row), _)). intros [row_id row] _.
    apply (settles_andThen _ (λ n, RunOf n _ _ _ _) (λ _ _, log_outcome _ _)); [by apply deeper|].
    intros o. by apply settles_log.
  - apply (settles_andThen _ (λ n, RunOf n _ _ _ _) (λ _ _, log_outcome _ _)); [by apply deeper|].
    intros o. by apply settles_log.
Qed.

Lemma settles_begin event : settles quiet_ledgers (λ _, begin_saga tables event).
Proof using Type.
  apply (settles_each _ _ (λ _, begin_one tables event)). intros pm _. unfold begin_one.
  destruct (str_eqb _ _); [|apply settles_done].
  destruct (correlation_of _ _ _) as [corr|]; [|by apply settles_log].
  apply (settles_ask _ _ (λ held _, _)). intros c Hc.
  destruct (sagas c !! _) eqn:E; [by apply settles_done|].
  revert c Hc E. assert (∀ f, (∀ c, quiet_ledgers c → quiet_ledgers (f c)) → settles quiet_ledgers
    (λ _, change f ;;; log_saga (JObject [("process_manager", JStr (pm_name pm)); ("on", JStr (event_name event));
       ("instance", JStr corr); ("born", JBool true); ("state", JStr (initial_state pm))]))) as Hset.
  { intros f Hf. apply (settles_andThen _ (λ _, change f) (λ _ _, log_saga _)); [by apply settles_change|].
    intros _. by apply settles_log. }
  intros c Hc _. apply Hset; [|done]. intros c1 Hc1 k i. simpl. rewrite lookup_insert_Some.
  intros [[_ <-]|[_ Hi]]; [by intros e He%elem_of_nil|by apply (Hc1 k)].
Qed.

Lemma settles_end event : settles quiet_ledgers (λ _, end_saga tables event).
Proof using Type.
  apply settles_out. intros c Hc.
  destruct (answers_end event c) as (a&c'&E&Hs). exists a, c'. split; [by apply (quiet_sub c)|done].
Qed.

Lemma settles_deliver l spec args rargs :
  (∀ undo, spec_compensates spec = Some undo → quiet_command (spec_command undo)) →
  settles quiet_ledgers (λ n, deliver_saga_dispatch (RunOf n) l spec args depth rargs).
Proof using deeper.
  intros Hundo. unfold deliver_saga_dispatch.
  destruct (MAX_REACTION_DEPTH <=? depth)%nat eqn:Ed.
  { apply (settles_andThen _ (λ _, log_saga _) (λ _ _, done_with _)); [by apply settles_log|].
    intros _. apply settles_done. }
  apply Nat.leb_gt in Ed. apply (settles_ask _ _ (λ held n, _)). intros c Hc.
  set (recorded := match spec_compensates spec with Some _ => _ | None => _ end).
  assert (∀ e, recorded = Some e → quiet_command (compensation_command e)) as Hrec.
  { subst recorded. intros e. destruct (spec_compensates spec) as [u|]; [|done].
    destruct rargs; [|done]. destruct (sagas c !! _); [|done]. intros [= <-]. by apply Hundo. }
  clearbody recorded. revert c Hc.
  apply (settles_andThen _ (λ _, match recorded with Some e => _ | None => _ end) (λ _ n, andThen (RunOf n _ _ _ _) _)).
  { destruct recorded as [e|]; [|apply settles_done]. apply settles_change. intros c1.
    apply quiet_alter. intros i Hi e' [->|He]%elem_of_cons; [by apply Hrec|by apply Hi]. }
  intros _. apply (settles_andThen _ (λ n, RunOf n _ _ _ _) (λ o _, match o with Ok _ => _ | Err _ => _ end));
    [by apply deeper|]. intros [[]|e].
  - apply (settles_andThen _ (λ _, log_saga _) (λ _ _, done_with _)); [by apply settles_log|].
    intros _. apply settles_done.
  - apply (settles_andThen _ (λ _, match recorded with Some e => _ | None => _ end) (λ _ _, _)).
    + destruct recorded; [|apply settles_done]. apply settles_change. intros c1. apply quiet_alter, quiet_pop.
    + intros _. apply (settles_andThen _ (λ _, log_saga _) (λ _ _, done_with _)); [by apply settles_log|].
      intros _. apply settles_done.
Qed.

Lemma settles_deliver_all l h event mem specs :
  leg_pm l ∈ process_managers tables → h ∈ handlers (leg_pm l) → (∀ s, s ∈ specs → s ∈ dispatches h) →
  settles quiet_ledgers (λ n, deliver_all tables (RunOf n) l event mem depth specs).
Proof using deeper undone_quietly.
  intros Hpm Hh. induction specs as [|spec specs IH]; intros Hs; [apply settles_done|]. simpl.
  apply (settles_andThen _ (λ n, deliver_saga_dispatch (RunOf n) _ _ _ _ _) (λ o n, andThen (deliver_all _ _ _ _ _ _ _) _)).
  { apply settles_deliver. intros undo. apply (undone_quietly (leg_pm l) h); [done|done|]. apply Hs, list_elem_of_here. }
  intros o. apply (settles_andThen _ (λ n, deliver_all _ _ _ _ _ _ _) (λ b _, done_with _)).
  - apply IH. intros s Hin. by apply Hs, list_elem_of_further.
  - intros b. apply settles_done.
Qed.

Lemma settles_drain l : settles quiet_ledgers (λ n, drain n (RunOf n) l depth).
Proof using Type.
  clear deeper. intros c Hc. destruct (drain_settles l depth
    (match sagas c !! leg_key l with Some i => length (completed_compensations i) | None => 0%nat end) c Hc)
    as (c'&Hc'&E); [by intros i ->|].
  eexists (Datatypes.S _), tt, c'. split; [done|]. intros n Hn. apply E; [exact Hn|lia].
Qed.

Lemma settles_move h l : settles quiet_ledgers (λ _, change (with_sagas (alter (move_to (to_state h)) (leg_key l)))).
Proof using Type. apply settles_change. intros c. by apply quiet_alter. Qed.

Lemma settles_compensate l event mem :
  leg_pm l ∈ process_managers tables →
  settles quiet_ledgers (λ n, compensate tables n (RunOf n) l event mem depth).
Proof using deeper undone_quietly.
  intros Hpm. unfold compensate. apply (settles_ask _ _ (λ held n, _)). intros c Hc.
  destruct (sagas c !! _) as [i|]; [|by apply settles_done].
  destruct (existsb _ _); cbn [negb]; [|by apply settles_done].
  destruct (select_leg _ _ _) as [h|] eqn:Eh; [|by apply settles_log].
  apply select_leg_sound in Eh as (Hh&_).
  revert c Hc. apply (settles_andThen _ (λ _, change _) (λ _ n, andThen (log_saga _) _)); [apply settles_move|intros _].
  apply (settles_andThen _ (λ _, log_saga _) (λ _ n, andThen (drain _ _ _ _) _)); [by apply settles_log|intros _].
  apply (settles_andThen _ (λ n, drain _ _ _ _) (λ _ n, andThen (deliver_all _ _ _ _ _ _ _) _)); [apply settles_drain|intros _].
  apply (settles_andThen _ (λ n, deliver_all _ _ _ _ _ _ _) (λ _ _, done_with _)); [by apply (settles_deliver_all _ h)|].
  intros _. apply settles_done.
Qed.

Lemma settles_advance event : settles quiet_ledgers (λ n, advance_saga tables n (RunOf n) event depth).
Proof using deeper undone_quietly.
  unfold advance_saga. apply (settles_each _ _ (λ n, advance_one tables n (RunOf n) event depth)). intros pm Hpm. unfold advance_one.
  destruct (existsb _ _); cbn [negb]; [|apply settles_done].
  destruct (correlation_of _ _ _) as [corr|]; [|apply settles_done].
  apply (settles_ask _ _ (λ held n, _)). intros c Hc.
  destruct (sagas c !! _) as [i|]; [|by apply settles_log].
  destruct (select_leg _ _ _) as [h|] eqn:Eh; [|by apply settles_log].
  apply select_leg_sound in Eh as (Hh&_).
  revert c Hc. apply (settles_andThen _ (λ _, change _) (λ _ n, andThen (log_saga _) _)); [apply settles_move|intros _].
  apply (settles_andThen _ (λ _, log_saga _) (λ _ n, andThen (deliver_all _ _ _ _ _ _ _) _)); [by apply settles_log|intros _].
  apply (settles_andThen _ (λ n, deliver_all _ _ _ _ _ _ _) (λ r n, if r : bool then compensate _ _ _ _ _ _ _ else done_with _));
    [by apply (settles_deliver_all _ h)|].
  intros []; [by apply settles_compensate|apply settles_done].
Qed.

Lemma settles_react event : settles quiet_ledgers (λ n, react tables n (RunOf n) depth event).
Proof using deeper no_root undone_quietly.
  unfold react.
  apply (settles_andThen _ (λ n, react_policies _ _ _ _) (λ _ n, andThen (begin_saga _ _) _)); [apply settles_policies|intros _].
  apply (settles_andThen _ (λ n, begin_saga _ _) (λ _ n, andThen (advance_saga _ _ _ _ _) _)); [apply settles_begin|intros _].
  apply (settles_andThen _ (λ n, advance_saga _ _ _ _ _) (λ _ n, end_saga _ _)); [apply settles_advance|intros _].
  apply settles_end.
Qed.

Lemma settles_run_body verb args role actor stamp :
  settles quiet_ledgers
    (λ n, run_body (HF := HF) tables facts ts dispatch_fn n (RunOf n) verb args role actor stamp depth).
Proof using deeper no_root undone_quietly.
  unfold run_body.
  apply (settles_andThen _ (λ n, enrich_args _ _ _ _) (λ _ n, andThen (dispatch_stored _ _ _ _ _) _)).
  { apply settles_out. intros c Hc. unfold enrich_args. destruct (enrich _ _ _ _ _).
    eexists _, _. split; [|done]. by apply (quiet_same c). }
  intros args'. apply (settles_andThen _ (λ n, dispatch_stored _ _ _ _ _) (λ o n, match o with Ok _ => _ | Err _ => _ end)).
  { apply settles_out. intros c Hc. unfold dispatch_stored. destruct (dispatch_fn _ _ _ _ _).
    eexists _, _. split; [|done]. by apply (quiet_same c). }
  intros [events|e]; [|apply settles_done].
  apply (settles_andThen _ (λ n, log_events _) (λ _ n, andThen (each _ _) _)); [by apply settles_log|intros _].
  apply (settles_andThen _ (λ n, each _ _) (λ _ n, done_with _)); [|intros _; apply settles_done].
  apply (settles_each _ _ (λ n, react tables n (RunOf n) depth)). intros event _. apply settles_react.
Qed.
End depth.

Lemma settles_run left depth verb args stamp :
  (MAX_REACTION_DEPTH <= left + depth)%nat → settles quiet_ledgers (λ n, RunOf n verb args stamp depth).
Proof using no_root undone_quietly.
  revert depth verb args stamp. induction left as [|left IH]; intros depth verb args stamp Hd c Hc.
  all: destruct (settles_run_body depth) with (verb := verb) (args := args) (role := @None str)
      (actor := @None str) (stamp := stamp) (c := c) as (n0&r&c'&Hc'&E); [|done|].
  1: lia.
  2: intros _ v a s; apply IH; lia.
  all: exists (Datatypes.S n0), r, c'; split; [done|].
  all: intros [|n] Hn; [lia|]; apply E; lia.
Qed.

(** C8: an orchestration returns.  Where no policy is a root and the commands
    that compensate set nothing else in motion (every event they emit is one no
    policy, leg or birth waits for), the reactions a command sets off are finite:
    some number of turns is enough, any larger number gives the same answer and
    the same cascade, and that holds from any depth and any cascade whose
    ledgers hold only such compensations. *)
Theorem orchestration_returns verb args role actor stamp depth c :
  quiet_ledgers c →
  ∃ n0 r c', quiet_ledgers c' ∧ ∀ turns, (n0 <= turns)%nat →
    orchestrate (HF := HF) tables facts ts dispatch_fn turns verb args role actor stamp depth c = Some (r, c').
Proof using no_root undone_quietly.
  apply settles_run_body. intros _ v a s.
  apply (settles_run MAX_REACTION_DEPTH). lia.
Qed.
End returns.

(** ** Cascades that never return *)
Section hangs.
Context {St S : Type}.
Definition hangs {A} (m : Step (St := St) (S := S) A) : Prop := ∀ c, m c = None.

Lemma hangs_andThen {A B} (m : Step A) (k : A → Step B) : (∀ a, hangs (k a)) → hangs (andThen m k).
Proof. intros Hk c. unfold andThen. destruct (m c) as [[a c1]|]; simpl; [apply Hk|done]. Qed.
Lemma hangs_first {A B} (m : Step A) (k : A → Step B) : hangs m → hangs (andThen m k).
Proof. intros Hm c. unfold andThen. by rewrite Hm. Qed.
Lemma hangs_each {A} (l : list A) (body : A → Step unit) a : a ∈ l → hangs (body a) → hangs (each l body).
Proof.
  intros Ha Hb. induction Ha as [b l|b a' l Ha IH]; [by apply hangs_first|].
  apply hangs_andThen. intros []. by apply IH.
Qed.
End hangs.

Section root_loop.
Context `{U : UnicodeTables} `{X : RegexCrate}.
Context {St S : Type} `{SS : AggregateScan St} `{HF : HostFacts S}.
Variable tables : Tables.
Variable facts : Facts.
Variable ts : option str.
Variable dispatch_fn : str → Json → option str → option str → M (St * list MutationRecord) (list Event).

(** C39: a root policy that answers its own command's event never returns.  The
    depth ceiling does not stop a root, so where its command always emits the
    event the policy waits for, unconditionally, no number of turns is enough,
    from any depth. *)
Theorem root_loop_never_returns p turns args role actor stamp depth c :
  p ∈ policies tables → root p = true →
  event_qualifier p = None → where_expr p = None → for_each_query p = None →
  (∀ args role actor s, ∃ events s', dispatch_fn (target_verb p) args role actor s = (Ok events, s') ∧
     ∃ event, event ∈ events ∧ event_name event = policy_event p) →
  orchestrate (HF := HF) tables facts ts dispatch_fn turns (target_verb p) args role actor stamp depth c = None.
Proof.
  intros Hp Hroot Hq Hw Hf He. unfold orchestrate.
  assert (∀ turns run, (∀ args stamp depth, hangs (run (target_verb p) args stamp depth)) →
    ∀ args role actor stamp depth,
      hangs (run_body (HF := HF) tables facts ts dispatch_fn turns run (target_verb p) args role actor stamp depth))
    as Hbody.
  { intros turns' run Hrun args' role' actor' stamp' depth'. apply hangs_andThen. intros args'' c1.
    destruct (He args'' role' actor' (store c1, mutation_log c1)) as (evs&s'&Ed&e&Hin&Hname).
    unfold andThen at 1, dispatch_stored. rewrite Ed. simpl. unfold andThen at 1. simpl.
    apply hangs_first. apply (hangs_each _ _ (stamp_event ts stamp' e)); [by apply list_elem_of_fmap_2|].
    unfold react, react_policies.
    apply hangs_first, hangs_first, (hangs_each _ _ p Hp). intros c2. unfold react_policy, fires.
    rewrite Hq, Hw, Hf, Hroot, andb_false_r. rewrite <-Hname. unfold str_eqb. rewrite bool_decide_eq_true_2 by done.
    simpl. apply hangs_first, Hrun. }
  apply Hbody. clear args role actor stamp depth c.
  induction turns as [|turns IH]; intros args stamp depth c; [done|]. by apply Hbody.
Qed.
End root_loop.

Lemma refund_quiet : quiet_command (transfer_tables []) transfer_router "Account::Refund".
Proof.
  intros domain args role actor [done log] events s'. unfold transfer_router.
  destruct (str_eqb _ "Bank::Account.Deposit"); [by intros [=]|].
  destruct (str_eqb _ "Bank::Transfer.Start") eqn:E.
  - apply bool_decide_eq_true, (f_equal (@List.rev _)) in E. unfold qualify_saga_command_name in E.
    rewrite !List.rev_app_distr in E. vm_compute in E. by injection E.
  - intros [= <- _] event [->|H]%elem_of_cons; [|by apply not_elem_of_nil in H].
    split; [intros p H; by apply not_elem_of_nil in H|].
    intros pm [->|H]%elem_of_cons; [|by apply not_elem_of_nil in H].
    split; [done|]. intros h Hh.
    repeat (apply elem_of_cons in Hh as [->|Hh]; [done|]). by apply not_elem_of_nil in Hh.
Qed.
Lemma transfer_undone_quietly : compensations_quiet (transfer_tables []) transfer_router.
Proof.
  intros pm h spec undo [->|H]%elem_of_cons; [|by apply not_elem_of_nil in H].
  intros Hh. repeat (apply elem_of_cons in Hh as [->|Hh];
    [simpl; intros Hs; repeat (apply elem_of_cons in Hs as [->|Hs]; [by intros [= <-]; try apply refund_quiet|]);
     by apply not_elem_of_nil in Hs|]).
  by apply not_elem_of_nil in Hh.
Qed.

Lemma orchestration_returns_witness :
  ∃ n0 r c', ∀ turns, (n0 <= turns)%nat →
    run_transfer [] turns "Bank::Transfer.Start" quiet_bank = Some (r, c').
Proof.
  destruct (@orchestration_returns ascii_tables no_regex (list str) unit carried_out stopped_clock
    (transfer_tables []) no_facts None transfer_router) with (verb := "Bank::Transfer.Start" : str)
    (args := JObject []) (role := @None str) (actor := @None str) (stamp := @None (gmap str str))
    (depth := 0%nat) (c := quiet_bank) as (n0&r&c'&_&E).
  - intros p H. by apply not_elem_of_nil in H.
  - exact transfer_undone_quietly.
  - intros k i H. cbn [sagas quiet_bank] in H. by apply lookup_empty_Some in H.
  - exists n0, r, c'. exact E.
Defined.

Lemma root_loop_never_returns_witness :
  run_transfer [note_policy true] 1000 "Bank::Audit.Note" quiet_bank = None.
Proof.
  refine (@root_loop_never_returns ascii_tables no_regex (list str) unit carried_out stopped_clock
    (transfer_tables [note_policy true]) no_facts None transfer_router (note_policy true) 1000 (JObject []) None
    None None 0 quiet_bank _ eq_refl eq_refl eq_refl eq_refl _).
  - apply list_elem_of_here.
  - intros args role actor [done log]. eexists _, _. split; [vm_compute; reflexivity|].
    eexists. split; [apply list_elem_of_here|vm_compute; reflexivity].
Defined.
