(* ===== verification/CommandLine.v ===== *)
(** The command line ([src/rust/src/kernel/cli.rs]): a document of steps run
    over one store, each a question, a dry run, a validation or a command, and
    the session of [--serve].  The generated domain is the class [Domain]; the
    budget of turns is [Orchestrate]'s, [None] where it ran out. *)
From stdpp Require Import gmap.
From S2P Require Export Preview Orchestrate ReadModel Present.

(** ** [generated::active] *)
Class Domain (St : Type) := {
  domain_scan :: AggregateScan St;
  store_new : St;
  from_seed : Json → res St;
  instances : St → list (str * Json);
  dispatch_by_name : str → Json → option str → option str → M (World St) (list Event);
  domain_tables : Tables;
  read_models : list ReadModelDef;
  entity_queries : list EntityQueryDef;
  check_query_args : str → Json → res unit;
  generated_present : Presenter
}.
(** The router as an orchestration calls it, with no collector bound. *)
Definition stored_dispatch `{Domain St} (verb : str) (args : Json) (role actor : option str)
  : M (St * list MutationRecord) (list Event) :=
  λ '(st, log),
    let (r, w) := dispatch_by_name verb args role actor {| repo := st; mutations := log; collected := None |} in
    (r, (repo w, mutations w)).

(** ** Sagas in and out *)
Definition read_compensation (e : Json) : option CompletedCompensation :=
  command_name ← get e "command_name" ≫= as_str;
  Some {| compensation_command := command_name; compensation_args := default JNull (get e "args") |}.
(** Newest first in the model, last in the source's vector. *)
Definition read_ledger (entry : Json) : list CompletedCompensation :=
  rev (omap read_compensation (default [] (get entry "completed_compensations" ≫= as_array))).
Definition read_saga (entry : Json) : option (SagaKey * SagaInstance) :=
  process_manager ← get entry "process_manager" ≫= as_str;
  correlation ← get entry "correlation" ≫= as_str;
  state ← get entry "state" ≫= as_str;
  Some ((process_manager, correlation),
        {| saga_state := state; memory := default (JObject []) (get entry "memory");
           completed_compensations := read_ledger entry |}).
Definition read_sagas (given : option Json) : gmap SagaKey SagaInstance :=
  list_to_map (rev (omap read_saga (default [] (given ≫= as_array)))).

Definition key_compare (a b : SagaKey) : comparison :=
  match str_compare a.1 b.1 with Eq => str_compare a.2 b.2 | c => c end.
Definition compensation_json (c : CompletedCompensation) : Json :=
  JObject [("command_name", JStr (compensation_command c)); ("args", compensation_args c)].
Definition saga_json (entry : SagaKey * SagaInstance) : Json :=
  let '((process_manager, correlation), i) := entry in
  JObject [("process_manager", JStr process_manager); ("correlation", JStr correlation);
           ("state", JStr (saga_state i)); ("memory", memory i);
           ("completed_compensations", JArray (map compensation_json (rev (completed_compensations i))))].
Definition saga_snapshot_json (m : gmap SagaKey SagaInstance) : Json :=
  JArray (map saga_json (sort_by (λ a b, key_compare a.1 b.1) (map_to_list m))).

(** ** Records as JSON *)
Definition event_to_json (e : Event) : Json :=
  JObject [("name", JStr (event_name e)); ("aggregate", JStr (event_aggregate e)); ("id", JStr (event_id e));
           ("payload", event_payload e); ("occurred_at", opt_text (Dispatch.occurred_at e))].
Definition mutation_to_json (m : MutationRecord) : Json :=
  JObject [("aggregate", JStr (mutation_aggregate m)); ("id", JStr (mutation_id m));
           ("operation", JStr (mutation_operation m)); ("state", mutation_state m)].
Definition cross_domain_reaction_to_json (p : PendingCrossDomainReaction) : Json :=
  JObject [("policy", JStr (pending_policy p)); ("on", JStr (pending_event p));
           ("target_domain", JStr (pending_domain p)); ("target_verb", JStr (pending_verb p));
           ("payload", pending_payload p)].
Definition refusal_to_json (refused : str * Refusal) : Json :=
  JObject [("verb", JStr refused.1); ("error", JStr (message refused.2)); ("kind", JStr (kind refused.2))].
Definition error_output (text : str) : str := to_json_string (JObject [("error", JStr text)]).

Definition answered_entry (question : str) (offered rows : Json) (with_reference : bool) : Json :=
  JObject ([("query", JStr question); ("args", offered); ("rows", rows)]
           ++ if with_reference then [("reference_rows", rows)] else []).
Definition refused_entry (question : str) (offered : Json) (refusal : Refusal) (with_reference : bool) : Json :=
  JObject ([("query", JStr question); ("args", offered); ("rows", JNull); ("error", JStr (message refusal))]
           ++ if with_reference then [("reference_rows", JNull); ("reference_error", JStr (message refusal))] else []).

(** ** What a step is given *)
Definition routed (step : Json) : bool :=
  match get step "to", get step "with" with None, None => false | _, _ => true end.
Definition command_input (step legacy_args : Json) : Json := if routed step then step else legacy_args.
Definition dry_run_command_input (args : Json) : Json := JObject [("with", args)].
Definition dry_run_input (step args : Json) : Json := if routed step then step else dry_run_command_input args.
Definition step_text (step : Json) (key : str) : option str := get step key ≫= as_str.

Definition filter_label (filter : Json) : str :=
  "filter " ++ default [] (step_text filter "aggregate") ++ "." ++ default [] (step_text filter "field") ++ " "
  ++ default [] (step_text filter "op").

(** ** Questions *)
Definition in_quotes (text : str) : str := dquote ++ text ++ dquote.
Definition filter_shape : str :=
  "{" ++ join "," (map in_quotes ["aggregate"; "field"; "op"; "value"]) ++ "}".
Section questions.
Context `{U : UnicodeTables} `{X : RegexCrate} {St : Type} `{D : Domain St}.

Definition ungenerated_query (question : str) : Refusal := TypeMismatch ("named/declared query " ++ debug_str question
  ++ " is not generated for this domain — either unknown, or a real declared query whose shape this generator's codegen doesn't cover yet (cursor/consistency/freshness/inspection/index_hints, a where clause on a field the aggregate does not declare, or a literal comparator value whose true JSON type can't be recovered from the exported IR — hecks-codegen's manifest names which); a declared query with or without a where, ordered and bounded as declared, and the ad hoc filter shape ("
  ++ filter_shape ++ ") both execute for real").
Definition ungenerated_read_model (question : str) : Refusal := TypeMismatch ("named/declared read model " ++ debug_str question
  ++ " is not generated for this domain — either unknown, or a real declared read model whose shape this generator's codegen doesn't cover yet (anything beyond a root aggregate fetched by reference id plus reference-matched sibling heads — where/order_by/limit/offset/cursor/consistency/freshness/authorize(TenantScope)/nulls/inspect_query/use_index — rust/codegen/src/read_models.rs's own header has the full argument, including why where/order_by/limit specifically can never be recovered from the canonical IR at all); the named/declared AGGREGATE query form ("
  ++ in_quotes "Domain::Aggregate.Query" ++ ") and the ad hoc filter shape (" ++ filter_shape ++ ") both execute for real too").

Definition required_str (filter : Json) (key : str) : res str :=
  let? v := require filter key "query filter" in
  ok_or (as_str v) (TypeMismatch ("query filter " ++ debug_str key ++ " must be a string")).
Definition run_filter (st : St) (filter : Json) : res (list Json) :=
  let? aggregate := required_str filter "aggregate" in
  let? field := required_str filter "field" in
  let? op := required_str filter "op" in
  let? value := require filter "value" "query filter" in
  let? comparator := ok_or (comparator_parse op) (Fault ("unknown query comparator " ++ debug_str op)) in
  let? entries := ok_or (scan st aggregate) (Fault ("unknown aggregate " ++ debug_str aggregate)) in
  Ok (map (λ '(id, record), row_json id record) (filter_entries entries field comparator value)).

(** What a question adds to the answers and to the refusals. *)
Definition Asked : Type := list Json * list (str * Refusal).
Definition answer_question (question : str) (offered : Json) (with_reference : bool) (rows : res Json) : Asked :=
  match rows with
  | Ok rows => ([answered_entry question offered rows with_reference], [])
  | Err refusal => ([refused_entry question offered refusal with_reference], [(question, refusal)])
  end.
Definition ask_declared (st : St) (question : str) (args offered : Json) (role : option str) : Asked :=
  match find_entity entity_queries question with
  | Some def =>
    answer_question question offered true (let? rows := run_entity st def args in Ok (JArray rows))
  | None =>
    match find_query (queries domain_tables) question with
    | Some def =>
      answer_question question offered true
        (let? _ := check_query_args question args in
         let? entries := Query.run st def args role in
         Ok (JArray (map (λ '(id, record), row_json id record) entries)))
    | None => ([], [(question, ungenerated_query question)])
    end
  end.
Definition ask_read_model (st : St) (question : str) (args offered : Json) : Asked :=
  match find_read_model read_models question with
  | Some def =>
    answer_question question offered false (let? row := run_read_model st def args in Ok (JArray [row]))
  | None => ([], [(question, ungenerated_read_model question)])
  end.
Definition ask_question (st : St) (query args offered : Json) (role : option str) : Asked :=
  match query with
  | JStr question =>
    if contains question "::" then ask_declared st question args offered role
    else ask_read_model st question args offered
  | JObject _ =>
    match run_filter st query with
    | Ok rows => ([JObject [("query", query); ("rows", JArray rows)]], [])
    | Err refusal => ([], [(filter_label query, refusal)])
    end
  | _ => ([], [("query" : str, TypeMismatch ("a " ++ in_quotes "query"
                 ++ " step must be a string (named ask) or an object (ad hoc filter)"))])
  end.
End questions.

(** ** A run *)
Record Run (St S : Type) := {
  cascade : Cascade St S; refusals : list (str * Refusal);
  mutations_per_step : list (list MutationRecord);
  cross_domain_per_step : list (list PendingCrossDomainReaction);
  reactions_per_step : list (list Json);
  query_results : list Json; dry_runs : list Json; validations : list Json
}.
Arguments cascade {St S}. Arguments refusals {St S}. Arguments mutations_per_step {St S}.
Arguments cross_domain_per_step {St S}. Arguments reactions_per_step {St S}. Arguments query_results {St S}.
Arguments dry_runs {St S}. Arguments validations {St S}.

Definition with_host {St S} (h : S) (c : Cascade St S) : Cascade St S := {|
  store := store c; host := h; sagas := sagas c; all_events := all_events c; mutation_log := mutation_log c;
  cross_domain := cross_domain c; reaction_log := reaction_log c; saga_log := saga_log c |}.
(** The logs of one step, which a command step starts empty and hands over. *)
Definition fresh_step {St S} (c : Cascade St S) : Cascade St S := {|
  store := store c; host := host c; sagas := sagas c; all_events := all_events c; mutation_log := [];
  cross_domain := []; reaction_log := reaction_log c; saga_log := saga_log c |}.

Section running.
Context `{U : UnicodeTables} `{X : RegexCrate} {St S : Type} `{D : Domain St} `{HF : HostFacts S}.
Variable turns : nat.
Variable facts : Facts.

(** A step that is no command: what it answers, and empty logs. *)
Definition quiet_step (r : Run St S) (h : S) (asked : Asked) (dry checked : list Json) : Run St S := {|
  cascade := with_host h (cascade r); refusals := refusals r ++ asked.2;
  mutations_per_step := mutations_per_step r ++ [[]];
  cross_domain_per_step := cross_domain_per_step r ++ [[]];
  reactions_per_step := reactions_per_step r ++ [[]];
  query_results := query_results r ++ asked.1; dry_runs := dry_runs r ++ dry;
  validations := validations r ++ checked |}.

Definition step_args (step : Json) : Json := default (JObject []) (get step "args").
Definition query_step (r : Run St S) (step query : Json) : Run St S :=
  let offered := step_args step in
  let (filled, h) := match query with
    | JStr question => enrich_query facts question offered (step_text step "occurred_at") (host (cascade r))
    | _ => (None, host (cascade r))
    end in
  quiet_step r h
    (ask_question (store (cascade r)) query (default offered filled) offered (step_text step "role")) [] [].
Definition dry_run_step (r : Run St S) (step : Json) (verb : str) : Run St S :=
  let (answer, h) := dry_run dispatch_by_name facts (store (cascade r)) verb (dry_run_input step (step_args step))
    (step_text step "role") (step_text step "actor_id") (step_text step "occurred_at") (host (cascade r)) in
  quiet_step r h ([], []) [answer] [].
Definition validate_step (r : Run St S) (step : Json) (verb : str) : Run St S :=
  let (answer, h) := validation dispatch_by_name facts (store (cascade r)) verb (dry_run_input step (step_args step))
    (step_text step "role") (step_text step "actor_id") (step_text step "occurred_at") (host (cascade r)) in
  quiet_step r h ([], []) [] [answer].

Definition orchestrate_step (step : Json) (verb : str) (c : Cascade St S) : option (res unit * Cascade St S) :=
  orchestrate domain_tables facts (step_text step "occurred_at") stored_dispatch turns verb
    (command_input step (step_args step)) (step_text step "role") (step_text step "actor_id") None 0 c.
Definition command_step (r : Run St S) (step : Json) (verb : str) : option (Run St S) :=
  '(outcome, c) ← orchestrate_step step verb (fresh_step (cascade r));
  Some {|
    cascade := fresh_step c;
    refusals := refusals r ++ match outcome with Ok _ => [] | Err refusal => [(verb, refusal)] end;
    mutations_per_step := mutations_per_step r ++ [mutation_log c];
    cross_domain_per_step := cross_domain_per_step r ++ [cross_domain c];
    reactions_per_step := reactions_per_step r ++ [drop (length (reaction_log (cascade r))) (reaction_log c)];
    query_results := query_results r; dry_runs := dry_runs r; validations := validations r |}.

Definition step_missing : str := "step missing " ++ in_quotes "verb" ++ ", " ++ in_quotes "dry_run" ++ ", "
  ++ in_quotes "validate" ++ ", or " ++ in_quotes "query".
Definition run_step (r : Run St S) (step : Json) : option (result str (Run St S)) :=
  match get step "query" with
  | Some query => Some (Ok (query_step r step query))
  | None =>
    match step_text step "dry_run", step_text step "validate", step_text step "verb" with
    | Some verb, _, _ => Some (Ok (dry_run_step r step verb))
    | None, Some verb, _ => Some (Ok (validate_step r step verb))
    | None, None, Some verb => r' ← command_step r step verb; Some (Ok r')
    | None, None, None => Some (Err step_missing)
    end
  end.
(** The loop; an error returns at once. *)
Fixpoint run_steps (r : Run St S) (steps : list Json) : option (result str (Run St S)) :=
  match steps with
  | [] => Some (Ok r)
  | step :: rest =>
    match run_step r step with
    | Some (Ok r') => run_steps r' rest
    | other => other
    end
  end.

Definition run_output (r : Run St S) : Json := JObject [
  ("instances", JObject (instances (store (cascade r))));
  ("events", JArray (map event_to_json (all_events (cascade r))));
  ("refusals", JArray (map refusal_to_json (refusals r)));
  ("dry_runs", JArray (dry_runs r)); ("validations", JArray (validations r));
  ("mutations", JArray (map (λ ms, JArray (map mutation_to_json ms)) (mutations_per_step r)));
  ("queries", JArray (query_results r));
  ("cross_domain_reactions",
    JArray (map (λ ps, JArray (map cross_domain_reaction_to_json ps)) (cross_domain_per_step r)));
  ("reactions", JArray (reaction_log (cascade r)));
  ("reactions_per_step", JArray (map JArray (reactions_per_step r)));
  ("sagas", JArray (saga_log (cascade r)));
  ("saga_snapshot", saga_snapshot_json (sagas (cascade r)))].

Definition start_run (st : St) (h : S) (ss : gmap SagaKey SagaInstance) : Run St S := {|
  cascade := {| store := st; host := h; sagas := ss; all_events := []; mutation_log := []; cross_domain := [];
                reaction_log := []; saga_log := [] |};
  refusals := []; mutations_per_step := []; cross_domain_per_step := []; reactions_per_step := [];
  query_results := []; dry_runs := []; validations := [] |}.
End running.

(** ** [run] *)
Section run.
Context `{U : UnicodeTables} `{X : RegexCrate} {St S : Type} `{D : Domain St} `{HF : HostFacts S}.

Definition installed (parsed : Json) (facts : Facts) : Facts :=
  install_defaults (get parsed "defaults")
    (install_queries (get parsed "query_needs") (install (get parsed "needs") facts)).
Definition steps_expected : str :=
  "expected a top-level {" ++ in_quotes "steps" ++ ": [...]} object".
Definition seeded_store (parsed : Json) : res St :=
  match get parsed "seed" with Some seed => from_seed seed | None => Ok store_new end.
Definition run_presented (parsed : Json) (input : str) : str :=
  let answer := match parse_keeping_number_text input with
    | Ok whole => default JNull (get whole "present")
    | Err _ => JNull
    end in
  to_json_string (present_answer answer
    (match get parsed "ir" with Some ir => ir_present (from_ir ir) | None => generated_present end)).
Definition run_parsed (turns : nat) (facts : Facts) (h : S) (parsed : Json) : option str :=
  match get parsed "steps" ≫= as_array with
  | None => Some (error_output steps_expected)
  | Some steps =>
    match seeded_store parsed with
    | Err refusal => Some (error_output ("invalid seed: " ++ message refusal))
    | Ok st =>
      outcome ← run_steps turns (installed parsed facts) (start_run st h (read_sagas (get parsed "sagas"))) steps;
      Some (match outcome with Ok r => to_json_string (run_output r) | Err text => error_output text end)
    end
  end.
Definition run_input (turns : nat) (facts : Facts) (h : S) (input : str) : option str :=
  match Json.parse input with
  | Err e => Some (error_output ("invalid JSON on stdin: " ++ e))
  | Ok parsed =>
    match get parsed "present" with
    | Some _ => Some (run_presented parsed input)
    | None => run_parsed turns facts h parsed
    end
  end.
End run.

(** ** A session of [--serve] *)
Record Session (St : Type) := {
  session_store : St; session_sagas : gmap SagaKey SagaInstance;
  session_reactions : list Json; session_saga_log : list Json;
  snapshot : option (St * gmap SagaKey SagaInstance)
}.
Arguments session_store {St}. Arguments session_sagas {St}. Arguments session_reactions {St}.
Arguments session_saga_log {St}. Arguments snapshot {St}.

Definition refusal_answer (text : str) : Json := JObject [("ok", JBool false); ("error", JStr text)].
Definition ok_answer : Json := JObject [("ok", JBool true)].

Section session.
Context `{U : UnicodeTables} `{X : RegexCrate} {St S : Type} `{D : Domain St} `{HF : HostFacts S}.
Variable turns : nat.
Variable facts : Facts.

Definition new_session : Session St := {|
  session_store := store_new; session_sagas := ∅; session_reactions := []; session_saga_log := [];
  snapshot := None |}.
Definition take_snapshot (s : Session St) : Session St := {|
  session_store := session_store s; session_sagas := session_sagas s; session_reactions := session_reactions s;
  session_saga_log := session_saga_log s; snapshot := Some (session_store s, session_sagas s) |}.
Definition restored (s : Session St) (st : St) (ss : gmap SagaKey SagaInstance) : Session St := {|
  session_store := st; session_sagas := ss; session_reactions := session_reactions s;
  session_saga_log := session_saga_log s; snapshot := snapshot s |}.
Definition session_command (s : Session St) (h : S) (step : Json) (verb : str) : option (Json * Session St * S) :=
  '(outcome, c) ← orchestrate_step turns facts step verb
    {| store := session_store s; host := h; sagas := session_sagas s; all_events := []; mutation_log := [];
       cross_domain := []; reaction_log := session_reactions s; saga_log := session_saga_log s |};
  Some (match outcome with
        | Ok _ => JObject [("ok", JBool true); ("events", JArray (map event_to_json (all_events c)))]
        | Err refusal => refusal_answer (message refusal)
        end,
        {| session_store := store c; session_sagas := sagas c; session_reactions := reaction_log c;
           session_saga_log := saga_log c; snapshot := snapshot s |},
        host c).

(** [Session::handle]. *)
Definition handle (s : Session St) (h : S) (step : Json) : option (Json * Session St * S) :=
  match get step "snapshot", get step "restore", get step "instances",
        step_text step "dry_run", step_text step "verb" with
  | Some _, _, _, _, _ => Some (ok_answer, take_snapshot s, h)
  | None, Some _, _, _, _ =>
    Some (match snapshot s with
          | Some (st, ss) => (ok_answer, restored s st ss, h)
          | None => (refusal_answer "no snapshot to restore", s, h)
          end)
  | None, None, Some _, _, _ =>
    Some (JObject [("ok", JBool true); ("instances", JObject (instances (session_store s)))], s, h)
  | None, None, None, Some verb, _ =>
    let (answer, h') := dry_run dispatch_by_name facts (session_store s) verb (dry_run_command_input (step_args step))
      (step_text step "role") (step_text step "actor_id") (step_text step "occurred_at") h in
    Some (answer, s, h')
  | None, None, None, None, Some verb => session_command s h step verb
  | None, None, None, None, None =>
    Some (refusal_answer "step needs verb, dry_run, snapshot, restore, or instances", s, h)
  end.
End session.
