(* ===== verification/CommandLineFacts.v ===== *)
(** What a run of the command line keeps: saga snapshots read back, logs in
    step, questions that change nothing, sessions restored; and a run resumed from a
    snapshot of another. *)
From stdpp Require Import gmap.
From S2P Require Export CommandLine OrchestrateFacts.

(** ** Saga snapshots *)
Lemma omap_map_read {A B} (read : B → option A) (write : A → B) (l : list A) :
  (∀ x, read (write x) = Some x) → omap read (map write l) = l.
Proof. intros H. induction l as [|x l IH]; [done|]. cbn [map omap list_omap]. by rewrite H, IH. Qed.
Lemma read_compensation_json c : read_compensation (compensation_json c) = Some c.
Proof. by destruct c. Qed.
Lemma read_ledger_json entry : read_ledger (saga_json entry) = completed_compensations entry.2.
Proof.
  destruct entry as [[pm cor] i]. unfold read_ledger.
  change (get (saga_json (pm, cor, i)) "completed_compensations")
    with (Some (JArray (map compensation_json (rev (completed_compensations i))))).
  cbn [mbind option_bind as_array default from_option id snd].
  rewrite omap_map_read by apply read_compensation_json. apply rev_involutive.
Qed.
Lemma read_saga_json entry : read_saga (saga_json entry) = Some entry.
Proof.
  destruct entry as [[pm cor] i]. unfold read_saga. rewrite read_ledger_json. by destruct i.
Qed.

Lemma read_snapshot (m : gmap SagaKey SagaInstance) : read_sagas (Some (saga_snapshot_json m)) = m.
Proof.
  unfold read_sagas, saga_snapshot_json. cbn [mbind option_bind as_array default from_option id].
  set (sorted := sort_by _ (map_to_list m)).
  rewrite omap_map_read by apply read_saga_json.
  assert (rev sorted ≡ₚ map_to_list m) as Hp by (rewrite <- Permutation_rev; apply sort_by_perm).
  transitivity (list_to_map (M := gmap SagaKey SagaInstance) (map_to_list m)); [|apply list_to_map_to_list].
  apply list_to_map_proper; [|done]. rewrite Hp. apply NoDup_fst_map_to_list.
Qed.

(** The sagas a run ends with are the sagas the next run begins with.
    Reading a saga snapshot gives back every live conversation: its state, its
    memory and its ledger of compensations in the order they would be undone. *)
Theorem saga_snapshot_read_back (m : gmap SagaKey SagaInstance) :
  read_sagas (Some (saga_snapshot_json m)) = m.
Proof. apply read_snapshot. Qed.

(** ** The steps of a run *)
Section run_facts.
Context `{U : UnicodeTables} `{X : RegexCrate} {St S : Type} `{D : Domain St} `{HF : HostFacts S}.
Variable turns : nat.
Variable facts : Facts.
Abbreviation steps_from := (run_steps (S := S) turns facts).

Definition reactions_prefix (c c' : Cascade St S) : Prop := reaction_log c `prefix_of` reaction_log c'.
#[local] Instance reactions_prefix_preorder : PreOrder reactions_prefix.
Proof. split; [intros c; unfold reactions_prefix; done|]. intros a b c. unfold reactions_prefix. by etrans. Qed.
Lemma respects_reactions tables ts dispatch_fn :
  Respects (HF := HF) tables facts ts dispatch_fn 0 reactions_prefix.
Proof.
  split; try apply _; intros; try (intros c0 a c1 [= <- <-]); unfold reactions_prefix; simpl;
    try (first [done|by apply prefix_app_r]).
  - intros c a c'. unfold enrich_args. destruct (enrich _ _ _ _ _) as [? ?]. by intros [= <- <-].
  - intros c a c'. unfold dispatch_stored. destruct (dispatch_fn _ _ _ _ _) as [r [st log]]. by intros [= <- <-].
Qed.
Lemma orchestrate_step_reactions step verb c r c' :
  orchestrate_step turns facts step verb c = Some (r, c') → reaction_log c `prefix_of` reaction_log c'.
Proof. by apply (orchestrate_keeps (HF := HF) _ _ _ _ reactions_prefix (respects_reactions _ _ _)). Qed.

(** The logs kept per step line up. *)
Record aligned (n : nat) (r : Run St S) : Prop := {
  aligned_mutations : length (mutations_per_step r) = n;
  aligned_cross_domain : length (cross_domain_per_step r) = n;
  aligned_reactions : length (reactions_per_step r) = n;
  aligned_concat : concat (reactions_per_step r) = reaction_log (cascade r)
}.
Lemma aligned_quiet n r h asked dry checked : aligned n r → aligned (Datatypes.S n) (quiet_step r h asked dry checked).
Proof. intros []. split; simpl; rewrite ?length_app, ?concat_app; simpl; rewrite ?app_nil_r; (lia || done). Qed.
Lemma aligned_command n r step verb r' : aligned n r →
  command_step turns facts r step verb = Some r' → aligned (Datatypes.S n) r'.
Proof.
  intros []. unfold command_step. intros ([outcome c]&Ho&[= <-])%bind_Some.
  apply orchestrate_step_reactions in Ho as [more Hm]. simpl in Hm.
  split; simpl; rewrite ?length_app, ?concat_app; simpl; rewrite ?app_nil_r; try lia.
  rewrite Hm, drop_app_length. by rewrite aligned_concat0.
Qed.

(** A step that asks: a question, a dry run or a validation. *)
Definition asks (step : Json) : bool :=
  match get step "query", step_text step "dry_run", step_text step "validate" with
  | None, None, None => false
  | _, _, _ => true
  end.

Lemma run_step_shape r step :
  (∃ h asked dry checked, run_step turns facts r step = Some (Ok (quiet_step r h asked dry checked))) ∨
  asks step = false ∧
  ((∃ verb, run_step turns facts r step = match command_step turns facts r step verb with
                                          | Some r' => Some (Ok r') | None => None end) ∨
   run_step turns facts r step = Some (Err step_missing)).
Proof.
  unfold run_step, asks. destruct (get step "query") as [query|].
  { left. unfold query_step. destruct (match query with JStr _ => _ | _ => _ end). by do 4 eexists. }
  destruct (step_text step "dry_run").
  { left. unfold dry_run_step. destruct (dry_run _ _ _ _ _ _ _ _ _). by do 4 eexists. }
  destruct (step_text step "validate").
  { left. unfold validate_step. destruct (validation _ _ _ _ _ _ _ _ _). by do 4 eexists. }
  right. split; [done|]. destruct (step_text step "verb"); [left; by eexists|by right].
Qed.

Lemma run_steps_aligned steps n r r' : aligned n r →
  steps_from r steps = Some (Ok r') → aligned (n + length steps) r'.
Proof.
  revert n r. induction steps as [|step steps IH]; intros n r Ha; cbn [run_steps length].
  { intros [= <-]. by rewrite Nat.add_0_r. }
  rewrite Nat.add_succ_r, <- Nat.add_succ_l.
  destruct (run_step_shape r step) as [(h&asked&dry&checked&->)|[_ [[verb ->]| ->]]]; [| |done].
  - eapply IH. by apply aligned_quiet.
  - destruct (command_step turns facts r step verb) as [r1|] eqn:Ec; [|done].
    apply IH. by eapply aligned_command.
Qed.

(** A run's logs are in step with its steps.  A run that answers has one
    entry of mutations, of cross-domain reactions and of reactions for every
    step, whatever kind it was and whether or not it was refused, so the last of
    each is the last step's; and the reactions of the steps, end to end, are the
    whole run's reaction log. *)
Theorem run_logs_in_step (st : St) (h : S) (ss : gmap SagaKey SagaInstance) (steps : list Json) (r : Run St S) :
  steps_from (start_run st h ss) steps = Some (Ok r) →
  length (mutations_per_step r) = length steps ∧ length (cross_domain_per_step r) = length steps ∧
  length (reactions_per_step r) = length steps ∧ concat (reactions_per_step r) = reaction_log (cascade r).
Proof. intros H. by apply (run_steps_aligned steps 0) in H as []. Qed.

(** Asking changes nothing.  However many questions, dry runs and
    validations a run holds, it ends with the store, the conversations, the
    events and the logs it began with; all they leave is their answers. *)
Theorem asking_changes_nothing (r r' : Run St S) (steps : list Json) :
  Forall (λ step, asks step = true) steps → steps_from r steps = Some (Ok r') →
  store (cascade r') = store (cascade r) ∧ sagas (cascade r') = sagas (cascade r) ∧
  all_events (cascade r') = all_events (cascade r) ∧ reaction_log (cascade r') = reaction_log (cascade r) ∧
  saga_log (cascade r') = saga_log (cascade r).
Proof.
  intros Hs. revert r. induction Hs as [|step steps Hstep _ IH]; intros r; cbn [run_steps]; [by intros [= <-]|].
  destruct (run_step_shape r step) as [(h&asked&dry&checked&->)|[Hn _]]; [|by rewrite Hn in Hstep].
  apply (IH (quiet_step r h asked dry checked)).
Qed.

(** A run of two lists of steps is the run of the second after the first. *)
Lemma run_steps_app r steps steps' :
  steps_from r (steps ++ steps') =
  match steps_from r steps with Some (Ok r') => steps_from r' steps' | other => other end.
Proof.
  revert r. induction steps as [|step steps IH]; intros r; [done|]. cbn [run_steps app].
  by destruct (run_step turns facts r step) as [[r'|]|].
Qed.
End run_facts.

(** Replaying from a snapshot: what a cascade, and a run of the command line,
    does depends on the store, the conversations and the host alone, and what it
    logs is only added to the logs it was given.  So a host may run new steps
    over the state a past run ended in, in place of running the past again. *)

(** ** A cascade over longer logs *)
Section frame.
Context {St S : Type}.
(** What was logged before. *)
Record Past := { past_events : list Event; past_reactions : list Json; past_sagas : list Json }.
Variable past : Past.
Definition over_past (c : Cascade St S) : Cascade St S := {|
  store := store c; host := host c; sagas := sagas c; all_events := past_events past ++ all_events c;
  mutation_log := mutation_log c; cross_domain := cross_domain c;
  reaction_log := past_reactions past ++ reaction_log c; saga_log := past_sagas past ++ saga_log c |}.

(** A step that answers alike over any past, and logs alike after it. *)
Definition framed {A} (m : Step (St := St) (S := S) A) : Prop :=
  ∀ c, m (over_past c) = match m c with Some (a, c') => Some (a, over_past c') | None => None end.

Lemma framed_done {A} (a : A) : framed (done_with a).
Proof. done. Qed.
Lemma framed_out {A} : framed (@out_of_turns St S A).
Proof. done. Qed.
Lemma framed_ask {A} (f : Cascade St S → A) : (∀ c, f (over_past c) = f c) → framed (ask_cascade f).
Proof. intros Hf c. unfold ask_cascade. by rewrite Hf. Qed.
Lemma framed_change f : (∀ c, f (over_past c) = over_past (f c)) → framed (change f).
Proof. intros Hf c. unfold change. by rewrite Hf. Qed.
Lemma framed_andThen {A B} (m : Step A) (k : A → Step B) :
  framed m → (∀ a, framed (k a)) → framed (andThen m k).
Proof. intros Hm Hk c. unfold andThen. rewrite Hm. destruct (m c) as [[a c']|]; [apply Hk|done]. Qed.
Lemma framed_each {A} (l : list A) (body : A → Step unit) : (∀ a, framed (body a)) → framed (each l body).
Proof.
  intros Hb. induction l as [|a l IH]; [apply framed_done|]. by apply (framed_andThen (body a) (λ _, each l body)).
Qed.
Lemma framed_log_saga j : framed (log_saga j).
Proof. apply framed_change. intros c. unfold over_past. simpl. by rewrite <- app_assoc. Qed.
Lemma framed_log_reaction j : framed (log_reaction j).
Proof. apply framed_change. intros c. unfold over_past. simpl. by rewrite <- app_assoc. Qed.
Lemma framed_log_events evs : framed (log_events evs).
Proof. apply framed_change. intros c. unfold over_past. simpl. by rewrite <- app_assoc. Qed.
Lemma framed_pend p : framed (pend p).
Proof. by apply framed_change. Qed.
Lemma framed_with_sagas f : framed (change (with_sagas f)).
Proof. by apply framed_change. Qed.
End frame.

(** One step of the walk over a cascade's code. *)
Ltac frame :=
  repeat first
    [ apply framed_done | apply framed_out | apply framed_log_saga | apply framed_log_reaction
    | apply framed_log_events | apply framed_pend | apply framed_with_sagas
    | apply framed_ask; done
    | apply framed_andThen; [|intros ?]
    | apply framed_each; intros ?
    | assumption
    | match goal with
      | |- framed _ (match ?x with _ => _ end) => destruct x
      | |- framed _ (if ?x then _ else _) => destruct x
      | |- framed _ (let '(_, _) := ?x in _) => destruct x
      end
    | progress cbn beta iota zeta ].

Section cascades.
Context `{U : UnicodeTables} `{X : RegexCrate} {St S : Type} `{SS : AggregateScan St} `{HF : HostFacts S}.
Variable past : Past.
Variable tables : Tables.
Variable facts : Facts.
Variable ts : option str.
Variable dispatch_fn : str → Json → option str → option str → M (St * list MutationRecord) (list Event).
#[local] Abbreviation Runs := (str → Json → option (gmap str str) → nat → Step (St := St) (S := S) (res unit)).

Lemma framed_enrich verb args : framed past (enrich_args (St := St) (S := S) facts ts verb args).
Proof. intros c. unfold enrich_args. simpl. by destruct (enrich _ _ _ _ _). Qed.
Lemma framed_dispatch verb args role actor : framed past (dispatch_stored (S := S) dispatch_fn verb args role actor).
Proof. intros c. unfold dispatch_stored. simpl. by destruct (dispatch_fn _ _ _ _ _). Qed.

Section one_run.
Variable run : Runs.
Hypothesis Hrun : ∀ verb args stamp depth, framed past (run verb args stamp depth).

Lemma framed_react_policies event depth : framed past (react_policies tables run event depth).
Proof using Hrun. unfold react_policies, react_policy, pend_cross_domain, log_outcome. frame; apply Hrun. Qed.
Lemma framed_begin_saga event : framed past (begin_saga (St := St) (S := S) tables event).
Proof. unfold begin_saga, begin_one. frame. Qed.
Lemma framed_end_saga event : framed past (end_saga (St := St) (S := S) tables event).
Proof. unfold end_saga, end_one. frame. Qed.
Lemma framed_deliver l spec args depth rargs : framed past (deliver_saga_dispatch run l spec args depth rargs).
Proof using Hrun. unfold deliver_saga_dispatch. frame; apply Hrun. Qed.
Lemma framed_derived l entry depth : framed past (deliver_derived_compensation run l entry depth).
Proof using Hrun. unfold deliver_derived_compensation. frame; apply Hrun. Qed.
Lemma framed_drain turns l depth : framed past (drain turns run l depth).
Proof using Hrun. induction turns as [|turns IH]; simpl; frame; apply framed_derived. Qed.
Lemma framed_deliver_all l event mem depth specs : framed past (deliver_all tables run l event mem depth specs).
Proof using Hrun. induction specs as [|spec specs IH]; simpl; frame; apply framed_deliver. Qed.
Lemma framed_compensate turns l event mem depth : framed past (compensate tables turns run l event mem depth).
Proof using Hrun. unfold compensate. frame; first [apply framed_drain|apply framed_deliver_all]. Qed.
Lemma framed_advance_saga turns event depth : framed past (advance_saga tables turns run event depth).
Proof using Hrun. unfold advance_saga, advance_one. frame; first [apply framed_deliver_all|apply framed_drain]. Qed.
Lemma framed_run_body turns verb args role actor stamp depth :
  framed past (run_body tables facts ts dispatch_fn turns run verb args role actor stamp depth).
Proof using Hrun.
  unfold run_body. apply framed_andThen; [apply framed_enrich|intros args'].
  apply framed_andThen; [apply framed_dispatch|intros [events|refusal]; [|frame]].
  apply framed_andThen; [frame|intros _]. apply framed_andThen; [|intros _; frame].
  apply framed_each. intros event. unfold react.
  apply framed_andThen; [apply framed_react_policies|intros _].
  apply framed_andThen; [apply framed_begin_saga|intros _].
  apply framed_andThen; [apply framed_advance_saga|intros _; apply framed_end_saga].
Qed.
End one_run.

Lemma framed_reaction_run turns : ∀ verb args stamp depth,
  framed past (reaction_run tables facts ts dispatch_fn turns verb args stamp depth).
Proof. induction turns as [|turns IH]; intros; [apply framed_out|by apply framed_run_body]. Qed.
Lemma framed_orchestrate turns verb args role actor stamp depth :
  framed past (orchestrate tables facts ts dispatch_fn turns verb args role actor stamp depth).
Proof. apply framed_run_body, framed_reaction_run. Qed.
End cascades.

(** ** A run over a longer past *)
Section runs.
Context `{U : UnicodeTables} `{X : RegexCrate} {St S : Type} `{D : Domain St} `{HF : HostFacts S}.
Variable turns : nat.
Variable facts : Facts.

(** What a run is after another: the logs and answers of both, in order, and
    the state of the later one. *)
Definition run_past (r : Run St S) : Past := {|
  past_events := all_events (cascade r); past_reactions := reaction_log (cascade r);
  past_sagas := saga_log (cascade r) |}.
Definition after_run (before r : Run St S) : Run St S := {|
  cascade := over_past (run_past before) (cascade r);
  refusals := refusals before ++ refusals r;
  mutations_per_step := mutations_per_step before ++ mutations_per_step r;
  cross_domain_per_step := cross_domain_per_step before ++ cross_domain_per_step r;
  reactions_per_step := reactions_per_step before ++ reactions_per_step r;
  query_results := query_results before ++ query_results r;
  dry_runs := dry_runs before ++ dry_runs r; validations := validations before ++ validations r |}.

Lemma quiet_after before r h asked dry checked :
  quiet_step (after_run before r) h asked dry checked = after_run before (quiet_step r h asked dry checked).
Proof. unfold quiet_step, after_run, over_past, with_host. simpl. by rewrite <- !app_assoc. Qed.

Lemma command_after before r step verb :
  command_step turns facts (after_run before r) step verb =
  match command_step turns facts r step verb with Some r' => Some (after_run before r') | None => None end.
Proof.
  unfold command_step, orchestrate_step.
  change (fresh_step (cascade (after_run before r))) with (over_past (run_past before) (fresh_step (cascade r))).
  rewrite framed_orchestrate. destruct (orchestrate _ _ _ _ _ _ _ _ _ _ _ _) as [[outcome c]|]; [|done].
  cbn [mbind option_bind]. f_equal. unfold after_run. simpl. rewrite <- !app_assoc. do 2 f_equal.
  rewrite length_app, drop_app_ge by lia. do 4 f_equal. lia.
Qed.

Lemma run_step_after before r step :
  run_step turns facts (after_run before r) step =
  match run_step turns facts r step with
  | Some (Ok r') => Some (Ok (after_run before r'))
  | other => other
  end.
Proof.
  unfold run_step. destruct (get step "query") as [query|].
  { unfold query_step. simpl. destruct (match query with JStr _ => _ | _ => _ end). by rewrite quiet_after. }
  destruct (step_text step "dry_run").
  { unfold dry_run_step. simpl. destruct (dry_run _ _ _ _ _ _ _ _ _). by rewrite quiet_after. }
  destruct (step_text step "validate").
  { unfold validate_step. simpl. destruct (validation _ _ _ _ _ _ _ _ _). by rewrite quiet_after. }
  destruct (step_text step "verb"); [|done]. rewrite command_after. by destruct (command_step _ _ _ _ _).
Qed.
Lemma run_steps_after before r steps :
  run_steps turns facts (after_run before r) steps =
  match run_steps turns facts r steps with
  | Some (Ok r') => Some (Ok (after_run before r'))
  | other => other
  end.
Proof.
  revert r. induction steps as [|step steps IH]; intros r; [done|]. cbn [run_steps].
  rewrite run_step_after. destruct (run_step turns facts r step) as [[r'|]|]; [apply IH|done|done].
Qed.

(** Between steps a run holds no log of one. *)
Definition between_steps (r : Run St S) : Prop := fresh_step (cascade r) = cascade r.
Lemma run_steps_between steps r r' :
  between_steps r → run_steps turns facts r steps = Some (Ok r') → between_steps r'.
Proof.
  revert r. induction steps as [|step steps IH]; intros r Hb; cbn [run_steps]; [by intros [= <-]|].
  destruct (run_step_shape turns facts r step) as [(h&asked&dry&checked&->)|[_ [[verb ->]| ->]]]; [| |done].
  - apply IH. unfold between_steps, quiet_step, fresh_step, with_host in *. destruct r as [[] ]; simpl in *. by simplify_eq.
  - unfold command_step. destruct (orchestrate_step _ _ _ _ _) as [[outcome c]|]; [|done]. by apply IH.
Qed.
Lemma after_snapshot r : between_steps r →
  after_run r (start_run (store (cascade r)) (host (cascade r)) (sagas (cascade r))) = r.
Proof.
  unfold between_steps, after_run, over_past, fresh_step. destruct r as [[] ]. simpl. intros ?. simplify_eq.
  by rewrite !app_nil_r.
Qed.

(** The next run's state, as the answer of this one gives it. *)
Definition next_input (r : Run St S) : Json := JObject [
  ("seed", default JNull (get (run_output r) "instances"));
  ("sagas", default JNull (get (run_output r) "saga_snapshot"))].

(** C9: a run resumes from its snapshot.  Where the generated store reads back
    the instances it writes, running the past steps and then more answers what
    running only the new steps does over the instances and the saga snapshot the
    past run answered with: the same final state, the same error where there is
    one, and each log and answer the past's followed by the resumed run's.  No
    command, policy, saga leg or query of the new steps can tell the two apart. *)
Theorem run_resumes_from_snapshot (st st' : St) (h : S) (ss : gmap SagaKey SagaInstance) (past more : list Json)
    (r : Run St S) :
  run_steps turns facts (start_run st h ss) past = Some (Ok r) →
  from_seed (JObject (instances (store (cascade r)))) = Ok (store (cascade r)) →
  seeded_store (next_input r) = Ok st' →
  run_steps turns facts (start_run st h ss) (past ++ more) =
  match run_steps turns facts (start_run st' (host (cascade r)) (read_sagas (get (next_input r) "sagas"))) more with
  | Some (Ok r') => Some (Ok (after_run r r'))
  | other => other
  end.
Proof.
  intros Hr Hseed Hst. rewrite run_steps_app, Hr.
  change (seeded_store (next_input r)) with (from_seed (JObject (instances (store (cascade r)))) : res St) in Hst.
  rewrite Hseed in Hst. injection Hst as <-.
  change (get (next_input r) "sagas") with (Some (saga_snapshot_json (sagas (cascade r)))).
  rewrite read_snapshot, <- run_steps_after, after_snapshot; [done|].
  by apply (run_steps_between past (start_run st h ss)).
Qed.
End runs.

(** ** Instances *)
(** The bank of [OrchestrateFacts]: its store lists the commands carried out. *)
#[local] Instance transfer_domain : Domain (list str) := {|
  domain_scan := carried_out; store_new := [];
  from_seed seed := match seed with JObject fields => Ok (map fst fields) | _ => Ok [] end;
  instances done := map (λ verb, (verb, JNull)) done;
  dispatch_by_name verb args role actor := λ w,
    let (r, s) := transfer_router verb args role actor (repo w, mutations w) in
    (r, {| repo := s.1; mutations := s.2; collected := collected w |});
  domain_tables := transfer_tables []; read_models := []; entity_queries := [];
  check_query_args _ _ := Ok tt; generated_present _ state := state
|}.
Definition start_transfer : Json := JObject [("verb", JStr "Bank::Transfer.Start"); ("args", JObject [])].
Definition rehearse_transfer : Json := JObject [("dry_run", JStr "Bank::Transfer.Start"); ("args", JObject [])].
Definition run_bank (done : list str) (steps : list Json) : option (result str (Run (list str) unit)) :=
  @run_steps ascii_tables no_regex (list str) unit transfer_domain stopped_clock 6 no_facts
    (start_run done tt ∅) steps.
Definition ran (o : option (result str (Run (list str) unit))) : Run (list str) unit :=
  match o with Some (Ok r) => r | _ => start_run [] tt ∅ end.

Lemma bank_runs : run_bank [] [start_transfer; rehearse_transfer] =
  Some (Ok (ran (run_bank [] [start_transfer; rehearse_transfer]))).
Proof. vm_compute. reflexivity. Qed.

Lemma run_logs_in_step_witness :
  length (mutations_per_step (ran (run_bank [] [start_transfer; rehearse_transfer]))) = 2%nat.
Proof.
  refine (proj1 (@run_logs_in_step ascii_tables no_regex (list str) unit transfer_domain stopped_clock 6 no_facts
    [] tt ∅ [start_transfer; rehearse_transfer] _ _)). exact bank_runs.
Defined.
Lemma asking_changes_nothing_witness :
  store (cascade (ran (run_bank ["Bank::Transfer.Start"] [rehearse_transfer]))) = ["Bank::Transfer.Start" : str].
Proof.
  refine (proj1 (@asking_changes_nothing ascii_tables no_regex (list str) unit transfer_domain stopped_clock 6 no_facts
    (start_run ["Bank::Transfer.Start"] tt ∅) _ [rehearse_transfer] _ _)).
  - repeat constructor.
  - vm_compute. reflexivity.
Defined.
Lemma run_resumes_from_snapshot_witness :
  let r := ran (run_bank [] [start_transfer]) in
  let resumed := @run_steps ascii_tables no_regex (list str) unit transfer_domain stopped_clock 6 no_facts
    (start_run (store (cascade r)) tt (sagas (cascade r))) [start_transfer] in
  run_bank [] ([start_transfer] ++ [start_transfer]) = Some (Ok (after_run r (ran resumed))).
Proof.
  intros r resumed. unfold run_bank.
  rewrite (@run_resumes_from_snapshot ascii_tables no_regex (list str) unit transfer_domain stopped_clock 6 no_facts
    [] (store (cascade r)) tt ∅ [start_transfer] [start_transfer] r); [|vm_compute; reflexivity..].
  vm_compute. reflexivity.
Defined.
