(* ===== verification/Serve.v ===== *)
(** The host protocol over a line-framed stream
    ([src/rust/src/kernel/serve.rs]): a connection's sessions, the frames it
    reads and writes, and the callback a dispatch asks the host through.  The
    two ends of the stream are a state: the lines still to be read, the frames
    written, and the number of callbacks; when the host stops taking frames, and
    what its clock reads, are arguments. *)
From stdpp Require Import gmap.
From S2P Require Export CommandLineFacts.

Definition SUPPORTED : list Z := [1].
Definition FEATURES : list str := ["sessions"; "callbacks"].

(** ** [Wire] *)
Record Wire (T : Type) := { incoming : list str; outgoing : list Json; asked : Z; clock : T }.
Arguments incoming {T}. Arguments outgoing {T}. Arguments asked {T}. Arguments clock {T}.
(** The outside: whether the host takes one more frame after those written, and
    the system clock. *)
Class Outside (T : Type) := {
  host_takes : list Json → bool;
  read_clock : T → Z * T
}.

Section wire.
Context `{U : UnicodeTables} {T : Type} `{Out : Outside T}.

Definition read_line (w : Wire T) : option str * Wire T :=
  match incoming w with
  | [] => (None, w)
  | line :: rest => (Some line, {| incoming := rest; outgoing := outgoing w; asked := asked w; clock := clock w |})
  end.
Definition write_frame (frame : Json) (w : Wire T) : bool * Wire T :=
  if host_takes (outgoing w) then
    (true, {| incoming := incoming w; outgoing := outgoing w ++ [frame]; asked := asked w; clock := clock w |})
  else (false, w).

Definition callback_frame (id : Z) (fact attribute_type verb : str) : Json :=
  JObject [("callback", JObject [("id", json_int id); ("ask", JStr "fact"); ("fact", JStr fact);
                                 ("type", JStr attribute_type); ("verb", JStr verb)])].
(** What the host's reply to callback [id] answers. *)
Definition reply_answer (id : Z) (line : str) : option Json :=
  match Json.parse line with
  | Err _ => None
  | Ok reply =>
    if bool_decide (get reply "id" ≫= json_as_i64 = Some id) then
      match get reply "answer" with Some JNull | None => None | Some value => Some value end
    else None
  end.
(** The callback a dispatch runs under. *)
Definition ask_host (verb fact attribute_type : str) (w : Wire T) : option Json * Wire T :=
  let id := wadd (asked w) 1 in
  let w := {| incoming := incoming w; outgoing := outgoing w; asked := id; clock := clock w |} in
  let (taken, w) := write_frame (callback_frame id fact attribute_type verb) w in
  if taken then
    let (reply, w) := read_line w in
    (reply ≫= reply_answer id, w)
  else (None, w).
(** [set_asker]: a dispatch's facts are asked of the host where it offered. *)
Definition wire_host (asking : option str) : HostFacts (Wire T) := {|
  system_secs w := let (secs, c) := read_clock (clock w) in
    (secs, {| incoming := incoming w; outgoing := outgoing w; asked := asked w; clock := c |});
  asker := ask_host <$> asking
|}.
End wire.

(** ** [Connection] *)
Record Connection (St : Type) := {
  default_session : Session St; named : gmap str (Session St); callbacks : bool;
  (** The tables of the thread, which [hello] installs. *)
  installed_facts : Facts
}.
Arguments default_session {St}. Arguments named {St}. Arguments callbacks {St}. Arguments installed_facts {St}.

Section serving.
Context `{U : UnicodeTables} `{X : RegexCrate} {St T : Type} `{D : Domain St} `{Out : Outside T}.
Variable turns : nat.

Definition with_named (f : gmap str (Session St) → gmap str (Session St)) (c : Connection St) : Connection St := {|
  default_session := default_session c; named := f (named c); callbacks := callbacks c;
  installed_facts := installed_facts c |}.
Definition new_connection (facts : Facts) : Connection St :=
  {| default_session := new_session; named := ∅; callbacks := false; installed_facts := facts |}.

Definition debug_i64s (l : list Z) : str := "[" ++ join ", " (map dec_Z l) ++ "]".
Definition client_protocols (hello : Json) : list Z :=
  let theirs := match get hello "protocols" ≫= as_array with
    | Some l => omap json_as_i64 l
    | None => match get hello "protocol" ≫= json_as_i64 with Some v => [v] | None => [] end
    end in
  match theirs with [] => [1] | _ => theirs end.
Definition agreed_protocol (theirs : list Z) : option Z :=
  match List.filter (λ v, existsb (Z.eqb v) theirs) SUPPORTED with
  | [] => None
  | v :: more => Some (fold_left Z.max more v)
  end.
Definition negotiate (hello : Json) (c : Connection St) : Json * Connection St :=
  let theirs := client_protocols hello in
  match agreed_protocol theirs with
  | None =>
    (refusal_answer ("no common protocol: the client speaks " ++ debug_i64s theirs
       ++ ", this kernel speaks " ++ debug_i64s SUPPORTED), c)
  | Some agreed =>
    (JObject [("ok", JBool true); ("protocol", json_int agreed); ("features", JArray (map JStr FEATURES))],
     {| default_session := default_session c; named := named c;
        callbacks := match get hello "callbacks" with Some (JBool b) => b | _ => false end;
        installed_facts := installed hello (installed_facts c) |})
  end.

Definition no_such_session (name : Json) : Json := refusal_answer ("no such session " ++ to_json_string name).
Definition open_session (name : Json) (c : Connection St) : Json * Connection St :=
  match as_str name with
  | None | Some [] => (refusal_answer "a session needs a name", c)
  | Some n =>
    match named c !! n with
    | Some _ => (refusal_answer ("session " ++ debug_str n ++ " is already open"), c)
    | None => (JObject [("ok", JBool true); ("session", JStr n)], with_named (<[n := new_session]>) c)
    end
  end.
Definition close_session (name : Json) (c : Connection St) : Json * Connection St :=
  match (λ n, (n, named c !! n)) <$> as_str name with
  | Some (n, Some _) => (ok_answer, with_named (delete n) c)
  | _ => (no_such_session name, c)
  end.

(** The session a message runs in: [None] the default one. *)
Definition session_of (message : Json) (c : Connection St) : result Json (option str * Session St) :=
  match get message "session" with
  | None => Ok (None, default_session c)
  | Some name =>
    match (λ n, (n, named c !! n)) <$> as_str name with
    | Some (n, Some s) => Ok (Some n, s)
    | _ => Err (no_such_session name)
    end
  end.
Definition put_session (at_ : option str) (s : Session St) (c : Connection St) : Connection St :=
  match at_ with
  | None => {| default_session := s; named := named c; callbacks := callbacks c; installed_facts := installed_facts c |}
  | Some n => with_named (<[n := s]>) c
  end.
Definition asking_verb (message : Json) (c : Connection St) : option str :=
  if callbacks c then
    Some (default [] (match get message "verb" with Some v => Some v | None => get message "dry_run" end ≫= as_str))
  else None.

Definition route_message (message : Json) (c : Connection St) (w : Wire T)
  : option (Json * Connection St * Wire T) :=
  match get message "hello", get message "open", get message "close" with
  | Some hello, _, _ => let (a, c') := negotiate hello c in Some (a, c', w)
  | None, Some name, _ => let (a, c') := open_session name c in Some (a, c', w)
  | None, None, Some name => let (a, c') := close_session name c in Some (a, c', w)
  | None, None, None =>
    match session_of message c with
    | Err refused => Some (refused, c, w)
    | Ok (at_, s) =>
      '(a, s', w') ← handle (HF := wire_host (asking_verb message c)) turns (installed_facts c) s w message;
      Some (a, put_session at_ s' c, w')
    end
  end.

(** What one line is answered with; a blank one is passed over. *)
Definition answer_line (line : str) (c : Connection St) (w : Wire T)
  : option (option Json * Connection St * Wire T) :=
  if forallb is_whitespace line then Some (None, c, w)
  else match Json.parse line with
  | Err e => Some (Some (refusal_answer ("invalid JSON: " ++ e)), c, w)
  | Ok message => '(a, c', w') ← route_message message c w; Some (Some a, c', w')
  end.

(** [serve], a line at a time; [lines] bounds the lines it reads. *)
Fixpoint serve (lines : nat) (c : Connection St) (w : Wire T) : option (Connection St * Wire T) :=
  match lines with
  | O => None
  | S lines =>
    match read_line w with
    | (None, w) => Some (c, w)
    | (Some line, w) =>
      '(answer, c', w') ← answer_line line c w;
      match answer with
      | None => serve lines c' w'
      | Some frame =>
        let (taken, w'') := write_frame frame w' in
        if taken then serve lines c' w'' else Some (c', w'')
      end
    end
  end.
End serving.
