(* ===== verification/ServeFacts.v ===== *)
(** What a connection keeps: sessions apart, snapshots restored, and an end to
    every stream that ends. *)
From stdpp Require Import gmap.
From S2P Require Export Serve.

(** A session left as it was. *)
Ltac unchanged := split; [done|intros Hne; by destruct (Hne eq_refl)].

(** ** One session at a time *)
Section isolation.
Context `{U : UnicodeTables} `{X : RegexCrate} {St T : Type} `{D : Domain St} `{Out : Outside T}.
Variable turns : nat.

(** The sessions a message names. *)
Definition names_session (message : Json) (n : str) : Prop :=
  get message "open" ≫= as_str = Some n ∨ get message "close" ≫= as_str = Some n ∨
  get message "session" ≫= as_str = Some n.
Definition names_none (message : Json) : Prop :=
  get message "hello" = None ∧ get message "open" = None ∧ get message "close" = None ∧ get message "session" = None.

Lemma insert_at (n n' : str) (s : Session St) (m : gmap str (Session St)) : <[n' := s]> m !! n ≠ m !! n → n = n'.
Proof. intros H. destruct (decide (n = n')) as [|Hn]; [done|]. by rewrite lookup_insert_ne in H by done. Qed.
Lemma delete_at (n n' : str) (m : gmap str (Session St)) : delete n' m !! n ≠ m !! n → n = n'.
Proof. intros H. destruct (decide (n = n')) as [|Hn]; [done|]. by rewrite lookup_delete_ne in H by done. Qed.

Lemma open_changes name (c : Connection St) n :
  default_session (open_session name c).2 = default_session c ∧
  (named (open_session name c).2 !! n ≠ named c !! n → as_str name = Some n).
Proof.
  unfold open_session. destruct (as_str name) as [[|ch t]|]; [unchanged| |unchanged].
  destruct (_ !! _); [unchanged|]. split; [done|]. simpl. by intros ->%insert_at.
Qed.
Lemma close_changes name (c : Connection St) n :
  default_session (close_session name c).2 = default_session c ∧
  (named (close_session name c).2 !! n ≠ named c !! n → as_str name = Some n).
Proof.
  unfold close_session. destruct (as_str name) as [t|]; [|unchanged]. cbn [fmap option_fmap option_map].
  destruct (named c !! t); [|by split]. split; [done|]. simpl. by intros ->%delete_at.
Qed.
Lemma session_of_named message (c : Connection St) at_ s : session_of message c = Ok (at_, s) →
  match at_ with
  | None => get message "session" = None ∧ s = default_session c
  | Some n => get message "session" ≫= as_str = Some n ∧ named c !! n = Some s
  end.
Proof.
  unfold session_of. destruct (get message "session") as [name|]; [|by intros [= <- <-]]. cbn [mbind option_bind].
  destruct (as_str name) as [t|]; [|done]. cbn [fmap option_fmap option_map].
  destruct (named c !! t) eqn:E; [|done]. by intros [= <- <-].
Qed.

(** Sessions share nothing.  Whatever a message asks and however it is
    answered, a named session it does not name is the session it was, with its
    store, conversations, logs and snapshot; and so is the default one unless the
    message names no session at all. *)
Theorem sessions_apart (message a : Json) (c c' : Connection St) (w w' : Wire T) (n : str) :
  route_message turns message c w = Some (a, c', w') →
  (named c' !! n ≠ named c !! n → names_session message n) ∧
  (default_session c' ≠ default_session c → names_none message).
Proof.
  unfold route_message, names_session, names_none. destruct (get message "hello") as [hello|].
  { unfold negotiate. destruct (agreed_protocol _); by intros [= <- <- <-]. }
  destruct (get message "open") as [name|].
  { pose proof (open_changes name c n) as [Hd Hn]. destruct (open_session name c) as [a1 c1]. intros [= <- <- <-].
    simpl in *. split; [intros H; left; by apply Hn|by rewrite Hd]. }
  destruct (get message "close") as [name|].
  { pose proof (close_changes name c n) as [Hd Hn]. destruct (close_session name c) as [a1 c1]. intros [= <- <- <-].
    simpl in *. split; [intros H; right; left; by apply Hn|by rewrite Hd]. }
  destruct (session_of message c) as [[at_ s]|refused] eqn:Es; [|by intros [= <- <- <-]].
  intros ([[a1 s1] w1]&_&[= <- <- <-])%bind_Some. apply session_of_named in Es.
  destruct at_ as [t|]; simpl.
  - split; [intros ->%insert_at; right; right; by apply Es|done].
  - split; [done|]. intros _. by destruct Es.
Qed.
End isolation.

(** ** Snapshots *)
Section snapshots.
Context `{U : UnicodeTables} `{X : RegexCrate} {St S : Type} `{D : Domain St} `{HF : HostFacts S}.
Variable turns : nat.
Variable facts : Facts.

(** The steps of a session, one after the other. *)
Fixpoint handle_all (s : Session St) (h : S) (steps : list Json) : option (list Json * Session St * S) :=
  match steps with
  | [] => Some ([], s, h)
  | step :: rest =>
    '(a, s, h) ← handle turns facts s h step;
    '(answers, s, h) ← handle_all s h rest;
    Some (a :: answers, s, h)
  end.

Lemma handle_snapshot s h step a s' h' : get step "snapshot" = None →
  handle turns facts s h step = Some (a, s', h') → snapshot s' = snapshot s.
Proof.
  unfold handle. intros ->. destruct (get step "restore").
  { destruct (snapshot s) as [[st ss]|] eqn:E; intros [= <- <- <-]; simpl; congruence. }
  destruct (get step "instances"); [by intros [= <- <- <-]|].
  destruct (step_text step "dry_run"). { destruct (dry_run _ _ _ _ _ _ _ _ _). by intros [= <- <- <-]. }
  destruct (step_text step "verb"); [|by intros [= <- <- <-]].
  unfold session_command. by intros ([outcome c]&_&[= <- <- <-])%bind_Some.
Qed.

(** Restoring undoes everything since the snapshot.  After a snapshot,
    whatever steps a session answers that take no other, a restore is answered
    ok and the store and every conversation are as they were; only the logs of
    reactions and of sagas keep what was done in between. *)
Theorem restore_undoes (s s' : Session St) (h h' : S) (steps : list Json) (answers : list Json) (take restore : Json) :
  get take "snapshot" ≠ None → get restore "restore" ≠ None →
  Forall (λ step, get step "snapshot" = None) (restore :: steps) →
  handle_all s h (take :: steps) = Some (answers, s', h') →
  ∃ r, handle turns facts s' h' restore = Some (ok_answer, r, h') ∧
    session_store r = session_store s ∧ session_sagas r = session_sagas s ∧
    session_reactions r = session_reactions s' ∧ session_saga_log r = session_saga_log s'.
Proof.
  intros Ht Hr [Hrs Hs]%Forall_cons_iff. cbn [handle_all].
  assert (handle turns facts s h take = Some (ok_answer, take_snapshot s, h)) as ->
    by (unfold handle; by destruct (get take "snapshot")).
  cbn [mbind option_bind]. intros ([[answers1 s1] h1]&Ha&[= <- <- <-])%bind_Some.
  assert (snapshot s1 = Some (session_store s, session_sagas s)) as Hsnap.
  { assert (snapshot (take_snapshot s) = Some (session_store s, session_sagas s)) as H0 by done.
    revert H0 Ha. generalize (take_snapshot s) as t. clear Ht Hr Hrs. revert h answers1.
    induction Hs as [|step steps Hstep _ IH]; intros h answers1 t H0; cbn [handle_all]; [by intros [= _ <- _]|].
    intros ([[a t1] h2]&Hh&([[answers2 t2] h3]&Ha2&[= _ <- <-])%bind_Some)%bind_Some.
    apply (IH h2 answers2 t1); [|done]. by rewrite (handle_snapshot _ _ _ _ _ _ Hstep Hh). }
  exists (restored s1 (session_store s) (session_sagas s)). unfold handle. rewrite Hrs.
  destruct (get restore "restore"); [|done]. by rewrite Hsnap.
Qed.
End snapshots.

(** ** What the outside keeps *)
(** A relation the clock and the callback keep is kept by a whole session step,
    which reaches the outside through them alone. *)
Section outside.
Context `{U : UnicodeTables} `{X : RegexCrate} {St S : Type} `{D : Domain St} `{HF : HostFacts S}.
Variable Rel : relation S.
Hypothesis Hpre : PreOrder Rel.
Hypothesis Hclock : ∀ s, Rel s (system_secs s).2.
Hypothesis Hask : ∀ f fact ty s, asker = Some f → Rel s (f fact ty s).2.
#[local] Existing Instance Hpre.

Lemma answer_keeps fs need occ s : Rel s (answer fs need occ s).2.
Proof using Hpre Hclock Hask.
  unfold answer, now_secs, ask. destruct (_ || _).
  - destruct (fixed_clock fs); [done|]. destruct (occ ≫= _); [done|].
    pose proof (Hclock s). by destruct (system_secs s).
  - destruct asker eqn:E; [by apply Hask|done].
Qed.
Lemma fill_needs_keeps fs occ held needs : ∀ filled s, Rel s (fill_needs fs occ held needs filled s).2.
Proof using Hpre Hclock Hask.
  induction needs as [|need needs IH]; intros filled s; cbn [fill_needs]; [done|].
  destruct (has_key _ _); [apply IH|]. pose proof (answer_keeps fs need occ s) as Ha.
  destruct (answer _ _ _ s) as [v s1]. etrans; [exact Ha|apply IH].
Qed.
Lemma enrich_keeps fs verb args occ s : Rel s (enrich fs verb args occ s).2.
Proof using Hpre Hclock Hask.
  unfold enrich.
  assert (∀ needs held (k : list (str * Json) → S → option Json * S), (∀ l s', (k l s').2 = s') →
    Rel s (let (filled, s') := fill_needs fs occ held needs held s in k filled s').2) as Hf.
  { intros needs held k Hk. pose proof (fill_needs_keeps fs occ held needs held s).
    destruct (fill_needs _ _ _ _ _ _). by rewrite Hk. }
  destruct (default [] (needs_table fs !! verb)), (default [] (defaults_table fs !! verb)); [done|..];
    (destruct (match get args "with" with Some (JObject _) => true | _ => false end);
     [destruct (get args "with") as [[]|]|destruct args]; try done; apply Hf; intros;
     repeat case_match; done).
Qed.
Definition host_keeps (c c' : Cascade St S) : Prop := Rel (host c) (host c').
#[local] Instance host_keeps_preorder : PreOrder host_keeps.
Proof using Hpre. unfold host_keeps. split; [by intros c|intros a b c ??; by etrans]. Qed.
Lemma respects_host tables fs ts dispatch_fn : Respects (HF := HF) tables fs ts dispatch_fn 0 host_keeps.
Proof using Hpre Hclock Hask.
  split; try apply _; intros; try (intros c0 a c1 [= <- <-]); unfold host_keeps; simpl; try done.
  - intros c a c'. unfold enrich_args. pose proof (enrich_keeps fs verb args ts (host c)).
    destruct (enrich _ _ _ _ _) as [? ?]. by intros [= <- <-].
  - intros c a c'. unfold dispatch_stored. destruct (dispatch_fn _ _ _ _ _) as [r [st log]]. by intros [= <- <-].
Qed.
Lemma handle_keeps turns fs s h step a s' h' : handle turns fs s h step = Some (a, s', h') → Rel h h'.
Proof using Hpre Hclock Hask.
  unfold handle. destruct (get step "snapshot"); [by intros [= <- <- <-]|].
  destruct (get step "restore"). { by destruct (snapshot s) as [[st ss]|]; intros [= <- <- <-]. }
  destruct (get step "instances"); [by intros [= <- <- <-]|].
  destruct (step_text step "dry_run") as [verb|].
  { unfold dry_run, preview. pose proof (enrich_keeps fs verb (dry_run_command_input (step_args step))
      (step_text step "occurred_at") h) as He. destruct (enrich _ _ _ _ _) as [en h1]. destruct (collecting _ _) as [[]].
    by intros [= <- <- <-]. }
  destruct (step_text step "verb"); [|by intros [= <- <- <-]].
  unfold session_command, orchestrate_step. intros ([outcome c]&Ho&[= <- <- <-])%bind_Some.
  by apply (orchestrate_keeps (HF := HF) _ _ _ _ host_keeps (respects_host _ _ _ _)) in Ho.
Qed.
End outside.

(** ** The end of a stream *)
Section ending.
Context `{U : UnicodeTables} `{X : RegexCrate} {St T : Type} `{D : Domain St} `{Out : Outside T}.
Variable turns : nat.

(** What was read stays read. *)
Definition reads_on (w w' : Wire T) : Prop := (length (incoming w') <= length (incoming w))%nat.
#[local] Instance reads_on_preorder : PreOrder reads_on.
Proof. unfold reads_on. split; [intros w|intros a b c]; lia. Qed.

Lemma read_line_on w : reads_on w (read_line w).2.
Proof. unfold reads_on, read_line. destruct (incoming w) eqn:E; simpl; rewrite ?E; simpl; lia. Qed.
Lemma write_frame_incoming frame w : incoming (write_frame frame w).2 = incoming w.
Proof. unfold write_frame. by destruct (host_takes _). Qed.
Lemma ask_host_on verb fact ty w : reads_on w (ask_host verb fact ty w).2.
Proof.
  unfold ask_host. match goal with |- context [write_frame ?f ?v] => pose proof (write_frame_incoming f v) as Hw;
    destruct (write_frame f v) as [taken w1] end. simpl in Hw.
  destruct taken; [|unfold reads_on; simpl; by rewrite Hw].
  pose proof (read_line_on w1) as Hr. destruct (read_line w1) as [reply w2]. unfold reads_on in *. simpl in *.
  by rewrite Hw in Hr.
Qed.
Lemma route_message_on message (c : Connection St) w a c' w' :
  route_message turns message c w = Some (a, c', w') → reads_on w w'.
Proof.
  unfold route_message. destruct (get message "hello"). { destruct (negotiate _ _). by intros [= <- <- <-]. }
  destruct (get message "open"). { destruct (open_session _ _). by intros [= <- <- <-]. }
  destruct (get message "close"). { destruct (close_session _ _). by intros [= <- <- <-]. }
  destruct (session_of message c) as [[at_ s]|refused]; [|by intros [= <- <- <-]].
  intros ([[a1 s1] w1]&Hh&[= <- <- <-])%bind_Some. revert Hh. apply handle_keeps; [apply _|..].
  - intros v. simpl. unfold reads_on. by destruct (read_clock _).
  - intros f fact ty v. simpl. destruct (asking_verb message c); simpl; [|done]. intros [= <-]. apply ask_host_on.
Qed.
Lemma answer_line_on line (c : Connection St) w answer c' w' :
  answer_line turns line c w = Some (answer, c', w') → reads_on w w'.
Proof.
  unfold answer_line. destruct (forallb _ line); [by intros [= <- <- <-]|].
  destruct (parse line) as [message|e]; [|by intros [= <- <- <-]].
  intros ([[a c1] w1]&Hr&[= <- <- <-])%bind_Some. by eapply route_message_on.
Qed.

(** A connection ends with its stream.  Where every message is answered,
    one turn more than there are lines is turns enough, callbacks included, and
    any number more ends the same: every line read, or the host no longer taking
    frames. *)
Theorem serve_ends (c : Connection St) (w : Wire T) :
  (∀ line c w, is_Some (answer_line turns line c w)) →
  ∃ c' w', (incoming w' = [] ∨ host_takes (outgoing w') = false) ∧
    ∀ lines, (length (incoming w) < lines)%nat → serve turns lines c w = Some (c', w').
Proof.
  intros Hall. remember (length (incoming w)) as n eqn:Hn. assert (length (incoming w) <= n)%nat as Hle by lia. clear Hn.
  revert c w Hle. induction n as [|n IH]; intros c w Hle.
  { destruct (incoming w) eqn:E; [|simpl in Hle; lia]. exists c, w. split; [by left|]. intros [|lines] Hl; [lia|].
    cbn [serve]. unfold read_line. by rewrite E. }
  destruct (incoming w) as [|line rest] eqn:E.
  { exists c, w. split; [by left|]. intros [|lines] Hl; [lia|]. cbn [serve]. unfold read_line. by rewrite E. }
  set (w1 := {| incoming := rest; outgoing := outgoing w; asked := asked w; clock := clock w |}).
  assert (∀ lines, serve turns (S lines) c w = '(answer, c', w') ← answer_line turns line c w1;
      match answer with
      | None => serve turns lines c' w'
      | Some frame => let (taken, w'') := write_frame frame w' in
                      if taken then serve turns lines c' w'' else Some (c', w'')
      end) as Hserve by (intros lines; cbn [serve]; unfold read_line; by rewrite E).
  destruct (Hall line c w1) as [[[answer c2] w2] Ha]. pose proof (answer_line_on _ _ _ _ _ _ Ha) as Hon.
  unfold reads_on in Hon. simpl in Hon, Hle.
  assert (∀ w3, (incoming w3 = incoming w2) → ∃ c' w', (incoming w' = [] ∨ host_takes (outgoing w') = false) ∧
    ∀ lines, (n < lines)%nat → serve turns lines c2 w3 = Some (c', w')) as Hrest by (intros w3 Hw; apply IH; rewrite Hw; lia).
  destruct answer as [frame|].
  - pose proof (write_frame_incoming frame w2) as Hw. destruct (write_frame frame w2) as [taken w3] eqn:Ew. simpl in Hw.
    destruct taken.
    + destruct (Hrest w3 Hw) as (c'&w'&He&Hs). exists c', w'. split; [done|]. intros [|lines] Hl; [lia|].
      rewrite Hserve, Ha. cbn [mbind option_bind]. rewrite Ew. apply Hs. lia.
    + exists c2, w3. split.
      { right. unfold write_frame in Ew. destruct (host_takes (outgoing w2)) eqn:Eh; [done|]. by injection Ew as <-. }
      intros [|lines] Hl; [lia|]. rewrite Hserve, Ha. cbn [mbind option_bind]. by rewrite Ew.
  - destruct (Hrest w2 eq_refl) as (c'&w'&He&Hs). exists c', w'. split; [done|]. intros [|lines] Hl; [lia|].
    rewrite Hserve, Ha. apply Hs. lia.
Qed.
End ending.

(** ** Instances *)
(** A domain that counts its commands and declares nothing to react to, and a
    host that takes every frame and whose clock stands still. *)
#[local] Instance counting_domain : Domain nat := {|
  domain_scan := {| scan _ _ := None |}; store_new := 0%nat; from_seed _ := Ok 0%nat; instances _ := [];
  dispatch_by_name _ _ _ _ := λ w,
    (Ok [], {| repo := S (repo w); mutations := mutations w; collected := collected w |});
  domain_tables := {| policies := []; cross_domain_policies := []; process_managers := [];
    reference_key_fn _ := None; queries := []; command_creates_fn _ := true; identity_head_fn _ := None;
    command_attributes_fn _ := []; entity_identity_head_fn _ := None |};
  read_models := []; entity_queries := []; check_query_args _ _ := Ok tt; generated_present _ state := state
|}.
#[local] Instance patient_host : Outside unit := {| host_takes _ := true; read_clock u := (1000, u) |}.
Definition stream (lines : list str) : Wire unit := {| incoming := lines; outgoing := []; asked := 0; clock := tt |}.
Definition line_of (j : Json) : str := to_json_string j.

Lemma counting_answers line (c : Connection nat) (w : Wire unit) :
  is_Some (answer_line (U := ascii_tables) (X := no_regex) 1 line c w).
Proof.
  unfold answer_line. destruct (forallb _ _); [by eexists|]. destruct (parse line) as [message|]; [|by eexists].
  assert (is_Some (route_message (U := ascii_tables) (X := no_regex) 1 message c w)) as [[[a c'] w'] ->]; [|by eexists].
  unfold route_message. destruct (get message "hello"). { destruct (negotiate _ _). by eexists. }
  destruct (get message "open"). { destruct (open_session _ _). by eexists. }
  destruct (get message "close"). { destruct (close_session _ _). by eexists. }
  destruct (session_of message c) as [[at_ s]|]; [|by eexists].
  match goal with |- context [handle ?t ?f ?s ?h ?m] => assert (is_Some (handle t f s h m)) as [[[a s'] h'] ->] end;
    [|by eexists].
  unfold handle. repeat case_match; try by eexists.
  unfold session_command, orchestrate_step, orchestrate, run_body, enrich_args, andThen. simpl.
  destruct (enrich _ _ _ _ _). by eexists.
Qed.

Definition open_a : str := line_of (JObject [("open", JStr "a")]).
Definition count_in_a : Json := JObject [("verb", JStr "Count"); ("session", JStr "a")].
Lemma serve_ends_witness :
  ∃ c' w', (incoming w' = [] ∨ host_takes (outgoing w') = false) ∧
    serve (U := ascii_tables) (X := no_regex) 1 3 (new_connection no_facts) (stream [open_a; line_of count_in_a]) =
      Some (c', w').
Proof.
  destruct (serve_ends (U := ascii_tables) (X := no_regex) 1 (new_connection no_facts)
    (stream [open_a; line_of count_in_a]) counting_answers) as (c'&w'&He&Hs).
  exists c', w'. split; [exact He|]. apply Hs. simpl. lia.
Defined.
Example session_a_counted :
  (λ '(c, w), (session_store <$> named c !! ("a" : str), session_store (default_session c), length (outgoing w))) <$>
    serve (U := ascii_tables) (X := no_regex) 1 3 (new_connection no_facts) (stream [open_a; line_of count_in_a]) =
  Some (Some 1%nat, 0%nat, 2%nat).
Proof. vm_compute. reflexivity. Qed.

Definition with_sessions : Connection nat :=
  with_named (λ m, <["a" := new_session]> (<["b" := new_session]> m)) (new_connection no_facts).
Definition counted : option (Json * Connection nat * Wire unit) :=
  route_message (U := ascii_tables) (X := no_regex) 1 count_in_a with_sessions (stream []).
Lemma sessions_apart_witness :
  match counted with
  | Some (a, c', w') =>
    get a "ok" = Some (JBool true) ∧
    (named c' !! ("b" : str) ≠ named with_sessions !! ("b" : str) → names_session count_in_a "b") ∧
    session_store <$> named c' !! ("a" : str) = Some 1%nat
  | None => False
  end.
Proof.
  destruct counted as [[[a c'] w']|] eqn:E; [|vm_compute in E; discriminate E].
  split; [vm_compute in E; injection E as <- <- <-; reflexivity|]. split.
  - apply (sessions_apart (U := ascii_tables) (X := no_regex) 1 count_in_a a with_sessions c' (stream []) w' "b" E).
  - vm_compute in E. injection E as <- <- <-. reflexivity.
Defined.

#[local] Instance standing_clock : HostFacts unit := {| system_secs u := (1000, u); asker := None |}.
Definition take_step : Json := JObject [("snapshot", JBool true)].
Definition restore_step : Json := JObject [("restore", JBool true)].
Definition count_step : Json := JObject [("verb", JStr "Count")].
Lemma restore_undoes_witness :
  ∃ answers s' r, handle_all (U := ascii_tables) (X := no_regex) 1 no_facts new_session tt [take_step; count_step; count_step] =
      Some (answers, s', tt) ∧ session_store s' = 2%nat ∧
    handle (U := ascii_tables) (X := no_regex) 1 no_facts s' tt restore_step = Some (ok_answer, r, tt) ∧
    session_store r = 0%nat.
Proof.
  do 2 eexists.
  destruct (restore_undoes (U := ascii_tables) (X := no_regex) 1 no_facts new_session
    {| session_store := 2%nat; session_sagas := ∅; session_reactions := []; session_saga_log := [];
       snapshot := Some (0%nat, ∅) |} tt tt [count_step; count_step]
    [ok_answer; JObject [("ok", JBool true); ("events", JArray [])]; JObject [("ok", JBool true); ("events", JArray [])]]
    take_step restore_step) as (r&Hh&Hs&_).
  - vm_compute. discriminate.
  - vm_compute. discriminate.
  - repeat constructor.
  - vm_compute. reflexivity.
  - exists r. split; [vm_compute; reflexivity|]. split; [reflexivity|]. split; [exact Hh|]. rewrite Hs. reflexivity.
Defined.
