(* ===== verification/Pattern.v ===== *)
(** Declared patterns ([src/rust/src/kernel/pattern.rs]): the parser of the
    dialect, the backtracking matcher with its continuations, and the rewriting
    of line anchors dispatch reads a pattern through.  A position is a number
    of characters into the text.  The parser's recursion takes fuel; each atom
    consumes a character, so the length of the pattern is enough. *)
From S2P Require Export Prelude.

(** ** The tree *)
Inductive Node :=
| NLiteral (c : char)
| NAny
| NClass (negate : bool) (ranges : list (char * char))
| NLineStart | NLineEnd | NStringStart | NStringEnd
| NGroup (inner : list Node)
| NAlt (branches : list (list Node))
| NRepeat (node : Node) (min : nat) (max : option nat).

Definition newline : char := 10%N.

Definition class_matches (negate : bool) (ranges : list (char * char)) (c : char) : bool :=
  let hit := existsb (λ '(lo, hi), (lo <=? c)%N && (c <=? hi)%N) ranges in
  xorb hit negate.

(** ** The matcher *)
Section matching.
Variable subject : str.

Definition char_at (ti : nat) : option char := nth_error subject ti.
(** Whether the character at [ti] is there and passes [test]. *)
Definition char_test (test : char → bool) (ti : nat) : bool :=
  match char_at ti with Some c => test c | None => false end.

Definition at_line_start (ti : nat) : bool :=
  match ti with O => true | S before => char_test (λ c, (c =? newline)%N) before end.
Definition at_line_end (ti : nat) : bool :=
  (ti =? length subject)%nat || char_test (λ c, (c =? newline)%N) ti.

(** [match_repeat], over the matching of the repeated node: one more repetition
    first, unless the last one was empty; then stopping here.  A repetition
    that goes on has moved, so the characters left are turns enough. *)
Fixpoint match_repeat (turns : nat) (one : nat → (nat → bool) → bool) (count min : nat) (max : option nat)
    (ti : nat) (cont : nat → bool) : bool :=
  let can_more := match max with None => true | Some m => (count <? m)%nat end in
  match turns with
  | O => false
  | S turns' =>
    (can_more && one ti (λ ti2,
      if (ti2 =? ti)%nat then false else match_repeat turns' one (S count) min max ti2 cont))
    || ((min <=? count)%nat && cont ti)
  end.

(** [match_from] of one node, then [cont]; and of a list of nodes. *)
Fixpoint match_node (n : Node) (ti : nat) (cont : nat → bool) {struct n} : bool :=
  let nodes := fix nodes (l : list Node) (ti : nat) (cont : nat → bool) {struct l} : bool :=
    match l with
    | [] => cont ti
    | n :: rest => match_node n ti (λ ti2, nodes rest ti2 cont)
    end in
  match n with
  | NLiteral c => char_test (λ x, (x =? c)%N) ti && cont (S ti)
  | NAny => char_test (λ x, negb (x =? newline)%N) ti && cont (S ti)
  | NClass negate ranges => char_test (class_matches negate ranges) ti && cont (S ti)
  | NLineStart => at_line_start ti && cont ti
  | NLineEnd => at_line_end ti && cont ti
  | NStringStart => (ti =? 0)%nat && cont ti
  | NStringEnd => (ti =? length subject)%nat && cont ti
  | NGroup inner => nodes inner ti cont
  | NAlt branches => existsb (λ b, nodes b ti cont) branches
  | NRepeat node min max => match_repeat (S (length subject - ti)) (match_node node) 0 min max ti cont
  end.
Fixpoint match_from (nodes : list Node) (ti : nat) (cont : nat → bool) : bool :=
  match nodes with
  | [] => cont ti
  | n :: rest => match_node n ti (λ ti2, match_from rest ti2 cont)
  end.

Definition nodes_match (nodes : list Node) : bool :=
  match nodes with
  | NStringStart :: _ => match_from nodes 0 (λ _, true)
  | _ => existsb (λ start, match_from nodes start (λ _, true)) (seq 0 (S (length subject)))
  end.
End matching.

(** ** The parser *)
Definition escape_char (c : char) : char :=
  (if c =? 116 then 9 else if c =? 110 then 10 else if c =? 114 then 13 else c)%N.

(** A parser takes the characters left and answers with the characters after. *)
Definition Parsed (A : Type) : Type := option (A * str).
(** [peek] and, where it is the one wanted, [bump]. *)
Definition eat (c : char) (s : str) : option str :=
  match s with x :: rest => if (x =? c)%N then Some rest else None | [] => None end.

Fixpoint digits (s : str) : str * str :=
  match s with
  | c :: s' => if is_digit c then let (d, r) := digits s' in (c :: d, r) else ([], s)
  | [] => ([], [])
  end.
(** [parse_digits]: a [usize] of 64 bits. *)
Definition parse_count (s : str) : Parsed nat :=
  let (d, rest) := digits s in
  match parse_digits d with
  | Some n => if (n <? 2 ^ 64)%N then Some (N.to_nat n, rest) else None
  | None => None
  end.

Definition parse_bounded_repeat (s : str) : Parsed (nat * option nat) :=
  '(min, s) ← parse_count s;
  match eat 125 s with
  | Some rest => Some ((min, Some min), rest)
  | None =>
    s ← eat 44 s;
    match eat 125 s with
    | Some rest => Some ((min, None), rest)
    | None => '(max, s) ← parse_count s; rest ← eat 125 s; Some ((min, Some max), rest)
    end
  end.

(** One character of a class, escaped or not. *)
Definition class_char (s : str) : Parsed char :=
  match s with
  | [] => None
  | c :: rest =>
    if (c =? 92)%N then match rest with [] => None | e :: rest => Some (escape_char e, rest) end
    else Some (c, rest)
  end.
(** One member: a range where a hyphen is followed by anything but [ ] ]. *)
Definition class_member (s : str) : Parsed (char * char) :=
  '(lo, s) ← class_char s;
  match eat 45 s with
  | Some s' =>
    match s' with
    | x :: _ => if (x =? 93)%N then Some ((lo, lo), s)
                else '(hi, rest) ← class_char s'; Some ((lo, hi), rest)
    | [] => Some ((lo, lo), s)
    end
  | None => Some ((lo, lo), s)
  end.
Fixpoint class_members (turns : nat) (first : bool) (s : str) : Parsed (list (char * char)) :=
  match turns with
  | O => None
  | S turns' =>
    match (if first then None else eat 93 s) with
    | Some rest => Some ([], rest)
    | None =>
      '(range, rest) ← class_member s;
      '(ranges, rest) ← class_members turns' false rest;
      Some (range :: ranges, rest)
    end
  end.
Definition parse_class (s : str) : Parsed Node :=
  let (negate, s) := match eat 94 s with Some rest => (true, rest) | None => (false, s) end in
  '(ranges, rest) ← class_members (S (length s)) true s; Some (NClass negate ranges, rest).

Definition concat_ends (s : str) : bool :=
  match s with [] => true | c :: _ => (c =? 124)%N || (c =? 41)%N end.

Definition quantified (atom : Node) (s : str) : Node * str :=
  match s with
  | [] => (atom, s)
  | c :: rest =>
    if (c =? 42)%N then (NRepeat atom 0 None, rest)
    else if (c =? 43)%N then (NRepeat atom 1 None, rest)
    else if (c =? 63)%N then (NRepeat atom 0 (Some 1%nat), rest)
    else if (c =? 123)%N then
      match parse_bounded_repeat rest with
      | Some ((min, max), rest') => (NRepeat atom min max, rest')
      | None => (atom, s)
      end
    else (atom, s)
  end.

Definition escaped_atom (c : char) : Node :=
  if (c =? 65)%N then NStringStart
  else if (c =? 122)%N || (c =? 90)%N then NStringEnd
  else NLiteral (escape_char c).
(** [parse_atom], over [parse_alt] for a group. *)
Definition parse_atom (alt : str → Parsed (list Node)) (s : str) : Parsed Node :=
  match s with
  | [] => None
  | c :: rest =>
    if (c =? 46)%N then Some (NAny, rest)
    else if (c =? 94)%N then Some (NLineStart, rest)
    else if (c =? 36)%N then Some (NLineEnd, rest)
    else if (c =? 40)%N then
      '(inner, rest) ← alt rest; rest ← eat 41 rest; Some (NGroup inner, rest)
    else if (c =? 91)%N then parse_class rest
    else if (c =? 92)%N then match rest with [] => None | e :: rest => Some (escaped_atom e, rest) end
    else Some (NLiteral c, rest)
  end.
Definition parse_repeat (alt : str → Parsed (list Node)) (s : str) : Parsed Node :=
  '(atom, rest) ← parse_atom alt s; Some (quantified atom rest).

Fixpoint parse_concat (turns : nat) (alt : str → Parsed (list Node)) (s : str) : Parsed (list Node) :=
  match turns with
  | O => None
  | S turns' =>
    if concat_ends s then Some ([], s)
    else
      '(n, rest) ← parse_repeat alt s;
      '(nodes, rest) ← parse_concat turns' alt rest;
      Some (n :: nodes, rest)
  end.

(** The branches after the first, each behind a bar. *)
Fixpoint parse_branches (turns : nat) (concat : str → Parsed (list Node)) (s : str)
  : Parsed (list (list Node)) :=
  match turns with
  | O => None
  | S turns' =>
    match eat 124 s with
    | Some rest =>
      '(branch, rest) ← concat rest;
      '(branches, rest) ← parse_branches turns' concat rest;
      Some (branch :: branches, rest)
    | None => Some ([], s)
    end
  end.

(** [parse_alt], over itself for the groups one level down. *)
Definition alternation (alt : str → Parsed (list Node)) (s : str) : Parsed (list Node) :=
  let concat s := parse_concat (S (length s)) alt s in
  '(first, rest) ← concat s;
  '(branches, rest) ← parse_branches (S (length rest)) concat rest;
  Some (match branches with [] => first | _ => [NAlt (first :: branches)] end, rest).
Fixpoint parse_alt (fuel : nat) (s : str) : Parsed (list Node) :=
  match fuel with
  | O => None
  | S fuel' => alternation (parse_alt fuel') s
  end.

Definition parse (pattern : str) : option (list Node) :=
  match parse_alt (S (length pattern)) pattern with
  | Some (nodes, []) => Some nodes
  | _ => None
  end.

Definition matches (pattern subject : str) : bool :=
  match parse pattern with Some nodes => nodes_match subject nodes | None => false end.

(** ** Whole-value anchors *)
(** [in_class] holds [Some true] where a bracket would still be the class's
    first member. *)
Fixpoint whole_string_go (in_class : option bool) (s : str) : str :=
  match s with
  | [] => []
  | c :: rest =>
    if (c =? 92)%N then
      match rest with
      | [] => [c]
      | e :: rest => c :: e :: whole_string_go (match in_class with Some _ => Some false | None => None end) rest
      end
    else
      match in_class with
      | Some start => c :: whole_string_go (if (c =? 93)%N && negb start then None else Some false) rest
      | None =>
        if (c =? 91)%N then
          match rest with
          | d :: rest' =>
            if (d =? 94)%N then c :: d :: whole_string_go (Some true) rest'
            else c :: whole_string_go (Some true) rest
          | [] => [c]
          end
        else if (c =? 94)%N then 92%N :: 65%N :: whole_string_go None rest
        else if (c =? 36)%N then 92%N :: 122%N :: whole_string_go None rest
        else c :: whole_string_go None rest
      end
  end.
Definition whole_string (pattern : str) : str := whole_string_go None pattern.

Definition matches_whole (pattern subject : str) : bool := matches (whole_string pattern) subject.
