(* ===== verification/PatternFacts.v ===== *)
(** What the pattern matcher and its parser guarantee
    ([src/rust/src/kernel/pattern.rs]): the matcher finds exactly the spans the
    tree denotes, with the usual meaning of repetition where no required
    repetition can be empty; the parser never runs out of fuel; and rewriting
    the text of a pattern rewrites its anchors and nothing else. *)
From stdpp Require Import relations.
From S2P Require Export Pattern.

(** ** Induction over the tree *)
Section node_ind.
Variable P : Node → Prop.
Hypothesis PLiteral : ∀ c, P (NLiteral c).
Hypothesis PAny : P NAny.
Hypothesis PClass : ∀ negate ranges, P (NClass negate ranges).
Hypothesis PLineStart : P NLineStart.
Hypothesis PLineEnd : P NLineEnd.
Hypothesis PStringStart : P NStringStart.
Hypothesis PStringEnd : P NStringEnd.
Hypothesis PGroup : ∀ l, Forall P l → P (NGroup l).
Hypothesis PAlt : ∀ bs, Forall (Forall P) bs → P (NAlt bs).
Hypothesis PRepeat : ∀ n min max, P n → P (NRepeat n min max).
Fixpoint node_induction (n : Node) : P n :=
  let all := fix all (l : list Node) : Forall P l :=
    match l with
    | [] => Forall_nil_2 P
    | n :: l' => Forall_cons_2 P n l' (node_induction n) (all l')
    end in
  match n with
  | NLiteral c => PLiteral c | NAny => PAny | NClass g r => PClass g r
  | NLineStart => PLineStart | NLineEnd => PLineEnd
  | NStringStart => PStringStart | NStringEnd => PStringEnd
  | NGroup l => PGroup l (all l)
  | NAlt bs => PAlt bs ((fix alls (bs : list (list Node)) : Forall (Forall P) bs :=
      match bs with
      | [] => Forall_nil_2 _
      | b :: bs' => Forall_cons_2 _ b bs' (all b) (alls bs')
      end) bs)
  | NRepeat n min max => PRepeat n min max (node_induction n)
  end.
End node_ind.

(** ** What a pattern denotes *)
Definition within (max : option nat) (k : nat) : Prop :=
  match max with Some m => (k <= m)%nat | None => True end.

Section denotation.
Variable subject : str.

(** The spans of a node, from a position to a position.  [moving] tells the two
    meanings of a repetition apart: any repetitions, or only ones that move. *)
Fixpoint spans (moving : bool) (n : Node) (i j : nat) {struct n} : Prop :=
  let all := fix all (l : list Node) (i j : nat) {struct l} : Prop :=
    match l with [] => i = j | n :: l' => ∃ m, spans moving n i m ∧ all l' m j end in
  match n with
  | NLiteral c => char_at subject i = Some c ∧ j = S i
  | NAny => ∃ c, char_at subject i = Some c ∧ c ≠ newline ∧ j = S i
  | NClass negate ranges => ∃ c, char_at subject i = Some c ∧ class_matches negate ranges c = true ∧ j = S i
  | NLineStart => at_line_start subject i = true ∧ j = i
  | NLineEnd => at_line_end subject i = true ∧ j = i
  | NStringStart => i = 0%nat ∧ j = i
  | NStringEnd => i = length subject ∧ j = i
  | NGroup l => all l i j
  | NAlt bs => (fix any (bs : list (list Node)) : Prop :=
      match bs with [] => False | b :: bs' => all b i j ∨ any bs' end) bs
  | NRepeat n min max =>
    ∃ k, (min <= k)%nat ∧ within max k ∧
         nsteps (λ a b, spans moving n a b ∧ (moving = true → b ≠ a)) k i j
  end.
Fixpoint spans_all (moving : bool) (l : list Node) (i j : nat) : Prop :=
  match l with [] => i = j | n :: l' => ∃ m, spans moving n i m ∧ spans_all moving l' m j end.

Lemma spans_group moving l i j : spans moving (NGroup l) i j ↔ spans_all moving l i j.
Proof. revert i j. induction l as [|n l IH]; intros i j; [done|]. simpl. by setoid_rewrite <-IH. Qed.
Lemma spans_alt moving bs i j : spans moving (NAlt bs) i j ↔ ∃ b, b ∈ bs ∧ spans_all moving b i j.
Proof.
  induction bs as [|b bs IH]; [split; [done|intros (?&[]%elem_of_nil&_)]|].
  split.
  - intros [H|H]; [exists b; split; [left|]; by apply spans_group|].
    apply IH in H as (b'&Hb&H). exists b'. split; [by right|done].
  - intros (b'&[->|Hb]%elem_of_cons&H); [left; by apply spans_group in H|].
    right. apply IH. by exists b'.
Qed.
Lemma spans_all_app moving a b i j :
  spans_all moving (a ++ b) i j ↔ ∃ m, spans_all moving a i m ∧ spans_all moving b m j.
Proof.
  revert i. induction a as [|n a IH]; intros i; simpl.
  - split; [by exists i|by intros (?&->&?)].
  - setoid_rewrite IH. naive_solver.
Qed.

Definition bounded (R : relation nat) : Prop :=
  ∀ i j, (i <= length subject)%nat → R i j → (i <= j <= length subject)%nat.
Lemma bounded_nsteps R k : bounded R → bounded (nsteps R k).
Proof.
  intros HR i j Hi H. induction H as [|k i m j Him Hmj IH]; [lia|].
  apply HR in Him; [|done]. destruct IH; lia.
Qed.
Lemma bounded_all moving l : Forall (λ n, bounded (spans moving n)) l → bounded (spans_all moving l).
Proof.
  induction 1 as [|n l Hn _ IH]; intros i j Hi; simpl; [intros <-; lia|].
  intros (m&H1&H2). apply Hn in H1; [|done]. apply IH in H2; lia.
Qed.
Lemma char_at_lt i c : char_at subject i = Some c → (i < length subject)%nat.
Proof. intros H. apply nth_error_Some. unfold char_at in H. by rewrite H. Qed.
Lemma bounded_spans moving n : bounded (spans moving n).
Proof.
  induction n as [c| |g r| | | | |l IH|bs IH|n min max IH] using node_induction; intros i j Hi.
  - intros [H%char_at_lt ->]. lia.
  - intros (c&H%char_at_lt&_&->). lia.
  - intros (c&H%char_at_lt&_&->). lia.
  - intros [_ ->]. lia.
  - intros [_ ->]. lia.
  - intros [_ ->]. lia.
  - intros [_ ->]. lia.
  - rewrite spans_group. by apply bounded_all.
  - rewrite spans_alt. intros (b&Hb&H).
    exact (bounded_all _ _ (proj1 (list.Forall_forall _ _) IH b Hb) _ _ Hi H).
  - intros (k&_&_&H). refine (bounded_nsteps _ k _ i j Hi H).
    intros a b Ha [H' _]. by apply IH.
Qed.

(** ** The matcher finds the spans *)
(** A continuation-passing matcher reaches exactly the ends of [R]. *)
Definition reaches (one : nat → (nat → bool) → bool) (R : relation nat) : Prop :=
  ∀ i cont, (i <= length subject)%nat → one i cont = true ↔ ∃ j, R i j ∧ cont j = true.

Lemma char_test_true test i : char_test subject test i = true ↔ ∃ c, char_at subject i = Some c ∧ test c = true.
Proof. unfold char_test. destruct (char_at subject i); naive_solver. Qed.

Lemma reaches_char test (R : relation nat) :
  (∀ i j, R i j ↔ (∃ c, char_at subject i = Some c ∧ test c = true ∧ j = S i)) →
  reaches (λ i cont, char_test subject test i && cont (S i)) R.
Proof.
  intros HR i cont _. rewrite andb_true_iff, char_test_true.
  setoid_rewrite HR. naive_solver.
Qed.
Lemma reaches_anchor (test : nat → bool) (R : relation nat) :
  (∀ i j, R i j ↔ test i = true ∧ j = i) → reaches (λ i cont, test i && cont i) R.
Proof. intros HR i cont _. rewrite andb_true_iff. setoid_rewrite HR. naive_solver. Qed.

Lemma reaches_all (l : list Node) moving :
  Forall (λ n, reaches (match_node subject n) (spans moving n)) l →
  reaches (match_from subject l) (spans_all moving l).
Proof.
  induction 1 as [|n l Hn _ IH]; intros i cont Hi; simpl; [naive_solver|].
  etrans; [apply (Hn i _ Hi)|]. split.
  - intros (m&Hm&Hc). apply IH in Hc as (j&Hj&Hc); [naive_solver|].
    by apply (bounded_spans moving n i m).
  - intros (j&(m&Hm&Hj)&Hc). exists m. split; [done|]. apply IH; [|by exists j].
    by apply (bounded_spans moving n i m).
Qed.

Lemma match_node_group l i cont : match_node subject (NGroup l) i cont = match_from subject l i cont.
Proof. done. Qed.
Lemma match_node_alt bs i cont :
  match_node subject (NAlt bs) i cont = existsb (λ b, match_from subject b i cont) bs.
Proof. done. Qed.

Lemma match_repeat_spec one R M (HR : bounded R) (Hone : reaches one R)
    (HM : ∀ a b, M a b ↔ R a b ∧ b ≠ a) turns count min max i cont :
  (i <= length subject)%nat → (length subject - i < turns)%nat →
  match_repeat turns one count min max i cont = true ↔
  ∃ k j, (min <= count + k)%nat ∧ match max with Some m => k = 0%nat ∨ (count + k <= m)%nat | None => True end ∧
         nsteps M k i j ∧ cont j = true.
Proof.
  revert count i. induction turns as [|turns IH]; intros count i Hi Ht; [lia|]. cbn [match_repeat].
  rewrite orb_true_iff, !andb_true_iff, Nat.leb_le, (Hone i _ Hi). split.
  - intros [[Hm (m&Hm1&Hm2)]|[Hmin Hc]].
    + destruct (Nat.eqb_spec m i) as [|Hne]; [done|].
      pose proof (HR _ _ Hi Hm1). apply IH in Hm2 as (k&j&Hk&Hx&Hs&Hc); [|lia..].
      exists (S k), j. split_and!; [lia| |by econstructor; [apply HM|]|done].
      destruct max as [mx|]; [|done]. apply Nat.ltb_lt in Hm. right. lia.
    + exists 0%nat, i. split_and!; [lia|by destruct max; [left|]|constructor|done].
  - intros (k&j&Hk&Hx&Hs&Hc). destruct Hs as [|k i m j [Hm Hne]%HM Hs]; [right; split; [lia|done]|].
    left. split.
    { destruct max as [mx|]; [|done]. apply Nat.ltb_lt. lia. }
    exists m. split; [done|]. pose proof (HR _ _ Hi Hm).
    destruct (Nat.eqb_spec m i) as [|_]; [done|]. apply IH; [lia..|].
    exists k, j. split_and!; [lia| |done..]. destruct max as [mx|]; [|done]. lia.
Qed.

Lemma match_node_spec n : reaches (match_node subject n) (spans true n).
Proof.
  induction n as [c| |g r| | | | |l IH|bs IH|n min max IH] using node_induction.
  - apply (reaches_char (λ x, (x =? c)%N)). intros i j. simpl. setoid_rewrite N.eqb_eq. naive_solver.
  - apply (reaches_char (λ x, negb (x =? newline)%N)). intros i j. simpl.
    setoid_rewrite negb_true_iff. setoid_rewrite N.eqb_neq. naive_solver.
  - by apply (reaches_char (class_matches g r)).
  - by apply reaches_anchor.
  - by apply reaches_anchor.
  - apply (reaches_anchor (λ i, (i =? 0)%nat)). intros i j. by rewrite Nat.eqb_eq.
  - apply (reaches_anchor (λ i, (i =? length subject)%nat)). intros i j. by rewrite Nat.eqb_eq.
  - intros i cont Hi. rewrite match_node_group. setoid_rewrite spans_group. by apply reaches_all.
  - intros i cont Hi. rewrite match_node_alt, existsb_exists. setoid_rewrite spans_alt.
    rewrite list.Forall_forall in IH. split.
    + intros (b&Hb%list_elem_of_In&H). apply (reaches_all b true) in H; [|by apply IH|done]. naive_solver.
    + intros (j&(b&Hb&H)&Hc). exists b. split; [by apply list_elem_of_In|].
      apply (reaches_all b true); [by apply IH|done|by exists j].
  - intros i cont Hi. cbn [match_node].
    rewrite (match_repeat_spec _ (spans true n) (λ a b, spans true n a b ∧ (true = true → b ≠ a)));
      [|apply bounded_spans|done|naive_solver|done|lia].
    cbn [spans]. split.
    + intros (k&j&H1&H2&H3&H4). exists j. split; [|done]. exists k. split_and!; [lia| |done].
      destruct max; [|done]. simpl. lia.
    + intros (j&(k&H1&H2&H3)&H4). exists k, j. split_and!; [lia| |done..].
      destruct max; [|done]. simpl in H2. lia.
Qed.

Lemma nodes_match_spec nodes :
  nodes_match subject nodes = true ↔ ∃ i j, (i <= length subject)%nat ∧ spans_all true nodes i j.
Proof.
  assert (∀ i, (i <= length subject)%nat →
    match_from subject nodes i (λ _, true) = true ↔ ∃ j, spans_all true nodes i j) as Hm.
  { intros i Hi. etrans; [apply (reaches_all nodes true); [|done]|naive_solver].
    apply list.Forall_forall. intros n _. apply match_node_spec. }
  assert (existsb (λ i, match_from subject nodes i (λ _, true)) (seq 0 (S (length subject))) = true ↔
    ∃ i j, (i <= length subject)%nat ∧ spans_all true nodes i j) as Hany.
  { rewrite existsb_exists. setoid_rewrite in_seq. split.
    - intros (i&Hi&H). apply Hm in H as [j H]; [|lia]. exists i, j. split; [lia|done].
    - intros (i&j&Hi&H). exists i. split; [lia|]. apply Hm; eauto. }
  destruct nodes as [|[] nodes]; try apply Hany. cbn [nodes_match]. rewrite Hm by lia.
  split; [intros [j H]; exists 0%nat, j; split; [lia|done]|].
  intros (i&j&Hi&m&[-> ->]&H). exists j, 0%nat. by split.
Qed.

(** ** Repetitions that must move *)
Lemma nsteps_sub (R R' : relation nat) k i j : (∀ a b, R a b → R' a b) → nsteps R k i j → nsteps R' k i j.
Proof. intros HR H. induction H; econstructor; eauto. Qed.
Lemma spans_all_sub m m' l i j :
  Forall (λ n, ∀ i j, spans m n i j → spans m' n i j) l → spans_all m l i j → spans_all m' l i j.
Proof.
  intros H. revert i. induction H as [|n l Hn _ IH]; intros i; simpl; [done|].
  intros (x&?&?). exists x. auto.
Qed.

(** What the matcher finds is a match in the usual sense. *)
Lemma spans_usual n i j : spans true n i j → spans false n i j.
Proof.
  revert i j. induction n as [c| |g r| | | | |l IH|bs IH|n min max IH] using node_induction; intros i j; try done.
  - rewrite !spans_group. by apply spans_all_sub.
  - rewrite !spans_alt. intros (b&Hb&H). exists b. split; [done|].
    revert H. apply spans_all_sub. by apply (proj1 (list.Forall_forall _ _) IH).
  - intros (k&?&?&H). exists k. split_and!; [done..|]. revert H. apply nsteps_sub.
    intros a b [H _]. split; [by apply IH|done].
Qed.

(** A node no span of which is empty, and a pattern in which every node that
    must be repeated is one. *)
Fixpoint consumes (n : Node) : bool :=
  match n with
  | NLiteral _ | NAny | NClass _ _ => true
  | NLineStart | NLineEnd | NStringStart | NStringEnd => false
  | NGroup l => existsb consumes l
  | NAlt bs => forallb (existsb consumes) bs
  | NRepeat n min _ => negb (min =? 0)%nat && consumes n
  end.
Fixpoint solid (n : Node) : bool :=
  match n with
  | NGroup l => forallb solid l
  | NAlt bs => forallb (forallb solid) bs
  | NRepeat n min _ => solid n && ((min =? 0)%nat || consumes n)
  | _ => true
  end.

Lemma consumes_all l i j : Forall (λ n, ∀ i j, (i <= length subject)%nat → consumes n = true →
    spans false n i j → (i < j)%nat) l →
  (i <= length subject)%nat → existsb consumes l = true → spans_all false l i j → (i < j)%nat.
Proof.
  intros Hl. revert i. induction Hl as [|n l Hn _ IH]; intros i Hi; [done|]. simpl.
  rewrite orb_true_iff. intros Hc (m&H1&H2).
  pose proof (bounded_spans false n i m Hi H1).
  assert (m <= j)%nat. { apply (bounded_all false l) in H2; [lia| |lia].
    apply list.Forall_forall. intros; apply bounded_spans. }
  destruct Hc as [Hc|Hc]; [specialize (Hn i m Hi Hc H1); lia|].
  specialize (IH m ltac:(lia) Hc H2). lia.
Qed.
Lemma consumes_moves n i j : (i <= length subject)%nat → consumes n = true → spans false n i j → (i < j)%nat.
Proof.
  revert i j. induction n as [c| |g r| | | | |l IH|bs IH|n min max IH] using node_induction; intros i j Hi; try done.
  - intros _ [_ ->]. lia.
  - intros _ (c&_&_&->). lia.
  - intros _ (c&_&_&->). lia.
  - rewrite spans_group. by apply consumes_all.
  - rewrite spans_alt. cbn [consumes]. intros Hc (b&Hb&H). rewrite forallb_forall in Hc.
    apply (consumes_all b); [|done| |done].
    + by apply (proj1 (list.Forall_forall _ _) IH).
    + apply Hc. by apply list_elem_of_In.
  - cbn [consumes spans]. rewrite andb_true_iff, negb_true_iff, Nat.eqb_neq. intros [Hmin Hc] (k&Hk&_&H).
    destruct H as [|k i m j [H1 _] H2]; [lia|]. specialize (IH i m Hi Hc H1).
    apply (bounded_nsteps _ k) in H2; [lia| |].
    + intros a b Ha [H _]. by apply (bounded_spans false n).
    + apply (bounded_spans false n i m) in H1; lia.
Qed.

(** Of any repetitions, those that move lead to the same end. *)
Lemma nsteps_moving (R : relation nat) k i j : nsteps R k i j → ∃ k', (k' <= k)%nat ∧ nsteps (λ a b, R a b ∧ b ≠ a) k' i j.
Proof.
  induction 1 as [i|k i m j H1 _ (k'&Hk&IH)]; [exists 0%nat; split; [lia|constructor]|].
  destruct (decide (m = i)) as [->|Hne]; [exists k'; split; [lia|done]|].
  exists (S k'). split; [lia|]. by econstructor.
Qed.

Lemma moving_all l i j :
  Forall (λ n, ∀ i j, (i <= length subject)%nat → solid n = true → spans false n i j → spans true n i j) l →
  (i <= length subject)%nat → forallb solid l = true → spans_all false l i j → spans_all true l i j.
Proof.
  intros Hl. revert i. induction Hl as [|n l Hn _ IH]; intros i Hi; simpl; [done|].
  rewrite andb_true_iff. intros [Hs1 Hs2] (m&H1&H2). exists m. split; [by apply Hn|].
  apply IH; [by apply (bounded_spans false n i m)|done..].
Qed.
Lemma spans_moving n i j : (i <= length subject)%nat → solid n = true → spans false n i j → spans true n i j.
Proof.
  revert i j. induction n as [c| |g r| | | | |l IH|bs IH|n min max IH] using node_induction; intros i j Hi; try done.
  - rewrite !spans_group. by apply moving_all.
  - rewrite !spans_alt. cbn [solid]. rewrite forallb_forall. intros Hs (b&Hb&H). exists b. split; [done|].
    revert H. apply moving_all; [by apply (proj1 (list.Forall_forall _ _) IH)|done|].
    by apply Hs, list_elem_of_In.
  - cbn [solid spans]. rewrite andb_true_iff, orb_true_iff, Nat.eqb_eq. intros [Hs Hmin] (k&Hk&Hx&H).
    assert (∃ k', (k' <= k)%nat ∧ (min <= k')%nat ∧ nsteps (λ a b, spans false n a b ∧ b ≠ a) k' i j)
      as (k'&Hk'&Hm&H').
    { destruct Hmin as [->|Hc].
      - apply (nsteps_sub _ (spans false n)) in H; [|naive_solver].
        apply nsteps_moving in H as (k'&Hk'&H). exists k'. split_and!; [done|lia|done].
      - exists k. split_and!; [done..|]. clear Hx Hk. revert i Hi H. induction k as [|k IHk]; intros i Hi H.
        { inversion H; subst. constructor. }
        inversion H as [|? ? m ? [H1 _] H2]; subst. pose proof (consumes_moves n i m Hi Hc H1).
        econstructor; [split; [exact H1|lia]|]. apply IHk; [by apply (bounded_spans false n i m)|done]. }
    exists k'. split_and!; [done|destruct max; simpl in *; [lia|done]|].
    clear Hx Hk Hk' Hm H. revert i Hi H'. induction k' as [|k' IHk]; intros i Hi H.
    { inversion H; subst. constructor. }
    inversion H as [|? ? m ? [H1 Hne] H2]; subst.
    econstructor; [split; [by apply IH|done]|]. apply IHk; [by apply (bounded_spans false n i m)|done].
Qed.
Lemma spans_all_moving l i j :
  (i <= length subject)%nat → forallb solid l = true → spans_all false l i j → spans_all true l i j.
Proof. rewrite <-!spans_group. intros Hi Hs. by apply (spans_moving (NGroup l)). Qed.
End denotation.

(** C40: the matcher finds what a pattern means.  A pattern that parses matches a
    text only where some stretch of the text is spanned by its nodes, each
    repetition taken in the usual sense; and where no node that must be repeated
    can be empty, it matches wherever there is such a stretch. *)
Theorem matcher_finds_spans (pattern subject : str) (nodes : list Node) :
  parse pattern = Some nodes →
  (matches pattern subject = true → ∃ i j, (i <= j <= length subject)%nat ∧ spans_all subject false nodes i j) ∧
  (forallb solid nodes = true →
   ∀ i j, (i <= length subject)%nat → spans_all subject false nodes i j → matches pattern subject = true).
Proof.
  intros Hp. unfold matches. rewrite Hp. split.
  - intros (i&j&Hi&H)%nodes_match_spec. apply (spans_all_sub _ true false) in H.
    + exists i, j. split; [|done]. refine (bounded_all subject false nodes _ i j Hi H).
      apply list.Forall_forall. intros; apply bounded_spans.
    + apply list.Forall_forall. intros n _. apply spans_usual.
  - intros Hs i j Hi H. apply nodes_match_spec. exists i, j. split; [done|]. by apply spans_all_moving.
Qed.

(** A required repetition that can only be empty is never found.  On an
    empty text a node repeated at least once never matches, though its spans are
    there whenever the node itself has the empty one: the matcher counts a
    repetition only when it moves. *)
Theorem empty_repetition_missed (n : Node) (min : nat) (max : option nat) :
  nodes_match [] [NRepeat n (S min) max] = false ∧
  (spans [] false n 0 0 → within max (S min) → spans_all [] false [NRepeat n (S min) max] 0 0).
Proof.
  split.
  - apply not_true_is_false. intros (i&j&Hi&m&H&_)%nodes_match_spec.
    destruct H as (k&Hk&_&H). inversion H as [|? ? a ? [H1 Hne] _]; subst; [lia|].
    pose proof (bounded_spans [] true n i a Hi H1). simpl in *. specialize (Hne eq_refl). lia.
  - intros H Hm. exists 0%nat. split; [|done]. exists (S min). split_and!; [done..|].
    clear Hm. induction (S min) as [|k IH]; [constructor|]. by econstructor.
Qed.

(** What the text of a pattern means ([src/rust/src/kernel/pattern.rs]): the
    parser's turns and fuel are always enough, and [whole_string] rewrites the
    line anchors of the parsed pattern, class members and escapes untouched. *)

(** ** What a parser leaves *)
(** At most what it was given, or less. *)
Definition shrinks {A} (p : str → Parsed A) : Prop :=
  ∀ s a r, p s = Some (a, r) → (length r <= length s)%nat.
Definition smaller {A} (p : str → Parsed A) : Prop :=
  ∀ s a r, p s = Some (a, r) → (length r < length s)%nat.

Lemma smaller_shrinks {A} (p : str → Parsed A) : smaller p → shrinks p.
Proof. intros Hp s a r H. apply Hp in H. lia. Qed.
Lemma eat_some c s r : eat c s = Some r ↔ s = c :: r.
Proof.
  destruct s as [|x s]; simpl; [done|]. destruct (N.eqb_spec x c) as [->|]; naive_solver.
Qed.

(** Reads what an answered parser did off its definition. *)
Ltac answered :=
  repeat match goal with
  | x : (_ * _)%type |- _ => destruct x
  | H : (_ ≫= _) = Some _ |- _ => apply bind_Some in H as (?&?&H); cbn beta iota zeta in H
  | H : (let '(_, _) := ?x in _) = Some _ |- _ => destruct x; cbn beta iota zeta in H
  | H : Some _ = Some _ |- _ => injection H as; subst
  | H : (_, _) = (_, _) |- _ => injection H as; subst
  | H : None = Some _ |- _ => discriminate H
  | H : eat _ _ = Some _ |- _ => apply eat_some in H; subst
  | H : (if ?b then _ else _) = Some _ |- _ => destruct b eqn:?
  | H : match ?x with _ => _ end = Some _ |- _ => destruct x eqn:?; subst
  end; cbn [length fst snd] in *; try lia.

Lemma digits_shrink s : (length (digits s).2 <= length s)%nat.
Proof.
  induction s as [|c s IH]; simpl; [done|]. destruct (is_digit c); [|done].
  destruct (digits s). simpl in *. lia.
Qed.
Lemma count_shrinks : shrinks parse_count.
Proof.
  intros s n r H. unfold parse_count in H. pose proof (digits_shrink s).
  destruct (digits s). answered.
Qed.
Lemma bounded_repeat_shrinks : shrinks parse_bounded_repeat.
Proof.
  intros s a r H. unfold parse_bounded_repeat in H. answered;
    repeat match goal with H : parse_count _ = Some _ |- _ => apply count_shrinks in H end; cbn [length fst snd] in *; lia.
Qed.
Lemma class_char_smaller : smaller class_char.
Proof. intros s a r H. unfold class_char in H. answered. Qed.
Lemma class_member_smaller : smaller class_member.
Proof.
  intros s a r H. unfold class_member in H. answered;
    repeat match goal with H : class_char _ = Some _ |- _ => apply class_char_smaller in H end;
    cbn [length fst snd] in *; lia.
Qed.
Lemma class_members_shrink turns first : shrinks (class_members turns first).
Proof.
  revert first. induction turns as [|turns IH]; intros first s a r H; cbn [class_members] in H; [done|].
  destruct first; answered;
    repeat match goal with
    | H : class_member _ = Some _ |- _ => apply class_member_smaller in H
    | H : class_members _ _ _ = Some _ |- _ => apply IH in H
    end; cbn [length fst snd] in *; lia.
Qed.
Lemma class_shrinks : shrinks parse_class.
Proof.
  intros s a r H. unfold parse_class in H.
  destruct (eat 94 s) eqn:E; answered;
    repeat match goal with H : class_members _ _ _ = Some _ |- _ => apply class_members_shrink in H end;
    cbn [length fst snd] in *; lia.
Qed.
Lemma quantified_shrinks atom s : (length (quantified atom s).2 <= length s)%nat.
Proof.
  unfold quantified. destruct s as [|c s]; [done|].
  repeat (destruct (c =? _)%N; [simpl; try lia|]); [|simpl; lia].
  destruct (parse_bounded_repeat s) as [[[min max] r]|] eqn:E; [|simpl; lia].
  apply bounded_repeat_shrinks in E. simpl in *. lia.
Qed.

Section alternation.
Variable alt : str → Parsed (list Node).
Hypothesis Halt : shrinks alt.

Lemma atom_smaller : smaller (parse_atom alt).
Proof.
  intros s a r H. unfold parse_atom in H. answered;
    repeat match goal with
    | H : alt _ = Some _ |- _ => apply Halt in H
    | H : parse_class _ = Some _ |- _ => apply class_shrinks in H
    end; cbn [length fst snd] in *; lia.
Qed.
Lemma repeat_smaller : smaller (parse_repeat alt).
Proof.
  intros s a r H. unfold parse_repeat in H. answered.
  pose proof (quantified_shrinks n s0). apply atom_smaller in H0.
  destruct (quantified n s0). answered.
Qed.
Lemma concat_shrinks turns : shrinks (parse_concat turns alt).
Proof.
  induction turns as [|turns IH]; intros s a r H; cbn [parse_concat] in H; [done|]. answered;
    repeat match goal with
    | H : parse_repeat alt _ = Some _ |- _ => apply repeat_smaller in H
    | H : parse_concat _ alt _ = Some _ |- _ => apply IH in H
    end; cbn [length fst snd] in *; lia.
Qed.
Lemma branches_shrink turns concat : shrinks concat → shrinks (parse_branches turns concat).
Proof.
  intros Hc. induction turns as [|turns IH]; intros s a r H; cbn [parse_branches] in H; [done|]. answered;
    repeat match goal with
    | H : concat _ = Some _ |- _ => apply Hc in H
    | H : parse_branches _ _ _ = Some _ |- _ => apply IH in H
    end; cbn [length fst snd] in *; lia.
Qed.
Lemma alternation_shrinks : shrinks (alternation alt).
Proof.
  intros s a r H. unfold alternation in H. answered;
    repeat match goal with
    | H : parse_concat _ alt _ = Some _ |- _ => apply concat_shrinks in H
    | H : parse_branches _ _ _ = Some _ |- _ =>
        apply branches_shrink in H; [|intros ? ? ?; apply concat_shrinks]
    end; cbn [length fst snd] in *; lia.
Qed.
End alternation.

Lemma alt_shrinks fuel : shrinks (parse_alt fuel).
Proof. induction fuel as [|fuel IH]; [done|]. cbn [parse_alt]. by apply alternation_shrinks. Qed.

(** ** Turns and fuel are enough *)
(** Two ways to parse a group agree on every text shorter than [s]. *)
Definition agree_below {A} (n : nat) (p q : str → Parsed A) : Prop := ∀ r, (length r < n)%nat → p r = q r.

Lemma agree_below_le {A} n m (p q : str → Parsed A) : (m <= n)%nat → agree_below n p q → agree_below m p q.
Proof. intros Hm Hpq r Hr. apply Hpq. lia. Qed.

Lemma atom_ext alt alt' s : agree_below (length s) alt alt' → parse_atom alt s = parse_atom alt' s.
Proof. intros Ha. destruct s as [|c s]; [done|]. simpl. rewrite (Ha s) by (simpl; lia). done. Qed.
Lemma repeat_ext alt alt' s : agree_below (length s) alt alt' → parse_repeat alt s = parse_repeat alt' s.
Proof. intros Ha. unfold parse_repeat. by rewrite (atom_ext alt alt'). Qed.

Lemma concat_enough turns turns' alt alt' s :
  shrinks alt → agree_below (length s) alt alt' → (length s < turns)%nat → (length s < turns')%nat →
  parse_concat turns alt s = parse_concat turns' alt' s.
Proof.
  intros Halt. revert turns' s. induction turns as [|turns IH]; intros [|turns'] s Ha Ht Ht'; [lia..|].
  cbn [parse_concat]. destruct (concat_ends s); [done|]. rewrite <-(repeat_ext alt alt') by done.
  destruct (parse_repeat alt s) as [[n r]|] eqn:E; [|done]. cbn.
  apply (repeat_smaller alt Halt) in E. rewrite (IH turns'); [done| |lia..].
  by apply (agree_below_le (length s)); [lia|].
Qed.

Lemma branches_enough turns turns' concat concat' s :
  shrinks concat → agree_below (length s) concat concat' → (length s < turns)%nat → (length s < turns')%nat →
  parse_branches turns concat s = parse_branches turns' concat' s.
Proof.
  intros Hc. revert turns' s. induction turns as [|turns IH]; intros [|turns'] s Ha Ht Ht'; [lia..|].
  cbn [parse_branches]. destruct (eat 124 s) as [r|] eqn:E; [|done]. apply eat_some in E as ->.
  cbn [length] in *. rewrite <-(Ha r) by (cbn [length]; lia).
  destruct (concat r) as [[b r']|] eqn:E; [|done]. cbn. apply Hc in E.
  rewrite (IH turns'); [done| |lia..]. by apply (agree_below_le (S (length r))); [lia|].
Qed.

Lemma alternation_ext alt alt' s :
  shrinks alt → agree_below (length s) alt alt' → alternation alt s = alternation alt' s.
Proof.
  intros Halt Ha. unfold alternation. rewrite (concat_enough _ (S (length s)) alt alt') by (done || lia).
  destruct (parse_concat _ alt' s) as [[first r]|] eqn:E; [|done]. cbn [mbind option_bind].
  assert (length r <= length s)%nat as Hr.
  { rewrite <-(concat_enough (S (length s)) _ alt alt') in E by (done || lia).
    by apply (concat_shrinks alt Halt) in E. }
  rewrite (branches_enough _ (S (length r)) _ (λ s, parse_concat (S (length s)) alt' s)); [done| | |lia..].
  - intros ? ? ?. by apply concat_shrinks.
  - intros r' Hr'. apply concat_enough; [done| |lia..]. by apply (agree_below_le (length s)); [lia|].
Qed.

Lemma alt_enough fuel fuel' s :
  (length s < fuel)%nat → (length s < fuel')%nat → parse_alt fuel s = parse_alt fuel' s.
Proof.
  revert fuel' s. induction fuel as [|fuel IH]; intros [|fuel'] s Hf Hf'; [lia..|].
  cbn [parse_alt]. apply alternation_ext; [apply alt_shrinks|]. intros r Hr. apply IH; lia.
Qed.

(** The fuel-free parser, and the equation it satisfies. *)
Definition alt_of (s : str) : Parsed (list Node) := parse_alt (S (length s)) s.
Lemma alt_of_shrinks : shrinks alt_of.
Proof. intros s a r. apply alt_shrinks. Qed.
Lemma alt_of_eq s : alt_of s = alternation alt_of s.
Proof.
  unfold alt_of at 1. cbn [parse_alt]. apply alternation_ext; [apply alt_shrinks|].
  intros r Hr. by apply alt_enough; [lia|lia].
Qed.

(** ** Rewriting the anchors *)
Fixpoint anchored (n : Node) : Node :=
  match n with
  | NLineStart => NStringStart
  | NLineEnd => NStringEnd
  | NGroup l => NGroup (map anchored l)
  | NAlt bs => NAlt (map (map anchored) bs)
  | NRepeat n min max => NRepeat (anchored n) min max
  | n => n
  end.

Abbreviation W := (whole_string_go None).
Abbreviation G := (λ b, whole_string_go (Some b)).
Definition mapped {A B} (f : A → B) (w : str → str) (p : Parsed A) : Parsed B := '(a, r) ← p; Some (f a, w r).

(** Characters the rewriting neither reads nor writes, outside a class. *)
Definition plain (c : char) : bool := negb ((c =? 92) || (c =? 91) || (c =? 94) || (c =? 36))%N.

Lemma whole_plain c s : plain c = true → W (c :: s) = c :: W s.
Proof.
  unfold plain. rewrite negb_true_iff, !orb_false_iff. intros [[[H1 H2] H3] H4].
  cbn [whole_string_go]. by rewrite H1, H2, H3, H4.
Qed.
Lemma whole_special c s : plain c = false → ∃ d r, W (c :: s) = d :: r ∧ plain d = false.
Proof.
  unfold plain at 1. rewrite negb_false_iff, !orb_true_iff, !N.eqb_eq.
  intros [[[->| ->]| ->]| ->].
  - destruct s as [|e s]; by eexists _, _.
  - destruct s as [|e s]; [by eexists _, _|]. cbn [whole_string_go]. destruct (e =? 94)%N; by eexists _, _.
  - by eexists _, _.
  - by eexists _, _.
Qed.
Lemma eat_whole c s : plain c = true → eat c (W s) = W <$> eat c s.
Proof.
  intros Hc. destruct s as [|x s]; [done|]. destruct (plain x) eqn:Hx.
  - rewrite whole_plain by done. simpl. by destruct (x =? c)%N.
  - destruct (whole_special x s Hx) as (d&r&->&Hd). simpl.
    destruct (N.eqb_spec d c) as [->|]; [congruence|]. destruct (N.eqb_spec x c) as [->|]; [congruence|done].
Qed.
Lemma digits_whole s : digits (W s) = ((digits s).1, W (digits s).2).
Proof.
  assert (∀ c, plain c = false → is_digit c = false) as Hd.
  { intros c. unfold plain. rewrite negb_false_iff, !orb_true_iff, !N.eqb_eq. by intros [[[->| ->]| ->]| ->]. }
  induction s as [|c s IH]; [done|]. destruct (plain c) eqn:Hc.
  - rewrite whole_plain by done. cbn [digits]. destruct (is_digit c); [|cbn [fst snd]; by rewrite whole_plain].
    rewrite IH. by destruct (digits s).
  - destruct (whole_special c s Hc) as (d&r&E&Hp). rewrite E. cbn [digits]. rewrite !Hd by done. cbn [fst snd]. by rewrite E.
Qed.
Lemma count_whole s : parse_count (W s) = mapped id W (parse_count s).
Proof.
  unfold parse_count. rewrite digits_whole. destruct (digits s) as [d r]. simpl.
  destruct (parse_digits d); [|done]. by destruct (_ <? _)%N.
Qed.
Lemma bounded_repeat_whole s : parse_bounded_repeat (W s) = mapped id W (parse_bounded_repeat s).
Proof.
  unfold parse_bounded_repeat. rewrite count_whole. destruct (parse_count s) as [[min r]|]; [|done]. cbn.
  rewrite eat_whole by done. destruct (eat 125 r); [done|]. cbn.
  rewrite eat_whole by done. destruct (eat 44 r) as [r1|]; [|done]. cbn.
  rewrite eat_whole by done. destruct (eat 125 r1); [done|]. cbn.
  rewrite count_whole. destruct (parse_count r1) as [[max r2]|]; [|done]. cbn.
  rewrite eat_whole by done. by destruct (eat 125 r2).
Qed.
Lemma quantified_whole a s :
  quantified (anchored a) (W s) = (anchored (quantified a s).1, W (quantified a s).2).
Proof.
  destruct s as [|c s]; [done|]. destruct (plain c) eqn:Hc.
  - rewrite whole_plain by done. cbn [quantified].
    destruct (c =? 42)%N; [done|]. destruct (c =? 43)%N; [done|]. destruct (c =? 63)%N; [done|].
    rewrite (bounded_repeat_whole s). destruct (c =? 123)%N; [|cbn [fst snd]; by rewrite whole_plain].
    destruct (parse_bounded_repeat s) as [[[min max] r]|]; [done|].
    cbn [fst snd mapped mbind option_bind]. by rewrite whole_plain.
  - destruct (whole_special c s Hc) as (d&r&E&Hp). rewrite E.
    assert (∀ x r, plain x = false → ∀ a, quantified a (x :: r) = (a, x :: r)) as Hq.
    { intros x r' Hx a'. revert Hx. unfold plain. rewrite negb_false_iff, !orb_true_iff, !N.eqb_eq.
      by intros [[[->| ->]| ->]| ->]. }
    rewrite !Hq by done. cbn [fst snd]. by rewrite E.
Qed.

(** *** Inside a class *)
Lemma class_step b c s : (c =? 92)%N = false → (c =? 93)%N && negb b = false → G b (c :: s) = c :: G false s.
Proof. intros H1 H2. cbn [whole_string_go]. by rewrite H1, H2. Qed.
Lemma class_close s : G false (93%N :: s) = 93%N :: W s.
Proof. done. Qed.
Lemma eat_close s : eat 93 (G false s) = W <$> eat 93 s.
Proof.
  destruct s as [|c s]; [done|]. cbn [eat]. destruct (N.eqb_spec c 93) as [->|Hne]; [done|].
  cbn [whole_string_go]. destruct (N.eqb_spec c 92) as [->|]; [by destruct s|].
  replace (c =? 93)%N with false by (symmetry; by apply N.eqb_neq). simpl.
  by replace (c =? 93)%N with false by (symmetry; by apply N.eqb_neq).
Qed.
Lemma eat_class b k s : k ≠ 92%N → k ≠ 93%N → eat k (G b s) = G false <$> eat k s.
Proof.
  intros H92 H93. destruct s as [|c s]; [done|]. cbn [eat]. destruct (N.eqb_spec c k) as [->|Hne].
  - rewrite class_step; [cbn [eat]; by rewrite N.eqb_refl|by apply N.eqb_neq|].
    by replace (k =? 93)%N with false by (symmetry; by apply N.eqb_neq).
  - cbn [whole_string_go]. destruct (N.eqb_spec c 92) as [->|]; [destruct s|destruct b];
      cbn [eat]; by rewrite (proj2 (N.eqb_neq _ k)) by congruence.
Qed.

(** A member can start here: not at the bracket that closes. *)
Definition member_here (b : bool) (s : str) : Prop := b = true ∨ eat 93 s = None.

Lemma class_char_whole b s : member_here b s → class_char (G b s) = mapped id (G false) (class_char s).
Proof.
  intros Hm. destruct s as [|c s]; [done|]. cbn [class_char whole_string_go].
  destruct (N.eqb_spec c 92) as [->|H92]; [by destruct s|]. cbn [class_char].
  rewrite (proj2 (N.eqb_neq c 92)) by done.
  replace ((c =? 93)%N && negb b) with false; [done|].
  destruct Hm as [->|Hm]; [by rewrite andb_false_r|]. cbn [eat] in Hm. by destruct (c =? 93)%N.
Qed.
Lemma class_member_whole b s : member_here b s → class_member (G b s) = mapped id (G false) (class_member s).
Proof.
  intros Hm. unfold class_member. rewrite class_char_whole by done.
  destruct (class_char s) as [[lo r]|]; [|done]. cbn [mapped mbind option_bind].
  rewrite eat_class by done. destruct (eat 45 r) as [[|x r']|]; [done| |done]. cbn [fmap option_fmap option_map].
  destruct (N.eqb_spec x 93) as [->|Hx]; [done|].
  rewrite (class_char_whole false) by (right; cbn [eat]; by rewrite (proj2 (N.eqb_neq x 93))).
  assert (∃ r1, G false (x :: r') = x :: r1) as [r1 E].
  { cbn [whole_string_go]. destruct (N.eqb_spec x 92) as [->|]; [destruct r'; eauto|].
    destruct ((x =? 93)%N && _); eauto. }
  rewrite E. rewrite (proj2 (N.eqb_neq x 93)) by done. by destruct (class_char (x :: r')) as [[hi r2]|].
Qed.
Lemma class_members_whole turns turns' b s :
  (length s < turns)%nat → (length (G b s) < turns')%nat →
  class_members turns' b (G b s) = mapped id W (class_members turns b s).
Proof.
  revert turns' b s. induction turns as [|turns IH]; intros [|turns'] b s Ht Ht'; [lia..|].
  cbn [class_members].
  assert (∀ H : member_here b s,
    ('(range, rest) ← class_member (G b s); '(ranges, rest) ← class_members turns' false rest;
     Some (range :: ranges, rest)) =
    mapped id W ('(range, rest) ← class_member s; '(ranges, rest) ← class_members turns false rest;
     Some (range :: ranges, rest))) as Hgo.
  { intros Hm. pose proof (class_member_whole b s Hm) as E.
    destruct (class_member s) as [[range r]|] eqn:Es; [|by rewrite E].
    cbn [mapped mbind option_bind] in E. rewrite E. cbn [mbind option_bind].
    apply class_member_smaller in Es, E. rewrite (IH turns' false r) by lia.
    by destruct (class_members turns false r) as [[ranges r']|]. }
  destruct b; [apply Hgo; by left|]. rewrite eat_close.
  destruct (eat 93 s) eqn:E; [done|]. apply Hgo. by right.
Qed.

(** The rewriting of what follows an opening bracket. *)
Definition opened (s : str) : str := match eat 94 s with Some r => 94%N :: G true r | None => G true s end.
Lemma whole_open s : W (91%N :: s) = 91%N :: opened s.
Proof. destruct s as [|d s]; [done|]. unfold opened. cbn [whole_string_go eat]. by destruct (N.eqb_spec d 94) as [->|]. Qed.

Lemma class_whole s : parse_class (opened s) = mapped anchored W (parse_class s).
Proof.
  unfold parse_class, opened. destruct (eat 94 s) as [r|] eqn:E.
  - cbn [eat]. rewrite N.eqb_refl. rewrite (class_members_whole (S (length r))) by lia.
    by destruct (class_members _ _ _) as [[ranges r']|].
  - rewrite eat_class, E by done. cbn [fmap option_fmap option_map].
    rewrite (class_members_whole (S (length s))) by lia.
    by destruct (class_members _ _ _) as [[ranges r']|].
Qed.

(** *** Outside *)
Section outside.
Variables alt alt' : str → Parsed (list Node).

Lemma atom_whole s :
  (∀ r, (length r < length s)%nat → alt' (W r) = mapped (map anchored) W (alt r)) →
  parse_atom alt' (W s) = mapped anchored W (parse_atom alt s).
Proof.
  intros Ha. destruct s as [|c s]; [done|]. specialize (Ha s ltac:(simpl; lia)).
  destruct (plain c) eqn:Hc.
  - rewrite whole_plain by done. unfold plain in Hc.
    rewrite negb_true_iff, !orb_false_iff in Hc. destruct Hc as [[[H1 H2] H3] H4].
    cbn [parse_atom]. rewrite H1, H2, H3, H4, Ha. destruct (c =? 46)%N; [done|].
    destruct (c =? 40)%N; [|done]. destruct (alt s) as [[inner r]|]; [|done]. cbn [mapped mbind option_bind].
    rewrite eat_whole by done. by destruct (eat 41 r).
  - unfold plain in Hc. rewrite negb_false_iff, !orb_true_iff, !N.eqb_eq in Hc.
    destruct Hc as [[[->| ->]| ->]| ->]; [|..|done].
    + destruct s as [|e s]; [done|]. change (W (92%N :: e :: s)) with (92%N :: e :: W s).
      assert (anchored (escaped_atom e) = escaped_atom e) as Ee.
      { unfold escaped_atom. destruct (e =? 65)%N; [done|]. by destruct (_ || _). }
      cbn. by rewrite Ee.
    + rewrite whole_open. apply (class_whole s).
    + done.
Qed.
Lemma repeat_whole s :
  (∀ r, (length r < length s)%nat → alt' (W r) = mapped (map anchored) W (alt r)) →
  parse_repeat alt' (W s) = mapped anchored W (parse_repeat alt s).
Proof.
  intros Ha. unfold parse_repeat. rewrite atom_whole by done.
  destruct (parse_atom alt s) as [[a r]|]; [|done]. cbn [mapped mbind option_bind].
  rewrite quantified_whole. by destruct (quantified a r).
Qed.
Lemma concat_ends_whole s : concat_ends (W s) = concat_ends s.
Proof.
  destruct s as [|c s]; [done|]. destruct (plain c) eqn:Hc; [by rewrite whole_plain|].
  destruct (whole_special c s Hc) as (d&r&->&Hd). cbn [concat_ends].
  assert (∀ x, plain x = false → ((x =? 124) || (x =? 41))%N = false) as Hx.
  { intros x. unfold plain. rewrite negb_false_iff, !orb_true_iff, !N.eqb_eq. by intros [[[->| ->]| ->]| ->]. }
  by rewrite !Hx.
Qed.

Hypothesis Halt : shrinks alt.
Hypothesis Halt' : shrinks alt'.

Lemma concat_whole turns turns' s :
  (∀ r, (length r < length s)%nat → alt' (W r) = mapped (map anchored) W (alt r)) →
  (length s < turns)%nat → (length (W s) < turns')%nat →
  parse_concat turns' alt' (W s) = mapped (map anchored) W (parse_concat turns alt s).
Proof using Halt Halt'.
  revert turns' s. induction turns as [|turns IH]; intros [|turns'] s Ha Ht Ht'; [lia..|].
  cbn [parse_concat]. rewrite concat_ends_whole. destruct (concat_ends s); [done|].
  pose proof (repeat_whole s Ha) as E. destruct (parse_repeat alt s) as [[n r]|] eqn:Es; [|by rewrite E].
  cbn [mapped mbind option_bind] in E. rewrite E. cbn [mbind option_bind].
  apply (repeat_smaller alt Halt) in Es. apply (repeat_smaller alt' Halt') in E.
  rewrite (IH turns' r) by (lia || (intros r' Hr'; apply Ha; lia)).
  by destruct (parse_concat turns alt r) as [[nodes r']|].
Qed.

Lemma branches_whole turns turns' concat concat' s :
  shrinks concat → shrinks concat' →
  (∀ r, (length r < length s)%nat → concat' (W r) = mapped (map anchored) W (concat r)) →
  (length s < turns)%nat → (length (W s) < turns')%nat →
  parse_branches turns' concat' (W s) = mapped (map (map anchored)) W (parse_branches turns concat s).
Proof using Type.
  intros Hc Hc'. revert turns' s. induction turns as [|turns IH]; intros [|turns'] s Ha Ht Ht'; [lia..|].
  cbn [parse_branches]. rewrite eat_whole by done.
  destruct (eat 124 s) as [r|] eqn:Er; [|done]. apply eat_some in Er as ->. cbn [fmap option_fmap option_map].
  cbn [length] in *. rewrite whole_plain in Ht' by done. cbn [length] in Ht'.
  pose proof (Ha r ltac:(lia)) as E. destruct (concat r) as [[b r']|] eqn:Es; [|by rewrite E].
  cbn [mapped mbind option_bind] in E. rewrite E. cbn [mbind option_bind].
  apply Hc in Es. apply Hc' in E.
  rewrite (IH turns' r') by (lia || (intros r'' Hr''; apply Ha; lia)).
  by destruct (parse_branches turns concat r') as [[bs r'']|].
Qed.

Lemma alternation_whole s :
  (∀ r, (length r < length s)%nat → alt' (W r) = mapped (map anchored) W (alt r)) →
  alternation alt' (W s) = mapped (map anchored) W (alternation alt s).
Proof using Halt Halt'.
  intros Ha. unfold alternation. rewrite (concat_whole (S (length s)) _ s) by (done || lia).
  destruct (parse_concat _ alt s) as [[first r]|] eqn:E; [|done]. cbn [mapped mbind option_bind].
  apply (concat_shrinks alt Halt) in E.
  rewrite (branches_whole (S (length r)) _ (λ s, parse_concat (S (length s)) alt s)); [|..|lia|lia].
  - destruct (parse_branches _ _ r) as [[[|b bs] r']|]; done.
  - intros ? ? ?. by apply concat_shrinks.
  - intros ? ? ?. by apply concat_shrinks.
  - intros r' Hr'. apply concat_whole; [|lia|lia]. intros r'' Hr''. apply Ha. lia.
Qed.
End outside.

Lemma alt_whole s : alt_of (W s) = mapped (map anchored) W (alt_of s).
Proof.
  remember (length s) as n eqn:Hn. revert s Hn.
  induction n as [n IH] using lt_wf_ind. intros s ->. rewrite !alt_of_eq.
  apply alternation_whole; [apply alt_of_shrinks..|]. intros r Hr. by apply (IH (length r)).
Qed.

(** Reading a pattern's anchors as whole-value anchors is a rewriting of
    its tree.  The text [whole_string] writes parses exactly when the pattern
    does, to the same tree with every line anchor, at any depth, replaced by the
    string anchor; bracket classes, escapes and quantifiers are what they were. *)
Theorem whole_string_anchors (pattern : str) : parse (whole_string pattern) = map anchored <$> parse pattern.
Proof.
  unfold parse, whole_string. change (parse_alt (S (length ?s)) ?s) with (alt_of s).
  rewrite alt_whole. destruct (alt_of pattern) as [[nodes [|c r]]|]; [done| |done]. cbn [mapped mbind option_bind].
  destruct (plain c) eqn:Hc; [by rewrite whole_plain|]. by destruct (whole_special c r Hc) as (d&r'&->&_).
Qed.

(** A pattern anchored at both ends is met by whole values only: dispatch
    lets a text through exactly when the nodes between the anchors, anchors
    among them read as string anchors, span it from its first character to its
    last, so no line of a longer text can satisfy it. *)
Theorem anchored_matches_whole (pattern subject : str) (body : list Node) :
  parse pattern = Some (NLineStart :: body ++ [NLineEnd]) →
  matches_whole pattern subject = true ↔ spans_all subject true (map anchored body) 0 (length subject).
Proof.
  intros Hp. unfold matches_whole, matches. rewrite whole_string_anchors, Hp. cbn [fmap option_fmap option_map].
  rewrite nodes_match_spec. cbn [map anchored]. rewrite map_app. split.
  - intros (i&j&_&m&[-> ->]&H). apply spans_all_app in H as (m&H&m'&[-> ->]&_). done.
  - intros H. exists 0%nat, (length subject). split; [lia|]. exists 0%nat. split; [done|].
    apply spans_all_app. exists (length subject). split; [done|]. by exists (length subject).
Qed.

(** ** On declared patterns *)
(** A recorded postal code pattern, and a part repeated though it can be empty. *)
Definition postcode : str := "^[0-9]{5}(-[0-9]{4})?$".
Definition digit_class : Node := NClass false [(48%N, 57%N)].
Definition postcode_body : list Node :=
  [NRepeat digit_class 5 (Some 5%nat);
   NRepeat (NGroup [NLiteral 45%N; NRepeat digit_class 4 (Some 4%nat)]) 0 (Some 1%nat)].
Lemma postcode_parses : parse postcode = Some (NLineStart :: postcode_body ++ [NLineEnd]).
Proof. vm_compute. reflexivity. Qed.

Example twice_optional_missed : matches "^(a?){2}$" "a" = false ∧ matches "^(a?){2}$" "aa" = true.
Proof. by vm_compute. Qed.

(** Two spellings the declared subset admits, read as the characters they are
    made of: a group that captures nothing, and a lazy repetition. *)
Example not_extended : matches_whole "^(?:ab)$" "ab" = false ∧ matches_whole "^(?:ab)$" "?:ab" = true ∧
  matches_whole "^a*?$" "aa" = false ∧ matches_whole "^a*?$" "aa?" = true.
Proof. by vm_compute. Qed.

Lemma matcher_finds_spans_witness :
  (∃ i j, (i <= j <= 5)%nat ∧ spans_all "12345" false (NLineStart :: postcode_body ++ [NLineEnd]) i j) ∧
  forallb solid (NLineStart :: postcode_body ++ [NLineEnd]) = true.
Proof.
  split; [|vm_compute; reflexivity].
  apply (proj1 (matcher_finds_spans postcode "12345" _ postcode_parses)). vm_compute. reflexivity.
Defined.

Lemma anchored_matches_whole_witness :
  spans_all "12345-6789" true (map anchored postcode_body) 0 10 ∧
  ¬ spans_all ("12345" ++ [newline] ++ "x") true (map anchored postcode_body) 0 7.
Proof.
  split.
  - apply (anchored_matches_whole postcode "12345-6789" postcode_body postcode_parses). vm_compute. reflexivity.
  - intros H. apply (anchored_matches_whole postcode ("12345" ++ [newline] ++ "x") postcode_body postcode_parses) in H.
    vm_compute in H. discriminate H.
Defined.
