(* ===== verification/Clock.v ===== *)
(** The host's wall clock ([src/rust/host/core/src/clock.rs]): an instant as
    whole seconds since the Unix epoch, its ISO 8601 text, and the reading of
    that text back, with what is kept of both.  The calendar is Hinnant's, over eras of
    400 years. *)
From S2P Require Export RustText.
Open Scope Z_scope.

(** ** Dates *)

Definition days_in_month (year month : Z) : Z :=
  if month =? 2 then
    if (Z.rem year 4 =? 0) && (negb (Z.rem year 100 =? 0) || (Z.rem year 400 =? 0)) then 29 else 28
  else if (month =? 4) || (month =? 6) || (month =? 9) || (month =? 11) then 30
  else 31.

(** The day [z] after 1970-01-01 as year, month and day of the month.  [/] is
    [i64] division, toward zero; the unsigned parts are never negative. *)
Definition civil_from_days (z : Z) : Z * Z * Z :=
  let z := z + 719468 in
  let era := Z.quot (if 0 <=? z then z else z - 146096) 146097 in
  let doe := z - era * 146097 in
  let yoe := (doe - doe / 1460 + doe / 36524 - doe / 146096) / 365 in
  let y := yoe + era * 400 in
  let doy := doe - (365 * yoe + yoe / 4 - yoe / 100) in
  let mp := (5 * doy + 2) / 153 in
  let d := doy - (153 * mp + 2) / 5 + 1 in
  let m := if mp <? 10 then mp + 3 else mp - 9 in
  (if m <=? 2 then y + 1 else y, m, d).

Definition days_from_civil (year month day : Z) : Z :=
  let y := if month <=? 2 then year - 1 else year in
  let era := Z.quot (if 0 <=? y then y else y - 399) 400 in
  let yoe := y - era * 400 in
  let mp := if 2 <? month then month - 3 else month + 9 in
  let doy := Z.quot (153 * mp + 2) 5 + day - 1 in
  let doe := yoe * 365 + Z.quot yoe 4 - Z.quot yoe 100 + doy in
  era * 146097 + doe - 719468.

(** ** Text *)

(** [{:0width}] of a number that is not negative. *)
Definition padded (width : nat) (z : Z) : str := pad_left 48 width (dec_Z z).

(** [iso_utc], of a [u64] of seconds. *)
Definition iso_utc (secs : Z) : str :=
  let days := secs / 86400 in
  let rem := secs mod 86400 in
  let h := rem / 3600 in
  let m := rem mod 3600 / 60 in
  let s := rem mod 60 in
  let '(y, mo, d) := civil_from_days days in
  padded 4 y ++ "-" ++ padded 2 mo ++ "-" ++ padded 2 d ++ "T" ++
  padded 2 h ++ ":" ++ padded 2 m ++ ":" ++ padded 2 s ++ "Z".

(** [unix_now], of the seconds the system clock says have passed since the
    epoch, none where it reads before it; [iso8601_now]. *)
Definition unix_now (elapsed : option Z) : Z := default 0 elapsed.
Definition iso8601_now (elapsed : option Z) : str := iso_utc (Z.max (unix_now elapsed) 0).

(** [&text[first..last]] of an ASCII text. *)
Definition slice (s : str) (first last : nat) : str := take (last - first) (drop first s).
Definition is_ascii (s : str) : bool := forallb (λ c, c <? 128)%N s.

(** The closure [number]: digits only, so no sign. *)
Definition number (s : str) (first last : nat) : option Z :=
  let digits := slice s first last in
  if forallb is_digit digits then parse_i64 digits else None.

Definition byte_at (s : str) (i : nat) (c : char) : bool := (nth i s 0 =? c)%N.

(** ['-'], [':'] and ['T'] where they belong. *)
Definition separators_ok (s : str) : bool :=
  byte_at s 4 45 && byte_at s 7 45 && byte_at s 10 84 && byte_at s 13 58 && byte_at s 16 58.

(** The optional fractional seconds, between the nineteenth byte and the [Z]. *)
Definition fraction_ok (s : str) : bool :=
  match slice s 19 (length s - 1) with
  | [] => true
  | c :: digits => (c =? 46)%N && negb (bool_decide (digits = [])) && forallb is_digit digits
  end.

Definition instant (year month day hour minute second : Z) : option Z :=
  if (1 <=? month) && (month <=? 12) && (1 <=? day) && (day <=? days_in_month year month) &&
     (hour <? 24) && (minute <? 60) && (second <? 60)
  then Some (days_from_civil year month day * 86400 + hour * 3600 + minute * 60 + second)
  else None.

(** [parse_iso_utc].  A text that is not ASCII is refused whatever its byte
    length, so the length is counted in characters. *)
Definition parse_iso_utc (s : str) : option Z :=
  if (length s <? 20)%nat || negb (is_ascii s) || negb (ends_with s "Z") then None
  else if negb (separators_ok s) || negb (fraction_ok s) then None
  else
    year ← number s 0 4; month ← number s 5 7; day ← number s 8 10;
    hour ← number s 11 13; minute ← number s 14 16; second ← number s 17 19;
    instant year month day hour minute second.

Example iso_of_leap_day : iso_utc 951782400 = "2000-02-29T00:00:00Z".
Proof. reflexivity. Qed.
Example leap_day_of_iso : parse_iso_utc "2000-02-29T00:00:00.25Z" = Some 951782400.
Proof. reflexivity. Qed.

(** ** Facts *)

(** What the host's clock keeps: the calendar agrees with itself day by day, an
    instant's text reads back as the instant while its year has four digits and
    never after, and a text the host accepts is the text it would have written. *)
Open Scope Z_scope.

(** ** The calendar is right *)

#[local] Ltac Zify.zify_post_hook ::= Z.div_mod_to_equations.

Definition valid_date (y m d : Z) : bool :=
  (1 <=? m) && (m <=? 12) && (1 <=? d) && (d <=? days_in_month y m).

Definition leap (y : Z) : bool := (y mod 4 =? 0) && (negb (y mod 100 =? 0) || (y mod 400 =? 0)).
Lemma days_in_month_nonneg (y m : Z) :
  0 <= y → days_in_month y m =
    if m =? 2 then if leap y then 29 else 28
    else if (m =? 4) || (m =? 6) || (m =? 9) || (m =? 11) then 30 else 31.
Proof. intros Hy. unfold days_in_month. by rewrite !Z.rem_mod_nonneg by lia. Qed.

(** Years of an era, counted from March: where each starts, and how long it is. *)
Definition year_start (yoe : Z) : Z := 365 * yoe + yoe / 4 - yoe / 100.
Definition year_of (doe : Z) : Z := (doe - doe / 1460 + doe / 36524 - doe / 146096) / 365.

Lemma year_of_bounds (doe : Z) :
  0 <= doe < 146097 →
  0 <= year_of doe <= 399 ∧ 0 <= doe - year_start (year_of doe) ∧
  doe - year_start (year_of doe) <= if leap (year_of doe + 1) then 365 else 364.
Proof.
  intros H. unfold year_start, leap.
  assert (0 <= year_of doe <= 399 ∧ year_start (year_of doe) <= doe <= year_start (year_of doe) + 365 ∧
    (doe = year_start (year_of doe) + 365 →
     (year_of doe + 1) mod 4 = 0 ∧ ((year_of doe + 1) mod 100 ≠ 0 ∨ (year_of doe + 1) mod 400 = 0))) as (H1 & H2 & H3)
    by (unfold year_of, year_start; lia).
  unfold year_start in *. split_and!; [lia..|]. case_match eqn:E; [lia|].
  destruct (decide (doe = year_start (year_of doe) + 365)) as [Hd|Hd]; unfold year_start in Hd; [|lia].
  specialize (H3 Hd). lia.
Qed.

(** [year_of] never falls, so the ends of each year decide it. *)
Lemma year_of_succ (doe : Z) : 0 <= doe < 146096 → year_of doe <= year_of (doe + 1).
Proof. unfold year_of. lia. Qed.

Lemma year_of_mono (doe doe' : Z) : 0 <= doe → doe <= doe' → doe' <= 146096 → year_of doe <= year_of doe'.
Proof.
  intros H0 Hle. replace doe' with (doe + Z.of_nat (Z.to_nat (doe' - doe))) by lia.
  generalize (Z.to_nat (doe' - doe)) as n. intros n Hn; induction n as [|n IH]; [by rewrite Z.add_0_r|].
  etrans; [apply IH; lia|]. rewrite Nat2Z.inj_succ, <- Z.add_1_r, Z.add_assoc. apply year_of_succ. lia.
Qed.

Definition year_length (yoe : Z) : Z := if leap (yoe + 1) then 366 else 365.
Definition year_ends_ok (yoe : Z) : bool :=
  (year_of (year_start yoe) =? yoe) && (year_of (year_start yoe + year_length yoe - 1) =? yoe) &&
  (0 <=? year_start yoe) && (year_start yoe + year_length yoe <=? 146097).

Lemma year_of_start (yoe doy : Z) :
  0 <= yoe <= 399 → 0 <= doy < year_length yoe →
  year_of (year_start yoe + doy) = yoe ∧ 0 <= year_start yoe + doy < 146097.
Proof.
  intros Hy Hd.
  assert (forallb year_ends_ok (seqZ 0 400) = true) as Hall by (vm_compute; reflexivity).
  rewrite forallb_forall in Hall. specialize (Hall yoe).
  rewrite <- list_elem_of_In, elem_of_seqZ in Hall. specialize (Hall ltac:(lia)).
  unfold year_ends_ok in Hall. rewrite !andb_true_iff, !Z.eqb_eq, !Z.leb_le in Hall.
  destruct Hall as [[[E1 E2] H0] H1].
  pose proof (year_of_mono (year_start yoe) (year_start yoe + doy) ltac:(lia) ltac:(lia) ltac:(lia)).
  pose proof (year_of_mono (year_start yoe + doy) (year_start yoe + year_length yoe - 1)
    ltac:(lia) ltac:(lia) ltac:(lia)). lia.
Qed.

(** Months of a year counted from March: [mp] and the day within it. *)
Definition month_start (mp : Z) : Z := (153 * mp + 2) / 5.
Definition month_of (mp : Z) : Z := if mp <? 10 then mp + 3 else mp - 9.

Lemma civil_from_days_nonneg (z : Z) :
  0 <= z →
  let era := (z + 719468) / 146097 in
  let doe := (z + 719468) mod 146097 in
  let doy := doe - year_start (year_of doe) in
  let mp := (5 * doy + 2) / 153 in
  let y := year_of doe + era * 400 in
  civil_from_days z = (if month_of mp <=? 2 then y + 1 else y, month_of mp, doy - month_start mp + 1).
Proof.
  intros Hz. cbv zeta. unfold civil_from_days. cbv zeta.
  rewrite (proj2 (Z.leb_le 0 _)), Z.quot_div_nonneg by lia.
  rewrite (Z.mod_eq (z + 719468) 146097), (Z.mul_comm 146097) by lia. done.
Qed.

Lemma days_from_civil_nonneg (era yoe mp d : Z) :
  0 <= era → 0 <= yoe <= 399 → 0 <= mp <= 11 →
  let m := month_of mp in
  let y := yoe + era * 400 in
  days_from_civil (if m <=? 2 then y + 1 else y) m d =
    era * 146097 + (year_start yoe + (month_start mp + d - 1)) - 719468.
Proof.
  intros He Hy Hm. unfold days_from_civil, month_of, month_start, year_start. cbv zeta.
  assert (∀ b : bool, (if b then (if b then yoe + era * 400 + 1 else yoe + era * 400) - 1
    else if b then yoe + era * 400 + 1 else yoe + era * 400) = yoe + era * 400) as -> by (intros []; lia).
  rewrite (proj2 (Z.leb_le 0 _)), !Z.quot_div_nonneg by lia.
  replace ((yoe + era * 400) / 400) with era by lia.
  replace (yoe + era * 400 - era * 400) with yoe by lia.
  destruct (mp <? 10) eqn:E.
  - rewrite (proj2 (Z.ltb_lt 2 _)) by lia. rewrite !Z.quot_div_nonneg by lia.
    replace (mp + 3 - 3) with mp by lia. lia.
  - rewrite (proj2 (Z.ltb_ge 2 _)) by lia. rewrite !Z.quot_div_nonneg by lia.
    replace (mp - 9 + 9) with mp by lia. lia.
Qed.

(** A day of the year and a month with its day say the same. *)
Definition doy_ok (long : bool) (doy : Z) : bool :=
  let mp := (5 * doy + 2) / 153 in
  let d := doy - month_start mp + 1 in
  let y := if long then 2000 else 2001 in
  (0 <=? mp) && (mp <=? 11) && valid_date y (month_of mp) d.
Definition month_day_ok (long : bool) (m d : Z) : bool :=
  let mp := if 2 <? m then m - 3 else m + 9 in
  let doy := month_start mp + d - 1 in
  (month_of mp =? m) && (0 <=? mp) && (mp <=? 11) && ((5 * doy + 2) / 153 =? mp) &&
  (0 <=? doy) && (doy <? if long && (m =? 2) then 366 else 365).

Lemma days_in_month_leap (y : Z) (m : Z) :
  0 <= y → days_in_month y m = days_in_month (if leap y then 2000 else 2001) m.
Proof. intros Hy. rewrite !days_in_month_nonneg by (repeat case_match; lia). by destruct (leap y). Qed.

Lemma valid_date_leap (y m d : Z) :
  0 <= y → valid_date y m d = valid_date (if leap y then 2000 else 2001) m d.
Proof. intros Hy. unfold valid_date. by rewrite (days_in_month_leap y m Hy). Qed.

Lemma forallb_seqZ (p : Z → bool) (a n : Z) :
  forallb p (seqZ a n) = true → ∀ x, a <= x < a + n → p x = true.
Proof.
  rewrite forallb_forall. intros H x Hx. apply H. rewrite <- list_elem_of_In, elem_of_seqZ. lia.
Qed.

Lemma doy_month (long : bool) (doy : Z) :
  0 <= doy < (if long then 366 else 365) → doy_ok long doy = true.
Proof.
  assert (forallb (doy_ok true) (seqZ 0 366) && forallb (doy_ok false) (seqZ 0 365) = true)
    as [H1 H2]%andb_true_iff by (vm_compute; reflexivity).
  intros H. destruct long; [by apply (forallb_seqZ _ _ _ H1); lia|by apply (forallb_seqZ _ _ _ H2); lia].
Qed.

Lemma month_day_doy (long : bool) (m d : Z) :
  valid_date (if long then 2000 else 2001) m d = true → month_day_ok long m d = true.
Proof.
  assert (∀ long, forallb (λ m,
      forallb (month_day_ok long m) (seqZ 1 (days_in_month (if long then 2000 else 2001) m))) (seqZ 1 12)
    = true) as H by (intros []; vm_compute; reflexivity).
  intros Hv. unfold valid_date in Hv. rewrite !andb_true_iff, !Z.leb_le in Hv.
  pose proof (forallb_seqZ _ _ _ (H long) m ltac:(lia)) as Hm.
  apply (forallb_seqZ _ _ _ Hm). lia.
Qed.

(** The leap day falls in the civil year after the one counted from March. *)
Lemma month_leap_irrelevant (m : Z) : m ≠ 2 → days_in_month 2000 m = days_in_month 2001 m.
Proof. intros Hm. unfold days_in_month. by rewrite (proj2 (Z.eqb_neq m 2)). Qed.

Lemma leap_era (yoe era : Z) : leap (yoe + era * 400 + 1) = leap (yoe + 1).
Proof.
  unfold leap. replace (yoe + era * 400 + 1) with (yoe + 1 + era * 400) by lia.
  rewrite (Z.mod_add _ _ 400) by lia.
  replace (yoe + 1 + era * 400) with (yoe + 1 + era * 100 * 4) by lia. rewrite (Z.mod_add _ _ 4) by lia.
  replace (yoe + 1 + era * 100 * 4) with (yoe + 1 + era * 4 * 100) by lia. by rewrite (Z.mod_add _ _ 100) by lia.
Qed.

Lemma civil_from_days_spec (z y m d : Z) :
  0 <= z → civil_from_days z = (y, m, d) →
  valid_date y m d = true ∧ days_from_civil y m d = z.
Proof.
  intros Hz E. rewrite civil_from_days_nonneg in E by done.
  set (era := (z + 719468) / 146097) in E. set (doe := (z + 719468) mod 146097) in E.
  assert (0 <= doe < 146097) as Hdoe by (unfold doe; lia).
  assert (0 <= era) as Hera by (unfold era; lia).
  assert (z = era * 146097 + doe - 719468) as Ez by (unfold era, doe; lia).
  clearbody era doe. pose proof (year_of_bounds doe Hdoe) as (Hy & H0 & H1).
  set (doy := doe - year_start (year_of doe)) in *. cbv zeta in E.
  pose proof (doy_month (leap (year_of doe + 1)) doy ltac:(case_match; lia)) as Hok.
  unfold doy_ok in Hok. set (mp := (5 * doy + 2) / 153) in *.
  rewrite !andb_true_iff, !Z.leb_le in Hok. destruct Hok as [[Hm0 Hm1] Hv].
  injection E as Ey Em Ed. split.
  - rewrite <- Ey, <- Em, <- Ed. rewrite valid_date_leap by (repeat case_match; lia).
    destruct (month_of mp <=? 2) eqn:E2; [by rewrite leap_era|].
    unfold valid_date in *. rewrite !andb_true_iff in *. destruct Hv as [Hv1 Hv]. split; [done|].
    assert (days_in_month 2000 (month_of mp) = days_in_month 2001 (month_of mp)) by (apply month_leap_irrelevant; lia).
    by repeat case_match; rewrite ?H in *; congruence.
  - rewrite <- Ey, <- Em, <- Ed. rewrite (days_from_civil_nonneg era (year_of doe) mp) by lia.
    rewrite Ez. unfold doy. lia.
Qed.

Lemma era_of_year (y : Z) : 0 <= y → ∃ era yoe, y = yoe + era * 400 ∧ 0 <= era ∧ 0 <= yoe <= 399.
Proof. intros Hy. exists (y / 400), (y mod 400). lia. Qed.

Lemma days_from_civil_spec (y m d : Z) :
  1970 <= y → valid_date y m d = true →
  0 <= days_from_civil y m d ∧ civil_from_days (days_from_civil y m d) = (y, m, d).
Proof.
  intros Hy Hv.
  assert (1969 <= if m <=? 2 then y - 1 else y) as Hlo by (destruct (m <=? 2); lia).
  destruct (era_of_year (if m <=? 2 then y - 1 else y) ltac:(lia)) as (era & yoe & E0 & He & Hyoe).
  rewrite E0 in Hlo. rewrite valid_date_leap in Hv by lia.
  pose proof (month_day_doy _ _ _ Hv) as Hok. unfold month_day_ok in Hok.
  set (mp := if 2 <? m then m - 3 else m + 9) in *. set (doy := month_start mp + d - 1) in *.
  rewrite !andb_true_iff, !Z.eqb_eq, !Z.leb_le, Z.ltb_lt in Hok.
  destruct Hok as [[[[[Em Hm0] Hm1] Emp] H0] H1].
  assert (y = if month_of mp <=? 2 then yoe + era * 400 + 1 else yoe + era * 400) as Ey
    by (rewrite Em; destruct (m <=? 2); lia).
  assert (0 <= doy < year_length yoe) as Hdoy.
  { unfold year_length. rewrite <- (leap_era yoe era). rewrite Em in Ey. subst y.
    destruct (m <=? 2) eqn:Eb; repeat case_match; lia. }
  assert (days_from_civil y m d = era * 146097 + (year_start yoe + doy) - 719468) as Ez.
  { rewrite Ey. rewrite <- Em at 1. by rewrite days_from_civil_nonneg by lia. }
  pose proof (year_of_start yoe doy Hyoe Hdoy) as [Hyo Hdoe].
  assert (0 <= days_from_civil y m d) as Hz. 
  { rewrite Ez. assert (yoe + era * 400 = 1969 → 306 <= doy) as Hjan.
    { intros E9. rewrite E9, Em in Ey. destruct (m <=? 2) eqn:Eb; [|lia].
      unfold doy, mp, month_start. rewrite (proj2 (Z.ltb_ge 2 m)) by lia. unfold valid_date in Hv. lia. }
    unfold year_start. lia. }
  assert ((days_from_civil y m d + 719468) / 146097 = era ∧
          (days_from_civil y m d + 719468) mod 146097 = year_start yoe + doy) as [Ediv Emod].
  { split; symmetry; [apply (Z.div_unique _ _ _ (year_start yoe + doy))|apply (Z.mod_unique _ _ era)];
      [by left|rewrite Ez; ring|by left|rewrite Ez; ring]. }
  split; [done|]. rewrite civil_from_days_nonneg, Ediv, Emod, Hyo by done.
  replace (year_start yoe + doy - year_start yoe) with doy by lia.
  rewrite Emp, <- Ey, Em. f_equal. unfold doy. lia.
Qed.

(** The first day of the year 10000, where the text stops having four digits. *)
Definition year_10000 : Z := 2932897.

Lemma civil_from_days_year (z y m d : Z) :
  0 <= z → civil_from_days z = (y, m, d) → 1970 <= y ∧ (y < 10000 ↔ z < year_10000).
Proof.
  intros Hz E. rewrite civil_from_days_nonneg in E by done.
  set (era := (z + 719468) / 146097) in E. set (doe := (z + 719468) mod 146097) in E.
  assert (0 <= doe < 146097) as Hdoe by (unfold doe; lia).
  assert (z = era * 146097 + doe - 719468) as Ez by (unfold era, doe; lia).
  clearbody era doe. pose proof (year_of_bounds doe Hdoe) as (Hy & H0 & H1).
  assert (doe - year_start (year_of doe) <= 365) as H2 by (case_match; lia).
  clear H1. set (yoe := year_of doe) in *. clearbody yoe.
  set (doy := doe - year_start yoe) in *. cbv zeta in E.
  injection E as Ey _ _.
  assert (doe = year_start yoe + doy) as Edoe by (unfold doy; lia). clearbody doy. subst doe.
  assert ((month_of ((5 * doy + 2) / 153) <=? 2) = (306 <=? doy)) as Em
    by (unfold month_of; destruct (_ <? 10) eqn:?; destruct (306 <=? doy) eqn:?; lia).
  rewrite Em in Ey. clear Em. unfold year_10000, year_start in *.
  destruct (306 <=? doy) eqn:Ed; lia.
Qed.

(** Before the epoch there are no instants. *)
Lemma days_from_civil_before (y m d : Z) :
  0 <= y < 1970 → valid_date y m d = true → days_from_civil y m d < 0.
Proof.
  intros Hy Hv.
  assert (forallb (λ y, forallb (λ m, days_from_civil y m 31 <? 0) (seqZ 1 12)) (seqZ 0 1970) = true) as H
    by (vm_compute; reflexivity).
  unfold valid_date in Hv. rewrite !andb_true_iff, !Z.leb_le in Hv.
  pose proof (forallb_seqZ _ _ _ H y ltac:(lia)) as Hm. cbv beta in Hm.
  pose proof (forallb_seqZ _ _ _ Hm m ltac:(lia)) as Hd. cbv beta in Hd. apply Z.ltb_lt in Hd.
  assert (d <= 31) as Hd31.
  { destruct Hv as [_ Hv]. etrans; [exact Hv|]. unfold days_in_month. repeat case_match; lia. }
  revert Hd. unfold days_from_civil. cbv zeta. lia.
Qed.

(** ** Fixed-width numbers *)

Definition pad_ok (w : nat) (n : Z) : bool :=
  (length (padded w n) =? w)%nat && forallb is_digit (padded w n) &&
  bool_decide (parse_i64 (padded w n) = Some n).

Lemma padded_two (n : Z) : 0 <= n < 100 →
  ∃ a b, padded 2 n = [a; b] ∧ forallb is_digit [a; b] = true ∧ parse_i64 [a; b] = Some n.
Proof.
  intros Hn. assert (forallb (pad_ok 2) (seqZ 0 100) = true) as H by (vm_compute; reflexivity).
  apply (forallb_seqZ _ _ _ H) in Hn. unfold pad_ok in Hn.
  destruct (padded 2 n) as [|a [|b [|c l]]]; try discriminate Hn.
  apply andb_true_iff in Hn as [Hn Hp%bool_decide_eq_true]. exists a, b. exact (conj eq_refl (conj Hn Hp)).
Qed.

Lemma padded_four (n : Z) : 0 <= n < 10000 →
  ∃ a b c d, padded 4 n = [a; b; c; d] ∧ forallb is_digit [a; b; c; d] = true ∧
             parse_i64 [a; b; c; d] = Some n.
Proof.
  intros Hn. assert (forallb (pad_ok 4) (seqZ 0 10000) = true) as H by (vm_compute; reflexivity).
  apply (forallb_seqZ _ _ _ H) in Hn. unfold pad_ok in Hn.
  destruct (padded 4 n) as [|a [|b [|c [|d [|e l]]]]]; try discriminate Hn.
  apply andb_true_iff in Hn as [Hn Hp%bool_decide_eq_true]. exists a, b, c, d. exact (conj eq_refl (conj Hn Hp)).
Qed.

(** And back: digits are the padded text of their value. *)
Definition digits10 : list char := [48;49;50;51;52;53;54;55;56;57]%N.
Lemma is_digit_in (c : char) : is_digit c = true → c ∈ digits10.
Proof.
  unfold is_digit. intros [H1%N.leb_le H2%N.leb_le]%andb_true_iff. unfold digits10.
  rewrite !elem_of_cons. lia.
Qed.

Definition back_ok (w : nat) (s : str) : bool :=
  match parse_i64 s with Some n => (0 <=? n) && bool_decide (padded w n = s) | None => false end.

Lemma back_two (a b : char) (n : Z) :
  forallb is_digit [a; b] = true → parse_i64 [a; b] = Some n → 0 <= n ∧ padded 2 n = [a; b].
Proof.
  cbn [forallb]. intros H Hp. rewrite !andb_true_iff in H. destruct H as (Ha & Hb & _).
  assert (forallb (λ a, forallb (λ b, back_ok 2 [a; b]) digits10) digits10 = true) as H by (vm_compute; reflexivity).
  rewrite forallb_forall in H. specialize (H a). rewrite <- list_elem_of_In, forallb_forall in H.
  specialize (H (is_digit_in a Ha) b). rewrite <- list_elem_of_In in H. specialize (H (is_digit_in b Hb)).
  unfold back_ok in H. rewrite Hp in H. apply andb_true_iff in H as [H%Z.leb_le ->%bool_decide_eq_true]. done.
Qed.

Lemma back_four (a b c d : char) (n : Z) :
  forallb is_digit [a; b; c; d] = true → parse_i64 [a; b; c; d] = Some n →
  0 <= n ∧ padded 4 n = [a; b; c; d].
Proof.
  cbn [forallb]. intros H Hp. rewrite !andb_true_iff in H. destruct H as (Ha & Hb & Hc & Hd & _).
  assert (forallb (λ a, forallb (λ b, forallb (λ c, forallb (λ d, back_ok 4 [a; b; c; d])
    digits10) digits10) digits10) digits10 = true) as H by (vm_compute; reflexivity).
  rewrite forallb_forall in H. specialize (H a). rewrite <- list_elem_of_In, forallb_forall in H.
  specialize (H (is_digit_in a Ha) b). rewrite <- list_elem_of_In, forallb_forall in H.
  specialize (H (is_digit_in b Hb) c). rewrite <- list_elem_of_In, forallb_forall in H.
  specialize (H (is_digit_in c Hc) d). rewrite <- list_elem_of_In in H. specialize (H (is_digit_in d Hd)).
  unfold back_ok in H. rewrite Hp in H. apply andb_true_iff in H as [H%Z.leb_le ->%bool_decide_eq_true]. done.
Qed.

(** ** Reading an instant back *)

Lemma digits_ascii (s : str) : forallb is_digit s = true → is_ascii s = true.
Proof.
  unfold is_ascii. rewrite !forallb_forall. intros H c Hc. apply H in Hc.
  unfold is_digit in Hc. apply andb_true_iff in Hc as [_ Hc%N.leb_le]. apply N.ltb_lt. lia.
Qed.

Lemma number_slice (s : str) (i j : nat) (ds : str) (n : Z) :
  slice s i j = ds → forallb is_digit ds = true → parse_i64 ds = Some n → number s i j = Some n.
Proof. intros E Hd Hp. unfold number. by rewrite E, Hd. Qed.

Lemma padded_four_long (n : Z) : 10000 <= n → ∃ a b c d e r, padded 4 n = a :: b :: c :: d :: e :: r ∧ is_digit e = true.
Proof.
  intros Hn. unfold padded, dec_Z. rewrite (proj2 (Z.ltb_ge n 0)) by lia.
  destruct (dec_N_spec (Z.abs_N n)) as (Hd & Hv & _).
  assert (∀ s, forallb is_digit s = true → (digits_value s < 10 ^ N.of_nat (length s))%N) as Hlen.
  { intros s. induction s as [|c s IH] using rev_ind; [done|].
    rewrite forallb_app, digits_value_app, length_app. intros [H1 H2]%andb_true_iff. specialize (IH H1).
    cbn [forallb] in H2. unfold is_digit in H2. rewrite !andb_true_iff, !N.leb_le in H2.
    cbn [length]. replace (length s + 1)%nat with (S (length s)) by lia.
    rewrite Nat2N.inj_succ, N.pow_succ_r'. lia. }
  specialize (Hlen _ Hd). rewrite Hv in Hlen.
  destruct (dec_N (Z.abs_N n)) as [|a [|b [|c [|d [|e r]]]]] eqn:E;
    cbn [length] in Hlen; try (exfalso; cbn in Hlen; lia).
  exists a, b, c, d, e, r. split; [done|].
  cbn [forallb] in Hd. rewrite !andb_true_iff in Hd. tauto.
Qed.

Lemma instant_valid (y m d h mi s : Z) :
  valid_date y m d = true → h < 24 → mi < 60 → s < 60 →
  instant y m d h mi s = Some (days_from_civil y m d * 86400 + h * 3600 + mi * 60 + s).
Proof.
  intros Hv Hh Hm Hs. unfold instant. unfold valid_date in Hv. rewrite Hv.
  by rewrite (proj2 (Z.ltb_lt h 24)), (proj2 (Z.ltb_lt mi 60)), (proj2 (Z.ltb_lt s 60)).
Qed.

(** The text of six fields, their digits at hand. *)
Section layout.
Context (y1 y2 y3 y4 m1 m2 d1 d2 h1 h2 i1 i2 s1 s2 : char) (year month day hour minute second : Z).
Definition layout (tail : str) : str :=
  [y1; y2; y3; y4] ++ "-" ++ [m1; m2] ++ "-" ++ [d1; d2] ++ "T" ++
  [h1; h2] ++ ":" ++ [i1; i2] ++ ":" ++ [s1; s2] ++ tail.
Context (Hy : forallb is_digit [y1; y2; y3; y4] = true) (Ey : parse_i64 [y1; y2; y3; y4] = Some year)
        (Hm : forallb is_digit [m1; m2] = true) (Em : parse_i64 [m1; m2] = Some month)
        (Hd : forallb is_digit [d1; d2] = true) (Ed : parse_i64 [d1; d2] = Some day)
        (Hh : forallb is_digit [h1; h2] = true) (Eh : parse_i64 [h1; h2] = Some hour)
        (Hi : forallb is_digit [i1; i2] = true) (Ei : parse_i64 [i1; i2] = Some minute)
        (Hs : forallb is_digit [s1; s2] = true) (Es : parse_i64 [s1; s2] = Some second).

Lemma parse_layout : parse_iso_utc (layout "Z") = instant year month day hour minute second.
Proof.
  assert (is_ascii (layout "Z") = true) as Ha.
  { unfold layout, is_ascii. rewrite !forallb_app.
    pose proof digits_ascii as Hda. unfold is_ascii in Hda. by rewrite (Hda _ Hy), (Hda _ Hm), (Hda _ Hd), (Hda _ Hh), (Hda _ Hi), (Hda _ Hs). }
  unfold parse_iso_utc. rewrite Ha.
  change (length (layout "Z") <? 20)%nat with false. change (ends_with (layout "Z") "Z") with true.
  change (separators_ok (layout "Z")) with true. change (fraction_ok (layout "Z")) with true. cbn [negb orb].
  rewrite (number_slice _ _ _ _ _ (eq_refl : slice (layout "Z") 0 4 = _) Hy Ey).
  rewrite (number_slice _ _ _ _ _ (eq_refl : slice (layout "Z") 5 7 = _) Hm Em).
  rewrite (number_slice _ _ _ _ _ (eq_refl : slice (layout "Z") 8 10 = _) Hd Ed).
  rewrite (number_slice _ _ _ _ _ (eq_refl : slice (layout "Z") 11 13 = _) Hh Eh).
  rewrite (number_slice _ _ _ _ _ (eq_refl : slice (layout "Z") 14 16 = _) Hi Ei).
  by rewrite (number_slice _ _ _ _ _ (eq_refl : slice (layout "Z") 17 19 = _) Hs Es).
Qed.
End layout.

Ltac digits_of H := let a := fresh "a" in let b := fresh "b" in
  let E := fresh "E" in let D := fresh "D" in let P := fresh "P" in
  destruct H as (a & b & E & D & P); rewrite E.

(** The text of an instant reads back as that instant exactly while its year
    has four digits; from the year 10000 on the host refuses its own text. *)
Theorem iso_utc_read_back (secs : Z) :
  0 <= secs →
  parse_iso_utc (iso_utc secs) = if secs <? year_10000 * 86400 then Some secs else None.
Proof.
  intros Hs. unfold iso_utc. destruct (civil_from_days (secs / 86400)) as [[y m] d] eqn:E.
  assert (0 <= secs / 86400) as H0 by lia.
  destruct (civil_from_days_spec _ _ _ _ H0 E) as [Hv Hday].
  destruct (civil_from_days_year _ _ _ _ H0 E) as [Hy1 Hy2].
  set (h := _ / 3600). set (mi := _ / 60). set (s := _ mod 60).
  assert (0 <= h < 24 ∧ 0 <= mi < 60 ∧ 0 <= s < 60 ∧ secs = secs / 86400 * 86400 + h * 3600 + mi * 60 + s)
    as (Hh & Hm & Hsec & Esecs) by (unfold h, mi, s; lia).
  clearbody h mi s. destruct (Z.ltb_spec secs (year_10000 * 86400)).
  - assert (valid_date y m d = true) as Hv' by done. unfold valid_date in Hv'.
    rewrite !andb_true_iff, !Z.leb_le in Hv'.
    assert (d < 100) as Hd100 by (unfold days_in_month in Hv'; repeat case_match; lia).
    destruct (padded_four y ltac:(lia)) as (y1 & y2 & y3 & y4 & Ey & Dy & Py). rewrite Ey.
    digits_of (padded_two m ltac:(lia)). digits_of (padded_two d ltac:(lia)).
    digits_of (padded_two h ltac:(lia)). digits_of (padded_two mi ltac:(lia)).
    digits_of (padded_two s ltac:(lia)).
    etrans; [by apply parse_layout|]. rewrite instant_valid by (done || lia).
    rewrite Hday. f_equal. lia.
  - destruct (padded_four_long y ltac:(lia)) as (a & b & c & e & f & r & Ey & Df). rewrite Ey.
    unfold parse_iso_utc. case_match; [done|].
    unfold separators_ok, byte_at. cbn [app nth].
    assert ((f =? 45)%N = false) as ->; [|done].
    unfold is_digit in Df. apply andb_true_iff in Df as [Df%N.leb_le _]. apply N.eqb_neq. lia.
Qed.

(** ** Texts the host accepts *)

Lemma number_digits (s : str) (i j : nat) (n : Z) :
  number s i j = Some n → forallb is_digit (slice s i j) = true ∧ parse_i64 (slice s i j) = Some n.
Proof. unfold number. case_match; [done|discriminate]. Qed.

Lemma byte_at_some (s : str) (i : nat) (c : char) : byte_at s i c = true → nth i s 0%N = c.
Proof. apply N.eqb_eq. Qed.

(** Every text the host accepts is, its fraction of a second dropped, the
    text the host writes of the instant it read. *)
Theorem accepted_is_written (s : str) (secs : Z) :
  parse_iso_utc s = Some secs → 0 <= secs → iso_utc secs = take 19 s ++ "Z".
Proof.
  unfold parse_iso_utc. intros H H0. case_match eqn:E1; [done|]. case_match eqn:E2; [done|].
  apply orb_false_iff in E1 as [[Hlen%Nat.ltb_ge _]%orb_false_iff _], E2 as [Hsep%negb_false_iff _].
  do 19 (destruct s as [|? s]; [cbn in Hlen; lia|]).
  unfold separators_ok in Hsep. rewrite !andb_true_iff in Hsep. destruct Hsep as [[[[H4 H7] H10] H13] H16].
  apply byte_at_some in H4, H7, H10, H13, H16. cbn [nth] in H4, H7, H10, H13, H16. subst.
  destruct (number _ 0 4) as [year|] eqn:Ey; [|done]. destruct (number _ 5 7) as [month|] eqn:Em; [|done].
  destruct (number _ 8 10) as [day|] eqn:Ed; [|done]. destruct (number _ 11 13) as [hour|] eqn:Eh; [|done].
  destruct (number _ 14 16) as [minute|] eqn:Ei; [|done]. destruct (number _ 17 19) as [second|] eqn:Es; [|done].
  apply number_digits in Ey as [Dy Py], Em as [Dm Pm], Ed as [Dd Pd], Eh as [Dh Ph], Ei as [Di Pi], Es as [Ds Ps].
  cbn [slice take drop Nat.sub] in *. unfold slice in *. cbn [take drop Nat.sub] in *.
  destruct (back_four _ _ _ _ _ Dy Py) as [Hy By], (back_two _ _ _ Dm Pm) as [Hm Bm],
    (back_two _ _ _ Dd Pd) as [Hd Bd], (back_two _ _ _ Dh Ph) as [Hh Bh],
    (back_two _ _ _ Di Pi) as [Hi Bi], (back_two _ _ _ Ds Ps) as [Hs Bs].
  cbn [mbind option_bind] in H. unfold instant in H. case_match eqn:Ev; [|done]. simplify_eq.
  rewrite !andb_true_iff, !Z.ltb_lt in Ev. destruct Ev as [[[Ev Hh24] Hm60] Hs60].
  assert (valid_date year month day = true) as Hv by (unfold valid_date; by rewrite !andb_true_iff).
  assert (1970 <= year) as Hyear.
  { destruct (decide (1970 <= year)); [done|]. pose proof (days_from_civil_before year month day ltac:(lia) Hv). lia. }
  destruct (days_from_civil_spec _ _ _ Hyear Hv) as [Hz Ez].
  unfold iso_utc. set (days := days_from_civil year month day) in *. clearbody days.
  set (secs := days * 86400 + hour * 3600 + minute * 60 + second).
  assert (secs / 86400 = days ∧ secs mod 86400 = hour * 3600 + minute * 60 + second) as [-> ->] by (unfold secs; lia).
  rewrite Ez.
  replace ((hour * 3600 + minute * 60 + second) / 3600) with hour by lia.
  replace ((hour * 3600 + minute * 60 + second) mod 3600 / 60) with minute by lia.
  replace ((hour * 3600 + minute * 60 + second) mod 60) with second by lia.
  by rewrite By, Bm, Bd, Bh, Bi, Bs.
Qed.

Lemma iso_utc_read_back_witness :
  parse_iso_utc (iso_utc 1792000000) = Some 1792000000 ∧ parse_iso_utc (iso_utc (year_10000 * 86400)) = None.
Proof.
  split; [exact (iso_utc_read_back 1792000000 ltac:(lia))|].
  exact (iso_utc_read_back (year_10000 * 86400) ltac:(unfold year_10000; lia)).
Defined.
Lemma accepted_is_written_witness : iso_utc 951782400 = take 19 "2000-02-29T00:00:00.250Z" ++ "Z".
Proof. apply (accepted_is_written "2000-02-29T00:00:00.250Z"); [reflexivity|lia]. Defined.
