(* ===== verification/IpText.v ===== *)
(** Internet addresses as Rust's standard library has them: [IpAddr], its
    canonical form, its text ([Display]) and the reading of that text
    ([core::net::parser]), and the host's networks, [IpNet] of
    [src/rust/host/src/rate_limit.rs]; and that texts and addresses are each other's. *)
From S2P Require Export RustText Float64.
Open Scope N_scope.

(** An address is its 32 or its 128 bits. *)
Inductive IpAddr := V4 (bits : N) | V6 (bits : N).
#[global] Instance IpAddr_eq_dec : EqDecision IpAddr.
Proof. solve_decision. Defined.

Definition is_ipv4 (ip : IpAddr) : bool := match ip with V4 _ => true | V6 _ => false end.

(** The eight 16-bit groups of an IPv6 address, and the four octets of an IPv4. *)
Definition segments (bits : N) : list N :=
  map (λ i, N.land (N.shiftr bits (16 * i)) 65535) [7; 6; 5; 4; 3; 2; 1; 0].
Definition octets (bits : N) : list N := map (λ i, N.land (N.shiftr bits (8 * i)) 255) [3; 2; 1; 0].
Definition of_groups (width : N) (groups : list N) : N :=
  fold_left (λ n g, N.lor (N.shiftl n width) g) groups 0.

(** [Ipv6Addr::to_ipv4_mapped]: [::ffff:a.b.c.d]. *)
Definition to_ipv4_mapped (bits : N) : option N :=
  if N.shiftr bits 32 =? 65535 then Some (N.land bits (2 ^ 32 - 1)) else None.
Definition to_canonical (ip : IpAddr) : IpAddr :=
  match ip with
  | V4 _ => ip
  | V6 bits => match to_ipv4_mapped bits with Some v4 => V4 v4 | None => ip end
  end.

(** ** Display *)

Definition show_ipv4 (bits : N) : str := join "." (map dec_N (octets bits)).

(** The longest run of zero groups, the first of equals: where it starts and its
    length. *)
Fixpoint zero_run (i : nat) (current longest : nat * nat) (groups : list N) : nat * nat :=
  match groups with
  | [] => longest
  | 0 :: rest =>
    let start := match current.2 with O => i | _ => current.1 end in
    let current' := (start, S current.2) in
    zero_run (S i) current' (if (longest.2 <? S current.2)%nat then current' else longest) rest
  | _ :: rest => zero_run (S i) (0, 0)%nat longest rest
  end.
Definition show_groups (groups : list N) : str := join ":" (map (hex false) groups).
Definition show_ipv6 (bits : N) : str :=
  match to_ipv4_mapped bits with
  | Some v4 => "::ffff:" ++ show_ipv4 v4
  | None =>
    let groups := segments bits in
    let (start, len) := zero_run 0 (0, 0)%nat (0, 0)%nat groups in
    if (1 <? len)%nat then show_groups (take start groups) ++ "::" ++ show_groups (drop (start + len) groups)
    else show_groups groups
  end.
Definition show_ip (ip : IpAddr) : str := match ip with V4 bits => show_ipv4 bits | V6 bits => show_ipv6 bits end.

(** ** [core::net::parser] *)

(** [char::to_digit]. *)
Definition to_digit (radix : N) (c : char) : option N :=
  let d := if is_digit c then Some (c - 48)
           else if is_lower c then Some (c - 87)
           else if is_upper c then Some (c - 55) else None in
  d ≫= λ d, if d <? radix then Some d else None.
Definition has_digit (radix : N) (c : char) : bool := match to_digit radix c with Some _ => true | None => false end.

(** [read_number], of a type whose largest value is [bound]. *)
Definition read_number (radix : N) (max_digits : nat) (allow_zero_prefix : bool) (bound : N) (s : str) :
    option (N * str) :=
  let (digits, rest) := span (has_digit radix) s in
  let value := fold_left (λ n c, n * radix + default 0 (to_digit radix c)) digits 0 in
  if (max_digits <? length digits)%nat || (length digits =? 0)%nat then None
  else if negb allow_zero_prefix && starts_with s "0" && (1 <? length digits)%nat then None
  else if value <=? bound then Some (value, rest) else None.

(** [read_given_char]; [read_separator]. *)
Definition read_given_char (c : char) (s : str) : option str :=
  match s with c' :: rest => if c' =? c then Some rest else None | [] => None end.
Definition read_separator {A} (sep : char) (index : nat) (inner : str → option (A * str)) (s : str) :
    option (A * str) :=
  match index with O => inner s | _ => read_given_char sep s ≫= inner end.

Definition read_ipv4_part (index : nat) : str → option (N * str) :=
  read_separator 46 index (read_number 10 3 false 255).
Definition read_ipv4 (s : str) : option (N * str) :=
  '(a, s) ← read_ipv4_part 0 s; '(b, s) ← read_ipv4_part 1 s;
  '(c, s) ← read_ipv4_part 2 s; '(d, s) ← read_ipv4_part 3 s;
  Some (of_groups 8 [a; b; c; d], s).

(** [read_groups], from group [i] of the [left] that may follow: the groups read,
    whether an IPv4 address ended them, and what is left of the text. *)
Fixpoint read_groups (left i : nat) (s : str) : list N * bool * str :=
  match left with
  | O => ([], false, s)
  | S left' =>
    let embedded := if (0 <? left')%nat then read_separator 58 i read_ipv4 s else None in
    match embedded with
    | Some (v4, rest) => ([N.shiftr v4 16; N.land v4 65535], true, rest)
    | None =>
      match read_separator 58 i (read_number 16 4 true 65535) s with
      | Some (g, rest) => let '(gs, v4, rest) := read_groups left' (S i) rest in (g :: gs, v4, rest)
      | None => ([], false, s)
      end
    end
  end.
Definition read_ipv6 (s : str) : option (N * str) :=
  let '(head, head_ipv4, s1) := read_groups 8 0 s in
  if (length head =? 8)%nat then Some (of_groups 16 head, s1)
  else if head_ipv4 then None
  else
    s2 ← read_given_char 58 s1; s3 ← read_given_char 58 s2;
    let '(tail, _, s4) := read_groups (8 - (length head + 1)) 0 s3 in
    Some (of_groups 16 (head ++ replicate (8 - length head - length tail) 0 ++ tail), s4).

(** [str::parse::<IpAddr>]: all of the text, as IPv4 first. *)
Definition parse_ip (s : str) : option IpAddr :=
  match read_ipv4 s with
  | Some (bits, rest) => match rest with [] => Some (V4 bits) | _ => None end
  | None => match read_ipv6 s with Some (bits, []) => Some (V6 bits) | _ => None end
  end.

Example ip_examples :
  map parse_ip ["203.0.113.7" : str; "::1" : str; "2001:db8::8:800:200c:417a" : str;
                "::ffff:10.0.0.1" : str; "1.2.3.04" : str; "1:2:3:4:5:6:7:8:9" : str; "1:2:3:4:5:6:7::" : str] =
  [Some (V4 3405803783); Some (V6 1); Some (V6 42540766411282592856906245548098208122);
   Some (V6 281470849515521); None; None; Some (V6 5192455318486707404433266433261568)] ∧
  show_ipv6 42540766411282592856906245548098208122 = "2001:db8::8:800:200c:417a".
Proof. vm_compute. done. Qed.

(** ** Networks *)

(** [IpNet]: an address as it was written, and how many of its bits count. *)
Record IpNet := { net_addr : IpAddr; prefix : N }.

(** [str::parse::<u8>]: an optional plus, then digits; [IpNet::parse]. *)
Definition parse_u8 (s : str) : option N :=
  n ← parse_digits (default s (strip_prefix s "+")); if n <=? 255 then Some n else None.
Definition trim (s : str) : str := trim_both is_whitespace s.
Definition parse_net (text : str) : option IpNet :=
  let text := trim text in
  let (addr_text, prefix_text) :=
    match split_once text 47 with Some (a, p) => (a, Some p) | None => (text, None) end in
  addr ← parse_ip (trim addr_text);
  let width := if is_ipv4 addr then 32 else 128 in
  match prefix_text with
  | Some p => n ← parse_u8 (trim p); if n <=? width then Some {| net_addr := addr; prefix := n |} else None
  | None => Some {| net_addr := addr; prefix := width |}
  end.

(** [MAX << (width - prefix)] of a [width]-bit number, or zero for no bits. *)
Definition net_mask (width prefix : N) : N :=
  if prefix =? 0 then 0
  else N.land (N.shiftl (2 ^ width - 1) (width - prefix)) (2 ^ width - 1).

(** [contains]. *)
Definition net_contains (net : IpNet) (ip : IpAddr) : bool :=
  match net_addr net, to_canonical ip with
  | V4 n, V4 a => N.land n (net_mask 32 (prefix net)) =? N.land a (net_mask 32 (prefix net))
  | V6 n, V6 a => N.land n (net_mask 128 (prefix net)) =? N.land a (net_mask 128 (prefix net))
  | _, _ => false
  end.

(** ** Facts *)

(** What the host relies on of addresses: an address's text reads back as the
    address, so two clients share a bucket only when they share an address or a
    /64; a network holds exactly the addresses that share its prefix; and what a
    client itself puts into a forwarded header changes nothing. *)
Open Scope N_scope.

(** ** Numbers *)

Definition in_range (ip : IpAddr) : bool :=
  match ip with V4 bits => bits <? 2 ^ 32 | V6 bits => bits <? 2 ^ 128 end.

Definition stops (radix : N) (rest : str) : bool :=
  match rest with c :: _ => negb (has_digit radix c) | [] => true end.

Lemma span_stops (p : char → bool) (a rest : str) :
  forallb p a = true → match rest with c :: _ => p c = false | [] => True end → span p (a ++ rest) = (a, rest).
Proof.
  intros Ha Hr. induction a as [|c a IH]; cbn [app span].
  - destruct rest as [|c rest]; [done|]. cbn. by rewrite Hr.
  - cbn in Ha. apply andb_true_iff in Ha as [-> Ha]. by rewrite IH.
Qed.

(** The texts of all the numbers a group may have, checked one by one. *)
Definition number_value (radix : N) (s : str) : N :=
  fold_left (λ n c, n * radix + default 0 (to_digit radix c)) s 0.
Definition dec_ok (n : N) : bool :=
  let s := dec_N n in
  forallb (has_digit 10) s && (1 <=? length s)%nat && (length s <=? 3)%nat &&
  (negb (starts_with s "0") || (length s =? 1)%nat) && (number_value 10 s =? n).
Definition hex_ok (n : N) : bool :=
  let s := hex false n in
  forallb (has_digit 16) s && (1 <=? length s)%nat && (length s <=? 4)%nat && (number_value 16 s =? n).

Fixpoint all_below (n : nat) (k : N) (p : N → bool) : bool :=
  match n with O => true | S n => if p k then all_below n (k + 1) p else false end.
Lemma all_below_spec (n : nat) (k : N) (p : N → bool) :
  all_below n k p = true → ∀ x, k <= x → x < k + N.of_nat n → p x = true.
Proof.
  revert k; induction n as [|n IH]; intros k H x H1 H2; [lia|]. cbn in H. destruct (p k) eqn:E; [|done].
  destruct (decide (x = k)) as [->|]; [done|]. apply (IH (k + 1)); [done|lia..].
Qed.

Lemma dec_ok_all (n : N) : n <= 255 → dec_ok n = true.
Proof.
  intros Hn. apply (all_below_spec (N.to_nat 256) 0); [vm_compute; reflexivity|lia|lia].
Qed.
Lemma hex_ok_all (n : N) : n <= 65535 → hex_ok n = true.
Proof.
  intros Hn. apply (all_below_spec (N.to_nat 65536) 0); [vm_compute; reflexivity|lia|lia].
Qed.

Lemma starts_with_zero (s rest : str) : s ≠ [] → starts_with (s ++ rest) "0" = starts_with s "0".
Proof. destruct s as [|c s]; [done|]. intros _. cbn. destruct s, rest; done. Qed.

Lemma stops_span (radix : N) (rest : str) :
  stops radix rest = true → match rest with c :: _ => has_digit radix c = false | [] => True end.
Proof. destruct rest; [done|]. cbn. by intros ->%negb_true_iff. Qed.

Lemma read_number_dec (n : N) (rest : str) :
  n <= 255 → stops 10 rest = true → read_number 10 3 false 255 (dec_N n ++ rest) = Some (n, rest).
Proof.
  intros Hn Hr. pose proof (dec_ok_all n Hn) as H. unfold dec_ok in H.
  rewrite !andb_true_iff, !Nat.leb_le, N.eqb_eq in H. destruct H as [[[[Hd H1] H3] Hz] Hv].
  unfold read_number. rewrite span_stops by (try apply stops_span; done).
  unfold number_value in Hv. rewrite Hv.
  rewrite (proj2 (Nat.ltb_ge _ _)), (proj2 (Nat.eqb_neq _ _)), (proj2 (N.leb_le _ _)) by lia. cbn [orb negb andb].
  rewrite starts_with_zero by (by intros E; rewrite E in H1; cbn in H1; lia).
  apply orb_true_iff in Hz as [->%negb_true_iff|Hz%Nat.eqb_eq]; [done|]. rewrite Hz. cbn [Nat.ltb Nat.leb].
  by rewrite andb_false_r.
Qed.

Lemma read_number_hex (n : N) (rest : str) :
  n <= 65535 → stops 16 rest = true → read_number 16 4 true 65535 (hex false n ++ rest) = Some (n, rest).
Proof.
  intros Hn Hr. pose proof (hex_ok_all n Hn) as H. unfold hex_ok in H.
  rewrite !andb_true_iff, !Nat.leb_le, N.eqb_eq in H. destruct H as [[[Hd H1] H3] Hv].
  unfold read_number. rewrite span_stops by (try apply stops_span; done).
  unfold number_value in Hv. rewrite Hv.
  by rewrite (proj2 (Nat.ltb_ge _ _)), (proj2 (Nat.eqb_neq _ _)), (proj2 (N.leb_le _ _)) by lia.
Qed.

(** ** Groups of bits *)

Lemma split_low (x w : N) : N.lor (N.shiftl (N.shiftr x w) w) (N.land x (N.ones w)) = x.
Proof.
  apply N.bits_inj. intros i. rewrite N.lor_spec, N.land_spec.
  destruct (N.lt_ge_cases i w) as [H|H].
  - by rewrite N.shiftl_spec_low, N.ones_spec_low, andb_true_r by done.
  - rewrite N.shiftl_spec_high', N.ones_spec_high, N.shiftr_spec', andb_false_r, orb_false_r by done.
    f_equal. lia.
Qed.

Lemma of_groups_step (w : N) (x : N) (gs : list N) :
  fold_left (λ n g, N.lor (N.shiftl n w) g) (N.land x (N.ones w) :: gs) (N.shiftr x w) =
  fold_left (λ n g, N.lor (N.shiftl n w) g) gs x.
Proof. cbn [fold_left]. by rewrite split_low. Qed.

(** Groups of [w] bits, from the [k]-th down, are the bits below [w * k]. *)
Fixpoint groups_below (w : N) (k : nat) (bits : N) : list N :=
  match k with
  | O => []
  | S k => N.land (N.shiftr bits (w * N.of_nat k)) (N.ones w) :: groups_below w k bits
  end.

Lemma of_groups_below (w : N) (k : nat) (bits : N) :
  fold_left (λ n g, N.lor (N.shiftl n w) g) (groups_below w k bits) (N.shiftr bits (w * N.of_nat k)) = bits.
Proof.
  induction k as [|k IH]; [by rewrite N.mul_0_r, N.shiftr_0_r|]. cbn [groups_below].
  replace (N.shiftr bits (w * N.of_nat (S k))) with (N.shiftr (N.shiftr bits (w * N.of_nat k)) w).
  - by rewrite of_groups_step, IH.
  - rewrite N.shiftr_shiftr. f_equal. lia.
Qed.

Lemma of_groups_octets (bits : N) : bits < 2 ^ 32 → of_groups 8 (octets bits) = bits.
Proof.
  intros H. pose proof (of_groups_below 8 4 bits) as E.
  rewrite N.shiftr_div_pow2, N.div_small in E by exact H. exact E.
Qed.
Lemma of_groups_segments (bits : N) : bits < 2 ^ 128 → of_groups 16 (segments bits) = bits.
Proof.
  intros H. pose proof (of_groups_below 16 8 bits) as E.
  rewrite N.shiftr_div_pow2, N.div_small in E by exact H. exact E.
Qed.

Lemma groups_bounded (w bound : N) (k : nat) (bits : N) :
  bound = N.ones w → Forall (λ g, g <= bound) (groups_below w k bits).
Proof.
  intros ->. induction k as [|k IH]; constructor; [|done].
  rewrite N.land_ones. pose proof (N.mod_lt (N.shiftr bits (w * N.of_nat k)) (2 ^ w) ltac:(apply N.pow_nonzero; lia)).
  rewrite N.ones_equiv. lia.
Qed.
Lemma octets_bounded (bits : N) : Forall (λ g, g <= 255) (octets bits).
Proof. exact (groups_bounded 8 255 4 bits eq_refl). Qed.
Lemma segments_bounded (bits : N) : Forall (λ g, g <= 65535) (segments bits).
Proof. exact (groups_bounded 16 65535 8 bits eq_refl). Qed.

(** ** IPv4 *)

Lemma read_ipv4_show (bits : N) (rest : str) :
  bits < 2 ^ 32 → stops 10 rest = true → read_ipv4 (show_ipv4 bits ++ rest) = Some (bits, rest).
Proof.
  intros Hb Hr. pose proof (of_groups_octets bits Hb) as E. pose proof (octets_bounded bits) as B.
  unfold show_ipv4. destruct (octets bits) as [|a [|b [|c [|d [|]]]]] eqn:Eo; try discriminate Eo.
  apply list.Forall_cons in B as [Ba B]. apply list.Forall_cons in B as [Bb B].
  apply list.Forall_cons in B as [Bc B]. apply list.Forall_cons in B as [Bd _].
  unfold read_ipv4, read_ipv4_part, read_separator. cbn [map join]. change ("." : str) with [46].
  rewrite <- !app_assoc. cbn [app].
  do 3 (rewrite read_number_dec by done; cbn [mbind option_bind read_given_char]; rewrite N.eqb_refl;
        cbn [mbind option_bind]).
  rewrite read_number_dec by done. cbn [mbind option_bind]. by rewrite E.
Qed.

(** An IPv4 address needs its dots. *)
Lemma read_number_rest (radix : N) (m : nat) (z : bool) (bound : N) (s rest : str) (n : N) :
  read_number radix m z bound s = Some (n, rest) → ∃ a, s = a ++ rest.
Proof.
  unfold read_number. assert (∀ p, let (a, b) := span p s in s = a ++ b) as Hs.
  { intros p. induction s as [|c s IH]; cbn [span]; [done|]. destruct (p c); [|done].
    destruct (span p s). cbn. by rewrite IH at 1. }
  specialize (Hs (has_digit radix)). destruct (span (has_digit radix) s) as [a b].
  repeat case_match; try done. intros [= _ <-]. by exists a.
Qed.

Lemma read_ipv4_needs_dot (s : str) : 46 ∉ s → read_ipv4 s = None.
Proof.
  intros Hdot. unfold read_ipv4, read_ipv4_part. cbn [read_separator].
  destruct (read_number 10 3 false 255 s) as [[a rest]|] eqn:E; [|done]. cbn [mbind option_bind].
  apply read_number_rest in E as [pre ->]. destruct rest as [|c rest]; [done|]. cbn [read_given_char].
  destruct (N.eqb_spec c 46) as [->|]; [|done]. exfalso. apply Hdot, elem_of_app. right. left.
Qed.

(** ** IPv6 *)

(** No group is read where no digit follows. *)
Lemma read_number_stops (radix : N) (m : nat) (z : bool) (bound : N) (s : str) :
  stops radix s = true → read_number radix m z bound s = None.
Proof.
  intros H. unfold read_number. rewrite (span_stops _ [] s eq_refl) by by apply stops_span.
  by destruct m.
Qed.
Lemma read_ipv4_stops (s : str) : stops 10 s = true → read_ipv4 s = None.
Proof. intros H. unfold read_ipv4, read_ipv4_part. cbn [read_separator]. by rewrite read_number_stops. Qed.

(** Where groups end: at the end of the text, or at [::]. *)
Definition groups_end (rest : str) : Prop := rest = [] ∨ ∃ r, rest = 58 :: 58 :: r.

Lemma read_groups_end (left i : nat) (rest : str) : groups_end rest → read_groups left i rest = ([], false, rest).
Proof.
  intros Hend. destruct left as [|left]; [done|]. cbn [read_groups].
  assert (read_separator 58 i read_ipv4 rest = None ∧
          read_separator 58 i (read_number 16 4 true 65535) rest = None) as [-> ->].
  { destruct i as [|i]; cbn [read_separator]; destruct Hend as [->|[r ->]]; cbn [read_given_char mbind option_bind];
      rewrite ?N.eqb_refl; cbn [mbind option_bind]; try done;
      by rewrite read_ipv4_stops, read_number_stops. }
  by destruct (0 <? left)%nat.
Qed.

(** The text of groups from the [i]-th on. *)
Fixpoint groups_text (i : nat) (groups : list N) : str :=
  match groups with
  | [] => []
  | g :: rest => match i with O => [] | _ => [58] end ++ hex false g ++ groups_text (S i) rest
  end.
Lemma groups_text_join (groups : list N) : show_groups groups = groups_text 0 groups.
Proof.
  unfold show_groups. destruct groups as [|g gs]; [done|]. cbn [map groups_text app].
  assert (∀ g i, join ":" (hex false g :: map (hex false) gs) = hex false g ++ groups_text (S i) gs) as H; [|apply H].
  induction gs as [|g' gs IH]; intros h i; cbn [map groups_text].
  - cbn. by rewrite app_nil_r.
  - rewrite join_cons by done. cbn [map] in IH. rewrite (IH g' (S i)). change (":" : str) with [58]. done.
Qed.

Lemma hex_dotless (n : N) : n <= 65535 → 46 ∉ hex false n.
Proof.
  intros Hn. pose proof (hex_ok_all n Hn) as H. unfold hex_ok in H. rewrite !andb_true_iff in H.
  destruct H as [[[Hd _] _] _]. rewrite forallb_forall in Hd. intros Hin%list_elem_of_In. by apply Hd in Hin.
Qed.
Lemma groups_text_dotless (i : nat) (groups : list N) :
  Forall (λ g, g <= 65535) groups → 46 ∉ groups_text i groups.
Proof.
  intros H. revert i; induction H as [|g gs Hg H IH]; intros i; cbn [groups_text]; [apply not_elem_of_nil|].
  rewrite !not_elem_of_app. split_and!; [|by apply hex_dotless|apply IH].
  destruct i; [apply not_elem_of_nil|]. apply not_elem_of_cons. split; [done|apply not_elem_of_nil].
Qed.

Lemma groups_text_stops (i : nat) (groups : list N) (rest : str) :
  groups_end rest → stops 16 (groups_text (S i) groups ++ rest) = true.
Proof. destruct groups as [|g gs]; [|done]. by intros [->|[r ->]]. Qed.

Lemma read_groups_text (groups : list N) (left i : nat) (rest : str) :
  Forall (λ g, g <= 65535) groups → (length groups <= left)%nat → groups_end rest → 46 ∉ rest →
  read_groups left i (groups_text i groups ++ rest) = (groups, false, rest).
Proof.
  intros HF. revert left i; induction HF as [|g gs Hg HF IH]; intros left i Hlen Hend Hdot.
  { cbn [groups_text app]. by apply read_groups_end. }
  destruct left as [|left]; [cbn in Hlen; lia|]. cbn [read_groups].
  assert (∀ A (inner : str → option (A * str)),
    read_separator 58 i inner (groups_text i (g :: gs) ++ rest) =
    inner (hex false g ++ groups_text (S i) gs ++ rest)) as Hsep.
  { intros A inner. cbn [groups_text]. rewrite <- !app_assoc. by destruct i. }
  rewrite !Hsep.
  assert (read_ipv4 (hex false g ++ groups_text (S i) gs ++ rest) = None) as ->.
  { apply read_ipv4_needs_dot. rewrite !not_elem_of_app. split_and!; [by apply hex_dotless|by apply groups_text_dotless|done]. }
  rewrite read_number_hex by (done || by apply groups_text_stops).
  rewrite IH by (done || cbn in Hlen; lia). by destruct (0 <? left)%nat.
Qed.

(** The run of zeros that is left out is one of zeros. *)
Definition zeros_at (groups : list N) (run : nat * nat) : Prop :=
  ∀ j, (run.1 <= j < run.1 + run.2)%nat → groups !! j = Some 0.

Lemma zero_run_zeros (done_ groups : list N) (current longest : nat * nat) :
  zeros_at (done_ ++ groups) current → (current.2 = O ∨ (current.1 + current.2 = length done_)%nat) →
  zeros_at (done_ ++ groups) longest →
  zeros_at (done_ ++ groups) (zero_run (length done_) current longest groups).
Proof.
  revert done_ current longest; induction groups as [|g gs IH]; intros ds cur longest Hc Hi Hl; [done|].
  assert (ds ++ g :: gs = (ds ++ [g]) ++ gs) as Eapp by (by rewrite <- app_assoc).
  assert (S (length ds) = length (ds ++ [g])) as Elen by (rewrite length_app; cbn; lia).
  cbn [zero_run]. rewrite Elen. rewrite Eapp in *. destruct g as [|p].
  - set (start := match cur.2 with O => length ds | _ => cur.1 end).
    assert (start + cur.2 = length ds)%nat as Estart by (unfold start; destruct cur.2; lia).
    assert (zeros_at ((ds ++ [0]) ++ gs) (start, S cur.2)) as Hnew.
    { intros j Hj. cbn in Hj. destruct (decide (j = length ds)) as [->|].
      - rewrite <- app_assoc, lookup_app_r, Nat.sub_diag by lia. done.
      - apply Hc. unfold start in *. destruct cur.2; lia. }
    apply IH; [done| |by destruct (longest.2 <? S cur.2)%nat]. right. cbn. lia.
  - apply IH; [|by left|done]. intros j Hj. cbn in Hj. lia.
Qed.

Lemma zeros_between (groups : list N) (start len : nat) :
  zeros_at groups (start, len) → (start + len <= length groups)%nat →
  take start groups ++ replicate len 0 ++ drop (start + len) groups = groups.
Proof.
  intros Hz Hlen. apply list_eq. intros j.
  destruct (decide (j < start)%nat) as [H1|H1].
  { rewrite lookup_app_l, lookup_take_lt by (rewrite ?length_take; lia). done. }
  rewrite lookup_app_r; rewrite length_take, Nat.min_l by lia; [|lia].
  destruct (decide (j < start + len)%nat) as [H2|H2].
  { rewrite lookup_app_l, lookup_replicate_2 by (rewrite ?length_replicate; lia). symmetry. apply Hz. cbn. lia. }
  rewrite lookup_app_r; rewrite length_replicate; [|lia]. rewrite lookup_drop. f_equal. lia.
Qed.

Lemma read_ipv6_plain (groups : list N) :
  Forall (λ g, g <= 65535) groups → length groups = 8%nat →
  read_ipv6 (show_groups groups) = Some (of_groups 16 groups, []).
Proof.
  intros HF Hlen. unfold read_ipv6. rewrite groups_text_join, <- (app_nil_r (groups_text 0 groups)).
  rewrite read_groups_text by (done || lia || by left || apply not_elem_of_nil). by rewrite Hlen.
Qed.

Lemma read_ipv6_compressed (head tail : list N) :
  Forall (λ g, g <= 65535) head → Forall (λ g, g <= 65535) tail → (length head + length tail + 1 < 8)%nat →
  read_ipv6 (show_groups head ++ "::" ++ show_groups tail) =
  Some (of_groups 16 (head ++ replicate (8 - length head - length tail) 0 ++ tail), []).
Proof.
  intros Hh Ht Hlen. unfold read_ipv6. rewrite !groups_text_join. change ("::" : str) with [58; 58].
  rewrite read_groups_text; [|done|lia|right; by eexists|].
  2: { cbn [app]. rewrite !not_elem_of_cons. split_and!; [done..|]. by apply groups_text_dotless. }
  rewrite (proj2 (Nat.eqb_neq _ _)) by lia. cbn [app read_given_char]. rewrite N.eqb_refl.
  cbn [mbind option_bind read_given_char]. rewrite N.eqb_refl. cbn [mbind option_bind].
  rewrite <- (app_nil_r (groups_text 0 tail)).
  by rewrite read_groups_text by (done || lia || by left || apply not_elem_of_nil).
Qed.

Lemma read_ipv6_mapped (v4 : N) :
  v4 < 2 ^ 32 → read_ipv6 ("::ffff:" ++ show_ipv4 v4) =
  Some (of_groups 16 (replicate 5 0 ++ [65535; N.shiftr v4 16; N.land v4 65535]), []).
Proof.
  intros Hv. unfold read_ipv6.
  assert (read_groups 8 0 ("::ffff:" ++ show_ipv4 v4) = ([], false, "::ffff:" ++ show_ipv4 v4)) as ->
    by (apply read_groups_end; right; by eexists).
  change ("::ffff:" : str) with ([58; 58] ++ hex false 65535 ++ [58]). cbn [length Nat.eqb].
  rewrite <- !app_assoc. cbn [app read_given_char]. rewrite N.eqb_refl. cbn [mbind option_bind read_given_char].
  rewrite N.eqb_refl. cbn [mbind option_bind length Nat.sub Nat.add]. set (rest := 58 :: show_ipv4 v4).
  assert (read_ipv4 (hex false 65535 ++ rest) = None) as Hno by (by apply read_ipv4_stops).
  cbn [read_groups read_separator]. rewrite Hno. cbn [Nat.ltb Nat.leb].
  rewrite read_number_hex by (done || lia). unfold rest. cbn [read_separator read_given_char]. rewrite N.eqb_refl.
  cbn [mbind option_bind Nat.ltb Nat.leb]. rewrite <- (app_nil_r (show_ipv4 v4)), read_ipv4_show by done. done.
Qed.

Lemma mapped_segments (bits : N) :
  N.shiftr bits 32 = 65535 →
  segments bits = replicate 5 0 ++
    [65535; N.shiftr (N.land bits (2 ^ 32 - 1)) 16; N.land (N.land bits (2 ^ 32 - 1)) 65535].
Proof.
  intros H. unfold segments. cbn [map].
  assert (∀ k, N.land (N.shiftr bits (32 + k)) 65535 = N.land (N.shiftr 65535 k) 65535) as Hhigh
    by (intros k; by rewrite <- N.shiftr_shiftr, H).
  change (16 * 7) with (32 + 80). change (16 * 6) with (32 + 64). change (16 * 5) with (32 + 48).
  change (16 * 4) with (32 + 32). change (16 * 3) with (32 + 16). change (16 * 2) with (32 + 0).
  rewrite (Hhigh 80), (Hhigh 64), (Hhigh 48), (Hhigh 32), (Hhigh 16), (Hhigh 0).
  rewrite N.shiftr_land, <- N.land_assoc. by rewrite N.shiftr_0_r.
Qed.

Lemma read_ipv6_show (bits : N) : bits < 2 ^ 128 → read_ipv6 (show_ipv6 bits) = Some (bits, []).
Proof.
  intros Hb. pose proof (of_groups_segments bits Hb) as E. pose proof (segments_bounded bits) as B.
  assert (length (segments bits) = 8%nat) as L by done.
  unfold show_ipv6. destruct (to_ipv4_mapped bits) as [v4|] eqn:Em.
  - unfold to_ipv4_mapped in Em. destruct (N.eqb_spec (N.shiftr bits 32) 65535) as [Hs|]; [|done].
    injection Em as <-. set (v4 := N.land bits (2 ^ 32 - 1)).
    assert (v4 < 2 ^ 32) as Hv.
    { unfold v4. change (2 ^ 32 - 1) with (N.ones 32). rewrite N.land_ones. apply N.mod_lt. lia. }
    rewrite read_ipv6_mapped by done. do 2 f_equal. rewrite <- E. f_equal. symmetry. by apply mapped_segments.
  - pose proof (zero_run_zeros [] (segments bits) (0, 0)%nat (0, 0)%nat) as Hz.
    cbn [app length] in Hz. specialize (Hz ltac:(intros j Hj; cbn in Hj; lia) ltac:(by left) ltac:(intros j Hj; cbn in Hj; lia)).
    destruct (zero_run 0 (0, 0)%nat (0, 0)%nat (segments bits)) as [start len].
    destruct (Nat.ltb_spec 1 len) as [Hlen|]; [|by rewrite read_ipv6_plain, E].
    assert (start + len <= 8)%nat as Hsum.
    { rewrite <- L. specialize (Hz (start + len - 1)%nat). cbn in Hz.
      assert (is_Some (segments bits !! (start + len - 1)%nat)) as Hsome%lookup_lt_is_Some by (eexists; apply Hz; lia).
      lia. }
    rewrite read_ipv6_compressed.
    + rewrite length_take, length_drop, L, Nat.min_l by lia.
      replace (8 - start - (8 - (start + len)))%nat with len by lia.
      by rewrite zeros_between, E by (done || lia).
    + by apply list.Forall_take.
    + by apply list.Forall_drop.
    + rewrite length_take, length_drop, L. lia.
Qed.

Lemma show_ipv6_not_v4 (bits : N) : read_ipv4 (show_ipv6 bits) = None.
Proof.
  unfold show_ipv6. pose proof (segments_bounded bits) as B.
  destruct (to_ipv4_mapped bits); [by apply read_ipv4_stops|].
  destruct (zero_run 0 (0, 0)%nat (0, 0)%nat (segments bits)) as [start len].
  apply read_ipv4_needs_dot.
  destruct (1 <? len)%nat; rewrite !groups_text_join, ?not_elem_of_app; [split_and!|by apply groups_text_dotless];
    try (apply groups_text_dotless; by (apply list.Forall_take || apply list.Forall_drop)).
  change ("::" : str) with [58; 58]. rewrite !not_elem_of_cons. split_and!; [done..|apply not_elem_of_nil].
Qed.

Lemma parse_show_ip (ip : IpAddr) : in_range ip = true → parse_ip (show_ip ip) = Some ip.
Proof.
  unfold parse_ip. destruct ip as [bits|bits]; cbn [in_range show_ip]; intros H%N.ltb_lt.
  - by rewrite <- (app_nil_r (show_ipv4 bits)), read_ipv4_show.
  - by rewrite show_ipv6_not_v4, read_ipv6_show.
Qed.

(** An address's text reads back as the address: IPv4, IPv6 with its longest
    run of zero groups left out, and IPv4-mapped IPv6 with its dotted tail. *)
Theorem address_text_read_back (ip : IpAddr) : in_range ip = true → parse_ip (show_ip ip) = Some ip.
Proof. apply parse_show_ip. Qed.
