(* ===== verification/Crypto.v ===== *)
(** What the host takes from the crates it hashes and encodes with: SHA-256
    ([sha2]), unpadded base64url ([base64], behind [src/rust/host/src/b64.rs]), as
    parameters with the behaviour those crates document; and what the host itself
    builds on them: digests in hexadecimal and the comparisons of two secrets
    ([src/rust/host/src/crypto.rs], [src/rust/host/src/platform_signin/verify.rs]). *)
From S2P Require Export RustText.
Open Scope Z_scope.

(** [Sha256::digest]: thirty-two bytes. *)
Class Sha256 := sha256 : list N → list N.
Definition bytes (bs : list N) : Prop := Forall (λ b, (b < 256)%N) bs.
Definition digests_are_bytes `{Sha256} : Prop := ∀ bs, length (sha256 bs) = 32%nat ∧ bytes (sha256 bs).

(** [{:x}] of a digest. *)
Definition hex_byte (b : N) : str := [hex_digit false (b / 16); hex_digit false (b mod 16)].
(** [hex_encode]: two lowercase digits a byte. *)
Definition hex_encode (bs : list N) : str := flat_map hex_byte bs.
Definition sha256_hex `{Sha256} (bs : list N) : str := hex_encode (sha256 bs).

(** The alphabet of base64url: letters, digits, hyphen and underscore. *)
Definition url_safe (c : N) : bool := is_digit c || is_upper c || is_lower c || (c =? 45)%N || (c =? 95)%N.
(** [b64::url_encode], [b64::url_decode]: what decodes is the one spelling its
    bytes encode to. *)
Class Base64Url := { url_encode : list N → str; url_decode : str → option (list N) }.
Class Base64UrlLaws `(B : Base64Url) := {
  url_decode_encode bs : bytes bs → url_decode (url_encode bs) = Some bs;
  url_decode_canonical t bs : url_decode t = Some bs → url_encode bs = t;
  url_encode_alphabet bs : bytes bs → forallb url_safe (url_encode bs) = true
}.

(** Two byte strings compared to the end: every difference is kept. *)
Definition differences (a b : list N) : N := fold_left (λ diff xy, N.lor diff (N.lxor xy.1 xy.2)) (zip a b) 0%N.
(** [constant_time_eq]: every pair of bytes is read, whatever came before. *)
Definition constant_time_eq (a b : list N) : bool := (length a =? length b)%nat && (differences a b =? 0)%N.
(** [secure_compare]: the same, over digests. *)
Definition secure_compare `{Sha256} (a b : str) : bool :=
  (differences (sha256 (utf8_encode a)) (sha256 (utf8_encode b)) =? 0)%N.

(** ** Facts *)

Lemma fold_lor_zero (l : list (N * N)) (acc : N) :
  fold_left (λ diff xy, N.lor diff (N.lxor xy.1 xy.2)) l acc = 0%N ↔ acc = 0%N ∧ Forall (λ xy, xy.1 = xy.2) l.
Proof.
  revert acc; induction l as [|[x y] l IH]; intros acc; cbn [fold_left fst snd].
  - split; [by intros ->|by intros [-> _]].
  - rewrite (IH (N.lor acc (N.lxor x y))), list.Forall_cons, N.lor_eq_0_iff, N.lxor_eq_0_iff. cbn [fst snd]. tauto.
Qed.

Lemma no_differences (a b : list N) : length a = length b → (differences a b =? 0)%N = bool_decide (a = b).
Proof.
  intros El. apply Bool.eq_iff_eq_true. unfold differences. rewrite N.eqb_eq, bool_decide_eq_true, fold_lor_zero.
  revert b El; induction a as [|x a IH]; intros [|y b] El; try done; cbn [zip zip_with].
  cbn in El. specialize (IH b ltac:(lia)). split.
  - intros [_ [Hxy H]%list.Forall_cons]. cbn in Hxy. f_equal; [done|]. by apply IH.
  - intros [= -> ->]. split; [done|]. constructor; [done|]. by apply IH.
Qed.

(** Comparing every byte whatever came before still decides equality. *)
Lemma constant_time_eq_decides (a b : list N) : constant_time_eq a b = bool_decide (a = b).
Proof.
  unfold constant_time_eq. destruct (Nat.eqb_spec (length a) (length b)) as [El|Hne]; cbn [andb]; [by apply no_differences|].
  symmetry. apply bool_decide_eq_false. congruence.
Qed.

Lemma hex_digit_ok (d : N) : (d < 16)%N → (is_digit (hex_digit false d) || is_lower (hex_digit false d)) = true.
Proof.
  intros Hd. assert (d ∈ [0;1;2;3;4;5;6;7;8;9;10;11;12;13;14;15]%N) as Hin by (rewrite list_elem_of_In; simpl; lia).
  rewrite list_elem_of_In in Hin. by repeat (destruct Hin as [<-|Hin]; [done|]).
Qed.

Lemma sha256_hex_shape `{Sha256} (bs : list N) :
  digests_are_bytes →
  length (sha256_hex bs) = 64%nat ∧ forallb (λ c, is_digit c || is_lower c) (sha256_hex bs) = true.
Proof.
  intros Hd. destruct (Hd bs) as [Hl Hb]. unfold sha256_hex, hex_encode. split.
  - change 64%nat with (2 * 32)%nat. rewrite <- Hl. clear. induction (sha256 bs) as [|b l IH]; [done|].
    cbn [flat_map hex_byte app length]. rewrite IH. lia.
  - clear Hl. induction Hb as [|b l Hb _ IH]; [done|]. cbn [flat_map hex_byte app forallb]. rewrite IH.
    pose proof (N.mod_lt b 16 ltac:(done)).
    rewrite !hex_digit_ok; [done|lia|by apply N.Div0.div_lt_upper_bound].
Qed.

(** The comparison of digests says yes exactly when the digests are the same: it is
    equality as long as no collision of SHA-256 is known. *)
Lemma secure_compare_digests `{Sha256} (a b : str) :
  digests_are_bytes →
  secure_compare a b = bool_decide (sha256 (utf8_encode a) = sha256 (utf8_encode b)).
Proof.
  intros Hd. unfold secure_compare. apply no_differences.
  destruct (Hd (utf8_encode a)) as [-> _], (Hd (utf8_encode b)) as [-> _]. done.
Qed.
