(* ===== verification/RateLimit.v ===== *)
(** The host's rate limiter ([src/rust/host/src/rate_limit.rs]): a sliding window of
    request stamps per client, bounded in keys, the least recently active client
    dropped first; and who a client is, behind proxies that may or may not be
    trusted.  The addresses' text is in [IpText.v].

    Instants and durations are nanoseconds.  The [u64] sequence of a request is a
    natural number: it would take [2 ^ 64] allowed requests to wrap. *)
From stdpp Require Export gmap.
From S2P Require Export IpText Crypto.
Open Scope Z_scope.

(** [Decision]. *)
Record Decision := { allowed : bool; remaining : nat; retry_after_secs : Z }.

(** [Entry]: the stamps of a key's counted requests, oldest first, and the
    sequence of the last. *)
Record Entry := { stamps : list Z; seq : nat }.

(** [SlidingWindow].  [recency] is the [BTreeMap] in key order. *)
Record SlidingWindow := {
  limit : nat; window : Z; max_keys : nat;
  entries : gmap str Entry; recency : list (nat * str); next_seq : nat
}.

(** [SlidingWindow::new]: a zero limit or bound is raised to one. *)
Definition new_window (limit : nat) (window : Z) (max_keys : nat) : SlidingWindow := {|
  limit := Nat.max limit 1; window := window; max_keys := Nat.max max_keys 1;
  entries := ∅; recency := []; next_seq := 0
|}.

(** [BTreeMap::insert] and [remove], of a map in key order. *)
Fixpoint tree_insert (k : nat) (v : str) (l : list (nat * str)) : list (nat * str) :=
  match l with
  | [] => [(k, v)]
  | (k', v') :: l' =>
    if (k <? k')%nat then (k, v) :: l
    else if (k =? k')%nat then (k, v) :: l'
    else (k', v') :: tree_insert k v l'
  end.
Definition tree_remove (k : nat) (l : list (nat * str)) : list (nat * str) :=
  filter (λ kv, negb (kv.1 =? k)%nat) l.

(** [saturating_duration_since]. *)
Definition since (now stamp : Z) : Z := Z.max 0 (now - stamp).
(** A stamp that has left the window. *)
Definition left_window (window now stamp : Z) : bool := window <=? since now stamp.

(** The [while] that pops the front of the stamps. *)
Fixpoint drop_left (window now : Z) (stamps : list Z) : list Z :=
  match stamps with
  | s :: rest => if left_window window now s then drop_left window now rest else stamps
  | [] => []
  end.

(** Whole seconds until the oldest stamp leaves: milliseconds are cut off before
    the seconds are rounded up. *)
Definition retry_after (window now oldest : Z) : Z :=
  let wait := Z.max 0 (window - since now oldest) in
  let millis := wait / 1000000 in
  Z.max 1 (Z.min (2 ^ 64 - 1) ((millis + 999) / 1000)).

(** [record]. *)
Definition record (w : SlidingWindow) (key : str) (now : Z) : Decision * SlidingWindow :=
  let s := next_seq w in
  let '(rest, entry, recency1) :=
    match entries w !! key with
    | Some e => let stamps' := stamps e ++ [now] in
      (limit w - length stamps', {| stamps := stamps'; seq := s |}, tree_remove (seq e) (recency w))
    | None => (limit w - 1, {| stamps := [now]; seq := s |}, recency w)
    end%nat in
  ({| allowed := true; remaining := rest; retry_after_secs := 0 |},
   {| limit := limit w; window := window w; max_keys := max_keys w;
      entries := <[key := entry]> (entries w); recency := tree_insert s key recency1; next_seq := S s |}).

(** [make_room]: the sweep of idle keys, oldest first, then the keys dropped to
    fit.  Both loops take the first of [recency] each time around. *)
Definition idle (w : SlidingWindow) (now : Z) (es : gmap str Entry) (key : str) : bool :=
  match es !! key ≫= λ e, list.last (stamps e) with
  | None => true
  | Some t => left_window (window w) now t
  end.
Fixpoint sweep (w : SlidingWindow) (now : Z) (es : gmap str Entry) (order : list (nat * str)) :
    gmap str Entry * list (nat * str) :=
  match order with
  | (_, key) :: rest => if idle w now es key then sweep w now (delete key es) rest else (es, order)
  | [] => (es, [])
  end.
Fixpoint drop_oldest (bound : nat) (es : gmap str Entry) (order : list (nat * str)) :
    gmap str Entry * list (nat * str) :=
  if (size es <? bound)%nat then (es, order)
  else match order with
       | (_, key) :: rest => drop_oldest bound (delete key es) rest
       | [] => (es, [])
       end.
Definition with_entries (w : SlidingWindow) (er : gmap str Entry * list (nat * str)) : SlidingWindow := {|
  limit := limit w; window := window w; max_keys := max_keys w;
  entries := er.1; recency := er.2; next_seq := next_seq w
|}.
Definition make_room (w : SlidingWindow) (now : Z) : SlidingWindow :=
  if (size (entries w) <? max_keys w)%nat then w
  else let '(es, order) := sweep w now (entries w) (recency w) in
       with_entries w (drop_oldest (max_keys w) es order).

(** [check]. *)
Definition check (w : SlidingWindow) (key : str) (now : Z) : Decision * SlidingWindow :=
  match entries w !! key with
  | Some e =>
    let kept := drop_left (window w) now (stamps e) in
    let w' := with_entries w (<[key := {| stamps := kept; seq := seq e |}]> (entries w), recency w) in
    if (limit w <=? length kept)%nat then
      ({| allowed := false; remaining := 0;
          retry_after_secs := retry_after (window w) now (default now (list.head kept)) |}, w')
    else record w' key now
  | None => record (make_room w now) key now
  end.

(** Requests one after another, under the mutex: the decisions, and the window
    they leave. *)
Fixpoint checks (w : SlidingWindow) (requests : list (str * Z)) : list Decision * SlidingWindow :=
  match requests with
  | [] => ([], w)
  | (key, now) :: rest =>
    let (d, w') := check w key now in
    let (ds, w'') := checks w' rest in (d :: ds, w'')
  end.

(** ** Who a client is *)

(** [ProxyAuth]: a header's name, and the secret it must carry; [ProxyTrust]. *)
Record ProxyAuth := { header : str; secret : str }.
Record ProxyTrust := { networks : list IpNet; hops : nat; auth : option ProxyAuth }.

Definition in_networks (t : ProxyTrust) (ip : IpAddr) : bool := existsb (λ net, net_contains net ip) (networks t).

(** [trusts]. *)
Definition trusts (t : ProxyTrust) (peer : option IpAddr) (presented_secret : option str) : bool :=
  let secret_matches :=
    match auth t, presented_secret with
    | Some a, Some presented => constant_time_eq (utf8_encode (secret a)) (utf8_encode presented)
    | _, _ => false
    end in
  secret_matches || match peer with Some p => in_networks t p | None => false end.

(** The entries of a forwarded header, trimmed, the empty ones left out. *)
Definition forwarded_entries (forwarded_for : option str) : list str :=
  filter (λ e, e ≠ []) (map trim (split (default [] forwarded_for) ",")).

(** The loop of [client_ip]: from the nearest entry, the first address no trusted
    network holds. *)
Fixpoint first_untrusted (t : ProxyTrust) (entries : list str) : option IpAddr :=
  match entries with
  | [] => None
  | e :: rest =>
    ip ← parse_ip e;
    let ip := to_canonical ip in
    if negb (in_networks t ip) then Some ip else first_untrusted t rest
  end.

(** [client_ip]. *)
Definition client_ip (t : ProxyTrust) (peer : option IpAddr) (forwarded_for presented_secret : option str) :
    option IpAddr :=
  let peer := to_canonical <$> peer in
  if negb (trusts t peer presented_secret) then peer
  else match forwarded_entries forwarded_for with
       | [] => peer
       | entries => first_untrusted t (drop (hops t) (rev entries))
       end.

(** [bucket_key]: IPv6 callers are counted per /64. *)
Definition bucket_key (ip : IpAddr) : str :=
  match ip with
  | V4 bits => show_ipv4 bits
  | V6 bits => show_ipv6 (N.land bits (N.shiftl (2 ^ 64 - 1) 64)) ++ "/64"
  end.

(** [is_private]: the private, loopback and link-local networks. *)
Definition is_private (ip : IpAddr) : bool :=
  match ip with
  | V4 bits =>
    let o := octets bits in
    let a := nth 0 o 0%N in
    let b := nth 1 o 0%N in
    (a =? 10)%N || ((a =? 172) && (16 <=? b) && (b <=? 31))%N || ((a =? 192) && (b =? 168))%N ||
    (a =? 127)%N || ((a =? 169) && (b =? 254))%N
  | V6 bits => (bits =? 1)%N || (N.land (nth 0 (segments bits) 0) 65024 =? 64512)%N
  end.

(** ** The limits of a host *)

(** [RateRule]; [rate_rule_for], of the rules the extensions bring. *)
Record RateRule := { rule_name : str; rule_method : str; rule_path : str; limit_env : str; default_limit : nat }.
Definition rate_rule_for (rules : list RateRule) (method path : str) : option RateRule :=
  find (λ rule, str_eqb (rule_method rule) method && str_eqb (rule_path rule) path) rules.

(** [Config], [limit_for]: of two limits under a name, the later. *)
Record Config := {
  enabled : bool; config_window : Z; limits : list (str * nat); config_max_keys : nat; trust : ProxyTrust
}.
Definition limit_for (c : Config) (rule : RateRule) : nat :=
  default (default_limit rule) (assoc (rule_name rule) (rev (limits c))).

(** [RateLimits]: a window per rule, and whether the warning was said. *)
Record RateLimits := { config : Config; windows : gmap str SlidingWindow; warned_untrusted_proxy : bool }.

(** What a request's headers say: [x-forwarded-for], its lines joined, and the
    value of the header that authenticates a proxy, where one is configured. *)
Record Headers := { x_forwarded_for : list str; proxy_secret : option str }.
Definition joined_header (values : list str) : option str :=
  match values with [] => None | _ => Some (join ", " values) end.

Definition unknown_client : str := "unknown".

(** [warn_if_proxy_untrusted]: whether this request says the warning. *)
Definition warns (r : RateLimits) (forwarded_for : option str) (peer : option IpAddr) (presented : option str) : bool :=
  match to_canonical <$> peer with
  | None => false
  | Some p =>
    match forwarded_for with None => false | Some _ => true end && is_private p &&
    negb (trusts (trust (config r)) (Some p) presented) && negb (warned_untrusted_proxy r)
  end.

(** [client_key], and whether the warning was said by now. *)
Definition client_key (r : RateLimits) (h : Headers) (peer : option IpAddr) : str * bool :=
  let forwarded_for := joined_header (x_forwarded_for h) in
  let presented := match auth (trust (config r)) with Some _ => proxy_secret h | None => None end in
  (match client_ip (trust (config r)) peer forwarded_for presented with
   | Some ip => bucket_key ip
   | None => unknown_client
   end,
   warned_untrusted_proxy r || warns r forwarded_for peer presented).

(** [Verdict]. *)
Inductive Verdict := Allowed | Limited (retry_after_secs : Z).

(** [check_at]: a route no rule limits, or a host that limits nothing, allows. *)
Definition check_at (rules : list RateRule) (r : RateLimits) (method path : str) (h : Headers)
    (peer : option IpAddr) (now : Z) : Verdict * RateLimits :=
  match rate_rule_for rules method path with
  | Some rule =>
    if enabled (config r) then
      let (key, warned) := client_key r h peer in
      let w := default (new_window (limit_for (config r) rule) (config_window (config r)) (config_max_keys (config r)))
                       (windows r !! rule_name rule) in
      let (d, w') := check w key now in
      (if allowed d then Allowed else Limited (retry_after_secs d),
       {| config := config r; windows := <[rule_name rule := w']> (windows r); warned_untrusted_proxy := warned |})
    else (Allowed, r)
  | None => (Allowed, r)
  end.

(** ** Settings *)

(** [str::parse] of an unsigned 64-bit number. *)
Definition parse_u64 (s : str) : option Z :=
  n ← parse_digits (default s (strip_prefix s "+"));
  if (n <? 2 ^ 64)%N then Some (Z.of_N n) else None.

(** A setting that is there and not blank, trimmed. *)
Definition setting (value : option str) : option str :=
  v ← value; let v := trim v in if bool_decide (v = []) then None else Some v.

(** [is_off]. *)
Definition is_off (value : str) : bool :=
  existsb (str_eqb (lowercase_ascii (trim value))) ["off" : str; "false" : str; "0" : str; "no" : str; "disabled" : str].

Section settings.
Context `{U : UnicodeTables}.
(** [HeaderName::from_bytes] of the HTTP library: whether it takes a name. *)
Context (valid_header : str → bool).

(** The closure [number]: the value, and the warning of an unusable one. *)
Definition number_setting (get : str → option str) (name : str) (fallback : Z) : Z * list str :=
  match setting (get name) with
  | None => (fallback, [])
  | Some raw =>
    match parse_u64 raw with
    | Some n => if 1 <=? n then (n, []) else
        (fallback, [name ++ "=" ++ debug_str raw ++ " is not a positive whole number; using " ++ dec_Z fallback])
    | None =>
        (fallback, [name ++ "=" ++ debug_str raw ++ " is not a positive whole number; using " ++ dec_Z fallback])
    end
  end.

Fixpoint rule_limits (get : str → option str) (rules : list RateRule) : list (str * nat) * list str :=
  match rules with
  | [] => ([], [])
  | rule :: rest =>
    let (n, warned) := number_setting get (limit_env rule) (Z.of_nat (default_limit rule)) in
    let (ls, warned') := rule_limits get rest in
    ((rule_name rule, Z.to_nat n) :: ls, warned ++ warned')
  end.

Definition hops_setting (get : str → option str) : nat * list str :=
  match setting (get "HECKS_TRUSTED_PROXY_HOPS") with
  | None => (0%nat, [])
  | Some raw =>
    match parse_u64 raw with
    | Some n => (Z.to_nat n, [])
    | None => (0%nat, ["HECKS_TRUSTED_PROXY_HOPS=" ++ debug_str raw ++ " is not a whole number; using 0"])
    end
  end.

(** [parse_networks], [parse_proxy_auth]. *)
Fixpoint parse_entries (entries : list str) : list IpNet * list str :=
  match entries with
  | [] => ([], [])
  | e :: rest =>
    let (nets, warned) := parse_entries rest in
    match parse_net e with
    | Some net => (net :: nets, warned)
    | None => (nets, ("HECKS_TRUSTED_PROXIES entry " ++ debug_str e ++
                      " is not an address or CIDR range; ignored") :: warned)
    end
  end.
Definition parse_networks (list_text : str) : list IpNet * list str :=
  parse_entries (filter (λ e, e ≠ []) (map trim (split list_text ","))).

Definition parse_proxy_auth (header_text secret_text : option str) : option ProxyAuth * list str :=
  match setting header_text, (s ← secret_text; if bool_decide (s = []) then None else Some s) with
  | None, None => (None, [])
  | Some h, Some s =>
    if valid_header (lowercase_ascii h) then (Some {| header := lowercase_ascii h; secret := s |}, [])
    else (None, ["HECKS_PROXY_AUTH_HEADER " ++ debug_str h ++
                 " is not a valid header name; proxy authentication is off"])
  | _, _ => (None, ["HECKS_PROXY_AUTH_HEADER and HECKS_PROXY_AUTH_SECRET must both be set; proxy authentication is off"])
  end.

Definition default_window_seconds : Z := 3600.
Definition default_max_keys : Z := 10000.

(** [Config::from_lookup]. *)
Definition from_lookup (rules : list RateRule) (get : str → option str) : Config * list str :=
  let (window, w1) := number_setting get "HECKS_RATE_LIMIT_WINDOW_SECONDS" default_window_seconds in
  let (limits, w2) := rule_limits get rules in
  let (keys, w3) := number_setting get "HECKS_RATE_LIMIT_MAX_KEYS" default_max_keys in
  let (hops, w4) := hops_setting get in
  let (networks, w5) := parse_networks (default [] (get "HECKS_TRUSTED_PROXIES")) in
  let (auth, w6) := parse_proxy_auth (get "HECKS_PROXY_AUTH_HEADER") (get "HECKS_PROXY_AUTH_SECRET") in
  let enabled := negb (match get "HECKS_RATE_LIMIT" with Some v => is_off v | None => false end) in
  ({| enabled := enabled; config_window := window * 1000000000; limits := limits;
      config_max_keys := Z.to_nat keys;
      trust := {| networks := networks; hops := hops; auth := auth |} |},
   w1 ++ w2 ++ w3 ++ w4 ++ w5 ++ w6).
End settings.
