(* ===== verification/RateLimitFacts.v ===== *)
(** What the rate limiter keeps: its maps agree and stay within their bounds; it
    counts a client's requests exactly as a log of every request would, while
    clients fit; so no interval of a window's length lets more than the limit
    through; only the least recently active client is dropped to fit; and whom the
    forwarded headers make of a client. *)
From stdpp Require Import gmap.
From S2P Require Export RateLimit.
Open Scope Z_scope.

(** ** The maps *)

(** [order] is the keys of [es] by the sequence of each's entry. *)
Record indexed (es : gmap str Entry) (order : list (nat * str)) : Prop := {
  order_sorted : StronglySorted (λ a b, a.1 < b.1)%nat order;
  order_keys : ∀ n k, (n, k) ∈ order ↔ ∃ e, es !! k = Some e ∧ seq e = n
}.

Lemma indexed_head (es : gmap str Entry) (n : nat) (k : str) (order : list (nat * str)) :
  indexed es ((n, k) :: order) →
  (∃ e, es !! k = Some e ∧ seq e = n) ∧ (∀ n' k', (n', k') ∈ order → (n < n')%nat ∧ k' ≠ k).
Proof.
  intros [Hs Hk]. apply StronglySorted_inv in Hs as [Hs Hall]. rewrite list.Forall_forall in Hall.
  assert (∃ e, es !! k = Some e ∧ seq e = n) as He by (apply Hk; left).
  split; [done|]. intros n' k' Hin. pose proof (Hall _ Hin) as Hlt. cbn in Hlt. split; [done|].
  intros ->. destruct He as (e & E1 & E2), (proj1 (Hk n' k) (list_elem_of_further _ _ _ Hin)) as (e' & E1' & E2').
  simplify_eq. lia.
Qed.

Lemma indexed_delete (es : gmap str Entry) (n : nat) (k : str) (order : list (nat * str)) :
  indexed es ((n, k) :: order) → indexed (delete k es) order.
Proof.
  intros H. pose proof (indexed_head _ _ _ _ H) as [(e & E1 & E2) Hrest]. destruct H as [Hs Hk].
  apply StronglySorted_inv in Hs as [Hs _]. split; [done|]. intros n' k'.
  split.
  - intros Hin. destruct (Hrest _ _ Hin) as [_ Hne]. rewrite lookup_delete_ne by done.
    apply Hk. by right.
  - intros (e' & E' & Hn). apply lookup_delete_Some in E' as [Hne E'].
    assert ((n', k') ∈ (n, k) :: order) as Hin by (apply Hk; eauto).
    apply elem_of_cons in Hin as [|]; [congruence|done].
Qed.

Lemma indexed_nil (es : gmap str Entry) : indexed es [] → es = ∅.
Proof.
  intros [_ Hk]. apply map_eq. intros k. rewrite lookup_empty.
  destruct (es !! k) as [e|] eqn:E; [|done]. exfalso.
  apply (not_elem_of_nil (seq e, k)). apply Hk. eauto.
Qed.

Lemma sweep_indexed (w : SlidingWindow) (now : Z) (es : gmap str Entry) (order : list (nat * str)) :
  indexed es order → indexed (sweep w now es order).1 (sweep w now es order).2.
Proof.
  revert es; induction order as [|[n k] order IH]; intros es H; cbn [sweep]; [done|].
  case_match; [|done]. by eapply IH, indexed_delete.
Qed.

Lemma drop_oldest_indexed (bound : nat) (es : gmap str Entry) (order : list (nat * str)) :
  indexed es order → indexed (drop_oldest bound es order).1 (drop_oldest bound es order).2.
Proof.
  revert es; induction order as [|[n k] order IH]; intros es H; cbn [drop_oldest]; case_match; try done.
  by eapply IH, indexed_delete.
Qed.

Lemma drop_oldest_fits (bound : nat) (es : gmap str Entry) (order : list (nat * str)) :
  (0 < bound)%nat → indexed es order → (size (drop_oldest bound es order).1 < bound)%nat.
Proof.
  intros Hb. revert es; induction order as [|[n k] order IH]; intros es H; cbn [drop_oldest].
  - rewrite (indexed_nil es H), map_size_empty. case_match; cbn; by rewrite map_size_empty.
  - destruct (Nat.ltb_spec (size es) bound); [done|]. by eapply IH, indexed_delete.
Qed.

(** Dropping only deletes. *)
Lemma sweep_subseteq (w : SlidingWindow) (now : Z) (es : gmap str Entry) (order : list (nat * str)) :
  (sweep w now es order).1 ⊆ es.
Proof.
  revert es; induction order as [|[n k] order IH]; intros es; cbn [sweep]; [done|].
  case_match; [|done]. etrans; [apply IH|apply delete_subseteq].
Qed.
Lemma drop_oldest_subseteq (bound : nat) (es : gmap str Entry) (order : list (nat * str)) :
  (drop_oldest bound es order).1 ⊆ es.
Proof.
  revert es; induction order as [|[n k] order IH]; intros es; cbn [drop_oldest]; case_match; try done.
  etrans; [apply IH|apply delete_subseteq].
Qed.

Lemma elem_of_tree_insert (k : nat) (v : str) (l : list (nat * str)) (x : nat * str) :
  x ∈ tree_insert k v l → x = (k, v) ∨ x ∈ l.
Proof.
  induction l as [|[k' v'] l IH]; cbn [tree_insert]; repeat case_match; rewrite ?elem_of_cons; try tauto.
Qed.

(** A fresh sequence, past every one in the tree, goes at the end. *)
Lemma tree_insert_last (k : nat) (v : str) (l : list (nat * str)) :
  Forall (λ kv, kv.1 < k)%nat l → tree_insert k v l = l ++ [(k, v)].
Proof.
  induction 1 as [|[k' v'] l Hk _ IH]; [done|]. cbn [tree_insert app]. cbn in Hk.
  by rewrite (proj2 (Nat.ltb_ge k k')), (proj2 (Nat.eqb_neq k k')), IH by lia.
Qed.

Lemma StronglySorted_kept {A} (R : A → A → Prop) (p : A → bool) (l : list A) :
  StronglySorted R l → StronglySorted R (filter p l).
Proof.
  induction 1 as [|x l H IH Hall]; [constructor|]. rewrite filter_cons. case_decide; [|done].
  constructor; [done|]. rewrite list.Forall_forall in *. intros y Hy.
  apply Hall. by apply list_elem_of_filter in Hy as [_ ?].
Qed.

Lemma StronglySorted_snoc {A} (R : A → A → Prop) (l : list A) (x : A) :
  StronglySorted R l → Forall (λ y, R y x) l → StronglySorted R (l ++ [x]).
Proof.
  induction 1 as [|y l H IH Hall]; intros HF; [by repeat constructor|].
  apply list.Forall_cons in HF as [Hy HF]. cbn [app]. constructor; [by apply IH|].
  apply list.Forall_app. split; [done|]. by constructor.
Qed.

(** The invariant of a limiter. *)
Record well_formed (w : SlidingWindow) : Prop := {
  wf_limit : (1 <= limit w)%nat;
  wf_keys : (1 <= max_keys w)%nat;
  wf_indexed : indexed (entries w) (recency w);
  wf_fresh : Forall (λ nk, nk.1 < next_seq w)%nat (recency w);
  wf_size : (size (entries w) <= max_keys w)%nat;
  wf_stamps : map_Forall (λ _ e, length (stamps e) <= limit w)%nat (entries w)
}.

Lemma new_window_wf (n : nat) (t : Z) (keys : nat) : well_formed (new_window n t keys).
Proof.
  split; cbn; [lia|lia| |constructor|rewrite map_size_empty; lia|apply map_Forall_empty].
  split; [constructor|]. intros ??. split; [by intros ?%elem_of_nil|]. intros (? & H & _). by rewrite lookup_empty in H.
Qed.

Lemma fresh_of_indexed (es es' : gmap str Entry) (order order' : list (nat * str)) (n : nat) :
  indexed es order → indexed es' order' → es' ⊆ es →
  Forall (λ nk, nk.1 < n)%nat order → Forall (λ nk, nk.1 < n)%nat order'.
Proof.
  intros [_ Hk] [_ Hk'] Hsub. rewrite !list.Forall_forall. intros Hlt [m k] Hin.
  apply Hk' in Hin as (e & E & Hm). apply (Hlt (m, k)). apply Hk. exists e.
  split; [by eapply lookup_weaken|done].
Qed.

Lemma make_room_wf (w : SlidingWindow) (now : Z) :
  well_formed w → well_formed (make_room w now) ∧ (size (entries (make_room w now)) < max_keys w)%nat.
Proof.
  intros W. unfold make_room. destruct (Nat.ltb_spec (size (entries w)) (max_keys w)); [done|].
  destruct W as [H1 H2 Hi Hf Hs Ht].
  pose proof (sweep_indexed w now _ _ Hi) as Hi1. pose proof (sweep_subseteq w now (entries w) (recency w)) as Hsub1.
  destruct (sweep w now (entries w) (recency w)) as [es order]. cbn [fst snd] in *.
  pose proof (drop_oldest_indexed (max_keys w) _ _ Hi1) as Hi2.
  pose proof (drop_oldest_subseteq (max_keys w) es order) as Hsub2.
  pose proof (drop_oldest_fits (max_keys w) _ _ H2 Hi1) as Hfit.
  split; [|done]. unfold with_entries.
  assert ((drop_oldest (max_keys w) es order).1 ⊆ entries w) as Hsub by by etrans.
  split; cbn; try done; [|lia|].
  - exact (fresh_of_indexed _ _ _ _ _ Hi Hi2 Hsub Hf).
  - intros k e He. apply (Ht k e). by eapply lookup_weaken.
Qed.

Lemma sorted_unique_key (order : list (nat * str)) (n : nat) (k k' : str) :
  StronglySorted (λ a b, a.1 < b.1)%nat order → (n, k) ∈ order → (n, k') ∈ order → k = k'.
Proof.
  induction 1 as [|[m j] l _ IH Hall]; [by intros []%elem_of_nil|].
  rewrite list.Forall_forall in Hall. rewrite !elem_of_cons.
  intros [[=]|I1] [[=]|I2]; subst; try done; [apply Hall in I2|apply Hall in I1|by apply IH]; cbn in *; lia.
Qed.

(** [record] where the key has room, or is new and there is room for a key. *)
Lemma record_wf (w : SlidingWindow) (key : str) (now : Z) :
  well_formed w →
  (match entries w !! key with
   | Some e => length (stamps e) < limit w
   | None => size (entries w) < max_keys w
   end)%nat →
  well_formed (record w key now).2.
Proof.
  intros [H1 H2 [Hs Hk] Hf Hsize Ht] Hroom. unfold record.
  set (order := match entries w !! key with Some e => tree_remove (seq e) (recency w) | None => recency w end).
  assert (StronglySorted (λ a b, a.1 < b.1)%nat order ∧ Forall (λ nk, nk.1 < next_seq w)%nat order ∧
    ∀ n k, (n, k) ∈ order ↔ k ≠ key ∧ ∃ e, entries w !! k = Some e ∧ seq e = n) as (Ho & Hfo & Hko).
  { unfold order, tree_remove. destruct (entries w !! key) as [e|] eqn:E.
    - split_and!; [by apply StronglySorted_kept| |].
      { rewrite list.Forall_forall in *. intros x [_ Hx]%list_elem_of_filter. by apply Hf. }
      intros n k. rewrite list_elem_of_filter, Hk. cbn. split.
      + intros [Hn (e' & E' & Hs')]. split; [|by eauto]. intros ->. simplify_eq.
        by rewrite Nat.eqb_refl in Hn.
      + intros [Hne (e' & E' & Hs')]. split; [|by eauto].
        destruct (Nat.eqb_spec n (seq e)) as [Hn|]; [|done]. exfalso. apply Hne.
        assert ((n, k) ∈ recency w ∧ (n, key) ∈ recency w) as [I1 I2] by (split; apply Hk; eauto).
        by apply (sorted_unique_key _ _ _ _ Hs I1 I2).
    - split_and!; [done..|]. intros n k. rewrite Hk. split; [|by intros [_ ?]].
      intros (e & E' & Hn). split; [congruence|eauto]. }
  assert (∃ e d, record w key now = (d, {| limit := limit w; window := window w; max_keys := max_keys w;
      entries := <[key := e]> (entries w); recency := tree_insert (next_seq w) key order;
      next_seq := S (next_seq w) |}) ∧ seq e = next_seq w ∧ (length (stamps e) <= limit w)%nat)
    as (e & d & Er & He1 & He2).
  { unfold record, order. destruct (entries w !! key) as [e|]; eexists _, _; (split; [reflexivity|]); cbn;
      rewrite ?length_app; cbn; split; done || lia. }
  fold (record w key now). rewrite Er. clear Er. cbn [snd].
  rewrite tree_insert_last by done.
  split; cbn; [done|done| | | |].
  - split.
    + by apply StronglySorted_snoc.
    + intros n k. rewrite elem_of_app, list_elem_of_singleton, Hko. split.
      * intros [[Hne (e' & E' & Hn)]|[= -> ->]]; [by exists e'; rewrite lookup_insert_ne|].
        exists e. by rewrite lookup_insert_eq.
      * intros (e' & E' & Hn). destruct (decide (k = key)) as [->|Hne].
        -- rewrite lookup_insert_eq in E'. simplify_eq. right. by rewrite He1.
        -- rewrite lookup_insert_ne in E' by done. left. eauto.
  - apply list.Forall_app. split; [|by repeat constructor; cbn; lia].
    eapply list.Forall_impl; [exact Hfo|]. cbn. intros; lia.
  - destruct (entries w !! key) eqn:E; [by rewrite map_size_insert_Some|rewrite map_size_insert_None by done; lia].
  - apply map_Forall_insert_2; done.
Qed.

Lemma drop_left_suffix (t now : Z) (stamps : list Z) :
  ∃ dropped, stamps = dropped ++ drop_left t now stamps ∧ Forall (λ s, left_window t now s = true) dropped.
Proof.
  induction stamps as [|s stamps IH]; [by exists []|]. cbn [drop_left].
  destruct (left_window t now s) eqn:E; [|by exists []].
  destruct IH as (d & Ed & Hd). exists (s :: d). split; [by rewrite Ed at 1|by constructor].
Qed.

(** The window after the front of one key's stamps was dropped. *)
Definition trimmed (w : SlidingWindow) (key : str) (e : Entry) (now : Z) : SlidingWindow :=
  with_entries w (<[key := {| stamps := drop_left (window w) now (stamps e); seq := seq e |}]> (entries w), recency w).

Lemma trimmed_wf (w : SlidingWindow) (key : str) (e : Entry) (now : Z) :
  well_formed w → entries w !! key = Some e → well_formed (trimmed w key e now).
Proof.
  intros [H1 H2 [Hs Hk] Hf Hsize Ht] E. unfold trimmed, with_entries. split; cbn; try done.
  - split; [done|]. intros n k. rewrite Hk. destruct (decide (k = key)) as [->|].
    + rewrite lookup_insert_eq, E. split; intros (e' & [= <-] & <-); by eexists.
    + by rewrite lookup_insert_ne.
  - by rewrite map_size_insert_Some.
  - apply map_Forall_insert_2; [|done]. cbn.
    destruct (drop_left_suffix (window w) now (stamps e)) as (d & Ed & _).
    pose proof (Ht _ _ E) as Hlen. cbn in Hlen. rewrite Ed, length_app in Hlen. lia.
Qed.

(** No operation changes a limit, a window or a bound. *)
Definition same_config (w w' : SlidingWindow) : Prop :=
  limit w' = limit w ∧ window w' = window w ∧ max_keys w' = max_keys w.
Lemma record_config (w : SlidingWindow) (key : str) (now : Z) : same_config w (record w key now).2.
Proof. unfold record. by destruct (entries w !! key). Qed.
Lemma make_room_config (w : SlidingWindow) (now : Z) : same_config w (make_room w now).
Proof. unfold make_room. case_match; [done|]. by destruct (sweep _ _ _ _). Qed.
Lemma check_config (w : SlidingWindow) (key : str) (now : Z) : same_config w (check w key now).2.
Proof.
  unfold check. destruct (entries w !! key) as [e|].
  - case_match; [done|]. destruct (record_config (trimmed w key e now) key now) as (H1 & H2 & H3). done.
  - destruct (record_config (make_room w now) key now) as (H1 & H2 & H3), (make_room_config w now) as (H4 & H5 & H6).
    repeat split; congruence.
Qed.

Lemma check_wf (w : SlidingWindow) (key : str) (now : Z) : well_formed w → well_formed (check w key now).2.
Proof.
  intros W. unfold check. destruct (entries w !! key) as [e|] eqn:E.
  - pose proof (trimmed_wf w key e now W E) as Wt. fold (trimmed w key e now).
    destruct (Nat.leb_spec (limit w) (length (drop_left (window w) now (stamps e)))); [done|].
    apply record_wf; [done|]. cbn. by rewrite lookup_insert_eq.
  - destruct (make_room_wf w now W) as [Wr Hsize]. apply (record_wf _ _ _ Wr).
    destruct (entries (make_room w now) !! key) as [e'|] eqn:E'; [|by rewrite (proj2 (proj2 (make_room_config w now)))].
    exfalso. revert E'. unfold make_room. case_match; [congruence|].
    pose proof (sweep_subseteq w now (entries w) (recency w)) as Hsub1.
    destruct (sweep w now (entries w) (recency w)) as [es order]. cbn in *.
    pose proof (drop_oldest_subseteq (max_keys w) es order) as Hsub2. intros E'.
    pose proof (lookup_weaken _ _ _ _ E' (transitivity Hsub2 Hsub1)). congruence.
Qed.

(** Whatever requests come, and at whatever instants, the limiter's maps agree,
    it never holds more clients than its bound, nor more than the limit of a
    client's stamps. *)
Theorem limiter_stays_bounded (lim : nat) (t : Z) (keys : nat) (requests : list (str * Z)) :
  let w := (checks (new_window lim t keys) requests).2 in
  indexed (entries w) (recency w) ∧ (size (entries w) <= Nat.max keys 1)%nat ∧
  map_Forall (λ _ e, length (stamps e) <= Nat.max lim 1)%nat (entries w).
Proof.
  assert (∀ w, well_formed w → let w' := (checks w requests).2 in
    well_formed w' ∧ limit w' = limit w ∧ max_keys w' = max_keys w) as H.
  { induction requests as [|[key now] requests IH]; intros w W; cbn [checks]; [done|].
    pose proof (check_wf w key now W) as Wc.
    assert (limit (check w key now).2 = limit w ∧ max_keys (check w key now).2 = max_keys w) as [El Ek].
    { by destruct (check_config w key now) as (-> & _ & ->). }
    destruct (check w key now) as [d w']. cbn [snd] in *. specialize (IH w' Wc).
    destruct (checks w' requests) as [ds w'']. cbn in *. by rewrite <- El, <- Ek. }
  destruct (H _ (new_window_wf lim t keys)) as ([_ _ Hi _ Hs Ht] & El & Ek).
  cbv zeta. rewrite El in Ht. rewrite Ek in Hs. done.
Qed.

(** ** A log of every counted request *)

(** The reference: every counted request is kept for good, and a request is
    counted while fewer than [lim] of its client's lie in the window. *)
Definition of_key (log : list (str * Z)) (key : str) : list Z := (filter (λ r, r.1 = key) log).*2.
Definition in_window (t now : Z) (stamps : list Z) : list Z := filter (λ s, left_window t now s = false) stamps.

Definition log_check (lim : nat) (t : Z) (log : list (str * Z)) (key : str) (now : Z) :
    Decision * list (str * Z) :=
  let recent := in_window t now (of_key log key) in
  if (lim <=? length recent)%nat then
    ({| allowed := false; remaining := 0; retry_after_secs := retry_after t now (default now (list.head recent)) |}, log)
  else ({| allowed := true; remaining := lim - S (length recent); retry_after_secs := 0 |}, log ++ [(key, now)]).

Fixpoint log_checks (lim : nat) (t : Z) (log : list (str * Z)) (requests : list (str * Z)) :
    list Decision * list (str * Z) :=
  match requests with
  | [] => ([], log)
  | (key, now) :: rest =>
    let (d, log') := log_check lim t log key now in
    let (ds, log'') := log_checks lim t log' rest in (d :: ds, log'')
  end.

(** Requests in the order of their instants. *)
Definition in_time_order (requests : list (str * Z)) : Prop := StronglySorted (λ a b, a.2 <= b.2) requests.

Lemma left_window_mono (t now s s' : Z) : s <= s' → left_window t now s = false → left_window t now s' = false.
Proof. unfold left_window, since. rewrite !Z.leb_gt. lia. Qed.
Lemma left_window_later (t now now' s : Z) : now <= now' → left_window t now s = true → left_window t now' s = true.
Proof. unfold left_window, since. rewrite !Z.leb_le. lia. Qed.

Lemma filter_keeps {A} (P : A → Prop) `{!∀ x, base.Decision (P x)} (l : list A) : Forall P l → filter P l = l.
Proof. induction 1 as [|x l Hx _ IH]; [done|]. by rewrite filter_cons, decide_True, IH by done. Qed.
Lemma filter_drops {A} (P : A → Prop) `{!∀ x, base.Decision (P x)} (l : list A) :
  Forall (λ x, ¬ P x) l → filter P l = [].
Proof. induction 1 as [|x l Hx _ IH]; [done|]. by rewrite filter_cons, decide_False, IH by done. Qed.

(** Of stamps in order, popping the front is keeping those in the window. *)
Lemma drop_left_in_window (t now : Z) (stamps : list Z) :
  StronglySorted Z.le stamps → drop_left t now stamps = in_window t now stamps.
Proof.
  unfold in_window. induction 1 as [|s stamps H IH Hall]; [done|]. cbn [drop_left]. rewrite filter_cons.
  destruct (left_window t now s) eqn:E; [by rewrite decide_False by done|].
  rewrite decide_True by done. f_equal. symmetry.
  apply filter_keeps. eapply list.Forall_impl; [exact Hall|]. intros x Hx. by eapply left_window_mono.
Qed.

Lemma in_window_drop (t now : Z) (dropped kept : list Z) :
  Forall (λ s, left_window t now s = true) dropped → in_window t now (dropped ++ kept) = in_window t now kept.
Proof.
  unfold in_window. intros H. rewrite list.filter_app.
  rewrite (filter_drops _ dropped); [done|].
  eapply list.Forall_impl; [exact H|]. intros x Hx. cbn in Hx. by rewrite Hx.
Qed.

(** A limiter that has dropped nobody, against the log: what it holds of a client
    is the log less a front that has left the window. *)
Record tracks (w : SlidingWindow) (log : list (str * Z)) (now : Z) : Prop := {
  tracks_sorted : in_time_order log;
  tracks_past : Forall (λ r, r.2 <= now) log;
  tracks_key : ∀ key, match entries w !! key with
    | Some e => ∃ dropped, of_key log key = dropped ++ stamps e ∧
        Forall (λ s, left_window (window w) now s = true) dropped
    | None => of_key log key = []
    end
}.

Lemma of_key_app (log : list (str * Z)) (r : str * Z) (key : str) :
  of_key (log ++ [r]) key = of_key log key ++ (if decide (r.1 = key) then [r.2] else []).
Proof. unfold of_key. rewrite list.filter_app, fmap_app. cbn. by case_decide. Qed.

Lemma of_key_sorted (log : list (str * Z)) (key : str) : in_time_order log → StronglySorted Z.le (of_key log key).
Proof.
  unfold of_key. induction 1 as [|r log H IH Hall]; [constructor|]. rewrite filter_cons. case_decide; [|done].
  cbn. constructor; [done|]. rewrite list.Forall_forall in Hall. apply list.Forall_forall. intros x (r' & -> & Hr)%list_elem_of_fmap.
  apply list_elem_of_filter in Hr as [_ Hr]. by apply Hall.
Qed.

Lemma tracks_stamps (w : SlidingWindow) (log : list (str * Z)) (now : Z) (key : str) (e : Entry) :
  tracks w log now → entries w !! key = Some e →
  drop_left (window w) now (stamps e) = in_window (window w) now (of_key log key).
Proof.
  intros [Hs _ Hk] E. specialize (Hk key). rewrite E in Hk. destruct Hk as (d & Ed & Hd).
  pose proof (of_key_sorted log key Hs) as Hsort. rewrite Ed in *.
  rewrite in_window_drop by done. apply drop_left_in_window.
  clear -Hsort. induction d as [|x d IH]; [done|]. apply StronglySorted_inv in Hsort as [Hs _]. by apply IH.
Qed.

Lemma tracks_later (w : SlidingWindow) (log : list (str * Z)) (last now : Z) :
  tracks w log last → last <= now → tracks w log now.
Proof.
  intros [Hs Hp Hk] Hle. split; [done| |].
  - eapply list.Forall_impl; [exact Hp|]. cbn. intros; lia.
  - intros key. specialize (Hk key). case_match; [|done]. destruct Hk as (d & Ed & Hd). exists d. split; [done|].
    eapply list.Forall_impl; [exact Hd|]. intros s. by apply left_window_later.
Qed.

Lemma tracks_trimmed (w : SlidingWindow) (log : list (str * Z)) (now : Z) (key : str) (e : Entry) :
  tracks w log now → entries w !! key = Some e → tracks (trimmed w key e now) log now.
Proof.
  intros [Hs Hp Hk] E. unfold trimmed. split; [done..|]. intros k. cbn.
  destruct (decide (k = key)) as [->|]; [|by rewrite lookup_insert_ne; [apply Hk|]].
  rewrite lookup_insert_eq. cbn. specialize (Hk key). rewrite E in Hk. destruct Hk as (d & Ed & Hd).
  destruct (drop_left_suffix (window w) now (stamps e)) as (d' & Ed' & Hd').
  exists (d ++ d'). split; [by rewrite Ed, <- app_assoc, <- Ed'|by apply list.Forall_app].
Qed.

Lemma tracks_record (w : SlidingWindow) (log : list (str * Z)) (now : Z) (key : str) :
  tracks w log now → tracks (record w key now).2 (log ++ [(key, now)]) now.
Proof.
  intros [Hs Hp Hk]. split.
  - apply StronglySorted_snoc; [done|]. exact Hp.
  - apply list.Forall_app. split; [done|]. by repeat constructor.
  - intros k. specialize (Hk k). rewrite of_key_app. cbn [fst snd]. unfold record.
    destruct (decide (key = k)) as [<-|Hne].
    + destruct (entries w !! key) as [e|]; cbn; rewrite lookup_insert_eq; cbn.
      * destruct Hk as (d & -> & Hd). exists d. by rewrite app_assoc.
      * rewrite Hk. by exists [].
    + rewrite app_nil_r. by destruct (entries w !! key) as [e|]; cbn; rewrite lookup_insert_ne.
Qed.

Lemma record_dom (w : SlidingWindow) (key : str) (now : Z) :
  dom (entries (record w key now).2) = dom (entries w) ∪ {[key]}.
Proof. unfold record. destruct (entries w !! key); cbn; rewrite dom_insert_L; set_solver. Qed.

(** One request: the decision of the log, while the client is known or fits. *)
Lemma check_tracks (w : SlidingWindow) (log : list (str * Z)) (last now : Z) (key : str) :
  tracks w log last → last <= now → (1 <= limit w)%nat →
  (entries w !! key = None → size (entries w) < max_keys w)%nat →
  (check w key now).1 = (log_check (limit w) (window w) log key now).1 ∧
  tracks (check w key now).2 (log_check (limit w) (window w) log key now).2 now ∧
  dom (entries (check w key now).2) = dom (entries w) ∪ {[key]}.
Proof.
  intros T0 Hle Hlim Hroom. pose proof (tracks_later _ _ _ _ T0 Hle) as T. unfold check, log_check.
  destruct (entries w !! key) as [e|] eqn:E.
  - rewrite <- (tracks_stamps _ _ _ _ _ T E). pose proof (tracks_trimmed _ _ _ _ _ T E) as Tt.
    assert (dom (entries (trimmed w key e now)) = dom (entries w)) as Edom.
    { cbn. apply dom_insert_lookup_L. by rewrite E. }
    fold (trimmed w key e now). destruct (Nat.leb_spec (limit w) (length (drop_left (window w) now (stamps e)))).
    + cbn. split_and!; [done..|]. change (dom (entries (trimmed w key e now)) = dom (entries w) ∪ {[key]}).
      rewrite Edom. apply elem_of_dom_2 in E. set_solver.
    + split_and!; [|by apply tracks_record|by rewrite record_dom, Edom].
      unfold record, trimmed. cbn. rewrite lookup_insert_eq. cbn. rewrite length_app. cbn.
      do 2 f_equal. lia.
  - specialize (Hroom eq_refl). unfold make_room. rewrite (proj2 (Nat.ltb_lt _ _) Hroom).
    pose proof (tracks_key _ _ _ T key) as Hk. rewrite E in Hk. rewrite Hk. cbn [in_window filter list_filter length].
    cbn [length]. rewrite (proj2 (Nat.leb_gt _ _)) by lia.
    split_and!; [|by apply tracks_record|by rewrite record_dom].
    unfold record. by rewrite E.
Qed.

Lemma size_dom_le (w : SlidingWindow) (clients : gset str) (key : str) :
  dom (entries w) ⊆ clients → key ∈ clients → (size clients <= max_keys w)%nat →
  entries w !! key = None → (size (entries w) < max_keys w)%nat.
Proof.
  intros Hsub Hin Hsize E. rewrite <- size_dom.
  assert (size (dom (entries w)) < size clients)%nat; [|lia].
  apply subset_size. apply not_elem_of_dom in E. set_solver.
Qed.

Lemma checks_track (clients : gset str) (requests : list (str * Z)) :
  in_time_order requests → Forall (λ r, r.1 ∈ clients) requests →
  ∀ (w : SlidingWindow) (log : list (str * Z)) (last : Z),
  tracks w log last → Forall (λ r, last <= r.2) requests → (1 <= limit w)%nat →
  dom (entries w) ⊆ clients → (size clients <= max_keys w)%nat →
  (checks w requests).1 = (log_checks (limit w) (window w) log requests).1.
Proof.
  induction requests as [|[key now] requests IH]; intros Ht Hc w log last T Hl Hlim Hsub Hsize; [done|].
  apply StronglySorted_inv in Ht as [Ht Hafter]. apply list.Forall_cons in Hc as [Hkey Hc], Hl as [Hnow Hl].
  cbn [fst snd] in *.
  destruct (check_tracks w log last now key T Hnow Hlim (size_dom_le w clients key Hsub Hkey Hsize)) as (Ed & T' & Edom).
  pose proof (check_config w key now) as (El & Ew & Em). cbn [checks log_checks].
  destruct (check w key now) as [d w'], (log_check _ _ log key now) as [d' log']. cbn [fst snd] in *. subst d'.
  specialize (IH Ht Hc w' log' now T' Hafter ltac:(lia) ltac:(set_solver) ltac:(lia)).
  rewrite El, Ew in IH.
  destruct (checks w' requests), (log_checks _ _ log' requests). cbn in *. congruence.
Qed.

Lemma limiter_is_log (lim : nat) (t : Z) (keys : nat) (clients : gset str)
    (requests : list (str * Z)) :
  in_time_order requests → Forall (λ r, r.1 ∈ clients) requests → (size clients <= keys)%nat →
  (checks (new_window lim t keys) requests).1 = (log_checks (Nat.max lim 1) t [] requests).1.
Proof.
  intros Ht Hc Hsize.
  assert (∃ first, Forall (λ r, first <= r.2) requests) as [first Hfirst].
  { destruct requests as [|r requests]; [by exists 0|]. exists r.2. apply StronglySorted_inv in Ht as [_ Ht].
    by constructor. }
  apply (checks_track clients requests Ht Hc (new_window lim t keys) [] first); cbn;
    [|done|lia|set_solver|lia].
  split; [constructor|constructor|]. intros key. cbn. by rewrite lookup_empty.
Qed.

(** C37: while no more clients come than the limiter may hold, its decisions are
    those of a limiter that keeps every counted request for good. *)
Theorem limiter_counts_like_a_log (lim : nat) (t : Z) (keys : nat) (clients : gset str)
    (requests : list (str * Z)) :
  in_time_order requests → Forall (λ r, r.1 ∈ clients) requests → (size clients <= keys)%nat →
  (checks (new_window lim t keys) requests).1 = (log_checks (Nat.max lim 1) t [] requests).1.
Proof. apply limiter_is_log. Qed.

(** ** No interval lets more than the limit through *)

(** The instants at which a client's requests were let through. *)
Definition let_through (key : str) (requests : list (str * Z)) (decisions : list Decision) : list Z :=
  (filter (λ rd, rd.1.1 = key ∧ allowed rd.2 = true) (zip requests decisions)).*1.*2.
Definition between (from length : Z) (stamps : list Z) : list Z := filter (λ s, from <= s ∧ s < from + length) stamps.

(** Through the log: what is added is what was let through. *)
Lemma log_checks_added (lim : nat) (t : Z) (requests : list (str * Z)) (log : list (str * Z)) (key : str) :
  of_key (log_checks lim t log requests).2 key =
  of_key log key ++ let_through key requests (log_checks lim t log requests).1.
Proof.
  revert log; induction requests as [|[k now] requests IH]; intros log; cbn [log_checks];
    [by rewrite app_nil_r|].
  unfold log_check. destruct (lim <=? length (in_window t now (of_key log k)))%nat.
  - specialize (IH log). destruct (log_checks lim t log requests) as [ds log']. cbn [fst snd] in *.
    rewrite IH. unfold let_through. cbn [zip zip_with]. rewrite filter_cons, decide_False by (by intros [_ ?]). done.
  - specialize (IH (log ++ [(k, now)])). destruct (log_checks lim t (log ++ [(k, now)]) requests) as [ds log'].
    cbn [fst snd] in *. rewrite IH, of_key_app. unfold let_through. cbn [zip zip_with fst snd].
    rewrite filter_cons, <- app_assoc. f_equal. cbn [fst snd allowed].
    destruct (decide (k = key)); [by rewrite decide_True by done|by rewrite decide_False by (by intros [? _])].
Qed.

Definition interval_ok (lim : nat) (t : Z) (stamps : list Z) : Prop :=
  ∀ from, (length (between from t stamps) <= lim)%nat.

Lemma between_recent (lim : nat) (t now from : Z) (stamps : list Z) :
  Forall (λ s, s <= now) stamps → from <= now → now < from + t →
  (length (between from t stamps) <= length (in_window t now stamps))%nat.
Proof.
  intros Hp H1 H2. unfold between, in_window. induction Hp as [|s stamps Hs Hp IH]; [done|].
  rewrite !filter_cons. destruct (decide (from <= s ∧ s < from + t)) as [Hin|].
  - rewrite decide_True; [cbn; lia|]. unfold left_window, since. apply Z.leb_gt. lia.
  - case_decide; cbn; lia.
Qed.

Lemma of_key_past (log : list (str * Z)) (key : str) (now : Z) :
  Forall (λ r, r.2 <= now) log → Forall (λ s, s <= now) (of_key log key).
Proof.
  intros H. unfold of_key. rewrite list.Forall_forall in H. apply list.Forall_forall.
  intros s (r & -> & Hr)%list_elem_of_fmap. apply list_elem_of_filter in Hr as [_ Hr]. by apply H.
Qed.

Lemma log_checks_interval (lim : nat) (t : Z) (requests : list (str * Z)) (log : list (str * Z)) (key : str) :
  in_time_order requests → (∀ r, r ∈ requests → Forall (λ r', r'.2 <= r.2) log) →
  interval_ok lim t (of_key log key) →
  interval_ok lim t (of_key (log_checks lim t log requests).2 key).
Proof.
  revert log; induction requests as [|[k now] requests IH]; intros log Ht Hp Hok; cbn [log_checks]; [done|].
  apply StronglySorted_inv in Ht as [Ht Hafter]. rewrite list.Forall_forall in Hafter.
  assert (Forall (λ r', r'.2 <= now) log) as Hpast by (apply (Hp (k, now)); left).
  unfold log_check. destruct (Nat.leb_spec lim (length (in_window t now (of_key log k)))) as [Hle|Hlt].
  - specialize (IH log Ht ltac:(intros; apply Hp; by right) Hok).
    by destruct (log_checks lim t log requests).
  - specialize (IH (log ++ [(k, now)]) Ht).
    destruct (log_checks lim t (log ++ [(k, now)]) requests) as [ds log']. apply IH.
    + intros r Hr. apply list.Forall_app. split; [by apply Hp; right|]. repeat constructor. by apply Hafter.
    + rewrite of_key_app. cbn [fst snd]. case_decide; [subst k|by rewrite app_nil_r].
      intros from. unfold between. rewrite list.filter_app, length_app. rewrite filter_cons.
      case_decide as Hin; cbn; [|specialize (Hok from); unfold between in Hok; lia].
      pose proof (between_recent lim t now from (of_key log key)) as Hrec. unfold between in Hrec.
      assert (Forall (λ s, s <= now) (of_key log key)) as Hkey by (by apply of_key_past).
      specialize (Hrec Hkey (proj1 Hin) (proj2 Hin)). lia.
Qed.

(** While clients fit, no interval as long as the window lets more than the
    limit of a client's requests through, wherever it starts. *)
Theorem interval_within_limit (lim : nat) (t : Z) (keys : nat) (clients : gset str)
    (requests : list (str * Z)) (key : str) (from : Z) :
  in_time_order requests → Forall (λ r, r.1 ∈ clients) requests → (size clients <= keys)%nat →
  (length (between from t (let_through key requests (checks (new_window lim t keys) requests).1))
     <= Nat.max lim 1)%nat.
Proof.
  intros Ht Hc Hsize.
  rewrite (limiter_is_log lim t keys clients requests Ht Hc Hsize).
  pose proof (log_checks_added (Nat.max lim 1) t requests [] key) as E. cbn [app] in E.
  change (of_key [] key) with (@nil Z) in E. cbn [app] in E. rewrite <- E.
  apply log_checks_interval; [done|by constructor|]. intros f. cbn. lia.
Qed.

(** ** Who is dropped *)

Lemma sweep_suffix (w : SlidingWindow) (now : Z) (es : gmap str Entry) (order : list (nat * str)) :
  ∃ gone, order = gone ++ (sweep w now es order).2.
Proof.
  revert es; induction order as [|[n k] order IH]; intros es; cbn [sweep]; [by exists []|].
  destruct (idle w now es k); [|by exists []].
  destruct (IH (delete k es)) as (gone & Eg). exists ((n, k) :: gone). by rewrite Eg at 1.
Qed.

Lemma drop_oldest_suffix (bound : nat) (es : gmap str Entry) (order : list (nat * str)) :
  ∃ gone, order = gone ++ (drop_oldest bound es order).2.
Proof.
  revert es; induction order as [|[n k] order IH]; intros es; cbn [drop_oldest]; case_match; try by exists [].
  destruct (IH (delete k es)) as (gone & Eg). exists ((n, k) :: gone). by rewrite Eg at 1.
Qed.

Lemma sorted_app_rel {A} (R : A → A → Prop) (l1 l2 : list A) (x y : A) :
  StronglySorted R (l1 ++ l2) → x ∈ l1 → y ∈ l2 → R x y.
Proof.
  induction l1 as [|z l1 IH]; cbn [app]; intros Hs Hx Hy; [by apply elem_of_nil in Hx|].
  apply StronglySorted_inv in Hs as [Hs Hall]. rewrite list.Forall_forall in Hall.
  apply elem_of_cons in Hx as [->|Hx]; [apply Hall, elem_of_app; by right|by apply IH].
Qed.

(** Of an indexed map and a suffix of its order: what the suffix lost is older. *)
Lemma suffix_older (es es' : gmap str Entry) (gone order : list (nat * str)) (k k' : str) (e e' : Entry) :
  indexed es (gone ++ order) → indexed es' order → es' ⊆ es →
  es !! k = Some e → es' !! k = None → es' !! k' = Some e' → (seq e < seq e')%nat.
Proof.
  intros [Hs Hk] [_ Hk'] Hsub E Enone E'.
  assert ((seq e', k') ∈ order) as I' by (apply Hk'; eauto).
  assert ((seq e, k) ∈ gone) as I.
  { assert ((seq e, k) ∈ gone ++ order) as [|I]%elem_of_app by (apply Hk; eauto); [done|].
    apply Hk' in I as (? & ? & _). congruence. }
  exact (sorted_app_rel _ _ _ _ _ Hs I I').
Qed.

(** The last stamps follow the sequences, none past [now]. *)
Definition last_at (e : Entry) (t : Z) : Prop := list.last (stamps e) = Some t.
Record timed (w : SlidingWindow) (now : Z) : Prop := {
  timed_last : ∀ k e, entries w !! k = Some e → ∃ t, last_at e t ∧ t <= now;
  timed_order : ∀ k e t k' e' t', entries w !! k = Some e → entries w !! k' = Some e' →
    last_at e t → last_at e' t' → (seq e < seq e')%nat → t <= t'
}.

Lemma last_suffix {A} (d l : list A) : l ≠ [] → list.last (d ++ l) = list.last l.
Proof.
  intros Hl. destruct l as [|x l] using rev_ind; [done|].
  by rewrite app_assoc, !last_snoc.
Qed.

Lemma timed_subseteq (w : SlidingWindow) (er : gmap str Entry * list (nat * str)) (now : Z) :
  timed w now → er.1 ⊆ entries w → timed (with_entries w er) now.
Proof.
  intros [Hl Ho] Hsub. split; cbn.
  - intros k e E. apply (Hl k e). by eapply lookup_weaken.
  - intros k e t k' e' t' E E'. apply (Ho k e t k' e' t'); by eapply lookup_weaken.
Qed.

Lemma make_room_dropped (w : SlidingWindow) (now : Z) :
  well_formed w → ∃ er, make_room w now = with_entries w er ∧ er.1 ⊆ entries w.
Proof.
  intros W. unfold make_room. case_match; [exists (entries w, recency w); by destruct w|].
  pose proof (sweep_subseteq w now (entries w) (recency w)) as Hsub1.
  destruct (sweep w now (entries w) (recency w)) as [es order]. cbn in *.
  pose proof (drop_oldest_subseteq (max_keys w) es order) as Hsub2.
  exists (drop_oldest (max_keys w) es order). split; [done|by etrans].
Qed.

Lemma record_timed (w : SlidingWindow) (key : str) (last now : Z) :
  well_formed w → (∀ k e, k ≠ key → entries w !! k = Some e → ∃ t, last_at e t ∧ t <= last) →
  (∀ k e t k' e' t', k ≠ key → k' ≠ key → entries w !! k = Some e → entries w !! k' = Some e' →
    last_at e t → last_at e' t' → (seq e < seq e')%nat → t <= t') →
  last <= now → timed (record w key now).2 now.
Proof.
  intros W Hl Ho Hle.
  assert (∀ k e, entries w !! k = Some e → (seq e < next_seq w)%nat) as Hfresh.
  { intros k e E. pose proof (wf_fresh _ W) as Hf. rewrite list.Forall_forall in Hf.
    apply (Hf (seq e, k)). apply (order_keys _ _ (wf_indexed _ W)). eauto. }
  assert (∃ e, entries (record w key now).2 = <[key := e]> (entries w) ∧ seq e = next_seq w ∧ last_at e now)
    as (e & Ee & Hs & Hlast).
  { unfold record, last_at. destruct (entries w !! key) as [e|]; cbn; eexists; split_and!; try done; cbn.
    by rewrite last_snoc. }
  assert (∀ k e', <[key := e]> (entries w) !! k = Some e' → k = key ∧ e' = e ∨ k ≠ key ∧ entries w !! k = Some e') as Hcase.
  { intros k e' E. destruct (decide (k = key)) as [->|]; [rewrite lookup_insert_eq in E; simplify_eq; by left|].
    rewrite lookup_insert_ne in E by done. by right. }
  split; rewrite Ee.
  - intros k e' [[-> ->]|[Hne E]]%Hcase; [by exists now|].
    destruct (Hl k e' Hne E) as (t & Ht & Htl). exists t. split; [done|lia].
  - intros k1 e1 t1 k2 e2 t2 [[-> ->]|[Hne1 E1]]%Hcase [[-> ->]|[Hne2 E2]]%Hcase L1 L2 Hlt.
    + unfold last_at in *. simplify_eq. lia.
    + specialize (Hfresh _ _ E2). lia.
    + destruct (Hl _ _ Hne1 E1) as (t & Ht & Htl). unfold last_at in *. simplify_eq. lia.
    + exact (Ho _ _ _ _ _ _ Hne1 Hne2 E1 E2 L1 L2 Hlt).
Qed.

Lemma check_timed (w : SlidingWindow) (key : str) (last now : Z) :
  well_formed w → timed w last → last <= now → timed (check w key now).2 now.
Proof.
  intros W [Hl Ho] Hle. unfold check. destruct (entries w !! key) as [e|] eqn:E.
  - fold (trimmed w key e now). pose proof (trimmed_wf w key e now W E) as Wt.
    assert (∀ k e', k ≠ key → entries (trimmed w key e now) !! k = Some e' → entries w !! k = Some e') as Hother
      by (intros k e' Hne; cbn; by rewrite lookup_insert_ne).
    destruct (Nat.leb_spec (limit w) (length (drop_left (window w) now (stamps e)))) as [Hlen|].
    + cbn [snd]. assert (∀ k e1, entries (trimmed w key e now) !! k = Some e1 →
        ∃ e0, entries w !! k = Some e0 ∧ seq e0 = seq e1 ∧ list.last (stamps e0) = list.last (stamps e1)) as Hsame.
      { intros k e1 E1. destruct (decide (k = key)) as [->|Hne]; [|by exists e1; split; [apply Hother|]].
        cbn in E1. rewrite lookup_insert_eq in E1. simplify_eq. exists e. cbn. split_and!; [done..|].
        destruct (drop_left_suffix (window w) now (stamps e)) as (d & Ed & _). rewrite Ed at 1.
        apply last_suffix. pose proof (wf_limit _ W). by destruct (drop_left _ _ _); [cbn in Hlen; lia|]. }
      split.
      * intros k e1 (e0 & E0 & _ & El)%Hsame. destruct (Hl _ _ E0) as (t & Ht & Htl). exists t.
        unfold last_at in *. rewrite <- El. split; [done|lia].
      * intros k1 e1 t1 k2 e2 t2 (f1 & F1 & Q1 & L1)%Hsame (f2 & F2 & Q2 & L2)%Hsame.
        unfold last_at. rewrite <- L1, <- L2, <- Q1, <- Q2. exact (Ho _ _ _ _ _ _ F1 F2).
    + apply (record_timed _ _ last); [done| | |done].
      * intros k e' Hne E'. by apply (Hl k e'), Hother.
      * intros k1 e1 t1 k2 e2 t2 Hne1 Hne2 E1 E2. apply (Ho k1 e1 t1 k2 e2 t2); by apply Hother.
  - destruct (make_room_wf w now W) as [Wr _]. destruct (make_room_dropped w now W) as (er & Er & Hsub).
    destruct (timed_subseteq w er last (Build_timed _ _ Hl Ho) Hsub) as [Hl' Ho']. rewrite <- Er in Hl', Ho'.
    apply (record_timed _ _ last); [done| | |done]; [by eauto|].
    intros k1 e1 t1 k2 e2 t2 _ _. apply Ho'.
Qed.

Lemma checks_timed (requests : list (str * Z)) (w : SlidingWindow) (last now : Z) :
  well_formed w → timed w last → in_time_order requests →
  Forall (λ r, last <= r.2 ∧ r.2 <= now) requests → last <= now →
  well_formed (checks w requests).2 ∧ timed (checks w requests).2 now.
Proof.
  revert w last; induction requests as [|[key at_] requests IH]; intros w last W T Ht Hr Hle; cbn [checks].
  { split; [done|]. destruct T as [Hl Ho]. split; [|done]. intros k e E.
    destruct (Hl k e E) as (t & ? & ?). exists t. split; [done|lia]. }
  apply StronglySorted_inv in Ht as [Ht Hafter]. apply list.Forall_cons in Hr as [[H1 H2] Hr]. cbn [snd] in *.
  pose proof (check_wf w key at_ W) as Wc. pose proof (check_timed w key last at_ W T H1) as Tc.
  destruct (check w key at_) as [d w']. cbn [snd] in *.
  specialize (IH w' at_ Wc Tc Ht). destruct (checks w' requests). apply IH; [|lia].
  rewrite list.Forall_forall in *. intros r Hin. split; [by apply Hafter|by apply Hr].
Qed.

(** To make room the limiter drops whoever was let through longest ago, and
    drops a client still in its window only when no client out of its window is
    left. *)
Theorem room_made_of_the_least_recent (lim : nat) (t : Z) (keys : nat) (requests : list (str * Z)) (now : Z)
    (k k' : str) (e e' : Entry) :
  in_time_order requests → Forall (λ r, 0 <= r.2 ∧ r.2 <= now) requests → 0 <= now →
  let w := (checks (new_window lim t keys) requests).2 in
  entries w !! k = Some e → entries (make_room w now) !! k = None →
  entries (make_room w now) !! k' = Some e' →
  (seq e < seq e')%nat ∧ (idle w now (entries w) k = false → idle w now (entries w) k' = false).
Proof.
  intros Ht Hr Hnow w.
  assert (timed (new_window lim t keys) 0) as T0 by (split; cbn; intros *; by rewrite lookup_empty).
  destruct (checks_timed requests _ 0 now (new_window_wf lim t keys) T0 Ht Hr Hnow) as [W [Hl Ho]].
  fold w in W, Hl, Ho. clearbody w. unfold make_room. case_match; [congruence|].
  pose proof (sweep_indexed w now _ _ (wf_indexed _ W)) as Hi1.
  pose proof (sweep_subseteq w now (entries w) (recency w)) as Hsub1.
  destruct (sweep_suffix w now (entries w) (recency w)) as (gone1 & Eg1).
  destruct (sweep w now (entries w) (recency w)) as [es order]. cbn [fst snd] in *.
  pose proof (drop_oldest_indexed (max_keys w) _ _ Hi1) as Hi2.
  pose proof (drop_oldest_subseteq (max_keys w) es order) as Hsub2.
  destruct (drop_oldest_suffix (max_keys w) es order) as (gone2 & Eg2).
  assert ((drop_oldest (max_keys w) es order).1 ⊆ entries w) as Hsub by by etrans.
  pose proof (wf_indexed _ W) as Hi. rewrite Eg1, Eg2, app_assoc in Hi. cbn.
  intros E Enone E'. pose proof (suffix_older _ _ _ _ _ _ _ _ Hi Hi2 Hsub E Enone E') as Hlt. split; [done|].
  pose proof (lookup_weaken _ _ _ _ E' Hsub) as E'w. unfold idle. rewrite E, E'w. cbn.
  destruct (Hl _ _ E) as (t1 & L1 & _), (Hl _ _ E'w) as (t2 & L2 & _).
  pose proof (Ho _ _ _ _ _ _ E E'w L1 L2 Hlt) as Hle. unfold last_at in *. rewrite L1, L2.
  by apply left_window_mono.
Qed.

(** ** When to come back *)

Lemma drop_left_head (t now s : Z) (stamps : list Z) :
  left_window t now s = true → (length (drop_left t now (s :: stamps)) <= length stamps)%nat.
Proof.
  intros E. cbn [drop_left]. rewrite E. destruct (drop_left_suffix t now stamps) as (d & Ed & _).
  rewrite Ed at 2. rewrite length_app. lia.
Qed.

Lemma drop_left_live (t now s : Z) (stamps rest : list Z) :
  drop_left t now stamps = s :: rest → left_window t now s = false.
Proof.
  induction stamps as [|x stamps IH]; cbn [drop_left]; [done|].
  destruct (left_window t now x) eqn:E; [done|]. by intros [= -> ->].
Qed.

Lemma retry_after_covers (t now later oldest : Z) :
  oldest <= now → left_window t now oldest = false → t <= (2 ^ 64 - 1) * 1000000000 →
  now + retry_after t now oldest * 1000000000 + 1000000 <= later → left_window t later oldest = true.
Proof.
  unfold retry_after, left_window, since. rewrite Z.leb_gt, Z.leb_le. intros Ho Hlive Ht Hlater.
  set (wait := Z.max 0 (t - Z.max 0 (now - oldest))) in *.
  assert (wait <= (2 ^ 64 - 1) * 1000000000 ∧ wait = t - (now - oldest)) as [Hw Ew] by (unfold wait; lia).
  clearbody wait. pose proof (Z.div_mod wait 1000000 ltac:(lia)). pose proof (Z.mod_pos_bound wait 1000000 ltac:(lia)).
  set (millis := wait / 1000000) in *. clearbody millis.
  pose proof (Z.div_mod (millis + 999) 1000 ltac:(lia)). pose proof (Z.mod_pos_bound (millis + 999) 1000 ltac:(lia)).
  set (secs := (millis + 999) / 1000) in *. clearbody secs. lia.
Qed.

Lemma retry_after_enough (w : SlidingWindow) (key : str) (now later : Z) :
  well_formed w → (∀ e, entries w !! key = Some e → Forall (λ s, s <= now) (stamps e)) →
  window w <= (2 ^ 64 - 1) * 1000000000 →
  let (d, w') := check w key now in
  allowed d = false → now + retry_after_secs d * 1000000000 + 1000000 <= later →
  allowed (check w' key later).1 = true.
Proof.
  intros W Hpast Hwin. unfold check at 1. destruct (entries w !! key) as [e|] eqn:E.
  2: { destruct (record (make_room w now) key now) as [d w'] eqn:Er.
       unfold record in Er. destruct (entries (make_room w now) !! key); by simplify_eq/=. }
  specialize (Hpast e eq_refl). pose proof (trimmed_wf w key e now W E) as Wt. fold (trimmed w key e now).
  destruct (Nat.leb_spec (limit w) (length (drop_left (window w) now (stamps e)))) as [Hfull|Hroom].
  2: { destruct (record (trimmed w key e now) key now) as [d w'] eqn:Er.
       unfold record in Er. destruct (entries (trimmed w key e now) !! key); by simplify_eq/=. }
  intros _. cbn [retry_after_secs]. intros Hlater.
  unfold check. change (entries (trimmed w key e now))
    with (<[key := {| stamps := drop_left (window w) now (stamps e); seq := seq e |}]> (entries w)).
  rewrite lookup_insert_eq. cbn [stamps window limit trimmed with_entries].
  pose proof (wf_stamps _ Wt key _ (lookup_insert_eq _ _ _)) as Hlen. cbn in Hlen.
  pose proof (wf_limit _ W) as Hlim.
  destruct (drop_left (window w) now (stamps e)) as [|oldest kept] eqn:Ek; [cbn in Hfull; lia|].
  assert (oldest <= now) as Hold.
  { destruct (drop_left_suffix (window w) now (stamps e)) as (gone & Eg & _). rewrite Ek in Eg.
    rewrite Eg in Hpast. apply list.Forall_app in Hpast as [_ Hpast]. by apply list.Forall_cons in Hpast as [? _]. }
  assert (left_window (window w) later oldest = true) as Hgone
    by exact (retry_after_covers _ _ _ _ Hold (drop_left_live _ _ _ _ _ Ek) Hwin Hlater).
  pose proof (drop_left_head (window w) later oldest kept Hgone) as Hshort.
  rewrite (proj2 (Nat.leb_gt _ _)) by (cbn in *; lia).
  unfold record. cbn. by rewrite lookup_insert_eq.
Qed.

(** A refused client that comes back when the answer says, and a millisecond
    more, is let through. *)
Theorem retry_after_is_enough (w : SlidingWindow) (key : str) (now later : Z) :
  well_formed w → (∀ e, entries w !! key = Some e → Forall (λ s, s <= now) (stamps e)) →
  window w <= (2 ^ 64 - 1) * 1000000000 →
  allowed (check w key now).1 = false →
  now + retry_after_secs (check w key now).1 * 1000000000 + 1000000 <= later →
  allowed (check (check w key now).2 key later).1 = true.
Proof.
  intros W Hpast Hwin. pose proof (retry_after_enough w key now later W Hpast Hwin) as H.
  by destruct (check w key now).
Qed.

(** The answer alone may be short: the milliseconds are cut off before they are
    rounded up to seconds, so a client that waits exactly that long is refused. *)
Lemma retry_after_short :
  let hour := 3600 * 1000000000 in
  let w := (check (new_window 1 hour 10) "a" 0).2 in
  let (d, w') := check w "a" 999999500 in
  d = {| allowed := false; remaining := 0; retry_after_secs := 3599 |} ∧
  allowed (check w' "a" (999999500 + 3599 * 1000000000)).1 = false.
Proof. vm_compute. done. Qed.

(** ** Witnesses *)

Definition three_clients : gset str := {[ "a"; "b"; "c" ]}.
Definition busy : list (str * Z) :=
  [("a" : str, 0); ("b" : str, 1); ("a" : str, 2); ("a" : str, 3); ("c" : str, 9); ("a" : str, 11)].

Lemma busy_in_order : in_time_order busy.
Proof. unfold in_time_order, busy. repeat constructor; cbn; lia. Qed.
Lemma busy_clients : Forall (λ r, r.1 ∈ three_clients) busy.
Proof. unfold busy, three_clients. repeat constructor; cbn; set_solver. Qed.

Lemma limiter_counts_like_a_log_witness :
  (checks (new_window 2 10 3) busy).1 = (log_checks 2 10 [] busy).1 ∧
  map allowed (checks (new_window 2 10 3) busy).1 = [true; true; true; false; true; true].
Proof.
  split; [|reflexivity].
  exact (limiter_counts_like_a_log 2 10 3 three_clients busy busy_in_order busy_clients ltac:(vm_compute; lia)).
Defined.
Lemma interval_within_limit_witness :
  (length (between 0 10 (let_through "a" busy (checks (new_window 2 10 3) busy).1)) <= 2)%nat.
Proof.
  exact (interval_within_limit 2 10 3 three_clients busy "a" 0 busy_in_order busy_clients ltac:(vm_compute; lia)).
Defined.
Lemma room_made_of_the_least_recent_witness :
  let w := (checks (new_window 2 10 2) [("a" : str, 0); ("b" : str, 5)]).2 in
  (0 < 1)%nat ∧ (idle w 7 (entries w) "a" = false → idle w 7 (entries w) "b" = false).
Proof.
  apply (room_made_of_the_least_recent 2 10 2 [("a" : str, 0); ("b" : str, 5)] 7 "a" "b"
    {| stamps := [0]; seq := 0 |} {| stamps := [5]; seq := 1 |}); try reflexivity;
    try (repeat constructor; cbn; lia); try lia.
Defined.
Lemma retry_after_is_enough_witness :
  let w := (check (new_window 1 (3600 * 1000000000) 10) "a" 0).2 in
  allowed (check (check w "a" 999999500).2 "a" (999999500 + 3599 * 1000000000 + 1000000)).1 = true.
Proof.
  apply (retry_after_is_enough (check (new_window 1 (3600 * 1000000000) 10) "a" 0).2 "a" 999999500
    (999999500 + 3599 * 1000000000 + 1000000)
    (check_wf _ _ _ (new_window_wf _ _ _))); [|vm_compute; done|vm_compute; done|vm_compute; done].
  intros e [= <-]. repeat constructor; lia.
Defined.

(** ** Clients *)

(** Who a client is: a network holds the addresses that share its prefix; clients
    share a bucket only when they share an address or a /64; and behind trusted
    proxies, nothing a client writes into the forwarded header changes who it is
    taken for. *)
From S2P Require Export RateLimit IpText.
Open Scope N_scope.

(** ** Networks *)

Lemma net_mask_land (width prefix x : N) :
  x < 2 ^ width → prefix <= width →
  N.land x (net_mask width prefix) = N.shiftl (N.shiftr x (width - prefix)) (width - prefix).
Proof.
  intros Hx Hp. unfold net_mask. destruct (N.eqb_spec prefix 0) as [->|Hne].
  - rewrite N.land_0_r, N.sub_0_r, N.shiftr_div_pow2, N.div_small by done. by rewrite N.shiftl_0_l.
  - apply N.bits_inj. intros i. rewrite N.sub_1_r, <- N.ones_equiv, !N.land_spec.
    destruct (N.lt_ge_cases i (width - prefix)) as [Hi|Hi].
    + by rewrite !N.shiftl_spec_low, andb_false_r by done.
    + rewrite !N.shiftl_spec_high', N.shiftr_spec' by done.
      replace (i - (width - prefix) + (width - prefix)) with i by lia.
      destruct (N.lt_ge_cases i width) as [Hw|Hw].
      * rewrite !N.ones_spec_low by lia. by rewrite andb_true_r.
      * rewrite (N.ones_spec_high width i), andb_false_r, andb_false_r by done.
        rewrite <- (N.mod_small x (2 ^ width)), N.mod_pow2_bits_high by done. done.
Qed.

Lemma shiftl_eqb (a b n : N) : (N.shiftl a n =? N.shiftl b n) = (a =? b).
Proof.
  destruct (N.eqb_spec a b) as [->|Hne]; [apply N.eqb_refl|]. apply N.eqb_neq. intros E.
  apply (f_equal (λ x, N.shiftr x n)) in E. by rewrite !N.shiftr_shiftl_l, N.sub_diag, !N.shiftl_0_r in E by done.
Qed.

Lemma canonical_in_range (ip : IpAddr) : in_range ip = true → in_range (to_canonical ip) = true.
Proof.
  destruct ip as [bits|bits]; [done|]. cbn. unfold to_ipv4_mapped. destruct (_ =? _); [|done]. intros _. cbn.
  apply N.ltb_lt. change (2 ^ 32 - 1) with (N.ones 32). rewrite N.land_ones. apply N.mod_lt. lia.
Qed.

(** A network holds exactly the addresses that share its first [prefix] bits,
    an IPv4-mapped IPv6 address counted as the IPv4 address it is; the two
    families never mix. *)
Theorem network_is_its_prefix (net : IpNet) (ip : IpAddr) :
  in_range (net_addr net) = true → in_range ip = true →
  prefix net <= (if is_ipv4 (net_addr net) then 32 else 128) →
  net_contains net ip =
  match net_addr net, to_canonical ip with
  | V4 n, V4 a => N.shiftr n (32 - prefix net) =? N.shiftr a (32 - prefix net)
  | V6 n, V6 a => N.shiftr n (128 - prefix net) =? N.shiftr a (128 - prefix net)
  | _, _ => false
  end.
Proof.
  intros Hn Ha%canonical_in_range Hp. unfold net_contains.
  destruct (net_addr net) as [n|n], (to_canonical ip) as [a|a]; cbn in *; try done;
    apply N.ltb_lt in Hn, Ha; by rewrite !net_mask_land, shiftl_eqb.
Qed.

(** A network written in the IPv4-mapped form of IPv6 is taken, and holds nobody. *)
Lemma mapped_network_holds_nobody (net : IpNet) (ip : IpAddr) (n v4 : N) :
  net_addr net = V6 n → n < 2 ^ 128 → to_ipv4_mapped n = Some v4 → 96 <= prefix net <= 128 →
  in_range ip = true → net_contains net ip = false.
Proof.
  intros En Hn Hm Hp Ha%canonical_in_range. unfold net_contains. rewrite En.
  destruct (to_canonical ip) as [a|a] eqn:Ea; [done|]. cbn in Ha. apply N.ltb_lt in Ha.
  rewrite !net_mask_land, shiftl_eqb by (done || lia). apply N.eqb_neq. intros E.
  assert (N.shiftr n 32 = N.shiftr a 32) as E32.
  { replace 32 with (128 - prefix net + (32 - (128 - prefix net))) by lia. by rewrite <- !N.shiftr_shiftr, E. }
  destruct ip as [x|x]; [done|]. cbn in Ea. unfold to_ipv4_mapped in *.
  destruct (N.eqb_spec (N.shiftr n 32) 65535) as [H1|]; [|done].
  destruct (N.eqb_spec (N.shiftr x 32) 65535) as [|H2]; [done|]. injection Ea as <-. congruence.
Qed.
Example mapped_network_taken :
  parse_net "::ffff:10.0.0.0/104" = Some {| net_addr := V6 281470849515520; prefix := 104 |} ∧
  net_contains {| net_addr := V6 281470849515520; prefix := 104 |} (V4 167772161) = false.
Proof. vm_compute. done. Qed.

(** ** Buckets *)

Lemma dec_N_no_slash (n : N) : n <= 255 → 47 ∉ dec_N n.
Proof.
  intros _. destruct (dec_N_spec n) as [Hd _]. rewrite forallb_forall in Hd.
  intros Hin%list_elem_of_In. by apply Hd in Hin.
Qed.
Lemma show_ipv4_no_slash (bits : N) : 47 ∉ show_ipv4 bits.
Proof.
  unfold show_ipv4. pose proof (octets_bounded bits) as B.
  induction B as [|o os Ho B IH]; cbn [map]; [apply not_elem_of_nil|].
  destruct os as [|o' os]; [by apply dec_N_no_slash|]. cbn [map] in *.
  rewrite join_cons by done. rewrite !not_elem_of_app. split_and!; [by apply dec_N_no_slash| |done].
  change ("." : str) with [46]. intros [|[]%elem_of_nil]%elem_of_cons. done.
Qed.

Lemma bucket_mask (bits : N) : bits < 2 ^ 128 →
  N.land bits (N.shiftl (2 ^ 64 - 1) 64) = N.shiftl (N.shiftr bits 64) 64.
Proof. intros H. exact (net_mask_land 128 64 bits H ltac:(lia)). Qed.

Lemma masked_in_range (bits : N) : bits < 2 ^ 128 → N.shiftl (N.shiftr bits 64) 64 < 2 ^ 128.
Proof.
  intros H. rewrite N.shiftl_mul_pow2, N.shiftr_div_pow2.
  pose proof (N.Div0.mul_div_le bits (2 ^ 64)). lia.
Qed.

(** Two clients are counted together exactly when they are one IPv4 address,
    or two IPv6 addresses of one /64. *)
Theorem bucket_is_address_or_prefix (a b : IpAddr) :
  in_range a = true → in_range b = true →
  bucket_key a = bucket_key b ↔
  match a, b with
  | V4 x, V4 y => x = y
  | V6 x, V6 y => N.shiftr x 64 = N.shiftr y 64
  | _, _ => False
  end.
Proof.
  assert (∀ x y, bucket_key (V4 x) ≠ bucket_key (V6 y)) as Hmix.
  { intros x y E. apply (show_ipv4_no_slash x). cbn [bucket_key] in E. rewrite E. apply elem_of_app. right. left. }
  destruct a as [x|x], b as [y|y]; cbn [in_range]; intros Ha%N.ltb_lt Hb%N.ltb_lt.
  - split; [|by intros ->]. cbn [bucket_key]. intros E.
    pose proof (parse_show_ip (V4 x) (proj2 (N.ltb_lt _ _) Ha)) as Hx.
    pose proof (parse_show_ip (V4 y) (proj2 (N.ltb_lt _ _) Hb)) as Hy. cbn [show_ip] in *. congruence.
  - split; [by intros E%Hmix|done].
  - split; [by intros E%eq_sym%Hmix|done].
  - cbn [bucket_key]. rewrite !bucket_mask by done. split; [|by intros ->].
    intros E%app_inv_tail.
    pose proof (parse_show_ip (V6 _) (proj2 (N.ltb_lt _ _) (masked_in_range x Ha))) as Hx.
    pose proof (parse_show_ip (V6 _) (proj2 (N.ltb_lt _ _) (masked_in_range y Hb))) as Hy.
    cbn [show_ip] in *. rewrite E, Hy in Hx. injection Hx as Hx. apply N.eqb_eq in Hx.
    rewrite shiftl_eqb in Hx. symmetry. by apply N.eqb_eq.
Qed.

(** ** Forwarded headers *)

Lemma split_go_app (c : char) (a b piece : str) :
  split_go [c] 0 piece (a ++ c :: b) = split_go [c] 0 piece a ++ split_go [c] 0 [] b.
Proof.
  revert piece; induction a as [|x a IH]; intros piece.
  - cbn [app]. unfold split_go at 1. fold split_go. by rewrite starts_with_one, N.eqb_refl.
  - cbn [app]. unfold split_go at 1 2. fold split_go. rewrite !starts_with_one.
    destruct (x =? c); cbn [app length Nat.sub]; by rewrite IH.
Qed.

Lemma forwarded_entries_app (a b : str) :
  forwarded_entries (Some (a ++ "," ++ b)) = forwarded_entries (Some a) ++ forwarded_entries (Some b).
Proof.
  unfold forwarded_entries. cbn [default from_option id]. unfold split. change ("," : str) with [44]. cbn [app].
  by rewrite split_go_app, map_app, list.filter_app.
Qed.

Lemma first_untrusted_app (t : ProxyTrust) (near far : list str) (ip : IpAddr) :
  first_untrusted t near = Some ip → first_untrusted t (near ++ far) = Some ip.
Proof.
  induction near as [|e near IH]; cbn [app first_untrusted]; [done|].
  destruct (parse_ip e) as [a|]; cbn [mbind option_bind]; [|done]. by case_match.
Qed.

(** Whatever a client writes into the forwarded header before the entries
    the proxies append, it is taken for the same address. *)
Theorem forged_entries_change_nothing (t : ProxyTrust) (peer : option IpAddr) (secret : option str)
    (forged honest : str) (ip : IpAddr) :
  forwarded_entries (Some honest) ≠ [] →
  client_ip t peer (Some honest) secret = Some ip →
  client_ip t peer (Some (forged ++ "," ++ honest)) secret = Some ip.
Proof.
  unfold client_ip. destruct (trusts t (to_canonical <$> peer) secret); [|done]. cbn [negb].
  rewrite forwarded_entries_app. destruct (forwarded_entries (Some honest)) as [|e es] eqn:E; [done|]. intros _.
  destruct (forwarded_entries (Some forged) ++ e :: es) as [|x xs] eqn:E'; [by apply app_nil in E' as [_ ?]|].
  rewrite <- E', rev_app_distr. intros H.
  destruct (decide (hops t <= length (rev (e :: es)))%nat) as [Hle|Hgt].
  - rewrite drop_app_le by done. by apply first_untrusted_app.
  - rewrite (drop_ge (rev (e :: es))) in H by lia. done.
Qed.

(** And behind a trusted proxy it is never a trusted address. *)
Lemma client_is_untrusted (t : ProxyTrust) (entries : list str) (ip : IpAddr) :
  first_untrusted t entries = Some ip → in_networks t ip = false.
Proof.
  induction entries as [|e es IH]; cbn [first_untrusted]; [done|].
  destruct (parse_ip e) as [a|]; cbn [mbind option_bind]; [|done].
  case_match eqn:E; [|done]. intros [= <-]. by apply negb_true_iff.
Qed.

(** ** Witnesses *)

Definition private_net : IpNet := {| net_addr := V4 167772160; prefix := 8 |}.
Definition edge_trust : ProxyTrust := {| networks := [private_net]; hops := 0; auth := None |}.

Lemma address_text_read_back_witness :
  parse_ip (show_ip (V6 281470849515521)) = Some (V6 281470849515521).
Proof. exact (address_text_read_back (V6 281470849515521) eq_refl). Defined.
Lemma network_is_its_prefix_witness : net_contains private_net (V6 281470849515521) = true.
Proof.
  transitivity (N.shiftr 167772160 24 =? N.shiftr 167772161 24); [|reflexivity].
  apply (network_is_its_prefix private_net (V6 281470849515521)); [reflexivity|reflexivity|cbn; lia].
Defined.
Lemma bucket_is_address_or_prefix_witness : bucket_key (V6 (2 ^ 100 + 1)) = bucket_key (V6 (2 ^ 100 + 7)).
Proof. apply (bucket_is_address_or_prefix (V6 (2 ^ 100 + 1)) (V6 (2 ^ 100 + 7))); reflexivity. Defined.
Lemma forged_entries_change_nothing_witness :
  client_ip edge_trust (Some (V4 167772161)) (Some "10.9.9.9, evil,203.0.113.7") None = Some (V4 3405803783).
Proof.
  apply (forged_entries_change_nothing edge_trust (Some (V4 167772161)) None "10.9.9.9, evil" "203.0.113.7");
    [discriminate|reflexivity].
Defined.
