(* ===== verification/Naming.v ===== *)
(** The names the Rust side derives from a bluebook's
    ([src/rust/codegen/src/hecks_naming.rs], compiled into the kernel's generated
    crates and the host alike), and the storage names the host's journal builds on
    them ([src/rust/host/core/src/journal.rs]). *)
From S2P Require Export RustText.
Open Scope N_scope.

Section naming.
Context `{U : UnicodeTables}.

(** [demodulise]: the last part that is not empty. *)
Definition demodulise (type_name : str) : str :=
  default [] (list.last (filter (λ part, part ≠ []) (split type_name "::"))).

(** The first [gsub], [([A-Z]+)([A-Z][a-z])] to [\1_\2]: a run of capitals before
    a small letter gives its last to the word that follows.  A run is taken at a
    time, so the length of the text is fuel enough. *)
Fixpoint upper_run (s : str) : str * str :=
  match s with
  | c :: rest => if is_upper c then let (run, tail) := upper_run rest in (c :: run, tail) else ([], s)
  | [] => ([], [])
  end.
Definition is_lower_head (s : str) : bool := match s with c :: _ => is_lower c | [] => false end.
Fixpoint acronym_go (fuel : nat) (s : str) : str :=
  match fuel, s with
  | S f, c :: rest =>
    if is_upper c then
      let (run, tail) := upper_run s in
      if (2 <=? length run)%nat && is_lower_head tail then
        take (length run - 1) run ++ "_" ++ drop (length run - 1) run ++ acronym_go f tail
      else run ++ acronym_go f tail
    else c :: acronym_go f rest
  | _, _ => []
  end.
Definition acronym_boundary (s : str) : str := acronym_go (length s) s.

(** The second, [([a-z\d])([A-Z])] to [\1_\2]. *)
Fixpoint word_go (prev : option char) (s : str) : str :=
  match s with
  | [] => []
  | c :: rest =>
    let boundary := is_upper c && match prev with Some p => is_lower p || is_digit p | None => false end in
    (if boundary then "_" else []) ++ c :: word_go (Some c) rest
  end.
Definition word_boundary (s : str) : str := word_go None s.

(** [ruby_downcase]: each character on its own. *)
Definition ruby_downcase (s : str) : str := to_lowercase s.

(** [snake]; [reference_key]. *)
Definition snake (name : str) : str := ruby_downcase (word_boundary (acronym_boundary name)).
Definition reference_key (type_name : str) : str := snake (demodulise type_name).

(** [storage_name]: the last part of a qualified name, snaked. *)
Definition storage_name (qualified_aggregate : str) : str := snake (last_piece qualified_aggregate "::").
End naming.

(** [ends_in_sibilant], [plural], [singularize]. *)
Definition ends_in_sibilant (word : str) : bool :=
  existsb (ends_with word) ["s" : str; "x" : str; "z" : str; "ch" : str; "sh" : str].
Definition is_vowel (c : char) : bool := existsb (N.eqb c) ("aeiou" : str).
Definition plural (word : str) : str :=
  match rev word with
  | 121 :: c :: _ => if negb (is_vowel c) then removelast word ++ "ies" else
                     if ends_in_sibilant word then word ++ "es" else word ++ "s"
  | _ => if ends_in_sibilant word then word ++ "es" else word ++ "s"
  end.
Definition strip_suffix (s suffix : str) : option str :=
  if ends_with s suffix then Some (take (length s - length suffix) s) else None.
Definition singularize (word : str) : str :=
  let long := (3 <? length word)%nat in
  match (if long then strip_suffix word "ies" else None) with
  | Some stem => stem ++ "y"
  | None =>
    match (if long then strip_suffix word "es" ≫= (λ stem, if ends_in_sibilant stem then Some stem else None)
           else None) with
    | Some stem => stem
    | None =>
      match (if (1 <? length word)%nat then strip_suffix word "s" else None) with
      | Some stem => stem
      | None => word
      end
    end
  end.

Section examples.
#[local] Instance ascii_tables : UnicodeTables := {| debug_printable _ := true; to_lower c := [c] |}.
Example snake_examples :
  map snake ["HTTPServer" : str; "parseHTTPResponse" : str; "Pt2Ex" : str; "SafeDepositBox" : str; "already_snake" : str] =
  ["http_server" : str; "parse_http_response" : str; "pt2_ex" : str; "safe_deposit_box" : str; "already_snake" : str] ∧
  map plural ["City" : str; "Day" : str; "Box" : str; "Branch" : str; "Account" : str] =
  ["Cities" : str; "Days" : str; "Boxes" : str; "Branches" : str; "Accounts" : str] ∧
  storage_name "Banking::SafeDepositBox" = "safe_deposit_box".
Proof. vm_compute. done. Qed.
End examples.

(** ** A snaked name is snaked *)

Section facts.
Context `{U : UnicodeTables}.

Lemma upper_run_none (c : char) (s : str) : is_upper c = false → upper_run (c :: s) = ([], c :: s).
Proof. intros H. cbn. by rewrite H. Qed.

(** Without capitals there is nothing to bound. *)
Definition no_upper (s : str) : Prop := Forall (λ c, is_upper c = false) s.
Lemma acronym_no_upper (s : str) : no_upper s → acronym_boundary s = s.
Proof.
  unfold acronym_boundary. induction 1 as [|c s Hc Hs IH]; [done|]. cbn [length acronym_go]. by rewrite Hc, IH.
Qed.
Lemma word_no_upper (prev : option char) (s : str) : no_upper s → word_go prev s = s.
Proof.
  intros H. revert prev; induction H as [|c s Hc Hs IH]; intros prev; [done|]. cbn [word_go]. by rewrite Hc, IH.
Qed.

(** [snake] settles: where lower-casing leaves no capital and is itself settled,
    snaking a snaked name changes nothing. *)
Lemma snake_idempotent (name : str) :
  (∀ c, (128 <= c) → no_upper (to_lower c) ∧ to_lowercase (to_lower c) = to_lower c) →
  snake (snake name) = snake name.
Proof.
  intros Hlow.
  assert (∀ s, no_upper (to_lowercase s) ∧ to_lowercase (to_lowercase s) = to_lowercase s) as Hs.
  { intros s. induction s as [|c s [IH1 IH2]]; [by split; constructor|]. unfold to_lowercase in *.
    cbn [flat_map]. rewrite flat_map_app, IH2. unfold no_upper in *. rewrite list.Forall_app.
    destruct (N.ltb_spec c 128) as [Hc|Hc].
    - assert (is_upper (ascii_lower c) = false ∧ (ascii_lower c <? 128) = true ∧
              ascii_lower (ascii_lower c) = ascii_lower c) as (H1 & H2 & H3).
      { unfold ascii_lower. destruct (is_upper c) eqn:E; [|by rewrite E; split_and!; [|apply N.ltb_lt|]].
        unfold is_upper in *. apply andb_true_iff in E as [E1%N.leb_le E2%N.leb_le].
        assert (((65 <=? c + 32) && (c + 32 <=? 90)) = false) as ->.
        { apply andb_false_iff. right. apply N.leb_gt. lia. }
        split_and!; [done|apply N.ltb_lt; lia|done]. }
      cbn [flat_map]. rewrite H2, H3. by repeat constructor.
    - destruct (Hlow c Hc) as [H1 H2]. rewrite H2. done. }
  unfold snake at 1. set (x := word_boundary (acronym_boundary name)).
  change (snake name) with (to_lowercase x). destruct (Hs x) as [H1 H2].
  unfold word_boundary. rewrite acronym_no_upper, word_no_upper by done. exact H2.
Qed.
End facts.

(** ** A plural's singular *)

Lemma ends_with_rev (s suffix : str) : ends_with s suffix = starts_with (rev s) (rev suffix).
Proof. done. Qed.

Lemma strip_suffix_own (w suffix : str) : strip_suffix (w ++ suffix) suffix = Some w.
Proof.
  unfold strip_suffix. rewrite ends_with_rev, rev_app_distr, starts_with_app, length_app.
  f_equal. rewrite take_app_le by lia. by rewrite take_ge by lia.
Qed.

(** The endings a plural cannot tell from its own. *)
Definition ambiguous_ending (w : str) : bool :=
  existsb (ends_with w) ["ie" : str; "se" : str; "xe" : str; "ze" : str; "che" : str; "she" : str].

Lemma strip_none (s suffix : str) : ends_with s suffix = false → strip_suffix s suffix = None.
Proof. intros H. unfold strip_suffix. by rewrite H. Qed.

Lemma sibilant_ends (w : str) : ends_in_sibilant w = true → ends_with (w ++ "es") "ies" = false.
Proof.
  unfold ends_in_sibilant. rewrite ends_with_rev, rev_app_distr. cbn [existsb]. rewrite !ends_with_rev.
  change (rev "es" ++ rev w) with (115 :: 101 :: rev w). change (rev "ies") with [115; 101; 105].
  rewrite !starts_with_cons, !N.eqb_refl. cbn [andb]. destruct (rev w) as [|c r]; [done|].
  rewrite starts_with_one. destruct (N.eqb_spec c 105) as [->|]; [|done]. by destruct r.
Qed.

(** An [e] before the plural's [s] is taken off only after a sibilant. *)
Lemma lone_es (w : str) :
  ambiguous_ending w = false →
  strip_suffix (w ++ "s") "es" ≫= (λ stem, if ends_in_sibilant stem then Some stem else None) = None.
Proof.
  unfold ambiguous_ending. cbn [existsb]. rewrite !orb_false_iff, !ends_with_rev.
  intros (_ & Hse & Hxe & Hze & Hche & Hshe & _).
  destruct (strip_suffix (w ++ "s") "es") as [stem|] eqn:E; [|done]. cbn [mbind option_bind].
  assert (w = stem ++ "e") as ->.
  { assert (ends_with (w ++ "s") "es" = true) as Hends by (unfold strip_suffix in E; by case_match).
    rewrite ends_with_rev, rev_app_distr in Hends.
    change (rev "s" ++ rev w) with (115 :: rev w) in Hends. change (rev "es") with [115; 101] in Hends.
    rewrite starts_with_cons, N.eqb_refl in Hends. cbn [andb] in Hends.
    destruct (rev w) as [|c r] eqn:Er; [done|]. rewrite starts_with_one in Hends. apply N.eqb_eq in Hends as ->.
    assert (w = rev r ++ "e") as -> by (rewrite <- (rev_involutive w), Er; done).
    rewrite <- app_assoc in E. change ("e" ++ "s") with ("es" : str) in E. rewrite strip_suffix_own in E. congruence. }
  rewrite rev_app_distr in Hse, Hxe, Hze, Hche, Hshe.
  change (rev "e" ++ rev stem) with (101 :: rev stem) in Hse, Hxe, Hze, Hche, Hshe.
  unfold ends_in_sibilant. cbn [existsb]. rewrite !ends_with_rev.
  change (rev "s") with [115]. change (rev "x") with [120]. change (rev "z") with [122].
  change (rev "ch") with [104; 99]. change (rev "sh") with [104; 115].
  change (rev "se") with [101; 115] in Hse. change (rev "xe") with [101; 120] in Hxe.
  change (rev "ze") with [101; 122] in Hze. change (rev "che") with [101; 104; 99] in Hche.
  change (rev "she") with [101; 104; 115] in Hshe.
  rewrite starts_with_cons, N.eqb_refl in Hse, Hxe, Hze, Hche, Hshe. cbn [andb] in *.
  by rewrite Hse, Hxe, Hze, Hche, Hshe.
Qed.

Lemma singular_es (w : str) : (2 <= length w)%nat → ends_in_sibilant w = true → singularize (w ++ "es") = w.
Proof.
  intros Hlen Hs. unfold singularize. rewrite length_app. change (length "es") with 2%nat.
  rewrite (proj2 (Nat.ltb_lt _ _)) by lia. rewrite (strip_none _ _ (sibilant_ends w Hs)), strip_suffix_own. cbn [mbind option_bind]. by rewrite Hs.
Qed.

Lemma singular_s (w : str) : (1 <= length w)%nat → ambiguous_ending w = false → singularize (w ++ "s") = w.
Proof.
  intros Hlen Hamb. pose proof (lone_es w Hamb) as Hes. unfold singularize. rewrite length_app. change (length "s") with 1%nat.
  rewrite (proj2 (Nat.ltb_lt 1 _)) by lia. rewrite strip_suffix_own, Hes.
  assert (ends_with (w ++ "s") "ies" = false) as Hies.
  { unfold ambiguous_ending in Hamb. cbn [existsb] in Hamb. rewrite orb_false_iff in Hamb. destruct Hamb as [Hie _].
    rewrite ends_with_rev in *. rewrite rev_app_distr. exact Hie. }
  rewrite (strip_none _ _ Hies). by destruct (3 <? _)%nat.
Qed.

Lemma singular_ies (c : char) (r : str) : singularize (removelast (rev (121 :: c :: r)) ++ "ies") = rev (121 :: c :: r).
Proof.
  cbn [rev]. rewrite removelast_last. unfold singularize. rewrite !length_app. cbn [length]. change (length "ies") with 3%nat.
  rewrite (proj2 (Nat.ltb_lt _ _)) by lia. by rewrite strip_suffix_own.
Qed.

(** A word of two letters or more is the singular of its plural, unless it
    ends in [ie], or in an [e] after a sibilant ([House]). *)
Theorem singular_of_plural (w : str) :
  (2 <= length w)%nat → ambiguous_ending w = false → singularize (plural w) = w.
Proof.
  intros Hlen Hamb.
  assert (singularize (if ends_in_sibilant w then w ++ "es" else w ++ "s") = w) as Hrest
    by (destruct (ends_in_sibilant w) eqn:Es; [by apply singular_es|apply singular_s; [lia|done]]).
  unfold plural. destruct (rev w) as [|y [|c r]] eqn:Er; [done|by repeat case_match|].
  destruct (decide (y = 121)) as [->|Hy]; [|by repeat case_match].
  destruct (negb (is_vowel c)); [|done].
  assert (w = rev (121 :: c :: r)) as -> by (by rewrite <- Er, rev_involutive). apply singular_ies.
Qed.
Lemma singular_of_plural_witness :
  singularize (plural "Party") = "Party" ∧ singularize (plural "House") = "Hous".
Proof. split; [exact (singular_of_plural "Party" ltac:(vm_compute; lia) eq_refl)|reflexivity]. Defined.
