(* ===== verification/Serde.v ===== *)
(** The interface of [serde_json::Value], the JSON value the host works with.  The
    library is not part of the repository: the host's definitions take the type
    and its operations from the class [Serde], their theorems what its
    documentation promises from [SerdeLaws], and the tree of [Json.v] is an
    instance of both. *)
From S2P Require Export Json RustText.
From S2P Require Import JsonFacts.

Class Serde (V : Type) := {
  sv_null : V; sv_bool : bool → V; sv_i64 : Z → V; sv_str : str → V; sv_array : list V → V;
  sv_object : V;                               (** [Map::new], as a value *)
  sv_get : V → str → option V;                 (** [Value::get] of a key *)
  sv_insert : V → str → V → V;                 (** [Map::insert], [value[key] = ...] *)
  sv_remove : V → str → V;                     (** [Map::remove] *)
  sv_as_str : V → option str; sv_as_bool : V → option bool; sv_as_array : V → option (list V);
  sv_is_object : V → bool; sv_is_null : V → bool;
  sv_entries : V → list (str * V);             (** [Map::iter]: nothing for another value *)
  sv_text : V → str                            (** [Display]: compact JSON *)
}.

Section operations.
Context {V : Type} `{SV : Serde V}.

(** [json!({ ... })]. *)
Definition sv_obj (fields : list (str * V)) : V := fold_left (λ v '(k, x), sv_insert v k x) fields sv_object.
Definition sv_contains (v : V) (key : str) : bool := match sv_get v key with Some _ => true | None => false end.
(** [.get(key).and_then(Value::as_str)], [as_array]. *)
Definition sv_get_str (v : V) (key : str) : option str := x ← sv_get v key; sv_as_str x.
Definition sv_get_array (v : V) (key : str) : option (list V) := x ← sv_get v key; sv_as_array x.
Definition sv_list (v : V) (key : str) : list V := default [] (sv_get_array v key).
Definition sv_of_option (o : option str) : V := match o with Some s => sv_str s | None => sv_null end.
End operations.

Class SerdeLaws (V : Type) `{SV : Serde V} : Prop := {
  sv_object_is : sv_is_object sv_object = true;
  sv_get_object k : sv_get sv_object k = None;
  sv_insert_is v k x : sv_is_object v = true → sv_is_object (sv_insert v k x) = true;
  sv_get_insert v k x k' : sv_is_object v = true →
    sv_get (sv_insert v k x) k' = if decide (k = k') then Some x else sv_get v k';
  sv_remove_is v k : sv_is_object v = true → sv_is_object (sv_remove v k) = true;
  sv_get_remove v k k' : sv_is_object v = true →
    sv_get (sv_remove v k) k' = if decide (k = k') then None else sv_get v k';
  sv_get_is v k x : sv_get v k = Some x → sv_is_object v = true;
  sv_as_str_str s : sv_as_str (sv_str s) = Some s;
  sv_as_bool_bool b : sv_as_bool (sv_bool b) = Some b;
  sv_as_array_array l : sv_as_array (sv_array l) = Some l;
  sv_str_not_object s : sv_is_object (sv_str s) = false
}.

Section laws.
Context {V : Type} `{SV : Serde V} `{SL : !SerdeLaws V}.

Lemma sv_obj_is (fields : list (str * V)) (v : V) :
  sv_is_object v = true → sv_is_object (fold_left (λ v '(k, x), sv_insert v k x) fields v) = true.
Proof.
  revert v; induction fields as [|[k x] fields IH]; intros v Hv; [done|]. apply IH. by apply sv_insert_is.
Qed.

(** An object literal whose keys differ answers each with its value. *)
Lemma sv_get_obj (fields : list (str * V)) (k : str) :
  NoDup fields.*1 → sv_get (sv_obj fields) k = assoc k fields.
Proof.
  unfold sv_obj. intros Hnd.
  assert (∀ v, sv_is_object v = true → sv_get (fold_left (λ v '(k, x), sv_insert v k x) fields v) k =
    match assoc k fields with Some x => Some x | None => sv_get v k end) as H.
  { revert Hnd. induction fields as [|[k' x] fields IH]; intros Hnd v Hv; cbn [fold_left assoc]; [done|].
    apply list.NoDup_cons in Hnd as [Hin Hnd]. rewrite IH by (done || by apply sv_insert_is).
    rewrite sv_get_insert by done. unfold str_eqb.
    destruct (decide (k' = k)) as [->|Hne].
    - rewrite bool_decide_true by done. by rewrite (proj2 (assoc_None k fields) Hin).
    - by rewrite bool_decide_false by congruence. }
  rewrite H by apply sv_object_is. rewrite sv_get_object. by destruct (assoc k fields).
Qed.
End laws.

(** A field of an object literal. *)
Ltac sv_field := rewrite sv_get_obj by (refine (bool_decide_unpack _ _); vm_compute; exact Logic.I); reflexivity.

(** ** The tree of [Json.v] *)
#[global] Instance json_serde : Serde Json := {|
  sv_null := JNull; sv_bool := JBool; sv_i64 := json_int; sv_str := JStr; sv_array := JArray;
  sv_object := JObject [];
  sv_get := get;
  sv_insert v k x := match v with JObject fields => JObject (put k x fields) | _ => v end;
  sv_remove v k := match v with
    | JObject fields => JObject (List.filter (λ '(k', _), negb (str_eqb k' k)) fields) | _ => v end;
  sv_as_str := as_str; sv_as_bool := as_bool; sv_as_array := as_array;
  sv_is_object v := match v with JObject _ => true | _ => false end;
  sv_is_null v := match v with JNull => true | _ => false end;
  sv_entries v := match v with JObject fields => fields | _ => [] end;
  sv_text := to_json_string
|}.

#[global] Instance json_serde_laws : SerdeLaws Json.
Proof.
  split; try done.
  - by intros [] k x.
  - intros [fields| | | | | |] k x k' H; try discriminate H. cbn. rewrite assoc_put.
    destruct (decide (k = k')) as [->|]; [by rewrite bool_decide_true|by rewrite bool_decide_false by congruence].
  - by intros [] k.
  - intros [fields| | | | | |] k k' H; try discriminate H. clear H. cbn.
    induction fields as [|[j y] fields IH]; [by destruct (decide _)|]. cbn [List.filter]. unfold str_eqb in *.
    destruct (bool_decide_reflect (j = k)) as [->|Hj]; cbn [negb assoc]; unfold str_eqb.
    + rewrite IH. destruct (decide (k = k')) as [->|]; [done|]. by rewrite bool_decide_false by congruence.
    + destruct (decide (k = k')) as [->|].
      * rewrite bool_decide_false by congruence. exact IH.
      * destruct (bool_decide (k' = j)); [done|exact IH].
  - by intros [] k x.
Qed.
