(* ===== verification/ExprText.v ===== *)
(** The text of a rule, parsed ([src/rust/parser/src/expr/mod.rs], [evaluator.rs],
    [resolver.rs]): a predicate is split at its loosest top-level operator, a value at
    its last binary operator or by how it ends, and a block's body is a predicate
    again.  The sources work on bytes and every mark they look for is ASCII, so the
    characters here stand at the same places.  What is around a mark is returned
    instead of its index.

    Each parser calls itself on shorter texts: [resolver_parse] and [evaluator_parse]
    take turns, and [OutOfTurns] is no answer of the source ([ExprTextFacts] says how
    many are enough).  [Panics] is the source's panic on an integer past 64 bits. *)
From S2P Require Export Float64 Naming.
Open Scope Z_scope.

(** ** [Operator], [OPERATORS], [find_operator] *)
Record Operator := { symbol : str; compares_less_than : bool; compares_equal : bool; op_negated : bool }.
Definition OPERATORS : list Operator := [
  {| symbol := ">="; compares_less_than := true; compares_equal := false; op_negated := true |};
  {| symbol := "<="; compares_less_than := true; compares_equal := true; op_negated := false |};
  {| symbol := "<"; compares_less_than := true; compares_equal := false; op_negated := false |};
  {| symbol := ">"; compares_less_than := true; compares_equal := true; op_negated := true |};
  {| symbol := "=="; compares_less_than := false; compares_equal := true; op_negated := false |};
  {| symbol := "!="; compares_less_than := false; compares_equal := true; op_negated := true |}].
Definition find_operator (s : str) : option Operator := find (λ op, str_eqb (symbol op) s) OPERATORS.

(** ** [Resolver], [Evaluator] *)
Inductive BlockMode := All | Any | NoneOf.
Definition json_name (m : BlockMode) : str := match m with All => "all" | Any => "any" | NoneOf => "none" end.

Inductive Resolver :=
| IntegerLiteral (v : Z)
| FloatLiteral (v : f64)
| StringLiteral (v : str)
| BoolLiteral (v : bool)
| NilLiteral
| Addition (l r : Resolver)
| Subtraction (l r : Resolver)
| Multiplication (l r : Resolver)
| Division (l r : Resolver)
| SignTest (operator : Operator) (receiver : Resolver)
| Empty (receiver : Resolver)
| ToS (receiver : Resolver)
| Modulo (receiver divisor : Resolver)
| Size (receiver : Resolver)
| Lookup (path : str)
| ArrayLiteral (elements : list Resolver)
| BlockPredicate (mode : BlockMode) (receiver : Resolver) (param : str) (predicate : Evaluator)
| MatchesRegex (receiver : Resolver) (pattern flags : str)
| Presence (receiver : Resolver) (negated : bool)
| Assignment (receiver : Resolver) (negated : bool)
| Split (receiver : Resolver) (separator : str)
| Strip (receiver : Resolver) (side : str)
| First (receiver : Resolver)
| Last (receiver : Resolver)
| StartsWith (receiver : Resolver) (substring : str)
| EndsWith (receiver : Resolver) (substring : str)
| Find (receiver : Resolver) (param : str) (predicate : Evaluator) (path : list str)
| Sum (receiver : Resolver) (param : str) (predicate : Evaluator)
with Evaluator :=
| Or (l r : Evaluator)
| And (l r : Evaluator)
| Not (inner : Evaluator)
| Compare (operator : Operator) (left right : Resolver)
| Include (haystack needle : Resolver)
| Resolve (expr : Resolver).

(** ** Texts *)

(** [str::trim]; ASCII's white space, letters and digits. *)
Definition trim (s : str) : str := trim_both is_whitespace s.
Definition ascii_space (c : char) : bool := ((c =? 9) || (c =? 10) || (c =? 12) || (c =? 13) || (c =? 32))%N.
Definition ascii_alphanumeric (c : char) : bool := is_digit c || is_upper c || is_lower c.
Definition word_char (c : char) : bool := ascii_alphanumeric c || (c =? 95)%N.
Definition is_quote (c : char) : bool := ((c =? 34) || (c =? 39))%N.
Definition one_of (marks : str) (c : char) : bool := existsb (N.eqb c) marks.
(** What is between the first and the last character. *)
Definition inside (s : str) : str := rev (tail (rev (tail s))).
Definition enclosed (open close : char) (s : str) : bool := starts_with s [open] && ends_with s [close].

(** [str::rfind] of a text: what is before and after its last place. *)
Fixpoint rsplit_at (s marker : str) : option (str * str) :=
  match s with
  | [] => None
  | c :: rest =>
    match rsplit_at rest marker with
    | Some (before, after) => Some (c :: before, after)
    | None => if starts_with s marker then Some ([], drop (length marker) s) else None
    end
  end.

(** [top_level_index]: the first place outside quotes and brackets that [accept]
    allows, given what is before it, last character first, and what it begins. *)
Fixpoint top_level (operator : str) (accept : str → str → bool) (depth : Z) (quote : option char) (before s : str) : option (str * str) :=
  match s with
  | [] => None
  | ch :: rest =>
    let go depth quote := top_level operator accept depth quote (ch :: before) rest in
    match quote with
    | Some q => go depth (if (ch =? q)%N then None else quote)
    | None =>
      if is_quote ch then go depth (Some ch)
      else if one_of "({" ch then go (depth + 1) None
      else if one_of ")}" ch then go (depth - 1) None
      else if (depth =? 0) && starts_with s operator && accept before s then Some (rev before, drop (length operator) s)
      else go depth None
    end
  end.

(** [strip_parens]: every pair that spans the whole; quotes are not told apart. *)
Fixpoint closes_early (depth : Z) (chars : str) : bool :=
  match chars with
  | [] | [_] => false
  | c :: rest =>
    let depth := if (c =? 40)%N then depth + 1 else depth in
    let depth := if (c =? 41)%N then depth - 1 else depth in
    (depth =? 0) || closes_early depth rest
  end.
Fixpoint strip_parens_go (turns : nat) (expr : str) : str :=
  let expr := trim expr in
  match turns with
  | O => expr
  | S turns => if enclosed 40 41 expr && negb (closes_early 0 expr) then strip_parens_go turns (trim (inside expr)) else expr
  end.
Definition strip_parens (expr : str) : str := strip_parens_go (length expr) expr.

(** ** How a value ends: the matchers of [resolver.rs] *)

(** [strip_suffix_dotted]; [match_suffix] over [SIGN_TESTS]. *)
Definition has_newline (s : str) : bool := existsb (N.eqb 10) s.
Definition strip_suffix_dotted (expr suffix : str) : option str :=
  prefix ← strip_suffix expr ("." ++ suffix);
  if bool_decide (prefix = []) || has_newline prefix then None else Some prefix.
Definition SIGN_TESTS : list (str * str) := [("positive?" : str, ">" : str); ("negative?" : str, "<" : str); ("zero?" : str, "==" : str)].
Fixpoint match_suffix (expr : str) (suffixes : list str) : option (str * str) :=
  match suffixes with
  | [] => None
  | suffix :: rest =>
    match strip_suffix expr ("." ++ suffix) with Some prefix => Some (prefix, suffix) | None => match_suffix expr rest end
  end.
Definition sign_test (expr : str) : option (str * Operator) :=
  '(receiver, test) ← match_suffix expr SIGN_TESTS.*1;
  sign ← assoc test SIGN_TESTS; operator ← find_operator sign; Some (receiver, operator).

(** [is_integer_literal], [is_float_literal], [quoted]. *)
Definition all_digits (s : str) : bool := forallb is_digit s.
Definition nonempty (s : str) : bool := negb (bool_decide (s = [])).
Definition unsigned (expr : str) : str := default expr (strip_prefix expr "-").
Definition is_integer_literal (expr : str) : bool := nonempty (unsigned expr) && all_digits (unsigned expr).
Definition is_float_literal (expr : str) : bool :=
  match split_once (unsigned expr) 46 with
  | Some (int_part, frac_part) => all_digits int_part && nonempty frac_part && all_digits frac_part
  | None => false
  end.
Definition quoted (expr : str) : option str :=
  if (length expr <? 2)%nat then None
  else if enclosed 34 34 expr || enclosed 39 39 expr then Some (inside expr) else None.

(** [array_elements]. *)
Fixpoint split_elements (depth : Z) (quote : option char) (current s : str) : list str :=
  match s with
  | [] => [trim (rev current)]
  | c :: rest =>
    match quote with
    | Some open => split_elements depth (if (c =? open)%N then None else quote) (c :: current) rest
    | None =>
      let quote := if is_quote c then Some c else None in
      let depth := if one_of "[(" c then depth + 1 else if one_of "])" c then depth - 1 else depth in
      if (c =? 44)%N && (depth =? 0) then trim (rev current) :: split_elements depth quote [] rest
      else split_elements depth quote (c :: current) rest
    end
  end.
Definition array_elements (expr : str) : option (list str) :=
  if enclosed 91 93 expr then
    let inner := trim (inside expr) in
    Some (match inner with [] => [] | _ => List.filter nonempty (split_elements 0 None [] inner) end)
  else None.

(** [binary_position], [split_last_binary]; [found] is the last place so far. *)
Definition ends_operand (c : char) : bool := ascii_alphanumeric c || one_of "_)]'" c || (c =? 34)%N.
Definition binary_position (ch : char) (before : str) : bool :=
  if (ch =? 45)%N then
    match find (λ c, negb (ascii_space c)) before with Some c => ends_operand c | None => false end
  else true.
Fixpoint last_binary (operators : str) (depth : Z) (quote : option char) (before : str) (found : option (char * str * str)) (s : str)
    : option (char * str * str) :=
  match s with
  | [] => found
  | ch :: rest =>
    let go depth quote found := last_binary operators depth quote (ch :: before) found rest in
    match quote with
    | Some open => go depth (if (ch =? open)%N then None else quote) found
    | None =>
      if is_quote ch then go depth (Some ch) found
      else if one_of "({[" ch then go (depth + 1) None found
      else if one_of ")}]" ch then go (depth - 1) None found
      else if (depth =? 0) && one_of operators ch && binary_position ch before then go depth None (Some (ch, rev before, rest))
      else go depth None found
    end
  end.
Definition split_last_binary (expr operators : str) : option (char * str * str) :=
  '(operator, before, after) ← last_binary operators 0 None [] None expr; Some (operator, trim before, trim after).

(** [grouped]. *)
Fixpoint closes_at_end (depth : Z) (quote : option char) (s : str) : bool :=
  match s with
  | [] => false
  | c :: rest =>
    match quote with
    | Some open => closes_at_end depth (if (c =? open)%N then None else quote) rest
    | None =>
      if is_quote c then closes_at_end depth (Some c) rest
      else if (c =? 40)%N then closes_at_end (depth + 1) None rest
      else if (c =? 41)%N then
        if depth - 1 =? 0 then bool_decide (rest = []) else closes_at_end (depth - 1) None rest
      else closes_at_end depth None rest
    end
  end.
Definition grouped (expr : str) : bool := enclosed 40 41 expr && closes_at_end 0 None expr.

(** [match_call], [match_regex], [match_string_call]. *)
Definition match_call (expr marker : str) : option (str * str) :=
  if ends_with expr ")" then
    '(receiver, rest) ← rsplit_at expr marker; Some (receiver, rev (tail (rev rest)))
  else None.
Definition match_regex (expr : str) : option (str * str * str) :=
  body ← strip_suffix expr ")"; '(head, flags) ← rsplit_once body 47;
  if forallb is_lower flags then
    '(receiver, pattern) ← rsplit_at head ".match?(/";
    if nonempty receiver then Some (receiver, pattern, flags) else None
  else None.
Definition match_string_call (expr name : str) : option (str * str) :=
  body ← strip_suffix expr (dquote ++ ")"); '(head, argument) ← rsplit_once body 34;
  receiver ← strip_suffix head ("." ++ name ++ "(");
  if bool_decide (receiver = []) || has_newline receiver then None else Some (receiver, argument).

(** ** Blocks: [Opener], [BLOCK_OPENERS], [matching_brace] *)
Inductive Opener := OpensBlock (mode : BlockMode) | OpensFind | OpensSum.
Definition BLOCK_OPENERS : list (str * Opener) :=
  [("all?" : str, OpensBlock All); ("any?" : str, OpensBlock Any); ("none?" : str, OpensBlock NoneOf);
   ("find" : str, OpensFind); ("sum" : str, OpensSum)].

(** What follows an opener's name: the parameter, and the text from its body on. *)
Definition block_head (s : str) : option (str * str) :=
  s ← strip_prefix (trim_start ascii_space s) "{"; s ← strip_prefix (trim_start ascii_space s) "|";
  let (param, s) := span word_char s in
  if nonempty param then s ← strip_prefix s "|"; Some (param, trim_start ascii_space s) else None.
(** The first place past the beginning where the name opens a block. *)
Fixpoint first_opener (marker before s : str) : option (str * (str * str)) :=
  match s with
  | [] => None
  | c :: rest =>
    match (if nonempty before && starts_with s marker then block_head (drop (length marker) s) else None) with
    | Some head => Some (rev before, head)
    | None => first_opener marker (c :: before) rest
    end
  end.
Definition earlier (expr : str) (best : option (str * Opener * str * str)) (opener : str * Opener) : option (str * Opener * str * str) :=
  match first_opener ("." ++ opener.1) [] expr with
  | None => best
  | Some (receiver, (param, body)) =>
    match best with
    | Some (best_receiver, _, _, _) => if (length receiver <? length best_receiver)%nat then Some (receiver, opener.2, param, body) else best
    | None => Some (receiver, opener.2, param, body)
    end
  end.
Definition block_opener (expr : str) : option (str * Opener * str * str) := fold_left (earlier expr) BLOCK_OPENERS None.
Fixpoint matching_brace (depth : Z) (quote : option char) (before s : str) : option (str * str) :=
  match s with
  | [] => None
  | ch :: rest =>
    let go depth quote := matching_brace depth quote (ch :: before) rest in
    match quote with
    | Some q => go depth (if (ch =? q)%N then None else quote)
    | None =>
      if is_quote ch then go depth (Some ch)
      else if (ch =? 123)%N then go (depth + 1) None
      else if (ch =? 125)%N then (if depth - 1 =? 0 then Some (rev before, rest) else go (depth - 1) None)
      else go depth None
    end
  end.

(** ** Parsing *)
Inductive Stop := OutOfTurns | Panics (message : str).

(** The first clause that applies. *)
Notation "'clause' o 'is' p ':->' k 'else' rest" := (match o with Some p => k | None => rest end)
  (at level 200, p pattern, k at level 200, rest at level 200, format "'clause'  o  'is'  p  ':->'  k  'else' '//' rest").

Section parsers.
Context `{U : UnicodeTables}.

Section value.
Context (value : str → result Stop Resolver) (predicate : str → result Stop Evaluator).
Definition one (make : Resolver → Resolver) (inner : str) : result Stop Resolver := let? e := value inner in Ok (make e).
Definition two (make : Resolver → Resolver → Resolver) (before after : str) : result Stop Resolver :=
  let? l := value before in let? r := value after in Ok (make l r).

(** [parse_block_opener]. *)
Definition parse_block_opener (expr : str) : result Stop (option Resolver) :=
  match ('(at_, opener, param, from) ← block_opener expr; '(body, after) ← matching_brace 1 None [] from; Some (at_, opener, param, body, after)) with
  | None => Ok None
  | Some (at_, opener, param, body, after) =>
    let? receiver := value at_ in
    let? test := predicate (trim body) in
    let trailing := trim after in
    Ok (match opener, trailing with
        | OpensSum, [] => Some (Sum receiver param test)
        | OpensFind, [] => Some (Find receiver param test [])
        | OpensFind, 46%N :: path => Some (Find receiver param test (split path "."))
        | OpensBlock mode, [] => Some (BlockPredicate mode receiver param test)
        | _, _ => None
        end)
  end.

(** [resolver::parse], in the order of its clauses: literals, ... *)
Definition value_ends (expr : str) : result Stop Resolver :=
  clause sign_test expr is (receiver, operator) :-> one (SignTest operator) receiver else
  clause strip_suffix_dotted expr "empty?" is inner :-> one Empty inner else
  clause strip_suffix_dotted expr "to_s" is inner :-> one ToS inner else
  clause match_call expr ".modulo(" is (receiver, divisor) :-> two Modulo receiver divisor else
  clause strip_suffix_dotted expr "size" is inner :-> one Size inner else
  clause match_regex expr is (receiver, pattern, flags) :-> one (λ e, MatchesRegex e pattern flags) receiver else
  clause strip_suffix_dotted expr "present?" is inner :-> one (λ e, Presence e false) inner else
  clause strip_suffix_dotted expr "blank?" is inner :-> one (λ e, Presence e true) inner else
  clause strip_suffix_dotted expr "set?" is inner :-> one (λ e, Assignment e false) inner else
  clause strip_suffix_dotted expr "unset?" is inner :-> one (λ e, Assignment e true) inner else
  clause strip_suffix_dotted expr "strip" is inner :-> one (λ e, Strip e "both") inner else
  clause strip_suffix_dotted expr "lstrip" is inner :-> one (λ e, Strip e "left") inner else
  clause strip_suffix_dotted expr "rstrip" is inner :-> one (λ e, Strip e "right") inner else
  clause match_string_call expr "split" is (receiver, separator) :-> one (λ e, Split e separator) receiver else
  clause strip_suffix_dotted expr "first" is inner :-> one First inner else
  clause strip_suffix_dotted expr "last" is inner :-> one Last inner else
  clause match_string_call expr "start_with?" is (receiver, substring) :-> one (λ e, StartsWith e substring) receiver else
  clause match_string_call expr "end_with?" is (receiver, substring) :-> one (λ e, EndsWith e substring) receiver else
  let? block := parse_block_opener expr in
  Ok (default (Lookup expr) block).
(** ..., operators, groups, and then how the text ends. *)
Definition value_operators (expr : str) : result Stop Resolver :=
  clause split_last_binary expr "+-" is (operator, before, after) :-> two (if (operator =? 43)%N then Addition else Subtraction) before after else
  clause split_last_binary expr "*/" is (operator, before, after) :-> two (if (operator =? 42)%N then Multiplication else Division) before after else
  if grouped expr then value (inside expr) else value_ends expr.
Definition value_step (text : str) : result Stop Resolver :=
  let expr := trim text in
  clause strip_suffix_dotted expr "length" is inner :-> one Size inner else
  if is_integer_literal expr then
    match parse_i64 expr with Some v => Ok (IntegerLiteral v) | None => Err (Panics ("bad integer literal " ++ debug_str expr)) end
  else if is_float_literal expr then
    match parse_f64 expr with Some v => Ok (FloatLiteral v) | None => Err (Panics ("bad float literal " ++ debug_str expr)) end
  else clause quoted expr is s :-> Ok (StringLiteral s) else
  if str_eqb expr "true" then Ok (BoolLiteral true)
  else if str_eqb expr "false" then Ok (BoolLiteral false)
  else if str_eqb expr "nil" then Ok NilLiteral
  else clause array_elements expr is elements :-> (let? es := collect_results value elements in Ok (ArrayLiteral es)) else
  value_operators expr.
End value.

(** [split_top_level], [part_of_longer], [split_comparison], [match_include];
    [evaluator::parse]. *)
Definition split_top_level (expr operator : str) : option (str * str) :=
  '(before, after) ← top_level operator (λ _ _, true) 0 None [] expr; Some (trim before, trim after).
Definition part_of_longer (operator before from : str) : bool :=
  (starts_with (drop (length operator) from) "=" && negb (ends_with operator "=")) ||
  (match before with b :: _ => one_of "<>!=" b | [] => false end && starts_with operator "=").
Definition split_comparison (expr operator : str) : option (str * str) :=
  '(before, after) ← top_level operator (λ before from, negb (part_of_longer operator before from)) 0 None [] expr; Some (trim before, trim after).
Fixpoint comparison_of (expr : str) (operators : list Operator) : option (Operator * str * str) :=
  match operators with
  | [] => None
  | op :: rest =>
    match split_comparison expr (symbol op) with Some (before, after) => Some (op, before, after) | None => comparison_of expr rest end
  end.
Definition negation (expr : str) : option str := inner ← strip_prefix expr "!"; if nonempty inner then Some inner else None.
Definition predicate_step (value : str → result Stop Resolver) (predicate : str → result Stop Evaluator) (text : str) : result Stop Evaluator :=
  let expr := strip_parens (trim text) in
  clause split_top_level expr "||" is (before, after) :-> (let? l := predicate before in let? r := predicate after in Ok (Or l r)) else
  clause split_top_level expr "&&" is (before, after) :-> (let? l := predicate before in let? r := predicate after in Ok (And l r)) else
  clause negation expr is inner :-> (let? e := predicate inner in Ok (Not e)) else
  clause match_call expr ".include?(" is (haystack, needle) :->
    (let? h := value haystack in let? n := value needle in Ok (Include h n)) else
  clause comparison_of expr OPERATORS is (operator, before, after) :->
    (let? l := value before in let? r := value after in Ok (Compare operator l r)) else
  let? e := value expr in Ok (Resolve e).

Fixpoint evaluator_parse (value : str → result Stop Resolver) (turns : nat) (expr : str) : result Stop Evaluator :=
  match turns with O => Err OutOfTurns | S turns => predicate_step value (evaluator_parse value turns) expr end.
Fixpoint resolver_parse (turns : nat) (expr : str) : result Stop Resolver :=
  match turns with
  | O => Err OutOfTurns
  | S turns => value_step (resolver_parse turns) (evaluator_parse (resolver_parse turns) turns) expr
  end.
(** The parsers, with a turn for every character and one more. *)
Definition parse_value (expr : str) : result Stop Resolver := resolver_parse (S (length expr)) expr.
Definition parse_predicate (expr : str) : result Stop Evaluator := evaluator_parse (resolver_parse (S (length expr))) (S (length expr)) expr.
End parsers.

(** ** [format_ruby_float] ([ruby_value.rs]); [render_arithmetic] *)
Definition format_ruby_float (value : f64) : str :=
  let text := f64_display value in
  if existsb (contains text) ["." : str; "e" : str; "inf" : str; "NaN" : str] then text else text ++ ".0".
Definition binding_strength (operator : char) : Z := if one_of "*/" operator then 2 else 1.
Definition node_strength (node : Resolver) : Z :=
  match node with Addition _ _ | Subtraction _ _ => 1 | Multiplication _ _ | Division _ _ => 2 | _ => 0 end.
Definition render_side (operator : char) (on_right : bool) (node : Resolver) (text : str) : str :=
  let strength := binding_strength operator in
  let held := node_strength node in
  if negb (held =? 0) && ((held <? strength) || (on_right && (held =? strength))) then "(" ++ text ++ ")" else text.
Fixpoint render_arithmetic (node : Resolver) : option str :=
  let binary l operator r :=
    before ← render_arithmetic l; after ← render_arithmetic r;
    Some (render_side operator false l before ++ " " ++ [operator] ++ " " ++ render_side operator true r after) in
  match node with
  | Addition l r => binary l 43%N r
  | Subtraction l r => binary l 45%N r
  | Multiplication l r => binary l 42%N r
  | Division l r => binary l 47%N r
  | Lookup path => Some path
  | IntegerLiteral n => Some (dec_Z n)
  | FloatLiteral f => Some (format_ruby_float f)
  | _ => None
  end.
Definition arithmetic_text `{U : UnicodeTables} (expr : str) : result Stop (option str) :=
  let? node := parse_value expr in
  Ok (match node with
      | Addition _ _ | Subtraction _ _ | Multiplication _ _ | Division _ _ => render_arithmetic node
      | _ => None
      end).
