(* ===== verification/ExprTextFacts.v ===== *)
(** What is parsed of a rule's text ([ExprText.v]): a turn for every character is
    enough, and an arithmetic expression printed by [render_arithmetic] is read back
    with the grouping it had. *)
From Stdlib Require Import ZifyBool ZifyN.
From S2P Require Export ExprText.
Open Scope Z_scope.

(** ** Pieces are shorter than what they are cut from *)
Create HintDb shorter.
Ltac shorten := repeat first [rewrite length_app in * | rewrite length_rev in * | rewrite length_drop in * | rewrite length_take in * | progress cbn [length tail] in *].

Lemma trim_start_length (p : char → bool) (s : str) : (length (trim_start p s) <= length s)%nat.
Proof. induction s as [|c s IH]; cbn; [lia|]. destruct (p c); cbn; lia. Qed.
Lemma trim_length (s : str) : (length (trim s) <= length s)%nat.
Proof.
  unfold trim, trim_both, trim_end. rewrite length_rev.
  pose proof (trim_start_length is_whitespace (rev (trim_start is_whitespace s))) as H. rewrite length_rev in H.
  pose proof (trim_start_length is_whitespace s). lia.
Qed.
Lemma tail_length {A} (l : list A) : length (tail l) = (length l - 1)%nat.
Proof. destruct l; cbn; lia. Qed.
Lemma inside_length (s : str) : length (inside s) = (length s - 2)%nat.
Proof. unfold inside. rewrite length_rev, tail_length, length_rev, tail_length. lia. Qed.
Lemma starts_with_length (s p : str) : starts_with s p = true → (length p <= length s)%nat.
Proof.
  revert s; induction p as [|x p IH]; intros [|c s]; cbn; try (lia || done).
  intros [_ H]%andb_true_iff. specialize (IH _ H). lia.
Qed.
Lemma ends_with_length (s p : str) : ends_with s p = true → (length p <= length s)%nat.
Proof. unfold ends_with. intros H%starts_with_length. by rewrite !length_rev in H. Qed.
Lemma strip_suffix_length (s p r : str) : strip_suffix s p = Some r → length s = (length r + length p)%nat.
Proof.
  unfold strip_suffix. destruct (ends_with s p) eqn:E; [|done]. intros [= <-]. apply ends_with_length in E. rewrite length_take. lia.
Qed.
Lemma prefix_stripped_length (s p r : str) : strip_prefix s p = Some r → length s = (length r + length p)%nat.
Proof.
  unfold strip_prefix. destruct (starts_with s p) eqn:E; [|done]. intros [= <-]. apply starts_with_length in E. rewrite length_drop. lia.
Qed.
Lemma dotted_length (s p r : str) : strip_suffix_dotted s p = Some r → (length r < length s)%nat.
Proof.
  unfold strip_suffix_dotted. destruct (strip_suffix s _) as [x|] eqn:E; cbn [mbind option_bind]; [|done]. destruct (_ || _); [done|].
  intros [= ->]. apply strip_suffix_length in E. rewrite length_app in E. change (length ".") with 1%nat in E. lia.
Qed.
Lemma rsplit_at_length (s m a b : str) : rsplit_at s m = Some (a, b) → length s = (length a + length m + length b)%nat.
Proof.
  revert a; induction s as [|c s IH]; intros a; cbn [rsplit_at]; [done|].
  destruct (rsplit_at s m) as [[x y]|].
  - intros [= <- <-]. specialize (IH x eq_refl). cbn. lia.
  - destruct (starts_with (c :: s) m) eqn:E; [|done]. intros [= <- <-]. apply starts_with_length in E. rewrite length_drop. cbn [length] in *. lia.
Qed.
Lemma split_once_length (s a b : str) (c : char) : split_once s c = Some (a, b) → length s = S (length a + length b).
Proof. intros ->%split_once_join. rewrite !length_app. cbn. lia. Qed.
Lemma rsplit_once_length (s a b : str) (c : char) : rsplit_once s c = Some (a, b) → length s = S (length a + length b).
Proof.
  unfold rsplit_once. destruct (split_once (rev s) c) as [[x y]|] eqn:E; [|done]. intros [= <- <-].
  apply split_once_length in E. rewrite length_rev in E. rewrite !length_rev. lia.
Qed.
Lemma match_suffix_length (s t r : str) (names : list str) : match_suffix s names = Some (r, t) → (length r < length s)%nat.
Proof.
  induction names as [|n names IH]; [done|]. cbn [match_suffix]. destruct (strip_suffix s _) as [x|] eqn:E; [|exact IH].
  intros [= <- <-]. apply strip_suffix_length in E. rewrite length_app in E. change (length ".") with 1%nat in E. lia.
Qed.
Lemma sign_test_length (s r : str) (op : Operator) : sign_test s = Some (r, op) → (length r < length s)%nat.
Proof.
  unfold sign_test. destruct (match_suffix s _) as [[x t]|] eqn:E; [|done]. cbn [mbind option_bind].
  destruct (assoc t SIGN_TESTS) as [sign|]; [|done]. cbn [mbind option_bind]. destruct (find_operator sign); [|done]. intros [= <- <-]. by eapply match_suffix_length.
Qed.
Lemma match_call_length (s m a b : str) : m ≠ [] → match_call s m = Some (a, b) → (length a < length s ∧ length b < length s)%nat.
Proof.
  intros Hm. unfold match_call. destruct (ends_with s ")"); [|done]. destruct (rsplit_at s m) as [[x y]|] eqn:E; [|done].
  intros [= <- <-]. apply rsplit_at_length in E. rewrite length_rev, tail_length, length_rev. destruct m; [done|]. cbn [length] in E. lia.
Qed.
Lemma match_regex_length (s a p f : str) : match_regex s = Some (a, p, f) → (length a < length s)%nat.
Proof.
  unfold match_regex. destruct (strip_suffix s _) as [body|] eqn:E; [|done]. cbn [mbind option_bind].
  destruct (rsplit_once body 47) as [[h fl]|] eqn:E2; [|done]. cbn [mbind option_bind]. destruct (forallb _ _); [|done].
  destruct (rsplit_at h _) as [[x y]|] eqn:E3; [|done]. cbn [mbind option_bind]. destruct (nonempty x); [|done]. intros [= <- <- <-].
  apply strip_suffix_length in E. apply rsplit_once_length in E2. apply rsplit_at_length in E3. lia.
Qed.
Lemma match_string_call_length (s n a b : str) : match_string_call s n = Some (a, b) → (length a < length s)%nat.
Proof.
  unfold match_string_call. destruct (strip_suffix s _) as [body|] eqn:E; [|done]. cbn [mbind option_bind].
  destruct (rsplit_once body 34) as [[h arg]|] eqn:E2; [|done]. cbn [mbind option_bind].
  destruct (strip_suffix h _) as [x|] eqn:E3; [|done]. cbn [mbind option_bind]. destruct (_ || _); [done|]. intros [= <- <-].
  apply strip_suffix_length in E, E3. apply rsplit_once_length in E2. lia.
Qed.
Lemma top_level_length (op : str) (accept : str → str → bool) (d : Z) (q : option char) (before s a b : str) :
  top_level op accept d q before s = Some (a, b) → (length before + length s = length a + length op + length b)%nat.
Proof.
  revert d q before; induction s as [|c s IH]; intros d q before; cbn [top_level]; [done|].
  destruct q as [q|]; [intros H%IH; cbn [length] in *; lia|].
  destruct (is_quote c); [intros H%IH; cbn [length] in *; lia|]. destruct (one_of "({" c); [intros H%IH; cbn [length] in *; lia|].
  destruct (one_of ")}" c); [intros H%IH; cbn [length] in *; lia|]. destruct (_ && _) eqn:E; [|intros H%IH; cbn [length] in *; lia].
  intros [= <- <-]. apply andb_true_iff in E as [[_ E]%andb_true_iff _]. apply starts_with_length in E.
  rewrite length_rev, length_drop. cbn [length] in *. lia.
Qed.
Lemma split_top_level_length (s op a b : str) : op ≠ [] → split_top_level s op = Some (a, b) → (length a < length s ∧ length b < length s)%nat.
Proof.
  intros Hop. unfold split_top_level. destruct (top_level _ _ _ _ _ s) as [[x y]|] eqn:E; [|done]. intros [= <- <-].
  apply top_level_length in E. pose proof (trim_length x). pose proof (trim_length y). destruct op; [done|]. cbn [length] in E. lia.
Qed.
Lemma comparison_of_length (s a b : str) (op : Operator) (ops : list Operator) :
  Forall (λ op, symbol op ≠ []) ops → comparison_of s ops = Some (op, a, b) → (length a < length s ∧ length b < length s)%nat.
Proof.
  induction ops as [|o ops IH]; [done|]. intros [Ho Hops]%list.Forall_cons. cbn [comparison_of].
  destruct (split_comparison s (symbol o)) as [[x y]|] eqn:E; [|by apply IH]. intros [= <- <- <-].
  unfold split_comparison in E. destruct (top_level _ _ _ _ _ s) as [[u v]|] eqn:Et; [|done]. injection E as <- <-.
  apply top_level_length in Et. pose proof (trim_length u). pose proof (trim_length v). destruct (symbol o); [done|]. cbn [length] in Et. lia.
Qed.
Lemma OPERATORS_marked : Forall (λ op, symbol op ≠ []) OPERATORS.
Proof. by repeat constructor. Qed.
Lemma last_binary_length (ops : str) (d : Z) (q : option char) (before s : str) (found : option (char * str * str)) (op : char) (a b : str) (n : nat) :
  last_binary ops d q before found s = Some (op, a, b) →
  (∀ op a b, found = Some (op, a, b) → (length a + length b < n)%nat) → (length before + length s <= n)%nat → (length a + length b < n)%nat.
Proof.
  revert d q before found; induction s as [|c s IH]; intros d q before found; cbn [last_binary]; [intros H Hf _; by apply (Hf op)|].
  intros H Hf Hl. cbn [length] in Hl. destruct q as [q|]; [apply IH in H; [done..|cbn [length]; lia]|].
  destruct (is_quote c); [apply IH in H; [done..|cbn [length]; lia]|]. destruct (one_of "({[" c); [apply IH in H; [done..|cbn [length]; lia]|].
  destruct (one_of ")}]" c); [apply IH in H; [done..|cbn [length]; lia]|]. destruct (_ && _); [|apply IH in H; [done..|cbn [length]; lia]].
  apply IH in H; [done| |cbn [length]; lia]. intros o x y [= <- <- <-]. rewrite length_rev. lia.
Qed.
Lemma split_last_binary_length (s ops a b : str) (op : char) :
  split_last_binary s ops = Some (op, a, b) → (length a < length s ∧ length b < length s)%nat.
Proof.
  unfold split_last_binary. destruct (last_binary _ _ _ _ _ s) as [[[o x] y]|] eqn:E; [|done]. intros [= <- <- <-].
  eapply (last_binary_length _ _ _ _ _ _ _ _ _ (length s)) in E; [|done|cbn; lia]. pose proof (trim_length x). pose proof (trim_length y). lia.
Qed.
Lemma split_elements_length (d : Z) (q : option char) (current s e : str) :
  e ∈ split_elements d q current s → (length e <= length current + length s)%nat.
Proof.
  revert d q current; induction s as [|c s IH]; intros d q current; cbn [split_elements length].
  - intros ->%list_elem_of_singleton. pose proof (trim_length (rev current)) as H. rewrite length_rev in H. lia.
  - destruct q as [q|]; [intros H%IH; cbn [length] in H; lia|]. destruct (_ && _).
    + intros [->|H%IH]%elem_of_cons; [|cbn [length] in H; lia]. pose proof (trim_length (rev current)) as H. rewrite length_rev in H. lia.
    + intros H%IH; cbn [length] in H; lia.
Qed.
Lemma enclosed_length (o c : char) (s : str) : enclosed o c s = true → (0 < length s)%nat.
Proof. unfold enclosed. destruct s; cbn; [done|lia]. Qed.
Lemma array_elements_length (s : str) (es : list str) : array_elements s = Some es → ∀ e, e ∈ es → (length e < length s)%nat.
Proof.
  unfold array_elements. destruct (enclosed 91 93 s) eqn:E; [|done]. intros [= <-] e. apply enclosed_length in E.
  pose proof (inside_length s) as Hi. pose proof (trim_length (inside s)) as Ht.
  destruct (trim (inside s)) as [|x t] eqn:Et; [by intros ?%elem_of_nil|].
  intros [Hin _]%list_elem_of_In%filter_In. apply list_elem_of_In, split_elements_length in Hin. cbn [length] in Hin, Ht. lia.
Qed.
Lemma spanned_length (p : char → bool) (s a b : str) : span p s = (a, b) → length s = (length a + length b)%nat.
Proof.
  revert a b; induction s as [|c s IH]; intros a b; cbn [span]; [by intros [= <- <-]|].
  destruct (p c); [|by intros [= <- <-]]. destruct (span p s) as [x y]. intros [= <- <-]. specialize (IH x y eq_refl). cbn. lia.
Qed.
Lemma block_head_length (s p b : str) : block_head s = Some (p, b) → (length b < length s)%nat.
Proof.
  unfold block_head. pose proof (trim_start_length ascii_space s).
  destruct (strip_prefix (trim_start ascii_space s) _) as [s1|] eqn:E1; [|done]. cbn [mbind option_bind]. apply prefix_stripped_length in E1.
  pose proof (trim_start_length ascii_space s1). change (length "{") with 1%nat in E1.
  destruct (strip_prefix (trim_start ascii_space s1) _) as [s2|] eqn:E2; [|done]. cbn [mbind option_bind]. apply prefix_stripped_length in E2.
  destruct (span word_char s2) as [x y] eqn:Es. apply spanned_length in Es. destruct (nonempty x); [|done].
  destruct (strip_prefix y _) as [z|] eqn:E3; [|done]. cbn [mbind option_bind]. apply prefix_stripped_length in E3.
  pose proof (trim_start_length ascii_space z). intros [= <- <-]. lia.
Qed.
Lemma first_opener_length (m before s a p b : str) :
  first_opener m before s = Some (a, (p, b)) → (length a + length b < length before + length s)%nat.
Proof.
  revert before; induction s as [|c s IH]; intros before; cbn [first_opener]; [done|].
  destruct (nonempty before && starts_with (c :: s) m); [|intros H%IH; cbn [length] in *; lia].
  destruct (block_head (drop (length m) (c :: s))) as [h|] eqn:E; [|intros H%IH; cbn [length] in *; lia].
  intros [= <- ->]. apply block_head_length in E. rewrite length_drop in E. rewrite length_rev. lia.
Qed.
Lemma block_opener_length (s a p b : str) (o : Opener) : block_opener s = Some (a, o, p, b) → (length a + length b < length s)%nat.
Proof.
  unfold block_opener. assert (∀ openers best, fold_left (earlier s) openers best = Some (a, o, p, b) →
    (∀ a o p b, best = Some (a, o, p, b) → (length a + length b < length s)%nat) → (length a + length b < length s)%nat) as H.
  { induction openers as [|op openers IH]; intros best; cbn [fold_left]; [intros H Hb; by apply (Hb a o p)|].
    intros H Hb. apply (IH _ H). intros a' o' p' b'. unfold earlier.
    destruct (first_opener _ [] s) as [[x [y z]]|] eqn:E; [|by apply Hb]. apply first_opener_length in E. cbn [length] in E.
    destruct best as [[[[u v] w] t]|]; [destruct (_ <? _)%nat; [|by apply Hb]|]; intros [= <- <- <- <-]; lia. }
  intros Hb. by apply (H _ None Hb).
Qed.
Lemma matching_brace_length (d : Z) (q : option char) (before s a b : str) :
  matching_brace d q before s = Some (a, b) → (length a <= length before + length s)%nat.
Proof.
  revert d q before; induction s as [|c s IH]; intros d q before; cbn [matching_brace]; [done|].
  destruct q as [q|]; [intros H%IH; cbn [length] in *; lia|].
  destruct (is_quote c); [intros H%IH; cbn [length] in *; lia|]. destruct (c =? 123)%N; [intros H%IH; cbn [length] in *; lia|].
  destruct (c =? 125)%N; [|intros H%IH; cbn [length] in *; lia]. destruct (_ =? 0); [|intros H%IH; cbn [length] in *; lia].
  intros [= <- <-]. rewrite length_rev. lia.
Qed.
Lemma strip_parens_length (s : str) : (length (strip_parens s) <= length s)%nat.
Proof.
  unfold strip_parens. generalize (length s) at 1 as n. intros n. revert s. induction n as [|n IH]; intros s; cbn [strip_parens_go]; pose proof (trim_length s); [done|].
  destruct (_ && _); [|done]. pose proof (IH (trim (inside (trim s)))). pose proof (trim_length (inside (trim s))). pose proof (inside_length (trim s)). lia.
Qed.
#[export] Hint Resolve dotted_length sign_test_length match_regex_length match_string_call_length : shorter.

(** ** Enough turns *)

(** Two runs that agree, neither out of turns. *)
Definition settled {A} (x y : result Stop A) : Prop := x = y ∧ x ≠ Err OutOfTurns.
Lemma settled_ok {A} (a : A) : settled (Ok a) (Ok a).
Proof. done. Qed.
Lemma settled_bind {A B} (x y : result Stop A) (f g : A → result Stop B) :
  settled x y → (∀ a, settled (f a) (g a)) → settled (let? a := x in f a) (let? a := y in g a).
Proof. intros [<- Hx] Hf. destruct x as [a|e]; [apply Hf|]. split; congruence. Qed.
Lemma settled_collect {A B} (f g : A → result Stop B) (l : list A) :
  (∀ a, a ∈ l → settled (f a) (g a)) → settled (collect_results f l) (collect_results g l).
Proof.
  induction l as [|a l IH]; intros H; [apply settled_ok|]. cbn [collect_results]. apply settled_bind; [apply H; constructor|].
  intros b. apply settled_bind; [|intros bs; apply settled_ok]. apply IH. intros c Hc. by apply H, list_elem_of_further.
Qed.
Create HintDb settles.
#[export] Hint Resolve settled_ok settled_bind settled_collect : settles.

Section settles.
Context `{U : UnicodeTables}.
Context (value value' : str → result Stop Resolver) (predicate predicate' : str → result Stop Evaluator) (n : nat)
  (Hvalue : ∀ t, (length t < n)%nat → settled (value t) (value' t))
  (Hpredicate : ∀ t, (length t < n)%nat → settled (predicate t) (predicate' t)).

Lemma one_settles (make : Resolver → Resolver) (t : str) : (length t < n)%nat → settled (one value make t) (one value' make t).
Proof. intros H. unfold one. auto with settles. Qed.
Lemma two_settles (make : Resolver → Resolver → Resolver) (l r : str) :
  (length l < n)%nat → (length r < n)%nat → settled (two value make l r) (two value' make l r).
Proof. intros Hl Hr. unfold two. auto with settles. Qed.
Lemma clause_settles {A B} (o : option A) (f g : A → result Stop B) (rest rest' : result Stop B) :
  (∀ a, o = Some a → settled (f a) (g a)) → settled rest rest' →
  settled (match o with Some a => f a | None => rest end) (match o with Some a => g a | None => rest' end).
Proof. intros H Hr. destruct o; auto. Qed.
Lemma block_settles (expr : str) : (length expr <= n)%nat →
  settled (parse_block_opener value predicate expr) (parse_block_opener value' predicate' expr).
Proof.
  intros Hn. unfold parse_block_opener. destruct (block_opener expr) as [[[[a o] p] from]|] eqn:E; [|apply settled_ok]. cbn [mbind option_bind].
  destruct (matching_brace 1 None [] from) as [[body after]|] eqn:Eb; [|apply settled_ok]. cbn [mbind option_bind].
  apply block_opener_length in E. apply matching_brace_length in Eb. cbn [length] in Eb. pose proof (trim_length body).
  apply settled_bind; [apply Hvalue; lia|]. intros e. apply settled_bind; [apply Hpredicate; lia|]. intros test. apply settled_ok.
Qed.

Ltac by_length := match goal with
  | H : strip_suffix_dotted _ _ = Some _ |- _ => apply dotted_length in H
  | H : sign_test _ = Some _ |- _ => apply sign_test_length in H
  | H : match_call _ _ = Some _ |- _ => apply match_call_length in H as [? ?]; [|discriminate]
  | H : match_regex _ = Some _ |- _ => apply match_regex_length in H
  | H : match_string_call _ _ = Some _ |- _ => apply match_string_call_length in H
  | H : split_last_binary _ _ = Some _ |- _ => apply split_last_binary_length in H as [? ?]
  end.
Ltac one_clause := apply clause_settles; [let p := fresh in let H := fresh in intros p H; repeat (let x := fresh in destruct p as [p x]); by_length; first [apply one_settles | apply two_settles]; lia|].
Lemma value_ends_settles (expr : str) : (length expr <= n)%nat → settled (value_ends value predicate expr) (value_ends value' predicate' expr).
Proof.
  intros Hn. unfold value_ends. do 18 one_clause. apply settled_bind; [by apply block_settles|]. intros a. apply settled_ok.
Qed.
Lemma value_step_settles (text : str) : (length text <= n)%nat → settled (value_step value predicate text) (value_step value' predicate' text).
Proof.
  intros Hn. unfold value_step. pose proof (trim_length text). one_clause.
  destruct (is_integer_literal _); [destruct (parse_i64 _); [done|by split]|].
  destruct (is_float_literal _); [destruct (parse_f64 _); [done|by split]|].
  destruct (quoted _); [done|]. destruct (str_eqb _ "true"); [done|]. destruct (str_eqb _ "false"); [done|]. destruct (str_eqb _ "nil"); [done|].
  apply clause_settles.
  { intros es He. apply settled_bind; [|intros; apply settled_ok]. apply settled_collect. intros e Hin. apply Hvalue.
    pose proof (array_elements_length _ _ He e Hin). lia. }
  unfold value_operators. do 2 one_clause. destruct (grouped (trim text)) eqn:E; [|apply value_ends_settles; lia].
  apply Hvalue. unfold grouped in E. apply andb_true_iff in E as [E _]. apply enclosed_length in E. pose proof (inside_length (trim text)). lia.
Qed.
Ltac in_turn H := apply settled_bind; [apply H; lia|]; intros ?; apply settled_bind; [apply H; lia|intros; apply settled_ok].
Lemma predicate_step_settles (text : str) :
  (length text <= n)%nat → (∀ t, (length t <= n)%nat → settled (value t) (value' t)) →
  settled (predicate_step value predicate text) (predicate_step value' predicate' text).
Proof.
  intros Hn Hv. unfold predicate_step. pose proof (trim_length text). pose proof (strip_parens_length (trim text)).
  set (expr := strip_parens (trim text)) in *. clearbody expr.
  apply clause_settles; [intros [l r] Hs; apply split_top_level_length in Hs as [? ?]; [|done]; in_turn Hpredicate|].
  apply clause_settles; [intros [l r] Hs; apply split_top_level_length in Hs as [? ?]; [|done]; in_turn Hpredicate|].
  apply clause_settles.
  { intros inner Hi. unfold negation in Hi. destruct (strip_prefix expr "!") as [x|] eqn:E; [|done]. cbn [mbind option_bind] in Hi.
    destruct (nonempty x); [|done]. injection Hi as ->. apply prefix_stripped_length in E. change (length "!") with 1%nat in E.
    apply settled_bind; [apply Hpredicate; lia|intros; apply settled_ok]. }
  apply clause_settles; [intros [l r] Hs; apply match_call_length in Hs as [? ?]; [|done]; in_turn Hvalue|].
  apply clause_settles; [intros [[op l] r] Hs; apply comparison_of_length in Hs as [? ?]; [|apply OPERATORS_marked]; in_turn Hvalue|].
  apply settled_bind; [apply Hv; lia|intros; apply settled_ok].
Qed.
End settles.

Section turns.
Context `{U : UnicodeTables}.
Lemma evaluator_settles (value value' : str → result Stop Resolver) (turns turns' : nat) (text : str) :
  (length text < turns)%nat → (length text < turns')%nat → (∀ t, (length t <= length text)%nat → settled (value t) (value' t)) →
  settled (evaluator_parse value turns text) (evaluator_parse value' turns' text).
Proof.
  revert turns' text; induction turns as [|turns IH]; intros turns' text Hl Hl' Hv; [lia|]. destruct turns' as [|turns']; [lia|].
  cbn [evaluator_parse]. apply predicate_step_settles with (n := length text); [intros t Ht; apply Hv; lia| |done|exact Hv].
  intros t Ht. apply IH; [lia..|]. intros u Hu. apply Hv. lia.
Qed.
Lemma resolver_settles (turns turns' : nat) (text : str) :
  (length text < turns)%nat → (length text < turns')%nat → settled (resolver_parse turns text) (resolver_parse turns' text).
Proof.
  revert turns' text; induction turns as [|turns IH]; intros turns' text Hl Hl'; [lia|]. destruct turns' as [|turns']; [lia|].
  cbn [resolver_parse]. apply value_step_settles with (n := length text); [intros t Ht; apply IH; lia| |done].
  intros t Ht. apply evaluator_settles; [lia..|]. intros u Hu. apply IH; lia.
Qed.
Lemma parse_value_turns (turns : nat) (text : str) : (length text < turns)%nat → resolver_parse turns text = parse_value text.
Proof. intros H. apply resolver_settles; [done|lia]. Qed.
Lemma parse_predicate_turns (turns : nat) (text : str) :
  (length text < turns)%nat → evaluator_parse (resolver_parse turns) turns text = parse_predicate text.
Proof. intros H. apply evaluator_settles; [done|lia|]. intros t Ht. apply resolver_settles; lia. Qed.
End turns.

(** ** Arithmetic is read back *)

(** A text [render_arithmetic] prints: an operand, or operands around operators that
    bind as their strengths say. *)
Definition name_char (c : char) : bool := word_char c || (c =? 46)%N.
Definition operand (text : str) : Prop :=
  ∃ sign body last, text = sign ++ body ∧ (sign = [] ∨ sign = [45%N]) ∧ forallb name_char body = true ∧
    list.last body = Some last ∧ word_char last = true ∧ ends_with text ("." ++ "length") = false.
Definition adds (op : char) : Prop := op = 43%N ∨ op = 45%N.
Definition scales (op : char) : Prop := op = 42%N ∨ op = 47%N.
Definition joins (l : str) (op : char) (r : str) : str := l ++ [32%N; op; 32%N] ++ r.
Inductive written : Z → str → Prop :=
| written_operand t : operand t → written 0 t
| written_group k t : written k t → written 0 ([40%N] ++ t ++ [41%N])
| written_sum op k k' l r : adds op → written k l → written k' r → k' ≠ 1 → written 1 (joins l op r)
| written_product op k l r : scales op → written k l → k ≠ 1 → written 0 r → written 2 (joins l op r).

(** The last character before a place, spaces aside, ends no operand: a minus there is
    a sign. *)
Definition opens (before : str) : Prop := binary_position 45 before = false.
Definition of_operators (ops : str) : Prop := ops = "+-" ∨ ops = "*/".

Lemma word_char_cases (c : char) : word_char c = true → (48 <= c <= 57 ∨ 65 <= c <= 90 ∨ c = 95 ∨ 97 <= c <= 122)%N.
Proof. unfold word_char, ascii_alphanumeric, is_digit, is_upper, is_lower. lia. Qed.
Lemma name_char_cases (c : char) : name_char c = true → (c = 46 ∨ 48 <= c <= 57 ∨ 65 <= c <= 90 ∨ c = 95 ∨ 97 <= c <= 122)%N.
Proof. unfold name_char. intros [H%word_char_cases|H]%orb_true_iff; lia. Qed.
Ltac marks := lazy -[N.eqb N.leb orb andb negb]; lia.

(** Which characters are passed over. *)
Definition passed (ops : str) (c : char) : Prop :=
  is_quote c = false ∧ one_of "({[" c = false ∧ one_of ")}]" c = false ∧ one_of ops c = false.
Lemma name_passed (ops : str) (c : char) : of_operators ops → name_char c = true ∨ c = 32%N → passed ops c.
Proof.
  intros Ho H. assert (c = 32 ∨ c = 46 ∨ 48 <= c <= 57 ∨ 65 <= c <= 90 ∨ c = 95 ∨ 97 <= c <= 122)%N as Hc.
  { destruct H as [H%name_char_cases| ->]; lia. }
  clear H. destruct Ho as [-> | ->]; unfold passed; split_and!; marks.
Qed.
Lemma step_passed (ops : str) (d : Z) (before rest : str) (found : option (char * str * str)) (c : char) :
  passed ops c → last_binary ops d None before found (c :: rest) = last_binary ops d None (c :: before) found rest.
Proof. intros (Hq & Ho & Hc & Hp). cbn [last_binary]. by rewrite Hq, Ho, Hc, Hp, andb_false_r. Qed.
Lemma scan_passed (ops : str) (d : Z) (before t rest : str) (found : option (char * str * str)) :
  Forall (passed ops) t → last_binary ops d None before found (t ++ rest) = last_binary ops d None (rev t ++ before) found rest.
Proof.
  revert before; induction t as [|c t IH]; intros before; [done|]. intros [Hc Ht]%list.Forall_cons. cbn [app]. rewrite step_passed by done.
  rewrite IH by done. cbn [rev]. by rewrite <- app_assoc.
Qed.
Lemma names_passed (ops t : str) : of_operators ops → forallb name_char t = true → Forall (passed ops) t.
Proof. intros Ho H. apply list.Forall_forall. intros c Hc. apply name_passed; [done|]. left. rewrite forallb_forall in H. apply H. by apply list_elem_of_In. Qed.
(** An operator at some depth, or that is a sign. *)
Lemma step_operator_kept (ops : str) (d : Z) (before rest : str) (found : option (char * str * str)) (c : char) :
  adds c ∨ scales c → (d =? 0) = false ∨ binary_position c before = false →
  last_binary ops d None before found (c :: rest) = last_binary ops d None (c :: before) found rest.
Proof.
  intros Hc Hd. cbn [last_binary].
  assert (is_quote c = false ∧ one_of "({[" c = false ∧ one_of ")}]" c = false) as (-> & -> & ->) by (destruct Hc as [[-> | ->]|[-> | ->]]; done).
  destruct Hd as [-> | ->]; [done|]. by rewrite andb_false_r.
Qed.
Lemma step_operator (ops : str) (before rest : str) (found : option (char * str * str)) (c : char) :
  adds c ∨ scales c → binary_position c before = true →
  last_binary ops 0 None before found (c :: rest) =
    last_binary ops 0 None (c :: before) (if one_of ops c then Some (c, rev before, rest) else found) rest.
Proof.
  intros Hc Hd. cbn [last_binary].
  assert (is_quote c = false ∧ one_of "({[" c = false ∧ one_of ")}]" c = false) as (-> & -> & ->) by (destruct Hc as [[-> | ->]|[-> | ->]]; done).
  rewrite Hd, andb_true_r. by destruct (one_of ops c).
Qed.

(** Where a written text begins and ends. *)
Definition bounded (t : str) : Prop :=
  ∃ f l, head t = Some f ∧ list.last t = Some l ∧ (name_char f = true ∨ f = 45%N ∨ f = 40%N) ∧ (word_char l = true ∨ l = 41%N).
Lemma head_app (s t : str) (c : char) : head s = Some c → head (s ++ t) = Some c.
Proof. by destruct s. Qed.
Lemma written_bounded (k : Z) (t : str) : written k t → bounded t.
Proof.
  induction 1 as [t (sign & body & last & -> & Hs & Hc & Hl & Hw & _)|k t _ _|op k k' l r _ _ IHl _ IHr _|op k l r _ _ IHl _ _ IHr].
  - destruct body as [|first body]; [done|]. exists (default first (head sign)), last.
    split_and!; [by destruct Hs as [-> | ->]|by rewrite last_app, Hl| |by left]. cbn in Hc. apply andb_true_iff in Hc as [Hc _]. destruct Hs as [-> | ->]; cbn; auto.
  - exists 40%N, 41%N. split_and!; [done| |by right; right|by right]. by rewrite app_assoc, last_snoc.
  - destruct IHl as (f & _ & Hf & _ & Hw & _), IHr as (_ & z & _ & Hz & _ & Hwz). exists f, z.
    split_and!; [by apply head_app| |done|done]. unfold joins. by rewrite !last_app, Hz.
  - destruct IHl as (f & _ & Hf & _ & Hw & _), IHr as (_ & z & _ & Hz & _ & Hwz). exists f, z.
    split_and!; [by apply head_app| |done|done]. unfold joins. by rewrite !last_app, Hz.
Qed.
(** So it ends an operand, and neither end is white space. *)
Lemma bounded_ends (t before : str) (op : char) : bounded t → adds op ∨ scales op → binary_position op (32%N :: rev t ++ before) = true.
Proof.
  intros (f & l & _ & Hl & _ & Hw) _. unfold binary_position. destruct (op =? 45)%N; [|done].
  apply last_Some in Hl as [init ->]. rewrite rev_app_distr. cbn [rev app find].
  change (negb (ascii_space 32)) with false. cbn iota.
  assert (ascii_space l = false) as -> by (destruct Hw as [Hw%word_char_cases| ->]; marks). cbn [negb].
  destruct Hw as [Hw%word_char_cases| ->]; marks.
Qed.
Lemma trim_start_bounded (t : str) (f : char) : head t = Some f → is_whitespace f = false → trim_start is_whitespace t = t.
Proof. destruct t as [|c t]; [done|]. intros [= ->] Hf. cbn. by rewrite Hf. Qed.
Lemma trim_padded (t before after : str) :
  bounded t → Forall (λ c, c = 32%N) before → Forall (λ c, c = 32%N) after → trim (before ++ t ++ after) = t.
Proof.
  intros (f & l & Hf & Hl & Hwf & Hwl) Hb Ha. unfold trim, trim_both, trim_end.
  assert (∀ s u, Forall (λ c, c = 32%N) s → trim_start is_whitespace (s ++ u) = trim_start is_whitespace u) as Hspaces.
  { induction s as [|c s IH]; intros u; [done|]. intros [-> Hs]%list.Forall_cons. cbn. by apply IH. }
  rewrite Hspaces by done. rewrite (trim_start_bounded (t ++ after) f).
  2: { by apply head_app. } 2: { destruct Hwf as [Hw%name_char_cases|[-> | ->]]; marks. }
  rewrite rev_app_distr, Hspaces by (apply list.Forall_forall; intros c Hc; rewrite list.Forall_forall in Ha; apply Ha, list_elem_of_In, in_rev, list_elem_of_In, Hc).
  rewrite (trim_start_bounded (rev t) l), rev_involutive; [done| |].
  - apply last_Some in Hl as [init ->]. by rewrite rev_app_distr.
  - destruct Hwl as [Hw%word_char_cases| ->]; marks.
Qed.
Lemma trim_written (k : Z) (t : str) : written k t → trim t = t.
Proof. intros H%written_bounded. rewrite <- (app_nil_r t) at 1. by apply (trim_padded t [] []). Qed.

(** Inside brackets nothing is found, and the bracket that closes is the last. *)
Lemma step_open (ops : str) (d : Z) (before rest : str) (found : option (char * str * str)) :
  last_binary ops d None before found (40%N :: rest) = last_binary ops (d + 1) None (40%N :: before) found rest.
Proof. done. Qed.
Lemma step_close (ops : str) (d : Z) (before rest : str) (found : option (char * str * str)) :
  last_binary ops d None before found (41%N :: rest) = last_binary ops (d - 1) None (41%N :: before) found rest.
Proof. done. Qed.
Lemma operand_split (t : str) : operand t → ∃ sign body, t = sign ++ body ∧ (sign = [] ∨ sign = [45%N]) ∧ forallb name_char body = true.
Proof. intros (sign & body & _ & -> & Hs & Hb & _). by exists sign, body. Qed.
Lemma rev_joins (l r before : str) (op : char) : rev (joins l op r) ++ before = rev r ++ 32%N :: op :: 32%N :: rev l ++ before.
Proof. unfold joins. cbn [app]. rewrite !rev_app_distr. cbn [rev]. rewrite <- !app_assoc. done. Qed.
Lemma rev_group (t before : str) : rev ([40%N] ++ t ++ [41%N]) ++ before = 41%N :: rev t ++ 40%N :: before.
Proof. cbn [app rev]. rewrite rev_app_distr. cbn [rev app]. by rewrite <- app_assoc. Qed.
Lemma deep (k d : Z) (t ops before rest : str) (found : option (char * str * str)) :
  written k t → of_operators ops → 0 < d →
  last_binary ops d None before found (t ++ rest) = last_binary ops d None (rev t ++ before) found rest.
Proof.
  intros Hw Hops Hd. assert ((d =? 0) = false) as Hd0 by lia. revert d Hd Hd0 before rest.
  induction Hw as [t Ho|k t _ IH|op k k' l r Hop _ IHl _ IHr _|op k l r Hop _ IHl _ _ IHr]; intros d Hd Hd0 before rest.
  - apply operand_split in Ho as (sign & body & -> & [-> | ->] & Hb); cbn [app].
    + by apply scan_passed, names_passed.
    + rewrite step_operator_kept; [|left; by right|by left]. rewrite scan_passed by by apply names_passed. cbn [rev]. by rewrite <- app_assoc.
  - rewrite rev_group, <- !app_assoc. cbn [app]. rewrite step_open, IH by lia. rewrite step_close.
    by replace (d + 1 - 1) with d by lia.
  - rewrite rev_joins. unfold joins. rewrite <- !app_assoc. cbn [app]. rewrite IHl by done.
    rewrite step_passed by (apply name_passed; auto). rewrite step_operator_kept by auto. rewrite step_passed by (apply name_passed; auto).
    by rewrite IHr.
  - rewrite rev_joins. unfold joins. rewrite <- !app_assoc. cbn [app]. rewrite IHl by done.
    rewrite step_passed by (apply name_passed; auto). rewrite step_operator_kept by auto. rewrite step_passed by (apply name_passed; auto).
    by rewrite IHr.
Qed.

Definition ordinary (c : char) : Prop := is_quote c = false ∧ (c =? 40)%N = false ∧ (c =? 41)%N = false.
Lemma closes_ordinary (d : Z) (t rest : str) : Forall ordinary t → closes_at_end d None (t ++ rest) = closes_at_end d None rest.
Proof.
  induction t as [|c t IH]; [done|]. intros [(Hq & Ho & Hc) Ht]%list.Forall_cons. cbn [app closes_at_end]. rewrite Hq, Ho, Hc. by apply IH.
Qed.
Lemma names_ordinary (t : str) : forallb name_char t = true → Forall ordinary t.
Proof.
  intros H. apply list.Forall_forall. intros c Hc%list_elem_of_In. rewrite forallb_forall in H. apply H, name_char_cases in Hc.
  unfold ordinary. split_and!; marks.
Qed.
Lemma operator_ordinary (op : char) : adds op ∨ scales op → Forall ordinary [32%N; op; 32%N].
Proof. intros [[-> | ->]|[-> | ->]]; repeat constructor. Qed.
Lemma closes_deep (k d : Z) (t rest : str) : written k t → 1 <= d → closes_at_end d None (t ++ rest) = closes_at_end d None rest.
Proof.
  intros Hw. revert d rest. induction Hw as [t Ho|k t _ IH|op k k' l r Hop _ IHl _ IHr _|op k l r Hop _ IHl _ _ IHr]; intros d rest Hd.
  - apply operand_split in Ho as (sign & body & -> & Hs & Hb). apply closes_ordinary, list.Forall_app. split; [|by apply names_ordinary].
    destruct Hs as [-> | ->]; repeat constructor.
  - rewrite <- !app_assoc. cbn [app closes_at_end]. change (is_quote 40) with false. cbn iota. change (40 =? 40)%N with true. cbn iota.
    rewrite IH by lia. cbn [closes_at_end]. change (is_quote 41) with false. cbn iota. change (41 =? 40)%N with false. change (41 =? 41)%N with true. cbn iota.
    replace (d + 1 - 1) with d by lia. assert ((d =? 0) = false) as -> by lia. done.
  - unfold joins. rewrite <- !app_assoc, IHl by done. rewrite closes_ordinary by (apply operator_ordinary; auto). by apply IHr.
  - unfold joins. rewrite <- !app_assoc, IHl by done. rewrite closes_ordinary by (apply operator_ordinary; auto). by apply IHr.
Qed.

(** At the top level an operand and what is in brackets hold no operator, and a product
    none that adds. *)
Definition holds_none (k : Z) (ops : str) : Prop := k = 0 ∨ (k = 2 ∧ ops = "+-").
Lemma opens_after (op : char) (before : str) : adds op ∨ scales op → opens (32%N :: op :: before).
Proof. intros [[-> | ->]|[-> | ->]]; done. Qed.
Lemma top (k : Z) (t ops before rest : str) (found : option (char * str * str)) :
  written k t → of_operators ops → opens before →
  ∃ found', last_binary ops 0 None before found (t ++ rest) = last_binary ops 0 None (rev t ++ before) found' rest ∧
    (holds_none k ops → found' = found).
Proof.
  intros Hw Hops. revert before rest found.
  induction Hw as [t Ho|k t Ht _|op k k' l r Hop Hl IHl Hr IHr Hk|op k l r Hop Hl IHl Hk Hr IHr]; intros before rest found Hb.
  - exists found. split; [|done]. apply operand_split in Ho as (sign & body & -> & [-> | ->] & Hbody); cbn [app].
    + by apply scan_passed, names_passed.
    + rewrite step_operator_kept; [|left; by right|by right]. rewrite scan_passed by by apply names_passed. cbn [rev]. by rewrite <- app_assoc.
  - exists found. split; [|done]. by rewrite rev_group, <- !app_assoc; cbn [app]; rewrite step_open, (deep k), step_close by done.
  - rewrite rev_joins. unfold joins. rewrite <- !app_assoc. cbn [app]. destruct (IHl before (32%N :: op :: 32%N :: r ++ rest) found Hb) as (f1 & -> & _).
    rewrite step_passed by (apply name_passed; auto). rewrite step_operator by (auto || by apply bounded_ends; [by eapply written_bounded|auto]).
    rewrite step_passed by (apply name_passed; auto). set (f2 := if one_of ops op then _ else _).
    destruct (IHr (32%N :: op :: 32%N :: rev l ++ before) rest f2) as (f3 & -> & _); [apply opens_after; auto|].
    exists f3. split; [done|]. intros [?|[? _]]; done.
  - rewrite rev_joins. unfold joins. rewrite <- !app_assoc. cbn [app]. destruct (IHl before (32%N :: op :: 32%N :: r ++ rest) found Hb) as (f1 & -> & Hf1).
    rewrite step_passed by (apply name_passed; auto). rewrite step_operator by (auto || by apply bounded_ends; [by eapply written_bounded|auto]).
    rewrite step_passed by (apply name_passed; auto). set (f2 := if one_of ops op then _ else _).
    destruct (IHr (32%N :: op :: 32%N :: rev l ++ before) rest f2) as (f3 & -> & Hf3); [apply opens_after; auto|].
    exists f3. split; [done|]. intros [?|[_ ->]]; [done|]. rewrite Hf3 by by left. subst f2.
    assert (one_of "+-" op = false) as -> by (by destruct Hop as [-> | ->]). apply Hf1.
    inversion Hl; subst; [by left|by left|done|by right].
Qed.

(** What splits a written text. *)
Lemma split_none (k : Z) (t ops : str) : written k t → of_operators ops → holds_none k ops → split_last_binary t ops = None.
Proof.
  intros Hw Hops Hk. unfold split_last_binary. destruct (top k t ops [] [] None Hw Hops eq_refl) as (f & E & Hf).
  rewrite app_nil_r in E. refine (eq_trans (f_equal (λ x, x ≫= _) E) _). by rewrite (Hf Hk).
Qed.
Lemma split_joined (k k' : Z) (l r ops : str) (op : char) :
  written k l → written k' r → of_operators ops → one_of ops op = true → adds op ∨ scales op → holds_none k' ops →
  split_last_binary (joins l op r) ops = Some (op, l, r).
Proof.
  intros Hl Hr Hops Hin Hop Hk. unfold split_last_binary, joins.
  destruct (top k l ops [] ([32%N; op; 32%N] ++ r) None Hl Hops eq_refl) as (f & -> & _). cbn [app].
  rewrite step_passed by (apply name_passed; auto).
  rewrite step_operator by (auto || by apply bounded_ends; [by eapply written_bounded|auto]). rewrite Hin.
  rewrite step_passed by (apply name_passed; auto).
  destruct (top k' r ops (32%N :: op :: 32%N :: rev l ++ []) [] (Some (op, rev (32%N :: rev l ++ []), 32%N :: r)) Hr Hops) as (f' & E & Hf'); [by apply opens_after|].
  rewrite (app_nil_r r) in E. refine (eq_trans (f_equal (λ x, x ≫= _) E) _). rewrite (Hf' Hk). cbn [last_binary mbind option_bind]. rewrite app_nil_r. cbn [rev]. rewrite rev_involutive.
  apply written_bounded in Hl, Hr. f_equal. f_equal; [f_equal|].
  - apply (trim_padded l [] [32%N]); [done|constructor|by repeat constructor].
  - rewrite <- (app_nil_r r) at 1. apply (trim_padded r [32%N] []); [done|by repeat constructor|constructor].
Qed.

(** None of the clauses before the operators reads a text of several parts. *)
Definition parted (t : str) : Prop := ∃ c, c ∈ t ∧ (c = 32 ∨ c = 40)%N.
Lemma joins_parted (l r : str) (op : char) : parted (joins l op r).
Proof. exists 32%N. split; [|by left]. apply elem_of_app. right. constructor. Qed.
Lemma group_parted (t : str) : parted ([40%N] ++ t ++ [41%N]).
Proof. exists 40%N. split; [constructor|by right]. Qed.
Lemma parted_unsigned (t : str) : parted t → parted (unsigned t).
Proof.
  intros (c & Hin & Hc). exists c. split; [|done]. unfold unsigned, strip_prefix. destruct t as [|x t]; [done|].
  change (starts_with (x :: t) "-") with (((x =? 45)%N && starts_with t [])). destruct (N.eqb_spec x 45) as [->|]; [|done]. 
  destruct t as [|y t]; cbn; (apply elem_of_cons in Hin as [->|Hin]; [lia|done]).
Qed.
Lemma parted_digits (t : str) : parted t → all_digits t = false.
Proof.
  intros (c & Hin & Hc). apply not_true_iff_false. unfold all_digits. rewrite forallb_forall. intros H.
  apply list_elem_of_In, H in Hin. revert Hin. unfold is_digit. lia.
Qed.
Ltac absent := apply (bool_decide_unpack _); vm_compute; exact Logic.I.
Lemma parted_word (t w : str) : parted t → existsb (λ c, (c =? 32) || (c =? 40))%N w = false → str_eqb t w = false.
Proof.
  intros (c & Hin & Hc) Hw. unfold str_eqb. apply bool_decide_eq_false. intros ->. apply not_true_iff_false in Hw. apply Hw.
  apply existsb_exists. exists c. split; [by apply list_elem_of_In|lia].
Qed.
Lemma parted_no_literal (t : str) :
  parted t → is_integer_literal t = false ∧ is_float_literal t = false ∧ str_eqb t "true" = false ∧ str_eqb t "false" = false ∧ str_eqb t "nil" = false.
Proof.
  intros Hp. pose proof (parted_unsigned t Hp) as Hu. split_and!.
  - unfold is_integer_literal. by rewrite parted_digits, andb_false_r.
  - unfold is_float_literal. destruct (split_once (unsigned t) 46) as [[a b]|] eqn:E; [|done]. apply split_once_join in E. rewrite E in Hu.
    destruct Hu as (c & [Hin|[Hin|Hin]%elem_of_app]%elem_of_app & Hc).
    + rewrite parted_digits by (by exists c). done.
    + apply list_elem_of_singleton in Hin. lia.
    + rewrite (parted_digits b) by (by exists c). by rewrite andb_false_r.
  - by apply parted_word.
  - by apply parted_word.
  - by apply parted_word.
Qed.
Lemma bounded_not_enclosed (t : str) (o c : char) : bounded t → (o = 34 ∨ o = 39 ∨ o = 91)%N → enclosed o c t = false.
Proof.
  intros (f & _ & Hf & _ & Hw & _) Ho. unfold enclosed. destruct t as [|x t]; [done|]. injection Hf as ->.
  rewrite starts_with_one. assert ((f =? o)%N = false) as -> by (destruct Hw as [Hw%name_char_cases|[-> | ->]]; lia). done.
Qed.
Lemma starts_before (x y p : str) (c : char) : c ∉ p → starts_with (x ++ c :: y) p = true → starts_with x p = true.
Proof.
  revert x; induction p as [|a p IH]; intros [|b x] Hc; cbn; try done.
  - intros [H _]%andb_true_iff. apply N.eqb_eq in H. subst. exfalso. apply Hc. constructor.
  - intros [Hb H]%andb_true_iff. rewrite Hb. cbn. apply IH; [|done]. intros Hin. apply Hc. by constructor.
Qed.
Lemma written_no_length (k : Z) (t : str) : written k t → ends_with t ("." ++ "length") = false.
Proof.
  induction 1 as [t (sign & body & last & _ & _ & _ & _ & _ & H)|k t _ _|op k k' l r _ _ _ _ IHr _|op k l r _ _ _ _ _ IHr]; [done| | |].
  - unfold ends_with. rewrite app_assoc, rev_app_distr. done.
  - apply not_true_iff_false. intros H. apply not_true_iff_false in IHr. apply IHr. unfold ends_with in *. unfold joins in H.
    rewrite app_assoc, rev_app_distr, rev_app_distr in H. cbn [rev app] in H. eapply starts_before; [|exact H]. absent.
  - apply not_true_iff_false. intros H. apply not_true_iff_false in IHr. apply IHr. unfold ends_with in *. unfold joins in H.
    rewrite app_assoc, rev_app_distr, rev_app_distr in H. cbn [rev app] in H. eapply starts_before; [|exact H]. absent.
Qed.

Section arithmetic.
Context `{U : UnicodeTables}.

(** How the steps read what is written. *)
Lemma value_step_parted (value : str → result Stop Resolver) (predicate : str → result Stop Evaluator) (k : Z) (t : str) :
  written k t → parted t → value_step value predicate t = value_operators value predicate t.
Proof.
  intros Hw Hp. pose proof (written_bounded k t Hw) as Hb. unfold value_step. rewrite (trim_written k) by done.
  destruct (parted_no_literal t Hp) as (-> & -> & Et & Ef & En).
  unfold strip_suffix_dotted, strip_suffix. rewrite (written_no_length k) by done. cbn [mbind option_bind].
  unfold quoted, array_elements. rewrite !bounded_not_enclosed by auto. rewrite Et, Ef, En. by destruct (_ <? _)%nat.
Qed.
Lemma read_sum (value : str → result Stop Resolver) (predicate : str → result Stop Evaluator) (k k' : Z) (l r : str) (op : char) :
  adds op → written k l → written k' r → k' ≠ 1 →
  value_step value predicate (joins l op r) = two value (if (op =? 43)%N then Addition else Subtraction) l r.
Proof.
  intros Hop Hl Hr Hk. rewrite (value_step_parted _ _ 1) by (apply joins_parted || by eapply written_sum). unfold value_operators.
  rewrite (split_joined k k') by (done || auto || (by left) || (by destruct Hop as [-> | ->]) || (inversion Hr; subst; try done; (by left) || by right)). done.
Qed.
Lemma read_product (value : str → result Stop Resolver) (predicate : str → result Stop Evaluator) (k : Z) (l r : str) (op : char) :
  scales op → written k l → k ≠ 1 → written 0 r →
  value_step value predicate (joins l op r) = two value (if (op =? 42)%N then Multiplication else Division) l r.
Proof.
  intros Hop Hl Hk Hr. assert (written 2 (joins l op r)) as Hw by by eapply written_product.
  rewrite (value_step_parted _ _ 2) by (done || apply joins_parted). unfold value_operators.
  rewrite (split_none 2) by (done || (by left) || by right). 
  rewrite (split_joined k 0) by (done || auto || (by right) || (by destruct Hop as [-> | ->]) || by left). done.
Qed.
Lemma read_group (value : str → result Stop Resolver) (predicate : str → result Stop Evaluator) (k : Z) (t : str) :
  written k t → value_step value predicate ([40%N] ++ t ++ [41%N]) = value t.
Proof.
  intros Hw. assert (written 0 ([40%N] ++ t ++ [41%N])) as Hg by by eapply written_group.
  rewrite (value_step_parted _ _ 0) by (done || apply group_parted). unfold value_operators.
  rewrite !(split_none 0) by (done || (by left) || by right).
  assert (grouped ([40%N] ++ t ++ [41%N]) = true) as ->.
  { unfold grouped. apply andb_true_iff. split.
    - unfold enclosed, ends_with. rewrite app_assoc, rev_app_distr. cbn [rev app]. by rewrite !starts_with_one.
    - cbn [app closes_at_end]. change (is_quote 40) with false. change (40 =? 40)%N with true. cbn iota. by rewrite (closes_deep k). }
  unfold inside. cbn [app tail rev]. rewrite rev_app_distr. cbn [rev app tail]. by rewrite rev_involutive.
Qed.
End arithmetic.

(** ** The nodes that are printed *)
Section printed.
Context `{U : UnicodeTables}.

(** A name of letters, digits and dots that is read as a name; a float whose text is a
    literal and is read as it. *)
Definition plain_name (path : str) : Prop :=
  ∃ first last, head path = Some first ∧ word_char first = true ∧ forallb name_char path = true ∧
    list.last path = Some last ∧ word_char last = true ∧ parse_value path = Ok (Lookup path).
Definition plain_float (f : f64) : Prop :=
  is_float_literal (format_ruby_float f) = true ∧ parse_f64 (format_ruby_float f) = Some f.
Inductive names_and_numbers : Resolver → Prop :=
| nn_integer n : in_i64 n = true → names_and_numbers (IntegerLiteral n)
| nn_float f : plain_float f → names_and_numbers (FloatLiteral f)
| nn_name path : plain_name path → names_and_numbers (Lookup path)
| nn_addition l r : names_and_numbers l → names_and_numbers r → names_and_numbers (Addition l r)
| nn_subtraction l r : names_and_numbers l → names_and_numbers r → names_and_numbers (Subtraction l r)
| nn_multiplication l r : names_and_numbers l → names_and_numbers r → names_and_numbers (Multiplication l r)
| nn_division l r : names_and_numbers l → names_and_numbers r → names_and_numbers (Division l r).

Lemma digits_are_name (s : str) : all_digits s = true → forallb name_char s = true.
Proof.
  unfold all_digits. rewrite !forallb_forall. intros H c Hc%H. unfold name_char, word_char, ascii_alphanumeric. by rewrite Hc.
Qed.
Lemma digits_last (s : str) : s ≠ [] → all_digits s = true → ∃ last, list.last s = Some last ∧ is_digit last = true.
Proof.
  intros Hs Hd. destruct (list.last s) as [c|] eqn:E; [|by apply last_None in E]. exists c. split; [done|].
  unfold all_digits in Hd. rewrite forallb_forall in Hd. apply Hd, list_elem_of_In. by apply last_Some_elem_of.
Qed.
Lemma digit_no_length (t : str) (c : char) : list.last t = Some c → is_digit c = true → ends_with t ("." ++ "length") = false.
Proof.
  intros [init ->]%last_Some Hc. unfold ends_with. rewrite rev_app_distr. change (rev ("." ++ "length")) with (104%N :: rev ("." ++ "lengt")).
  cbn [rev app]. rewrite starts_with_cons. assert ((c =? 104)%N = false) as -> by (revert Hc; unfold is_digit; lia). done.
Qed.
Lemma digit_word (c : char) : is_digit c = true → word_char c = true.
Proof. intros H. unfold word_char, ascii_alphanumeric. by rewrite H. Qed.
Lemma signed_operand (sign body : str) (c : char) :
  (sign = [] ∨ sign = [45%N]) → forallb name_char body = true → list.last body = Some c → is_digit c = true → operand (sign ++ body).
Proof.
  intros Hs Hb Hl Hc. exists sign, body, c. split_and!; try done; [by apply digit_word|]. eapply digit_no_length; [|exact Hc]. by rewrite last_app, Hl.
Qed.
Lemma unsigned_sign (t : str) : ∃ sign, t = sign ++ unsigned t ∧ (sign = [] ∨ sign = [45%N]).
Proof.
  unfold unsigned, strip_prefix. destruct (starts_with t "-") eqn:E; [|exists []; auto]. exists [45%N]. split; [|by right].
  destruct t as [|c t]; [done|]. change ("-" : str) with [45%N] in E. rewrite starts_with_one in E. apply N.eqb_eq in E. by subst.
Qed.
Lemma integer_operand (t : str) : is_integer_literal t = true → operand t.
Proof.
  unfold is_integer_literal, nonempty. intros [Hn Hd]%andb_true_iff. destruct (unsigned_sign t) as (sign & E & Hs).
  destruct (digits_last (unsigned t)) as (c & Hl & Hc); [by intros H; rewrite H in Hn|done|].
  rewrite E. by eapply signed_operand; [|apply digits_are_name| |].
Qed.
Lemma float_operand (t : str) : is_float_literal t = true → operand t.
Proof.
  unfold is_float_literal, nonempty. destruct (split_once (unsigned t) 46) as [[a b]|] eqn:E; [|done].
  intros [[Ha Hn]%andb_true_iff Hb]%andb_true_iff. apply split_once_join in E. destruct (unsigned_sign t) as (sign & Et & Hs).
  destruct (digits_last b) as (c & Hl & Hc); [by intros ->|done|]. rewrite Et. eapply signed_operand; [done| |rewrite E, !last_app, Hl; done|done].
  rewrite E, !forallb_app. rewrite (digits_are_name a), (digits_are_name b) by done. done.
Qed.
Lemma ends_with_split (s p : str) : ends_with s p = true → s = take (length s - length p) s ++ p.
Proof.
  unfold ends_with. intros Hx%starts_with_split. apply (f_equal (@rev char)) in Hx. rewrite rev_involutive, rev_app_distr, rev_involutive in Hx.
  set (x := rev (drop _ _)) in Hx. clearbody x. subst s. rewrite length_app, Nat.add_sub. by rewrite take_app_length.
Qed.
Lemma name_operand (t : str) : plain_name t → operand t.
Proof.
  intros (first & last & Hh & Hf & Hc & Hl & Hw & Hp). exists [], t, last. split_and!; try done; [by left|].
  apply not_true_iff_false. intros He. unfold parse_value in Hp. cbn [resolver_parse] in Hp. unfold value_step in Hp.
  assert (trim t = t) as Ht.
  { rewrite <- (app_nil_r t) at 1. apply (trim_padded t [] []); [|constructor..]. exists first, last. split_and!; try done; [|by left].
    left. unfold name_char. by rewrite Hf. }
  rewrite Ht in Hp. unfold strip_suffix_dotted at 1 in Hp. unfold strip_suffix in Hp. rewrite He in Hp. cbn [mbind option_bind] in Hp.
  set (prefix := take _ t) in Hp. assert (t = prefix ++ "." ++ "length") as Et.
  { by apply ends_with_split. }
  assert (bool_decide (prefix = []) = false) as Hne.
  { apply bool_decide_eq_false. intros Hn. rewrite Hn in Et. cbn [app] in Et. rewrite Et in Hh. change (head ("." ++ "length")) with (Some 46%N) in Hh. injection Hh as <-. done. }
  assert (has_newline prefix = false) as Hnl.
  { apply not_true_iff_false. unfold has_newline. intros (c & Hin & H10)%existsb_exists. rewrite forallb_forall in Hc.
    assert (c ∈ t) as Hct by (rewrite Et; apply elem_of_app; left; by apply list_elem_of_In). apply list_elem_of_In, Hc, name_char_cases in Hct. lia. }
  rewrite Hne, Hnl in Hp. cbn [orb] in Hp. unfold one in Hp. by destruct (resolver_parse (length t) prefix).
Qed.

(** What is printed is written as the node's strength says. *)
Lemma side_written (op : char) (on_right : bool) (node : Resolver) (t : str) :
  written (node_strength node) t →
  let side := render_side op on_right node t in
  let held := if negb (node_strength node =? 0) && ((node_strength node <? binding_strength op) || (on_right && (node_strength node =? binding_strength op))) then 0 else node_strength node in
  written held side.
Proof. intros H side held. subst side held. unfold render_side. destruct (_ && _); [by eapply written_group|done]. Qed.
Lemma strength_cases (node : Resolver) : node_strength node = 0 ∨ node_strength node = 1 ∨ node_strength node = 2.
Proof. destruct node; cbn; auto. Qed.
Lemma unsigned_minus (s : str) : unsigned (45%N :: s) = s.
Proof. unfold unsigned, strip_prefix. change ("-" : str) with [45%N]. by rewrite starts_with_one. Qed.
Lemma integer_text (n : Z) : is_integer_literal (dec_Z n) = true.
Proof.
  assert (∀ m, nonempty (dec_N m) = true ∧ all_digits (dec_N m) = true) as H.
  { intros m. pose proof (parse_digits_dec_N m) as Hp. unfold parse_digits in Hp. unfold nonempty, all_digits.
    destruct (dec_N m); [done|]. split; [done|]. by destruct (forallb _ _). }
  unfold dec_Z. destruct (n <? 0).
  - unfold is_integer_literal. change ("-" ++ dec_N (Z.abs_N n)) with (45%N :: dec_N (Z.abs_N n)). rewrite unsigned_minus.
    by destruct (H (Z.abs_N n)) as [-> ->].
  - unfold is_integer_literal, unsigned. destruct (H (Z.abs_N n)) as [Hn Hd]. unfold all_digits in Hd.
    destruct (dec_N (Z.abs_N n)) as [|c s] eqn:E; [done|]. unfold strip_prefix. change ("-" : str) with [45%N]. rewrite starts_with_one.
    cbn [forallb] in Hd. apply andb_true_iff in Hd as [Hc Hd]. assert ((c =? 45)%N = false) as -> by (revert Hc; unfold is_digit; lia).
    cbn [default from_option]. unfold all_digits. cbn [forallb]. by rewrite Hc, Hd.
Qed.
End printed.

Section read_back.
Context `{U : UnicodeTables}.

(** One turn of a parser is one step over the parser itself. *)
Lemma parse_value_eq (text : str) : parse_value text = value_step parse_value parse_predicate text.
Proof.
  unfold parse_value at 1. cbn [resolver_parse]. apply value_step_settles with (n := length text); [| |done].
  - intros t Ht. apply resolver_settles; lia.
  - intros t Ht. rewrite parse_predicate_turns by done. apply evaluator_settles; [lia..|]. intros u Hu. apply resolver_settles; lia.
Qed.
Lemma parse_predicate_eq (text : str) : parse_predicate text = predicate_step parse_value parse_predicate text.
Proof.
  unfold parse_predicate at 1. cbn [evaluator_parse]. apply predicate_step_settles with (n := length text); [| |done|].
  - intros t Ht. apply resolver_settles; lia.
  - intros t Ht. apply evaluator_settles; [lia..|]. intros u Hu. apply resolver_settles; lia.
  - intros t Ht. apply resolver_settles; lia.
Qed.
Lemma parse_in_turns (text : str) : parse_value text ≠ Err OutOfTurns ∧ parse_predicate text ≠ Err OutOfTurns.
Proof.
  split.
  - destruct (resolver_settles (S (length text)) (S (length text)) text) as [_ H]; [lia..|exact H].
  - destruct (evaluator_settles (resolver_parse (S (length text))) (resolver_parse (S (length text))) (S (length text)) (S (length text)) text)
      as [_ H]; [lia..| |exact H]. intros t Ht. apply resolver_settles; lia.
Qed.

Lemma literal_read (t : str) : operand t → is_integer_literal t = true ∨ is_float_literal t = true → value_step parse_value parse_predicate t =
  if is_integer_literal t then match parse_i64 t with Some v => Ok (IntegerLiteral v) | None => Err (Panics ("bad integer literal " ++ debug_str t)) end
  else match parse_f64 t with Some v => Ok (FloatLiteral v) | None => Err (Panics ("bad float literal " ++ debug_str t)) end.
Proof.
  intros Ho Hl. assert (written 0 t) as Hw by by constructor. unfold value_step. rewrite (trim_written 0) by done.
  unfold strip_suffix_dotted at 1, strip_suffix at 1. rewrite (written_no_length 0) by done. cbn [mbind option_bind].
  by destruct (is_integer_literal t), (is_float_literal t), Hl.
Qed.

(** What is read of a printed node, and of it as a side of an operator. *)
Definition reads_as (node : Resolver) (t : str) : Prop := written (node_strength node) t ∧ parse_value t = Ok node.
Lemma side_read (op : char) (on_right : bool) (node : Resolver) (t : str) :
  reads_as node t → parse_value (render_side op on_right node t) = Ok node.
Proof.
  intros [Hw Hp]. unfold render_side. destruct (_ && _); [|done]. rewrite parse_value_eq. change ("(" ++ t ++ ")") with ([40%N] ++ t ++ [41%N]).
  by rewrite (read_group _ _ (node_strength node)).
Qed.
Lemma sides_read (op : char) (l r : Resolver) (tl tr : str) (make : Resolver → Resolver → Resolver) :
  reads_as l tl → reads_as r tr → two parse_value make (render_side op false l tl) (render_side op true r tr) = Ok (make l r).
Proof. intros Hl Hr. unfold two. by rewrite !side_read. Qed.
Lemma sum_read (op : char) (l r : Resolver) (tl tr : str) :
  adds op → reads_as l tl → reads_as r tr →
  let t := render_side op false l tl ++ " " ++ [op] ++ " " ++ render_side op true r tr in
  written 1 t ∧ parse_value t = Ok ((if (op =? 43)%N then Addition else Subtraction) l r).
Proof.
  intros Hop Hl Hr t. change t with (joins (render_side op false l tl) op (render_side op true r tr)). clear t.
  pose proof (side_written op false l tl (proj1 Hl)) as Hwl. pose proof (side_written op true r tr (proj1 Hr)) as Hwr. cbn zeta in Hwl, Hwr.
  assert (binding_strength op = 1) as Hb by (by destruct Hop as [-> | ->]). rewrite Hb in Hwl, Hwr.
  assert (∃ held, held ≠ 1 ∧ written held (render_side op true r tr)) as (held & Hh & Hheld)
    by (eexists; split; [|exact Hwr]; by destruct (strength_cases r) as [-> |[-> | ->]]).
  split; [by eapply written_sum|]. rewrite parse_value_eq. erewrite read_sum by done. by apply sides_read.
Qed.
Lemma product_read (op : char) (l r : Resolver) (tl tr : str) :
  scales op → reads_as l tl → reads_as r tr →
  let t := render_side op false l tl ++ " " ++ [op] ++ " " ++ render_side op true r tr in
  written 2 t ∧ parse_value t = Ok ((if (op =? 42)%N then Multiplication else Division) l r).
Proof.
  intros Hop Hl Hr t. change t with (joins (render_side op false l tl) op (render_side op true r tr)). clear t.
  pose proof (side_written op false l tl (proj1 Hl)) as Hwl. pose proof (side_written op true r tr (proj1 Hr)) as Hwr. cbn zeta in Hwl, Hwr.
  assert (binding_strength op = 2) as Hb by (by destruct Hop as [-> | ->]). rewrite Hb in Hwl, Hwr.
  assert (∃ held, held ≠ 1 ∧ written held (render_side op false l tl)) as (held & Hh & Hheld)
    by (eexists; split; [|exact Hwl]; by destruct (strength_cases l) as [-> |[-> | ->]]).
  assert (written 0 (render_side op true r tr)) as Hr0 by (destruct (strength_cases r) as [E |[E | E]]; rewrite E in Hwr; exact Hwr).
  split; [by eapply written_product|]. rewrite parse_value_eq. erewrite read_product by done. by apply sides_read.
Qed.
Lemma printed_reads_back (node : Resolver) : names_and_numbers node → ∃ t, render_arithmetic node = Some t ∧ reads_as node t.
Proof.
  induction 1 as [n Hn|f [Hf Hp]|path Hp|l r _ (tl & El & Hl) _ (tr & Er & Hr)|l r _ (tl & El & Hl) _ (tr & Er & Hr)|l r _ (tl & El & Hl) _ (tr & Er & Hr)|l r _ (tl & El & Hl) _ (tr & Er & Hr)].
  - exists (dec_Z n). split; [done|]. pose proof (integer_text n) as Hi. pose proof (integer_operand _ Hi) as Ho.
    split; [by constructor|]. rewrite parse_value_eq, literal_read, Hi, parse_i64_dec_Z by auto. done.
  - exists (format_ruby_float f). split; [done|]. pose proof (float_operand _ Hf) as Ho. split; [by constructor|].
    rewrite parse_value_eq, literal_read, Hp by auto. destruct (is_integer_literal _) eqn:E; [|done]. exfalso.
    unfold is_integer_literal, is_float_literal in E, Hf. destruct (split_once _ 46) as [[a b]|] eqn:Es; [|done].
    apply split_once_join in Es. apply andb_true_iff in E as [_ E]. rewrite Es in E. unfold all_digits in E. rewrite !forallb_app in E. cbn in E.
    by rewrite andb_false_r in E.
  - exists path. split; [done|]. split; [by constructor; apply name_operand|]. by destruct Hp as (? & ? & ? & ? & ? & ? & ? & ?).
  - destruct (sum_read 43 l r tl tr) as [Hw Hp]; [by left|done|done|]. eexists. split; [cbn; by rewrite El, Er|]. by split.
  - destruct (sum_read 45 l r tl tr) as [Hw Hp]; [by right|done|done|]. eexists. split; [cbn; by rewrite El, Er|]. by split.
  - destruct (product_read 42 l r tl tr) as [Hw Hp]; [by left|done|done|]. eexists. split; [cbn; by rewrite El, Er|]. by split.
  - destruct (product_read 47 l r tl tr) as [Hw Hp]; [by right|done|done|]. eexists. split; [cbn; by rewrite El, Er|]. by split.
Qed.
End read_back.

(** ** Properties *)

(** C20: arithmetic is printed as it is read.  The canonical text of an arithmetic
    expression over names and numbers is read as that expression, grouping and all, and
    is the canonical text of itself. *)
Theorem arithmetic_is_read_back `{U : UnicodeTables} (expr : str) (node : Resolver) :
  parse_value expr = Ok node → names_and_numbers node → node_strength node ≠ 0 →
  ∃ text, arithmetic_text expr = Ok (Some text) ∧ parse_value text = Ok node ∧ arithmetic_text text = Ok (Some text).
Proof.
  intros Hp Hn Hs. destruct (printed_reads_back node Hn) as (text & Hr & _ & Ht). exists text. unfold arithmetic_text. rewrite Hp, Ht.
  by destruct node; try done; rewrite Hr.
Qed.

(** C21: every text is parsed.  The parsers are the source's equations, each call on
    the texts it cuts, and they come to an end: one turn for every character and one
    more is enough, and any more give the same. *)
Theorem texts_are_parsed `{U : UnicodeTables} (text : str) :
  parse_value text = value_step parse_value parse_predicate text ∧ parse_value text ≠ Err OutOfTurns ∧
  parse_predicate text = predicate_step parse_value parse_predicate text ∧ parse_predicate text ≠ Err OutOfTurns ∧
  ∀ turns, (length text < turns)%nat →
    resolver_parse turns text = parse_value text ∧ evaluator_parse (resolver_parse turns) turns text = parse_predicate text.
Proof.
  destruct (parse_in_turns text) as [Hv Hp]. split_and!; [apply parse_value_eq|done|apply parse_predicate_eq|done|].
  intros turns H. split; [by apply parse_value_turns|by apply parse_predicate_turns].
Qed.

(** ** At concrete inputs *)
Section examples.
#[local] Instance plain_letters : UnicodeTables := {| debug_printable _ := true; to_lower c := [c] |}.

Lemma arithmetic_is_read_back_witness :
  ∃ text, arithmetic_text "(a+b.c)*-2- (d/0.5)" = Ok (Some text) ∧ text = "(a + b.c) * -2 - d / 0.5" ∧
    ∃ node, parse_value "(a+b.c)*-2- (d/0.5)" = Ok node ∧ parse_value text = Ok node.
Proof.
  destruct (arithmetic_is_read_back "(a+b.c)*-2- (d/0.5)"
    (Subtraction (Multiplication (Addition (Lookup "a") (Lookup "b.c")) (IntegerLiteral (-2))) (Division (Lookup "d") (FloatLiteral (f64_lit "0.5")))))
    as (text & Ht & Hn & _).
  - vm_compute. reflexivity.
  - assert (plain_name "a" ∧ plain_name "b.c" ∧ plain_name "d") as (Ha & Hb & Hd).
    { split_and!; eexists _, _; split_and!; vm_compute; reflexivity. }
    constructor; [constructor; [by constructor; constructor|by constructor]|].
    constructor; [by constructor|]. constructor. split; vm_compute; reflexivity.
  - done.
  - exists text. split; [exact Ht|]. assert (text = "(a + b.c) * -2 - d / 0.5") as ->.
    { assert (arithmetic_text "(a+b.c)*-2- (d/0.5)" = Ok (Some ("(a + b.c) * -2 - d / 0.5" : str))) as E by (vm_compute; reflexivity). rewrite E in Ht. by injection Ht. }
    split; [done|]. eexists. split; [|exact Hn]. vm_compute. reflexivity.
Defined.

(** Brackets in quotes are counted as brackets: a comparison in brackets is taken for
    the name of a field. *)
Example quoted_brackets_are_counted :
  parse_predicate ("(x == " ++ dquote ++ ")" ++ dquote ++ ")") = Ok (Resolve (Lookup ("x == " ++ dquote ++ ")" ++ dquote))).
Proof. vm_compute. reflexivity. Qed.
(** A call that is left over is taken for a name, and printed. *)
Example calls_are_printed : arithmetic_text "fee(a, b) + 1" = Ok (Some ("fee(a, b) + 1" : str)).
Proof. vm_compute. reflexivity. Qed.
(** What binds loosest splits first, whatever is quoted or in brackets. *)
Example predicates_split :
  parse_predicate "a == 'x || y' || !(b.include?(c)) && d >= 2" =
    Ok (Or (Compare {| symbol := "=="; compares_less_than := false; compares_equal := true; op_negated := false |} (Lookup "a") (StringLiteral "x || y"))
           (And (Not (Include (Lookup "b") (Lookup "c")))
                (Compare {| symbol := ">="; compares_less_than := true; compares_equal := false; op_negated := true |} (Lookup "d") (IntegerLiteral 2)))).
Proof. vm_compute. reflexivity. Qed.
End examples.
