(* ===== verification/ExprJson.v ===== *)
(** A rule between the parser and the evaluator: the parser writes the tree of a text as
    JSON ([src/rust/parser/src/expr/ast_json.rs]), the host reads the JSON as an
    expression of the shared evaluator and evaluates it over an instance that is JSON
    too ([src/rust/host/core/src/expr_json.rs]).

    The host recurses on a [serde_json] value: a value is a finite tree, which is what
    [SerdeTree] says of the library, and the depth of the value bounds the levels.  The
    interning of names keeps one copy of each and is the identity here. *)
From stdpp Require Import gmap.
From S2P Require Import ExprFacts Repository.
From S2P Require Export Serde ExprTextFacts.
Open Scope Z_scope.

(** [Value::as_i64], [as_f64]; the depth of a value, more than that of what it holds. *)
Class SerdeInt (V : Type) := { sv_as_i64 : V → option Z; sv_as_float : V → option f64; sv_is_numeric : V → bool }.
Class SerdeDepth (V : Type) := sv_depth : V → nat.
Class SerdeTree (V : Type) `{SV : Serde V} `{SD : SerdeDepth V} : Prop := {
  sv_depth_get v k x : sv_get v k = Some x → (sv_depth x < sv_depth v)%nat;
  sv_depth_item v l x : sv_as_array v = Some l → x ∈ l → (sv_depth x < sv_depth v)%nat;
  sv_depth_entry v k x : (k, x) ∈ sv_entries v → (sv_depth x < sv_depth v)%nat
}.
#[global] Instance json_ints : SerdeInt Json.Json := {|
  sv_as_i64 v := match v with Json.JNum n raw => Json.exact_i64 n raw | _ => None end;
  sv_as_float v := match v with Json.JNum n _ | Json.JFloat n => Some n | _ => None end;
  sv_is_numeric v := match v with Json.JNum _ _ | Json.JFloat _ => true | _ => false end |}.
#[global] Instance json_depth : SerdeDepth Json.Json := fix depth v :=
  match v with
  | Json.JObject fields => S (list_max (map (λ kv, depth kv.2) fields))
  | Json.JArray items => S (list_max (map depth items))
  | _ => O
  end.
Lemma list_max_in (l : list nat) (n : nat) : n ∈ l → (n <= list_max l)%nat.
Proof. intros H. pose proof (proj1 (list_max_le l (list_max l)) (Nat.le_refl _)) as Hm. rewrite List.Forall_forall in Hm. apply Hm. by apply list_elem_of_In. Qed.
Lemma assoc_in {A} (k : str) (l : list (str * A)) (x : A) : assoc k l = Some x → (k, x) ∈ l.
Proof.
  induction l as [|[k' y] l IH]; cbn [assoc]; [done|]. case_bool_decide as H; [intros [= ->]; subst; constructor|]. intros Hk. constructor. by apply IH.
Qed.
#[global] Instance json_tree : SerdeTree Json.Json.
Proof.
  assert (∀ fields k (x : Json.Json), (k, x) ∈ fields → (json_depth x < json_depth (Json.JObject fields))%nat) as Ho.
  { intros fields k x Hin. apply Nat.lt_succ_r, list_max_in, list_elem_of_In.
    apply (in_map (λ kv : str * Json.Json, json_depth kv.2) fields (k, x)). by apply list_elem_of_In. }
  split.
  - intros [fields| | | | | |] k x H; try discriminate H. exact (Ho fields k x (assoc_in _ _ _ H)).
  - intros [| items | | | | |] l x H Hin; try discriminate H. injection H as <-. apply Nat.lt_succ_r, list_max_in, list_elem_of_In.
    apply (in_map json_depth items x). by apply list_elem_of_In.
  - intros [fields| | | | | |] k x Hin; try (by apply elem_of_nil in Hin). exact (Ho fields k x Hin).
Qed.

(** ** [JsonValue] ([emit.rs]); the tree of a text, written ([ast_json.rs]) *)
Inductive JsonValue :=
| JvNull | JvBool (b : bool) | JvNumber (text : str) | JvString (s : str)
| JvArray (items : list JsonValue) | JvObject (fields : list (str * JsonValue)).

Definition obj (fields : list (str * JsonValue)) : JsonValue := JvObject fields.
Definition op_tag (name : str) : str * JsonValue := ("op" : str, JvString name).
Definition node1 (op field : str) (v : JsonValue) : JsonValue := obj [op_tag op; (field, v)].
Definition node2 (op field : str) (v : JsonValue) (field' : str) (v' : JsonValue) : JsonValue := obj [op_tag op; (field, v); (field', v')].
Definition emit_comparison (operator : Operator) : JsonValue :=
  obj [("less_than" : str, JvBool (compares_less_than operator)); ("equal" : str, JvBool (compares_equal operator));
       ("negated" : str, JvBool (op_negated operator))].
(** [ruby_float]. *)
Definition ruby_float (n : f64) : str :=
  let text := f64_display n in
  if existsb (contains text) ["." : str; "e" : str; "E" : str] then text else text ++ ".0".
Definition EQUALS : Operator := {| symbol := "=="; compares_less_than := false; compares_equal := true; op_negated := false |}.
Definition one_equals (needle element : JsonValue) : JsonValue :=
  obj [op_tag "compare"; ("cmp" : str, emit_comparison EQUALS); ("left" : str, needle); ("right" : str, element)].
(** [emit_include] of a literal set: an or of equalities, the first the innermost. *)
Definition emit_members (needle : JsonValue) (elements : list JsonValue) : JsonValue :=
  match elements with
  | [] => node1 "bool" "value" (JvBool false)
  | first :: rest =>
    fold_left (λ left element, node2 "or" "left" left "right" (one_equals needle element)) rest (one_equals needle first)
  end.

Fixpoint emit_resolver (node : Resolver) : JsonValue :=
  match node with
  | IntegerLiteral v => node1 "int" "value" (JvNumber (dec_Z v))
  | FloatLiteral v => node1 "float" "value" (JvNumber (ruby_float v))
  | StringLiteral v => node1 "str" "value" (JvString v)
  | BoolLiteral v => node1 "bool" "value" (JvBool v)
  | NilLiteral => obj [op_tag "nil"]
  | Lookup path => node1 "lookup" "path" (JvArray (map JvString (split path ".")))
  | Addition l r => node2 "add" "left" (emit_resolver l) "right" (emit_resolver r)
  | Subtraction l r => node2 "sub" "left" (emit_resolver l) "right" (emit_resolver r)
  | Multiplication l r => node2 "mul" "left" (emit_resolver l) "right" (emit_resolver r)
  | Division l r => node2 "div" "left" (emit_resolver l) "right" (emit_resolver r)
  | SignTest operator receiver => node2 "sign_test" "cmp" (emit_comparison operator) "receiver" (emit_resolver receiver)
  | Empty receiver => node1 "empty" "receiver" (emit_resolver receiver)
  | ToS receiver => node1 "to_s" "receiver" (emit_resolver receiver)
  | Modulo receiver divisor => node2 "modulo" "receiver" (emit_resolver receiver) "divisor" (emit_resolver divisor)
  | Size receiver => node1 "size" "receiver" (emit_resolver receiver)
  | MatchesRegex receiver pattern flags =>
    obj [op_tag "matches_regex"; ("receiver" : str, emit_resolver receiver); ("pattern" : str, JvString pattern); ("flags" : str, JvString flags)]
  | Presence receiver negated => node2 "presence" "receiver" (emit_resolver receiver) "negated" (JvBool negated)
  | Assignment receiver negated => node2 "assignment" "receiver" (emit_resolver receiver) "negated" (JvBool negated)
  | Split receiver separator => node2 "split" "receiver" (emit_resolver receiver) "separator" (JvString separator)
  | Strip receiver side => node2 "strip" "receiver" (emit_resolver receiver) "side" (JvString side)
  | StartsWith receiver substring => node2 "starts_with" "receiver" (emit_resolver receiver) "substring" (JvString substring)
  | EndsWith receiver substring => node2 "ends_with" "receiver" (emit_resolver receiver) "substring" (JvString substring)
  | First receiver => node1 "first" "receiver" (emit_resolver receiver)
  | Last receiver => node1 "last" "receiver" (emit_resolver receiver)
  | BlockPredicate mode receiver param predicate =>
    obj [op_tag "block_predicate"; ("mode" : str, JvString (json_name mode)); ("receiver" : str, emit_resolver receiver);
         ("param" : str, JvString param); ("predicate" : str, emit_bool predicate)]
  | Find receiver param predicate path =>
    obj [op_tag "find"; ("receiver" : str, emit_resolver receiver); ("param" : str, JvString param);
         ("predicate" : str, emit_bool predicate); ("path" : str, JvArray (map JvString path))]
  | Sum receiver param predicate =>
    obj [op_tag "sum"; ("receiver" : str, emit_resolver receiver); ("param" : str, JvString param); ("predicate" : str, emit_bool predicate)]
  | ArrayLiteral elements => node1 "array" "elements" (JvArray (map emit_resolver elements))
  end
with emit_bool (node : Evaluator) : JsonValue :=
  match node with
  | Or l r => node2 "or" "left" (emit_bool l) "right" (emit_bool r)
  | And l r => node2 "and" "left" (emit_bool l) "right" (emit_bool r)
  | Not inner => node1 "not" "expr" (emit_bool inner)
  | Compare operator l r =>
    obj [op_tag "compare"; ("cmp" : str, emit_comparison operator); ("left" : str, emit_resolver l); ("right" : str, emit_resolver r)]
  | Include (ArrayLiteral elements) needle => emit_members (emit_resolver needle) (map emit_resolver elements)
  | Include haystack needle => node2 "include" "haystack" (emit_resolver haystack) "needle" (emit_resolver needle)
  | Resolve expr => emit_resolver expr
  end.
(** [emit_predicate]: of a text, unless the parser stops. *)
Definition emit_predicate `{U : UnicodeTables} (canonical : str) : result Stop JsonValue :=
  let? tree := parse_predicate canonical in Ok (emit_bool tree).

(** ** [expr_json::parse] *)
Section reading.
Context `{U : UnicodeTables} {V : Type} `{SV : Serde V} `{SI : SerdeInt V} `{SD : SerdeDepth V}.

Section node.
Context (read : V → result str Expr) (json : V) (op : str).
Definition node_field (name : str) : result str V :=
  ok_or (sv_get json name) (op ++ " node has no " ++ debug_str name ++ " field: " ++ sv_text json).
Definition expr_field (name : str) : result str Expr := let? v := node_field name in read v.
Definition str_field (name : str) : result str str :=
  let? v := node_field name in ok_or (sv_as_str v) (op ++ "'s " ++ debug_str name ++ " isn't a string: " ++ sv_text json).
Definition bool_field (name : str) : result str bool :=
  let? v := node_field name in ok_or (sv_as_bool v) (op ++ "'s " ++ debug_str name ++ " isn't a boolean: " ++ sv_text json).
Definition path_field (name : str) : result str (list str) :=
  let? v := node_field name in
  let? items := ok_or (sv_as_array v) (op ++ "'s " ++ debug_str name ++ " isn't an array: " ++ sv_text json) in
  collect_results (λ item, ok_or (sv_as_str item) (op ++ "'s " ++ debug_str name ++ " has a non-string element: " ++ sv_text json)) items.
Definition comparison_field : result str Comparison :=
  let? cmp := node_field "cmp" in
  let flag name := ok_or (sv_get cmp name ≫= sv_as_bool) (op ++ "'s cmp has no " ++ name ++ ": " ++ sv_text json) in
  let? lt := flag "less_than" in let? eq := flag "equal" in let? neg := flag "negated" in
  Ok {| less_than := lt; equal := eq; Expr.negated := neg |}.

Definition read_one (make : Expr → Expr) (name : str) : result str Expr := let? e := expr_field name in Ok (make e).
Definition read_two (make : Expr → Expr → Expr) (name name' : str) : result str Expr :=
  let? e := expr_field name in let? e' := expr_field name' in Ok (make e e').
Definition with_text (make : Expr → str → Expr) (name : str) : result str Expr :=
  let? e := expr_field "receiver" in let? s := str_field name in Ok (make e s).
Definition with_flag (make : Expr → bool → Expr) : result str Expr :=
  let? e := expr_field "receiver" in let? b := bool_field "negated" in Ok (make e b).
Definition mode_of (mode : str) : result str Expr.BlockMode :=
  if str_eqb mode "all" then Ok Expr.All else if str_eqb mode "any" then Ok Expr.Any else if str_eqb mode "none" then Ok Expr.NoneOf
  else Err ("block_predicate's mode " ++ debug_str mode ++ " is none of all/any/none: " ++ sv_text json).
Definition side_of (side : str) : result str StripSide :=
  if str_eqb side "both" then Ok Both else if str_eqb side "left" then Ok Left else if str_eqb side "right" then Ok Right
  else Err ("strip's side " ++ debug_str side ++ " is none of both/left/right: " ++ sv_text json).
(** The nodes by their op. *)
Definition nodes : list (str * (unit → result str Expr)) := [
  ("or" : str, λ _, read_two EOr "left" "right");
  ("and" : str, λ _, read_two EAnd "left" "right");
  ("not" : str, λ _, read_one ENot "expr");
  ("compare" : str, λ _, let? cmp := comparison_field in read_two (ECompare cmp) "left" "right");
  ("include" : str, λ _, read_two EInclude "haystack" "needle");
  ("int" : str, λ _, let? v := node_field "value" in
     match sv_as_i64 v with Some n => Ok (EInt n) | None => Err ("int's value isn't an integer: " ++ sv_text json) end);
  ("float" : str, λ _, let? v := node_field "value" in
     match sv_as_float v with Some f => Ok (EFloat f) | None => Err ("float's value isn't a number: " ++ sv_text json) end);
  ("str" : str, λ _, let? s := str_field "value" in Ok (EStr s));
  ("bool" : str, λ _, let? b := bool_field "value" in Ok (EBool b));
  ("nil" : str, λ _, Ok ENil);
  ("add" : str, λ _, read_two EAdd "left" "right");
  ("sub" : str, λ _, read_two ESub "left" "right");
  ("mul" : str, λ _, read_two EMul "left" "right");
  ("div" : str, λ _, read_two EDiv "left" "right");
  ("sign_test" : str, λ _, let? cmp := comparison_field in read_one (ESignTest cmp) "receiver");
  ("empty" : str, λ _, read_one EEmpty "receiver");
  ("to_s" : str, λ _, read_one EToS "receiver");
  ("modulo" : str, λ _, read_two EModulo "receiver" "divisor");
  ("size" : str, λ _, read_one ESize "receiver");
  ("lookup" : str, λ _, let? path := path_field "path" in Ok (ELookup (join "." path)));
  ("block_predicate" : str, λ _, let? name := str_field "mode" in let? mode := mode_of name in
     let? receiver := expr_field "receiver" in let? param := str_field "param" in let? predicate := expr_field "predicate" in
     Ok (EBlockPredicate mode receiver param predicate));
  ("find" : str, λ _, let? receiver := expr_field "receiver" in let? param := str_field "param" in
     let? predicate := expr_field "predicate" in let? path := path_field "path" in Ok (EFind receiver param predicate path));
  ("sum" : str, λ _, let? receiver := expr_field "receiver" in let? param := str_field "param" in
     let? predicate := expr_field "predicate" in Ok (ESum receiver param predicate));
  ("array" : str, λ _, let? v := node_field "elements" in
     let? items := ok_or (sv_as_array v) ("array's elements isn't an array: " ++ sv_text json) in
     let? elements := collect_results read items in Ok (EArray elements));
  ("matches_regex" : str, λ _, let? receiver := expr_field "receiver" in let? pattern := str_field "pattern" in
     let? flags := str_field "flags" in Ok (EMatchesRegex receiver pattern flags));
  ("presence" : str, λ _, with_flag EPresence);
  ("assignment" : str, λ _, with_flag EAssignment);
  ("split" : str, λ _, with_text ESplit "separator");
  ("strip" : str, λ _, let? receiver := expr_field "receiver" in let? name := str_field "side" in
     let? side := side_of name in Ok (EStrip receiver side));
  ("starts_with" : str, λ _, with_text EStartsWith "substring");
  ("ends_with" : str, λ _, with_text EEndsWith "substring");
  ("first" : str, λ _, read_one EFirst "receiver");
  ("last" : str, λ _, read_one ELast "receiver")].
End node.
Definition parse_step (read : V → result str Expr) (json : V) : result str Expr :=
  match sv_get_str json "op" with
  | None => Err (sv_text json ++ " has no string " ++ dquote ++ "op" ++ dquote ++ " field")
  | Some op =>
    match assoc op (nodes read json op) with
    | Some node => node ()
    | None => Err ("unrecognized expression op " ++ debug_str op ++ ": " ++ sv_text json)
    end
  end.
(** No node is deeper than the value it is in. *)
Fixpoint parse_to (levels : nat) (json : V) : result str Expr :=
  match levels with O => Err [] | S levels => parse_step (parse_to levels) json end.
Definition parse_json (json : V) : result str Expr := parse_to (S (sv_depth json)) json.

(** ** [value_of], [Slot], [Node]: the instance a rule is evaluated over *)
Fixpoint value_to (levels : nat) (json : V) : result str Value :=
  match levels with
  | O => Err []
  | S levels =>
    if sv_is_null json then Ok VNil
    else match sv_as_bool json with
    | Some b => Ok (VBool b)
    | None =>
    if sv_is_numeric json then
      match sv_as_i64 json, sv_as_float json with
      | Some n, _ => Ok (VInt n)
      | None, Some f => Ok (VFloat f)
      | None, None => Err (sv_text json ++ " is a number this interpreter cannot represent")
      end
    else match sv_as_str json with
    | Some s => Ok (VStr s)
    | None =>
    match sv_as_array json with
    | Some items => let? vs := collect_results (value_to levels) items in Ok (VArray vs)
    | None =>
      let? fields := collect_results (λ kv, let? v := value_to levels kv.2 in Ok (kv.1, v)) (sv_entries json) in
      Ok (VObject (fold_left (λ m kv, bt_insert kv.1 kv.2 m) fields []))
    end end end
  end.
Inductive Slot := SlotScalar (value : Value) | SlotObject (fields : list (str * Slot)) | SlotList (items : list Slot).
Definition by_key {A} (fields : list (str * A)) : list (str * A) := fold_left (λ m kv, bt_insert kv.1 kv.2 m) fields [].
Fixpoint slot_to (levels : nat) (json : V) : result str Slot :=
  match levels with
  | O => Err []
  | S levels =>
    if sv_is_object json then
      let? fields := collect_results (λ kv, let? v := slot_to levels kv.2 in Ok (kv.1, v)) (sv_entries json) in
      Ok (SlotObject (by_key fields))
    else match sv_as_array json with
    | Some items => let? slots := collect_results (slot_to levels) items in Ok (SlotList slots)
    | None => let? v := value_to (S levels) json in Ok (SlotScalar v)
    end
  end.
Fixpoint slot_value (slot : Slot) : Value :=
  match slot with
  | SlotScalar v => v
  | SlotObject fields => VObject (map (λ kv, (kv.1, slot_value kv.2)) fields)
  | SlotList items => VArray (map slot_value items)
  end.
(** [Node]'s [Fielded], [root] or nested; [named] and [lists] are its fields and its
    lists as a lookup walks them. *)
Definition node_fielded (root : bool) (fields : list (str * Slot)) (named : list (str * Field)) (lists : list (str * option (list Field))) : Fielded :=
  MkFielded
    (λ name, match assoc name named with Some field => Some field | None => if root then None else Some (FValue VNil) end)
    (match fields with [(_, slot)] => Some (slot_value slot) | _ => None end)
    (Some (slot_value (SlotObject fields)))
    (λ name, match assoc name lists with Some (Some items) => Some items | _ => None end).
Fixpoint slot_field (slot : Slot) : Field :=
  match slot with
  | SlotObject fields =>
    FNested (node_fielded false fields (map (λ kv, (kv.1, slot_field kv.2)) fields)
      (map (λ kv, (kv.1, match kv.2 with SlotList items => Some (map slot_field items) | _ => None end)) fields))
  | _ => FValue (slot_value slot)
  end.
Definition root_of (fields : list (str * Slot)) : Fielded :=
  node_fielded true fields (map (λ kv, (kv.1, slot_field kv.2)) fields)
    (map (λ kv, (kv.1, match kv.2 with SlotList items => Some (map slot_field items) | _ => None end)) fields).

(** [expr_json::interpret]: an instance that is no object has no fields. *)
Definition instance_fields (instance : V) : result str (list (str * Slot)) :=
  let? slot := (if sv_is_object instance then slot_to (S (sv_depth instance)) instance else Ok (SlotObject [])) in
  Ok (match slot with SlotObject fields => fields | _ => [] end).
Definition interpret_json `{R : RegexCrate} (expr : Expr) (instance : V) : result str Value :=
  let? fields := instance_fields instance in
  match interpret expr {| args := root_of fields; Expr.instance := NoFields |} with Ok v => Ok v | Err refusal => Err (message refusal) end.
End reading.

(** ** Facts: what is written is read *)

(** Induction over a tree, its blocks' predicates and the elements of its sets. *)
Section tree_ind.
Context (P : Resolver → Prop) (Q : Evaluator → Prop).
Definition closed_value (r : Resolver) : Prop :=
  match r with
  | Addition l r | Subtraction l r | Multiplication l r | Division l r | Modulo l r => P l ∧ P r
  | SignTest _ e | Empty e | ToS e | Size e | MatchesRegex e _ _ | Presence e _ | Assignment e _ | Split e _ | Strip e _ | First e | Last e
  | StartsWith e _ | EndsWith e _ => P e
  | ArrayLiteral es => Forall P es
  | BlockPredicate _ e _ p | Find e _ p _ | Sum e _ p => P e ∧ Q p
  | IntegerLiteral _ | FloatLiteral _ | StringLiteral _ | BoolLiteral _ | NilLiteral | Lookup _ => True
  end.
Definition closed_predicate (e : Evaluator) : Prop :=
  match e with
  | Or l r | And l r => Q l ∧ Q r
  | Not e => Q e
  | Compare _ l r | Include l r => P l ∧ P r
  | Resolve r => P r
  end.
Context (HP : ∀ r, closed_value r → P r) (HQ : ∀ e, closed_predicate e → Q e).
Fixpoint tree_value (r : Resolver) : P r :=
  HP r (match r as r return closed_value r with
  | Addition l r | Subtraction l r | Multiplication l r | Division l r | Modulo l r => conj (tree_value l) (tree_value r)
  | SignTest _ e | Empty e | ToS e | Size e | MatchesRegex e _ _ | Presence e _ | Assignment e _ | Split e _ | Strip e _ | First e | Last e
  | StartsWith e _ | EndsWith e _ => tree_value e
  | ArrayLiteral es =>
    (fix go l : Forall P l := match l with [] => Forall_nil_2 P | e :: l' => Forall_cons_2 P e l' (tree_value e) (go l') end) es
  | BlockPredicate _ e _ p | Find e _ p _ | Sum e _ p => conj (tree_value e) (tree_predicate p)
  | IntegerLiteral _ | FloatLiteral _ | StringLiteral _ | BoolLiteral _ | NilLiteral | Lookup _ => Logic.I
  end)
with tree_predicate (e : Evaluator) : Q e :=
  HQ e (match e as e return closed_predicate e with
  | Or l r | And l r => conj (tree_predicate l) (tree_predicate r)
  | Not e => tree_predicate e
  | Compare _ l r | Include l r => conj (tree_value l) (tree_value r)
  | Resolve r => tree_value r
  end).
End tree_ind.

(** What the host reads of a tree: its expression.  A literal set is an or of
    equalities there. *)
Definition lower_comparison (op : Operator) : Comparison :=
  {| less_than := compares_less_than op; equal := compares_equal op; Expr.negated := op_negated op |}.
Definition lower_mode (m : BlockMode) : Expr.BlockMode := match m with All => Expr.All | Any => Expr.Any | NoneOf => Expr.NoneOf end.
Definition lower_side (s : str) : StripSide := if str_eqb s "both" then Both else if str_eqb s "left" then Left else Right.
Definition lower_member (needle element : Expr) : Expr := ECompare (lower_comparison EQUALS) needle element.
Definition lower_members (needle : Expr) (elements : list Expr) : Expr :=
  match elements with
  | [] => EBool false
  | first :: rest => fold_left (λ left element, EOr left (lower_member needle element)) rest (lower_member needle first)
  end.
Fixpoint lower_resolver (r : Resolver) : Expr :=
  match r with
  | IntegerLiteral v => EInt v
  | FloatLiteral v => EFloat v
  | StringLiteral v => EStr v
  | BoolLiteral v => EBool v
  | NilLiteral => ENil
  | Lookup path => ELookup path
  | Addition l r => EAdd (lower_resolver l) (lower_resolver r)
  | Subtraction l r => ESub (lower_resolver l) (lower_resolver r)
  | Multiplication l r => EMul (lower_resolver l) (lower_resolver r)
  | Division l r => EDiv (lower_resolver l) (lower_resolver r)
  | SignTest op e => ESignTest (lower_comparison op) (lower_resolver e)
  | Empty e => EEmpty (lower_resolver e)
  | ToS e => EToS (lower_resolver e)
  | Modulo e d => EModulo (lower_resolver e) (lower_resolver d)
  | Size e => ESize (lower_resolver e)
  | ArrayLiteral es => EArray (map lower_resolver es)
  | BlockPredicate m e param p => EBlockPredicate (lower_mode m) (lower_resolver e) param (lower_predicate p)
  | MatchesRegex e pattern flags => EMatchesRegex (lower_resolver e) pattern flags
  | Presence e b => EPresence (lower_resolver e) b
  | Assignment e b => EAssignment (lower_resolver e) b
  | Split e s => ESplit (lower_resolver e) s
  | Strip e s => EStrip (lower_resolver e) (lower_side s)
  | First e => EFirst (lower_resolver e)
  | Last e => ELast (lower_resolver e)
  | StartsWith e s => EStartsWith (lower_resolver e) s
  | EndsWith e s => EEndsWith (lower_resolver e) s
  | Find e param p path => EFind (lower_resolver e) param (lower_predicate p) path
  | Sum e param p => ESum (lower_resolver e) param (lower_predicate p)
  end
with lower_predicate (e : Evaluator) : Expr :=
  match e with
  | Or l r => EOr (lower_predicate l) (lower_predicate r)
  | And l r => EAnd (lower_predicate l) (lower_predicate r)
  | Not e => ENot (lower_predicate e)
  | Compare op l r => ECompare (lower_comparison op) (lower_resolver l) (lower_resolver r)
  | Include (ArrayLiteral es) needle => lower_members (lower_resolver needle) (map lower_resolver es)
  | Include haystack needle => EInclude (lower_resolver haystack) (lower_resolver needle)
  | Resolve r => lower_resolver r
  end.

(** What is not written as any other: numbers and the sides of [strip]. *)
Inductive Leaf := LeafInt (n : Z) | LeafFloat (f : f64) | LeafSide (s : str).
Fixpoint leaves (r : Resolver) : list Leaf :=
  match r with
  | IntegerLiteral v => [LeafInt v]
  | FloatLiteral v => [LeafFloat v]
  | StringLiteral _ | BoolLiteral _ | NilLiteral | Lookup _ => []
  | Addition l r | Subtraction l r | Multiplication l r | Division l r | Modulo l r => leaves l ++ leaves r
  | SignTest _ e | Empty e | ToS e | Size e | MatchesRegex e _ _ | Presence e _ | Assignment e _ | Split e _ | First e | Last e
  | StartsWith e _ | EndsWith e _ => leaves e
  | Strip e s => LeafSide s :: leaves e
  | ArrayLiteral es => flat_map leaves es
  | BlockPredicate _ e _ p | Find e _ p _ | Sum e _ p => leaves e ++ leaves_of p
  end
with leaves_of (e : Evaluator) : list Leaf :=
  match e with
  | Or l r | And l r => leaves_of l ++ leaves_of r
  | Not e => leaves_of e
  | Compare _ l r | Include l r => leaves l ++ leaves r
  | Resolve r => leaves r
  end.
(** A leaf as the parser makes them, with a condition on floats; and a float whose text
    is read as it. *)
Definition made (F : f64 → Prop) (l : Leaf) : Prop :=
  match l with
  | LeafInt n => in_i64 n = true
  | LeafFloat f => F f
  | LeafSide s => s = "both" ∨ s = "left" ∨ s = "right"
  end.
Definition read_from_text (f : f64) : Prop := parse_f64 (ruby_float f) = Some f.

Section says.
Context `{U : UnicodeTables} {V : Type} `{SV : Serde V} `{SI : SerdeInt V} `{SD : SerdeDepth V} `{ST : !SerdeTree V}.

(** A value that says what a written document says: read back by the library, it has
    the document's fields, texts and numbers. *)
Inductive says : JsonValue → V → Prop :=
| says_null v : sv_is_null v = true → says JvNull v
| says_bool b v : sv_as_bool v = Some b → says (JvBool b) v
| says_number t v : (∀ n, parse_i64 t = Some n → sv_as_i64 v = Some n) → (∀ f, parse_f64 t = Some f → sv_as_float v = Some f) → says (JvNumber t) v
| says_string s v : sv_as_str v = Some s → says (JvString s) v
| says_array items v vs : sv_as_array v = Some vs → Forall2 says items vs → says (JvArray items) v
| says_object fields v : (∀ k t, (k, t) ∈ fields → ∃ x, sv_get v k = Some x ∧ says t x) → says (JvObject fields) v.

Lemma parse_step_ext (read read' : V → result str Expr) (json : V) :
  (∀ x, (sv_depth x < sv_depth json)%nat → read x = read' x) → parse_step read json = parse_step read' json.
Proof.
  intros H. unfold parse_step. destruct (sv_get_str json "op") as [op|]; [|done].
  assert (∀ name, expr_field read json op name = expr_field read' json op name) as He.
  { intros name. unfold expr_field, node_field. destruct (sv_get json name) as [x|] eqn:E; [|done]. apply H. by eapply sv_depth_get. }
  assert (∀ v items, sv_get json "elements" = Some v → sv_as_array v = Some items → collect_results read items = collect_results read' items) as Hc.
  { intros v items Hv Hi. assert (∀ x, x ∈ items → read x = read' x) as Hin.
    { intros x Hx. apply H. pose proof (sv_depth_get _ _ _ Hv). pose proof (sv_depth_item _ _ _ Hi Hx). lia. }
    clear Hv Hi. induction items as [|x items IH]; [done|]. cbn [collect_results]. rewrite (Hin x) by constructor. rewrite IH; [done|].
    intros y Hy. by apply Hin, list_elem_of_further. }
  unfold nodes. cbn [assoc].
  repeat (case_bool_decide; [cbn beta; unfold read_two, read_one, with_text, with_flag; rewrite ?He; try reflexivity;
    try (unfold node_field; destruct (sv_get json "elements") as [v|] eqn:Ev; [|done]; cbn [ok_or]; destruct (sv_as_array v) as [items|] eqn:Ei; [|done];
         cbn [ok_or]; by rewrite (Hc v items eq_refl Ei)); repeat (match goal with |- context [match ?x with Ok _ => _ | Err _ => _ end] => destruct x; [rewrite ?He|done] end); reflexivity|]).
  reflexivity.
Qed.
Lemma parse_levels (levels : nat) (json : V) : (sv_depth json < levels)%nat → parse_to levels json = parse_json json.
Proof.
  unfold parse_json. assert (∀ n m v, (sv_depth v < n)%nat → (sv_depth v < m)%nat → parse_to n v = parse_to m v) as H; [|intros Hl; apply H; lia].
  induction n as [|n IH]; intros [|m] v Hn Hm; try lia. cbn [parse_to]. apply parse_step_ext. intros x Hx. apply IH; lia.
Qed.
Lemma parse_json_eq (json : V) : parse_json json = parse_step parse_json json.
Proof. unfold parse_json at 1. cbn [parse_to]. apply parse_step_ext. intros x Hx. by apply parse_levels. Qed.

Lemma parse_node (json : V) (op : str) (node : unit → result str Expr) :
  sv_get_str json "op" = Some op → assoc op (nodes parse_json json op) = Some node → parse_json json = node ().
Proof. intros Hop Hn. rewrite parse_json_eq. unfold parse_step. by rewrite Hop, Hn. Qed.

Section fields.
Context (fields : list (str * JsonValue)) (json : V) (Hsays : says (JvObject fields) json) (op : str).
Lemma says_field (name : str) (t : JsonValue) : (name, t) ∈ fields → ∃ x, sv_get json name = Some x ∧ says t x.
Proof. inversion Hsays; subst. auto. Qed.
Lemma field_read (name : str) (t : JsonValue) : (name, t) ∈ fields → ∃ x, node_field json op name = Ok x ∧ sv_get json name = Some x ∧ says t x.
Proof. intros (x & Hx & Ht)%says_field. exists x. unfold node_field. by rewrite Hx. Qed.
Lemma expr_read (name : str) (t : JsonValue) (e : Expr) :
  (name, t) ∈ fields → (∀ x, says t x → parse_json x = Ok e) → expr_field parse_json json op name = Ok e.
Proof. intros (x & Hx & _ & Ht)%field_read He. unfold expr_field. rewrite Hx. by apply He. Qed.
Lemma str_read (name s : str) : (name, JvString s) ∈ fields → str_field json op name = Ok s.
Proof. intros (x & Hx & _ & Ht)%field_read. unfold str_field. rewrite Hx. inversion Ht; subst. by rewrite H0. Qed.
Lemma get_str_read (name s : str) : (name, JvString s) ∈ fields → sv_get_str json name = Some s.
Proof. intros (x & Hx & Ht)%says_field. unfold sv_get_str. rewrite Hx. by inversion Ht. Qed.
Lemma bool_read (name : str) (b : bool) : (name, JvBool b) ∈ fields → bool_field json op name = Ok b.
Proof. intros (x & Hx & _ & Ht)%field_read. unfold bool_field. rewrite Hx. inversion Ht; subst. by rewrite H0. Qed.
Lemma path_read (name : str) (path : list str) : (name, JvArray (map JvString path)) ∈ fields → path_field json op name = Ok path.
Proof.
  intros (x & Hx & _ & Ht)%field_read. unfold path_field. rewrite Hx. inversion Ht as [| | | |items v vs Hv Hs E1 E2|]; subst. rewrite Hv. cbn [ok_or].
  apply collect_results_all. clear -Hs. remember (map JvString path) as items eqn:E. revert path E. induction Hs as [|t v items vs Ht Hs IH]; intros [|s path] E; try done.
  injection E as -> ->. constructor; [|by apply IH]. inversion Ht; subst. by rewrite H0.
Qed.
Lemma comparison_read (operator : Operator) : ("cmp" : str, emit_comparison operator) ∈ fields → comparison_field json op = Ok (lower_comparison operator).
Proof.
  intros (x & Hx & _ & Ht)%field_read. unfold comparison_field. rewrite Hx. inversion Ht as [| | | | |fs v Hf E1 E2]; subst.
  assert (∀ k b, (k, JvBool b) ∈ [("less_than" : str, JvBool (compares_less_than operator)); ("equal" : str, JvBool (compares_equal operator)); ("negated" : str, JvBool (op_negated operator))] →
    sv_get x k ≫= sv_as_bool = Some b) as Hb.
  { intros k b (y & Hy & Hs)%Hf. rewrite Hy. by inversion Hs. }
  rewrite (Hb "less_than" (compares_less_than operator)), (Hb "equal" (compares_equal operator)), (Hb "negated" (op_negated operator)) by (apply list_elem_of_In; cbn; auto).
  done.
Qed.
End fields.

(** A document written by the parser is read as the expression of its tree. *)
Ltac member := apply list_elem_of_In; cbn [In obj op_tag]; eauto 8.
Ltac at_node op := erewrite (parse_node _ op); [|eapply get_str_read; [eassumption|member]|reflexivity]; cbn beta.
Ltac field lemma := erewrite lemma; [|eassumption|member]; cbn iota beta.
Ltac subtree := erewrite expr_read; [|eassumption|member|solve [eauto]]; cbn iota beta.
Ltac fields := unfold read_one, read_two, with_text, with_flag;
  repeat first [field comparison_read | field str_read | field bool_read | field path_read | subtree].
Ltac by_node op := repeat match goal with H : _ ∧ _ |- _ => destruct H end; at_node op; by fields.
Definition value_is_read (r : Resolver) : Prop :=
  Forall (made read_from_text) (leaves r) → ∀ v, says (emit_resolver r) v → parse_json v = Ok (lower_resolver r).
Definition predicate_is_read (e : Evaluator) : Prop :=
  Forall (made read_from_text) (leaves_of e) → ∀ v, says (emit_bool e) v → parse_json v = Ok (lower_predicate e).
Lemma all_read (es : list Resolver) (vs : list V) :
  Forall value_is_read es → Forall (made read_from_text) (flat_map leaves es) → Forall2 says (map emit_resolver es) vs →
  collect_results parse_json vs = Ok (map lower_resolver es).
Proof.
  intros He Hl Hs. apply collect_results_all. revert vs Hs; induction He as [|e es He _ IH]; intros vs Hs; inversion Hs; subst; constructor.
  - cbn [flat_map] in Hl. apply list.Forall_app in Hl as [Hl _]. by apply He.
  - cbn [flat_map] in Hl. apply list.Forall_app in Hl as [_ Hl]. by apply IH.
Qed.
Lemma value_closed (r : Resolver) : closed_value value_is_read predicate_is_read r → value_is_read r.
Proof.
  destruct r; cbn [closed_value]; unfold value_is_read, predicate_is_read; cbn [leaves]; rewrite ?list.Forall_app, ?list.Forall_cons;
    intros Hc Hl json Hv; cbn [emit_resolver] in Hv; cbn [lower_resolver].
  - at_node "int". destruct (field_read _ _ Hv "int" "value" (JvNumber (dec_Z v))) as (x & -> & _ & Hx); [member|]. inversion Hx; subst.
    destruct Hl as [Hl _]. by rewrite (H0 v) by (by apply parse_i64_dec_Z).
  - at_node "float". destruct (field_read _ _ Hv "float" "value" (JvNumber (ruby_float v))) as (x & -> & _ & Hx); [member|]. inversion Hx; subst.
    destruct Hl as [Hl _]. by rewrite (H1 v).
  - at_node "str". fields. done.
  - at_node "bool". fields. done.
  - at_node "nil". done.
  - by_node "add".
  - by_node "sub".
  - by_node "mul".
  - by_node "div".
  - by_node "sign_test".
  - by_node "empty".
  - by_node "to_s".
  - by_node "modulo".
  - by_node "size".
  - at_node "lookup". fields. by rewrite join_split.
  - at_node "array". destruct (field_read _ _ Hv "array" "elements" (JvArray (map emit_resolver elements))) as (x & -> & _ & Hx); [member|].
    inversion Hx as [| | | |items y vs Hi Hs E1 E2|]; subst. cbn iota beta. rewrite Hi. cbn [ok_or]. by rewrite (all_read elements).
  - destruct Hc, Hl. at_node "block_predicate". fields. destruct mode; by fields.
  - by_node "matches_regex".
  - by_node "presence".
  - by_node "assignment".
  - by_node "split".
  - destruct Hl as [Hside Hl]. at_node "strip". fields. by destruct Hside as [-> |[-> | ->]].
  - by_node "first".
  - by_node "last".
  - by_node "starts_with".
  - by_node "ends_with".
  - by_node "find".
  - by_node "sum".
Qed.
Lemma members_read (needle : Resolver) (elements : list Resolver) :
  value_is_read needle → Forall value_is_read elements →
  Forall (made read_from_text) (leaves needle) → Forall (made read_from_text) (flat_map leaves elements) →
  ∀ v, says (emit_members (emit_resolver needle) (map emit_resolver elements)) v →
    parse_json v = Ok (lower_members (lower_resolver needle) (map lower_resolver elements)).
Proof.
  intros Hn He Ln Le. assert (∀ e, value_is_read e → Forall (made read_from_text) (leaves e) → ∀ v,
    says (one_equals (emit_resolver needle) (emit_resolver e)) v → parse_json v = Ok (lower_member (lower_resolver needle) (lower_resolver e))) as Hone.
  { intros e Hr Hl json Hv. unfold value_is_read in *. at_node "compare". by fields. }
  destruct elements as [|first rest]; cbn [map emit_members lower_members].
  { intros json Hv. at_node "bool". by fields. }
  cbn [flat_map] in Le. apply list.Forall_app in Le as [Lf Le]. apply list.Forall_cons in He as [Hf He].
  specialize (Hone first Hf Lf) as Hfirst. revert Hfirst. generalize (one_equals (emit_resolver needle) (emit_resolver first)) (lower_member (lower_resolver needle) (lower_resolver first)).
  induction rest as [|e rest IH]; intros doc expr Hd; [exact Hd|]. cbn [map fold_left].
  cbn [flat_map] in Le. apply list.Forall_app in Le as [Lr Le]. apply list.Forall_cons in He as [Hr He].
  apply (IH He Le). intros json Hv. pose proof (Hone e Hr Lr) as Hone'. at_node "or". by fields.
Qed.
(** A literal set is read element by element. *)
Definition value_and_elements (r : Resolver) : Prop :=
  value_is_read r ∧ match r with ArrayLiteral es => Forall value_is_read es | _ => True end.
Lemma predicate_closed (e : Evaluator) : closed_predicate value_and_elements predicate_is_read e → predicate_is_read e.
Proof.
  destruct e; cbn [closed_predicate]; unfold predicate_is_read; cbn [leaves_of]; rewrite ?list.Forall_app;
    intros Hc Hl json Hv; cbn [emit_bool] in Hv; cbn [lower_predicate].
  - by_node "or".
  - by_node "and".
  - by_node "not".
  - unfold value_and_elements, value_is_read in *. by_node "compare".
  - destruct Hc as [[Hh Hes] [Hn _]], Hl as [Lh Ln]. destruct haystack as [| | | | | | | | | | | | | | |elements| | | | | | | | | | | |];
      try (unfold value_is_read in *; at_node "include"; by fields).
    by apply (members_read needle elements).
  - by apply (proj1 Hc).
Qed.
Lemma trees_are_read : (∀ r, value_and_elements r) ∧ ∀ e, predicate_is_read e.
Proof.
  assert (∀ r, closed_value value_and_elements predicate_is_read r → value_and_elements r) as Hv.
  { intros r Hc. split.
    - apply value_closed. destruct r; cbn [closed_value] in *; try done; try (by split; apply Hc); try (by apply Hc).
      apply (list.Forall_impl _ _ _ Hc). by intros e [He _].
    - destruct r; try done. cbn [closed_value] in Hc. apply (list.Forall_impl _ _ _ Hc). by intros e [He _]. }
  split; [apply (tree_value _ _ Hv predicate_closed)|apply (tree_predicate _ _ Hv predicate_closed)].
Qed.
End says.

(** ** What the parser makes of a text *)

Lemma parse_i64_range (s : str) (n : Z) : parse_i64 s = Some n → in_i64 n = true.
Proof.
  unfold parse_i64. assert (∀ (neg : bool) ds, (n ← parse_digits ds; checked (if neg then - Z.of_N n else Z.of_N n)) = Some n → in_i64 n = true) as H.
  { intros neg ds. destruct (parse_digits ds); [|done]. cbn [mbind option_bind]. unfold checked. destruct (in_i64 _) eqn:E; [|done]. by intros [= <-]. }
  destruct s as [|c s]; [apply (H false)|]. destruct c as [|p]; [apply (H false)|]. repeat (destruct p as [p|p|]; try apply (H false)). apply (H true).
Qed.
Section parsed.
Context `{U : UnicodeTables}.
Notation made_value := (λ r, Forall (made (λ _, True)) (leaves r)).
Notation made_predicate := (λ e, Forall (made (λ _, True)) (leaves_of e)).
(** [all_ok P x]: what [x] returns, if it does, is as [P] says. *)
Definition all_ok {E A} (P : A → Prop) (x : result E A) : Prop := ∀ a, x = Ok a → P a.
Lemma all_ok_ok {E A} (P : A → Prop) (a : A) : P a → all_ok (E:=E) P (Ok a).
Proof. by intros H ? [= <-]. Qed.
Lemma all_ok_err {E A} (P : A → Prop) (e : E) : all_ok (A:=A) P (Err e).
Proof. done. Qed.
Lemma all_ok_bind {E A B} (P : A → Prop) (Q : B → Prop) (x : result E A) (f : A → result E B) :
  all_ok P x → (∀ a, P a → all_ok Q (f a)) → all_ok Q (let? a := x in f a).
Proof. intros Hx Hf b. destruct x as [a|e]; [|done]. apply Hf. by apply Hx. Qed.
Lemma all_ok_collect {E A B} (P : B → Prop) (f : A → result E B) (l : list A) :
  (∀ a, all_ok P (f a)) → all_ok (Forall P) (collect_results f l).
Proof.
  intros Hf. induction l as [|a l IH]; [by apply all_ok_ok|]. cbn [collect_results]. eapply all_ok_bind; [apply Hf|]. intros b Hb.
  eapply all_ok_bind; [apply IH|]. intros bs Hbs. apply all_ok_ok. by constructor.
Qed.
Lemma all_ok_clause {E A B} (P : B → Prop) (o : option A) (f : A → result E B) (rest : result E B) :
  (∀ a, o = Some a → all_ok P (f a)) → all_ok P rest → all_ok P (match o with Some a => f a | None => rest end).
Proof. intros H Hr. destruct o; auto. Qed.

Section step.
Context (value : str → result Stop Resolver) (predicate : str → result Stop Evaluator)
  (Hvalue : ∀ t, all_ok made_value (value t)) (Hpredicate : ∀ t, all_ok made_predicate (predicate t)).
Lemma one_made (make : Resolver → Resolver) (t : str) :
  (∀ e, made_value e → made_value (make e)) → all_ok made_value (one value make t).
Proof. intros Hm. unfold one. eapply all_ok_bind; [apply Hvalue|]. intros e He. apply all_ok_ok. by apply Hm. Qed.
Lemma two_made (make : Resolver → Resolver → Resolver) (l r : str) :
  (∀ e e', leaves (make e e') = leaves e ++ leaves e') → all_ok made_value (two value make l r).
Proof.
  intros Hm. unfold two. eapply all_ok_bind; [apply Hvalue|]. intros e He. eapply all_ok_bind; [apply Hvalue|]. intros e' He'.
  apply all_ok_ok. rewrite Hm. by apply list.Forall_app.
Qed.
Lemma block_made (expr : str) : all_ok (λ o, match o with Some r => made_value r | None => True end) (parse_block_opener value predicate expr).
Proof.
  unfold parse_block_opener. destruct (_ ≫= _) as [[[[[a o] p] body] after]|]; [|by apply all_ok_ok].
  eapply all_ok_bind; [apply Hvalue|]. intros e He. eapply all_ok_bind; [apply Hpredicate|]. intros test Ht. apply all_ok_ok.
  destruct o as [m| |], (trim after) as [|c path]; try done; try (by apply list.Forall_app).
  destruct (N.eq_dec c 46%N) as [->|Hc]; [by apply list.Forall_app|]. destruct c as [|q]; [done|]. by repeat (destruct q as [q|q|]; try done).
Qed.
Ltac one_clause := apply all_ok_clause; [let p := fresh in let H := fresh in intros p H; repeat (let x := fresh in destruct p as [p x]);
  first [apply one_made; intros ? ?; cbn [leaves]; rewrite ?list.Forall_cons; cbn [made]; by auto | apply two_made; done]|].
Lemma value_ends_made (expr : str) : all_ok made_value (value_ends value predicate expr).
Proof.
  unfold value_ends. do 18 one_clause. eapply all_ok_bind; [apply block_made|]. intros [r|] Hr; by apply all_ok_ok.
Qed.
Lemma value_step_made (text : str) : all_ok made_value (value_step value predicate text).
Proof.
  unfold value_step. one_clause.
  destruct (is_integer_literal _); [destruct (parse_i64 _) eqn:E; [apply all_ok_ok|done]|].
  { constructor; [|constructor]. cbn [made]. by eapply parse_i64_range. }
  destruct (is_float_literal _); [destruct (parse_f64 _); [apply all_ok_ok; by repeat constructor|done]|].
  destruct (quoted _); [by apply all_ok_ok|]. destruct (str_eqb _ "true"); [by apply all_ok_ok|]. destruct (str_eqb _ "false"); [by apply all_ok_ok|].
  destruct (str_eqb _ "nil"); [by apply all_ok_ok|].
  apply all_ok_clause.
  { intros es _. eapply all_ok_bind; [by apply all_ok_collect|]. intros rs Hrs. apply all_ok_ok. cbn [leaves].
    induction Hrs; [constructor|]. cbn [flat_map]. by apply list.Forall_app. }
  unfold value_operators. apply all_ok_clause; [intros [[op l] r] _; destruct (_ =? _)%N; by apply two_made|].
  apply all_ok_clause; [intros [[op l] r] _; destruct (_ =? _)%N; by apply two_made|].
  destruct (grouped _); [apply Hvalue|apply value_ends_made].
Qed.
Ltac both_made H := eapply all_ok_bind; [apply H|]; intros ? ?; eapply all_ok_bind; [apply H|]; intros ? ?; apply all_ok_ok; cbn [leaves_of]; apply list.Forall_app.
Lemma predicate_step_made (text : str) : all_ok made_predicate (predicate_step value predicate text).
Proof.
  unfold predicate_step. set (expr := strip_parens (trim text)). clearbody expr.
  apply all_ok_clause; [intros [l r] _; by both_made Hpredicate|]. apply all_ok_clause; [intros [l r] _; by both_made Hpredicate|].
  apply all_ok_clause; [intros inner _; eapply all_ok_bind; [apply Hpredicate|]; intros e He; by apply all_ok_ok|].
  apply all_ok_clause; [intros [l r] _; by both_made Hvalue|]. apply all_ok_clause; [intros [[op l] r] _; by both_made Hvalue|].
  eapply all_ok_bind; [apply Hvalue|]. intros e He. by apply all_ok_ok.
Qed.
End step.
Lemma evaluator_made (value : str → result Stop Resolver) (turns : nat) (text : str) :
  (∀ t, all_ok made_value (value t)) → all_ok made_predicate (evaluator_parse value turns text).
Proof. intros Hv. revert text; induction turns as [|turns IH]; intros text; [done|]. by apply predicate_step_made. Qed.
Lemma resolver_made (turns : nat) (text : str) : all_ok made_value (resolver_parse turns text).
Proof. revert text; induction turns as [|turns IH]; intros text; [done|]. apply value_step_made; [exact IH|]. intros t. by apply evaluator_made. Qed.
Lemma parsed_made (text : str) (tree : Evaluator) : parse_predicate text = Ok tree → made_predicate tree.
Proof. revert tree. apply evaluator_made. intros t. apply resolver_made. Qed.
End parsed.

(** ** A literal set is an or of equalities *)
Section sets.
Context `{U : UnicodeTables} `{R : RegexCrate} (ctx : EvalContext) (needle : Expr) (wanted : Value)
  (Hneedle : interpret needle ctx = Ok wanted) (Hwanted : wf_value wanted = true).
(** An expression that evaluates to a value of the right width. *)
Definition evaluates (e : Expr) (v : Value) : Prop := interpret e ctx = Ok v ∧ wf_value v = true.
Lemma member_evaluates (e : Expr) (v : Value) : evaluates e v → interpret (lower_member needle e) ctx = Ok (VBool (values_equal v wanted)).
Proof.
  intros [He Hv]. unfold lower_member. rewrite (interpret_routed _ ComparisonCategory) by done. cbn [dispatch_operator comparison_interpret].
  rewrite Hneedle, He, (values_equal_symmetric v wanted) by done. done.
Qed.
Lemma members_evaluate (es : list Expr) (vs : list Value) :
  Forall2 evaluates es vs → interpret (lower_members needle es) ctx = Ok (VBool (existsb (λ item, values_equal item wanted) vs)).
Proof.
  intros H. destruct H as [|e v es vs He H]; [done|]. cbn [lower_members existsb]. apply member_evaluates in He. revert He.
  generalize (lower_member needle e) (values_equal v wanted). induction H as [|e' v' es vs He' H IH]; intros acc b Hacc; cbn [fold_left existsb].
  - by rewrite orb_false_r.
  - rewrite orb_assoc. apply IH. rewrite (interpret_routed _ Logical) by done. cbn [dispatch_operator logical_interpret].
    rewrite Hacc. destruct b; [done|]. cbn [truthy]. rewrite (member_evaluates e' v') by done. by destruct (values_equal v' wanted).
Qed.
End sets.
Lemma collect_evaluates `{U : UnicodeTables} `{R : RegexCrate} (ctx : EvalContext) (es : list Expr) (vs : list Value) :
  wf_ctx ctx → Forall wf_expr es → collect_results (λ e, interpret e ctx) es = Ok vs → Forall2 (evaluates ctx) es vs.
Proof.
  intros Hx He. revert vs; induction He as [|e es He _ IH]; intros vs; cbn [collect_results]; [by intros [= <-]|].
  pose proof (interpret_faulting e ctx He Hx) as Hf. destruct (interpret e ctx) as [v|] eqn:E; [|done].
  destruct (collect_results _ es) as [vs'|]; [|done]. intros [= <-]. constructor; [by split|by apply IH].
Qed.

Lemma members_agree `{U : UnicodeTables} `{R : RegexCrate} (needle : Expr) (elements : list Expr) (ctx : EvalContext) (v : Value) :
  wf_expr needle → Forall wf_expr elements → wf_ctx ctx →
  interpret (EInclude (EArray elements) needle) ctx = Ok v → interpret (lower_members needle elements) ctx = Ok v.
Proof.
  intros Hn He Hx. rewrite (interpret_routed _ Membership) by done. cbn [dispatch_operator membership_interpret].
  pose proof (interpret_faulting needle ctx Hn Hx) as Hf. destruct (interpret needle ctx) as [w|] eqn:Ew; [|done].
  cbn [interpret].
  destruct (collect_results _ elements) as [vs|] eqn:Ec; [|done]. intros [= <-]. apply members_evaluate; [done..|]. by apply collect_evaluates.
Qed.

(** ** Rules that are read are well formed *)
Ltac solve_wf := repeat first [assumption | constructor].
Lemma fold_wf (needle : Expr) (es : list Expr) : wf_expr needle → Forall wf_expr es → wf_expr (lower_members needle es).
Proof.
  intros Hn He. assert (∀ e, wf_expr e → wf_expr (lower_member needle e)) as Hm by (intros e H; solve_wf).
  destruct He as [|e es He Hes]; [solve_wf|]. cbn [lower_members]. apply Hm in He. revert He. generalize (lower_member needle e) as acc.
  induction Hes as [|e' es He' _ IH]; intros acc Hacc; [done|]. cbn [fold_left]. apply IH. apply Hm in He'. solve_wf.
Qed.

Section wf.
Context (F : f64 → Prop).
Definition lowers_wf (r : Resolver) : Prop :=
  Forall (made F) (leaves r) → wf_expr (lower_resolver r) ∧ match r with ArrayLiteral es => Forall wf_expr (map lower_resolver es) | _ => True end.
Definition predicate_lowers_wf (e : Evaluator) : Prop := Forall (made F) (leaves_of e) → wf_expr (lower_predicate e).
Lemma lowered_wf : (∀ r, lowers_wf r) ∧ ∀ e, predicate_lowers_wf e.
Proof.
  assert (∀ r, closed_value lowers_wf predicate_lowers_wf r → lowers_wf r) as Hv.
  { intros r. destruct r; cbn [closed_value]; unfold lowers_wf, predicate_lowers_wf; cbn [leaves lower_resolver]; rewrite ?list.Forall_app, ?list.Forall_cons;
      intros Hc Hl; try (split; [|done]);
      try (repeat match goal with H : _ ∧ _ |- _ => destruct H end; repeat match goal with H : ?A → ?B, H' : ?A |- _ => specialize (H H'); destruct H end; solve_wf; done).
    - assert (Forall wf_expr (map lower_resolver elements)) as He; [|split; [by constructor|done]].
      clear -Hc Hl. induction Hc as [|e es He _ IH]; cbn [flat_map map] in *; [constructor|]. apply list.Forall_app in Hl as [Hl Hls].
      constructor; [by apply He|by apply IH]. }
  assert (∀ e, closed_predicate lowers_wf predicate_lowers_wf e → predicate_lowers_wf e) as Hp.
  { intros e. destruct e; cbn [closed_predicate]; unfold lowers_wf, predicate_lowers_wf; cbn [leaves_of lower_predicate]; rewrite ?list.Forall_app;
      intros Hc Hl; try (repeat match goal with H : _ ∧ _ |- _ => destruct H end; repeat match goal with H : ?A → ?B, H' : ?A |- _ => specialize (H H'); try destruct H end; solve_wf; done).
    destruct Hc as [Hh Hn], Hl as [Lh Ln]. destruct (Hh Lh) as [Hw He], (Hn Ln) as [Hnw _]. clear Hh Hn Lh Ln Hv.
    destruct haystack; try (solve_wf; done). by apply fold_wf. }
  split; [apply (tree_value _ _ Hv Hp)|apply (tree_predicate _ _ Hv Hp)].
Qed.
End wf.

(** ** Properties *)

(** C19: a rule reaches the host as it was written.  The document the parser writes of
    a text is read by the host, from any value that says the same, as the expression of
    the text's tree: a literal set as an or of equalities, everything else node by
    node, and every integer of 64 bits. *)
Theorem rules_reach_the_host `{U : UnicodeTables} {V : Type} `{SV : Serde V} `{SI : SerdeInt V} `{SD : SerdeDepth V} `{ST : !SerdeTree V} (text : str) (tree : Evaluator) :
  parse_predicate text = Ok tree → (∀ f, LeafFloat f ∈ leaves_of tree → read_from_text f) →
  wf_expr (lower_predicate tree) ∧
  ∃ doc, emit_predicate text = Ok doc ∧ ∀ v : V, says doc v → parse_json v = Ok (lower_predicate tree).
Proof.
  intros Hp Hf. pose proof (parsed_made text tree Hp) as Hm. split; [by apply (lowered_wf (λ _, True))|].
  exists (emit_bool tree). unfold emit_predicate. rewrite Hp. split; [done|]. intros v Hv. apply trees_are_read; [|done].
  rewrite list.Forall_forall in Hm |- *. intros l Hl. specialize (Hm l Hl). destruct l; [exact Hm|by apply Hf|exact Hm].
Qed.

(** C23: a literal set may be written as equalities.  Wherever
    [[a, b, ...].include?(x)] has an answer, what the host reads of the document the
    parser writes, the or of [x == a], [x == b], ..., has the same. *)
Theorem literal_sets_are_equalities `{U : UnicodeTables} `{R : RegexCrate} {V : Type} `{SV : Serde V} `{SI : SerdeInt V} `{SD : SerdeDepth V} `{ST : !SerdeTree V}
    (needle : Resolver) (elements : list Resolver) (json : V) (ctx : EvalContext) (v : Value) :
  let rule := Include (ArrayLiteral elements) needle in
  Forall (made read_from_text) (leaves_of rule) → says (emit_bool rule) json → wf_ctx ctx →
  interpret (EInclude (EArray (map lower_resolver elements)) (lower_resolver needle)) ctx = Ok v →
  ∃ read, parse_json json = Ok read ∧ interpret read ctx = Ok v.
Proof.
  intros rule Hl Hs Hx Hv. exists (lower_predicate rule). split; [by apply trees_are_read|].
  pose proof Hl as [Le Ln]%list.Forall_app. destruct (lowered_wf read_from_text) as [Hr _].
  destruct (Hr (ArrayLiteral elements) Le) as [_ He]. destruct (Hr needle Ln) as [Hn _]. by apply members_agree.
Qed.

(** ** At concrete inputs *)
Section examples.
#[local] Instance rule_letters : UnicodeTables := {| debug_printable _ := true; to_lower c := [c] |}.
#[local] Existing Instance no_regex.

(** A rule over a literal set and a literal with a fraction. *)
Definition discount_rule : str := "['gold', 'silver'].include?(tier) && spent >= 99.5".
Definition number (text : str) : Json.Json := Json.JNum (default (f64_lit "0") (parse_f64 text)) (Some text).
(** The document as the library would read it. *)
Fixpoint read_document (doc : JsonValue) : Json.Json :=
  match doc with
  | JvNull => Json.JNull
  | JvBool b => Json.JBool b
  | JvNumber t => number t
  | JvString s => Json.JStr s
  | JvArray items => Json.JArray (map read_document items)
  | JvObject fields => Json.JObject (map (λ kv, (kv.1, read_document kv.2)) fields)
  end.
Ltac said := lazymatch goal with
  | |- says (JvObject _) _ => apply says_object; intros ? ? Hin; repeat (apply elem_of_cons in Hin as [[= -> ->]|Hin]; [eexists; split; [reflexivity|said]|]); by apply elem_of_nil in Hin
  | |- says (JvArray _) _ => eapply says_array; [reflexivity|repeat (constructor; [said|]); constructor]
  | |- says (JvNumber _) _ => apply says_number; intros ? H; vm_compute in H; first [discriminate H | injection H as <-; vm_compute; reflexivity]
  | |- says (JvString _) _ => eapply says_string; reflexivity
  | |- says (JvBool _) _ => eapply says_bool; reflexivity
  end.
(** [['gold', 2].include?(2.0)]. *)
Definition gold_or_two : Evaluator := Include (ArrayLiteral [StringLiteral "gold"; IntegerLiteral 2]) (FloatLiteral (f64_lit "2.0")).
Lemma literal_sets_are_equalities_witness :
  ∃ read, parse_json (read_document (emit_bool gold_or_two)) = Ok read ∧ interpret read prices_ctx = Ok (VBool true).
Proof.
  apply (literal_sets_are_equalities (V := Json.Json) (FloatLiteral (f64_lit "2.0")) [StringLiteral "gold"; IntegerLiteral 2] (read_document (emit_bool gold_or_two))
    prices_ctx (VBool true)).
  - repeat constructor; vm_compute; reflexivity.
  - match goal with |- says ?doc ?v => let doc := eval vm_compute in doc in let v := eval vm_compute in v in change (says doc v) end. said.
  - exact wf_prices_ctx.
  - vm_compute. reflexivity.
Defined.
Lemma rules_reach_the_host_witness :
  ∃ tree doc, parse_predicate discount_rule = Ok tree ∧ emit_predicate discount_rule = Ok doc ∧
    parse_json (read_document doc) = Ok (lower_predicate tree).
Proof.
  eexists. destruct (rules_reach_the_host (V := Json.Json) discount_rule _ ltac:(vm_compute; reflexivity)) as (_ & doc & Hd & Hread).
  - intros f Hin. repeat (apply elem_of_cons in Hin as [[= ->]|Hin]; [vm_compute; reflexivity|]). by apply elem_of_nil in Hin.
  - exists doc. split; [vm_compute; reflexivity|]. split; [exact Hd|]. apply Hread. vm_compute in Hd. injection Hd as <-. said.
Defined.
End examples.
