(* ===== verification/RubyValue.v ===== *)
(** The literals of a bluebook as texts ([src/rust/parser/src/ruby_value.rs]): a value is
    rendered in one pinned spelling, and a spelling, the bluebook's own or the pinned
    one, is read as the value it names.

    [read] calls itself on the items of a list or a hash, each shorter than the text:
    [read_to] takes a level for every call within another. *)
From Stdlib Require Import ZifyBool ZifyN.
From S2P Require Import IpText.
From S2P Require Export ExprTextFacts.
Open Scope Z_scope.

(** ** [Value]; [render], [quote], [to_s] *)
Inductive Value :=
| Nil
| Bool (b : bool)
| Int (n : Z)
| Float (f : f64)
| Str (text : str)
| Symbol (name : str)
| Hash (pairs : list (str * Value))
| Array (items : list Value)
| Bare (text : str).

Definition escape (ch : char) : str := if ((ch =? 34) || (ch =? 92))%N then [92%N; ch] else [ch].
Definition quote (text : str) : str := [34%N] ++ flat_map escape text ++ [34%N].
Fixpoint render (value : Value) : str :=
  match value with
  | Nil => "nil"
  | Bool b => if b then "true" else "false"
  | Int n => dec_Z n
  | Float f => format_ruby_float f
  | Symbol name => ":" ++ name
  | Str text => quote text
  | Bare text => text
  | Hash pairs => "{" ++ join ", " (map (λ kv, kv.1 ++ ": " ++ render kv.2) pairs) ++ "}"
  | Array items => "[" ++ join ", " (map render items) ++ "]"
  end.
Definition to_s (value : Value) : str :=
  match value with
  | Nil => []
  | Symbol name => name
  | Str text => text
  | other => render other
  end.

(** ** Escapes: a character, and what follows it *)
Definition REPLACED : char := 65533%N.
Definition from_u32 (code : N) : char := if is_scalar code then code else REPLACED.
(** [read_hex_digits], [read_octal_escape]: the digits of a base, at most so many. *)
Fixpoint digit_run (base : N) (max : nat) (code : option N) (s : str) : option N * str :=
  match max, s with
  | S max, c :: rest =>
    match to_digit base c with
    | Some digit => digit_run base max (Some (default 0%N code * base + digit)%N) rest
    | None => (code, s)
    end
  | _, _ => (code, s)
  end.
Definition read_hex_digits (max : nat) (s : str) : option N * str := digit_run 16 max None s.
Definition read_octal_escape (first : char) (s : str) : char * str :=
  let (code, rest) := digit_run 8 2 (Some (default 0%N (to_digit 8 first))) s in
  (from_u32 (N.land (default 0%N code) 255), rest)%N.
(** [read_unicode_escape]; the code points between braces. *)
Fixpoint code_points (turns : nat) (s : str) : str * str :=
  let s := trim_start (λ c, (c =? 32)%N) s in
  match turns, read_hex_digits 6 s with
  | S turns, (Some code, rest) => let (chars, rest) := code_points turns rest in (from_u32 code :: chars, rest)
  | _, _ => ([], s)
  end.
Definition read_unicode_escape (s : str) : str * str :=
  match strip_prefix s "{" with
  | Some s => let (chars, rest) := code_points (length s) s in (chars, default rest (strip_prefix rest "}"))
  | None =>
    match read_hex_digits 4 s with
    | (Some code, rest) => ([from_u32 code], rest)
    | (None, _) => ("u", s)
    end
  end.
(** What an escaped character stands for. *)
Definition LETTERS : list (char * str) :=
  [(97, [7]); (98, [8]); (101, [27]); (102, [12]); (110, [10]); (114, [13]); (115, [32]); (116, [9]); (118, [11]); (10, [])]%N.
Definition escaped (next : char) (rest : str) : str * str :=
  match find (λ letter, (letter.1 =? next)%N) LETTERS with
  | Some (_, chars) => (chars, rest)
  | None =>
    if ((48 <=? next) && (next <=? 55))%N then let (c, rest) := read_octal_escape next rest in ([c], rest)
    else if (next =? 120)%N then match read_hex_digits 2 rest with (Some code, rest) => ([from_u32 code], rest) | (None, _) => ("x", rest) end
    else if (next =? 117)%N then read_unicode_escape rest
    else ([next], rest)
  end.
Fixpoint unescape_double (turns : nat) (s : str) : str :=
  match turns, s with
  | S turns, ch :: rest =>
    if negb (ch =? 92)%N then ch :: unescape_double turns rest
    else match rest with
      | [] => []
      | next :: rest => let (chars, rest) := escaped next rest in chars ++ unescape_double turns rest
      end
  | _, _ => []
  end.
Definition unescape_double_quoted_inner (inner : str) : str := unescape_double (length inner) inner.
Fixpoint unescape_single_quoted_inner (inner : str) : str :=
  match inner with
  | [] => []
  | ch :: rest =>
    match rest with
    | next :: rest' =>
      if ((ch =? 92) && ((next =? 92) || (next =? 39)))%N then next :: unescape_single_quoted_inner rest'
      else ch :: unescape_single_quoted_inner rest
    | [] => [ch]
    end
  end.
Definition unquote (raw : str) : str := unescape_double_quoted_inner (inside raw).
Definition unquote_single (raw : str) : str := unescape_single_quoted_inner (inside raw).
Definition unquote_for_symbol (rest : str) : str := unquote rest.

(** ** [scan_adjacent_strings]: the literals' text, and what is after the last *)
Fixpoint literal_body (quote : char) (escaping : bool) (before s : str) : option (str * str) :=
  match s with
  | [] => None
  | ch :: rest =>
    if escaping then literal_body quote false (ch :: before) rest
    else if (ch =? 92)%N then literal_body quote true (ch :: before) rest
    else if (ch =? quote)%N then Some (rev before, rest)
    else literal_body quote false (ch :: before) rest
  end.
Fixpoint adjacent_strings (turns : nat) (out s : str) : option (str * str) :=
  match turns, s with
  | S turns, quote :: rest =>
    if is_quote quote then
      '(inner, after) ← literal_body quote false [] rest;
      let out := out ++ (if (quote =? 34)%N then unescape_double_quoted_inner inner else unescape_single_quoted_inner inner) in
      match trim_start is_whitespace after with
      | next :: more => if is_quote next then adjacent_strings turns out (next :: more) else Some (out, after)
      | [] => Some (out, after)
      end
    else None
  | _, _ => None
  end.
Definition scan_adjacent_strings (raw : str) : option (str * str) := adjacent_strings (length raw) [] raw.

(** ** [split_items] *)
Fixpoint items_from (depth : Z) (quoting escaping : bool) (current s : str) : list str :=
  match s with
  | [] => [rev current]
  | ch :: rest =>
    let go depth quoting escaping := items_from depth quoting escaping (ch :: current) rest in
    if escaping then go depth quoting false
    else if quoting && (ch =? 92)%N then go depth quoting true
    else if (ch =? 34)%N then go depth (negb quoting) false
    else if quoting then go depth quoting false
    else
      let depth := if one_of "{[(" ch then depth + 1 else depth in
      let depth := if one_of "}])" ch then depth - 1 else depth in
      if (ch =? 44)%N && (depth =? 0) then rev current :: items_from depth quoting false [] rest
      else go depth quoting false
  end.
Definition split_items (body : str) : list str := List.filter nonempty (map trim (items_from 0 false false [] body)).

(** ** [read] *)
Definition is_integer (raw : str) : bool := is_integer_literal raw.
Definition is_float (raw : str) : bool :=
  match split_once (unsigned raw) 46 with
  | Some (int_part, frac_part) => nonempty int_part && nonempty frac_part && all_digits int_part && all_digits frac_part
  | None => false
  end.
Definition is_quoted (raw : str) : bool := (2 <=? length raw)%nat && enclosed 34 34 raw.
Definition is_single_quoted (raw : str) : bool := (2 <=? length raw)%nat && enclosed 39 39 raw.
Definition read_hash (read : str → Value) (raw : str) : Value :=
  Hash (map (λ item, let (key, held) := default (item, []) (split_once item 58) in (trim key, read (trim held))) (split_items (inside raw))).
Definition read_array (read : str → Value) (raw : str) : Value := Array (map (λ item, read (trim item)) (split_items (inside raw))).
Definition whole_string (raw : str) : option str :=
  if starts_with raw dquote || starts_with raw "'" then
    '(joined, after) ← scan_adjacent_strings raw; if bool_decide (after = []) then Some joined else None
  else None.
Definition read_step (read : str → Value) (text : str) : Value :=
  let raw := trim text in
  if bool_decide (raw = []) || str_eqb raw "nil" then Nil
  else if str_eqb raw "true" then Bool true
  else if str_eqb raw "false" then Bool false
  else clause (if is_integer raw then parse_i64 raw else None) is n :-> Int n else
  clause (if is_float raw then parse_f64 raw else None) is f :-> Float f else
  clause strip_prefix raw ":" is name :-> Symbol name else
  clause whole_string raw is joined :-> Str joined else
  if is_quoted raw then Str (unquote raw)
  else if is_single_quoted raw then Str (unquote_single raw)
  else if enclosed 123 125 raw then read_hash read raw
  else if enclosed 91 93 raw then read_array read raw
  else Bare raw.
Fixpoint read_to (levels : nat) (text : str) : Value :=
  match levels with O => Nil | S levels => read_step (read_to levels) text end.
Definition read (text : str) : Value := read_to (S (length text)) text.

Section examples.
Example renders_the_pinned_spellings :
  render (Hash [("value" : str, Str "credit"); ("of" : str, Array [Int 1; Symbol "a"; Float (f64_lit "0.0")])]) =
    "{value: " ++ dquote ++ "credit" ++ dquote ++ ", of: [1, :a, 0.0]}".
Proof. vm_compute. reflexivity. Qed.
Example double_quoted_escapes_read_as_ruby_reads_them :
  let bs : str := [92%N] in
  read (dquote ++ bs ++ "x41" ++ bs ++ "101" ++ bs ++ "u00e9" ++ bs ++ "u{1F4A5 41}" ++ dquote) = Str [65; 65; 233; 128165; 65]%N ∧
  read (dquote ++ "q" ++ bs ++ "q" ++ bs ++ dquote ++ bs ++ bs ++ dquote) = Str ("qq" ++ dquote ++ bs) ∧
  read (dquote ++ bs ++ "xZ" ++ dquote) = Str "xZ" ∧
  read (dquote ++ bs ++ "e" ++ bs ++ "s" ++ bs ++ "a" ++ bs ++ "0" ++ dquote) = Str [27; 32; 7; 0]%N.
Proof. vm_compute. auto. Qed.
Example adjacent_literals_concatenate :
  read (dquote ++ "a" ++ dquote ++ " 'b' " ++ dquote ++ "c" ++ dquote) = Str "abc" ∧
  read (dquote ++ "a" ++ dquote ++ " foo") = Bare (dquote ++ "a" ++ dquote ++ " foo").
Proof. vm_compute. auto. Qed.
Example splits_only_top_level_commas :
  split_items (dquote ++ "a, b" ++ dquote ++ ", 1") = [dquote ++ "a, b" ++ dquote; "1" : str] ∧
  split_items "{a: 1, b: 2}, 3" = ["{a: 1, b: 2}" : str; "3" : str].
Proof. vm_compute. auto. Qed.
End examples.

(** ** Facts: what is rendered is read back *)

(** Induction over a value, its items and the values of its pairs. *)
Section value_induction.
Context (P : Value → Prop) (Hnil : P Nil) (Hbool : ∀ b, P (Bool b)) (Hint : ∀ n, P (Int n)) (Hfloat : ∀ f, P (Float f)) (Hstr : ∀ t, P (Str t))
  (Hsymbol : ∀ n, P (Symbol n)) (Hbare : ∀ t, P (Bare t)) (Hhash : ∀ pairs, Forall (λ kv, P kv.2) pairs → P (Hash pairs)) (Harray : ∀ items, Forall P items → P (Array items)).
Fixpoint value_tree_ind (v : Value) : P v :=
  match v with
  | Nil => Hnil | Bool b => Hbool b | Int n => Hint n | Float f => Hfloat f | Str t => Hstr t | Symbol n => Hsymbol n | Bare t => Hbare t
  | Hash pairs => Hhash pairs ((fix go l : Forall (λ kv, P kv.2) l := match l with [] => Forall_nil_2 _ | kv :: l => Forall_cons_2 _ kv l (value_tree_ind kv.2) (go l) end) pairs)
  | Array items => Harray items ((fix go l : Forall P l := match l with [] => Forall_nil_2 _ | v :: l => Forall_cons_2 _ v l (value_tree_ind v) (go l) end) items)
  end.
End value_induction.

(** What is rendered so as to be read back: integers of 64 bits, floats with a plain
    decimal text, names as symbols, bare words and keys. *)
Definition word (t : str) : Prop := forallb word_char t = true ∧ t ≠ [].
Definition symbol_char (c : char) : bool := word_char c || one_of "?!.=" c.
Definition keyword (t : str) : bool := existsb (str_eqb t) ["nil" : str; "true" : str; "false" : str].
Definition bare_word (t : str) : Prop := word t ∧ (∃ c, head t = Some c ∧ is_digit c = false) ∧ keyword t = false.
Fixpoint literal (v : Value) : Prop :=
  match v with
  | Nil | Bool _ | Str _ => True
  | Int n => in_i64 n = true
  | Float f => is_float (format_ruby_float f) = true ∧ parse_f64 (format_ruby_float f) = Some f
  | Symbol name => forallb symbol_char name = true
  | Bare t => bare_word t
  | Hash pairs => foldr (λ kv rest, word kv.1 ∧ literal kv.2 ∧ rest) True pairs
  | Array items => foldr (λ v rest, literal v ∧ rest) True items
  end.
Lemma literal_hash (pairs : list (str * Value)) : literal (Hash pairs) ↔ Forall (λ kv, word kv.1 ∧ literal kv.2) pairs.
Proof. cbn [literal]. induction pairs as [|kv pairs IH]; [done|]. cbn [foldr]. rewrite list.Forall_cons, IH. tauto. Qed.
Lemma literal_array (items : list Value) : literal (Array items) ↔ Forall literal items.
Proof. cbn [literal]. induction items as [|v items IH]; [done|]. cbn [foldr]. rewrite list.Forall_cons, IH. tauto. Qed.

(** *** Ends: neither is white space *)
Definition solid (t : str) : Prop := ∃ f l, head t = Some f ∧ list.last t = Some l ∧ is_whitespace f = false ∧ is_whitespace l = false.
Lemma trim_solid (t before after : str) :
  solid t → Forall (λ c, c = 32%N) before → Forall (λ c, c = 32%N) after → trim (before ++ t ++ after) = t.
Proof.
  intros (f & l & Hf & Hl & Hwf & Hwl) Hb Ha. unfold trim, trim_both, trim_end.
  assert (∀ s u, Forall (λ c, c = 32%N) s → trim_start is_whitespace (s ++ u) = trim_start is_whitespace u) as Hspaces.
  { induction s as [|c s IH]; intros u; [done|]. intros [-> Hs]%list.Forall_cons. cbn. by apply IH. }
  rewrite Hspaces by done. rewrite (trim_start_bounded (t ++ after) f) by (done || by apply head_app).
  rewrite rev_app_distr, Hspaces by (apply list.Forall_forall; intros c Hc; rewrite list.Forall_forall in Ha; apply Ha, list_elem_of_In, in_rev, list_elem_of_In, Hc).
  rewrite (trim_start_bounded (rev t) l), rev_involutive; [done| |done]. apply last_Some in Hl as [init ->]. by rewrite rev_app_distr.
Qed.
Lemma trim_whole (t : str) : solid t → trim t = t.
Proof. intros H. rewrite <- (app_nil_r t) at 1. by apply (trim_solid t [] []). Qed.
Lemma solid_chars (p : char → bool) (t : str) : (∀ c, p c = true → is_whitespace c = false) → forallb p t = true → t ≠ [] → solid t.
Proof.
  intros Hp Ht Hn. destruct t as [|c t]; [done|]. destruct (list.last (c :: t)) as [l|] eqn:El; [|by apply last_None in El].
  exists c, l. rewrite forallb_forall in Ht. split_and!; [done|done|apply Hp, Ht; by left|apply Hp, Ht]. apply last_Some in El as [init ->]. apply in_or_app. right. by left.
Qed.
Lemma solid_enclosed (o c : char) (t : str) : is_whitespace o = false → is_whitespace c = false → solid ([o] ++ t ++ [c]).
Proof. intros Ho Hc. exists o, c. split_and!; [done|by rewrite app_assoc, last_snoc|done|done]. Qed.

(** *** What is passed over between two commas *)
Definition passes (t : str) : Prop :=
  ∀ depth current rest, 0 <= depth → items_from depth false false current (t ++ rest) = items_from depth false false (rev t ++ current) rest.
Definition unmarked (c : char) : bool := negb (one_of "{[()]}," c || (c =? 34)%N).
Lemma passes_app (s t : str) : passes s → passes t → passes (s ++ t).
Proof. intros Hs Ht depth current rest Hd. rewrite <- app_assoc, Hs, Ht by done. by rewrite rev_app_distr, app_assoc. Qed.
Lemma passes_unmarked (t : str) : forallb unmarked t = true → passes t.
Proof.
  intros Ht depth current rest Hd. revert current; induction t as [|c t IH]; intros current; [done|]. cbn [forallb] in Ht. apply andb_true_iff in Ht as [Hc Ht].
  cbn [app items_from rev]. rewrite <- app_assoc. cbn [app].
  assert ((c =? 34)%N = false ∧ one_of "{[(" c = false ∧ one_of "}])" c = false ∧ (c =? 44)%N = false) as (-> & -> & -> & ->)
    by (revert Hc; unfold unmarked; lazy -[N.eqb negb orb andb]; lia).
  cbn [andb]. by apply IH.
Qed.
Lemma escape_cases (c : char) : (escape c = [92%N; c] ∧ (c = 34 ∨ c = 92)%N) ∨ (escape c = [c] ∧ (c =? 34)%N = false ∧ (c =? 92)%N = false).
Proof. unfold escape. destruct ((c =? 34) || (c =? 92))%N eqn:E; [left|right]; (split; [done|lia]). Qed.
Lemma passes_quoted (text : str) : passes (quote text).
Proof.
  intros depth current rest Hd.
  assert (∀ cur, items_from depth true false cur (flat_map escape text ++ [34%N] ++ rest) = items_from depth false false ([34%N] ++ rev (flat_map escape text) ++ cur) rest) as H.
  { induction text as [|c text IH]; intros cur; [done|]. cbn [flat_map]. rewrite <- app_assoc, rev_app_distr, <- app_assoc.
    destruct (escape_cases c) as [[-> _]|[-> [E1 E2]]]; cbn [app items_from rev].
    - change (92 =? 92)%N with true. cbn [andb]. cbn iota. apply IH.
    - rewrite E1, E2. cbn [andb]. apply IH. }
  unfold quote. rewrite <- !app_assoc. cbn [app items_from andb]. change (34 =? 34)%N with true. cbn iota. cbn [negb].
  change (34%N :: rest) with ([34%N] ++ rest). rewrite H. cbn [app rev]. rewrite rev_app_distr. cbn [rev app]. by rewrite <- app_assoc.
Qed.
(** Between brackets no comma separates. *)
Lemma passes_enclosed (o c : char) (t : str) :
  one_of "{[(" o = true → one_of "}])" o = false → one_of "{[(" c = false → one_of "}])" c = true →
  (∀ depth current rest, 0 < depth → items_from depth false false current (t ++ rest) = items_from depth false false (rev t ++ current) rest) →
  passes ([o] ++ t ++ [c]).
Proof.
  intros Ho1 Ho2 Hc1 Hc2 Ht depth current rest Hd. rewrite <- !app_assoc. cbn [app items_from]. rewrite Ho1, Ho2. cbn [andb].
  assert ((o =? 34)%N = false ∧ (o =? 44)%N = false) as [-> ->] by (split; apply not_true_iff_false; intros ->%N.eqb_eq; discriminate Ho1).
  assert ((c =? 34)%N = false ∧ (c =? 44)%N = false) as [Hq Hk] by (split; apply not_true_iff_false; intros ->%N.eqb_eq; discriminate Hc2).
  cbn [andb]. rewrite Ht by lia. cbn [items_from]. rewrite Hc1, Hc2, Hq, Hk. cbn [andb]. rewrite Z.add_simpl_r. cbn [rev]. rewrite rev_app_distr. cbn [rev app]. by rewrite <- app_assoc.
Qed.
Lemma passes_joined (ts : list str) :
  Forall passes ts → ∀ depth current rest, 0 < depth →
  items_from depth false false current (join ", " ts ++ rest) = items_from depth false false (rev (join ", " ts) ++ current) rest.
Proof.
  induction 1 as [|t ts Ht Hts IH]; intros depth current rest Hd; [done|]. destruct ts as [|t' ts]; [apply Ht; lia|].
  change (join ", " (t :: t' :: ts)) with (t ++ ", " ++ join ", " (t' :: ts)). rewrite <- !app_assoc, Ht by lia.
  change (", " : str) with [44%N; 32%N]. cbn [app items_from]. change (one_of "{[(" 44) with false. change (one_of "}])" 44) with false. change (one_of "{[(" 32) with false. change (one_of "}])" 32) with false.
  assert ((depth =? 0) = false) as Hz by lia. change (44 =? 34)%N with false. change (44 =? 44)%N with true. change (32 =? 34)%N with false. change (32 =? 44)%N with false.
  cbn [andb]. cbn iota. rewrite Hz.
  rewrite IH by done. rewrite rev_app_distr. cbn [rev app]. rewrite <- !app_assoc. done.
Qed.

(** The items of joined texts are those texts. *)
Lemma items_joined (ts : list str) : Forall passes ts → Forall solid ts → split_items (join ", " ts) = ts.
Proof.
  intros Hp Hs. unfold split_items. destruct Hp as [|t ts Ht Hts]; [done|]. apply list.Forall_cons in Hs as [Hst Hs].
  assert (∀ before, Forall (λ c, c = 32%N) before → List.filter nonempty (map trim (items_from 0 false false before (join ", " (t :: ts)))) = t :: ts) as H; [|by apply H].
  assert (∀ u, solid u → nonempty u = true) as Hne by (intros u (f & _ & Hf & _); by destruct u).
  assert (∀ before t, Forall (λ c, c = 32%N) before → solid t → trim (rev (rev t ++ before)) = t) as Htrim.
  { intros before u Hb Hu. rewrite rev_app_distr, rev_involutive. rewrite <- (app_nil_r u) at 1. apply trim_solid; [done| |done].
    apply list.Forall_forall. intros c Hc. rewrite list.Forall_forall in Hb. by apply Hb, list_elem_of_In, in_rev, list_elem_of_In. }
  revert t Ht Hst; induction Hts as [|t' ts Ht' Hts IH]; intros t Ht Hst before Hb.
  - change (join ", " [t]) with t. rewrite <- (app_nil_r t) at 1. rewrite Ht by done. cbn [items_from map].
    rewrite Htrim by done. cbn [List.filter]. by rewrite Hne.
  - change (join ", " (t :: t' :: ts)) with (t ++ ", " ++ join ", " (t' :: ts)). rewrite Ht by done.
    change (", " : str) with [44%N; 32%N]. cbn [app items_from].
    change (one_of "{[(" 44) with false. change (one_of "}])" 44) with false. change (one_of "{[(" 32) with false. change (one_of "}])" 32) with false.
    change (44 =? 34)%N with false. change (44 =? 44)%N with true. change (32 =? 34)%N with false. change (32 =? 44)%N with false.
    cbn [andb]. cbn iota. change (0 =? 0) with true. cbn iota. cbn [map]. rewrite Htrim by done. cbn [List.filter]. rewrite Hne by done. f_equal. apply list.Forall_cons in Hs as [Hst' Hs]. apply (IH Hs t'); [done..|by constructor].
Qed.

(** *** Calls within calls are on shorter texts *)
Lemma items_from_length (depth : Z) (quoting escaping : bool) (current s item : str) :
  item ∈ items_from depth quoting escaping current s → (length item <= length current + length s)%nat.
Proof.
  revert depth quoting escaping current; induction s as [|c s IH]; intros depth quoting escaping current; cbn [items_from].
  - intros ->%list_elem_of_singleton. rewrite length_rev. lia.
  - repeat match goal with |- context [if ?b then _ else _] => destruct b end; try (intros H%IH; cbn [length] in *; lia);
      (intros [->|H%IH]%elem_of_cons; [rewrite length_rev|]; cbn [length] in *; lia).
Qed.
Lemma split_items_length (body item : str) : item ∈ split_items body → (length item <= length body)%nat.
Proof.
  intros [Hin _]%list_elem_of_In%filter_In. apply list_elem_of_In, list_elem_of_fmap in Hin as (t & -> & Ht). apply items_from_length in Ht.
  pose proof (trim_length t). cbn [length] in Ht. lia.
Qed.
Lemma read_step_ext (f g : str → Value) (text : str) : (∀ t, (length t < length text)%nat → f t = g t) → read_step f text = read_step g text.
Proof.
  intros H. unfold read_step. pose proof (trim_length text) as Ht. set (raw := trim text) in *. clearbody raw.
  assert (∀ o c, enclosed o c raw = true → (0 < length raw)%nat) as Hpos by (intros o c; apply enclosed_length).
  assert (∀ item, enclosed 123 125 raw = true ∨ enclosed 91 93 raw = true → item ∈ split_items (inside raw) → (length item < length text)%nat) as Hitem.
  { intros item He Hin. apply split_items_length in Hin. rewrite inside_length in Hin. assert (0 < length raw)%nat by (destruct He; eauto). lia. }
  repeat (match goal with |- context [match ?x with _ => _ end] => lazymatch x with enclosed _ _ _ => fail | _ => destruct x; try reflexivity end end).
  destruct (enclosed 123 125 raw) eqn:E1.
  - unfold read_hash. f_equal. apply map_ext_in. intros item Hin%list_elem_of_In. destruct (split_once item 58) as [[k held]|] eqn:Es; cbn [default from_option]; f_equal; apply H.
    + apply split_once_length in Es. pose proof (trim_length held). pose proof (Hitem item ltac:(auto) Hin). lia.
    + pose proof (Hitem item ltac:(auto) Hin). cbn. lia.
  - destruct (enclosed 91 93 raw) eqn:E2; [|done]. unfold read_array. f_equal. apply map_ext_in. intros item Hin%list_elem_of_In. apply H.
    pose proof (trim_length item). pose proof (Hitem item ltac:(auto) Hin). lia.
Qed.
Lemma read_levels (levels : nat) (text : str) : (length text < levels)%nat → read_to levels text = read text.
Proof.
  unfold read. assert (∀ n m t, (length t < n)%nat → (length t < m)%nat → read_to n t = read_to m t) as H; [|intros Hl; apply H; lia].
  induction n as [|n IH]; intros [|m] t Hn Hm; try lia. cbn [read_to]. apply read_step_ext. intros u Hu. apply IH; lia.
Qed.
Lemma read_eq (text : str) : read text = read_step read text.
Proof. unfold read at 1. cbn [read_to]. apply read_step_ext. intros t Ht. by apply read_levels. Qed.

(** *** The readers, by the first character *)
Definition not_word (raw : str) : Prop := bool_decide (raw = []) || str_eqb raw "nil" = false ∧ str_eqb raw "true" = false ∧ str_eqb raw "false" = false.
Lemma str_eqb_false (p : str → bool) (s t : str) : p s = true → p t = false → str_eqb s t = false.
Proof. intros Hs Ht. unfold str_eqb. apply bool_decide_eq_false. intros ->. congruence. Qed.
Lemma not_word_by (p : str → bool) (raw : str) : p raw = true → existsb p [[]; "nil" : str; "true" : str; "false" : str] = false → not_word raw.
Proof.
  intros Hp Hw. cbn [existsb] in Hw. repeat (apply orb_false_iff in Hw as [? Hw]).
  split_and!; [apply orb_false_iff; split; [apply bool_decide_eq_false; intros ->; congruence|]|..]; by apply (str_eqb_false p).
Qed.
Lemma not_number (c : char) (rest : str) : (c =? 45)%N = false → is_digit c = false → is_integer (c :: rest) = false ∧ is_float (c :: rest) = false.
Proof.
  intros Hm Hd. assert (unsigned (c :: rest) = c :: rest) as Hu.
  { unfold unsigned, strip_prefix. change ("-" : str) with [45%N]. rewrite starts_with_one, Hm. done. }
  split; [unfold is_integer, is_integer_literal; rewrite Hu; unfold all_digits; cbn [forallb]; by rewrite Hd, andb_false_r|].
  unfold is_float. rewrite Hu. cbn [split_once]. destruct (c =? 46)%N; [done|]. destruct (split_once rest 46) as [[a b]|]; [|done].
  unfold all_digits. cbn [forallb]. by rewrite Hd, !andb_false_r.
Qed.
Lemma is_float_text (t : str) : is_float t = true → is_float_literal t = true ∧ is_integer t = false.
Proof.
  unfold is_float, is_float_literal, is_integer, is_integer_literal. destruct (split_once (unsigned t) 46) as [[a b]|] eqn:E; [|done].
  intros [[[_ Hb]%andb_true_iff Ha]%andb_true_iff Hf]%andb_true_iff. rewrite Ha, Hb, Hf. split; [done|]. apply split_once_join in E. rewrite E.
  unfold all_digits. rewrite !forallb_app. cbn [forallb]. change (is_digit 46) with false. cbn [andb]. by rewrite !andb_false_r.
Qed.
Lemma bounded_solid (t : str) : bounded t → solid t.
Proof.
  intros (f & l & Hf & Hl & Hwf & Hwl). exists f, l. split_and!; [done|done| |].
  - destruct Hwf as [Hw%name_char_cases|[-> | ->]]; marks.
  - destruct Hwl as [Hw%word_char_cases| ->]; marks.
Qed.
Lemma operand_between (t : str) : operand t → solid t ∧ passes t.
Proof.
  intros Ho. split; [apply bounded_solid; by eapply written_bounded, written_operand|].
  destruct Ho as (sign & body & last & -> & Hs & Hb & _). apply passes_unmarked. rewrite forallb_app.
  assert (forallb unmarked body = true) as -> by (rewrite forallb_forall in Hb |- *; intros c Hc%Hb%name_char_cases; marks).
  by destruct Hs as [-> | ->].
Qed.
Lemma word_unmarked (c : char) : symbol_char c = true → unmarked c = true ∧ is_whitespace c = false ∧ (c =? 45)%N = false.
Proof. unfold symbol_char. intros [H%word_char_cases|H]%orb_true_iff; [split_and!; marks|]. split_and!; revert H; marks. Qed.

Section read_by.
Context (read : str → Value).
Lemma read_int (n : Z) : in_i64 n = true → read_step read (dec_Z n) = Int n.
Proof.
  intros Hn. pose proof (integer_text n) as Hi. destruct (operand_between _ (integer_operand _ Hi)) as [Hs _].
  destruct (not_word_by is_integer_literal _ Hi eq_refl) as (Hw & Ht & Hf). unfold read_step. rewrite trim_whole, Hw, Ht, Hf by done.
  unfold is_integer. by rewrite Hi, parse_i64_dec_Z.
Qed.
Lemma read_float (t : str) (f : f64) : is_float t = true → parse_f64 t = Some f → read_step read t = Float f.
Proof.
  intros Hf Hp. destruct (is_float_text t Hf) as [Hl Hi]. destruct (operand_between _ (float_operand _ Hl)) as [Hs _].
  destruct (not_word_by is_float _ Hf eq_refl) as (Hw & Ht & Hff). unfold read_step. by rewrite trim_whole, Hw, Ht, Hff, Hi, Hf, Hp by done.
Qed.
(** A text that begins with a mark is no word and no number. *)
Lemma read_marked (c : char) (rest : str) : solid (c :: rest) → one_of ":'[{" c || (c =? 34)%N = true →
  read_step read (c :: rest) = let raw := c :: rest in
    clause strip_prefix raw ":" is name :-> Symbol name else
    clause whole_string raw is joined :-> Str joined else
    if is_quoted raw then Str (unquote raw)
    else if is_single_quoted raw then Str (unquote_single raw)
    else if enclosed 123 125 raw then read_hash read raw
    else if enclosed 91 93 raw then read_array read raw
    else Bare raw.
Proof.
  intros Hs Hc. unfold read_step. rewrite trim_whole by done.
  assert (not_word (c :: rest)) as (-> & -> & ->).
  { apply (not_word_by (λ s, match s with c :: _ => one_of ":'[{" c || (c =? 34)%N | [] => false end)); [done|reflexivity]. }
  assert ((c =? 45)%N = false ∧ is_digit c = false) as [Hm Hd] by (split; revert Hc; marks).
  by destruct (not_number c rest Hm Hd) as [-> ->].
Qed.

(** Lists, hashes, names. *)
Lemma inside_enclosed (o c : char) (t : str) : inside ([o] ++ t ++ [c]) = t.
Proof. unfold inside. cbn [app tail]. rewrite rev_app_distr. cbn [rev app tail]. apply rev_involutive. Qed.
Lemma enclosed_by (o c : char) (t : str) : enclosed o c ([o] ++ t ++ [c]) = true.
Proof.
  unfold enclosed, ends_with. change ([o] ++ t ++ [c]) with ((o :: t) ++ [c]). rewrite rev_app_distr. cbn [rev app].
  by rewrite !starts_with_one, !N.eqb_refl.
Qed.
Lemma starts_apart (c d : char) (rest : str) : (c =? d)%N = false → starts_with (c :: rest) [d] = false.
Proof. intros H. by rewrite starts_with_one. Qed.
Lemma not_enclosed (o c d : char) (rest : str) : (d =? o)%N = false → enclosed o c (d :: rest) = false.
Proof. intros H. unfold enclosed. by rewrite starts_apart. Qed.
Lemma read_bracketed (c d : char) (t : str) : one_of "[{" c = true → is_whitespace d = false →
  read_step read ([c] ++ t ++ [d]) = let raw := [c] ++ t ++ [d] in
    if enclosed 123 125 raw then read_hash read raw else if enclosed 91 93 raw then read_array read raw else Bare raw.
Proof.
  intros Hc Hd. assert (c = 91 ∨ c = 123)%N as Hcs by (revert Hc; marks).
  assert (is_whitespace c = false) as Hs by (by destruct Hcs as [-> | ->]).
  cbn [app]. rewrite read_marked; [|by apply (solid_enclosed c d t)|by destruct Hcs as [-> | ->]].
  cbn zeta. unfold strip_prefix, whole_string, is_quoted, is_single_quoted. change (":" : str) with [58%N]. change ("'" : str) with [39%N]. change dquote with [34%N].
  assert ((c =? 58)%N = false ∧ (c =? 39)%N = false ∧ (c =? 34)%N = false) as (H1 & H2 & H3) by (by destruct Hcs as [-> | ->]).
  rewrite !starts_apart by done. cbn [orb]. cbn iota. rewrite !not_enclosed by done. by rewrite !andb_false_r.
Qed.
Lemma read_items (items : list str) : Forall passes items → Forall solid items → (∀ t, t ∈ items → trim t = t) →
  read_step read ("[" ++ join ", " items ++ "]") = Array (map read items).
Proof.
  intros Hp Hs Ht. change ("[" ++ join ", " items ++ "]") with ([91%N] ++ join ", " items ++ [93%N]). rewrite read_bracketed by done. cbn zeta.
  rewrite enclosed_by. unfold enclosed at 1. change ([91%N] ++ join ", " items ++ [93%N]) with (91%N :: join ", " items ++ [93%N]) at 1. rewrite starts_apart by done. cbn [andb].
  unfold read_array. rewrite inside_enclosed, items_joined by done. f_equal. apply map_ext_in. intros t Hin%list_elem_of_In. by rewrite Ht.
Qed.
Lemma word_chars (t : str) : word t → passes t ∧ solid t ∧ 58%N ∉ t.
Proof.
  intros [Hc Hn]. split_and!.
  - apply passes_unmarked. rewrite forallb_forall in Hc |- *. intros c Hin%Hc. apply word_unmarked. unfold symbol_char. by rewrite Hin.
  - apply (solid_chars word_char); [|done|done]. intros c Hin. apply word_unmarked. unfold symbol_char. by rewrite Hin.
  - intros Hin%list_elem_of_In. rewrite forallb_forall in Hc. by apply Hc in Hin.
Qed.
Lemma pair_between (key held : str) : word key → passes held → solid held → passes (key ++ ": " ++ held) ∧ solid (key ++ ": " ++ held).
Proof.
  intros (Hp & (f & _ & Hf & _ & Hwf & _) & _)%word_chars Hph (_ & l & _ & Hl & _ & Hwl). split.
  - by repeat apply passes_app.
  - exists f, l. split_and!; [by apply head_app| |done|done]. by rewrite !last_app, Hl.
Qed.
Lemma read_pairs (pairs : list (str * str)) :
  Forall (λ kv, word kv.1 ∧ passes kv.2 ∧ solid kv.2) pairs →
  read_step read ("{" ++ join ", " (map (λ kv, kv.1 ++ ": " ++ kv.2) pairs) ++ "}") = Hash (map (λ kv, (kv.1, read kv.2)) pairs).
Proof.
  intros Hp. set (items := map (λ kv : str * str, kv.1 ++ ": " ++ kv.2) pairs). change (read_step read ([123%N] ++ join ", " items ++ [125%N]) = Hash (map (λ kv, (kv.1, read kv.2)) pairs)). rewrite read_bracketed by done.
  cbn zeta. rewrite enclosed_by. unfold read_hash. rewrite inside_enclosed, items_joined.
  - f_equal. subst items. rewrite map_map. apply map_ext_in. intros [key held] Hin%list_elem_of_In. rewrite list.Forall_forall in Hp.
    destruct (Hp _ Hin) as (Hk & _ & Hs). destruct (word_chars _ Hk) as (_ & Hks & Hn). cbn [fst snd] in *.
    change (key ++ ": " ++ held) with (key ++ 58%N :: 32%N :: held). rewrite split_once_single by done. cbn [default from_option].
   unfold id.     rewrite (trim_whole key) by done. f_equal. f_equal. rewrite <- (app_nil_r held) at 1. apply (trim_solid held [32%N] []); [done|by constructor|done].
  - subst items. apply List.Forall_map. apply (list.Forall_impl _ _ _ Hp). intros [k v] (Hk & Hv & Hs). by apply pair_between.
  - subst items. apply List.Forall_map. apply (list.Forall_impl _ _ _ Hp). intros [k v] (Hk & Hv & Hs). by apply pair_between.
Qed.
Lemma symbol_between (name : str) : forallb symbol_char name = true → solid (":" ++ name) ∧ passes (":" ++ name).
Proof.
  intros Hc. split.
  - apply (solid_chars (λ c, symbol_char c || (c =? 58)%N)); [|cbn [app]|done].
    + intros c [Hs| ->%N.eqb_eq]%orb_true_iff; [by apply word_unmarked|done].
    + change (":" ++ name) with (58%N :: name). cbn [forallb]. apply andb_true_iff; split; [done|]. rewrite forallb_forall in Hc |- *. intros c Hin%Hc. by rewrite Hin.
  - apply passes_unmarked. change (":" ++ name) with (58%N :: name). cbn [forallb]. apply andb_true_iff; split; [done|]. rewrite forallb_forall in Hc |- *. intros c Hin%Hc. by apply word_unmarked.
Qed.
Lemma read_symbol (name : str) : forallb symbol_char name = true → read_step read (":" ++ name) = Symbol name.
Proof.
  intros [Hs _]%symbol_between. change (":" ++ name) with (58%N :: name) in *. rewrite read_marked by done. cbn zeta.
  unfold strip_prefix. change (":" : str) with [58%N]. by rewrite starts_with_one.
Qed.
Lemma quote_solid (text : str) : solid (quote text).
Proof. by apply solid_enclosed. Qed.
Lemma body_quoted (before text : str) : literal_body 34 false before (flat_map escape text ++ [34%N]) = Some (rev before ++ flat_map escape text, []).
Proof.
  revert before; induction text as [|c text IH]; intros before; [by rewrite app_nil_r|]. cbn [flat_map]. rewrite <- app_assoc.
  destruct (escape_cases c) as [[-> _]|[-> [E1 E2]]]; cbn [app literal_body].
  - change (92 =? 92)%N with true. cbn iota. rewrite IH. cbn [rev]. by rewrite <- !app_assoc.
  - rewrite E1, E2. rewrite IH. cbn [rev]. by rewrite <- app_assoc.
Qed.
Lemma escaped_back (c : char) (rest : str) : (c = 34 ∨ c = 92)%N → escaped c rest = ([c], rest).
Proof. by intros [-> | ->]. Qed.
Lemma unescape_quoted (text : str) : unescape_double_quoted_inner (flat_map escape text) = text.
Proof.
  unfold unescape_double_quoted_inner. assert (∀ turns, (length (flat_map escape text) <= turns)%nat → unescape_double turns (flat_map escape text) = text) as H; [|by apply H].
  induction text as [|c text IH]; intros turns Hl; [by destruct turns|]. cbn [flat_map] in *. rewrite length_app in Hl.
  destruct (escape_cases c) as [[E Hc]|[E [E1 E2]]]; rewrite E in Hl |- *; (destruct turns as [|turns]; [cbn [length] in Hl; lia|]); cbn [app unescape_double length] in *.
  - change (92 =? 92)%N with true. cbn [negb]. cbn iota. rewrite escaped_back by done. cbn [app]. rewrite IH by lia. done.
  - rewrite E2. cbn [negb]. rewrite IH by lia. done.
Qed.
Lemma read_quoted (text : str) : read_step read (quote text) = Str text.
Proof.
  pose proof (quote_solid text) as Hs. unfold quote in *. cbn [app] in *. rewrite read_marked by done. cbn zeta.
  unfold strip_prefix. change (":" : str) with [58%N]. rewrite starts_apart by done. unfold whole_string. change dquote with [34%N].
  rewrite starts_with_one. change (34 =? 34)%N with true. cbn [orb]. unfold scan_adjacent_strings. cbn [length adjacent_strings].
  change (is_quote 34) with true. cbn iota. rewrite body_quoted. cbn [mbind option_bind trim_start rev app]. cbn iota.
  change (34 =? 34)%N with true. cbn iota. rewrite unescape_quoted. by rewrite bool_decide_true.
Qed.
Lemma bare_between (t : str) : bare_word t → solid t ∧ passes t.
Proof. intros [Hw _]. by destruct (word_chars t Hw) as (? & ? & _). Qed.
Lemma read_bare (t : str) : bare_word t → read_step read t = Bare t.
Proof.
  intros Hb. destruct (bare_between t Hb) as [Hs _]. destruct Hb as ([Hc Hn] & (f & Hf & Hd) & Hk). destruct t as [|c t]; [done|]. injection Hf as ->.
  cbn [forallb] in Hc. apply andb_true_iff in Hc as [Hc _]. assert (symbol_char f = true) as Hsym by (unfold symbol_char; by rewrite Hc).
  destruct (word_unmarked f Hsym) as (_ & _ & Hm).
  unfold read_step. rewrite trim_whole by done. unfold keyword in Hk. cbn [existsb] in Hk. rewrite !orb_false_iff in Hk. destruct Hk as (-> & -> & -> & _).
  cbn [orb]. rewrite bool_decide_false by done. destruct (not_number f t Hm Hd) as [-> ->]. cbn [orb]. cbn iota.
  unfold strip_prefix, whole_string, is_quoted, is_single_quoted. change (":" : str) with [58%N]. change ("'" : str) with [39%N]. change dquote with [34%N].
  apply word_char_cases in Hc. rewrite !starts_apart by lia. cbn [orb]. cbn iota. rewrite !not_enclosed by lia. by rewrite !andb_false_r.
Qed.
End read_by.

(** What is rendered stands between commas, and is read back. *)
Definition comes_back (v : Value) : Prop := literal v → solid (render v) ∧ passes (render v) ∧ read (render v) = v.
Lemma values_come_back (v : Value) : comes_back v.
Proof.
  induction v as [|b|n|f|t|n|t|pairs IH|items IH] using value_tree_ind; unfold comes_back; intros Hl; rewrite read_eq.
  - split_and!; [by exists 110%N, 108%N|by apply passes_unmarked|done].
  - destruct b; (split_and!; [|by apply passes_unmarked|done]); [by exists 116%N, 101%N|by exists 102%N, 101%N].
  - destruct (operand_between _ (integer_operand _ (integer_text n))). split_and!; [done|done|by apply read_int].
  - destruct Hl as [Hf Hp]. destruct (is_float_text _ Hf) as [Ht _]. destruct (operand_between _ (float_operand _ Ht)). split_and!; [done|done|by apply read_float].
  - split_and!; [apply quote_solid|apply passes_quoted|apply read_quoted].
  - destruct (symbol_between n Hl). split_and!; [done|done|by apply read_symbol].
  - destruct (bare_between t Hl). split_and!; [done|done|by apply read_bare].
  - rewrite literal_hash in Hl. assert (Forall (λ kv : str * str, word kv.1 ∧ passes kv.2 ∧ solid kv.2) (map (λ kv, (kv.1, render kv.2)) pairs)) as Hp.
    { apply List.Forall_map. rewrite list.Forall_forall in IH, Hl |- *. intros kv Hin. destruct (Hl kv Hin) as [Hk Hv]. destruct (IH kv Hin Hv) as (? & ? & _). done. }
    assert (render (Hash pairs) = [123%N] ++ join ", " (map (λ kv, kv.1 ++ ": " ++ kv.2) (map (λ kv, (kv.1, render kv.2)) pairs)) ++ [125%N]) as E
      by (cbn [render]; by rewrite map_map).
    rewrite E. split_and!; [by apply solid_enclosed|apply passes_enclosed; try done; apply passes_joined|].
    + apply List.Forall_map. apply (list.Forall_impl _ _ _ Hp). intros [k t] (Hk & Ht & Hs). by apply pair_between.
    + refine (eq_trans (read_pairs read _ Hp) _). rewrite map_map. cbn [fst snd]. f_equal. rewrite <- (map_id pairs) at 2. apply map_ext_in. intros [k w] Hin%list_elem_of_In.
      rewrite list.Forall_forall in IH, Hl. destruct (Hl _ Hin) as [_ Hw]. destruct (IH _ Hin Hw) as (_ & _ & Hr). cbn [fst snd] in *. by rewrite Hr.
  - rewrite literal_array in Hl. assert (Forall passes (map render items) ∧ Forall solid (map render items)) as [Hp Hs].
    { rewrite !List.Forall_map. rewrite list.Forall_forall in IH, Hl. split; apply list.Forall_forall; intros w Hin; by destruct (IH w Hin (Hl w Hin)) as (? & ? & _). }
    change (render (Array items)) with ([91%N] ++ join ", " (map render items) ++ [93%N]).
    split_and!; [by apply solid_enclosed|apply passes_enclosed; try done; by apply passes_joined|].
    refine (eq_trans (read_items read (map render items) Hp Hs _) _).
    2: { f_equal. rewrite map_map. rewrite <- (map_id items) at 2. apply map_ext_in. intros w Hin%list_elem_of_In. rewrite list.Forall_forall in IH, Hl. by apply (IH w Hin (Hl w Hin)). }
    intros t Hin. rewrite list.Forall_forall in Hs. by apply trim_whole, Hs.
Qed.

(** ** Properties *)

(** C22: a literal is read back as it was rendered.  A rendered value is read as that
    value, whatever its texts hold, its lists and hashes nested in one another: integers
    of 64 bits, floats in plain decimals, names as symbols, bare words and keys. *)
Theorem literals_are_read_back (value : Value) : literal value → read (render value) = value.
Proof. intros H. by apply values_come_back. Qed.

(** ** At concrete inputs *)

(** A list of a hash and a text that holds what separates them. *)
Definition nested : Value :=
  Array [Hash [("code" : str, Symbol "eur"); ("rate" : str, Float (f64_lit "1.5")); ("tags" : str, Array [])]; Str ("], {" ++ dquote ++ "a\" ++ dquote); Int (-12); Bare "open"; Nil].
Lemma literals_are_read_back_witness : literal nested ∧ read (render nested) = nested.
Proof.
  assert (literal nested) as H by (vm_compute; repeat first [split | reflexivity | discriminate | eexists]). split; [exact H|]. exact (literals_are_read_back nested H).
Defined.
