(* ===== verification/HostNeeds.v ===== *)
(** What the host answers before a command or a query reaches the kernel
    ([src/rust/host/core/src/needs.rs], [fill_arguments] of
    [src/rust/host/core/src/dispatch.rs]): the outside facts it declares it needs,
    and its arguments' declared defaults, both read off the domain's IR. *)
From S2P Require Export Serde.
Open Scope Z_scope.

(** [Origin]: where a dispatch comes from. *)
Inductive Origin := External | Request | HostInternal.
#[global] Instance Origin_eq_dec : EqDecision Origin.
Proof. solve_decision. Defined.

(** [Supplied]: what happens to a fact the caller already supplied. *)
Inductive Supplied := Kept | Replaced.

Section needs.
Context {V : Type} `{SV : Serde V}.

(** [named]. *)
Definition named (value : V) (name : str) : bool := bool_decide (sv_get_str value "name" = Some name).

(** A command's or a query's needs, each with the type of the attribute of that
    name. *)
Definition needs_of (declaration : V) : list (str * option str) :=
  let attributes := sv_list declaration "attributes" in
  map (λ fact, (fact, a ← find (λ a, named a fact) attributes; sv_get_str a "type"))
      (omap (λ n, sv_get_str n "fact") (sv_list declaration "needs")).

(** [rsplit_once('.')], then the last part of the qualified name. *)
Definition aggregate_and_name (verb : str) : option (str * str) :=
  '(qualified, name) ← rsplit_once verb 46%N; Some (last_piece qualified "::", name).

(** [declared_needs]: of every aggregate of that name, every command of that name. *)
Definition declared_needs (domain_ir : V) (verb : str) : list (str * option str) :=
  match aggregate_and_name verb with
  | None => []
  | Some (aggregate, command_name) =>
    flat_map needs_of
      (List.filter (λ c, named c command_name)
        (flat_map (λ a, sv_list a "commands")
          (List.filter (λ a, named a aggregate) (sv_list domain_ir "aggregates"))))
  end.

Definition qualified_verb (prefix : str) (command : V) : str :=
  prefix ++ "." ++ default [] (sv_get_str command "name").

(** [table]: the kernel's input [needs]. *)
Definition need_entry (need : str * option str) : V :=
  sv_obj [("fact" : str, sv_str need.1); ("type" : str, sv_str (default [] need.2))].
Definition needs_table (domain_ir : V) : V :=
  let domain := default [] (sv_get_str domain_ir "name") in
  fold_left (λ verbs aggregate,
    let prefix := domain ++ "::" ++ default [] (sv_get_str aggregate "name") in
    fold_left (λ verbs command,
      let verb := qualified_verb prefix command in
      match declared_needs domain_ir verb with
      | [] => verbs
      | needs => sv_insert verbs verb (sv_array (map need_entry needs))
      end) (sv_list aggregate "commands") verbs) (sv_list domain_ir "aggregates") sv_object.

(** [command_for]: on the aggregate, or on an entity nested in it. *)
Fixpoint entity_at (node : V) (path : list str) : option V :=
  match path with
  | [] => Some node
  | entity :: rest => e ← find (λ e, named e entity) (sv_list node "entities"); entity_at e rest
  end.
Definition command_for (domain_ir : V) (verb : str) : option V :=
  match split verb "." with
  | first :: path =>
    command_name ← list.last path;
    let path := removelast path in
    node ← find (λ a, named a (last_piece first "::")) (sv_list domain_ir "aggregates");
    node ← entity_at node path;
    find (λ c, named c command_name) (sv_list node "commands")
  | _ => None
  end.

(** [declared_defaults]; a null default is none. *)
Definition declared_default (attribute : V) : option (str * V) :=
  value ← sv_get attribute "default";
  if sv_is_null value then None else name ← sv_get_str attribute "name"; Some (name, value).
Definition declared_defaults (domain_ir : V) (verb : str) : list (str * V) :=
  match command_for domain_ir verb with
  | Some command => omap declared_default (sv_list command "attributes")
  | None => []
  end.

(** [collect_defaults], [defaults_table]: [depth] bounds how deep entities nest. *)
Fixpoint collect_defaults (depth : nat) (domain_ir node : V) (prefix : str) (verbs : V) : V :=
  let verbs := fold_left (λ verbs command,
    let verb := qualified_verb prefix command in
    match declared_defaults domain_ir verb with
    | [] => verbs
    | defaults => sv_insert verbs verb (sv_obj defaults)
    end) (sv_list node "commands") verbs in
  match depth with
  | O => verbs
  | S depth =>
    fold_left (λ verbs entity, collect_defaults depth domain_ir entity (qualified_verb prefix entity) verbs)
              (sv_list node "entities") verbs
  end.
Definition defaults_table (depth : nat) (domain_ir : V) : V :=
  let domain := default [] (sv_get_str domain_ir "name") in
  fold_left (λ verbs aggregate,
    collect_defaults depth domain_ir aggregate (domain ++ "::" ++ default [] (sv_get_str aggregate "name")) verbs)
    (sv_list domain_ir "aggregates") sv_object.

(** ** Filling the facts of an invocation *)

(** [facts_mut], and the value written back where it was found. *)
Definition with_facts (args : V) (f : V → V) : V :=
  match sv_get args "with" with
  | Some inner =>
    if sv_is_object inner then sv_insert args "with" (f inner)
    else if sv_is_object args then f args else args
  | None => if sv_is_object args then f args else args
  end.

(** [answer]: the clock's facts, of the seconds it shows. *)
Definition answer (now_secs : Z) (fact : str) (attribute_type : option str) : option V :=
  if str_eqb fact "now" || str_eqb fact "today" then
    let value := sv_i64 (if str_eqb fact "today" then now_secs / 86400 else now_secs) in
    Some (if bool_decide (attribute_type = Some "Integer") then value else sv_obj [("value" : str, value)])
  else None.

(** [fill]. *)
Definition fill_one (now_secs : Z) (supplied : Supplied) (facts : V) (need : str * option str) : V :=
  if match supplied with Kept => sv_contains facts need.1 | Replaced => false end then facts
  else match answer now_secs need.1 need.2 with
       | Some value => sv_insert facts need.1 value
       | None => facts
       end.
Definition fill (now_secs : Z) (supplied : Supplied) (needs : list (str * option str)) (facts : V) : V :=
  fold_left (fill_one now_secs supplied) needs facts.

Definition fill_needs (domain_ir : V) (verb : str) (now_secs : Z) (args : V) : V :=
  with_facts args (fill now_secs Kept (declared_needs domain_ir verb)).
Definition answer_needs (domain_ir : V) (verb : str) (now_secs : Z) (args : V) : V :=
  with_facts args (fill now_secs Replaced (declared_needs domain_ir verb)).

(** [declared_query_needs]: of the first aggregate and its first query of that
    name; [fill_query_needs], [answer_query_needs]. *)
Definition declared_query_needs (domain_ir : V) (question : str) : list (str * option str) :=
  match aggregate_and_name question with
  | None => []
  | Some (aggregate, query_name) =>
    match (a ← find (λ a, named a aggregate) (sv_list domain_ir "aggregates");
           find (λ q, named q query_name) (sv_list a "queries")) with
    | Some query => needs_of query
    | None => []
    end
  end.
Definition with_object (args : V) (f : V → V) : V := if sv_is_object args then f args else args.
Definition fill_query_needs (domain_ir : V) (question : str) (now_secs : Z) (args : V) : V :=
  with_object args (fill now_secs Kept (declared_query_needs domain_ir question)).
Definition answer_query_needs (domain_ir : V) (question : str) (now_secs : Z) (args : V) : V :=
  with_object args (fill now_secs Replaced (declared_query_needs domain_ir question)).

(** [fill_defaults]. *)
Definition fill_default (facts : V) (entry : str * V) : V :=
  if sv_contains facts entry.1 then facts else sv_insert facts entry.1 entry.2.
Definition fill_defaults (domain_ir : V) (verb : str) (args : V) : V :=
  match declared_defaults domain_ir verb with
  | [] => args
  | defaults => with_facts args (λ facts, fold_left fill_default defaults facts)
  end.

(** [fill_arguments]. *)
Definition fill_arguments (origin : Origin) (domain_ir : V) (verb : str) (now_secs : Z) (args : V) : V :=
  fill_defaults domain_ir verb
    (match origin with
     | Request => answer_needs domain_ir verb now_secs args
     | _ => fill_needs domain_ir verb now_secs args
     end).
End needs.

(** ** What filling does *)

Section filling.
Context {V : Type} `{SV : Serde V} `{SL : !SerdeLaws V}.

(** The facts an invocation carries: under [with], or the invocation itself. *)
Definition facts_of (args : V) : V :=
  match sv_get args "with" with
  | Some inner => if sv_is_object inner then inner else args
  | None => args
  end.

(** A function on facts that keeps an object and leaves its [with] alone. *)
Definition on_facts (f : V → V) : Prop :=
  ∀ v, sv_is_object v = true → sv_is_object (f v) = true ∧ sv_get (f v) "with" = sv_get v "with".

Lemma facts_of_with_facts (args : V) (f : V → V) :
  on_facts f → sv_is_object (facts_of args) = true → facts_of (with_facts args f) = f (facts_of args).
Proof.
  intros Hf. unfold facts_of, with_facts. destruct (sv_get args "with") as [inner|] eqn:E.
  - pose proof (sv_get_is _ _ _ E) as Ha. destruct (sv_is_object inner) eqn:Ei.
    + intros _. rewrite sv_get_insert by done. rewrite decide_True by done. by rewrite (proj1 (Hf _ Ei)).
    + rewrite Ha. intros _. rewrite (proj2 (Hf _ Ha)), E. by rewrite Ei.
  - intros Ha. rewrite Ha. by rewrite (proj2 (Hf _ Ha)), E.
Qed.

(** Where an invocation's facts are no object, nothing is filled. *)
Lemma facts_of_object (args : V) : sv_is_object args = true → sv_is_object (facts_of args) = true.
Proof. unfold facts_of. intros Ha. destruct (sv_get args "with"); [|done]. by destruct (sv_is_object v) eqn:E. Qed.

Lemma answer_names (now_secs : Z) (fact : str) (ty : option str) (v : V) :
  answer now_secs fact ty = Some v → fact = "now" ∨ fact = "today".
Proof.
  unfold answer. unfold str_eqb. destruct (bool_decide_reflect (fact = "now")) as [->|]; [by left|].
  destruct (bool_decide_reflect (fact = "today")) as [->|]; [by right|]. done.
Qed.

Lemma fill_one_get (now_secs : Z) (supplied : Supplied) (facts : V) (need : str * option str) (k : str) :
  sv_is_object facts = true →
  sv_is_object (fill_one now_secs supplied facts need) = true ∧
  (k ≠ need.1 → sv_get (fill_one now_secs supplied facts need) k = sv_get facts k).
Proof.
  intros Ho. unfold fill_one. case_match; [done|]. destruct (answer _ _ _) as [v|]; [|done].
  split; [by apply sv_insert_is|]. intros Hk. by rewrite sv_get_insert, decide_False by congruence.
Qed.

Lemma fill_object (now_secs : Z) (supplied : Supplied) (needs : list (str * option str)) (facts : V) :
  sv_is_object facts = true → sv_is_object (fill now_secs supplied needs facts) = true.
Proof.
  unfold fill. revert facts; induction needs as [|need needs IH]; intros facts Ho; [done|]. cbn [fold_left].
  apply IH. by apply (fill_one_get _ _ _ _ []).
Qed.

Lemma fill_other (now_secs : Z) (supplied : Supplied) (needs : list (str * option str)) (facts : V) (k : str) :
  sv_is_object facts = true → k ∉ needs.*1 → sv_get (fill now_secs supplied needs facts) k = sv_get facts k.
Proof.
  unfold fill. revert facts; induction needs as [|need needs IH]; intros facts Ho Hk; [done|]. cbn [fold_left].
  rewrite fmap_cons, not_elem_of_cons in Hk. destruct Hk as [Hk Hks].
  destruct (fill_one_get now_secs supplied facts need k Ho) as [Ho' Hg]. rewrite IH by done. by apply Hg.
Qed.

(** What cannot be answered is never touched: [with] among others. *)
Lemma fill_unanswerable (now_secs : Z) (supplied : Supplied) (needs : list (str * option str)) (facts : V) (k : str) :
  sv_is_object facts = true → k ≠ "now" → k ≠ "today" →
  sv_get (fill now_secs supplied needs facts) k = sv_get facts k.
Proof.
  unfold fill. revert facts; induction needs as [|need needs IH]; intros facts Ho Hn Ht; [done|]. cbn [fold_left].
  destruct (fill_one_get now_secs supplied facts need k Ho) as [Ho' Hg]. rewrite IH by done.
  destruct (decide (k = need.1)) as [->|Hk]; [|by apply Hg].
  unfold fill_one. case_match; [done|]. destruct (answer _ _ _) as [v|] eqn:Ea; [|done].
  by apply answer_names in Ea as [|].
Qed.

Lemma fill_on_facts (now_secs : Z) (supplied : Supplied) (needs : list (str * option str)) :
  on_facts (fill now_secs supplied needs).
Proof. intros v Hv. split; [by apply fill_object|by apply fill_unanswerable]. Qed.

(** A fact already there is kept. *)
Lemma fill_kept (now_secs : Z) (needs : list (str * option str)) (facts : V) (k : str) (x : V) :
  sv_is_object facts = true → sv_get facts k = Some x → sv_get (fill now_secs Kept needs facts) k = Some x.
Proof.
  unfold fill. revert facts; induction needs as [|need needs IH]; intros facts Ho Hx; [done|]. cbn [fold_left].
  destruct (fill_one_get now_secs Kept facts need k Ho) as [Ho' Hg]. apply IH; [done|].
  destruct (decide (k = need.1)) as [->|Hk]; [|by rewrite Hg].
  unfold fill_one, sv_contains. by rewrite Hx.
Qed.

(** A fact replaced is the clock's. *)
Lemma fill_replaced (now_secs : Z) (needs : list (str * option str)) (facts : V) (fact : str) (ty : option str) (x : V) :
  sv_is_object facts = true → NoDup needs.*1 → (fact, ty) ∈ needs → answer now_secs fact ty = Some x →
  sv_get (fill now_secs Replaced needs facts) fact = Some x.
Proof.
  unfold fill. revert facts; induction needs as [|need needs IH]; intros facts Ho Hnd Hin Hx;
    [by apply elem_of_nil in Hin|]. cbn [fold_left]. rewrite fmap_cons in Hnd. apply list.NoDup_cons in Hnd as [Hn Hnd].
  destruct (fill_one_get now_secs Replaced facts need fact Ho) as [Ho' _].
  apply elem_of_cons in Hin as [<-|Hin]; [|by apply IH].
  pose proof (fill_other now_secs Replaced needs (fill_one now_secs Replaced facts (fact, ty)) fact Ho' Hn) as E.
  unfold fill in E. rewrite E. unfold fill_one. cbn [fst snd]. rewrite Hx.
  rewrite sv_get_insert by done. by rewrite decide_True.
Qed.

Lemma fill_defaults_get (defaults : list (str * V)) (facts : V) :
  sv_is_object facts = true →
  sv_is_object (fold_left fill_default defaults facts) = true ∧
  ∀ k, (sv_get facts k ≠ None → sv_get (fold_left fill_default defaults facts) k = sv_get facts k) ∧
       (k ∉ defaults.*1 → sv_get (fold_left fill_default defaults facts) k = sv_get facts k).
Proof.
  revert facts; induction defaults as [|[n v] defaults IH]; intros facts Ho; [done|]. cbn [fold_left].
  assert (sv_is_object (fill_default facts (n, v)) = true ∧
    ∀ k, (sv_get facts k ≠ None ∨ k ≠ n) → sv_get (fill_default facts (n, v)) k = sv_get facts k) as [Ho' Hg].
  { unfold fill_default, sv_contains. cbn [fst snd]. destruct (sv_get facts n) eqn:E; [done|].
    split; [by apply sv_insert_is|]. intros k Hk. rewrite sv_get_insert by done.
    destruct (decide (n = k)) as [->|]; [|done]. destruct Hk; congruence. }
  destruct (IH _ Ho') as [Ho'' Hk]. split; [done|]. intros k. destruct (Hk k) as [H1 H2]. split.
  - intros Hs. rewrite H1; rewrite Hg; auto.
  - rewrite fmap_cons, not_elem_of_cons. intros [Hne Hnin]. rewrite H2 by done. rewrite Hg by auto. done.
Qed.
End filling.

(** ** The properties *)

Section arguments.
Context {V : Type} `{SV : Serde V} `{SL : !SerdeLaws V}.
Context (domain_ir : V) (verb : str).
(** An attribute may not be called [with], which names the facts themselves. *)
Context (Hwith : ("with" : str) ∉ (declared_defaults domain_ir verb).*1).

Lemma fill_default_on_facts : on_facts (λ facts, fold_left fill_default (declared_defaults domain_ir verb) facts).
Proof.
  intros v Hv. destruct (fill_defaults_get (declared_defaults domain_ir verb) v Hv) as [Ho Hk].
  split; [done|]. by apply Hk.
Qed.

Lemma facts_of_fill_defaults (args : V) :
  sv_is_object (facts_of args) = true →
  facts_of (fill_defaults domain_ir verb args) =
  fold_left fill_default (declared_defaults domain_ir verb) (facts_of args).
Proof.
  intros Ho. unfold fill_defaults. pose proof fill_default_on_facts as Hf.
  destruct (declared_defaults domain_ir verb) as [|d ds]; [done|]. by apply facts_of_with_facts.
Qed.

Definition supplied_by (origin : Origin) : Supplied := match origin with Request => Replaced | _ => Kept end.
Lemma facts_of_fill_arguments (origin : Origin) (now_secs : Z) (args : V) :
  sv_is_object args = true →
  facts_of (fill_arguments origin domain_ir verb now_secs args) =
  fold_left fill_default (declared_defaults domain_ir verb)
    (fill now_secs (supplied_by origin) (declared_needs domain_ir verb) (facts_of args)).
Proof.
  intros Ha%facts_of_object.
  assert (∀ s, facts_of (with_facts args (fill now_secs s (declared_needs domain_ir verb))) =
               fill now_secs s (declared_needs domain_ir verb) (facts_of args)) as Hn
    by (intros s; apply facts_of_with_facts; [apply fill_on_facts|done]).
  unfold fill_arguments. rewrite facts_of_fill_defaults.
  - destruct origin; unfold fill_needs, answer_needs; by rewrite Hn.
  - destruct origin; unfold fill_needs, answer_needs; rewrite Hn; by apply fill_object.
Qed.

(** Filling what is there already changes nothing. *)
Definition saturated (now_secs : Z) (facts : V) (need : str * option str) : Prop :=
  sv_contains facts need.1 = true ∨ answer (V := V) now_secs need.1 need.2 = None.
Lemma fill_saturated (now_secs : Z) (needs : list (str * option str)) (facts : V) :
  Forall (saturated now_secs facts) needs → fill now_secs Kept needs facts = facts.
Proof.
  unfold fill. induction 1 as [|need needs Hn _ IH]; [done|]. cbn [fold_left].
  assert (fill_one now_secs Kept facts need = facts) as ->; [|done].
  unfold fill_one. destruct Hn as [->| ->]; [done|]. by case_match.
Qed.
Lemma fill_default_saturated (defaults : list (str * V)) (facts : V) :
  Forall (λ d, sv_contains facts d.1 = true) defaults → fold_left fill_default defaults facts = facts.
Proof.
  induction 1 as [|d ds Hd _ IH]; [done|]. cbn [fold_left]. unfold fill_default at 2. by rewrite Hd.
Qed.

Lemma contains_fill (now_secs : Z) (s : Supplied) (needs : list (str * option str)) (facts : V) (k : str) :
  sv_is_object facts = true → sv_contains facts k = true → sv_contains (fill now_secs s needs facts) k = true.
Proof.
  unfold fill. revert facts; induction needs as [|need needs IH]; intros facts Ho Hk; [done|]. cbn [fold_left].
  destruct (fill_one_get now_secs s facts need k Ho) as [Ho' Hg]. apply IH; [done|].
  destruct (decide (k = need.1)) as [->|Hne]; [|unfold sv_contains in *; by rewrite Hg].
  unfold fill_one. case_match; [done|]. destruct (answer _ _ _); [|done].
  unfold sv_contains. by rewrite sv_get_insert, decide_True by done.
Qed.
Lemma fill_saturates (now_secs : Z) (s : Supplied) (needs : list (str * option str)) (facts : V) :
  sv_is_object facts = true → Forall (saturated now_secs (fill now_secs s needs facts)) needs.
Proof.
  unfold fill. revert facts; induction needs as [|need needs IH]; intros facts Ho; [constructor|]. cbn [fold_left].
  destruct (fill_one_get now_secs s facts need [] Ho) as [Ho' _]. constructor; [|by apply IH].
  unfold saturated. destruct (answer now_secs need.1 need.2) as [v|] eqn:Ea; [left|by right].
  apply contains_fill; [done|]. unfold fill_one. rewrite Ea. case_match eqn:Ec.
  - by destruct s.
  - unfold sv_contains. by rewrite sv_get_insert, decide_True by done.
Qed.
Lemma fill_defaults_saturate (defaults : list (str * V)) (facts : V) :
  sv_is_object facts = true →
  Forall (λ d, sv_contains (fold_left fill_default defaults facts) d.1 = true) defaults.
Proof.
  revert facts; induction defaults as [|[n v] ds IH]; intros facts Ho; [constructor|]. cbn [fold_left].
  assert (sv_is_object (fill_default facts (n, v)) = true ∧ sv_contains (fill_default facts (n, v)) n = true) as [Ho' Hn].
  { unfold fill_default. cbn [fst snd]. destruct (sv_contains facts n) eqn:E; [done|].
    split; [by apply sv_insert_is|]. unfold sv_contains. by rewrite sv_get_insert, decide_True by done. }
  constructor; [|by apply IH]. cbn [fst]. unfold sv_contains in *.
  destruct (fill_defaults_get ds (fill_default facts (n, v)) Ho') as [_ Hk]. rewrite (proj1 (Hk n)); [done|].
  by destruct (sv_get (fill_default facts (n, v)) n).
Qed.

Lemma answer_none_later (t t' : Z) (fact : str) (ty : option str) :
  answer (V := V) t fact ty = None → answer (V := V) t' fact ty = None.
Proof. unfold answer. by case_match. Qed.

(** C31: a request from outside the host cannot say what time it is: of each fact
    its aggregate's command needs and a clock answers, what reaches the kernel is
    the host's answer, whatever the request carried. *)
Theorem request_cannot_set_the_clock (now_secs : Z) (args : V) (fact : str) (ty : option str) (x : V) :
  sv_is_object args = true → NoDup (declared_needs domain_ir verb).*1 →
  (fact, ty) ∈ declared_needs domain_ir verb → answer now_secs fact ty = Some x →
  sv_get (facts_of (fill_arguments Request domain_ir verb now_secs args)) fact = Some x.
Proof.
  intros Ha Hnd Hin Hx. rewrite facts_of_fill_arguments by done. pose proof (facts_of_object args Ha) as Ho.
  set (filled := fill _ _ _ _).
  assert (sv_get filled fact = Some x) as E by (by apply (fill_replaced _ _ _ _ ty)).
  assert (sv_is_object filled = true) as Hf by (by apply fill_object).
  destruct (fill_defaults_get (declared_defaults domain_ir verb) filled Hf) as [_ Hk].
  rewrite (proj1 (Hk fact)); [done|]. by rewrite E.
Qed.

(** Filling is done once: arguments that were filled, as the journal keeps
    them, are filled again at any later time to the very same facts. *)
Theorem recorded_facts_replay (origin : Origin) (now_secs later : Z) (args : V) :
  sv_is_object args = true → sv_is_object (fill_arguments origin domain_ir verb now_secs args) = true →
  let recorded := fill_arguments origin domain_ir verb now_secs args in
  facts_of (fill_arguments External domain_ir verb later recorded) = facts_of recorded.
Proof.
  intros Ha Hr recorded. rewrite (facts_of_fill_arguments External) by done. cbn [supplied_by].
  unfold recorded. rewrite facts_of_fill_arguments by done. pose proof (facts_of_object args Ha) as Ho.
  set (needs := declared_needs domain_ir verb). set (defaults := declared_defaults domain_ir verb).
  set (filled := fill now_secs (supplied_by origin) needs (facts_of args)).
  assert (sv_is_object filled = true) as Hf by (by apply fill_object).
  rewrite fill_saturated; [apply fill_default_saturated; by apply fill_defaults_saturate|].
  pose proof (fill_saturates now_secs (supplied_by origin) needs (facts_of args) Ho) as Hs.
  eapply list.Forall_impl; [exact Hs|]. intros need [Hc|Hn]; [left|right; by eapply answer_none_later].
  unfold sv_contains in *. fold filled in Hc.
  destruct (fill_defaults_get defaults filled Hf) as [_ Hk]. rewrite (proj1 (Hk need.1)); [done|].
  by destruct (sv_get filled need.1).
Qed.
End arguments.

(** ** An entity's command *)

Section entities.
Context {V : Type} `{SV : Serde V} `{SL : !SerdeLaws V}.

Lemma find_none_named (l : list V) (name : str) :
  Forall (λ a, sv_get_str a "name" ≠ Some name) l → List.filter (λ a, named a name) l = [].
Proof.
  induction 1 as [|a l Ha _ IH]; [done|]. cbn [List.filter]. unfold named at 1.
  by rewrite bool_decide_false, IH.
Qed.

(** A command of an entity has no needs the host sees: it looks for an
    aggregate called [Aggregate.Entity], so what such a command needs is never
    answered, and a request from outside the host sets its clock. *)
Theorem entity_needs_unanswered (domain_ir : V) (domain aggregate entity command : str) (now_secs : Z) (args : V) :
  Forall (λ a, sv_get_str a "name" ≠ Some (aggregate ++ "." ++ entity)) (sv_list domain_ir "aggregates") →
  last_piece (domain ++ "::" ++ aggregate ++ "." ++ entity) "::" = aggregate ++ "." ++ entity →
  46%N ∉ command →
  let verb := domain ++ "::" ++ aggregate ++ "." ++ entity ++ "." ++ command in
  declared_needs domain_ir verb = [] ∧
  (sv_is_object args = true → facts_of (answer_needs domain_ir verb now_secs args) = facts_of args).
Proof.
  intros Hnone Hlast Hdot verb.
  assert (declared_needs domain_ir verb = []) as Hn.
  { unfold declared_needs, aggregate_and_name, verb.
    assert (rsplit_once (domain ++ "::" ++ aggregate ++ "." ++ entity ++ "." ++ command) 46%N =
            Some (domain ++ "::" ++ aggregate ++ "." ++ entity, command)) as ->.
    { rewrite !app_assoc. change ("." : str) with [46%N]. by rewrite <- (app_assoc _ [46%N] command), rsplit_once_last. }
    cbn [mbind option_bind]. by rewrite Hlast, (find_none_named _ _ Hnone). }
  split; [done|]. intros Ha%facts_of_object. unfold answer_needs. rewrite Hn.
  by rewrite facts_of_with_facts.
Qed.
End entities.

(** ** Witnesses *)

Definition lease_command (name : str) : Json := sv_obj [
  ("name" : str, JStr name);
  ("attributes" : str, JArray [sv_obj [("name" : str, JStr "now"); ("type" : str, JStr "Integer")];
                               sv_obj [("name" : str, JStr "days"); ("default" : str, sv_i64 30)]]);
  ("needs" : str, JArray [sv_obj [("fact" : str, JStr "now")]])].
Definition lease_ir : Json := sv_obj [
  ("name" : str, JStr "Leases");
  ("aggregates" : str, JArray [sv_obj [
    ("name" : str, JStr "Lease"); ("commands" : str, JArray [lease_command "Grant"]);
    ("entities" : str, JArray [sv_obj [("name" : str, JStr "Term"); ("commands" : str, JArray [lease_command "Extend"])]])]])].
Definition forged_clock : Json := sv_obj [("with" : str, sv_obj [("now" : str, sv_i64 1)])].

Lemma lease_no_with : ("with" : str) ∉ (declared_defaults lease_ir "Leases::Lease.Grant").*1.
Proof. refine (bool_decide_unpack _ _). vm_compute. exact I. Qed.
Lemma lease_needs : declared_needs lease_ir "Leases::Lease.Grant" = [("now" : str, Some ("Integer" : str))].
Proof. reflexivity. Qed.

Lemma request_cannot_set_the_clock_witness :
  sv_get (facts_of (fill_arguments Request lease_ir "Leases::Lease.Grant" 1792000000 forged_clock)) "now" =
  Some (sv_i64 1792000000).
Proof.
  apply (request_cannot_set_the_clock lease_ir "Leases::Lease.Grant" lease_no_with 1792000000 forged_clock "now" (Some ("Integer" : str)));
    [reflexivity|rewrite lease_needs; apply NoDup_singleton|rewrite lease_needs; left|reflexivity].
Defined.
Lemma recorded_facts_replay_witness :
  let recorded := fill_arguments External lease_ir "Leases::Lease.Grant" 1792000000 (sv_obj []) in
  facts_of (fill_arguments External lease_ir "Leases::Lease.Grant" 1893456000 recorded) = facts_of recorded.
Proof.
  apply (recorded_facts_replay lease_ir "Leases::Lease.Grant" lease_no_with External 1792000000 1893456000 (sv_obj []));
    reflexivity.
Defined.
(** The IR gives the entity's command its need, and the host its default. *)
Lemma entity_needs_unanswered_witness :
  declared_needs lease_ir "Leases::Lease.Term.Extend" = [] ∧
  facts_of (answer_needs lease_ir "Leases::Lease.Term.Extend" 1792000000 forged_clock) = facts_of forged_clock ∧
  needs_of (default JNull (command_for lease_ir "Leases::Lease.Term.Extend")) = [("now" : str, Some ("Integer" : str))].
Proof.
  destruct (entity_needs_unanswered lease_ir "Leases" "Lease" "Term" "Extend" 1792000000 forged_clock) as [H1 H2].
  - vm_compute. repeat constructor. discriminate.
  - reflexivity.
  - refine (bool_decide_unpack _ _). vm_compute. exact I.
  - split; [exact H1|]. split; [exact (H2 eq_refl)|reflexivity].
Defined.
