(* ===== verification/HostStore.v ===== *)
(** Where the host keeps a domain's journal
    ([src/rust/host/core/src/store.rs], [store/memory.rs], [journal.rs]): the flat
    journal of accepted commands, the snapshot that caches what the kernel last
    answered, the live sagas, the head rows of the lineage and the dead letters;
    the unit of work a dispatch writes in, under the domain's lock; and the
    interleavings of units, reads and lock-free writes that the lock allows.

    The backend modelled is the in-memory one.  Values are [serde_json]'s, through
    [Serde.v].  A [BTreeMap] is a [gmap] read out in key order; an ordinal is an
    integer ([i64] in the code: the journal would need [2 ^ 63] rows to wrap). *)
From stdpp Require Import gmap.
From S2P Require Export Serde Naming.
Open Scope Z_scope.

(** [StoreError]; a backend's error is its message. *)
Inductive StoreError := NotProvisioned (message : str) | Unsupported (what : str) | Backend (message : str).
Definition store_error_text (e : StoreError) : str :=
  match e with NotProvisioned m | Backend m => m | Unsupported what => "this store has no " ++ what end.
Definition is_not_provisioned (e : StoreError) : bool := match e with NotProvisioned _ => true | _ => false end.

Section store.
Context `{U : UnicodeTables} {V : Type} `{SV : Serde V}.

(** [journal::Snapshot], [SagaRow], [LineageConfig], [Mutation], [HeldEra]. *)
Record Snapshot := { snapshot_ordinal : Z; snapshot_seed : V; sagas_backfilled : bool }.
Record SagaRow := {
  process_manager : str; correlation : str; saga_state : str; saga_memory : V; completed_compensations : V
}.
Record LineageConfig := { config_domain : str; era : option Z; mirrored : option (list str); seal_every : option Z }.
Record Mutation := { mutation_aggregate : str; mutation_id : str; mutation_operation : str; mutation_state : V }.
Record HeldEra := { era_ordinal : Z; era_label : option str; watermark : option Z }.

(** [mirrors]. *)
Definition mirrors (c : LineageConfig) (qualified_aggregate : str) : bool :=
  match mirrored c with None => true | Some capable => existsb (str_eqb qualified_aggregate) capable end.

(** [Row], [DeadLetterRecord], [Data]. *)
Record Row := { ordinal : Z; step : V }.
Record DeadLetter := {
  letter_policy : str; letter_domain : str; letter_verb : str; letter_payload : V; letter_error : str; attempts : Z
}.
Record Data := {
  journal : list Row; snapshot : option Snapshot; saga_rows : gmap (str * str) SagaRow;
  dead_letters : list DeadLetter; heads : gmap (str * str) (gmap str V); eras : gmap str (list HeldEra)
}.
Definition empty_data : Data := {|
  journal := []; snapshot := None; saga_rows := ∅; dead_letters := []; heads := ∅; eras := ∅
|}.

(** [State]: what a dispatch or a read replays. *)
Record State := { state_snapshot : option Snapshot; state_steps : list V; state_sagas : list SagaRow }.
Definition needs_saga_backfill (s : State) : bool :=
  match state_snapshot s with Some sn => negb (sagas_backfilled sn) | None => false end.
Definition seed (s : State) : V :=
  match state_snapshot s with
  | Some sn => if needs_saga_backfill s then sv_object else snapshot_seed sn
  | None => sv_object
  end.

(** The values of a map in the order of its keys. *)
Definition by_key {A} (x y : (str * str) * A) : comparison :=
  match str_compare x.1.1 y.1.1 with Eq => str_compare x.1.2 y.1.2 | c => c end.
Definition saga_values (m : gmap (str * str) SagaRow) : list SagaRow := (sort_by by_key (map_to_list m)).*2.
Definition rows_by_id (m : gmap str V) : list (str * V) := sort_by by_id (map_to_list m).

(** [steps_after]. *)
Definition steps_after (d : Data) (after : option Z) : list V :=
  map step (List.filter (λ row, match after with Some a => a <? ordinal row | None => true end) (journal d)).

(** [read_state], without the lock: no sagas. *)
Definition read_state (d : Data) : State := {|
  state_snapshot := snapshot d; state_steps := steps_after d (snapshot_ordinal <$> snapshot d); state_sagas := []
|}.

(** [MemoryUnit::load]: every step where the snapshot must be rebuilt. *)
Definition load (d : Data) : State :=
  let s := {| state_snapshot := snapshot d; state_steps := []; state_sagas := saga_values (saga_rows d) |} in
  {| state_snapshot := snapshot d;
     state_steps := steps_after d (if needs_saga_backfill s then None else snapshot_ordinal <$> snapshot d);
     state_sagas := state_sagas s |}.

(** [next_ordinal]. *)
Definition next_ordinal (d : Data) : Z := match list.last (journal d) with Some row => ordinal row + 1 | None => 1 end.

(** [LineageWrite], [Accepted]. *)
Record LineageWrite := { lineage_config : LineageConfig; mutations : list Mutation }.
Record Accepted := {
  verb : str; args : V; new_seed : V; saga_upserts : list SagaRow; saga_deletes : list (str * str);
  lineage : option LineageWrite
}.

(** [apply_heads]: every mutation is checked before any is applied. *)
Definition no_era (c : LineageConfig) : str :=
  "cannot append a lineage mutation for " ++ config_domain c ++ ": no era is active".
Definition unsupported_operation (m : Mutation) : str :=
  "unsupported operation " ++ debug_str (mutation_operation m) ++ ": only " ++ dquote ++ "save" ++ dquote ++
  " is generated today".
Definition put_head (c : LineageConfig) (hs : gmap (str * str) (gmap str V)) (m : Mutation) :
    gmap (str * str) (gmap str V) :=
  let key := (config_domain c, storage_name (mutation_aggregate m)) in
  <[key := <[mutation_id m := mutation_state m]> (default ∅ (hs !! key))]> hs.
Definition with_heads (d : Data) (hs : gmap (str * str) (gmap str V)) : Data := {|
  journal := journal d; snapshot := snapshot d; saga_rows := saga_rows d;
  dead_letters := dead_letters d; heads := hs; eras := eras d
|}.
Definition apply_heads (d : Data) (c : LineageConfig) (ms : list Mutation) : result StoreError Data :=
  if match era c with None => true | Some _ => false end && negb (bool_decide (ms = [])) then
    Err (Backend (no_era c))
  else match find (λ m, negb (str_eqb (mutation_operation m) "save")) ms with
       | Some bad => Err (Backend (unsupported_operation bad))
       | None => Ok (with_heads d (fold_left (put_head c) ms (heads d)))
       end.
(** [put_heads]: what is left of the data, and the answer. *)
Definition put_heads (d : Data) (c : LineageConfig) (ms : list Mutation) : result StoreError unit * Data :=
  match apply_heads d c ms with Ok d' => (Ok (), d') | Err e => (Err e, d) end.

(** [Fault]: where a commit is made to fail. *)
Inductive Fault := FaultSnapshot | FaultAfterSagas.
Definition saga_key (r : SagaRow) : str * str := (process_manager r, correlation r).
Definition journaled (a : Accepted) : V := sv_obj [("verb" : str, sv_str (verb a)); ("args" : str, args a)].

(** [MemoryUnit::commit]: the row, the snapshot and the sagas are written, and
    then the heads are checked. *)
Definition write_sagas (rows : gmap (str * str) SagaRow) (a : Accepted) : gmap (str * str) SagaRow :=
  fold_left (λ m key, delete key m) (saga_deletes a)
    (fold_left (λ m r, <[saga_key r := r]> m) (saga_upserts a) rows).
Definition commit (fault : option Fault) (d : Data) (a : Accepted) : result StoreError unit * Data :=
  let n := next_ordinal d in
  match fault with
  | Some _ => (Err (Backend "injected write failure"), d)
  | None =>
    let d' := {|
      journal := journal d ++ [{| ordinal := n; step := journaled a |}];
      snapshot := Some {| snapshot_ordinal := n; snapshot_seed := new_seed a; sagas_backfilled := true |};
      saga_rows := write_sagas (saga_rows d) a;
      dead_letters := dead_letters d; heads := heads d; eras := eras d |} in
    match lineage a with
    | Some l => put_heads d' (lineage_config l) (mutations l)
    | None => (Ok (), d')
    end
  end.

(** [hold_era], [eras_of], [current_era]. *)
Definition hold_era (d : Data) (domain label : str) : Z * Data :=
  let held := default [] (eras d !! domain) in
  let n := match list.last held with Some e => era_ordinal e + 1 | None => 1 end in
  (n, {| journal := journal d; snapshot := snapshot d; saga_rows := saga_rows d; dead_letters := dead_letters d;
         heads := heads d;
         eras := <[domain := held ++ [{| era_ordinal := n; era_label := Some label; watermark := None |}]]> (eras d) |}).
Definition eras_of (d : Data) (domain : str) : list HeldEra := default [] (eras d !! domain).
Definition current_era (d : Data) (domain : str) : option Z := era_ordinal <$> list.last (eras_of d domain).

(** [record_dead_letter]. *)
Definition record_dead_letter (d : Data) (l : DeadLetter) : Data := {|
  journal := journal d; snapshot := snapshot d; saga_rows := saga_rows d;
  dead_letters := dead_letters d ++ [l]; heads := heads d; eras := eras d
|}.

(** [head_by_id], [head_all], [head_states], [head_find]: of several domains the
    first that keeps heads for the aggregate decides. *)
Definition head_by_id (d : Data) (domain storage id : str) : option V :=
  rows ← heads d !! (domain, storage); rows !! id.
Definition head_all (d : Data) (domain storage : str) : list (str * V) :=
  match heads d !! (domain, storage) with Some rows => rows_by_id rows | None => [] end.
Fixpoint first_head (d : Data) (domains : list str) (storage : str) : option (gmap str V) :=
  match domains with
  | [] => None
  | domain :: rest =>
    match heads d !! (domain, storage) with Some rows => Some rows | None => first_head d rest storage end
  end.
Definition head_states (d : Data) (domains : list str) (storage : str) : list V :=
  match first_head d domains storage with Some rows => (rows_by_id rows).*2 | None => [] end.
Definition head_matches (fields : list (str * str)) (state : V) : bool :=
  forallb (λ '(field, value),
    bool_decide ((x ← sv_get state field; sv_get_str x "value") = Some value)) fields.
Definition head_find (d : Data) (domains : list str) (storage : str) (fields : list (str * str)) : option V :=
  rows ← first_head d domains storage; find (head_matches fields) (rows_by_id rows).*2.

(** [amend_head]: the rows read, the decision, and at most one row saved. *)
Definition amend_head {T} (d : Data) (c : LineageConfig) (aggregate storage : str)
    (decide_ : list (str * V) → T * option (str * V)) : result StoreError T * Data :=
  let (answer, write) := decide_ (head_all d (config_domain c) storage) in
  match write with
  | None => (Ok answer, d)
  | Some (id, state) =>
    let m := {| mutation_aggregate := aggregate; mutation_id := id; mutation_operation := "save"; mutation_state := state |} in
    match put_heads d c [m] with
    | (Ok _, d') => (Ok answer, d')
    | (Err e, d') => (Err e, d')
    end
  end.
End store.
Arguments Snapshot V : clear implicits. Arguments SagaRow V : clear implicits.
Arguments Mutation V : clear implicits. Arguments Row V : clear implicits.
Arguments DeadLetter V : clear implicits. Arguments Data V : clear implicits.
Arguments State V : clear implicits. Arguments LineageWrite V : clear implicits.
Arguments Accepted V : clear implicits.
