(* ===== verification/HostStoreFacts.v ===== *)
(** What the host's store keeps: commits number the journal from one without a
    gap and leave a snapshot of all of it; a unit's loaded state stays what is
    committed until the unit ends, whatever else happens meanwhile; and a head's
    amendment has no such protection from a head written beside it. *)
From stdpp Require Import gmap.
From S2P Require Export HostStore.
Open Scope Z_scope.

Section facts.
Context `{U : UnicodeTables} {V : Type} `{SV : Serde V}.

(** ** One commit *)

(** The journal is numbered from one, and the snapshot, if any, is of all of it. *)
Definition numbered (rows : list (Row V)) : Prop :=
  ∀ i row, rows !! i = Some row → ordinal row = Z.of_nat i + 1.
Record kept (d : Data V) : Prop := {
  kept_numbered : numbered (journal d);
  kept_snapshot : snapshot_ordinal <$> snapshot d =
    match journal d with [] => None | _ => Some (Z.of_nat (length (journal d))) end;
  kept_backfilled : ∀ sn, snapshot d = Some sn → sagas_backfilled sn = true
}.

Lemma empty_kept : kept empty_data.
Proof. split; [by intros [] ?|done|done]. Qed.

Lemma next_ordinal_kept (d : Data V) : numbered (journal d) → next_ordinal d = Z.of_nat (length (journal d)) + 1.
Proof.
  intros Hn. unfold next_ordinal. rewrite last_lookup.
  destruct (journal d !! pred (length (journal d))) as [row|] eqn:E.
  - rewrite (Hn _ _ E). apply lookup_lt_Some in E. lia.
  - apply lookup_ge_None in E. destruct (journal d); [done|cbn in E; lia].
Qed.

Lemma numbered_snoc (rows : list (Row V)) (s : V) :
  numbered rows → numbered (rows ++ [{| ordinal := Z.of_nat (length rows) + 1; step := s |}]).
Proof.
  intros Hn i row H. apply lookup_app_Some in H as [H|[Hi H]]; [by apply Hn|].
  apply list_lookup_singleton_Some in H as [Hi0 <-]. cbn. lia.
Qed.

(** What an operation on heads leaves alone. *)
Definition same_but_heads (d d' : Data V) : Prop :=
  journal d' = journal d ∧ snapshot d' = snapshot d ∧ saga_rows d' = saga_rows d ∧
  dead_letters d' = dead_letters d ∧ eras d' = eras d.
Lemma put_heads_same (d : Data V) (c : LineageConfig) (ms : list (Mutation V)) :
  same_but_heads d (put_heads d c ms).2 ∧
  (∀ e, (put_heads d c ms).1 = Err e → (put_heads d c ms).2 = d).
Proof. unfold put_heads, apply_heads. repeat (case_match; try done); simplify_eq/=; done. Qed.

(** What an unfaulted commit writes before its heads are checked. *)
Definition written (d : Data V) (a : Accepted V) : Data V := {|
  journal := journal d ++ [{| ordinal := next_ordinal d; step := journaled a |}];
  snapshot := Some {| snapshot_ordinal := next_ordinal d; snapshot_seed := new_seed a; sagas_backfilled := true |};
  saga_rows := write_sagas (saga_rows d) a; dead_letters := dead_letters d; heads := heads d; eras := eras d
|}.

Lemma commit_cases (fault : option Fault) (d : Data V) (a : Accepted V) :
  match fault with
  | Some _ => commit fault d a = (Err (Backend "injected write failure"), d)
  | None => same_but_heads (written d a) (commit fault d a).2 ∧
            (∀ e, (commit fault d a).1 = Err e → (commit fault d a).2 = written d a)
  end.
Proof.
  unfold commit. destruct fault; [done|]. fold (written d a).
  destruct (lineage a) as [l|]; [apply put_heads_same|done].
Qed.

Lemma written_kept (d : Data V) (a : Accepted V) : kept d → kept (written d a).
Proof.
  intros [Hn _ _]. pose proof (next_ordinal_kept d Hn) as En. unfold written. split; cbn.
  - rewrite En. by apply numbered_snoc.
  - rewrite En, length_app. cbn. case_match eqn:E; [by apply app_nil in E as [_ ?]|]. f_equal. lia.
  - by intros sn [= <-].
Qed.

Lemma kept_same (d d' : Data V) : same_but_heads d d' → kept d → kept d'.
Proof. intros (E1 & E2 & _) [H1 H2 H3]. split; by rewrite ?E1, ?E2. Qed.

Lemma commit_kept (fault : option Fault) (d : Data V) (a : Accepted V) : kept d → kept (commit fault d a).2.
Proof.
  intros K. pose proof (commit_cases fault d a) as H. destruct fault as [f|]; [by rewrite H|].
  destruct H as [H _]. eapply kept_same; [exact H|]. by apply written_kept.
Qed.

(** Where a snapshot is of the whole journal nothing is left to replay. *)
Lemma kept_no_steps (d : Data V) : kept d → state_steps (load d) = [] ∧ state_steps (read_state d) = [].
Proof.
  intros [Hn Hs Hb]. unfold load, read_state, needs_saga_backfill. cbn.
  assert (steps_after d (snapshot_ordinal <$> snapshot d) = []) as E.
  { rewrite Hs. unfold steps_after. destruct (journal d) as [|r rows] eqn:Ej; [done|]. rewrite <- Ej in *.
    assert (∀ l, (∀ row, row ∈ l → ordinal row <= Z.of_nat (length (journal d))) →
      List.filter (λ row : Row V, Z.of_nat (length (journal d)) <? ordinal row) l = []) as Hf.
    { induction l as [|row l IH]; intros Hl; [done|]. cbn [List.filter].
      rewrite (proj2 (Z.ltb_ge _ _)) by (apply Hl; left). apply IH. intros row' Hin. apply Hl. by right. }
    cbn. rewrite Hf; [done|]. intros row (i & Hi)%list_elem_of_lookup.
    rewrite (Hn _ _ Hi). apply lookup_lt_Some in Hi. lia. }
  destruct (snapshot d) as [sn|] eqn:Es; [|done]. cbn. rewrite (Hb _ eq_refl). done.
Qed.

(** What a dispatch loads after a commit is what was committed: the new seed
    with nothing to replay on it, and the sagas with the ended ones gone and the
    live ones as they were written. *)
Theorem commit_then_load (d : Data V) (a : Accepted V) :
  kept d → (commit None d a).1 = Ok () →
  let s := load (commit None d a).2 in
  seed s = new_seed a ∧ state_steps s = [] ∧ needs_saga_backfill s = false ∧
  state_sagas s = saga_values (write_sagas (saga_rows d) a).
Proof.
  intros K Hok s. pose proof (commit_cases None d a) as [(E1 & E2 & E3 & _) _].
  pose proof (commit_kept None d a K) as K'.
  unfold s, seed, needs_saga_backfill, load. cbn [state_snapshot state_steps state_sagas]. rewrite E2, E3.
  split_and!; [done| |done|done]. pose proof (proj1 (kept_no_steps _ K')) as Es.
  unfold load, needs_saga_backfill in Es. cbn [state_snapshot state_steps] in Es. by rewrite E2 in Es.
Qed.

(** A commit that an injected fault stops leaves the data as it was; one that
    its lineage stops has already written its row, its snapshot and its sagas,
    for only the heads are checked before they are written. *)
Theorem failed_commit_leaves (fault : option Fault) (d : Data V) (a : Accepted V) (e : StoreError) :
  (commit fault d a).1 = Err e →
  (commit fault d a).2 = match fault with Some _ => d | None => written d a end.
Proof.
  intros He. pose proof (commit_cases fault d a) as H. destruct fault as [f|]; [by rewrite H|]. by apply (proj2 H e).
Qed.

(** ** Heads *)

Lemma put_head_get (c : LineageConfig) (hs : gmap (str * str) (gmap str V)) (m : Mutation V) (key : str * str) (id : str) :
  (put_head c hs m !! key ≫= λ rows, rows !! id) =
  if decide (key = (config_domain c, storage_name (mutation_aggregate m)) ∧ id = mutation_id m)
  then Some (mutation_state m) else hs !! key ≫= λ rows, rows !! id.
Proof.
  unfold put_head. set (k := (config_domain c, storage_name (mutation_aggregate m))).
  destruct (decide (key = k)) as [->|Hne].
  - rewrite lookup_insert_eq. cbn [mbind option_bind]. destruct (decide (id = mutation_id m)) as [->|Hid].
    + rewrite decide_True by done. by rewrite lookup_insert_eq.
    + rewrite decide_False by tauto. rewrite lookup_insert_ne by congruence. by destruct (hs !! k).
  - rewrite decide_False by tauto. by rewrite lookup_insert_ne by congruence.
Qed.

(** The head row a list of mutations leaves at an id: the last one's. *)
Definition last_head (c : LineageConfig) (key : str * str) (id : str) (ms : list (Mutation V)) : option V :=
  mutation_state <$> list.last (filter (λ m,
    key = (config_domain c, storage_name (mutation_aggregate m)) ∧ id = mutation_id m) ms).

(** Head rows are written whole or not at all: refused where no era is active
    or an operation is not [save], and otherwise each row reads as the last
    mutation of it, the others as before. *)
Theorem heads_written_whole (d : Data V) (c : LineageConfig) (ms : list (Mutation V)) (domain storage id : str) :
  match put_heads d c ms with
  | (Ok _, d') => Forall (λ m, mutation_operation m = "save") ms ∧ (ms = [] ∨ era c ≠ None) ∧
      head_by_id d' domain storage id =
      match last_head c (domain, storage) id ms with Some v => Some v | None => head_by_id d domain storage id end
  | (Err _, d') => d' = d
  end.
Proof.
  pose proof (proj2 (put_heads_same d c ms)) as Herr. unfold put_heads in *.
  destruct (apply_heads d c ms) as [d'|e] eqn:E; [|done]. clear Herr. unfold apply_heads in E.
  case_match eqn:Eera; [done|]. case_match eqn:Ebad; [done|]. injection E as <-. split_and!.
  - rewrite list.Forall_forall. intros m Hm. apply list_elem_of_In in Hm. eapply find_none in Ebad; [|exact Hm].
    unfold str_eqb in Ebad. apply negb_false_iff, bool_decide_eq_true in Ebad. done.
  - destruct (era c); [by right|]. cbn in Eera. apply negb_false_iff, bool_decide_eq_true in Eera. by left.
  - clear. unfold head_by_id. cbn [heads with_heads]. unfold last_head. generalize (heads d) as hs.
    induction ms as [|m ms IH] using rev_ind; intros hs; [done|].
    rewrite fold_left_app. cbn [fold_left]. rewrite put_head_get, list.filter_app, filter_cons.
    destruct (decide ((domain, storage) = (config_domain c, storage_name (mutation_aggregate m)) ∧ id = mutation_id m)) as [Hd|Hd].
    + by rewrite filter_nil, list.last_snoc.
    + by rewrite filter_nil, app_nil_r, IH.
Qed.

(** ** Interleavings *)

(** What the holder of the domain's lock has read: a unit what it loaded, an
    amendment the head rows of its aggregate. *)
Inductive Held := HeldUnit (loaded : option (State V)) | HeldRows (domain storage : str) (rows : list (str * V)).
Record World := { data : Data V; holder : option (nat * Held) }.

(** What anyone may do next. *)
Inductive Action :=
| Begin (who : nat) | Load (who : nat) | Commit (who : nat) (fault : option Fault) (a : Accepted V) | Leave (who : nat)
| AmendRead (who : nat) (c : LineageConfig) (storage : str)
| AmendWrite (who : nat) (c : LineageConfig) (aggregate : str) (write : option (str * V))
| PutHead (c : LineageConfig) (m : Mutation V) | HoldEra (domain label : str) | Dead (l : DeadLetter V).

(** One step: the lock is taken when free, and let go by a commit, a rollback, a
    drop or the end of an amendment; the rest takes no lock. *)
Inductive transition : Action → World → World → Prop :=
| step_begin who d : transition (Begin who) {| data := d; holder := None |} {| data := d; holder := Some (who, HeldUnit None) |}
| step_load who d o : transition (Load who)
    {| data := d; holder := Some (who, HeldUnit o) |} {| data := d; holder := Some (who, HeldUnit (Some (load d))) |}
| step_commit who fault a d o : transition (Commit who fault a)
    {| data := d; holder := Some (who, HeldUnit o) |} {| data := (commit fault d a).2; holder := None |}
| step_leave who d h : transition (Leave who) {| data := d; holder := Some (who, h) |} {| data := d; holder := None |}
| step_amend_read who c storage d : transition (AmendRead who c storage)
    {| data := d; holder := None |}
    {| data := d; holder := Some (who, HeldRows (config_domain c) storage (head_all d (config_domain c) storage)) |}
| step_amend_write who c aggregate write d domain storage rows : transition (AmendWrite who c aggregate write)
    {| data := d; holder := Some (who, HeldRows domain storage rows) |}
    {| data := (amend_head d c aggregate storage (λ _, ((), write))).2; holder := None |}
| step_put_head c m w : transition (PutHead c m) w {| data := (put_heads (data w) c [m]).2; holder := holder w |}
| step_hold_era domain label w : transition (HoldEra domain label) w
    {| data := (hold_era (data w) domain label).2; holder := holder w |}
| step_dead l w : transition (Dead l) w {| data := record_dead_letter (data w) l; holder := holder w |}.

Inductive run : list Action → World → World → Prop :=
| run_nil w : run [] w w
| run_cons action w w' actions w'' : transition action w w' → run actions w' w'' → run (action :: actions) w w''.

Definition start : World := {| data := empty_data; holder := None |}.

(** The parts of the data a unit loads. *)
Definition same_loaded (d d' : Data V) : Prop :=
  journal d' = journal d ∧ snapshot d' = snapshot d ∧ saga_rows d' = saga_rows d.
Lemma load_same (d d' : Data V) : same_loaded d d' → load d' = load d.
Proof. intros (E1 & E2 & E3). unfold load, steps_after. by rewrite E1, E2, E3. Qed.

(** The invariant of every reachable world. *)
Definition sound (w : World) : Prop :=
  kept (data w) ∧
  match holder w with Some (_, HeldUnit (Some s)) => s = load (data w) | _ => True end.

Lemma sound_keep (w : World) (d : Data V) :
  same_loaded (data w) d → sound w → sound {| data := d; holder := holder w |}.
Proof.
  intros Hs [[H1 H2 H3] Hh]. pose proof (load_same _ _ Hs) as El. destruct Hs as (E1 & E2 & E3). split; cbn.
  - split; by rewrite ?E1, ?E2.
  - destruct (holder w) as [[who [[s|]|]]|]; [by rewrite El|done..].
Qed.

Lemma transition_sound (action : Action) (w w' : World) : transition action w w' → sound w → sound w'.
Proof.
  intros T S. destruct T as [who d|who d o|who fault a d o|who d h|who c storage d|who c aggregate write d dom sto rows|c m w|domain label w|l w];
    try (destruct S as [K _]; by split).
  - destruct S as [K _]. split; [by apply commit_kept|done].
  - destruct S as [K _]. split; [|done]. cbn. unfold amend_head. destruct write as [[id state]|]; [|done].
    match goal with |- context [put_heads ?d ?c ?ms] => pose proof (put_heads_same d c ms) as [Hs _] end.
    destruct (put_heads _ _ _) as [[|] d']; cbn in *; by eapply kept_same.
  - apply sound_keep; [|done]. pose proof (put_heads_same (data w) c [m]) as [(E1 & E2 & E3 & _) _]. done.
  - by apply sound_keep.
  - by apply sound_keep.
Qed.

Lemma run_sound (actions : list Action) (w w' : World) : run actions w w' → sound w → sound w'.
Proof. induction 1 as [|action w w' actions w'' T _ IH]; [done|]. intros S. by apply IH, (transition_sound action w). Qed.

(** C6: no lost update: however units, reads, amendments and lock-free writes
    interleave from an empty store, what the unit that holds the lock has loaded
    is still what is committed when it comes to commit, the journal is numbered
    from one without a gap, and the snapshot is of all of it. *)
Theorem loaded_state_is_current (actions : list Action) (w : World) (who : nat) (s : State V) :
  run actions start w → holder w = Some (who, HeldUnit (Some s)) →
  s = load (data w) ∧ state_steps s = [] ∧ numbered (journal (data w)).
Proof.
  intros R E. assert (sound start) as S0 by (split; [apply empty_kept|done]).
  destruct (run_sound _ _ _ R S0) as [K Hh]. rewrite E in Hh. subst s.
  split_and!; [done|by apply kept_no_steps|by destruct K].
Qed.

(** ** Amendments *)

Definition rows_current (w : World) : Prop :=
  match holder w with
  | Some (_, HeldRows domain storage rows) => rows = head_all (data w) domain storage
  | _ => True
  end.
Definition writes_head_unlocked (action : Action) : bool := match action with PutHead _ _ => true | _ => false end.

Lemma transition_rows (action : Action) (w w' : World) :
  transition action w w' → writes_head_unlocked action = false → rows_current w → rows_current w'.
Proof. by intros []. Qed.

Lemma run_rows (actions : list Action) (w w' : World) :
  run actions w w' → Forall (λ a, writes_head_unlocked a = false) actions → rows_current w → rows_current w'.
Proof.
  induction 1 as [|action w w' actions w'' T _ IH]; [done|]. intros [Ha Hs]%list.Forall_cons Hw.
  apply IH; [done|]. by eapply transition_rows.
Qed.

(** What an amendment decides on is what the heads hold when it writes, in
    every interleaving in which no head is put beside it; a head put meanwhile
    takes no lock, so the decision is on what was there before, and the write
    loses it. *)
Theorem amendment_reads_current (actions : list Action) (w : World) (who : nat) (domain storage : str)
    (rows : list (str * V)) :
  run actions start w → Forall (λ a, writes_head_unlocked a = false) actions →
  holder w = Some (who, HeldRows domain storage rows) → rows = head_all (data w) domain storage.
Proof.
  intros R Ha E. pose proof (run_rows _ _ _ R Ha I) as H. unfold rows_current in H. by rewrite E in H.
Qed.

Section put_beside.
Context (c : LineageConfig) (Hera : era c ≠ None) (aggregate id : str) (put amended : V).
Definition put_mutation : Mutation V := {|
  mutation_aggregate := aggregate; mutation_id := id; mutation_operation := "save"; mutation_state := put |}.

Lemma put_heads_one (d : Data V) (m : Mutation V) :
  mutation_operation m = "save" → put_heads d c [m] = (Ok (), with_heads d (put_head c (heads d) m)).
Proof.
  intros Em. unfold put_heads, apply_heads. destruct (era c); [|done]. cbn [andb find].
  unfold str_eqb. by rewrite Em, bool_decide_true.
Qed.

(** Somebody reads no rows to amend, a row is put, and the amendment writes over it. *)
Lemma amendment_loses_a_put (who : nat) :
  let storage := storage_name aggregate in
  ∃ w, run [AmendRead who c storage; PutHead c put_mutation; AmendWrite who c aggregate (Some (id, amended))] start w ∧
  head_all (data start) (config_domain c) storage = [] ∧
  head_by_id (data w) (config_domain c) storage id = Some amended.
Proof.
  intros storage. eexists. split; [|split].
  - eapply run_cons; [apply step_amend_read|]. eapply run_cons; [apply step_put_head|]. cbn [data holder].
    rewrite put_heads_one by done. cbn [snd].
    eapply run_cons; [apply step_amend_write|apply run_nil].
  - done.
  - cbn [data]. unfold amend_head. rewrite put_heads_one by done. cbn [snd].
    unfold head_by_id. cbn [with_heads heads]. by rewrite put_head_get, decide_True.
Qed.
End put_beside.
End facts.

(** ** Witnesses *)
Section witnesses.
#[local] Instance plain_tables : UnicodeTables := {| debug_printable _ := true; to_lower c := [c] |}.

Definition opened : Accepted Json := {|
  verb := "Banking::Account.Open"; args := sv_obj []; new_seed := sv_obj [("Account" : str, JNull)];
  saga_upserts := []; saga_deletes := []; lineage := None |}.
Definition bank_lineage : LineageConfig := {|
  config_domain := "Banking"; era := Some 1; mirrored := None; seal_every := None |}.
Definition deleting : Accepted Json := {|
  verb := "Banking::Account.Close"; args := sv_obj []; new_seed := sv_obj [];
  saga_upserts := []; saga_deletes := [];
  lineage := Some {| lineage_config := bank_lineage;
    mutations := [{| mutation_aggregate := "Banking::Account"; mutation_id := "a1"; mutation_operation := "delete"; mutation_state := JNull |}] |} |}.

Lemma commit_then_load_witness :
  seed (load (commit None empty_data opened).2) = sv_obj [("Account" : str, JNull)].
Proof. exact (proj1 (commit_then_load empty_data opened empty_kept eq_refl)). Defined.
Lemma failed_commit_leaves_witness :
  length (journal (commit None empty_data deleting).2) = 1%nat ∧
  (commit (Some FaultSnapshot) empty_data opened).2 = empty_data.
Proof.
  split; [rewrite (failed_commit_leaves None empty_data deleting _ eq_refl); reflexivity|].
  exact (failed_commit_leaves (Some FaultSnapshot) empty_data opened _ eq_refl).
Defined.

Definition two_units : list (Action (V := Json)) :=
  [Begin 1; Load 1; Commit 1 None opened; Begin 2; Dead {| letter_policy := "P"; letter_domain := "D"; letter_verb := "V";
     letter_payload := JNull; letter_error := "down"; attempts := 3 |}; Load 2].
Definition after_two : World (V := Json) := {|
  data := record_dead_letter (commit None empty_data opened).2 {| letter_policy := "P"; letter_domain := "D";
    letter_verb := "V"; letter_payload := JNull; letter_error := "down"; attempts := 3 |};
  holder := Some (2%nat, HeldUnit (Some (load (commit None empty_data opened).2))) |}.
Lemma two_units_run : run two_units start after_two.
Proof. unfold two_units, after_two. repeat (eapply run_cons; [constructor|]). apply run_nil. Qed.
Lemma loaded_state_is_current_witness :
  load (commit None empty_data opened).2 = load (data after_two) ∧ numbered (journal (data after_two)).
Proof.
  destruct (loaded_state_is_current two_units after_two 2 _ two_units_run eq_refl) as (H1 & _ & H2).
  exact (conj H1 H2).
Defined.
Lemma amendment_reads_current_witness :
  head_all (V := Json) empty_data "Banking" "session" = [].
Proof.
  symmetry.
  apply (amendment_reads_current [AmendRead 1 bank_lineage "session"]
    {| data := empty_data; holder := Some (1%nat, HeldRows "Banking" "session" []) |} 1); [|by repeat constructor|done].
  eapply run_cons; [exact (step_amend_read 1 bank_lineage "session" empty_data)|apply run_nil].
Defined.
End witnesses.
