(* ===== verification/Delivery.v ===== *)
(** The host's deliveries to other domains
    ([src/rust/host/core/src/lambda_client.rs], and the loop over a command's
    reactions in [src/rust/host/core/src/dispatch.rs]): each reaction is invoked on
    its target's function up to three times; a refusal there is an answer, a fault
    is tried again, and a fault that lasts becomes a dead letter.

    The invoker is the cloud's, not the repository's: a state and a function of the
    function's name and the payload's text. *)
From stdpp Require Import gmap.
From S2P Require Export HostStore.
Open Scope Z_scope.

(** [InvokeOutcome]; [LambdaInvoker]. *)
Record InvokeOutcome (V : Type) := { body : V; function_error : bool }.
Arguments body {V}. Arguments function_error {V}.
Class Invoker (V I : Type) := invoke : I → str → str → result str (InvokeOutcome V) * I.

(** A line of the host's log: whether it is an error's, its event and its fields. *)
Record LogLine (V : Type) := { is_error : bool; event : str; fields : V }.
Arguments is_error {V}. Arguments event {V}. Arguments fields {V}.

(** What a dispatch may change: the domain's data, what the peers keep, the log. *)
Record HostState (V I : Type) := { store : Data V; peers : I; log : list (LogLine V) }.
Arguments store {V I}. Arguments peers {V I}. Arguments log {V I}. Arguments Build_HostState {V I}.

Section delivery.
Context `{U : UnicodeTables} {V I : Type} `{SV : Serde V} `{Inv : Invoker V I}.

Definition function_name_for (domain : str) : str := "hecks-" ++ ruby_downcase domain.

(** [CrossDomainDeliveryRecord], [to_json]. *)
Record DeliveryRecord := {
  record_policy : str; target_domain : str; target_verb : str; delivered : bool; reason : option str
}.
Definition delivery_json (r : DeliveryRecord) : V := sv_obj [
  ("policy" : str, sv_str (record_policy r)); ("target_domain" : str, sv_str (target_domain r));
  ("target_verb" : str, sv_str (target_verb r)); ("delivered" : str, sv_bool (delivered r));
  ("reason" : str, sv_of_option (reason r))].

(** A reaction's own words, blank where it has none. *)
Definition word (reaction : V) (key : str) : str := default [] (sv_get_str reaction key).
Definition payload_of (reaction : V) : V := default sv_object (sv_get reaction "payload").
Definition request_payload (reaction : V) : str :=
  sv_text (sv_obj [("verb" : str, sv_str (word reaction "target_verb")); ("args" : str, payload_of reaction)]).

(** The refusal of the verb that was asked for, among those the target answers. *)
Definition target_side_refusal (answer : V) (verb : str) : option V :=
  refusals ← sv_get_array answer "refusals";
  find (λ r, bool_decide (sv_get_str r "verb" = Some verb)) refusals.

(** [deliver]. *)
Definition deliver (peer : I) (reaction : V) : result str DeliveryRecord * I :=
  let policy := word reaction "policy" in
  let domain := word reaction "target_domain" in
  let verb := word reaction "target_verb" in
  let name := function_name_for domain in
  match invoke peer name (request_payload reaction) with
  | (Err e, peer') => (Err e, peer')
  | (Ok outcome, peer') =>
    if function_error outcome then
      let text := match sv_get_str (body outcome) "errorMessage" with
                  | Some m => m | None => sv_text (body outcome) end in
      (Err ("Lambda " ++ name ++ " (" ++ verb ++ "): " ++ text), peer')
    else
      let refusal := target_side_refusal (body outcome) verb in
      (Ok {| record_policy := policy; target_domain := domain; target_verb := verb;
             delivered := match refusal with Some _ => false | None => true end;
             reason := r ← refusal; sv_get_str r "error" |}, peer')
  end.

Definition max_delivery_attempts : nat := 3.

(** [DeliveryFailure]. *)
Record DeliveryFailure := {
  failed_policy : str; failed_domain : str; failed_verb : str; failed_payload : V; failure_error : str;
  failure_attempts : Z
}.

(** [deliver_with_retry]: the attempts that are left, and the last fault. *)
Fixpoint deliver_attempts (tries : nat) (last_error : option str) (peer : I) (reaction : V) :
    result str DeliveryRecord * I :=
  match tries with
  | O => (Err (default "no delivery attempt ran" last_error), peer)
  | S tries =>
    match deliver peer reaction with
    | (Ok record, peer') => (Ok record, peer')
    | (Err e, peer') => deliver_attempts tries (Some e) peer' reaction
    end
  end.
Definition deliver_with_retry (peer : I) (reaction : V) : result DeliveryFailure DeliveryRecord * I :=
  match deliver_attempts max_delivery_attempts None peer reaction with
  | (Ok record, peer') => (Ok record, peer')
  | (Err e, peer') =>
    (Err {| failed_policy := word reaction "policy"; failed_domain := word reaction "target_domain";
            failed_verb := word reaction "target_verb"; failed_payload := payload_of reaction;
            failure_error := e; failure_attempts := Z.of_nat max_delivery_attempts |}, peer')
  end.

(** ** A command's reactions *)

(** A delivery's line in the answer's [reactions], where the answer has them. *)
Definition reaction_line (reaction : V) (r : DeliveryRecord) : V := sv_obj [
  ("policy" : str, sv_str (record_policy r)); ("on" : str, sv_str (word reaction "on"));
  ("trigger" : str, sv_str (target_verb r)); ("delivered" : str, sv_bool (delivered r));
  ("reason" : str, sv_of_option (reason r))].
Definition add_reaction (answer reaction : V) (r : DeliveryRecord) : V :=
  match sv_get_array answer "reactions" with
  | Some lines => sv_insert answer "reactions" (sv_array (lines ++ [reaction_line reaction r]))
  | None => answer
  end.
Definition dead_letter (f : DeliveryFailure) : DeadLetter V := {|
  letter_policy := failed_policy f; letter_domain := failed_domain f; letter_verb := failed_verb f;
  letter_payload := failed_payload f; letter_error := failure_error f; attempts := failure_attempts f
|}.
Definition delivery_failed_line (f : DeliveryFailure) : LogLine V := {|
  is_error := true; event := "cross_domain_delivery_failed";
  fields := sv_obj [("policy" : str, sv_str (failed_policy f)); ("target_domain" : str, sv_str (failed_domain f));
    ("target_verb" : str, sv_str (failed_verb f)); ("attempts" : str, sv_i64 (failure_attempts f));
    ("error" : str, sv_str (failure_error f))]
|}.

(** The loop: every reaction gets its attempts, whatever became of the one before.
    The answer so far, the deliveries so far, and the first fault that lasted. *)
Record Delivered := { answer_so_far : V; deliveries : list V; first_failure : option str }.
Definition deliver_one (d : Delivered) (h : HostState V I) (reaction : V) : Delivered * HostState V I :=
  match deliver_with_retry (peers h) reaction with
  | (Ok r, peer') =>
    ({| answer_so_far := add_reaction (answer_so_far d) reaction r;
        deliveries := deliveries d ++ [delivery_json r]; first_failure := first_failure d |},
     {| store := store h; peers := peer'; log := log h |})
  | (Err f, peer') =>
    ({| answer_so_far := answer_so_far d; deliveries := deliveries d;
        first_failure := match first_failure d with Some e => Some e | None => Some (failure_error f) end |},
     {| store := record_dead_letter (store h) (dead_letter f); peers := peer';
        log := log h ++ [delivery_failed_line f] |})
  end.
Fixpoint deliver_all (d : Delivered) (h : HostState V I) (reactions : list V) : Delivered * HostState V I :=
  match reactions with
  | [] => (d, h)
  | r :: rest => let (d', h') := deliver_one d h r in deliver_all d' h' rest
  end.

(** ** What a delivery keeps *)

(** The journal, the snapshot, the sagas and the heads: what no delivery writes. *)
Definition same_domain (d d' : Data V) : Prop :=
  journal d' = journal d ∧ snapshot d' = snapshot d ∧ saga_rows d' = saga_rows d ∧ heads d' = heads d ∧ eras d' = eras d.

Lemma deliver_all_same (d : Delivered) (h : HostState V I) (reactions : list V) :
  same_domain (store h) (store (deliver_all d h reactions).2).
Proof.
  revert d h; induction reactions as [|r rest IH]; intros d h; [done|]. cbn [deliver_all].
  destruct (deliver_one d h r) as [d' h'] eqn:E.
  assert (same_domain (store h) (store h')) as (E1 & E2 & E3 & E4 & E5).
  { unfold deliver_one in E. destruct (deliver_with_retry (peers h) r) as [[|] ?]; by simplify_eq/=. }
  destruct (IH d' h') as (F1 & F2 & F3 & F4 & F5). unfold same_domain. by rewrite F1, F2, F3, F4, F5.
Qed.

(** A delivery is answered by the first attempt that is not a fault; it fails
    only after three faults, with the last one's words, and a refusal by the
    target is an answer like any other, never tried again. *)
Theorem delivery_is_first_answer (peer : I) (reaction : V) :
  let p1 := (deliver peer reaction).2 in
  let p2 := (deliver p1 reaction).2 in
  deliver_with_retry peer reaction =
  match (deliver peer reaction).1, (deliver p1 reaction).1, (deliver p2 reaction).1 with
  | Ok r, _, _ => (Ok r, p1)
  | Err _, Ok r, _ => (Ok r, p2)
  | Err _, Err _, Ok r => (Ok r, (deliver p2 reaction).2)
  | Err _, Err _, Err e =>
    (Err {| failed_policy := word reaction "policy"; failed_domain := word reaction "target_domain";
            failed_verb := word reaction "target_verb"; failed_payload := payload_of reaction;
            failure_error := e; failure_attempts := 3 |}, (deliver p2 reaction).2)
  end.
Proof.
  unfold deliver_with_retry, max_delivery_attempts. cbn [deliver_attempts].
  destruct (deliver peer reaction) as [[r|e] q1]; [done|]. cbn [fst snd].
  destruct (deliver q1 reaction) as [[r|e1] q2]; [done|]. cbn [fst snd].
  by destruct (deliver q2 reaction) as [[r|e2] q3].
Qed.

(** Of a command's reactions none is lost: each is either delivered, with its
    record in the answer, or a dead letter, whatever became of those before it,
    and the call fails with the first that was not delivered. *)
Theorem no_reaction_is_lost (answer : V) (h : HostState V I) (reactions : list V) :
  let (d, h') := deliver_all {| answer_so_far := answer; deliveries := []; first_failure := None |} h reactions in
  (length (deliveries d) + (length (dead_letters (store h')) - length (dead_letters (store h))) = length reactions)%nat ∧
  (first_failure d = None ↔ dead_letters (store h') = dead_letters (store h)) ∧
  first_failure d = letter_error <$> dead_letters (store h') !! length (dead_letters (store h)).
Proof.
  assert (∀ d, ∃ letters,
    let (d', h') := deliver_all d h reactions in
    dead_letters (store h') = dead_letters (store h) ++ letters ∧
    (length (deliveries d') + length letters = length (deliveries d) + length reactions)%nat ∧
    first_failure d' = match first_failure d with Some e => Some e | None => letter_error <$> head letters end) as H.
  { revert h; induction reactions as [|r rest IH]; intros h d; cbn [deliver_all].
    - exists []. rewrite app_nil_r. split_and!; [done|cbn; lia|by destruct (first_failure d)].
    - destruct (deliver_one d h r) as [d1 h1] eqn:E. destruct (IH h1 d1) as (letters & Hrest).
      unfold deliver_one in E. destruct (deliver_with_retry (peers h) r) as [[rec|f] peer'].
      + injection E as <- <-. exists letters. cbn in Hrest |- *.
        destruct (deliver_all _ _ rest) as [d' h']. destruct Hrest as (H1 & H2 & H3).
        rewrite length_app in H2. cbn in H2. split_and!; [done|lia|done].
      + injection E as <- <-. exists (dead_letter f :: letters). cbn in Hrest |- *.
        destruct (deliver_all _ _ rest) as [d' h']. destruct Hrest as (H1 & H2 & H3).
        rewrite <- app_assoc in H1. split_and!; [done|lia|]. rewrite H3. by destruct (first_failure d). }
  destruct (H {| answer_so_far := answer; deliveries := []; first_failure := None |}) as (letters & Hl).
  destruct (deliver_all _ h reactions) as [d h']. destruct Hl as (H1 & H2 & H3). cbn in H2, H3.
  rewrite H1, length_app, H3. split_and!.
  - lia.
  - destruct letters; cbn; [by rewrite app_nil_r|]. split; [done|]. intros E.
    by apply (f_equal length) in E; rewrite length_app in E; cbn in E; lia.
  - rewrite lookup_app_r, Nat.sub_diag by lia. by destruct letters.
Qed.
End delivery.
