(* ===== verification/HostDispatch.v ===== *)
(** One command through the host ([src/rust/host/core/src/dispatch.rs]): the role
    it is checked under, its filled arguments, the kernel's input, the kernel's
    answer read, what is then persisted, delivered and logged; the dry run that
    keeps nothing and its envelope ([validation.rs]); reads and declared queries
    ([query_step.rs]) and the questions a plugin answers ([plugins.rs]).

    The kernel reaches the host as a program from text to text, run in a wasm
    sandbox: [wasm_run].  It, the JSON reader and a plugin's module file are
    parameters.  The IR the host installed at boot is [domain_ir]; a run reads the
    clock twice, for the needed facts and for the step's timestamp. *)
From stdpp Require Import gmap.
From S2P Require Export HostNeeds Delivery Clock.
Open Scope Z_scope.

(** [Caller], [ANONYMOUS_ROLE], [Enforcement], [Effect]. *)
Record Caller := { role : option str; actor_id : option str }.
Definition no_caller : Caller := {| role := None; actor_id := None |}.
Definition ANONYMOUS_ROLE : str := "Anonymous".
Inductive Enforcement := Off | Shadow | Enforce.
#[global] Instance Enforcement_eq_dec : EqDecision Enforcement.
Proof. solve_decision. Defined.
Inductive Effect := CommitEffect | PreviewEffect.

(** [Enforcement::parse], [effective]. *)
Definition enforcement_of (value : option str) : Enforcement :=
  match value with
  | Some text => let v := lowercase_ascii (trim_both is_whitespace text) in
    if str_eqb v "shadow" then Shadow else if str_eqb v "enforce" then Enforce else Off
  | None => Off
  end.
Definition effective (mode : Enforcement) (caller : Caller) : Caller :=
  match mode, caller with
  | Off, _ => caller
  | _, {| role := None; actor_id := None |} => {| role := Some ANONYMOUS_ROLE; actor_id := None |}
  | _, _ => caller
  end.

(** [KernelAnswer]; the clock's two readings of one run. *)
Inductive KernelAnswer := AnswerAccepted | AnswerRefused | AnswerFailed (message : str).
Record Moment := { clock_secs : Z; elapsed : option Z }.

(** [PluginQuery]. *)
Record PluginQuery := {
  adapter : str; question : str; references : list (str * str); sha256 : str
}.

(** [wasm_runner::run] of a module's path, [serde_json::from_str], and the path a
    plugin's module is written to ([plugins.rs]'s [module_path]). *)
Class Sandbox (V : Type) := {
  wasm_run : str → str → result str str;
  sv_from_str : str → result str V;
  module_path : V → PluginQuery → result str str
}.

Section answers.
Context `{U : UnicodeTables} {V : Type} `{SV : Serde V} `{SB : Sandbox V}.

(** [refused_for_role]. *)
Definition refused_for_role (result : V) : bool :=
  existsb (λ r, bool_decide (sv_get_str r "kind" = Some ("Unauthorized" : str))) (sv_list result "refusals").

(** [classify]. *)
Definition classify (result : V) : KernelAnswer :=
  match sv_get result "error" with
  | Some error => AnswerFailed (default (sv_text error) (sv_as_str error))
  | None => match sv_list result "refusals" with [] => AnswerAccepted | _ => AnswerRefused end
  end.

(** [parse_kernel_output]. *)
Definition parse_kernel_output (output : str) : result str V :=
  let? answer := sv_from_str output in
  match classify answer with
  | AnswerFailed message => Err ("the kernel failed before it could run the command: " ++ message)
  | _ => Ok answer
  end.
Definition kernel (wasm_path : str) (input : V) : result str V :=
  let? output := wasm_run wasm_path (sv_text input) in parse_kernel_output output.

(** [routed_invocation], [facts_invocation]. *)
Definition with_must_be_object : str := "with must be an object of command facts".
Definition routed_invocation (to facts : V) : result str V :=
  if sv_is_object facts then Ok (sv_obj [("to" : str, to); ("with" : str, facts)]) else Err with_must_be_object.
Definition facts_invocation (facts : V) : result str V :=
  if sv_is_object facts then Ok (sv_obj [("with" : str, facts)]) else Err with_must_be_object.

(** [preview_step]. *)
Definition insert_present (args : V) (step : V) (key : str) : V :=
  match sv_get args key with Some value => sv_insert step key value | None => step end.
Definition preview_step (verb : str) (args : V) : V :=
  let step := sv_obj [("dry_run" : str, sv_str verb)] in
  match sv_get args "with", sv_get args "to" with
  | Some _, _ => fold_left (insert_present args) ["to" : str; "with" : str] step
  | None, Some to => sv_insert (sv_insert step "to" to) "with" (sv_remove args "to")
  | None, None => sv_insert step "args" args
  end.

(** [kernel_input]: a table with nothing in it is left out. *)
Definition insert_filled (input : V) (key : str) (table : V) : V :=
  match sv_entries table with [] => input | _ => sv_insert input key table end.
Definition kernel_input (domain_ir : option V) (ir_depth : nat) (seed : V) (steps : list V) (sagas_seed : V) : V :=
  let input := sv_obj [("seed" : str, seed); ("steps" : str, sv_array steps); ("sagas" : str, sagas_seed)] in
  match domain_ir with
  | Some ir => insert_filled (insert_filled input "needs" (needs_table ir)) "defaults" (defaults_table ir_depth ir)
  | None => input
  end.
Definition saga_json (r : SagaRow V) : V := sv_obj [
  ("process_manager" : str, sv_str (process_manager r)); ("correlation" : str, sv_str (correlation r));
  ("state" : str, sv_str (saga_state r)); ("memory" : str, saga_memory r);
  ("completed_compensations" : str, completed_compensations r)].

(** ** What the kernel says to persist *)

(** [saga_field], [mutation_field]. *)
Definition missing_field (what key : str) (entry : V) : str :=
  what ++ " missing " ++ dquote ++ key ++ dquote ++ ": " ++ sv_text entry.
Definition saga_field (entry : V) (key : str) : result str str :=
  ok_or (sv_get_str entry key) (missing_field "saga_snapshot entry" key entry).
Definition mutation_field (mutation : V) (key : str) : result str str :=
  ok_or (sv_get_str mutation key) (missing_field "mutation record" key mutation).

(** [saga_upserts], [saga_deletes]. *)
Definition saga_row_of (entry : V) : result str (SagaRow V) :=
  let? pm := saga_field entry "process_manager" in
  let? c := saga_field entry "correlation" in
  let? st := saga_field entry "state" in
  Ok {| process_manager := pm; correlation := c; saga_state := st;
        saga_memory := default sv_object (sv_get entry "memory");
        completed_compensations := default (sv_array []) (sv_get entry "completed_compensations") |}.
Definition upserts_of (result : V) : Prelude.result str (list (SagaRow V)) :=
  match sv_get_array result "saga_snapshot" with
  | Some entries => collect_results saga_row_of entries
  | None => Ok []
  end.
Definition entry_key (entry : V) : option (str * str) :=
  pm ← sv_get_str entry "process_manager"; c ← sv_get_str entry "correlation"; Some (pm, c).
Definition deletes_of (result : V) (before : list (SagaRow V)) : list (str * str) :=
  match sv_get_array result "saga_snapshot" with
  | Some entries =>
    let still_present := omap entry_key entries in
    List.filter (λ key, negb (bool_decide (key ∈ still_present))) (map saga_key before)
  | None => []
  end.

(** [lineage_write]: the last step's mutations, those of mirrored aggregates. *)
Definition last_of (result : V) (key : str) : list V :=
  default [] (last ← list.last (sv_list result key); sv_as_array last).
Definition mutation_of (mutation : V) (aggregate : str) : result str (Mutation V) :=
  let? id := mutation_field mutation "id" in
  let? operation := mutation_field mutation "operation" in
  let? state := ok_or (sv_get mutation "state") (missing_field "mutation record" "state" mutation) in
  Ok {| mutation_aggregate := aggregate; mutation_id := id; mutation_operation := operation; mutation_state := state |}.
Definition add_mutation (config : LineageConfig) (ms : list (Mutation V)) (mutation : V) :
    result str (list (Mutation V)) :=
  let? aggregate := mutation_field mutation "aggregate" in
  if mirrors config aggregate then let? m := mutation_of mutation aggregate in Ok (ms ++ [m]) else Ok ms.
Definition lineage_of (result : V) (config : LineageConfig) : Prelude.result str (option (LineageWrite V)) :=
  match era config with
  | None => Ok None
  | Some _ =>
    let? ms := try_fold (add_mutation config) [] (last_of result "mutations") in
    Ok (Some {| lineage_config := config; mutations := ms |})
  end.

(** [command_fields]. *)
Definition command_fields (verb : str) (role : option str) (accepted : bool) (result : V) : V := sv_obj [
  ("verb" : str, sv_str verb); ("role" : str, sv_of_option role); ("accepted" : str, sv_bool accepted);
  ("events" : str, sv_array (omap (λ item, sv_get item "name") (sv_list result "events")));
  ("refusals" : str, default (sv_array []) (sv_get result "refusals"))].

(** ** A preview's answer ([validation.rs]) *)

(** [requested], of the query string's [dry_run]. *)
Definition requested (dry_run : option str) : bool :=
  match dry_run with Some v => str_eqb v "1" || str_eqb v "true" | None => false end.
Definition dry_run (result : V) : option V := runs ← sv_get_array result "dry_runs"; list.last runs.
Definition dry_run_accepted (result : V) : bool :=
  default false (run ← dry_run result; ok ← sv_get run "ok"; sv_as_bool ok).
Definition refusal_of (run : V) : V := sv_obj [
  ("kind" : str, default (sv_str "refused") (sv_get run "kind"));
  ("stage" : str, default (sv_str "state") (sv_get run "stage"));
  ("refusal" : str, default sv_null (sv_get run "refusal"));
  ("message" : str, default sv_null (sv_get run "error"))].
Definition reasons (run : V) : list V :=
  match sv_get_array run "refusals" with Some (listed :: more) => listed :: more | _ => [refusal_of run] end.
Definition preview_answer (result : V) : V :=
  let refusals := match dry_run result with
                  | Some run => if dry_run_accepted result then [] else reasons run
                  | None => [] end in
  sv_obj [("ok" : str, sv_bool (dry_run_accepted result)); ("refusals" : str, sv_array refusals)].
End answers.

(** ** One run *)

(** [Outcome]. *)
Record Outcome (V : Type) := { result_of : V; accepted : bool }.
Arguments result_of {V}. Arguments accepted {V}. Arguments Build_Outcome {V}.

Section dispatch.
Context `{U : UnicodeTables} {V I : Type} `{SV : Serde V} `{SB : !Sandbox V} `{Inv : !Invoker V I}.
(** The host: its module, its lineage, the installed IR with a bound on how deep
    its entities nest, and where the store is made to fail. *)
Context (wasm_path : str) (config : LineageConfig) (domain_ir : option V) (ir_depth : nat) (fault : option Fault).

(** The live step: the command or the dry run, who asks, and when. *)
Definition stated (step : V) (key : str) (value : option str) : V :=
  match value with Some v => sv_insert step key (sv_str v) | None => step end.
Definition live_step (effect : Effect) (verb : str) (args : V) (caller : Caller) (now : Moment) : V :=
  let step := match effect with
              | CommitEffect => sv_obj [("verb" : str, sv_str verb); ("args" : str, args)]
              | PreviewEffect => preview_step verb args
              end in
  sv_insert (stated (stated step "role" (role caller)) "actor_id" (actor_id caller))
    "occurred_at" (sv_str (iso8601_now (elapsed now))).

Definition filled (origin : Origin) (verb : str) (now : Moment) (args : V) : V :=
  match domain_ir with Some ir => fill_arguments origin ir verb (clock_secs now) args | None => args end.

(** What the kernel is asked: what the unit loaded, and then the live step. *)
Definition asked_of (d : Data V) (step : V) : V :=
  let state := load d in
  kernel_input domain_ir ir_depth (seed state) (state_steps state ++ [step])
    (sv_array (map saga_json (state_sagas state))).

Definition accepted_step (verb : str) (args result : V) (before : list (SagaRow V)) : Prelude.result str (Accepted V) :=
  let? upserts := upserts_of result in
  let? lineage := lineage_of result config in
  Ok {| HostStore.verb := verb; HostStore.args := args;
        new_seed := default sv_object (sv_get result "instances");
        saga_upserts := upserts; saga_deletes := deletes_of result before; HostStore.lineage := lineage |}.

(** What is persisted of the kernel's answer: an accepted step's, and nothing else. *)
Definition is_accepted (result : V) : bool := match classify result with AnswerAccepted => true | _ => false end.
Definition persist (verb : str) (args result : V) (d : Data V) : Prelude.result str unit * Data V :=
  if is_accepted result then
    match accepted_step verb args result (state_sagas (load d)) with
    | Err e => (Err e, d)
    | Ok a => match commit fault d a with
              | (Ok _, d') => (Ok (), d')
              | (Err e, d') => (Err (store_error_text e), d')
              end
    end
  else (Ok (), d).

(** The reactions of the live step, delivered once it is persisted, and the line
    logged for the command: neither when a delivery failed. *)
Definition with_store (h : HostState V I) (d : Data V) : HostState V I :=
  {| store := d; peers := peers h; log := log h |}.
Definition with_line (h : HostState V I) (line : LogLine V) : HostState V I :=
  {| store := store h; peers := peers h; log := log h ++ [line] |}.
Definition command_line (verb : str) (role : option str) (accepted : bool) (result : V) : LogLine V :=
  {| is_error := negb accepted; event := "command"; fields := command_fields verb role accepted result |}.
Definition insert_in_object (v : V) (key : str) (x : V) : V := if sv_is_object v then sv_insert v key x else v.
Definition deliver_and_log (verb : str) (role : option str) (result : V) (h : HostState V I) :
    Prelude.result str (Outcome V) * HostState V I :=
  let (d, h') := deliver_all {| answer_so_far := result; deliveries := []; first_failure := None |} h
                   (last_of result "cross_domain_reactions") in
  match first_failure d with
  | Some e => (Err e, h')
  | None =>
    let answer := insert_in_object (answer_so_far d) "cross_domain_deliveries" (sv_array (deliveries d)) in
    (Ok {| result_of := answer; accepted := is_accepted result |},
     with_line h' (command_line verb role (is_accepted result) answer))
  end.

(** [run]. *)
Definition run (origin : Origin) (effect : Effect) (verb : str) (args : V) (caller : Caller) (now : Moment)
    (h : HostState V I) : Prelude.result str (Outcome V) * HostState V I :=
  let args := filled origin verb now args in
  match kernel wasm_path (asked_of (store h) (live_step effect verb args caller now)) with
  | Err e => (Err e, h)
  | Ok result =>
    match effect with
    | PreviewEffect => (Ok {| result_of := result; accepted := dry_run_accepted result |}, h)
    | CommitEffect =>
      match persist verb args result (store h) with
      | (Err e, d) => (Err e, with_store h d)
      | (Ok _, d) => deliver_and_log verb (role caller) result (with_store h d)
      end
    end
  end.

(** [dispatch_with]: [now] and [again] are the moments of the run and of the one
    that lets a caller with no stated role through. *)
Definition checked_caller (mode : Enforcement) (origin : Origin) (caller : Caller) : Caller :=
  match origin with HostInternal => caller | _ => effective mode caller end.
Definition lets_through (mode : Enforcement) (caller : Caller) (outcome : Outcome V) : bool :=
  bool_decide (mode = Shadow) && match role caller with None => true | Some _ => false end &&
  negb (accepted outcome) && refused_for_role (result_of outcome).
Definition would_refuse_role (verb : str) (caller : Caller) (result : V) : LogLine V := {|
  is_error := true; event := "would_refuse_role";
  fields := sv_obj [("verb" : str, sv_str verb); ("role" : str, sv_of_option (role caller));
    ("actor_id" : str, sv_of_option (actor_id caller)); ("refusals" : str, default sv_null (sv_get result "refusals"))]
|}.
Definition dispatch_with (mode : Enforcement) (origin : Origin) (effect : Effect) (verb : str) (args : V)
    (caller : Caller) (now again : Moment) (h : HostState V I) : Prelude.result str (Outcome V) * HostState V I :=
  let checked := checked_caller mode origin caller in
  match run origin effect verb args checked now h with
  | (Err e, h') => (Err e, h')
  | (Ok outcome, h') =>
    if lets_through mode caller outcome then
      run origin effect verb args no_caller again
        (with_line h' (would_refuse_role verb checked (result_of outcome)))
    else (Ok outcome, h')
  end.

(** The entry points: [handle], [handle_as], [handle_request], [preview_as],
    [preview_request]. *)
Definition handle (mode : Enforcement) (verb : str) (args : V) (role : option str) :=
  dispatch_with mode (match role with None => HostInternal | Some _ => External end) CommitEffect verb args
    {| role := role; actor_id := None |}.
Definition handle_as (mode : Enforcement) (verb : str) (args : V) (caller : Caller) :=
  dispatch_with mode External CommitEffect verb args caller.
Definition handle_request (mode : Enforcement) (verb : str) (args : V) (caller : Caller) :=
  dispatch_with mode Request CommitEffect verb args caller.
Definition preview_as (mode : Enforcement) (verb : str) (args : V) (caller : Caller) :=
  dispatch_with mode External PreviewEffect verb args caller.
Definition preview_request (mode : Enforcement) (verb : str) (args : V) (caller : Caller) :=
  dispatch_with mode Request PreviewEffect verb args caller.

(** [handle_routed], [handle_facts] and their [_as] and [_request] forms: the
    arguments are the invocation, where its facts are an object. *)
Definition invoked (invocation : Prelude.result str V)
    (handler : V → HostState V I → Prelude.result str (Outcome V) * HostState V I) (h : HostState V I) :=
  match invocation with Ok args => handler args h | Err e => (Err e, h) end.
Definition handle_routed (mode : Enforcement) (verb : str) (to facts : V) (role : option str) (now again : Moment) :=
  invoked (routed_invocation to facts) (λ args, handle mode verb args role now again).
Definition handle_routed_as (mode : Enforcement) (verb : str) (to facts : V) (caller : Caller) (now again : Moment) :=
  invoked (routed_invocation to facts) (λ args, handle_as mode verb args caller now again).
Definition handle_routed_request (mode : Enforcement) (verb : str) (to facts : V) (caller : Caller) (now again : Moment) :=
  invoked (routed_invocation to facts) (λ args, handle_request mode verb args caller now again).
Definition handle_facts (mode : Enforcement) (verb : str) (facts : V) (role : option str) (now again : Moment) :=
  invoked (facts_invocation facts) (λ args, handle mode verb args role now again).
Definition handle_facts_as (mode : Enforcement) (verb : str) (facts : V) (caller : Caller) (now again : Moment) :=
  invoked (facts_invocation facts) (λ args, handle_as mode verb args caller now again).
Definition handle_facts_request (mode : Enforcement) (verb : str) (facts : V) (caller : Caller) (now again : Moment) :=
  invoked (facts_invocation facts) (λ args, handle_request mode verb args caller now again).

(** ** Reads and queries *)

(** [read]: the snapshot as it stands where nothing was journaled after it. *)
Definition read (d : Data V) : Prelude.result str V :=
  let state := read_state d in
  match state_snapshot state, state_steps state with
  | Some s, [] => Ok (sv_obj [("instances" : str, snapshot_seed s); ("events" : str, sv_array []);
                              ("refusals" : str, sv_array [])])
  | Some s, steps => kernel wasm_path (sv_obj [("seed" : str, snapshot_seed s); ("steps" : str, sv_array steps)])
  | None, steps => kernel wasm_path (sv_obj [("steps" : str, sv_array steps)])
  end.

(** [answer_query], [query], [query_request]. *)
Definition answer_query (question : str) (args : V) (d : Data V) : Prelude.result str V :=
  let? state := read d in
  kernel wasm_path (sv_obj [("seed" : str, default sv_object (sv_get state "instances"));
    ("steps" : str, sv_array [sv_obj [("query" : str, sv_str question); ("args" : str, args)]])]).
Definition query (question : str) (args : V) (now_secs : Z) (d : Data V) : Prelude.result str V :=
  answer_query question
    (match domain_ir with Some ir => fill_query_needs ir question now_secs args | None => args end) d.
Definition query_request (question : str) (args : V) (now_secs : Z) (d : Data V) : Prelude.result str V :=
  answer_query question
    (match domain_ir with Some ir => answer_query_needs ir question now_secs args | None => args end) d.

(** [present_with]. *)
Definition present (answer : V) : Prelude.result str V := kernel wasm_path (sv_obj [("present" : str, answer)]).
End dispatch.
