(* ===== verification/HostDispatchFacts.v ===== *)
(** What one command through the host keeps: a preview and a refused run leave
    the domain's data as they were, an accepted run writes one row, one snapshot
    and the sagas the kernel reports, and a read that follows answers from that
    snapshot; a stated role is checked alike in every mode of enforcement, and a
    caller known only as an actor is not. *)
From stdpp Require Import gmap.
From S2P Require Export HostDispatch HostStoreFacts.
Open Scope Z_scope.

Section runs.
Context `{U : UnicodeTables} {V I : Type} `{SV : Serde V} `{SB : !Sandbox V} `{Inv : !Invoker V I}.
Context (wasm_path : str) (config : LineageConfig) (domain_ir : option V) (ir_depth : nat) (fault : option Fault).
Abbreviation run_one := (HostDispatch.run wasm_path config domain_ir ir_depth fault).
Abbreviation dispatch_one := (HostDispatch.dispatch_with wasm_path config domain_ir ir_depth fault).
Abbreviation persist_one := (HostDispatch.persist config fault).

(** ** What a run writes *)

Lemma same_domain_refl (d : Data V) : same_domain d d.
Proof. done. Qed.
Lemma same_domain_trans (d1 d2 d3 : Data V) : same_domain d1 d2 → same_domain d2 d3 → same_domain d1 d3.
Proof. intros (?&?&?&?&?) (?&?&?&?&?). split_and!; congruence. Qed.

Lemma deliver_and_log_same (verb : str) (role : option str) (result : V) (h : HostState V I) :
  let (answer, h') := deliver_and_log verb role result h in
  same_domain (store h) (store h') ∧ ∀ o, answer = Ok o → accepted o = is_accepted result.
Proof.
  unfold deliver_and_log. set (d0 := {| answer_so_far := result; deliveries := []; first_failure := None |}).
  pose proof (deliver_all_same d0 h (last_of result "cross_domain_reactions")) as H.
  destruct (deliver_all d0 h _) as [d h']. cbn in H. destruct (first_failure d); (split; [exact H|]); [done|].
  by intros o [= <-].
Qed.

(** The data after an answer is persisted. *)
Lemma persist_cases (verb : str) (args result : V) (d : Data V) :
  (is_accepted result = true → (persist_one verb args result d).1 ≠ Ok ()) ∧ (persist_one verb args result d).2 = d ∨
  is_accepted result = true ∧ fault = None ∧
  ∃ a, accepted_step config verb args result (state_sagas (load d)) = Ok a ∧
       (persist_one verb args result d).2 = (commit None d a).2.
Proof.
  unfold HostDispatch.persist. destruct (is_accepted result) eqn:Ea; [|by left].
  destruct (accepted_step _ _ _ _ _) as [a|e] eqn:Es; [|by left].
  pose proof (commit_cases fault d a) as H. destruct fault as [f|] eqn:Ef.
  - left. by rewrite H.
  - right. split_and!; [done..|]. exists a. by destruct (commit None d a) as [[[]|e] d'].
Qed.

(** What one accepted step leaves in the data. *)
Definition one_step_written (d d' : Data V) (a : Accepted V) : Prop :=
  journal d' = journal d ++ [{| ordinal := next_ordinal d; step := journaled a |}] ∧
  snapshot d' = Some {| snapshot_ordinal := next_ordinal d; snapshot_seed := new_seed a; sagas_backfilled := true |} ∧
  saga_rows d' = write_sagas (saga_rows d) a ∧ eras d' = eras d.
Lemma commit_writes_one (d d' : Data V) (a : Accepted V) :
  same_domain (commit None d a).2 d' → one_step_written d d' a.
Proof.
  intros (H1 & H2 & H3 & _ & H5). pose proof (commit_cases None d a) as [(E1 & E2 & E3 & _ & E5) _].
  unfold one_step_written. by rewrite H1, H2, H3, H5, E1, E2, E3, E5.
Qed.

(** Every way a run ends: where it is accepted, the answer is the kernel's with
    what was delivered added to it. *)
Lemma run_cases (origin : Origin) (verb : str) (args : V) (caller : Caller) (now : Moment) (h : HostState V I) :
  let (answer, h') := run_one origin CommitEffect verb args caller now h in
  (same_domain (store h) (store h') ∧ ∀ o, answer = Ok o → accepted o = false) ∨
  ∃ result a, is_accepted result = true ∧ fault = None ∧
    kernel wasm_path (asked_of domain_ir ir_depth (store h)
      (live_step CommitEffect verb (filled domain_ir origin verb now args) caller now)) = Ok result ∧
    accepted_step config verb (filled domain_ir origin verb now args) result (state_sagas (load (store h))) = Ok a ∧
    same_domain (commit None (store h) a).2 (store h') ∧
    ∀ o, answer = Ok o → accepted o = true ∧
      ∃ g, (deliver_and_log verb (role caller) result g).1 = Ok o.
Proof.
  unfold HostDispatch.run. set (fargs := filled domain_ir origin verb now args).
  destruct (kernel wasm_path _) as [result|e] eqn:Ek; [|by left].
  pose proof (persist_cases verb fargs result (store h)) as Hp.
  assert (is_accepted result = false → (persist_one verb fargs result (store h)) = (Ok (), store h)) as Hno
    by (unfold HostDispatch.persist; by intros ->).
  destruct (persist_one verb fargs result (store h)) as [[[]|e] d]; cbn [fst snd] in Hp; cycle 1.
  { destruct Hp as [[_ ->]|(Ha & Hf & a & Hs & ->)]; [by left|]. right. by exists result, a. }
  pose proof (deliver_and_log_same verb (role caller) result (with_store h d)) as H.
  destruct (deliver_and_log _ _ _ _) as [answer h'] eqn:Ed. destruct H as [H1 H2]. cbn in H1.
  destruct (is_accepted result) eqn:Ea; [|left; injection (Hno eq_refl) as ->; by split].
  destruct Hp as [[Hno' _]|(_ & Hf & a & Hs & ->)]; [by destruct (Hno' eq_refl)|].
  right. exists result, a. split_and!; try done. intros o Ho. split; [by apply H2|].
  exists (with_store h (commit None (store h) a).2). by rewrite Ed.
Qed.

(** C5: one run of a command either leaves the domain as it was, and is then not
    accepted, or appends exactly one row, of the verb and the arguments as they
    were filled, makes the kernel's instances the snapshot of the whole journal,
    and writes the sagas it reports.  The kernel's failure, its refusal and an
    injected fault all leave the domain. *)
Theorem run_keeps_or_writes_one (origin : Origin) (verb : str) (args : V) (caller : Caller) (now : Moment)
    (h : HostState V I) :
  let (answer, h') := run_one origin CommitEffect verb args caller now h in
  (same_domain (store h) (store h') ∧ ∀ o, answer = Ok o → accepted o = false) ∨
  ∃ result a, is_accepted result = true ∧ fault = None ∧
    kernel wasm_path (asked_of domain_ir ir_depth (store h)
      (live_step CommitEffect verb (filled domain_ir origin verb now args) caller now)) = Ok result ∧
    accepted_step config verb (filled domain_ir origin verb now args) result (state_sagas (load (store h))) = Ok a ∧
    HostStore.verb a = verb ∧ HostStore.args a = filled domain_ir origin verb now args ∧
    new_seed a = default sv_object (sv_get result "instances") ∧
    one_step_written (store h) (store h') a.
Proof.
  pose proof (run_cases origin verb args caller now h) as H.
  destruct (run_one _ _ _ _ _ _ _) as [answer h']. destruct H as [H|(result & a & Ha & Hf & Hk & Hs & Hd & _)]; [by left|].
  right. exists result, a. pose proof Hs as Hs'. unfold accepted_step in Hs'.
  destruct (upserts_of result); [|done]. destruct (lineage_of result config); [|done]. injection Hs' as <-.
  split_and!; try done; by apply commit_writes_one.
Qed.

(** A preview keeps nothing, whoever asks, whatever the kernel answers and
    under every enforcement: the data, the peers and, unless the mode lets a
    caller through, the log are what they were. *)
Theorem preview_keeps_nothing (mode : Enforcement) (origin : Origin) (verb : str) (args : V) (caller : Caller)
    (now again : Moment) (h : HostState V I) :
  let (answer, h') := dispatch_one mode origin PreviewEffect verb args caller now again h in
  store h' = store h ∧ peers h' = peers h ∧ (mode ≠ Shadow ∨ role caller ≠ None → h' = h) ∧
  ∀ o, answer = Ok o → accepted o = dry_run_accepted (result_of o).
Proof.
  assert (∀ c t g, let (answer, g') := run_one origin PreviewEffect verb args c t g in
    g' = g ∧ ∀ o, answer = Ok o → accepted o = dry_run_accepted (result_of o)) as Hr.
  { intros c t g. unfold HostDispatch.run. destruct (kernel _ _); (split; [done|]); [|done]. by intros o [= <-]. }
  unfold HostDispatch.dispatch_with.
  pose proof (Hr (checked_caller mode origin caller) now h) as H1.
  destruct (run_one _ _ _ _ _ _ _) as [[o|e] h1]; destruct H1 as [-> H1]; [|done].
  destruct (lets_through mode caller o) eqn:El; [|by split_and!; auto].
  pose proof (Hr no_caller again (with_line h (would_refuse_role verb (checked_caller mode origin caller) (result_of o)))) as H2.
  destruct (run_one _ _ _ _ _ _ _) as [answer h2]; destruct H2 as [-> H2]. split_and!; [done|done| |done].
  unfold lets_through in El. rewrite !andb_true_iff, bool_decide_eq_true in El.
  destruct El as [[[-> El] _] _]. destruct (role caller); [done|]. by intros [|].
Qed.

(** ** The role a command is checked under *)

(** A caller that states a role is dispatched alike in every mode of
    enforcement, and so is the host itself under any but the shadow; an
    unidentified caller under enforcement is dispatched as the anonymous role,
    which no command declares. *)
Theorem stated_role_checked_alike (mode : Enforcement) (origin : Origin) (effect : Effect) (verb : str) (args : V)
    (caller : Caller) (now again : Moment) (h : HostState V I) :
  (role caller ≠ None → dispatch_one mode origin effect verb args caller now again h =
                        run_one origin effect verb args caller now h) ∧
  (mode ≠ Shadow → origin = HostInternal → dispatch_one mode origin effect verb args caller now again h =
                        run_one origin effect verb args caller now h) ∧
  (caller = no_caller → origin ≠ HostInternal → dispatch_one Enforce origin effect verb args caller now again h =
                        run_one origin effect verb args {| role := Some ANONYMOUS_ROLE; actor_id := None |} now h) ∧
  (dispatch_one Off origin effect verb args caller now again h = run_one origin effect verb args caller now h).
Proof.
  assert (∀ m, m ≠ Shadow ∨ role caller ≠ None → ∀ o : Outcome V, lets_through m caller o = false) as Hl.
  { intros m Hm o. unfold lets_through. destruct Hm as [Hm|Hm]; [by rewrite bool_decide_false|].
    destruct (role caller); [|done]. by rewrite andb_false_r. }
  assert (∀ m c, m ≠ Shadow ∨ role caller ≠ None → checked_caller m origin caller = c →
    dispatch_one m origin effect verb args caller now again h = run_one origin effect verb args c now h) as Hd.
  { intros m c Hm Hc. unfold HostDispatch.dispatch_with. rewrite Hc.
    destruct (run_one _ _ _ _ _ _ _) as [[o|e] h1]; [|done]. by rewrite Hl. }
  split_and!.
  - intros Hr. apply Hd; [by right|]. destruct caller as [[r|] a]; [|done]. by destruct mode, origin.
  - intros Hm ->. by apply Hd; [left|].
  - intros -> Ho. apply Hd; [by left|]. by destruct origin.
  - apply Hd; [by left|]. by destruct origin.
Qed.

(** Shadow enforcement accepts what no enforcement refuses: a caller the
    host knows only as an actor, and refused for the role the kernel wants, is
    run again as nobody, and nobody is not checked. *)
Theorem shadow_runs_an_actor_as_nobody (origin : Origin) (effect : Effect) (verb : str) (args : V)
    (actor : str) (now again : Moment) (h h1 : HostState V I) (refused : Outcome V) :
  let caller := {| role := None; actor_id := Some actor |} in
  run_one origin effect verb args caller now h = (Ok refused, h1) →
  accepted refused = false → refused_for_role (result_of refused) = true →
  dispatch_one Off origin effect verb args caller now again h = (Ok refused, h1) ∧
  dispatch_one Shadow origin effect verb args caller now again h =
    run_one origin effect verb args no_caller again (with_line h1 (would_refuse_role verb caller (result_of refused))).
Proof.
  intros caller Hr Ha Hf.
  assert (∀ m, checked_caller m origin caller = caller) as Hc by (intros m; by destruct m, origin).
  unfold HostDispatch.dispatch_with. rewrite !Hc, Hr. unfold lets_through. rewrite Ha, Hf. done.
Qed.
End runs.

(** ** A read after a command *)

Section reading.
Context `{U : UnicodeTables} {V I : Type} `{SV : Serde V} `{SL : !SerdeLaws V} `{SB : !Sandbox V} `{Inv : !Invoker V I}.
Context (wasm_path : str) (config : LineageConfig) (domain_ir : option V) (ir_depth : nat) (fault : option Fault).

(** What is added to an answer leaves its other keys. *)
Lemma insert_in_object_other (v : V) (k k' : str) (x : V) : k ≠ k' → sv_get (insert_in_object v k x) k' = sv_get v k'.
Proof.
  intros Hk. unfold insert_in_object. destruct (sv_is_object v) eqn:E; [|done].
  rewrite sv_get_insert by done. by rewrite decide_False.
Qed.
Lemma add_reaction_other (answer reaction : V) (r : DeliveryRecord) (k : str) :
  ("reactions" : str) ≠ k → sv_get (add_reaction answer reaction r) k = sv_get answer k.
Proof.
  intros Hk. unfold add_reaction, sv_get_array. destruct (sv_get answer "reactions") as [x|] eqn:E; [|done]. cbn.
  destruct (sv_as_array x); [|done]. rewrite sv_get_insert by (by eapply sv_get_is). by rewrite decide_False.
Qed.
Lemma deliver_all_answer (d : Delivered) (h : HostState V I) (reactions : list V) (k : str) :
  ("reactions" : str) ≠ k → sv_get (answer_so_far (deliver_all d h reactions).1) k = sv_get (answer_so_far d) k.
Proof.
  intros Hk. revert d h; induction reactions as [|r rest IH]; intros d h; [done|]. cbn [deliver_all].
  destruct (deliver_one d h r) as [d' h'] eqn:E. rewrite IH. unfold deliver_one in E.
  destruct (deliver_with_retry (peers h) r) as [[rec|f] peer']; injection E as <- <-; cbn; [|done].
  by apply add_reaction_other.
Qed.
Lemma deliver_and_log_answer (verb : str) (role : option str) (result : V) (h : HostState V I) (o : Outcome V) (k : str) :
  ("reactions" : str) ≠ k → ("cross_domain_deliveries" : str) ≠ k →
  (deliver_and_log verb role result h).1 = Ok o → sv_get (result_of o) k = sv_get result k.
Proof.
  intros Hr Hc. unfold deliver_and_log.
  pose proof (deliver_all_answer {| answer_so_far := result; deliveries := []; first_failure := None |} h
    (last_of result "cross_domain_reactions") k Hr) as Ha.
  destruct (deliver_all _ h _) as [d h']. cbn in Ha. destruct (first_failure d); [done|]. intros [= <-].
  cbn. by rewrite insert_in_object_other.
Qed.

(** A read that follows an accepted command answers, without running the
    kernel, the very instances that command's answer carries; so does a declared
    query start from them. *)
Theorem read_answers_last_command (origin : Origin) (verb : str) (args : V) (caller : Caller) (now : Moment)
    (h h' : HostState V I) (o : Outcome V) (other_path question : str) (query_args : V) :
  kept (store h) →
  HostDispatch.run wasm_path config domain_ir ir_depth fault origin CommitEffect verb args caller now h = (Ok o, h') →
  accepted o = true →
  let instances := default sv_object (sv_get (result_of o) "instances") in
  kept (store h') ∧
  read other_path (store h') = Ok (sv_obj [("instances" : str, instances); ("events" : str, sv_array []);
    ("refusals" : str, sv_array [])]) ∧
  answer_query other_path question query_args (store h') =
    kernel other_path (sv_obj [("seed" : str, instances);
      ("steps" : str, sv_array [sv_obj [("query" : str, sv_str question); ("args" : str, query_args)]])]).
Proof.
  intros Hk Hr Ho instances.
  pose proof (run_cases wasm_path config domain_ir ir_depth fault origin verb args caller now h) as H. rewrite Hr in H.
  destruct H as [[_ H]|(result & a & _ & _ & _ & Hs & (Hj & Hsn & Hsg & _) & H)];
    [by rewrite (H o eq_refl) in Ho|].
  destruct (H o eq_refl) as (_ & g & Hg).
  assert (instances = new_seed a) as Ei.
  { unfold instances. rewrite (deliver_and_log_answer _ _ _ _ _ "instances" ltac:(done) ltac:(done) Hg).
    unfold accepted_step in Hs. destruct (upserts_of result); [|done]. destruct (lineage_of result config); [|done].
    by injection Hs as <-. }
  assert (kept (store h')) as Hk'.
  { pose proof (commit_kept None (store h) a Hk) as [K1 K2 K3]. split; by rewrite ?Hj, ?Hsn. }
  assert (read other_path (store h') = Ok (sv_obj [("instances" : str, instances); ("events" : str, sv_array []);
    ("refusals" : str, sv_array [])])) as Hread.
  { unfold read. rewrite (proj2 (kept_no_steps _ Hk')). unfold read_state. cbn [state_snapshot]. rewrite Hsn.
    pose proof (commit_cases None (store h) a) as [(_ & E2 & _) _]. rewrite E2. cbn. by rewrite Ei. }
  split_and!; [done|done|]. unfold answer_query. rewrite Hread.
  rewrite sv_get_obj by (refine (bool_decide_unpack _ _); vm_compute; exact Logic.I). done.
Qed.
End reading.

(** ** The sagas and the snapshot *)

Section sagas.
Context `{U : UnicodeTables} {V : Type} `{SV : Serde V}.

(** The saga table is keyed by what its rows say. *)
Definition keyed (rows : gmap (str * str) (SagaRow V)) : Prop := ∀ key r, rows !! key = Some r → saga_key r = key.

(** The last of some rows under a key. *)
Definition last_row (key : str * str) (rs : list (SagaRow V)) : option (SagaRow V) :=
  list.last (filter (λ r, saga_key r = key) rs).
Lemma last_row_snoc (key : str * str) (rs : list (SagaRow V)) (r : SagaRow V) :
  last_row key (rs ++ [r]) = if decide (saga_key r = key) then Some r else last_row key rs.
Proof.
  unfold last_row. rewrite list.filter_app, filter_cons, filter_nil. destruct (decide (saga_key r = key)).
  - by rewrite list.last_snoc.
  - by rewrite app_nil_r.
Qed.
Lemma last_row_key (key : str * str) (rs : list (SagaRow V)) (r : SagaRow V) :
  last_row key rs = Some r → saga_key r = key ∧ r ∈ rs.
Proof. intros H%last_Some_elem_of. by apply list_elem_of_filter in H. Qed.
Lemma last_row_none (key : str * str) (rs : list (SagaRow V)) : last_row key rs = None ↔ key ∉ map saga_key rs.
Proof.
  unfold last_row. rewrite last_None. split.
  - intros Hf (r & -> & Hr)%list_elem_of_fmap.
    assert (r ∈ filter (λ r', saga_key r' = saga_key r) rs) as Hin by (by apply list_elem_of_filter).
    rewrite Hf in Hin. by apply elem_of_nil in Hin.
  - intros Hk. destruct (filter _ rs) as [|r l] eqn:E; [done|]. exfalso. apply Hk.
    assert (r ∈ filter (λ r', saga_key r' = key) rs) as [<- Hr]%list_elem_of_filter by (rewrite E; left).
    apply list_elem_of_fmap. eauto.
Qed.

Lemma upserts_lookup (rows : gmap (str * str) (SagaRow V)) (rs : list (SagaRow V)) (key : str * str) :
  fold_left (λ m r, <[saga_key r := r]> m) rs rows !! key =
  match last_row key rs with Some r => Some r | None => rows !! key end.
Proof.
  induction rs as [|r rs IH] using rev_ind; [done|]. rewrite fold_left_app, last_row_snoc. cbn [fold_left].
  destruct (decide (saga_key r = key)) as [<-|]; [by rewrite lookup_insert_eq|by rewrite lookup_insert_ne].
Qed.
Lemma deletes_lookup (rows : gmap (str * str) (SagaRow V)) (keys : list (str * str)) (key : str * str) :
  fold_left (λ m k, delete k m) keys rows !! key = if decide (key ∈ keys) then None else rows !! key.
Proof.
  revert rows. induction keys as [|k keys IH]; intros rows; cbn [fold_left].
  { rewrite decide_False; [done|]. apply not_elem_of_nil. }
  rewrite IH. destruct (decide (key ∈ keys)) as [Hin|Hin]; [by rewrite decide_True by (by right)|].
  destruct (decide (key = k)) as [->|Hne]; [rewrite decide_True by left; apply lookup_delete_eq|].
  rewrite decide_False by (rewrite elem_of_cons; tauto). by rewrite lookup_delete_ne by congruence.
Qed.

Lemma saga_keys (rows : gmap (str * str) (SagaRow V)) (key : str * str) :
  keyed rows → key ∈ map saga_key (saga_values rows) ↔ is_Some (rows !! key).
Proof.
  intros Hk. unfold saga_values. rewrite list_elem_of_fmap. setoid_rewrite list_elem_of_fmap. split.
  - intros (r & -> & [k r'] & -> & Hin). rewrite sort_by_perm, elem_of_map_to_list in Hin.
    cbn. rewrite (Hk _ _ Hin). by exists r'.
  - intros [r Hr]. exists r. split; [symmetry; by apply Hk|]. exists (key, r). split; [done|].
    by rewrite sort_by_perm, elem_of_map_to_list.
Qed.

Lemma entry_keys (entries : list V) (rs : list (SagaRow V)) :
  collect_results saga_row_of entries = Ok rs → omap entry_key entries = map saga_key rs.
Proof.
  intros H%collect_results_all. induction H as [|e r es rs Hr _ IH]; [done|]. cbn.
  unfold saga_row_of, saga_field in Hr. unfold entry_key.
  destruct (sv_get_str e "process_manager") as [pm|]; [|done].
  destruct (sv_get_str e "correlation") as [c|]; [|done]. destruct (sv_get_str e "state") as [st|]; [|done].
  cbn in Hr. injection Hr as <-. cbn. f_equal. exact IH.
Qed.

(** An accepted step makes the saga table what the kernel reports, no more
    and no less: under each key the last instance reported under it, and none
    where none was; a report without sagas leaves the table.  The table stays
    keyed by what its rows say. *)
Theorem saga_table_follows_kernel (config : LineageConfig) (verb : str) (args result : V) (d : Data V) (a : Accepted V) :
  keyed (saga_rows d) →
  accepted_step config verb args result (state_sagas (load d)) = Ok a →
  keyed (write_sagas (saga_rows d) a) ∧
  ∀ key, write_sagas (saga_rows d) a !! key =
    match sv_get_array result "saga_snapshot" with
    | Some _ => last_row key (saga_upserts a)
    | None => saga_rows d !! key
    end.
Proof.
  intros Hk Ha. unfold accepted_step in Ha.
  destruct (upserts_of result) as [rs|] eqn:Er; [|done]. destruct (lineage_of result config); [|done].
  injection Ha as <-. unfold upserts_of in Er. unfold write_sagas, deletes_of. cbn.
  set (final := fold_left _ _ _).
  assert (∀ key, final !! key = match sv_get_array result "saga_snapshot" with
    | Some _ => last_row key rs | None => saga_rows d !! key end) as Hl.
  { intros key. unfold final. rewrite deletes_lookup, upserts_lookup.
    destruct (sv_get_array result "saga_snapshot") as [entries|].
    - rewrite (entry_keys _ _ Er). pose proof (last_row_none key rs) as Hn.
      destruct (decide _) as [Hin|Hin].
      + apply list_elem_of_In, filter_In in Hin as [_ Hin]. apply negb_true_iff, bool_decide_eq_false in Hin.
        symmetry. by apply Hn.
      + destruct (last_row key rs) as [r|] eqn:El; [done|]. destruct (saga_rows d !! key) as [r|] eqn:Eo; [|done].
        exfalso. apply Hin, list_elem_of_In, filter_In. split.
        * apply list_elem_of_In, (saga_keys _ _ Hk). by rewrite Eo.
        * apply negb_true_iff, bool_decide_eq_false. by apply Hn.
    - injection Er as <-. rewrite decide_False by apply not_elem_of_nil. done. }
  split; [|exact Hl]. intros key r. rewrite Hl.
  destruct (sv_get_array result "saga_snapshot"); [|apply Hk]. by intros [? _]%last_row_key.
Qed.
End sagas.

(** ** The properties at concrete inputs *)

Section witnesses.
#[local] Instance plain_lower : UnicodeTables := {| debug_printable _ := true; to_lower c := [c] |}.

(** A kernel that checks the role of a caller it is told of, and answers with one
    account and one live saga. *)
Definition opened_saga (state : str) : Json := sv_obj [
  ("process_manager" : str, sv_str "Opening"); ("correlation" : str, sv_str "a1"); ("state" : str, sv_str state)].
Definition opened_answer : Json := sv_obj [
  ("instances" : str, sv_obj [("Banking::Account#a1" : str, sv_obj [])]); ("events" : str, sv_array []);
  ("refusals" : str, sv_array []); ("saga_snapshot" : str, sv_array [opened_saga "begun"; opened_saga "opened"])].
Definition unauthorized_answer : Json := sv_obj [
  ("refusals" : str, sv_array [sv_obj [("verb" : str, sv_str "Banking::Account.Open"); ("kind" : str, sv_str "Unauthorized")]])].
#[local] Instance account_kernel : Sandbox Json := {|
  wasm_run _ text := Ok text;
  sv_from_str text := Ok (if contains text "actor_id" then unauthorized_answer else opened_answer);
  module_path _ _ := Err "no plugin"
|}.
#[local] Instance no_peer : Invoker Json unit := λ i _ _, (Err "no peer", i).
Definition fresh_host : HostState Json unit := {| store := empty_data; peers := tt; log := [] |}.
Definition bank : LineageConfig := {| config_domain := "Banking"; era := None; mirrored := None; seal_every := None |}.
Definition noon : Moment := {| clock_secs := 43200; elapsed := Some 43200 |}.
Definition teller_actor : Caller := {| role := None; actor_id := Some ("ann" : str) |}.
Definition open_run (caller : Caller) (h : HostState Json unit) :=
  HostDispatch.run "bank.wasm" bank None 0 None External CommitEffect "Banking::Account.Open" (sv_obj []) caller noon h.
Definition open_account (mode : Enforcement) (caller : Caller) (h : HostState Json unit) :=
  dispatch_with "bank.wasm" bank None 0 None mode External CommitEffect "Banking::Account.Open" (sv_obj []) caller noon noon h.

Lemma read_answers_last_command_witness :
  read "bank.wasm" (store (open_run no_caller fresh_host).2) =
  Ok (sv_obj [("instances" : str, sv_obj [("Banking::Account#a1" : str, sv_obj [])]); ("events" : str, sv_array []);
    ("refusals" : str, sv_array [])]).
Proof.
  destruct (open_run no_caller fresh_host) as [[o|e] h'] eqn:E; [|vm_compute in E; discriminate E].
  assert (accepted o = true) as Ho by (vm_compute in E; injection E as <- <-; reflexivity).
  destruct (read_answers_last_command _ _ _ _ _ _ _ _ _ _ fresh_host _ _ "bank.wasm" "Account.All" (sv_obj []) empty_kept E Ho)
    as (_ & Hread & _).
  cbn [snd]. rewrite Hread. vm_compute in E. injection E as <- <-. reflexivity.
Defined.

Lemma shadow_runs_an_actor_as_nobody_witness :
  (accepted <$> match (open_account Off teller_actor fresh_host).1 with Ok o => Some o | Err _ => None end) = Some false ∧
  (accepted <$> match (open_account Shadow teller_actor fresh_host).1 with Ok o => Some o | Err _ => None end) = Some true.
Proof.
  destruct (open_run teller_actor fresh_host) as [[o|e] h'] eqn:E; [|vm_compute in E; discriminate E].
  assert (accepted o = false ∧ refused_for_role (result_of o) = true) as [Ho Hf]
    by (vm_compute in E; injection E as <- <-; split; reflexivity).
  destruct (shadow_runs_an_actor_as_nobody _ _ _ _ _ _ _ _ _ "ann" noon noon fresh_host h' o E Ho Hf) as [H1 H2].
  unfold open_account, teller_actor. rewrite H1, H2. split; [cbn; by rewrite Ho|].
  vm_compute in E. injection E as <- <-. vm_compute. reflexivity.
Defined.

Definition stale_saga : SagaRow Json := {|
  process_manager := "Closing"; correlation := "a0"; saga_state := "begun"; saga_memory := sv_object;
  completed_compensations := sv_array [] |}.
Definition stale_data : Data Json := {|
  journal := []; snapshot := None; saga_rows := {[ ("Closing" : str, "a0" : str) := stale_saga ]}; dead_letters := [];
  heads := ∅; eras := ∅ |}.
Definition opened_step : Accepted Json :=
  match accepted_step bank "Banking::Account.Open" (sv_obj []) opened_answer (state_sagas (load stale_data)) with
  | Ok a => a
  | Err _ => opened
  end.
Lemma saga_table_follows_kernel_witness :
  write_sagas (saga_rows stale_data) opened_step !! ("Closing" : str, "a0" : str) = None ∧
  saga_state <$> write_sagas (saga_rows stale_data) opened_step !! ("Opening" : str, "a1" : str) = Some ("opened" : str).
Proof.
  assert (keyed (saga_rows stale_data)) as Hk
    by (intros key r H; unfold stale_data in H; cbn [saga_rows] in H;
        apply lookup_singleton_Some in H as [<- <-]; reflexivity).
  assert (accepted_step bank "Banking::Account.Open" (sv_obj []) opened_answer (state_sagas (load stale_data)) =
    Ok opened_step) as Ha by (vm_compute; reflexivity).
  destruct (saga_table_follows_kernel bank _ _ _ stale_data opened_step Hk Ha) as [_ H].
  split; [exact (H ("Closing" : str, "a0" : str))|].
  transitivity (saga_state <$> last_row ("Opening" : str, "a1" : str) (saga_upserts opened_step));
    [f_equal; exact (H ("Opening" : str, "a1" : str))|vm_compute; reflexivity].
Defined.
End witnesses.
