(* ===== verification/HostQuery.v ===== *)
(** The wire's query step ([src/rust/host/core/src/query_step.rs]) and the
    questions a wasm plugin answers ([src/rust/host/core/src/plugins.rs]): who is
    asked, decided from the IR alone, the records a plugin's references stand for,
    and the shape every answer and every refusal is given; and the facts of each.
    None of it writes. *)
From stdpp Require Import gmap.
From S2P Require Export HostDispatchFacts.
Open Scope Z_scope.

(** [Plan]. *)
Inductive Plan :=
| AskKernel (question : str)
| AskPlugin (plugin : PluginQuery)
| Refuse (kind message : str).

Section queries.
Context `{U : UnicodeTables} {V : Type} `{SV : Serde V} `{SB : !Sandbox V}.

(** [value[key] == text]. *)
Definition says (v : V) (key text : str) : bool := bool_decide (sv_get_str v key = Some text).

(** [plugins::answering]: of the plugins that list the question, the first that is
    whole. *)
Fixpoint find_map {A B} (f : A → option B) (l : list A) : option B :=
  match l with [] => None | x :: l' => match f x with Some y => Some y | None => find_map f l' end end.
Definition references_of (asked : V) : list (str * str) :=
  match sv_get asked "references" with
  | Some r => omap (λ '(arg, agg), (arg,.) <$> sv_as_str agg) (sv_entries r)
  | None => []
  end.
Definition plugin_answering (question : str) (plugin : V) : option PluginQuery :=
  queries ← sv_get_array plugin "queries";
  asked ← find (λ q, says q "question" question) queries;
  adapter ← sv_get_str plugin "adapter";
  sha256 ← sv_get_str plugin "sha256";
  Some {| adapter := adapter; HostDispatch.question := question; references := references_of asked; sha256 := sha256 |}.
Definition answering (domain_ir : option V) (question : str) : option PluginQuery :=
  ir ← domain_ir; plugins ← sv_get_array ir "plugins"; find_map (plugin_answering question) plugins.

(** [str::rsplit_once] at a text. *)
Definition rsplit_once_str (s sep : str) : option (str * str) :=
  let piece := last_piece s sep in
  if (length piece =? length s)%nat then None
  else Some (take (length s - length piece - length sep) s, piece).

(** [plan]. *)
Definition unknown_query (aggregate query : str) : str := aggregate ++ " has no query " ++ debug_str query.
Definition outside_query (short : str) : str :=
  "no adapter answers " ++ short ++ " in this host: it is answered outside the domain, " ++
  "and the Rust host binds no adapter — nothing can answer " ++ short.
Definition owner_and_short (domain asked : str) : str * str :=
  match rsplit_once_str asked "::" with Some p => p | None => (domain, asked) end.
Definition plan (domain_ir : option V) (domain asked : str) : Plan :=
  let (owner, short) := owner_and_short domain asked in
  let qualified := owner ++ "::" ++ short in
  match answering domain_ir qualified with
  | Some plugin => AskPlugin plugin
  | None =>
    match split_once short 46%N with
    | None => AskKernel qualified
    | Some (aggregate_name, query_name) =>
      if negb (str_eqb owner domain) then AskKernel qualified
      else match (ir ← domain_ir; all ← sv_get_array ir "aggregates"; find (λ a, named a aggregate_name) all) with
           | None => AskKernel qualified
           | Some aggregate =>
             if contains query_name "." then AskKernel qualified
             else match (all ← sv_get_array aggregate "queries"; find (λ q, named q query_name) all) with
                  | None => Refuse "UnknownVerb" (unknown_query aggregate_name query_name)
                  | Some query =>
                    match sv_get query "returns" with
                    | Some r => if sv_is_null r then AskKernel qualified else Refuse "WiringError" (outside_query short)
                    | None => AskKernel qualified
                    end
                  end
           end
    end
  end.

(** [refusal_result]. *)
Definition refusal_result (question : str) (args : V) (kind message : str) : V := sv_obj [
  ("instances" : str, sv_object); ("events" : str, sv_array []);
  ("refusals" : str, sv_array [sv_obj [("verb" : str, sv_str question); ("error" : str, sv_str message);
     ("kind" : str, sv_str kind)]]);
  ("queries" : str, sv_array [sv_obj [("query" : str, sv_str question); ("args" : str, args);
     ("rows" : str, sv_null); ("error" : str, sv_str message)]])].
Definition rows_result (question : str) (args rows : V) : V := sv_obj [
  ("instances" : str, sv_object); ("events" : str, sv_array []); ("refusals" : str, sv_array []);
  ("queries" : str, sv_array [sv_obj [("query" : str, sv_str question); ("args" : str, args); ("rows" : str, rows)]])].

(** [resolve_references]: the first reference whose record is not there stops it. *)
Definition missing_record (argument aggregate id : str) : str :=
  argument ++ ": no " ++ last_piece aggregate "::" ++ " " ++ debug_str id.
Definition resolve_reference (instances : V) (args : V) (reference : str * str) : result str V :=
  let (argument, aggregate) := reference in
  match sv_get_str args argument with
  | None => Ok args
  | Some id =>
    match sv_get instances (aggregate ++ "#" ++ id) with
    | Some state => if sv_is_object state then Ok (sv_insert args argument (sv_insert state "id" (sv_str id)))
                    else Err (missing_record argument aggregate id)
    | None => Err (missing_record argument aggregate id)
    end
  end.
Definition resolve_references (references : list (str * str)) (instances args : V) : result str V :=
  try_fold (resolve_reference instances) args references.

(** [plugins::answer]: the plugin's own words, or the refusal it is made. *)
Definition plugin_reply (plugin : PluginQuery) (args reply : V) : result str V :=
  match sv_get reply "rows" with
  | Some rows => Ok (rows_result (HostDispatch.question plugin) args rows)
  | None =>
    match sv_get_str reply "refused" with
    | Some why => Ok (refusal_result (HostDispatch.question plugin) args "PluginRefusal" (HostDispatch.question plugin ++ ": " ++ why))
    | None => Err (adapter plugin ++ " answered " ++ HostDispatch.question plugin ++ " with neither rows nor a refusal")
    end
  end.
Definition ask_plugin (plugin : PluginQuery) (module : str) (args asked_with : V) : result str V :=
  match wasm_run module (sv_text (sv_obj [("question" : str, sv_str (HostDispatch.question plugin)); ("args" : str, asked_with)])) with
  | Err e => Err (adapter plugin ++ " failed: " ++ e)
  | Ok output =>
    match sv_from_str output with
    | Err e => Err (adapter plugin ++ " answered with text that is not JSON: " ++ e)
    | Ok reply => plugin_reply plugin args reply
    end
  end.
Definition answer_plugin (wasm_path : str) (plugin : PluginQuery) (domain_ir args : V) (d : Data V) : result str V :=
  let? module := module_path domain_ir plugin in
  let asked_with := if sv_is_object args then args else sv_object in
  match references plugin with
  | [] => ask_plugin plugin module args asked_with
  | refs =>
    let? current := read wasm_path d in
    match resolve_references refs (default sv_null (sv_get current "instances")) asked_with with
    | Ok asked_with => ask_plugin plugin module args asked_with
    | Err missing => Ok (refusal_result (HostDispatch.question plugin) args "NotFound" missing)
    end
  end.

(** [query_step::answer]. *)
Definition answer_step (wasm_path : str) (domain_ir : option V) (domain : str) (body : V) (now_secs : Z) (d : Data V) :
    result str V :=
  match sv_get_str body "query" with
  | None => Err (dquote ++ "query" ++ dquote ++ " must name a question")
  | Some asked =>
    let args := default sv_object (sv_get body "args") in
    match plan domain_ir domain asked with
    | AskKernel qualified => query wasm_path domain_ir qualified args now_secs d
    | AskPlugin plugin =>
      let? ir := ok_or domain_ir "a plugin question needs the domain's IR" in
      answer_plugin wasm_path plugin ir args d
    | Refuse kind message => Ok (refusal_result asked args kind message)
    end
  end.
End queries.

(** ** Facts *)

(** What a query step asks: a question means the same with its domain and
    without; only a question of this host's own bluebook is refused here, and why;
    and a plugin's references become the records they name. *)
Open Scope Z_scope.

(** ** A question's two parts *)

(** A text without a colon, read for the separator of names. *)
#[local] Abbreviation colons := [58; 58]%N.
Lemma split_no_colon (a piece : str) : 58%N ∉ a → split_go colons 0 piece a = [rev piece ++ a].
Proof.
  revert piece; induction a as [|c a IH]; intros piece Ha; cbn [split_go]; [by rewrite app_nil_r|].
  apply not_elem_of_cons in Ha as [Hc Ha].
  rewrite starts_with_cons, (proj2 (N.eqb_neq c 58)) by congruence. cbn [andb].
  rewrite IH by done. cbn [rev]. by rewrite <- app_assoc.
Qed.
Lemma split_at_colons (a b piece : str) :
  58%N ∉ a → split_go colons 0 piece (a ++ colons ++ b) = (rev piece ++ a) :: split_go colons 0 [] b.
Proof.
  revert piece; induction a as [|c a IH]; intros piece Ha.
  - cbn [app]. cbn [split_go]. pose proof (starts_with_app colons b) as H. cbn [app] in H. rewrite H.
    cbn [length Nat.sub split_go]. by rewrite app_nil_r.
  - apply not_elem_of_cons in Ha as [Hc Ha]. cbn [app split_go].
    rewrite starts_with_cons, (proj2 (N.eqb_neq c 58)) by congruence. cbn [andb].
    pose proof (IH (c :: piece) Ha) as H. cbn [app] in H. rewrite H. cbn [rev]. by rewrite <- app_assoc.
Qed.
Lemma not_in_rev (c : char) (s : str) : c ∉ s → c ∉ rev s.
Proof. intros Hs H. apply Hs. by apply list_elem_of_In, in_rev, list_elem_of_In. Qed.

Lemma rsplit_short (s : str) : 58%N ∉ s → rsplit_once_str s "::" = None.
Proof.
  intros Hs%not_in_rev. unfold rsplit_once_str, last_piece, first_piece, split. change ("::" : str) with colons.
  rewrite split_no_colon by done. cbn [list.head hd_error from_option id rev app]. by rewrite rev_involutive, Nat.eqb_refl.
Qed.
Lemma rsplit_qualified (owner s : str) : 58%N ∉ s → rsplit_once_str (owner ++ "::" ++ s) "::" = Some (owner, s).
Proof.
  intros Hs%not_in_rev. unfold rsplit_once_str, last_piece, first_piece, split. change ("::" : str) with colons.
  rewrite !rev_app_distr, <- app_assoc. change (rev colons) with colons. rewrite split_at_colons by done.
  cbn [list.head hd_error from_option id rev app]. rewrite rev_involutive, !length_app. change (length colons) with 2%nat.
  rewrite (proj2 (Nat.eqb_neq _ _)) by (cbn; lia). f_equal. f_equal. rewrite take_app_le by (cbn; lia).
  apply take_ge. cbn; lia.
Qed.

(** ** Who is asked *)

Section planning.
Context `{U : UnicodeTables} {V : Type} `{SV : Serde V}.
Context (domain_ir : option V) (domain : str).

(** An aggregate of this host's own IR, and a query of it. *)
Definition own_aggregate (name : str) : option V :=
  ir ← domain_ir; all ← sv_get_array ir "aggregates"; find (λ a, named a name) all.
Definition own_query (aggregate : V) (name : str) : option V :=
  all ← sv_get_array aggregate "queries"; find (λ q, named q name) all.

(** A question is planned alike whether it names this host's domain or leaves
    it out; one that names another bluebook keeps its name, and is a plugin's
    there or the kernel's, never refused here. *)
Theorem question_keeps_its_bluebook (short owner : str) :
  58%N ∉ short →
  plan domain_ir domain short = plan domain_ir domain (domain ++ "::" ++ short) ∧
  (owner ≠ domain → plan domain_ir domain (owner ++ "::" ++ short) =
    match answering domain_ir (owner ++ "::" ++ short) with
    | Some plugin => AskPlugin plugin
    | None => AskKernel (owner ++ "::" ++ short)
    end).
Proof.
  intros Hs. unfold plan, owner_and_short. rewrite rsplit_short, !rsplit_qualified by done. split; [done|].
  intros Ho. destruct (answering _ _); [done|]. destruct (split_once short 46) as [[a q]|]; [|done].
  unfold str_eqb. by rewrite bool_decide_false.
Qed.

(** The host refuses a question itself only where its own IR decides it: the
    aggregate is there and has no such query, or has one that is answered outside
    the domain.  Whatever the IR does not show is left to the kernel. *)
Theorem refuses_only_what_its_ir_decides (asked kind message : str) :
  plan domain_ir domain asked = Refuse kind message →
  ∃ aggregate_name query_name aggregate,
    owner_and_short domain asked = (domain, aggregate_name ++ "." ++ query_name) ∧
    answering domain_ir (domain ++ "::" ++ aggregate_name ++ "." ++ query_name) = None ∧
    own_aggregate aggregate_name = Some aggregate ∧ contains query_name "." = false ∧
    (own_query aggregate query_name = None ∧ kind = "UnknownVerb" ∧ message = unknown_query aggregate_name query_name ∨
     ∃ query returns, own_query aggregate query_name = Some query ∧ sv_get query "returns" = Some returns ∧
       sv_is_null returns = false ∧ kind = "WiringError" ∧ message = outside_query (aggregate_name ++ "." ++ query_name)).
Proof.
  unfold plan. destruct (owner_and_short domain asked) as [owner short] eqn:Eo.
  destruct (answering _ _) eqn:Ea; [done|]. destruct (split_once short 46) as [[a q]|] eqn:Es; [|done].
  assert (short = a ++ "." ++ q) as -> by (by apply split_once_join).
  unfold str_eqb. destruct (bool_decide_reflect (owner = domain)) as [->|]; [|done]. cbn [negb].
  fold (own_aggregate a). destruct (own_aggregate a) as [agg|] eqn:Eagg; [|done].
  destruct (contains q ".") eqn:Ec; [done|]. fold (own_query agg q).
  destruct (own_query agg q) as [query|] eqn:Eq.
  - destruct (sv_get query "returns") as [r|] eqn:Er; [|done]. destruct (sv_is_null r) eqn:En; [done|].
    intros [= <- <-]. exists a, q, agg. split_and!; try done. right. by exists query, r.
  - intros [= <- <-]. exists a, q, agg. split_and!; try done. by left.
Qed.
End planning.

(** ** A plugin's references *)

Section references.
Context `{U : UnicodeTables} {V : Type} `{SV : Serde V} `{SL : !SerdeLaws V}.

Definition resolved (instances args args' : V) (reference : str * str) : Prop :=
  match sv_get_str args reference.1 with
  | None => sv_get args' reference.1 = sv_get args reference.1
  | Some id => ∃ state, sv_get instances (reference.2 ++ "#" ++ id) = Some state ∧ sv_is_object state = true ∧
      sv_get args' reference.1 = Some (sv_insert state "id" (sv_str id))
  end.
Lemma resolve_reference_ok (instances args args' : V) (reference : str * str) :
  sv_is_object args = true → resolve_reference instances args reference = Ok args' →
  sv_is_object args' = true ∧ resolved instances args args' reference ∧
  ∀ k, k ≠ reference.1 → sv_get args' k = sv_get args k.
Proof.
  destruct reference as [arg agg]. unfold resolve_reference, resolved. cbn [fst snd]. intros Ho.
  destruct (sv_get_str args arg) as [id|]; [|by intros [= <-]].
  destruct (sv_get instances _) as [state|] eqn:Es; [|done]. destruct (sv_is_object state) eqn:Eo; [|done].
  intros [= <-]. split; [by apply sv_insert_is|]. split.
  - exists state. split_and!; [done..|]. rewrite sv_get_insert by done. by rewrite decide_True.
  - intros k Hk. rewrite sv_get_insert by done. by rewrite decide_False by congruence.
Qed.

(** A plugin is asked with each argument that names a record replaced by that
    record's current state, its id among its fields, and with every other argument
    as it was; where a record is not there it is not asked at all. *)
Theorem references_become_records (references : list (str * str)) (instances args args' : V) :
  sv_is_object args = true → NoDup references.*1 →
  resolve_references references instances args = Ok args' →
  Forall (resolved instances args args') references ∧
  ∀ k, k ∉ references.*1 → sv_get args' k = sv_get args k.
Proof.
  unfold resolve_references. revert args. induction references as [|r rs IH]; intros args Ho Hnd; cbn [try_fold].
  { by intros [= <-]. }
  destruct (resolve_reference instances args r) as [args1|] eqn:E; [|done]. intros Hr.
  apply list.NoDup_cons in Hnd as [Hn Hnd].
  destruct (resolve_reference_ok _ _ _ _ Ho E) as (Ho1 & H1 & Hk1). destruct (IH _ Ho1 Hnd Hr) as [Hf Hk]. split.
  - apply list.Forall_cons. split.
    + unfold resolved in *. by rewrite (Hk r.1).
    + rewrite list.Forall_forall in Hf |- *. intros r' Hin. specialize (Hf r' Hin).
      assert (r'.1 ≠ r.1) as Hne by (intros Heq; apply Hn; rewrite <- Heq; apply list_elem_of_fmap; eauto).
      unfold resolved, sv_get_str in *. by rewrite (Hk1 r'.1) in Hf.
  - intros k Hkk. rewrite fmap_cons, not_elem_of_cons in Hkk. destruct Hkk. by rewrite Hk, Hk1.
Qed.
End references.

(** ** The properties at concrete inputs *)

Section witnesses.
#[local] Instance ledger_tables : UnicodeTables := {| debug_printable _ := true; to_lower c := [c] |}.

Definition ledger_ir : Json := sv_obj [("name" : str, sv_str "Banking");
  ("aggregates" : str, sv_array [sv_obj [("name" : str, sv_str "Ledger");
     ("queries" : str, sv_array [sv_obj [("name" : str, sv_str "Open")];
        sv_obj [("name" : str, sv_str "Ir"); ("returns" : str, sv_str "Document")]])]])].

Lemma question_keeps_its_bluebook_witness :
  plan (Some ledger_ir) "Banking" "Ledger.Open" = AskKernel "Banking::Ledger.Open" ∧
  plan (Some ledger_ir) "Banking" "Banking::Ledger.Open" = AskKernel "Banking::Ledger.Open" ∧
  plan (Some ledger_ir) "Banking" "Media::Ledger.Ir" = AskKernel "Media::Ledger.Ir".
Proof.
  assert (58%N ∉ ("Ledger.Open" : str) ∧ 58%N ∉ ("Ledger.Ir" : str)) as [H1 H2]
    by (split; refine (bool_decide_unpack _ _); vm_compute; exact Logic.I).
  destruct (question_keeps_its_bluebook (Some ledger_ir) "Banking" "Ledger.Open" "Media" H1) as [E _].
  destruct (question_keeps_its_bluebook (Some ledger_ir) "Banking" "Ledger.Ir" "Media" H2) as [_ F].
  split; [vm_compute; reflexivity|]. split; [exact (eq_trans (eq_sym E) eq_refl)|].
  simple refine (eq_trans (F _) _); [refine (bool_decide_unpack _ _); vm_compute; exact Logic.I|vm_compute; reflexivity].
Defined.

Lemma refuses_only_what_its_ir_decides_witness :
  ∃ aggregate_name aggregate, own_aggregate (Some ledger_ir) aggregate_name = Some aggregate.
Proof.
  assert (plan (Some ledger_ir) "Banking" "Ledger.Nope" = Refuse "UnknownVerb" (unknown_query "Ledger" "Nope")) as H
    by (vm_compute; reflexivity).
  destruct (refuses_only_what_its_ir_decides (Some ledger_ir) "Banking" "Ledger.Nope" _ _ H) as (a & q & agg & _ & _ & Hagg & _).
  exact (ex_intro _ a (ex_intro _ agg Hagg)).
Defined.

Definition event_instances : Json := sv_obj [("Calendar::Event#e1" : str, sv_obj [("title" : str, sv_str "Fair")])].
Lemma references_become_records_witness :
  ∃ args', resolve_references [("event" : str, "Calendar::Event" : str)] event_instances
             (sv_obj [("event" : str, sv_str "e1"); ("days" : str, sv_i64 7)]) = Ok args' ∧
    sv_get args' "days" = Some (sv_i64 7).
Proof.
  eexists. split; [vm_compute; reflexivity|].
  refine (eq_trans (proj2 (references_become_records [("event" : str, "Calendar::Event" : str)] event_instances
    (sv_obj [("event" : str, sv_str "e1"); ("days" : str, sv_i64 7)]) _ _ _ _) "days" _) _);
    [reflexivity|refine (bool_decide_unpack _ _); vm_compute; exact Logic.I|vm_compute; reflexivity|
     refine (bool_decide_unpack _ _); vm_compute; exact Logic.I|vm_compute; reflexivity].
Defined.
End witnesses.
