(* ===== verification/Ledger.v ===== *)
(** The seals over a domain's lineage journal ([src/rust/host/src/ledger.rs]) and
    the names and writes of the tables it reads
    ([src/rust/host/core/src/journal.rs], [src/rust/host/src/store/journal_sql.rs]).

    A table is the list of its rows in no particular order: what a query asks of
    it is written out ([ORDER BY] sorts, [WHERE] filters, [LIMIT] takes a prefix).
    What the seals show follows: a ledger that was only appended to and sealed walks
    clean, and two ledgers that end in one head hold the same history unless the texts
    their walks digest collide.  SHA-256 is the parameter of [Crypto.v].  An [i64] ordinal is an integer: a journal would need
    [2 ^ 63] rows to wrap one. *)
From stdpp Require Import gmap.
From S2P Require Export Naming IpText Crypto.
Open Scope Z_scope.

(** [GENESIS], [DEFAULT_SEAL_EVERY], [SEAL_EVERY_VAR], [PAGE]. *)
Definition GENESIS : str := repeat 48%N 64.
Definition DEFAULT_SEAL_EVERY : Z := 1000.
Definition SEAL_EVERY_VAR : str := "HECKS_SEAL_EVERY".
Definition PAGE : nat := Z.to_nat 5000.

(** [Anchor], [Report], [Finding], [Row]. *)
Record Anchor := { through : Z; head : str; previous : str }.
Record Report := { seals : nat; entries : Z; unsealed : Z }.
Inductive Finding := Verified (report : Report) | Unproven (reason : str).
Record Row := {
  ordinal : Z; operation : str; aggregate : str; aggregate_id : str; state : option str; mirrors : option str
}.

#[global] Instance anchor_eq_dec : EqDecision Anchor.
Proof. solve_decision. Defined.
#[global] Instance row_eq_dec : EqDecision Row.
Proof. solve_decision. Defined.

(** The [u64] of a length, most significant byte first. *)
Definition be64 (n : N) : list N := map (λ k, (n / 256 ^ k) mod 256)%N [7; 6; 5; 4; 3; 2; 1; 0]%N.
(** [pack]. *)
Definition pack (field : option str) : list N :=
  match field with
  | None => [0%N]
  | Some text => 1%N :: be64 (N.of_nat (length (utf8_encode text))) ++ utf8_encode text
  end.

Section ledger.
Context `{U : UnicodeTables} `{H : Sha256}.

(** [seal_every]. *)
Definition seal_every (value : option str) : result str (option Z) :=
  match (text ← value; let t := IpText.trim text in if bool_decide (t = []) then None else Some t) with
  | None => Ok (Some DEFAULT_SEAL_EVERY)
  | Some text =>
    match parse_i64 text with
    | Some rows =>
      if rows =? 0 then Ok None
      else if 0 <? rows then Ok (Some rows)
      else Err (SEAL_EVERY_VAR ++ " must be a whole number of rows, or 0 to seal only by hand; got " ++ debug_str text)
    | None =>
      Err (SEAL_EVERY_VAR ++ " must be a whole number of rows, or 0 to seal only by hand; got " ++ debug_str text)
    end
  end.

(** [step]: what is digested after the head before, and the digest. *)
Definition packed (row : Row) : list N :=
  pack (Some (operation row)) ++ pack (Some (aggregate row)) ++ pack (Some (aggregate_id row)) ++
  pack (state row) ++ pack (mirrors row).
Definition step (prev : str) (row : Row) : str := sha256_hex (utf8_encode prev ++ packed row).

(** [journal_table], [POSTGRES_IDENTIFIER_LIMIT], [qualified_name],
    [head_snapshot_table], [head_view]. *)
Definition journal_table (domain : str) : str := "hecks_journal_" ++ snake domain.
Definition POSTGRES_IDENTIFIER_LIMIT : nat := 63.
(** The longest run of whole characters within so many bytes: where
    [is_char_boundary] stops the cut. *)
Fixpoint whole_prefix (bytes : nat) (s : str) : str :=
  match s with
  | [] => []
  | c :: s' =>
    let width := length (utf8_char c) in
    if (width <=? bytes)%nat then c :: whole_prefix (bytes - width) s' else []
  end.
Definition qualified_name (domain suffix : str) : str :=
  let full := snake domain ++ "_" ++ suffix in
  if (length (utf8_encode full) <=? POSTGRES_IDENTIFIER_LIMIT)%nat then full
  else
    let digest := take 8 (sha256_hex (utf8_encode full)) in
    whole_prefix (POSTGRES_IDENTIFIER_LIMIT - length (utf8_encode digest) - 1) full ++ "_" ++ digest.
Definition head_snapshot_table (domain qualified_aggregate : str) (era : Z) : str :=
  qualified_name domain (storage_name qualified_aggregate ++ "_head_snapshot_" ++ dec_Z era).
Definition head_view (domain storage : str) : str := qualified_name domain (storage ++ "_head").

(** The tables: the journals by name, [hecks_ledger_anchors] with the journal each
    seal is of, and the head snapshots by name, an ordinal and a state by id. *)
Record Tables := {
  journals : gmap str (list Row);
  anchor_rows : list (str * Anchor);
  head_snapshots : gmap str (gmap str (Z * str))
}.
Definition no_tables : Tables := {| journals := ∅; anchor_rows := []; head_snapshots := ∅ |}.
Definition rows_of (db : Tables) (journal : str) : list Row := default [] (journals db !! journal).

(** [ORDER BY ordinal], [ORDER BY through_sequence]. *)
Definition by_ordinal (a b : Row) : comparison := ordinal a ?= ordinal b.
Definition by_through (a b : Anchor) : comparison := through a ?= through b.
Definition in_range (after upto : Z) (row : Row) : bool := (after <? ordinal row) && (ordinal row <=? upto).

(** [anchors]. *)
Definition anchors (db : Tables) (domain : str) : list Anchor :=
  sort_by by_through (omap (λ '(t, a), if bool_decide (t = journal_table domain) then Some a else None) (anchor_rows db)).
(** [page]. *)
Definition page (db : Tables) (journal : str) (after upto : Z) : list Row :=
  take PAGE (List.filter (in_range after upto) (sort_by by_ordinal (rows_of db journal))).

(** [fold]: page after page until one is empty.  Every page that is not reads past
    the row the last one ended with, so one turn more than there are rows is enough. *)
Fixpoint fold_loop (fuel : nat) (db : Tables) (journal digest : str) (cursor upto counted : Z) : option (str * Z) :=
  match fuel with
  | O => None
  | S fuel =>
    let rows := page db journal cursor upto in
    match list.last rows with
    | None => Some (digest, counted)
    | Some last =>
      fold_loop fuel db journal (fold_left step rows digest) (ordinal last) upto (counted + Z.of_nat (length rows))
    end
  end.
Definition fold (db : Tables) (journal seed : str) (after upto : Z) : option (str * Z) :=
  fold_loop (S (length (rows_of db journal))) db journal seed after upto 0.

(** [last_ordinal], [settled_end]: [COALESCE(max(ordinal), 0)]. *)
Definition last_ordinal (db : Tables) (domain : str) : Z :=
  match rows_of db (journal_table domain) with
  | [] => 0
  | row :: rows => fold_left Z.max (map ordinal rows) (ordinal row)
  end.
Definition settled_end (db : Tables) (domain : str) : Z := last_ordinal db domain.

(** [INSERT INTO hecks_ledger_anchors], whose primary key is the journal and the
    ordinal: a second row of one key is refused. *)
Definition insert_anchor (db : Tables) (journal : str) (a : Anchor) : result str Tables :=
  if existsb (λ '(t, b), bool_decide (t = journal) && (through b =? through a)) (anchor_rows db)
  then Err "recording the seal"
  else Ok {| journals := journals db; anchor_rows := anchor_rows db ++ [(journal, a)];
             head_snapshots := head_snapshots db |}.

(** [extend]: the fold is total ([fold_total]), its [None] is no outcome. *)
Definition extend (db : Tables) (journal : str) (after : Z) (seed : str) (upto : Z) : result str (Anchor * Tables) :=
  match fold db journal seed after upto with
  | Some (digest, _) =>
    let a := {| through := upto; head := digest; previous := seed |} in
    let? db' := insert_anchor db journal a in Ok (a, db')
  | None => Err []
  end.

(** Where the next seal starts: the last one held. *)
Definition seal_start (held : list Anchor) : Z * str :=
  match list.last held with Some last => (through last, head last) | None => (0, GENESIS) end.

(** [seal]: the seals are read, the end of the journal is settled under the write
    lock, which is released, and what lies between is folded and recorded.  The
    part after the read is [seal_after], so that what another writer commits in
    between can be told. *)
Definition seal_after (db : Tables) (domain : str) (start : Z * str) : result str (option Anchor * Tables) :=
  let upto := settled_end db domain in
  if upto <=? start.1 then Ok (None, db)
  else let? done_ := extend db (journal_table domain) start.1 start.2 upto in Ok (Some done_.1, done_.2).
Definition seal (db : Tables) (domain : str) : result str (option Anchor * Tables) :=
  seal_after db domain (seal_start (anchors db domain)).

(** [seal_due]: inside the commit, under its lock. *)
Definition seal_due (db : Tables) (domain : str) (every : Z) : result str (option Anchor * Tables) :=
  let start := seal_start (anchors db domain) in
  let upto := last_ordinal db domain in
  if upto - start.1 <? Z.max every 1 then Ok (None, db)
  else let? done_ := extend db (journal_table domain) start.1 start.2 upto in Ok (Some done_.1, done_.2).

(** [verify]. *)
Definition does_not_follow (journal : str) (a : Anchor) : str :=
  journal ++ ": the seal through " ++ dec_Z (through a) ++ " does not follow the seal before it".
Definition does_not_match (journal : str) (a : Anchor) : str :=
  journal ++ ": the seal through " ++ dec_Z (through a) ++ " does not match the journal".
Fixpoint walk (db : Tables) (journal : str) (before : Anchor) (counted : Z) (held : list Anchor) :
    result str (Anchor * Z) :=
  match held with
  | [] => Ok (before, counted)
  | a :: rest =>
    if negb (str_eqb (previous a) (head before)) then Err (does_not_follow journal a)
    else match fold db journal (previous a) (through before) (through a) with
    | Some (recomputed, n) =>
      if negb (str_eqb recomputed (head a)) then Err (does_not_match journal a)
      else walk db journal a (counted + n) rest
    | None => Err []
    end
  end.
Definition genesis : Anchor := {| through := 0; head := GENESIS; previous := GENESIS |}.
Definition verify (db : Tables) (domain : str) : Finding :=
  let held := anchors db domain in
  if bool_decide (held = []) then Unproven "nothing is sealed yet: the chain cannot be shown intact"
  else match walk db (journal_table domain) genesis 0 held with
  | Err reason => Unproven reason
  | Ok (before, counted) =>
    Verified {| seals := length held; entries := counted;
                unsealed := Z.max (last_ordinal db domain - through before) 0 |}
  end.

(** [append_lineage_mutation]: a journal row whose ordinal the sequence gives
    ([bigserial]), and the head of the aggregate's id at the era, which never goes
    back to an earlier ordinal. *)
Record LineageMutation := { mutation_aggregate : str; mutation_id : str; mutation_operation : str; mutation_state : str }.
Definition no_era_active (domain : str) (m : LineageMutation) : str :=
  "cannot append a lineage mutation for " ++ domain ++ "::" ++ mutation_aggregate m ++
  ": no era is active — the lineage subsystem was never initialized for this domain".
Definition only_save (domain : str) (m : LineageMutation) : str :=
  "hecks_journal_" ++ snake domain ++ ": unsupported operation " ++ debug_str (mutation_operation m) ++
  " — only " ++ dquote ++ "save" ++ dquote ++ " is generated today".
Definition insert_row (db : Tables) (journal : str) (row : Row) : Tables := {|
  journals := <[journal := rows_of db journal ++ [row]]> (journals db);
  anchor_rows := anchor_rows db; head_snapshots := head_snapshots db
|}.
Definition upsert_head (db : Tables) (table id : str) (n : Z) (state : str) : Tables :=
  let rows := default ∅ (head_snapshots db !! table) in
  let newer := match rows !! id with Some (held, _) => held <? n | None => true end in
  {| journals := journals db; anchor_rows := anchor_rows db;
     head_snapshots := <[table := if newer then <[id := (n, state)]> rows else rows]> (head_snapshots db) |}.
Definition append_lineage_mutation (db : Tables) (domain : str) (era : option Z) (next : Z) (m : LineageMutation) :
    result str Tables :=
  match era with
  | None => Err (no_era_active domain m)
  | Some era =>
    if negb (str_eqb (mutation_operation m) "save") then Err (only_save domain m)
    else
      let row := {| ordinal := next; operation := mutation_operation m;
                    aggregate := storage_name (mutation_aggregate m); aggregate_id := mutation_id m;
                    state := Some (mutation_state m); mirrors := None |} in
      Ok (upsert_head (insert_row db (journal_table domain) row)
            (head_snapshot_table domain (mutation_aggregate m) era) (mutation_id m) next (mutation_state m))
  end.
End ledger.

Open Scope Z_scope.

(** ** Rows are packed injectively *)

Lemma be64_inj (n m : N) : (n < 2 ^ 64)%N → (m < 2 ^ 64)%N → be64 n = be64 m → n = m.
Proof.
  intros Hn Hm. unfold be64; cbn [map]. intros E. injection E as E0 E1 E2 E3 E4 E5 E6 E7.
  assert (∀ x k, (k ≤ 8)%nat → (x `mod` 256 ^ N.of_nat k)%N =
    foldr (λ i acc, ((x / 256 ^ N.of_nat i) mod 256) * 256 ^ N.of_nat i + acc)%N 0%N (rev (seq 0 k))) as Hx.
  { intros x k Hk. induction k as [|k IH]; [by rewrite N.mod_1_r|].
    rewrite seq_S, rev_app_distr. cbn [rev app foldr Nat.add]. rewrite <- IH by lia.
    rewrite Nat2N.inj_succ, N.pow_succ_r', (N.mul_comm 256), N.Div0.mod_mul_r. lia. }
  pose proof (Hx n 8%nat ltac:(lia)) as Hn'. pose proof (Hx m 8%nat ltac:(lia)) as Hm'.
  rewrite N.mod_small in Hn', Hm' by (simpl; lia). rewrite Hn', Hm'.
  change (rev (seq 0 8)) with [7; 6; 5; 4; 3; 2; 1; 0]%nat. cbn [foldr].
  change (N.of_nat 7) with 7%N; change (N.of_nat 6) with 6%N; change (N.of_nat 5) with 5%N;
  change (N.of_nat 4) with 4%N; change (N.of_nat 3) with 3%N; change (N.of_nat 2) with 2%N;
  change (N.of_nat 1) with 1%N; change (N.of_nat 0) with 0%N.
  by rewrite E0, E1, E2, E3, E4, E5, E6, E7.
Qed.

Lemma utf8_encode_inj (a b : str) : wf_str a = true → wf_str b = true → utf8_encode a = utf8_encode b → a = b.
Proof. intros Ha Hb E. apply utf8_roundtrip in Ha, Hb. congruence. Qed.

(** A text Rust can hold: scalar values, and fewer than [2 ^ 64] bytes. *)
Definition holdable (s : str) : Prop := wf_str s = true ∧ (N.of_nat (length (utf8_encode s)) < 2 ^ 64)%N.
Definition holdable_opt (o : option str) : Prop := match o with Some s => holdable s | None => True end.
Definition row_ok (r : Row) : Prop :=
  holdable (operation r) ∧ holdable (aggregate r) ∧ holdable (aggregate_id r) ∧
  holdable_opt (state r) ∧ holdable_opt (mirrors r).

Lemma pack_inj (a b : option str) (r r' : list N) :
  holdable_opt a → holdable_opt b → pack a ++ r = pack b ++ r' → a = b ∧ r = r'.
Proof.
  destruct a as [a|], b as [b|]; cbn [pack holdable_opt app]; [|by intros _ _ [=]..|by intros _ _ [= ->]].
  intros [Ha La] [Hb Lb] E. apply (f_equal tail) in E. cbn [tail] in E.
  change (((be64 (N.of_nat (length (utf8_encode a))) ++ utf8_encode a) ++ r) =
          ((be64 (N.of_nat (length (utf8_encode b))) ++ utf8_encode b) ++ r')) in E.
  rewrite <- !app_assoc in E. apply app_inj_1 in E as [E1 E2]; [|done]. apply be64_inj in E1; [|done..].
  apply app_inj_1 in E2 as [E2 ->]; [|lia]. by rewrite (utf8_encode_inj a b).
Qed.

(** What a digest covers of a row: all but its ordinal. *)
Definition content (r : Row) : str * str * str * option str * option str :=
  (operation r, aggregate r, aggregate_id r, state r, mirrors r).

Lemma packed_inj (a b : Row) : row_ok a → row_ok b → packed a = packed b → content a = content b.
Proof.
  intros (A1 & A2 & A3 & A4 & A5) (B1 & B2 & B3 & B4 & B5) E. unfold packed in E.
  apply pack_inj in E as [[= E1] E]; [|done..]. apply pack_inj in E as [[= E2] E]; [|done..].
  apply pack_inj in E as [[= E3] E]; [|done..]. apply pack_inj in E as [E4 E]; [|done..].
  rewrite <- (app_nil_r (pack (mirrors a))), <- (app_nil_r (pack (mirrors b))) in E.
  apply pack_inj in E as [E5 _]; [|done..]. unfold content. congruence.
Qed.

(** ** The chain pins what was folded into it *)
Section chain.
Context `{H : Sha256}.

Definition chain (seed : str) (rows : list Row) : str := fold_left step rows seed.

Lemma chain_app (seed : str) (a b : list Row) : chain seed (a ++ b) = chain (chain seed a) b.
Proof. apply fold_left_app. Qed.

(** The texts that are digested on the way, one for each row. *)
Fixpoint hashed (seed : str) (rows : list Row) : list (list N) :=
  match rows with [] => [] | row :: rest => (utf8_encode seed ++ packed row) :: hashed (step seed row) rest end.
Lemma hashed_app (seed : str) (a b : list Row) : hashed seed (a ++ b) = hashed seed a ++ hashed (chain seed a) b.
Proof. revert seed. induction a as [|r a IH]; intros seed; [done|]. cbn [app hashed]. by rewrite IH. Qed.

(** Two walks meet in a digest that is no proof: a text of the one and another text
    of the other have the same, or a text of either has the sixty-four zeros. *)
Definition collide (xs ys : list (list N)) : Prop :=
  (∃ x y, x ∈ xs ∧ y ∈ ys ∧ x ≠ y ∧ sha256_hex x = sha256_hex y) ∨
  (∃ x, (x ∈ xs ∨ x ∈ ys) ∧ sha256_hex x = GENESIS).
Lemma collide_more (xs xs' ys ys' : list (list N)) : collide xs ys → collide (xs ++ xs') (ys ++ ys').
Proof.
  intros [(x & y & Hx & Hy & H')|(x & Hx & H')]; [left; exists x, y|right; exists x]; rewrite ?elem_of_app; tauto.
Qed.

Definition ascii (s : str) : Prop := Forall (λ c, (c < 128)%N) s.
Lemma ascii_encode (s : str) : ascii s → utf8_encode s = s.
Proof.
  induction 1 as [|c s Hc _ IH]; [done|]. cbn [utf8_encode flat_map].
  fold (utf8_encode s). rewrite IH. unfold utf8_char. by N_bool.
Qed.

Lemma chain_shape (rows : list Row) :
  digests_are_bytes → length (chain GENESIS rows) = 64%nat ∧ ascii (chain GENESIS rows).
Proof.
  intros Hh. destruct rows as [|r rows] using rev_ind.
  { split; [done|]. apply list.Forall_forall. intros c Hc.
    apply list_elem_of_In, repeat_spec in Hc. by subst c. }
  unfold chain. rewrite fold_left_app. cbn [fold_left]. unfold step at 1 3.
  destruct (sha256_hex_shape (utf8_encode (fold_left step rows GENESIS) ++ packed r) Hh) as [Hl Hc].
  split; [done|]. rewrite forallb_forall in Hc. apply list.Forall_forall. intros c Hin.
  apply list_elem_of_In, Hc in Hin. unfold is_digit, is_lower in Hin.
  apply orb_true_iff in Hin as [Hin|Hin]; apply andb_true_iff in Hin as [_ Hin]; apply N.leb_le in Hin; lia.
Qed.

Lemma chain_pins (r1 r2 : list Row) :
  digests_are_bytes → Forall row_ok r1 → Forall row_ok r2 →
  chain GENESIS r1 = chain GENESIS r2 →
  map content r1 = map content r2 ∨ collide (hashed GENESIS r1) (hashed GENESIS r2).
Proof.
  intros Hh. revert r2. induction r1 as [|a r1 IH] using rev_ind; intros r2 H1 H2 E.
  - destruct r2 as [|b r2 _] using rev_ind; [by left|]. right; right.
    rewrite chain_app in E. eexists. split; [right; rewrite hashed_app; apply elem_of_app; right; left|by symmetry].
  - destruct r2 as [|b r2 _] using rev_ind.
    { right; right. rewrite chain_app in E. eexists. split; [left; rewrite hashed_app; apply elem_of_app; right; left|done]. }
    rewrite !chain_app in E. unfold chain at 1 3 in E. cbn [fold_left] in E. unfold step in E.
    apply list.Forall_app in H1 as [H1 Ha], H2 as [H2 Hb].
    inversion_clear Ha as [|? ? Ha' _]; inversion_clear Hb as [|? ? Hb' _].
    destruct (chain_shape r1 Hh) as [L1 A1], (chain_shape r2 Hh) as [L2 A2].
    rewrite !hashed_app. cbn [hashed].
    set (x := utf8_encode (chain GENESIS r1) ++ packed a) in *.
    set (y := utf8_encode (chain GENESIS r2) ++ packed b) in *.
    destruct (decide (x = y)) as [Exy|Hxy].
    2: { right; left. exists x, y. rewrite !elem_of_app. split_and!; [right; left|right; left|done|done]. }
    unfold x, y in Exy. rewrite !ascii_encode in Exy by done.
    apply app_inj_1 in Exy as [Ec Ep]; [|lia].
    destruct (IH r2 H1 H2 Ec) as [IH'|]; [left|right; by apply collide_more].
    by rewrite !map_app, IH'; simpl; rewrite (packed_inj a b).
Qed.
End chain.

(** ** Pages *)
Section pages.
Context `{U : UnicodeTables} `{H : Sha256}.

Definition ordered (db : Tables) (journal : str) : list Row := sort_by by_ordinal (rows_of db journal).
(** The rows of [(after, upto]] in the order of their ordinals. *)
Definition range (db : Tables) (journal : str) (after upto : Z) : list Row :=
  List.filter (in_range after upto) (ordered db journal).

Definition ordinals_le (l : list Row) : Prop := StronglySorted (λ a b, ordinal a <= ordinal b) l.
Definition ordinals_lt (l : list Row) : Prop := StronglySorted (λ a b, ordinal a < ordinal b) l.

Lemma ordered_le (db : Tables) (journal : str) : ordinals_le (ordered db journal).
Proof.
  eapply (StronglySorted_ind (R := cmp_le by_ordinal) (λ l, ordinals_le l)); [constructor|..|apply sort_by_sorted].
  - intros a l _ IH Ha. constructor; [done|]. eapply list.Forall_impl; [exact Ha|].
    intros b Hb. unfold cmp_le, by_ordinal in Hb. by apply Z.compare_le_iff in Hb.
  - intros a b. apply Z.compare_antisym.
  - intros a b c. unfold cmp_le, by_ordinal. rewrite !Z.compare_le_iff. lia.
Qed.

Lemma le_distinct_lt (l : list Row) : ordinals_le l → NoDup (map ordinal l) → ordinals_lt l.
Proof.
  induction 1 as [|a l _ IH Ha]; [constructor|]. cbn [map]. rewrite list.NoDup_cons. intros [Hn Hl].
  constructor; [by apply IH|]. apply list.Forall_forall. intros b Hb.
  rewrite list.Forall_forall in Ha. specialize (Ha b Hb).
  assert (ordinal a ≠ ordinal b); [|lia]. intros E. apply Hn. rewrite E.
  apply list_elem_of_In, in_map. by apply list_elem_of_In.
Qed.

(** A journal no two rows of which share an ordinal. *)
Definition distinct (db : Tables) (journal : str) : Prop := NoDup (map ordinal (rows_of db journal)).
Lemma ordered_lt (db : Tables) (journal : str) : distinct db journal → ordinals_lt (ordered db journal).
Proof.
  intros Hd. apply le_distinct_lt; [apply ordered_le|].
  unfold ordered. by rewrite (Permutation_map ordinal (sort_by_perm by_ordinal (rows_of db journal))).
Qed.

Lemma filter_sorted {A} (R : A → A → Prop) (p : A → bool) (l : list A) :
  StronglySorted R l → StronglySorted R (List.filter p l).
Proof.
  induction 1 as [|a l _ IH Ha]; simpl; [constructor|]. destruct (p a); [|done].
  constructor; [done|]. apply list.Forall_forall. intros b Hb.
  apply list_elem_of_In, filter_In in Hb as [Hb _]. rewrite list.Forall_forall in Ha.
  by apply Ha, list_elem_of_In.
Qed.

Lemma filter_none {A} (p : A → bool) (l : list A) : (∀ x, In x l → p x = false) → List.filter p l = [].
Proof. induction l as [|a l IH]; simpl; intros Hp; [done|]. rewrite (Hp a), IH; auto. Qed.
Lemma filter_every {A} (p : A → bool) (l : list A) : (∀ x, In x l → p x = true) → List.filter p l = l.
Proof. induction l as [|a l IH]; simpl; intros Hp; [done|]. rewrite (Hp a), IH; auto. Qed.
Lemma filter_filter_and {A} (p q : A → bool) (l : list A) :
  List.filter p (List.filter q l) = List.filter (λ x, q x && p x) l.
Proof. induction l as [|a l IH]; simpl; [done|]. destruct (q a); simpl; [by destruct (p a); rewrite IH|done]. Qed.

(** Two sorted lists put one after the other are the filters on either side. *)
Lemma ordinals_lt_app (a b : list Row) :
  ordinals_lt (a ++ b) → ordinals_lt a ∧ ordinals_lt b ∧ (∀ x y, In x a → In y b → ordinal x < ordinal y).
Proof.
  induction a as [|x a IH]; simpl; intros Hs; [split_and!; [constructor|done|done]|].
  inversion_clear Hs as [|? ? Hs' Hx]. destruct (IH Hs') as (Ha & Hb & Hab).
  apply list.Forall_app in Hx as [Hxa Hxb]. rewrite !list.Forall_forall in Hxa, Hxb. split_and!; [|done|].
  - constructor; [done|]. by apply list.Forall_forall.
  - intros y z [<-|Hy] Hz; [by apply Hxb, list_elem_of_In|by apply Hab].
Qed.

(** What lies past the last row of a page is the rest of the range. *)
Lemma range_after_last (db : Tables) (journal : str) (after upto : Z) (p q : list Row) (l : Row) :
  distinct db journal → range db journal after upto = p ++ q → list.last p = Some l →
  range db journal (ordinal l) upto = q.
Proof.
  intros Hd E Hl. apply list.last_Some in Hl as [p' ->].
  assert (In l (range db journal after upto)) as Hin.
  { rewrite E. apply in_or_app. left. apply in_or_app. right. by left. }
  apply filter_In in Hin as [_ Hr]. apply andb_true_iff in Hr as [Hr1 Hr2].
  apply Z.ltb_lt in Hr1. apply Z.leb_le in Hr2.
  assert (range db journal (ordinal l) upto =
          List.filter (λ r, ordinal l <? ordinal r) (range db journal after upto)) as ->.
  { unfold range. rewrite filter_filter_and. apply filter_ext_in. intros r _. unfold in_range.
    destruct (Z.ltb_spec (ordinal l) (ordinal r)), (Z.ltb_spec after (ordinal r)), (Z.leb_spec (ordinal r) upto);
      simpl; try done; lia. }
  pose proof (filter_sorted _ (in_range after upto) _ (ordered_lt db journal Hd)) as Hs.
  fold (range db journal after upto) in Hs. rewrite E in Hs |- *.
  apply ordinals_lt_app in Hs as (Hp & _ & Hpq). rewrite List.filter_app, filter_none, filter_every; [done|..].
  - intros r Hr. apply Z.ltb_lt, (Hpq l r); [|done]. apply in_or_app. right. by left.
  - intros r Hr. apply Z.ltb_ge. apply in_app_or in Hr as [Hr|[<-|[]]]; [|lia].
    apply ordinals_lt_app in Hp as (_ & _ & Hp). apply Z.lt_le_incl, Hp; [done|by left].
Qed.

Lemma PAGE_pos : (0 < PAGE)%nat.
Proof. unfold PAGE. lia. Qed.

Lemma fold_loop_spec (fuel : nat) (db : Tables) (journal digest : str) (cursor upto counted : Z) :
  distinct db journal → (length (range db journal cursor upto) < fuel)%nat →
  fold_loop fuel db journal digest cursor upto counted =
  Some (chain digest (range db journal cursor upto), counted + Z.of_nat (length (range db journal cursor upto))).
Proof.
  intros Hd. revert digest cursor counted. induction fuel as [|fuel IH]; intros digest cursor counted Hf; [lia|].
  cbn [fold_loop]. unfold page. fold (ordered db journal). fold (range db journal cursor upto).
  remember (range db journal cursor upto) as L eqn:EL.
  destruct (list.last (take PAGE L)) as [l|] eqn:El.
  - assert (range db journal (ordinal l) upto = drop PAGE L) as Hr.
    { apply (range_after_last db journal cursor upto (take PAGE L)); [done|by rewrite take_drop|done]. }
    assert (L ≠ []) as HL by (intros ->; by rewrite take_nil in El).
    pose proof PAGE_pos. rewrite IH; rewrite Hr, ?length_drop.
    + unfold chain. rewrite <- fold_left_app, take_drop, length_take. do 2 f_equal. lia.
    + destruct L; [done|cbn [length] in *; lia].
  - destruct L as [|r L]; [by cbn [length]; rewrite Z.add_0_r|].
    pose proof PAGE_pos. destruct PAGE; [lia|]. apply list.last_None in El. discriminate El.
Qed.

Lemma range_length (db : Tables) (journal : str) (after upto : Z) :
  (length (range db journal after upto) ≤ length (rows_of db journal))%nat.
Proof.
  unfold range. etrans; [apply filter_length_le|]. unfold ordered. by rewrite sort_by_perm.
Qed.

Lemma fold_spec (db : Tables) (journal seed : str) (after upto : Z) :
  distinct db journal →
  fold db journal seed after upto =
  Some (chain seed (range db journal after upto), Z.of_nat (length (range db journal after upto))).
Proof. intros Hd. unfold fold. rewrite fold_loop_spec; [done..|]. pose proof (range_length db journal after upto). lia. Qed.
End pages.

(** ** The walk *)
Section walking.
Context `{U : UnicodeTables} `{H : Sha256}.

(** The loop ends on any journal, its ordinals distinct or not: the row a page
    ends with is not in the next. *)
Lemma range_after_shrinks (db : Tables) (journal : str) (after upto : Z) (l : Row) :
  In l (range db journal after upto) →
  (length (range db journal (ordinal l) upto) < length (range db journal after upto))%nat.
Proof.
  intros Hl. assert (Hr := Hl). apply filter_In in Hr as [_ Hr]. unfold in_range in Hr.
  apply andb_true_iff in Hr as [Hr1 Hr2]. apply Z.ltb_lt in Hr1. apply Z.leb_le in Hr2.
  assert (range db journal (ordinal l) upto =
          List.filter (λ r, ordinal l <? ordinal r) (range db journal after upto)) as ->.
  { unfold range. rewrite filter_filter_and. apply filter_ext_in. intros r _. unfold in_range.
    destruct (Z.ltb_spec (ordinal l) (ordinal r)), (Z.ltb_spec after (ordinal r)), (Z.leb_spec (ordinal r) upto);
      simpl; try done; lia. }
  revert Hl. generalize (range db journal after upto). induction l0 as [|r rs IH]; [done|]. intros [->|Hin]; simpl.
  - rewrite Z.ltb_irrefl. pose proof (filter_length_le (λ r, ordinal l <? ordinal r) rs). lia.
  - destruct (_ <? _); simpl; specialize (IH Hin); lia.
Qed.

Lemma fold_loop_total (fuel : nat) (db : Tables) (journal digest : str) (cursor upto counted : Z) :
  (length (range db journal cursor upto) < fuel)%nat →
  is_Some (fold_loop fuel db journal digest cursor upto counted).
Proof.
  revert digest cursor counted. induction fuel as [|fuel IH]; intros digest cursor counted Hf; [lia|].
  cbn [fold_loop]. unfold page. fold (ordered db journal). fold (range db journal cursor upto).
  destruct (list.last (take PAGE (range db journal cursor upto))) as [l|] eqn:El; [|done].
  apply IH. pose proof (range_after_shrinks db journal cursor upto l) as Hs.
  enough (In l (range db journal cursor upto)) as Hin by (specialize (Hs Hin); lia).
  apply list.last_Some in El as [p' E]. rewrite <- (take_drop PAGE (range db journal cursor upto)), E.
  apply in_or_app. left. apply in_or_app. right. by left.
Qed.

Lemma fold_returns (db : Tables) (journal seed : str) (after upto : Z) : is_Some (fold db journal seed after upto).
Proof. apply fold_loop_total. pose proof (range_length db journal after upto). lia. Qed.

(** Ordinals are counted from one, as [bigserial] does. *)
Definition counted_from_one (db : Tables) (journal : str) : Prop :=
  Forall (λ r, 0 < ordinal r) (rows_of db journal).

Lemma filter_cut (l : list Row) (a b c : Z) :
  ordinals_le l → Forall (λ r, 0 < ordinal r) l → Z.max a 0 <= Z.max b 0 <= Z.max c 0 →
  List.filter (in_range a c) l = List.filter (in_range a b) l ++ List.filter (in_range b c) l.
Proof.
  induction 1 as [|r l Hs IH Hr]; [done|]. intros Hp Hle. apply list.Forall_cons in Hp as [Hr0 Hp]. simpl.
  rewrite IH by done. clear IH. destruct (Z.leb_spec (ordinal r) b) as [Hb|Hb].
  - assert (in_range a c r = in_range a b r) as ->.
    { unfold in_range. destruct (Z.ltb_spec a (ordinal r)), (Z.leb_spec (ordinal r) b), (Z.leb_spec (ordinal r) c);
        simpl; try done; lia. }
    assert (in_range b c r = false) as ->.
    { unfold in_range. by rewrite (proj2 (Z.ltb_ge b (ordinal r))) by lia. }
    by destruct (in_range a b r).
  - assert (in_range a b r = false) as ->.
    { unfold in_range. rewrite (proj2 (Z.leb_gt (ordinal r) b)) by lia. by destruct (_ <? _). }
    rewrite (filter_none (in_range a b) l); simpl.
    + assert (in_range a c r = in_range b c r) as ->; [|by destruct (in_range b c r)].
      unfold in_range. by rewrite (proj2 (Z.ltb_lt a (ordinal r))), (proj2 (Z.ltb_lt b (ordinal r))) by lia.
    + intros x Hx. apply list_elem_of_In in Hx. rewrite list.Forall_forall in Hr. specialize (Hr x Hx). simpl in Hr.
      unfold in_range. rewrite (proj2 (Z.leb_gt (ordinal x) b)) by lia. by destruct (_ <? _).
Qed.

Lemma ordered_positive (db : Tables) (journal : str) :
  counted_from_one db journal → Forall (λ r, 0 < ordinal r) (ordered db journal).
Proof. unfold ordered, counted_from_one. by rewrite sort_by_perm. Qed.

Lemma range_cut (db : Tables) (journal : str) (a b c : Z) :
  counted_from_one db journal → Z.max a 0 <= Z.max b 0 <= Z.max c 0 →
  range db journal a c = range db journal a b ++ range db journal b c.
Proof. intros Hp Hle. apply filter_cut; [apply ordered_le|by apply ordered_positive|done]. Qed.

(** The seals in the order of what they cover, each from the one before. *)
Definition rising (before : Anchor) (held : list Anchor) : Prop :=
  StronglySorted (λ a b, through a <= through b) held ∧
  Forall (λ a, Z.max (through before) 0 <= Z.max (through a) 0) held.
Definition last_of (before : Anchor) (held : list Anchor) : Anchor := default before (list.last held).

Lemma last_of_cons (before a : Anchor) (held : list Anchor) : last_of before (a :: held) = last_of a held.
Proof. unfold last_of. rewrite list.last_cons. by destruct (list.last held). Qed.

Lemma rising_tail (before a : Anchor) (held : list Anchor) : rising before (a :: held) → rising a held.
Proof.
  intros [Hs _]. inversion_clear Hs as [|? ? Hs' Ha]. split; [done|].
  eapply list.Forall_impl; [exact Ha|]. intros b Hb. simpl in Hb. lia.
Qed.
Lemma rising_last (before : Anchor) (held : list Anchor) :
  rising before held → Z.max (through before) 0 <= Z.max (through (last_of before held)) 0.
Proof.
  intros [_ Hf]. unfold last_of. destruct (list.last held) as [a|] eqn:E; simpl; [|lia].
  apply list.last_Some in E as [l ->]. apply list.Forall_app in Hf as [_ Hf].
  by inversion_clear Hf.
Qed.

(** A walk that ends has folded every row to the last seal, onto the head it
    started from, and found the head that seal holds. *)
Lemma walk_sound (db : Tables) (journal : str) (held : list Anchor) (before after : Anchor) (n m : Z) :
  distinct db journal → counted_from_one db journal → rising before held →
  walk db journal before n held = Ok (after, m) →
  after = last_of before held ∧
  head after = chain (head before) (range db journal (through before) (through after)) ∧
  m = n + Z.of_nat (length (range db journal (through before) (through after))).
Proof.
  intros Hd Hp. revert before n. induction held as [|a held IH]; intros before n Hup; cbn [walk].
  - intros [= <- <-]. split; [done|]. unfold range. rewrite filter_none; [simpl; split; [done|lia]|].
    intros r _. unfold in_range. destruct (Z.ltb_spec (through before) (ordinal r)); simpl; [|done].
    apply Z.leb_gt. lia.
  - destruct (str_eqb _ _) eqn:Ep; [|done]. cbn [negb]. rewrite fold_spec by done.
    destruct (str_eqb (chain _ _) _) eqn:Eh; [|done]. cbn [negb]. unfold str_eqb in Ep, Eh.
    apply bool_decide_eq_true in Ep, Eh. intros Hw. assert (Hup' := rising_tail _ _ _ Hup).
    destruct (IH a _ Hup' Hw) as (Ea & Hh & Hm). rewrite last_of_cons. split; [done|].
    assert (range db journal (through before) (through after) =
            range db journal (through before) (through a) ++ range db journal (through a) (through after)) as ->.
    { apply range_cut; [done|]. subst after. pose proof (rising_last _ _ Hup').
      destruct Hup as [_ Hf]. apply list.Forall_cons in Hf as [Hf _]. lia. }
    rewrite chain_app, <- Ep, Eh, length_app. split; [done|lia].
Qed.

Lemma anchors_sorted (db : Tables) (domain : str) :
  StronglySorted (λ a b, through a <= through b) (anchors db domain).
Proof.
  unfold anchors. eapply (StronglySorted_ind (R := cmp_le by_through) (λ l, StronglySorted _ l));
    [constructor|..|apply sort_by_sorted].
  - intros a l _ IH Ha. constructor; [done|]. eapply list.Forall_impl; [exact Ha|].
    intros b Hb. unfold cmp_le, by_through in Hb. by apply Z.compare_le_iff in Hb.
  - intros a b. apply Z.compare_antisym.
  - intros a b c. unfold cmp_le, by_through. rewrite !Z.compare_le_iff. lia.
Qed.

Lemma anchors_rising (db : Tables) (domain : str) : rising genesis (anchors db domain).
Proof.
  split; [apply anchors_sorted|]. apply list.Forall_forall. intros a _. simpl. lia.
Qed.

(** The head of a domain's last seal, and the rows it covers. *)
Definition last_head (db : Tables) (domain : str) : str := (seal_start (anchors db domain)).2.
Definition last_through (db : Tables) (domain : str) : Z := (seal_start (anchors db domain)).1.
Definition covered (db : Tables) (domain : str) : list Row :=
  range db (journal_table domain) 0 (last_through db domain).

Lemma seal_start_last (held : list Anchor) :
  seal_start held = (through (last_of genesis held), head (last_of genesis held)).
Proof. unfold seal_start, last_of. by destruct (list.last held). Qed.

(** What Rust can hold, and what the sequence gives. *)
Definition well_kept (db : Tables) (domain : str) : Prop :=
  distinct db (journal_table domain) ∧ counted_from_one db (journal_table domain) ∧
  Forall row_ok (rows_of db (journal_table domain)).

Lemma verified_chain (db : Tables) (domain : str) (r : Report) :
  well_kept db domain → verify db domain = Verified r →
  last_head db domain = chain GENESIS (covered db domain) ∧ entries r = Z.of_nat (length (covered db domain)).
Proof.
  intros (Hd & Hp & _). unfold verify. case_bool_decide as E; [done|].
  destruct (walk _ _ _ _ _) as [[e m]|] eqn:Ew; [|done]. intros [= <-]. simpl.
  apply walk_sound in Ew as (He & Hh & Hm); [|done..|apply anchors_rising].
  unfold last_head, covered, last_through. rewrite seal_start_last. simpl. rewrite <- He.
  rewrite Hh at 1. split; [done|]. by rewrite Hm.
Qed.

(** The texts the walk over a journal digests. *)
Definition digested (db : Tables) (domain : str) : list (list N) := hashed GENESIS (covered db domain).

(** C16: two databases that both walk clean and end in the same head hold the same
    history, row for row, ordinals apart, unless the two walks themselves show a
    weakness of SHA-256: among the texts they digest, one for each row covered, a
    text of the one walk and a different text of the other have the same digest, or
    a text of either has the digest of sixty-four zeros that the chain starts from.
    So a head noted elsewhere is enough to hold against a journal rewritten by
    anyone. *)
Theorem history_is_pinned (db1 db2 : Tables) (domain : str) (r1 r2 : Report) :
  digests_are_bytes → well_kept db1 domain → well_kept db2 domain →
  verify db1 domain = Verified r1 → verify db2 domain = Verified r2 →
  last_head db1 domain = last_head db2 domain →
  (map content (covered db1 domain) = map content (covered db2 domain) ∧ entries r1 = entries r2) ∨
  collide (digested db1 domain) (digested db2 domain).
Proof.
  intros Hh K1 K2 V1 V2 E.
  destruct (verified_chain db1 domain r1 K1 V1) as [C1 N1].
  destruct (verified_chain db2 domain r2 K2 V2) as [C2 N2].
  assert (∀ db, well_kept db domain → Forall row_ok (covered db domain)) as Hok.
  { intros db (_ & _ & Ho). unfold covered, range. apply list.Forall_forall. intros r Hr.
    apply list_elem_of_In, filter_In in Hr as [Hr _]. rewrite list.Forall_forall in Ho. apply Ho.
    unfold ordered in Hr. by rewrite <- list_elem_of_In, sort_by_perm in Hr. }
  destruct (chain_pins (covered db1 domain) (covered db2 domain)) as [Hc|]; [done|by apply Hok..|congruence| |by right].
  left. split; [done|]. apply (f_equal length) in Hc. rewrite !length_map in Hc. lia.
Qed.
End walking.

(** ** A ledger that is only appended to and sealed *)

Lemma sort_by_snoc {A} (cmp : A → A → comparison) (l : list A) (a : A) :
  (∀ x, In x l → cmp x a ≠ Gt) → sort_by cmp (l ++ [a]) = sort_by cmp l ++ [a].
Proof.
  assert (∀ x s, cmp x a ≠ Gt → sort_insert cmp x (s ++ [a]) = sort_insert cmp x s ++ [a]) as Hi.
  { intros x s Hx. induction s as [|y s IH]; simpl; [by destruct (cmp x a)|]. destruct (cmp x y); [done..|]. by rewrite IH. }
  induction l as [|x l IH]; intros Hl; [done|]. cbn [app sort_by foldr]. fold (sort_by cmp (l ++ [a])) (sort_by cmp l).
  rewrite IH by (intros; apply Hl; by right). apply Hi, Hl. by left.
Qed.

Section keeping.
Context `{U : UnicodeTables} `{H : Sha256} (domain : str).
Local Abbreviation journal := (journal_table domain).

(** Every seal follows the one before and holds the digest of the rows between. *)
Fixpoint links (db : Tables) (before : Anchor) (held : list Anchor) : Prop :=
  match held with
  | [] => True
  | a :: rest =>
    previous a = head before ∧
    head a = chain (previous a) (range db journal (through before) (through a)) ∧ links db a rest
  end.
Record kept (db : Tables) : Prop := {
  kept_distinct : distinct db journal;
  kept_positive : counted_from_one db journal;
  kept_links : links db genesis (anchors db domain);
  kept_behind : Forall (λ a, 0 <= through a <= last_ordinal db domain) (anchors db domain)
}.

Lemma links_app (db : Tables) (before : Anchor) (held : list Anchor) (a : Anchor) :
  links db before (held ++ [a]) ↔
  links db before held ∧ previous a = head (last_of before held) ∧
  head a = chain (previous a) (range db journal (through (last_of before held)) (through a)).
Proof.
  revert before. induction held as [|b held IH]; intros before.
  - cbn [app links]. unfold last_of. cbn [list.last default]. tauto.
  - cbn [app links]. rewrite IH, last_of_cons. tauto.
Qed.

Lemma links_agree (db db' : Tables) (before : Anchor) (held : list Anchor) :
  (∀ a b, In b held → range db' journal a (through b) = range db journal a (through b)) →
  links db before held → links db' before held.
Proof.
  revert before. induction held as [|a held IH]; intros before Hr; [done|]. cbn [links]. intros (E1 & E2 & E3).
  split_and!; [done|rewrite Hr; [done|by left]|apply IH; [intros; apply Hr; by right|done]].
Qed.

Lemma walk_app (db : Tables) (before : Anchor) (n : Z) (l m : list Anchor) :
  walk db journal before n (l ++ m) = let? done_ := walk db journal before n l in walk db journal done_.1 done_.2 m.
Proof.
  revert before n. induction l as [|a l IH]; intros before n; [done|]. cbn [app walk].
  destruct (negb _); [done|]. destruct (fold _ _ _ _ _) as [[d c]|]; [|done]. destruct (negb _); [done|apply IH].
Qed.
Lemma walk_same_rows (db db' : Tables) (before : Anchor) (n : Z) (l : list Anchor) :
  journals db' = journals db → walk db' journal before n l = walk db journal before n l.
Proof.
  intros E. revert before n. induction l as [|a l IH]; intros before n; [done|]. cbn [walk].
  destruct (negb _); [done|].
  assert (fold db' journal (previous a) (through before) (through a) =
          fold db journal (previous a) (through before) (through a)) as ->.
  { unfold fold, rows_of. rewrite E. generalize (S (length (default [] (journals db !! journal)))) as fuel.
    intros fuel. generalize 0, (through before), (previous a) as d. revert fuel.
    induction fuel as [|fuel IHf]; intros c t d; [done|]. cbn [fold_loop]. unfold page, rows_of. rewrite E.
    by case_match. }
  destruct (fold _ _ _ _ _) as [[d c]|]; [|done]. destruct (negb _); [done|apply IH].
Qed.

Lemma walk_complete (db : Tables) (held : list Anchor) (before : Anchor) (n : Z) :
  kept db → rising before held → links db before held →
  walk db journal before n held =
  Ok (last_of before held, n + Z.of_nat (length (range db journal (through before) (through (last_of before held))))).
Proof.
  intros K. revert before n. induction held as [|a held IH]; intros before n Hup; cbn [links walk].
  - intros _. unfold last_of. cbn [list.last default]. unfold range. rewrite filter_none; [simpl; by rewrite Z.add_0_r|].
    intros r _. unfold in_range. destruct (Z.ltb_spec (through before) (ordinal r)); simpl; [|done].
    apply Z.leb_gt. lia.
  - intros (E1 & E2 & E3). unfold str_eqb. rewrite bool_decide_true by done. cbn [negb].
    rewrite fold_spec by apply K. rewrite <- E2, bool_decide_true by done. cbn [negb].
    assert (Hup' := rising_tail _ _ _ Hup). rewrite IH, last_of_cons by done. do 2 f_equal.
    rewrite (range_cut db journal (through before) (through a) (through (last_of a held))), length_app; [lia|apply K|].
    pose proof (rising_last _ _ Hup'). destruct Hup as [_ Hf]. apply list.Forall_cons in Hf as [Hf _]. lia.
Qed.

(** *** The end of the journal *)
Lemma fold_max_ge (l : list Z) (m : Z) : m <= fold_left Z.max l m ∧ ∀ x, In x l → x <= fold_left Z.max l m.
Proof.
  revert m. induction l as [|y l IH]; intros m; simpl; [split; [lia|done]|].
  destruct (IH (Z.max m y)) as [H1 H2]. split; [lia|]. intros x [->|Hx]; [lia|by apply H2].
Qed.

Lemma last_ordinal_ge (db : Tables) (r : Row) : In r (rows_of db journal) → ordinal r <= last_ordinal db domain.
Proof.
  unfold last_ordinal. destruct (rows_of db journal) as [|r0 rows]; [done|].
  destruct (fold_max_ge (map ordinal rows) (ordinal r0)) as [H1 H2]. intros [->|Hr]; [done|by apply H2, in_map].
Qed.

Lemma last_ordinal_snoc (db : Tables) (row : Row) :
  0 < ordinal row → last_ordinal db domain < ordinal row →
  last_ordinal (insert_row db journal row) domain = ordinal row.
Proof.
  unfold last_ordinal, insert_row, rows_of. simpl. rewrite lookup_insert_eq. cbn [default].
  destruct (default [] (journals db !! journal)) as [|r rows]; simpl; [done|].
  rewrite map_app, fold_left_app. simpl. lia.
Qed.

Lemma last_ordinal_nonneg (db : Tables) : kept db → 0 <= last_ordinal db domain.
Proof.
  intros K. unfold last_ordinal. pose proof (kept_positive _ K) as Hp. unfold counted_from_one in Hp.
  destruct (rows_of db journal) as [|r rows]; [done|]. apply list.Forall_cons in Hp as [Hr _].
  pose proof (fold_max_ge (map ordinal rows) (ordinal r)). lia.
Qed.

(** *** What each write does *)
Lemma insert_row_rows (db : Tables) (row : Row) :
  rows_of (insert_row db journal row) journal = rows_of db journal ++ [row].
Proof. unfold rows_of, insert_row. simpl. by rewrite lookup_insert_eq. Qed.

Lemma insert_row_kept (db : Tables) (row : Row) :
  kept db → last_ordinal db domain < ordinal row → kept (insert_row db journal row).
Proof.
  intros K Hn. pose proof (last_ordinal_nonneg db K) as H0.
  assert (∀ r, In r (rows_of db journal) → ordinal r < ordinal row) as Hlt.
  { intros r Hr. apply last_ordinal_ge in Hr. lia. }
  constructor.
  - unfold distinct. rewrite insert_row_rows, map_app. apply list.NoDup_app. split_and!; [apply K| |apply NoDup_singleton].
    intros x Hx%list_elem_of_In Hr. apply list_elem_of_singleton in Hr. subst x.
    apply in_map_iff in Hx as (r & E & Hr). specialize (Hlt r Hr). lia.
  - unfold counted_from_one. rewrite insert_row_rows. apply list.Forall_app. split; [apply K|].
    constructor; [lia|constructor].
  - change (anchors (insert_row db journal row) domain) with (anchors db domain).
    apply (links_agree db); [|apply K]. intros a b Hb. unfold range, ordered. rewrite insert_row_rows, sort_by_snoc.
    + rewrite List.filter_app. cbn [List.filter]. unfold in_range at 2.
      pose proof (kept_behind _ K) as Hbh. rewrite list.Forall_forall in Hbh.
      specialize (Hbh b (proj2 (list_elem_of_In _ _) Hb)). simpl in Hbh.
      rewrite (proj2 (Z.leb_gt (ordinal row) (through b))) by lia. rewrite andb_false_r. apply app_nil_r.
    + intros r Hr. unfold by_ordinal. rewrite (proj2 (Z.compare_lt_iff _ _)) by auto. done.
  - change (anchors (insert_row db journal row) domain) with (anchors db domain).
    rewrite last_ordinal_snoc by lia. eapply list.Forall_impl; [apply K|]. intros a Ha. simpl in Ha. lia.
Qed.

Lemma upsert_head_kept (db : Tables) (table id state : str) (n : Z) : kept db → kept (upsert_head db table id n state).
Proof.
  intros K. constructor;
    [exact (kept_distinct _ K)|exact (kept_positive _ K)| |exact (kept_behind _ K)].
  by apply (links_agree db); [|apply K].
Qed.

Definition anchors_of (rows : list (str * Anchor)) : list Anchor :=
  omap (λ '(t, a), if bool_decide (t = journal) then Some a else None) rows.
Lemma anchors_of_app (l m : list (str * Anchor)) : anchors_of (l ++ m) = anchors_of l ++ anchors_of m.
Proof. apply omap_app. Qed.
Lemma anchors_of_one (a : Anchor) : anchors_of [(journal, a)] = [a].
Proof. unfold anchors_of. cbn [omap list_omap]. by rewrite bool_decide_true. Qed.
Lemma anchors_of_in (l : list (str * Anchor)) (a : Anchor) : In a (anchors_of l) ↔ In (journal, a) l.
Proof.
  unfold anchors_of. rewrite <- !list_elem_of_In, list_elem_of_omap. split.
  - intros [[t b] [Hin E]]. cbn beta iota in E. case_bool_decide; [|done]. by simplify_eq.
  - intros Hin. exists (journal, a). split; [done|]. cbn beta iota. by rewrite bool_decide_true.
Qed.
Lemma anchors_in (db : Tables) (a : Anchor) : In a (anchors db domain) ↔ In (journal, a) (anchor_rows db).
Proof.
  unfold anchors. fold (anchors_of (anchor_rows db)). rewrite <- anchors_of_in, <- !list_elem_of_In.
  by rewrite sort_by_perm.
Qed.

(** A seal past every other is recorded at the end. *)
Definition with_anchor (db : Tables) (a : Anchor) : Tables := {|
  journals := journals db; anchor_rows := anchor_rows db ++ [(journal, a)]; head_snapshots := head_snapshots db
|}.
Lemma insert_anchor_last (db : Tables) (a : Anchor) :
  Forall (λ b, through b < through a) (anchors db domain) →
  insert_anchor db journal a = Ok (with_anchor db a) ∧ anchors (with_anchor db a) domain = anchors db domain ++ [a].
Proof.
  intros Hf. rewrite list.Forall_forall in Hf.
  assert (∀ b, In (journal, b) (anchor_rows db) → through b < through a) as Hb.
  { intros b Hb. by apply Hf, list_elem_of_In, anchors_in. }
  split.
  - unfold insert_anchor. destruct (existsb _ _) eqn:E; [|done]. apply existsb_exists in E as [[t b] [Hin E]].
    apply andb_true_iff in E as [->%bool_decide_eq_true E]. apply Z.eqb_eq in E. specialize (Hb b Hin). lia.
  - unfold anchors, with_anchor. cbn [anchor_rows]. fold (anchors_of (anchor_rows db ++ [(journal, a)])).
    fold (anchors_of (anchor_rows db)). rewrite anchors_of_app, anchors_of_one.
    apply sort_by_snoc. intros b Hin%anchors_of_in. unfold by_through.
    by rewrite (proj2 (Z.compare_lt_iff _ _)) by auto.
Qed.

Lemma anchors_up_to_last (db : Tables) (b : Anchor) :
  In b (anchors db domain) → through b <= through (last_of genesis (anchors db domain)).
Proof.
  pose proof (anchors_sorted db domain) as Hs. unfold last_of. destruct (list.last (anchors db domain)) as [l|] eqn:E; simpl.
  - apply list.last_Some in E as [l' E]. rewrite E in *. clear E. intros Hin%in_app_or.
    destruct Hin as [Hin|[<-|[]]]; [|lia]. induction l' as [|x l' IH]; [done|].
    inversion_clear Hs as [|? ? Hs' Hx]. destruct Hin as [->|Hin]; [|by apply IH].
    apply list.Forall_app in Hx as [_ Hx]. by inversion_clear Hx.
  - apply list.last_None in E. by rewrite E.
Qed.

(** A seal from the last one held to the end of the journal. *)
Definition next_seal (db : Tables) : Anchor :=
  let last := last_of genesis (anchors db domain) in
  {| through := last_ordinal db domain;
     head := chain (head last) (range db journal (through last) (last_ordinal db domain));
     previous := head last |}.

Lemma extend_kept (db : Tables) :
  kept db → last_through db domain < last_ordinal db domain →
  extend db journal (last_through db domain) (last_head db domain) (last_ordinal db domain) =
    Ok (next_seal db, with_anchor db (next_seal db)) ∧
  anchors (with_anchor db (next_seal db)) domain = anchors db domain ++ [next_seal db] ∧
  kept (with_anchor db (next_seal db)).
Proof.
  unfold last_through, last_head. rewrite seal_start_last. cbn [fst snd]. intros K Hlt.
  destruct (insert_anchor_last db (next_seal db)) as [Hi Ha].
  { apply list.Forall_forall. intros b Hb%list_elem_of_In%anchors_up_to_last. simpl. lia. }
  split_and!; [|done|].
  - unfold extend. rewrite fold_spec by apply K. cbv zeta.
    change (insert_anchor db journal _) with (insert_anchor db journal (next_seal db)). by rewrite Hi.
  - constructor; [apply K..| |]; rewrite Ha.
    + apply links_app. split_and!; [|done|done]. apply (links_agree db); [done|apply K].
    + apply list.Forall_app. split; [apply K|]. constructor; [|constructor].
      change (last_ordinal (with_anchor db (next_seal db)) domain) with (last_ordinal db domain).
      pose proof (last_ordinal_nonneg db K). simpl. lia.
Qed.
End keeping.

(** ** Runs of a host on its ledger *)
Section runs.
Context `{U : UnicodeTables} `{H : Sha256} (domain : str).
Local Abbreviation journal := (journal_table domain).

(** What writes a ledger: a lineage row under the domain's lock, past the ones
    before it; a commit's seal; the operator's. *)
Inductive Writes : Tables → Tables → Prop :=
| Appends db db' era n m :
    last_ordinal db domain < n → append_lineage_mutation db domain (Some era) n m = Ok db' → Writes db db'
| SealsDue db db' every a : seal_due db domain every = Ok (a, db') → Writes db db'
| Seals db db' a : seal db domain = Ok (a, db') → Writes db db'.

Lemma rows_of_empty (j : str) : rows_of no_tables j = [].
Proof. unfold rows_of. simpl. by rewrite lookup_empty. Qed.
Lemma kept_empty : kept domain no_tables.
Proof.
  split; unfold distinct, counted_from_one; rewrite ?rows_of_empty; [apply NoDup_nil_2|by constructor|done|by constructor].
Qed.

(** A seal records nothing, or the rows up to the end of the journal. *)
Lemma seal_cases (db : Tables) :
  kept domain db →
  seal db domain =
  if last_ordinal db domain <=? last_through db domain then Ok (None, db)
  else Ok (Some (next_seal domain db), with_anchor domain db (next_seal domain db)).
Proof.
  intros K. unfold seal, seal_after, settled_end. fold (last_through db domain) (last_head db domain).
  destruct (Z.leb_spec (last_ordinal db domain) (last_through db domain)) as [|Hlt]; [done|].
  destruct (extend_kept domain db K Hlt) as (-> & _). done.
Qed.
Lemma seal_due_cases (db : Tables) (every : Z) :
  kept domain db →
  seal_due db domain every =
  if last_ordinal db domain - last_through db domain <? Z.max every 1 then Ok (None, db)
  else Ok (Some (next_seal domain db), with_anchor domain db (next_seal domain db)).
Proof.
  intros K. unfold seal_due. cbv zeta. fold (last_through db domain) (last_head db domain).
  destruct (Z.ltb_spec (last_ordinal db domain - last_through db domain) (Z.max every 1)) as [|Hge]; [done|].
  destruct (extend_kept domain db K ltac:(lia)) as (-> & _). done.
Qed.

Lemma writes_kept (db db' : Tables) : Writes db db' → kept domain db → kept domain db'.
Proof.
  intros [d d' era n m Hn Ha|d d' every a Hs|d d' a Hs] K.
  - unfold append_lineage_mutation in Ha. destruct (negb _); [done|]. injection Ha as <-.
    apply upsert_head_kept. by apply insert_row_kept.
  - rewrite seal_due_cases in Hs by done. destruct (Z.ltb_spec (last_ordinal d domain - last_through d domain) (Z.max every 1)).
    + by injection Hs as _ <-.
    + injection Hs as _ <-. apply extend_kept; [done|lia].
  - rewrite seal_cases in Hs by done. destruct (Z.leb_spec (last_ordinal d domain) (last_through d domain)).
    + by injection Hs as _ <-.
    + injection Hs as _ <-. by apply extend_kept.
Qed.

Lemma runs_kept (db : Tables) : rtc Writes no_tables db → kept domain db.
Proof.
  assert (∀ a b, rtc Writes a b → kept domain a → kept domain b) as Hr.
  { intros a b. induction 1; [done|]. eauto using writes_kept. }
  intros Hrun. eapply Hr; [done|apply kept_empty].
Qed.

Lemma kept_verifies (db : Tables) :
  kept domain db → anchors db domain ≠ [] →
  verify db domain = Verified {|
    seals := length (anchors db domain); entries := Z.of_nat (length (covered db domain));
    unsealed := Z.max (last_ordinal db domain - last_through db domain) 0 |}.
Proof.
  intros K Hne. unfold verify. rewrite bool_decide_false by done.
  rewrite (walk_complete domain) by (done || apply anchors_rising || apply K).
  unfold covered, last_through. by rewrite seal_start_last.
Qed.

(** A journal the host has only appended to, with seals only the host has taken,
    walks clean after every write: its seals, its sealed rows and its unsealed tail
    are counted; and a seal taken next is never refused, by a commit or by hand. *)
Theorem kept_ledger_walks_clean (db : Tables) :
  rtc Writes no_tables db →
  verify db domain =
    (if bool_decide (anchors db domain = []) then
       Unproven "nothing is sealed yet: the chain cannot be shown intact"
     else Verified {|
       seals := length (anchors db domain); entries := Z.of_nat (length (covered db domain));
       unsealed := Z.max (last_ordinal db domain - last_through db domain) 0 |}) ∧
  (∀ every, is_ok (seal_due db domain every) = true) ∧ is_ok (seal db domain) = true.
Proof.
  intros K%runs_kept. split_and!.
  - case_bool_decide as E; [unfold verify; by rewrite bool_decide_true|by apply kept_verifies].
  - intros every. rewrite seal_due_cases by done. by case_match.
  - rewrite seal_cases by done. by case_match.
Qed.

Lemma last_of_snoc (before a : Anchor) (l : list Anchor) : last_of before (l ++ [a]) = a.
Proof. unfold last_of. by rewrite list.last_snoc. Qed.

(** After a commit has run its seal, fewer than [every] ordinals lie past the last
    one; and sealing by hand leaves none, so that a second seal records nothing. *)
Theorem seals_bound_the_tail (db db' : Tables) (every : Z) (a : option Anchor) :
  rtc Writes no_tables db →
  (seal_due db domain every = Ok (a, db') →
     last_ordinal db' domain - last_through db' domain < Z.max every 1) ∧
  (seal db domain = Ok (a, db') → seal db' domain = Ok (None, db')).
Proof.
  intros K%runs_kept.
  assert (∀ d, kept domain d → last_through d domain < last_ordinal d domain →
            kept domain (with_anchor domain d (next_seal domain d)) ∧
            last_through (with_anchor domain d (next_seal domain d)) domain = last_ordinal d domain) as Hw.
  { intros d Kd Hlt. destruct (extend_kept domain d Kd Hlt) as (_ & Ha & Kd'). split; [done|].
    unfold last_through. by rewrite Ha, seal_start_last, last_of_snoc. }
  split.
  - rewrite seal_due_cases by done. destruct (Z.ltb_spec (last_ordinal db domain - last_through db domain) (Z.max every 1)).
    + by intros [= <- <-].
    + intros [= <- <-]. destruct (Hw db K ltac:(lia)) as [_ ->].
      change (last_ordinal (with_anchor domain db (next_seal domain db)) domain) with (last_ordinal db domain). lia.
  - rewrite seal_cases by done. destruct (Z.leb_spec (last_ordinal db domain) (last_through db domain)) as [Hle|Hlt].
    + intros [= <- <-]. rewrite seal_cases by done. by rewrite (proj2 (Z.leb_le _ _)).
    + intros [= <- <-]. destruct (Hw db K Hlt) as [K' Ht]. rewrite seal_cases by done. rewrite Ht.
      change (last_ordinal (with_anchor domain db (next_seal domain db)) domain) with (last_ordinal db domain).
      by rewrite Z.leb_refl.
Qed.

Lemma kept_through (db : Tables) : kept domain db → 0 <= last_through db domain <= last_ordinal db domain.
Proof.
  intros K. pose proof (kept_behind _ _ K) as Hb. pose proof (last_ordinal_nonneg domain db K).
  unfold last_through, seal_start. destruct (list.last (anchors db domain)) as [a|] eqn:E; simpl; [|lia].
  apply list.last_Some in E as [l E]. rewrite E in Hb. apply list.Forall_app in Hb as [_ Hb]. by inversion_clear Hb.
Qed.

(** A walk over one seal more, that does not follow the last. *)
Lemma unlinked_seal_found (db : Tables) (a : Anchor) :
  kept domain db → last_through db domain < through a → previous a ≠ last_head db domain →
  insert_anchor db journal a = Ok (with_anchor domain db a) ∧
  verify (with_anchor domain db a) domain = Unproven (does_not_follow journal a).
Proof.
  unfold last_through, last_head. rewrite seal_start_last. simpl. intros K Ht Hh.
  destruct (insert_anchor_last domain db a) as [Hi Ha].
  { apply list.Forall_forall. intros b Hb%list_elem_of_In%anchors_up_to_last. lia. }
  split; [done|]. unfold verify. rewrite Ha, bool_decide_false by (by destruct (anchors db domain)).
  rewrite walk_app, (walk_same_rows domain db) by done.
  rewrite (walk_complete domain) by (done || apply anchors_rising || apply K). cbn [fst snd walk].
  unfold str_eqb. by rewrite bool_decide_false.
Qed.

(** The operator's [seal] reads the seals, and only then settles the journal's
    end; it folds and records after the write lock is released.  When a commit has
    sealed in between, the seal it goes on to take either repeats an ordinal, and
    is refused, or follows a seal that is no longer the last: from then on the
    walk finds the chain broken, though no row was ever touched. *)
Theorem stale_seal_breaks_the_chain (before db : Tables) :
  rtc Writes no_tables before → rtc Writes before db →
  last_through before domain < last_through db domain → last_head before domain ≠ last_head db domain →
  if last_ordinal db domain =? last_through db domain
  then seal_after db domain (seal_start (anchors before domain)) = Err "recording the seal"
  else ∃ a db', seal_after db domain (seal_start (anchors before domain)) = Ok (Some a, db') ∧
                journals db' = journals db ∧
                verify db' domain = Unproven (does_not_follow journal a).
Proof.
  intros Rb Rd Ht Hh. assert (kept domain db) as K by (apply runs_kept; by etrans).
  pose proof (kept_through db K). pose proof (kept_through before (runs_kept _ Rb)).
  unfold seal_after, settled_end. fold (last_through before domain) (last_head before domain).
  rewrite (proj2 (Z.leb_gt _ _)) by lia. unfold extend. rewrite fold_spec by apply K. cbv zeta.
  set (a := {| through := _; head := _; previous := _ |}).
  destruct (Z.eqb_spec (last_ordinal db domain) (last_through db domain)) as [E|E].
  - unfold insert_anchor. rewrite (proj2 (existsb_exists _ _)); [done|].
    unfold last_through, seal_start in *. destruct (list.last (anchors db domain)) as [l|] eqn:El; simpl in *; [|lia].
    exists (journal, l). rewrite bool_decide_true by done. split; [|apply Z.eqb_eq; simpl; congruence].
    apply anchors_in. apply list.last_Some in El as [l' ->]. apply in_or_app. right. by left.
  - destruct (unlinked_seal_found db a K) as [-> Hv]; [simpl; lia|done|]. by exists a, (with_anchor domain db a).
Qed.
End runs.

(** ** Heads and names *)
Section heads.
Context `{U : UnicodeTables} `{H : Sha256}.

(** A head as a write asks for it: the table, the id, the ordinal of the row and
    the state. *)
Definition HeadWrite : Type := str * str * Z * str.
Definition upsert (db : Tables) (w : HeadWrite) : Tables :=
  let '(table, id, n, state) := w in upsert_head db table id n state.
Definition write_ordinal (w : HeadWrite) : Z := let '(_, _, n, _) := w in n.
Definition head_at (db : Tables) (table id : str) : option (Z * str) := head_snapshots db !! table ≫= (.!! id).

Definition newest (held : option (Z * str)) (n : Z) (state : str) : option (Z * str) :=
  match held with Some (m, s) => if m <? n then Some (n, state) else Some (m, s) | None => Some (n, state) end.
Lemma head_at_upsert (db : Tables) (w : HeadWrite) (table id : str) :
  head_at (upsert db w) table id =
  let '(t, i, n, state) := w in
  if bool_decide (t = table ∧ i = id) then newest (head_at db table id) n state else head_at db table id.
Proof.
  destruct w as [[[t i] n] state]. unfold upsert, upsert_head, head_at, newest. simpl.
  destruct (decide (t = table)) as [->|Ht].
  2: { rewrite lookup_insert_ne by done. rewrite bool_decide_false; [done|]. by intros [? _]. }
  rewrite lookup_insert_eq. simpl. destruct (head_snapshots db !! table) as [rows|]; simpl.
  - destruct (decide (i = id)) as [->|Hi].
    + rewrite bool_decide_true by done. destruct (rows !! id) as [[m s]|] eqn:E; [|by rewrite lookup_insert_eq].
      destruct (m <? n); [by rewrite lookup_insert_eq|done].
    + rewrite bool_decide_false by (by intros [_ ?]). case_match; [by rewrite lookup_insert_ne|done].
  - rewrite lookup_empty. destruct (decide (i = id)) as [->|Hi].
    + rewrite lookup_insert_eq. by rewrite bool_decide_true.
    + rewrite lookup_insert_ne, lookup_empty by done. by rewrite bool_decide_false by (by intros [_ ?]).
Qed.

(** The heads a set of lineage writes leaves do not depend on the order they were
    applied in: a write that arrives late never takes a head back. *)
Theorem heads_ignore_write_order (db : Tables) (ws ws' : list HeadWrite) (table id : str) :
  ws ≡ₚ ws' → NoDup (map write_ordinal ws) →
  head_at (fold_left upsert ws db) table id = head_at (fold_left upsert ws' db) table id.
Proof.
  intros Hp. revert db. induction Hp as [|w ws ws' Hp IH|w1 w2 ws|ws1 ws2 ws3 Hp1 IH1 Hp2 IH2]; intros db Hd; [done|..].
  - cbn [fold_left map] in *. apply list.NoDup_cons in Hd as [_ Hd]. by apply IH.
  - cbn [fold_left map] in *. apply list.NoDup_cons in Hd as [Hn _].
    assert (∀ l d d', (∀ t i, head_at d t i = head_at d' t i) →
              head_at (fold_left upsert l d) table id = head_at (fold_left upsert l d') table id) as Hc.
    { induction l as [|w l IH]; intros d d' Hdd; cbn [fold_left]; [done|]. apply IH. intros t i.
      rewrite !head_at_upsert. destruct w as [[[? ?] ?] ?]. by rewrite Hdd. }
    apply Hc. intros t i. rewrite !head_at_upsert. destruct w1 as [[[t1 i1] n1] s1], w2 as [[[t2 i2] n2] s2].
    cbn [write_ordinal] in Hn. assert (n1 ≠ n2) by (intros ->; apply Hn; by left).
    repeat case_bool_decide; [|done..]. unfold newest.
    destruct (head_at db t i) as [[m s]|]; repeat (case_match; simplify_eq); try done;
      rewrite ?Z.ltb_lt, ?Z.ltb_ge in *; lia.
  - rewrite IH1 by done. apply IH2. by rewrite <- Hp1.
Qed.

Lemma utf8_encode_app (a b : str) : utf8_encode (a ++ b) = utf8_encode a ++ utf8_encode b.
Proof. apply flat_map_app. Qed.
Lemma whole_prefix_fits (n : nat) (s : str) : (length (utf8_encode (whole_prefix n s)) ≤ n)%nat.
Proof.
  revert n. induction s as [|c s IH]; intros n; cbn [whole_prefix]; [apply Nat.le_0_l|].
  destruct (Nat.leb_spec (length (utf8_char c)) n); [|apply Nat.le_0_l].
  cbn [utf8_encode flat_map]. fold (utf8_encode (whole_prefix (n - length (utf8_char c)) s)).
  rewrite length_app. specialize (IH (n - length (utf8_char c))%nat). lia.
Qed.
Lemma whole_prefix_full (n : nat) (s : str) : (length (utf8_encode s) ≤ n)%nat → whole_prefix n s = s.
Proof.
  revert n. induction s as [|c s IH]; intros n; [done|]. cbn [utf8_encode flat_map whole_prefix].
  fold (utf8_encode s). rewrite length_app. intros Hl. rewrite (proj2 (Nat.leb_le _ _)) by lia. f_equal. apply IH. lia.
Qed.

(** No derived name is longer than a Postgres identifier, so none is cut short
    behind the host's back; a name that fits is left as it is. *)
Theorem qualified_names_fit (domain suffix : str) :
  digests_are_bytes →
  (length (utf8_encode (qualified_name domain suffix)) ≤ POSTGRES_IDENTIFIER_LIMIT)%nat ∧
  ((length (utf8_encode (snake domain ++ "_" ++ suffix)) ≤ POSTGRES_IDENTIFIER_LIMIT)%nat →
     qualified_name domain suffix = snake domain ++ "_" ++ suffix).
Proof.
  intros Hh. unfold qualified_name. destruct (Nat.leb_spec (length (utf8_encode (snake domain ++ "_" ++ suffix))) POSTGRES_IDENTIFIER_LIMIT).
  { done. } split; [|lia]. rewrite utf8_encode_app, (utf8_encode_app "_"), !length_app.
  set (digest := take 8 _). assert (length (utf8_encode digest) = 8%nat) as Hd.
  { destruct (sha256_hex_shape (utf8_encode (snake domain ++ "_" ++ suffix)) Hh) as [Hl Hc].
    rewrite ascii_encode; [unfold digest; rewrite length_take; lia|]. unfold digest. apply list.Forall_take.
    apply list.Forall_forall. intros c Hin%list_elem_of_In. rewrite forallb_forall in Hc. apply Hc in Hin.
    unfold is_digit, is_lower in Hin. apply orb_true_iff in Hin as [Hin|Hin];
      apply andb_true_iff in Hin as [_ Hin]; apply N.leb_le in Hin; lia. }
  rewrite Hd. change (length (utf8_encode "_")) with 1%nat.
  pose proof (whole_prefix_fits (POSTGRES_IDENTIFIER_LIMIT - 8 - 1) (snake domain ++ "_" ++ suffix)) as Hw.
  unfold POSTGRES_IDENTIFIER_LIMIT in *. lia.
Qed.
End heads.

(** ** Witnesses *)

(** Tables of plain letters, and a digest of thirty-two bytes that tells the runs
    below apart. *)
#[local] Instance plain_letters : UnicodeTables := {| debug_printable _ := true; to_lower c := [ascii_lower c] |}.
#[local] Instance digit_sum : Sha256 := λ bs,
  let sum := fold_left (λ acc b, N.land (acc * 263 + b) 1152921504606846975)%N bs 7%N in
  map (λ i, N.land (N.shiftr sum (N.of_nat i)) (N.ones 8)) (seq 0 32).
Lemma digit_of (x : N) : (N.land x (N.ones 8) < 256)%N.
Proof. rewrite N.land_ones. by apply N.mod_lt. Qed.
Lemma digit_sum_is_bytes : digests_are_bytes.
Proof.
  intros bs. unfold sha256, digit_sum. rewrite length_map. split; [done|].
  apply list.Forall_forall. intros c (i & <- & _)%list_elem_of_In%in_map_iff. apply digit_of.
Qed.

Definition shop : str := "Shop".
Definition order (id state : str) : LineageMutation := {|
  mutation_aggregate := "Shop::Order"; mutation_id := id; mutation_operation := "save"; mutation_state := state |}.
Definition after (r : result str Tables) : Tables := match r with Ok db => db | Err _ => no_tables end.
Definition sealed (r : result str (option Anchor * Tables)) : Tables := match r with Ok p => p.2 | Err _ => no_tables end.
Definition appended (db : Tables) (n : Z) (m : LineageMutation) : Tables := after (append_lineage_mutation db shop (Some 1) n m).
Definition history (n1 n2 n3 : Z) : Tables :=
  sealed (seal (appended (sealed (seal (appended (appended no_tables n1 (order "o1" "1")) n2 (order "o2" "2")) shop))
    n3 (order "o1" "3")) shop).

Definition holdable_b (s : str) : bool := wf_str s && (N.of_nat (length (utf8_encode s)) <? 2 ^ 64)%N.
Definition row_ok_b (r : Row) : bool :=
  forallb holdable_b ([operation r; aggregate r; aggregate_id r] ++ option_list (state r) ++ option_list (mirrors r)).
Lemma well_kept_check (db : Tables) (domain : str) :
  bool_decide (NoDup (map ordinal (rows_of db (journal_table domain)))) &&
  forallb (λ r, (0 <? ordinal r) && row_ok_b r) (rows_of db (journal_table domain)) = true →
  well_kept db domain.
Proof.
  intros [Hd%bool_decide_eq_true Hf]%andb_true_iff. rewrite forallb_forall in Hf.
  assert (∀ s, holdable_b s = true → holdable s) as Hh.
  { intros s [Hw Hl%N.ltb_lt]%andb_true_iff. by split. }
  split; [done|]. split; apply list.Forall_forall; intros r Hr%list_elem_of_In%Hf; apply andb_true_iff in Hr as [Hp Hr].
  - by apply Z.ltb_lt.
  - unfold row_ok_b in Hr. rewrite !forallb_app, !andb_true_iff in Hr. cbn [forallb] in Hr.
    rewrite !andb_true_iff in Hr. destruct Hr as ((H1 & H2 & H3 & _) & H4 & H5).
    split_and!; [by apply Hh..| |]; [destruct (state r)|destruct (mirrors r)]; simpl in *; try done; apply Hh;
      by rewrite andb_true_r in *.
Qed.

(** The digests of these two walks collide nowhere: what is left is that the
    histories are one. *)
Definition collides (xs ys : list (list N)) : bool :=
  existsb (λ x, existsb (λ y, negb (bool_decide (x = y)) && str_eqb (sha256_hex x) (sha256_hex y)) ys) xs ||
  existsb (λ x, str_eqb (sha256_hex x) GENESIS) (xs ++ ys).
Lemma collides_sound (xs ys : list (list N)) : collide xs ys → collides xs ys = true.
Proof.
  unfold collides. intros [(x & y & Hx & Hy & Hn & He)|(x & Hx & He)]; apply orb_true_iff; [left|right]; apply existsb_exists.
  - exists x. split; [by apply list_elem_of_In|]. apply existsb_exists. exists y. split; [by apply list_elem_of_In|].
    rewrite bool_decide_false by done. by apply bool_decide_eq_true.
  - exists x. split; [by apply list_elem_of_In, elem_of_app|by apply bool_decide_eq_true].
Qed.
Lemma history_is_pinned_witness :
  map content (covered (history 1 2 3) shop) = map content (covered (history 2 5 9) shop) ∧ 3 = 3.
Proof.
  destruct (history_is_pinned (history 1 2 3) (history 2 5 9) shop
           {| seals := 2; entries := 3; unsealed := 0 |} {| seals := 2; entries := 3; unsealed := 0 |}) as [Hs|Hc].
  - exact digit_sum_is_bytes.
  - apply well_kept_check. vm_compute. reflexivity.
  - apply well_kept_check. vm_compute. reflexivity.
  - vm_compute. reflexivity.
  - vm_compute. reflexivity.
  - vm_compute. reflexivity.
  - exact Hs.
  - exfalso. apply collides_sound in Hc. vm_compute in Hc. discriminate Hc.
Defined.

Lemma appended_writes (db : Tables) (n : Z) (m : LineageMutation) :
  bool_decide (last_ordinal db shop < n) && is_ok (append_lineage_mutation db shop (Some 1) n m) = true →
  Writes shop db (appended db n m).
Proof.
  intros [Hn%bool_decide_eq_true Ho]%andb_true_iff. unfold appended.
  destruct (append_lineage_mutation db shop (Some 1) n m) as [db'|] eqn:E; [|done]. by eapply Appends.
Qed.
Lemma sealed_writes (db : Tables) : is_ok (seal db shop) = true → Writes shop db (sealed (seal db shop)).
Proof. intros Ho. destruct (seal db shop) as [[a db']|] eqn:E; [|done]. by eapply Seals. Qed.

Lemma history_written (n1 n2 n3 : Z) : [n1; n2; n3] = [1; 2; 3] → rtc (Writes shop) no_tables (history n1 n2 n3).
Proof.
  intros [= -> -> ->]. unfold history. eapply rtc_l; [apply (appended_writes _ 1 (order "o1" "1")); vm_compute; reflexivity|].
  eapply rtc_l; [apply (appended_writes _ 2 (order "o2" "2")); vm_compute; reflexivity|].
  eapply rtc_l; [apply sealed_writes; vm_compute; reflexivity|].
  eapply rtc_l; [apply (appended_writes _ 3 (order "o1" "3")); vm_compute; reflexivity|].
  eapply rtc_l; [apply sealed_writes; vm_compute; reflexivity|]. apply rtc_refl.
Qed.

Lemma kept_ledger_walks_clean_witness :
  verify (history 1 2 3) shop = Verified {| seals := 2; entries := 3; unsealed := 0 |}.
Proof.
  destruct (kept_ledger_walks_clean shop (history 1 2 3)) as [Hv _]; [by apply history_written|].
  rewrite Hv. vm_compute. reflexivity.
Defined.

Lemma seals_bound_the_tail_witness :
  last_ordinal (sealed (seal_due (history 1 2 3) shop 5)) shop -
  last_through (sealed (seal_due (history 1 2 3) shop 5)) shop < 5.
Proof.
  destruct (seals_bound_the_tail shop (history 1 2 3) (sealed (seal_due (history 1 2 3) shop 5)) 5 None) as [Hd _];
    [by apply history_written|]. apply Hd. vm_compute. reflexivity.
Defined.

(** The operator reads the one seal there is; a commit appends a row and seals it;
    another appends a row; the operator's seal through that row is recorded. *)
Definition read_by_operator : Tables := sealed (seal (appended no_tables 1 (order "o1" "1")) shop).
Definition then_committed : Tables :=
  appended (sealed (seal (appended read_by_operator 2 (order "o2" "2")) shop)) 3 (order "o1" "3").
Lemma stale_seal_breaks_the_chain_witness :
  ∃ a db', seal_after then_committed shop (seal_start (anchors read_by_operator shop)) = Ok (Some a, db') ∧
           journals db' = journals then_committed ∧
           verify db' shop = Unproven (does_not_follow (journal_table shop) a).
Proof.
  pose proof (stale_seal_breaks_the_chain shop read_by_operator then_committed) as Hs.
  assert ((last_ordinal then_committed shop =? last_through then_committed shop) = false) as E by (vm_compute; reflexivity).
  rewrite E in Hs. apply Hs.
  - eapply rtc_l; [apply (appended_writes _ 1 (order "o1" "1")); vm_compute; reflexivity|].
    eapply rtc_l; [apply sealed_writes; vm_compute; reflexivity|]. apply rtc_refl.
  - eapply rtc_l; [apply (appended_writes _ 2 (order "o2" "2")); vm_compute; reflexivity|].
    eapply rtc_l; [apply sealed_writes; vm_compute; reflexivity|].
    eapply rtc_l; [apply (appended_writes _ 3 (order "o1" "3")); vm_compute; reflexivity|]. apply rtc_refl.
  - vm_compute. reflexivity.
  - refine (bool_decide_unpack _ _). vm_compute. exact Logic.I.
Defined.

Lemma heads_ignore_write_order_witness :
  head_at (fold_left upsert [("t" : str, "o1" : str, 1, "a" : str); ("t" : str, "o1" : str, 2, "b" : str)] no_tables) "t" "o1" =
  head_at (fold_left upsert [("t" : str, "o1" : str, 2, "b" : str); ("t" : str, "o1" : str, 1, "a" : str)] no_tables) "t" "o1".
Proof.
  apply heads_ignore_write_order; [apply Permutation_swap|].
  refine (bool_decide_unpack _ _). vm_compute. exact Logic.I.
Defined.

Lemma qualified_names_fit_witness :
  (length (utf8_encode (qualified_name shop (repeat 97%N 80))) ≤ 63)%nat ∧
  ((length (utf8_encode (snake shop ++ "_" ++ repeat 97%N 80)) ≤ 63)%nat →
     qualified_name shop (repeat 97%N 80) = snake shop ++ "_" ++ repeat 97%N 80).
Proof. exact (qualified_names_fit shop (repeat 97%N 80) digit_sum_is_bytes). Defined.
