(* ===== verification/StrictJson.v ===== *)
(** The JSON reader of the sign-in flow
    ([src/rust/host/src/platform_signin/strict_json.rs]): bytes to an object none of
    whose keys repeat, nested at most [MAX_DEPTH] deep, with integers told apart from
    other numbers.

    The parser's position is the list of bytes still to read.  Its loops run on
    that list's length, since every turn consumes a byte, and its descent on the
    containers that may still be opened (the facts show both to be
    enough).  A [HashMap] is the list of its members in the order they
    were read, each key once.

    The facts say what it accepts: only objects whose keys are unique and whose nesting
    is bounded, each read back from its own text. *)
From S2P Require Export RustText.
Open Scope Z_scope.

(** [Json], [JsonObject]. *)
Inductive Json :=
| Null
| Bool (b : bool)
| Int (n : Z)
| Number
| Str (s : str)
| Array (items : list Json)
| Object (members : list (str * Json)).
Definition JsonObject : Type := list (str * Json).

(** [JsonObject::get], [get_str], [is_present], [keys]. *)
Definition get (o : JsonObject) (name : str) : option Json := assoc name o.
Definition get_str (o : JsonObject) (name : str) : option str :=
  match get o name with Some (Str text) => Some text | _ => None end.
Definition is_present (o : JsonObject) (name : str) : bool :=
  match get o name with None | Some Null => false | _ => true end.
Definition keys (o : JsonObject) : list str := map fst o.

Definition MAX_DEPTH : nat := 8.

(** [i128] and its saturation. *)
Definition i128_min : Z := -(2 ^ 127).
Definition i128_max : Z := 2 ^ 127 - 1.
Definition in_i128 (z : Z) : bool := (i128_min <=? z) && (z <=? i128_max).
(** [integer_from]: [digits.parse::<i128>()], saturated. *)
Definition integer_from (digits : list N) (negative : bool) : Z :=
  let value := Z.of_N (digits_value digits) in
  if in_i128 value then (if negative then - value else value)
  else if negative then i128_min else i128_max.

(** [skip_whitespace], [expect], [literal]. *)
Definition is_space (b : N) : bool := ((b =? 32) || (b =? 9) || (b =? 10) || (b =? 13))%N.
Definition skip_whitespace (bs : list N) : list N := trim_start is_space bs.
Definition expect (byte : N) (bs : list N) : option (list N) :=
  match bs with b :: rest => if (b =? byte)%N then Some rest else None | [] => None end.
Definition literal (word : list N) (value : Json) (bs : list N) : option (Json * list N) :=
  (value,.) <$> strip_prefix bs word.

(** [hex4]: four hexadecimal digits. *)
Definition hex_value (b : N) : option N :=
  (if is_digit b then Some (b - 48)
   else if ((97 <=? b) && (b <=? 102)) then Some (b - 87)
   else if ((65 <=? b) && (b <=? 70)) then Some (b - 55) else None)%N.
Definition hex4 (bs : list N) : option (N * list N) :=
  match bs with
  | a :: b :: c :: d :: rest =>
    a ← hex_value a; b ← hex_value b; c ← hex_value c; d ← hex_value d;
    Some (((a * 16 + b) * 16 + c) * 16 + d, rest)%N
  | _ => None
  end.

(** [unicode_escape]: the UTF-8 bytes of the escaped character, and the rest. *)
Definition unicode_escape (bs : list N) : option (list N * list N) :=
  '(first, bs) ← hex4 bs;
  '(code, bs) ← (if ((55296 <=? first) && (first <=? 56319))%N then
      bs ← expect 92 bs; bs ← expect 117 bs;
      '(second, bs) ← hex4 bs;
      if ((56320 <=? second) && (second <=? 57343))%N
      then Some (65536 + N.shiftl (first - 55296) 10 + (second - 56320), bs)%N else None
    else if ((56320 <=? first) && (first <=? 57343))%N then None
    else Some (first, bs));
  if is_scalar code then Some (utf8_char code, bs) else None.

(** [escape]. *)
Definition escape (bs : list N) : option (list N * list N) :=
  match bs with
  | [] => None
  | byte :: bs =>
    if (byte =? 34)%N then Some ([34%N], bs)
    else if (byte =? 92)%N then Some ([92%N], bs)
    else if (byte =? 47)%N then Some ([47%N], bs)
    else if (byte =? 98)%N then Some ([8%N], bs)
    else if (byte =? 102)%N then Some ([12%N], bs)
    else if (byte =? 110)%N then Some ([10%N], bs)
    else if (byte =? 114)%N then Some ([13%N], bs)
    else if (byte =? 116)%N then Some ([9%N], bs)
    else if (byte =? 117)%N then unicode_escape bs
    else None
  end.

(** [string]: the loop after the opening quote, what was read kept in [out]. *)
Fixpoint string_loop (fuel : nat) (out bs : list N) : option (str * list N) :=
  match fuel, bs with
  | S fuel, byte :: bs =>
    if (byte =? 34)%N then (., bs) <$> utf8_decode out
    else if (byte =? 92)%N then '(more, bs) ← escape bs; string_loop fuel (out ++ more) bs
    else if (byte <=? 31)%N then None
    else string_loop fuel (out ++ [byte]) bs
  | _, _ => None
  end.
Definition string (bs : list N) : option (str * list N) :=
  bs ← expect 34 bs; string_loop (length bs) [] bs.

(** [digits]: at least one. *)
Fixpoint digit_run (bs : list N) : list N * list N :=
  match bs with
  | b :: rest => if is_digit b then let (run, tail) := digit_run rest in (b :: run, tail) else ([], bs)
  | [] => ([], [])
  end.
Definition digits (bs : list N) : option (list N * list N) :=
  let (run, rest) := digit_run bs in if bool_decide (run = []) then None else Some (run, rest).

(** [number]. *)
Definition number (bs : list N) : option (Json * list N) :=
  let '(negative, bs) := match expect 45 bs with Some rest => (true, rest) | None => (false, bs) end in
  '(integer, bs) ← match expect 48 bs with Some rest => Some ([48%N], rest) | None => digits bs end;
  '(has_fraction, bs) ← match expect 46 bs with
    | Some rest => '(_, rest) ← digits rest; Some (true, rest)
    | None => Some (false, bs)
    end;
  '(has_exponent, bs) ← match bs with
    | b :: rest =>
      if ((b =? 101) || (b =? 69))%N then
        let rest := match rest with s :: more => if ((s =? 43) || (s =? 45))%N then more else rest | [] => rest end in
        '(_, rest) ← digits rest; Some (true, rest)
      else Some (false, bs)
    | [] => Some (false, bs)
    end;
  Some (if (has_fraction || has_exponent)%bool then Number else Int (integer_from integer negative), bs).

(** [members.insert(key, value).is_some()]: whether the key was there. *)
Definition repeats (members : JsonObject) (key : str) : bool :=
  match assoc key members with Some _ => true | None => false end.

(** [object] and [array], over the reader of the values in them; the loops over
    members and items take what they have so far, a turn for every byte left. *)
Section containers.
Context (value : nat → list N → option (Json * list N)).

Fixpoint members_loop (turns : nat) (depth : nat) (members : JsonObject) (bs : list N) :
    option (JsonObject * list N) :=
  match turns with
  | O => None
  | S turns =>
    '(key, bs) ← string (skip_whitespace bs);
    bs ← expect 58 (skip_whitespace bs);
    '(v, bs) ← value depth (skip_whitespace bs);
    if repeats members key then None
    else
      let members := members ++ [(key, v)] in
      match skip_whitespace bs with
      | b :: rest =>
        if (b =? 44)%N then members_loop turns depth members rest
        else if (b =? 125)%N then Some (members, rest)
        else None
      | [] => None
      end
  end.
Definition object_ (depth : nat) (bs : list N) : option (JsonObject * list N) :=
  let depth := S depth in
  if (MAX_DEPTH <? depth)%nat then None
  else bs ← expect 123 bs;
       let bs := skip_whitespace bs in
       match expect 125 bs with
       | Some rest => Some ([], rest)
       | None => members_loop (length bs) depth [] bs
       end.

Fixpoint items_loop (turns : nat) (depth : nat) (items : list Json) (bs : list N) : option (Json * list N) :=
  match turns with
  | O => None
  | S turns =>
    '(v, bs) ← value depth (skip_whitespace bs);
    let items := items ++ [v] in
    match skip_whitespace bs with
    | b :: rest =>
      if (b =? 44)%N then items_loop turns depth items rest
      else if (b =? 93)%N then Some (Array items, rest)
      else None
    | [] => None
    end
  end.
Definition array_ (depth : nat) (bs : list N) : option (Json * list N) :=
  let depth := S depth in
  if (MAX_DEPTH <? depth)%nat then None
  else bs ← expect 91 bs;
       let bs := skip_whitespace bs in
       match expect 93 bs with
       | Some rest => Some (Array [], rest)
       | None => items_loop (length bs) depth [] bs
       end.
End containers.

(** [value]: [levels] containers can still be opened, [MAX_DEPTH] of them being
    enough. *)
Fixpoint value (levels : nat) (depth : nat) (bs : list N) : option (Json * list N) :=
  match levels, bs with
  | S levels, b :: _ =>
    if (b =? 123)%N then '(o, rest) ← object_ (value levels) depth bs; Some (Object o, rest)
    else if (b =? 91)%N then array_ (value levels) depth bs
    else if (b =? 34)%N then '(s, rest) ← string bs; Some (Str s, rest)
    else if (b =? 116)%N then literal [116; 114; 117; 101]%N (Bool true) bs
    else if (b =? 102)%N then literal [102; 97; 108; 115; 101]%N (Bool false) bs
    else if (b =? 110)%N then literal [110; 117; 108; 108]%N Null bs
    else if ((b =? 45)%N || is_digit b)%bool then number bs
    else None
  | _, _ => None
  end.

(** [parse_object]. *)
Definition parse_object (bs : list N) : option JsonObject :=
  _ ← utf8_decode bs;
  '(o, rest) ← object_ (value MAX_DEPTH) 0 (skip_whitespace bs);
  if bool_decide (skip_whitespace rest = []) then Some o else None.

Open Scope Z_scope.

Lemma json_ind' (P : Json → Prop) :
  P Null → (∀ b, P (Bool b)) → (∀ n, P (Int n)) → P Number → (∀ s, P (Str s)) →
  (∀ items, Forall P items → P (Array items)) →
  (∀ members, Forall (λ m, P m.2) members → P (Object members)) → ∀ j, P j.
Proof.
  intros H1 H2 H3 H4 H5 H6 H7. fix IH 1. intros [|b|n| |s|items|members]; [done..| |].
  - apply H6. induction items as [|j items IHi]; constructor; [apply IH|done].
  - apply H7. induction members as [|[k j] members IHm]; constructor; [apply IH|done].
Qed.

(** ** Loops end *)

(** What is left is shorter than what there was. *)
Definition consumes {A} (r : option (A * list N)) (bs : list N) : Prop :=
  ∀ a rest, r = Some (a, rest) → (length rest < length bs)%nat.

Lemma expect_some (b : N) (bs rest : list N) : expect b bs = Some rest ↔ bs = b :: rest.
Proof.
  destruct bs as [|x bs]; simpl; [done|]. destruct (N.eqb_spec x b) as [->|]; [|split; [done|by intros [= -> ->]]].
  split; [by intros [= ->]|by intros [= ->]].
Qed.
Lemma skip_whitespace_le (bs : list N) : (length (skip_whitespace bs) ≤ length bs)%nat.
Proof.
  unfold skip_whitespace. induction bs as [|b bs IH]; simpl; [done|]. destruct (is_space b); simpl; lia.
Qed.

Lemma hex4_some (bs rest : list N) (n : N) : hex4 bs = Some (n, rest) → length bs = (4 + length rest)%nat.
Proof.
  unfold hex4. destruct bs as [|a [|b [|c [|d bs]]]]; try done. intros E.
  apply bind_Some in E as (? & _ & E). apply bind_Some in E as (? & _ & E). apply bind_Some in E as (? & _ & E).
  apply bind_Some in E as (? & _ & E). by injection E as _ ->.
Qed.

Lemma unicode_escape_consumes (bs : list N) : consumes (unicode_escape bs) bs.
Proof.
  intros out rest. unfold unicode_escape. intros E. apply bind_Some in E as ([first bs1] & E1 & E).
  apply hex4_some in E1. apply bind_Some in E as ([code bs2] & E2 & E).
  assert (length bs2 ≤ length bs1)%nat as Hl.
  { destruct (_ && _); [|destruct (_ && _); [done|by injection E2 as _ ->]].
    apply bind_Some in E2 as (b1 & ->%expect_some & E2). apply bind_Some in E2 as (b2 & ->%expect_some & E2).
    apply bind_Some in E2 as ([second b3] & E3%hex4_some & E2). destruct (_ && _); [|done].
    injection E2 as _ ->. simpl. lia. }
  destruct (is_scalar code); [|done]. injection E as _ ->. lia.
Qed.

Lemma escape_consumes (bs : list N) : consumes (escape bs) bs.
Proof.
  intros out rest. unfold escape. destruct bs as [|b bs]; [done|]. intros E.
  repeat match type of E with (if ?c then _ else _) = _ => destruct c; [by injection E as _ <-; simpl; lia || idtac|] end;
    try done.
  destruct (b =? 117)%N; [|done]. apply unicode_escape_consumes in E. simpl. lia.
Qed.

Lemma string_loop_enough (fuel : nat) (out bs : list N) :
  (length bs ≤ fuel)%nat → string_loop fuel out bs = string_loop (length bs) out bs.
Proof.
  revert out bs. induction fuel as [fuel IH] using lt_wf_ind. intros out bs Hf.
  destruct bs as [|b bs]; [by destruct fuel|]. destruct fuel as [|fuel]; [simpl in Hf; lia|].
  cbn [string_loop length]. cbn [length] in Hf. destruct (b =? 34)%N; [done|]. destruct (b =? 92)%N.
  - destruct (escape bs) as [[more rest]|] eqn:E; simpl; [|done]. apply escape_consumes in E.
    rewrite (IH fuel) by lia. symmetry. apply (IH (length bs)); lia.
  - destruct (b <=? 31)%N; [done|]. apply IH; lia.
Qed.

Lemma string_loop_consumes (fuel : nat) (out bs : list N) : consumes (string_loop fuel out bs) bs.
Proof.
  revert out bs. induction fuel as [|fuel IH]; intros out bs s rest; [done|]. cbn [string_loop].
  destruct bs as [|b bs]; [done|]. destruct (b =? 34)%N; [|destruct (b =? 92)%N].
  - destruct (utf8_decode out); simpl; [|done]. intros [= _ ->]. simpl. lia.
  - intros E. apply bind_Some in E as ([more bs'] & E1%escape_consumes & E%IH). simpl. lia.
  - destruct (b <=? 31)%N; [done|]. intros E%IH. simpl. lia.
Qed.
Lemma string_consumes (bs : list N) : consumes (string bs) bs.
Proof.
  intros s rest. unfold string. intros E. apply bind_Some in E as (bs' & ->%expect_some & E%string_loop_consumes).
  simpl. lia.
Qed.

Lemma digit_run_le (bs : list N) : (length (digit_run bs).1 + length (digit_run bs).2 = length bs)%nat.
Proof.
  induction bs as [|b bs IH]; simpl; [done|]. destruct (is_digit b); simpl; [|done].
  destruct (digit_run bs) as [run tail]. simpl in *. lia.
Qed.
Lemma digits_consumes (bs : list N) : consumes (digits bs) bs.
Proof.
  intros run rest. unfold digits. pose proof (digit_run_le bs) as Hl. destruct (digit_run bs) as [r t].
  case_bool_decide; [done|]. intros [= -> ->]. destruct run; [done|]. simpl in *. lia.
Qed.

Lemma number_consumes (bs : list N) : consumes (number bs) bs.
Proof.
  intros j rest. unfold number. intros E.
  destruct (match expect 45 bs with Some rest => (true, rest) | None => (false, bs) end) as [neg bs0] eqn:E0.
  assert (length bs0 ≤ length bs)%nat as H0.
  { destruct (expect 45 bs) as [r|] eqn:Ex; injection E0 as <- <-; [|done]. apply expect_some in Ex as ->. simpl. lia. }
  apply bind_Some in E as ([integer bs1] & E1 & E). apply bind_Some in E as ([f bs2] & E2 & E).
  apply bind_Some in E as ([e bs3] & E3 & E). injection E as _ ->.
  assert (length bs1 < length bs0)%nat.
  { destruct (expect 48 bs0) as [r|] eqn:Ex; [|by apply digits_consumes in E1].
    injection E1 as _ ->. apply expect_some in Ex as ->. simpl. lia. }
  assert (length bs2 ≤ length bs1)%nat.
  { destruct (expect 46 bs1) as [r|] eqn:Ex; [|by injection E2 as _ ->].
    apply bind_Some in E2 as ([? r'] & E2%digits_consumes & E4). injection E4 as _ ->.
    apply expect_some in Ex as ->. simpl. lia. }
  assert (length rest ≤ length bs2)%nat; [|lia].
  destruct bs2 as [|b r]; [by injection E3 as _ ->|]. destruct (_ || _); [|by injection E3 as _ ->].
  apply bind_Some in E3 as ([? r'] & E3%digits_consumes & E4). injection E4 as _ ->.
  destruct r as [|s more]; simpl in *; [lia|]. destruct (_ || _); simpl in *; lia.
Qed.

Lemma literal_consumes (word : list N) (j : Json) (bs : list N) : word ≠ [] → consumes (literal word j bs) bs.
Proof.
  intros Hw a rest. unfold literal, strip_prefix. destruct (starts_with bs word) eqn:E; simpl; [|done].
  intros [= _ <-]. apply starts_with_split in E. rewrite E at 2. rewrite length_app. destruct word; [done|]. simpl. lia.
Qed.

Section loops.
Context (val : nat → list N → option (Json * list N)) (Hval : ∀ d bs, consumes (val d bs) bs).

Lemma members_loop_consumes (turns d : nat) (ms : JsonObject) (bs : list N) :
  consumes (members_loop val turns d ms bs) bs.
Proof.
  revert ms bs. induction turns as [|turns IH]; intros ms bs o rest; [done|]. cbn [members_loop]. intros E.
  apply bind_Some in E as ([key bs1] & E1%string_consumes & E). apply bind_Some in E as (bs2 & E2%expect_some & E).
  apply bind_Some in E as ([v bs3] & E3%Hval & E). destruct (repeats ms key); [done|].
  pose proof (skip_whitespace_le bs). pose proof (skip_whitespace_le bs1). pose proof (skip_whitespace_le bs2).
  pose proof (skip_whitespace_le bs3). rewrite E2 in *. destruct (skip_whitespace bs3) as [|b r]; [done|].
  cbn [length] in *. destruct (b =? 44)%N; [apply IH in E; lia|]. destruct (b =? 125)%N; [|done].
  injection E as _ ->. lia.
Qed.
Lemma object_consumes (d : nat) (bs : list N) : consumes (object_ val d bs) bs.
Proof.
  intros o rest. unfold object_. destruct (_ <? _)%nat; [done|]. intros E.
  apply bind_Some in E as (bs1 & ->%expect_some & E). pose proof (skip_whitespace_le bs1). cbn [length].
  destruct (expect 125 (skip_whitespace bs1)) as [r|] eqn:Ex.
  - injection E as _ ->. apply expect_some in Ex. rewrite Ex in *. simpl in *. lia.
  - apply members_loop_consumes in E. lia.
Qed.
Lemma items_loop_consumes (turns d : nat) (items : list Json) (bs : list N) :
  consumes (items_loop val turns d items bs) bs.
Proof.
  revert items bs. induction turns as [|turns IH]; intros items bs o rest; [done|]. cbn [items_loop]. intros E.
  apply bind_Some in E as ([v bs3] & E3%Hval & E).
  pose proof (skip_whitespace_le bs). pose proof (skip_whitespace_le bs3).
  destruct (skip_whitespace bs3) as [|b r]; [done|].
  cbn [length] in *. destruct (b =? 44)%N; [apply IH in E; lia|]. destruct (b =? 93)%N; [|done].
  injection E as _ ->. lia.
Qed.
Lemma array_consumes (d : nat) (bs : list N) : consumes (array_ val d bs) bs.
Proof.
  intros o rest. unfold array_. destruct (_ <? _)%nat; [done|]. intros E.
  apply bind_Some in E as (bs1 & ->%expect_some & E). pose proof (skip_whitespace_le bs1). cbn [length].
  destruct (expect 93 (skip_whitespace bs1)) as [r|] eqn:Ex.
  - injection E as _ ->. apply expect_some in Ex. rewrite Ex in *. simpl in *. lia.
  - apply items_loop_consumes in E. lia.
Qed.

(** A turn for every byte left is enough. *)
Lemma members_loop_enough (turns d : nat) (ms : JsonObject) (bs : list N) :
  (length bs ≤ turns)%nat → members_loop val turns d ms bs = members_loop val (length bs) d ms bs.
Proof.
  revert ms bs. induction turns as [turns IH] using lt_wf_ind. intros ms bs Ht.
  destruct bs as [|b0 bs0]; [destruct turns; done|]. set (bs := b0 :: bs0) in *.
  destruct turns as [|turns]; [simpl in Ht; lia|]. change (length bs) with (S (length bs0)) at 1. cbn [members_loop].
  destruct (string (skip_whitespace bs)) as [[key bs1]|] eqn:E1; simpl; [|done]. apply string_consumes in E1.
  destruct (expect 58 (skip_whitespace bs1)) as [bs2|] eqn:E2; simpl; [|done]. apply expect_some in E2.
  destruct (val d (skip_whitespace bs2)) as [[v bs3]|] eqn:E3; simpl; [|done]. apply Hval in E3.
  destruct (repeats ms key); [done|].
  pose proof (skip_whitespace_le bs). pose proof (skip_whitespace_le bs1). pose proof (skip_whitespace_le bs2).
  pose proof (skip_whitespace_le bs3). rewrite E2 in *. destruct (skip_whitespace bs3) as [|b r]; [done|].
  destruct (b =? 44)%N; [|done]. assert (length bs = S (length bs0)) as Hbs by done. cbn [length] in *.
  rewrite (IH turns) by lia. symmetry. apply IH; lia.
Qed.
Lemma items_loop_enough (turns d : nat) (items : list Json) (bs : list N) :
  (length bs ≤ turns)%nat → items_loop val turns d items bs = items_loop val (length bs) d items bs.
Proof.
  revert items bs. induction turns as [turns IH] using lt_wf_ind. intros items bs Ht.
  destruct bs as [|b0 bs0].
  { destruct turns; [done|]. cbn [items_loop length]. destruct (val d (skip_whitespace [])) as [[v r]|] eqn:E; [|done].
    apply Hval in E. simpl in E. lia. }
  set (bs := b0 :: bs0) in *.
  destruct turns as [|turns]; [simpl in Ht; lia|]. change (length bs) with (S (length bs0)) at 1. cbn [items_loop].
  destruct (val d (skip_whitespace bs)) as [[v bs3]|] eqn:E3; simpl; [|done]. apply Hval in E3.
  pose proof (skip_whitespace_le bs). pose proof (skip_whitespace_le bs3).
  destruct (skip_whitespace bs3) as [|b r]; [done|].
  destruct (b =? 44)%N; [|done]. assert (length bs = S (length bs0)) as Hbs by done. cbn [length] in *.
  rewrite (IH turns) by lia. symmetry. apply IH; lia.
Qed.
End loops.

Lemma value_consumes (levels d : nat) (bs : list N) : consumes (value levels d bs) bs.
Proof.
  revert d bs. induction levels as [|levels IH]; intros d bs j rest; [done|].
  destruct bs as [|b bs]; [done|]. cbn [value]. intros E.
  repeat match type of E with (if ?c then _ else _) = _ => destruct c end; try done.
  - apply bind_Some in E as ([o r] & E%object_consumes & [= _ ->]); [done|apply IH].
  - by apply array_consumes in E; [|apply IH].
  - by apply bind_Some in E as ([s r] & E%string_consumes & [= _ ->]).
  - by apply literal_consumes in E.
  - by apply literal_consumes in E.
  - by apply literal_consumes in E.
  - by apply number_consumes in E.
Qed.

Lemma members_loop_ext (val val' : nat → list N → option (Json * list N)) (turns d : nat) (ms : JsonObject) (bs : list N) :
  (∀ bs, val d bs = val' d bs) → members_loop val turns d ms bs = members_loop val' turns d ms bs.
Proof.
  intros Hv. revert ms bs. induction turns as [|turns IH]; intros ms bs; [done|]. cbn [members_loop].
  destruct (string _) as [[key bs1]|]; simpl; [|done]. destruct (expect _ _) as [bs2|]; simpl; [|done]. rewrite Hv.
  destruct (val' _ _) as [[v bs3]|]; simpl; [|done]. repeat case_match; try done; apply IH.
Qed.
Lemma items_loop_ext (val val' : nat → list N → option (Json * list N)) (turns d : nat) (items : list Json) (bs : list N) :
  (∀ bs, val d bs = val' d bs) → items_loop val turns d items bs = items_loop val' turns d items bs.
Proof.
  intros Hv. revert items bs. induction turns as [|turns IH]; intros items bs; [done|]. cbn [items_loop]. rewrite Hv.
  destruct (val' _ _) as [[v bs3]|]; simpl; [|done]. repeat case_match; try done; apply IH.
Qed.

Lemma object_ext (val val' : nat → list N → option (Json * list N)) (d : nat) (bs : list N) :
  ((S d ≤ MAX_DEPTH)%nat → ∀ bs, val (S d) bs = val' (S d) bs) → object_ val d bs = object_ val' d bs.
Proof.
  intros Hv. unfold object_. destruct (Nat.ltb_spec MAX_DEPTH (S d)); [done|].
  destruct (expect 123 bs); simpl; [|done]. destruct (expect 125 _); [done|]. by apply members_loop_ext, Hv.
Qed.
Lemma array_ext (val val' : nat → list N → option (Json * list N)) (d : nat) (bs : list N) :
  ((S d ≤ MAX_DEPTH)%nat → ∀ bs, val (S d) bs = val' (S d) bs) → array_ val d bs = array_ val' d bs.
Proof.
  intros Hv. unfold array_. destruct (Nat.ltb_spec MAX_DEPTH (S d)); [done|].
  destruct (expect 91 bs); simpl; [|done]. destruct (expect 93 _); [done|]. by apply items_loop_ext, Hv.
Qed.

(** As many levels as containers may still be opened are enough. *)
Lemma value_levels (l l' d : nat) (bs : list N) :
  (d ≤ MAX_DEPTH)%nat → (MAX_DEPTH < d + l)%nat → (MAX_DEPTH < d + l')%nat → value l d bs = value l' d bs.
Proof.
  revert l' d bs. induction l as [|l IH]; intros [|l'] d bs Hd Hl Hl'; [lia..|]. cbn [value].
  destruct bs as [|b bs]; [done|].
  rewrite (object_ext (value l) (value l')), (array_ext (value l) (value l')); [done|..];
    intros; apply IH; lia.
Qed.

(** ** What is accepted *)

(** A value nested below so many containers: integers that are one, texts of
    characters, keys that do not repeat, no more than [MAX_DEPTH] containers. *)
Definition unique_keys (members : JsonObject) : bool := bool_decide (NoDup (keys members)).
Fixpoint strict (depth : nat) (j : Json) : bool :=
  match j with
  | Int n => in_i128 n
  | Str s => wf_str s
  | Array items => (S depth <=? MAX_DEPTH)%nat && forallb (strict (S depth)) items
  | Object members =>
    (S depth <=? MAX_DEPTH)%nat && unique_keys members && forallb (λ m, wf_str m.1 && strict (S depth) m.2) members
  | _ => true
  end.

Lemma integer_from_range (ds : list N) (negative : bool) : in_i128 (integer_from ds negative) = true.
Proof.
  unfold integer_from. destruct (in_i128 (Z.of_N (digits_value ds))) eqn:E; [|by destruct negative].
  destruct negative; [|done]. unfold in_i128, i128_min, i128_max in *.
  rewrite andb_true_iff, !Z.leb_le in *. lia.
Qed.

Lemma utf8_decode_wf (bs : list N) (s : str) : utf8_decode bs = Some s → wf_str s = true.
Proof.
  assert (∀ l c c', scalar_from l c = Some c' → is_scalar c' = true) as Hs.
  { intros l c c'. unfold scalar_from. destruct (_ && _) eqn:E; [|done]. apply andb_true_iff in E as [_ E]. by intros [= <-]. }
  revert s. induction bs as [bs IH] using (induction_ltof1 _ (@length N)). unfold ltof in IH. intros s.
  destruct bs as [|b1 r1]; cbn [utf8_decode]; [by intros [= <-]|].
  destruct (N.ltb_spec b1 128).
  { intros (r & E & ->)%fmap_Some. cbn [wf_str forallb]. unfold is_scalar at 1. rewrite (proj2 (N.ltb_lt b1 55296)) by lia.
    cbn [orb andb]. apply (IH r1); [simpl; lia|done]. }
  assert (∀ l c r, (length r < length (b1 :: r1))%nat →
            (c' ← scalar_from l c; cons c' <$> utf8_decode r) = Some s → wf_str s = true) as Hc.
  { intros l c r Hl (c' & Ec & (t & Et & ->)%fmap_Some)%bind_Some. cbn [wf_str forallb].
    rewrite (Hs l c c' Ec). by apply (IH r). }
  destruct r1 as [|b2 r2]; [done|]. destruct (negb _); [done|]. destruct (_ && _); [intros E; eapply Hc; [|exact E]; simpl; lia|].
  destruct r2 as [|b3 r3]; [done|]. destruct (negb _); [done|]. destruct (_ && _); [intros E; eapply Hc; [|exact E]; simpl; lia|].
  destruct r3 as [|b4 r4]; [done|]. destruct (negb _); [done|]. destruct (_ && _); [intros E; eapply Hc; [|exact E]; simpl; lia|done].
Qed.

Lemma string_wf (bs rest : list N) (s : str) : string bs = Some (s, rest) → wf_str s = true.
Proof.
  unfold string. intros (bs' & _ & E)%bind_Some. revert E. generalize (length bs') as fuel, ([] : list N) as out.
  intros fuel. revert bs'. induction fuel as [|fuel IH]; intros bs' out; [done|]. cbn [string_loop].
  destruct bs' as [|b r]; [done|]. destruct (b =? 34)%N.
  - destruct (utf8_decode out) eqn:E; simpl; [|done]. intros [= <- _]. by eapply utf8_decode_wf.
  - destruct (b =? 92)%N; [intros ([more r'] & _ & E)%bind_Some; by eapply IH|].
    destruct (b <=? 31)%N; [done|apply IH].
Qed.

Lemma unique_keys_snoc (ms : JsonObject) (k : str) (j : Json) :
  unique_keys ms = true → unique_keys (ms ++ [(k, j)]) = negb (repeats ms k).
Proof.
  unfold unique_keys, repeats. intros Hu%bool_decide_eq_true. unfold keys in *. rewrite map_app.
  assert (assoc k ms = None ↔ k ∉ map fst ms) as Ha.
  { clear. induction ms as [|[k' j'] ms IH]; simpl; [split; [intros _; apply not_elem_of_nil|done]|].
    rewrite not_elem_of_cons. case_bool_decide; [split; [done|by intros [? _]]|]. rewrite IH. naive_solver. }
  destruct (assoc k ms) eqn:E; simpl; [apply bool_decide_eq_false|apply bool_decide_eq_true].
  - intros (_ & Hd & _)%list.NoDup_app. assert (k ∉ map fst ms) as Hn; [|by apply Ha in Hn].
    intros Hin. apply (Hd k Hin). simpl. by left.
  - apply list.NoDup_app. split_and!; [done| |apply NoDup_singleton].
    intros x Hx Hk. simpl in Hk. apply list_elem_of_singleton in Hk as ->. by apply Ha.
Qed.

Section sound.
Context (val : nat → list N → option (Json * list N)).
Context (Hval : ∀ d bs j rest, val d bs = Some (j, rest) → strict d j = true).

Lemma members_loop_sound (turns d : nat) (ms o : JsonObject) (bs rest : list N) :
  unique_keys ms && forallb (λ m, wf_str m.1 && strict d m.2) ms = true →
  members_loop val turns d ms bs = Some (o, rest) →
  unique_keys o && forallb (λ m, wf_str m.1 && strict d m.2) o = true.
Proof.
  revert ms bs. induction turns as [|turns IH]; intros ms bs Hms; [done|]. cbn [members_loop]. intros E.
  apply bind_Some in E as ([key bs1] & E1%string_wf & E). apply bind_Some in E as (bs2 & _ & E).
  apply bind_Some in E as ([v bs3] & E3%Hval & E). destruct (repeats ms key) eqn:Er; [done|].
  apply andb_true_iff in Hms as [Hu Hf].
  assert (unique_keys (ms ++ [(key, v)]) && forallb (λ m, wf_str m.1 && strict d m.2) (ms ++ [(key, v)]) = true) as Hms'.
  { rewrite unique_keys_snoc, Er, forallb_app, Hf by done. simpl. by rewrite E1, E3. }
  destruct (skip_whitespace bs3) as [|b r]; [done|]. destruct (b =? 44)%N; [by eapply IH|].
  destruct (b =? 125)%N; [|done]. by injection E as <- _.
Qed.
Lemma items_loop_sound (turns d : nat) (items : list Json) (bs rest : list N) (j : Json) :
  forallb (strict d) items = true → items_loop val turns d items bs = Some (j, rest) →
  ∃ items', j = Array items' ∧ forallb (strict d) items' = true.
Proof.
  revert items bs. induction turns as [|turns IH]; intros items bs Hms; [done|]. cbn [items_loop]. intros E.
  apply bind_Some in E as ([v bs3] & E3%Hval & E).
  assert (forallb (strict d) (items ++ [v]) = true) as Hms'.
  { rewrite forallb_app, Hms. simpl. by rewrite E3. }
  destruct (skip_whitespace bs3) as [|b r]; [done|]. destruct (b =? 44)%N; [by eapply IH|].
  destruct (b =? 93)%N; [|done]. injection E as <- _. by eexists.
Qed.
Lemma object_sound (d : nat) (bs rest : list N) (o : JsonObject) :
  object_ val d bs = Some (o, rest) → strict d (Object o) = true.
Proof.
  unfold object_. destruct (Nat.ltb_spec MAX_DEPTH (S d)); [done|]. intros E.
  apply bind_Some in E as (bs1 & _ & E). cbn [strict]. rewrite (proj2 (Nat.leb_le _ _)) by done. cbn [andb].
  destruct (expect 125 _); [by injection E as <- _|]. eapply members_loop_sound; [|exact E]. reflexivity.
Qed.
Lemma array_sound (d : nat) (bs rest : list N) (j : Json) : array_ val d bs = Some (j, rest) → strict d j = true.
Proof.
  unfold array_. destruct (Nat.ltb_spec MAX_DEPTH (S d)); [done|]. intros E.
  apply bind_Some in E as (bs1 & _ & E).
  destruct (expect 93 _); [injection E as <- _|eapply items_loop_sound in E as (items & -> & Hi); [|done]];
    cbn [strict]; rewrite (proj2 (Nat.leb_le _ _)) by done; done.
Qed.
End sound.

Lemma value_sound (levels d : nat) (bs rest : list N) (j : Json) :
  value levels d bs = Some (j, rest) → strict d j = true.
Proof.
  revert d bs rest j. induction levels as [|levels IH]; intros d bs rest j; [done|].
  destruct bs as [|b bs]; [done|]. cbn [value]. intros E.
  repeat match type of E with (if ?c then _ else _) = _ => destruct c end; try done.
  - apply bind_Some in E as ([o r] & E & [= <- _]). eapply object_sound; [|exact E]. intros; by eapply IH.
  - eapply array_sound; [|exact E]. intros; by eapply IH.
  - apply bind_Some in E as ([s r] & E%string_wf & [= <- _]). done.
  - unfold literal in E. by apply fmap_Some in E as (? & _ & [= -> _]).
  - unfold literal in E. by apply fmap_Some in E as (? & _ & [= -> _]).
  - unfold literal in E. by apply fmap_Some in E as (? & _ & [= -> _]).
  - unfold number in E. destruct (match expect 45 _ with Some _ => _ | None => _ end) as [neg bs0].
    apply bind_Some in E as ([integer bs1] & _ & E). apply bind_Some in E as ([f bs2] & _ & E).
    apply bind_Some in E as ([e bs3] & _ & [= <- _]). destruct (f || e); [done|]. apply integer_from_range.
Qed.

(** Whatever the bytes, an object that is accepted repeats no key at any depth, is
    nested at most [MAX_DEPTH] deep, and its integers fit. *)
Theorem accepted_objects_are_strict (bs : list N) (o : JsonObject) :
  parse_object bs = Some o → strict 0 (Object o) = true.
Proof.
  unfold parse_object. intros (_ & _ & ([o' rest] & E & E')%bind_Some)%bind_Some.
  case_bool_decide; [|done]. injection E' as <-. eapply object_sound; [|exact E]. intros; by eapply value_sound.
Qed.

(** ** What is printed is read *)

(** A text for every value, without spaces; a number that is no integer has one
    text here. *)
Definition hex_low (d : N) : N := if (d <? 10)%N then (48 + d)%N else (87 + d)%N.
Definition quoted (c : char) : list N :=
  (if c =? 34 then [92; 34]
   else if c =? 92 then [92; 92]
   else if c <=? 31 then [92; 117; 48; 48; hex_low (c / 16); hex_low (c mod 16)]
   else utf8_char c)%N.
Definition quote (s : str) : list N := 34%N :: flat_map quoted s ++ [34%N].
Definition commas : list (list N) → list N := join [44%N].
Fixpoint print (j : Json) : list N :=
  match j with
  | Null => [110; 117; 108; 108]%N
  | Bool true => [116; 114; 117; 101]%N
  | Bool false => [102; 97; 108; 115; 101]%N
  | Int n => dec_Z n
  | Number => [48; 46; 48]%N
  | Str s => quote s
  | Array items => 91%N :: commas (map print items) ++ [93%N]
  | Object members => 123%N :: commas (map (λ m, quote m.1 ++ 58%N :: print m.2) members) ++ [125%N]
  end.

(** *** Strings *)
Lemma string_loop_step (out bs : list N) (b : N) :
  string_loop (length (b :: bs)) out (b :: bs) =
  if (b =? 34)%N then (., bs) <$> utf8_decode out
  else if (b =? 92)%N then '(more, rest) ← escape bs; string_loop (length rest) (out ++ more) rest
  else if (b <=? 31)%N then None
  else string_loop (length bs) (out ++ [b]) bs.
Proof.
  cbn [length string_loop]. destruct (b =? 34)%N; [done|]. destruct (b =? 92)%N; [|done].
  destruct (escape bs) as [[more rest]|] eqn:E; simpl; [|done]. apply escape_consumes in E.
  apply string_loop_enough. lia.
Qed.

Lemma string_loop_plain (out l bs : list N) :
  Forall (λ b, (32 ≤ b)%N ∧ b ≠ 34%N ∧ b ≠ 92%N) l →
  string_loop (length (l ++ bs)) out (l ++ bs) = string_loop (length bs) (out ++ l) bs.
Proof.
  intros Hl. revert out. induction Hl as [|b l (H1 & H2 & H3) _ IH]; intros out; [by rewrite app_nil_r|].
  cbn [app]. rewrite string_loop_step. rewrite (proj2 (N.eqb_neq b 34)), (proj2 (N.eqb_neq b 92)) by done.
  rewrite (proj2 (N.leb_gt b 31)) by lia. rewrite IH. by rewrite <- app_assoc.
Qed.

Lemma utf8_char_plain (c : char) :
  (32 ≤ c)%N → c ≠ 34%N → c ≠ 92%N → Forall (λ b, (32 ≤ b)%N ∧ b ≠ 34%N ∧ b ≠ 92%N) (utf8_char c).
Proof.
  intros H1 H2 H3. assert (∀ b, (128 ≤ b)%N → (32 ≤ b)%N ∧ b ≠ 34%N ∧ b ≠ 92%N) as Hb by lia.
  unfold utf8_char. destruct (N.ltb_spec c 128); [by constructor|].
  assert (∀ x, (128 ≤ 128 + x)%N ∧ (128 ≤ 192 + x)%N ∧ (128 ≤ 224 + x)%N ∧ (128 ≤ 240 + x)%N) as Hx by lia.
  destruct (N.ltb_spec c 2048); [|destruct (N.ltb_spec c 65536)];
    repeat (apply List.Forall_cons; [apply Hb, Hx|]); apply List.Forall_nil.
Qed.

Lemma control_escaped (c : char) (rest : list N) :
  (c ≤ 31)%N → escape (117%N :: 48%N :: 48%N :: hex_low (c / 16) :: hex_low (c mod 16) :: rest) = Some ([c], rest).
Proof.
  intros Hc. assert (c ∈ map N.of_nat (seq 0 32)) as Hin.
  { apply list_elem_of_In, in_map_iff. exists (N.to_nat c). rewrite N2Nat.id. split; [done|]. apply in_seq. lia. }
  rewrite list_elem_of_In in Hin. simpl in Hin. by repeat (destruct Hin as [<-|Hin]; [done|]).
Qed.

Lemma string_loop_quoted (p s : str) (rest : list N) :
  wf_str p = true → wf_str s = true →
  string_loop (length (flat_map quoted s ++ 34%N :: rest)) (utf8_encode p) (flat_map quoted s ++ 34%N :: rest) =
  Some (p ++ s, rest).
Proof.
  revert p. induction s as [|c s IH]; intros p Hp Hs.
  - cbn [flat_map app]. rewrite string_loop_step. simpl. rewrite utf8_roundtrip by done. by rewrite app_nil_r.
  - cbn [wf_str forallb] in Hs. apply andb_true_iff in Hs as [Hc Hs]. cbn [flat_map]. rewrite <- app_assoc.
    assert (wf_str (p ++ [c]) = true) as Hp' by (unfold wf_str in *; rewrite forallb_app, Hp; simpl; by rewrite Hc).
    assert (utf8_encode (p ++ [c]) = utf8_encode p ++ utf8_char c) as He.
    { unfold utf8_encode. rewrite flat_map_app. simpl. by rewrite app_nil_r. }
    replace (p ++ c :: s) with ((p ++ [c]) ++ s) by (by rewrite <- app_assoc).
    rewrite <- (IH (p ++ [c]) Hp' Hs), He. unfold quoted at 1 3.
    destruct (N.eqb_spec c 34) as [->|]; [by cbn [app]; rewrite string_loop_step|].
    destruct (N.eqb_spec c 92) as [->|]; [by cbn [app]; rewrite string_loop_step|].
    destruct (N.leb_spec c 31).
    + cbn [app]. rewrite string_loop_step. cbn [N.eqb Pos.eqb]. rewrite control_escaped by done. simpl.
      unfold utf8_char. by rewrite (proj2 (N.ltb_lt c 128)) by lia.
    + apply string_loop_plain, utf8_char_plain; [lia|done..].
Qed.

Lemma string_quote (s : str) (rest : list N) : wf_str s = true → string (quote s ++ rest) = Some (s, rest).
Proof.
  intros Hs. unfold string, quote. cbn [app expect N.eqb Pos.eqb]. simpl. rewrite <- app_assoc. cbn [app].
  exact (string_loop_quoted [] s rest eq_refl Hs).
Qed.

(** *** Integers *)
Definition delimited (rest : list N) : bool :=
  match rest with b :: _ => negb (is_digit b || (b =? 46)%N || (b =? 101)%N || (b =? 69)%N) | [] => true end.

Lemma dec_go_head (fuel : nat) (n : N) (acc : str) :
  (0 < n)%N → (n < 2 ^ N.of_nat fuel)%N → ∃ c r, dec_go (S fuel) n acc = c :: r ∧ (49 ≤ c)%N.
Proof.
  revert n acc. induction fuel as [|fuel IH]; intros n acc Hn Hf; [simpl in Hf; lia|].
  rewrite dec_go_S. destruct (N.ltb_spec n 10); [rewrite N.mod_small by done; eexists _, _; split; [done|lia]|].
  apply IH; [by apply N.div_str_pos; lia|].
  rewrite Nat2N.inj_succ, N.pow_succ_r' in Hf. pose proof (N.le_0_l (2 ^ N.of_nat fuel)).
  apply N.Div0.div_lt_upper_bound. lia.
Qed.
Lemma dec_N_no_zero (n : N) : (0 < n)%N → ∃ c r, dec_N n = c :: r ∧ (49 ≤ c)%N.
Proof.
  intros Hn. unfold dec_N. apply dec_go_head; [done|].
  destruct n as [|p]; [done|]. pose proof (N.size_gt (N.pos p)) as Hp.
  replace (N.of_nat (N.size_nat (N.pos p))) with (N.size (N.pos p)); [done|].
  symmetry. simpl. clear. induction p as [p IH|p IH|]; simpl Pos.size_nat; rewrite ?Nat2N.inj_succ, ?IH; done.
Qed.

Lemma digit_run_app (ds rest : list N) :
  forallb is_digit ds = true → delimited rest = true → digit_run (ds ++ rest) = (ds, rest).
Proof.
  intros Hd Hr. induction ds as [|d ds IH]; simpl in *.
  - destruct rest as [|b r]; [done|]. simpl in *. destruct (is_digit b); [done|done].
  - apply andb_true_iff in Hd as [Hd Hds]. by rewrite Hd, IH.
Qed.

Lemma number_tail (ds rest : list N) (neg : bool) :
  delimited rest = true →
  ('(f, bs) ← match expect 46 rest with Some r => '(_, r) ← digits r; Some (true, r) | None => Some (false, rest) end;
   '(e, bs) ← match bs with
     | b :: r => if ((b =? 101) || (b =? 69))%N then
         let r := match r with s :: more => if ((s =? 43) || (s =? 45))%N then more else r | [] => r end in
         '(_, r) ← digits r; Some (true, r)
       else Some (false, bs)
     | [] => Some (false, bs)
     end;
   Some (if (f || e)%bool then Number else Int (integer_from ds neg), bs)) = Some (Int (integer_from ds neg), rest).
Proof.
  destruct rest as [|b r]; [done|]. unfold delimited. rewrite negb_true_iff, !orb_false_iff. intros (((_ & H1) & H2) & H3).
  cbn [expect]. rewrite H1. simpl. by rewrite H2, H3.
Qed.

Lemma number_print (n : Z) (rest : list N) :
  in_i128 n = true → delimited rest = true → number (dec_Z n ++ rest) = Some (Int n, rest).
Proof.
  intros Hn Hr. assert (∀ m neg, integer_from (dec_N m) neg = n →
    ('(integer, bs) ← match expect 48 (dec_N m ++ rest) with Some r => Some ([48%N], r) | None => digits (dec_N m ++ rest) end;
     '(f, bs) ← match expect 46 bs with Some r => '(_, r) ← digits r; Some (true, r) | None => Some (false, bs) end;
     '(e, bs) ← match bs with
       | b :: r => if ((b =? 101) || (b =? 69))%N then
           let r := match r with s :: more => if ((s =? 43) || (s =? 45))%N then more else r | [] => r end in
           '(_, r) ← digits r; Some (true, r)
         else Some (false, bs)
       | [] => Some (false, bs)
       end;
     Some (if (f || e)%bool then Number else Int (integer_from integer neg), bs)) = Some (Int n, rest)) as Hm.
  { intros m neg Hi. destruct (decide (m = 0)%N) as [->|Hm].
    - change (dec_N 0) with [48%N] in *. cbn [app expect N.eqb Pos.eqb]. simpl. rewrite <- Hi. by apply number_tail.
    - destruct (dec_N_no_zero m ltac:(lia)) as (c & r & Ec & Hc). destruct (dec_N_spec m) as (Hd & _ & Hne).
      assert (expect 48 (dec_N m ++ rest) = None) as ->.
      { rewrite Ec. simpl. by rewrite (proj2 (N.eqb_neq c 48)) by lia. }
      assert (digits (dec_N m ++ rest) = Some (dec_N m, rest)) as ->.
      { unfold digits. rewrite digit_run_app by done. by rewrite bool_decide_false. }
      cbn [mbind option_bind].
      rewrite <- Hi. by apply number_tail. }
  assert (∀ neg, Z.of_N (Z.abs_N n) = (if neg : bool then - n else n) → integer_from (dec_N (Z.abs_N n)) neg = n) as Hi.
  { intros neg E. unfold integer_from. destruct (dec_N_spec (Z.abs_N n)) as (_ & -> & _). rewrite E.
    unfold in_i128, i128_min, i128_max in *. rewrite andb_true_iff, !Z.leb_le in Hn. destruct neg.
    - destruct (Z.leb_spec (-2 ^ 127) (- n)), (Z.leb_spec (- n) (2 ^ 127 - 1)); simpl; lia.
    - rewrite (proj2 (Z.leb_le (-2 ^ 127) n)), (proj2 (Z.leb_le n (2 ^ 127 - 1))) by lia. done. }
  unfold number, dec_Z. destruct (Z.ltb_spec n 0).
  - change ("-" ++ dec_N (Z.abs_N n)) with (45%N :: dec_N (Z.abs_N n)). cbn [app expect N.eqb Pos.eqb].
    apply Hm, Hi. lia.
  - destruct (dec_N_head (Z.abs_N n)) as (c & r & Ec & Hc).
    assert (expect 45 (dec_N (Z.abs_N n) ++ rest) = None) as ->.
    { rewrite Ec. simpl. by rewrite (proj2 (N.eqb_neq c 45)) by lia. }
    apply Hm, Hi. lia.
Qed.

(** *** Values *)

(** What a value needs to have a text at all. *)
Fixpoint leaves_ok (j : Json) : bool :=
  match j with
  | Int n => in_i128 n
  | Str s => wf_str s
  | Array items => forallb leaves_ok items
  | Object members => forallb (λ m, wf_str m.1 && leaves_ok m.2) members
  | _ => true
  end.

Definition opens (bs : list N) : bool :=
  match bs with b :: _ => negb (is_space b || (b =? 93)%N || (b =? 125)%N) | [] => false end.
Lemma opens_skip (bs : list N) : opens bs = true → skip_whitespace bs = bs.
Proof.
  destruct bs as [|b bs]; [done|]. simpl. unfold skip_whitespace. simpl.
  rewrite negb_true_iff, !orb_false_iff. by intros [[-> _] _].
Qed.
Lemma opens_expect (bs : list N) : opens bs = true → expect 93 bs = None ∧ expect 125 bs = None.
Proof.
  destruct bs as [|b bs]; [done|]. simpl. rewrite negb_true_iff, !orb_false_iff. by intros [[_ ->] ->].
Qed.

Lemma integer_text_opens (n : Z) (rest : list N) :
  ∃ b r, dec_Z n ++ rest = b :: r ∧ (b = 45 ∨ is_digit b = true)%N.
Proof.
  unfold dec_Z. destruct (n <? 0); [by eexists _, _; split; [done|left]|].
  destruct (dec_N_spec (Z.abs_N n)) as (Hd & _ & Hne). destruct (dec_N (Z.abs_N n)) as [|c r]; [done|].
  simpl in Hd. apply andb_true_iff in Hd as [Hd _]. exists c, (r ++ rest). by split; [|right].
Qed.
Lemma digit_range (b : N) : is_digit b = true → (48 ≤ b ≤ 57)%N.
Proof. unfold is_digit. rewrite andb_true_iff, !N.leb_le. done. Qed.

Lemma print_opens (j : Json) (rest : list N) : opens (print j ++ rest) = true.
Proof.
  destruct j as [|[]|n| |s|items|members]; try done. cbn [print].
  destruct (integer_text_opens n rest) as (b & r & -> & [->|Hb%digit_range]); [done|]. unfold opens, is_space.
  rewrite negb_true_iff, !orb_false_iff, !N.eqb_neq. lia.
Qed.

(** Items and members as they stand in a text, up to what closes them. *)
Lemma commas_cons (p : list N) (ps : list (list N)) :
  commas (p :: ps) = p ++ match ps with [] => [] | _ => 44%N :: commas ps end.
Proof. destruct ps; [by rewrite app_nil_r|done]. Qed.

Definition reads (l d : nat) (j : Json) : Prop :=
  ∀ rest, delimited rest = true →
  value l d (print j ++ rest) = if strict d j then Some (j, rest) else None.

Lemma items_loop_print (l d turns : nat) (acc items : list Json) (rest : list N) :
  items ≠ [] → Forall (reads l d) items →
  (length (commas (map print items) ++ 93%N :: rest) ≤ turns)%nat →
  items_loop (value l) turns d acc (commas (map print items) ++ 93%N :: rest) =
  if forallb (strict d) items then Some (Array (acc ++ items), rest) else None.
Proof.
  intros Hne Hi. revert turns acc. induction Hi as [|j items Hj Hi IH]; intros turns acc Ht; [done|]. clear Hne.
  cbn [map] in *. rewrite commas_cons, <- !app_assoc in *.
  destruct turns as [|turns].
  { rewrite !length_app in Ht. destruct (map print items); simpl in Ht; lia. }
  cbn [items_loop]. rewrite opens_skip by apply print_opens.
  destruct items as [|j' items]; cbn [map app] in *.
  - rewrite Hj by done. cbn [forallb]. destruct (strict d j); simpl; done.
  - rewrite Hj by done. cbn [forallb]. destruct (strict d j); simpl; [|done].
    rewrite IH; [by rewrite <- app_assoc|done|].
    rewrite !length_app in Ht. simpl in Ht. cbn [map]. lia.
Qed.

Lemma members_loop_print (l d turns : nat) (acc members : JsonObject) (rest : list N) :
  members ≠ [] → Forall (λ m, wf_str m.1 = true ∧ reads l d m.2) members → unique_keys acc = true →
  (length (commas (map (λ m, quote m.1 ++ 58%N :: print m.2) members) ++ 125%N :: rest) ≤ turns)%nat →
  members_loop (value l) turns d acc (commas (map (λ m, quote m.1 ++ 58%N :: print m.2) members) ++ 125%N :: rest) =
  if unique_keys (acc ++ members) && forallb (λ m, strict d m.2) members then Some (acc ++ members, rest) else None.
Proof.
  intros Hne Hi. revert turns acc. induction Hi as [|[k j] members [Hk Hj] Hi IH]; intros turns acc Hu Ht; [done|].
  clear Hne. cbn [map fst snd] in *. rewrite commas_cons, <- !app_assoc in *. cbn [app] in *.
  destruct turns as [|turns].
  { rewrite !length_app in Ht. unfold quote in Ht. simpl in Ht. lia. }
  cbn [members_loop]. rewrite opens_skip by done. rewrite string_quote by done. cbn [mbind option_bind].
  rewrite (opens_skip (58%N :: _)) by done. cbn [expect N.eqb Pos.eqb mbind option_bind].
  rewrite opens_skip by apply print_opens.
  assert (repeats acc k = true → unique_keys (acc ++ (k, j) :: members) = false) as Hrep.
  { intros Hr. pose proof (unique_keys_snoc acc k j Hu) as Hs. rewrite Hr in Hs. simpl in Hs. unfold unique_keys in *.
    rewrite bool_decide_eq_false in *. intros Hd. apply Hs. unfold keys in *. rewrite map_app in *. cbn [map] in *.
    apply list.NoDup_app in Hd as (H1 & H2 & H3). apply list.NoDup_app. split_and!; [done| |apply NoDup_singleton].
    intros x Hx Hx'. apply list_elem_of_singleton in Hx' as ->. apply (H2 _ Hx). by left. }
  destruct members as [|m members]; cbn [map app forallb snd] in *.
  - rewrite Hj by done. destruct (strict d j); simpl; [|by rewrite !andb_false_r].
    destruct (repeats acc k) eqn:Er; [by rewrite Hrep|]. rewrite unique_keys_snoc, Er by done. done.
  - rewrite Hj by done. destruct (strict d j); simpl; [|by rewrite !andb_false_r].
    destruct (repeats acc k) eqn:Er; [by rewrite Hrep|].
    rewrite IH; [by rewrite <- app_assoc|done|by rewrite unique_keys_snoc, Er|].
    match goal with |- (length ?T ≤ _)%nat => set (tail := T) in * end.
    rewrite !length_app in Ht. cbn [length] in Ht. rewrite !length_app in Ht. cbn [length] in Ht. lia.
Qed.

Lemma literal_app (word : list N) (j : Json) (rest : list N) : literal word j (word ++ rest) = Some (j, rest).
Proof. unfold literal, strip_prefix. by rewrite starts_with_app, drop_app_length. Qed.

(** A value's text is read back whole exactly when it is strict. *)
Lemma value_print (j : Json) :
  leaves_ok j = true → ∀ l d, (d ≤ MAX_DEPTH)%nat → (MAX_DEPTH < d + l)%nat → reads l d j.
Proof.
  induction j as [|b|n| |s|items IH|members IH] using json_ind'; intros Hok l d Hd Hl rest Hr;
    (destruct l as [|l]; [lia|]); cbn [print].
  - exact (literal_app [110; 117; 108; 108]%N Null rest).
  - destruct b; [exact (literal_app (print (Bool true)) _ rest)|exact (literal_app (print (Bool false)) _ rest)].
  - destruct (integer_text_opens n rest) as (b & r & E & Hb). pose proof (number_print n rest Hok Hr) as Hn.
    rewrite E in *. cbn [value]. cbn [strict]. simpl in Hok. rewrite Hok.
    destruct Hb as [->|Hb]; [done|]. assert (Hb' := Hb). apply digit_range in Hb'.
    rewrite !(proj2 (N.eqb_neq b _)) by lia. by rewrite Hb, orb_true_r.
  - cbn [strict app value]. change (is_digit 48) with true. cbn [N.eqb Pos.eqb orb].
    unfold number. cbn [expect N.eqb Pos.eqb mbind option_bind]. unfold digits. cbn [digit_run].
    change (is_digit 48) with true. cbn beta iota.
    assert (digit_run rest = ([], rest)) as ->.
    { destruct rest as [|b r]; [done|]. simpl in *. by destruct (is_digit b). }
    cbn beta iota. rewrite bool_decide_false by done. cbn [mbind option_bind]. destruct rest as [|b r]; [done|].
    unfold delimited in Hr. rewrite negb_true_iff, !orb_false_iff in Hr. destruct Hr as (((_ & _) & H2) & H3).
    by rewrite H2, H3.
  - simpl in Hok. pose proof (string_quote s rest Hok) as Hs. cbn [strict]. rewrite Hok.
    unfold quote in *. cbn [app] in *. cbn [value]. cbn [N.eqb Pos.eqb]. by rewrite Hs.
  - cbn [app value N.eqb Pos.eqb]. rewrite <- app_assoc. cbn [app]. unfold array_. cbn [strict].
    rewrite Nat.ltb_antisym. destruct (Nat.leb_spec (S d) MAX_DEPTH) as [Hd'|]; [|done]. cbn [negb andb expect N.eqb Pos.eqb mbind option_bind].
    destruct items as [|j items]; [done|].
    assert (opens (commas (map print (j :: items)) ++ 93%N :: rest) = true) as Ho.
    { cbn [map]. rewrite commas_cons, <- app_assoc. apply print_opens. }
    rewrite opens_skip, (proj1 (opens_expect _ Ho)) by done.
    apply (items_loop_print l (S d) _ [] (j :: items)); [done| |done].
    change (forallb leaves_ok (j :: items) = true) in Hok. rewrite forallb_forall in Hok.
    rewrite list.Forall_forall in IH. apply list.Forall_forall. intros x Hx.
    apply IH; [done|by apply Hok, list_elem_of_In|done|lia].
  - cbn [app value N.eqb Pos.eqb]. rewrite <- app_assoc. cbn [app]. unfold object_. cbn [strict].
    rewrite Nat.ltb_antisym. destruct (Nat.leb_spec (S d) MAX_DEPTH) as [Hd'|]; [|done].
    cbn [negb andb expect N.eqb Pos.eqb mbind option_bind].
    destruct members as [|m members]; [done|].
    assert (opens (commas (map (λ m, quote m.1 ++ 58%N :: print m.2) (m :: members)) ++ 125%N :: rest) = true) as Ho
      by (cbn [map]; by rewrite commas_cons).
    rewrite opens_skip, (proj2 (opens_expect _ Ho)) by done.
    change (forallb (λ m, wf_str m.1 && leaves_ok m.2) (m :: members) = true) in Hok. rewrite forallb_forall in Hok.
    rewrite (members_loop_print l (S d) _ [] (m :: members)); [|done| |done|done].
    + rewrite app_nil_l. assert (∀ x, In x (m :: members) →
        (wf_str x.1 && strict (S d) x.2) = strict (S d) x.2) as Hx.
      { intros x Hx%Hok. apply andb_true_iff in Hx as [-> _]. done. }
      assert (forallb (λ m, wf_str m.1 && strict (S d) m.2) (m :: members) = forallb (λ m, strict (S d) m.2) (m :: members)) as ->.
      { revert Hx. generalize (m :: members). intros ms Hx. induction ms as [|x ms IHm]; [done|]. cbn [forallb].
        rewrite Hx by (by left). f_equal. apply IHm. intros; apply Hx. by right. }
      by destruct (unique_keys _ && _).
    + rewrite list.Forall_forall in IH. apply list.Forall_forall. intros x Hx.
      assert (wf_str x.1 && leaves_ok x.2 = true) as [Hk Hv]%andb_true_iff by (by apply Hok, list_elem_of_In).
      split; [done|]. apply IH; [done..|lia].
Qed.

(** A text of printed values is UTF-8. *)
Definition valid (bs : list N) : Prop := ∃ s, wf_str s = true ∧ bs = utf8_encode s.
Lemma valid_app (a b : list N) : valid a → valid b → valid (a ++ b).
Proof.
  intros (s & Hs & ->) (t & Ht & ->). exists (s ++ t). unfold wf_str in *. rewrite forallb_app, Hs, Ht.
  split; [done|]. unfold utf8_encode. by rewrite flat_map_app.
Qed.
Lemma valid_ascii (bs : list N) : Forall (λ b, (b < 128)%N) bs → valid bs.
Proof.
  intros Hb. exists bs. induction Hb as [|b bs Hb _ [IH1 IH2]]; [done|]. split.
  - cbn [wf_str forallb]. unfold is_scalar. rewrite (proj2 (N.ltb_lt b 55296)) by lia. done.
  - cbn [utf8_encode flat_map]. fold (utf8_encode bs). rewrite <- IH2. unfold utf8_char. by N_bool.
Qed.
Lemma valid_quote (s : str) : wf_str s = true → valid (quote s).
Proof.
  intros Hs. unfold quote. apply (valid_app [34%N]); [by apply valid_ascii; repeat constructor|].
  apply valid_app; [|by apply valid_ascii; repeat constructor].
  induction s as [|c s IH]; [by exists []|]. cbn [wf_str forallb] in Hs. apply andb_true_iff in Hs as [Hc Hs].
  cbn [flat_map]. apply valid_app; [|by apply IH]. unfold quoted.
  destruct (c =? 34)%N; [by apply valid_ascii; repeat constructor|].
  destruct (c =? 92)%N; [by apply valid_ascii; repeat constructor|]. destruct (N.leb_spec c 31) as [Hc'|].
  - apply valid_ascii. assert (c ∈ map N.of_nat (seq 0 32)) as Hin.
    { apply list_elem_of_In, in_map_iff. exists (N.to_nat c). rewrite N2Nat.id. split; [done|]. apply in_seq. lia. }
    rewrite list_elem_of_In in Hin. simpl in Hin. repeat (destruct Hin as [<-|Hin]; [by repeat constructor|]). done.
  - exists [c]. unfold wf_str. simpl. rewrite Hc, app_nil_r. done.
Qed.
Lemma valid_commas (ps : list (list N)) : Forall valid ps → valid (commas ps).
Proof.
  induction 1 as [|p ps Hp _ IH]; [by exists []|]. rewrite commas_cons. apply valid_app; [done|].
  destruct ps; [by exists []|]. apply (valid_app [44%N]); [by apply valid_ascii; repeat constructor|done].
Qed.
Lemma dec_N_ascii (n : N) : Forall (λ b, (b < 128)%N) (dec_N n).
Proof.
  destruct (dec_N_spec n) as (Hd & _ & _). rewrite forallb_forall in Hd. apply list.Forall_forall.
  intros c Hc%list_elem_of_In%Hd%digit_range. lia.
Qed.
Lemma valid_print (j : Json) : leaves_ok j = true → valid (print j).
Proof.
  induction j as [|b|n| |s|items IH|members IH] using json_ind'; intros Hok; cbn [print].
  - by apply valid_ascii; repeat constructor.
  - by destruct b; apply valid_ascii; repeat constructor.
  - unfold dec_Z. destruct (n <? 0); [apply (valid_app [45%N]); [by apply valid_ascii; repeat constructor|]|];
      apply valid_ascii, dec_N_ascii.
  - by apply valid_ascii; repeat constructor.
  - by apply valid_quote.
  - apply (valid_app [91%N]); [by apply valid_ascii; repeat constructor|].
    apply valid_app; [|by apply valid_ascii; repeat constructor]. apply valid_commas.
    simpl in Hok. rewrite forallb_forall in Hok. rewrite list.Forall_forall in IH. apply list.Forall_forall.
    intros p (j & <- & Hj)%list_elem_of_In%in_map_iff. apply IH; [by apply list_elem_of_In|by apply Hok].
  - apply (valid_app [123%N]); [by apply valid_ascii; repeat constructor|].
    apply valid_app; [|by apply valid_ascii; repeat constructor]. apply valid_commas.
    simpl in Hok. rewrite forallb_forall in Hok. rewrite list.Forall_forall in IH. apply list.Forall_forall.
    intros p ([k j] & <- & Hj)%list_elem_of_In%in_map_iff. cbn [fst snd].
    assert (wf_str k && leaves_ok j = true) as [Hk Hv]%andb_true_iff by (by apply (Hok (k, j))).
    apply valid_app; [by apply valid_quote|]. apply (valid_app [58%N]); [by apply valid_ascii; repeat constructor|].
    apply (IH (k, j)); [by apply list_elem_of_In|done].
Qed.

(** C36: the text of an object, whatever its keys and however deep, is read back as
    that object when no key repeats and no more than [MAX_DEPTH] containers are
    open at once, and is refused otherwise, wherever in it the fault lies. *)
Theorem strict_reader_decides (members : JsonObject) :
  leaves_ok (Object members) = true →
  parse_object (print (Object members)) = if strict 0 (Object members) then Some members else None.
Proof.
  intros Hok. destruct (valid_print (Object members) Hok) as (s & Hs & E).
  assert (utf8_decode (print (Object members)) = Some s) as Hd by (rewrite E; by apply utf8_roundtrip).
  unfold parse_object. rewrite Hd. cbn [mbind option_bind].
  pose proof (print_opens (Object members) []) as Ho. rewrite app_nil_r in Ho. rewrite opens_skip by done.
  pose proof (value_print (Object members) Hok (S MAX_DEPTH) 0 ltac:(unfold MAX_DEPTH; lia) ltac:(lia) [] eq_refl) as Hv.
  rewrite app_nil_r in Hv. cbn [print app] in Hv. cbn [value N.eqb Pos.eqb] in Hv. cbn [print app].
  destruct (object_ (value MAX_DEPTH) 0 _) as [[o rest]|]; cbn [mbind option_bind] in Hv |- *.
  - destruct (strict 0 (Object members)); [|done]. by injection Hv as -> ->.
  - destruct (strict 0 (Object members)); [done|]. done.
Qed.

(** ** Witnesses *)
Definition twice : JsonObject := [("a" : str, Int 1); ("b" : str, Object [("c" : str, Null); ("c" : str, Bool true)])].
Lemma strict_reader_decides_witness : parse_object (print (Object twice)) = None.
Proof. rewrite (strict_reader_decides twice); [vm_compute; reflexivity|vm_compute; reflexivity]. Defined.

Lemma accepted_objects_are_strict_witness :
  strict 0 (Object [("iat" : str, Int (-12)); ("roles" : str, Array [Str "editor"])]) = true.
Proof.
  apply (accepted_objects_are_strict
           (print (Object [("iat" : str, Int (-12)); ("roles" : str, Array [Str "editor"])]))).
  vm_compute. reflexivity.
Defined.
