(* ===== verification/Verifier.v ===== *)
(** The verifier of platform sign-in tokens ([src/rust/host/src/platform_signin/]):
    a compact JWS taken apart ([jws.rs]), the issuer's key set and its cache
    ([jwks.rs]), the single-use record of identifiers ([jti.rs]) and the ordered
    checks ([verify.rs]).

    What a shared object keeps behind its lock is passed in and handed back.
    Signature verification ([jsonwebtoken]) and the fetch over the network are
    parameters.  Times are [i64] seconds; the claims' are [i128], as the strict
    reader saturates them. *)
From S2P Require Export StrictJson Crypto.
Open Scope Z_scope.

Definition i64_saturate (z : Z) : Z := Z.max i64_min (Z.min z i64_max).
Definition i128_saturate (z : Z) : Z := Z.max i128_min (Z.min z i128_max).

(** What [jsonwebtoken] does: a key from its [x], a signature over a text. *)
Class Signatures := {
  DecodingKey : Type;
  from_ed_components : str → option DecodingKey;
  crypto_verify : str → list N → DecodingKey → option bool
}.

Section signin.
Context `{H : Sha256} `{B : Base64Url} `{S : Signatures}.

(** ** [jws.rs] *)
Inductive JwsFault := JwsTooLarge | JwsMalformed.
Record CompactJws := { header : JsonObject; claims : JsonObject; signing_input : str; signature_segment : str }.

Definition json_segment (segment : str) : result JwsFault JsonObject :=
  match url_decode segment with
  | Some bs => match parse_object bs with Some o => Ok o | None => Err JwsMalformed end
  | None => Err JwsMalformed
  end.
Definition parse_jws (text : str) (max_bytes : nat) : result JwsFault CompactJws :=
  if (max_bytes <? length (utf8_encode text))%nat then Err JwsTooLarge
  else match split text "." with
  | [h; c; s] =>
    let? ho := json_segment h in
    let? co := json_segment c in
    Ok {| header := ho; claims := co; signing_input := h ++ "." ++ c; signature_segment := s |}
  | _ => Err JwsMalformed
  end.
Definition signature_bytes (jws : CompactJws) : option (list N) := url_decode (signature_segment jws).

(** ** [jwks.rs] *)
Definition DEFAULT_TTL_SECONDS : Z := 300.
Definition DEFAULT_MIN_REFETCH_SECONDS : Z := 30.
Definition MAX_TTL_SECONDS : Z := 3600.
Definition ED25519_PUBLIC_KEY_BYTES : nat := 32.

(** [VerifyingKey]: its canonical [x]. *)
Definition VerifyingKey : Type := str.
Definition from_x (x : str) : option VerifyingKey :=
  raw ← url_decode x; if (length raw =? ED25519_PUBLIC_KEY_BYTES)%nat then Some x else None.
Definition thumbprint (x : str) : str :=
  let q := dquote in
  url_encode (sha256 (utf8_encode
    ("{" ++ q ++ "crv" ++ q ++ ":" ++ q ++ "Ed25519" ++ q ++ "," ++ q ++ "kty" ++ q ++ ":" ++ q ++ "OKP" ++ q ++ "," ++
     q ++ "x" ++ q ++ ":" ++ q ++ x ++ q ++ "}"))).

Inductive KeyRefusal := NotAnObject | NotOkp | NotEd25519 | BadX | CarriesPrivateKey.
(** [ParsedKeys]: the keys by their thumbprint, the last of one thumbprint kept. *)
Record ParsedKeys := { parsed_keys : list (str * VerifyingKey); refused : list KeyRefusal }.
Definition key_from_entry (entry : Json) : result KeyRefusal VerifyingKey :=
  match entry with
  | Object jwk =>
    match get jwk "d" with
    | Some _ => Err CarriesPrivateKey
    | None =>
      if negb (bool_decide (get_str jwk "kty" = Some "OKP")) then Err NotOkp
      else if negb (bool_decide (get_str jwk "crv" = Some "Ed25519")) then Err NotEd25519
      else match x ← get_str jwk "x"; from_x x with Some key => Ok key | None => Err BadX end
    end
  | _ => Err NotAnObject
  end.
(** [HashMap::insert]. *)
Definition keyed {A} (m : list (str * A)) (k : str) (v : A) : list (str * A) :=
  List.filter (λ p, negb (str_eqb p.1 k)) m ++ [(k, v)].
Definition add_entry (parsed : ParsedKeys) (entry : Json) : ParsedKeys :=
  match key_from_entry entry with
  | Ok key => {| parsed_keys := keyed (parsed_keys parsed) (thumbprint key) key; refused := refused parsed |}
  | Err refusal => {| parsed_keys := parsed_keys parsed; refused := refused parsed ++ [refusal] |}
  end.
Definition parse_jwks (body : str) : option ParsedKeys :=
  document ← parse_object (utf8_encode body);
  match get document "keys" with
  | Some (Array entries) => Some (fold_left add_entry entries {| parsed_keys := []; refused := [] |})
  | _ => None
  end.

(** [JwksFetcher]: what the network answers, and what it leaves of the fetcher. *)
Class JwksFetcher (F : Type) := { fetch : F → option str * F; ttl_hint : F → option Z }.

Record CacheState := {
  cached_keys : list (str * VerifyingKey); fetched_at : option Z; attempted_at : option Z; hinted_ttl : option Z
}.
Definition empty_cache : CacheState :=
  {| cached_keys := []; fetched_at := None; attempted_at := None; hinted_ttl := None |}.
(** [JwksCache]: the state behind the lock, and the fetcher. *)
Record JwksCache (F : Type) := { fetcher : F; ttl_seconds : Z; min_refetch_seconds : Z; cache_state : CacheState }.
Arguments fetcher {F}. Arguments ttl_seconds {F}. Arguments min_refetch_seconds {F}. Arguments cache_state {F}.

Section cache.
Context {F : Type} `{JF : JwksFetcher F}.

Definition with_timing (f : F) (ttl min_refetch : Z) : JwksCache F :=
  {| fetcher := f; ttl_seconds := ttl; min_refetch_seconds := min_refetch; cache_state := empty_cache |}.
Definition new_cache (f : F) : JwksCache F := with_timing f DEFAULT_TTL_SECONDS DEFAULT_MIN_REFETCH_SECONDS.

Definition is_stale (c : JwksCache F) (now : Z) : bool :=
  match fetched_at (cache_state c) with
  | None => true
  | Some fetched => default (ttl_seconds c) (hinted_ttl (cache_state c)) <=? i64_saturate (now - fetched)
  end.
(** [hint.clamp(min, max)], which panics for an interval above the cap: a cache is
    made with one of 30 seconds, and the cap is 3600. *)
Definition bounded_hint (c : JwksCache F) : option Z :=
  (λ hint, Z.max (min_refetch_seconds c) (Z.min hint MAX_TTL_SECONDS)) <$> ttl_hint (fetcher c).
Definition has_key (c : JwksCache F) (kid : str) : bool :=
  match assoc kid (cached_keys (cache_state c)) with Some _ => true | None => false end.
Definition refresh_due (c : JwksCache F) (kid : str) (now : Z) : bool :=
  match attempted_at (cache_state c) with
  | None => true
  | Some attempted =>
    (is_stale c now || negb (has_key c kid)) && (min_refetch_seconds c <=? i64_saturate (now - attempted))
  end.
Definition refresh (c : JwksCache F) (now : Z) : JwksCache F :=
  let (answer, f) := fetch (fetcher c) in
  let c' := {| fetcher := f; ttl_seconds := ttl_seconds c; min_refetch_seconds := min_refetch_seconds c;
               cache_state := cache_state c |} in
  let old := cache_state c in
  let state := match body ← answer; parse_jwks body with
    | Some parsed =>
      {| cached_keys := parsed_keys parsed; fetched_at := Some now; attempted_at := Some now; hinted_ttl := bounded_hint c' |}
    | None =>
      {| cached_keys := cached_keys old; fetched_at := fetched_at old; attempted_at := Some now; hinted_ttl := hinted_ttl old |}
    end in
  {| fetcher := f; ttl_seconds := ttl_seconds c; min_refetch_seconds := min_refetch_seconds c; cache_state := state |}.
Definition cache_key_for (c : JwksCache F) (kid : str) (now : Z) : option VerifyingKey * JwksCache F :=
  let c := if refresh_due c kid now then refresh c now else c in
  (if is_stale c now then None else assoc kid (cached_keys (cache_state c)), c).
End cache.

(** [KeySource]. *)
Class KeySource (K : Type) := key_for : K → str → Z → option VerifyingKey * K.
#[export] Instance cache_key_source {F} `{JF : JwksFetcher F} : KeySource (JwksCache F) := cache_key_for.

(** ** [jti.rs] *)
Definition DEFAULT_MAX_ENTRIES : nat := Z.to_nat 100000.
Record JtiStore := { max_entries : nat; seen : list (str * Z) }.
Definition with_capacity (n : nat) : JtiStore := {| max_entries := n; seen := [] |}.
Definition retained (s : JtiStore) (now : Z) : list (str * Z) := List.filter (λ p, now <? p.2) (seen s).
Definition claim (s : JtiStore) (jti : str) (expires_at now : Z) : bool * JtiStore :=
  let kept := retained s now in
  if match assoc jti kept with Some _ => true | None => false end || (max_entries s <=? length kept)%nat
  then (false, {| max_entries := max_entries s; seen := kept |})
  else (true, {| max_entries := max_entries s; seen := kept ++ [(jti, expires_at)] |}).
Definition jti_len (s : JtiStore) (now : Z) : nat := length (retained s now).
End signin.
Arguments fetcher {F}. Arguments ttl_seconds {F}. Arguments min_refetch_seconds {F}. Arguments cache_state {F}.

Open Scope Z_scope.

(** [PlatformSigninConfig]. *)
Record PlatformSigninConfig := {
  issuer_url : str; jwks_url : str; site_id : str; environment : str;
  skew_seconds : Z; max_lifetime_seconds : Z; max_token_bytes : nat
}.

Definition ALGORITHM : str := "EdDSA".
Definition TOKEN_TYPE : str := "JWT".
Definition REQUIRED_CLAIMS : list str :=
  ["iss"; "aud"; "env"; "sub"; "email"; "email_verified"; "nonce"; "iat"; "nbf"; "exp"; "jti"].

(** [Reason], [Reason::ALL], [code], [from_code]. *)
Inductive Reason :=
| MissingCookie | StateMismatch | TooLarge | Malformed | BadAlg | UnknownKid | BadSignature | BadIss | BadAud | BadEnv
| MissingClaim | NotYetValid | Expired | Lifetime | NonceMismatch | Replay | EmailUnverified | SubjectMismatch.
#[global] Instance reason_eq_dec : EqDecision Reason.
Proof. solve_decision. Defined.
Definition ALL : list Reason :=
  [MissingCookie; StateMismatch; TooLarge; Malformed; BadAlg; UnknownKid; BadSignature; BadIss; BadAud; BadEnv;
   MissingClaim; NotYetValid; Expired; Lifetime; NonceMismatch; Replay; EmailUnverified; SubjectMismatch].
Definition code (r : Reason) : str :=
  match r with
  | MissingCookie => "missing_cookie" | StateMismatch => "state_mismatch" | TooLarge => "too_large"
  | Malformed => "malformed" | BadAlg => "bad_alg" | UnknownKid => "unknown_kid" | BadSignature => "bad_signature"
  | BadIss => "bad_iss" | BadAud => "bad_aud" | BadEnv => "bad_env" | MissingClaim => "missing_claim"
  | NotYetValid => "not_yet_valid" | Expired => "expired" | Lifetime => "lifetime"
  | NonceMismatch => "nonce_mismatch" | Replay => "replay" | EmailUnverified => "email_unverified"
  | SubjectMismatch => "subject_mismatch"
  end.
Definition from_code (c : str) : option Reason := find (λ r, str_eqb (code r) c) ALL.

(** [SigninCookie], [SigninRequest], [VerifiedClaims]. *)
Record SigninCookie := { nonce : str; cookie_state : str }.
Record SigninRequest := { request_token : option str; request_state : option str; request_cookie : option SigninCookie }.
Record VerifiedClaims := {
  issuer : str; audience : str; claimed_environment : str; subject : str; email : str;
  idp_issuer : option str; idp_subject : option str; roles : list str; claimed_nonce : str;
  issued_at : Z; not_before : Z; expires_at : Z; all_claims : JsonObject
}.

Section verifier.
Context `{U : UnicodeTables} `{H : Sha256} `{B : Base64Url} `{S : Signatures} {K : Type} `{KS : KeySource K}.

(** [Verifier]. *)
Record Verifier := {
  config : PlatformSigninConfig; key_source : K; jti_store : JtiStore; compare : str → str → bool
}.
Definition new_verifier (c : PlatformSigninConfig) (k : K) (j : JtiStore) : Verifier :=
  {| config := c; key_source := k; jti_store := j; compare := secure_compare |}.
Definition with_keys (v : Verifier) (k : K) : Verifier :=
  {| config := config v; key_source := k; jti_store := jti_store v; compare := compare v |}.
Definition with_jti (v : Verifier) (j : JtiStore) : Verifier :=
  {| config := config v; key_source := key_source v; jti_store := j; compare := compare v |}.

(** [integer], [clamp]. *)
Definition integer (cs : JsonObject) (name : str) : option Z :=
  match get cs name with Some (Int n) => Some n | _ => None end.
Definition clamp (value : Z) : Z := if in_i64 value then value else if value <? 0 then i64_min else i64_max.

(** [check_cookie_and_state]. *)
Definition non_empty (s : str) : bool := negb (bool_decide (s = [])).
Definition check_cookie_and_state (v : Verifier) (r : SigninRequest) : result Reason SigninCookie :=
  let? cookie := ok_or (c ← request_cookie r; if non_empty (nonce c) && non_empty (cookie_state c) then Some c else None)
                   MissingCookie in
  let? state := ok_or (s ← request_state r; if non_empty s then Some s else None) StateMismatch in
  if compare v state (cookie_state cookie) then Ok cookie else Err StateMismatch.

(** [parse_token]. *)
Definition parse_token (token : option str) (max_bytes : nat) : result Reason CompactJws :=
  let? token := ok_or token Malformed in
  match parse_jws token max_bytes with
  | Ok jws => Ok jws
  | Err JwsTooLarge => Err TooLarge
  | Err JwsMalformed => Err Malformed
  end.

(** [signature_verifies]. *)
Definition signature_verifies (key : VerifyingKey) (jws : CompactJws) : bool :=
  match from_ed_components key with
  | None => false
  | Some decoding_key =>
    default false (crypto_verify (signature_segment jws) (utf8_encode (signing_input jws)) decoding_key)
  end.

(** [check_signature]: the key source may have fetched, whatever the verdict. *)
Definition check_signature (v : Verifier) (jws : CompactJws) (now : Z) : result Reason unit * Verifier :=
  if negb (bool_decide (get_str (header jws) "alg" = Some ALGORITHM)) then (Err BadAlg, v)
  else if negb (bool_decide (get_str (header jws) "typ" = Some TOKEN_TYPE)) then (Err Malformed, v)
  else match signature_bytes jws with
  | None => (Err Malformed, v)
  | Some _ =>
    match get_str (header jws) "kid" with
    | None => (Err UnknownKid, v)
    | Some kid =>
      let (found, k) := key_for (key_source v) kid now in
      let v := with_keys v k in
      match found with
      | None => (Err UnknownKid, v)
      | Some key => (if signature_verifies key jws then Ok () else Err BadSignature, v)
      end
    end
  end.

(** [check_pinned_claims]. *)
Definition check_pinned_claims (v : Verifier) (cs : JsonObject) : result Reason unit :=
  if existsb (λ name, negb (is_present cs name)) REQUIRED_CLAIMS then Err MissingClaim
  else if negb (bool_decide (get_str cs "iss" = Some (issuer_url (config v)))) then Err BadIss
  else if negb (bool_decide (get_str cs "aud" = Some (site_id (config v)))) then Err BadAud
  else if negb (bool_decide (get_str cs "env" = Some (environment (config v)))) then Err BadEnv
  else Ok ().

(** [check_times]. *)
Definition check_times (v : Verifier) (cs : JsonObject) (now : Z) : result Reason unit :=
  match integer cs "iat", integer cs "nbf", integer cs "exp" with
  | Some iat, Some nbf, Some exp =>
    let skew := skew_seconds (config v) in
    if i128_saturate (now + skew) <? nbf then Err NotYetValid
    else if exp <=? i128_saturate (now - skew) then Err Expired
    else
      let lifetime := i128_saturate (exp - iat) in
      if (1 <=? lifetime) && (lifetime <=? max_lifetime_seconds (config v)) then Ok () else Err Lifetime
  | _, _, _ => Err Malformed
  end.

(** [check_nonce]. *)
Definition check_nonce (v : Verifier) (cs : JsonObject) (cookie : SigninCookie) : result Reason unit :=
  match get_str cs "nonce" with
  | Some n => if compare v n (nonce cookie) then Ok () else Err NonceMismatch
  | None => Err NonceMismatch
  end.

(** [spend_jti]. *)
Definition remembered_until (v : Verifier) (cs : JsonObject) : Z :=
  clamp (i128_saturate (default 0 (integer cs "exp") + skew_seconds (config v))).
Definition spend_jti (v : Verifier) (cs : JsonObject) (now : Z) : result Reason unit * Verifier :=
  match j ← get_str cs "jti"; if non_empty j then Some j else None with
  | None => (Err Replay, v)
  | Some jti =>
    let (first_time, store) := claim (jti_store v) jti (remembered_until v cs) now in
    (if first_time then Ok () else Err Replay, with_jti v store)
  end.

(** [check_identity]. *)
Definition check_identity (cs : JsonObject) : result Reason unit :=
  match get cs "email_verified" with
  | Some (Bool true) =>
    match get_str cs "email", get_str cs "sub" with
    | Some e, Some s => if str_eqb s (to_lowercase e) then Ok () else Err SubjectMismatch
    | _, _ => Err Malformed
    end
  | _ => Err EmailUnverified
  end.

(** [accepted], [role_names]. *)
Definition role_names (cs : JsonObject) : list str :=
  match get cs "roles" with
  | Some (Array items) => omap (λ item, match item with Str role => Some role | _ => None end) items
  | _ => []
  end.
Definition accepted (cs : JsonObject) : VerifiedClaims :=
  let text name := default [] (get_str cs name) in
  let time name := clamp (default 0 (integer cs name)) in
  {| issuer := text "iss"; audience := text "aud"; claimed_environment := text "env"; subject := text "sub";
     email := to_lowercase (text "email"); idp_issuer := get_str cs "idp_iss"; idp_subject := get_str cs "idp_sub";
     roles := role_names cs; claimed_nonce := text "nonce"; issued_at := time "iat"; not_before := time "nbf";
     expires_at := time "exp"; all_claims := cs |}.

(** [run_checks]: the verdict, and what the checks that ran left of the verifier. *)
Definition run_checks (v : Verifier) (r : SigninRequest) (now : Z) : result Reason VerifiedClaims * Verifier :=
  match check_cookie_and_state v r with
  | Err reason => (Err reason, v)
  | Ok cookie =>
    match parse_token (request_token r) (max_token_bytes (config v)) with
    | Err reason => (Err reason, v)
    | Ok jws =>
      match check_signature v jws now with
      | (Err reason, v) => (Err reason, v)
      | (Ok _, v) =>
        let cs := claims jws in
        match check_pinned_claims v cs ;;? check_times v cs now ;;? check_nonce v cs cookie with
        | Err reason => (Err reason, v)
        | Ok _ =>
          match spend_jti v cs now with
          | (Err reason, v) => (Err reason, v)
          | (Ok _, v) => (check_identity cs ;;? Ok (accepted cs), v)
          end
        end
      end
    end
  end.
(** [verify]: a [Refusal] carries the reason alone. *)
Definition verify (v : Verifier) (r : SigninRequest) (now : Z) : result Reason VerifiedClaims * Verifier :=
  run_checks v r now.
End verifier.
Arguments Verifier : clear implicits.
