(* ===== verification/VerifierFacts.v ===== *)
(** What the sign-in verifier of [Verifier.v] promises: an accepted token passed
    every check, an identifier is spent by nothing less, no token is accepted twice,
    the record of identifiers is bounded, keys are served under their own
    thumbprint while they are fresh, and the issuer is asked for them politely. *)
From stdpp Require Import sorting.
From S2P Require Export Verifier StrictJson.
Open Scope Z_scope.

(** ** The record of spent identifiers *)
Section jti.
Lemma retained_in (s : JtiStore) (now : Z) (p : str * Z) : In p (retained s now) ↔ In p (seen s) ∧ now < p.2.
Proof. unfold retained. by rewrite filter_In, Z.ltb_lt. Qed.

Lemma assoc_none {A} (k : str) (l : list (str * A)) : assoc k l = None ↔ ∀ v, ¬ In (k, v) l.
Proof.
  induction l as [|[k' v'] l IH]; simpl; [by split; [intros _ v []|]|]. case_bool_decide as E.
  - subst k'. split; [done|]. intros Hn. exfalso. apply (Hn v'). by left.
  - rewrite IH. split; [intros Hn v [[= -> ->]|Hin]; [done|by apply (Hn v)]|intros Hn v Hin; apply (Hn v); by right].
Qed.
Lemma assoc_some_in {A} (k : str) (l : list (str * A)) (v : A) : assoc k l = Some v → In (k, v) l.
Proof.
  induction l as [|[k' v'] l IH]; simpl; [done|]. case_bool_decide as E; [intros [= ->]; subst; by left|by right; apply IH].
Qed.

Lemma claim_cases (s s' : JtiStore) (jti : str) (expires now : Z) (won : bool) :
  claim s jti expires now = (won, s') →
  max_entries s' = max_entries s ∧
  seen s' = retained s now ++ (if won then [(jti, expires)] else []) ∧
  (won = true ↔ (∀ e, ¬ In (jti, e) (retained s now)) ∧ (length (retained s now) < max_entries s)%nat).
Proof.
  unfold claim. pose proof (assoc_none jti (retained s now)) as Ha.
  destruct (assoc jti (retained s now)) as [e|] eqn:E; cbn [orb].
  - intros [= <- <-]. simpl. rewrite app_nil_r. split_and!; [done..|].
    split; [done|]. intros [Hn _]. by apply Ha in Hn.
  - destruct (Nat.leb_spec (max_entries s) (length (retained s now))); intros [= <- <-]; simpl; rewrite ?app_nil_r.
    + split_and!; [done..|]. split; [done|lia].
    + split_and!; [done..|]. split; [intros _; split; [by apply Ha|done]|done].
Qed.

(** An identifier still remembered is kept, and not given again. *)
Lemma claim_remembers (s s' : JtiStore) (jti k : str) (expires now x : Z) (won : bool) :
  claim s jti expires now = (won, s') → In (k, x) (seen s) → now < x →
  In (k, x) (seen s') ∧ (k = jti → won = false).
Proof.
  intros (_ & Hs & Hw)%claim_cases Hin Hx. assert (In (k, x) (retained s now)) as Hr by (by apply retained_in).
  split; [rewrite Hs; apply in_or_app; by left|]. intros ->. destruct won; [|done].
  destruct (proj1 Hw eq_refl) as [Hn _]. by apply Hn in Hr.
Qed.

Lemma claim_bounded (s s' : JtiStore) (jti : str) (expires now : Z) (won : bool) :
  claim s jti expires now = (won, s') → (length (seen s) ≤ max_entries s)%nat → (length (seen s') ≤ max_entries s')%nat.
Proof.
  intros (Hm & Hs & Hw)%claim_cases Hl. rewrite Hs, Hm, length_app.
  assert (length (retained s now) ≤ length (seen s))%nat by apply filter_length_le.
  destruct won; simpl; [|lia]. destruct (proj1 Hw eq_refl). lia.
Qed.
End jti.

(** ** The ordered checks *)
Section checks.
Context `{U : UnicodeTables} `{H : Sha256} `{B : Base64Url} `{S : Signatures} {K : Type} `{KS : KeySource K}.
Implicit Types v : Verifier K.

(** A verifier's settings and comparison are never changed. *)
Definition same_settings v v' : Prop := config v' = config v ∧ compare v' = compare v.

Lemma check_signature_kept v v' jws now res :
  check_signature v jws now = (res, v') → same_settings v v' ∧ jti_store v' = jti_store v.
Proof.
  unfold check_signature, same_settings. intros E.
  repeat match type of E with (if ?c then _ else _) = _ => destruct c; [by injection E as _ <-|] end.
  destruct (signature_bytes jws); [|by injection E as _ <-].
  destruct (get_str (header jws) "kid") as [kid|]; [|by injection E as _ <-].
  destruct (key_for (key_source v) kid now) as [[key|] k]; by injection E as _ <-.
Qed.

Lemma check_signature_ok v v' jws now :
  check_signature v jws now = (Ok (), v') →
  get_str (header jws) "alg" = Some ALGORITHM ∧ get_str (header jws) "typ" = Some TOKEN_TYPE ∧
  ∃ kid key k, get_str (header jws) "kid" = Some kid ∧ key_for (key_source v) kid now = (Some key, k) ∧
               signature_verifies key jws = true.
Proof.
  unfold check_signature. do 2 (case_bool_decide; [cbn [negb]|done]).
  destruct (signature_bytes jws); [|done]. destruct (get_str (header jws) "kid") as [kid|] eqn:Ek; [|done].
  destruct (key_for (key_source v) kid now) as [[key|] k] eqn:Ef; [|done].
  destruct (signature_verifies key jws) eqn:Es; [|done]. intros _. split_and!; [done..|]. by exists kid, key, k.
Qed.

(** What every check before the identifier asks, of one request. *)
Record passed v (r : SigninRequest) (now : Z) (cookie : SigninCookie) (jws : CompactJws) v' : Prop := {
  passed_state : check_cookie_and_state v r = Ok cookie;
  passed_parse : parse_token (request_token r) (max_token_bytes (config v)) = Ok jws;
  passed_signature : check_signature v jws now = (Ok (), v');
  passed_pinned : check_pinned_claims v (claims jws) = Ok ();
  passed_times : check_times v (claims jws) now = Ok ();
  passed_nonce : check_nonce v (claims jws) cookie = Ok ()
}.

(** A run ends before the identifier with the record untouched, or reaches it. *)
Lemma checks_cases v r now res v' :
  run_checks v r now = (res, v') →
  (∃ reason, res = Err reason ∧ jti_store v' = jti_store v ∧ same_settings v v') ∨
  (∃ cookie jws v1 spent, passed v r now cookie jws v1 ∧ same_settings v v1 ∧ jti_store v1 = jti_store v ∧
     spend_jti v1 (claims jws) now = (spent, v') ∧
     res = (spent ;;? check_identity (claims jws) ;;? Ok (accepted (claims jws)))).
Proof.
  unfold run_checks. destruct (check_cookie_and_state v r) as [cookie|e] eqn:E1.
  2: { intros [= <- <-]. left. by eexists. }
  destruct (parse_token _ _) as [jws|e] eqn:E2; [|intros [= <- <-]; left; by eexists].
  destruct (check_signature v jws now) as [[[]|e] v1] eqn:E3; destruct (check_signature_kept _ _ _ _ _ E3) as [Hs Hj].
  2: { intros [= <- <-]. left. by eexists. }
  assert (∀ cs, check_pinned_claims v1 cs = check_pinned_claims v cs) as Hp.
  { intros cs. unfold check_pinned_claims. by rewrite (proj1 Hs). }
  assert (∀ cs, check_times v1 cs now = check_times v cs now) as Ht.
  { intros cs. unfold check_times. by rewrite (proj1 Hs). }
  assert (∀ cs, check_nonce v1 cs cookie = check_nonce v cs cookie) as Hn.
  { intros cs. unfold check_nonce. by rewrite (proj2 Hs). }
  rewrite Hp, Ht, Hn. destruct (check_pinned_claims v (claims jws)) as [[]|e] eqn:E4; [|intros [= <- <-]; left; by eexists].
  destruct (check_times v (claims jws) now) as [[]|e] eqn:E5; [|intros [= <- <-]; left; by eexists].
  destruct (check_nonce v (claims jws) cookie) as [[]|e] eqn:E6; [|intros [= <- <-]; left; by eexists].
  destruct (spend_jti v1 (claims jws) now) as [spent v2] eqn:E7. intros Hr. right.
  exists cookie, jws, v1, spent. split; [by constructor|]. split; [done|]. split; [done|].
  destruct spent as [[]|e]; injection Hr as <- <-; done.
Qed.

Lemma check_state_ok v r cookie :
  check_cookie_and_state v r = Ok cookie →
  request_cookie r = Some cookie ∧ nonce cookie ≠ [] ∧ cookie_state cookie ≠ [] ∧
  ∃ state, request_state r = Some state ∧ state ≠ [] ∧ compare v state (cookie_state cookie) = true.
Proof.
  unfold check_cookie_and_state, ok_or. destruct (request_cookie r) as [c|]; simpl; [|done].
  destruct (non_empty (nonce c) && non_empty (cookie_state c)) eqn:Ec; simpl; [|done].
  destruct (request_state r) as [s|]; simpl; [|done]. destruct (non_empty s) eqn:Es; simpl; [|done].
  destruct (compare v s (cookie_state c)) eqn:Ev; [|done]. intros [= <-].
  unfold non_empty in *. rewrite andb_true_iff, !negb_true_iff, !bool_decide_eq_false in *. destruct Ec.
  split_and!; [done..|]. by exists s.
Qed.

Lemma check_pinned_ok v cs :
  check_pinned_claims v cs = Ok () →
  Forall (λ name, is_present cs name = true) REQUIRED_CLAIMS ∧ get_str cs "iss" = Some (issuer_url (config v)) ∧
  get_str cs "aud" = Some (site_id (config v)) ∧ get_str cs "env" = Some (environment (config v)).
Proof.
  unfold check_pinned_claims. destruct (existsb _ _) eqn:E; [done|].
  do 3 (case_bool_decide; [cbn [negb]|done]). intros _. split_and!; [|done..].
  apply list.Forall_forall. intros name Hn. destruct (is_present cs name) eqn:Ep; [done|].
  rewrite (proj2 (existsb_exists _ _)) in E; [done|]. exists name. split; [by apply list_elem_of_In|by rewrite Ep].
Qed.

(** Clocks and skews are [i64]: next to them the claims' [i128] does not saturate. *)
Definition clock_ok v (now : Z) : Prop := in_i64 now = true ∧ in_i64 (skew_seconds (config v)) = true.
Lemma i128_exact (a b : Z) : in_i64 a = true → in_i64 b = true → i128_saturate (a + b) = a + b ∧ i128_saturate (a - b) = a - b.
Proof.
  unfold in_i64, i128_saturate, i128_min, i128_max, i64_min, i64_max. rewrite !andb_true_iff, !Z.leb_le. lia.
Qed.

Lemma check_times_ok v cs now :
  clock_ok v now → check_times v cs now = Ok () →
  ∃ iat nbf exp, integer cs "iat" = Some iat ∧ integer cs "nbf" = Some nbf ∧ integer cs "exp" = Some exp ∧
    nbf <= now + skew_seconds (config v) ∧ now - skew_seconds (config v) < exp ∧
    1 <= i128_saturate (exp - iat) <= max_lifetime_seconds (config v).
Proof.
  intros [Hn Hs]. unfold check_times. destruct (i128_exact now (skew_seconds (config v)) Hn Hs) as [-> ->].
  destruct (integer cs "iat") as [iat|]; [|done]. destruct (integer cs "nbf") as [nbf|]; [|done].
  destruct (integer cs "exp") as [exp|]; [|done].
  destruct (Z.ltb_spec (now + skew_seconds (config v)) nbf); [done|].
  destruct (Z.leb_spec exp (now - skew_seconds (config v))); [done|].
  destruct (Z.leb_spec 1 (i128_saturate (exp - iat))), (Z.leb_spec (i128_saturate (exp - iat)) (max_lifetime_seconds (config v)));
    try done. intros _. by exists iat, nbf, exp.
Qed.

Lemma check_identity_ok cs :
  check_identity cs = Ok () →
  get cs "email_verified" = Some (Bool true) ∧
  ∃ e, get_str cs "email" = Some e ∧ get_str cs "sub" = Some (to_lowercase e).
Proof.
  unfold check_identity. destruct (get cs "email_verified") as [[|[]| | | | |]|]; try done.
  destruct (get_str cs "email") as [e|]; [|done]. destruct (get_str cs "sub") as [s|]; [|done].
  unfold str_eqb. case_bool_decide; [|done]. subst s. intros _. split; [done|]. by exists e.
Qed.

Lemma spend_jti_ok v v' cs now :
  spend_jti v cs now = (Ok (), v') →
  ∃ jti, get_str cs "jti" = Some jti ∧ jti ≠ [] ∧
    claim (jti_store v) jti (remembered_until v cs) now = (true, jti_store v') ∧ same_settings v v'.
Proof.
  unfold spend_jti. destruct (get_str cs "jti") as [jti|]; simpl; [|done]. destruct (non_empty jti) eqn:En; [|done].
  destruct (claim _ _ _ _) as [[] store] eqn:Ec; [|done]. intros [= <-]. exists jti.
  unfold non_empty in En. rewrite negb_true_iff, bool_decide_eq_false in En. done.
Qed.

Lemma run_ok v r now cs v' :
  run_checks v r now = (Ok cs, v') →
  ∃ cookie jws v1, passed v r now cookie jws v1 ∧ same_settings v v1 ∧ jti_store v1 = jti_store v ∧
    spend_jti v1 (claims jws) now = (Ok (), v') ∧ check_identity (claims jws) = Ok () ∧ cs = accepted (claims jws).
Proof.
  intros [(e & Hr & _)|(cookie & jws & v1 & spent & Hp & Hs & Hj & Hspend & Hr)]%checks_cases; [done|].
  exists cookie, jws, v1. destruct spent as [[]|]; [|done]. destruct (check_identity (claims jws)) as [[]|]; [|done].
  by injection Hr as ->.
Qed.

(** C35: whoever holds an accepted token: the browser sent the cookie this site set, the
    state and the nonce are the ones in it; the token is signed with EdDSA by the key
    its header names, for exactly this issuer, this site and this environment; it is
    in its window of time and was never meant to live longer than allowed; and the
    identity is a verified email, its subject that email in lowercase. *)
Theorem accepted_tokens_passed_every_check v r now cs v' :
  clock_ok v now → verify v r now = (Ok cs, v') →
  ∃ cookie state text jws kid key k,
    request_cookie r = Some cookie ∧ request_state r = Some state ∧ compare v state (cookie_state cookie) = true ∧
    request_token r = Some text ∧ parse_jws text (max_token_bytes (config v)) = Ok jws ∧
    get_str (header jws) "alg" = Some ALGORITHM ∧ get_str (header jws) "typ" = Some TOKEN_TYPE ∧
    get_str (header jws) "kid" = Some kid ∧ key_for (key_source v) kid now = (Some key, k) ∧
    signature_verifies key jws = true ∧
    issuer cs = issuer_url (config v) ∧ audience cs = site_id (config v) ∧ claimed_environment cs = environment (config v) ∧
    compare v (claimed_nonce cs) (nonce cookie) = true ∧
    (∃ iat nbf exp, integer (claims jws) "iat" = Some iat ∧ integer (claims jws) "nbf" = Some nbf ∧
       integer (claims jws) "exp" = Some exp ∧ nbf <= now + skew_seconds (config v) ∧
       now - skew_seconds (config v) < exp ∧ 1 <= i128_saturate (exp - iat) <= max_lifetime_seconds (config v)) ∧
    get (claims jws) "email_verified" = Some (Bool true) ∧ subject cs = email cs ∧ all_claims cs = claims jws.
Proof.
  intros Hc (cookie & jws & v1 & Hp & Hs & Hj & Hspend & Hid & ->)%run_ok.
  destruct Hp as [P1 P2 P3 P4 P5 P6].
  apply check_state_ok in P1 as (C1 & C2 & C3 & state & C4 & C5 & C6).
  unfold parse_token, ok_or in P2. destruct (request_token r) as [text|] eqn:Et; [|done].
  destruct (parse_jws text _) as [jws'|[]] eqn:Ej; try done. injection P2 as ->.
  apply check_signature_ok in P3 as (A1 & A2 & kid & key & k & A3 & A4 & A5).
  apply check_pinned_ok in P4 as (_ & B1 & B2 & B3). apply check_times_ok in P5 as Ht; [|done].
  apply check_identity_ok in Hid as (I1 & e & I2 & I3).
  exists cookie, state, text, jws, kid, key, k. unfold accepted; cbn [issuer audience claimed_environment claimed_nonce subject email all_claims].
  rewrite B1, B2, B3, I2, I3. split_and!; try done.
  unfold check_nonce in P6. destruct (get_str (claims jws) "nonce") as [n|]; [|done]. simpl.
  by destruct (compare v n (nonce cookie)).
Qed.

(** A request that fails a check before the identifier leaves the record of spent
    identifiers exactly as it was: nobody's token can be burnt by a request that
    could not have used it. *)
Theorem early_refusals_spend_nothing v r now res v' :
  verify v r now = (res, v') → jti_store v' ≠ jti_store v →
  ∃ cookie jws v1, passed v r now cookie jws v1 ∧ get_str (claims jws) "jti" ≠ None.
Proof.
  intros [(e & _ & Hj & _)|(cookie & jws & v1 & spent & Hp & _ & Hj & Hspend & _)]%checks_cases Hne; [by rewrite Hj in Hne|].
  exists cookie, jws, v1. split; [done|]. intros Hn. unfold spend_jti in Hspend. rewrite Hn in Hspend. simpl in Hspend.
  injection Hspend as _ <-. by rewrite Hj in Hne.
Qed.
End checks.

(** ** A verifier over the life of its process *)
Section runs.
Context `{U : UnicodeTables} `{H : Sha256} `{B : Base64Url} `{S : Signatures} {K : Type} `{KS : KeySource K}.
Implicit Types v : Verifier K.

(** The verdicts of the requests that came, in their order, each with its time. *)
Fixpoint verdicts v (requests : list (SigninRequest * Z)) : list (Z * result Reason VerifiedClaims) * Verifier K :=
  match requests with
  | [] => ([], v)
  | (r, now) :: rest =>
    let (res, v) := verify v r now in
    let (more, v) := verdicts v rest in ((now, res) :: more, v)
  end.

Lemma verify_settings v r now res v' :
  verify v r now = (res, v') → same_settings v v' ∧
  ∀ k x, In (k, x) (seen (jti_store v)) → now < x →
    In (k, x) (seen (jti_store v')) ∧ ∀ cs, res = Ok cs → get_str (all_claims cs) "jti" ≠ Some k.
Proof.
  intros Hv. destruct (checks_cases _ _ _ _ _ Hv) as [(e & -> & Hj & Hs)|(cookie & jws & v1 & spent & _ & Hs & Hj & Hsp & ->)].
  { split; [done|]. intros k x Hin _. rewrite Hj. done. }
  unfold spend_jti in Hsp. destruct (get_str (claims jws) "jti") as [jti|] eqn:Ej; simpl in Hsp.
  2: { injection Hsp as <- <-. split; [done|]. intros k x Hin _. by rewrite Hj. }
  destruct (non_empty jti).
  2: { injection Hsp as <- <-. split; [done|]. intros k x Hin _. by rewrite Hj. }
  destruct (claim (jti_store v1) jti (remembered_until v1 (claims jws)) now) as [won store] eqn:Ec.
  injection Hsp as <- <-. split; [done|]. intros k x Hin Hx. rewrite <- Hj in Hin.
  destruct (claim_remembers _ _ _ _ _ _ _ _ Ec Hin Hx) as [Hin' Hk]. split; [done|]. intros cs Hcs.
  destruct won; [|done]. cbn in Hcs. destruct (check_identity (claims jws)); [|done]. injection Hcs as <-.
  unfold accepted; cbn [all_claims]. rewrite Ej. intros [= ->]. by specialize (Hk eq_refl).
Qed.

(** What an acceptance leaves: its identifier, until its window has closed. *)
Lemma accepted_spent v r now cs v' :
  verify v r now = (Ok cs, v') →
  ∃ jti, get_str (all_claims cs) "jti" = Some jti ∧ In (jti, remembered_until v (all_claims cs)) (seen (jti_store v')).
Proof.
  intros (cookie & jws & v1 & _ & Hs & Hj & Hsp & _ & ->)%run_ok.
  apply spend_jti_ok in Hsp as (jti & E & _ & Hc & _). exists jti. unfold accepted; cbn [all_claims]. split; [done|].
  apply claim_cases in Hc as (_ & -> & _). apply in_or_app. right. left. f_equal. unfold remembered_until.
  by rewrite (proj1 Hs).
Qed.

Lemma later_verdicts_differ v (requests : list (SigninRequest * Z)) (k : str) (x : Z) t cs :
  In (k, x) (seen (jti_store v)) → StronglySorted Z.le (map snd requests) →
  In (t, Ok cs) (verdicts v requests).1 → get_str (all_claims cs) "jti" = Some k → x <= t.
Proof.
  revert v. induction requests as [|[r now] rest IH]; intros v Hin Hs; cbn [verdicts]; [done|].
  destruct (verify v r now) as [res v1] eqn:Ev. destruct (verdicts v1 rest) as [more v2] eqn:Em.
  destruct (verify_settings _ _ _ _ _ Ev) as [_ Hk]. cbn [map snd] in Hs. inversion_clear Hs as [|? ? Hs' Hle].
  destruct (Z.lt_ge_cases now x) as [Hlt|Hge].
  - destruct (Hk k x Hin Hlt) as [Hin' Hne]. cbn [fst]. intros [[= -> ->]|Hm] Hj; [by specialize (Hne cs eq_refl)|].
    eapply (IH v1 Hin'); [done| |done]. by rewrite Em.
  - intros Hm _. cbn [fst] in Hm. destruct Hm as [[= -> _]|Hm]; [done|].
    assert (∀ l v' y, In y (verdicts v' l).1 → In y.1 (map snd l)) as Ht.
    { clear. induction l as [|[r n] l IHl]; intros v' y; cbn [verdicts]; [done|].
      destruct (verify v' r n) as [q v'']. specialize (IHl v''). destruct (verdicts v'' l) as [m w]. cbn [fst] in *.
      intros [<-|Hy]; [by left|right; by apply IHl]. }
    specialize (Ht rest v1 (t, Ok cs)). rewrite Em in Ht. specialize (Ht Hm). simpl in Ht.
    rewrite list.Forall_forall in Hle. specialize (Hle t (proj2 (list_elem_of_In _ _) Ht)). lia.
Qed.

Lemma verdicts_settings v requests : same_settings v (verdicts v requests).2.
Proof.
  revert v. induction requests as [|[r now] rest IH]; intros v; cbn [verdicts]; [done|].
  destruct (verify v r now) as [res v1] eqn:Ev. destruct (verify_settings _ _ _ _ _ Ev) as [[H1 H2] _].
  specialize (IH v1). destruct (verdicts v1 rest) as [more v2]. destruct IH as [H3 H4]. simpl in *.
  split; congruence.
Qed.
Lemma verdicts_app v l m :
  verdicts v (l ++ m) =
  ((verdicts v l).1 ++ (verdicts (verdicts v l).2 m).1, (verdicts (verdicts v l).2 m).2).
Proof.
  revert v. induction l as [|[r now] l IH]; intros v; cbn [app verdicts fst snd].
  { by destruct (verdicts v m). }
  destruct (verify v r now) as [res v1]. rewrite IH. by destruct (verdicts v1 l).
Qed.

(** C10: over the life of a verifier whose clock does not run backwards, of two accepted
    requests that carry one identifier the second comes after the window of the
    first has closed; and one token is accepted once. *)
Theorem tokens_are_single_use v (before between : list (SigninRequest * Z)) r1 t1 r2 t2 cs1 cs2 :
  let requests := before ++ (r1, t1) :: between ++ [(r2, t2)] in
  StronglySorted Z.le (map snd requests) →
  clock_ok v t2 → t2 < i64_max → in_i64 (skew_seconds (config v)) = true →
  (verify (verdicts v before).2 r1 t1).1 = Ok cs1 →
  (verify (verdicts v (before ++ (r1, t1) :: between)).2 r2 t2).1 = Ok cs2 →
  (get_str (all_claims cs1) "jti" = get_str (all_claims cs2) "jti" → remembered_until v (all_claims cs1) <= t2) ∧
  all_claims cs1 ≠ all_claims cs2.
Proof.
  intros requests Hs Hclock Ht2 Hskew E1 E2. set (v0 := (verdicts v before).2) in *.
  destruct (verdicts_settings v before) as [Hc0 Hm0]. fold v0 in Hc0, Hm0.
  destruct (verify v0 r1 t1) as [res1 v1] eqn:Ev1. simpl in E1. subst res1.
  destruct (accepted_spent _ _ _ _ _ Ev1) as (jti & Ej & Hin).
  assert (remembered_until v0 (all_claims cs1) = remembered_until v (all_claims cs1)) as Hr.
  { unfold remembered_until. by rewrite Hc0. }
  assert (get_str (all_claims cs1) "jti" = get_str (all_claims cs2) "jti" → remembered_until v (all_claims cs1) <= t2) as Hlate.
  { intros Ej2. rewrite <- Hr.
    apply (later_verdicts_differ v1 (between ++ [(r2, t2)]) jti _ t2 cs2); [done| | |congruence].
    - unfold requests in Hs. rewrite map_app in Hs. cbn [map snd] in Hs.
      apply StronglySorted_app_1_r in Hs. by inversion_clear Hs.
    - rewrite verdicts_app. cbn [fst]. apply in_or_app. right.
      rewrite verdicts_app in E2. cbn [snd verdicts] in E2. fold v0 in E2. rewrite Ev1 in E2.
      destruct (verdicts v1 between) as [m v2] eqn:Em. cbn [snd] in *. cbn [verdicts].
      destruct (verify v2 r2 t2) as [res v3]. simpl in *. subst res. by left. }
  split; [done|]. intros Eall.
  assert (remembered_until v (all_claims cs1) <= t2) as Hle by (apply Hlate; by rewrite Eall).
  destruct (verify (verdicts v (before ++ (r1, t1) :: between)).2 r2 t2) as [res2 v3] eqn:Ev2. simpl in E2. subst res2.
  apply run_ok in Ev2 as (cookie & jws & v4 & Hp & Hs4 & _ & _ & _ & ->).
  destruct (verdicts_settings v (before ++ (r1, t1) :: between)) as [Hc5 _].
  pose proof (passed_times _ _ _ _ _ _ Hp) as Hti. unfold accepted in Eall, Hle; cbn [all_claims] in Eall, Hle. rewrite Eall in Hle.
  apply check_times_ok in Hti as (iat & nbf & exp & _ & _ & Hexp & _ & Hx & _).
  2: { split; [apply Hclock|]. by rewrite Hc5. }
  rewrite Hc5 in Hx. unfold remembered_until in Hle. rewrite Hexp in Hle. cbn [from_option id] in Hle.
  destruct Hclock as [Hn _]. clear -Hle Hx Ht2 Hskew Hn.
  unfold clamp, i128_saturate, i128_min, i128_max, in_i64, i64_min, i64_max in *.
  rewrite andb_true_iff, !Z.leb_le in Hn, Hskew.
  revert Hle. destruct (_ && _) eqn:Ei; [lia|]. rewrite andb_false_iff, !Z.leb_gt in Ei. case_match; lia.
Qed.

(** The record never outgrows its bound, whatever is asked. *)
Theorem spent_identifiers_are_bounded v (requests : list (SigninRequest * Z)) :
  (length (seen (jti_store v)) ≤ max_entries (jti_store v))%nat →
  (length (seen (jti_store (verdicts v requests).2)) ≤ max_entries (jti_store v))%nat.
Proof.
  assert (∀ u r now res u', verify u r now = (res, u') →
            (length (seen (jti_store u)) ≤ max_entries (jti_store u))%nat →
            max_entries (jti_store u') = max_entries (jti_store u) ∧
            (length (seen (jti_store u')) ≤ max_entries (jti_store u'))%nat) as Hstep.
  { intros u r now res u' [(e & _ & Hj & _)|(cookie & jws & u1 & spent & _ & _ & Hj & Hsp & _)]%checks_cases Hl; [by rewrite Hj|].
    unfold spend_jti in Hsp. destruct (get_str (claims jws) "jti") as [jti|]; simpl in Hsp; [|by injection Hsp as _ <-; rewrite Hj].
    destruct (non_empty jti); [|by injection Hsp as _ <-; rewrite Hj].
    destruct (claim (jti_store u1) jti (remembered_until u1 (claims jws)) now) as [won store] eqn:Ec.
    injection Hsp as _ <-. cbn [with_jti jti_store]. rewrite <- Hj in Hl |- *.
    split; [by apply claim_cases in Ec as (? & _)|by eapply claim_bounded]. }
  revert v. induction requests as [|[r now] rest IH]; intros v Hl; cbn [verdicts]; [done|].
  destruct (verify v r now) as [res v1] eqn:Ev. destruct (Hstep _ _ _ _ _ Ev Hl) as [Hm Hl1].
  specialize (IH v1 Hl1). destruct (verdicts v1 rest) as [more v2]. simpl in *. lia.
Qed.
End runs.

(** ** The cache of the issuer's keys *)
Section cache.
Context `{H : Sha256} `{B : Base64Url} {F : Type} `{JF : JwksFetcher F}.
Implicit Types c : JwksCache F.

(** Keys stand under what they are. *)
Definition named_by_thumbprint (keys : list (str * VerifyingKey)) : Prop :=
  ∀ k key, In (k, key) keys → k = thumbprint key ∧ from_x key = Some key.

Lemma key_from_entry_ok (entry : Json) (key : VerifyingKey) : key_from_entry entry = Ok key → from_x key = Some key.
Proof.
  unfold key_from_entry. destruct entry as [| | | | | |jwk]; try done. destruct (get jwk "d"); [done|].
  repeat (destruct (negb _); [done|]). destruct (get_str jwk "x") as [x|]; simpl; [|done].
  destruct (from_x x) as [key'|] eqn:E; [|done]. intros [= ->]. assert (E' := E). unfold from_x in E'.
  apply bind_Some in E' as (raw & _ & E'). destruct (_ =? _)%nat; [|done]. by injection E' as ->.
Qed.

Lemma parse_jwks_named (body : str) (parsed : ParsedKeys) :
  parse_jwks body = Some parsed → named_by_thumbprint (parsed_keys parsed).
Proof.
  unfold parse_jwks. intros (document & _ & E)%bind_Some. destruct (get document "keys") as [[| | | | |entries|]|]; try done.
  injection E as <-. assert (∀ es p, named_by_thumbprint (parsed_keys p) →
    named_by_thumbprint (parsed_keys (fold_left add_entry es p))) as Hf; [|by apply Hf].
  induction es as [|e es IH]; intros p Hp; cbn [fold_left]; [done|]. apply IH. unfold add_entry.
  destruct (key_from_entry e) as [key|] eqn:Ek; [|done]. intros k key'. cbn [parsed_keys]. unfold keyed.
  intros [[Hin _]%filter_In|[[= <- <-]|[]]]%in_app_or; [by apply Hp|]. split; [done|by eapply key_from_entry_ok].
Qed.

(** What holds of a cache at all times. *)
Record sound_cache c : Prop := {
  sound_names : named_by_thumbprint (cached_keys (cache_state c));
  sound_ttl : ∀ h, hinted_ttl (cache_state c) = Some h → h <= Z.max (min_refetch_seconds c) MAX_TTL_SECONDS
}.
Lemma refresh_sound c now : sound_cache c → sound_cache (refresh c now).
Proof.
  intros [Hn Ht]. unfold refresh. destruct (fetch (fetcher c)) as [answer f].
  destruct answer as [body|]; simpl; [|constructor; [exact Hn|exact Ht]].
  destruct (parse_jwks body) as [parsed|] eqn:Ep; [|constructor; [exact Hn|exact Ht]].
  constructor; cbn [cache_state cached_keys hinted_ttl min_refetch_seconds]; [by eapply parse_jwks_named|].
  intros h. unfold bounded_hint. cbn [fetcher min_refetch_seconds]. intros (x & _ & ->)%fmap_Some. lia.
Qed.
Lemma key_for_sound c kid now : sound_cache c → sound_cache (cache_key_for c kid now).2.
Proof. intros Hc. unfold cache_key_for. simpl. by destruct (refresh_due c kid now); [apply refresh_sound|]. Qed.
Lemma refresh_timing c now :
  min_refetch_seconds (refresh c now) = min_refetch_seconds c ∧ ttl_seconds (refresh c now) = ttl_seconds c ∧
  attempted_at (cache_state (refresh c now)) = Some now.
Proof. unfold refresh. destruct (fetch (fetcher c)) as [answer f]. simpl. by destruct (b ← answer; _). Qed.

(** The questions a cache was asked, and when it went to the issuer for them. *)
Fixpoint asked c (asks : list (str * Z)) : JwksCache F :=
  match asks with [] => c | (kid, now) :: rest => asked (cache_key_for c kid now).2 rest end.
Fixpoint fetch_times c (asks : list (str * Z)) : list Z :=
  match asks with
  | [] => []
  | (kid, now) :: rest =>
    (if refresh_due c kid now then [now] else []) ++ fetch_times (cache_key_for c kid now).2 rest
  end.

(** Whatever it was asked before and whatever the issuer answered, a key is served
    under the thumbprint of its own material and never past the time it may be
    kept. *)
Theorem served_keys_are_genuine_and_fresh (f : F) (ttl min_refetch : Z) (asks : list (str * Z)) (kid : str) (now : Z) key c' :
  cache_key_for (asked (with_timing f ttl min_refetch) asks) kid now = (Some key, c') →
  thumbprint key = kid ∧ from_x key = Some key ∧
  ∃ fetched, fetched_at (cache_state c') = Some fetched ∧
             i64_saturate (now - fetched) < Z.max ttl (Z.max min_refetch MAX_TTL_SECONDS).
Proof.
  set (c := asked (with_timing f ttl min_refetch) asks).
  assert (∀ asks c0, sound_cache c0 → ttl_seconds c0 = ttl → min_refetch_seconds c0 = min_refetch →
    sound_cache (asked c0 asks) ∧ ttl_seconds (asked c0 asks) = ttl ∧ min_refetch_seconds (asked c0 asks) = min_refetch) as Hinv.
  { clear. induction asks as [|[k t] asks IH]; intros c0 Hc Ht Hm; cbn [asked]; [done|].
    apply IH; [by apply key_for_sound|..]; unfold cache_key_for; cbn [snd]; destruct (refresh_due c0 k t); try done;
      destruct (refresh_timing c0 t) as (R1 & R2 & _); congruence. }
  destruct (Hinv asks (with_timing f ttl min_refetch)) as (Hc & Ht & Hm); [by constructor|done..|]. fold c in Hc, Ht, Hm.
  pose proof (key_for_sound c kid now Hc) as Hc'. intros E. rewrite E in Hc'. cbn [snd] in Hc'.
  assert (ttl_seconds c' = ttl ∧ min_refetch_seconds c' = min_refetch) as [Ht' Hm'].
  { unfold cache_key_for in E. injection E as _ <-. destruct (refresh_due c kid now); [|done].
    destruct (refresh_timing c now) as (R1 & R2 & _). split; congruence. }
  unfold cache_key_for in E. injection E as E Ec. rewrite Ec in E. destruct (is_stale c' now) eqn:Es; [done|].
  apply assoc_some_in in E. destruct (sound_names _ Hc' _ _ E) as [-> Hx]. split_and!; [done..|].
  unfold is_stale in Es. destruct (fetched_at (cache_state c')) as [fetched|]; [|done]. exists fetched. split; [done|].
  apply Z.leb_gt in Es. pose proof (sound_ttl _ Hc') as Hh.
  destruct (hinted_ttl (cache_state c')) as [h|]; cbn [default] in Es; simpl in Es; [specialize (Hh h eq_refl)|]; lia.
Qed.

Lemma i64_saturate_mono (a b : Z) : a <= b → i64_saturate a <= i64_saturate b.
Proof. unfold i64_saturate. lia. Qed.

(** However many unknown identifiers arrive, and whether or not the issuer answers,
    two fetches are at least the refetch interval apart. *)
Theorem fetches_are_spaced c (asks : list (str * Z)) :
  StronglySorted Z.le (map snd asks) → attempted_at (cache_state c) = None →
  StronglySorted (λ a b, min_refetch_seconds c <= i64_saturate (b - a)) (fetch_times c asks).
Proof.
  assert (∀ asks c a, StronglySorted Z.le (a :: map snd asks) → attempted_at (cache_state c) = Some a →
    StronglySorted (λ a b, min_refetch_seconds c <= i64_saturate (b - a)) (fetch_times c asks) ∧
    Forall (λ b, min_refetch_seconds c <= i64_saturate (b - a)) (fetch_times c asks)) as Hgo.
  { clear. induction asks as [|[kid now] rest IH]; intros c a Hs Ha; cbn [fetch_times]; [by split; constructor|].
    cbn [map snd] in Hs. inversion_clear Hs as [|? ? Hs' Hf]. inversion_clear Hf as [|? ? Han Hf'].
    unfold cache_key_for; cbn [snd]. destruct (refresh_due c kid now) eqn:Ed.
    - destruct (refresh_timing c now) as (Hm & _ & Hn).
      destruct (IH (refresh c now) now Hs' Hn) as [IH1 IH2]. rewrite Hm in IH1, IH2. cbn [app].
      assert (min_refetch_seconds c <= i64_saturate (now - a)) as Hd.
      { unfold refresh_due in Ed. rewrite Ha in Ed. apply andb_true_iff in Ed as [_ Ed]. by apply Z.leb_le. }
      split; [by constructor|]. constructor; [done|]. eapply list.Forall_impl; [exact IH2|].
      intros b Hb. simpl in Hb. etrans; [exact Hb|]. apply i64_saturate_mono. lia.
    - cbn [app]. apply IH; [|done]. inversion_clear Hs' as [|? ? Hs'' Hf'']. by constructor. }
  intros Hs Ha. revert c Ha. induction asks as [|[kid now] rest IH]; intros c Ha; cbn [fetch_times]; [constructor|].
  unfold cache_key_for; cbn [snd]. unfold refresh_due. rewrite Ha. cbn [app].
  destruct (refresh_timing c now) as (Hm & _ & Hn). cbn [map snd] in Hs.
  destruct (Hgo rest (refresh c now) now Hs Hn) as [H1 H2]. rewrite Hm in H1, H2. by constructor.
Qed.
End cache.
