(* ===== verification/Tokens.v ===== *)
(** The host's signed tokens ([src/rust/host/src/auth.rs]): the account token, the
    purpose tokens and the single-use handoff built on them, the session cookie.

    HMAC-SHA256 is a parameter, and so is what [serde_json] reads from bytes and
    what numbers it holds.  The process's clock is an argument: seconds since 1970,
    a [u64] far from its end.  What the tokens are good for follows: each is read back
    until it expires, and a handoff is redeemed once. *)
From S2P Require Import Verifier.
From S2P Require Export Serde.
From S2P Require Import VerifierFacts.
Open Scope Z_scope.

(** [Hmac::<Sha256>]. *)
Class Hmac := hmac_sha256 : list N → list N → list N.
(** [serde_json::from_slice], and [Value]s made of and read as [u64]. *)
Class SerdeText (V : Type) := { sv_from_slice : list N → option V; sv_u64 : Z → V; sv_as_u64 : V → option Z }.

(** [Session]. *)
Record Session := { identity_id : str; session_email : str; session_name : str; session_role : option str }.

Section tokens.
Context `{B : Base64Url} `{M : Hmac} {V : Type} `{SV : Serde V} `{ST : SerdeText V}.

(** [sign], [verify_sig]. *)
Definition sign (secret payload : str) : str := hex_encode (hmac_sha256 (utf8_encode secret) (utf8_encode payload)).
Definition verify_sig (secret token : str) : option str :=
  '(payload, sig) ← rsplit_once token 46;
  if constant_time_eq (utf8_encode (sign secret payload)) (utf8_encode sig) then Some payload else None.
(** A payload written, encoded and signed. *)
Definition signed (key : str) (payload : V) : str :=
  let encoded := url_encode (utf8_encode (sv_text payload)) in encoded ++ "." ++ sign key encoded.
(** A token verified, decoded and read. *)
Definition opened (key token : str) : option V :=
  payload ← verify_sig key token; bs ← url_decode payload; sv_from_slice bs.
Definition sv_get_u64 (v : V) (key : str) : option Z := x ← sv_get v key; sv_as_u64 x.

(** [account_token], [verify_account_token]. *)
Definition account_payload (email : str) (exp : Z) : V := sv_obj [("email" : str, sv_str email); ("exp" : str, sv_u64 exp)].
Definition account_token (secret email : str) (ttl now : Z) : str := signed secret (account_payload email (now + ttl)).
Definition verify_account_token (secret token : str) (now : Z) : option str :=
  v ← opened secret token; exp ← sv_get_u64 v "exp";
  if exp <? now then None else sv_get_str v "email".

(** [purpose_key], [purpose_token], [verify_purpose_token]. *)
Definition purpose_key (secret purpose : str) : str := purpose ++ ":" ++ secret.
Definition purpose_payload (purpose : str) (claims : V) (exp : Z) : V :=
  sv_insert (sv_insert claims "purpose" (sv_str purpose)) "exp" (sv_u64 exp).
Definition purpose_token (secret purpose : str) (claims : V) (ttl now : Z) : str :=
  signed (purpose_key secret purpose) (purpose_payload purpose claims (now + ttl)).
Definition verify_purpose_token (secret purpose token : str) (now : Z) : option V :=
  claims ← opened (purpose_key secret purpose) token;
  p ← sv_get_str claims "purpose";
  if negb (str_eqb p purpose) then None
  else exp ← sv_get_u64 claims "exp"; if exp <? now then None else Some claims.

(** [HANDOFF_PURPOSE], [HANDOFF_TTL_SECS], [SESSION_TTL_SECS]. *)
Definition HANDOFF_PURPOSE : str := "google-handoff".
Definition HANDOFF_TTL_SECS : Z := 60.
Definition SESSION_TTL_SECS : Z := 60 * 60 * 24 * 14.
(** [handoff_token]: the identifier is a fresh UUID. *)
Definition handoff_token (secret email jti : str) (now : Z) : str :=
  purpose_token secret HANDOFF_PURPOSE (sv_obj [("email" : str, sv_str email); ("jti" : str, sv_str jti)])
    HANDOFF_TTL_SECS now.
(** [redeem_handoff_token]: the account token, and the spent identifiers. *)
Definition redeem_handoff_token (secret token : str) (spent : JtiStore) (now : Z) : option str * JtiStore :=
  match
    (claims ← verify_purpose_token secret HANDOFF_PURPOSE token now;
     email ← sv_get_str claims "email"; jti ← sv_get_str claims "jti";
     exp ← sv_get_u64 claims "exp";
     if in_i64 exp && in_i64 now then Some (email, jti, exp) else None)
  with
  | None => (None, spent)
  | Some (email, jti, exp) =>
    let (won, spent) := claim spent jti (exp + 1) now in
    (if won then Some (account_token secret email SESSION_TTL_SECS now) else None, spent)
  end.

(** [session_cookie], [parse_session_cookie]. *)
Definition session_payload (s : Session) (exp : Z) : V :=
  sv_obj [("identity_id" : str, sv_str (identity_id s)); ("email" : str, sv_str (session_email s));
          ("name" : str, sv_str (session_name s)); ("role" : str, sv_of_option (session_role s)); ("exp" : str, sv_u64 exp)].
Definition session_cookie (secret : str) (s : Session) (now : Z) : str :=
  signed secret (session_payload s (now + SESSION_TTL_SECS)).
Definition parse_session_cookie (secret cookie : str) (now : Z) : option Session :=
  v ← opened secret cookie; exp ← sv_get_u64 v "exp";
  if exp <? now then None
  else
    id ← sv_get_str v "identity_id"; email ← sv_get_str v "email"; name ← sv_get_str v "name";
    Some {| identity_id := id; session_email := email; session_name := name; session_role := sv_get_str v "role" |}.

(** [DEFAULT_ACCOUNT_COOKIE], [resolve_account_cookie]. *)
Definition DEFAULT_ACCOUNT_COOKIE : str := "hecks_session".
Definition cookie_name_char (c : char) : bool :=
  is_digit c || is_upper c || is_lower c || (c =? 95)%N || (c =? 45)%N || (c =? 46)%N.
Definition resolve_account_cookie `{U : UnicodeTables} (configured : option str) : result str str :=
  match configured with
  | None | Some [] => Ok DEFAULT_ACCOUNT_COOKIE
  | Some name =>
    if forallb cookie_name_char name then Ok name
    else Err ("HECKS_SESSION_COOKIE " ++ debug_str name ++
              " is not a valid cookie name (letters, digits, '_', '-' and '.' only)")
  end.

(** [urlencode]. *)
Definition unreserved (b : N) : bool :=
  is_digit b || is_upper b || is_lower b || (b =? 45)%N || (b =? 95)%N || (b =? 46)%N || (b =? 126)%N.
Definition urlencode (s : str) : str :=
  flat_map (λ b, if unreserved b then [b] else [37%N; hex_digit true (b / 16); hex_digit true (b mod 16)]) (utf8_encode s).
End tokens.

Open Scope Z_scope.

Lemma utf8_char_bytes (c : char) : is_scalar c = true → bytes (utf8_char c).
Proof.
  intros Hs. assert (c < 1114112)%N as Hc.
  { unfold is_scalar in Hs. rewrite orb_true_iff, andb_true_iff, !N.ltb_lt in Hs. lia. }
  clear Hs. unfold bytes, utf8_char. pose proof (N.mod_lt c 64 ltac:(done)).
  pose proof (N.mod_lt (c / 64) 64 ltac:(done)). pose proof (N.mod_lt (c / 4096) 64 ltac:(done)).
  destruct (N.ltb_spec c 128); [repeat constructor; lia|].
  destruct (N.ltb_spec c 2048); [assert (c / 64 < 32)%N by (apply N.Div0.div_lt_upper_bound; lia)|
    destruct (N.ltb_spec c 65536); [assert (c / 4096 < 16)%N by (apply N.Div0.div_lt_upper_bound; lia)|
      assert (c / 262144 < 5)%N by (apply N.Div0.div_lt_upper_bound; lia)]]; repeat constructor; lia.
Qed.
Lemma utf8_encode_bytes (s : str) : wf_str s = true → bytes (utf8_encode s).
Proof.
  induction s as [|c s IH]; [constructor|]. cbn [wf_str forallb]. rewrite andb_true_iff. intros [Hc Hs].
  cbn [utf8_encode flat_map]. apply list.Forall_app. split; [by apply utf8_char_bytes|by apply IH].
Qed.

Section tokens.
Context `{B : Base64Url} `{BL : !Base64UrlLaws B} `{M : Hmac} {V : Type} `{SV : Serde V} `{SL : !SerdeLaws V} `{ST : SerdeText V}.

(** What is documented of the crates: a MAC is bytes, a number is read back. *)
Context (hmac_bytes : ∀ k m, bytes (hmac_sha256 k m)).
Context (u64_read : ∀ n, 0 <= n < 2 ^ 64 → sv_as_u64 (sv_u64 n) = Some n).
(** [serde_json] reads back a value it wrote. *)
Definition reads_back (v : V) : Prop :=
  wf_str (sv_text v) = true ∧ sv_from_slice (utf8_encode (sv_text v)) = Some v.

Lemma hex_encode_plain (bs : list N) : bytes bs → forallb (λ c, is_digit c || is_lower c) (hex_encode bs) = true.
Proof.
  induction 1 as [|b bs Hb _ IH]; [done|]. unfold hex_encode in *. cbn [flat_map hex_byte app forallb]. rewrite IH.
  pose proof (N.mod_lt b 16 ltac:(done)).
  rewrite !hex_digit_ok; [done|lia|by apply N.Div0.div_lt_upper_bound].
Qed.

Lemma signed_split (key payload : str) : rsplit_once (payload ++ "." ++ sign key payload) 46 = Some (payload, sign key payload).
Proof.
  change (payload ++ "." ++ sign key payload) with (payload ++ [46%N] ++ sign key payload). apply rsplit_once_last.
  intros Hin%list_elem_of_In. pose proof (hex_encode_plain _ (hmac_bytes (utf8_encode key) (utf8_encode payload))) as Hh.
  rewrite forallb_forall in Hh. by specialize (Hh _ Hin).
Qed.
Lemma verify_signed (key payload : str) : verify_sig key (payload ++ "." ++ sign key payload) = Some payload.
Proof.
  unfold verify_sig. rewrite signed_split. cbn [mbind option_bind]. by rewrite constant_time_eq_decides, bool_decide_true.
Qed.

Lemma opened_signed (key : str) (v : V) : reads_back v → opened key (signed key v) = Some v.
Proof.
  intros [Hw Hr]. unfold opened, signed. rewrite verify_signed. cbn [mbind option_bind].
  rewrite url_decode_encode by (by apply utf8_encode_bytes). done.
Qed.

(** Under any other key a token reads as the same value, or not at all. *)
Lemma opened_other (key other : str) (v v' : V) : reads_back v → opened other (signed key v) = Some v' → v' = v.
Proof.
  intros [Hw Hr]. unfold opened, signed, verify_sig. rewrite signed_split. cbn [mbind option_bind].
  destruct (constant_time_eq _ _); [|done]. cbn [mbind option_bind].
  rewrite url_decode_encode by (by apply utf8_encode_bytes). cbn [mbind option_bind]. congruence.
Qed.

(** Nothing is read from a token that does not end in the signature of what stands
    before it. *)
Theorem opened_tokens_are_signed (key token : str) (v : V) :
  wf_str token = true → opened key token = Some v → ∃ payload, token = payload ++ "." ++ sign key payload.
Proof.
  intros Hw. unfold opened, verify_sig. intros (payload & E & _)%bind_Some.
  apply bind_Some in E as ([p sig] & Er & E). rewrite constant_time_eq_decides in E.
  case_bool_decide as Es; [|done]. injection E as ->. exists payload.
  unfold rsplit_once in Er. destruct (split_once (rev token) 46) as [[a b]|] eqn:Eo; [|done]. injection Er as <- <-.
  apply split_once_join in Eo. apply (f_equal (@rev N)) in Eo. rewrite rev_involutive, !rev_app_distr in Eo.
  assert (token = rev b ++ [46%N] ++ rev a) as Et by (by rewrite Eo, <- app_assoc). rewrite Et in Hw |- *. do 2 f_equal.
  assert (wf_str (rev a) = true) as Ha.
  { unfold wf_str in *. rewrite !forallb_app, !andb_true_iff in Hw. tauto. }
  assert (wf_str (sign key (rev b)) = true) as Hs.
  { pose proof (hex_encode_plain _ (hmac_bytes (utf8_encode key) (utf8_encode (rev b)))) as Hh. unfold wf_str, sign.
    rewrite forallb_forall in *. intros c Hc%Hh. unfold is_digit, is_lower, is_scalar in *.
    rewrite orb_true_iff, !andb_true_iff, !N.leb_le in Hc. rewrite orb_true_iff, N.ltb_lt. lia. }
  apply (f_equal utf8_decode) in Es. rewrite !utf8_roundtrip in Es by done. congruence.
Qed.

Lemma account_fields (email : str) (exp : Z) :
  sv_get (account_payload email exp) "email" = Some (sv_str email) ∧
  sv_get (account_payload email exp) "exp" = Some (sv_u64 exp).
Proof. unfold account_payload. split; sv_field. Qed.

(** An account token names its person until it expires, and nobody after. *)
Theorem account_tokens_expire (secret email : str) (ttl now later : Z) :
  0 <= now + ttl < 2 ^ 64 → reads_back (account_payload email (now + ttl)) →
  verify_account_token secret (account_token secret email ttl now) later =
  if now + ttl <? later then None else Some email.
Proof.
  intros Hn Hr. unfold verify_account_token, account_token. rewrite opened_signed by done. cbn [mbind option_bind].
  destruct (account_fields email (now + ttl)) as [He Hx]. unfold sv_get_u64, sv_get_str. rewrite He, Hx.
  cbn [mbind option_bind]. rewrite u64_read by done. cbn [mbind option_bind].
  destruct (now + ttl <? later); [done|]. by rewrite sv_as_str_str.
Qed.

Lemma purpose_fields (purpose : str) (claims : V) (exp : Z) :
  sv_is_object claims = true →
  sv_get (purpose_payload purpose claims exp) "purpose" = Some (sv_str purpose) ∧
  sv_get (purpose_payload purpose claims exp) "exp" = Some (sv_u64 exp) ∧
  ∀ k, k ≠ "purpose" → k ≠ "exp" → sv_get (purpose_payload purpose claims exp) k = sv_get claims k.
Proof.
  intros Hc. unfold purpose_payload. assert (sv_is_object (sv_insert claims "purpose" (sv_str purpose)) = true) as Hc'.
  { by apply sv_insert_is. }
  split_and!.
  - rewrite sv_get_insert, sv_get_insert by done. reflexivity.
  - rewrite sv_get_insert by done. by rewrite decide_True.
  - intros k H1 H2. rewrite !sv_get_insert by done. by rewrite !decide_False by congruence.
Qed.

(** A token made for one purpose is nothing for another, whatever its signature;
    for its own it gives the claims until it expires. *)
Theorem purposes_do_not_mix (secret other purpose asked : str) (claims : V) (ttl now later : Z) :
  0 <= now + ttl < 2 ^ 64 → sv_is_object claims = true → reads_back (purpose_payload purpose claims (now + ttl)) →
  (purpose ≠ asked →
     verify_purpose_token other asked (purpose_token secret purpose claims ttl now) later = None) ∧
  verify_purpose_token secret purpose (purpose_token secret purpose claims ttl now) later =
  if now + ttl <? later then None else Some (purpose_payload purpose claims (now + ttl)).
Proof.
  intros Hn Hc Hr. destruct (purpose_fields purpose claims (now + ttl) Hc) as (Hp & Hx & _). split.
  - intros Hne. unfold verify_purpose_token.
    destruct (opened (purpose_key other asked) _) as [v|] eqn:Eo; [|done]. cbn [mbind option_bind].
    apply opened_other in Eo as ->; [|done].
    unfold sv_get_str. rewrite Hp. cbn [mbind option_bind]. rewrite sv_as_str_str. cbn [mbind option_bind].
    unfold str_eqb. by rewrite bool_decide_false.
  - unfold verify_purpose_token, purpose_token. rewrite opened_signed by done. cbn [mbind option_bind].
    unfold sv_get_str, sv_get_u64. rewrite Hp, Hx. cbn [mbind option_bind]. rewrite sv_as_str_str, u64_read by done.
    cbn [mbind option_bind]. unfold str_eqb. by rewrite bool_decide_true.
Qed.

Lemma session_fields (s : Session) (exp : Z) :
  sv_get (session_payload s exp) "identity_id" = Some (sv_str (identity_id s)) ∧
  sv_get (session_payload s exp) "email" = Some (sv_str (session_email s)) ∧
  sv_get (session_payload s exp) "name" = Some (sv_str (session_name s)) ∧
  sv_get (session_payload s exp) "role" = Some (sv_of_option (session_role s)) ∧
  sv_get (session_payload s exp) "exp" = Some (sv_u64 exp).
Proof. unfold session_payload. split_and!; sv_field. Qed.

(** A session cookie is the session it was made from until it expires; and it is,
    as it stands, an account token for the session's email as well. *)
Theorem session_cookies_are_account_tokens (null_is_no_string : sv_as_str sv_null = None) (secret : str) (s : Session) (now later : Z) :
  0 <= now + SESSION_TTL_SECS < 2 ^ 64 → reads_back (session_payload s (now + SESSION_TTL_SECS)) →
  parse_session_cookie secret (session_cookie secret s now) later =
    (if now + SESSION_TTL_SECS <? later then None else Some s) ∧
  verify_account_token secret (session_cookie secret s now) later =
    (if now + SESSION_TTL_SECS <? later then None else Some (session_email s)).
Proof.
  intros Hn Hr. destruct (session_fields s (now + SESSION_TTL_SECS)) as (F1 & F2 & F3 & F4 & F5).
  unfold parse_session_cookie, verify_account_token, session_cookie. rewrite opened_signed by done. cbn [mbind option_bind].
  unfold sv_get_u64, sv_get_str. rewrite F1, F2, F3, F4, F5. cbn [mbind option_bind]. rewrite u64_read by done.
  cbn [mbind option_bind]. destruct (now + SESSION_TTL_SECS <? later); [done|].
  rewrite !sv_as_str_str. cbn [mbind option_bind]. split; [|done]. do 2 f_equal. destruct s as [i e n [r|]]; cbn [session_role sv_of_option];
    [by rewrite sv_as_str_str|by rewrite null_is_no_string].
Qed.

(** ** Handoffs *)

(** One handoff token redeemed at each of these times, one after another: what each
    attempt was given. *)
Fixpoint redemptions (secret token : str) (spent : JtiStore) (times : list Z) : list (option str) :=
  match times with
  | [] => []
  | now :: rest =>
    let (given, spent) := redeem_handoff_token secret token spent now in
    given :: redemptions secret token spent rest
  end.

Lemma redeem_after (secret token : str) (spent : JtiStore) (now : Z) (k : str) (exp : Z) (v : V) :
  opened (purpose_key secret HANDOFF_PURPOSE) token = Some v → sv_get_str v "jti" = Some k → sv_get_u64 v "exp" = Some exp →
  In (k, exp + 1) (seen spent) →
  (redeem_handoff_token secret token spent now).1 = None ∧
  (now <= exp → In (k, exp + 1) (seen (redeem_handoff_token secret token spent now).2)).
Proof.
  intros Ho Hj Hx Hin. unfold redeem_handoff_token, verify_purpose_token. rewrite Ho. cbn [mbind option_bind].
  destruct (sv_get_str v "purpose") as [p|]; cbn [mbind option_bind]; [|done]. destruct (negb _); [done|].
  rewrite Hx. cbn [mbind option_bind]. destruct (Z.ltb_spec exp now) as [|Hle]; [cbn; split; [done|lia]|].
  cbn [mbind option_bind]. destruct (sv_get_str v "email") as [e|]; cbn [mbind option_bind]; [|done].
  rewrite Hj. cbn [mbind option_bind]. rewrite Hx. cbn [mbind option_bind].
  destruct (in_i64 exp && in_i64 now); [|done].
  destruct (claim spent k (exp + 1) now) as [won spent'] eqn:Ec.
  destruct (claim_remembers _ _ _ _ _ _ _ _ Ec Hin ltac:(lia)) as [Hin' Hw]. rewrite (Hw eq_refl). done.
Qed.

(** A handoff token is worth an account token to at most one of those who present
    it, in any number of attempts at any times that do not run backwards. *)
Theorem handoffs_are_redeemed_once (secret token : str) (spent : JtiStore) (times : list Z) :
  StronglySorted Z.le times →
  (length (List.filter (λ given, bool_decide (given ≠ None)) (redemptions secret token spent times)) ≤ 1)%nat.
Proof.
  destruct (opened (purpose_key secret HANDOFF_PURPOSE) token) as [v|] eqn:Ho.
  2: { intros _. assert (∀ ts sp, List.filter (λ given, bool_decide (given ≠ None)) (redemptions secret token sp ts) = []) as ->; [|simpl; lia].
       induction ts as [|t ts IH]; intros sp; [done|]. cbn [redemptions]. unfold redeem_handoff_token, verify_purpose_token.
       rewrite Ho. cbn [mbind option_bind List.filter]. rewrite bool_decide_false by (by intros []). apply IH. }
  assert (∀ ts sp exp k, sv_get_str v "jti" = Some k → sv_get_u64 v "exp" = Some exp → StronglySorted Z.le ts →
    In (k, exp + 1) (seen sp) ∨ Forall (λ t, exp < t) ts →
    List.filter (λ given, bool_decide (given ≠ None)) (redemptions secret token sp ts) = []) as Hnone.
  { induction ts as [|t ts IH]; intros sp exp k Hj Hx Hs Hin; [done|]. cbn [redemptions].
    inversion_clear Hs as [|? ? Hs' Hle].
    assert ((redeem_handoff_token secret token sp t).1 = None ∧
            (In (k, exp + 1) (seen (redeem_handoff_token secret token sp t).2) ∨ Forall (λ t, exp < t) ts)) as [Hg Hk].
    { destruct (Z.le_gt_cases t exp) as [Ht|Ht].
      - destruct Hin as [Hin|Hf]; [|inversion_clear Hf; lia].
        destruct (redeem_after secret token sp t k exp v Ho Hj Hx Hin) as [H1 H2]. split; [done|left; by apply H2].
      - split.
        + unfold redeem_handoff_token, verify_purpose_token. rewrite Ho. cbn [mbind option_bind].
          destruct (sv_get_str v "purpose"); cbn [mbind option_bind]; [|done]. destruct (negb _); [done|]. rewrite Hx.
          cbn [mbind option_bind]. by rewrite (proj2 (Z.ltb_lt _ _)).
        + right. eapply list.Forall_impl; [exact Hle|]. intros x Hx'. simpl in Hx'. lia. }
    destruct (redeem_handoff_token secret token sp t) as [given sp']. cbn [fst snd] in Hg, Hk. subst given.
    cbn [List.filter]. rewrite bool_decide_false by (by intros []). by eapply IH. }
  revert spent. induction times as [|t ts IH]; intros spent Hs; [simpl; lia|]. cbn [redemptions].
  inversion_clear Hs as [|? ? Hs' Hle].
  destruct (redeem_handoff_token secret token spent t) as [given spent'] eqn:Er. cbn [List.filter].
  destruct given as [a|]; [rewrite bool_decide_true by done|rewrite bool_decide_false by (by intros []); by apply IH].
  assert (∃ k exp, sv_get_str v "jti" = Some k ∧ sv_get_u64 v "exp" = Some exp ∧ In (k, exp + 1) (seen spent')) as (k & exp & Hj & Hx & Hin).
  { unfold redeem_handoff_token, verify_purpose_token in Er. rewrite Ho in Er. cbn [mbind option_bind] in Er.
    destruct (sv_get_str v "purpose") as [p|]; cbn [mbind option_bind] in Er; [|done]. destruct (negb _); [done|].
    destruct (sv_get_u64 v "exp") as [exp|] eqn:Hx; cbn [mbind option_bind] in Er; [|done].
    destruct (exp <? t); cbn [mbind option_bind] in Er; [done|].
    destruct (sv_get_str v "email") as [e|]; cbn [mbind option_bind] in Er; [|done].
    destruct (sv_get_str v "jti") as [k|] eqn:Hj; cbn [mbind option_bind] in Er; [|done]. rewrite Hx in Er.
    cbn [mbind option_bind] in Er. destruct (in_i64 exp && in_i64 t); [|done].
    destruct (claim spent k (exp + 1) t) as [[] sp] eqn:Ec; [|done]. injection Er as _ <-.
    exists k, exp. split_and!; [done..|]. apply claim_cases in Ec as (_ & -> & _). apply in_or_app. right. by left. }
  cbn [length]. rewrite (Hnone ts spent' exp k) by (done || by left). done.
Qed.
End tokens.
