(* ===== verification/Members.v ===== *)
(** Who a site lets in ([src/rust/host/src/auth.rs], the membership half): what a
    member's row says, the decisions an amendment of the membership head takes, and
    the operations that read or write that head through the store
    ([HostStore.v]).

    Which aggregate keeps the members is declared in the domain's IR
    ([src/rust/host/core/src/ir.rs]).  The process's clock is read once an
    operation and is its argument. *)
From stdpp Require Import gmap.
From S2P Require Export HostStore Clock Tokens IpText.
Open Scope Z_scope.

(** [GrantOutcome], [DisableOutcome], [DeleteOutcome], [RoleOutcome]. *)
Inductive GrantOutcome := GrantDone | GrantUnknownPerson | GrantLastOpenAdmin.
Inductive DisableOutcome :=
  DisableDone | DisableCallerNotAdmin | SelfDisable | DisableUnknownPerson | DisableLastAdmin | DisableLastOpenAdmin.
Inductive DeleteOutcome := DeleteDone | DeleteCallerNotAdmin | DeleteUnknownPerson | NotDisabled.
Inductive RoleOutcome := RoleDone | RoleCallerNotAdmin | RoleUnknownPerson | RoleLastAdmin | RoleLastOpenAdmin.

(** What stops an operation: no membership is declared, or the store refuses. *)
Inductive MemberError := NoMembership (message : str) | StoreFailed (e : StoreError).

(** [Window]. *)
Inductive Window := Open | Ends (at_ : Z) | Unreadable.

(** [ADMIN_ROLES], [GRANTABLE_ROLES], [MAX_EXPIRY_DAYS], [EXPIRY_FIELD]. *)
Definition ADMIN_ROLES : list str := ["Admin"; "Owner"].
Definition GRANTABLE_ROLES : list str := ["Admin"; "Owner"; "Member"].
Definition MAX_EXPIRY_DAYS : Z := 365.
Definition EXPIRY_FIELD : str := "access_expires_at".
Definition is_admin_role (role : str) : bool := existsb (str_eqb role) ADMIN_ROLES.

Section members.
Context `{U : UnicodeTables} {V : Type} `{SV : Serde V}.

(** ** A member's row *)

(** [state.get(key)?.get("value")], and as a text. *)
Definition valued (state : V) (key : str) : option V := x ← sv_get state key; sv_get x "value".
Definition valued_str (state : V) (key : str) : option str := x ← valued state key; sv_as_str x.
Definition value_object (v : V) : V := sv_obj [("value" : str, v)].
Definition flag (state : V) (key : str) : bool := default false (x ← sv_get state key; sv_as_bool x).

(** [is_disabled], [is_deleted], [role_of], [linked_identity_id]. *)
Definition is_disabled (state : V) : bool := flag state "disabled".
Definition is_deleted (state : V) : bool := flag state "deleted".
Definition role_of (state : V) : option str := valued_str state "role".
Definition linked_identity_id (state : V) : option str := valued_str state "identity_id".

(** [window_of], [expiry_text]. *)
Definition window_value (state : V) : option V :=
  raw ← sv_get state EXPIRY_FIELD; if sv_is_null raw then None else Some raw.
Definition window_of (state : V) : Window :=
  match window_value state with
  | None => Open
  | Some raw =>
    match text ← sv_as_str (default raw (sv_get raw "value")); parse_iso_utc text with
    | Some ends => Ends ends
    | None => Unreadable
    end
  end.
Definition expiry_text (state : V) : option str :=
  raw ← window_value state;
  let text := default raw (sv_get raw "value") in Some (default (sv_text text) (sv_as_str text)).
(** [is_expired_at], [is_lapsed_at]. *)
Definition is_expired_at (state : V) (now : Z) : bool :=
  match window_of state with Open => false | Unreadable => true | Ends ends => ends <=? now end.
Definition is_lapsed_at (state : V) (now : Z) : bool := is_disabled state || is_expired_at state now.

(** [is_active_admin], [is_last_active_admin], [is_open_admin]. *)
Definition has_admin_role (state : V) : bool := match role_of state with Some role => is_admin_role role | None => false end.
Definition is_active_admin (now : Z) (state : V) : bool := has_admin_role state && negb (is_lapsed_at state now).
Definition is_last_active_admin (now : Z) (rows : list (str * V)) (state : V) : bool :=
  is_active_admin now state && (length (List.filter (λ r, is_active_admin now r.2) rows) <=? 1)%nat.
Definition is_open_admin (now : Z) (state : V) : bool :=
  is_active_admin now state && match window_of state with Open => true | _ => false end.
(** [strands_open_admin]. *)
Definition strands_open_admin (now : Z) (rows : list (str * V)) (id : str) (after : V) : bool :=
  let had := existsb (λ r, is_open_admin now r.2) rows in
  let keeps := is_open_admin now after ||
    existsb (λ r, negb (str_eqb (to_lowercase r.1) (to_lowercase id)) && is_open_admin now r.2) rows in
  let first_admin := negb (existsb (λ r, has_admin_role r.2) rows) in
  let windowed_first := first_admin && has_admin_role after && negb keeps in
  (had && negb keeps) || windowed_first.

(** [expiry_after_days_from]. *)
Definition expiry_after_days (days now : Z) : str := iso_utc (Z.max (now + days * 86400) 0).

(** ** Decisions over the rows of the head *)
Definition Amendment (T : Type) : Type := T * option (str * V).
Definition find_person (rows : list (str * V)) (target : str) : option (str * V) :=
  find (λ r, str_eqb (to_lowercase r.1) target) rows.
Definition caller_active (now : Z) (rows : list (str * V)) (caller : str) : bool :=
  existsb (λ r, str_eqb (to_lowercase r.1) caller && is_active_admin now r.2) rows.
Definition email_key (email : str) : str := to_lowercase (IpText.trim email).

(** The closure of [grant_access_until]. *)
Definition granted_state (member : V) (role : str) (expires_at : option str) : V :=
  let state := sv_insert member "role" (value_object (sv_str role)) in
  match expires_at with
  | Some instant => sv_insert state EXPIRY_FIELD (sv_str instant)
  | None => if sv_is_object state then sv_remove state EXPIRY_FIELD else state
  end.
Definition grant_decision (now : Z) (target role : str) (expires_at : option str) (rows : list (str * V)) : Amendment GrantOutcome :=
  match find_person rows target with
  | None => (GrantUnknownPerson, None)
  | Some (id, member) =>
    let state := granted_state member role expires_at in
    if strands_open_admin now rows id state then (GrantLastOpenAdmin, None) else (GrantDone, Some (id, state))
  end.

(** The closure of [set_person_disabled]. *)
Definition disabled_state (state : V) (disable : bool) : V :=
  if disable then sv_insert state "disabled" (sv_bool true)
  else if sv_is_object state then sv_remove state "disabled" else state.
Definition disable_decision (now : Z) (caller target : str) (disable : bool) (rows : list (str * V)) : Amendment DisableOutcome :=
  if negb (caller_active now rows caller) then (DisableCallerNotAdmin, None)
  else if disable && str_eqb caller target then (SelfDisable, None)
  else match find_person rows target with
  | None => (DisableUnknownPerson, None)
  | Some (id, state) =>
    if Bool.eqb (is_disabled state) disable then (DisableDone, None)
    else if disable && is_last_active_admin now rows state then (DisableLastAdmin, None)
    else
      let after := disabled_state state disable in
      if strands_open_admin now rows id after then (DisableLastOpenAdmin, None) else (DisableDone, Some (id, after))
  end.

(** The closure of [set_person_deleted]. *)
Definition deleted_state (state : V) : V := sv_insert state "deleted" (sv_bool true).
Definition delete_decision (now : Z) (caller target : str) (rows : list (str * V)) : Amendment DeleteOutcome :=
  if negb (caller_active now rows caller) then (DeleteCallerNotAdmin, None)
  else match find_person rows target with
  | None => (DeleteUnknownPerson, None)
  | Some (id, state) =>
    if is_deleted state then (DeleteDone, None)
    else if negb (is_disabled state) then (NotDisabled, None)
    else (DeleteDone, Some (id, deleted_state state))
  end.

(** The closure of [set_person_role]. *)
Definition role_state (state : V) (role : str) : V := sv_insert state "role" (value_object (sv_str role)).
Definition role_decision (now : Z) (caller target role : str) (rows : list (str * V)) : Amendment RoleOutcome :=
  if negb (caller_active now rows caller) then (RoleCallerNotAdmin, None)
  else match find_person rows target with
  | None => (RoleUnknownPerson, None)
  | Some (id, state) =>
    if bool_decide (role_of state = Some role) then (RoleDone, None)
    else if negb (is_admin_role role) && is_last_active_admin now rows state then (RoleLastAdmin, None)
    else
      let after := role_state state role in
      if strands_open_admin now rows id after then (RoleLastOpenAdmin, None) else (RoleDone, Some (id, after))
  end.

(** ** The head in the store *)

(** [ir::MembershipProvider], [membership_provider]; [membership_aggregate]: the
    bare aggregate and its storage name. *)
Definition membership_provider (ir : V) : option (str * str) :=
  fact ← sv_get ir "membership"; provider ← sv_get_str fact "provider"; aggregate ← sv_get_str fact "aggregate";
  Some (provider, aggregate).
Definition membership_names (aggregate : str) : str * str := let bare := last_piece aggregate "::" in (bare, snake bare).
Definition no_membership : str :=
  "this domain attaches no bluebook that provides " ++ dquote ++ "membership" ++ dquote ++ " — cannot resolve who may sign in".
Definition membership_aggregate (ir : V) : result MemberError (str * str) :=
  match membership_provider ir with
  | Some (_, aggregate) => Ok (membership_names aggregate)
  | None => Err (NoMembership no_membership)
  end.
Definition ir_name (ir : V) : str := default [] (sv_get_str ir "name").

(** [member_row_by_email], [member_rows]. *)
Definition member_row_by_email (d : Data V) (ir : V) (email : str) : result MemberError (option V) :=
  let? names := membership_aggregate ir in Ok (head_by_id d (ir_name ir) names.2 email).
Definition member_rows (d : Data V) (ir : V) : result MemberError (list (str * V)) :=
  let? names := membership_aggregate ir in Ok (head_all d (ir_name ir) names.2).

(** [append_member_state]: a row put without the lock. *)
Definition append_member_state (d : Data V) (c : LineageConfig) (ir : V) (id : str) (state : V) : result MemberError unit * Data V :=
  match membership_aggregate ir with
  | Err e => (Err e, d)
  | Ok (aggregate, _) =>
    match put_heads d c [{| mutation_aggregate := aggregate; mutation_id := id; mutation_operation := "save"; mutation_state := state |}] with
    | (Ok _, d') => (Ok (), d')
    | (Err e, d') => (Err (StoreFailed e), d')
    end
  end.

(** An amendment of the membership head. *)
Definition amend_members {T} (d : Data V) (c : LineageConfig) (ir : V) (decision : list (str * V) → Amendment T) :
    result MemberError T * Data V :=
  match membership_aggregate ir with
  | Err e => (Err e, d)
  | Ok (aggregate, storage) =>
    match amend_head d c aggregate storage decision with
    | (Ok answer, d') => (Ok answer, d')
    | (Err e, d') => (Err (StoreFailed e), d')
    end
  end.

(** [grant_access_until], [grant_access], [set_person_disabled], [set_person_deleted],
    [set_person_role]. *)
Definition grant_access_until (now : Z) (d : Data V) (c : LineageConfig) (ir : V) (email role : str) (expires_at : option str) :=
  amend_members d c ir (grant_decision now (email_key email) role expires_at).
Definition grant_access (now : Z) (d : Data V) (c : LineageConfig) (ir : V) (email role : str) : result MemberError bool * Data V :=
  match grant_access_until now d c ir email role None with
  | (Ok outcome, d') => (Ok (match outcome with GrantDone => true | _ => false end), d')
  | (Err e, d') => (Err e, d')
  end.
Definition set_person_disabled (now : Z) (d : Data V) (c : LineageConfig) (ir : V) (caller target : str) (disable : bool) :=
  amend_members d c ir (disable_decision now (email_key caller) (email_key target) disable).
Definition set_person_deleted (now : Z) (d : Data V) (c : LineageConfig) (ir : V) (caller target : str) :=
  amend_members d c ir (delete_decision now (email_key caller) (email_key target)).
Definition set_person_role (now : Z) (d : Data V) (c : LineageConfig) (ir : V) (caller target role : str) :=
  amend_members d c ir (role_decision now (email_key caller) (email_key target) role).

(** [admit_person]: the rows are looked at, and then the new one is put. *)
Definition admitted_state (email name : str) : V :=
  sv_obj [("name" : str, value_object (sv_str name)); ("email" : str, value_object (sv_str email))].
Definition admit_person (d : Data V) (c : LineageConfig) (ir : V) (email name : str) : result MemberError bool * Data V :=
  let email := to_lowercase email in
  match member_rows d ir with
  | Err e => (Err e, d)
  | Ok rows =>
    if existsb (λ r, str_eqb (to_lowercase r.1) email) rows then (Ok false, d)
    else match append_member_state d c ir email (admitted_state email name) with
    | (Ok _, d') => (Ok true, d')
    | (Err e, d') => (Err e, d')
    end
  end.

(** ** Questions about members *)

(** [caller_is_admin], [has_access], [active_role], [member_identity_id]. *)
Definition caller_is_admin (now : Z) (d : Data V) (ir : V) (email : str) : result MemberError bool :=
  let? rows := member_rows d ir in Ok (caller_active now rows (to_lowercase email)).
Definition has_access (now : Z) (d : Data V) (ir : V) (email : str) : result MemberError bool :=
  let? rows := member_rows d ir in
  Ok (existsb (λ r, str_eqb (to_lowercase r.1) (to_lowercase email) &&
                    match role_of r.2 with Some _ => true | None => false end && negb (is_lapsed_at r.2 now)) rows).
Definition active_role (now : Z) (d : Data V) (ir : V) (email : str) : result MemberError (option str) :=
  let? rows := member_rows d ir in
  Ok (r ← find (λ r, str_eqb (to_lowercase r.1) (to_lowercase email) && negb (is_lapsed_at r.2 now)) rows; role_of r.2).
Definition member_identity_id (d : Data V) (ir : V) (email : str) : result MemberError (option str) :=
  let? rows := member_rows d ir in
  Ok (r ← find (λ r, str_eqb (to_lowercase r.1) (to_lowercase email) && negb (is_deleted r.2)) rows; linked_identity_id r.2).

(** [all_people]. *)
Definition sv_of (o : option V) : V := default sv_null o.
Definition person_row (now : Z) (state : V) : V :=
  let granted := match role_of state with Some _ => true | None => false end && negb (is_disabled state) && negb (is_expired_at state now) in
  sv_obj [("name" : str, sv_of (valued state "name")); ("email" : str, sv_of (valued state "email"));
          ("role" : str, sv_of_option (role_of state));
          ("linked" : str, sv_bool match valued state "identity_id" with Some _ => true | None => false end);
          ("granted" : str, sv_bool granted); ("disabled" : str, sv_bool (is_disabled state));
          ("access_expires_at" : str, sv_of_option (expiry_text state)); ("expired" : str, sv_bool (is_expired_at state now));
          ("identity_id" : str, sv_of_option (linked_identity_id state))].
Definition all_people (now : Z) (d : Data V) (ir : V) : result MemberError (list V) :=
  let? rows := member_rows d ir in
  Ok (map (λ r, person_row now r.2) (List.filter (λ r, negb (is_deleted r.2)) rows)).

(** [session_for_member_by_identity]. *)
Definition session_for_member_by_identity (now : Z) (d : Data V) (ir : V) (identity : str) : result MemberError (option Session) :=
  let? names := membership_aggregate ir in
  Ok (state ← head_find d [ir_name ir] names.2 [("identity_id" : str, identity)];
      if is_lapsed_at state now then None
      else
        email ← valued_str state "email"; name ← valued_str state "name";
        Some {| identity_id := identity; session_email := email; session_name := name; session_role := role_of state |}).
End members.
