(* ===== verification/Provision.v ===== *)
(** How a member's first sign-in gives the member an identity
    ([src/rust/host/src/auth.rs] [provision] and the reads of an identity;
    the declared providers of [src/rust/host/core/src/ir.rs]): the member's row is
    read, an identity is found or registered and linked, the role is granted, and
    the row as it was read is written back with the identity.

    The commands go through the host's dispatch ([HostDispatch.v]).  The random
    identifier and the clock's successive readings are arguments. *)
From stdpp Require Import gmap.
From S2P Require Export Members HostDispatch.
Open Scope Z_scope.

(** [ir::IdentityProvider], [ir::AuthorizationProvider]. *)
Record IdentityProvider := { identity_provider_name : str; register : str; link : str; resolve : str }.
Record AuthorizationProvider := { grant : str; assignment_aggregate : str; live_assignments : option str }.

Section providers.
Context {V : Type} `{SV : Serde V}.

(** [identity_provider], [authorization_provider]. *)
Definition identity_provider (ir : V) : option IdentityProvider :=
  fact ← sv_get ir "identity"; provider ← sv_get_str fact "provider"; register ← sv_get_str fact "register";
  link ← sv_get_str fact "link"; resolve ← sv_get_str fact "resolve";
  Some {| identity_provider_name := provider; register := register; link := link; resolve := resolve |}.
Definition authorization_provider (ir : V) : option AuthorizationProvider :=
  fact ← sv_get ir "authorization"; grant ← sv_get_str fact "grant";
  assignment_aggregate ← sv_get_str fact "assignment_aggregate";
  Some {| grant := grant; assignment_aggregate := assignment_aggregate; live_assignments := sv_get_str fact "live_assignments" |}.

(** [identity_id_from_state], [resolve_identity], [resolve_identity_from_head]. *)
Definition identity_id_from_state (state : V) : option str :=
  match sv_get_str state "identity" with Some s => Some s | None =>
  match valued_str state "identity" with Some s => Some s | None =>
  match sv_get_str state "identity_id" with Some s => Some s | None => valued_str state "identity_id"
  end end end.
Definition resolve_identity (instances : V) (issuer subject : str) : option str :=
  state ← sv_get instances ("Identity::ExternalIdentifier#" ++ issuer ++ ":" ++ subject); identity_id_from_state state.
Definition resolve_identity_from_head (d : Data V) (ir : V) (issuer subject : str) : option str :=
  _ ← identity_provider ir;
  state ← head_find d [ir_name ir; "Identity" : str] "external_identifier" [("issuer" : str, issuer); ("subject" : str, subject)];
  identity_id_from_state state.

(** What a provisioned member's row becomes. *)
Definition linked_state (member : V) (identity : str) : V := sv_insert member "identity_id" (value_object (sv_str identity)).
(** The role of a member who is in and has no identity yet. *)
Definition unlinked_role (now : Z) (member : V) : option str :=
  if is_lapsed_at member now then None
  else match role_of member, valued member "identity_id" with Some role, None => Some role | _, _ => None end.
End providers.

Section provision.
Context `{U : UnicodeTables} {V I : Type} `{SV : Serde V} `{SB : !Sandbox V} `{Inv : !Invoker V I}.
Context (wasm_path : str) (config : LineageConfig) (installed : option V) (ir_depth : nat) (fault : option Fault)
        (mode : Enforcement) (ir : V) (clock : nat → Moment).

Definition member_error_text (e : MemberError) : str :=
  match e with NoMembership m => m | StoreFailed e => store_error_text e end.
Definition no_identity : str :=
  "this domain attaches no bluebook that provides " ++ dquote ++ "identity" ++ dquote ++ " — cannot register or link an identity".
Definition no_authorization : str :=
  "this domain attaches no bluebook that provides " ++ dquote ++ "authorization" ++ dquote ++ " — cannot grant a role".

(** One of the commands of a provisioning; the clock is read at most twice. *)
Definition issued (n : nat) (verb : str) (args : V) (h : HostState V I) : Prelude.result str unit * HostState V I :=
  match handle wasm_path config installed ir_depth fault mode verb args None (clock n) (clock (S n)) h with
  | (Err e, h') => (Err e, h')
  | (Ok outcome, h') =>
    (if accepted outcome then Ok () else Err (verb ++ " refused: " ++ sv_text (result_of outcome)), h')
  end.

(** An identity registered and linked to the outside one. *)
Definition register_args (identity : str) : V := sv_obj [("identity_id" : str, value_object (sv_str identity))].
Definition link_args (identity issuer subject : str) : V := sv_obj [
  ("identity" : str, sv_str identity); ("key" : str, value_object (sv_str (issuer ++ ":" ++ subject)));
  ("issuer" : str, value_object (sv_str issuer)); ("subject" : str, value_object (sv_str subject))].
Definition mint_identity (provider : IdentityProvider) (fresh issuer subject : str) (h : HostState V I) :
    Prelude.result str str * HostState V I :=
  match issued 1 (register provider) (register_args fresh) h with
  | (Err e, h') => (Err e, h')
  | (Ok _, h') =>
    match issued 3 (link provider) (link_args fresh issuer subject) h' with
    | (Err e, h'') => (Err e, h'')
    | (Ok _, h'') => (Ok fresh, h'')
    end
  end.
Definition identity_for (provider : IdentityProvider) (fresh issuer subject : str) (h : HostState V I) :=
  match resolve_identity_from_head (store h) ir issuer subject with
  | Some existing => (Ok existing, h)
  | None => mint_identity provider fresh issuer subject h
  end.

(** The grant of the role, and the row written back. *)
Definition assign_args (identity role : str) : V := sv_obj [
  ("actor_id" : str, value_object (sv_str identity)); ("role_name" : str, value_object (sv_str role));
  ("scope" : str, value_object (sv_str (config_domain config)));
  ("starts_at" : str, value_object (sv_str (iso8601_now (elapsed (clock 5)))))].
Definition link_member (email identity : str) (member : V) (h : HostState V I) : Prelude.result str unit * HostState V I :=
  match append_member_state (store h) config ir email (linked_state member identity) with
  | (Ok _, d) => (Ok (), with_store h d)
  | (Err e, d) => (Err (member_error_text e), with_store h d)
  end.
Definition granted_identity (email identity role : str) (member : V) (h : HostState V I) :
    Prelude.result str (option Session) * HostState V I :=
  match authorization_provider ir with
  | None => (Err no_authorization, h)
  | Some provider =>
    match issued 6 (grant provider) (assign_args identity role) h with
    | (Err e, h') => (Err e, h')
    | (Ok _, h') =>
      match link_member email identity member h' with
      | (Err e, h'') => (Err e, h'')
      | (Ok _, h'') =>
        (Ok (Some {| identity_id := identity; session_email := email;
                     session_name := default [] (valued_str member "name"); session_role := Some role |}), h'')
      end
    end
  end.

(** [provision]. *)
Definition provision (fresh email issuer subject : str) (h : HostState V I) :
    Prelude.result str (option Session) * HostState V I :=
  match member_row_by_email (store h) ir email with
  | Err e => (Err (member_error_text e), h)
  | Ok None => (Ok None, h)
  | Ok (Some member) =>
    match unlinked_role (clock_secs (clock 0)) member with
    | None => (Ok None, h)
    | Some role =>
      match identity_provider ir with
      | None => (Err no_identity, h)
      | Some provider =>
        match identity_for provider fresh issuer subject h with
        | (Err e, h') => (Err e, h')
        | (Ok identity, h') => granted_identity email identity role member h'
        end
      end
    end
  end.
End provision.
