(* ===== verification/MemberFacts.v ===== *)
(** What keeps a site open to its own people ([Members.v]): no operation takes the
    last open-ended admin away, only an active admin changes others, disabling
    keeps all else; what a deletion does not keep shut; and what a provisioning
    ([Provision.v]) promises, and its late write undoes. *)
From stdpp Require Import gmap.
From S2P Require Export Members HostStoreFacts.
Open Scope Z_scope.

(** ** Names of aggregates *)

Fixpoint before_sep (sep s : str) : str :=
  match s with [] => [] | c :: s' => if starts_with s sep then [] else c :: before_sep sep s' end.
Lemma split_go_head (sep piece s : str) :
  head (split_go sep 0 piece s) = Some (rev piece ++ before_sep sep s).
Proof.
  revert piece. induction s as [|c s IH]; intros piece; cbn [split_go before_sep]; [by rewrite app_nil_r|].
  destruct (starts_with (c :: s) sep); [by rewrite app_nil_r|]. rewrite IH. simpl. by rewrite <- app_assoc.
Qed.
Lemma starts_with_prefix (a b sep : str) : starts_with a sep = true → starts_with (a ++ b) sep = true.
Proof.
  revert a. induction sep as [|x sep IH]; intros a; [by destruct (a ++ b)|]. destruct a as [|y a]; simpl; [done|].
  rewrite !andb_true_iff. intros [Hx Hs]. split; [done|by apply IH].
Qed.
Lemma before_sep_prefix (sep s : str) : ∃ rest, s = before_sep sep s ++ rest.
Proof.
  induction s as [|c s [rest IH]]; cbn [before_sep]; [by exists []|].
  destruct (starts_with (c :: s) sep); [by eexists|]. exists rest. simpl. by f_equal.
Qed.
Lemma before_sep_twice (sep s : str) : before_sep sep (before_sep sep s) = before_sep sep s.
Proof.
  induction s as [|c s IH]; cbn [before_sep]; [done|]. destruct (starts_with (c :: s) sep) eqn:E; [done|].
  cbn [before_sep]. destruct (starts_with (c :: before_sep sep s) sep) eqn:E'; [|by rewrite IH].
  destruct (before_sep_prefix sep s) as [rest Hr].
  assert (starts_with ((c :: before_sep sep s) ++ rest) sep = true) as Hs by (by apply starts_with_prefix).
  cbn [app] in Hs. rewrite <- Hr in Hs. congruence.
Qed.
Lemma last_piece_twice (s sep : str) : last_piece (last_piece s sep) sep = last_piece s sep.
Proof.
  assert (∀ t, first_piece t sep = before_sep sep t) as Hf.
  { intros t. unfold first_piece, split. by rewrite split_go_head. }
  unfold last_piece. by rewrite !Hf, rev_involutive, before_sep_twice.
Qed.

Section members.
Context `{U : UnicodeTables} {V : Type} `{SV : Serde V} `{SL : !SerdeLaws V}.
Implicit Types d : Data V.

(** ** The rows of a head *)
Lemma head_all_in d (domain storage id : str) (s : V) :
  In (id, s) (head_all d domain storage) ↔ head_by_id d domain storage id = Some s.
Proof.
  unfold head_all, head_by_id. destruct (heads d !! (domain, storage)) as [m|]; cbn [mbind option_bind]; [|done].
  unfold rows_by_id. by rewrite <- list_elem_of_In, sort_by_perm, elem_of_map_to_list.
Qed.

(** A domain whose members are kept where the host writes them. *)
Record settled (c : LineageConfig) (ir : V) (aggregate storage : str) : Prop := {
  settled_names : membership_aggregate ir = Ok (aggregate, storage);
  settled_domain : ir_name ir = config_domain c
}.
Lemma settled_storage (c : LineageConfig) (ir : V) (aggregate storage : str) :
  settled c ir aggregate storage → storage_name aggregate = storage.
Proof.
  intros [Hn _]. unfold membership_aggregate in Hn. destruct (membership_provider ir) as [[p a]|]; [|done].
  unfold membership_names in Hn. injection Hn as <- <-. unfold storage_name. by rewrite last_piece_twice.
Qed.

(** Unicode's lowercase of a lowercase text is that text. *)
Context (lower_twice : ∀ s, to_lowercase (to_lowercase s) = to_lowercase s).
Context (c : LineageConfig) (ir : V) (aggregate storage : str) (Hset : settled c ir aggregate storage).
Definition member d (id : str) : option V := head_by_id d (config_domain c) storage id.
Definition rows d : list (str * V) := head_all d (config_domain c) storage.

Lemma rows_in d (id : str) (s : V) : In (id, s) (rows d) ↔ member d id = Some s.
Proof. apply head_all_in. Qed.
Lemma member_rows_ok d : member_rows d ir = Ok (rows d).
Proof. unfold member_rows. rewrite (settled_names _ _ _ _ Hset). by rewrite (settled_domain _ _ _ _ Hset). Qed.

(** One row saved, or nothing. *)
Definition saved d (id : str) (s : V) d' : Prop := ∀ id', member d' id' = if decide (id' = id) then Some s else member d id'.
Lemma put_member d (id : str) (s : V) :
  (era c = None ∧ put_heads d c [{| mutation_aggregate := aggregate; mutation_id := id; mutation_operation := "save"; mutation_state := s |}] =
     (Err (Backend (no_era c)), d)) ∨
  (∃ d', put_heads d c [{| mutation_aggregate := aggregate; mutation_id := id; mutation_operation := "save"; mutation_state := s |}] = (Ok (), d') ∧
         saved d id s d').
Proof.
  unfold put_heads, apply_heads. destruct (era c) as [e|]; [right|by left]. cbn [andb find mutation_operation].
  unfold str_eqb. rewrite bool_decide_true by done. cbn [negb]. eexists. split; [done|]. intros id'.
  unfold member, head_by_id. cbn [with_heads heads fold_left]. rewrite put_head_get.
  cbn [mutation_aggregate mutation_id mutation_state]. rewrite (settled_storage _ _ _ _ Hset).
  destruct (decide (id' = id)) as [->|Hne]; [by rewrite decide_True|]. by rewrite decide_False by (by intros [_ ?]).
Qed.

Lemma amend_cases {T} d (decision : list (str * V) → Amendment T) :
  match decision (rows d) with
  | (answer, None) => amend_members d c ir decision = (Ok answer, d)
  | (answer, Some (id, s)) =>
    (∃ e, amend_members d c ir decision = (Err e, d)) ∨
    (∃ d', amend_members d c ir decision = (Ok answer, d') ∧ saved d id s d')
  end.
Proof.
  unfold amend_members. rewrite (settled_names _ _ _ _ Hset). unfold amend_head. fold (rows d).
  destruct (decision (rows d)) as [answer [[id s]|]]; [|done].
  destruct (put_member d id s) as [[_ ->]|(d' & -> & Hs)]; [left; by eexists|right; by exists d'].
Qed.

(** ** Open-ended admins *)

(** An admin without an end date is one at any time. *)
Lemma open_admin_always (now later : Z) (s : V) : is_open_admin now s = is_open_admin later s.
Proof.
  unfold is_open_admin, is_active_admin, is_lapsed_at, is_expired_at.
  by destruct (window_of s); rewrite ?andb_false_r.
Qed.

Definition has_open_admin d : Prop := ∃ id s, member d id = Some s ∧ ∀ now, is_open_admin now s = true.

Lemma unstranded_keeps (now : Z) d d' (id : str) (s : V) :
  strands_open_admin now (rows d) id s = false → saved d id s d' → has_open_admin d → has_open_admin d'.
Proof.
  intros Hs Hd (i & t & Hi & Ho). unfold strands_open_admin in Hs.
  assert (existsb (λ r, is_open_admin now r.2) (rows d) = true) as Hhad.
  { apply existsb_exists. exists (i, t). split; [by apply rows_in|apply Ho]. }
  rewrite Hhad in Hs. cbn [andb] in Hs. apply orb_false_iff in Hs as [Hk _]. apply negb_false_iff, orb_true_iff in Hk.
  destruct Hk as [Hk|Hk].
  - exists id, s. split; [by rewrite Hd, decide_True|]. intros later. by rewrite (open_admin_always later now).
  - apply existsb_exists in Hk as ([i' t'] & Hin & Hk). apply andb_true_iff in Hk as [Hne Hk]. simpl in Hne, Hk.
    exists i', t'. split.
    + rewrite Hd. rewrite decide_False; [by apply rows_in|]. intros ->. unfold str_eqb in Hne.
      by rewrite bool_decide_true in Hne.
    + intros later. by rewrite (open_admin_always later now).
Qed.

Lemma find_person_in (rs : list (str * V)) (target id : str) (s : V) :
  find_person rs target = Some (id, s) → In (id, s) rs ∧ to_lowercase id = target.
Proof.
  unfold find_person. intros Hf. destruct (find_some _ _ Hf) as [Hin Hk]. split; [done|].
  unfold str_eqb in Hk. by apply bool_decide_eq_true in Hk.
Qed.

(** Another row saved leaves an open-ended admin where it was. *)
Lemma other_row_keeps d d' (id : str) (s : V) :
  saved d id s d' → (∀ t now, member d id = Some t → is_open_admin now t = false) → has_open_admin d → has_open_admin d'.
Proof.
  intros Hd Hno (i & t & Hi & Ho). exists i, t. split; [|done]. rewrite Hd. destruct (decide (i = id)) as [->|]; [|done].
  specialize (Hno t 0 Hi). by rewrite Ho in Hno.
Qed.

(** Whatever is done to a site's members: at any time, by anyone, to anyone. *)
Inductive Change : Data V → Data V → Prop :=
| Granted now d email role until : Change d (grant_access_until now d c ir email role until).2
| Disabled now d caller target off : Change d (set_person_disabled now d c ir caller target off).2
| Deleted now d caller target : Change d (set_person_deleted now d c ir caller target).2
| Role now d caller target role : Change d (set_person_role now d c ir caller target role).2
| Joined d email name : Change d (admit_person d c ir email name).2.

Lemma amend_step {T} d (decision : list (str * V) → Amendment T) :
  (∀ answer id s d', decision (rows d) = (answer, Some (id, s)) → saved d id s d' → has_open_admin d → has_open_admin d') →
  has_open_admin d → has_open_admin (amend_members d c ir decision).2.
Proof.
  intros Hk Ho. pose proof (amend_cases d decision) as Ha. destruct (decision (rows d)) as [answer [[id s]|]] eqn:Ed.
  - destruct Ha as [(e & ->)|(d' & -> & Hs)]; [done|]. by eapply Hk.
  - by rewrite Ha.
Qed.

Lemma change_keeps d d' : Change d d' → has_open_admin d → has_open_admin d'.
Proof.
  intros [now d0 email role until|now d0 caller target off|now d0 caller target|now d0 caller target role|d0 email name] Ho.
  - apply amend_step; [|done]. intros answer id s d1 Ed Hs _. unfold grant_decision in Ed.
    destruct (find_person _ _) as [[i m]|]; [|done]. destruct (strands_open_admin _ _ _ _) eqn:Es; [done|].
    injection Ed as _ <- <-. by eapply unstranded_keeps.
  - apply amend_step; [|done]. intros answer id s d1 Ed Hs _. unfold disable_decision in Ed.
    destruct (negb _); [done|]. destruct (off && _); [done|]. destruct (find_person _ _) as [[i m]|]; [|done].
    destruct (Bool.eqb _ _); [done|]. destruct (off && _); [done|]. destruct (strands_open_admin _ _ _ _) eqn:Es; [done|].
    injection Ed as _ <- <-. by eapply unstranded_keeps.
  - apply amend_step; [|done]. intros answer id s d1 Ed Hs _. unfold delete_decision in Ed.
    destruct (negb _); [done|]. destruct (find_person _ _) as [[i m]|] eqn:Ef; [|done].
    destruct (is_deleted m); [done|]. destruct (is_disabled m) eqn:Edis; [|done]. injection Ed as _ <- <-.
    eapply other_row_keeps; [exact Hs| |done]. intros t t0 Ht. apply find_person_in in Ef as [Hin _].
    apply rows_in in Hin. rewrite Hin in Ht. injection Ht as <-.
    unfold is_open_admin, is_active_admin, is_lapsed_at. rewrite Edis. by rewrite andb_false_r.
  - apply amend_step; [|done]. intros answer id s d1 Ed Hs _. unfold role_decision in Ed.
    destruct (negb _); [done|]. destruct (find_person _ _) as [[i m]|]; [|done].
    case_bool_decide; [done|]. destruct (_ && _); [done|]. destruct (strands_open_admin _ _ _ _) eqn:Es; [done|].
    injection Ed as _ <- <-. by eapply unstranded_keeps.
  - unfold admit_person. rewrite member_rows_ok. destruct (existsb _ _) eqn:Ee; [done|].
    unfold append_member_state. rewrite (settled_names _ _ _ _ Hset).
    destruct (put_member d0 (to_lowercase email) (admitted_state (to_lowercase email) name)) as [[_ ->]|(d2 & -> & Hs)]; [done|].
    cbn [snd]. eapply other_row_keeps; [exact Hs| |done]. intros t now Ht. exfalso.
    rewrite (proj2 (existsb_exists _ _)) in Ee; [done|]. exists (to_lowercase email, t).
    split; [by apply rows_in|]. simpl. unfold str_eqb. by rewrite bool_decide_true.
Qed.

(** C12: a site that has an admin without an end date keeps one, whatever is done to its
    members, by anyone, at any time, in any order. *)
Theorem sites_keep_an_open_admin d d' : rtc Change d d' → has_open_admin d → has_open_admin d'.
Proof. induction 1 as [|x y z Hx _ IH]; [done|]. intros Ho. by apply IH, (change_keeps x). Qed.

(** Only an active admin changes others: for anyone else the answer says so and the
    store is left as it was. *)
Theorem only_admins_change_members (now : Z) d (caller target role : str) (off : bool) :
  caller_active now (rows d) (email_key caller) = false →
  set_person_disabled now d c ir caller target off = (Ok DisableCallerNotAdmin, d) ∧
  set_person_deleted now d c ir caller target = (Ok DeleteCallerNotAdmin, d) ∧
  set_person_role now d c ir caller target role = (Ok RoleCallerNotAdmin, d).
Proof.
  intros Hc. split_and!.
  - pose proof (amend_cases d (disable_decision now (email_key caller) (email_key target) off)) as H.
    unfold disable_decision in H at 1. by rewrite Hc in H.
  - pose proof (amend_cases d (delete_decision now (email_key caller) (email_key target))) as H.
    unfold delete_decision in H at 1. by rewrite Hc in H.
  - pose proof (amend_cases d (role_decision now (email_key caller) (email_key target) role)) as H.
    unfold role_decision in H at 1. by rewrite Hc in H.
Qed.

(** ** Disabling and enabling *)
Lemma existsb_same {A} (f g : A → bool) (l : list A) : (∀ x, f x = g x) → existsb f l = existsb g l.
Proof. intros H. induction l as [|x l IH]; simpl; [done|]. by rewrite H, IH. Qed.

(** Disabling touches the flag alone: every other field of the row is kept, and
    enabling again gives the row's answers back. *)
Lemma disabled_state_get (s : V) (off : bool) (k : str) :
  sv_is_object s = true → k ≠ "disabled" → sv_get (disabled_state s off) k = sv_get s k.
Proof.
  intros Hs Hk. unfold disabled_state. destruct off.
  - rewrite sv_get_insert by done. by rewrite decide_False by congruence.
  - rewrite Hs, sv_get_remove by done. by rewrite decide_False by congruence.
Qed.
Lemma disabled_state_flag (s : V) (off : bool) : sv_is_object s = true → is_disabled (disabled_state s off) = off.
Proof.
  intros Hs. unfold is_disabled, flag, disabled_state. destruct off.
  - rewrite sv_get_insert by done. rewrite decide_True by done. cbn [mbind option_bind]. by rewrite sv_as_bool_bool.
  - rewrite Hs, sv_get_remove by done. by rewrite decide_True.
Qed.
Lemma disabled_state_keeps (s : V) (off : bool) : sv_is_object s = true →
  role_of (disabled_state s off) = role_of s ∧ window_of (disabled_state s off) = window_of s ∧
  is_deleted (disabled_state s off) = is_deleted s ∧ linked_identity_id (disabled_state s off) = linked_identity_id s.
Proof.
  intros Hs. unfold role_of, window_of, window_value, is_deleted, flag, linked_identity_id, valued_str, valued.
  by rewrite !disabled_state_get by (done || by vm_compute).
Qed.

(** The keys of a head whose rows were admitted here are lowercase. *)
Definition lower_keys d : Prop := ∀ id s, member d id = Some s → to_lowercase id = id.

Lemma find_person_own d (id : str) (s : V) :
  lower_keys d → member d id = Some s → find_person (rows d) id = Some (id, s).
Proof.
  intros Hl Hm. destruct (find_person (rows d) id) as [[i t]|] eqn:E.
  - apply find_person_in in E as [Hin Hi]. apply rows_in in Hin. rewrite (Hl _ _ Hin) in Hi. subst i. congruence.
  - exfalso. pose proof (find_none _ _ E (id, s) (proj2 (rows_in _ _ _) Hm)) as Hn. cbn [fst] in Hn.
    rewrite (Hl _ _ Hm) in Hn. unfold str_eqb in Hn. by rewrite bool_decide_true in Hn.
Qed.

(** Enabling someone never strands the site. *)
Lemma enabling_strands_no_one (now : Z) d (caller id : str) (s after : V) :
  lower_keys d → member d id = Some s → is_disabled s = true → caller_active now (rows d) caller = true →
  strands_open_admin now (rows d) id after = false.
Proof.
  intros Hl Hm Hd Hc. unfold strands_open_admin. apply orb_false_iff. split.
  - destruct (existsb (λ r, is_open_admin now r.2) (rows d)) eqn:E; [|done]. cbn [andb].
    apply existsb_exists in E as ([i t] & Hin & Ho). apply negb_false_iff, orb_true_iff. right.
    apply existsb_exists. exists (i, t). split; [done|]. cbn [fst snd] in *. rewrite Ho, andb_true_r.
    apply rows_in in Hin. rewrite (Hl _ _ Hin), (Hl _ _ Hm). unfold str_eqb. rewrite bool_decide_false; [done|].
    intros ->. rewrite Hm in Hin. injection Hin as <-. unfold is_open_admin, is_active_admin, is_lapsed_at in Ho.
    by rewrite Hd, andb_false_r in Ho.
  - apply andb_false_iff. left. apply andb_false_iff. left. apply negb_false_iff, existsb_exists.
    unfold caller_active in Hc. apply existsb_exists in Hc as (r & Hin & Hr). exists r. split; [done|].
    apply andb_true_iff in Hr as [_ Hr]. unfold is_active_admin in Hr. by apply andb_true_iff in Hr as [? _].
Qed.

(** A deletion is not the end: a deleted person whom an admin enables again is let
    in, no list of people shows the person, and admitting the person anew does nothing. *)
Theorem deleted_people_come_back_unlisted (now : Z) d d' (caller id name role : str) (s : V) o :
  lower_keys d → email_key id = id → member d id = Some s →
  is_deleted s = true → is_disabled s = true → role_of s = Some role → window_of s = Open →
  caller_active now (rows d) (email_key caller) = true →
  set_person_disabled now d c ir caller id false = (Ok o, d') →
  o = DisableDone ∧ has_access now d' ir id = Ok true ∧
  (∃ people, all_people now d' ir = Ok people ∧
     ∀ p, In p people → ∃ i t, i ≠ id ∧ member d i = Some t ∧ p = person_row now t) ∧
  admit_person d' c ir id name = (Ok false, d').
Proof.
  intros Hl Hid Hm Hdel Hdis Hrole Hwin Hc Hset'.
  assert (sv_is_object s = true) as Hobj.
  { unfold is_deleted, flag in Hdel. destruct (sv_get s "deleted") eqn:E; [by eapply sv_get_is|done]. }
  unfold set_person_disabled in Hset'.
  pose proof (amend_cases d (disable_decision now (email_key caller) (email_key id) false)) as Ha.
  unfold disable_decision in Ha at 1. rewrite Hc, Hid, (find_person_own _ _ _ Hl Hm), Hdis in Ha. cbn [negb andb Bool.eqb] in Ha.
  rewrite (enabling_strands_no_one _ _ _ _ _ _ Hl Hm Hdis Hc) in Ha. rewrite Hid in Hset'.
  destruct Ha as [(e & Ha)|(d1 & Ha & Hs)]; rewrite Ha in Hset'; [done|]. injection Hset' as <- <-.
  destruct (disabled_state_keeps s false Hobj) as (Hr & Hw & Hd & _).
  assert (member d1 id = Some (disabled_state s false)) as Hm1 by (by rewrite Hs, decide_True).
  pose proof (proj2 (rows_in _ _ _) Hm1) as Hin1. pose proof (Hl _ _ Hm) as Hlow.
  assert (∀ (f : V → bool), f (disabled_state s false) = true →
    existsb (λ r, str_eqb (to_lowercase r.1) (to_lowercase id) && f r.2) (rows d1) = true) as Hex.
  { intros f Hf. apply existsb_exists. exists (id, disabled_state s false). split; [done|]. cbn [fst snd].
    unfold str_eqb. by rewrite bool_decide_true, Hf. }
  split_and!; [done| | |].
  - unfold has_access. rewrite member_rows_ok. f_equal.
    etrans; [|apply (Hex (λ t, match role_of t with Some _ => true | None => false end && negb (is_lapsed_at t now)))].
    + apply existsb_same. intros r. by rewrite andb_assoc.
    + rewrite Hr, Hrole. unfold is_lapsed_at, is_expired_at. by rewrite (disabled_state_flag _ _ Hobj), Hw, Hwin.
  - unfold all_people. rewrite member_rows_ok. eexists. split; [done|]. intros p Hp.
    apply in_map_iff in Hp as ([i t] & <- & Hit). apply filter_In in Hit as [Hit Hnd]. cbn [snd] in *.
    exists i, t. apply rows_in in Hit. rewrite Hs in Hit. destruct (decide (i = id)) as [->|Hne]; [|done].
    assert (t = disabled_state s false) as -> by congruence. by rewrite Hd, Hdel in Hnd.
  - unfold admit_person. rewrite member_rows_ok.
    pose proof (Hex (λ _, true) eq_refl) as He. cbn beta in He.
    rewrite (existsb_same _ (λ r, str_eqb (to_lowercase r.1) (to_lowercase id) && true)); [by rewrite He|].
    intros r. by rewrite andb_true_r.
Qed.
End members.

(** ** Provisioning *)

(** What a provisioning promises ([Provision.v]): only a member who is in, holds a
    role and has no identity is given one, with the role the row holds; and what the
    row written back forgets. *)
From S2P Require Export Provision.
Open Scope Z_scope.

Section provision.
Context `{U : UnicodeTables} {V I : Type} `{SV : Serde V} `{SL : !SerdeLaws V} `{SB : !Sandbox V} `{Inv : !Invoker V I}.
Context (wasm_path : str) (c : LineageConfig) (installed : option V) (ir_depth : nat) (fault : option Fault)
        (mode : Enforcement) (ir : V) (clock : nat → Moment) (aggregate storage : str) (Hset : settled c ir aggregate storage).
Abbreviation row h email := (member c storage (store h) email).
Abbreviation provision_here := (provision wasm_path c installed ir_depth fault mode ir clock).

Lemma link_member_row (email identity : str) (m : V) (h h' : HostState V I) :
  link_member c ir email identity m h = (Ok (), h') → row h' email = Some (linked_state m identity).
Proof.
  unfold link_member, append_member_state. rewrite (settled_names _ _ _ _ Hset).
  destruct (put_member c ir aggregate storage Hset (store h) email (linked_state m identity)) as [[_ ->]|(d' & -> & Hs)]; [done|].
  intros [= <-]. cbn [store with_store]. by rewrite Hs, decide_True.
Qed.

Lemma granted_row (email identity role : str) (m : V) (h h' : HostState V I) given :
  granted_identity wasm_path c installed ir_depth fault mode ir clock email identity role m h = (Ok given, h') →
  given = Some {| identity_id := identity; session_email := email; session_name := default [] (valued_str m "name");
                  session_role := Some role |} ∧ row h' email = Some (linked_state m identity).
Proof.
  unfold granted_identity. destruct (authorization_provider ir) as [p|]; [|done].
  destruct (issued _ _ _ _ _ _ _ _ _ _ h) as [[?|e] h1]; [|done].
  destruct (link_member _ _ _ _ _ h1) as [[[]|e] h2] eqn:E; [|done]. intros [= <- <-]. split; [done|].
  by eapply link_member_row.
Qed.

Lemma provisioning_cases (fresh email issuer subject : str) (h h' : HostState V I) given :
  provision_here fresh email issuer subject h = (Ok given, h') →
  match given with
  | None => h' = h
  | Some s =>
    ∃ m, row h email = Some m ∧ is_lapsed_at m (clock_secs (clock 0)) = false ∧ valued m "identity_id" = None ∧
      session_email s = email ∧ session_role s = role_of m ∧ role_of m ≠ None ∧
      row h' email = Some (linked_state m (identity_id s)) ∧
      identity_id s = default fresh (resolve_identity_from_head (store h) ir issuer subject)
  end.
Proof.
  unfold provision, member_row_by_email. rewrite (settled_names _ _ _ _ Hset), (settled_domain _ _ _ _ Hset). cbn [snd].
  fold (row h email). destruct (row h email) as [m|] eqn:Em; [|by intros [= <- <-]].
  unfold unlinked_role. destruct (is_lapsed_at m _) eqn:El; [by intros [= <- <-]|].
  destruct (role_of m) as [role|] eqn:Er; [|by intros [= <- <-]].
  destruct (valued m "identity_id") eqn:Ei; [by intros [= <- <-]|].
  destruct (identity_provider ir) as [p|]; [|done].
  destruct (identity_for _ _ _ _ _ _ _ _ _ _ _ _) as [[identity|e] h1] eqn:Eid; [|done].
  intros [-> Hrow]%granted_row. exists m. cbn [session_email session_role identity_id]. rewrite Er. split_and!; try done. unfold identity_for in Eid.
  destruct (resolve_identity_from_head _ _ _ _) as [i|]; [by simplify_eq|].
  revert Eid. unfold mint_identity. destruct (issued _ _ _ _ _ _ _ _ _ _ h) as [[?|?] ?]; [|done].
  destruct (issued _ _ _ _ _ _ _ _ _ _ _) as [[?|?] ?]; [|done]. by intros [= <- _].
Qed.
(** The members who are given a session. *)
Lemma provisioning_is_for_granted (fresh email issuer subject : str) (h h' : HostState V I) (s : Session) :
  provision_here fresh email issuer subject h = (Ok (Some s), h') →
  ∃ m, row h email = Some m ∧ is_lapsed_at m (clock_secs (clock 0)) = false ∧ session_role s = role_of m ∧
    session_email s = email ∧ valued m "identity_id" = None ∧ row h' email = Some (linked_state m (identity_id s)).
Proof. intros (m & H1 & H2 & H3 & H4 & H5 & _ & H6 & _)%provisioning_cases. by exists m. Qed.
(** A session is given to a member whose row says so — not disabled, inside the window,
    with the role the session carries, and without an identity before — and the row
    is then linked to the session's identity, the one the outside identity was linked
    to where there was one. Where none is given, nothing happened. *)
Theorem provisioning_is_for_granted_members (fresh email issuer subject : str) (h h' : HostState V I) given :
  provision_here fresh email issuer subject h = (Ok given, h') →
  match given with
  | None => h' = h
  | Some s =>
    ∃ m, row h email = Some m ∧ is_lapsed_at m (clock_secs (clock 0)) = false ∧ valued m "identity_id" = None ∧
      session_email s = email ∧ session_role s = role_of m ∧ role_of m ≠ None ∧
      row h' email = Some (linked_state m (identity_id s)) ∧
      identity_id s = default fresh (resolve_identity_from_head (store h) ir issuer subject)
  end.
Proof. apply provisioning_cases. Qed.

(** The row is written back as it was read, with no lock over the time between: an
    admin's disabling of the member in that time is undone by the late write, and the
    member is in again. *)
Theorem late_links_undo_a_disabling (now : Z) (email identity role : str) (m t : V) (h h' : HostState V I) :
  lower_keys c storage (store h) → row h email = Some t → is_disabled t = true →
  unlinked_role now m = Some role → link_member c ir email identity m h = (Ok (), h') →
  has_access now (store h) ir email = Ok false ∧ has_access now (store h') ir email = Ok true.
Proof.
  intros Hl Ht Hdis Hu Hlink. split.
  { unfold has_access. rewrite (member_rows_ok c ir aggregate storage Hset). f_equal. apply not_true_iff_false.
    intros ([i s] & Hin & Hi)%existsb_exists. cbn [fst snd] in Hi. apply rows_in in Hin.
    rewrite (Hl _ _ Hin), (Hl _ _ Ht), !andb_true_iff in Hi. destruct Hi as ((Hi & _) & Hn).
    apply bool_decide_eq_true in Hi. subst i. rewrite Ht in Hin. injection Hin as <-.
    unfold is_lapsed_at in Hn. by rewrite Hdis in Hn. }
  apply link_member_row in Hlink as Hrow. unfold unlinked_role in Hu.
  destruct (is_lapsed_at m now) eqn:El; [done|]. destruct (role_of m) as [r|] eqn:Er; [|done].
  assert (sv_is_object m = true) as Hobj.
  { unfold role_of, valued_str, valued in Er. destruct (sv_get m "role") eqn:E; [by eapply sv_get_is|done]. }
  unfold has_access. rewrite (member_rows_ok c ir aggregate storage Hset). f_equal. apply existsb_exists.
  exists (email, linked_state m identity). split; [by apply rows_in|]. cbn [fst snd].
  assert (∀ k, k ≠ "identity_id" → sv_get (linked_state m identity) k = sv_get m k) as Hk.
  { intros k Hk. unfold linked_state. rewrite sv_get_insert by done. by rewrite decide_False by congruence. }
  assert (role_of (linked_state m identity) = role_of m) as ->.
  { unfold role_of, valued_str, valued. by rewrite Hk by (by vm_compute). }
  assert (is_lapsed_at (linked_state m identity) now = is_lapsed_at m now) as ->.
  { unfold is_lapsed_at, is_disabled, flag, is_expired_at, window_of, window_value. by rewrite !Hk by (by vm_compute). }
  rewrite Er, El. unfold str_eqb. by rewrite bool_decide_true.
Qed.
End provision.
