(* ===== verification/SigninConfig.v ===== *)
(** What a site must be told before anyone signs in through the platform
    ([src/rust/host/src/platform_signin/config.rs], [settings.rs]), and how long an
    issuer lets its keys be kept ([fetcher.rs] [max_age_of]).

    The map of variables is a [gmap]; an address is read as its code points.  The facts say what settings
    that were accepted promise. *)
From stdpp Require Import gmap.
From S2P Require Export Verifier Tokens IpText.
Open Scope Z_scope.

(** Texts in bytes. *)
Definition byte_len (s : str) : Z := Z.of_nat (length (utf8_encode s)).

(** ** [config.rs] *)

Definition ISSUER_URL_VARIABLE : str := "PLATFORM_ISSUER_URL".
Definition JWKS_URL_VARIABLE : str := "PLATFORM_JWKS_URL".
Definition SITE_ID_VARIABLE : str := "PLATFORM_SITE_ID".
Definition ENVIRONMENT_VARIABLE : str := "PLATFORM_ENVIRONMENT".
Definition DEFAULT_SKEW_SECONDS : Z := 30.
Definition DEFAULT_MAX_LIFETIME_SECONDS : Z := 60.
Definition DEFAULT_MAX_TOKEN_BYTES : nat := Z.to_nat 4096.
Definition DEFAULT_JWKS_PATH : str := "/.well-known/jwks.json".
Definition ENVIRONMENTS : list str := ["production"; "staging"].
Definition HTTPS : str := "https://".

(** [ConfigProblem] and its description, [ConfigError]. *)
Inductive ConfigProblem :=
| Missing | NotHttps | CredentialsInUrl | PathQueryOrFragment | BadHost | UpperCase | BadShape | WrongHostForIssuer
| NotAnEnvironment.
Definition describe (p : ConfigProblem) : str :=
  match p with
  | Missing => "is not set"
  | NotHttps => "must be an https URL"
  | CredentialsInUrl => "must not carry credentials"
  | PathQueryOrFragment => "must not carry a path, query or fragment (no trailing slash)"
  | BadHost => "must name a plain lowercase host and an optional port"
  | UpperCase => "must be lowercase"
  | BadShape => "has an invalid shape"
  | WrongHostForIssuer => "must be on the issuer's host"
  | NotAnEnvironment => "must be production or staging"
  end.
Record ConfigError := { config_variable : str; config_problem : ConfigProblem }.
Definition config_error_text (e : ConfigError) : str := config_variable e ++ " " ++ describe (config_problem e).

(** [PlatformSigninConfig::new]. *)
Definition new_config (issuer_url jwks_url site_id environment : str) : PlatformSigninConfig := {|
  issuer_url := issuer_url; jwks_url := jwks_url; site_id := site_id; environment := environment;
  skew_seconds := DEFAULT_SKEW_SECONDS; max_lifetime_seconds := DEFAULT_MAX_LIFETIME_SECONDS;
  max_token_bytes := DEFAULT_MAX_TOKEN_BYTES
|}.

(** [optional], [required]; a result's error under the variable at fault. *)
Definition optional (vars : gmap str str) (name : str) : option str :=
  match vars !! name with Some [] | None => None | Some value => Some value end.
Definition at_variable {A} (name : str) (r : result ConfigProblem A) : result ConfigError A :=
  match r with Ok a => Ok a | Err p => Err {| config_variable := name; config_problem := p |} end.
Definition required (vars : gmap str str) (name : str) : result ConfigError str :=
  at_variable name (ok_or (optional vars name) Missing).

(** [split_https]: the authority, and what follows it. *)
Definition ends_authority (c : char) : bool := (c =? 47)%N || (c =? 63)%N || (c =? 35)%N || (c =? 92)%N.
Fixpoint split_authority (s : str) : str * str :=
  match s with
  | [] => ([], [])
  | c :: s' => if ends_authority c then ([], s) else let (a, r) := split_authority s' in (c :: a, r)
  end.
Definition split_https (url : str) : result ConfigProblem (str * str) :=
  match strip_prefix url HTTPS with Some rest => Ok (split_authority rest) | None => Err NotHttps end.

(** [valid_label], [valid_host], [check_authority], [issuer_authority]. *)
Definition has_char (s : str) (c : char) : bool := existsb (N.eqb c) s.
Definition label_char (c : char) : bool := is_lower c || is_digit c || (c =? 45)%N.
Definition valid_label (label : str) : bool :=
  negb (bool_decide (label = [])) && (byte_len label <=? 63) && negb (starts_with label "-") && negb (ends_with label "-") &&
  forallb label_char label.
Definition valid_host (host : str) : bool := (byte_len host <=? 253) && forallb valid_label (split host ".").
Definition valid_port (p : str) : bool :=
  negb (bool_decide (p = [])) && forallb is_digit p &&
  match parse_digits p with Some n => (n <=? 65535)%N && (0 <? n)%N | None => false end.
Definition check_authority (authority : str) : result ConfigProblem unit :=
  if has_char authority 64 then Err CredentialsInUrl
  else if existsb is_upper authority then Err UpperCase
  else
    let (host, port) := match split_once authority 58 with
                        | Some (host, port) => (host, Some port) | None => (authority, None) end in
    if match port with Some p => valid_port p | None => true end && valid_host host then Ok () else Err BadHost.
Definition issuer_authority (url : str) : result ConfigProblem str :=
  let? parts := split_https url in
  match parts.2 with
  | [] => let? _ := check_authority parts.1 in Ok parts.1
  | _ => Err PathQueryOrFragment
  end.

(** [check_jwks_url], [check_site_id], [check_environment]. *)
Definition is_graphic (c : char) : bool := (33 <=? c)%N && (c <=? 126)%N.
Definition check_jwks_url (url authority : str) : result ConfigProblem str :=
  let? parts := split_https url in
  if has_char parts.1 64 then Err CredentialsInUrl
  else if negb (str_eqb parts.1 authority) then Err WrongHostForIssuer
  else if has_char parts.2 63 || has_char parts.2 35 then Err PathQueryOrFragment
  else if starts_with parts.2 "/" && forallb is_graphic parts.2 && negb (has_char parts.2 92) then Ok url else Err BadShape.
Definition check_site_id (site : str) : result ConfigProblem unit :=
  match site with
  | [] => Err BadShape
  | c :: rest => if (is_lower c || is_digit c) && forallb label_char rest && (byte_len site <=? 63) then Ok () else Err BadShape
  end.
Definition check_environment (e : str) : result ConfigProblem unit :=
  if existsb (str_eqb e) ENVIRONMENTS then Ok () else Err NotAnEnvironment.

(** [PlatformSigninConfig::from_env_map]. *)
Definition config_from_env_map (vars : gmap str str) : result ConfigError PlatformSigninConfig :=
  let? issuer_url := required vars ISSUER_URL_VARIABLE in
  let? authority := at_variable ISSUER_URL_VARIABLE (issuer_authority issuer_url) in
  let? jwks_url := match optional vars JWKS_URL_VARIABLE with
                   | Some url => at_variable JWKS_URL_VARIABLE (check_jwks_url url authority)
                   | None => Ok (issuer_url ++ DEFAULT_JWKS_PATH)
                   end in
  let? site_id := required vars SITE_ID_VARIABLE in
  let? _ := at_variable SITE_ID_VARIABLE (check_site_id site_id) in
  let? environment := required vars ENVIRONMENT_VARIABLE in
  let? _ := at_variable ENVIRONMENT_VARIABLE (check_environment environment) in
  Ok (new_config issuer_url jwks_url site_id environment).

(** ** [settings.rs] *)

Definition MODE_VARIABLE : str := "PLATFORM_SIGNIN".
Definition SITE_URL_VARIABLE : str := "SITE_URL".
Definition SESSION_SECRET_VARIABLE : str := "SESSION_SECRET".
Definition SERVE_MODE_VARIABLE : str := "HECKS_SERVE_MODE".
Definition ACCOUNT_COOKIE_VARIABLE : str := "HECKS_SESSION_COOKIE".

(** [Mode], [SigninSettings], [SettingsError]. *)
Inductive Mode := Alongside | DefaultMode.
Record SigninSettings := {
  mode : Mode; config : PlatformSigninConfig; site_url : str; session_secret : str; account_cookie : str
}.
Inductive SettingsError := ConfigFault (e : ConfigError) | Setting (variable problem : str).
Definition settings_error_text (e : SettingsError) : str :=
  match e with ConfigFault e => config_error_text e | Setting variable problem => variable ++ " " ++ problem end.
Definition fault_variable (e : SettingsError) : str :=
  match e with ConfigFault e => config_variable e | Setting variable _ => variable end.

Definition required_setting (vars : gmap str str) (name : str) : result SettingsError str :=
  ok_or (optional vars name) (Setting name "is not set").

(** [read_mode], [read_site_url], [check_serve_mode], [read_account_cookie]. *)
Definition read_mode (vars : gmap str str) : result SettingsError (option Mode) :=
  match optional vars MODE_VARIABLE with
  | None => Ok None
  | Some m =>
    if str_eqb m "alongside" then Ok (Some Alongside) else if str_eqb m "default" then Ok (Some DefaultMode)
    else Err (Setting MODE_VARIABLE "must be alongside or default, or be left unset")
  end.
Definition origin_char (c : char) : bool :=
  negb (ends_authority c || (c =? 64)%N || (c =? 32)%N).
Definition strip_suffix (s suffix : str) : option str :=
  match strip_prefix (rev s) (rev suffix) with Some r => Some (rev r) | None => None end.
Definition read_site_url (vars : gmap str str) : result SettingsError str :=
  let? url := required_setting vars SITE_URL_VARIABLE in
  let origin := default url (strip_suffix url "/") in
  let authority := default [] (strip_prefix origin HTTPS) in
  if negb (bool_decide (authority = [])) && forallb origin_char authority then Ok origin
  else Err (Setting SITE_URL_VARIABLE "must be a plain https address with no path, query or credentials").
Definition check_serve_mode (vars : gmap str str) : result SettingsError unit :=
  if bool_decide (optional vars SERVE_MODE_VARIABLE = Some ("1" : str)) then Ok ()
  else Err (Setting SERVE_MODE_VARIABLE "must be 1: platform sign-in needs the single long-lived server").

Section settings.
Context `{U : UnicodeTables}.
Definition read_account_cookie (vars : gmap str str) : result SettingsError str :=
  match resolve_account_cookie (optional vars ACCOUNT_COOKIE_VARIABLE) with
  | Ok name => Ok name
  | Err _ => Err (Setting ACCOUNT_COOKIE_VARIABLE "is not a valid cookie name")
  end.

(** [SigninSettings::from_env_map]. *)
Definition settings_from_env_map (vars : gmap str str) : result SettingsError (option SigninSettings) :=
  let? m := read_mode vars in
  match m with
  | None => Ok None
  | Some m =>
    let? c := match config_from_env_map vars with Ok c => Ok c | Err e => Err (ConfigFault e) end in
    let? site := read_site_url vars in
    let? secret := required_setting vars SESSION_SECRET_VARIABLE in
    let? _ := check_serve_mode vars in
    let? cookie := read_account_cookie vars in
    Ok (Some {| mode := m; config := c; site_url := site; session_secret := secret; account_cookie := cookie |})
  end.
End settings.

(** ** [fetcher.rs] *)

(** [max_age_of]. *)
Definition directive (d : str) : str := map ascii_lower (IpText.trim d).
Definition max_age_of (cache_control : str) : option Z :=
  let directives := map directive (split cache_control ",") in
  if existsb (λ d, str_eqb d "no-store" || str_eqb d "no-cache") directives then None
  else
    match list.head (omap (λ d, strip_prefix d "max-age=") directives) with
    | Some text => match parse_i64 text with Some n => if 0 <=? n then Some n else None | None => None end
    | None => None
    end.

(** ** Facts *)

(** What validated sign-in settings promise ([SigninConfig.v]): the issuer and its
    keys are at one https address, the site's own address is https, and nothing is
    read while the switch is off. *)
Open Scope Z_scope.

(** ** Addresses *)
Lemma strip_prefix_some (s p rest : str) : strip_prefix s p = Some rest → s = p ++ rest.
Proof. unfold strip_prefix. destruct (starts_with s p) eqn:E; [|done]. intros [= <-]. by apply starts_with_split. Qed.

Lemma split_authority_join (s a r : str) :
  split_authority s = (a, r) → s = a ++ r ∧ existsb ends_authority a = false ∧ match r with [] => True | c :: _ => ends_authority c = true end.
Proof.
  revert a r. induction s as [|c s IH]; intros a r; simpl; [by intros [= <- <-]|]. destruct (ends_authority c) eqn:Ec.
  - by intros [= <- <-].
  - destruct (split_authority s) as [a' r'] eqn:E. intros [= <- <-]. destruct (IH a' r' eq_refl) as (-> & Ha & Hr).
    simpl. by rewrite Ec, Ha.
Qed.
Lemma split_https_join (url : str) (a r : str) :
  split_https url = Ok (a, r) → url = HTTPS ++ a ++ r ∧ existsb ends_authority a = false.
Proof.
  unfold split_https. destruct (strip_prefix url HTTPS) as [rest|] eqn:E; [|done]. intros [= Hs].
  apply strip_prefix_some in E as ->. by apply split_authority_join in Hs as (-> & Ha & _).
Qed.
(** The characters of an address: a host's labels, dots and a port. *)
Definition authority_char (c : char) : bool := label_char c || (c =? 46)%N || (c =? 58)%N.
Lemma forallb_join (p : char → bool) (sep : str) (l : list str) :
  forallb p sep = true → forallb (forallb p) l = true → forallb p (join sep l) = true.
Proof.
  intros Hs. induction l as [|x l IH]; [done|]. cbn [forallb]. intros [Hx Hl]%andb_true_iff.
  destruct l as [|y l]; [exact Hx|].
  rewrite join_cons by done. rewrite !forallb_app, Hx, Hs. by apply IH.
Qed.
Lemma forallb_weaken {A} (p q : A → bool) (l : list A) : (∀ x, p x = true → q x = true) → forallb p l = true → forallb q l = true.
Proof. intros H. rewrite !forallb_forall. intros Hp x Hx. by apply H, Hp. Qed.

Lemma valid_host_chars (host : str) : valid_host host = true → forallb authority_char host = true.
Proof.
  unfold valid_host. rewrite andb_true_iff. intros [_ Hl]. rewrite <- (join_split host ".") by done.
  apply forallb_join; [done|]. revert Hl. apply forallb_weaken. intros l Hl. unfold valid_label in Hl.
  rewrite !andb_true_iff in Hl. destruct Hl as [_ Hl]. revert Hl. apply forallb_weaken.
  intros c Hc. unfold authority_char. by rewrite Hc.
Qed.
Lemma check_authority_chars (a : str) : check_authority a = Ok () → a ≠ [] ∧ forallb authority_char a = true.
Proof.
  unfold check_authority. destruct (has_char a 64); [done|]. destruct (existsb is_upper a); [done|].
  destruct (split_once a 58) as [[host port]|] eqn:E.
  - destruct (valid_port port && valid_host host) eqn:Ev; [|done]. intros _. apply andb_true_iff in Ev as [Hp Hh].
    apply split_once_join in E as ->. split; [by destruct host|]. rewrite !forallb_app, (valid_host_chars _ Hh). cbn [forallb andb].
    unfold valid_port in Hp. rewrite !andb_true_iff in Hp. destruct Hp as [[_ Hp] _]. apply andb_true_iff. split; [done|].
    revert Hp. apply forallb_weaken. intros c Hc. unfold authority_char, label_char. by rewrite Hc, orb_true_r.
  - cbn [andb]. destruct (valid_host a) eqn:Eh; [|done]. intros _. split; [by intros ->|by apply valid_host_chars].
Qed.

Lemma required_some (vars : gmap str str) (name v : str) : required vars name = Ok v → vars !! name = Some v ∧ v ≠ [].
Proof.
  unfold required, at_variable, ok_or, optional. destruct (vars !! name) as [[|c s]|]; try done. by intros [= <-].
Qed.

(** An accepted configuration names one https address, in lowercase, without
    credentials; the issuer's text is that address and nothing more, its keys are
    served from the same host and port, at a plain path; the environment is one an
    issuer signs for and the site's reference is a short lowercase name; and the
    windows are the defaults. *)
Theorem accepted_configurations_pin_the_issuer (vars : gmap str str) (c : PlatformSigninConfig) :
  config_from_env_map vars = Ok c →
  ∃ authority path,
    issuer_url c = HTTPS ++ authority ∧ authority ≠ [] ∧ forallb authority_char authority = true ∧
    jwks_url c = HTTPS ++ authority ++ "/" ++ path ∧ forallb is_graphic path = true ∧
    existsb (λ x, (x =? 63)%N || (x =? 35)%N || (x =? 92)%N) path = false ∧
    In (environment c) ENVIRONMENTS ∧ forallb label_char (site_id c) = true ∧ 1 <= byte_len (site_id c) <= 63 ∧
    skew_seconds c = 30 ∧ max_lifetime_seconds c = 60 ∧ max_token_bytes c = Z.to_nat 4096.
Proof.
  unfold config_from_env_map. destruct (required vars ISSUER_URL_VARIABLE) as [url|e]; [|done]. cbn beta iota.
  destruct (issuer_authority url) as [a|e] eqn:Ea; [|done]. cbn [at_variable].
  unfold issuer_authority in Ea. destruct (split_https url) as [[a' r]|e] eqn:Eu; [|done]. cbn [fst snd] in Ea.
  destruct r as [|x r]; [|done]. destruct (check_authority a') as [[]|e] eqn:Ec; [|done]. injection Ea as ->.
  apply split_https_join in Eu as [-> Hends]. rewrite app_nil_r. apply check_authority_chars in Ec as [Hne Hch].
  destruct (match optional vars JWKS_URL_VARIABLE with
            | Some given => at_variable JWKS_URL_VARIABLE (check_jwks_url given a)
            | None => Ok ((HTTPS ++ a) ++ DEFAULT_JWKS_PATH)
            end) as [jwks|e] eqn:Ej; [|done]. cbn beta iota.
  destruct (required vars SITE_ID_VARIABLE) as [site|e]; [|done]. cbn beta iota.
  destruct (check_site_id site) as [[]|e] eqn:Es; [|done]. cbn [at_variable].
  destruct (required vars ENVIRONMENT_VARIABLE) as [env|e]; [|done]. cbn beta iota.
  destruct (check_environment env) as [[]|e] eqn:Ee; [|done]. cbn [at_variable]. intros [= <-].
  cbn [issuer_url jwks_url site_id environment skew_seconds max_lifetime_seconds max_token_bytes new_config].
  assert (∃ path, jwks = HTTPS ++ a ++ "/" ++ path ∧ forallb is_graphic path = true ∧
    existsb (λ x, (x =? 63)%N || (x =? 35)%N || (x =? 92)%N) path = false) as (path & Hj & Hg & Hq).
  { destruct (optional vars JWKS_URL_VARIABLE) as [given|].
    - destruct (check_jwks_url given a) as [j|e] eqn:Eg; [|done]. injection Ej as ->. unfold check_jwks_url in Eg.
      destruct (split_https given) as [[a2 r]|e] eqn:Eu; [|done]. cbn [fst snd] in Eg. apply split_https_join in Eu as [-> _].
      destruct (has_char a2 64); [done|]. destruct (str_eqb a2 a) eqn:Eq; [|done]. apply bool_decide_eq_true in Eq as ->.
      destruct (has_char r 63 || has_char r 35) eqn:Er; [done|]. apply orb_false_iff in Er as [E1 E2].
      destruct (starts_with r "/" && forallb is_graphic r && negb (has_char r 92)) eqn:E3; [|done]. injection Eg as <-.
      rewrite !andb_true_iff, negb_true_iff in E3. destruct E3 as [[E3 E4] E5]. apply starts_with_split in E3.
      exists (drop 1 r). split; [rewrite E3 at 1; reflexivity|]. destruct r as [|x r]; [done|]. cbn [drop]. cbn [forallb] in E4.
      apply andb_true_iff in E4 as [_ E4]. split; [done|]. apply not_true_iff_false. intros (y & Hy & Hc)%existsb_exists.
      assert (∀ k, has_char (x :: r) k = false → (y =? k)%N = false) as Hno.
      { intros k Hk. apply not_true_iff_false. intros Hyk. apply N.eqb_eq in Hyk as ->.
        unfold has_char in Hk. rewrite (proj2 (existsb_exists _ _)) in Hk; [done|]. exists k. split; [by right|apply N.eqb_refl]. }
      by rewrite (Hno 63%N E1), (Hno 35%N E2), (Hno 92%N E5) in Hc.
    - injection Ej as <-. exists (drop 1 DEFAULT_JWKS_PATH). split; [|split; vm_compute; reflexivity].
      reflexivity. }
  exists a, path. assert (In env ENVIRONMENTS ∧ forallb label_char site = true ∧ 1 <= byte_len site <= 63) as (He & Hs & Hl).
  { split.
    - unfold check_environment in Ee. destruct (existsb (str_eqb env) ENVIRONMENTS) eqn:E; [|done].
      apply existsb_exists in E as (x & Hx & Hxe). apply bool_decide_eq_true in Hxe. by subst x.
    - unfold check_site_id in Es. destruct site as [|x rest]; [done|].
      destruct ((is_lower x || is_digit x) && forallb label_char rest && (byte_len (x :: rest) <=? 63)) eqn:E; [|done].
      rewrite !andb_true_iff, Z.leb_le in E. destruct E as [[E1 E2] E3]. split; [|split; [|done]].
      + cbn [forallb]. rewrite E2, andb_true_r. unfold label_char. by rewrite E1.
      + unfold byte_len. cbn [utf8_encode flat_map]. rewrite length_app.
        assert (1 ≤ length (utf8_char x))%nat by (unfold utf8_char; repeat case_match; simpl; lia). lia. }
  split_and!; done || lia.
Qed.

(** ** Settings *)

(** The switch off is the whole answer; on, it takes every other setting, and the
    site's own address is https, so that the account's cookie is always a secure one. *)
Theorem settings_are_all_or_nothing `{U : UnicodeTables} (vars : gmap str str) :
  (settings_from_env_map vars = Ok None ↔ optional vars MODE_VARIABLE = None) ∧
  ∀ s, settings_from_env_map vars = Ok (Some s) →
    config_from_env_map vars = Ok (config s) ∧
    (∃ authority, site_url s = HTTPS ++ authority ∧ authority ≠ [] ∧ forallb origin_char authority = true) ∧
    optional vars SESSION_SECRET_VARIABLE = Some (session_secret s) ∧
    vars !! SERVE_MODE_VARIABLE = Some ("1" : str) ∧ account_cookie s ≠ [] ∧ forallb cookie_name_char (account_cookie s) = true.
Proof.
  unfold settings_from_env_map, read_mode. split.
  { destruct (optional vars MODE_VARIABLE) as [m|]; [|done]. split; [|done].
    destruct (str_eqb m "alongside"); [|destruct (str_eqb m "default"); [|done]]; cbn beta iota; intros H; exfalso; revert H;
      repeat (match goal with |- (let? _ := ?r in _) = _ → _ => destruct r; [cbn beta iota|done] end); done. }
  intros s. destruct (optional vars MODE_VARIABLE) as [m|]; [|done].
  assert (∀ mo, (let? c := match config_from_env_map vars with Ok c => Ok c | Err e => Err (ConfigFault e) end in
    let? site := read_site_url vars in
    let? secret := required_setting vars SESSION_SECRET_VARIABLE in
    let? _ := check_serve_mode vars in
    let? cookie := read_account_cookie vars in
    Ok (Some {| mode := mo; config := c; site_url := site; session_secret := secret; account_cookie := cookie |})) = Ok (Some s) →
    config_from_env_map vars = Ok (config s) ∧
    (∃ authority, site_url s = HTTPS ++ authority ∧ authority ≠ [] ∧ forallb origin_char authority = true) ∧
    optional vars SESSION_SECRET_VARIABLE = Some (session_secret s) ∧
    vars !! SERVE_MODE_VARIABLE = Some ("1" : str) ∧ account_cookie s ≠ [] ∧ forallb cookie_name_char (account_cookie s) = true) as H;
    [|destruct (str_eqb m "alongside"); [|destruct (str_eqb m "default"); [|done]]; apply H].
  intros mo. destruct (config_from_env_map vars) as [c|e]; [|done]. cbn beta iota.
  destruct (read_site_url vars) as [site|e] eqn:E1; [|done]. cbn beta iota.
  destruct (required_setting vars SESSION_SECRET_VARIABLE) as [secret|e] eqn:E2; [|done]. cbn beta iota.
  destruct (check_serve_mode vars) as [[]|e] eqn:E3; [|done]. cbn beta iota.
  destruct (read_account_cookie vars) as [cookie|e] eqn:E4; [|done]. intros [= <-].
  cbn [config site_url session_secret account_cookie]. split_and!; [done| | | | |].
  - unfold read_site_url in E1. destruct (required_setting vars SITE_URL_VARIABLE) as [url|e]; [|done]. cbn beta iota zeta in E1.
    destruct (negb _ && _) eqn:E; [|done]. injection E1 as <-. apply andb_true_iff in E as [Hne Ho].
    exists (default [] (strip_prefix (default url (strip_suffix url "/")) HTTPS)).
    split; [|split; [|done]].
    + destruct (strip_prefix (default url (strip_suffix url "/")) HTTPS) as [a|] eqn:Ea; [by apply strip_prefix_some in Ea|].
      cbn [default from_option id] in Hne. by rewrite bool_decide_true in Hne.
    + intros Hnil. rewrite Hnil in Hne. by rewrite bool_decide_true in Hne.
  - unfold required_setting, ok_or in E2. destruct (optional vars SESSION_SECRET_VARIABLE); [by injection E2 as ->|done].
  - unfold check_serve_mode in E3. case_bool_decide as Hb; [|done]. unfold optional in Hb.
    destruct (vars !! SERVE_MODE_VARIABLE) as [[|? ?]|]; [done|exact Hb|done].
  - unfold read_account_cookie, resolve_account_cookie in E4.
    destruct (optional vars ACCOUNT_COOKIE_VARIABLE) as [[|x n]|]; [by injection E4 as <-| |by injection E4 as <-].
    destruct (forallb cookie_name_char (x :: n)); [|done]. by injection E4 as <-.
  - unfold read_account_cookie, resolve_account_cookie in E4.
    destruct (optional vars ACCOUNT_COOKIE_VARIABLE) as [[|x n]|]; [by injection E4 as <-| |by injection E4 as <-].
    destruct (forallb cookie_name_char (x :: n)) eqn:E; [|done]. by injection E4 as <-.
Qed.
