(* ===== verification/SigninFlow.v ===== *)
(** The platform sign-in around the verifier ([src/rust/host/src/platform_signin/]):
    the browser's cookie ([cookie.rs]), the callback's query ([query.rs]), the answers
    ([pages.rs]), a token's holder found among the members ([session.rs]), the two
    halves of the flow ([handler.rs]) and its routes ([extension.rs]).

    The handler is its settings with the verifier and the log it has written; the
    members it asks are a [MemberDirectory], of which the host's store is an instance.
    Random values and the clock's readings are arguments: [now] of the verification,
    [later] of the account token. *)
From stdpp Require Import gmap.
From S2P Require Export SigninConfig Provision.
Open Scope Z_scope.

(** ** [cookie.rs] *)

Definition ATTRIBUTES : str := "Path=/; Secure; HttpOnly; SameSite=Lax".
Definition NAME : str := "__Host-signin".
Definition MAX_AGE_SECONDS : Z := 600.
Definition MIN_VALUE_LENGTH : Z := 16.
Definition MAX_VALUE_LENGTH : Z := 128.
Inductive CookieFault := Absent | RepeatedCookie | MalformedCookie.
Definition cookie_fault_debug (f : CookieFault) : str :=
  match f with Absent => "Absent" | RepeatedCookie => "Repeated" | MalformedCookie => "Malformed" end.

(** [set_header], [clear_header]. *)
Definition set_header (c : SigninCookie) : str :=
  NAME ++ "=" ++ nonce c ++ "." ++ cookie_state c ++ "; Max-Age=" ++ dec_Z MAX_AGE_SECONDS ++ "; " ++ ATTRIBUTES.
Definition clear_header : str := NAME ++ "=; Max-Age=0; " ++ ATTRIBUTES.

(** [parse_value], [read]. *)
Definition acceptable (part : str) : bool :=
  (MIN_VALUE_LENGTH <=? byte_len part) && (byte_len part <=? MAX_VALUE_LENGTH) && forallb url_safe part.
Definition parse_value (value : str) : option SigninCookie :=
  match split_once value 46 with
  | Some (nonce, state) =>
    if acceptable nonce && acceptable state then Some {| nonce := nonce; cookie_state := state |} else None
  | None => None
  end.
Definition signin_values (pairs : list str) : list str :=
  omap (λ pair, match split_once pair 61 with
                | Some (name, value) => if str_eqb (IpText.trim name) NAME then Some (IpText.trim value) else None
                | None => None
                end) pairs.
Definition read_cookie (pairs : list str) : result CookieFault SigninCookie :=
  match signin_values pairs with
  | [] => Err Absent
  | [value] => ok_or (parse_value value) MalformedCookie
  | _ => Err RepeatedCookie
  end.

(** ** [query.rs] *)

Definition MAX_QUERY_BYTES : Z := 16 * 1024.
Record CallbackParams := { param_token : str; param_state : str }.
Inductive ParamFault := OversizedQuery | BadEncoding | MissingParam | RepeatedParam.
Definition param_fault_debug (f : ParamFault) : str :=
  match f with OversizedQuery => "Oversized" | BadEncoding => "BadEncoding" | MissingParam => "Missing" | RepeatedParam => "Repeated" end.

(** [hex_byte], [decode]: the percent escapes of a text's bytes. *)
Definition escaped_byte (a b : N) : option N :=
  x ← to_digit 16 a; y ← to_digit 16 b; Some (x * 16 + y)%N.
Fixpoint unescape (bs : list N) : option (list N) :=
  match bs with
  | [] => Some []
  | 37%N :: rest =>
    match rest with
    | a :: b :: rest' => x ← escaped_byte a b; cons x <$> unescape rest'
    | _ => None
    end
  | b :: rest => cons b <$> unescape rest
  end.
Definition decode (s : str) : result ParamFault str :=
  ok_or (bs ← unescape (utf8_encode s); utf8_decode bs) BadEncoding.

(** [decode_pairs], [single], [parse_callback], [has_value]. *)
Definition decode_pair (pair : str) : result ParamFault (str * str) :=
  let (name, value) := default (pair, []) (split_once pair 61) in
  let? n := decode name in let? v := decode value in Ok (n, v).
Definition decode_pairs (raw_query : str) : result ParamFault (list (str * str)) :=
  if MAX_QUERY_BYTES <? byte_len raw_query then Err OversizedQuery
  else collect_results decode_pair (List.filter (λ pair, negb (bool_decide (pair = []))) (split raw_query "&")).
Definition named (pairs : list (str * str)) (name : str) : list str :=
  (List.filter (λ p, str_eqb p.1 name) pairs).*2.
Definition single (pairs : list (str * str)) (name : str) : result ParamFault str :=
  match named pairs name with [] => Err MissingParam | [value] => Ok value | _ => Err RepeatedParam end.
Definition parse_callback (raw_query : str) : result ParamFault CallbackParams :=
  let? pairs := decode_pairs raw_query in
  let? token := single pairs "token" in
  let? state := single pairs "state" in
  Ok {| param_token := token; param_state := state |}.
Definition has_value (raw_query name value : str) : bool :=
  match decode_pairs raw_query with
  | Ok pairs => existsb (λ p, str_eqb p.1 name && str_eqb p.2 value) pairs
  | Err _ => false
  end.

(** ** [pages.rs] *)

Inductive Failure := CookieFailure | StateFailure | ParamsFailure | TokenFailure | Unlinked | Unavailable.
Definition failure_code (f : Failure) : str :=
  match f with
  | CookieFailure => "platform_cookie" | StateFailure => "platform_state" | ParamsFailure => "platform_params"
  | TokenFailure => "platform_token" | Unlinked => "google_unlinked" | Unavailable => "platform_unavailable"
  end.
Definition failure_status (f : Failure) : Z := match f with Unlinked => 403 | Unavailable => 500 | _ => 400 end.
Definition failure_message (f : Failure) : str :=
  match f with
  | Unlinked => "This account does not have access to this site."
  | Unavailable => "Sign-in is unavailable. Please try again later."
  | _ => "This sign-in link is not valid or has expired. Please start again from the site you came from."
  end.
(** [failure_for]. *)
Definition failure_for (r : Reason) : Failure :=
  match r with MissingCookie => CookieFailure | StateMismatch => StateFailure | _ => TokenFailure end.

(** [account_cookie_flags] ([web.rs]). *)
Definition COOKIE_FLAGS_SECURE : str := "; Path=/; HttpOnly; Secure; SameSite=Lax".
Definition COOKIE_FLAGS_PLAIN : str := "; Path=/; HttpOnly; SameSite=Lax".
Definition account_cookie_flags (redirect_uri site_url : str) : str :=
  let judged_by := if bool_decide (redirect_uri = []) then site_url else redirect_uri in
  if starts_with judged_by "http://" then COOKIE_FLAGS_PLAIN else COOKIE_FLAGS_SECURE.

Section pages.
Context {V : Type} `{SV : Serde V}.
Definition quoted (s : str) : str := dquote ++ s ++ dquote.
Definition page_headers : V := sv_obj [
  ("content-type" : str, sv_str "text/html; charset=utf-8"); ("cache-control" : str, sv_str "no-store");
  ("referrer-policy" : str, sv_str "no-referrer"); ("x-content-type-options" : str, sv_str "nosniff");
  ("content-security-policy" : str, sv_str "default-src 'none'; frame-ancestors 'none'")].
Definition refusal_body (f : Failure) : str :=
  "<!doctype html><html lang=" ++ quoted "en" ++ "><head><meta charset=" ++ quoted "utf-8" ++
  "><title>Sign-in</title></head><body><p>" ++ failure_message f ++ "</p><p>Code: " ++ failure_code f ++
  "</p></body></html>" ++ [10%N].
(** [refusal], [redirect]. *)
Definition refusal (f : Failure) : V := sv_obj [
  ("statusCode" : str, sv_i64 (failure_status f)); ("headers" : str, page_headers);
  ("cookies" : str, sv_array [sv_str clear_header]); ("body" : str, sv_str (refusal_body f));
  ("isBase64Encoded" : str, sv_bool false)].
Definition redirect (location : str) (cookies : list str) : V := sv_obj [
  ("statusCode" : str, sv_i64 302);
  ("headers" : str, sv_obj [("location" : str, sv_str location); ("cache-control" : str, sv_str "no-store");
                            ("referrer-policy" : str, sv_str "no-referrer")]);
  ("cookies" : str, sv_array (map sv_str cookies)); ("body" : str, sv_str []); ("isBase64Encoded" : str, sv_bool false)].

(** [request_pairs] ([cookie.rs]): the listed cookies, and then the header's. *)
Definition request_pairs (event : V) : list str :=
  let listed := omap sv_as_str (sv_list event "cookies") in
  let header := match (h ← sv_get event "headers"; sv_get_str h "cookie") with Some h => split h ";" | None => [] end in
  List.filter (λ pair, negb (bool_decide (pair = []))) (map IpText.trim (listed ++ header)).
End pages.

(** ** [session.rs] *)

Definition LANDING_PATH : str := "/admin.html".

(** [MemberDirectory]: each question may change what it asks. *)
Class MemberDirectory (D : Type) := {
  identity_of : D → str → str → Prelude.result str (option str) * D;
  session_for_identity : D → str → Prelude.result str (option Session) * D;
  provision_member : D → str → str → str → Prelude.result str (option Session) * D
}.

Definition has_role (s : Session) : bool :=
  match session_role s with Some role => negb (bool_decide (role = [])) | None => false end.

(** [RoleDrift], [role_drift]. *)
Definition role_drift (c : VerifiedClaims) (s : Session) : option (option str * option str) :=
  let token_role := list.head (roles c) in
  if bool_decide (token_role = session_role s) then None else Some (token_role, session_role s).

Section mapping.
Context {D : Type} `{MD : MemberDirectory D}.
(** [map_member]: by the identity, then by the email, then refused. *)
Definition by_identity (d : D) (issuer subject : str) : Prelude.result str (option Session) * D :=
  match identity_of d issuer subject with
  | (Err e, d) => (Err e, d)
  | (Ok None, d) => (Ok None, d)
  | (Ok (Some identity), d) => session_for_identity d identity
  end.
Definition session_of (d : D) (email issuer subject : str) : Prelude.result str (option Session) * D :=
  match by_identity d issuer subject with
  | (Ok None, d) => provision_member d email issuer subject
  | found => found
  end.
Definition map_member (d : D) (c : VerifiedClaims) : Prelude.result str (option Session) * D :=
  match idp_issuer c, idp_subject c with
  | Some issuer, Some subject =>
    match session_of d (email c) issuer subject with
    | (Ok (Some s), d) => (Ok (if has_role s then Some s else None), d)
    | found => found
    end
  | _, _ => (Ok None, d)
  end.
End mapping.

(** ** [handler.rs] *)

(** [TokenVerifier]: what it says of a request, and none where its thread did not
    finish. *)
Class TokenVerifier (T : Type) := token_verify : T → SigninRequest → Z → option (result Reason VerifiedClaims) * T.

(** [CallbackRequest], [SigninHandler], the log's lines. *)
Record CallbackRequest := { raw_query : str; cookie_pairs : list str }.
Record SigninHandler (V T : Type) := { settings : SigninSettings; token_verifier : T; lines : list (str * V) }.
Arguments settings {V T}. Arguments token_verifier {V T}. Arguments lines {V T}. Arguments Build_SigninHandler {V T}.

Section handler.
Context `{U : UnicodeTables} `{H : Sha256} `{B : Base64Url} `{M : Hmac} {V : Type} `{SV : Serde V} `{ST : SerdeText V}
  {T : Type} `{TV : TokenVerifier T} {D : Type} `{MD : MemberDirectory D}.

Definition record (h : SigninHandler V T) (event : str) (fields : V) : SigninHandler V T :=
  {| settings := settings h; token_verifier := token_verifier h; lines := lines h ++ [(event, fields)] |}.

(** [fresh_value], of the bytes of two random identifiers. *)
Definition fresh_value (a b : list N) : str := url_encode (a ++ b).

(** [authorize_url], [start]. *)
Definition authorize_url (s : SigninSettings) (c : SigninCookie) : str :=
  issuer_url (config s) ++ "/sso/authorize?site=" ++ urlencode (site_id (config s)) ++ "&env=" ++
  urlencode (environment (config s)) ++ "&nonce=" ++ urlencode (nonce c) ++ "&state=" ++ urlencode (cookie_state c).
Definition start (h : SigninHandler V T) (nonce state : str) : V * SigninHandler V T :=
  let c := {| nonce := nonce; cookie_state := state |} in
  (redirect (authorize_url (settings h) c) [set_header c], record h "platform_signin_started" sv_object).

(** [short_hash], [refused_with], [refused]. *)
Definition short_hash (email : str) : str := "h:" ++ hex_encode (take 4 (Crypto.sha256 (utf8_encode (to_lowercase email)))).
Definition refused_with (h : SigninHandler V T) (f : Failure) (reason : str) (email : option str) : Failure * SigninHandler V T :=
  let fields := sv_obj [("code" : str, sv_str (failure_code f)); ("reason" : str, sv_str reason)] in
  let fields := match email with Some e => sv_insert fields "who" (sv_str (short_hash e)) | None => fields end in
  (f, record h "platform_signin_refused" fields).
Definition refused (h : SigninHandler V T) (f : Failure) (reason : str) : Failure * SigninHandler V T :=
  refused_with h f reason None.
Definition log_success (h : SigninHandler V T) (c : VerifiedClaims) (s : Session) : SigninHandler V T :=
  let who := sv_str (short_hash (email c)) in
  let h := match role_drift c s with
           | Some (token_role, local_role) =>
             record h "platform_signin_role_drift" (sv_obj [("token_role" : str, sv_of_option token_role);
               ("local_role" : str, sv_of_option local_role); ("who" : str, who)])
           | None => h
           end in
  record h "platform_signin_succeeded" (sv_obj [("who" : str, who)]).

(** [signed_in] ([session.rs]). *)
Definition account_header (s : SigninSettings) (email : str) (now : Z) : str :=
  account_cookie s ++ "=" ++ account_token (V:=V) (session_secret s) email SESSION_TTL_SECS now ++
  account_cookie_flags [] (site_url s) ++ "; Max-Age=" ++ dec_Z SESSION_TTL_SECS.
Definition signed_in (s : SigninSettings) (given : Session) (now : Z) : V :=
  redirect LANDING_PATH [account_header s (session_email given) now; clear_header].

(** [verified]. *)
Definition verified (h : SigninHandler V T) (c : SigninCookie) (p : CallbackParams) (now : Z) :
    result Failure VerifiedClaims * SigninHandler V T :=
  let request := {| request_token := Some (param_token p); request_state := Some (param_state p); request_cookie := Some c |} in
  let (outcome, t) := token_verify (token_verifier h) request now in
  let h := {| settings := settings h; token_verifier := t; lines := lines h |} in
  match outcome with
  | None => let (f, h) := refused h Unavailable "verification_did_not_finish" in (Err f, h)
  | Some (Err r) => let (f, h) := refused h (failure_for r) (code r) in (Err f, h)
  | Some (Ok claims) => (Ok claims, h)
  end.

(** [finish], [callback]. *)
Definition finish (h : SigninHandler V T) (d : D) (r : CallbackRequest) (now later : Z) : result Failure V * SigninHandler V T * D :=
  match read_cookie (cookie_pairs r) with
  | Err fault => let (f, h) := refused h CookieFailure (cookie_fault_debug fault) in (Err f, h, d)
  | Ok cookie =>
    match parse_callback (raw_query r) with
    | Err fault => let (f, h) := refused h ParamsFailure (param_fault_debug fault) in (Err f, h, d)
    | Ok params =>
      match verified h cookie params now with
      | (Err f, h) => (Err f, h, d)
      | (Ok claims, h) =>
        match map_member d claims with
        | (Ok (Some session), d) => (Ok (signed_in (settings h) session later), log_success h claims session, d)
        | (Ok None, d) => let (f, h) := refused_with h Unlinked "no_member" (Some (email claims)) in (Err f, h, d)
        | (Err e, d) => let (f, h) := refused h Unavailable ("member_store: " ++ e) in (Err f, h, d)
        end
      end
    end
  end.
Definition callback (h : SigninHandler V T) (d : D) (r : CallbackRequest) (now later : Z) : V * SigninHandler V T * D :=
  match finish h d r now later with
  | (Ok response, h, d) => (response, h, d)
  | (Err failure, h, d) => (refusal failure, h, d)
  end.

(** ** [extension.rs] *)

Definition START_PATH : str := "/auth/platform".
Definition CALLBACK_PATH : str := "/auth/platform/callback".
Definition GOOGLE_PATH : str := "/auth/google".
Inductive Route := StartRoute | CallbackRoute.

(** [raw_query], [takes_over_google], [classify], [callback_request]. *)
Definition event_query (event : V) : str := default [] (sv_get_str event "rawQueryString").
Definition event_method (event : V) : option str :=
  c ← sv_get event "requestContext"; http ← sv_get c "http"; sv_get_str http "method".
Definition takes_over_google (s : SigninSettings) (query : str) : bool :=
  match mode s with DefaultMode => negb (has_value query "via" "google") | Alongside => false end.
Definition classify (s : SigninSettings) (event : V) : option Route :=
  method ← event_method event; path ← sv_get_str event "rawPath";
  if negb (str_eqb method "GET") then None
  else if str_eqb path START_PATH then Some StartRoute
  else if str_eqb path CALLBACK_PATH then Some CallbackRoute
  else if str_eqb path GOOGLE_PATH && takes_over_google s (event_query event) then Some StartRoute
  else None.
Definition callback_request (event : V) : CallbackRequest :=
  {| raw_query := event_query event; cookie_pairs := request_pairs event |}.

(** [route_event]: the nonce and the state are the random values of a start. *)
Definition route_event (h : SigninHandler V T) (d : D) (event : V) (nonce state : str) (now later : Z) :
    option V * SigninHandler V T * D :=
  match classify (settings h) event with
  | None => (None, h, d)
  | Some StartRoute => let (response, h) := start h nonce state in (Some response, h, d)
  | Some CallbackRoute => let '(response, h, d) := callback h d (callback_request event) now later in (Some response, h, d)
  end.
End handler.

(** ** The verifier and the members of the host *)

#[global] Instance issuer_verifier `{U : UnicodeTables} `{H : Sha256} `{B : Base64Url} `{S : Signatures} {K : Type} `{KS : KeySource K} :
    TokenVerifier (Verifier K) :=
  λ v r now, let (outcome, v') := verify v r now in (Some outcome, v').

Section members.
Context `{U : UnicodeTables} {V I : Type} `{SV : Serde V} `{SB : !Sandbox V} `{Inv : !Invoker V I}.
Context (wasm_path : str) (c : LineageConfig) (installed : option V) (ir_depth : nat) (fault : option Fault)
        (enforcement : Enforcement) (ir : V) (clock : nat → Moment) (fresh : str).

(** [resolve_identity_anywhere] ([auth.rs]), where the store keeps a flat journal. *)
Definition resolve_identity_anywhere (d : Data V) (issuer subject : str) : Prelude.result str (option str) :=
  match resolve_identity_from_head d ir issuer subject with
  | Some found => Ok (Some found)
  | None =>
    let? state := read wasm_path d in
    Ok (resolve_identity (default sv_null (sv_get state "instances")) issuer subject)
  end.

(** [HostMembers]. *)
Definition host_members : MemberDirectory (HostState V I) := {|
  identity_of h issuer subject := (resolve_identity_anywhere (store h) issuer subject, h);
  session_for_identity h identity :=
    (match session_for_member_by_identity (clock_secs (clock 0)) (store h) ir identity with
     | Ok s => Ok s | Err e => Err (member_error_text e) end, h);
  provision_member h email issuer subject :=
    provision wasm_path c installed ir_depth fault enforcement ir clock fresh email issuer subject h
|}.
End members.
