(* ===== verification/SigninFlowFacts.v ===== *)
(** What the platform sign-in promises ([SigninFlow.v]): the cookie and the query it
    writes are read back, a callback has one of two answers and always deletes the
    sign-in cookie, and those it signs in are members of the site, let in at that
    moment, whose token passed every check. *)
From stdpp Require Import gmap.
From S2P Require Export Tokens VerifierFacts MemberFacts SigninConfig SigninFlow.
From S2P Require Needs.
Open Scope Z_scope.

(** ** Texts *)
Lemma trim_none (s : str) : forallb (λ c, negb (is_whitespace c)) s = true → IpText.trim s = s.
Proof.
  assert (∀ t, forallb (λ c, negb (is_whitespace c)) t = true → trim_start is_whitespace t = t) as H.
  { intros [|c t]; [done|]. cbn [forallb trim_start]. intros [Hc _]%andb_true_iff. by rewrite (proj1 (negb_true_iff _) Hc). }
  intros Hs. unfold IpText.trim, trim_both, trim_end. rewrite (H s Hs), H, rev_involutive; [done|].
  rewrite forallb_forall in *. intros c Hc. by apply Hs, in_rev.
Qed.
Lemma not_in_text (p : char → bool) (s : str) (c : char) : forallb p s = true → p c = false → c ∉ s.
Proof. intros Hs Hc Hin. rewrite forallb_forall in Hs. apply list_elem_of_In, Hs in Hin. congruence. Qed.
Lemma url_safe_plain (c : char) : url_safe c = true → is_whitespace c = false ∧ c ≠ 46%N ∧ c ≠ 61%N ∧ (c < 128)%N.
Proof.
  intros H. unfold url_safe, is_digit, is_upper, is_lower in H.
  rewrite !orb_true_iff, !andb_true_iff, !N.leb_le, !N.eqb_eq in H. split_and!; [|lia..].
  apply not_true_iff_false. unfold is_whitespace. rewrite !orb_true_iff, !andb_true_iff, !N.leb_le, !N.eqb_eq. lia.
Qed.

(** *** Percent escapes *)
Lemma escaped_again (b : N) : (b < 256)%N → escaped_byte (hex_digit true (b / 16)) (hex_digit true (b mod 16)) = Some b.
Proof.
  intros Hb. assert (∀ d, (d < 16)%N → to_digit 16 (hex_digit true d) = Some d) as H.
  { intros d Hd. assert (d ∈ [0;1;2;3;4;5;6;7;8;9;10;11;12;13;14;15]%N) as Hin by (rewrite list_elem_of_In; simpl; lia).
    rewrite list_elem_of_In in Hin. by repeat (destruct Hin as [<-|Hin]; [done|]). }
  unfold escaped_byte. rewrite (H (b / 16)%N) by (by apply N.Div0.div_lt_upper_bound). rewrite (H (b mod 16)%N) by (by apply N.mod_lt).
  cbn [mbind option_bind]. f_equal. pose proof (N.div_mod b 16 ltac:(done)). lia.
Qed.
Definition escaped (b : N) : str := if unreserved b then [b] else [37%N; hex_digit true (b / 16); hex_digit true (b mod 16)].
Lemma unescape_plain (b : N) (rest : list N) : b ≠ 37%N → unescape (b :: rest) = cons b <$> unescape rest.
Proof. intros Hb. destruct b as [|p]; [done|]. do 6 (destruct p as [p|p|]; try done). Qed.
Lemma unescape_escaped (bs : list N) : bytes bs → unescape (flat_map escaped bs) = Some bs.
Proof.
  induction 1 as [|b bs Hb _ IH]; [done|]. cbn [flat_map]. unfold escaped at 1. destruct (unreserved b) eqn:E; cbn [app].
  - rewrite unescape_plain by (by intros ->). by rewrite IH.
  - cbn [unescape]. rewrite escaped_again by done. cbn [mbind option_bind]. by rewrite IH.
Qed.
Lemma escaped_plain (b : N) : (b < 256)%N → forallb (λ c, (c <? 128)%N && negb (c =? 38)%N && negb (c =? 61)%N) (escaped b) = true.
Proof.
  intros Hb. assert (∀ d, (d < 16)%N → (λ c, (c <? 128)%N && negb (c =? 38)%N && negb (c =? 61)%N) (hex_digit true d) = true) as H.
  { intros d Hd. assert (d ∈ [0;1;2;3;4;5;6;7;8;9;10;11;12;13;14;15]%N) as Hin by (rewrite list_elem_of_In; simpl; lia).
    rewrite list_elem_of_In in Hin. by repeat (destruct Hin as [<-|Hin]; [done|]). }
  unfold escaped. destruct (unreserved b) eqn:E.
  - cbn [forallb]. rewrite andb_true_r. unfold unreserved, is_digit, is_upper, is_lower in E.
    rewrite !orb_true_iff, !andb_true_iff, !N.leb_le, !N.eqb_eq in E.
    rewrite !andb_true_iff, !negb_true_iff, N.ltb_lt, !N.eqb_neq. lia.
  - cbn [forallb]. rewrite (H (b / 16)%N) by (by apply N.Div0.div_lt_upper_bound). by rewrite (H (b mod 16)%N) by (by apply N.mod_lt).
Qed.
Lemma ascii_bytes (s : str) : forallb (λ c, (c <? 128)%N) s = true → utf8_encode s = s.
Proof.
  induction s as [|c s IH]; [done|]. cbn [forallb]. intros [Hc Hs]%andb_true_iff. unfold utf8_encode. cbn [flat_map].
  unfold utf8_char at 1. rewrite Hc. cbn [app]. f_equal. by apply IH.
Qed.
Lemma urlencode_plain (s : str) : wf_str s = true →
  forallb (λ c, (c <? 128)%N && negb (c =? 38)%N && negb (c =? 61)%N) (urlencode s) = true.
Proof.
  intros Hs. unfold urlencode. change (λ b, if unreserved b then _ else _) with escaped.
  pose proof (utf8_encode_bytes s Hs) as Hb. induction Hb as [|b bs Hb _ IH]; [done|].
  cbn [flat_map]. by rewrite forallb_app, escaped_plain, IH.
Qed.
Lemma decode_urlencode (s : str) : wf_str s = true → decode (urlencode s) = Ok s.
Proof.
  intros Hs. unfold decode. rewrite ascii_bytes.
  - unfold urlencode. change (λ b, if unreserved b then _ else _) with escaped.
    rewrite unescape_escaped by (by apply utf8_encode_bytes). cbn [mbind option_bind]. by rewrite utf8_roundtrip.
  - pose proof (urlencode_plain s Hs) as H. revert H. apply forallb_weaken. intros c. rewrite !andb_true_iff. tauto.
Qed.

(** ** The cookie *)

Lemma signin_values_app (a b : list str) : signin_values (a ++ b) = signin_values a ++ signin_values b.
Proof. apply omap_app. Qed.
Definition signin_pair (c : SigninCookie) : str := NAME ++ "=" ++ nonce c ++ "." ++ cookie_state c.
Lemma acceptable_safe (s : str) : acceptable s = true → forallb url_safe s = true.
Proof. unfold acceptable. by intros [_ H]%andb_true_iff. Qed.
Lemma signin_pair_value (c : SigninCookie) :
  acceptable (nonce c) = true → acceptable (cookie_state c) = true →
  signin_values [signin_pair c] = [nonce c ++ "." ++ cookie_state c] ∧ parse_value (nonce c ++ "." ++ cookie_state c) = Some c.
Proof.
  intros Hn Hs. pose proof (acceptable_safe _ Hn) as Hn'. pose proof (acceptable_safe _ Hs) as Hs'. split.
  - unfold signin_values, signin_pair. cbn [omap list_omap].
    change (NAME ++ "=" ++ nonce c ++ "." ++ cookie_state c) with (NAME ++ 61%N :: (nonce c ++ "." ++ cookie_state c)).
    rewrite split_once_single by (refine (bool_decide_unpack _ _); vm_compute; exact Logic.I).
    replace (str_eqb (IpText.trim NAME) NAME) with true by (vm_compute; reflexivity). f_equal. apply trim_none.
    assert (∀ s, forallb url_safe s = true → forallb (λ x, negb (is_whitespace x)) s = true) as H.
    { intros s. apply forallb_weaken. intros x (Hx & _)%url_safe_plain. by rewrite Hx. }
    rewrite !forallb_app, (H _ Hn'), (H _ Hs'). reflexivity.
  - unfold parse_value. change ("." ++ cookie_state c) with (46%N :: cookie_state c).
    rewrite split_once_single by (by apply (not_in_text url_safe)). rewrite Hn, Hs. by destruct c.
Qed.

Section flow.
Context `{U : UnicodeTables} `{H : Sha256} `{B : Base64Url} `{BL : !Base64UrlLaws B} `{M : Hmac} {V : Type} `{SV : Serde V}
  `{SL : !SerdeLaws V} `{ST : SerdeText V} {T : Type} `{TV : TokenVerifier T} {D : Type} `{MD : MemberDirectory D}.

(** A started sign-in sets a cookie whose pair, sent back among any others, is read as
    the nonce and the state the issuer was told of; sent twice it is refused. *)
Theorem started_signins_are_read_back (h : SigninHandler V T) (a b a' b' : list N) (before after : list str) :
  (∀ bs, length bs = 32%nat → bytes bs → 16 <= Z.of_nat (length (url_encode bs)) <= 128) →
  length (a ++ b) = 32%nat → length (a' ++ b') = 32%nat → bytes (a ++ b) → bytes (a' ++ b') →
  signin_values before = [] → signin_values after = [] →
  let c := {| nonce := fresh_value a b; cookie_state := fresh_value a' b' |} in
  (start h (fresh_value a b) (fresh_value a' b')).1 = redirect (authorize_url (settings h) c) [set_header c] ∧
  set_header c = signin_pair c ++ "; Max-Age=600; Path=/; Secure; HttpOnly; SameSite=Lax" ∧
  read_cookie (before ++ signin_pair c :: after) = Ok c ∧
  read_cookie (before ++ signin_pair c :: signin_pair c :: after) = Err RepeatedCookie.
Proof.
  intros Hlen L1 L2 B1 B2 Hb Ha c.
  assert (∀ bs, length bs = 32%nat → bytes bs → acceptable (url_encode bs) = true) as Hacc.
  { intros bs Hl Hbs. pose proof (url_encode_alphabet bs Hbs) as Hs. unfold acceptable, byte_len, MIN_VALUE_LENGTH, MAX_VALUE_LENGTH.
    rewrite ascii_bytes.
    - rewrite Hs, andb_true_r. destruct (Hlen bs Hl Hbs). apply andb_true_iff. by rewrite !Z.leb_le.
    - revert Hs. apply forallb_weaken. intros x (_ & _ & _ & Hx)%url_safe_plain. by apply N.ltb_lt. }
  destruct (signin_pair_value c (Hacc _ L1 B1) (Hacc _ L2 B2)) as [Hv Hp].
  split; [reflexivity|]. split.
  { unfold set_header, signin_pair. rewrite <- !app_assoc. reflexivity. }
  change (signin_pair c :: after) with ([signin_pair c] ++ after).
  change (signin_pair c :: [signin_pair c] ++ after) with ([signin_pair c] ++ [signin_pair c] ++ after).
  unfold read_cookie. rewrite !signin_values_app, Hb, Ha, Hv. cbn [app]. by rewrite Hp.
Qed.

(** A callback's query, its values percent-escaped, is read as those values. *)
Theorem callback_queries_are_read_back (token state : str) :
  wf_str token = true → wf_str state = true →
  byte_len ("token=" ++ urlencode token ++ "&state=" ++ urlencode state) <= MAX_QUERY_BYTES →
  parse_callback ("token=" ++ urlencode token ++ "&state=" ++ urlencode state) =
  Ok {| param_token := token; param_state := state |}.
Proof.
  intros Ht Hs Hl. unfold parse_callback, decode_pairs. rewrite (proj2 (Z.ltb_ge _ _)) by done.
  pose proof (urlencode_plain _ Ht) as Pt. pose proof (urlencode_plain _ Hs) as Ps.
  assert (∀ (pre s : str), 38%N ∉ pre → wf_str s = true → 38%N ∉ pre ++ urlencode s) as Hno.
  { intros pre s Hp Hw. apply not_elem_of_app. split; [done|]. by apply (not_in_text _ _ _ (urlencode_plain _ Hw)). }
  assert (∀ (name s : str), decode name = Ok name → 61%N ∉ name → wf_str s = true →
    decode_pair (name ++ 61%N :: urlencode s) = Ok (name, s)) as Hpair.
  { intros name s Hd Hn Hw. unfold decode_pair. rewrite split_once_single by done. cbn [from_option id].
    rewrite Hd. cbn beta iota. by rewrite decode_urlencode. }
  assert ((38%N ∉ ("token=" : str)) ∧ (38%N ∉ ("state=" : str)) ∧ (61%N ∉ ("token" : str)) ∧ (61%N ∉ ("state" : str))) as (N1 & N2 & N3 & N4)
    by (split_and!; refine (bool_decide_unpack _ _); vm_compute; exact Logic.I).
  replace ("token=" ++ urlencode token ++ "&state=" ++ urlencode state)
    with (("token=" ++ urlencode token) ++ 38%N :: ("state=" ++ urlencode state)) by (by rewrite <- app_assoc).
  change ("&" : str) with [38%N]. rewrite Needs.split_single by (by apply Hno).
  rewrite Needs.split_single_last by (by apply Hno). cbn [List.filter].
  rewrite !bool_decide_false by done. cbn [negb collect_results].
  change ("token=" ++ urlencode token) with (("token" : str) ++ 61%N :: urlencode token).
  change ("state=" ++ urlencode state) with (("state" : str) ++ 61%N :: urlencode state).
  rewrite (Hpair "token" token), (Hpair "state" state) by (done || vm_compute; reflexivity). reflexivity.
Qed.

(** ** The callback *)

Definition deletes_cookie (response : V) : Prop :=
  ∃ first, sv_get_array response "cookies" = Some (first ++ [sv_str clear_header]).
Lemma refusal_deletes (f : Failure) : deletes_cookie (refusal f).
Proof.
  exists []. unfold sv_get_array. assert (sv_get (refusal f : V) "cookies" = Some (sv_array [sv_str clear_header])) as -> by (unfold refusal; sv_field).
  apply sv_as_array_array.
Qed.
Lemma signed_in_deletes (s : SigninSettings) (given : Session) (now : Z) : deletes_cookie (signed_in (V:=V) s given now).
Proof.
  exists [sv_str (account_header (V:=V) s (session_email given) now)]. unfold sv_get_array, signed_in, redirect.
  assert (∀ (a b c d e : V), sv_get (sv_obj [("statusCode" : str, a); ("headers" : str, b); ("cookies" : str, c);
    ("body" : str, d); ("isBase64Encoded" : str, e)]) "cookies" = Some c) as -> by (intros; sv_field).
  apply sv_as_array_array.
Qed.
(** A refusal names no place to go. *)
Lemma refusal_stays (f : Failure) : (h ← sv_get (refusal f : V) "headers"; sv_get h "location") = None.
Proof.
  assert (sv_get (refusal f : V) "headers" = Some page_headers) as -> by (unfold refusal; sv_field). cbn [mbind option_bind].
  unfold page_headers. sv_field.
Qed.

(** The three things a sign-in takes. *)
Record signed (h : SigninHandler V T) (d : D) (r : CallbackRequest) (now : Z) (c : SigninCookie) (p : CallbackParams)
    (cs : VerifiedClaims) (t : T) (s : Session) (d' : D) : Prop := {
  signed_cookie : read_cookie (cookie_pairs r) = Ok c;
  signed_params : parse_callback (raw_query r) = Ok p;
  signed_token : token_verify (token_verifier h) {| request_token := Some (param_token p);
                   request_state := Some (param_state p); request_cookie := Some c |} now = (Some (Ok cs), t);
  signed_member : map_member d cs = (Ok (Some s), d')
}.

Lemma finish_cases h d r now later res h' d' :
  finish h d r now later = (res, h', d') →
  (∃ f, res = Err f ∧ (d' = d ∨ ∃ c p cs t, token_verify (token_verifier h) {| request_token := Some (param_token p);
      request_state := Some (param_state p); request_cookie := Some c |} now = (Some (Ok cs), t) ∧ d' = (map_member d cs).2)) ∨
  (∃ c p cs t s, signed h d r now c p cs t s d' ∧ res = Ok (signed_in (settings h) s later)).
Proof.
  unfold finish. destruct (read_cookie _) as [c|] eqn:E1; [|intros [= <- _ <-]; left; by eauto].
  destruct (parse_callback _) as [p|] eqn:E2; [|intros [= <- _ <-]; left; by eauto].
  unfold verified. destruct (token_verify _ _ now) as [outcome t] eqn:E3.
  destruct outcome as [[cs|reason]|]; [|intros [= <- _ <-]; left; by eauto..].
  destruct (map_member d cs) as [[[s|]|e] d1] eqn:E4; intros [= <- _ <-].
  - right. exists c, p, cs, t, s. by repeat constructor.
  - left. eexists. split; [done|]. right. exists c, p, cs, t. split; [done|]. by rewrite E4.
  - left. eexists. split; [done|]. right. exists c, p, cs, t. split; [done|]. by rewrite E4.
Qed.

Lemma mapped_has_role d cs s d' : map_member d cs = (Ok (Some s), d') →
  has_role s = true ∧ ∃ issuer subject, idp_issuer cs = Some issuer ∧ idp_subject cs = Some subject ∧
    session_of d (email cs) issuer subject = (Ok (Some s), d').
Proof.
  unfold map_member. destruct (idp_issuer cs) as [i|]; [|done]. destruct (idp_subject cs) as [j|]; [|done].
  destruct (session_of d (email cs) i j) as [[[s1|]|e] d1] eqn:E; try done. destruct (has_role s1) eqn:Er; [|done].
  intros [= <- <-]. split; [done|]. by exists i, j.
Qed.

(** A callback has one of two answers: a refusal, a page of its own with a status of
    400, 403 or 500 that leads nowhere, or the redirect to the landing page with the
    account's cookie, and that only where the one sign-in cookie and the one token and
    state were read, the verifier accepted them, and a member with a role was found.
    Either deletes the sign-in cookie, and the members are asked only of a token that
    was accepted. *)
Theorem callbacks_have_two_answers h d r now later response h' d' :
  callback h d r now later = (response, h', d') →
  deletes_cookie response ∧
  ((∃ f, response = refusal f ∧ In (failure_status f) [400; 403; 500] ∧
      (hs ← sv_get (refusal f : V) "headers"; sv_get hs "location") = None ∧
      (d' = d ∨ ∃ c p cs t, token_verify (token_verifier h) {| request_token := Some (param_token p);
         request_state := Some (param_state p); request_cookie := Some c |} now = (Some (Ok cs), t))) ∨
   (∃ c p cs t s, signed h d r now c p cs t s d' ∧ has_role s = true ∧ response = signed_in (settings h) s later)).
Proof.
  unfold callback. destruct (finish h d r now later) as [[res h1] d1] eqn:E.
  destruct (finish_cases _ _ _ _ _ _ _ _ E) as [(f & -> & Hd)|(c & p & cs & t & s & Hs & ->)]; intros [= <- _ <-].
  - split; [apply refusal_deletes|]. left. exists f. split; [done|].
    split; [by destruct f; vm_compute; tauto|]. split; [apply refusal_stays|].
    destruct Hd as [Hd|(c & p & cs & t & Hv & _)]; [by left|right; by eauto].
  - split; [apply signed_in_deletes|]. right. exists c, p, cs, t, s. split; [done|]. split; [|done].
    by destruct (mapped_has_role _ _ _ _ (signed_member _ _ _ _ _ _ _ _ _ _ Hs)).
Qed.
End flow.

(** ** Members of the host *)

Section host.
Context `{U : UnicodeTables} `{H : Sha256} `{B : Base64Url} `{S : Signatures} `{M : Hmac} {K : Type} `{KS : KeySource K}
  {V I : Type} `{SV : Serde V} `{SL : !SerdeLaws V} `{ST : SerdeText V} `{SB : !Sandbox V} `{Inv : !Invoker V I}.
Context (wasm_path : str) (c : LineageConfig) (installed : option V) (ir_depth : nat) (fault : option Fault)
        (enforcement : Enforcement) (ir : V) (clock : nat → Moment) (fresh : str)
        (aggregate storage : str) (Hset : settled c ir aggregate storage).
#[local] Instance members : MemberDirectory (HostState V I) :=
  host_members wasm_path c installed ir_depth fault enforcement ir clock fresh.

(** The row of a member who was found, before anything was written. *)
Record found (d : HostState V I) (email issuer subject : str) (s : Session) (id : str) (row : V) : Prop := {
  found_row : member c storage (store d) id = Some row;
  found_in : is_lapsed_at row (clock_secs (clock 0)) = false;
  found_role : session_role s = role_of row;
  found_how :
    (resolve_identity_anywhere wasm_path ir (store d) issuer subject = Ok (Some (identity_id s)) ∧
     linked_identity_id row = Some (identity_id s) ∧ valued_str row "email" = Some (session_email s)) ∨
    (id = email ∧ session_email s = email ∧ valued row "identity_id" = None)
}.

Lemma linked_found (d : HostState V I) (identity : str) (s : Session) :
  session_for_member_by_identity (clock_secs (clock 0)) (store d) ir identity = Ok (Some s) →
  ∃ id row, member c storage (store d) id = Some row ∧ is_lapsed_at row (clock_secs (clock 0)) = false ∧
    session_role s = role_of row ∧ identity_id s = identity ∧ linked_identity_id row = Some identity ∧
    valued_str row "email" = Some (session_email s).
Proof.
  unfold session_for_member_by_identity. rewrite (settled_names _ _ _ _ Hset). cbn [snd].
  destruct (head_find _ _ _ _) as [row|] eqn:E; [|done]. cbn [mbind option_bind].
  destruct (is_lapsed_at row _) eqn:El; [done|]. destruct (valued_str row "email") as [e|] eqn:Ee; [|done].
  cbn [mbind option_bind]. destruct (valued_str row "name") as [n|]; [|done]. intros [= <-].
  unfold head_find in E. cbn [first_head] in E. rewrite (settled_domain _ _ _ _ Hset) in E.
  destruct (heads (store d) !! (config_domain c, storage)) as [rs|] eqn:Eh; [|done]. cbn [mbind option_bind] in E.
  apply find_some in E as [Hin Hm]. apply in_map_iff in Hin as ([id row'] & Hr & Hin). cbn [snd] in Hr. subst row'.
  exists id, row. cbn [session_role identity_id session_email]. split_and!; try done.
  - unfold member, head_by_id. rewrite Eh. cbn [mbind option_bind]. unfold rows_by_id in Hin.
    by rewrite <- list_elem_of_In, sort_by_perm, elem_of_map_to_list in Hin.
  - unfold head_matches in Hm. cbn [forallb] in Hm. rewrite andb_true_r in Hm. apply bool_decide_eq_true in Hm.
    unfold linked_identity_id, valued_str, valued. unfold sv_get_str in Hm.
    destruct (sv_get row "identity_id"); [|done]. exact Hm.
Qed.

Lemma session_found (d d' : HostState V I) (email issuer subject : str) (s : Session) :
  session_of d email issuer subject = (Ok (Some s), d') → ∃ id row, found d email issuer subject s id row.
Proof.
  assert (∀ d1, provision_member d email issuer subject = (Ok (Some s), d1) → ∃ id row, found d email issuer subject s id row) as Hp.
  { intros d1 Hp. cbn [provision_member members host_members] in Hp.
    apply (provisioning_is_for_granted wasm_path c installed ir_depth fault enforcement ir clock aggregate storage Hset) in Hp
      as (m & P1 & P2 & P3 & P4 & P5 & _).
    exists email, m. split; [done..|]. by right. }
  unfold session_of, by_identity. cbn [identity_of session_for_identity members host_members].
  destruct (resolve_identity_anywhere _ _ _ _ _) as [[identity|]|e] eqn:Ei; [|apply Hp|done].
  destruct (session_for_member_by_identity _ _ _ identity) as [[s1|]|e] eqn:Es; [|apply Hp|done].
  intros [= -> _]. destruct (linked_found _ _ _ Es) as (id & row & L1 & L2 & L3 & L4 & L5 & L6).
  exists id, row. split; [done..|]. left. by rewrite L4.
Qed.

(** C11: whoever is signed in is a member of the site at that moment: a row of its
    membership head, not disabled and inside its window, with a role, found by the
    identity the issuer's provider vouches for or, for a member not yet linked, by the
    email of a token that passed every check; and the account's cookie is for that
    member's email. *)
Theorem only_members_are_signed_in (h : SigninHandler V (Verifier K)) (d : HostState V I) r now later response h' d' :
  callback h d r now later = (response, h', d') → (∀ f, response ≠ refusal f) →
  ∃ cookie params cs v s issuer subject id row,
    verify (token_verifier h) {| request_token := Some (param_token params); request_state := Some (param_state params);
                                 request_cookie := Some cookie |} now = (Ok cs, v) ∧
    idp_issuer cs = Some issuer ∧ idp_subject cs = Some subject ∧
    found d (email cs) issuer subject s id row ∧ role_of row ≠ None ∧ response = signed_in (settings h) s later.
Proof.
  intros Hc Hr. unfold callback in Hc. destruct (finish h d r now later) as [[res h1] d1] eqn:E.
  destruct (finish_cases _ _ _ _ _ _ _ _ E) as [(f & -> & _)|(k & p & cs & t & s & Hs & ->)];
    [injection Hc as <- _ _; by destruct (Hr f)|injection Hc as <- _ <-].
  destruct Hs as [_ _ Ht Hm]. destruct (mapped_has_role _ _ _ _ Hm) as (Hrole & i & j & Hi & Hj & Hses).
  destruct (session_found _ _ _ _ _ _ Hses) as (id & row & Hf). exists k, p, cs, t, s, i, j, id, row.
  split_and!; try done.
  - unfold token_verify, issuer_verifier in Ht. destruct (verify _ _ now) as [o v]. by injection Ht as -> ->.
  - rewrite <- (found_role _ _ _ _ _ _ _ Hf). unfold has_role in Hrole. by destruct (session_role s).
Qed.
End host.
