(* ===== verification/SigninWitness.v ===== *)
(** The theorems of [VerifierFacts.v], [Tokens.v], [MemberFacts.v],
    [SigninConfig.v] and [SigninFlowFacts.v] at concrete inputs.  First a small issuer,
    site and browser: a digest that tells the texts below apart, base64url in an alphabet of
    sixteen letters, signatures that are digests of the text and the key, and a key
    set of one key. *)
From stdpp Require Import gmap.
From S2P Require Export VerifierFacts.
Open Scope Z_scope.

#[global] Instance plain_letters : UnicodeTables := {| debug_printable _ := true; to_lower c := [ascii_lower c] |}.
#[global] Instance toy_digest : Sha256 := λ bs,
  let sum := fold_left (λ acc b, N.land (acc * 263 + b) 1152921504606846975)%N bs 7%N in
  map (λ i, N.land (N.shiftr sum (N.of_nat i)) 255)%N (seq 0 32).

Fixpoint letters_decode (t : str) : option (list N) :=
  match t with
  | [] => Some []
  | a :: b :: rest =>
    if ((97 <=? a) && (a <=? 112) && (97 <=? b) && (b <=? 112))%N
    then cons ((a - 97) * 16 + (b - 97))%N <$> letters_decode rest else None
  | _ => None
  end.
#[global] Instance letters : Base64Url := {|
  url_encode := flat_map (λ b, [97 + b / 16; 97 + b mod 16]%N);
  url_decode := letters_decode
|}.
Lemma letters_split (b : N) : (b < 256)%N → (b / 16 < 16)%N ∧ (b mod 16 < 16)%N ∧ b = (16 * (b / 16) + b mod 16)%N.
Proof.
  intros Hb. split_and!; [by apply N.Div0.div_lt_upper_bound|by apply N.mod_lt|by apply N.div_mod].
Qed.
#[global] Instance letters_laws : Base64UrlLaws letters.
Proof.
  split.
  - intros bs Hb. induction Hb as [|b bs Hb _ IH]; [done|]. cbn [url_encode url_decode letters flat_map app letters_decode] in *.
    destruct (letters_split b Hb) as (H1 & H2 & H3). pose proof (N.le_0_l (b / 16)). pose proof (N.le_0_l (b mod 16)).
    N_bool. rewrite IH. cbn [fmap option_fmap option_map]. do 2 f_equal. lia.
  - cbn [url_encode url_decode letters]. fix IH 1. intros [|a [|b t]] bs; [by intros [= <-]|done|]. cbn [letters_decode].
    destruct (_ && _) eqn:E; [|done]. rewrite !andb_true_iff, !N.leb_le in E. intros (r & Hr & ->)%fmap_Some.
    cbn [flat_map app]. rewrite (IH t r Hr). destruct E as (((H1 & H2) & H3) & H4).
    rewrite N.div_add_l, N.div_small, N.add_0_r by lia.
    rewrite (N.add_comm ((a - 97) * 16)), N.Div0.mod_add, N.mod_small by lia. f_equal; [lia|f_equal; lia].
  - intros bs Hb. induction Hb as [|b bs Hb _ IH]; [done|]. cbn [url_encode letters flat_map app forallb] in *. rewrite IH.
    destruct (letters_split b Hb) as (H1 & H2 & _). pose proof (N.le_0_l (b / 16)). pose proof (N.le_0_l (b mod 16)).
    assert (∀ x, (x < 16)%N → url_safe (97 + x) = true) as Hs; [|by rewrite !Hs].
    intros x Hx. unfold url_safe, is_lower. pose proof (N.le_0_l x). N_bool. by rewrite !orb_true_r.
Qed.

Definition signature_of (text : list N) (key : str) : str := url_encode (sha256 (text ++ key)).
#[global] Instance digest_signatures : Signatures := {|
  DecodingKey := str; from_ed_components x := Some x;
  crypto_verify segment text key := Some (str_eqb segment (signature_of text key))
|}.

Definition issuer_x : str := url_encode (repeat 7%N 32).
Definition key_set : str := print (Object [("keys" : str, Array [Object
  [("kty" : str, Str "OKP"); ("crv" : str, Str "Ed25519"); ("x" : str, Str issuer_x)]])]).
#[global] Instance steady_issuer : JwksFetcher unit := {| fetch _ := (Some key_set, tt); ttl_hint _ := None |}.

Definition site : PlatformSigninConfig := {|
  issuer_url := "https://login.example"; jwks_url := "https://login.example/.well-known/jwks.json";
  site_id := "shop"; environment := "production"; skew_seconds := 30; max_lifetime_seconds := 60; max_token_bytes := Z.to_nat 4096
|}.
Definition browser : SigninCookie := {| nonce := "nonce-nonce-nonce"; cookie_state := "state-state-state" |}.
Definition token_claims (jti : str) (iat : Z) : JsonObject := [
  ("iss" : str, Str (issuer_url site)); ("aud" : str, Str (site_id site)); ("env" : str, Str (environment site));
  ("sub" : str, Str "ada@shop.example"); ("email" : str, Str "Ada@shop.example"); ("email_verified" : str, Bool true);
  ("nonce" : str, Str (nonce browser)); ("iat" : str, Int iat); ("nbf" : str, Int iat); ("exp" : str, Int (iat + 60));
  ("jti" : str, Str jti); ("idp_iss" : str, Str "https://accounts.example"); ("idp_sub" : str, Str "42");
  ("roles" : str, Array [Str "editor"])].
Definition token_header : JsonObject := [
  ("alg" : str, Str ALGORITHM); ("typ" : str, Str TOKEN_TYPE); ("kid" : str, Str (thumbprint issuer_x))].
Definition token_of (cs : JsonObject) : str :=
  let text := url_encode (print (Object token_header)) ++ "." ++ url_encode (print (Object cs)) in
  text ++ "." ++ signature_of (utf8_encode text) issuer_x.
Definition request_with (token : str) : SigninRequest := {|
  request_token := Some token; request_state := Some (cookie_state browser); request_cookie := Some browser |}.
Definition request_of (jti : str) (iat : Z) : SigninRequest := request_with (token_of (token_claims jti iat)).
Definition fresh : Verifier (JwksCache unit) := new_verifier site (new_cache tt) (with_capacity 100).

Lemma accepted_tokens_passed_every_check_witness :
  subject (accepted (token_claims "j1" 1000)) = email (accepted (token_claims "j1" 1000)).
Proof.
  destruct (verify fresh (request_of "j1" 1000) 1010) as [res v'] eqn:E.
  assert (res = Ok (accepted (token_claims "j1" 1000))) as Hr.
  { apply (f_equal fst) in E. cbn [fst] in E. rewrite <- E. vm_compute. reflexivity. }
  rewrite Hr in E. clear Hr. apply accepted_tokens_passed_every_check in E; [|split; reflexivity].
  destruct E as (cookie & state & text & jws & kid & key & k & E). decompose [ex and] E; assumption.
Defined.

Lemma early_refusals_spend_nothing_witness :
  ∃ cookie jws v1, passed fresh (request_of "j1" 1000) 1010 cookie jws v1 ∧ get_str (claims jws) "jti" ≠ None.
Proof.
  apply (early_refusals_spend_nothing fresh (request_of "j1" 1000) 1010
           (verify fresh (request_of "j1" 1000) 1010).1 (verify fresh (request_of "j1" 1000) 1010).2).
  - apply surjective_pairing.
  - intros E. apply (f_equal (λ s, length (seen s))) in E. revert E. vm_compute. discriminate.
Defined.

(** One identifier in two tokens: the second is taken after the window of the first. *)
Lemma tokens_are_single_use_witness :
  remembered_until fresh (token_claims "j1" 1000) <= 2010 ∧ token_claims "j1" 1000 ≠ token_claims "j1" 2000.
Proof.
  destruct (tokens_are_single_use fresh [] [] (request_of "j1" 1000) 1010 (request_of "j1" 2000) 2010
              (accepted (token_claims "j1" 1000)) (accepted (token_claims "j1" 2000))) as [Hw Hd].
  - repeat constructor. vm_compute. discriminate.
  - split; reflexivity.
  - reflexivity.
  - reflexivity.
  - vm_compute. reflexivity.
  - vm_compute. reflexivity.
  - split; [exact (Hw eq_refl)|exact Hd].
Defined.

Lemma spent_identifiers_are_bounded_witness :
  (length (seen (jti_store (verdicts fresh [(request_of "j1" 1000, 1010%Z)]).2)) ≤ 100)%nat.
Proof. apply (spent_identifiers_are_bounded fresh [(request_of "j1" 1000, 1010%Z)]). vm_compute. repeat constructor. Defined.

Definition issuer_cache : JwksCache unit := with_timing tt 300 30.
Definition after_one : JwksCache unit := asked issuer_cache [("unknown" : str, 1000)].
Lemma served_keys_are_genuine_and_fresh_witness : thumbprint issuer_x = thumbprint issuer_x ∧ from_x issuer_x = Some issuer_x.
Proof.
  destruct (served_keys_are_genuine_and_fresh tt 300 30 [("unknown" : str, 1000)] (thumbprint issuer_x) 1010 issuer_x
              (cache_key_for after_one (thumbprint issuer_x) 1010).2) as (H1 & H2 & _).
  - etransitivity; [apply surjective_pairing|]. apply (f_equal2 pair); [vm_compute; reflexivity|reflexivity].
  - by split.
Defined.

Lemma fetches_are_spaced_witness :
  StronglySorted (λ a b, 30 <= i64_saturate (b - a)) (fetch_times issuer_cache [("a" : str, 0); ("b" : str, 10); ("c" : str, 40)]).
Proof.
  apply (fetches_are_spaced issuer_cache [("a" : str, 0); ("b" : str, 10); ("c" : str, 40)]); [|reflexivity].
  repeat constructor; vm_compute; discriminate.
Defined.

(** ** Tokens: base64url in sixteen letters, a MAC
    that mixes key and message, the JSON tree with numbers kept as their digits. *)
From S2P Require Export Tokens.
From S2P Require Import Json.
Open Scope Z_scope.

#[global] Instance mixed_mac : Hmac := λ key message, map (λ b, N.land b (N.ones 8)) (sha256 (key ++ [0%N] ++ message)).
Lemma mixed_mac_bytes (k m : list N) : bytes (hmac_sha256 k m).
Proof.
  unfold hmac_sha256, mixed_mac, bytes. apply list.Forall_forall. intros x (b & <- & _)%list_elem_of_In%in_map_iff.
  rewrite N.land_ones. by apply N.mod_lt.
Qed.
#[global] Instance digits_text : SerdeText Json.Json := {|
  sv_from_slice bs := s ← utf8_decode bs; match parse s with Ok v => Some v | Err _ => None end;
  sv_u64 n := Json.JStr (dec_Z n);
  sv_as_u64 v := match v with Json.JStr s => Z.of_N <$> parse_digits s | _ => None end
|}.
Lemma digits_read (n : Z) : 0 <= n < 2 ^ 64 → sv_as_u64 (sv_u64 n) = Some n.
Proof.
  intros Hn. cbn [sv_u64 sv_as_u64 digits_text]. unfold dec_Z. rewrite (proj2 (Z.ltb_ge n 0)) by lia.
  rewrite parse_digits_dec_N. cbn. f_equal. lia.
Qed.

Definition ada : str := "ada@shop.example".
Lemma opened_tokens_are_signed_witness :
  ∃ payload, (account_token (V:=Json.Json) "secret" ada 60 1000 : str) = payload ++ "." ++ sign "secret" payload.
Proof.
  apply (opened_tokens_are_signed (V:=Json.Json) mixed_mac_bytes "secret" (account_token (V:=Json.Json) "secret" ada 60 1000)
           (account_payload ada 1060)); vm_compute; reflexivity.
Defined.

Lemma account_tokens_expire_witness :
  verify_account_token (V:=Json.Json) "secret" (account_token (V:=Json.Json) "secret" ada 60 1000) 1060 = Some ada.
Proof.
  rewrite (account_tokens_expire (V:=Json.Json) mixed_mac_bytes digits_read "secret" ada 60 1000 1060);
    [reflexivity|lia|split; vm_compute; reflexivity].
Defined.

Definition no_claims : Json.Json := sv_obj [("email" : str, sv_str ada)].
Lemma purposes_do_not_mix_witness :
  verify_purpose_token "secret" "signup" (purpose_token "secret" "invite" no_claims 60 1000) 1000 = None.
Proof.
  destruct (purposes_do_not_mix mixed_mac_bytes digits_read "secret" "secret" "invite" "signup" no_claims 60 1000 1000) as [Hn _].
  - lia.
  - reflexivity.
  - split; vm_compute; reflexivity.
  - apply Hn. vm_compute. discriminate.
Defined.

Lemma json_null_is_no_string : sv_as_str (sv_null : Json.Json) = None.
Proof. reflexivity. Qed.
Definition ada_session : Session := {| identity_id := "id-1"; session_email := ada; session_name := "Ada"; session_role := Some ("Admin" : str) |}.
Lemma session_cookies_are_account_tokens_witness :
  verify_account_token (V:=Json.Json) "secret" (session_cookie (V:=Json.Json) "secret" ada_session 1000) 2000 = Some ada.
Proof.
  destruct (session_cookies_are_account_tokens (V:=Json.Json) mixed_mac_bytes digits_read json_null_is_no_string "secret" ada_session 1000 2000)
    as [_ Ha].
  - unfold SESSION_TTL_SECS. lia.
  - split; vm_compute; reflexivity.
  - rewrite Ha. reflexivity.
Defined.

Lemma handoffs_are_redeemed_once_witness :
  (length (List.filter (λ given, bool_decide (given ≠ None))
     (redemptions (V:=Json.Json) "secret" (handoff_token (V:=Json.Json) "secret" ada "j1" 1000) (with_capacity 10) [1001; 1002; 1060]%Z)) ≤ 1)%nat.
Proof.
  apply (handoffs_are_redeemed_once (V:=Json.Json) "secret" (handoff_token (V:=Json.Json) "secret" ada "j1" 1000) (with_capacity 10)).
  repeat constructor; vm_compute; discriminate.
Defined.
(** The first of those attempts is given the account token. *)
Example first_redeemed :
  (redeem_handoff_token (V:=Json.Json) "secret" (handoff_token (V:=Json.Json) "secret" ada "j1" 1000) (with_capacity 10) 1001).1 =
  Some (account_token (V:=Json.Json) "secret" ada SESSION_TTL_SECS 1001).
Proof. vm_compute. reflexivity. Qed.

(** ** Members: a shop
    with an owner, a disabled and deleted member, and a member not yet linked. *)
From S2P Require Export MemberFacts.
Open Scope Z_scope.

Abbreviation J := Json.Json.
Definition shop_ir : J := sv_obj [("name" : str, sv_str "Shop");
  ("membership" : str, sv_obj [("provider" : str, sv_str "Membership"); ("aggregate" : str, sv_str "Membership::Person")]);
  ("identity" : str, sv_obj [("provider" : str, sv_str "Identity"); ("register" : str, sv_str "Identity::Identity.Register");
     ("link" : str, sv_str "Identity::ExternalIdentifier.Link"); ("resolve" : str, sv_str "Identity::ExternalIdentifier.ResolvedBy")]);
  ("authorization" : str, sv_obj [("grant" : str, sv_str "Governance::Assignment.Grant");
     ("assignment_aggregate" : str, sv_str "Governance::Assignment")])].
Definition shop : LineageConfig := {| config_domain := "Shop"; era := Some 1; mirrored := None; seal_every := None |}.
Lemma shop_settled : settled shop shop_ir "Person" "person".
Proof. split; vm_compute; reflexivity. Qed.

Definition person (role : str) (more : list (str * J)) : J :=
  sv_obj ([("name" : str, value_object (sv_str "Someone")); ("role" : str, value_object (sv_str role))] ++ more).
Definition owner_email : str := "owner@shop.example".
Definition gone_email : str := "gone@shop.example".
Definition new_email : str := "new@shop.example".
Definition owner : J := person "Owner" [].
Definition gone : J := person "Member" [("disabled" : str, sv_bool true); ("deleted" : str, sv_bool true)].
Definition shut_out : J := person "Member" [("disabled" : str, sv_bool true)].
Definition newcomer : J := person "Member" [].
Definition keeping (people : gmap str J) : Data J := {|
  journal := []; snapshot := None; saga_rows := ∅; dead_letters := [];
  heads := {[ ("Shop" : str, "person" : str) := people ]}; eras := ∅ |}.
Definition people : Data J := keeping (<[owner_email := owner]> {[ gone_email := gone ]}).
Definition people' : Data J := keeping (<[owner_email := owner]> {[ new_email := shut_out ]}).

Lemma keeping_member (rows : gmap str J) (id : str) : member shop "person" (keeping rows) id = rows !! id.
Proof. unfold member, head_by_id, keeping. cbn [heads config_domain shop]. by rewrite lookup_singleton_eq. Qed.
Lemma two_rows_in (a b id : str) (x y s : J) :
  member shop "person" (keeping (<[a := x]> {[ b := y ]})) id = Some s → id = a ∨ id = b.
Proof.
  rewrite keeping_member, lookup_insert_Some. intros [[<- _]|[_ [<- _]%lookup_singleton_Some]]; [by left|by right].
Qed.
Lemma people_lower : lower_keys shop "person" people.
Proof. intros id s [->| ->]%two_rows_in; vm_compute; reflexivity. Qed.
Lemma people'_lower : lower_keys shop "person" people'.
Proof. intros id s [->| ->]%two_rows_in; vm_compute; reflexivity. Qed.
Lemma lower_letters_twice (s : str) : to_lowercase (to_lowercase s) = to_lowercase s.
Proof.
  assert (∀ s, to_lowercase s = map ascii_lower s) as H.
  { intros t. unfold to_lowercase. cbn [to_lower plain_letters]. induction t as [|c t IH]; [done|]. cbn [flat_map map]. rewrite IH. by destruct (_ <? _)%N. }
  rewrite !H, map_map. apply map_ext. intros c. unfold ascii_lower, is_upper.
  destruct ((65 <=? c)%N && (c <=? 90)%N) eqn:E; [|by rewrite E]. apply andb_true_iff in E as [E1 E2].
  apply N.leb_le in E1, E2. by rewrite (proj2 (andb_false_iff _ _)); [|right; apply N.leb_gt; lia].
Qed.

Lemma sites_keep_an_open_admin_witness :
  has_open_admin shop "person" (set_person_role 0 people shop shop_ir owner_email owner_email "Member").2.
Proof.
  apply (sites_keep_an_open_admin lower_letters_twice shop shop_ir "Person" "person" shop_settled people).
  - apply rtc_once. constructor.
  - exists owner_email, owner. split; [vm_compute; reflexivity|]. intros now. vm_compute. reflexivity.
Defined.

Lemma only_admins_change_members_witness :
  set_person_disabled 0 people shop shop_ir gone_email owner_email true = (Ok DisableCallerNotAdmin, people).
Proof.
  destruct (only_admins_change_members shop shop_ir "Person" "person" shop_settled 0 people gone_email owner_email "Member" true)
    as [H _]; [vm_compute; reflexivity|exact H].
Defined.

Lemma deleted_people_come_back_unlisted_witness :
  has_access 0 (set_person_disabled 0 people shop shop_ir owner_email gone_email false).2 shop_ir gone_email = Ok true.
Proof.
  destruct (set_person_disabled 0 people shop shop_ir owner_email gone_email false) as [[o|e] d'] eqn:E;
    [|vm_compute in E; discriminate E].
  eapply (deleted_people_come_back_unlisted shop shop_ir "Person" "person" shop_settled 0 people d' owner_email gone_email
    "Gone" "Member" gone o); [exact people_lower|vm_compute; reflexivity| | | | | | |exact E].
  - vm_compute. reflexivity.
  - vm_compute. reflexivity.
  - vm_compute. reflexivity.
  - vm_compute. reflexivity.
  - vm_compute. reflexivity.
  - vm_compute. reflexivity.
Defined.

(** A kernel that accepts every command, and no other domain to call. *)
#[local] Instance yes_kernel : Sandbox J := {|
  wasm_run _ text := Ok text;
  sv_from_str _ := Ok (sv_obj [("instances" : str, sv_obj []); ("events" : str, sv_array []); ("refusals" : str, sv_array [])]);
  module_path _ _ := Err "no plugin"
|}.
#[local] Instance no_one : Invoker J unit := λ i _ _, (Err "no peer", i).
Definition always : nat → Moment := λ _, {| clock_secs := 0; elapsed := Some 0 |}.
Definition shop_host (rows : gmap str J) : HostState J unit := {| store := keeping rows; peers := tt; log := [] |}.
Definition first_signin := provision "shop.wasm" shop None 0 None Off shop_ir always "id-7" new_email "google" "sub-1"
  (shop_host (<[owner_email := owner]> {[ new_email := newcomer ]})).

Lemma provisioning_is_for_granted_members_witness :
  ∃ s h', first_signin = (Ok (Some s), h') ∧ session_role s = Some ("Member" : str) ∧
    member shop "person" (store h') new_email = Some (linked_state newcomer (identity_id s)).
Proof.
  destruct first_signin as [[[s|]|e] h'] eqn:E; [|vm_compute in E; discriminate E|vm_compute in E; discriminate E].
  destruct (provisioning_is_for_granted_members "shop.wasm" shop None 0 None Off shop_ir always "Person" "person" shop_settled
    "id-7" new_email "google" "sub-1" _ h' (Some s) E) as (m & Hm & _ & _ & _ & Hr & _ & Hrow & _).
  exists s, h'. assert (m = newcomer) as -> by (vm_compute in Hm; by injection Hm as <-).
  split_and!; [reflexivity|rewrite Hr; vm_compute; reflexivity|exact Hrow].
Defined.

Lemma late_links_undo_a_disabling_witness :
  has_access 0 (store (link_member shop shop_ir new_email "id-7" newcomer
    (shop_host (<[owner_email := owner]> {[ new_email := shut_out ]})) ).2) shop_ir new_email = Ok true.
Proof.
  destruct (link_member shop shop_ir new_email "id-7" newcomer (shop_host (<[owner_email := owner]> {[ new_email := shut_out ]})))
    as [[[]|e] h'] eqn:E; [|vm_compute in E; discriminate E].
  eapply (late_links_undo_a_disabling shop shop_ir "Person" "person" shop_settled 0 new_email "id-7" "Member" newcomer shut_out
    (shop_host (<[owner_email := owner]> {[ new_email := shut_out ]})));
    [exact people'_lower| | | |exact E].
  - vm_compute. reflexivity.
  - vm_compute. reflexivity.
  - vm_compute. reflexivity.
Defined.

(** ** The flow, of the issuer and the shop above *)
From S2P Require Export SigninFlowFacts.
Open Scope Z_scope.

Definition shop_vars : gmap str str := list_to_map [
  (ISSUER_URL_VARIABLE, "https://login.example:8443" : str); (SITE_ID_VARIABLE, "shop-1" : str);
  (ENVIRONMENT_VARIABLE, "staging" : str); (MODE_VARIABLE, "default" : str); (SITE_URL_VARIABLE, "https://shop.example/" : str);
  (SESSION_SECRET_VARIABLE, "secret" : str); (SERVE_MODE_VARIABLE, "1" : str)].
Definition shop_config : PlatformSigninConfig :=
  new_config "https://login.example:8443" "https://login.example:8443/.well-known/jwks.json" "shop-1" "staging".

Lemma accepted_configurations_pin_the_issuer_witness :
  ∃ authority, issuer_url shop_config = HTTPS ++ authority ∧ authority ≠ [] ∧ max_lifetime_seconds shop_config = 60.
Proof.
  destruct (accepted_configurations_pin_the_issuer shop_vars shop_config) as (a & path & H1 & H2 & _ & _ & _ & _ & _ & _ & _ & _ & H3 & _);
    [vm_compute; reflexivity|]. exists a. split; [exact H1|split; [exact H2|exact H3]].
Defined.

Definition shop_settings : SigninSettings := {|
  mode := DefaultMode; config := shop_config; site_url := "https://shop.example"; session_secret := "secret";
  account_cookie := DEFAULT_ACCOUNT_COOKIE |}.
Lemma settings_are_all_or_nothing_witness : is_ok (settings_from_env_map shop_vars) = true ∧ account_cookie shop_settings ≠ [].
Proof.
  split; [vm_compute; reflexivity|]. destruct (settings_are_all_or_nothing shop_vars) as [_ Hs].
  destruct (Hs shop_settings) as (_ & _ & _ & _ & Hc & _); [vm_compute; reflexivity|exact Hc].
Defined.

(** A verifier that is never asked, and members nobody asks. *)
#[local] Instance no_verifier : TokenVerifier unit := λ t _ _, (None, t).
#[local] Instance no_members : MemberDirectory unit := {|
  identity_of d _ _ := (Ok None, d); session_for_identity d _ := (Ok None, d); provision_member d _ _ _ := (Ok None, d) |}.
Definition idle : SigninHandler J unit := {| settings := shop_settings; token_verifier := tt; lines := [] |}.
Definition sixteen (b : N) : list N := repeat b 16.
Lemma letters_length (bs : list N) : length bs = 32%nat → bytes bs → 16 <= Z.of_nat (length (url_encode bs)) <= 128.
Proof.
  intros Hl _. assert (length (url_encode bs) = 2 * length bs)%nat as ->; [|rewrite Hl; lia].
  clear Hl. induction bs as [|b bs IH]; [done|]. cbn [url_encode letters flat_map] in *. rewrite length_app, IH. simpl. lia.
Qed.
Lemma sixteen_bytes (a b : N) : (a < 256)%N → (b < 256)%N → bytes (sixteen a ++ sixteen b).
Proof. intros Ha Hb. unfold bytes, sixteen. cbn. repeat constructor; assumption. Qed.

Lemma started_signins_are_read_back_witness :
  ∃ c, read_cookie ["theme=dark"; signin_pair c] = Ok c ∧ read_cookie ["theme=dark"; signin_pair c; signin_pair c] = Err RepeatedCookie.
Proof.
  destruct (started_signins_are_read_back idle (sixteen 1) (sixteen 2) (sixteen 3) (sixteen 4) ["theme=dark" : str] [])
    as (_ & _ & H1 & H2).
  - exact letters_length.
  - reflexivity.
  - reflexivity.
  - apply sixteen_bytes; reflexivity.
  - apply sixteen_bytes; reflexivity.
  - vm_compute. reflexivity.
  - reflexivity.
  - eexists. split; [exact H1|exact H2].
Defined.

Lemma callback_queries_are_read_back_witness :
  parse_callback ("token=" ++ urlencode "a.b/c d" ++ "&state=" ++ urlencode "s&t=é") =
  Ok {| param_token := "a.b/c d"; param_state := "s&t=é" |}.
Proof. apply callback_queries_are_read_back; vm_compute; reflexivity || discriminate. Defined.

Lemma callbacks_have_two_answers_witness :
  deletes_cookie (callback idle tt {| raw_query := "token=T"; cookie_pairs := ["__Host-signin=x"] |} 0 0).1.1.
Proof.
  destruct (callbacks_have_two_answers idle tt {| raw_query := "token=T"; cookie_pairs := ["__Host-signin=x" : str] |} 0 0
    (callback idle tt {| raw_query := "token=T"; cookie_pairs := ["__Host-signin=x" : str] |} 0 0).1.1
    (callback idle tt {| raw_query := "token=T"; cookie_pairs := ["__Host-signin=x" : str] |} 0 0).1.2
    (callback idle tt {| raw_query := "token=T"; cookie_pairs := ["__Host-signin=x" : str] |} 0 0).2) as [Hd _];
    [vm_compute; reflexivity|exact Hd].
Defined.

(** Ada, a member of the shop not yet linked, comes back from the issuer. *)
Definition ada_shop : HostState J unit := {|
  store := keeping (<[owner_email := owner]> {[ "ada@shop.example" : str := newcomer ]}); peers := tt; log := [] |}.
Definition ada_callback : CallbackRequest := {|
  raw_query := "token=" ++ token_of (token_claims "j1" 1000) ++ "&state=" ++ cookie_state browser;
  cookie_pairs := [signin_pair browser] |}.
Definition signin_host : SigninHandler J (Verifier (JwksCache unit)) :=
  {| settings := shop_settings; token_verifier := SigninWitness.fresh; lines := [] |}.

Lemma refused_or_not (r : J) : (sv_get_str r "body" ≠ Some ([] : str)) ∨ ∀ f, r ≠ refusal f.
Proof.
  destruct (decide (sv_get_str r "body" = Some ([] : str))) as [E|E]; [right|by left]. intros f ->.
  destruct f; vm_compute in E; discriminate E.
Qed.
Lemma only_members_are_signed_in_witness :
  ∃ id row, member shop "person" (store ada_shop) id = Some row ∧ is_lapsed_at row 0 = false ∧ role_of row ≠ None.
Proof.
  destruct (callback (MD:=members "shop.wasm" shop None 0 None Off shop_ir always "id-7") signin_host ada_shop ada_callback 1010 1010)
    as [[response h'] d'] eqn:E.
  assert (sv_get_str response "body" = Some ([] : str)) as Hb.
  { apply (f_equal (λ x, sv_get_str x.1.1 "body")) in E. cbn [fst] in E. rewrite <- E. vm_compute. reflexivity. }
  destruct (only_members_are_signed_in "shop.wasm" shop None 0 None Off shop_ir always "id-7" "Person" "person" shop_settled
    signin_host ada_shop ada_callback 1010 1010 response h' d' E) as (k & p & cs & v & s & i & j & id & row & _ & _ & _ & [F1 F2 _ _] & Hr & _).
  - destruct (refused_or_not response) as [Hn|Hn]; [destruct (Hn Hb)|exact Hn].
  - exists id, row. split; [exact F1|split; [exact F2|exact Hr]].
Defined.
