(* ===== verification/WebText.v ===== *)
(** The texts of the web layer ([src/rust/host/src/web.rs]): percent escapes and
    urlencoded bodies, the suffix of a path's segment, escaping for HTML, the cookies
    of an event.  [String::from_utf8_lossy] is the standard library's.  The facts say
    which texts are read back, and that an escaped text is inert. *)
From stdpp Require Import gmap.
From S2P Require Import Tokens SigninFlowFacts.
From S2P Require Export Serde IpText.
Open Scope N_scope.

(** ** [String::from_utf8_lossy] *)

(** U+FFFD for every maximal run of bytes that begins no character. *)
Definition REPLACEMENT : char := 65533.
Definition between (lo hi b : N) : bool := (lo <=? b) && (b <=? hi).
(** The second byte of a three-byte character and of a four-byte one. *)
Definition second_of_three (b c : N) : bool :=
  (b =? 224) && between 160 191 c || between 225 236 b && between 128 191 c ||
  (b =? 237) && between 128 159 c || between 238 239 b && between 128 191 c.
Definition second_of_four (b c : N) : bool :=
  (b =? 240) && between 144 191 c || between 241 243 b && between 128 191 c || (b =? 244) && between 128 143 c.
Fixpoint utf8_lossy (bs : list N) : str :=
  match bs with
  | [] => []
  | b :: r1 =>
    if b <? 128 then b :: utf8_lossy r1
    else if between 194 223 b then
      match r1 with
      | c :: r2 => if is_cont c then ((b - 192) * 64 + (c - 128)) :: utf8_lossy r2 else REPLACEMENT :: utf8_lossy r1
      | [] => [REPLACEMENT]
      end
    else if between 224 239 b then
      match r1 with
      | c :: r2 =>
        if second_of_three b c then
          match r2 with
          | d :: r3 =>
            if is_cont d then ((b - 224) * 4096 + (c - 128) * 64 + (d - 128)) :: utf8_lossy r3
            else REPLACEMENT :: utf8_lossy r2
          | [] => [REPLACEMENT]
          end
        else REPLACEMENT :: utf8_lossy r1
      | [] => [REPLACEMENT]
      end
    else if between 240 244 b then
      match r1 with
      | c :: r2 =>
        if second_of_four b c then
          match r2 with
          | d :: r3 =>
            if is_cont d then
              match r3 with
              | e :: r4 =>
                if is_cont e
                then ((b - 240) * 262144 + (c - 128) * 4096 + (d - 128) * 64 + (e - 128)) :: utf8_lossy r4
                else REPLACEMENT :: utf8_lossy r3
              | [] => [REPLACEMENT]
              end
            else REPLACEMENT :: utf8_lossy r2
          | [] => [REPLACEMENT]
          end
        else REPLACEMENT :: utf8_lossy r1
      | [] => [REPLACEMENT]
      end
    else REPLACEMENT :: utf8_lossy r1
  end.

(** ** Urlencoded texts *)

(** [percent_decode_impl]: an escape that is not two hexadecimal digits stays. *)
Fixpoint percent_bytes (plus_as_space : bool) (bs : list N) : list N :=
  match bs with
  | [] => []
  | b :: rest =>
    if (b =? 43) && plus_as_space then 32 :: percent_bytes plus_as_space rest
    else if b =? 37 then
      match rest with
      | h :: l :: rest' =>
        match to_digit 16 h, to_digit 16 l with
        | Some high, Some low => N.lor (N.shiftl high 4) low :: percent_bytes plus_as_space rest'
        | _, _ => b :: percent_bytes plus_as_space rest
        end
      | _ => b :: percent_bytes plus_as_space rest
      end
    else b :: percent_bytes plus_as_space rest
  end.
Definition percent_decode_impl (s : str) (plus_as_space : bool) : str :=
  utf8_lossy (percent_bytes plus_as_space (utf8_encode s)).
Definition percent_decode (s : str) : str := percent_decode_impl s true.

(** [parse_urlencoded], [parse_form], [parse_query]: the last of one name counts. *)
Definition split_pair (pair : str) : str * str := default (pair, []) (split_once pair 61).
Definition decoded_pair (plus_as_space : bool) (pair : str) : str * str :=
  (percent_decode_impl (split_pair pair).1 plus_as_space, percent_decode_impl (split_pair pair).2 plus_as_space).
Definition collected (pairs : list (str * str)) : gmap str str := fold_left (λ m p, <[p.1 := p.2]> m) pairs ∅.
Definition parse_urlencoded (text : str) (plus_as_space : bool) : gmap str str :=
  collected (map (decoded_pair plus_as_space) (List.filter (λ s, negb (bool_decide (s = []))) (split text "&"))).
Definition parse_form (text : str) : gmap str str := parse_urlencoded text true.
Definition parse_query (text : str) : gmap str str := parse_urlencoded text false.

(** [split_format]: a segment's name and its format, JSON where it names none. *)
Definition split_format (segment : str) : str * str := default (segment, "json" : str) (split_once segment 46).

(** [esc]. *)
Definition esc (value : str) : str :=
  replace_all (replace_all (replace_all (replace_all (replace_all value "&" "&amp;") "<" "&lt;") ">" "&gt;")
    dquote "&quot;") "'" "&#39;".
(** [extract_cookies]: the event's list where there is one, else its header. *)
Section cookies.
Context {V : Type} `{SV : Serde V}.
Definition cookie_pair (pair : str) : option (str * str) :=
  match split_once pair 61 with Some (k, v) => Some (IpText.trim k, IpText.trim v) | None => None end.
Definition extract_cookies (event : V) : gmap str str :=
  match sv_get_array event "cookies" with
  | Some listed => collected (omap (λ c, s ← sv_as_str c; cookie_pair s) listed)
  | None =>
    match (h ← sv_get event "headers"; sv_get_str h "cookie") with
    | Some header => collected (omap cookie_pair (split header ";"))
    | None => ∅
    end
  end.
End cookies.

(** ** Facts *)

(** The texts of the web layer are read back ([WebText.v]): the lossy reading keeps
    every text, a form's fields survive the browser's encoding, an identifier survives
    a link, and an escaped text opens no markup and is one text's only. *)
From S2P Require Needs.
Open Scope N_scope.

(** ** Lossy reading *)

Lemma second_of_three_spec (b c : N) :
  second_of_three b c = true ↔
  (b = 224 ∧ 160 ≤ c ≤ 191) ∨ (225 ≤ b ≤ 236 ∧ 128 ≤ c ≤ 191) ∨ (b = 237 ∧ 128 ≤ c ≤ 159) ∨ (238 ≤ b ≤ 239 ∧ 128 ≤ c ≤ 191).
Proof. unfold second_of_three, between. rewrite !orb_true_iff, !andb_true_iff, !N.eqb_eq, !N.leb_le. tauto. Qed.
Lemma second_of_four_spec (b c : N) :
  second_of_four b c = true ↔ (b = 240 ∧ 144 ≤ c ≤ 191) ∨ (241 ≤ b ≤ 243 ∧ 128 ≤ c ≤ 191) ∨ (b = 244 ∧ 128 ≤ c ≤ 143).
Proof. unfold second_of_four, between. rewrite !orb_true_iff, !andb_true_iff, !N.eqb_eq, !N.leb_le. tauto. Qed.

Lemma lossy_char (c : char) (bs : list N) : is_scalar c = true → utf8_lossy (utf8_char c ++ bs) = c :: utf8_lossy bs.
Proof.
  intros Hs. unfold is_scalar in Hs. apply orb_true_iff in Hs. rewrite andb_true_iff, !N.ltb_lt in Hs.
  unfold utf8_char. destruct (N.ltb_spec c 128); [cbn [app utf8_lossy]; by N_bool|].
  N_digits c. destruct (N.ltb_spec c 2048); [|destruct (N.ltb_spec c 65536)]; cbn [app utf8_lossy]; unfold between, is_cont.
  - N_bool. f_equal. lia.
  - N_bool. rewrite (proj2 (second_of_three_spec _ _)) by lia. N_bool. f_equal. lia.
  - N_bool. rewrite (proj2 (second_of_four_spec _ _)) by lia. N_bool. f_equal. lia.
Qed.
Lemma lossy_text (s : str) : wf_str s = true → utf8_lossy (utf8_encode s) = s.
Proof.
  induction s as [|c s IH]; [done|]. cbn [wf_str forallb]. intros [Hc Hs]%andb_true_iff.
  cbn [utf8_encode flat_map]. rewrite lossy_char by done. f_equal. by apply IH.
Qed.

(** ** Percent escapes *)

Definition hex_pair (b : N) : list N := [37; hex_digit true (b / 16); hex_digit true (b mod 16)].
Lemma escape_read (plus : bool) (b : N) (rest : list N) :
  b < 256 → percent_bytes plus (hex_pair b ++ rest) = b :: percent_bytes plus rest.
Proof.
  intros Hb.
  assert (forallb (λ b, match to_digit 16 (hex_digit true (b / 16)), to_digit 16 (hex_digit true (b mod 16)) with
    | Some h, Some l => N.lor (N.shiftl h 4) l =? b | _, _ => false end) (map N.of_nat (seq 0 256)) = true) as Hall
    by (vm_compute; reflexivity).
  rewrite forallb_forall in Hall. specialize (Hall b). cbn [hex_pair app percent_bytes andb N.eqb Pos.eqb].
  destruct (to_digit 16 (hex_digit true (b / 16))); [destruct (to_digit 16 (hex_digit true (b mod 16)))|];
    (rewrite N.eqb_eq in Hall || (exfalso; cut (false = true); [done|])); cycle 1.
  1,2: apply Hall, in_map_iff; exists (N.to_nat b); rewrite in_seq; lia.
  rewrite Hall; [done|]. apply in_map_iff. exists (N.to_nat b). rewrite in_seq. lia.
Qed.

(** A byte as a browser writes it in a form, and as [urlencode] writes it. *)
Definition form_byte (b : N) : list N :=
  if b =? 32 then [43]
  else if is_digit b || is_upper b || is_lower b || (b =? 42) || (b =? 45) || (b =? 46) || (b =? 95) then [b] else hex_pair b.
Lemma form_byte_read (b : N) (rest : list N) : b < 256 → percent_bytes true (form_byte b ++ rest) = b :: percent_bytes true rest.
Proof.
  intros Hb. unfold form_byte. destruct (N.eqb_spec b 32) as [->|Hs]; [done|].
  destruct (is_digit b || _ || _ || _ || _ || _ || _) eqn:E; [|by apply escape_read].
  assert (b ≠ 43 ∧ b ≠ 37) as [H1 H2].
  { unfold is_digit, is_upper, is_lower in E. rewrite !orb_true_iff, !andb_true_iff, !N.leb_le, !N.eqb_eq in E. lia. }
  cbn [app percent_bytes]. by rewrite (proj2 (N.eqb_neq b 43) H1), (proj2 (N.eqb_neq b 37) H2).
Qed.
Lemma form_bytes_read (bs : list N) : bytes bs → percent_bytes true (flat_map form_byte bs) = bs.
Proof. induction 1 as [|b bs Hb _ IH]; [done|]. cbn [flat_map]. by rewrite form_byte_read, IH. Qed.
Lemma link_bytes_read (plus : bool) (bs : list N) : bytes bs → percent_bytes plus (flat_map escaped bs) = bs.
Proof.
  induction 1 as [|b bs Hb _ IH]; [done|]. cbn [flat_map]. unfold escaped at 1. destruct (unreserved b) eqn:E.
  - assert (b ≠ 43 ∧ b ≠ 37) as [H1 H2].
    { unfold unreserved, is_digit, is_upper, is_lower in E.
      rewrite !orb_true_iff, !andb_true_iff, !N.leb_le, !N.eqb_eq in E. lia. }
    cbn [app percent_bytes]. by rewrite (proj2 (N.eqb_neq b 43) H1), (proj2 (N.eqb_neq b 37) H2), IH.
  - fold (hex_pair b). by rewrite escape_read, IH.
Qed.

(** ** Forms *)

(** [application/x-www-form-urlencoded], as a browser sends a form's fields. *)
Definition form_encode (s : str) : str := flat_map form_byte (utf8_encode s).
Definition form_pair (p : str * str) : str := form_encode p.1 ++ "=" ++ form_encode p.2.
Definition form_text (pairs : list (str * str)) : str := join "&" (map form_pair pairs).

Lemma form_byte_plain (b : N) :
  b < 256 → forallb (λ c, (c <? 128) && negb (c =? 38) && negb (c =? 61)) (form_byte b) = true.
Proof.
  intros Hb. assert (forallb (λ b, forallb (λ c, (c <? 128) && negb (c =? 38) && negb (c =? 61)) (form_byte b))
    (map N.of_nat (seq 0 256)) = true) as Hall by (vm_compute; reflexivity).
  rewrite forallb_forall in Hall. apply Hall, in_map_iff. exists (N.to_nat b). rewrite in_seq. lia.
Qed.
Lemma form_encode_plain (s : str) :
  wf_str s = true → forallb (λ c, (c <? 128) && negb (c =? 38) && negb (c =? 61)) (form_encode s) = true.
Proof.
  intros Hs. unfold form_encode. induction (utf8_encode_bytes s Hs) as [|b bs Hb _ IH]; [done|].
  cbn [flat_map]. by rewrite forallb_app, form_byte_plain, IH.
Qed.
Lemma plain_ascii (s : str) :
  forallb (λ c, (c <? 128) && negb (c =? 38) && negb (c =? 61)) s = true → utf8_encode s = s ∧ (38 ∉ s) ∧ (61 ∉ s).
Proof.
  intros Hs. split_and!; [|by apply (not_in_text _ _ _ Hs)..]. apply ascii_bytes. revert Hs. apply forallb_weaken.
  intros c. rewrite !andb_true_iff. tauto.
Qed.
Lemma form_value_read (s : str) : wf_str s = true → percent_decode_impl (form_encode s) true = s.
Proof.
  intros Hs. unfold percent_decode_impl. destruct (plain_ascii _ (form_encode_plain s Hs)) as [-> _].
  unfold form_encode. rewrite form_bytes_read by (by apply utf8_encode_bytes). by apply lossy_text.
Qed.
Lemma form_pair_read (p : str * str) : wf_str p.1 = true → wf_str p.2 = true → decoded_pair true (form_pair p) = p.
Proof.
  intros H1 H2. unfold decoded_pair, split_pair, form_pair. change ("=" ++ form_encode p.2) with (61 :: form_encode p.2).
  rewrite split_once_single by (by apply plain_ascii, form_encode_plain). cbn [default from_option id fst snd].
  rewrite !form_value_read by done. by destruct p.
Qed.
Lemma form_pair_whole (p : str * str) : wf_str p.1 = true → wf_str p.2 = true → (38 ∉ form_pair p) ∧ form_pair p ≠ [].
Proof.
  intros H1 H2. split; [|unfold form_pair; by destruct (form_encode p.1)].
  unfold form_pair. rewrite !not_elem_of_app. split_and!; [by apply plain_ascii, form_encode_plain| |by apply plain_ascii, form_encode_plain].
  refine (bool_decide_unpack _ _). vm_compute. exact Logic.I.
Qed.
Lemma form_pieces (pairs : list (str * str)) :
  Forall (λ p, wf_str p.1 = true ∧ wf_str p.2 = true) pairs →
  List.filter (λ s, negb (bool_decide (s = []))) (split (form_text pairs) "&") = map form_pair pairs.
Proof.
  intros Hp. destruct pairs as [|p pairs]; [done|]. unfold form_text. revert p Hp.
  induction pairs as [|q pairs IH]; intros p [[H1 H2] Hp]%list.Forall_cons; destruct (form_pair_whole p H1 H2) as [Hno Hne].
  - cbn [map join]. change ("&" : str) with [38]. rewrite Needs.split_single_last by done. cbn [List.filter].
    by rewrite bool_decide_false.
  - cbn [map]. rewrite join_cons by done. change ("&" ++ ?r) with (38 :: r) at 1. change ("&" : str) with [38] at 2.
    rewrite Needs.split_single by done. cbn [List.filter]. rewrite bool_decide_false by done. cbn [negb]. f_equal.
    by apply (IH q).
Qed.

(** A form sent as a browser encodes it is read as its fields, whatever their texts:
    the last value of a name that is given more than once. *)
Theorem forms_are_read_back (pairs : list (str * str)) :
  Forall (λ p, wf_str p.1 = true ∧ wf_str p.2 = true) pairs → parse_form (form_text pairs) = collected pairs.
Proof.
  intros Hp. unfold parse_form, parse_urlencoded. rewrite form_pieces by done. f_equal. rewrite map_map.
  induction Hp as [|p pairs [H1 H2] _ IH]; [done|]. cbn [map]. by rewrite form_pair_read, IH.
Qed.

(** ** Links *)

(** The record a page links a command to is the one the command's page is opened for. *)
Lemma link_value_read (plus : bool) (s : str) : wf_str s = true → percent_decode_impl (urlencode s) plus = s.
Proof.
  intros Hs. unfold percent_decode_impl. rewrite ascii_bytes.
  - unfold urlencode. change (λ b, if unreserved b then _ else _) with escaped.
    rewrite link_bytes_read by (by apply utf8_encode_bytes). by apply lossy_text.
  - pose proof (urlencode_plain s Hs) as H. revert H. apply forallb_weaken. intros c. rewrite !andb_true_iff. tauto.
Qed.

(** ** HTML *)

(** [replace] of one character. *)
Lemma replace_one (c : char) (to s : str) : replace_all s [c] to = flat_map (λ x, if x =? c then to else [x]) s.
Proof.
  induction s as [|x s IH]; [done|]. cbn [flat_map]. destruct (N.eqb_spec x c) as [->|Hx].
  - change (c :: s) with ([c] ++ s). by rewrite replace_all_match, IH.
  - rewrite replace_all_skip; [by rewrite IH|]. rewrite starts_with_one. by apply N.eqb_neq.
Qed.
Lemma flat_map_after {A B C} (f : A → list B) (g : B → list C) (l : list A) : flat_map g (flat_map f l) = flat_map (λ x, flat_map g (f x)) l.
Proof. induction l as [|x l IH]; [done|]. cbn [flat_map]. by rewrite flat_map_app, IH. Qed.

(** What [esc] makes of a character. *)
Definition entity (c : char) : str :=
  if c =? 38 then "&amp;" else if c =? 60 then "&lt;" else if c =? 62 then "&gt;"
  else if c =? 34 then "&quot;" else if c =? 39 then "&#39;" else [c].
Lemma esc_entities (s : str) : esc s = flat_map entity s.
Proof.
  unfold esc. change ("&" : str) with [38]. change ("<" : str) with [60]. change (">" : str) with [62].
  change dquote with [34]. change ("'" : str) with [39]. rewrite !replace_one, !flat_map_after.
  apply flat_map_ext. intros c. unfold entity.
  destruct (N.eqb_spec c 38) as [->|H1]; [vm_compute; reflexivity|]. cbn [flat_map app].
  destruct (N.eqb_spec c 60) as [->|H2]; [vm_compute; reflexivity|]. cbn [flat_map app].
  destruct (N.eqb_spec c 62) as [->|H3]; [vm_compute; reflexivity|]. cbn [flat_map app].
  destruct (N.eqb_spec c 34) as [->|H4]; [vm_compute; reflexivity|]. cbn [flat_map app].
  by destruct (N.eqb_spec c 39).
Qed.
Definition opens_markup (c : char) : bool := (c =? 60) || (c =? 62) || (c =? 34) || (c =? 39).
Lemma entity_plain (c : char) : existsb opens_markup (entity c) = false.
Proof.
  unfold entity. destruct (c =? 38) eqn:E1; [vm_compute; reflexivity|]. destruct (c =? 60) eqn:E2; [vm_compute; reflexivity|].
  destruct (c =? 62) eqn:E3; [vm_compute; reflexivity|]. destruct (c =? 34) eqn:E4; [vm_compute; reflexivity|].
  destruct (c =? 39) eqn:E5; [vm_compute; reflexivity|]. cbn [existsb]. unfold opens_markup. by rewrite E2, E3, E4, E5.
Qed.
(** A text as a browser reads it back from its entities. *)
Fixpoint unentity (s : str) : str :=
  match s with
  | [] => []
  | c :: rest =>
    match rest with
    | 97 :: 109 :: 112 :: 59 :: r => if c =? 38 then 38 :: unentity r else c :: unentity rest
    | 108 :: 116 :: 59 :: r => if c =? 38 then 60 :: unentity r else c :: unentity rest
    | 103 :: 116 :: 59 :: r => if c =? 38 then 62 :: unentity r else c :: unentity rest
    | 113 :: 117 :: 111 :: 116 :: 59 :: r => if c =? 38 then 34 :: unentity r else c :: unentity rest
    | 35 :: 51 :: 57 :: 59 :: r => if c =? 38 then 39 :: unentity r else c :: unentity rest
    | _ => c :: unentity rest
    end
  end.
Lemma unentity_plain (c : char) (s : str) : c ≠ 38 → unentity (c :: s) = c :: unentity s.
Proof. intros Hc. apply N.eqb_neq in Hc. cbn [unentity]. rewrite Hc. by repeat case_match. Qed.
Lemma unentity_entity (c : char) (s : str) : unentity (entity c ++ s) = c :: unentity s.
Proof.
  unfold entity. destruct (N.eqb_spec c 38) as [->|H1]; [done|]. destruct (N.eqb_spec c 60) as [->|H2]; [done|].
  destruct (N.eqb_spec c 62) as [->|H3]; [done|]. destruct (N.eqb_spec c 34) as [->|H4]; [done|].
  destruct (N.eqb_spec c 39) as [->|H5]; [done|]. by apply unentity_plain.
Qed.

(** An escaped text holds no character that opens or closes markup or a quoted
    attribute, and a browser reads the text back from it. *)
Theorem escaped_texts_are_inert (s : str) : existsb opens_markup (esc s) = false ∧ unentity (esc s) = s.
Proof.
  rewrite esc_entities. induction s as [|c s [IH1 IH2]]; [done|]. cbn [flat_map]. split.
  - by rewrite existsb_app, entity_plain.
  - by rewrite unentity_entity, IH2.
Qed.
