(* ===== verification/Forms.v ===== *)
(** The forms of the web layer ([src/rust/host/src/web.rs]): the fields a command's
    attributes ask for and the arguments a submitted form gives.

    A value object's attributes may be value objects: [resolve_field] has as many
    levels as it is given, and [FormsFacts.resolves] says when they are enough.  The
    hints of [field_hints.rs], compiled by the regex crate, are arguments. *)
From stdpp Require Import gmap.
From S2P Require Export WebText.
From S2P Require Import Float64.
Open Scope Z_scope.

(** ** Fields *)

(** [FieldKind], [Field]. *)
Inductive FieldKind (F : Type) :=
| TextKind (html_type : str) | Textarea | Number (step : str) | Boolean | Radio (members : list str) | Select (members : list str)
| Group (children : list F) | Money (children : list F) | Reference (target : option str) | ListOf (item : F).
Arguments TextKind {F}. Arguments Textarea {F}. Arguments Number {F}. Arguments Boolean {F}. Arguments Radio {F}.
Arguments Select {F}. Arguments Group {F}. Arguments Money {F}. Arguments Reference {F}. Arguments ListOf {F}.
Inductive Field := MkField (path label : str) (kind : FieldKind Field) (optional : bool).
Definition field_path (f : Field) : str := match f with MkField p _ _ _ => p end.
Definition field_label (f : Field) : str := match f with MkField _ l _ _ => l end.
Definition field_kind (f : Field) : FieldKind Field := match f with MkField _ _ k _ => k end.
Definition field_optional (f : Field) : bool := match f with MkField _ _ _ o => o end.

(** [humanize]. *)
Definition ascii_capital (s : str) : str :=
  match s with c :: s' => (if is_lower c then (c - 32)%N else c) :: s' | [] => [] end.
Definition humanize (path : str) : str :=
  match split (last_piece path ".") "_" with
  | first :: rest => join " " (ascii_capital first :: rest)
  | [] => last_piece path "."
  end.

Definition PRIMITIVES : list str := ["String"; "Integer"; "Float"; "TrueClass"; "FalseClass"].
(** [reference_target]: the [X] of [Reference<X>]. *)
Definition without_last (c : char) (s : str) : option str :=
  match rev s with x :: r => if (x =? c)%N then Some (rev r) else None | [] => None end.
Definition reference_target (ty : str) : option str := rest ← strip_prefix ty "Reference<"; without_last 62 rest.
(** [splitn(2, "::")]. *)
Definition split_two (s sep : str) : str * option str :=
  match split s sep with x :: (_ :: _) as rest => (x, Some (join sep (tail rest))) | x :: _ => (x, None) | [] => ([], None) end.

Section fields.
Context {V : Type} `{SV : Serde V}.
Context (email_hint url_hint tel_hint textarea_hint : str → bool).

Definition bool_at (v : V) (key : str) : bool := default false (x ← sv_get v key; sv_as_bool x).
Definition name_of (v : V) (otherwise : str) : str := default otherwise (sv_get_str v "name").
Definition named_in (owner : V) (key name : str) : option V :=
  listed ← sv_get_array owner key; find (λ x, bool_decide (sv_get_str x "name" = Some name)) listed.

(** [find_aggregate], [find_command], [find_value_object], [agg_name], [identity_paths]. *)
Definition find_aggregate (domain_ir : V) (name : str) : option V := named_in domain_ir "aggregates" name.
Definition find_command (aggregate : V) (name : str) : option V := named_in aggregate "commands" name.
Definition find_value_object (aggregate : V) (name : str) : option V := named_in aggregate "value_objects" name.
Definition agg_name (aggregate : V) : str := name_of aggregate [].
Definition identity_paths (aggregate : V) : list str := omap sv_as_str (sv_list aggregate "identified_by").

(** [text_html_type], [text_kind], [text_field], [primitive_field]. *)
Definition text_html_type (name pattern : str) : str :=
  if contains pattern "@" || email_hint name then "email"
  else if contains (map ascii_lower pattern) "http" || url_hint name then "url"
  else if tel_hint name then "tel" else "text".
Definition text_kind (html_type name : str) : FieldKind Field :=
  if str_eqb html_type "text" && textarea_hint name then Textarea else TextKind html_type.
Definition text_field (attribute : V) (path : str) (optional : bool) : Field :=
  let name := name_of attribute [] in
  let pattern := default [] (sv_get_str attribute "pattern") in
  MkField path (humanize path) (text_kind (text_html_type name pattern) name) optional.
Definition primitive_field (attribute : V) (ty path : str) (optional : bool) : Field :=
  if str_eqb ty "Integer" then MkField path (humanize path) (Number "1") optional
  else if str_eqb ty "Float" then MkField path (humanize path) (Number "any") optional
  else if str_eqb ty "TrueClass" || str_eqb ty "FalseClass" then MkField path (humanize path) Boolean optional
  else text_field attribute path optional.

(** [closed_set_members], [select_or_radio]. *)
Definition member_of (discriminant : str) (pair : V) : option str :=
  p ← sv_as_array pair; k ← p !! 0%nat; key ← sv_as_str k;
  if str_eqb key discriminant then v ← p !! 1%nat; sv_as_str v else None.
Definition closed_set_members (vo : V) : str * list str :=
  let discriminant := default ("value" : str) (a ← sv_list vo "attributes" !! 0%nat; sv_get_str a "name") in
  (discriminant, omap (λ m, pairs ← sv_as_array m; list.head (omap (member_of discriminant) pairs)) (sv_list vo "members")).
Definition select_or_radio (path : str) (optional : bool) (members : list str) : Field :=
  MkField path (humanize path) (if (length members <=? 4)%nat then Radio members else Select members) optional.

(** [money_shaped], [money_field]. *)
Definition money_shaped (attrs : list V) : bool :=
  bool_decide (sort_by str_compare (omap (λ a, sv_get_str a "name") attrs) = ["cents" : str; "currency" : str]).
Definition money_field (path : str) (optional : bool) : Field :=
  MkField path (humanize path)
    (Money [MkField (path ++ ".cents") "Amount (cents)" (Number "1") optional;
            MkField (path ++ ".currency") "Currency" (TextKind "text") true]) optional.

Section of_aggregate.
Context (domain_ir aggregate : V).

(** [cross_aggregate_value_object], [value_object_shape]. *)
Definition cross_aggregate_value_object (type_name : str) : option V :=
  list.head (omap (λ sibling, find_value_object sibling type_name) (sv_list domain_ir "aggregates")).
Definition value_object_shape (ty : str) : option V :=
  match find_value_object aggregate ty with Some v => Some v | None => cross_aggregate_value_object ty end.

(** [admitted_field]. *)
Definition admitted_set (admits : str) : option V :=
  match split_two admits "::" with
  | (owner, Some name) => agg ← find_aggregate domain_ir owner; find_value_object agg name
  | (_, None) => None
  end.
Definition repathed (f : Field) (path : str) : Field := MkField path (field_label f) (field_kind f) (field_optional f).
Definition admitted_field (attribute : V) (admits ty path : str) (optional : bool) : Field :=
  match admitted_set admits with
  | None => primitive_field attribute ty path optional
  | Some set =>
    let field := select_or_radio path optional (closed_set_members set).2 in
    match (shape ← value_object_shape ty; sv_get_array shape "attributes") with
    | Some [inner] => repathed field (path ++ "." ++ name_of inner "value")
    | _ => field
    end
  end.

(** [value_object_field], over the resolution of the attributes within. *)
Definition relabelled (f : Field) (label : str) (optional : bool) : Field :=
  MkField (field_path f) label (field_kind f) (optional || field_optional f).
Definition value_object_field (resolve : V → str → option Field) (shape : V) (path : str) (optional : bool) : option Field :=
  let attrs := sv_list shape "attributes" in
  if bool_at shape "closed_set" then
    let set := closed_set_members shape in Some (repathed (select_or_radio path optional set.2) (path ++ "." ++ set.1))
  else if money_shaped attrs then Some (money_field path optional)
  else match attrs with
  | [inner] =>
    field ← resolve inner (path ++ "." ++ name_of inner "value"); Some (relabelled field (humanize path) optional)
  | _ =>
    children ← mapM (λ inner, resolve inner (path ++ "." ++ name_of inner [])) attrs;
    Some (MkField path (humanize path) (Group children) optional)
  end.

(** [resolve_field]. *)
Definition listed_scalar (attribute : V) (ty : str) : V := sv_obj [
  ("name" : str, default sv_null (sv_get attribute "name")); ("type" : str, sv_str ty); ("list" : str, sv_bool false);
  ("optional" : str, sv_bool true); ("pattern" : str, default sv_null (sv_get attribute "pattern"));
  ("admits" : str, default sv_null (sv_get attribute "admits"))].
Definition type_of (attribute : V) : str := default ("String" : str) (sv_get_str attribute "type").
Fixpoint resolve_field (levels : nat) (attribute : V) (path : str) : option Field :=
  match levels with
  | O => None
  | S levels =>
    let optional := bool_at attribute "optional" in
    let ty := type_of attribute in
    if bool_at attribute "list" then
      item ← resolve_field levels (listed_scalar attribute ty) path;
      Some (MkField path (humanize path) (ListOf item) optional)
    else match reference_target ty with
    | Some target => Some (MkField path (humanize path) (Reference (Some target)) optional)
    | None =>
      match sv_get_str attribute "admits" with
      | Some admits => Some (admitted_field attribute admits ty path optional)
      | None =>
        if existsb (str_eqb ty) PRIMITIVES then Some (primitive_field attribute ty path optional)
        else match value_object_shape ty with
        | None => Some (primitive_field attribute ty path optional)
        | Some shape => value_object_field (resolve_field levels) shape path optional
        end
      end
    end
  end.

(** [command_fields]. *)
Definition creates (command : V) : bool :=
  match sv_get command "references" with Some r => sv_is_null r | None => true end.
Definition id_field : Field :=
  MkField "id" (agg_name aggregate ++ " (" ++ join ", " (identity_paths aggregate) ++ ")") (TextKind "text") false.
Definition command_fields (levels : nat) (command : V) : option (list Field) :=
  fields ← mapM (λ attribute, resolve_field levels attribute (name_of attribute [])) (sv_list command "attributes");
  Some ((if creates command then [] else [id_field]) ++ fields).
End of_aggregate.
End fields.

(** ** Arguments *)

(** [Value::from] of a float: null where it is none of JSON's numbers. *)
Class SerdeFloat (V : Type) := sv_f64 : f64 → V.

Section arguments.
Context `{U : UnicodeTables} {V : Type} `{SV : Serde V} `{SF : SerdeFloat V}.

(** [cast_scalar]. *)
Definition cast_scalar (kind : FieldKind Field) (text : str) : V :=
  match kind with
  | Number step =>
    if str_eqb step "1" then match parse_i64 text with Some n => sv_i64 n | None => sv_null end
    else match parse_f64 text with Some x => sv_f64 x | None => sv_null end
  | _ => sv_str text
  end.

(** [str::lines]. *)
Definition chomp (line : str) : str := default line (without_last 13 line).
Definition lines_of (text : str) : list str :=
  let pieces := split text [10%N] in
  map chomp (match rev pieces with [] :: r => rev r | _ => pieces end).

(** [collect_field]. *)
Definition checked_box (v : option str) : bool :=
  match v with Some t => str_eqb t "on" || str_eqb t "1" || str_eqb t "true" | None => false end.
Fixpoint collect_field (raw : gmap str str) (field : Field) : list (str * V) :=
  match field with
  | MkField path _ kind optional =>
    match kind with
    | Group children | Money children => flat_map (collect_field raw) children
    | ListOf item =>
      match raw !! path with
      | Some text =>
        match map (cast_scalar (field_kind item))
                (List.filter (λ l, negb (bool_decide (l = []))) (map IpText.trim (lines_of text))) with
        | [] => []
        | values => [(path, sv_array values)]
        end
      | None => []
      end
    | Boolean => [(path, sv_bool (checked_box (raw !! path)))]
    | _ =>
      match raw !! path with
      | Some text => if bool_decide (text = []) && optional then [] else [(path, cast_scalar kind text)]
      | None => []
      end
    end
  end.

(** [nest]: a value put at the end of its path, or how much of the path collides. *)
Fixpoint nest_at (depth : nat) (node : V) (segments : list str) (value : V) : result nat V :=
  match segments with
  | [] => Ok node
  | [leaf] =>
    if negb (sv_is_object node) then Err depth
    else if match sv_get node leaf with Some existing => sv_is_object existing | None => false end && negb (sv_is_object value)
    then Err (S depth)
    else Ok (sv_insert node leaf value)
  | segment :: rest =>
    if negb (sv_is_object node) then Err depth
    else
      let? child := nest_at (S depth) (default sv_object (sv_get node segment)) rest value in
      Ok (sv_insert node segment child)
  end.
Definition collision_error (path : str) (existing_prefix : list str) : str :=
  "form field " ++ debug_str path ++ " collides with " ++ debug_str (join "." existing_prefix) ++
  " — one implies a scalar value, the other a nested object; refusing rather than guessing or silently dropping data".
Definition nest_pair (node : V) (pair : str * V) : result str V :=
  let segments := split pair.1 "." in
  match nest_at 0 node segments pair.2 with
  | Ok v => Ok v
  | Err depth => Err (collision_error pair.1 (take depth segments))
  end.
Definition nest (pairs : list (str * V)) : result str V := try_fold nest_pair sv_object pairs.

(** [extract_args]. *)
Definition extract_args (fields : list Field) (raw : gmap str str) : result str V :=
  nest (flat_map (collect_field raw) fields).
End arguments.
