(* ===== verification/FormsFacts.v ===== *)
(** What the forms promise ([Forms.v]): fields are resolved in bounded many levels
    where value objects do not contain themselves, nothing a form was sent is lost on
    its way into the arguments, and a form is refused exactly where one path runs
    through another. *)
From stdpp Require Import gmap.
From S2P Require RateLimitFacts.
From S2P Require Export WebText Forms.
Open Scope Z_scope.

(** ** Nested values *)

Section nesting.
Context `{U : UnicodeTables} {V : Type} `{SV : Serde V} `{SL : !SerdeLaws V}.

Fixpoint at_path (v : V) (segments : list str) : option V :=
  match segments with [] => Some v | s :: rest => x ← sv_get v s; at_path x rest end.

Lemma at_path_app (v : V) (a b : list str) : at_path v (a ++ b) = (x ← at_path v a; at_path x b).
Proof. revert v. induction a as [|s a IH]; intros v; [done|]. cbn [app at_path]. destruct (sv_get v s); [apply IH|done]. Qed.
Lemma scalar_has_nothing (v : V) (segments : list str) : sv_is_object v = false → segments ≠ [] → at_path v segments = None.
Proof.
  intros Hv Hs. destruct segments as [|s rest]; [done|]. cbn [at_path]. destruct (sv_get v s) as [x|] eqn:E; [|done].
  apply sv_get_is in E. congruence.
Qed.

(** Paths that run apart. *)
Definition apart (a b : list str) : Prop := ¬ a `prefix_of` b ∧ ¬ b `prefix_of` a.
Lemma apart_cons (s t : str) (a b : list str) : apart (s :: a) (t :: b) → s = t → apart a b.
Proof.
  intros [H1 H2] ->. split; intros H; [apply H1|apply H2]; by apply prefix_cons.
Qed.

Lemma nest_at_deeper (depth : nat) (node value : V) (s s' : str) (rest : list str) :
  nest_at depth node (s :: s' :: rest) value =
  if negb (sv_is_object node) then Err depth
  else let? child := nest_at (S depth) (default sv_object (sv_get node s)) (s' :: rest) value in Ok (sv_insert node s child).
Proof. reflexivity. Qed.

Lemma nest_at_puts (depth : nat) (node node' value : V) (segments : list str) :
  nest_at depth node segments value = Ok node' → segments ≠ [] →
  sv_is_object node' = true ∧ at_path node' segments = Some value ∧
  ∀ other, apart segments other → at_path node' other = at_path node other.
Proof.
  revert depth node node'. induction segments as [|s rest IH]; intros depth node node'; [done|]. intros Hn _.
  destruct rest as [|s' rest].
  - cbn [nest_at] in Hn. destruct (sv_is_object node) eqn:Eo; [|done]. cbn [negb] in Hn.
    destruct (_ && _); [done|]. injection Hn as <-. split_and!.
    + by apply sv_insert_is.
    + cbn [at_path]. rewrite sv_get_insert by done. by rewrite decide_True.
    + intros other [H1 H2]. destruct other as [|t other]; [by destruct H2; apply prefix_nil|]. cbn [at_path].
      rewrite sv_get_insert by done. rewrite decide_False; [done|]. intros ->. apply H1. by apply prefix_cons, prefix_nil.
  - rewrite nest_at_deeper in Hn. destruct (sv_is_object node) eqn:Eo; [|done]. cbn [negb] in Hn.
    destruct (nest_at _ (default sv_object (sv_get node s)) (s' :: rest) value) as [child|] eqn:Ec; [|done]. injection Hn as <-.
    destruct (IH _ _ _ Ec ltac:(done)) as (_ & Hp & Ho). split_and!.
    + by apply sv_insert_is.
    + cbn [at_path]. rewrite sv_get_insert by done. rewrite decide_True by done. exact Hp.
    + intros other Ha. destruct other as [|t other]; [by destruct Ha as [_ []]; apply prefix_nil|]. cbn [at_path].
      rewrite sv_get_insert by done. destruct (decide (s = t)) as [->|]; [|done]. cbn [mbind option_bind].
      rewrite Ho by (by eapply apart_cons). destruct (sv_get node t) as [x|]; [done|]. cbn [from_option id].
      destruct other as [|u other]; [by destruct Ha as [_ []]; apply prefix_cons, prefix_nil|].
      cbn [at_path]. by rewrite sv_get_object.
Qed.

(** Where a value goes: every node on the way is an object, and no object stands at
    its end. *)
Definition room (node : V) (segments : list str) : Prop :=
  ∀ before y, before `prefix_of` segments → at_path node before = Some y → before ≠ segments ∧ sv_is_object y = true ∨ before = segments ∧ sv_is_object y = false.
Lemma room_cons (node : V) (s s' : str) (rest : list str) :
  sv_is_object node = true →
  room (default sv_object (sv_get node s)) (s' :: rest) ↔ room node (s :: s' :: rest).
Proof.
  intros Ho. split; intros H before y Hp Hy.
  - destruct before as [|t before]; [left; injection Hy as <-; by split|].
    apply prefix_cons_inv_1 in Hp as Ht. apply prefix_cons_inv_2 in Hp. subst t.
    cbn [at_path] in Hy. destruct (sv_get node s) as [x|]; [|done]. destruct (H before y Hp Hy) as [[]|[]]; [left|right]; split; congruence.
  - destruct (sv_get node s) as [x|] eqn:E; cbn [from_option id] in Hy.
    + destruct (H (s :: before) y) as [[]|[]]; [by apply prefix_cons|by cbn [at_path]; rewrite E|left; split; congruence|right; split; congruence].
    + destruct before as [|t before]; cbn [at_path] in Hy; [|by rewrite sv_get_object in Hy]. injection Hy as <-. left. split; [done|apply sv_object_is].
Qed.
Lemma nest_at_room (depth : nat) (node value : V) (segments : list str) :
  segments ≠ [] → sv_is_object node = true → sv_is_object value = false →
  (∃ node', nest_at depth node segments value = Ok node') ↔ room node segments.
Proof.
  revert depth node. induction segments as [|s rest IH]; intros depth node Hne Ho Hv; [done|]. destruct rest as [|s' rest].
  - cbn [nest_at]. rewrite Ho, Hv. cbn [negb]. rewrite andb_true_r. split.
    + intros [node' H] before y Hp Hy. destruct before as [|t before]; [left; injection Hy as <-; by split|].
      apply prefix_cons_inv_1 in Hp as Ht. apply prefix_cons_inv_2, prefix_nil_inv in Hp. subst t before.
      cbn [at_path] in Hy. destruct (sv_get node s) as [x|]; [|done]. injection Hy as ->.
      right. destruct (sv_is_object y); done.
    + intros H. destruct (sv_get node s) as [x|] eqn:E; [|eauto].
      destruct (H [s] x) as [[]|[_ Hx]]; [done|by cbn [at_path]; rewrite E|done|]. rewrite Hx. eauto.
  - rewrite nest_at_deeper, Ho. cbn [negb]. rewrite <- room_cons by done.
    destruct (sv_is_object (default sv_object (sv_get node s))) eqn:Ec.
    + rewrite <- (IH (S depth)) by done. split; intros [node' H].
      * destruct (nest_at (S depth) _ _ value); [eauto|done].
      * rewrite H. eauto.
    + split; [intros [node' H]; destruct rest; cbn [nest_at] in H; rewrite Ec in H; done|].
      intros H. destruct (H [] _ (prefix_nil _) eq_refl) as [[]|[]]; [congruence|done].
Qed.

(** What stands after some values were put: the values where they were sent, nothing
    else but the objects on the way to them. *)
Record nested (done : list (list str * V)) (v : V) : Prop := {
  nested_object : sv_is_object v = true;
  nested_kept s x : (s, x) ∈ done → at_path v s = Some x;
  nested_scalars s y : at_path v s = Some y → sv_is_object y = false → s ∈ done.*1;
  nested_objects s y : s ≠ [] → at_path v s = Some y → sv_is_object y = true → ∃ p, p ∈ done.*1 ∧ s `prefix_of` p;
}.
Lemma nested_nothing : nested [] sv_object.
Proof.
  split; [apply sv_object_is|by intros s x ?%elem_of_nil| |].
  - intros [|t s] y Hy Ho; cbn [at_path] in Hy; [|by rewrite sv_get_object in Hy]. injection Hy as <-. by rewrite sv_object_is in Ho.
  - intros [|t s] y Hs Hy; [done|]. cbn [at_path] in Hy. by rewrite sv_get_object in Hy.
Qed.
Lemma on_the_way (v : V) (s r : list str) (x : V) :
  at_path v (s ++ r) = Some x → r ≠ [] → ∃ y, at_path v s = Some y ∧ sv_is_object y = true.
Proof.
  rewrite at_path_app. destruct (at_path v s) as [y|]; [|done]. cbn [mbind option_bind]. intros H Hr. exists y. split; [done|].
  destruct (sv_is_object y) eqn:E; [done|]. by rewrite scalar_has_nothing in H.
Qed.
Lemma proper_rest (s p : list str) : s `prefix_of` p → s ≠ p → ∃ r, p = s ++ r ∧ r ≠ [].
Proof. intros [r ->] Hne. exists r. split; [done|]. intros ->. by rewrite app_nil_r in Hne. Qed.

Definition leaves_only (done : list (list str * V)) : Prop := ∀ s x, (s, x) ∈ done → sv_is_object x = false.
Lemma nested_room (done : list (list str * V)) (v : V) (q : list str) :
  nested done v → leaves_only done → q ∉ done.*1 → q ≠ [] →
  room v q ↔ ∀ p, p ∈ done.*1 → apart p q.
Proof.
  intros Hn Hl Hq Hne. split.
  - intros Hr p Hp. apply list_elem_of_fmap in Hp as ([p' x] & -> & Hin). cbn [fst].
    pose proof (nested_kept _ _ Hn _ _ Hin) as Hx. pose proof (Hl _ _ Hin) as Hs.
    assert (p' ≠ q) as Hpq by (intros ->; apply Hq, list_elem_of_fmap; by exists (q, x)). split; intros Hpre.
    + destruct (Hr p' x Hpre Hx) as [[]|[]]; congruence.
    + destruct (proper_rest _ _ Hpre ltac:(congruence)) as (r & -> & Hr').
      destruct (on_the_way _ _ _ _ Hx Hr') as (y & Hy & Ho). destruct (Hr q y (reflexivity q) Hy) as [[]|[]]; congruence.
  - intros Ha before y Hp Hy. destruct (sv_is_object y) eqn:Ho; [left|right]; (split; [|done]).
    + intros ->. destruct (nested_objects _ _ Hn q y Hne Hy Ho) as (p & Hp' & Hpre). by destruct (Ha p Hp') as [_ []].
    + pose proof (nested_scalars _ _ Hn _ _ Hy Ho) as Hin. by destruct (Ha _ Hin) as [[] _].
Qed.
Lemma nested_step (done : list (list str * V)) (v v' x : V) (q : list str) (depth : nat) :
  nested done v → q ≠ [] → sv_is_object x = false → (∀ p, p ∈ done.*1 → apart p q) →
  nest_at depth v q x = Ok v' → nested (done ++ [(q, x)]) v'.
Proof.
  intros Hn Hne Hx Ha Hput. destruct (nest_at_puts _ _ _ _ _ Hput Hne) as (Ho & Hq & Hsame).
  assert (∀ s, apart q s ∨ q = s ∨ (q `prefix_of` s ∧ q ≠ s) ∨ (s `prefix_of` q ∧ s ≠ q)) as Hcases.
  { intros s. unfold apart. destruct (decide (q = s)) as [->|]; [tauto|].
    destruct (decide (q `prefix_of` s)), (decide (s `prefix_of` q)); auto. }
  assert (∀ s y, q `prefix_of` s → q ≠ s → at_path v' s ≠ Some y) as Hbeyond.
  { intros s y Hp Hs Hy. destruct (proper_rest _ _ Hp Hs) as (r & -> & Hr). rewrite at_path_app, Hq in Hy.
    cbn [mbind option_bind] in Hy. by rewrite scalar_has_nothing in Hy. }
  assert (q ∈ (done ++ [(q, x)]).*1) as Hlast by (rewrite fmap_app; apply elem_of_app; right; by constructor).
  assert (∀ p, p ∈ done.*1 → p ∈ (done ++ [(q, x)]).*1) as Hold by (intros p Hp; rewrite fmap_app; apply elem_of_app; by left).
  split; [done| | |].
  - intros s y [Hin|[= -> ->]%list_elem_of_singleton]%elem_of_app; [|done].
    rewrite Hsame; [by apply (nested_kept _ _ Hn)|]. destruct (Ha s); [|by split]. apply list_elem_of_fmap. by exists (s, y).
  - intros s y Hy Hs. destruct (Hcases s) as [Hap|[<-|[[]|[Hp Hsq]]]]; [|done|exfalso; by eapply Hbeyond|].
    + apply Hold. eapply (nested_scalars _ _ Hn); [|done]. by rewrite <- Hsame.
    + destruct (proper_rest _ _ Hp Hsq) as (r & -> & Hr). destruct (on_the_way _ _ _ _ Hq Hr) as (z & Hz & Hzo). congruence.
  - intros s y Hs Hy Hyo. destruct (Hcases s) as [Hap|[<-|[[]|[Hp Hsq]]]]; [|congruence|exfalso; by eapply Hbeyond|by exists q].
    destruct (nested_objects _ _ Hn s y Hs) as (p & Hp & Hpre); [by rewrite <- Hsame|done|]. exists p. auto.
Qed.

Definition segmented (pairs : list (str * V)) : list (list str * V) := map (λ pr, (split pr.1 ".", pr.2)) pairs.
Lemma split_some (s sep : str) : split s sep ≠ [].
Proof. apply split_go_nonnil. Qed.
Lemma split_dots (a b : str) : split a "." = split b "." → a = b.
Proof. intros H. rewrite <- (join_split a "."), <- (join_split b ".") by done. by rewrite H. Qed.
Lemma segmented_paths (pairs : list (str * V)) : (segmented pairs).*1 = map (λ p, split p ".") pairs.*1.
Proof. unfold segmented. induction pairs as [|[p x] pairs IH]; [done|]. cbn [map fmap list_fmap fst]. f_equal. exact IH. Qed.
Lemma segmented_in (p : str) (pairs : list (str * V)) : split p "." ∈ (segmented pairs).*1 ↔ p ∈ pairs.*1.
Proof.
  rewrite segmented_paths. split; [|intros; apply list_elem_of_fmap; eauto].
  intros (q & Heq%split_dots & Hq)%list_elem_of_fmap. by subst.
Qed.

(** Two of the paths, one of which runs through the other. *)
Definition crossed (paths : list str) : Prop :=
  ∃ p q, p ∈ paths ∧ q ∈ paths ∧ p ≠ q ∧ split p "." `prefix_of` split q ".".
Definition all_apart (paths : list str) : Prop :=
  ∀ p q, p ∈ paths → q ∈ paths → p ≠ q → apart (split p ".") (split q ".").
Lemma not_both (paths : list str) : all_apart paths → ¬ crossed paths.
Proof. intros Ha (p & q & Hp & Hq & Hne & Hpre). by destruct (Ha p q Hp Hq Hne) as [[] _]. Qed.

Lemma apart_sym (a b : list str) : apart a b → apart b a.
Proof. unfold apart. tauto. Qed.
Lemma nest_goes_on (done rest : list (str * V)) (v : V) :
  NoDup (done ++ rest).*1 → Forall (λ pr, sv_is_object pr.2 = false) (done ++ rest) →
  nested (segmented done) v → all_apart done.*1 →
  match try_fold nest_pair v rest with
  | Ok v' => nested (segmented (done ++ rest)) v' ∧ all_apart (done ++ rest).*1
  | Err _ => crossed (done ++ rest).*1
  end.
Proof.
  revert done v. induction rest as [|[q x] rest IH]; intros done v Hnd Hl Hn Ha; cbn [try_fold].
  { by rewrite app_nil_r. }
  assert (q ∉ done.*1) as Hq.
  { rewrite fmap_app in Hnd. apply list.NoDup_app in Hnd as (_ & Hd & _). intros Hin. apply (Hd q Hin). by constructor. }
  assert (leaves_only (segmented done)) as Hlo.
  { intros s y ([p z] & [= -> ->] & Hin)%list_elem_of_fmap. rewrite list.Forall_forall in Hl. apply (Hl (p, z)), elem_of_app. by left. }
  assert (sv_is_object x = false) as Hx.
  { rewrite list.Forall_forall in Hl. apply (Hl (q, x)), elem_of_app. right. by constructor. }
  assert (∀ p, p ∈ done.*1 → p ∈ (done ++ (q, x) :: rest).*1) as Hin by (intros p Hp; rewrite fmap_app; apply elem_of_app; by left).
  assert (q ∈ (done ++ (q, x) :: rest).*1) as Hqin by (rewrite fmap_app; apply elem_of_app; right; by constructor).
  pose proof (nested_room _ _ (split q ".") Hn Hlo ltac:(by rewrite segmented_in) (split_some _ _)) as Hroom.
  pose proof (nest_at_room 0 v x (split q ".") (split_some _ _) (nested_object _ _ Hn) Hx) as Hok.
  unfold nest_pair. cbn [fst snd]. destruct (nest_at 0 v (split q ".") x) as [v'|d] eqn:Ev.
  - assert (∀ p, p ∈ (segmented done).*1 → apart p (split q ".")) as Hap by (apply Hroom, Hok; eauto).
    specialize (IH (done ++ [(q, x)]) v'). rewrite <- app_assoc in IH. apply IH; try done.
    + unfold segmented. rewrite map_app. by eapply nested_step; try apply split_some.
    + rewrite fmap_app. intros a b [Hpa| ->%list_elem_of_singleton]%elem_of_app [Hpb| ->%list_elem_of_singleton]%elem_of_app Hab; [by apply Ha| | |done].
      * apply Hap. by rewrite segmented_in.
      * apply apart_sym, Hap. by rewrite segmented_in.
  - destruct (decide (Exists (λ p, split p "." `prefix_of` split q "." ∨ split q "." `prefix_of` split p ".") done.*1)) as [He|He].
    + apply list.Exists_exists in He as (p & Hp & [Hpre|Hpre]); [exists p, q|exists q, p]; split_and!; auto; intros ->; done.
    + exfalso. assert (room v (split q ".")) as Hr%Hok; [|by destruct Hr].
      apply Hroom. rewrite segmented_paths. intros s (p & -> & Hp)%list_elem_of_fmap.
      split; intros Hpre; apply He, list.Exists_exists; exists p; auto.
Qed.

Lemma nest_keeps (pairs : list (str * V)) :
  NoDup pairs.*1 → Forall (λ pr, sv_is_object pr.2 = false) pairs →
  match nest pairs with
  | Ok v => all_apart pairs.*1 ∧ ∀ path x, (path, x) ∈ pairs → at_path v (split path ".") = Some x
  | Err _ => crossed pairs.*1
  end.
Proof.
  intros Hnd Hl. pose proof (nest_goes_on [] pairs sv_object Hnd Hl nested_nothing) as H. cbn [app] in H.
  unfold nest. destruct (try_fold nest_pair sv_object pairs) as [v|e].
  - destruct H as [Hn Ha]; [by intros p q ?%elem_of_nil|]. split; [done|]. intros path x Hin.
    apply (nested_kept _ _ Hn). apply list_elem_of_fmap. by exists (path, x).
  - apply H. by intros p q ?%elem_of_nil.
Qed.
(** Nothing stands at a path that was sent nothing and runs apart from the others. *)
Lemma nest_adds_nothing (pairs : list (str * V)) (v : V) (path : str) :
  NoDup pairs.*1 → Forall (λ pr, sv_is_object pr.2 = false) pairs → nest pairs = Ok v →
  path ∉ pairs.*1 → (∀ q, q ∈ pairs.*1 → ¬ split path "." `prefix_of` split q ".") →
  at_path v (split path ".") = None.
Proof.
  intros Hnd Hl Hv Hp Ha. pose proof (nest_goes_on [] pairs sv_object Hnd Hl nested_nothing) as H. cbn [app] in H.
  unfold nest in Hv. rewrite Hv in H. destruct H as [Hn _]; [by intros p q ?%elem_of_nil|].
  destruct (at_path v (split path ".")) as [y|] eqn:Ey; [exfalso|done]. destruct (sv_is_object y) eqn:Eo.
  - destruct (nested_objects _ _ Hn _ _ (split_some path ".") Ey Eo) as (s & Hs & Hpre).
    rewrite segmented_paths in Hs. apply list_elem_of_fmap in Hs as (q & -> & Hq). by apply (Ha q).
  - apply Hp, segmented_in. by eapply (nested_scalars _ _ Hn).
Qed.
End nesting.

(** ** Lines *)

(** A line as it is typed: no ends of lines within. *)
Definition one_line (line : str) : Prop := 10%N ∉ line ∧ 13%N ∉ line.
(** The ends of lines of a body: a browser's, and a plain text's. *)
Definition CRLF : str := [13; 10]%N.
Definition LF : str := [10]%N.
(** The entries of a list typed a line each: trimmed, the blank ones left out. *)
Definition entries (lines : list str) : list str :=
  List.filter (λ l, negb (bool_decide (l = []))) (map IpText.trim lines).

Lemma chomp_line (line : str) : 13%N ∉ line → chomp line = line ∧ chomp (line ++ [13%N]) = line.
Proof.
  intros H. unfold chomp, without_last. rewrite rev_app_distr. cbn [rev app from_option]. rewrite N.eqb_refl. cbn.
  rewrite rev_involutive. split; [|done]. destruct (rev line) as [|x r] eqn:E; [done|].
  destruct (N.eqb_spec x 13); [|done]. subst x. exfalso. apply H. apply list_elem_of_In, in_rev. rewrite E. by left.
Qed.
Lemma joined_lines (eol : str) (lines : list str) :
  eol = CRLF ∨ eol = LF → Forall one_line lines → lines ≠ [] → map chomp (split (join eol lines) [10%N]) = lines.
Proof.
  intros He. induction 1 as [|l lines Hc Hl IH]; [done|]. intros _. destruct Hc as [Hn Hr]. destruct (chomp_line l Hr) as [H1 H2].
  destruct lines as [|l' lines]; [cbn [join]; rewrite Needs.split_single_last by done; cbn [map]; by rewrite H1|].
  assert (join eol (l :: l' :: lines) = l ++ eol ++ join eol (l' :: lines)) as -> by done.
  specialize (IH ltac:(done)). destruct He as [-> | ->].
  - change (l ++ CRLF ++ ?x) with (l ++ [13%N] ++ 10%N :: x). rewrite app_assoc, Needs.split_single.
    + cbn [map]. by rewrite H2, IH.
    + intros [H|H%list_elem_of_singleton]%elem_of_app; done.
  - change (l ++ LF ++ ?x) with (l ++ 10%N :: x). rewrite Needs.split_single by done. cbn [map]. by rewrite H1, IH.
Qed.
Lemma entries_of_lines (eol : str) (lines : list str) :
  eol = CRLF ∨ eol = LF → Forall one_line lines → entries (lines_of (join eol lines)) = entries lines.
Proof.
  intros He Hl. destruct (decide (lines = [])) as [->|Hne]; [done|].
  rewrite <- (joined_lines eol lines He Hl Hne) at 2. unfold lines_of.
  set (pieces := split (join eol lines) [10%N]). destruct (rev pieces) as [|[|ch last] r] eqn:E; [done| |done].
  assert (pieces = rev r ++ [[]]) as -> by (rewrite <- (rev_involutive pieces), E; done).
  unfold entries. rewrite !map_app, List.filter_app. change (List.filter _ (map IpText.trim (map chomp [[]]))) with (@nil str).
  by rewrite app_nil_r.
Qed.

(** ** Fields *)

Section resolution.
Context {V : Type} `{SV : Serde V} `{SL : !SerdeLaws V}.
Context (email_hint url_hint tel_hint textarea_hint : str → bool) (domain_ir aggregate : V).
Abbreviation resolved := (resolve_field email_hint url_hint tel_hint textarea_hint domain_ir aggregate).

(** No value object contains itself: each is ranked above what its attributes are. *)
Definition ranked (rank : str → nat) : Prop :=
  ∀ ty shape inner, value_object_shape domain_ir aggregate ty = Some shape →
    inner ∈ sv_list shape "attributes" → (rank (type_of inner) < rank ty)%nat.

Lemma listed_scalar_type (attribute : V) (ty : str) : type_of (listed_scalar attribute ty) = ty.
Proof.
  unfold type_of, sv_get_str, listed_scalar.
  assert (sv_get (sv_obj _) "type" = Some (sv_str ty)) as -> by sv_field. cbn [mbind option_bind]. by rewrite sv_as_str_str.
Qed.
Lemma listed_scalar_single (attribute : V) (ty : str) : bool_at (listed_scalar attribute ty) "list" = false.
Proof.
  unfold bool_at, listed_scalar. assert (sv_get (sv_obj _) "list" = Some (sv_bool false)) as -> by sv_field.
  cbn [mbind option_bind]. by rewrite sv_as_bool_bool.
Qed.

Lemma value_object_field_resolves (resolve : V → str → option Field) (shape : V) (path : str) (optional : bool) :
  (∀ inner p, inner ∈ sv_list shape "attributes" → is_Some (resolve inner p)) →
  is_Some (value_object_field resolve shape path optional).
Proof.
  intros H. unfold value_object_field. destruct (bool_at shape "closed_set"); [eauto|].
  destruct (money_shaped _); [eauto|].
  assert (∀ attrs, (∀ inner, inner ∈ attrs → inner ∈ sv_list shape "attributes") →
    is_Some (mapM (λ inner, resolve inner (path ++ "." ++ name_of inner [])) attrs)) as Hm.
  { intros attrs Hin. apply mapM_is_Some, list.Forall_forall. intros inner Hi. apply H. by apply Hin. }
  destruct (sv_list shape "attributes") as [|inner [|inner' rest]] eqn:E.
  - destruct (Hm [] ltac:(done)) as [fs Hfs]. rewrite Hfs. cbn [mbind option_bind]. eauto.
  - destruct (H inner (path ++ "." ++ name_of inner "value")) as [f ->]; [by constructor|]. cbn [mbind option_bind]. eauto.
  - destruct (Hm (inner :: inner' :: rest) ltac:(done)) as [fs ->]. cbn [mbind option_bind]. eauto.
Qed.

Lemma resolves (rank : str → nat) (levels : nat) (attribute : V) (path : str) :
  ranked rank →
  (2 * rank (type_of attribute) + (if bool_at attribute "list" then 2 else 1) ≤ levels)%nat →
  is_Some (resolved levels attribute path).
Proof.
  intros Hr. revert attribute path. induction levels as [|levels IH]; intros attribute path Hle; [destruct (bool_at attribute "list"); lia|].
  cbn [resolve_field]. destruct (bool_at attribute "list") eqn:El.
  - destruct (IH (listed_scalar attribute (type_of attribute)) path) as [item ->]; [|cbn [mbind option_bind]; eauto].
    rewrite listed_scalar_single, listed_scalar_type. lia.
  - destruct (reference_target _); [eauto|]. destruct (sv_get_str attribute "admits"); [eauto|].
    destruct (existsb _ _); [eauto|]. destruct (value_object_shape _ _ _) as [shape|] eqn:Es; [|eauto].
    apply value_object_field_resolves. intros inner p Hin. apply IH. pose proof (Hr _ _ _ Es Hin).
    destruct (bool_at inner "list"); lia.
Qed.

Lemma value_object_field_mono (r1 r2 : V → str → option Field) (shape : V) (path : str) (optional : bool) (f : Field) :
  (∀ inner p g, r1 inner p = Some g → r2 inner p = Some g) →
  value_object_field r1 shape path optional = Some f → value_object_field r2 shape path optional = Some f.
Proof.
  intros H. unfold value_object_field. destruct (bool_at shape "closed_set"); [done|]. destruct (money_shaped _); [done|].
  assert (∀ attrs fs, mapM (λ inner, r1 inner (path ++ "." ++ name_of inner [])) attrs = Some fs →
    mapM (λ inner, r2 inner (path ++ "." ++ name_of inner [])) attrs = Some fs) as Hm.
  { intros attrs fs Hf%mapM_Some. apply mapM_Some. eapply list.Forall2_impl; [exact Hf|cbn beta; auto]. }
  destruct (sv_list shape "attributes") as [|inner [|inner' rest]].
  - done.
  - destruct (r1 inner _) as [g|] eqn:E; [|done]. by rewrite (H _ _ _ E).
  - destruct (mapM _ (inner :: inner' :: rest)) as [fs|] eqn:E; [|done]. by rewrite (Hm _ _ E).
Qed.
Lemma resolves_mono (levels more : nat) (attribute : V) (path : str) (f : Field) :
  resolved levels attribute path = Some f → (levels ≤ more)%nat → resolved more attribute path = Some f.
Proof.
  revert more attribute path f. induction levels as [|levels IH]; intros more attribute path f; [done|].
  destruct more as [|more]; [lia|]. intros Hf Hle. cbn [resolve_field] in Hf |- *. destruct (bool_at attribute "list").
  - destruct (resolved levels _ _) as [item|] eqn:E; [|done]. by rewrite (IH more _ _ _ E ltac:(lia)).
  - destruct (reference_target _); [done|]. destruct (sv_get_str attribute "admits"); [done|].
    destruct (existsb _ _); [done|]. destruct (value_object_shape _ _ _); [|done].
    eapply value_object_field_mono; [|exact Hf]. intros inner p g Hg. apply (IH more _ _ _ Hg). lia.
Qed.
End resolution.

(** ** What a form asks for, and what comes back *)

(** The inputs of a field: what is within it and holds no fields. *)
Fixpoint inputs (f : Field) : list Field :=
  match f with MkField _ _ kind _ => match kind with Group children | Money children => flat_map inputs children | _ => [f] end end.
Definition leaves (f : Field) : list str := map field_path (inputs f).

(** Induction over fields and the fields within. *)
Lemma field_within (P : Field → Prop) :
  (∀ f, match field_kind f with Group children | Money children => Forall P children | _ => True end → P f) → ∀ f, P f.
Proof.
  intros H. fix IH 1. intros [path label kind optional]. apply H. cbn [field_kind].
  destruct kind; try done; induction children as [|f children IHc]; constructor; (apply IH || apply IHc).
Qed.

(** Paths under some segments, each apart from the others. *)
Definition under (P : list str) (paths : list str) : Prop :=
  Forall (λ p, P `prefix_of` split p ".") paths ∧ NoDup paths ∧ all_apart paths.
Lemma under_one (path : str) : under (split path ".") [path].
Proof.
  split_and!; [by constructor|apply NoDup_singleton|]. by intros p q ->%list_elem_of_singleton ->%list_elem_of_singleton.
Qed.
Lemma split_below (path name : str) : split (path ++ "." ++ name) "." = split path "." ++ split name ".".
Proof. apply RateLimitFacts.split_go_app. Qed.
Lemma under_weaken (P Q : list str) (paths : list str) : P `prefix_of` Q → under Q paths → under P paths.
Proof. intros HP (H1 & H2 & H3). split_and!; [|done..]. eapply list.Forall_impl; [exact H1|]. intros p Hp. by etrans. Qed.
Lemma named_apart (P : list str) (n m : str) (p q : str) :
  n ≠ m → (P ++ [n]) `prefix_of` split p "." → (P ++ [m]) `prefix_of` split q "." → apart (split p ".") (split q ".").
Proof.
  intros Hne [r Hp] [r' Hq]. rewrite <- app_assoc in Hp, Hq. rewrite Hp, Hq.
  split; intros [s Hs]; rewrite <- app_assoc in Hs; apply app_inv_head in Hs; injection Hs; congruence.
Qed.
Lemma under_names (P : list str) (names : list str) (groups : list (list str)) :
  NoDup names → Forall2 (λ n paths, under (P ++ [n]) paths) names groups → under P (concat groups).
Proof.
  intros Hnd Hf. induction Hf as [|n paths names groups (H1 & H2 & H3) Hf IH]; cbn [concat].
  { split_and!; [constructor|constructor|]. by intros p q ?%elem_of_nil. }
  apply list.NoDup_cons in Hnd as [Hn Hnd]. destruct (IH Hnd) as (I1 & I2 & I3). rewrite list.Forall_forall in H1.
  assert (∀ q, q ∈ concat groups → ∃ m, m ∈ names ∧ (P ++ [m]) `prefix_of` split q ".") as Hrest.
  { clear -Hf. induction Hf as [|m ps names groups (H1 & _) Hf IH]; intros q Hq; [by apply elem_of_nil in Hq|]. cbn [concat] in Hq.
    rewrite list.Forall_forall in H1. apply elem_of_app in Hq as [Hq|Hq]; [exists m; split; [by constructor|by apply H1]|].
    destruct (IH q Hq) as (m' & Hm' & Hp). exists m'. split; [by constructor|done]. }
  assert (∀ p q, p ∈ paths → q ∈ concat groups → apart (split p ".") (split q ".")) as Hcross.
  { intros p q Hp Hq. destruct (Hrest q Hq) as (m & Hm & Hpre). eapply named_apart; [|by apply H1|exact Hpre]. by intros ->. }
  split_and!.
  - apply list.Forall_app. split; [|done]. apply list.Forall_forall. intros p Hp. etrans; [|by apply H1]. by eexists.
  - apply list.NoDup_app. split_and!; [done| |done]. intros p Hp Hq. by destruct (Hcross p p Hp Hq) as [[] _].
  - intros p q [Hp|Hp]%elem_of_app [Hq|Hq]%elem_of_app Hne; [by apply H3|by apply Hcross|by apply apart_sym, Hcross|by apply I3].
Qed.
Lemma leaves_of_all (fs : list Field) : map field_path (flat_map inputs fs) = concat (map leaves fs).
Proof. induction fs as [|f fs IH]; [done|]. cbn [flat_map map concat]. by rewrite map_app, IH. Qed.

Section paths.
Context {V : Type} `{SV : Serde V} `{SL : !SerdeLaws V}.
Context (email_hint url_hint tel_hint textarea_hint : str → bool) (domain_ir aggregate : V).
Abbreviation resolved := (resolve_field email_hint url_hint tel_hint textarea_hint domain_ir aggregate).

(** Attributes that are told apart: their names differ and have no dot. *)
Definition told_apart (names : list str) : Prop := NoDup names ∧ Forall (λ n, 46%N ∉ n) names.
Definition well_named : Prop :=
  ∀ ty shape, value_object_shape domain_ir aggregate ty = Some shape →
    told_apart (map (λ a, name_of a []) (sv_list shape "attributes")).

Definition ends_at (f : Field) : Prop := match field_kind f with Group _ | Money _ => False | _ => True end.
Lemma ends_leaves (f : Field) : ends_at f → leaves f = [field_path f].
Proof. by destruct f as [p l [] o]. Qed.
Lemma text_field_ends (attribute : V) (path : str) (optional : bool) :
  ends_at (text_field email_hint url_hint tel_hint textarea_hint attribute path optional)
  ∧ field_path (text_field email_hint url_hint tel_hint textarea_hint attribute path optional) = path.
Proof. split; [|done]. unfold ends_at, text_field, text_kind. cbn [field_kind]. by destruct (_ && _). Qed.
Lemma primitive_field_ends (attribute : V) (ty path : str) (optional : bool) :
  ends_at (primitive_field email_hint url_hint tel_hint textarea_hint attribute ty path optional)
  ∧ field_path (primitive_field email_hint url_hint tel_hint textarea_hint attribute ty path optional) = path.
Proof.
  unfold primitive_field. destruct (str_eqb ty "Integer"); [done|]. destruct (str_eqb ty "Float"); [done|].
  destruct (_ || _); [done|]. apply text_field_ends.
Qed.
Lemma select_or_radio_ends (path : str) (optional : bool) (members : list str) : ends_at (select_or_radio path optional members).
Proof. unfold select_or_radio, ends_at. cbn [field_kind]. by destruct (_ <=? _)%nat. Qed.
Lemma ends_under (f : Field) (path : str) : ends_at f → split path "." `prefix_of` split (field_path f) "." → under (split path ".") (leaves f).
Proof. intros He Hp. rewrite ends_leaves by done. eapply under_weaken; [exact Hp|apply under_one]. Qed.
Lemma below_prefix (path name : str) : split path "." `prefix_of` split (path ++ "." ++ name) ".".
Proof. rewrite split_below. by eexists. Qed.
Lemma under_name (path name : str) (paths : list str) :
  46%N ∉ name → under (split (path ++ "." ++ name) ".") paths → under (split path "." ++ [name]) paths.
Proof. intros Hn. rewrite split_below. change (split name ".") with (split name [46%N]). by rewrite Needs.split_single_last. Qed.

Lemma admitted_field_under (attribute : V) (admits ty path : str) (optional : bool) :
  under (split path ".") (leaves (admitted_field email_hint url_hint tel_hint textarea_hint domain_ir aggregate attribute admits ty path optional)).
Proof.
  unfold admitted_field. pose proof (primitive_field_ends attribute ty path optional) as [Hp He].
  destruct (admitted_set _ _) as [set|]; [|by apply ends_under; [|rewrite He]].
  pose proof (select_or_radio_ends path optional (closed_set_members set).2) as Hs.
  destruct (value_object_shape _ _ _ ≫= _) as [[|inner [|]]|]; try by apply ends_under.
  apply ends_under; [done|apply below_prefix].
Qed.
Lemma money_field_under (path : str) (optional : bool) : under (split path ".") (leaves (money_field path optional)).
Proof.
  change (leaves (money_field path optional)) with (concat [[path ++ ".cents"]; [path ++ ".currency"]]).
  apply (under_names _ ["cents" : str; "currency" : str]).
  { refine (bool_decide_unpack _ _). vm_compute. exact Logic.I. }
  constructor; [|constructor; [|constructor]].
  - apply under_name; [refine (bool_decide_unpack _ _); vm_compute; exact Logic.I|]. apply (under_one (path ++ "." ++ "cents")).
  - apply under_name; [refine (bool_decide_unpack _ _); vm_compute; exact Logic.I|]. apply (under_one (path ++ "." ++ "currency")).
Qed.
Lemma relabelled_leaves (f : Field) (label : str) (optional : bool) : leaves (relabelled f label optional) = leaves f.
Proof. destruct f as [p l [] o]; done. Qed.

Lemma children_under (resolve : V → str → option Field) (P : list str) (attrs : list V) (path_of : str → str) (fs : list Field) :
  (∀ inner f, inner ∈ attrs → resolve inner (path_of (name_of inner [])) = Some f → under (P ++ [name_of inner []]) (leaves f)) →
  mapM (λ inner, resolve inner (path_of (name_of inner []))) attrs = Some fs →
  Forall2 (λ n paths, under (P ++ [n]) paths) (map (λ a, name_of a []) attrs) (map leaves fs).
Proof.
  intros H Hm%mapM_Some. induction Hm as [|inner f attrs fs Hf Hm IH]; cbn [map]; constructor.
  - apply H; [by constructor|done].
  - apply IH. intros i g Hi. apply H. by constructor.
Qed.

Lemma value_object_field_under (resolve : V → str → option Field) (shape : V) (path : str) (optional : bool) (f : Field) :
  told_apart (map (λ a, name_of a []) (sv_list shape "attributes")) →
  (∀ inner p g, resolve inner p = Some g → under (split p ".") (leaves g)) →
  value_object_field resolve shape path optional = Some f → under (split path ".") (leaves f).
Proof.
  intros [Hnd Hdots] Hr. unfold value_object_field. destruct (bool_at shape "closed_set").
  { intros [= <-]. apply ends_under; [apply select_or_radio_ends|apply below_prefix]. }
  destruct (money_shaped _); [intros [= <-]; apply money_field_under|].
  assert (∀ fs, mapM (λ inner, resolve inner (path ++ "." ++ name_of inner [])) (sv_list shape "attributes") = Some fs →
    under (split path ".") (concat (map leaves fs))) as Hgroup.
  { intros fs Hfs. eapply under_names; [exact Hnd|]. rewrite list.Forall_forall in Hdots.
    eapply (children_under resolve _ _ (λ n, path ++ "." ++ n)); [|exact Hfs]. intros inner g Hin Hg%Hr.
    apply under_name; [|done]. apply Hdots, list_elem_of_fmap. by exists inner. }
  destruct (sv_list shape "attributes") as [|inner [|inner' rest]].
  - cbn. intros [= <-]. exact (Hgroup [] eq_refl).
  - destruct (resolve inner _) as [g|] eqn:E; [|done]. cbn [mbind option_bind]. intros [= <-]. rewrite relabelled_leaves.
    eapply under_weaken; [|by eapply Hr]. apply below_prefix.
  - destruct (mapM _ (inner :: inner' :: rest)) as [fs|]; [|done]. cbn [mbind option_bind]. intros [= <-].
    unfold leaves. cbn [inputs]. rewrite leaves_of_all. by apply Hgroup.
Qed.

Lemma resolved_under (levels : nat) (attribute : V) (path : str) (f : Field) :
  well_named → resolved levels attribute path = Some f → under (split path ".") (leaves f).
Proof.
  intros Hw. revert attribute path f. induction levels as [|levels IH]; intros attribute path f; [done|]. cbn [resolve_field].
  destruct (bool_at attribute "list").
  { destruct (resolved levels _ _); [|done]. cbn [mbind option_bind]. intros [= <-]. apply under_one. }
  destruct (reference_target _); [intros [= <-]; apply under_one|].
  destruct (sv_get_str attribute "admits"); [intros [= <-]; apply admitted_field_under|].
  pose proof (primitive_field_ends attribute (type_of attribute) path (bool_at attribute "optional")) as [Hp He].
  destruct (existsb _ _); [intros [= <-]; by apply ends_under; [|rewrite He]|].
  destruct (value_object_shape _ _ _) as [shape|] eqn:Es; [|intros [= <-]; by apply ends_under; [|rewrite He]].
  intros Hf. eapply value_object_field_under; [by eapply Hw|exact IH|exact Hf].
Qed.
End paths.

(** ** The arguments of a form *)

(** What is no object: the scalars and the arrays. *)
Class SerdeScalars (V : Type) `{SV : Serde V} `{SF : SerdeFloat V} : Prop := {
  sv_null_not_object : sv_is_object sv_null = false;
  sv_bool_not_object b : sv_is_object (sv_bool b) = false;
  sv_i64_not_object n : sv_is_object (sv_i64 n) = false;
  sv_f64_not_object x : sv_is_object (sv_f64 x) = false;
  sv_array_not_object l : sv_is_object (sv_array l) = false
}.

Section posted.
Context `{U : UnicodeTables} {V : Type} `{SV : Serde V} `{SL : !SerdeLaws V} `{SF : SerdeFloat V} `{SS : !SerdeScalars V}.

Lemma cast_scalar_not_object (kind : FieldKind Field) (text : str) : sv_is_object (cast_scalar kind text) = false.
Proof.
  unfold cast_scalar. destruct kind; try apply sv_str_not_object. destruct (str_eqb step "1").
  - destruct (parse_i64 text); [apply sv_i64_not_object|apply sv_null_not_object].
  - destruct (parse_f64 text); [apply sv_f64_not_object|apply sv_null_not_object].
Qed.

(** What an input gives: nothing, or one value at its path. *)
Lemma collect_leaf (raw : gmap str str) (f : Field) :
  ends_at f → collect_field raw f = [] ∨ ∃ x, collect_field raw f = [(field_path f, x)] ∧ sv_is_object x = false.
Proof.
  pose proof sv_array_not_object. pose proof sv_bool_not_object. pose proof cast_scalar_not_object.
  destruct f as [path label [] optional]; cbn [ends_at field_kind collect_field field_path]; intros He; try done;
    try (destruct (raw !! path); [|by left]); try (destruct (_ && _); [by left|]); try (right; eauto; fail).
  destruct (map _ _); [by left|right; eauto].
Qed.
Lemma inputs_end (f : Field) : Forall ends_at (inputs f).
Proof.
  induction f as [[path label kind optional] IH] using field_within. cbn [field_kind] in IH.
  destruct kind; try (apply list.Forall_singleton; exact Logic.I); cbn [inputs];
    induction IH as [|c children Hc _ IHc]; cbn [flat_map]; [constructor| |constructor|]; by apply list.Forall_app.
Qed.
Lemma collect_inputs (raw : gmap str str) (f : Field) : collect_field raw f = flat_map (collect_field raw) (inputs f).
Proof.
  induction f as [[path label kind optional] IH] using field_within. cbn [field_kind] in IH.
  destruct kind; try (cbn [inputs flat_map]; by rewrite app_nil_r); cbn [inputs collect_field];
    induction IH as [|c children Hc _ IHc]; try done; cbn [flat_map]; rewrite flat_map_app, <- IHc; by f_equal.
Qed.
Lemma collect_all (raw : gmap str str) (fs : list Field) :
  flat_map (collect_field raw) fs = flat_map (collect_field raw) (flat_map inputs fs).
Proof. induction fs as [|f fs IH]; [done|]. cbn [flat_map]. by rewrite flat_map_app, <- IH, <- collect_inputs. Qed.

Lemma collected_paths (raw : gmap str str) (ls : list Field) :
  Forall ends_at ls →
  sublist (flat_map (collect_field raw) ls).*1 (map field_path ls)
  ∧ Forall (λ pr, sv_is_object pr.2 = false) (flat_map (collect_field raw) ls).
Proof.
  induction 1 as [|f ls Hf _ [IH1 IH2]]; [split; constructor|]. cbn [flat_map map].
  destruct (collect_leaf raw f Hf) as [->|(x & -> & Hx)]; cbn [app fmap list_fmap fst].
  - split; [by constructor|done].
  - split; [by constructor|]. by constructor.
Qed.

Definition scalar_input (f : Field) : bool :=
  match field_kind f with TextKind _ | Textarea | Number _ | Radio _ | Select _ | Reference _ => true | _ => false end.

(** What an input is sent, as its kind reads it: a box is always told, checked or not;
    an empty text is nothing where the input may be left out; a list is the entries of
    the lines. *)
Definition scalar_reading (f : Field) (text : str) : option V :=
  if bool_decide (text = []) && field_optional f then None else Some (cast_scalar (field_kind f) text).
Definition list_reading (item : Field) (lines : list str) : option V :=
  match entries lines with [] => None | typed => Some (sv_array (map (cast_scalar (field_kind item)) typed)) end.

Lemma same_path (ls : list Field) (f g : Field) :
  NoDup (map field_path ls) → f ∈ ls → g ∈ ls → field_path f = field_path g → f = g.
Proof.
  induction ls as [|h ls IH]; [by intros _ ?%elem_of_nil|]. cbn [map]. rewrite list.NoDup_cons. intros [Hh Hn].
  intros [->|Hf]%elem_of_cons [->|Hg]%elem_of_cons E; [done| | |by apply IH]; exfalso; apply Hh; apply list_elem_of_fmap.
  - by exists g.
  - by exists f.
Qed.
Lemma posted_arrives (fs : list Field) (raw : gmap str str) (P : list str) :
  under P (map field_path (flat_map inputs fs)) →
  ∃ v, extract_args fs raw = Ok v ∧
    ∀ input, input ∈ flat_map inputs fs →
      at_path v (split (field_path input) ".") = list.head (map snd (collect_field raw input)).
Proof.
  intros (_ & Hnd & Ha). assert (Forall ends_at (flat_map inputs fs)) as He.
  { apply list.Forall_forall. intros f (g & Hg & Hf)%list_elem_of_In%in_flat_map.
    pose proof (inputs_end g) as Hi. rewrite list.Forall_forall in Hi. by apply Hi, list_elem_of_In. }
  destruct (collected_paths raw _ He) as [Hsub Hsc]. pose proof (nest_keeps (flat_map (collect_field raw) fs)) as H.
  rewrite collect_all in H. specialize (H (sublist_NoDup _ _ Hnd Hsub) Hsc). rewrite <- collect_all in H.
  unfold extract_args. pose proof (sublist_subseteq _ _ Hsub) as Hin. rewrite list.Forall_forall in He.
  destruct (nest _) as [v|e] eqn:Ev.
  - destruct H as [_ Hv]. exists v. split; [done|]. intros input Hi.
    destruct (collect_leaf raw input (He _ Hi)) as [Hc|(x & Hc & _)]; rewrite Hc; cbn [map snd list.head].
    + rewrite collect_all in Ev.
      assert (field_path input ∉ (flat_map (collect_field raw) (flat_map inputs fs)).*1) as Hno.
      { intros ([p y] & Hp & (g & Hg & Hy)%list_elem_of_In%in_flat_map)%list_elem_of_fmap. cbn [fst] in Hp. subst p.
        apply list_elem_of_In in Hg. destruct (collect_leaf raw g (He _ Hg)) as [Hg'|(z & Hg' & _)]; rewrite Hg' in Hy; [done|].
        destruct Hy as [[= Hp _]|[]]. assert (g = input) as -> by (by eapply same_path). congruence. }
      apply (nest_adds_nothing _ _ _ (sublist_NoDup _ _ Hnd Hsub) Hsc Ev Hno). intros q Hq Hpre.
      assert (field_path input ≠ q) as Hne by congruence.
      assert (field_path input ∈ map field_path (flat_map inputs fs)) as Hip by (apply list_elem_of_fmap; by exists input).
      by destruct (Ha (field_path input) q Hip (Hin q Hq) Hne) as [[] _].
    + apply Hv. rewrite collect_all. apply list_elem_of_In, in_flat_map. exists input.
      rewrite Hc. split; [by apply list_elem_of_In|by left].
  - exfalso. destruct H as (p & q & Hp & Hq & Hne & Hpre). rewrite collect_all in Hp, Hq.
    by destruct (Ha p q (Hin _ Hp) (Hin _ Hq) Hne) as [[] _].
Qed.

(** What the collecting gives an input, by its kind. *)
Lemma collected_scalar (raw : gmap str str) (f : Field) :
  scalar_input f = true → list.head (map snd (collect_field raw f)) = (text ← raw !! field_path f; scalar_reading f text).
Proof.
  unfold scalar_reading. destruct f as [path label [] optional]; try done; intros _;
    cbn [collect_field field_path field_kind field_optional]; destruct (raw !! path); try done; cbn [mbind option_bind];
    by destruct (_ && _).
Qed.
Lemma collected_box (raw : gmap str str) (f : Field) :
  field_kind f = Boolean → list.head (map snd (collect_field raw f)) = Some (sv_bool (checked_box (raw !! field_path f))).
Proof. destruct f as [path label kind optional]. cbn [field_kind]. by intros ->. Qed.
Lemma collected_list (raw : gmap str str) (f item : Field) (eol : str) (lines : list str) :
  field_kind f = ListOf item → eol = CRLF ∨ eol = LF → Forall one_line lines →
  raw !! field_path f = Some (join eol lines) → list.head (map snd (collect_field raw f)) = list_reading item lines.
Proof.
  destruct f as [path label kind optional]. cbn [field_kind field_path]. intros -> He Hl Hr. cbn [collect_field]. rewrite Hr.
  fold (entries (lines_of (join eol lines))). rewrite (entries_of_lines eol lines He Hl). unfold list_reading.
  by destruct (entries lines).
Qed.
Lemma collected_unlisted (raw : gmap str str) (f item : Field) :
  field_kind f = ListOf item → raw !! field_path f = None → list.head (map snd (collect_field raw f)) = None.
Proof. destruct f as [path label kind optional]. cbn [field_kind field_path]. intros -> Hr. cbn [collect_field]. by rewrite Hr. Qed.

Section command.
Context (email_hint url_hint tel_hint textarea_hint : str → bool) (domain_ir aggregate command : V).
Abbreviation asked := (command_fields email_hint url_hint tel_hint textarea_hint domain_ir aggregate).

Lemma asked_under (levels : nat) (fs : list Field) :
  well_named domain_ir aggregate →
  told_apart ((if creates command then [] else ["id" : str]) ++ map (λ a, name_of a []) (sv_list command "attributes")) →
  asked levels command = Some fs → under [] (map field_path (flat_map inputs fs)).
Proof.
  intros Hw [Hnd Hdots]. unfold command_fields. destruct (mapM _ _) as [gs|] eqn:E; [|done]. cbn [mbind option_bind]. intros [= <-].
  rewrite leaves_of_all. eapply under_names; [exact Hnd|]. rewrite map_app.
  apply list.Forall_app in Hdots as [_ Hdots]. rewrite list.Forall_forall in Hdots. apply List.Forall2_app.
  - destruct (creates command); [constructor|]. constructor; [|constructor]. apply (under_one "id").
  - eapply (children_under (λ inner p, resolve_field _ _ _ _ domain_ir aggregate levels inner p) [] _ (λ n, n)); [|exact E].
    intros inner g Hin Hg. apply resolved_under in Hg; [|done..]. cbn [app].
    change (split (name_of inner []) ".") with (split (name_of inner []) [46%N]) in Hg.
    rewrite Needs.split_single_last in Hg; [done|]. apply Hdots, list_elem_of_fmap. by exists inner.
Qed.
Lemma asked_resolves (rank : str → nat) (most : nat) :
  ranked domain_ir aggregate rank →
  Forall (λ a, rank (type_of a) ≤ most)%nat (sv_list command "attributes") →
  ∃ fs, ∀ levels, (2 * most + 2 ≤ levels)%nat → asked levels command = Some fs.
Proof.
  intros Hr Hm. unfold command_fields.
  assert (∃ gs, ∀ levels, (2 * most + 2 ≤ levels)%nat → mapM (λ attribute, resolve_field email_hint url_hint tel_hint textarea_hint
    domain_ir aggregate levels attribute (name_of attribute [])) (sv_list command "attributes") = Some gs) as [gs Hgs].
  { induction Hm as [|a attrs Ha _ [gs IH]]; [by exists []|].
    destruct (resolves email_hint url_hint tel_hint textarea_hint domain_ir aggregate rank (2 * most + 2) a (name_of a []) Hr) as [f Hf].
    { destruct (bool_at a "list"); lia. }
    exists (f :: gs). intros levels Hl. cbn [mapM mbind option_bind]. rewrite (resolves_mono _ _ _ _ _ _ _ _ _ _ _ Hf Hl).
    cbn [mbind option_bind]. by rewrite IH. }
  eexists. intros levels Hl. by rewrite (Hgs levels Hl).
Qed.
End command.
End posted.

(** ** Properties *)

(** [Value::from] of a float, over the tree of [Json.v]. *)
#[global] Instance json_float : SerdeFloat Json.Json := λ x, if is_finite x then Json.JFloat x else Json.JNull.
#[global] Instance json_scalars : SerdeScalars Json.Json.
Proof. split; try done. intros x. unfold sv_f64, json_float. by destruct (is_finite x). Qed.

Section theorems.
Context `{U : UnicodeTables} {V : Type} `{SV : Serde V} `{SL : !SerdeLaws V} `{SF : SerdeFloat V} `{SS : !SerdeScalars V}.

(** The pairs a form is read as are put together without loss: where every value
    is a leaf and no path is given twice, either no path runs through another and
    each value stands at its path, or some path runs through another and the form is
    refused. *)
Theorem nesting_loses_nothing (pairs : list (str * V)) :
  NoDup pairs.*1 → Forall (λ pr, sv_is_object pr.2 = false) pairs →
  match nest pairs with
  | Ok v => all_apart pairs.*1 ∧ ∀ path x, (path, x) ∈ pairs → at_path v (split path ".") = Some x
  | Err _ => crossed pairs.*1
  end.
Proof. apply nest_keeps. Qed.

(** C15: the form of a command can be filled in.  Where no value object contains
    itself and attributes are told apart by their names, the fields the command asks
    for are found in boundedly many levels and are the same for every larger number,
    and whatever is posted is taken.  Each input then finds at its path what it was
    sent, read by its kind, and nothing where it was sent nothing: a text, a choice
    or a reference its text and a number its number or null, but nothing for an
    empty text the command may do without; a box whether it was checked; a list the
    lines that were typed into it, trimmed, in their order and each read by its item's
    kind, the blank ones left out and nothing where all are, whichever of the two ends
    of lines separate them. *)
Theorem command_forms_arrive (email_hint url_hint tel_hint textarea_hint : str → bool)
    (domain_ir aggregate command : V) (rank : str → nat) (most : nat) :
  ranked domain_ir aggregate rank → well_named domain_ir aggregate →
  told_apart ((if creates command then [] else ["id" : str]) ++ map (λ a, name_of a []) (sv_list command "attributes")) →
  Forall (λ a, rank (type_of a) ≤ most)%nat (sv_list command "attributes") →
  ∃ fields,
    (∀ levels, (2 * most + 2 ≤ levels)%nat →
      command_fields email_hint url_hint tel_hint textarea_hint domain_ir aggregate levels command = Some fields) ∧
    ∀ raw : gmap str str, ∃ v, extract_args fields raw = Ok v ∧
      ∀ input, input ∈ flat_map inputs fields →
        let arrived := at_path v (split (field_path input) ".") in
        match field_kind input with
        | Group _ | Money _ => False
        | Boolean => arrived = Some (sv_bool (checked_box (raw !! field_path input)))
        | ListOf item =>
          match raw !! field_path input with
          | None => arrived = None
          | Some text => ∀ eol lines, eol = CRLF ∨ eol = LF → Forall one_line lines → text = join eol lines →
              arrived = list_reading item lines
          end
        | _ => arrived = (text ← raw !! field_path input; scalar_reading input text)
        end.
Proof.
  intros Hr Hw Ht Hm.
  destruct (asked_resolves email_hint url_hint tel_hint textarea_hint domain_ir aggregate command rank most Hr Hm) as [fields Hf].
  exists fields. split; [exact Hf|]. intros raw.
  destruct (posted_arrives fields raw []) as (v & Hv & Hall); [by eapply asked_under, Hf|].
  exists v. split; [exact Hv|]. intros input Hi. cbv zeta. rewrite (Hall input Hi).
  assert (ends_at input) as He.
  { apply list_elem_of_In, in_flat_map in Hi as (g & _ & Hg). pose proof (inputs_end g) as He.
    rewrite list.Forall_forall in He. by apply He, list_elem_of_In. }
  unfold ends_at in He. destruct (field_kind input) eqn:Ek; try done;
    try (apply collected_scalar; unfold scalar_input; by rewrite Ek).
  - by apply collected_box.
  - destruct (raw !! field_path input) as [text|] eqn:Et; [|by eapply collected_unlisted].
    intros eol lines Heol Hlines ->. by eapply collected_list.
Qed.
End theorems.

(** A value object found by its name is one of those listed. *)
Lemma named_listed {V : Type} `{SV : Serde V} (owner : V) (key name : str) (x : V) :
  named_in owner key name = Some x → sv_get_str x "name" = Some name ∧ x ∈ sv_list owner key.
Proof.
  unfold named_in, sv_list. destruct (sv_get_array owner key) as [l|]; cbn [mbind option_bind]; [|done].
  intros [Hx Hn]%find_some. case_bool_decide; [|done]. split; [done|]. by apply list_elem_of_In.
Qed.
Definition listed_shapes {V : Type} `{SV : Serde V} (domain_ir aggregate : V) : list V :=
  sv_list aggregate "value_objects" ++ flat_map (λ g, sv_list g "value_objects") (sv_list domain_ir "aggregates").
Lemma shape_listed {V : Type} `{SV : Serde V} (domain_ir aggregate shape : V) (ty : str) :
  value_object_shape domain_ir aggregate ty = Some shape →
  sv_get_str shape "name" = Some ty ∧ shape ∈ listed_shapes domain_ir aggregate.
Proof.
  unfold value_object_shape, listed_shapes, find_value_object. destruct (named_in aggregate _ ty) as [x|] eqn:E.
  - intros [= <-]. apply named_listed in E as [? ?]. split; [done|]. apply elem_of_app. by left.
  - unfold cross_aggregate_value_object, find_value_object. intros H. destruct (omap _ _) as [|y ys] eqn:Eo; [done|]. injection H as ->.
    assert (shape ∈ shape :: ys) as Hin by constructor. rewrite <- Eo in Hin.
    apply list_elem_of_omap in Hin as (g & Hg & [? ?]%named_listed). split; [done|].
    apply elem_of_app. right. apply list_elem_of_In, in_flat_map. exists g. by rewrite <- !list_elem_of_In.
Qed.
(** The two conditions on a concrete domain. *)
Definition told_apart_b (names : list str) : bool := bool_decide (NoDup names) && forallb (λ n, bool_decide (46%N ∉ n)) names.
Lemma told_apart_decided (names : list str) : told_apart_b names = true → told_apart names.
Proof.
  unfold told_apart_b. intros [H1 H2]%andb_prop. split; [by apply bool_decide_eq_true in H1|].
  apply list.Forall_forall. intros n Hn%list_elem_of_In. rewrite forallb_forall in H2. specialize (H2 n Hn). by apply bool_decide_eq_true in H2.
Qed.
Definition domain_told_apart {V : Type} `{SV : Serde V} (domain_ir aggregate : V) : bool :=
  forallb (λ shape, told_apart_b (map (λ a, name_of a []) (sv_list shape "attributes"))) (listed_shapes domain_ir aggregate).
Definition domain_ranked {V : Type} `{SV : Serde V} (domain_ir aggregate : V) (rank : str → nat) : bool :=
  forallb (λ shape, match sv_get_str shape "name" with
    | Some ty => forallb (λ inner, rank (type_of inner) <? rank ty)%nat (sv_list shape "attributes")
    | None => true end) (listed_shapes domain_ir aggregate).
Lemma well_named_decided {V : Type} `{SV : Serde V} (domain_ir aggregate : V) : domain_told_apart domain_ir aggregate = true → well_named domain_ir aggregate.
Proof.
  intros H ty shape [_ Hs]%shape_listed. apply told_apart_decided. unfold domain_told_apart in H. rewrite forallb_forall in H. by apply H, list_elem_of_In.
Qed.
Lemma ranked_decided {V : Type} `{SV : Serde V} (domain_ir aggregate : V) (rank : str → nat) :
  domain_ranked domain_ir aggregate rank = true → ranked domain_ir aggregate rank.
Proof.
  intros H ty shape inner [Hn Hs]%shape_listed Hi. unfold domain_ranked in H. rewrite forallb_forall in H.
  apply list_elem_of_In, H in Hs. rewrite Hn, forallb_forall in Hs. apply list_elem_of_In, Hs in Hi. by apply Nat.ltb_lt.
Qed.
