(* ===== verification/WebPages.v ===== *)
(** The pages of the web layer ([src/rust/host/src/web.rs]): the form of a command, the
    list of an aggregate's records and the page of one, the sign-in page, and the
    responses they travel in.

    Markup is written with an apostrophe for the double quote, which [markup] puts
    back; no page of the program holds an apostrophe of its own. *)
From stdpp Require Import gmap.
From S2P Require Import Tokens.
From S2P Require Export WebText Forms.
Open Scope Z_scope.

Definition markup (s : str) : str := map (λ c, if (c =? 39)%N then 34%N else c) s.
(** A line break and the indentation the templates have after it. *)
Definition line (spaces : nat) : str := 10%N :: repeat 32%N spaces.

(** ** Responses *)

Section responses.
Context {V : Type} `{SV : Serde V}.

(** [respond], [respond_with_cookie], [json_error], [html], [redirect],
    [redirect_with_cookie], [with_cookie]. *)
Definition respond (status : Z) (content_type body : str) : V := sv_obj [
  ("statusCode" : str, sv_i64 status); ("headers" : str, sv_obj [("content-type" : str, sv_str content_type)]);
  ("body" : str, sv_str body); ("isBase64Encoded" : str, sv_bool false)].
Definition respond_with_cookie (status : Z) (content_type body cookie : str) : V := sv_obj [
  ("statusCode" : str, sv_i64 status); ("headers" : str, sv_obj [("content-type" : str, sv_str content_type)]);
  ("cookies" : str, sv_array [sv_str cookie]); ("body" : str, sv_str body); ("isBase64Encoded" : str, sv_bool false)].
Definition json_respond (status : Z) (body : V) : V := respond status "application/json" (sv_text body).
Definition json_error (status : Z) (message : str) : V := json_respond status (sv_obj [("error" : str, sv_str message)]).
Definition html (status : Z) (body : str) : V := respond status "text/html; charset=utf-8" body.
Definition redirect (location : str) : V := sv_obj [
  ("statusCode" : str, sv_i64 302); ("headers" : str, sv_obj [("location" : str, sv_str location)]);
  ("body" : str, sv_str []); ("isBase64Encoded" : str, sv_bool false)].
Definition redirect_with_cookie (location cookie : str) : V := sv_obj [
  ("statusCode" : str, sv_i64 302); ("headers" : str, sv_obj [("location" : str, sv_str location)]);
  ("cookies" : str, sv_array [sv_str cookie]); ("body" : str, sv_str []); ("isBase64Encoded" : str, sv_bool false)].
Definition with_cookie (response : V) (cookie : str) : V :=
  match sv_get_array response "cookies" with
  | Some cookies => sv_insert response "cookies" (sv_array (cookies ++ [sv_str cookie]))
  | None => sv_insert response "cookies" (sv_array [sv_str cookie])
  end.
End responses.

(** ** Pages *)

(** [page]. *)
Definition page (title body : str) : str :=
  markup "<!doctype html><html lang='en'><head><meta charset='utf-8'><meta name='viewport' content='width=device-width, initial-scale=1'><title>"
  ++ esc title ++
  markup "</title><script src='https://cdn.tailwindcss.com'></script></head><body class='bg-slate-50 text-slate-900 min-h-screen'><header class='bg-white border-b border-slate-200'><div class='max-w-3xl mx-auto px-4 py-3'><a href='/' class='font-semibold text-slate-900'>rust/host — served straight off the bluebook IR</a></div></header><main class='max-w-3xl mx-auto px-4 py-8'>"
  ++ body ++ markup "</main></body></html>".

(** [action_link], [index_row_html]. *)
Definition action_link (domain_name agg cn id class : str) : str :=
  markup "<a href='/" ++ domain_name ++ "/" ++ agg ++ "/" ++ esc cn ++ ".html?id=" ++ urlencode id ++ markup "' class='" ++ class
  ++ markup "'>" ++ esc cn ++ "</a>".
Definition index_row_html (domain_name agg id actions : str) : str :=
  let id := esc id in
  markup "<tr><td class='px-3 py-2 font-mono text-xs'><a href='/" ++ domain_name ++ "/" ++ agg ++ "/" ++ id
  ++ markup ".html' class='text-indigo-600 hover:underline'>" ++ id ++ markup "</a></td><td class='px-3 py-2'>" ++ actions ++ "</td></tr>".

(** [ERROR_MESSAGES], [login_page]. *)
Definition ERROR_MESSAGES : list (str * str) := [
  ("google_unlinked" : str, "That Google account isn't recognized here." : str);
  ("google_failed" : str, "Google sign-in didn't go through. Try again." : str)].
Definition login_page (error : option str) : str :=
  let message := e ← error; assoc e ERROR_MESSAGES in
  let error_html := match message with
    | Some m => markup "<p class='text-red-600 text-sm mb-4'>" ++ esc m ++ "</p>" | None => [] end in
  markup "<!doctype html><html lang='en'><head><meta charset='utf-8'><meta name='viewport' content='width=device-width, initial-scale=1'><title>Sign in</title><script src='https://cdn.tailwindcss.com'></script></head>"
  ++ line 8 ++ markup "<body class='bg-slate-50 text-slate-900 min-h-screen flex items-center justify-center'>"
  ++ line 8 ++ markup "<div class='w-full max-w-sm p-8 bg-white border border-slate-200 rounded-lg'>"
  ++ line 8 ++ markup "<h1 class='text-xl font-semibold mb-1'>Sign in</h1>"
  ++ line 8 ++ markup "<p class='text-slate-500 text-sm mb-6'>Sign in with your Google account.</p>"
  ++ line 8 ++ error_html
  ++ line 8 ++ markup "<a href='/auth/google' class='block w-full text-center py-2 border border-slate-300 rounded-md hover:border-slate-400'>Sign in with Google</a>"
  ++ line 8 ++ "</div></body></html>".

(** ** Forms *)

(** [render_field]. *)
Definition input_class : str := "mt-1 block w-full rounded-md border-slate-300 shadow-sm focus:border-indigo-500 focus:ring-indigo-500 sm:text-sm".
Definition label_html (label : str) (optional : bool) : str :=
  markup "<label class='block text-sm font-medium text-slate-700 mt-4'>" ++ esc label ++
  (if optional then [] else markup " <span class='text-red-500'>*</span>") ++ "</label>".
Definition input_html (html_type path current : str) (more : str) : str :=
  markup "<input type='" ++ html_type ++ markup "' name='" ++ esc path ++ markup "' value='" ++ esc current ++ markup "'" ++ more
  ++ markup " class='" ++ input_class ++ markup "'>".
Definition radio_html (path option : str) : str :=
  markup "<label class='inline-flex items-center gap-1 text-sm text-slate-700'><input type='radio' name='" ++ esc path
  ++ markup "' value='" ++ esc option ++ markup "' class='text-indigo-600 focus:ring-indigo-500'>" ++ esc option ++ "</label>".
Definition option_html (option : str) : str := markup "<option value='" ++ esc option ++ markup "'>" ++ esc option ++ "</option>".
Fixpoint render_field (values : gmap str str) (field : Field) : str :=
  match field with
  | MkField path label kind optional =>
    let current := default [] (values !! path) in
    let label' := label_html label optional in
    match kind with
    | Group children | Money children =>
      markup "<fieldset class='mt-4 border border-slate-200 rounded-md p-4'><legend class='text-sm font-semibold text-slate-700 px-1'>"
      ++ esc label ++ "</legend>" ++ flat_map (render_field values) children ++ "</fieldset>"
    | ListOf _ =>
      label' ++ markup "<textarea name='" ++ esc path ++ markup "' rows='4' placeholder='one per line' class='" ++ input_class
      ++ markup "'>" ++ esc current ++ "</textarea>"
    | Textarea =>
      label' ++ markup "<textarea name='" ++ esc path ++ markup "' class='" ++ input_class ++ markup "'>" ++ esc current ++ "</textarea>"
    | Boolean =>
      markup "<div class='mt-4 flex items-center gap-2'><input type='checkbox' name='" ++ esc path
      ++ markup "' class='rounded border-slate-300 text-indigo-600 focus:ring-indigo-500'><label class='text-sm text-slate-700'>"
      ++ esc label ++ "</label></div>"
    | Radio options =>
      label' ++ markup "<div class='mt-1 flex gap-4'>" ++ flat_map (radio_html path) options ++ "</div>"
    | Select options =>
      label' ++ markup "<select name='" ++ esc path ++ markup "' class='" ++ input_class ++ markup "'>"
      ++ flat_map option_html options ++ "</select>"
    | Number step => label' ++ input_html "number" path current (markup " step='" ++ step ++ markup "'")
    | TextKind html_type => label' ++ input_html html_type path current []
    | Reference _ => label' ++ input_html "text" path current []
    end
  end.

Section pages.
Context {V : Type} `{SV : Serde V}.

(** [home_body]. *)
Definition home_item (name : str) (aggregate : V) : str :=
  let n := agg_name aggregate in
  markup "<li><a href='/" ++ name ++ "/" ++ n ++ markup ".html' class='text-indigo-600 hover:underline'>" ++ n ++ "</a></li>".
Definition home_body (domain_ir : V) : str :=
  let name := name_of domain_ir [] in
  let vision := default [] (sv_get_str domain_ir "vision") in
  markup "<h1 class='text-2xl font-bold mb-4'>Loaded domains</h1>"
  ++ line 8 ++ markup "<ul class='space-y-4'><li><h2 class='font-semibold text-slate-800'>" ++ esc name ++ "</h2>"
  ++ line 8 ++ markup "<p class='text-sm text-slate-500'>" ++ esc vision ++ "</p>"
  ++ line 8 ++ markup "<ul class='ml-4 mt-1 list-disc list-inside'>" ++ flat_map (home_item name) (sv_list domain_ir "aggregates") ++ "</ul></li></ul>".

(** [form_body]: the reasons of a refusal go where the preconditions are. *)
Definition givens_html (command : V) : str :=
  flat_map (λ g, match sv_get_str g "description" with Some d => "<li>" ++ esc d ++ "</li>" | None => [] end) (sv_list command "givens").
Definition error_message (e : V) : str :=
  default ("Refused" : str)
    (x ← (match sv_get e "error" with Some x => Some x | None => sv_get e "message" end); sv_as_str x).
Definition error_banner (error : option V) : str :=
  match error with
  | Some e => markup "<div class='mt-3 rounded-md border border-red-200 bg-red-50 p-3 text-sm text-red-800'><strong>Refused</strong> — "
              ++ esc (error_message e) ++ "</div>"
  | None => []
  end.
Definition role_html (command : V) : str :=
  match sv_get_str command "role" with
  | Some r => markup "<span class='inline-block mt-1 rounded bg-slate-200 px-2 py-0.5 text-xs text-slate-600'>role: " ++ esc r ++ "</span>"
  | None => []
  end.
Definition goal_html (command : V) : str :=
  match sv_get_str command "goal" with Some g => markup "<p class='mt-2 text-slate-600'>" ++ esc g ++ "</p>" | None => [] end.
Definition preconditions_html (givens banner : str) : str :=
  if bool_decide (givens = []) then []
  else markup "<div class='mt-3 rounded-md border border-amber-200 bg-amber-50 p-3 text-sm text-amber-800'><strong>Preconditions</strong> — refused if any fail:<ul class='list-disc list-inside mt-1'>"
       ++ givens ++ "</ul></div>" ++ banner.
Definition form_body (domain_name : str) (aggregate command : V) (action : str) (fields : list Field)
    (values : gmap str str) (error : option V) : str :=
  let agg := agg_name aggregate in
  let cname := name_of command [] in
  markup "<h1 class='text-2xl font-bold'>" ++ domain_name ++ "::" ++ agg ++ "." ++ cname ++ "</h1>"
  ++ line 8 ++ role_html command ++ goal_html command
  ++ line 8 ++ preconditions_html (givens_html command) (error_banner error)
  ++ line 8 ++ markup "<form method='post' action='" ++ esc action ++ markup "' novalidate>" ++ flat_map (render_field values) fields
  ++ line 8 ++ markup "<div class='mt-6 flex gap-3'><button type='submit' class='rounded-md bg-indigo-600 px-4 py-2 text-sm font-medium text-white shadow-sm hover:bg-indigo-500'>" ++ cname ++ "</button>"
  ++ line 8 ++ markup "<a href='/" ++ domain_name ++ "/" ++ agg ++ markup ".html' class='inline-flex items-center rounded-md border border-slate-300 px-4 py-2 text-sm text-slate-700 hover:bg-slate-50'>Cancel</a></div></form>".

(** [instances_for], [with_id]. *)
Definition instances_for (result : V) (prefix : str) : list (str * V) :=
  match sv_get result "instances" with
  | Some o => omap (λ kv, id ← strip_prefix kv.1 prefix; Some (id, kv.2)) (sv_entries o)
  | None => []
  end.
Definition with_id (id : str) (state : V) : V := if sv_is_object state then sv_insert state "id" (sv_str id) else state.
Definition record_prefix (domain_name agg : str) : str := domain_name ++ "::" ++ agg ++ "#".

(** [aggregate_index], of the records read: the page. *)
Definition creating (aggregate : V) : list V := List.filter creates (sv_list aggregate "commands").
Definition acting (aggregate : V) : list V := List.filter (λ c, negb (creates c)) (sv_list aggregate "commands").
Definition new_link (domain_name agg : str) (command : V) : str :=
  let cn := name_of command [] in
  markup "<a href='/" ++ domain_name ++ "/" ++ agg ++ "/" ++ cn
  ++ markup ".html' class='rounded-md bg-indigo-600 px-3 py-1.5 text-sm text-white hover:bg-indigo-500'>" ++ cn ++ "</a>".
Definition index_row (domain_name agg : str) (aggregate : V) (id : str) : str :=
  index_row_html domain_name agg id
    (flat_map (λ c, action_link domain_name agg (name_of c []) id "text-indigo-600 hover:underline mr-3") (acting aggregate)).
Definition index_heading (domain_name : str) (aggregate : V) : str :=
  let agg := agg_name aggregate in
  markup "<div class='flex items-center justify-between mb-4'><h1 class='text-2xl font-bold'>" ++ domain_name ++ "::" ++ agg
  ++ markup "</h1><div class='flex gap-2'>" ++ flat_map (new_link domain_name agg) (creating aggregate) ++ "</div></div>".
Definition index_body (domain_name : str) (aggregate : V) (records : list (str * V)) : str :=
  index_heading domain_name aggregate ++
  match records with
  | [] => markup "<p class='text-slate-500'>No records yet.</p>"
  | _ =>
    line 12 ++ markup "<table class='w-full text-sm border border-slate-200 rounded-md overflow-hidden'><thead class='bg-slate-100 text-left'><tr><th class='px-3 py-2'>id</th><th class='px-3 py-2'>actions</th></tr></thead>"
    ++ line 12 ++ markup "<tbody class='divide-y divide-slate-100 bg-white'>"
    ++ flat_map (λ r, index_row domain_name (agg_name aggregate) aggregate r.1) records ++ "</tbody></table>"
  end.
Definition index_page (domain_name : str) (aggregate : V) (records : list (str * V)) : V :=
  html 200 (page (domain_name ++ "::" ++ agg_name aggregate) (index_body domain_name aggregate records)).

(** [record_show], of the record found: the page, and the answer where there is none. *)
Definition record_row (kv : str * V) : str :=
  markup "<div class='px-4 py-2 grid grid-cols-3 gap-2'><dt class='text-sm font-medium text-slate-500'>" ++ esc kv.1
  ++ markup "</dt><dd class='col-span-2 text-sm text-slate-900 font-mono'>" ++ esc (sv_text kv.2) ++ "</dd></div>".
Definition record_body (domain_name : str) (aggregate : V) (id : str) (state : V) : str :=
  let agg := agg_name aggregate in
  markup "<h1 class='text-2xl font-bold'>" ++ esc agg ++ markup " <span class='font-mono text-lg text-slate-500'>" ++ esc id ++ "</span></h1>"
  ++ line 8 ++ markup "<dl class='mt-4 divide-y divide-slate-200 border border-slate-200 rounded-md bg-white'>"
  ++ flat_map record_row (sv_entries state) ++ "</dl>"
  ++ line 8 ++ markup "<div class='mt-6'>" ++ flat_map (λ c, action_link domain_name agg (name_of c []) id
       "rounded-md bg-indigo-600 px-3 py-1.5 text-sm text-white hover:bg-indigo-500 mr-3") (acting aggregate)
  ++ markup "<a href='/" ++ domain_name ++ "/" ++ agg ++ markup ".html' class='text-indigo-600 hover:underline'>← " ++ agg ++ " list</a></div>".
Definition record_page (domain_name : str) (aggregate : V) (id : str) (state : V) : V :=
  html 200 (page (agg_name aggregate ++ " " ++ id) (record_body domain_name aggregate id state)).
Definition no_record (aggregate : V) (id format : str) : V :=
  let message := "No " ++ agg_name aggregate ++ " " ++ id ++ "." in
  if str_eqb format "html" then
    html 404 (page "Not found" (markup "<h1 class='text-2xl font-bold mb-4'>Not found</h1><p class='text-slate-600'>" ++ esc message ++ "</p>"))
  else json_respond 404 (sv_obj [("error" : str, sv_str "NotFound"); ("message" : str, sv_str message)]).

(** [own_command_target_id], [last_refusal]. *)
Definition own_command_target_id (result : V) : option str :=
  steps ← sv_get_array result "mutations"; step ← list.last steps; muts ← sv_as_array step; m ← list.head muts; sv_get_str m "id".
Definition last_refusal (result : V) : V :=
  default (sv_obj [("error" : str, sv_str "Refused")]) (rs ← sv_get_array result "refusals"; list.last rs).
(** [bad_request]. *)
Definition bad_request (domain_name : str) (aggregate command : V) (fields : list Field) (raw : gmap str str)
    (json_mode : bool) (message : str) : V :=
  let refusal := sv_obj [("error" : str, sv_str message)] in
  if json_mode then json_respond 400 refusal
  else
    let agg := agg_name aggregate in
    let cname := name_of command [] in
    html 400 (page (domain_name ++ "::" ++ agg ++ "." ++ cname)
      (form_body domain_name aggregate command ("/" ++ domain_name ++ "/" ++ agg ++ "/" ++ cname ++ ".html") fields raw (Some refusal))).

(** [admin_members_page]. *)
Definition access_text (p : V) : str :=
  let until := default [] (sv_get_str p "access_expires_at") in
  let shows key := bool_decide ((sv_get p key ≫= sv_as_bool) = Some true) in
  let expired := shows ("expired" : str) in
  let access :=
    if expired then "access ended " ++ until
    else if shows ("linked" : str) then "linked" else if shows ("granted" : str) then "granted, not yet signed in" else "no access" in
  if negb expired && negb (bool_decide (until = [])) then access ++ ", until " ++ until else access.
Definition person_html (p : V) : str :=
  let cell (s : str) := markup "<td class='py-2 pr-4'>" ++ esc s ++ "</td>" in
  markup "<tr class='border-b border-slate-100'>" ++ cell (name_of p []) ++ cell (default [] (sv_get_str p "email"))
  ++ cell (default ("—" : str) (sv_get_str p "role")) ++ markup "<td class='py-2'>" ++ esc (access_text p) ++ "</td></tr>".
Definition admin_members_page (people : list V) : str :=
  markup "<!doctype html><html lang='en'><head><meta charset='utf-8'><meta name='viewport' content='width=device-width, initial-scale=1'><title>Members</title><script src='https://cdn.tailwindcss.com'></script></head>"
  ++ line 8 ++ markup "<body class='bg-slate-50 text-slate-900 min-h-screen'><main class='max-w-2xl mx-auto px-4 py-8'>"
  ++ line 8 ++ markup "<p class='mb-4'><a href='/' class='text-slate-500 hover:text-slate-700'>&larr; back</a></p>"
  ++ line 8 ++ markup "<h1 class='text-xl font-semibold mb-4'>Members</h1>"
  ++ line 8 ++ markup "<table class='w-full text-sm mb-6'><thead><tr class='text-left text-slate-500 text-xs uppercase'><th class='py-2 pr-4'>Name</th><th class='py-2 pr-4'>Email</th><th class='py-2 pr-4'>Role</th><th class='py-2'>Access</th></tr></thead><tbody>"
  ++ flat_map person_html people ++ "</tbody></table>"
  ++ line 8 ++ markup "<form method='post' action='/admin/members' class='flex flex-wrap gap-2 items-center'>"
  ++ line 8 ++ markup "<input type='text' name='name' placeholder='Name' class='w-40 border border-slate-300 rounded-md px-3 py-2 text-sm' />"
  ++ line 8 ++ markup "<input type='email' name='email' placeholder='Email (their Google account)' required class='flex-1 border border-slate-300 rounded-md px-3 py-2 text-sm' />"
  ++ line 8 ++ markup "<select name='role' class='border border-slate-300 rounded-md px-3 py-2 text-sm'><option value='Admin'>Admin</option><option value='Owner'>Owner</option><option value='Member'>Member</option></select>"
  ++ line 8 ++ markup "<input type='number' name='expires_in_days' min='1' max='365' step='1' placeholder='Days (optional)' title='Leave empty for access with no end date' class='w-32 border border-slate-300 rounded-md px-3 py-2 text-sm' />"
  ++ line 8 ++ markup "<button type='submit' class='px-4 py-2 bg-slate-900 text-white rounded-md text-sm'>Grant access</button>"
  ++ line 8 ++ "</form></main></body></html>".
End pages.
