(* ===== verification/WebPagesFacts.v ===== *)
(** What the pages promise ([WebPages.v]): nothing that was typed or stored opens markup
    of its own; and what they do not: a refusal without preconditions is not shown,
    and the link to a record whose identity has a dot does not lead to it. *)
From stdpp Require Import gmap.
From S2P Require Import SigninFlowFacts SigninConfig.
From S2P Require Export WebText FormsFacts WebPages.
From S2P Require Needs.
Open Scope Z_scope.

(** ** Markup *)

(** The characters of a page that open or close markup or a quoted attribute. *)
Definition marks (s : str) : str := List.filter opens_markup s.
Lemma marks_app (a b : str) : marks (a ++ b) = marks a ++ marks b.
Proof. apply List.filter_app. Qed.
Lemma marks_none (s : str) : existsb opens_markup s = false → marks s = [].
Proof.
  induction s as [|c s IH]; [done|]. cbn [existsb marks List.filter]. intros [Hc Hs]%orb_false_iff. rewrite Hc. by apply IH.
Qed.
Lemma marks_esc (s : str) : marks (esc s) = [].
Proof.
  apply marks_none. rewrite esc_entities. induction s as [|c s IH]; [done|]. cbn [flat_map]. by rewrite existsb_app, entity_plain.
Qed.
Lemma escaped_byte_plain (b : N) : (b < 256)%N → existsb opens_markup (escaped b) = false.
Proof.
  intros Hb. assert (forallb (λ b, negb (existsb opens_markup (escaped b))) (map N.of_nat (seq 0 256)) = true) as Hall by (vm_compute; reflexivity).
  rewrite forallb_forall in Hall. apply negb_true_iff, Hall, in_map_iff. exists (N.to_nat b). rewrite in_seq. lia.
Qed.
Lemma marks_urlencode (s : str) : wf_str s = true → marks (urlencode s) = [].
Proof.
  intros Hs. apply marks_none. change (urlencode s) with (flat_map escaped (utf8_encode s)).
  induction (utf8_encode_bytes s Hs) as [|b bs Hb _ IH]; [done|]. cbn [flat_map]. by rewrite existsb_app, escaped_byte_plain, IH.
Qed.
Lemma marks_flat_map {A} (f g : A → str) (l : list A) : (∀ x, x ∈ l → marks (f x) = marks (g x)) → marks (flat_map f l) = marks (flat_map g l).
Proof.
  induction l as [|x l IH]; [done|]. intros H. cbn [flat_map]. rewrite !marks_app. rewrite H by constructor.
  by rewrite IH by (intros y Hy; apply H; by constructor).
Qed.
Lemma marks_rows {A B} (f : A → str) (g : B → str) (l : list A) (m : list B) :
  length l = length m → (∀ x y, x ∈ l → y ∈ m → marks (f x) = marks (g y)) → marks (flat_map f l) = marks (flat_map g m).
Proof.
  revert m. induction l as [|x l IH]; intros [|y m]; [done..|]. cbn [length flat_map]. intros [= Hl] H. rewrite !marks_app.
  rewrite (H x y) by constructor. f_equal. apply IH; [done|]. intros a b Ha Hb. apply H; by constructor.
Qed.
Ltac marks := rewrite ?marks_app, ?marks_esc, ?app_nil_l.

Lemma render_field_marks (v w : gmap str str) (f : Field) : marks (render_field v f) = marks (render_field w f).
Proof.
  induction f as [[path label kind optional] IH] using field_within. cbn [field_kind] in IH.
  destruct kind; cbn [render_field]; unfold input_html; marks; try done;
    rewrite list.Forall_forall in IH; by rewrite (marks_flat_map (render_field v) (render_field w)).
Qed.

Section pages.
Context {V : Type} `{SV : Serde V}.

Lemma error_banner_marks (e e' : V) : marks (error_banner (Some e)) = marks (error_banner (Some e')).
Proof. unfold error_banner. by marks. Qed.
Lemma form_body_marks (domain_name : str) (aggregate command : V) (action action' : str) (fields : list Field)
    (v w : gmap str str) (e e' : V) :
  marks (form_body domain_name aggregate command action fields v (Some e)) =
  marks (form_body domain_name aggregate command action' fields w (Some e')).
Proof.
  unfold form_body, preconditions_html. marks.
  rewrite (marks_flat_map (render_field v) (render_field w)) by (intros; apply render_field_marks).
  destruct (bool_decide _); marks; [done|]. by rewrite (error_banner_marks e e').
Qed.
Lemma action_link_marks (domain_name agg cn class id id' : str) :
  wf_str id = true → wf_str id' = true → marks (action_link domain_name agg cn id class) = marks (action_link domain_name agg cn id' class).
Proof. intros H H'. unfold action_link. marks. by rewrite !marks_urlencode. Qed.
Lemma actions_marks (domain_name agg class id id' : str) (commands : list V) :
  wf_str id = true → wf_str id' = true →
  marks (flat_map (λ c, action_link domain_name agg (name_of c []) id class) commands) =
  marks (flat_map (λ c, action_link domain_name agg (name_of c []) id' class) commands).
Proof. intros. apply marks_flat_map. intros. by apply action_link_marks. Qed.
Lemma index_row_marks (domain_name agg id id' : str) (aggregate : V) :
  wf_str id = true → wf_str id' = true → marks (index_row domain_name agg aggregate id) = marks (index_row domain_name agg aggregate id').
Proof. intros. unfold index_row, index_row_html. marks. by rewrite (actions_marks _ _ _ id id'). Qed.
Lemma index_body_marks (domain_name : str) (aggregate : V) (rs rs' : list (str * V)) :
  length rs = length rs' → Forall (λ r, wf_str r.1 = true) rs → Forall (λ r, wf_str r.1 = true) rs' →
  marks (index_body domain_name aggregate rs) = marks (index_body domain_name aggregate rs').
Proof.
  intros Hl H H'. rewrite list.Forall_forall in H, H'. unfold index_body. rewrite !(marks_app (index_heading _ _)).
  destruct rs as [|r rs], rs' as [|r' rs']; try discriminate Hl; [reflexivity|]. rewrite !marks_app.
  set (row := λ x : str * V, index_row domain_name (agg_name aggregate) aggregate x.1).
  rewrite (marks_rows row row _ _ Hl); [reflexivity|]. intros x y Hx Hy. unfold row.
  apply index_row_marks; [by apply H|by apply H'].
Qed.
Lemma record_row_marks (kv kv' : str * V) : marks (record_row kv) = marks (record_row kv').
Proof. unfold record_row. by marks. Qed.
Lemma record_body_marks (domain_name id id' : str) (aggregate state state' : V) :
  wf_str id = true → wf_str id' = true → length (sv_entries state) = length (sv_entries state') →
  marks (record_body domain_name aggregate id state) = marks (record_body domain_name aggregate id' state').
Proof.
  intros Hi Hi' Hl. unfold record_body. marks. rewrite (marks_rows record_row record_row _ _ Hl) by (intros; apply record_row_marks).
  by rewrite (actions_marks _ _ _ id id').
Qed.

(** C17: no page holds markup that came from outside the domain's declaration: a refused
    form has the same markup whatever was typed into it and whatever the refusal says,
    a list the same for as many records, a record's page the same for any other with as
    many fields. *)
Theorem pages_hold_only_their_own_markup (domain_name action action' id id' : str) (aggregate command state state' e e' : V)
    (fields : list Field) (v w : gmap str str) (rs rs' : list (str * V)) :
  wf_str id = true → wf_str id' = true → length (sv_entries state) = length (sv_entries state') →
  length rs = length rs' → Forall (λ r, wf_str r.1 = true) rs → Forall (λ r, wf_str r.1 = true) rs' →
  marks (form_body domain_name aggregate command action fields v (Some e)) =
    marks (form_body domain_name aggregate command action' fields w (Some e')) ∧
  marks (index_body domain_name aggregate rs) = marks (index_body domain_name aggregate rs') ∧
  marks (record_body domain_name aggregate id state) = marks (record_body domain_name aggregate id' state').
Proof.
  intros Hi Hi' Hl Hr H H'. split_and!; [apply form_body_marks|by apply index_body_marks|by apply record_body_marks].
Qed.

(** The reason of a refusal is shown beside the preconditions only: the form of a
    command that describes none is the same page whether it was refused or not. *)
Theorem refusals_without_preconditions_are_not_shown (domain_name action : str) (aggregate command e : V)
    (fields : list Field) (values : gmap str str) :
  givens_html command = [] →
  form_body domain_name aggregate command action fields values (Some e) =
  form_body domain_name aggregate command action fields values None.
Proof. intros H. unfold form_body, preconditions_html. by rewrite H, bool_decide_true. Qed.
End pages.

(** The list links a record's page by its identity and [.html], and the link leads
    there exactly where the identity has no dot: with one, everything after the first
    dot is taken for the format. *)
Theorem dotted_identities_are_not_linked (key : str) : split_format (key ++ ".html") = (key, "html" : str) ↔ 46%N ∉ key.
Proof.
  unfold split_format. split.
  - intros H Hin. apply list_elem_of_In in Hin. induction key as [|c key IH]; [done|].
    cbn [app split_once] in H. destruct (N.eqb_spec c 46) as [->|Hc]; [by injection H|].
    destruct Hin as [Hin|Hin]; [by subst|]. apply IH; [|done].
    destruct (split_once (key ++ ".html") 46) as [[a b]|]; cbn [from_option id default] in H |- *; by simplify_eq.
  - intros H. change ".html" with (46%N :: ("html" : str)). by rewrite split_once_single.
Qed.
