(* ===== verification/GoogleSignin.v ===== *)
(** Google sign-in ([src/rust/host/src/auth/google_signin.rs], [auth.rs] and the helpers
    of [web.rs]): the cookie that binds a sign-in to a browser, the page it starts on,
    the ID token it ends with.

    The crate [jsonwebtoken] and the two requests to Google are classes; the
    randomness of a fresh sign-in is an argument. *)
From stdpp Require Import gmap.
From S2P Require Import Tokens SigninFlow.
From S2P Require Export WebPages.
Open Scope Z_scope.

(** ** The cookie *)

(** [GoogleSignin]; [SECURE_NAME], [PLAIN_NAME], [SECURE_ATTRIBUTES], [PLAIN_ATTRIBUTES]. *)
Record GoogleSignin := { google_state : str; google_nonce : str }.
Definition SECURE_NAME : str := "__Host-hecks_google".
Definition PLAIN_NAME : str := "hecks_google".
Definition SECURE_ATTRIBUTES : str := "Path=/; HttpOnly; Secure; SameSite=Lax".
Definition PLAIN_ATTRIBUTES : str := "Path=/; HttpOnly; SameSite=Lax".
Definition MAX_AGE_SECONDS : Z := 600.
Definition cookie_name (secure : bool) : str := if secure then SECURE_NAME else PLAIN_NAME.
Definition attributes (secure : bool) : str := if secure then SECURE_ATTRIBUTES else PLAIN_ATTRIBUTES.

(** [set_header], [clear_header], [state_matches]; [read], whose parts are judged as
    those of the other sign-in's cookie are ([SigninFlow.acceptable]). *)
Definition set_header (signin : GoogleSignin) (secure : bool) : str :=
  cookie_name secure ++ "=" ++ google_nonce signin ++ "." ++ google_state signin ++ "; Max-Age=" ++ dec_Z MAX_AGE_SECONDS ++ "; " ++ attributes secure.
Definition clear_header (secure : bool) : str := cookie_name secure ++ "=; Max-Age=0; " ++ attributes secure.
Definition state_matches (signin : GoogleSignin) (state : str) : bool :=
  constant_time_eq (utf8_encode (google_state signin)) (utf8_encode state).
Definition read_google (cookies : gmap str str) (secure : bool) : option GoogleSignin :=
  value ← cookies !! cookie_name secure; parts ← split_once value 46;
  if acceptable parts.1 && acceptable parts.2 then Some {| google_state := parts.2; google_nonce := parts.1 |} else None.

(** [fresh], of the bytes of the identifiers drawn for the two values. *)
Definition fresh `{B : Base64Url} (a b c d : list N) : GoogleSignin :=
  {| google_state := fresh_value a b; google_nonce := fresh_value c d |}.

(** [google_signin_for] ([web.rs]). *)
Definition google_signin_for (query cookies : gmap str str) (secure : bool) : option GoogleSignin :=
  signin ← read_google cookies secure;
  if state_matches signin (default [] (query !! ("state" : str))) then Some signin else None.

(** [origin_of], [same_origin] ([web.rs]). *)
Fixpoint after_scheme (url : str) : option str :=
  match strip_prefix url "://" with
  | Some rest => Some rest
  | None => match url with _ :: url' => after_scheme url' | [] => None end
  end.
Definition origin_of (url : str) : str := let rest := default url (after_scheme url) in default rest (list.head (split rest "/")).
Definition same_origin (a b : str) : bool := str_eqb (origin_of a) (origin_of b).

(** ** The ID token *)

(** [ISSUER], [Claims]. *)
Definition ISSUER : str := "https://accounts.google.com".
Record Claims := { issuer : str; subject : str; claimed_email : option str; email_verified : bool }.

(** [authorization_url]. *)
Definition client_id_unset : str := "GOOGLE_CLIENT_ID not set".
Definition authorization_url (client_id : option str) (redirect_uri : str) (signin : GoogleSignin) : result str str :=
  let? client_id := ok_or client_id client_id_unset in
  Ok ("https://accounts.google.com/o/oauth2/v2/auth?client_id=" ++ urlencode client_id ++ "&redirect_uri=" ++ urlencode redirect_uri ++
      "&response_type=code&scope=" ++ urlencode "openid email profile" ++ "&state=" ++ urlencode (google_state signin) ++
      "&nonce=" ++ urlencode (google_nonce signin)).

(** The crate: the key's name in a token's header; a key of its numbers; a token's
    claims, where the key, the audience and one of the issuers are its own. *)
Class JsonWebTokens (V K : Type) := {
  jwt_kid : str → result str (option str);
  jwt_key : str → str → result str K;
  jwt_decode : str → K → str → list str → result str V
}.
(** The two requests: whether the exchange succeeded, and its body; Google's keys. *)
Class GoogleHttp (V : Type) := {
  exchange : str → str → str → str → result str (bool * str * result str V);
  certs : result str (result str V)
}.

Section token.
Context `{U : UnicodeTables} {V K : Type} `{SV : Serde V} `{JW : JsonWebTokens V K} `{GH : GoogleHttp V}.

(** [check_nonce]. *)
Definition nonce_differs : str := "id_token nonce does not match this sign-in".
Definition check_nonce (claims : V) (expected : str) : result str unit :=
  if constant_time_eq (utf8_encode (default [] (sv_get_str claims "nonce"))) (utf8_encode expected)
  then Ok () else Err nonce_differs.

(** [verify_id_token]. *)
Definition said_so (claims : V) : bool :=
  match sv_get claims "email_verified" with
  | Some v => bool_decide (sv_as_bool v = Some true) || bool_decide (sv_as_str v = Some ("true" : str))
  | None => false
  end.
Definition prefixed {A} (what : str) (r : result str A) : result str A := match r with Ok x => Ok x | Err e => Err (what ++ e) end.
Definition key_named (jwks : V) (kid : str) : option V :=
  keys ← sv_get_array jwks "keys"; find (λ k, bool_decide (sv_get_str k "kid" = Some kid)) keys.
Definition verify_id_token (id_token client_id nonce : str) : result str Claims :=
  let? header := prefixed "bad id_token header: " (jwt_kid (V:=V) id_token) in
  let? kid := ok_or header "id_token header has no kid" in
  let? answered := prefixed "fetching Google's JWKS: " certs in
  let? jwks := prefixed "parsing Google's JWKS: " answered in
  let? key := ok_or (key_named jwks kid) ("no JWKS key matches id_token's kid " ++ debug_str kid) in
  let? n := ok_or (sv_get_str key "n") "JWKS key has no n" in
  let? e := ok_or (sv_get_str key "e") "JWKS key has no e" in
  let? decoding_key := prefixed "building decoding key from JWKS: " (jwt_key (V:=V) n e) in
  let? claims := prefixed "id_token signature/claims invalid: "
    (jwt_decode id_token decoding_key client_id [ISSUER; "accounts.google.com" : str]) in
  let? _ := check_nonce claims nonce in
  let? subject := ok_or (sv_get_str claims "sub") "id_token has no sub" in
  Ok {| issuer := default ISSUER (sv_get_str claims "iss"); subject := subject;
        claimed_email := sv_get_str claims "email"; email_verified := said_so claims |}.

(** [verify]. *)
Definition verify (client_id client_secret : option str) (code redirect_uri nonce : str) : result str Claims :=
  let? client_id := ok_or client_id client_id_unset in
  let? client_secret := ok_or client_secret "GOOGLE_CLIENT_SECRET not set" in
  let? answer := prefixed "token exchange: " (exchange code client_id client_secret redirect_uri) in
  if negb answer.1.1 then Err ("token exchange failed: " ++ answer.1.2)
  else
    let? body := prefixed "token response: " answer.2 in
    let? id_token := ok_or (sv_get_str body "id_token") "no id_token in the response" in
    verify_id_token id_token client_id nonce.
End token.
