(* ===== verification/MemberRoutes.v ===== *)
(** The account and member routes of the web layer ([src/rust/host/src/web.rs]): who is
    signed in, who is on the list, and what an admin does to a member.

    Each route answers a response and the domain's data after it.  A request reads the
    clock several times; here every reading is the same moment [now].  The process's
    environment ([HECKS_SESSION_COOKIE], [SESSION_SECRET]) is an argument. *)
From stdpp Require Import gmap.
From S2P Require Export GoogleSignin Members Provision.
From S2P Require Import RateLimit HostDispatch.
From S2P Require Import Verifier WebText Forms WebPages Tokens.
Open Scope Z_scope.

(** [expiry_days]: the optional whole days of a grant. *)
Definition EXPIRY_MESSAGE : str := "expires_in_days must be a whole number of days from 1 to 365".
Definition in_days (d : Z) : bool := (1 <=? d) && (d <=? MAX_EXPIRY_DAYS).
Definition NEEDS_OPEN_ADMIN : str := "a site must keep at least one admin without an end date".
Definition SIGNUP_PURPOSE : str := "signup".
Definition SSO_TOKEN_TTL_SECS : Z := 60.
Definition local_and_dotted (email : str) : bool :=
  match split_once email 64 with
  | Some (local, domain) => negb (bool_decide (local = [])) && contains domain "."
  | None => false
  end.
Definition looks_like_email (email : str) : bool := local_and_dotted email && negb (existsb is_whitespace email).

Section routes.
Context `{U : UnicodeTables} `{B : Base64Url} `{M : Hmac} {V : Type} `{SV : Serde V} `{ST : SerdeText V}.

Definition expiry_days (raw : option V) : Prelude.result str (option Z) :=
  match raw with
  | None => Ok None
  | Some v =>
    if sv_is_null v then Ok None
    else
      let days := match sv_as_str v with
        | Some s => if bool_decide (IpText.trim s = []) then None else Some (parse_u64 (IpText.trim s))
        | None => Some (sv_as_u64 v)
        end in
      match days with
      | None => Ok None
      | Some (Some d) => if in_days d then Ok (Some d) else Err EXPIRY_MESSAGE
      | Some None => Err EXPIRY_MESSAGE
      end
  end.

(** [serde_json::from_str] of a body, and a trimmed text of it. *)
Definition body_of (raw_body : str) : V := default sv_null (sv_from_slice (utf8_encode raw_body)).
Definition text_field (body : V) (key : str) : str := default [] (IpText.trim <$> sv_get_str body key).

Context (account_cookie secret : str) (c : LineageConfig) (ir : V) (now : Z).

(** Who the account cookie names. *)
Definition account_email (cookies : gmap str str) : option str :=
  token ← cookies !! account_cookie; verify_account_token (V:=V) secret token now.
Definition lookup_failed (e : MemberError) : V := json_error 500 ("members lookup failed: " ++ member_error_text e).
Definition not_logged_in : V := json_error 401 "not logged in".

(** [active_session_email]; [require_admin] of [newsletter_send.rs]. *)
Definition active_session_email (cookies : gmap str str) (d : Data V) : Prelude.result V str :=
  match account_email cookies with
  | None => Err not_logged_in
  | Some email =>
    match has_access now d ir email with
    | Ok true => Ok email
    | Ok false => Err not_logged_in
    | Err e => Err (lookup_failed e)
    end
  end.
Definition require_admin (cookies : gmap str str) (d : Data V) : Prelude.result V unit :=
  let? email := active_session_email cookies d in
  match caller_is_admin now d ir email with
  | Ok true => Ok ()
  | Ok false => Err (json_error 403 "only an Admin or Owner can do this")
  | Err e => Err (lookup_failed e)
  end.

(** [accounts_me_route], [accounts_sso_token_route]. *)
Definition accounts_me_route (cookies : gmap str str) (d : Data V) : V :=
  match active_session_email cookies d with
  | Ok email =>
    match member_identity_id d ir email with
    | Ok linked => json_respond 200 (sv_obj [("email" : str, sv_str email); ("identity_id" : str, sv_of_option linked)])
    | Err e => lookup_failed e
    end
  | Err response => response
  end.
Definition accounts_sso_token_route (cookies : gmap str str) (d : Data V) : V :=
  match active_session_email cookies d with
  | Ok email => json_respond 200 (sv_obj [("token" : str, sv_str (account_token (V:=V) secret email SSO_TOKEN_TTL_SECS now))])
  | Err response => response
  end.

(** [sorted_by_name], [members_route]. *)
Definition name_key (p : V) : str := to_lowercase (name_of p []).
Definition sorted_by_name (people : list V) : list V := sort_by (λ p q, str_compare (name_key p) (name_key q)) people.
Definition members_route (cookies : gmap str str) (d : Data V) : V :=
  match require_admin cookies d with
  | Err response => response
  | Ok _ =>
    match all_people now d ir with
    | Ok people => json_respond 200 (sv_array (sorted_by_name people))
    | Err e => lookup_failed e
    end
  end.

(** [add_member_route]. *)
Definition role_asked (body : V) : str :=
  match sv_get body "role" with
  | None => "Admin"
  | Some v => if sv_is_null v then "Admin" else default [] (IpText.trim <$> sv_as_str v)
  end.
Definition role_refused : V := json_error 400 ("role must be one of " ++ join ", " GRANTABLE_ROLES).
Definition grantable (role : str) : bool := existsb (str_eqb role) GRANTABLE_ROLES.
Definition person_added (name email role : str) (until : option str) : V := sv_obj [
  ("name" : str, sv_str name); ("email" : str, sv_str email); ("role" : str, sv_str role); ("linked" : str, sv_bool false);
  ("granted" : str, sv_bool true); ("disabled" : str, sv_bool false); ("access_expires_at" : str, sv_of_option until);
  ("expired" : str, sv_bool false); ("identity_id" : str, sv_null)].
Definition until_of (days : option Z) : option str := d ← days; Some (expiry_after_days d now).
Definition not_granted (role : str) : str := "the person was admitted but the " ++ role ++ " role was not granted".
Definition granted_answer (name email role : str) (until : option str) (outcome : Prelude.result MemberError GrantOutcome) : V :=
  match outcome with
  | Ok GrantDone => json_respond 201 (person_added name email role until)
  | Ok GrantUnknownPerson => json_error 500 (not_granted role)
  | Ok GrantLastOpenAdmin => json_error 409 NEEDS_OPEN_ADMIN
  | Err e => json_error 500 (not_granted role ++ ": " ++ member_error_text e)
  end.
Definition add_member (name email role : str) (days : option Z) (d : Data V) : V * Data V :=
  match admit_person d c ir email name with
  | (Ok true, d) =>
    let email := to_lowercase email in
    let (outcome, d) := grant_access_until now d c ir email role (until_of days) in
    (granted_answer name email role (until_of days) outcome, d)
  | (Ok false, d) => (json_error 409 "that email is already admitted", d)
  | (Err e, d) => (json_error 500 ("admit failed: " ++ member_error_text e), d)
  end.
Definition add_member_route (raw_body : str) (cookies : gmap str str) (d : Data V) : V * Data V :=
  match account_email cookies with
  | None => (not_logged_in, d)
  | Some caller =>
    match caller_is_admin now d ir caller with
    | Ok false => (json_error 403 "admins only", d)
    | Err e => (lookup_failed e, d)
    | Ok true =>
      let body := body_of raw_body in
      let (email, name) := (text_field body "email", text_field body "name") in
      if bool_decide (name = []) || negb (looks_like_email email) then (json_error 400 "a name and a valid email are required", d)
      else
        let role := role_asked body in
        if negb (grantable role) then (role_refused, d)
        else match expiry_days (sv_get body "expires_in_days") with
        | Err message => (json_error 400 message, d)
        | Ok days => add_member name email role days d
        end
    end
  end.

(** [set_member_disabled_route], [set_member_deleted_route], [set_member_role_route]. *)
Definition update_failed (e : MemberError) : V := json_error 500 ("members update failed: " ++ member_error_text e).
Definition set_member_disabled_route (raw_body : str) (cookies : gmap str str) (disable : bool) (d : Data V) : V * Data V :=
  match account_email cookies with
  | None => (not_logged_in, d)
  | Some caller =>
    let email := text_field (body_of raw_body) "email" in
    if bool_decide (email = []) then (json_error 400 "an email is required", d)
    else
      let (outcome, d) := set_person_disabled now d c ir caller email disable in
      (match outcome with
       | Ok DisableDone =>
         json_respond 200 (sv_obj [((if disable then "disabled" else "enabled") : str, sv_str (to_lowercase email))])
       | Ok DisableCallerNotAdmin => json_error 403 "admins only"
       | Ok SelfDisable => json_error 403 "you can't disable your own admin access"
       | Ok DisableUnknownPerson => json_error 404 "no member with that email"
       | Ok DisableLastOpenAdmin => json_error 409 NEEDS_OPEN_ADMIN
       | Ok DisableLastAdmin => json_error 409 "there must always be at least one admin"
       | Err e => update_failed e
       end, d)
  end.
Definition set_member_deleted_route (raw_body : str) (cookies : gmap str str) (d : Data V) : V * Data V :=
  match account_email cookies with
  | None => (not_logged_in, d)
  | Some caller =>
    let email := text_field (body_of raw_body) "email" in
    if bool_decide (email = []) then (json_error 400 "an email is required", d)
    else
      let (outcome, d) := set_person_deleted now d c ir caller email in
      (match outcome with
       | Ok DeleteDone => json_respond 200 (sv_obj [("deleted" : str, sv_str (to_lowercase email))])
       | Ok DeleteCallerNotAdmin => json_error 403 "admins only"
       | Ok DeleteUnknownPerson => json_error 404 "no member with that email"
       | Ok NotDisabled => json_error 409 "disable this admin first"
       | Err e => update_failed e
       end, d)
  end.
Definition set_member_role_route (raw_body : str) (cookies : gmap str str) (d : Data V) : V * Data V :=
  match account_email cookies with
  | None => (not_logged_in, d)
  | Some caller =>
    let body := body_of raw_body in
    let (email, role) := (text_field body "email", text_field body "role") in
    if bool_decide (email = []) then (json_error 400 "an email is required", d)
    else if negb (grantable role) then (role_refused, d)
    else
      let (outcome, d) := set_person_role now d c ir caller email role in
      (match outcome with
       | Ok RoleDone => json_respond 200 (sv_obj [("email" : str, sv_str (to_lowercase email)); ("role" : str, sv_str role)])
       | Ok RoleCallerNotAdmin => json_error 403 "admins only"
       | Ok RoleUnknownPerson => json_error 404 "no member with that email"
       | Ok RoleLastOpenAdmin => json_error 409 NEEDS_OPEN_ADMIN
       | Ok RoleLastAdmin => json_error 409 "there must always be at least one admin"
       | Err e => update_failed e
       end, d)
  end.

(** [google_handoff_route]: the identifiers spent are the process's. *)
Definition google_handoff_route (raw_body : str) (spent : JtiStore) : V * JtiStore :=
  match (body ← sv_from_slice (utf8_encode raw_body); sv_get_str body "token") with
  | None => (json_error 401 "this sign-in handoff is invalid, expired or already used", spent)
  | Some token =>
    let (account, spent) := redeem_handoff_token (V:=V) secret token spent now in
    (match account with
     | Some account => json_respond 200 (sv_obj [("token" : str, sv_str account)])
     | None => json_error 401 "this sign-in handoff is invalid, expired or already used"
     end, spent)
  end.

(** [registration_list_rows], of the rows under the binding's prefix. *)
Definition plain (value : option V) : option V := v ← value; Some (default v (sv_get v "value")).
Definition plain_text (value : option V) : option str := v ← plain value; IpText.trim <$> sv_as_str v.
Definition person_name (attendee : V) : str :=
  let joined := join " " (omap id [plain_text (sv_get attendee "first_name"); plain_text (sv_get attendee "last_name")]) in
  if bool_decide (joined = []) then default [] (plain_text (sv_get attendee "name")) else joined.
Definition registration_row (timestamp_keys : list str) (entry : str * V) : option str * V :=
  let (id, registration) := entry in
  let attendee := default sv_object (sv_get registration "attendee") in
  let stamp := list.head (omap (λ key, plain_text (sv_get registration key)) timestamp_keys) in
  let row := sv_obj [("registration_id" : str, sv_str id); ("email" : str, sv_of_option (plain_text (sv_get attendee "email")));
    ("name" : str, sv_str (IpText.trim (person_name attendee)));
    ("event_slug" : str, sv_of_option (plain_text (sv_get registration "event_slug")));
    ("news_signup" : str, sv_bool (default false (v ← plain (sv_get attendee "news_signup"); sv_as_bool v)))] in
  (stamp, match plain_text (sv_get registration "status") with
          | Some status => sv_insert row "status" (sv_str status) | None => row end).
Definition stamp_compare (a b : option str) : comparison :=
  match a, b with
  | Some x, Some y => str_compare x y | Some _, None => Gt | None, Some _ => Lt | None, None => Eq
  end.
Definition registration_list_rows (prefix : str) (timestamp_keys : list str) (read : V) : list V :=
  let rows := map (registration_row timestamp_keys) (instances_for read prefix) in
  let stamped := existsb (λ r, match r.1 with Some _ => true | None => false end) rows in
  map snd (if stamped then sort_by (λ a b, stamp_compare b.1 a.1) rows else rows).
End routes.

(** ** The members' page, asked through the domain's own queries *)

Section page.
Context `{U : UnicodeTables} `{B : Base64Url} `{M : Hmac} {V : Type} `{SV : Serde V} `{ST : SerdeText V} `{SB : !Sandbox V}.
Context (account_cookie secret wasm_path : str) (c : LineageConfig) (installed : option V) (ir : V) (now : Z).

(** [answer_rows], [holds_admin] ([auth.rs]); [is_admin]. *)
Definition answer_rows (answer : V) : list V :=
  default [] (qs ← sv_get_array answer "queries"; q ← list.head qs; sv_get_array q "rows").
Definition holds_admin (rows : list V) : bool :=
  existsb (λ row, match valued_str row "role_name" with Some role => is_admin_role role | None => false end) rows.
Definition is_admin (identity : str) (d : Data V) : bool :=
  match authorization_provider ir with
  | Some p =>
    match live_assignments p with
    | Some question =>
      match query wasm_path installed question (sv_obj [("actor_id" : str, value_object (sv_str identity))]) now d with
      | Ok answer => holds_admin (answer_rows answer)
      | Err _ => false
      end
    | None => false
    end
  | None => false
  end.

(** [members_page_caller]. *)
Definition members_page_caller (cookies : gmap str str) (session : option Session) (d : Data V) : Prelude.result V unit :=
  let account := account_email (V:=V) account_cookie secret now cookies in
  if match session with Some s => is_admin (identity_id s) d | None => false end then Ok ()
  else if match account with
          | Some email => match caller_is_admin now d ir email with Ok b => b | Err _ => false end
          | None => false
          end then Ok ()
  else match session, account with
  | None, None => Err (redirect "/login")
  | _, _ => Err (html 403 "<p>Admins only.</p>")
  end.

(** [admin_members_route]. *)
Definition paragraph (s : str) : str := "<p>" ++ s ++ "</p>".
Definition form_days (form : gmap str str) : Prelude.result str (option Z) := expiry_days (V:=V) (sv_str <$> form !! ("expires_in_days" : str)).
Definition form_name (form : gmap str str) (email : str) : str :=
  let name := default [] (IpText.trim <$> form !! ("name" : str)) in
  if bool_decide (name = []) then first_piece email "@" else name.
Definition granted_page (outcome : Prelude.result MemberError GrantOutcome) : V :=
  match outcome with
  | Ok GrantDone => redirect "/admin/members"
  | Ok GrantUnknownPerson => html 404 "<p>No member with that email.</p>"
  | Ok GrantLastOpenAdmin => html 409 (paragraph (esc NEEDS_OPEN_ADMIN))
  | Err e => html 500 (paragraph (esc (member_error_text e)))
  end.
Definition grant_form (form : gmap str str) (d : Data V) : V * Data V :=
  let email := default [] (email_key <$> form !! ("email" : str)) in
  let role := default [] (form !! ("role" : str)) in
  if negb (grantable role) then (html 400 ("<p>Role must be one of " ++ join ", " GRANTABLE_ROLES ++ ".</p>"), d)
  else if negb (local_and_dotted email) then (html 400 "<p>Give a valid email.</p>", d)
  else match form_days form with
  | Err message => (html 400 (paragraph (esc message)), d)
  | Ok days =>
    match admit_person d c ir email (form_name form email) with
    | (Err e, d) => (html 500 (paragraph (esc (member_error_text e))), d)
    | (Ok _, d) =>
      let (outcome, d) := grant_access_until now d c ir email role (until_of now days) in (granted_page outcome, d)
    end
  end.
Definition admin_members_route (method raw_body : str) (cookies : gmap str str) (session : option Session) (d : Data V) : V * Data V :=
  match members_page_caller cookies session d with
  | Err response => (response, d)
  | Ok _ =>
    if str_eqb method "GET" then
      (html 200 (admin_members_page (match all_people now d ir with Ok people => people | Err _ => [] end)), d)
    else grant_form (parse_form raw_body) d
  end.
End page.
