(* ===== verification/WebRoutes.v ===== *)
(** The routes of the web layer ([src/rust/host/src/web.rs]): the gate, the sign-in and
    account routes, the pages of an aggregate, the form of a command and what becomes of
    it.

    A request is answered over a [Site]: the host's state and the identifiers of handoff
    tokens spent in the process.  The site's extensions ([extension.rs]'s trait) and the
    [/api/] routes are classes; the environment, the randomness of a fresh sign-in and
    the moments of the clock are arguments; the text of a pretty-printed value is the
    library's.  What is written to the standard error is left out. *)
From stdpp Require Import gmap.
From S2P Require Import RateLimit HostDispatch SigninFlow.
From S2P Require Export MemberRoutes.
From S2P Require Import Verifier WebText WebPages Tokens GoogleSignin MemberRoutes.

Open Scope Z_scope.

Record Request := { method : str; path : str; asked : gmap str str; raw_body : str; cookies : gmap str str }.
Record Site (V I : Type) := { host : HostState V I; spent : JtiStore }.
Arguments host {V I}. Arguments spent {V I}. Arguments Build_Site {V I}.

(** [HostExtension]: what answers before the gate, and after the host's own sign-in routes. *)
Class HostExtension (V I : Type) := {
  guest_route : Request → Site V I → option V * Site V I;
  account_route : Request → Site V I → option V * Site V I
}.
(** [api::route] ([Api.v]): nothing where a field of the interface does not end. *)
Class ApiRoutes (V I : Type) := api_route : Request → option Session → Site V I → option (V * Site V I).
Class SerdePretty (V : Type) := sv_pretty : V → str.
(** [b64::standard_decode]. *)
Class StandardBase64 := standard_decode : str → option (list N).

(** [UNGATED_PATHS], [json_shaped]. *)
Definition UNGATED_PATHS : list str := ["/login"; "/logout"; "/auth/google"; "/auth/google/callback"].
Definition segments_of (path : str) : list str := List.filter (λ s, negb (bool_decide (s = []))) (split path "/").
Definition json_shaped (path : str) : bool :=
  starts_with path "/api/" ||
  let segments := segments_of path in
  match list.last segments with
  | Some l => (2 <=? length segments)%nat && negb (str_eqb (split_format l).2 "html")
  | None => false
  end.
(** [session_secret], [validate_session_secret]: the message of the panic. *)
Definition SECRET_REQUIRED : str :=
  "SESSION_SECRET is required and must not be empty -- refusing to sign/verify session cookies and OAuth state with a publicly-known empty-string HMAC key".
Definition validate_session_secret (secret : str) : Prelude.result str unit := if bool_decide (secret = []) then Err SECRET_REQUIRED else Ok ().
(** [caller] ([auth.rs]). *)
Definition caller (session : option Session) : Caller :=
  match session with
  | Some s => {| role := session_role s; actor_id := if bool_decide (identity_id s = []) then None else Some (identity_id s) |}
  | None => no_caller
  end.

(** [trim_end_matches('/')]. *)
Fixpoint drop_slashes (s : str) : str := match s with c :: s' => if (c =? 47)%N then drop_slashes s' else s | [] => [] end.
Definition trim_end_slashes (s : str) : str := rev (drop_slashes (rev s)).

(** Where cookies and redirects lead: [cookie_flags], [secure_cookies], [site_url]. *)
Definition DEFAULT_SITE_URL : str := "http://localhost:4321".
Section environment.
Context (redirect_env site_env : option str).
Definition redirect_uri : str := default [] redirect_env.
Definition cookie_flags : str := account_cookie_flags redirect_uri (default [] site_env).
Definition secure_cookies : bool := str_eqb cookie_flags COOKIE_FLAGS_SECURE.
Definition site_url : str := default DEFAULT_SITE_URL site_env.
End environment.

Section gate.
Context {V : Type} `{SV : Serde V}.
(** [auth_gate]. *)
Definition auth_gate (path : str) (authenticated : bool) : option V :=
  if authenticated || existsb (str_eqb path) UNGATED_PATHS then None
  else Some (if json_shaped path
             then json_respond 401 (sv_obj [("error" : str, sv_str "Unauthenticated"); ("message" : str, sv_str "sign in first")])
             else redirect "/login").
End gate.

Section routes.
Context `{U : UnicodeTables} `{B : Base64Url} `{M : Hmac} {V I K : Type} `{SV : Serde V} `{ST : SerdeText V} `{SP : SerdePretty V}
  `{SF : SerdeFloat V} `{SB : !Sandbox V} `{Inv : !Invoker V I} `{JW : !JsonWebTokens V K} `{GH : !GoogleHttp V}
  `{HE : !HostExtension V I} `{AR : !ApiRoutes V I}.
Context (email_hint url_hint tel_hint textarea_hint : str → bool) (levels : nat).
Context (wasm_path : str) (c : LineageConfig) (installed : option V) (ir_depth : nat) (fault : option HostStore.Fault) (mode : Enforcement).
Context (account_cookie secret : str) (redirect_env site_env client_id client_secret : option str).
Context (ir : V) (schemas : option V) (clock : nat → Moment) (fresh_id fresh_jti : str) (signin : GoogleSignin).

Definition now : Z := clock_secs (clock 0).
Definition domain_name : str := name_of ir [].
Definition with_host (s : Site V I) (h : HostState V I) : Site V I := {| host := h; spent := spent s |}.
Definition with_data (s : Site V I) (d : Data V) : Site V I := with_host s (with_store (host s) d).
Definition data (s : Site V I) : Data V := store (host s).
(** A route that changes the data alone. *)
Definition over_data (r : V * Data V) (s : Site V I) : V * Site V I := (r.1, with_data s r.2).

(** ** Signing in and out *)

(** [logout_response], [google_start]. *)
Definition clearing (name : str) : str := name ++ "=; Max-Age=0" ++ cookie_flags redirect_env site_env.
Definition logout_response : V := with_cookie (redirect_with_cookie "/login" (clearing "session")) (clearing account_cookie).
Definition google_start : V :=
  match authorization_url client_id (redirect_uri redirect_env) signin with
  | Ok url => redirect_with_cookie url (set_header signin (secure_cookies redirect_env site_env))
  | Err e => respond 500 "text/plain" ("Google sign-in isn't configured: " ++ e)
  end.

(** [google_callback]: who the identity is, the session it has or is given, and where
    the browser is sent. *)
Definition google_failed : V := redirect "/login?error=google_failed".
Definition google_member (claims : Claims) (instances : V) (s : Site V I) : option Session * Site V I :=
  let found := match resolve_identity_from_head (data s) ir (issuer claims) (subject claims) with
    | Some i => Some i | None => resolve_identity instances (issuer claims) (subject claims) end in
  let known := i ← found; match session_for_member_by_identity now (data s) ir i with Ok m => m | Err _ => None end in
  match known with
  | Some m => (Some m, s)
  | None =>
    if email_verified claims then
      let (given, h) := provision wasm_path c installed ir_depth fault mode ir clock fresh_id
        (default [] (claimed_email claims)) (issuer claims) (subject claims) (host s) in
      (match given with Ok m => m | Err _ => None end, with_host s h)
    else (None, s)
  end.
Definition google_landing (session : Session) : V :=
  let site := trim_end_slashes (site_url site_env) in
  if same_origin site (redirect_uri redirect_env) then
    redirect_with_cookie "/admin.html" (account_cookie ++ "=" ++ account_token (V:=V) secret (session_email session) SESSION_TTL_SECS now
      ++ cookie_flags redirect_env site_env ++ "; Max-Age=" ++ dec_Z SESSION_TTL_SECS)
  else redirect (site ++ "/api/google-handoff?token=" ++ urlencode (handoff_token (V:=V) secret (session_email session) fresh_jti now)).
Definition google_callback (query : gmap str str) (nonce : str) (s : Site V I) : V * Site V I :=
  match query !! ("code" : str) with
  | None => (google_failed, s)
  | Some code =>
    match verify client_id client_secret code (redirect_uri redirect_env) nonce with
    | Err _ => (google_failed, s)
    | Ok claims =>
      match HostDispatch.read wasm_path (data s) with
      | Err _ => (google_failed, s)
      | Ok state =>
        let (session, s) := google_member claims (default sv_object (sv_get state "instances")) s in
        (match session with Some m => google_landing m | None => redirect "/login?error=google_unlinked" end, s)
      end
    end
  end.
Definition google_callback_route (r : Request) (s : Site V I) : V * Site V I :=
  let secure := secure_cookies redirect_env site_env in
  let (response, s) := match google_signin_for (asked r) (cookies r) secure with
    | Some signin => google_callback (asked r) (google_nonce signin) s
    | None => (google_failed, s) end in
  (with_cookie response (clear_header secure), s).

(** [signup_route]. *)
Definition signup_args (email name : str) : V :=
  sv_obj [("email" : str, value_object (sv_str email)); ("name" : str, value_object (sv_str name))].
Definition signup_route (raw : str) (s : Site V I) : V * Site V I :=
  let body := body_of (V:=V) raw in
  match verify_purpose_token (V:=V) secret SIGNUP_PURPOSE (text_field body "token") now with
  | None => (json_error 401 "not authorized", s)
  | Some _ =>
    let (email, name) := (to_lowercase (text_field body "email"), text_field body "name") in
    if bool_decide (name = []) || negb (looks_like_email email) then (json_error 400 "a name and a valid email are required", s)
    else
      let (outcome, h) := handle wasm_path c installed ir_depth fault mode "Signups::Signup.SignUp" (signup_args email name)
        (Some ("System" : str)) (clock 0) (clock 1) (host s) in
      (match outcome with
       | Err e => json_error 500 e
       | Ok o =>
         if accepted o then json_respond 201 (sv_obj [("email" : str, sv_str email); ("name" : str, sv_str name)])
         else json_respond 422 (last_refusal (result_of o))
       end, with_host s h)
  end.

(** [auth_route]: an extension's answer, the route of one of the sign-in and account
    paths, or nothing. *)
Definition own_route (session : option Session) (r : Request) (s : Site V I) : option (V * Site V I) :=
  let on m p := str_eqb (method r) m && str_eqb (path r) p in
  let disabled disable := over_data (set_member_disabled_route account_cookie secret c ir now (raw_body r) (cookies r) disable (data s)) s in
  if on "GET" "/login" then Some (html 200 (login_page (asked r !! ("error" : str))), s)
  else if on "POST" "/logout" then Some (logout_response, s)
  else if on "POST" "/accounts/logout" then
    Some (respond_with_cookie 200 "application/json" (markup "{'ok':true}") (clearing account_cookie), s)
  else if on "GET" "/accounts/me" then Some (accounts_me_route account_cookie secret ir now (cookies r) (data s), s)
  else if on "POST" "/accounts/google-handoff" then
    let (response, spent) := google_handoff_route (V:=V) secret now (raw_body r) (spent s) in
    Some (response, {| host := host s; spent := spent |})
  else if on "GET" "/members" then Some (members_route account_cookie secret ir now (cookies r) (data s), s)
  else if on "POST" "/members" then Some (over_data (add_member_route account_cookie secret c ir now (raw_body r) (cookies r) (data s)) s)
  else if on "POST" "/signups" then Some (signup_route (raw_body r) s)
  else if on "POST" "/members/disable" then Some (disabled true)
  else if on "POST" "/members/enable" then Some (disabled false)
  else if on "POST" "/members/role" then Some (over_data (set_member_role_route account_cookie secret c ir now (raw_body r) (cookies r) (data s)) s)
  else if on "POST" "/members/delete" then Some (over_data (set_member_deleted_route account_cookie secret c ir now (raw_body r) (cookies r) (data s)) s)
  else if on "GET" "/accounts/sso-token" then Some (accounts_sso_token_route account_cookie secret ir now (cookies r) (data s), s)
  else if on "GET" "/auth/google" then Some (google_start, s)
  else if on "GET" "/auth/google/callback" then Some (google_callback_route r s)
  else if on "GET" "/admin/members" || on "POST" "/admin/members" then
    Some (over_data (admin_members_route account_cookie secret wasm_path c installed ir now (method r) (raw_body r) (cookies r) session (data s)) s)
  else None.
Definition auth_route (session : option Session) (r : Request) (s : Site V I) : option V * Site V I :=
  match account_route r s with
  | (Some response, s) => (Some response, s)
  | (None, s) => match own_route session r s with Some (response, s) => (Some response, s) | None => (None, s) end
  end.

(** ** The domain's pages *)

Definition no_route (message : str) : V := respond 404 "text/plain" message.
Definition fields_of (aggregate command : V) : option (list Forms.Field) :=
  Forms.command_fields email_hint url_hint tel_hint textarea_hint ir aggregate levels command.
Definition verb_of (aggregate command : V) : str := domain_name ++ "::" ++ agg_name aggregate ++ "." ++ name_of command [].

(** [aggregate_index], [record_show]. *)
Definition aggregate_index (aggregate : V) (format : str) (s : Site V I) : V :=
  match HostDispatch.read wasm_path (data s) with
  | Err e => respond 500 "text/plain" e
  | Ok result =>
    let records := instances_for result (record_prefix domain_name (agg_name aggregate)) in
    if str_eqb format "html" then index_page domain_name aggregate records
    else respond 200 "application/json" (sv_pretty (sv_array (map (λ r, with_id r.1 r.2) records)))
  end.
Definition record_show (aggregate : V) (id format : str) (s : Site V I) : V :=
  match HostDispatch.read wasm_path (data s) with
  | Err e => respond 500 "text/plain" e
  | Ok result =>
    match find (λ r, str_eqb r.1 id) (instances_for result (record_prefix domain_name (agg_name aggregate))) with
    | None => no_record aggregate id format
    | Some (_, state) =>
      if str_eqb format "html" then record_page domain_name aggregate id state
      else respond 200 "application/json" (sv_pretty (with_id id state))
    end
  end.

(** [submit]: 400 for a form whose paths cross, the kernel's answer otherwise. *)
Definition command_action (aggregate command : V) : str :=
  "/" ++ domain_name ++ "/" ++ agg_name aggregate ++ "/" ++ name_of command [] ++ ".html".
Definition submitted (aggregate command : V) (fields : list Forms.Field) (raw : gmap str str) (json_mode : bool) (outcome : Outcome V) : V :=
  if accepted outcome then
    if json_mode then json_respond 201 (result_of outcome)
    else redirect ("/" ++ domain_name ++ "/" ++ agg_name aggregate ++ "/" ++ default [] (own_command_target_id (result_of outcome)) ++ ".html")
  else
    let refusal := last_refusal (result_of outcome) in
    if json_mode then json_respond 422 refusal
    else html 422 (page (verb_of aggregate command)
           (form_body domain_name aggregate command (command_action aggregate command) fields raw (Some refusal))).
Definition submit (aggregate command : V) (fields : list Forms.Field) (raw : gmap str str) (json_mode : bool) (asker : Caller) (s : Site V I) :
    V * Site V I :=
  match extract_args fields raw with
  | Err e => (bad_request domain_name aggregate command fields raw json_mode e, s)
  | Ok args =>
    let (outcome, h) := handle_request wasm_path c installed ir_depth fault mode (verb_of aggregate command) args asker (clock 0) (clock 1) (host s) in
    (match outcome with
     | Err e => respond 500 "text/plain" e
     | Ok outcome => submitted aggregate command fields raw json_mode outcome
     end, with_host s h)
  end.
(** [Preview], [preview_submission]. *)
Definition preview_submission (aggregate command : V) (fields : list Forms.Field) (raw : gmap str str) (asker : Caller) (s : Site V I) :
    V * Site V I :=
  match extract_args fields raw with
  | Err e => (bad_request domain_name aggregate command fields raw true e, s)
  | Ok args =>
    let (outcome, h) := preview_request wasm_path c installed ir_depth fault mode (verb_of aggregate command) args asker (clock 0) (clock 1) (host s) in
    (match outcome with
     | Err e => respond 500 "text/plain" e
     | Ok outcome => json_respond 200 (preview_answer (result_of outcome))
     end, with_host s h)
  end.

(** [command_route], for a command whose fields are resolved. *)
Definition command_schema (aggregate command : str) : option V := all ← schemas; sv_get all (aggregate ++ "/" ++ command).
Definition command_json (aggregate command : V) (r : Request) : V :=
  if bool_decide (asked r !! ("schema" : str) = Some ("1" : str)) then
    match command_schema (agg_name aggregate) (name_of command []) with
    | Some schema => json_respond 200 schema
    | None => no_route ("no schema for " ++ name_of command [])
    end
  else json_respond 200 command.
Definition command_route (aggregate command : V) (action format : str) (r : Request) (asker : Caller) (s : Site V I) : option (V * Site V I) :=
  fields ← fields_of aggregate command;
  Some (
    if str_eqb format "html" then
      if str_eqb (method r) "GET" then
        (html 200 (page (verb_of aggregate command) (form_body domain_name aggregate command action fields (asked r) None)), s)
      else submit aggregate command fields (parse_form (raw_body r)) false asker s
    else if str_eqb (method r) "GET" then (command_json aggregate command r, s)
    else if requested (asked r !! ("dry_run" : str)) then preview_submission aggregate command fields (parse_form (raw_body r)) asker s
    else submit aggregate command fields (parse_form (raw_body r)) true asker s).

(** The rest of [route], past the gate: nothing where a command's fields do not end. *)
Definition aggregate_routes (aggregate : V) (third : option str) (format : str) (r : Request) (session : option Session) (s : Site V I) :
    option (V * Site V I) :=
  match third with
  | None => Some (aggregate_index aggregate format s, s)
  | Some segment =>
    let (verb_or_id, format) := split_format segment in
    match find_command aggregate verb_or_id with
    | Some command =>
      command_route aggregate command ("/" ++ domain_name ++ "/" ++ agg_name aggregate ++ "/" ++ verb_or_id ++ ".html") format r (caller session) s
    | None => Some (record_show aggregate verb_or_id format s, s)
    end
  end.
Definition domain_routes (r : Request) (session : option Session) (s : Site V I) : option (V * Site V I) :=
  match segments_of (path r) with
  | [] => Some (html 200 (page "Loaded domains" (home_body ir)), s)
  | first :: rest =>
    if negb (str_eqb first domain_name) then Some (no_route ("no domain " ++ debug_str first ++ " loaded"), s)
    else match rest with
    | [] => Some (no_route "no route", s)
    | segment :: more =>
      let (name, format) := split_format segment in
      match find_aggregate ir name with
      | None => Some (no_route (domain_name ++ " has no aggregate " ++ debug_str name), s)
      | Some aggregate =>
        match more with
        | [] => aggregate_routes aggregate None format r session s
        | [third] => aggregate_routes aggregate (Some third) format r session s
        | _ => Some (no_route ("no route for " ++ path r), s)
        end
      end
    end
  end.

(** [route]. *)
Definition session_of_cookies (cookies : gmap str str) : option Session :=
  cookie ← cookies !! ("session" : str); parse_session_cookie (V:=V) secret cookie now.
Definition route (r : Request) (s : Site V I) : option (V * Site V I) :=
  let session := session_of_cookies (cookies r) in
  match auth_route session r s with
  | (Some response, s) => Some (response, s)
  | (None, s) =>
    match auth_gate (path r) (match session with Some _ => true | None => false end) with
    | Some refusal => Some (refusal, s)
    | None => if starts_with (path r) "/api/" then api_route r session s else domain_routes r session s
    end
  end.
End routes.

(** ** An event *)

(** What becomes of an event: no HTTP request, a refusal to run without a secret, a form
    whose fields do not end, or a response. *)
Inductive Rendered (V I : Type) := NotHttp | Panics (message : str) | Endless | Answered (response : V) (site : Site V I).
Arguments NotHttp {V I}. Arguments Panics {V I}. Arguments Endless {V I}. Arguments Answered {V I}.

Section events.
Context `{U : UnicodeTables} `{B : Base64Url} `{SB64 : StandardBase64} `{M : Hmac} {V I K : Type} `{SV : Serde V} `{ST : SerdeText V}
  `{SP : SerdePretty V} `{SF : SerdeFloat V} `{SB : !Sandbox V} `{Inv : !Invoker V I} `{JW : !JsonWebTokens V K} `{GH : !GoogleHttp V}
  `{HE : !HostExtension V I} `{AR : !ApiRoutes V I}.
Context (email_hint url_hint tel_hint textarea_hint : str → bool) (levels : nat).
Context (wasm_path : str) (c : LineageConfig) (installed : option V) (ir_depth : nat) (fault : option HostStore.Fault) (mode : Enforcement).
Context (account_cookie : str) (redirect_env site_env client_id client_secret : option str).
Context (schemas : option V) (clock : nat → Moment) (fresh_id fresh_jti : str) (signin : GoogleSignin).

(** [base64_decode] of [web.rs]; the request an event is of. *)
Definition is_ascii_whitespace (ch : char) : bool := ((ch =? 32) || (ch =? 9) || (ch =? 10) || (ch =? 12) || (ch =? 13))%N.
Definition base64_decode (input : str) : list N := default [] (standard_decode (List.filter (λ ch, negb (is_ascii_whitespace ch)) input)).
Definition body_text (event : V) : str :=
  let raw := default [] (sv_get_str event "body") in
  if bool_decide ((sv_get event "isBase64Encoded" ≫= sv_as_bool) = Some true) then default [] (utf8_decode (base64_decode raw)) else raw.
Definition request_of (event : V) : option Request :=
  http ← (context ← sv_get event "requestContext"; sv_get context "http");
  Some {| method := default ("GET" : str) (sv_get_str http "method"); path := default ("/" : str) (sv_get_str event "rawPath");
          asked := parse_query (default [] (sv_get_str event "rawQueryString")); raw_body := body_text event;
          cookies := extract_cookies event |}.

(** [render]: the extensions first, and then the routes of an installed domain. *)
Definition no_web_layer : str := "HECKS_IR_PATH not set or unreadable — this domain has no web layer configured".
Definition render (secret_env : option str) (event : V) (s : Site V I) : Rendered V I :=
  match request_of event with
  | None => NotHttp
  | Some r =>
    match guest_route r s with
    | (Some response, s) => Answered response s
    | (None, s) =>
      match installed with
      | None => Answered (respond 500 "text/plain" no_web_layer) s
      | Some ir =>
        let secret := default [] secret_env in
        match validate_session_secret secret with
        | Err message => Panics message
        | Ok _ =>
          match route email_hint url_hint tel_hint textarea_hint levels wasm_path c installed ir_depth fault mode account_cookie secret
                  redirect_env site_env client_id client_secret ir schemas clock fresh_id fresh_jti signin r s with
          | Some (response, s) => Answered response s
          | None => Endless
          end
        end
      end
    end
  end.
End events.
