(* ===== verification/UiSchema.v ===== *)
(** The console's derived interface ([src/rust/host/core/src/ui_schema.rs]): from a
    domain's IR and the console's configuration, the document of [GET /api/ui-schema] -
    navigation, columns, the shape of every field, the transitions of every state, the
    forms that create - and the smaller one of [GET /api/schema].

    A field's shape is built from the shapes of the attributes of its value object or
    entity, with no bound in the code: [field] takes the levels it may descend and
    answers nothing where they run out, which for a type that contains itself is every
    number of levels.  [HashMap]s are finite maps.  The facts say which levels are
    enough, and that what the document offers is what the domain declares. *)
From stdpp Require Import gmap.
From S2P Require Export Serde Naming.

(** [char::to_uppercase] beyond ASCII; [Value::is_number] and [Value::as_f64]. *)
Class UnicodeUpper := to_upper : char → str.
Class SerdeNumbers (V : Type) := { sv_is_number : V → bool; sv_as_f64 : V → option f64 }.

#[global] Instance json_numbers : SerdeNumbers Json.Json := {|
  sv_is_number v := match v with Json.JNum _ _ | Json.JFloat _ => true | _ => false end; sv_as_f64 := Json.as_f64 |}.

(** [PRIMITIVES], [DISPLAY_BY_SHAPE], [UNCOLUMNABLE]. *)
Definition PRIMITIVES : list str := ["String"; "Integer"; "Float"; "TrueClass"; "FalseClass"].
Definition DISPLAY_BY_SHAPE : list (str * str) :=
  [("text" : str, "prose" : str); ("lines" : str, "bullet" : str); ("rows" : str, "rows" : str); ("compound" : str, "mono" : str)].
Definition UNCOLUMNABLE : list str := ["rows"; "lines"; "compound"].

(** [numeric]; [reference_target]. *)
Definition numeric (ty : str) : bool := str_eqb ty "Integer" || str_eqb ty "Float".
Definition reference_target (ty : str) : option str := rest ← strip_prefix ty "Reference<"; strip_suffix rest ">".

Section words.
Context `{U : UnicodeTables} `{UU : UnicodeUpper}.
(** [humanize_words], [humanize]. *)
Definition is_lower_ascii (c : char) : bool := ((97 <=? c) && (c <=? 122))%N.
Definition uppercase (c : char) : str :=
  if (c <? 128)%N then [if is_lower_ascii c then (c - 32)%N else c] else to_upper c.
Definition capitalized (word : str) : str := match word with c :: rest => uppercase c ++ rest | [] => [] end.
Fixpoint drop_empty (words : list str) : list str := match words with [] :: rest => drop_empty rest | _ => words end.
Definition humanize_words (text : str) : str :=
  join " " (map capitalized (rev (drop_empty (rev (split (snake text) "_"))))).
Definition humanize (key : str) : str := humanize_words (default key (strip_suffix key "_id")).
End words.

Section reading.
Context {V : Type} `{SV : Serde V}.

(** [agg_name], [attr_name], [type_of]; [array]; [commands], [creates]. *)
Definition named (v : V) : str := default [] (sv_get_str v "name").
Definition agg_name (aggregate : V) : str := named aggregate.
Definition attr_name (attribute : V) : str := named attribute.
Definition type_of (attribute : V) : str := default [] (sv_get_str attribute "type").
Definition array (value : V) (key : str) : list V := sv_list value key.
Definition commands (aggregate : V) : list V := array aggregate "commands".
Definition creates (command : V) : bool := match sv_get command "references" with Some r => sv_is_null r | None => true end.

(** What is there and not null. *)
Definition given (v : V) (key : str) : option V := x ← sv_get v key; if sv_is_null x then None else Some x.
Definition lifecycle (aggregate : V) : option V := given aggregate "lifecycle".
Definition find_attribute (aggregate : V) (name : str) : option V :=
  find (λ a, str_eqb (attr_name a) name) (array aggregate "attributes").
Definition says_str (v : V) (key text : str) : bool := bool_decide (sv_get_str v key = Some text).
Definition find_value_object (aggregate : V) (name : str) : option V :=
  find (λ v, says_str v "name" name) (array aggregate "value_objects").
Definition find_entity (aggregate : V) (name : str) : option V :=
  find (λ e, says_str e "name" name) (array aggregate "entities").
Definition find_field (fields : list V) (key : str) : option V := find (λ f, says_str f "key" key) fields.
Definition is_reference (attribute : V) : bool := bool_decide (is_Some (reference_target (type_of attribute))).
Definition is_list (attribute : V) : bool := default false (sv_get attribute "list" ≫= sv_as_bool).
Definition identity_heads (aggregate : V) : list str :=
  map (λ p, default p (list.head (split p "."))) (omap sv_as_str (array aggregate "identified_by")).
Definition money_shaped (value_object : V) : bool :=
  bool_decide (sort_by str_compare (map attr_name (array value_object "attributes")) = ["cents" : str; "currency" : str]).
Definition sole_attribute (value_object : V) : option V :=
  match array value_object "attributes" with [sole] => Some sole | _ => None end.

(** [dig], [truthy], [optional], [string_or], [merge]. *)
Fixpoint dig_path (node : V) (path : list str) : option V :=
  match path with [] => Some node | segment :: rest => next ← sv_get node segment; dig_path next rest end.
Definition dig (config : V) (path : list str) : option V :=
  node ← dig_path config path; if sv_is_null node then None else Some node.
Definition truthy (value : option V) : bool :=
  match value with
  | None => false
  | Some v => negb (sv_is_null v) && default true (sv_as_bool v)
  end.
Definition or_null (o : option V) : V := default sv_null o.
Definition optional (config : V) (key : str) : V := or_null (sv_get config key).
Definition string_or (config : V) (key fallback : str) : str := default fallback (sv_get_str config key).
Definition insert_all (v : V) (fields : list (str * V)) : V := fold_left (λ v kv, sv_insert v kv.1 kv.2) fields v.
Definition merge (base extra : V) : V := insert_all (if sv_is_object base then base else sv_object) (sv_entries extra).

(** [aggregates]; [lifecycle_states]. *)
Definition aggregates (domain_ir : V) : list V := sv_list domain_ir "aggregates".
Definition add_state (states : list str) (target : str) : list str :=
  if existsb (str_eqb target) states then states else states ++ [target].
Definition lifecycle_states (aggregate : V) : list str :=
  match lifecycle aggregate with
  | None => []
  | Some l =>
    fold_left add_state (omap (λ t, sv_get_str t "to_state") (array l "transitions"))
      (match sv_get_str l "default" with Some d => [d] | None => [] end)
  end.
End reading.

Section schema.
Context `{U : UnicodeTables} `{UU : UnicodeUpper} {V : Type} `{SV : Serde V} `{SN : SerdeNumbers V}.

(** ** Keys *)

(** [collection_key], [key_for]; [with_shared_value_objects]. *)
Definition collection_key (aggregate config : V) : str :=
  default (plural (snake (agg_name aggregate))) (dig config ["collections" : str; agg_name aggregate; "key" : str] ≫= sv_as_str).
Definition key_for (aggs : list V) (config : V) : gmap str str :=
  fold_left (λ m a, <[agg_name a := collection_key a config]> m) aggs ∅.
Definition by_names (aggs : list V) : gmap str V := fold_left (λ m a, <[agg_name a := a]> m) aggs ∅.
Definition with_shared_value_objects (aggregate : V) (aggs : list V) : V :=
  let shared := flat_map (λ other, array other "value_objects")
                  (List.filter (λ other, negb (str_eqb (agg_name other) (agg_name aggregate))) aggs) in
  match shared with
  | [] => aggregate
  | _ => if sv_is_object aggregate
         then sv_insert aggregate "value_objects" (sv_array (array aggregate "value_objects" ++ shared)) else aggregate
  end.

(** ** Fields *)

(** [primitive_shape], [single_attr_shape]; [enum_shape]. *)
Definition with_format (shape : V) (format : option V) : V :=
  match format with Some f => sv_insert shape "format" f | None => shape end.
Definition primitive_shape (ty : str) (format : option V) : V :=
  with_format (sv_obj [("shape" : str, sv_str (if numeric ty then "number" else "text_value"))]) format.
Definition single_attr_shape (attribute : V) (format : option V) : V :=
  let name := attr_name attribute in
  let shape : str := if numeric (type_of attribute) then "number"
                     else if str_eqb name "text" then "text" else if str_eqb name "address" then "address" else "text_value" in
  with_format (sv_obj [("shape" : str, sv_str shape); ("field" : str, sv_str name)]) format.
Definition pair_value (discriminant : str) (pair : V) : option V :=
  items ← sv_as_array pair; first ← list.head items; key ← sv_as_str first;
  if str_eqb key discriminant then items !! 1%nat else None.
Definition enum_shape (value_object : V) : V :=
  let discriminant := match array value_object "attributes" with a :: _ => attr_name a | [] => "value" end in
  let options := omap (λ member, pairs ← sv_as_array member; list.head (omap (pair_value discriminant) pairs)) (array value_object "members") in
  sv_obj [("shape" : str, sv_str "enum"); ("field" : str, sv_str discriminant); ("options" : str, sv_array options)].

(** [row_columns], [list_shape], [scalar_vo_shape], over the shapes of the attributes within. *)
Definition money_column : V :=
  sv_obj [("key" : str, sv_str "cents"); ("label" : str, sv_str "Amount ($)"); ("shape" : str, sv_str "money")].
Definition row_columns (inner : V → option V) (shape : V) : option V :=
  let attributes := array shape "attributes" in
  let names := map attr_name attributes in
  sv_array <$>
    (if existsb (str_eqb "cents") names && existsb (str_eqb "currency") names
     then mapM (λ a, if str_eqb (attr_name a) "cents" then Some money_column else inner a)
            (List.filter (λ a, negb (str_eqb (attr_name a) "currency")) attributes)
     else mapM inner attributes).
Definition rows_shape (columns : V) : V := sv_obj [("shape" : str, sv_str "rows"); ("columns" : str, columns)].
Definition list_shape (inner : V → option V) (value_object : V) : option V :=
  match sole_attribute value_object with
  | Some sole => Some (sv_obj [("shape" : str, sv_str "lines"); ("field" : str, sv_str (attr_name sole))])
  | None => rows_shape <$> row_columns inner value_object
  end.
Definition scalar_vo_shape (inner : V → option V) (value_object : V) (format : option V) : option V :=
  if money_shaped value_object then Some (sv_obj [("shape" : str, sv_str "money")])
  else match sole_attribute value_object with
  | Some sole => Some (single_attr_shape sole format)
  | None =>
    fields ← mapM inner (array value_object "attributes");
    Some (sv_obj [("shape" : str, sv_str "compound"); ("fields" : str, sv_array fields)])
  end.

(** [field]. *)
Section fields.
Context (aggregate : V) (keys : gmap str str) (formats : V).
Definition field_base (attribute : V) : V := sv_obj [
  ("key" : str, sv_str (attr_name attribute)); ("label" : str, sv_str (humanize (attr_name attribute)));
  ("optional" : str, sv_bool (default false (sv_get attribute "optional" ≫= sv_as_bool)))].
Definition text_value : V := sv_obj [("shape" : str, sv_str "text_value")].
Definition reference_shape (target : str) : V := sv_obj [
  ("shape" : str, sv_str "reference"); ("target" : str, sv_str target); ("targetKey" : str, sv_of_option (keys !! target))].
Definition value_object_shape (inner : V → option V) (value_object attribute : V) (format : option V) : option V :=
  if truthy (sv_get value_object "closed_set") then Some (enum_shape value_object)
  else if is_list attribute then list_shape inner value_object
  else scalar_vo_shape inner value_object format.
Fixpoint field (levels : nat) (attribute : V) : option V :=
  match levels with
  | O => None
  | S levels =>
    let name := attr_name attribute in
    let ty := type_of attribute in
    let format := given formats name in
    let shape :=
      if str_eqb name "id" && bool_decide (identity_heads aggregate = ["id" : str]) then Some text_value
      else match reference_target ty with
      | Some target => Some (reference_shape target)
      | None =>
        if existsb (str_eqb ty) PRIMITIVES then Some (primitive_shape ty format)
        else match find_value_object aggregate ty with
        | Some value_object => value_object_shape (field levels) value_object attribute format
        | None =>
          match (if is_list attribute then find_entity aggregate ty else None) with
          | Some entity => rows_shape <$> row_columns (field levels) entity
          | None => Some text_value
          end
        end
      end in
    merge (field_base attribute) <$> shape
  end.
End fields.

(** ** Columns and detail fields *)

(** [sort_config]; [column_for] with [hop_column]. *)
Definition sort_config (entry : V) : V :=
  if sv_is_object entry
  then sv_obj [("sortable" : str, default (sv_bool true) (given entry "sortable")); ("sortDefault" : str, default (sv_str "asc") (given entry "sort_default"))]
  else sv_obj [("sortable" : str, sv_bool true); ("sortDefault" : str, sv_str "asc")].
Definition shape_of (descriptor : V) : str := default [] (sv_get_str descriptor "shape").
Definition has_shape (shape : str) (descriptor : V) : bool := says_str descriptor "shape" shape.

Section columns.
Context (fields : list V) (aggregate : V) (by_name : gmap str V) (keys : gmap str str).
Definition hop_column (entry : V) : V :=
  let key := optional entry "field" in
  let key_name := default [] (sv_as_str key) in
  let hop := default [] (sv_get_str entry "hop") in
  let head := given entry "head" in
  match (f ← find_field fields key_name; if has_shape "reference" f then Some f else None) with
  | None =>
    sv_obj [("key" : str, key); ("label" : str, default (sv_str (humanize key_name)) head); ("shape" : str, sv_str "text_value")]
  | Some base_field =>
    let target := default [] (sv_get_str base_field "target") in
    match (agg ← by_name !! target; a ← find_attribute agg hop; if is_reference a then Some a else None) with
    | None => merge base_field (sv_obj [("label" : str, default (optional base_field "label") head)])
    | Some hop_attribute =>
      let hop_target := default [] (reference_target (type_of hop_attribute)) in
      sv_obj [("key" : str, key); ("shape" : str, sv_str "hop"); ("label" : str, default (sv_str (humanize hop)) head);
        ("through" : str, sv_str hop); ("targetKey" : str, optional base_field "targetKey");
        ("hopTargetKey" : str, sv_of_option (keys !! hop_target))]
    end
  end.
Definition state_column : V :=
  let field_name := default ("state" : str) (l ← lifecycle aggregate; sv_get_str l "field") in
  sv_obj [("key" : str, sv_str "__state__"); ("label" : str, sv_str (humanize_words field_name)); ("shape" : str, sv_str "pill")].
Definition plain_column (name : str) : V :=
  default (sv_obj [("key" : str, sv_str name); ("label" : str, sv_str (humanize name)); ("shape" : str, sv_str "text_value")])
    (find_field fields name).
Definition described_column (entry : V) : V :=
  let key := optional entry "field" in
  let key_name := default [] (sv_as_str key) in
  let base := default (sv_obj [("key" : str, key); ("label" : str, sv_str (humanize key_name))]) (find_field fields key_name) in
  let shape := default (optional base "shape") (given entry "as") in
  let label := default (optional base "label") (given entry "head") in
  merge base (sv_obj [("key" : str, key); ("shape" : str, shape); ("label" : str, label)]).
Definition column_for (entry : V) : V :=
  merge
    (match sv_as_str entry with
     | Some name => if str_eqb name "__state__" then state_column else plain_column name
     | None => if truthy (sv_get entry "hop") then hop_column entry else described_column entry
     end) (sort_config entry).

(** [build_columns]. *)
Definition configured_list (configured : option V) (otherwise : list V) : list V :=
  match configured with
  | Some list => if sv_is_null list then otherwise else default [] (sv_as_array list)
  | None => otherwise
  end.
Definition default_columns : list V :=
  map (λ f, optional f "key") (List.filter (λ f, negb (existsb (str_eqb (shape_of f)) UNCOLUMNABLE)) fields) ++
  match lifecycle aggregate with Some _ => [sv_str "__state__"] | None => [] end.
Definition build_columns (configured : option V) : V :=
  sv_array (map column_for (configured_list configured default_columns)).

(** [apply_row_columns_filter], [apply_row_state_filter]; [detail_field_for], [build_detail_fields]. *)
Definition apply_row_columns_filter (base entry : V) : V :=
  match sv_get_array entry "columns" with
  | None => base
  | Some wanted =>
    let existing := sv_list base "columns" in
    merge base (sv_obj [("columns" : str, sv_array (omap (λ want, name ← sv_as_str want; find_field existing name) wanted))])
  end.
Definition apply_row_state_filter (base entry : V) : V :=
  match given entry "state_filter" with
  | None => base
  | Some state_filter =>
    let key := match sv_get_str entry "field" with Some f => f | None => default [] (sv_as_str entry) end in
    match (attribute ← find_attribute aggregate key; entity ← find_entity aggregate (type_of attribute);
           l ← lifecycle entity; given l "field") with
    | None => base
    | Some field_name =>
      merge base (sv_obj [("stateFilter" : str, sv_obj [("field" : str, field_name); ("value" : str, state_filter)])])
    end
  end.
Definition detail_field_for (entry : V) : V :=
  let base := column_for entry in
  let base := if has_shape "rows" base then apply_row_state_filter (apply_row_columns_filter base entry) entry else base in
  let display := default (sv_str (default ("simple" : str) (assoc (shape_of base) DISPLAY_BY_SHAPE))) (given entry "display") in
  merge base (sv_obj [("display" : str, display)]).
Definition build_detail_fields (configured : option V) : V :=
  sv_array (map detail_field_for (configured_list configured (map (λ f, optional f "key") fields))).
End columns.

(** ** Commands *)

(** [command_inputs]; [build_transitions], [build_always_available]. *)
Section commands.
Context (levels : nat) (aggregate : V) (keys : gmap str str) (formats : V).
Definition input (attribute : V) : option V := field aggregate keys formats levels attribute.
Definition command_inputs (command : V) : option V := sv_array <$> mapM input (array command "attributes").
Definition moves_of (l : V) (name : str) : list V := List.filter (λ t, says_str t "command" name) (array l "transitions").
Definition leaves_from (state : str) (t : V) : bool :=
  match given t "from_state" with None => true | Some from => bool_decide (sv_as_str from = Some state) end.
Definition transition_entry (command hit : V) : option V :=
  inputs ← command_inputs command;
  Some (sv_obj [("command" : str, sv_str (snake (named command))); ("to" : str, optional hit "to_state");
                ("label" : str, sv_str (humanize_words (named command))); ("inputs" : str, inputs)]).
Definition open_move (l : V) (state : str) (command : V) : option (V * V) :=
  hit ← find (leaves_from state) (moves_of l (named command)); Some (command, hit).
Definition state_transitions (l : V) (others : list V) (state : str) : option (str * V) :=
  available ← mapM (λ move, transition_entry move.1 move.2) (omap (open_move l state) others);
  Some (state, sv_array available).
Definition build_transitions (others : list V) : option V :=
  match lifecycle aggregate with
  | None => Some sv_object
  | Some l => insert_all sv_object <$> mapM (state_transitions l others) (lifecycle_states aggregate)
  end.
Definition stateless (command : V) : bool :=
  match lifecycle aggregate with
  | None => true
  | Some l => negb (existsb (λ t, says_str t "command" (named command)) (array l "transitions"))
  end.
Definition always_entry (command : V) : option V :=
  inputs ← command_inputs command;
  Some (sv_obj [("command" : str, sv_str (snake (named command))); ("label" : str, sv_str (humanize_words (named command)));
                ("inputs" : str, inputs)]).
Definition build_always_available (others : list V) : option V :=
  sv_array <$> mapM always_entry (List.filter stateless others).

(** [field_with_precondition], [build_create]. *)
Definition field_with_precondition (preconditions : option V) (attribute : V) : option V :=
  descriptor ← input attribute;
  Some (
    if has_shape "reference" descriptor then
      let key := default [] (sv_get_str descriptor "key") in
      match (rules ← preconditions ≫= sv_as_array; rule ← find (λ r, says_str r "field" key) rules; given rule "state") with
      | Some state => merge descriptor (sv_obj [("filterState" : str, state)])
      | None => descriptor
      end
    else descriptor).
Definition build_create (command agg_cfg : V) (identity : option V) (noun_sing : str) : option V :=
  let identity_field := i ← identity; sv_get_str i "field" in
  fields ← mapM (field_with_precondition (sv_get agg_cfg "preconditions")) (array command "attributes");
  Some (sv_obj [("command" : str, sv_str (snake (named command)));
    ("label" : str, sv_str (string_or agg_cfg "create_label" ("Add " ++ noun_sing)));
    ("fields" : str, sv_array (match identity_field with
                               | None => fields
                               | Some name => List.filter (λ f, negb (says_str f "key" name)) fields
                               end))]).
End commands.

(** ** A collection *)

(** [state_facet], [status_attention]; [build_collection]. *)
Definition state_facet (state_cfg : V) (facet : str) : V :=
  insert_all sv_object (omap (λ '(state, entry), value ← given entry facet; Some (state, value)) (sv_entries state_cfg)).
Definition status_attention (state_cfg : V) : V :=
  sv_array (omap (λ '(state, entry), if truthy (sv_get entry "attention") then Some (sv_str state) else None) (sv_entries state_cfg)).
Definition section_cfg (config : V) (section name : str) : V := default sv_object (dig config [section; name]).
Definition spaced (s : str) : str := replace_all s "_" " ".
Definition build_collection (levels : nat) (aggregate config : V) (keys : gmap str str) (by_name : gmap str V) : option V :=
  let name := agg_name aggregate in
  let agg_cfg := section_cfg config "collections" name in
  let state_cfg := section_cfg config "states" name in
  let formats := optional agg_cfg "field_formats" in
  let identity := given agg_cfg "identity" in
  let creating := find creates (commands aggregate) in
  let others := List.filter (λ c, negb (creates c)) (commands aggregate) in
  let noun_sing := string_or agg_cfg "noun_sing" (spaced (snake name)) in
  fields ← mapM (field aggregate keys formats levels) (array aggregate "attributes");
  transitions ← build_transitions levels aggregate keys formats others;
  always ← build_always_available levels aggregate keys formats others;
  create ← match creating with
           | None => Some sv_null
           | Some command => build_create levels aggregate keys formats command agg_cfg identity noun_sing
           end;
  Some (sv_obj [
    ("aggregate" : str, sv_str name); ("label" : str, sv_str (string_or agg_cfg "label" (humanize_words name)));
    ("nounSing" : str, sv_str noun_sing); ("navGroup" : str, optional agg_cfg "nav_group");
    ("primaryField" : str, optional agg_cfg "primary_field"); ("listQuery" : str, optional agg_cfg "list_query");
    ("stateField" : str, or_null (l ← lifecycle aggregate; sv_get l "field"));
    ("statusLabels" : str, state_facet state_cfg "label"); ("statusTone" : str, state_facet state_cfg "tone");
    ("statusNotes" : str, state_facet state_cfg "note"); ("statusAttention" : str, status_attention state_cfg);
    ("fields" : str, sv_array fields);
    ("columns" : str, build_columns fields aggregate by_name keys (sv_get agg_cfg "columns"));
    ("detailFields" : str, build_detail_fields fields aggregate by_name keys (sv_get agg_cfg "detail_fields"));
    ("transitions" : str, transitions); ("alwaysAvailable" : str, always); ("create" : str, create)]).

(** ** Navigation and overview *)

(** [Group]; [build_nav]: the groups in the order of their first member, then by the
    lowest order given. *)
Record Group := { group_key : str; group_label : str; members : list str; rank : f64 * Z }.
Definition INFINITY : f64 := S754_infinity false.
Definition joined (g : Group) (key : str) (nav_order : option f64) (index : Z) : Group := {|
  group_key := group_key g; group_label := group_label g; members := members g ++ [key];
  rank := match nav_order with Some n => if f64_ltb n (rank g).1 then (n, index) else rank g | None => rank g end
|}.
Definition Groups : Type := list str * gmap str Group.
Definition enter_group (config : V) (keys : gmap str str) (groups : Groups) (entry : Z * V) : Groups :=
  let (index, aggregate) := entry in
  let (order, held) := groups in
  let name := agg_name aggregate in
  let agg_cfg := section_cfg config "collections" name in
  let nav_group := sv_get_str agg_cfg "nav_group" in
  let key := default [] (keys !! name) in
  let gkey := default key nav_group in
  let nav_order := sv_get agg_cfg "nav_order" ≫= sv_as_f64 in
  let fresh := {|
    group_key := gkey;
    group_label := match nav_group with Some g => humanize_words g | None => string_or agg_cfg "label" (humanize_words name) end;
    members := []; rank := (default INFINITY nav_order, index) |} in
  match held !! gkey with
  | None => (order ++ [gkey], <[gkey := joined fresh key nav_order index]> held)
  | Some g => (order, <[gkey := joined g key nav_order index]> held)
  end.
Definition rank_cmp (a b : f64 * Z) : option comparison :=
  match f64_cmp a.1 b.1 with Some Eq => Some (a.2 ?= b.2)%Z | o => o end.
Definition group_cmp (a b : Group) : comparison := default Eq (rank_cmp (rank a) (rank b)).
Definition grouped (aggs : list V) (config : V) (keys : gmap str str) : Groups :=
  fold_left (enter_group config keys) (zip (map Z.of_nat (seq 0 (length aggs))) aggs) ([], ∅).
Definition nav_entry (g : Group) : V := sv_obj [
  ("key" : str, sv_str (group_key g)); ("label" : str, sv_str (group_label g)); ("collections" : str, sv_array (map sv_str (members g)))].
Definition build_nav (aggs : list V) (config : V) (keys : gmap str str) : V :=
  let (order, held) := grouped aggs config keys in
  sv_array (map nav_entry (sort_by group_cmp (omap (λ k, held !! k) order))).

(** [build_overview], [overview_stat]. *)
Definition overview_stat (stat : V) : V := sv_obj [
  ("label" : str, optional stat "label"); ("collection" : str, optional stat "collection");
  ("where" : str, default sv_object (given stat "where")); ("as" : str, default (sv_str "count") (given stat "as"));
  ("field" : str, optional stat "field")].
Definition build_overview (config : V) : V :=
  let stats := default [] (dig config ["overview" : str; "stats" : str] ≫= sv_as_array) in
  sv_obj [("stats" : str, sv_array (map overview_stat stats))].

(** ** The two documents: [build], [schema] *)
Definition collection_entry (levels : nat) (aggs : list V) (config : V) (aggregate : V) : option (str * V) :=
  let keys := key_for aggs config in
  built ← build_collection levels (with_shared_value_objects aggregate aggs) config keys (by_names aggs);
  Some (default [] (keys !! agg_name aggregate), built).
Definition build (levels : nat) (domain_ir config : V) : option V :=
  let aggs := aggregates domain_ir in
  collections ← mapM (collection_entry levels aggs config) aggs;
  Some (sv_obj [("domain" : str, optional domain_ir "name"); ("collections" : str, insert_all sv_object collections);
                ("nav" : str, build_nav aggs config (key_for aggs config)); ("overview" : str, build_overview config)]).
Definition query_entry (levels : nat) (scoped : V) (keys : gmap str str) (query : V) : option V :=
  args ← mapM (field scoped keys sv_null levels) (array query "attributes");
  Some (sv_obj [("name" : str, optional query "name"); ("args" : str, sv_array args)]).
Definition schema_entry (levels : nat) (aggs : list V) (config : V) (aggregate : V) : option (str * V) :=
  let scoped := with_shared_value_objects aggregate aggs in
  queries ← mapM (query_entry levels scoped (key_for aggs config)) (array aggregate "queries");
  Some (agg_name aggregate, sv_obj [("states" : str, sv_array (map sv_str (lifecycle_states aggregate))); ("queries" : str, sv_array queries)]).
Definition schema (levels : nat) (domain_ir config : V) : option V :=
  insert_all sv_object <$> mapM (schema_entry levels (aggregates domain_ir) config) (aggregates domain_ir).
End schema.

(** ** Facts: the levels that are enough *)

(** What the library says of the entries of a value: they are what is found in it. *)
Class SerdeEntries (V : Type) `{SV : Serde V} : Prop := { sv_get_entries v k : sv_get v k = assoc k (sv_entries v) }.
#[global] Instance json_entries : SerdeEntries Json.Json.
Proof. by split; intros []. Qed.

Section ends.
Context `{U : UnicodeTables} `{UU : UnicodeUpper} {V : Type} `{SV : Serde V}.
Context (aggregate : V) (keys : gmap str str) (formats : V).
Abbreviation described := (field aggregate keys formats).

(** No value object or entity contains itself. *)
Definition ranked (rank : str → nat) : Prop :=
  ∀ ty shape inner, find_value_object aggregate ty = Some shape ∨ find_entity aggregate ty = Some shape →
    inner ∈ array shape "attributes" → (rank (type_of inner) < rank ty)%nat.

(** What the shapes of a list of attributes are built with. *)
Definition on_attributes (f g : V → option V) (attrs : list V) : Prop :=
  ∀ inner d, inner ∈ attrs → f inner = Some d → g inner = Some d.
Lemma mapM_agrees {A B} (f g : A → option B) (l : list A) (bs : list B) :
  (∀ a b, a ∈ l → f a = Some b → g a = Some b) → mapM f l = Some bs → mapM g l = Some bs.
Proof.
  intros H Hf%mapM_Some. apply mapM_Some. induction Hf as [|a b l bs Hab Hf IH]; constructor.
  - by apply H; [constructor|].
  - apply IH. intros a' b' Hin. by apply H, list_elem_of_further.
Qed.
Lemma row_columns_agrees (f g : V → option V) (shape columns : V) :
  on_attributes f g (array shape "attributes") → row_columns f shape = Some columns → row_columns g shape = Some columns.
Proof.
  intros H. unfold row_columns. destruct (_ && _).
  - destruct (mapM _ _) as [ds|] eqn:E; [|done]. intros Hd. eapply mapM_agrees in E; [rewrite E; exact Hd|].
    intros a d [Ha _]%list_elem_of_In%filter_In. destruct (str_eqb _ _); [done|]. apply H. by apply list_elem_of_In.
  - destruct (mapM f _) as [ds|] eqn:E; [|done]. by rewrite (mapM_agrees _ g _ _ H E).
Qed.
Lemma value_object_shape_agrees (f g : V → option V) (shape attribute d : V) (format : option V) :
  on_attributes f g (array shape "attributes") →
  value_object_shape f shape attribute format = Some d → value_object_shape g shape attribute format = Some d.
Proof.
  intros H. unfold value_object_shape, list_shape, scalar_vo_shape. destruct (truthy _); [done|]. destruct (is_list attribute).
  - destruct (sole_attribute shape); [done|]. destruct (row_columns f shape) as [r|] eqn:E; [|done].
    by rewrite (row_columns_agrees f g _ _ H E).
  - destruct (money_shaped shape); [done|]. destruct (sole_attribute shape); [done|].
    destruct (mapM f _) as [ds|] eqn:E; [|done]. by rewrite (mapM_agrees _ g _ _ H E).
Qed.
Lemma field_more (levels more : nat) (attribute d : V) :
  described levels attribute = Some d → (levels ≤ more)%nat → described more attribute = Some d.
Proof.
  revert more attribute d. induction levels as [|levels IH]; intros more attribute d; [done|].
  destruct more as [|more]; [lia|]. intros Hf Hle. cbn [field] in Hf |- *.
  assert (∀ attrs, on_attributes (described levels) (described more) attrs) as Ha by (intros attrs inner e _ He; apply (IH more _ _ He); lia).
  destruct (_ && _); [done|]. destruct (reference_target _); [done|]. destruct (existsb _ _); [done|].
  destruct (find_value_object _ _) as [shape|].
  - destruct (value_object_shape (described levels) _ _ _) as [s|] eqn:E; [|done].
    by rewrite (value_object_shape_agrees _ _ _ _ _ _ (Ha _) E).
  - destruct (if is_list attribute then _ else _) as [entity|]; [|done].
    destruct (row_columns (described levels) entity) as [columns|] eqn:E; [|done]. by rewrite (row_columns_agrees _ _ _ _ (Ha _) E).
Qed.

Lemma row_columns_total (f : V → option V) (shape : V) :
  (∀ inner, inner ∈ array shape "attributes" → is_Some (f inner)) → is_Some (row_columns f shape).
Proof.
  intros H. unfold row_columns. apply fmap_is_Some. destruct (_ && _); apply mapM_is_Some, list.Forall_forall; [|exact H].
  intros a [Ha _]%list_elem_of_In%filter_In. change (is_Some (if str_eqb (attr_name a) "cents" then Some money_column else f a)).
  destruct (str_eqb _ _); [eauto|]. apply H. by apply list_elem_of_In.
Qed.
Lemma value_object_shape_total (f : V → option V) (shape attribute : V) (format : option V) :
  (∀ inner, inner ∈ array shape "attributes" → is_Some (f inner)) → is_Some (value_object_shape f shape attribute format).
Proof.
  intros H. unfold value_object_shape, list_shape, scalar_vo_shape. destruct (truthy _); [eauto|]. destruct (is_list attribute).
  - destruct (sole_attribute shape); [eauto|]. by apply fmap_is_Some, row_columns_total.
  - destruct (money_shaped shape); [eauto|]. destruct (sole_attribute shape); [eauto|].
    assert (is_Some (mapM f (array shape "attributes"))) as [ds ->] by (apply mapM_is_Some, list.Forall_forall; exact H).
    cbn [mbind option_bind]. eauto.
Qed.
(** One level per rank is enough. *)
Lemma field_ends (rank : str → nat) (levels : nat) (attribute : V) :
  ranked rank → (rank (type_of attribute) < levels)%nat → is_Some (described levels attribute).
Proof.
  intros Hr. revert attribute. induction levels as [|levels IH]; intros attribute Hle; [lia|].
  cbn [field]. apply fmap_is_Some.
  assert (∀ shape, find_value_object aggregate (type_of attribute) = Some shape ∨ find_entity aggregate (type_of attribute) = Some shape →
    ∀ inner, inner ∈ array shape "attributes" → is_Some (described levels inner)) as Hi.
  { intros shape Hs inner Hin. apply IH. pose proof (Hr _ _ _ Hs Hin). lia. }
  destruct (_ && _); [eauto|]. destruct (reference_target _); [eauto|]. destruct (existsb _ _); [eauto|].
  destruct (find_value_object _ _) as [shape|] eqn:Ev; [apply value_object_shape_total, Hi; by left|].
  destruct (is_list attribute); [|eauto]. destruct (find_entity _ _) as [entity|] eqn:Ee; [|eauto].
  apply fmap_is_Some, row_columns_total, Hi. by right.
Qed.

(** A value object some attribute of which is of its own type, and which is shown as a
    group of its attributes, has no shape at any level. *)
Definition shown_as_group (shape : V) : Prop :=
  truthy (sv_get shape "closed_set") = false ∧ money_shaped shape = false ∧ sole_attribute shape = None.
Definition of_its_own (ty : str) (attribute : V) : Prop :=
  type_of attribute = ty ∧ is_list attribute = false ∧ str_eqb (attr_name attribute) "id" = false.
Lemma field_never_ends (ty : str) (shape inner attribute : V) (levels : nat) :
  find_value_object aggregate ty = Some shape → shown_as_group shape → reference_target ty = None → existsb (str_eqb ty) PRIMITIVES = false →
  inner ∈ array shape "attributes" → of_its_own ty inner → of_its_own ty attribute → described levels attribute = None.
Proof.
  intros Hf (Hc & Hm & Hs) Hr Hp Hin Hinner. revert attribute. induction levels as [|levels IH]; intros attribute (Ht & Hl & Hid); [done|].
  cbn [field]. rewrite Ht, Hid, Hr, Hp, Hf. cbn [andb].
  unfold value_object_shape, scalar_vo_shape. rewrite Hc, Hl, Hm, Hs.
  assert (mapM (described levels) (array shape "attributes") = None) as ->; [|done].
  apply eq_None_not_Some. intros Hsome%mapM_is_Some. rewrite list.Forall_forall in Hsome.
  destruct (Hsome inner Hin) as [d Hd]. pose proof (IH inner Hinner). congruence.
Qed.
End ends.

(** Two computations that both answer, with one value. *)
Definition agree {A} (x y : option A) : Prop := ∃ d, x = Some d ∧ y = Some d.
Lemma agree_some {A} (d : A) : agree (Some d) (Some d).
Proof. by exists d. Qed.
Lemma agree_bind {A B} (x y : option A) (f g : A → option B) : agree x y → (∀ d, agree (f d) (g d)) → agree (x ≫= f) (y ≫= g).
Proof. intros (d & -> & ->) H. apply H. Qed.
Lemma agree_fmap {A B} (x y : option A) (f : A → B) : agree x y → agree (f <$> x) (f <$> y).
Proof. intros (d & -> & ->). by exists (f d). Qed.
Lemma agree_mapM {A B} (f g : A → option B) (l : list A) : (∀ a, a ∈ l → agree (f a) (g a)) → agree (mapM f l) (mapM g l).
Proof.
  induction l as [|a l IH]; intros H; [apply agree_some|]. cbn [mapM]. apply agree_bind; [apply H; constructor|].
  intros d. apply agree_bind; [|intros ds; apply agree_some]. apply IH. intros b Hb. by apply H, list_elem_of_further.
Qed.
Create HintDb agrees.
#[export] Hint Resolve agree_some agree_bind agree_fmap agree_mapM : agrees.

Section documents.
Context `{U : UnicodeTables} `{UU : UnicodeUpper} {V : Type} `{SV : Serde V} `{SN : SerdeNumbers V}.
Context (rank : str → nat) (levels most : nat) (Hmost : ∀ ty, (rank ty ≤ most)%nat) (Henough : (most < levels)%nat).

Lemma field_agrees (aggregate : V) (keys : gmap str str) (formats attribute : V) :
  ranked aggregate rank → agree (field aggregate keys formats levels attribute) (field aggregate keys formats (S most) attribute).
Proof.
  intros Hr. destruct (field_ends aggregate keys formats rank (S most) attribute Hr) as [d Hd]; [specialize (Hmost (type_of attribute)); lia|].
  exists d. split; [|done]. eapply field_more; [exact Hd|lia].
Qed.

Section collection.
Context (aggregate : V) (keys : gmap str str) (Hranked : ranked aggregate rank).
Lemma input_agrees (formats attribute : V) : agree (input levels aggregate keys formats attribute) (input (S most) aggregate keys formats attribute).
Proof. by apply field_agrees. Qed.
#[local] Hint Resolve input_agrees field_agrees : agrees.
Lemma transitions_agree (formats : V) (others : list V) :
  agree (build_transitions levels aggregate keys formats others) (build_transitions (S most) aggregate keys formats others).
Proof.
  unfold build_transitions, state_transitions, transition_entry, command_inputs. destruct (lifecycle aggregate); auto 12 with agrees.
Qed.
Lemma always_agree (formats : V) (others : list V) :
  agree (build_always_available levels aggregate keys formats others) (build_always_available (S most) aggregate keys formats others).
Proof. unfold build_always_available, always_entry, command_inputs. auto 12 with agrees. Qed.
Lemma create_agrees (formats command agg_cfg : V) (identity : option V) (noun : str) :
  agree (build_create levels aggregate keys formats command agg_cfg identity noun) (build_create (S most) aggregate keys formats command agg_cfg identity noun).
Proof. unfold build_create, field_with_precondition. auto 12 with agrees. Qed.
#[local] Hint Resolve transitions_agree always_agree create_agrees : agrees.
Lemma collection_agrees (config : V) (by_name : gmap str V) :
  agree (build_collection levels aggregate config keys by_name) (build_collection (S most) aggregate config keys by_name).
Proof.
  unfold build_collection. apply agree_bind; [auto with agrees|]. intros fields. apply agree_bind; [auto with agrees|]. intros moves.
  apply agree_bind; [auto with agrees|]. intros always. apply agree_bind; [|intros create; apply agree_some].
  destruct (find creates _); auto with agrees.
Qed.
End collection.

Lemma build_settles (domain_ir config : V) :
  (∀ a, a ∈ aggregates domain_ir → ranked (with_shared_value_objects a (aggregates domain_ir)) rank) →
  agree (build levels domain_ir config) (build (S most) domain_ir config).
Proof.
  intros Hr. unfold build. apply agree_bind; [|intros cs; apply agree_some]. apply agree_mapM. intros a Ha. unfold collection_entry.
  apply agree_bind; [|intros d; apply agree_some]. apply collection_agrees. by apply Hr.
Qed.
Lemma schema_settles (domain_ir config : V) :
  (∀ a, a ∈ aggregates domain_ir → ranked (with_shared_value_objects a (aggregates domain_ir)) rank) →
  agree (schema levels domain_ir config) (schema (S most) domain_ir config).
Proof.
  intros Hr. unfold schema. apply agree_fmap, agree_mapM. intros a Ha. unfold schema_entry.
  apply agree_bind; [|intros d; apply agree_some]. apply agree_mapM. intros q _. unfold query_entry.
  apply agree_bind; [|intros d; apply agree_some]. apply agree_mapM. intros attribute _. by apply field_agrees, Hr.
Qed.
End documents.

(** ** Facts: what is offered is declared *)
Section reading_back.
Context {V : Type} `{SV : Serde V} `{SL : !SerdeLaws V}.

Lemma insert_all_is (v : V) (fields : list (str * V)) : sv_is_object v = true → sv_is_object (insert_all v fields) = true.
Proof. unfold insert_all. revert v. induction fields as [|[k x] fields IH]; intros v Hv; [done|]. apply IH. by apply sv_insert_is. Qed.
Lemma insert_all_cases (v : V) (fields : list (str * V)) (k : str) (x : V) :
  sv_is_object v = true → sv_get (insert_all v fields) k = Some x → (k, x) ∈ fields ∨ sv_get v k = Some x.
Proof.
  unfold insert_all. revert v. induction fields as [|[j y] fields IH]; intros v Hv Hk; [by right|].
  apply IH in Hk as [?|Hk]; [left; by constructor| |by apply sv_insert_is]. cbn [fst snd] in Hk.
  rewrite sv_get_insert in Hk by done. destruct (decide (j = k)) as [->|]; [|by right]. left. simplify_eq. constructor.
Qed.
Lemma insert_all_get (v : V) (fields : list (str * V)) (k : str) :
  sv_is_object v = true → NoDup fields.*1 →
  sv_get (insert_all v fields) k = match assoc k fields with Some x => Some x | None => sv_get v k end.
Proof.
  unfold insert_all. revert v. induction fields as [|[j y] fields IH]; intros v Hv Hnd; [done|].
  apply list.NoDup_cons in Hnd as [Hj Hnd]. cbn [fold_left fst snd]. rewrite IH by (done || by apply sv_insert_is).
  rewrite sv_get_insert by done. cbn [assoc]. destruct (decide (j = k)) as [->|Hne].
  - rewrite bool_decide_true by done. by rewrite (proj2 (assoc_None k fields) Hj).
  - by rewrite bool_decide_false by congruence.
Qed.
Lemma shared_get (aggregate : V) (aggs : list V) (k : str) :
  k ≠ "value_objects" → sv_get (with_shared_value_objects aggregate aggs) k = sv_get aggregate k.
Proof.
  intros Hk. unfold with_shared_value_objects. destruct (flat_map _ _); [done|]. destruct (sv_is_object aggregate) eqn:E; [|done].
  rewrite sv_get_insert by done. by rewrite decide_False by congruence.
Qed.
Lemma shared_commands (aggregate : V) (aggs : list V) : commands (with_shared_value_objects aggregate aggs) = commands aggregate.
Proof. unfold commands, array, sv_list, sv_get_array. by rewrite shared_get. Qed.
End reading_back.

Section offered.
Context `{U : UnicodeTables} `{UU : UnicodeUpper} {V : Type} `{SV : Serde V} `{SL : !SerdeLaws V} `{SN : SerdeNumbers V}.
Context (config : V).

(** A collection of the document offers a command: in some state, or in every one. *)
Definition listed_in (entries : list V) (command : str) : Prop := ∃ entry, entry ∈ entries ∧ sv_get_str entry "command" = Some command.
Definition offers (collection : V) (command : str) : Prop :=
  listed_in (sv_list collection "alwaysAvailable") command ∨
  ∃ transitions state moves, sv_get collection "transitions" = Some transitions ∧ sv_get transitions state = Some moves ∧
    listed_in (default [] (sv_as_array moves)) command.
Definition acts (aggregate : V) (command : str) : Prop :=
  ∃ declared, declared ∈ commands aggregate ∧ creates declared = false ∧ snake (named declared) = command.

Lemma entries_of {A} (make : A → option V) (name : A → str) (l : list A) (entries : list V) (command : str) :
  mapM make l = Some entries → (∀ a entry, make a = Some entry → sv_get_str entry "command" = Some (name a)) →
  listed_in entries command → ∃ a, a ∈ l ∧ name a = command.
Proof.
  intros Hm%mapM_Some Hname (entry & Hin & Hc). revert Hin.
  induction Hm as [|a e l entries Ha Hm IH]; intros Hin; [by apply elem_of_nil in Hin|].
  apply elem_of_cons in Hin as [->|Hin].
  - exists a. split; [constructor|]. rewrite (Hname _ _ Ha) in Hc. by simplify_eq.
  - destruct (IH Hin) as (b & Hb & ?). exists b. split; [by apply list_elem_of_further|done].
Qed.
Ltac command_of_entry :=
  intros; unfold transition_entry, always_entry in *; simplify_option_eq; unfold sv_get_str;
  match goal with |- context [sv_get (sv_obj ?fields) "command"] =>
    assert (sv_get (sv_obj fields) "command" = Some _) as -> by sv_field end; cbn [mbind option_bind]; by rewrite sv_as_str_str.

Lemma always_acts (levels : nat) (aggregate : V) (keys : gmap str str) (formats v : V) (others : list V) (command : str) :
  build_always_available levels aggregate keys formats others = Some v → listed_in (default [] (sv_as_array v)) command →
  ∃ declared, declared ∈ others ∧ snake (named declared) = command.
Proof.
  unfold build_always_available. destruct (mapM _ _) as [entries|] eqn:E; [|done]. cbn. intros [= <-]. rewrite sv_as_array_array. cbn.
  intros H. apply (entries_of _ (λ c, snake (named c)) _ _ _ E) in H as (declared & Hin & Hn); [|command_of_entry].
  exists declared. split; [|done]. apply list_elem_of_In. apply list_elem_of_In, filter_In in Hin as [Hin _]. exact Hin.
Qed.
Lemma moves_act (levels : nat) (aggregate : V) (keys : gmap str str) (formats transitions moves : V) (others : list V) (state command : str) :
  build_transitions levels aggregate keys formats others = Some transitions → sv_get transitions state = Some moves →
  listed_in (default [] (sv_as_array moves)) command → ∃ declared, declared ∈ others ∧ snake (named declared) = command.
Proof.
  unfold build_transitions. destruct (lifecycle aggregate) as [l|].
  2: { intros [= <-]. by rewrite sv_get_object. }
  destruct (mapM _ _) as [states|] eqn:E; [|done]. cbn. intros [= <-] Hs.
  apply insert_all_cases in Hs as [Hs|Hs]; [| |apply sv_object_is]; [|by rewrite sv_get_object in Hs].
  apply mapM_Some in E. apply list_elem_of_lookup in Hs as [i Hi]. destruct (list.Forall2_lookup_r _ _ _ _ _ E Hi) as (s & _ & Hs).
  unfold state_transitions in Hs. destruct (mapM _ _) as [entries|] eqn:Em; [|done]. cbn in Hs. simplify_eq. rewrite sv_as_array_array. cbn.
  intros H. apply (entries_of _ (λ m, snake (named m.1)) _ _ _ Em) in H as ([declared hit] & Hin & Hn); [|command_of_entry].
  exists declared. split; [|done]. apply list_elem_of_omap in Hin as (c & Hc & Ho). unfold open_move in Ho. by simplify_option_eq.
Qed.

Lemma collection_acts (levels : nat) (aggregate collection : V) (keys : gmap str str) (by_name : gmap str V) (command : str) :
  build_collection levels aggregate config keys by_name = Some collection → offers collection command → acts aggregate command.
Proof.
  unfold build_collection. destruct (mapM _ (array aggregate "attributes")) as [fields|]; [|done]. cbn [mbind option_bind].
  destruct (build_transitions _ _ _ _ _) as [transitions|] eqn:Et; [|done]. cbn [mbind option_bind].
  destruct (build_always_available _ _ _ _ _) as [always|] eqn:Ea; [|done]. cbn [mbind option_bind].
  destruct (match find creates _ with Some _ => _ | None => _ end) as [create|]; [|done]. cbn [mbind option_bind].
  match goal with |- Some (sv_obj ?fs) = _ → _ => set (document := fs) end. intros [= <-] Ho.
  assert (∃ declared, declared ∈ List.filter (λ c, negb (creates c)) (commands aggregate) ∧ snake (named declared) = command) as (declared & Hd & Hn).
  { destruct Ho as [Ho|(t & state & moves & Ht & Hm & Ho)].
    - eapply always_acts; [exact Ea|]. unfold sv_list, sv_get_array in Ho.
      assert (sv_get (sv_obj document) "alwaysAvailable" = Some always) as E by sv_field. by rewrite E in Ho.
    - assert (sv_get (sv_obj document) "transitions" = Some transitions) as E by sv_field. rewrite E in Ht. simplify_eq.
      by eapply moves_act. }
  apply list_elem_of_In, filter_In in Hd as [Hd Hc]. exists declared. split_and!; [by apply list_elem_of_In| |done]. by destruct (creates declared).
Qed.

Lemma keyed_collection (aggs : list V) (aggregate : V) :
  aggregate ∈ aggs → key_for aggs config !! agg_name aggregate = Some (collection_key aggregate config).
Proof.
  unfold key_for. intros Hin.
  assert (∀ m : gmap str str, (aggregate ∈ aggs ∨ m !! agg_name aggregate = Some (collection_key aggregate config)) →
    fold_left (λ m a, <[agg_name a := collection_key a config]> m) aggs m !! agg_name aggregate = Some (collection_key aggregate config)) as H;
    [|apply H; by left].
  clear Hin. induction aggs as [|a aggs IH]; intros m Hm; [destruct Hm as [Hm|Hm]; [by apply elem_of_nil in Hm|done]|].
  cbn [fold_left]. apply IH. destruct (decide (agg_name a = agg_name aggregate)) as [E|E].
  - right. rewrite E, lookup_insert_eq. unfold collection_key. by rewrite E.
  - destruct Hm as [[->|?]%elem_of_cons|Hm]; [done|by left|]. right. by rewrite lookup_insert_ne.
Qed.

(** The collection found under a key is that of an aggregate with the key. *)
Lemma offered_acts (levels : nat) (domain_ir document collections collection : V) (key command : str) :
  build levels domain_ir config = Some document → sv_get document "collections" = Some collections → sv_get collections key = Some collection →
  offers collection command →
  ∃ aggregate, aggregate ∈ aggregates domain_ir ∧ collection_key aggregate config = key ∧ acts aggregate command.
Proof.
  unfold build. set (aggs := aggregates domain_ir). destruct (mapM _ aggs) as [entries|] eqn:E; [|done]. cbn [mbind option_bind].
  match goal with |- Some (sv_obj ?fs) = _ → _ => set (parts := fs) end. intros [= <-] Hc.
  assert (sv_get (sv_obj parts) "collections" = Some (insert_all sv_object entries)) as E' by sv_field. rewrite E' in Hc. simplify_eq.
  intros [Hk|Hk]%insert_all_cases; [|by rewrite sv_get_object in Hk|apply sv_object_is].
  apply mapM_Some in E. apply list_elem_of_lookup in Hk as [i Hi]. destruct (list.Forall2_lookup_r _ _ _ _ _ E Hi) as (a & Ha & Hb).
  apply list_elem_of_lookup_2 in Ha. unfold collection_entry in Hb. destruct (build_collection _ _ _ _ _) as [built|] eqn:Eb; [|done].
  cbn [mbind option_bind] in Hb. simplify_eq. intros Ho. exists a. split; [done|].
  split; [symmetry; exact (f_equal (default []) (keyed_collection aggs a Ha))|]. destruct (collection_acts _ _ _ _ _ _ Eb Ho) as (declared & Hd & H).
  exists declared. by rewrite shared_commands in Hd.
Qed.
End offered.
