(* ===== verification/Presentation.v ===== *)
(** The console's configuration.  Read ([src/rust/host/core/src/presentation.rs]): the
    records of the ConsoleSettings bluebook, off the kernel or off the head rows of the
    host's own domain, and the one document they are reshaped into.  Saved
    ([src/rust/host/core/src/presentation_write.rs]): what a submitted document must
    satisfy against the domain's IR, and the commands it is kept by.

    A [BTreeMap] is a [gmap] read out in key order; what a text of JSON reads as is the
    library's, and so is the equality of values.  No dispatch of a save depends on the
    answer of an earlier one but for stopping at the first refusal, so a save is the list
    of its commands, run in order.  A value is inspected and a clause descended to the
    depth [serde_json] reads a text to. *)
From stdpp Require Import gmap.
From S2P Require Import HostDispatch.
From S2P Require Export UiSchema.
Open Scope Z_scope.

(** [Value]'s [PartialEq]. *)
Class SerdeEq (V : Type) := sv_eqb : V → V → bool.
#[global] Instance json_equality : SerdeEq Json.Json := Json.json_eqb.

Definition CONFIG_DOMAIN : str := "ConsoleSettings".
Definition STATE_STYLE : str := "state_style".
Definition COLLECTION : str := "collection".
Definition COLLECTION_IDENTITY : str := "collection_identity".
Definition COLLECTION_LAYOUT : str := "collection_layout".
Definition COLLECTION_RULES : str := "collection_rules".
Definition OVERVIEW : str := "overview".

(** [KernelRows], with the identifiers a save tells a declaration from a change by. *)
Record KernelRows (V : Type) := {
  states : list V; collections : list V; overview : list V;
  state_ids : gset str; collection_ids : gset str; identity_ids : gset str; layout_ids : gset str; rules_ids : gset str
}.
Arguments states {V}. Arguments collections {V}. Arguments overview {V}.
Arguments state_ids {V}. Arguments collection_ids {V}. Arguments identity_ids {V}. Arguments layout_ids {V}. Arguments rules_ids {V}.
Arguments Build_KernelRows {V}.

Section rows.
Context {V : Type} `{SV : Serde V}.
Definition no_rows : KernelRows V := Build_KernelRows [] [] [] ∅ ∅ ∅ ∅ ∅.
Definition is_empty (rows : KernelRows V) : bool :=
  match states rows, collections rows, overview rows with [], [], [] => true | _, _, _ => false end.
Definition with_state (r : KernelRows V) (id : str) (s : V) : KernelRows V :=
  Build_KernelRows (states r ++ [s]) (collections r) (overview r)
    ({[id]} ∪ state_ids r) (collection_ids r) (identity_ids r) (layout_ids r) (rules_ids r).
Definition with_collection (r : KernelRows V) (s : V) : KernelRows V :=
  Build_KernelRows (states r) (collections r ++ [s]) (overview r)
    (state_ids r) (collection_ids r) (identity_ids r) (layout_ids r) (rules_ids r).
Definition with_collection_ids (r : KernelRows V) (heads identities layouts rules : gset str) : KernelRows V :=
  Build_KernelRows (states r) (collections r) (overview r)
    (state_ids r) (heads ∪ collection_ids r) (identities ∪ identity_ids r) (layouts ∪ layout_ids r) (rules ∪ rules_ids r).
Definition with_overview (r : KernelRows V) (s : V) : KernelRows V :=
  Build_KernelRows (states r) (collections r) (overview r ++ [s])
    (state_ids r) (collection_ids r) (identity_ids r) (layout_ids r) (rules_ids r).

(** [bucket]: a key is cut at its first hash. *)
Definition in_config (qualified aggregate : str) : bool := str_eqb qualified (CONFIG_DOMAIN ++ "::" ++ aggregate).
Definition bucket_row (r : KernelRows V) (entry : str * V) : KernelRows V :=
  match split_once entry.1 35 with
  | None => r
  | Some (qualified, id) =>
    if in_config qualified "StateStyle" then with_state r id entry.2
    else if in_config qualified "Collection" then with_collection_ids (with_collection r entry.2) {[id]} ∅ ∅ ∅
    else if in_config qualified "CollectionIdentity" then with_collection_ids (with_collection r entry.2) ∅ {[id]} ∅ ∅
    else if in_config qualified "CollectionLayout" then with_collection_ids (with_collection r entry.2) ∅ ∅ {[id]} ∅
    else if in_config qualified "CollectionRules" then with_collection_ids (with_collection r entry.2) ∅ ∅ ∅ {[id]}
    else if in_config qualified "Overview" then with_overview r entry.2
    else r
  end.
Definition bucket (instances : option V) : KernelRows V :=
  match instances with Some i => fold_left bucket_row (sv_entries i) no_rows | None => no_rows end.
End rows.

(** ** The document *)
Section reshaping.
Context `{U : UnicodeTables} {V : Type} `{SV : Serde V} `{SB : !Sandbox V} `{SE : !SerdeEq V}.

(** [unwrap], [unwrap_str], [present]; [merge_extra]. *)
Definition unwrap (value : V) : V := default value (sv_get value "value").
Definition unwrap_str (value : option V) : str := default [] (v ← value; sv_as_str (unwrap v)).
Definition present (value : option V) : option V :=
  v ← value; if sv_is_null v || bool_decide (sv_as_bool v = Some false) then None else Some v.
Definition present_at (row : V) (key : str) : option V := present (sv_get row key).
Definition or_insert (entry : V) (kv : str * V) : V := if sv_contains entry kv.1 then entry else sv_insert entry kv.1 kv.2.
Definition merge_extra (entry : V) (extra_json : option V) : V :=
  match (v ← present extra_json; sv_as_str (unwrap v)) with
  | Some ((_ :: _) as text) =>
    match sv_from_str text with
    | Ok extra => if sv_is_object extra then fold_left or_insert (sv_entries extra) entry else entry
    | Err _ => entry
    end
  | _ => entry
  end.
Definition insert_some (entry : V) (key : str) (value : option V) : V :=
  match value with Some v => sv_insert entry key v | None => entry end.
(** A flag kept as the text "true" or "false". *)
Definition flag (value : V) : V := sv_bool (bool_decide (sv_as_str (unwrap value) = Some ("true" : str))).

(** [reshape_states]. *)
Definition reshape_state (row : V) : V :=
  let entry := insert_some sv_object "tone" (unwrap <$> present_at row "tone") in
  let entry := insert_some entry "attention" (flag <$> present_at row "attention") in
  merge_extra entry (sv_get row "extra_json").
Definition add_state_row (memo row : V) : V :=
  let agg := unwrap_str (sv_get row "agg") in
  let held := default sv_object (sv_get memo agg) in
  sv_insert memo agg (if sv_is_object held then sv_insert held (unwrap_str (sv_get row "state")) (reshape_state row) else held).
Definition reshape_states (rows : list V) : V := fold_left add_state_row rows sv_object.

(** [reshape_identity], [reshape_column], [reshape_detail_fields], [reshape_precondition],
    [reshape_field_formats]. *)
Definition reshape_identity (row : V) : option V :=
  field ← unwrap <$> present_at row "identity_field";
  let identity := sv_insert sv_object "field" field in
  let identity := sv_insert identity "strategy" (or_null (unwrap <$> sv_get row "identity_strategy")) in
  let identity := insert_some identity "source" (unwrap <$> present_at row "identity_source") in
  let identity := insert_some identity "prefix" (unwrap <$> present_at row "identity_prefix") in
  Some (merge_extra identity (sv_get row "identity_extra_json")).
Definition reshape_column (column : V) : V :=
  let entry := sv_insert sv_object "field" (optional column "field") in
  let entry := insert_some entry "sortable" (flag <$> present_at column "sortable") in
  let entry := insert_some entry "sort_default" (unwrap <$> present_at column "sort_default") in
  merge_extra entry (sv_get column "extra_json").
Definition same_field (field column : V) : bool :=
  match sv_get column "field" with Some f => sv_eqb f field | None => false end.
Definition reshape_detail_field (flat : list V) (field_entry : V) : V :=
  let field := optional field_entry "field" in
  let entry := sv_insert sv_object "field" field in
  let entry := insert_some entry "display" (unwrap <$> present_at field_entry "display") in
  let entry := insert_some entry "state_filter" (unwrap <$> present_at field_entry "state_filter") in
  let columns := map (λ c, optional c "column") (List.filter (same_field field) flat) in
  let entry := match columns with [] => entry | _ => sv_insert entry "columns" (sv_array columns) end in
  merge_extra entry (sv_get field_entry "extra_json").
Definition reshape_detail_fields (row : V) : V :=
  sv_array (map (reshape_detail_field (sv_list row "detail_field_columns")) (sv_list row "detail_fields")).
Definition reshape_precondition (precondition : V) : V :=
  let entry := sv_insert sv_object "field" (optional precondition "field") in
  let entry := sv_insert entry "state" (optional precondition "state") in
  merge_extra entry (sv_get precondition "extra_json").
Definition reshape_field_formats (row : V) : V :=
  insert_all sv_object
    (map (λ e, (default [] (sv_get_str e "field"), optional e "format")) (sv_list row "field_formats")).

(** [reshape_collection_row], [reshape_collections]. *)
Definition reshape_collection_row (row : V) : V :=
  let entry := fold_left (λ e key, insert_some e key (unwrap <$> present_at row key))
                 ["label" : str; "key" : str; "nav_order" : str; "primary_field" : str; "list_query" : str] sv_object in
  let entry := insert_some entry "identity" (reshape_identity row) in
  let entry := sv_insert entry "columns" (sv_array (map reshape_column (sv_list row "columns"))) in
  let entry := sv_insert entry "detail_fields" (reshape_detail_fields row) in
  let entry := sv_insert entry "preconditions" (sv_array (map reshape_precondition (sv_list row "preconditions"))) in
  let entry := sv_insert entry "field_formats" (reshape_field_formats row) in
  merge_extra entry (sv_get row "extra_json").
Definition merge_row (merged : gmap str V) (row : V) : gmap str V :=
  if sv_is_object row then
    let agg := unwrap_str (sv_get row "agg") in
    <[agg := insert_all (default sv_object (merged !! agg)) (sv_entries row)]> merged
  else merged.
Definition merged_rows (rows : list V) : gmap str V := fold_left merge_row rows ∅.
Definition reshape_collections (rows : list V) : V :=
  insert_all sv_object (map (λ kv, (kv.1, reshape_collection_row kv.2)) (HostStore.rows_by_id (merged_rows rows))).

(** [reshape_stat], [reshape_overview]; [reshape]. *)
Definition reshape_stat (stat : V) : V :=
  let entry := sv_insert sv_object "label" (optional stat "label") in
  let entry := sv_insert entry "collection" (optional stat "collection") in
  let entry := insert_some entry "as" (present_at stat "as") in
  let entry := insert_some entry "field" (present_at stat "field") in
  match (w ← present_at stat "where_json"; sv_as_str w) with
  | Some ((_ :: _) as text) => match sv_from_str text with Ok parsed => sv_insert entry "where" parsed | Err _ => entry end
  | _ => entry
  end.
Definition reshape_overview (rows : list V) : V :=
  match rows with
  | [] => sv_object
  | row :: _ => sv_obj [("stats" : str, sv_array (map reshape_stat (sv_list row "stats")))]
  end.
Definition reshape (states collections overview : list V) : V :=
  sv_insert (sv_insert (sv_insert sv_object "states" (reshape_states states))
    "collections" (reshape_collections collections)) "overview" (reshape_overview overview).
Definition reshaped (rows : KernelRows V) : V := reshape (states rows) (collections rows) (overview rows).

(** ** Reading it: [kernel_rows], [load_from_relations], [load] *)
Context (wasm_path : str) (c : HostStore.LineageConfig) (installed : option V) (now : Z).
Definition styles_query : str := CONFIG_DOMAIN ++ ".Styles".
Definition kernel_rows (d : HostStore.Data V) : Prelude.result str (option (KernelRows V)) :=
  let? state := HostDispatch.read wasm_path d in
  let rows := bucket (sv_get state "instances") in
  if is_empty rows then
    let? probe := HostDispatch.query wasm_path installed styles_query sv_object now d in
    Ok (match sv_get_array probe "queries" with Some (_ :: _) => Some rows | _ => None end)
  else Ok (Some rows).
Definition load_from_relations (d : HostStore.Data V) : V :=
  let read storage := HostStore.head_states d [HostStore.config_domain c; CONFIG_DOMAIN] storage in
  reshape (read STATE_STYLE) (flat_map read [COLLECTION; COLLECTION_IDENTITY; COLLECTION_LAYOUT; COLLECTION_RULES]) (read OVERVIEW).
Definition load (d : HostStore.Data V) : Prelude.result str V :=
  let? rows := kernel_rows d in
  Ok (match rows with Some rows => reshaped rows | None => load_from_relations d end).
End reshaping.

Open Scope Z_scope.

Definition VALID_TONES : list str := ["good"; "warn"; "danger"; "muted"; "accent"].
Definition VALID_DISPLAYS : list str := ["simple"; "prose"; "bullet"; "mono"; "rows"].
Definition VALID_FORMATS : list str := ["date"; "percent"].
Definition VALID_FOLDS : list str := ["count"; "money_sum"].
Definition VALID_SORTS : list str := ["asc"; "desc"].
Definition KNOWN_STATE_KEYS : list str := ["tone"; "attention"].
Definition KNOWN_COLLECTION_KEYS : list str :=
  ["label"; "key"; "nav_order"; "primary_field"; "list_query"; "identity"; "columns"; "detail_fields"; "preconditions";
   "field_formats"; "after_create"].
Definition KNOWN_IDENTITY_KEYS : list str := ["field"; "strategy"; "source"; "prefix"].
Definition KNOWN_COLUMN_KEYS : list str := ["field"; "sortable"; "sort_default"].
Definition KNOWN_DETAIL_FIELD_KEYS : list str := ["field"; "display"; "state_filter"; "columns"].
Definition KNOWN_PRECONDITION_KEYS : list str := ["field"; "state"].

(** [SaveRefusal]; a command of a save: one that creates, one routed to a record. *)
Inductive SaveRefusal (V : Type) := NoKernel | Malformed (message : str) | DomainRefusal (result : V) | Internal (message : str).
Arguments NoKernel {V}. Arguments Malformed {V}. Arguments DomainRefusal {V}. Arguments Internal {V}.
Inductive Write (V : Type) := Declares (verb : str) (facts : V) | Routes (verb id : str) (facts : V).
Arguments Declares {V}. Arguments Routes {V}.

(** The first error of a list of checks. *)
Definition Refusal : Type := Prelude.result str unit.
Fixpoint each {A} (check : A → Refusal) (l : list A) : Refusal :=
  match l with [] => Ok () | a :: l => match check a with Ok _ => each check l | Err e => Err e end end.
Definition and_then (first : Refusal) (next : Refusal) : Refusal := match first with Ok _ => next | Err e => Err e end.
Notation "a ;? b" := (and_then a b) (at level 100, b at level 200, right associativity).
Definition on_some {A} (o : option A) (check : A → Refusal) : Refusal := match o with Some a => check a | None => Ok () end.
Definition refuse_unless (ok : bool) (message : str) : Refusal := if ok then Ok () else Err message.
Definition one_of (choices : list str) (text : str) : bool := existsb (str_eqb text) choices.

Section dispatched.
Context `{U : UnicodeTables} {V : Type} `{SV : Serde V}.

(** [section], [entries], [list]; [extra_fields]. *)
Definition section (config : V) (key : str) : V :=
  match sv_get config key with Some v => if sv_is_object v then v else sv_null | None => sv_null end.
Definition list_of (value : option V) : list V := default [] (value ≫= sv_as_array).
Definition extra_fields (entry : V) (known : list str) : list (str * V) :=
  List.filter (λ kv, negb (one_of known kv.1)) (sv_entries entry).
Definition extra_text (extra : list (str * V)) : V := sv_str (sv_text (insert_all sv_object extra)).
Definition with_extra (row : V) (key : str) (extra : list (str * V)) : V :=
  match extra with [] => row | _ => sv_insert row key (extra_text extra) end.
Definition valued (value : V) : V := sv_obj [("value" : str, value)].
(** [ruby_to_s]. *)
Definition ruby_to_s (value : V) : str :=
  match sv_as_str value with Some text => text | None => if sv_is_null value then [] else sv_text value end.

(** [columns_for_dispatch], [detail_fields_for_dispatch], [detail_field_columns_for_dispatch],
    [preconditions_for_dispatch], [field_formats_for_dispatch], [stats_for_dispatch]: a row. *)
Definition bare_row (field : V) : V := sv_obj [("field" : str, field)].
Definition column_row (column : V) : V :=
  if sv_is_object column then
    let row := sv_insert sv_object "field" (optional column "field") in
    let row := insert_some row "sortable" ((λ s, sv_str (ruby_to_s s)) <$> sv_get column "sortable") in
    let row := insert_some row "sort_default" (given column "sort_default") in
    with_extra row "extra_json" (extra_fields column KNOWN_COLUMN_KEYS)
  else bare_row column.
Definition detail_field_row (field : V) : V :=
  if sv_is_object field then
    let row := sv_insert sv_object "field" (optional field "field") in
    let row := insert_some row "display" (given field "display") in
    let row := insert_some row "state_filter" (given field "state_filter") in
    with_extra row "extra_json" (extra_fields field KNOWN_DETAIL_FIELD_KEYS)
  else bare_row field.
Definition detail_field_column_rows (field : V) : list V :=
  match (if sv_is_object field then sv_get field "columns" else None) with
  | Some columns =>
    map (λ column, sv_obj [("field" : str, optional field "field"); ("column" : str, column)]) (default [] (sv_as_array columns))
  | None => []
  end.
Definition precondition_row (rule : V) : V :=
  let row := sv_insert sv_object "field" (optional rule "field") in
  let row := sv_insert row "state" (optional rule "state") in
  with_extra row "extra_json" (extra_fields rule KNOWN_PRECONDITION_KEYS).
Definition field_format_rows (formats : option V) : list V :=
  match formats with
  | Some f => map (λ kv, sv_obj [("field" : str, sv_str kv.1); ("format" : str, kv.2)]) (sv_entries f)
  | None => []
  end.
Definition stat_row (stat : V) : V :=
  let row := sv_insert sv_object "label" (optional stat "label") in
  let row := sv_insert row "collection" (optional stat "collection") in
  let row := insert_some row "as" (given stat "as") in
  let row := insert_some row "field" (given stat "field") in
  insert_some row "where_json" ((λ w, sv_str (sv_text w)) <$> given stat "where").
Definition rows_fact (key : str) (rows : list V) : V := sv_obj [(key, sv_array rows)].

(** ** The commands of a save *)

(** [write_states]. *)
Definition console (command : str) : str := CONFIG_DOMAIN ++ "::" ++ command.
Definition attention_text (attention : V) : str := if bool_decide (sv_as_bool attention = Some true) then "true" else "false".
Definition optional_write (o : option V) (w : V → Write V) : list (Write V) := match o with Some v => [w v] | None => [] end.
Definition state_writes (known : gset str) (agg state : str) (entry : V) : list (Write V) :=
  let id := agg ++ ":" ++ state in
  (if bool_decide (id ∈ known) then []
   else [Declares (console "StateStyle.Declare") (sv_obj [("agg" : str, valued (sv_str agg)); ("state" : str, valued (sv_str state))])]) ++
  optional_write (given entry "tone") (λ tone, Routes (console "StateStyle.SetTone") id (sv_obj [("tone" : str, valued tone)])) ++
  optional_write (sv_get entry "attention")
    (λ a, Routes (console "StateStyle.SetAttention") id (sv_obj [("attention" : str, valued (sv_str (attention_text a)))])) ++
  match extra_fields entry KNOWN_STATE_KEYS with
  | [] => []
  | extra => [Routes (console "StateStyle.SetExtra") id (sv_obj [("extra_json" : str, valued (extra_text extra))])]
  end.
Definition write_states (states : V) (existing : KernelRows V) : list (Write V) :=
  flat_map (λ '(agg, per_state), flat_map (λ '(state, entry), state_writes (state_ids existing) agg state entry) (sv_entries per_state))
    (sv_entries states).

(** [declare_collection_parts]; [write_identity]; [write_collection_lists]. *)
Definition declare_part (agg aggregate : str) (known : gset str) (needed : bool) : list (Write V) :=
  if needed && negb (bool_decide (agg ∈ known))
  then [Declares (console (aggregate ++ ".Declare")) (sv_obj [("agg" : str, valued (sv_str agg))])] else [].
Definition object_at (v : V) (key : str) : option V := x ← sv_get v key; if sv_is_object x then Some x else None.
Definition declare_collection_parts (agg : str) (entry : V) (existing : KernelRows V) : list (Write V) :=
  declare_part agg "CollectionLayout" (layout_ids existing) true ++
  declare_part agg "CollectionRules" (rules_ids existing) true ++
  declare_part agg "CollectionIdentity" (identity_ids existing) (bool_decide (is_Some (object_at entry "identity"))).
Definition write_identity (agg : str) (identity : V) : Write V :=
  let facts := sv_insert sv_object "identity_field" (valued (optional identity "field")) in
  let facts := sv_insert facts "identity_strategy" (valued (optional identity "strategy")) in
  let facts := insert_some facts "identity_source" (valued <$> given identity "source") in
  let facts := insert_some facts "identity_prefix" (valued <$> given identity "prefix") in
  let facts := match extra_fields identity KNOWN_IDENTITY_KEYS with
               | [] => facts | extra => sv_insert facts "identity_extra_json" (valued (extra_text extra)) end in
  Routes (console "CollectionIdentity.SetIdentity") agg facts.
Definition write_collection_lists (agg : str) (entry : V) : list (Write V) := [
  Routes (console "CollectionLayout.ReplaceColumns") agg
    (rows_fact "columns" (map column_row (list_of (sv_get entry "columns"))));
  Routes (console "CollectionLayout.ReplaceDetailFields") agg
    (rows_fact "detail_fields" (map detail_field_row (list_of (sv_get entry "detail_fields"))));
  Routes (console "CollectionLayout.ReplaceDetailFieldColumns") agg
    (rows_fact "detail_field_columns" (flat_map detail_field_column_rows (list_of (sv_get entry "detail_fields"))));
  Routes (console "CollectionRules.ReplacePreconditions") agg
    (rows_fact "preconditions" (map precondition_row (list_of (sv_get entry "preconditions"))));
  Routes (console "CollectionRules.ReplaceFieldFormats") agg
    (rows_fact "field_formats" (field_format_rows (sv_get entry "field_formats")))].

(** [write_collections]. *)
Definition SCALARS : list (str * str) :=
  [("label" : str, "SetLabel" : str); ("key" : str, "SetKey" : str); ("nav_order" : str, "SetNavOrder" : str);
   ("primary_field" : str, "SetPrimaryField" : str); ("list_query" : str, "SetListQuery" : str)].
Definition scalar_writes (agg : str) (entry : V) : list (Write V) :=
  flat_map (λ '(field, command), optional_write (given entry field)
    (λ value, Routes (console ("Collection." ++ command)) agg (sv_obj [(field, valued value)]))) SCALARS.
Definition collection_writes (existing : KernelRows V) (agg : str) (entry : V) : list (Write V) :=
  declare_part agg "Collection" (collection_ids existing) true ++
  declare_collection_parts agg entry existing ++
  scalar_writes agg entry ++
  optional_write (object_at entry "identity") (write_identity agg) ++
  write_collection_lists agg entry ++
  match extra_fields entry KNOWN_COLLECTION_KEYS with
  | [] => []
  | extra => [Routes (console "Collection.SetExtra") agg (sv_obj [("extra_json" : str, valued (extra_text extra))])]
  end.
Definition write_collections (collections : V) (existing : KernelRows V) : list (Write V) :=
  flat_map (λ '(agg, entry), collection_writes existing agg entry) (sv_entries collections).

(** [write_overview]. *)
Definition write_overview (ov : V) (existing : KernelRows V) : list (Write V) :=
  match overview existing with
  | [] => [Declares (console "Overview.Declare") (sv_obj [("key" : str, valued (sv_str "overview"))])]
  | _ => []
  end ++
  [Routes (console "Overview.ReplaceStats") "overview" (rows_fact "stats" (map stat_row (list_of (sv_get ov "stats"))))].
Definition writes_of (submitted : V) (existing : KernelRows V) : list (Write V) :=
  write_states (section submitted "states") existing ++ write_collections (section submitted "collections") existing ++
  write_overview (section submitted "overview") existing.
End dispatched.

(** ** What a document must satisfy *)
Section validation.
Context `{U : UnicodeTables} `{UU : UnicodeUpper} {V : Type} `{SV : Serde V} `{SN : SerdeNumbers V}.

(** [inspect]; [attribute_names]; [find_query], [find_command]. *)
Definition DEPTH : nat := 129.
Fixpoint inspect_to (depth : nat) (value : V) : str :=
  match depth with
  | O => sv_text value
  | S depth =>
    if sv_is_null value then "nil"
    else match sv_as_bool value with
    | Some b => debug_bool b
    | None =>
      if sv_is_number value then sv_text value
      else match sv_as_str value with
      | Some text => debug_str text
      | None =>
        match sv_as_array value with
        | Some items => "[" ++ join ", " (map (inspect_to depth) items) ++ "]"
        | None => "{" ++ join ", " (map (λ kv, debug_str kv.1 ++ " => " ++ inspect_to depth kv.2) (sv_entries value)) ++ "}"
        end
      end
    end
  end.
Definition inspect (value : V) : str := inspect_to DEPTH value.
Definition inspect_str (text : str) : str := inspect (sv_str text).
Definition attribute_names (aggregate : V) : str := join ", " (map attr_name (array aggregate "attributes")).
Definition find_query (owner : V) (name : str) : option V := find (λ q, says_str q "name" name) (array owner "queries").
Definition find_command (aggregate : V) (name : str) : option V := find (λ c, says_str c "name" name) (commands aggregate).
Definition find_aggregate (aggs : list V) (name : str) : option V := find (λ a, str_eqb (agg_name a) name) aggs.
Definition require_aggregate (aggs : list V) (name : str) (check : V → Refusal) : Refusal :=
  match find_aggregate aggs name with
  | Some aggregate => check aggregate
  | None => Err (name ++ " is not a real aggregate this domain declares")
  end.

(** [validate_state_entry], [validate_states], [missing_state_entries]. *)
Definition validate_state_entry (agg state : str) (entry : V) (known : list str) : Refusal :=
  refuse_unless (one_of known state)
    (agg ++ " has no state " ++ inspect_str state ++ " — it declares " ++ join ", " known) ;?
  on_some (given entry "tone") (λ tone, refuse_unless (one_of VALID_TONES (ruby_to_s tone))
    (agg ++ "." ++ state ++ "'s tone " ++ inspect tone ++ " isn't one of " ++ join ", " VALID_TONES)) ;?
  on_some (given entry "attention") (λ other, refuse_unless (bool_decide (is_Some (sv_as_bool other)))
    (agg ++ "." ++ state ++ "'s attention must be true or false, not " ++ inspect other)).
Definition validate_states (aggs : list V) (agg : str) (per_state : V) : Refusal :=
  require_aggregate aggs agg (λ aggregate,
    each (λ '(state, entry), validate_state_entry agg state entry (lifecycle_states aggregate)) (sv_entries per_state)).
Definition unstyled (states aggregate : V) : list str :=
  let configured := sv_get states (agg_name aggregate) in
  omap (λ state, if bool_decide (is_Some (c ← configured; sv_get c state)) then None
                 else Some (agg_name aggregate ++ "." ++ state)) (lifecycle_states aggregate).
Definition missing_state_entries (states : V) (aggs : list V) : Refusal :=
  match flat_map (unstyled states) aggs with
  | [] => Ok ()
  | missing => Err ("no presentation entry for " ++ join ", " missing ++ " — every real state needs one, even a bare one")
  end.

(** [validate_columns]. *)
Definition described_key (entry : V) : V := default entry (if sv_is_object entry then sv_get entry "field" else None).
Definition validate_column_sorting (agg : str) (column : V) : Refusal :=
  if sv_is_object column then
    on_some (sv_get column "sortable") (λ sortable, refuse_unless (bool_decide (is_Some (sv_as_bool sortable)))
      (agg ++ "'s column " ++ inspect (described_key column) ++ " has sortable " ++ inspect sortable ++ ", not true or false")) ;?
    on_some (given column "sort_default") (λ d, refuse_unless (one_of VALID_SORTS (ruby_to_s d))
      (agg ++ "'s column " ++ inspect (described_key column) ++ " has sort_default " ++ inspect d ++ ", not asc or desc"))
  else Ok ().
Definition validate_column (agg : str) (aggregate column : V) : Refusal :=
  let name := ruby_to_s (described_key column) in
  refuse_unless (str_eqb name "__state__" || bool_decide (is_Some (find_attribute aggregate name)))
    (agg ++ " has no attribute " ++ inspect (described_key column) ++ " to put in its columns — it declares " ++ attribute_names aggregate) ;?
  validate_column_sorting agg column.
Definition validate_columns (agg : str) (aggregate : V) (columns : option V) : Refusal :=
  each (validate_column agg aggregate) (list_of columns).

(** [validate_precondition]. *)
Definition validate_precondition_state (agg name : str) (attribute rule : V) (aggs : list V) : Refusal :=
  on_some (given rule "state") (λ state,
    on_some (reference_target (type_of attribute)) (λ target_name,
      on_some (find_aggregate aggs target_name) (λ target,
        let known := lifecycle_states target in
        refuse_unless (one_of known (ruby_to_s state))
          (agg ++ "." ++ name ++ " points at " ++ target_name ++ ", which has no state " ++ inspect state ++
           " — it declares " ++ join ", " known)))).
Definition validate_precondition (agg : str) (aggregate : V) (aggs : list V) (rule : V) : Refusal :=
  match given rule "field" with
  | None => Err (agg ++ " has a precondition with no field named")
  | Some field =>
    let name := ruby_to_s field in
    match (a ← find_attribute aggregate name; if is_reference a then Some a else None) with
    | None => Err (agg ++ "." ++ name ++ " isn't a reference — a precondition only makes sense against one")
    | Some attribute => validate_precondition_state agg name attribute rule aggs
    end
  end.

(** [validate_field_formats]. *)
Definition nested_attribute (aggregate : V) (field_name : str) : bool :=
  existsb (λ attribute,
    negb (is_reference attribute) &&
    match find_value_object aggregate (type_of attribute) with
    | Some value_object => existsb (λ sub, str_eqb (attr_name sub) field_name) (array value_object "attributes")
    | None => false
    end) (array aggregate "attributes").
Definition validate_field_format (agg : str) (aggregate : V) (entry : str * V) : Refusal :=
  refuse_unless (bool_decide (is_Some (find_attribute aggregate entry.1)) || nested_attribute aggregate entry.1)
    (agg ++ " has no attribute " ++ inspect_str entry.1 ++ " to format") ;?
  refuse_unless (one_of VALID_FORMATS (ruby_to_s entry.2))
    (agg ++ "." ++ entry.1 ++ "'s format " ++ inspect entry.2 ++ " isn't one of " ++ join ", " VALID_FORMATS).
Definition validate_field_formats (agg : str) (aggregate : V) (formats : option V) : Refusal :=
  on_some formats (λ f, each (validate_field_format agg aggregate) (sv_entries f)).

(** [validate_identity]. *)
Definition validate_strategy (agg : str) (aggregate rule : V) : Refusal :=
  let strategy : str := default [] (ruby_to_s <$> sv_get rule "strategy") in
  if str_eqb strategy "slug" then
    match given rule "source" with
    | None => Err (agg ++ "'s identity slug strategy needs a source field")
    | Some source =>
      refuse_unless (bool_decide (is_Some (find_attribute aggregate (ruby_to_s source))))
        (agg ++ " has no attribute " ++ inspect source ++ " to slug from")
    end
  else if str_eqb strategy "sequence" then
    refuse_unless (bool_decide (is_Some (given rule "prefix"))) (agg ++ "'s identity sequence strategy needs a prefix")
  else if str_eqb strategy "port" then Ok ()
  else Err (agg ++ "'s identity strategy " ++ inspect (optional rule "strategy") ++ " isn't 'slug', 'sequence', or 'port'").
Definition validate_identity (agg : str) (aggregate rule : V) : Refusal :=
  match given rule "field" with
  | None => Err (agg ++ " has an identity rule with no field named")
  | Some field =>
    let name := ruby_to_s field in
    match find_attribute aggregate name with
    | None => Err (agg ++ " has no attribute " ++ inspect field ++ " to auto-derive")
    | Some attribute =>
      refuse_unless (negb (is_reference attribute))
        (agg ++ "." ++ name ++ " is a reference — identity can only derive a plain field") ;?
      validate_strategy agg aggregate rule
    end
  end.

(** [validate_row_state_filter], [validate_row_columns]; [validate_detail_fields]. *)
Definition validate_row_state_filter (agg : str) (aggregate : V) (key : str) (attribute state_filter : V) : Refusal :=
  let type_name := type_of attribute in
  match find_entity aggregate type_name with
  | None => Err (agg ++ "'s detail field " ++ inspect_str key ++ " has state_filter: but isn't an entity-backed rows field")
  | Some entity =>
    let known := lifecycle_states entity in
    refuse_unless (one_of known (ruby_to_s state_filter))
      (agg ++ "'s detail field " ++ inspect_str key ++ " has state_filter " ++ inspect state_filter ++ ", but " ++ type_name ++
       " has no such state — it declares " ++ join ", " known)
  end.
Definition rows_source (aggregate attribute : V) : option V :=
  if is_list attribute then
    match find_value_object aggregate (type_of attribute) with Some v => Some v | None => find_entity aggregate (type_of attribute) end
  else None.
Definition validate_row_columns (agg : str) (aggregate : V) (key : str) (attribute columns : V) : Refusal :=
  match rows_source aggregate attribute with
  | None => Err (agg ++ "'s detail field " ++ inspect_str key ++ " has columns: but isn't a rows-shaped field")
  | Some source =>
    let known := map attr_name (array source "attributes") in
    each (λ column, refuse_unless (one_of known (ruby_to_s column))
      (agg ++ "'s detail field " ++ inspect_str key ++ " has no row column " ++ inspect column ++ " — it has " ++ join ", " known))
      (list_of (Some columns))
  end.
Definition validate_detail_options (agg : str) (aggregate attribute field : V) : Refusal :=
  let key := ruby_to_s (described_key field) in
  if sv_is_object field then
    on_some (given field "display") (λ display, refuse_unless (one_of VALID_DISPLAYS (ruby_to_s display))
      (agg ++ "'s detail field " ++ inspect (described_key field) ++ " has display " ++ inspect display ++ ", not one of " ++ join ", " VALID_DISPLAYS)) ;?
    on_some (given field "columns") (validate_row_columns agg aggregate key attribute) ;?
    on_some (given field "state_filter") (validate_row_state_filter agg aggregate key attribute)
  else Ok ().
Definition validate_detail_field (agg : str) (aggregate field : V) : Refusal :=
  match find_attribute aggregate (ruby_to_s (described_key field)) with
  | None => Err (agg ++ " has no attribute " ++ inspect (described_key field) ++ " to put in its detail fields — it declares " ++ attribute_names aggregate)
  | Some attribute => validate_detail_options agg aggregate attribute field
  end.
Definition validate_detail_fields (agg : str) (aggregate : V) (entries : option V) : Refusal :=
  each (validate_detail_field agg aggregate) (list_of entries).

(** [validate_list_query]. *)
Definition validate_list_query (agg : str) (aggregate query_name : V) : Refusal :=
  match find_query aggregate (ruby_to_s query_name) with
  | None => Err (agg ++ " has no query " ++ inspect query_name ++ " to use as its list_query")
  | Some query =>
    match array query "attributes" with
    | [] => Ok ()
    | arguments => Err (agg ++ "'s list_query " ++ inspect query_name ++ " takes its own arguments (" ++
        join ", " (map attr_name arguments) ++ ") — a generic table view has nowhere to get them from")
    end
  end.

(** [validate_after_create_arg_spec], [validate_after_create]. *)
Definition cut_dot (dotted : str) : str * str := default (dotted, []) (split_once dotted 46).
Definition counts (agg key : str) (count_query : V) : str :=
  agg ++ "'s after_create arg " ++ inspect_str key ++ " counts " ++ inspect count_query ++ ", but ".
Definition validate_counted (agg key : str) (count_query source : V) (source_name rest : str) : Refusal :=
  match split_once rest 46 with
  | Some (entity_name, query_name) =>
    match find_entity source entity_name with
    | None => Err (counts agg key count_query ++ source_name ++ " has no piece " ++ inspect_str entity_name)
    | Some entity =>
      refuse_unless (bool_decide (is_Some (find_query entity query_name)))
        (counts agg key count_query ++ entity_name ++ " declares no query " ++ inspect_str query_name)
    end
  | None =>
    refuse_unless (bool_decide (is_Some (find_query source rest)))
      (counts agg key count_query ++ source_name ++ " declares no query " ++ inspect_str rest)
  end.
Definition validate_after_create_arg_spec (agg : str) (aggs : list V) (key : str) (spec : V) : Refusal :=
  on_some (given spec "count_query") (λ count_query,
    let (source_name, rest) := cut_dot (ruby_to_s count_query) in
    match find_aggregate aggs source_name with
    | None => Err (counts agg key count_query ++ inspect_str source_name ++ " is not a real aggregate")
    | Some source =>
      validate_counted agg key count_query source source_name rest ;?
      refuse_unless (bool_decide (is_Some (given spec "count_scope_arg")))
        (agg ++ "'s after_create arg " ++ inspect_str key ++ " names count_query but no count_scope_arg") ;?
      refuse_unless (bool_decide (is_Some (given spec "count_scope_value")))
        (agg ++ "'s after_create arg " ++ inspect_str key ++ " names count_query but no count_scope_value")
    end).
Definition validate_after_create_arg (agg : str) (aggs : list V) (dotted : str) (command : V) (arg : str * V) : Refusal :=
  refuse_unless (bool_decide (is_Some (find_attribute command arg.1)))
    (agg ++ "'s after_create names arg " ++ inspect_str arg.1 ++ ", but " ++ dotted ++ " declares no such attribute (it declares " ++
     attribute_names command ++ ")") ;?
  validate_after_create_arg_spec agg aggs arg.1 arg.2.
Definition validate_after_create (agg : str) (aggs : list V) (after_create : V) : Refusal :=
  match given after_create "dispatch" with
  | None => Err (agg ++ "'s after_create names no dispatch")
  | Some dispatch_to =>
    let dotted := ruby_to_s dispatch_to in
    let (target_name, command_name) := cut_dot dotted in
    let dispatches := agg ++ "'s after_create dispatches " ++ inspect dispatch_to ++ ", but " in
    match find_aggregate aggs target_name with
    | None => Err (dispatches ++ inspect_str target_name ++ " is not a real aggregate this domain declares")
    | Some target =>
      match find_command target command_name with
      | None => Err (dispatches ++ target_name ++ " declares no command " ++ inspect_str command_name)
      | Some command =>
        on_some (sv_get after_create "args") (λ args, each (validate_after_create_arg agg aggs dotted command) (sv_entries args))
      end
    end
  end.

(** [validate_collection]. *)
Definition validate_collection (aggs : list V) (agg : str) (entry : V) : Refusal :=
  require_aggregate aggs agg (λ aggregate,
    validate_columns agg aggregate (sv_get entry "columns") ;?
    on_some (sv_get entry "nav_order") (λ nav_order, refuse_unless (sv_is_number nav_order)
      (agg ++ "'s nav_order must be a number, not " ++ inspect nav_order)) ;?
    each (validate_precondition agg aggregate aggs) (list_of (sv_get entry "preconditions")) ;?
    validate_field_formats agg aggregate (sv_get entry "field_formats") ;?
    on_some (given entry "identity") (validate_identity agg aggregate) ;?
    validate_detail_fields agg aggregate (sv_get entry "detail_fields") ;?
    on_some (given entry "list_query") (validate_list_query agg aggregate) ;?
    on_some (given entry "after_create") (validate_after_create agg aggs)).

(** [validate_has_related], [validate_where]. *)
Definition stat_is (label : V) : str := "overview stat " ++ inspect label.
Definition keyed (by_key : list (str * V)) (key : str) : option (str * V) := find (λ kv, str_eqb kv.1 key) by_key.
Definition validate_equals (aggregate spec label : V) : Refusal :=
  let equals : str := match given spec "equals" with Some v => ruby_to_s v | None => "id" end in
  refuse_unless (str_eqb equals "id" || bool_decide (is_Some (find_attribute aggregate equals)))
    (stat_is label ++ "'s has_related.equals " ++ inspect_str equals ++ " isn't a real field on " ++ agg_name aggregate).
Definition validate_has_related (aggregate : V) (by_key : list (str * V)) (label spec : V) : Refusal :=
  match given spec "collection" with
  | None => Err (stat_is label ++ "'s has_related names no collection")
  | Some target_key =>
    match keyed by_key (ruby_to_s target_key) with
    | None => Err (stat_is label ++ "'s has_related names collection " ++ inspect target_key ++ ", which isn't real")
    | Some (_, target) =>
      match given spec "field" with
      | None => Err (stat_is label ++ "'s has_related names no field:")
      | Some f =>
        refuse_unless (bool_decide (is_Some (find_attribute target (ruby_to_s f))))
          (stat_is label ++ "'s has_related.field " ++ inspect f ++ " isn't a real field on " ++ agg_name target) ;?
        validate_equals aggregate spec label
      end
    end
  end.
Definition first_of (condition : V) : option V := items ← sv_get_array condition "in"; list.head items.
Definition named_state (condition : V) : V :=
  if sv_is_object condition then
    or_null (match sv_get condition "eq" with
             | Some v => Some v
             | None => match sv_get condition "ne" with Some v => Some v | None => first_of condition end
             end)
  else condition.
Definition validate_clause (aggregate : V) (by_key : list (str * V)) (label : V) (clause : str * V) : Refusal :=
  if str_eqb clause.1 "has_related" || str_eqb clause.1 "not_has_related" then validate_has_related aggregate by_key label clause.2
  else if negb (str_eqb clause.1 "state") then Ok ()
  else
    let known := lifecycle_states aggregate in
    let state := named_state clause.2 in
    refuse_unless (sv_is_null state || one_of known (ruby_to_s state))
      (stat_is label ++ "'s where: state " ++ inspect state ++ " isn't one of " ++ agg_name aggregate ++ "'s own states (" ++ join ", " known ++ ")").
Fixpoint validate_where (depth : nat) (aggregate : V) (by_key : list (str * V)) (label clause : V) : Refusal :=
  match depth with
  | O => Ok ()
  | S depth =>
    if sv_is_object clause then
      match sv_get clause "not" with
      | Some negated => validate_where depth aggregate by_key label negated
      | None => each (validate_clause aggregate by_key label) (sv_entries clause)
      end
    else Ok ()
  end.

(** [validate_stat], [validate_overview]. *)
Definition fold_of (stat : V) : str := match given stat "as" with Some v => ruby_to_s v | None => "count" end.
Definition validate_stat (by_key : list (str * V)) (stat : V) : Refusal :=
  match given stat "collection" with
  | None => Err "an overview stat has no collection named"
  | Some collection =>
    match keyed by_key (ruby_to_s collection) with
    | None => Err ("overview stat names collection " ++ inspect collection ++ ", which isn't a real collection key")
    | Some (_, aggregate) =>
      let label := optional stat "label" in
      refuse_unless (one_of VALID_FOLDS (fold_of stat))
        (stat_is label ++ "'s as: " ++ inspect_str (fold_of stat) ++ " isn't one of " ++ join ", " VALID_FOLDS) ;?
      refuse_unless (negb (str_eqb (fold_of stat) "money_sum" && bool_decide (given stat "field" = None)))
        (stat_is label ++ " folds as money_sum but names no field") ;?
      validate_where DEPTH aggregate by_key label (optional stat "where")
    end
  end.
Definition by_collection_key (aggs : list V) (config : V) : list (str * V) := map (λ a, (collection_key a config, a)) aggs.
Definition validate_overview (ov : V) (aggs : list V) (config : V) : Refusal :=
  each (validate_stat (by_collection_key aggs config)) (list_of (sv_get ov "stats")).

(** [refuse_unsupported_yet]; [validate]. *)
Definition refuse_unsupported_yet (collections : V) : Refusal :=
  each (λ '(agg, entry), refuse_unless (bool_decide (given entry "after_create" = None))
    (agg ++ "'s after_create isn't stored by ConsoleSettings yet (see console_settings.bluebook's own header) — remove it before saving"))
    (sv_entries collections).
Definition validate (config domain_ir : V) : Refusal :=
  let aggs := aggregates domain_ir in
  let states := section config "states" in
  let collections := section config "collections" in
  each (λ '(agg, per_state), validate_states aggs agg per_state) (sv_entries states) ;?
  missing_state_entries states aggs ;?
  each (λ '(agg, entry), validate_collection aggs agg entry) (sv_entries collections) ;?
  validate_overview (section config "overview") aggs config ;?
  refuse_unsupported_yet collections.
End validation.

(** ** A save *)
Section saving.
Context `{U : UnicodeTables} `{UU : UnicodeUpper} {V I : Type} `{SV : Serde V} `{SN : SerdeNumbers V} `{SB : !Sandbox V}
  `{SE : !SerdeEq V} `{Inv : !Invoker V I}.
Context (wasm_path : str) (c : HostStore.LineageConfig) (installed : option V) (ir_depth : nat) (fault : option HostStore.Fault) (mode : Enforcement).
Context (clock : nat → Moment).

(** [declare], [route] and [accepted]: a command of the host itself, which refuses the
    save where the kernel refuses it. *)
Definition perform (w : Write V) (now again : Moment) (h : HostState V I) : Prelude.result str (Outcome V) * HostState V I :=
  match w with
  | Declares verb facts => handle_facts wasm_path c installed ir_depth fault mode verb facts None now again h
  | Routes verb id facts => handle_routed wasm_path c installed ir_depth fault mode verb (sv_str id) facts None now again h
  end.
Fixpoint run_writes (tick : nat) (writes : list (Write V)) (h : HostState V I) : Prelude.result (SaveRefusal V) unit * HostState V I :=
  match writes with
  | [] => (Ok (), h)
  | w :: writes =>
    match perform w (clock tick) (clock (S tick)) h with
    | (Err e, h) => (Err (Internal e), h)
    | (Ok outcome, h) =>
      if accepted outcome then run_writes (S (S tick)) writes h else (Err (DomainRefusal (result_of outcome)), h)
    end
  end.

(** [save]. *)
Definition save (domain_ir submitted : V) (h : HostState V I) : Prelude.result (SaveRefusal V) V * HostState V I :=
  match kernel_rows wasm_path installed (clock_secs (clock 0)) (store h) with
  | Err e => (Err (Internal e), h)
  | Ok None => (Err NoKernel, h)
  | Ok (Some existing) =>
    match validate submitted domain_ir with
    | Err message => (Err (Malformed message), h)
    | Ok _ =>
      match run_writes 0 (writes_of submitted existing) h with
      | (Err e, h) => (Err e, h)
      | (Ok _, h) =>
        (match load wasm_path c installed (clock_secs (clock 0)) (store h) with
         | Ok config => Ok config
         | Err e => Err (Internal e)
         end, h)
      end
    end
  end.
End saving.

(** ** Facts: what is saved is what is loaded *)

(** What the library says of the kinds of values. *)
Class SerdeKinds (V : Type) `{SV : Serde V} : Prop := {
  sv_str_not_null s : sv_is_null (sv_str s) = false;
  sv_str_not_bool s : sv_as_bool (sv_str s) = None;
  sv_object_not_null v : sv_is_object v = true → sv_is_null v = false;
  sv_object_not_bool v : sv_is_object v = true → sv_as_bool v = None;
  sv_bool_not_null b : sv_is_null (sv_bool b) = false;
  sv_bool_not_str b : sv_as_str (sv_bool b) = None;
  sv_bool_text b : sv_text (sv_bool b) = debug_bool b;
  sv_array_not_null l : sv_is_null (sv_array l) = false
}.
#[global] Instance json_kinds : SerdeKinds Json.Json.
Proof. split; try done; try (by intros []). Qed.

Create HintDb rows.
Section round_trip.
Context `{U : UnicodeTables} {V : Type} `{SV : Serde V} `{SL : !SerdeLaws V} `{SEn : !SerdeEntries V} `{SK : !SerdeKinds V}
  `{SB : !Sandbox V} `{SE : !SerdeEq V}.

(** A value is read back from its text. *)
Definition reads_back (v : V) : Prop := sv_text v ≠ [] ∧ sv_from_str (sv_text v) = Ok v.
(** What an entry holds beyond the known keys. *)
Definition beyond (entry : V) (known : list str) : V := insert_all sv_object (extra_fields entry known).

Lemma one_of_spec (l : list str) (k : str) : one_of l k = true ↔ k ∈ l.
Proof.
  unfold one_of. rewrite existsb_exists. split.
  - intros (x & Hx & E). unfold str_eqb in E. case_bool_decide; [subst; by apply list_elem_of_In|done].
  - intros H. exists k. split; [by apply list_elem_of_In|]. unfold str_eqb. by rewrite bool_decide_true.
Qed.
Lemma assoc_filter (p : str → bool) (l : list (str * V)) (k : str) :
  assoc k (List.filter (λ kv, p kv.1) l) = if p k then assoc k l else None.
Proof.
  induction l as [|[j x] l IH]; [by destruct (p k)|]. cbn [List.filter fst]. destruct (p j) eqn:Ej; cbn [assoc].
  - case_bool_decide; [subst; by rewrite Ej|exact IH].
  - rewrite IH. case_bool_decide; [subst; by rewrite Ej|done].
Qed.
(** The keys of an object differ. *)
Definition keyed_once (entry : V) : Prop := NoDup (sv_entries entry).*1.
Lemma extra_nodup (entry : V) (known : list str) : keyed_once entry → NoDup (extra_fields entry known).*1.
Proof.
  unfold extra_fields, keyed_once. generalize (sv_entries entry).
  induction l as [|[j x] l IH]; intros H; [constructor|]. cbn [fmap list_fmap fst] in H. apply list.NoDup_cons in H as [Hj H].
  cbn [List.filter]. destruct (negb _); [|by apply IH]. cbn [fmap list_fmap fst]. constructor; [|by apply IH].
  intros Hin. apply Hj. apply list_elem_of_fmap in Hin as ([k y] & -> & [Hin _]%list_elem_of_In%filter_In).
  apply list_elem_of_fmap. exists (k, y). split; [done|by apply list_elem_of_In].
Qed.
Lemma beyond_get (entry : V) (known : list str) (k : str) :
  keyed_once entry → sv_get (beyond entry known) k = if one_of known k then None else sv_get entry k.
Proof.
  intros Hnd. unfold beyond. rewrite insert_all_get; [|apply sv_object_is|by apply extra_nodup]. rewrite sv_get_object.
  unfold extra_fields. rewrite (assoc_filter (λ j, negb (one_of known j))), <- sv_get_entries.
  destruct (one_of known k); [done|]. by destruct (sv_get entry k).
Qed.
Lemma or_insert_get (entry : V) (fields : list (str * V)) (k : str) :
  sv_is_object entry = true →
  sv_get (fold_left or_insert fields entry) k = match sv_get entry k with Some x => Some x | None => assoc k fields end.
Proof.
  revert entry. induction fields as [|[j x] fields IH]; intros entry Ho; [cbn; by destruct (sv_get entry k)|]. cbn [fold_left].
  assert (sv_is_object (or_insert entry (j, x)) = true) as Ho'.
  { unfold or_insert. destruct (sv_contains entry _); [done|by apply sv_insert_is]. }
  rewrite IH by done. unfold or_insert, sv_contains. cbn [fst snd assoc]. destruct (sv_get entry j) as [y|] eqn:Ej.
  - case_bool_decide; [subst; by rewrite Ej|done].
  - rewrite sv_get_insert by done. case_bool_decide as Hk.
    + subst. rewrite decide_True by done. by rewrite Ej.
    + by rewrite decide_False by congruence.
Qed.
Lemma unwrap_str_value (s : str) : unwrap (sv_str s) = sv_str s.
Proof.
  unfold unwrap. destruct (sv_get (sv_str s) "value") eqn:E; [|done]. apply sv_get_is in E. by rewrite sv_str_not_object in E.
Qed.
Lemma present_str (s : str) : present (Some (sv_str s)) = Some (sv_str s).
Proof. unfold present. cbn. by rewrite sv_str_not_null, sv_str_not_bool. Qed.
Lemma valued_get (v : V) : sv_get (valued v) "value" = Some v.
Proof. unfold valued. sv_field. Qed.
Lemma valued_is (v : V) : sv_is_object (valued v) = true.
Proof. apply sv_obj_is, sv_object_is. Qed.
Lemma present_valued (v : V) : present (Some (valued v)) = Some (valued v).
Proof. unfold present. cbn. by rewrite sv_object_not_null, sv_object_not_bool by apply valued_is. Qed.
Lemma unwrap_valued (v : V) : unwrap (valued v) = v.
Proof. unfold unwrap. by rewrite valued_get. Qed.

(** The extras of a row, merged into an entry: every key the entry has not. *)
Definition holds_extra (entry : V) (known : list str) (o : option V) : Prop :=
  o = match extra_fields entry known with [] => None | extra => Some (extra_text extra) end.
Lemma merge_text (entry extra value : V) (k : str) :
  sv_is_object entry = true → sv_is_object extra = true → reads_back extra → present (Some value) = Some value →
  unwrap value = sv_str (sv_text extra) →
  sv_get (merge_extra entry (Some value)) k = match sv_get entry k with Some x => Some x | None => sv_get extra k end.
Proof.
  intros Ho Hx [Hne Hr] Hp Hu. unfold merge_extra. rewrite Hp. cbn [mbind option_bind]. rewrite Hu, sv_as_str_str.
  destruct (sv_text extra) as [|c t] eqn:Et; [done|]. cbn iota. rewrite Hr, Hx.
  rewrite or_insert_get by done. by rewrite <- sv_get_entries.
Qed.
Lemma merge_extra_back (entry source : V) (known : list str) (o : option V) (k : str) :
  sv_is_object entry = true → keyed_once source → reads_back (beyond source known) → holds_extra source known o →
  sv_get (merge_extra entry o) k = match sv_get entry k with Some x => Some x | None => if one_of known k then None else sv_get source k end.
Proof.
  intros Ho Hnd Hr ->. rewrite <- beyond_get by done. unfold beyond in *. destruct (extra_fields source known) as [|kv extra].
  - unfold insert_all. cbn [fold_left]. rewrite sv_get_object. unfold merge_extra. cbn. by destruct (sv_get entry k).
  - apply merge_text; [done|apply insert_all_is, sv_object_is|done|apply present_str|apply unwrap_str_value].
Qed.

(** *** Rows and what they are reshaped into *)
Lemma insert_is (v x : V) (k : str) : sv_is_object v = true → sv_is_object (sv_insert v k x) = true.
Proof. apply sv_insert_is. Qed.
Lemma insert_some_is (v : V) (k : str) (o : option V) : sv_is_object v = true → sv_is_object (insert_some v k o) = true.
Proof. destruct o; [apply sv_insert_is|done]. Qed.
Lemma with_extra_is (row : V) (k : str) (extra : list (str * V)) : sv_is_object row = true → sv_is_object (with_extra row k extra) = true.
Proof. destruct extra; [done|apply sv_insert_is]. Qed.
Lemma get_insert_here (v x : V) (k : str) : sv_is_object v = true → sv_get (sv_insert v k x) k = Some x.
Proof. intros H. rewrite sv_get_insert by done. by rewrite decide_True. Qed.
Lemma get_insert_other (v x : V) (k k' : str) : sv_is_object v = true → k ≠ k' → sv_get (sv_insert v k x) k' = sv_get v k'.
Proof. intros H ?. rewrite sv_get_insert by done. by rewrite decide_False. Qed.
Lemma get_some_here (v : V) (k : str) (o : option V) : sv_is_object v = true → sv_get v k = None → sv_get (insert_some v k o) k = o.
Proof. intros H Hn. destruct o; [by apply get_insert_here|done]. Qed.
Lemma get_some_other (v : V) (k k' : str) (o : option V) : sv_is_object v = true → k ≠ k' → sv_get (insert_some v k o) k' = sv_get v k'.
Proof. intros H ?. destruct o; [by apply get_insert_other|done]. Qed.
Lemma get_extra_here (row : V) (k : str) (extra : list (str * V)) : sv_is_object row = true → sv_get row k = None →
  sv_get (with_extra row k extra) k = match extra with [] => None | _ => Some (extra_text extra) end.
Proof. intros H Hn. destruct extra; [done|by apply get_insert_here]. Qed.
Lemma get_extra_other (row : V) (k k' : str) (extra : list (str * V)) : sv_is_object row = true → k ≠ k' →
  sv_get (with_extra row k extra) k' = sv_get row k'.
Proof. intros H ?. destruct extra; [done|by apply get_insert_other]. Qed.

#[local] Hint Resolve insert_is insert_some_is with_extra_is sv_object_is valued_is : rows.
(** The value a built row holds under a literal key. *)
Ltac row_get :=
  repeat first
    [ rewrite get_insert_here by auto 10 with rows
    | rewrite get_insert_other by (auto 10 with rows || discriminate)
    | rewrite get_some_other by (auto 10 with rows || discriminate)
    | rewrite get_extra_other by (auto 10 with rows || discriminate)
    | rewrite sv_get_object ].
Lemma row_extra (row source : V) (known : list str) :
  sv_is_object row = true → sv_get row "extra_json" = None →
  holds_extra source known (sv_get (with_extra row "extra_json" (extra_fields source known)) "extra_json").
Proof. intros Ho Hn. unfold holds_extra. rewrite get_extra_here by done. by destruct (extra_fields _ _). Qed.

Lemma precondition_back (rule : V) (k : str) :
  keyed_once rule → reads_back (beyond rule KNOWN_PRECONDITION_KEYS) →
  sv_get (reshape_precondition (precondition_row rule)) k =
  if one_of KNOWN_PRECONDITION_KEYS k then Some (optional rule k) else sv_get rule k.
Proof.
  intros Hnd Hr. unfold reshape_precondition. set (row := precondition_row rule).
  assert (sv_get row "field" = Some (optional rule "field")) as Ef by (unfold row, precondition_row; by row_get).
  assert (sv_get row "state" = Some (optional rule "state")) as Es by (unfold row, precondition_row; by row_get).
  rewrite (merge_extra_back _ rule KNOWN_PRECONDITION_KEYS); [|auto 10 with rows|done|done|].
  2: { apply row_extra; [auto 10 with rows|by row_get]. }
  change (optional row "field") with (or_null (sv_get row "field")). change (optional row "state") with (or_null (sv_get row "state")).
  rewrite Ef, Es. cbn [or_null default].
  destruct (decide (k = "field")) as [->|Hf]; [by row_get|]. destruct (decide (k = "state")) as [->|Hs]; [by row_get|].
  rewrite !get_insert_other, sv_get_object by (auto 10 with rows || congruence).
  destruct (one_of _ k) eqn:E; [|done].
  apply one_of_spec in E. set_solver.
Qed.

(** The key an entry holds is one of the known or an extra. *)
Lemma not_known (known : list str) (k : str) : k ∉ known → one_of known k = false.
Proof. intros H. destruct (one_of known k) eqn:E; [|done]. by apply one_of_spec in E. Qed.
Lemma option_case (entry source : V) (k : str) (known : list str) (o : option V) :
  sv_get entry k = o → one_of known k = true →
  match sv_get entry k with Some x => Some x | None => if one_of known k then None else sv_get source k end = o.
Proof. intros -> ->. by destruct o. Qed.

(** A column as validation admits it. *)
Definition sorting_ok (column : V) : Prop :=
  is_Some (sv_get column "field") ∧
  (sv_get column "sortable" = None ∨ ∃ b, sv_get column "sortable" = Some (sv_bool b)) ∧
  (sv_get column "sort_default" = None ∨ ∃ t, sv_get column "sort_default" = Some (sv_str t)).
Lemma flag_text (b : bool) : flag (sv_str (ruby_to_s (sv_bool b))) = (sv_bool b : V).
Proof.
  unfold flag, ruby_to_s. rewrite sv_bool_not_str, sv_bool_not_null, sv_bool_text, unwrap_str_value, sv_as_str_str.
  by destruct b.
Qed.
Lemma column_back (column : V) (k : str) :
  sorting_ok column → keyed_once column → reads_back (beyond column KNOWN_COLUMN_KEYS) →
  sv_get (reshape_column (column_row column)) k = sv_get column k.
Proof.
  intros ([f Hf] & Hs & Hd) Hnd Hr. pose proof (sv_get_is _ _ _ Hf) as Ho.
  unfold reshape_column. set (row := column_row column).
  assert (sv_get row "field" = Some f) as Ef.
  { unfold row, column_row. rewrite Ho. row_get. change (optional column "field") with (or_null (sv_get column "field")). by rewrite Hf. }
  assert (sv_get row "sortable" = (λ s, sv_str (ruby_to_s s)) <$> sv_get column "sortable") as Es.
  { unfold row, column_row. rewrite Ho. row_get. rewrite get_some_here; [done|auto 10 with rows|by row_get]. }
  assert (sv_get row "sort_default" = given column "sort_default") as Ed.
  { unfold row, column_row. rewrite Ho. row_get. rewrite get_some_here; [done|auto 10 with rows|by row_get]. }
  assert (holds_extra column KNOWN_COLUMN_KEYS (sv_get row "extra_json")) as Ex.
  { unfold row, column_row. rewrite Ho. apply row_extra; [auto 10 with rows|by row_get]. }
  rewrite (merge_extra_back _ column KNOWN_COLUMN_KEYS) by (done || auto 10 with rows).
  change (optional row "field") with (or_null (sv_get row "field")). unfold present_at. rewrite Ef, Es, Ed. cbn [or_null default].
  assert (flag <$> present ((λ s, sv_str (ruby_to_s s)) <$> sv_get column "sortable") = sv_get column "sortable") as ->.
  { destruct Hs as [-> |[b ->]]; [done|]. cbn [fmap option_fmap option_map]. rewrite present_str. cbn. by rewrite flag_text. }
  assert (unwrap <$> present (given column "sort_default") = sv_get column "sort_default") as ->.
  { unfold given. destruct Hd as [-> |[t ->]]; [done|]. cbn [mbind option_bind]. rewrite sv_str_not_null, present_str. cbn. by rewrite unwrap_str_value. }
  destruct (decide (k = "field")) as [->|Hkf]; [apply option_case; [row_get; by rewrite Hf|done]|].
  destruct (decide (k = "sortable")) as [->|Hks].
  { apply option_case; [|done]. row_get. rewrite get_some_here; [done|auto 10 with rows|by row_get]. }
  destruct (decide (k = "sort_default")) as [->|Hkd].
  { apply option_case; [|done]. rewrite get_some_here; [done|auto 10 with rows|by row_get]. }
  rewrite !get_some_other, get_insert_other, sv_get_object by (auto 10 with rows || congruence).
  rewrite not_known; [done|]. set_solver.
Qed.

(** The facts of an identity's command, held by its record. *)
Definition facts_of (w : Write V) : V := match w with Declares _ facts | Routes _ _ facts => facts end.
Lemma identity_back (agg : str) (identity : V) :
  keyed_once identity → reads_back (beyond identity KNOWN_IDENTITY_KEYS) →
  ∃ loaded, reshape_identity (facts_of (write_identity agg identity)) = Some loaded ∧
    ∀ k, sv_get loaded k = if one_of ["field" : str; "strategy" : str] k then Some (optional identity k)
                           else if one_of ["source" : str; "prefix" : str] k then given identity k else sv_get identity k.
Proof.
  intros Hnd Hr. unfold reshape_identity, write_identity. cbn [facts_of].
  set (extra := extra_fields identity KNOWN_IDENTITY_KEYS).
  set (facts := match extra with [] => _ | _ => _ end).
  set (base := insert_some (insert_some (sv_insert (sv_insert sv_object "identity_field" (valued (optional identity "field"))) "identity_strategy"
    (valued (optional identity "strategy"))) "identity_source" (valued <$> given identity "source")) "identity_prefix" (valued <$> given identity "prefix")).
  assert (sv_is_object base = true) as Hbo by (unfold base; auto 10 with rows).
  assert (∀ k, k ≠ "identity_extra_json" → sv_get facts k = sv_get base k) as Hbase.
  { intros k Hk. unfold facts. destruct extra; [done|]. fold base. by rewrite get_insert_other by (done || congruence). }
  assert (sv_get facts "identity_field" = Some (valued (optional identity "field"))) as Ef by (rewrite Hbase by done; unfold base; by row_get).
  assert (sv_get facts "identity_strategy" = Some (valued (optional identity "strategy"))) as Es by (rewrite Hbase by done; unfold base; by row_get).
  assert (sv_get facts "identity_source" = valued <$> given identity "source") as Eo.
  { rewrite Hbase by done. unfold base. row_get. rewrite get_some_here; [done|auto 10 with rows|by row_get]. }
  assert (sv_get facts "identity_prefix" = valued <$> given identity "prefix") as Ep.
  { rewrite Hbase by done. unfold base. rewrite get_some_here; [done|auto 10 with rows|by row_get]. }
  unfold present_at. rewrite Ef, Es, Eo, Ep, present_valued. cbn [fmap option_fmap option_map mbind option_bind or_null default].
  rewrite !unwrap_valued. eexists. split; [reflexivity|]. intros k.
  assert (∀ o, unwrap <$> present (valued <$> o) = (o : option V)) as Hv.
  { intros [v|]; [|done]. cbn [fmap option_fmap option_map]. rewrite present_valued. cbn [fmap option_fmap option_map]. by rewrite unwrap_valued. }
  rewrite !Hv. set (entry := insert_some _ "prefix" _). assert (sv_is_object entry = true) as He by (unfold entry; auto 10 with rows).
  assert (sv_get (merge_extra entry (sv_get facts "identity_extra_json")) k =
    match sv_get entry k with Some x => Some x | None => if one_of KNOWN_IDENTITY_KEYS k then None else sv_get identity k end) as ->.
  { unfold facts, extra. pose proof (beyond_get identity KNOWN_IDENTITY_KEYS k Hnd) as Hb. rewrite <- Hb. clear Hb. unfold beyond in *.
    destruct (extra_fields identity _) as [|kv rest] eqn:Ex.
    - fold base. assert (sv_get base "identity_extra_json" = None) as -> by (unfold base; by row_get).
      unfold insert_all. cbn [fold_left]. rewrite sv_get_object. cbn. by destruct (sv_get entry k).
    - fold base. rewrite get_insert_here by done.
      apply merge_text; [done|apply insert_all_is, sv_object_is|done|apply present_valued|apply unwrap_valued]. }
  unfold entry. destruct (decide (k = "field")) as [->|Hkf]; [apply option_case; [by row_get|done]|].
  destruct (decide (k = "strategy")) as [->|Hks]; [apply option_case; [by row_get|done]|].
  destruct (decide (k = "source")) as [->|Hko]; [apply option_case; [|done]; row_get; rewrite get_some_here; [done|auto 10 with rows|by row_get]|].
  destruct (decide (k = "prefix")) as [->|Hkp]; [apply option_case; [|done]; rewrite get_some_here; [done|auto 10 with rows|by row_get]|].
  rewrite !get_some_other, !get_insert_other, sv_get_object by (auto 10 with rows || congruence).
  rewrite !not_known by set_solver. done.
Qed.
End round_trip.

(** ** Facts: what a document that is admitted satisfies *)
Lemma each_ok {A} (check : A → Refusal) (l : list A) : each check l = Ok () → ∀ a, a ∈ l → check a = Ok ().
Proof.
  induction l as [|b l IH]; intros H a Ha; [by apply elem_of_nil in Ha|]. cbn [each] in H.
  destruct (check b) as [[]|] eqn:E; [|done]. apply elem_of_cons in Ha as [->|Ha]; [done|by apply IH].
Qed.
Lemma and_then_ok (a b : Refusal) : and_then a b = Ok () → a = Ok () ∧ b = Ok ().
Proof. destruct a as [[]|]; [done|done]. Qed.
Lemma refuse_unless_ok (b : bool) (message : str) : refuse_unless b message = Ok () → b = true.
Proof. by destruct b. Qed.
Lemma on_some_ok {A} (o : option A) (check : A → Refusal) (a : A) : on_some o check = Ok () → o = Some a → check a = Ok ().
Proof. by intros H ->. Qed.

Section admitted.
Context `{U : UnicodeTables} `{UU : UnicodeUpper} {V : Type} `{SV : Serde V} `{SN : SerdeNumbers V}.
Context (config domain_ir : V) (Hvalid : validate config domain_ir = Ok ()).

Lemma validated :
  let aggs := aggregates domain_ir in
  (∀ entry, entry ∈ sv_entries (section config "states") → validate_states aggs entry.1 entry.2 = Ok ()) ∧
  missing_state_entries (section config "states") aggs = Ok () ∧
  (∀ entry, entry ∈ sv_entries (section config "collections") → validate_collection aggs entry.1 entry.2 = Ok ()) ∧
  (∀ entry, entry ∈ sv_entries (section config "collections") → given entry.2 "after_create" = None).
Proof.
  cbn zeta. unfold validate in Hvalid. apply and_then_ok in Hvalid as [Hs [Hm [Hc [_ Ha]%and_then_ok]%and_then_ok]%and_then_ok].
  split_and!; [|done| |].
  - intros [agg per_state] Hin. by apply (each_ok _ _ Hs) in Hin.
  - intros [agg entry] Hin. by apply (each_ok _ _ Hc) in Hin.
  - intros [agg entry] Hin. apply (each_ok _ _ Ha) in Hin. apply refuse_unless_ok in Hin. by case_bool_decide.
Qed.

(** Every state of the domain has its entry, and every entry is a state's. *)
Lemma states_are_styled (aggregate : V) (state : str) :
  aggregate ∈ aggregates domain_ir → state ∈ lifecycle_states aggregate →
  ∃ per_state entry, sv_get (section config "states") (agg_name aggregate) = Some per_state ∧ sv_get per_state state = Some entry.
Proof.
  intros Ha Hs. destruct validated as (_ & Hm & _). unfold missing_state_entries in Hm.
  destruct (flat_map _ _) as [|m missing] eqn:E; [|done].
  assert (unstyled (section config "states") aggregate = []) as Hu.
  { destruct (unstyled (section config "states") aggregate) as [|u us] eqn:Eu; [done|]. exfalso.
    assert (u ∈ flat_map (unstyled (section config "states")) (aggregates domain_ir)) as Hin.
    { apply list_elem_of_In, in_flat_map. exists aggregate. split; [by apply list_elem_of_In|]. rewrite Eu. by left. }
    rewrite E in Hin. by apply elem_of_nil in Hin. }
  unfold unstyled in Hu. destruct (sv_get (section config "states") (agg_name aggregate)) as [per_state|] eqn:Ep.
  - destruct (sv_get per_state state) as [entry|] eqn:Ee; [by exists per_state, entry|]. exfalso.
    assert (agg_name aggregate ++ "." ++ state ∈ ([] : list str)) as Hin; [|by apply elem_of_nil in Hin].
    rewrite <- Hu. apply list_elem_of_omap. exists state. split; [done|]. cbn [mbind option_bind]. by rewrite Ee, bool_decide_false by by intros [].
  - exfalso. assert (agg_name aggregate ++ "." ++ state ∈ ([] : list str)) as Hin; [|by apply elem_of_nil in Hin].
    rewrite <- Hu. apply list_elem_of_omap. exists state. split; [done|]. cbn [mbind option_bind]. by rewrite bool_decide_false by by intros [].
Qed.
Lemma entries_are_states (agg state : str) (per_state entry : V) :
  (agg, per_state) ∈ sv_entries (section config "states") → (state, entry) ∈ sv_entries per_state →
  ∃ aggregate, aggregate ∈ aggregates domain_ir ∧ agg_name aggregate = agg ∧ state ∈ lifecycle_states aggregate ∧
    (∀ tone, given entry "tone" = Some tone → ruby_to_s tone ∈ VALID_TONES).
Proof.
  intros Ha Hs. destruct validated as (Hv & _). specialize (Hv _ Ha). cbn [fst snd] in Hv. unfold validate_states, require_aggregate in Hv.
  destruct (find_aggregate _ agg) as [aggregate|] eqn:Ef; [|done]. apply find_some in Ef as [Hin En].
  apply (each_ok _ _ Hv) in Hs. apply and_then_ok in Hs as [Hk%refuse_unless_ok [Ht _]%and_then_ok].
  exists aggregate. split_and!; [by apply list_elem_of_In| |by apply one_of_spec|].
  - unfold str_eqb in En. by case_bool_decide.
  - intros tone Htone. apply (on_some_ok _ _ _ Ht), refuse_unless_ok, one_of_spec in Htone. done.
Qed.

(** A precondition admitted is on a reference, and its state is one of the target's. *)
Lemma preconditions_on_references (agg : str) (entry rule : V) :
  (agg, entry) ∈ sv_entries (section config "collections") → rule ∈ list_of (sv_get entry "preconditions") →
  ∃ aggregate field attribute target_name, find_aggregate (aggregates domain_ir) agg = Some aggregate ∧ given rule "field" = Some field ∧
    find_attribute aggregate (ruby_to_s field) = Some attribute ∧ reference_target (type_of attribute) = Some target_name ∧
    (∀ state target, given rule "state" = Some state → find_aggregate (aggregates domain_ir) target_name = Some target →
       ruby_to_s state ∈ lifecycle_states target).
Proof.
  intros He Hr. destruct validated as (_ & _ & Hc & _). specialize (Hc _ He). cbn [fst snd] in Hc.
  unfold validate_collection, require_aggregate in Hc. destruct (find_aggregate _ agg) as [aggregate|]; [|done].
  apply and_then_ok in Hc as [_ [_ [Hp _]%and_then_ok]%and_then_ok]. apply (each_ok _ _ Hp) in Hr.
  unfold validate_precondition in Hr. destruct (given rule "field") as [field|]; [|done].
  destruct (find_attribute aggregate (ruby_to_s field)) as [attribute|] eqn:Ea; [|done]. cbn [mbind option_bind] in Hr.
  unfold is_reference in Hr. case_bool_decide as Hir; [|done]. destruct Hir as [target_name Ht].
  exists aggregate, field, attribute, target_name. split_and!; try done. intros state target Hst Htg.
  unfold validate_precondition_state in Hr. rewrite Hst in Hr. cbn [on_some] in Hr. rewrite Ht in Hr. cbn [on_some] in Hr.
  rewrite Htg in Hr. cbn [on_some] in Hr. by apply refuse_unless_ok, one_of_spec in Hr.
Qed.
End admitted.

(** *** A collection that is kept *)
Section collection_row.
Context `{U : UnicodeTables} `{UU : UnicodeUpper} {V : Type} `{SV : Serde V} `{SL : !SerdeLaws V} `{SK : !SerdeKinds V}
  `{SEn : !SerdeEntries V} `{SB : !Sandbox V} `{SE : !SerdeEq V}.
#[local] Hint Resolve insert_is insert_some_is sv_object_is : rows.
Lemma merge_extra_keeps (entry x : V) (o : option V) (k : str) :
  sv_is_object entry = true → sv_get entry k = Some x → sv_get (merge_extra entry o) k = Some x.
Proof.
  intros Ho Hk. unfold merge_extra. destruct (present o) as [v|]; [|done]. cbn [mbind option_bind].
  destruct (sv_as_str (unwrap v)) as [[|c t]|]; try done. destruct (sv_from_str (c :: t)) as [extra|]; [|done].
  destruct (sv_is_object extra); [|done]. rewrite or_insert_get by done. by rewrite Hk.
Qed.
Lemma kept_lists (row : V) :
  sv_get (reshape_collection_row row) "columns" = Some (sv_array (map reshape_column (sv_list row "columns"))) ∧
  sv_get (reshape_collection_row row) "detail_fields" = Some (reshape_detail_fields row).
Proof.
  unfold reshape_collection_row. set (base := insert_some _ "identity" _).
  assert (sv_is_object base = true) as Hb by (unfold base; cbn [fold_left]; auto 12 with rows).
  split; apply merge_extra_keeps; auto 12 with rows.
  - rewrite 3 get_insert_other by (auto 12 with rows || discriminate). by apply get_insert_here.
  - rewrite 2 get_insert_other by (auto 12 with rows || discriminate). apply get_insert_here. auto with rows.
Qed.
Lemma configured_empty (otherwise : list V) : configured_list (Some (sv_array [])) otherwise = [].
Proof. unfold configured_list. by rewrite sv_array_not_null, sv_as_array_array. Qed.
End collection_row.

(** ** Properties *)

(** A collection kept without columns has none.  Whatever else is configured of it, the
    record of a collection that lists no columns and no detail fields is loaded with
    empty lists, which the interface takes for an answer: its table and its page show
    nothing, where an aggregate with no record at all shows its every field. *)
Theorem kept_collections_show_nothing `{U : UnicodeTables} `{UU : UnicodeUpper} {V : Type} `{SV : Serde V} `{SL : !SerdeLaws V} `{SK : !SerdeKinds V}
    `{SEn : !SerdeEntries V} `{SB : !Sandbox V} `{SE : !SerdeEq V} (row aggregate : V) (fields : list V) (by_name : gmap str V) (keys : gmap str str) :
  sv_list row "columns" = [] → sv_list row "detail_fields" = [] →
  build_columns fields aggregate by_name keys (sv_get (reshape_collection_row row) "columns") = sv_array [] ∧
  build_detail_fields fields aggregate by_name keys (sv_get (reshape_collection_row row) "detail_fields") = sv_array [] ∧
  build_columns fields aggregate by_name keys None = sv_array (map (column_for fields aggregate by_name keys) (default_columns fields aggregate)).
Proof.
  intros Hc Hd. destruct (kept_lists row) as [Ec Ed]. unfold reshape_detail_fields in Ed. rewrite Hc in Ec. rewrite Hd in Ed. cbn [map] in Ec, Ed.
  rewrite Ec, Ed. unfold build_columns, build_detail_fields. by rewrite !configured_empty.
Qed.

(** C27: what is saved is what is loaded.  Loading the row a save writes for a
    precondition, for a described column or for an identity gives, key by key, the
    entry that was submitted - its unknown keys too, through the text they are kept
    in - but for the keys always written, which read as null where they were absent. *)
Theorem saved_entries_come_back `{U : UnicodeTables} {V : Type} `{SV : Serde V} `{SL : !SerdeLaws V} `{SEn : !SerdeEntries V} `{SK : !SerdeKinds V}
    `{SB : !Sandbox V} (entry : V) :
  keyed_once entry →
  (reads_back (beyond entry KNOWN_PRECONDITION_KEYS) → ∀ k, sv_get (reshape_precondition (precondition_row entry)) k =
     if one_of KNOWN_PRECONDITION_KEYS k then Some (optional entry k) else sv_get entry k) ∧
  (sorting_ok entry → reads_back (beyond entry KNOWN_COLUMN_KEYS) → ∀ k, sv_get (reshape_column (column_row entry)) k = sv_get entry k) ∧
  (reads_back (beyond entry KNOWN_IDENTITY_KEYS) → ∀ agg, ∃ loaded, reshape_identity (facts_of (write_identity agg entry)) = Some loaded ∧
     ∀ k, sv_get loaded k = if one_of ["field" : str; "strategy" : str] k then Some (optional entry k)
                            else if one_of ["source" : str; "prefix" : str] k then given entry k else sv_get entry k).
Proof.
  intros Hnd. split_and!; [intros Hr k; by apply precondition_back|intros Hs Hr k; by apply column_back|].
  intros Hr agg. by apply identity_back.
Qed.

(** C30: a configuration that is admitted fits the domain.  Every state of every
    aggregate has its entry, every entry is of a declared state in a known tone, and
    every precondition is on a reference, in a state of what it refers to. *)
Theorem admitted_configurations_fit_the_domain `{U : UnicodeTables} `{UU : UnicodeUpper} {V : Type} `{SV : Serde V} `{SN : SerdeNumbers V}
    (config domain_ir : V) :
  validate config domain_ir = Ok () →
  let aggs := aggregates domain_ir in
  (∀ aggregate state, aggregate ∈ aggs → state ∈ lifecycle_states aggregate →
     ∃ per_state entry, sv_get (section config "states") (agg_name aggregate) = Some per_state ∧ sv_get per_state state = Some entry) ∧
  (∀ agg state per_state entry, (agg, per_state) ∈ sv_entries (section config "states") → (state, entry) ∈ sv_entries per_state →
     ∃ aggregate, aggregate ∈ aggs ∧ agg_name aggregate = agg ∧ state ∈ lifecycle_states aggregate ∧
       (∀ tone, given entry "tone" = Some tone → ruby_to_s tone ∈ VALID_TONES)) ∧
  (∀ agg entry rule, (agg, entry) ∈ sv_entries (section config "collections") → rule ∈ list_of (sv_get entry "preconditions") →
     ∃ aggregate field attribute target_name, find_aggregate aggs agg = Some aggregate ∧ given rule "field" = Some field ∧
       find_attribute aggregate (ruby_to_s field) = Some attribute ∧ reference_target (type_of attribute) = Some target_name ∧
       (∀ state target, given rule "state" = Some state → find_aggregate aggs target_name = Some target →
          ruby_to_s state ∈ lifecycle_states target)).
Proof.
  intros H aggs. split_and!; intros.
  - by eapply (states_are_styled config domain_ir).
  - by eapply (entries_are_states config domain_ir).
  - by eapply (preconditions_on_references config domain_ir).
Qed.
