(* ===== verification/Eras.v ===== *)
(** The eras of a domain's data: the canonical shape a bluebook stores records in and
    the hash that names it ([src/rust/host/core/src/storage_shape.rs]), what a boot does
    about the eras it finds ([src/rust/host/src/boot.rs], [store/mint.rs]), the rules
    that carry a record from one era to the next
    ([core/src/reference_transform.rs]), and the audit that holds the compiled ones to
    them before an era is minted ([store/mint.rs]).

    The audit reads the records before and after the edge from SQL; it is a function of
    them here.  A type that holds itself is projected by name where it is met again, so
    a shape has as many levels as there are types ([levels_of]). *)
From stdpp Require Import gmap.
From S2P Require Import HostStore Members Crypto Ledger.
From S2P Require Export Presentation.
Open Scope Z_scope.

(** ** [storage_shape.rs] *)
Definition LABEL_LENGTH : nat := 6.

Section shape.
Context {V : Type} `{SV : Serde V}.

Definition text_at (v : V) (key : str) : str := default [] (sv_get_str v key).
Definition json_string (s : str) : str := sv_text (sv_str s).
Definition join_array (items : list str) : str := "[" ++ join "," items ++ "]".
(** An object literal in the order it is written. *)
Definition object_text (fields : list (str * str)) : str :=
  "{" ++ join "," (map (λ kv, dquote ++ kv.1 ++ dquote ++ ":" ++ kv.2) fields) ++ "}".
(** [sort_by] of the names, and what is named. *)
Definition by_name (named : list (str * str)) : list str := (sort_by (λ a b, str_compare a.1 b.1) named).*2.

Definition find_named (entries : list V) (name : str) : option V :=
  find (λ entry, bool_decide (sv_get_str entry "name" = Some name)) entries.
Definition nested_type (aggregate : V) (type_name : str) : option V :=
  match find_named (sv_list aggregate "value_objects") type_name with
  | Some entry => Some entry
  | None => find_named (sv_list aggregate "entities") type_name
  end.
(** [project_attribute], given its type's signature. *)
Definition listed (attribute : V) : bool := default false (sv_get attribute "list" ≫= sv_as_bool).
Definition attribute_text (attribute : V) (signature : str) : str :=
  object_text [("name" : str, json_string (text_at attribute "name")); ("list" : str, if listed attribute then "true" else "false"); ("type" : str, signature)].
Fixpoint type_signature (levels : nat) (aggregate : V) (type_name : str) (seen : list str) : str :=
  match levels, nested_type aggregate type_name with
  | S levels, Some container =>
    if existsb (str_eqb type_name) seen then json_string type_name
    else
      let member attribute := (text_at attribute "name", attribute_text attribute (type_signature levels aggregate (text_at attribute "type") (seen ++ [type_name]))) in
      object_text [("type" : str, json_string type_name); ("members" : str, join_array (by_name (map member (sv_list container "attributes"))))]
  | _, _ => json_string type_name
  end.
(** More levels than there are types. *)
Definition levels_of (aggregate : V) : nat := S (length (sv_list aggregate "value_objects") + length (sv_list aggregate "entities")).
Definition identity_of (aggregate : V) : list str :=
  match sv_get aggregate "identified_by" with
  | Some v =>
    match sv_as_array v with
    | Some items => omap sv_as_str items
    | None => match sv_as_str v with Some s => [s] | None => [] end
    end
  | None => []
  end.
Definition project_attribute (aggregate attribute : V) : str :=
  attribute_text attribute (type_signature (levels_of aggregate) aggregate (text_at attribute "type") []).
Definition project_aggregate (aggregate : V) : str :=
  object_text [
    ("name" : str, json_string (text_at aggregate "name"));
    ("identity" : str, join_array (map json_string (identity_of aggregate)));
    ("lifecycle_field" : str, match sv_get aggregate "lifecycle" ≫= λ l, sv_get_str l "field" with Some field => json_string field | None => "null" end);
    ("attributes" : str, join_array (by_name (map (λ a, (text_at a "name", project_attribute aggregate a)) (sv_list aggregate "attributes"))))].
Definition project (ir : V) : str :=
  object_text [
    ("name" : str, json_string (text_at ir "name"));
    ("aggregates" : str, join_array (by_name (map (λ a, (text_at a "name", project_aggregate a)) (sv_list ir "aggregates"))))].
Definition canonical (ir : V) : str := project ir.
Definition mint_hash `{H : Sha256} (ir : V) : str := sha256_hex (utf8_encode (canonical ir)).
Definition mint_label `{H : Sha256} (ir : V) : str := take LABEL_LENGTH (mint_hash ir).
End shape.

(** ** Booting: [BootDecision], [decide_boot_action], [boot_memory_era] *)
Inductive BootDecision :=
| UseExisting (ordinal : Z)
| HoldFirst
| Mint (ordinal from_ordinal : Z) (from_label : str)
| LatestUnnamed (ordinal : Z).
Definition decide_boot_action (held : list HeldEra) (my_label : str) : BootDecision :=
  match find (λ era, bool_decide (era_label era = Some my_label)) held with
  | Some matching => UseExisting (era_ordinal matching)
  | None =>
    match list.last held with
    | None => HoldFirst
    | Some latest =>
      match era_label latest with
      | None => LatestUnnamed (era_ordinal latest)
      | Some label => Mint (era_ordinal latest + 1) (era_ordinal latest) label
      end
    end
  end.

Section boot.
Context `{U : UnicodeTables} {V : Type} `{SV : Serde V}.
(** [ir::lineage_capable_aggregates]; [lineage_aggregates], by name and storage name. *)
Definition lineage_capable_aggregates (ir : V) : list (str * str) :=
  omap (λ entry, name ← sv_get_str entry "name"; storage ← sv_get_str entry "storage_name"; Some (text_at ir "name" ++ "::" ++ name, storage))
    (match sv_get ir "lineage" with Some lineage => sv_list lineage "capable_aggregates" | None => [] end).
Definition lineage_aggregates (ir : V) : list (str * str) :=
  let aggregates := map (λ '(qualified, storage), (last_piece qualified "::", storage)) (lineage_capable_aggregates ir) in
  match membership_provider ir with
  | None => aggregates
  | Some (_, aggregate) =>
    let name := last_piece aggregate "::" in
    let storage := snake name in
    if existsb (λ a, str_eqb a.2 storage) aggregates then aggregates else aggregates ++ [(name, storage)]
  end.
Definition needs_lineage (aggregates : list (str * str)) (google_auth : bool) : bool :=
  negb (bool_decide (aggregates = [])) || google_auth.
Definition boot_memory_era (d : Data V) (domain : str) (ir : V) (my_label : str) (google_auth : bool) : result str (option Z) * Data V :=
  if negb (needs_lineage (lineage_aggregates ir) google_auth) then (Ok None, d)
  else match decide_boot_action (eras_of d domain) my_label with
  | UseExisting ordinal => (Ok (Some ordinal), d)
  | HoldFirst => let (ordinal, d) := hold_era d domain my_label in (Ok (Some ordinal), d)
  | Mint _ from_ordinal _ =>
    (Err ("cannot boot " ++ domain ++ ": the memory store holds era " ++ dec_Z from_ordinal ++ " of a different shape and keeps no translation edges to walk from it -- start a fresh process, or boot against Postgres"), d)
  | LatestUnnamed ordinal => (Err ("cannot boot " ++ domain ++ ": the memory store's era " ++ dec_Z ordinal ++ " has no name"), d)
  end.
End boot.

(** ** Edges between eras ([mint.rs]) *)
Record EdgeAggregate := { ea_name : str; was : option str; compiled_state_expression : str; compiled_id_expression : option str }.
Record Edge := { edge_from : str; edge_to : str; edge_aggregates : list EdgeAggregate }.
Definition for_aggregate (edge : Edge) (name : str) : option EdgeAggregate := find (λ a, str_eqb (ea_name a) name) (edge_aggregates edge).

Section edges.
Context {V : Type} `{SV : Serde V}.
Definition edge_aggregate (agg : V) : EdgeAggregate := {|
  ea_name := text_at agg "name"; was := sv_get_str agg "was";
  compiled_state_expression := default ("state" : str) (sv_get_str agg "compiled_state_expression");
  compiled_id_expression := sv_get_str agg "compiled_id_expression" |}.
Definition parse_edges (ir : V) (domain : str) : list Edge :=
  map (λ edge, {| edge_from := text_at edge "from"; edge_to := text_at edge "to"; edge_aggregates := map edge_aggregate (sv_list edge "aggregates") |})
    (List.filter (λ edge, bool_decide (sv_get_str edge "domain" = Some domain)) (sv_list ir "translations")).
End edges.
(** [edge_chain]; of no label at all the source panics. *)
Definition next_edge (edges : list Edge) (step : nat * (str * str)) : result str Edge :=
  let '(index, (here, next)) := step in
  ok_or (find (λ edge, str_eqb (edge_from edge) here && str_eqb (edge_to edge) next) edges)
    ("the edge chain is broken at era " ++ dec_N (N.of_nat (S index)) ++ " " ++ [8212%N] ++ " no translation leads " ++ here ++ " to " ++ next ++ "; restore bluebook/translations/").
Definition edge_chain (edges : list Edge) (labels : list str) : result str (list Edge) :=
  collect_results (next_edge edges) (imap pair (zip labels (tail labels))).
(** [names_by_era]: the name an aggregate had in each era, the last one's given. *)
Fixpoint names_by_era (current_name : str) (edges : list Edge) : list str :=
  match edges with
  | [] => [current_name]
  | edge :: rest =>
    let later := names_by_era current_name rest in
    let next := default [] (list.head later) in
    default next (for_aggregate edge next ≫= was) :: later
  end.

(** ** [reference_transform.rs] *)
Section transform.
Context {V : Type} `{SV : Serde V} `{SE : !SerdeEq V}.

Definition split_path (path : str) : str * option str :=
  match split_once path 46 with Some (top, member) => (top, Some member) | None => (path, None) end.
(** [extract]: what is removed, and the state without it. *)
Definition extract (state : V) (top : str) (member : option str) : option (V * V) :=
  match member with
  | None => value ← sv_get state top; Some (value, sv_remove state top)
  | Some member =>
    nested ← sv_get state top;
    if sv_is_object nested then
      value ← sv_get nested member;
      let nested := sv_remove nested member in
      Some (value, if bool_decide (length (sv_entries nested) = 0%nat) then sv_remove state top else sv_insert state top nested)
    else None
  end.
Definition insert (state : V) (top : str) (member : option str) (value : V) (rule : str) : result str V :=
  match member with
  | None => Ok (sv_insert state top value)
  | Some member =>
    let nested := default sv_object (sv_get state top) in
    if sv_is_object nested then Ok (sv_insert state top (sv_insert nested member value))
    else Err ("cannot " ++ rule ++ ": " ++ top ++ " already holds " ++ sv_text nested
      ++ ", not a value this can nest under -- moving into it would discard that value silently. Rename or drop " ++ top ++ " first.")
  end.
Definition insert_at (state : V) (path : str) (value : V) (rule : str) : result str V :=
  let (top, member) := split_path path in insert state top member value rule.
Definition extract_at (state : V) (path : str) : option (V * V) := let (top, member) := split_path path in extract state top member.

Definition rename (state : V) (names : str * V) : result str V :=
  Ok match sv_as_str names.2 with
  | Some new_name => match sv_get state names.1 with Some value => sv_insert (sv_remove state names.1) new_name value | None => state end
  | None => state
  end.
Definition apply_move (state mv : V) : result str V :=
  let from := text_at mv "from" in let to := text_at mv "to" in
  match extract_at state from with
  | None => Ok state
  | Some (value, state) => insert_at state to value ("move " ++ from ++ " to: " ++ to)
  end.
Definition mapped_to (raw pair : V) : option V :=
  match sv_as_array pair with Some [key; value] => if sv_eqb key raw then Some value else None | _ => None end.
Fixpoint find_map {A B} (f : A → option B) (l : list A) : option B :=
  match l with [] => None | a :: l => match f a with Some b => Some b | None => find_map f l end end.
Definition apply_convert (state cv : V) : result str V :=
  let from := text_at cv "from" in let to := text_at cv "to" in
  match extract_at state from with
  | None => Ok state
  | Some (raw, state) =>
    let? mapped := ok_or (find_map (mapped_to raw) (sv_list cv "values"))
      ("cannot translate " ++ from ++ ": " ++ sv_text raw ++ " has no mapping in its convert's values: table. Add " ++ sv_text raw ++ " => ... to cover it.") in
    insert_at state to mapped ("convert " ++ from ++ " to: " ++ to)
  end.
Definition apply_drop (state name : V) : result str V :=
  Ok match sv_as_str name with Some name => match extract_at state name with Some (_, state) => state | None => state end | None => state end.
Definition holds_path (state : V) (top : str) (member : option str) : bool :=
  match member with
  | None => sv_contains state top
  | Some member => match sv_get state top with Some nested => sv_is_object nested && sv_contains nested member | None => false end
  end.
Definition apply_backfill (state bf : V) : result str V :=
  match sv_get_str bf "name" with
  | None => Ok state
  | Some name =>
    let (top, member) := split_path name in
    if holds_path state top member then Ok state
    else insert state top member (default sv_null (sv_get bf "default")) ("backfill " ++ name)
  end.
(** The rules of one kind, one after the other. *)
Fixpoint each_rule {A} (apply : V → A → result str V) (state : V) (rules : list A) : result str V :=
  match rules with [] => Ok state | rule :: rules => let? state := apply state rule in each_rule apply state rules end.
Definition translate (edge_aggregate_raw state : V) : result str V :=
  if negb (sv_is_object state) then Err ("reference_transform::translate given a non-object state: " ++ sv_text state)
  else
    let? state := each_rule rename state (match sv_get edge_aggregate_raw "renames" with Some renames => sv_entries renames | None => [] end) in
    let? state := each_rule apply_move state (sv_list edge_aggregate_raw "moves") in
    let? state := each_rule apply_convert state (sv_list edge_aggregate_raw "converts") in
    let? state := each_rule apply_drop state (sv_list edge_aggregate_raw "drops") in
    each_rule apply_backfill state (sv_list edge_aggregate_raw "backfills").
End transform.

(** ** The audit of one aggregate's records across an edge: [audit_layer_two] *)
Section audit.
Context `{U : UnicodeTables} {V : Type} `{SV : Serde V} `{SE : !SerdeEq V}.

Definition raw_declared (raw_edges : list V) (domain : str) (edge : Edge) (aggregate_name : str) : option V :=
  raw_edge ← find (λ candidate, bool_decide (sv_get_str candidate "domain" = Some domain) && bool_decide (sv_get_str candidate "from" = Some (edge_from edge))
    && bool_decide (sv_get_str candidate "to" = Some (edge_to edge))) raw_edges;
  aggregates ← sv_get_array raw_edge "aggregates"; find_named aggregates aggregate_name.
Definition rekeys (declared : option V) : bool :=
  match declared ≫= λ d, sv_get_array d "rekeys" with Some (_ :: _) => true | _ => false end.
(** The ids in one and not in the other, sorted. *)
Definition missing_from (ids others : gmap str V) : list str :=
  sort_by str_compare (List.filter (λ id, match others !! id with Some _ => false | None => true end) (map_to_list ids).*1).
Definition same_option (a b : option V) : bool :=
  match a, b with Some a, Some b => sv_eqb a b | None, None => true | _, _ => false end.
Definition diverged (expected actual : V) : list str :=
  sort_by str_compare (list.remove_dups (List.filter (λ key, negb (same_option (sv_get expected key) (sv_get actual key)))
    ((sv_entries expected).*1 ++ (sv_entries actual).*1))).
Definition audit_record (name : str) (declared : V) (after : gmap str V) (record : str * V) : result str (list str) :=
  match after !! record.1 with
  | None => Ok []
  | Some actual =>
    let? expected := translate declared record.2 in
    Ok (if sv_eqb expected actual then []
        else [name ++ "#" ++ record.1 ++ ": the translated state diverges from the reference transform at " ++ join ", " (diverged expected actual)])
  end.
Definition audit_ids (name : str) (rekeyed : bool) (before after : gmap str V) : list str :=
  if rekeyed then
    if bool_decide (size before = size after) then []
    else [name ++ ": the record count changed across a rekeying edge (" ++ dec_N (N.of_nat (size before)) ++ " before, " ++ dec_N (N.of_nat (size after)) ++ " after) "
          ++ [8212%N] ++ " a rekey must not collide two distinct ids onto one, or drop one"]
  else
    let lost := missing_from before after in let gained := missing_from after before in
    match lost, gained with
    | [], [] => []
    | _, _ => [name ++ ": the id set changed across the edge (lost " ++ debug_list (map debug_str lost) ++ ", gained " ++ debug_list (map debug_str gained) ++ ")"]
    end.
Definition audit_layer_two (domain name : str) (edges : list Edge) (raw_edges : list V) (before after : gmap str V) : result str (list str) :=
  match list.last edges with
  | None => Ok []
  | Some last_edge =>
    let declared := raw_declared raw_edges domain last_edge name in
    let ids := audit_ids name (rekeys declared) before after in
    match declared with
    | Some rules =>
      if rekeys declared then Ok ids
      else let? records := collect_results (audit_record name rules after) (map_to_list before) in Ok (ids ++ concat records)
    | None => Ok ids
    end
  end.
End audit.

(** ** [lifecycle_defaults], [fill_lifecycle_defaults] *)
Record LifecycleDefault := { key_prefix : str; lifecycle_field : str; lifecycle_default : str }.
Section defaults.
Context {V : Type} `{SV : Serde V}.
Definition lifecycle_defaults (ir : V) : list LifecycleDefault :=
  omap (λ aggregate, name ← sv_get_str aggregate "name"; lifecycle ← sv_get aggregate "lifecycle";
      field ← sv_get_str lifecycle "field"; held ← sv_get_str lifecycle "default";
      Some {| key_prefix := text_at ir "name" ++ "::" ++ name ++ "#"; lifecycle_field := field; lifecycle_default := held |})
    (sv_list ir "aggregates").
Definition fill_instance (defaults : list LifecycleDefault) (filled : V * nat) (entry : str * V) : V * nat :=
  let (key, instance) := entry in
  match find (λ d, starts_with key (key_prefix d)) defaults with
  | Some d =>
    if sv_is_object instance && match sv_get instance (lifecycle_field d) with Some held => sv_is_null held | None => true end
    then (sv_insert filled.1 key (sv_insert instance (lifecycle_field d) (sv_str (lifecycle_default d))), S filled.2)
    else filled
  | None => filled
  end.
Definition fill_lifecycle_defaults (seed : V) (defaults : list LifecycleDefault) : V * nat :=
  fold_left (fill_instance defaults) (sv_entries seed) (seed, O).
End defaults.

(** ** Facts: paths that no rule names are kept *)

(** What a state holds at a path; paths no change of one is a change of the other. *)
Definition value_at {V} `{SV : Serde V} (state : V) (path : str * option str) : option V :=
  match path.2 with
  | None => sv_get state path.1
  | Some member => nested ← sv_get state path.1; sv_get nested member
  end.
Definition apart (p q : str * option str) : Prop := p.1 ≠ q.1 ∨ ∃ m m', p.2 = Some m ∧ q.2 = Some m' ∧ m ≠ m'.

(** The paths the rules of an edge name. *)
Section paths.
Context {V : Type} `{SV : Serde V}.
Definition rename_paths (names : str * V) : list (str * option str) :=
  match sv_as_str names.2 with Some new_name => [(names.1, None); (new_name, None)] | None => [] end.
Definition move_paths (rule : V) : list (str * option str) := [split_path (text_at rule "from"); split_path (text_at rule "to")].
Definition drop_paths (name : V) : list (str * option str) := match sv_as_str name with Some name => [split_path name] | None => [] end.
Definition backfill_paths (rule : V) : list (str * option str) := match sv_get_str rule "name" with Some name => [split_path name] | None => [] end.
Definition rule_paths (rules : V) : list (str * option str) :=
  flat_map rename_paths (match sv_get rules "renames" with Some renames => sv_entries renames | None => [] end)
  ++ flat_map move_paths (sv_list rules "moves") ++ flat_map move_paths (sv_list rules "converts")
  ++ flat_map drop_paths (sv_list rules "drops") ++ flat_map backfill_paths (sv_list rules "backfills").
End paths.

Section kept.
Context {V : Type} `{SV : Serde V} `{SL : !SerdeLaws V} `{SN : !SerdeEntries V} `{SE : !SerdeEq V}.

(** A change of a state that leaves what is apart from some paths. *)
Definition keeps (paths : list (str * option str)) (state state' : V) : Prop :=
  sv_is_object state' = true ∧ ∀ q, Forall (λ p, apart p q) paths → value_at state' q = value_at state q.
Lemma keeps_refl paths (state : V) : sv_is_object state = true → keeps paths state state.
Proof. by split. Qed.
Lemma keeps_trans paths paths' (a b c : V) : keeps paths a b → keeps paths' b c → keeps (paths ++ paths') a c.
Proof. intros [_ H] [Hc H']. split; [done|]. intros q [Hq Hq']%list.Forall_app. by rewrite H', H. Qed.
Lemma get_of_scalar (v : V) (k : str) : sv_is_object v = false → sv_get v k = None.
Proof. intros H. destruct (sv_get v k) eqn:E; [|done]. apply sv_get_is in E. congruence. Qed.
Lemma no_entries (v : V) (k : str) : length (sv_entries v) = 0%nat → sv_get v k = None.
Proof. rewrite sv_get_entries. by destruct (sv_entries v). Qed.

Lemma remove_keeps (state : V) (top : str) : sv_is_object state = true → keeps [(top, None)] state (sv_remove state top).
Proof.
  intros Ho. split; [by apply sv_remove_is|]. intros [t m] [[Hn|(? & ? & [=] & _)] _]%list.Forall_cons. cbn in Hn. unfold value_at. cbn [fst snd].
  rewrite sv_get_remove by done. by rewrite decide_False.
Qed.
Lemma insert_keeps (state : V) (top : str) (value : V) : sv_is_object state = true → keeps [(top, None)] state (sv_insert state top value).
Proof.
  intros Ho. split; [by apply sv_insert_is|]. intros [t m] [[Hn|(? & ? & [=] & _)] _]%list.Forall_cons. cbn in Hn. unfold value_at. cbn [fst snd].
  rewrite sv_get_insert by done. by rewrite decide_False.
Qed.
Lemma extract_keeps (state : V) (top : str) (member : option str) (value state' : V) :
  sv_is_object state = true → extract state top member = Some (value, state') → keeps [(top, member)] state state'.
Proof.
  intros Ho. unfold extract. destruct member as [m|].
  - destruct (sv_get state top) as [nested|] eqn:En; [|done]. cbn [mbind option_bind]. destruct (sv_is_object nested) eqn:Eo; [|done].
    destruct (sv_get nested m) as [x|] eqn:Ex; [|done]. cbn [mbind option_bind]. intros [= <- <-].
    split; [case_bool_decide; by first [apply sv_remove_is | apply sv_insert_is]|].
    intros [t m'] [Ha _]%list.Forall_cons. unfold value_at. cbn [fst snd].
    assert (∀ k, m ≠ k → sv_get (sv_remove nested m) k = sv_get nested k) as Hk by (intros k Hk; rewrite sv_get_remove by done; by rewrite decide_False).
    destruct Ha as [Hn|(? & k & [= <-] & [= ->] & Hne)]; cbn [fst] in *.
    + case_bool_decide; [rewrite sv_get_remove by done|rewrite sv_get_insert by done]; by rewrite decide_False.
    + case_bool_decide as Hempty; [rewrite sv_get_remove by done|rewrite sv_get_insert by done].
      * destruct (decide (top = t)) as [->|]; [|done]. rewrite En. cbn [mbind option_bind]. rewrite <- Hk by done. by rewrite no_entries.
      * destruct (decide (top = t)) as [->|]; [|done]. rewrite En. cbn [mbind option_bind]. by apply Hk.
  - destruct (sv_get state top) as [x|]; [|done]. cbn [mbind option_bind]. intros [= <- <-]. by apply remove_keeps.
Qed.
Lemma insert_path_keeps (state : V) (top : str) (member : option str) (value : V) (rule : str) (state' : V) :
  sv_is_object state = true → insert state top member value rule = Ok state' →
  keeps [(top, member)] state state' ∧ value_at state' (top, member) = Some value.
Proof.
  intros Ho. unfold insert. destruct member as [m|].
  - destruct (sv_is_object (default sv_object (sv_get state top))) eqn:En; [|done]. intros [= <-]. split.
    + split; [by apply sv_insert_is|]. intros [t m'] [Ha _]%list.Forall_cons. unfold value_at. cbn [fst snd]. rewrite sv_get_insert by done.
      destruct Ha as [Hn|(? & k & [= <-] & [= ->] & Hne)]; cbn [fst] in *; [by rewrite decide_False|].
      destruct (decide (top = t)) as [->|]; [|done]. cbn [mbind option_bind]. rewrite sv_get_insert by done. rewrite decide_False by done.
      destruct (sv_get state t) as [nested|]; [done|]. apply sv_get_object.
    + unfold value_at. cbn [fst snd]. rewrite sv_get_insert, decide_True by done. cbn [mbind option_bind]. by rewrite sv_get_insert, decide_True by done.
  - intros [= <-]. split; [by apply insert_keeps|]. unfold value_at. cbn [fst snd]. by rewrite sv_get_insert, decide_True by done.
Qed.
Lemma insert_at_keeps (state : V) (path : str) (value : V) (rule : str) (state' : V) :
  sv_is_object state = true → insert_at state path value rule = Ok state' → keeps [split_path path] state state'.
Proof. intros Ho. unfold insert_at. destruct (split_path path) as [top member]. intros H. apply (insert_path_keeps _ _ _ _ _ _ Ho H). Qed.
Lemma extract_at_keeps (state : V) (path : str) (value state' : V) :
  sv_is_object state = true → extract_at state path = Some (value, state') → keeps [split_path path] state state'.
Proof. intros Ho. unfold extract_at. destruct (split_path path) as [top member]. by apply extract_keeps. Qed.

Lemma rename_keeps (state : V) (names : str * V) (state' : V) : sv_is_object state = true → rename state names = Ok state' → keeps (rename_paths names) state state'.
Proof.
  intros Ho [= <-]. unfold rename_paths. destruct (sv_as_str names.2) as [new|]; [|by apply keeps_refl].
  destruct (sv_get state names.1); [|by apply keeps_refl]. apply (keeps_trans [_] [_] _ (sv_remove state names.1)); [by apply remove_keeps|].
  apply insert_keeps. by apply sv_remove_is.
Qed.
Lemma move_keeps (state mv state' : V) : sv_is_object state = true → apply_move state mv = Ok state' → keeps (move_paths mv) state state'.
Proof.
  intros Ho. unfold apply_move. destruct (extract_at _ _) as [[value s]|] eqn:E; [|intros [= <-]; by apply keeps_refl].
  intros H. pose proof (extract_at_keeps _ _ _ _ Ho E) as Hk. apply (keeps_trans [_] [_] _ s); [done|]. eapply insert_at_keeps; [apply Hk|done].
Qed.
Lemma convert_keeps (state cv state' : V) : sv_is_object state = true → apply_convert state cv = Ok state' → keeps (move_paths cv) state state'.
Proof.
  intros Ho. unfold apply_convert. destruct (extract_at _ _) as [[raw s]|] eqn:E; [|intros [= <-]; by apply keeps_refl].
  destruct (ok_or _ _) as [mapped|]; [|done]. intros H. pose proof (extract_at_keeps _ _ _ _ Ho E) as Hk.
  apply (keeps_trans [_] [_] _ s); [done|]. eapply insert_at_keeps; [apply Hk|done].
Qed.
Lemma drop_keeps (state name state' : V) : sv_is_object state = true → apply_drop state name = Ok state' → keeps (drop_paths name) state state'.
Proof.
  intros Ho [= <-]. unfold drop_paths. destruct (sv_as_str name) as [path|]; [|by apply keeps_refl].
  destruct (extract_at state path) as [[value s]|] eqn:E; [|by apply keeps_refl]. by eapply extract_at_keeps.
Qed.
Lemma backfill_keeps (state bf state' : V) : sv_is_object state = true → apply_backfill state bf = Ok state' → keeps (backfill_paths bf) state state'.
Proof.
  intros Ho. unfold apply_backfill, backfill_paths. destruct (sv_get_str bf "name") as [name|]; [|intros [= <-]; by apply keeps_refl].
  destruct (split_path name) as [top member]. destruct (holds_path _ _ _); [intros [= <-]; by apply keeps_refl|].
  intros H. apply (insert_path_keeps _ _ _ _ _ _ Ho H).
Qed.
Lemma each_rule_keeps {A} (apply : V → A → result str V) (paths : A → list (str * option str)) (rules : list A) (state state' : V) :
  (∀ s rule s', sv_is_object s = true → apply s rule = Ok s' → keeps (paths rule) s s') →
  sv_is_object state = true → each_rule apply state rules = Ok state' → keeps (flat_map paths rules) state state'.
Proof.
  intros Hr. revert state; induction rules as [|rule rules IH]; intros state Ho; cbn [each_rule flat_map]; [intros [= <-]; by apply keeps_refl|].
  destruct (apply state rule) as [s|] eqn:E; [|done]. intros H. pose proof (Hr _ _ _ Ho E) as Hk. eapply keeps_trans; [exact Hk|]. apply IH; [apply Hk|done].
Qed.
Lemma translate_keeps (rules state state' : V) : translate rules state = Ok state' → keeps (rule_paths rules) state state'.
Proof.
  unfold translate, rule_paths. destruct (sv_is_object state) eqn:Ho; [|done]. cbn [negb].
  destruct (each_rule rename _ _) as [s1|] eqn:E1; [|done]. destruct (each_rule apply_move s1 _) as [s2|] eqn:E2; [|done].
  destruct (each_rule apply_convert s2 _) as [s3|] eqn:E3; [|done]. destruct (each_rule apply_drop s3 _) as [s4|] eqn:E4; [|done]. intros E5.
  pose proof (each_rule_keeps rename rename_paths _ _ _ rename_keeps Ho E1) as K1.
  pose proof (each_rule_keeps apply_move move_paths _ _ _ move_keeps (proj1 K1) E2) as K2.
  pose proof (each_rule_keeps apply_convert move_paths _ _ _ convert_keeps (proj1 K2) E3) as K3.
  pose proof (each_rule_keeps apply_drop drop_paths _ _ _ drop_keeps (proj1 K3) E4) as K4.
  pose proof (each_rule_keeps apply_backfill backfill_paths _ _ _ backfill_keeps (proj1 K4) E5) as K5.
  repeat (eapply keeps_trans; [eassumption|]). done.
Qed.
End kept.

(** ** Facts: what is backfilled is there *)
Section backfilled.
Context {V : Type} `{SV : Serde V} `{SL : !SerdeLaws V} `{SE : !SerdeEq V}.
Lemma holds_value (state : V) (top : str) (member : option str) : holds_path state top member = true ↔ is_Some (value_at state (top, member)).
Proof.
  unfold holds_path, value_at, sv_contains. cbn [fst snd]. destruct member as [m|].
  - destruct (sv_get state top) as [nested|]; cbn [mbind option_bind]; [|by split; [|intros []]].
    destruct (sv_get nested m) as [x|] eqn:E.
    + apply sv_get_is in E. rewrite E. split; [by eexists|done].
    + rewrite andb_false_r. by split; [|intros []].
  - destruct (sv_get state top); (split; [intros H; try done; by eexists|intros H; try done; by destruct H]).
Qed.
Lemma backfill_grows (state bf state' : V) :
  sv_is_object state = true → apply_backfill state bf = Ok state' →
  (∀ q, is_Some (value_at state q) → is_Some (value_at state' q)) ∧ Forall (λ p, is_Some (value_at state' p)) (backfill_paths bf).
Proof.
  intros Ho. unfold apply_backfill, backfill_paths. destruct (sv_get_str bf "name") as [name|]; [|by intros [= <-]].
  destruct (split_path name) as [top member]. destruct (holds_path state top member) eqn:Eh.
  { intros [= <-]. split; [done|]. constructor; [by apply holds_value|done]. }
  intros Hi. destruct (insert_path_keeps _ _ _ _ _ _ Ho Hi) as [[_ Hk] Hv]. split; [|constructor; [by rewrite Hv|done]].
  intros [t m] Hq. destruct (decide (top = t)) as [->|Hne]; [|rewrite Hk; [done|by constructor; [left|]]].
  assert (¬ is_Some (value_at state (t, member))) as Hn by (rewrite <- holds_value; by rewrite Eh).
  destruct member as [k|], m as [k'|].
  - destruct (decide (k = k')) as [->|Hkk]; [by rewrite Hv|]. rewrite Hk; [done|]. constructor; [|done]. right. by exists k, k'.
  - unfold value_at in Hv |- *. cbn [fst snd] in *. destruct (sv_get state' t); [by eexists|done].
  - exfalso. apply Hn. unfold value_at in Hq |- *. cbn [fst snd] in *. destruct (sv_get state t); [by eexists|by destruct Hq].
  - by rewrite Hv.
Qed.
Lemma backfills_are_there (rules : list V) (state state' : V) :
  sv_is_object state = true → each_rule apply_backfill state rules = Ok state' →
  (∀ q, is_Some (value_at state q) → is_Some (value_at state' q)) ∧ Forall (λ p, is_Some (value_at state' p)) (flat_map backfill_paths rules).
Proof.
  revert state; induction rules as [|rule rules IH]; intros state Ho; cbn [each_rule flat_map]; [by intros [= <-]|].
  destruct (apply_backfill state rule) as [s|] eqn:E; [|done]. intros H. destruct (backfill_grows _ _ _ Ho E) as [Hg Hp].
  destruct (IH s) as [Hg' Hp']; [unfold apply_backfill in E|done|].
  { destruct (sv_get_str rule "name") as [name|]; [|by injection E as <-]. destruct (split_path name) as [top member].
    destruct (holds_path _ _ _); [by injection E as <-|]. apply (insert_path_keeps _ _ _ _ _ _ Ho E). }
  split; [intros q Hq; by apply Hg', Hg|]. apply list.Forall_app. split; [|done]. apply (list.Forall_impl _ _ _ Hp). intros p. apply Hg'.
Qed.
End backfilled.

(** ** Facts: the audit *)

(** What is equal holds equal values under each key. *)
Class SerdeEqLaws (V : Type) `{SV : Serde V} `{SE : !SerdeEq V} : Prop := {
  sv_eqb_get a b k : sv_eqb a b = true → same_option (sv_get a k) (sv_get b k) = true
}.
#[global] Instance json_equality_laws : SerdeEqLaws Json.Json.
Proof.
  split. intros a b k. destruct a as [fields| | | | | |], b as [fields'| | | | | |]; try (intros H; first [discriminate H | reflexivity]); try (destruct raw; discriminate). cbn. unfold sv_eqb, json_equality. revert fields'.
  induction fields as [|[key x] fields IH]; intros [|[key' x'] fields']; try done. cbn [assoc Json.json_eqb]. intros [[Hk Hx]%andb_true_iff H]%andb_true_iff.
  unfold str_eqb in Hk. apply bool_decide_eq_true in Hk as ->. case_bool_decide; [done|]. by apply IH.
Qed.

Lemma translate_backfills {V} `{SV : Serde V} `{SL : !SerdeLaws V} `{SN : !SerdeEntries V} `{SE : !SerdeEq V} (rules state state' : V) :
  translate rules state = Ok state' → Forall (λ p, is_Some (value_at state' p)) (flat_map backfill_paths (sv_list rules "backfills")).
Proof.
  unfold translate. destruct (sv_is_object state) eqn:Ho; [|done]. cbn [negb].
  destruct (each_rule rename _ _) as [s1|] eqn:E1; [|done]. destruct (each_rule apply_move s1 _) as [s2|] eqn:E2; [|done].
  destruct (each_rule apply_convert s2 _) as [s3|] eqn:E3; [|done]. destruct (each_rule apply_drop s3 _) as [s4|] eqn:E4; [|done]. intros E5.
  pose proof (each_rule_keeps rename rename_paths _ _ _ rename_keeps Ho E1) as K1.
  pose proof (each_rule_keeps apply_move move_paths _ _ _ move_keeps (proj1 K1) E2) as K2.
  pose proof (each_rule_keeps apply_convert move_paths _ _ _ convert_keeps (proj1 K2) E3) as K3.
  pose proof (each_rule_keeps apply_drop drop_paths _ _ _ drop_keeps (proj1 K3) E4) as K4.
  by apply (backfills_are_there _ s4 state' (proj1 K4)).
Qed.
Section audited.
Context `{U : UnicodeTables} {V : Type} `{SV : Serde V} `{SL : !SerdeLaws V} `{SN : !SerdeEntries V} `{SE : !SerdeEq V} `{SQ : !SerdeEqLaws V}.
Lemma equal_at (a b : V) (path : str * option str) : sv_eqb a b = true → same_option (value_at a path) (value_at b path) = true.
Proof.
  intros H. destruct path as [top [member|]]; unfold value_at; cbn [fst snd]; pose proof (sv_eqb_get a b top H) as Ht; [|done].
  destruct (sv_get a top) as [x|], (sv_get b top) as [y|]; try done. cbn [mbind option_bind]. by apply sv_eqb_get.
Qed.
Lemma missing_none (ids others : gmap str V) : missing_from ids others = [] → ∀ id, is_Some (ids !! id) → is_Some (others !! id).
Proof.
  unfold missing_from. intros H id [x Hx]. pose proof (sort_by_perm str_compare (List.filter (λ id, match others !! id with Some _ => false | None => true end) (map_to_list ids).*1)) as Hp.
  rewrite H in Hp. symmetry in Hp. apply Permutation_nil_r in Hp. destruct (others !! id) eqn:E; [by eexists|]. exfalso.
  assert (id ∈ List.filter (λ id, match others !! id with Some _ => false | None => true end) (map_to_list ids).*1) as Hin.
  { apply list_elem_of_In, filter_In. rewrite E. split; [|done]. apply list_elem_of_In, list_elem_of_fmap. exists (id, x). split; [done|]. by apply elem_of_map_to_list. }
  rewrite Hp in Hin. by apply elem_of_nil in Hin.
Qed.
Lemma collect_concat_nil {A B} (f : A → result str (list B)) (l : list A) (bs : list (list B)) :
  collect_results f l = Ok bs → concat bs = [] → ∀ a, a ∈ l → f a = Ok [].
Proof.
  revert bs; induction l as [|x l IH]; intros bs; cbn [collect_results]; [by intros _ _ a ?%elem_of_nil|].
  destruct (f x) as [b|] eqn:E; [|done]. destruct (collect_results f l) as [bs'|]; [|done]. intros [= <-]. cbn [concat]. intros [-> Hn]%app_eq_nil a [->|Hin]%elem_of_cons; [done|].
  by apply (IH bs').
Qed.
Lemma audit_passed (domain name : str) (edges : list Edge) (last_edge : Edge) (raw_edges : list V) (rules : V) (before after : gmap str V) :
  list.last edges = Some last_edge → raw_declared raw_edges domain last_edge name = Some rules → rekeys (Some rules) = false →
  audit_layer_two domain name edges raw_edges before after = Ok [] →
  (∀ id, is_Some (before !! id) ↔ is_Some (after !! id)) ∧
  ∀ id state, before !! id = Some state → ∃ expected actual, after !! id = Some actual ∧ translate rules state = Ok expected ∧ sv_eqb expected actual = true.
Proof.
  intros Hl Hd Hr. unfold audit_layer_two. rewrite Hl, Hd, Hr. cbn iota.
  destruct (collect_results _ _) as [records|] eqn:Ec; [|done]. intros [= [Hids Hrec]%app_eq_nil].
  unfold audit_ids in Hids. destruct (missing_from before after) eqn:E1, (missing_from after before) eqn:E2; try done.
  assert (∀ id, is_Some (before !! id) ↔ is_Some (after !! id)) as Hdom by (intros id; split; by apply missing_none).
  split; [done|]. intros id state Hs. pose proof (collect_concat_nil _ _ _ Ec Hrec (id, state)) as Ha. unfold audit_record in Ha. cbn [fst snd] in Ha.
  destruct (proj1 (Hdom id)) as [actual Hact]; [by eexists|]. rewrite Hact in Ha. specialize (Ha (proj2 (elem_of_map_to_list _ _ _) Hs)).
  destruct (translate rules state) as [expected|]; [|done]. exists expected, actual. split_and!; [done|done|]. by destruct (sv_eqb expected actual).
Qed.
End audited.

(** ** Facts: the canonical shape *)

Lemma str_le_trans (a b c : str) : str_compare a b ≠ Gt → str_compare b c ≠ Gt → str_compare a c ≠ Gt.
Proof.
  rewrite !str_compare_gt. intros Hab Hbc Hca. destruct (str_lt_trichotomy a b) as [H|[->|H]]; [|done..].
  apply Hbc. by apply (str_lt_trans _ a).
Qed.
(** Names that differ put what they name in one order. *)
Lemma by_name_perm (l l' : list (str * str)) : l ≡ₚ l' → NoDup l.*1 → by_name l = by_name l'.
Proof.
  intros Hp Hn. unfold by_name. set (cmp := λ a b : str * str, str_compare a.1 b.1).
  pose proof (sort_by_perm cmp l) as P. pose proof (sort_by_perm cmp l') as P'.
  assert (StronglySorted (cmp_le cmp) (sort_by cmp l) ∧ StronglySorted (cmp_le cmp) (sort_by cmp l')) as [S S'].
  { split; apply sort_by_sorted; try (intros x y; apply str_compare_antisym); intros x y z; apply str_le_trans. }
  assert (sort_by cmp l ≡ₚ sort_by cmp l') as Hs by (by rewrite P, P', Hp).
  assert (NoDup (sort_by cmp l).*1) as Hns by (by rewrite P). clear P P' Hp Hn.
  f_equal. revert Hs Hns S'. generalize (sort_by cmp l'). induction S as [|x s S IH Hx]; intros s' Hs Hns S'; [by apply Permutation_nil_l in Hs|].
  destruct S' as [|y s' S' Hy]; [by apply Permutation_nil_r in Hs|]. cbn [fmap list_fmap] in Hns. apply list.NoDup_cons in Hns as [Hnx Hns].
  assert (x = y) as <-; [|f_equal; apply IH; [by apply Permutation_cons_inv in Hs|done|done]].
  assert (y ∈ x :: s) as [->|Hys]%elem_of_cons by (rewrite Hs; left); [done|].
  assert (x ∈ y :: s') as [->|Hxs]%elem_of_cons by (rewrite <- Hs; left); [done|]. exfalso.
  rewrite list.Forall_forall in Hx, Hy. pose proof (Hx y Hys) as H1. pose proof (Hy x Hxs) as H2. unfold cmp_le, cmp in H1, H2.
  rewrite !str_compare_gt in *. destruct (str_lt_trichotomy x.1 y.1) as [H|[H|H]]; [done| |done].
  apply Hnx. rewrite H. by apply (list_elem_of_fmap_2 fst).
Qed.

Section shape_facts.
Context {V : Type} `{SV : Serde V}.

(** What a declaration says of an attribute; two declarations that say the same in any
    order, attributes told apart by their names. *)
Definition declares (attribute : V) : str * bool * str := (text_at attribute "name", listed attribute, text_at attribute "type").
Definition same_attributes (a b : V) : Prop :=
  map declares (sv_list a "attributes") ≡ₚ map declares (sv_list b "attributes") ∧ NoDup (map (λ x, text_at x "name") (sv_list a "attributes")).
Definition same_types (a b : V) : Prop :=
  levels_of a = levels_of b ∧
  ∀ name, match nested_type a name, nested_type b name with Some x, Some y => same_attributes x y | None, None => True | _, _ => False end.
Definition same_aggregate (a b : V) : Prop :=
  text_at a "name" = text_at b "name" ∧ identity_of a = identity_of b ∧
  (sv_get a "lifecycle" ≫= λ l, sv_get_str l "field") = (sv_get b "lifecycle" ≫= λ l, sv_get_str l "field") ∧ same_attributes a b ∧ same_types a b.
Definition same_declarations (ir ir' : V) : Prop :=
  text_at ir "name" = text_at ir' "name" ∧ NoDup (map (λ a, text_at a "name") (sv_list ir "aggregates")) ∧
  ∃ aggregates, aggregates ≡ₚ sv_list ir "aggregates" ∧ Forall2 same_aggregate aggregates (sv_list ir' "aggregates").

Definition declared_text (signature : str → str) (d : str * bool * str) : str * str :=
  (d.1.1, object_text [("name" : str, json_string d.1.1); ("list" : str, if d.1.2 then "true" else "false"); ("type" : str, signature d.2)]).
Lemma attributes_text (signature : str → str) (a b : V) :
  same_attributes a b →
  by_name (map (λ x, (text_at x "name", attribute_text x (signature (text_at x "type")))) (sv_list a "attributes")) =
  by_name (map (λ x, (text_at x "name", attribute_text x (signature (text_at x "type")))) (sv_list b "attributes")).
Proof.
  intros [Hp Hn]. assert (∀ l : list V, map (λ x, (text_at x "name", attribute_text x (signature (text_at x "type")))) l = map (declared_text signature) (map declares l)) as E
    by (intros l; by rewrite map_map).
  rewrite !E. apply by_name_perm; [by apply Permutation_map|]. rewrite map_map. change (list_fmap _ _ fst) with (map (fst (A := str) (B := str))). rewrite map_map. exact Hn.
Qed.
Lemma signature_same (a b : V) (levels : nat) (type_name : str) (seen : list str) :
  same_types a b → type_signature levels a type_name seen = type_signature levels b type_name seen.
Proof.
  intros [_ Ht]. revert type_name seen; induction levels as [|levels IH]; intros type_name seen; [done|]. cbn [type_signature]. pose proof (Ht type_name) as Hn.
  destruct (nested_type a type_name) as [x|], (nested_type b type_name) as [y|]; try done. destruct (existsb _ seen); [done|].
  cbn zeta. refine (f_equal (λ members, object_text [("type" : str, json_string type_name); ("members" : str, join_array members)]) _).
  refine (eq_trans _ (attributes_text (λ t, type_signature levels b t (seen ++ [type_name])) x y Hn)). f_equal. apply map_ext. intros m. by rewrite IH.
Qed.
Lemma aggregate_same (a b : V) : same_aggregate a b → project_aggregate a = project_aggregate b.
Proof.
  intros (Hn & Hi & Hl & Ha & Ht). unfold project_aggregate. rewrite Hn, Hi, Hl.
  assert (by_name (map (λ x, (text_at x "name", project_attribute a x)) (sv_list a "attributes")) = by_name (map (λ x, (text_at x "name", project_attribute b x)) (sv_list b "attributes"))) as ->; [|done].
  refine (eq_trans _ (attributes_text (λ t, type_signature (levels_of b) b t []) a b Ha)). f_equal. apply map_ext. intros x. unfold project_attribute.
  rewrite (proj1 Ht). by rewrite (signature_same a b).
Qed.
Lemma canonical_same (ir ir' : V) : same_declarations ir ir' → canonical ir = canonical ir'.
Proof.
  intros (Hn & Hd & l & Hp & Hl). unfold canonical, project. rewrite Hn. clear Hn.
  set (f := λ a, (text_at a "name", project_aggregate a)).
  assert (map f l = map f (sv_list ir' "aggregates")) as <-.
  { clear Hd Hp. induction Hl as [|a b l l' Hab _ IH]; [done|]. cbn [map]. f_equal; [unfold f; by rewrite (aggregate_same a b), (proj1 Hab)|exact IH]. }
  assert (by_name (map f (sv_list ir "aggregates")) = by_name (map f l)) as ->; [|done].
  apply by_name_perm; [by rewrite Hp|]. change (list_fmap _ _ fst) with (map (fst (A := str) (B := str))). by rewrite map_map.
Qed.
End shape_facts.

(** A shape has as many levels as there are types: each level met a type the ones above
    it had not. *)
Section levels.
Context {V : Type} `{SV : Serde V} (aggregate : V).
Definition declared_types : list str := omap (λ entry, sv_get_str entry "name") (sv_list aggregate "value_objects" ++ sv_list aggregate "entities").
Definition unseen (seen : list str) : nat := length (List.filter (λ name, negb (existsb (str_eqb name) seen)) declared_types).
Lemma nested_declared (name : str) (entry : V) : nested_type aggregate name = Some entry → name ∈ declared_types.
Proof.
  assert (∀ entries, find_named entries name = Some entry → name ∈ omap (λ entry, sv_get_str entry "name") entries) as H.
  { intros entries Hf. apply find_some in Hf as [Hin Hn]. apply bool_decide_eq_true in Hn. apply list_elem_of_omap. exists entry. split; [by apply list_elem_of_In|done]. }
  unfold nested_type, declared_types. rewrite omap_app, elem_of_app. destruct (find_named _ name) eqn:E; [intros [= ->]; left; by apply H|intros E'; right; by apply H].
Qed.
Lemma seen_once (name : str) (seen : list str) : name ∈ declared_types → existsb (str_eqb name) seen = false → (unseen (seen ++ [name]) < unseen seen)%nat.
Proof.
  unfold unseen. induction declared_types as [|n names IH]; [by intros ?%elem_of_nil|]. intros Hin Hs. cbn [List.filter]. rewrite existsb_app. cbn [existsb]. rewrite orb_false_r.
  assert ((length (List.filter (λ n, negb (existsb (str_eqb n) (seen ++ [name]))) names) <= length (List.filter (λ n, negb (existsb (str_eqb n) seen)) names))%nat) as Hle.
  { clear. induction names as [|n names IH]; [done|]. cbn [List.filter]. rewrite existsb_app. destruct (existsb (str_eqb n) seen); cbn [orb negb]; [done|].
    destruct (existsb (str_eqb n) [name]); cbn [negb length]; lia. }
  apply elem_of_cons in Hin as [->|Hin].
  - rewrite Hs. unfold str_eqb at 1. rewrite bool_decide_true by done. cbn [orb negb length]. lia.
  - specialize (IH Hin Hs). destruct (existsb (str_eqb n) seen); cbn [orb negb]; [done|]. destruct (str_eqb n name); cbn [negb length]; lia.
Qed.
Lemma signature_levels (n m : nat) (type_name : str) (seen : list str) :
  (unseen seen < n)%nat → (unseen seen < m)%nat → type_signature n aggregate type_name seen = type_signature m aggregate type_name seen.
Proof.
  revert m type_name seen; induction n as [|n IH]; intros [|m] type_name seen Hn Hm; try lia. cbn [type_signature].
  destruct (nested_type aggregate type_name) as [container|] eqn:E; [|done]. destruct (existsb (str_eqb type_name) seen) eqn:Es; [done|].
  pose proof (seen_once _ _ (nested_declared _ _ E) Es) as Hlt. cbn zeta.
  refine (f_equal (λ members, object_text [("type" : str, json_string type_name); ("members" : str, join_array (by_name members))]) _).
  apply map_ext. intros member. by rewrite (IH m) by lia.
Qed.
Lemma enough_levels (levels : nat) (type_name : str) : (levels_of aggregate <= levels)%nat →
  type_signature levels aggregate type_name [] = type_signature (levels_of aggregate) aggregate type_name [].
Proof.
  intros H. assert (unseen [] < levels_of aggregate)%nat; [|by apply signature_levels; lia]. unfold unseen, levels_of, declared_types. rewrite <- length_app.
  generalize (sv_list aggregate "value_objects" ++ sv_list aggregate "entities") as entries. intros entries. apply Nat.lt_succ_r.
  etransitivity; [apply List.filter_length_le|]. induction entries as [|e entries IH]; [done|]. simpl. unfold omap in IH. destruct (sv_get_str e "name"); simpl; lia.
Qed.
End levels.

(** A store that booted at an era finds it again. *)
Lemma find_app_none {A} (p : A → bool) (l : list A) (x : A) : find p l = None → p x = true → find p (l ++ [x]) = Some x.
Proof. induction l as [|y l IH]; cbn [find app]; [by intros _ ->|]. destruct (p y); [done|]. exact IH. Qed.
Lemma booted_again `{U : UnicodeTables} {V : Type} `{SV : Serde V} (ir ir' : V) (d d' : Data V) (domain label : str) (google_auth : bool) (ordinal : Z) :
  boot_memory_era d domain ir label google_auth = (Ok (Some ordinal), d') → needs_lineage (lineage_aggregates ir') google_auth = true →
  boot_memory_era d' domain ir' label google_auth = (Ok (Some ordinal), d').
Proof.
  unfold boot_memory_era. intros Hb ->. cbn [negb]. destruct (needs_lineage (lineage_aggregates ir) google_auth); [|done]. cbn [negb] in Hb.
  unfold decide_boot_action in *. destruct (find _ (eras_of d domain)) as [era|] eqn:E; [injection Hb as <- <-; by rewrite E|].
  destruct (list.last (eras_of d domain)) as [latest|] eqn:El; [by destruct (era_label latest)|].
  unfold hold_era, eras_of in *. cbn in Hb. injection Hb as <- <-. cbn [eras]. rewrite lookup_insert_eq. cbn [default from_option].
  apply last_None in El. rewrite El in *. cbn. by rewrite bool_decide_true.
Qed.

(** ** Properties *)

(** What an audit lets pass has lost nothing.  Where the audit of an aggregate's
    records across an edge that does not rekey them finds nothing, the records after it
    are those before it, each holds at every path no rule names what it held, and every
    path the edge backfills is there. *)
Theorem audited_edges_keep_values `{U : UnicodeTables} {V : Type} `{SV : Serde V} `{SL : !SerdeLaws V} `{SN : !SerdeEntries V} `{SE : !SerdeEq V} `{SQ : !SerdeEqLaws V}
    (domain name : str) (edges : list Edge) (last_edge : Edge) (raw_edges : list V) (rules : V) (before after : gmap str V) :
  list.last edges = Some last_edge → raw_declared raw_edges domain last_edge name = Some rules → rekeys (Some rules) = false →
  audit_layer_two domain name edges raw_edges before after = Ok [] →
  (∀ id, is_Some (before !! id) ↔ is_Some (after !! id)) ∧
  ∀ id state, before !! id = Some state → ∃ actual, after !! id = Some actual ∧
    (∀ path, Forall (λ p, apart p path) (rule_paths rules) → same_option (value_at state path) (value_at actual path) = true) ∧
    Forall (λ path, is_Some (value_at actual path)) (flat_map backfill_paths (sv_list rules "backfills")).
Proof.
  intros Hl Hd Hr Ha. destruct (audit_passed _ _ _ _ _ _ _ _ Hl Hd Hr Ha) as [Hdom Hrec]. split; [done|]. intros id state Hs.
  destruct (Hrec id state Hs) as (expected & actual & Hact & Ht & He). exists actual. split; [done|]. split.
  - intros path Hp. rewrite <- (proj2 (translate_keeps _ _ _ Ht) path Hp). by apply equal_at.
  - apply (list.Forall_impl _ _ _ (translate_backfills _ _ _ Ht)). intros path [x Hx]. pose proof (equal_at _ _ path He) as Hsame. rewrite Hx in Hsame.
    by destruct (value_at actual path).
Qed.

(** A shape keeps its era.  Two bluebooks that declare the same in any order have one
    hash, and where the first boots at an era of the memory store the second boots at
    that one and changes nothing. *)
Theorem shapes_keep_their_era `{U : UnicodeTables} `{H : Sha256} {V : Type} `{SV : Serde V} (ir ir' : V) (d d' : Data V) (domain : str) (google_auth : bool) (ordinal : Z) :
  same_declarations ir ir' → boot_memory_era d domain ir (mint_label ir) google_auth = (Ok (Some ordinal), d') →
  mint_hash ir' = mint_hash ir ∧
  (needs_lineage (lineage_aggregates ir') google_auth = true → boot_memory_era d' domain ir' (mint_label ir') google_auth = (Ok (Some ordinal), d')).
Proof.
  intros Hs Hb. pose proof (canonical_same ir ir' Hs) as Hc. assert (mint_hash ir' = mint_hash ir) as Hh by (unfold mint_hash; by rewrite Hc). split; [done|].
  intros Hn. unfold mint_label at 1. rewrite Hh. fold (mint_label ir). by eapply booted_again.
Qed.

(** ** At concrete inputs *)
Section examples.
#[local] Instance era_letters : UnicodeTables := {| debug_printable _ := true; to_lower c := [ascii_lower c] |}.
(** A digest that tells the texts below apart. *)
#[local] Instance byte_sum : Sha256 := λ bs,
  let sum := fold_left (λ acc b, N.land (acc * 263 + b) 1152921504606846975)%N bs 7%N in
  map (λ i, N.land (N.shiftr sum (N.of_nat i)) (N.ones 8)) (seq 0 32).
Notation J := Json.Json.
Definition entry (name type : str) : J := Json.JObject [("name" : str, Json.JStr name); ("type" : str, Json.JStr type)].

(** An edge that renames a field, moves one into a value object and backfills another. *)
Definition edge_rules : J := Json.JObject [
  ("name" : str, Json.JStr "Order"); ("renames" : str, Json.JObject [("cost" : str, Json.JStr "amount")]);
  ("moves" : str, Json.JArray [Json.JObject [("from" : str, Json.JStr "weight"); ("to" : str, Json.JStr "parcel.weight")]]);
  ("backfills" : str, Json.JArray [Json.JObject [("name" : str, Json.JStr "status"); ("default" : str, Json.JStr "open")]])].
Definition raw_edge : J := Json.JObject [
  ("domain" : str, Json.JStr "Shop"); ("from" : str, Json.JStr "aaa"); ("to" : str, Json.JStr "bbb"); ("aggregates" : str, Json.JArray [edge_rules])].
Definition era_edge : Edge := {| edge_from := "aaa"; edge_to := "bbb"; edge_aggregates := [] |}.
Definition old_order : J := Json.JObject [("cost" : str, Json.JStr "5"); ("weight" : str, Json.JStr "12");
  ("parcel" : str, Json.JObject [("depth" : str, Json.JStr "3")]); ("note" : str, Json.JStr "fragile")].
Definition new_order : J := Json.JObject [
  ("parcel" : str, Json.JObject [("depth" : str, Json.JStr "3"); ("weight" : str, Json.JStr "12")]);
  ("note" : str, Json.JStr "fragile"); ("amount" : str, Json.JStr "5"); ("status" : str, Json.JStr "open")].
Lemma audited_edges_keep_values_witness :
  ∃ actual, ({["o1" : str := new_order]} : gmap str J) !! ("o1" : str) = Some actual ∧
    same_option (value_at old_order ("parcel" : str, Some ("depth" : str))) (value_at actual ("parcel" : str, Some ("depth" : str))) = true ∧
    is_Some (value_at actual ("status" : str, None)).
Proof.
  destruct (audited_edges_keep_values (V := J) "Shop" "Order" [era_edge] era_edge [raw_edge] edge_rules {["o1" : str := old_order]} {["o1" : str := new_order]})
    as [_ H]; [reflexivity|vm_compute; reflexivity|reflexivity|vm_compute; reflexivity|].
  destruct (H "o1" old_order) as (actual & Ha & Hk & Hb); [reflexivity|]. exists actual. split; [exact Ha|]. split.
  - apply Hk. assert (rule_paths edge_rules = [("cost" : str, None); ("amount" : str, None); ("weight" : str, None); ("parcel" : str, Some ("weight" : str)); ("status" : str, None)]) as ->
      by (vm_compute; reflexivity).
    repeat (constructor; [first [left; by vm_compute | right; exists "weight", "depth"; by vm_compute]|]). constructor.
  - vm_compute in Hb. by inversion Hb.
Defined.

(** Two bluebooks that differ in the order of what they declare. *)
Definition parcel_type : J := Json.JObject [("name" : str, Json.JStr "Parcel"); ("attributes" : str, Json.JArray [entry "depth" "Float"; entry "within" "Parcel"])].
Definition shop_ir (attributes : list J) : J := Json.JObject [
  ("name" : str, Json.JStr "Shop");
  ("lineage" : str, Json.JObject [("capable_aggregates" : str, Json.JArray [Json.JObject [("name" : str, Json.JStr "Order"); ("storage_name" : str, Json.JStr "order")]])]);
  ("aggregates" : str, Json.JArray [Json.JObject [
    ("name" : str, Json.JStr "Order"); ("identified_by" : str, Json.JArray [Json.JStr "code"]); ("attributes" : str, Json.JArray attributes);
    ("value_objects" : str, Json.JArray [parcel_type])]])].
Definition order_attributes : list J := [entry "code" "String"; entry "parcel" "Parcel"; entry "amount" "Integer"].
Lemma shapes_keep_their_era_witness :
  mint_hash (shop_ir (rev order_attributes)) = mint_hash (shop_ir order_attributes) ∧
  (boot_memory_era (boot_memory_era empty_data "Shop" (shop_ir order_attributes) (mint_label (shop_ir order_attributes)) false).2
    "Shop" (shop_ir (rev order_attributes)) (mint_label (shop_ir (rev order_attributes))) false).1 = Ok (Some 1).
Proof.
  destruct (shapes_keep_their_era (shop_ir order_attributes) (shop_ir (rev order_attributes)) empty_data
    (boot_memory_era empty_data "Shop" (shop_ir order_attributes) (mint_label (shop_ir order_attributes)) false).2 "Shop" false 1) as [Hh Hb].
  - split; [reflexivity|]. split; [vm_compute; repeat constructor; by intros ?%elem_of_nil|]. eexists. split; [reflexivity|].
    constructor; [|constructor]. split_and!; [reflexivity..| |split; [reflexivity|]].
    + split; [exact (Permutation_rev (map declares order_attributes))|]. apply (bool_decide_unpack _). vm_compute. exact Logic.I.
    + intros name. unfold nested_type. change (sv_list _ "value_objects") with [parcel_type]. change (sv_list _ "value_objects") with [parcel_type].
      change (sv_list _ "entities") with ([] : list J). change (sv_list _ "entities") with ([] : list J). unfold find_named. cbn [find].
      destruct (bool_decide _); [|done]. split; [done|]. apply (bool_decide_unpack _). vm_compute. exact Logic.I.
  - vm_compute. reflexivity.
  - split; [exact Hh|]. rewrite Hb; [reflexivity|vm_compute; reflexivity].
Defined.

(** A move onto a name that is held discards what it held. *)
Example moves_overwrite :
  translate (Json.JObject [("moves" : str, Json.JArray [Json.JObject [("from" : str, Json.JStr "nickname"); ("to" : str, Json.JStr "name")]])])
    (Json.JObject [("nickname" : str, Json.JStr "Al"); ("name" : str, Json.JStr "Alice")]) = Ok (Json.JObject [("name" : str, Json.JStr "Al")]).
Proof. vm_compute. reflexivity. Qed.
End examples.
