(* ===== verification/Api.v ===== *)
(** The console's [/api/] routes ([src/rust/host/src/api.rs]): who is signed in, the
    derived interface and its configuration, the records of a collection, its creating
    command and the commands of a record.

    They are the [ApiRoutes] the web layer calls past its gate.  Reads answer from the
    kernel's instances; every command goes through the request entry points of
    [HostDispatch.v] with the session's caller; a save of the configuration is
    [Presentation.save].  Moments are those of a clock; [f64::total_cmp] is the
    standard library's. *)
From stdpp Require Import gmap.
From S2P Require QueryFacts HostDispatchFacts.
From S2P Require Import RateLimit HostDispatch SigninFlow.
From S2P Require Import MemberRoutes WebText WebPages Tokens GoogleSignin Members WebRoutes.
From S2P Require Export Presentation.
Open Scope Z_scope.

(** ** Text *)

(** [slugify]. *)
Definition is_ascii_alphanumeric (c : char) : bool := is_digit c || is_upper c || is_lower c.
Definition HYPHEN : char := 45%N.
Definition ends_with_hyphen (s : str) : bool := match rev s with c :: _ => (c =? HYPHEN)%N | [] => false end.
Definition slug_char (slug : str) (character : char) : str :=
  if is_ascii_alphanumeric character then slug ++ [character]
  else if negb (ends_with_hyphen slug) then slug ++ [HYPHEN] else slug.
Fixpoint drop_hyphens (s : str) : str := match s with c :: s' => if (c =? HYPHEN)%N then drop_hyphens s' else s | [] => [] end.
Definition trim_hyphens (s : str) : str := rev (drop_hyphens (rev (drop_hyphens s))).
Definition slug_of (text : str) : str := trim_hyphens (fold_left slug_char text []).
Definition or_record (slug : str) : str := match slug with [] => "record" | _ => slug end.
Definition slugify `{U : UnicodeTables} (text : str) : str := or_record (slug_of (to_lowercase (IpText.trim text))).

(** [MAX_IDENTITY_PAD]; the zero-padded number of [sequence]. *)
Definition MAX_IDENTITY_PAD : Z := 64.
Definition zero_padded (pad : Z) (n : nat) : str := pad_left 48 (Z.to_nat pad) (dec_nat n).

(** ** The order of the records: [compare_values], [compare_sort_keys] *)

(** [f64::total_cmp]: the two zeros are told apart, and NaN is last. *)
Definition total_cmp (a b : f64) : comparison :=
  match f64_cmp a b with
  | Some Eq => Z.compare (if sign_negative a then 0 else 1) (if sign_negative b then 0 else 1)
  | Some o => o
  | None => Z.compare (if is_nan a then 1 else 0) (if is_nan b then 1 else 0)
  end.

Record SortSpec := { sort_field : str; descending : bool }.
Definition SQL_SORTABLE_SHAPES : list str := ["text_value"; "text"; "address"; "number"; "money"; "enum"; "pill"].

Section order.
Context {V : Type} `{SV : Serde V} `{SN : SerdeNumbers V}.
Definition value_rank (value : V) : Z :=
  if sv_is_number value then 0 else match sv_as_str value with Some _ => 1 | None => 2 end.
Definition as_float (value : V) : f64 := default f64_zero (sv_as_f64 value).
Definition compare_values (l r : V) : comparison :=
  if sv_is_number l && sv_is_number r then total_cmp (as_float l) (as_float r)
  else match sv_as_str l, sv_as_str r with
  | Some a, Some b => str_compare a b
  | _, _ => (value_rank l ?= value_rank r)%Z
  end.
Definition compare_sort_keys (l r : option V) (descending : bool) : comparison :=
  let ordering := match l, r with
                  | None, None => Eq | None, Some _ => Gt | Some _, None => Lt
                  | Some l, Some r => compare_values l r
                  end in
  if descending then CompOpp ordering else ordering.

(** [sort_key], [sort_records]. *)
Definition sort_key (state : V) (key : str) : option V :=
  value ← given state key;
  if sv_is_object value then
    match sv_get value "cents" with
    | Some cents => Some cents
    | None =>
      match sv_entries value with
      | [(_, only)] => if sv_is_null only then None else Some only
      | _ => Some value
      end
    end
  else Some value.
Definition by_record_id (a b : str * V) : comparison := str_compare a.1 b.1.
Definition by_spec (spec : SortSpec) (a b : str * V) : comparison :=
  match compare_sort_keys (sort_key a.2 (sort_field spec)) (sort_key b.2 (sort_field spec)) (descending spec) with
  | Eq => str_compare a.1 b.1
  | o => o
  end.
Definition sort_records (records : list (str * V)) (spec : option SortSpec) : list (str * V) :=
  match spec with None => sort_by by_record_id records | Some spec => sort_by (by_spec spec) records end.
End order.

Section answers.
Context `{U : UnicodeTables} `{UU : UnicodeUpper} {V : Type} `{SV : Serde V} `{SN : SerdeNumbers V} `{ST : SerdeText V} `{SB : !Sandbox V}.

(** ** Envelopes: [ok], [refusal], [not_found], [internal_error], [not_implemented] *)
Definition ok (body : V) : V := json_respond 200 body.
Definition refusal (status : Z) (error message : str) : V :=
  json_respond status (sv_obj [("error" : str, sv_str error); ("message" : str, sv_str message)]).
Definition not_found (message : str) : V := refusal 404 "NotFound" message.
Definition internal_error (message : str) : V := refusal 500 "InternalError" message.
Definition not_implemented (message : str) : V := refusal 501 "NotImplemented" message.
(** [domain_refusal]: the last refusal of the answer. *)
Definition domain_refusal (result : V) : V :=
  match list.last (sv_list result "refusals") with
  | None => refusal 422 "Refused" "the command was refused"
  | Some last => refusal 422 (default ("Refused" : str) (sv_get_str last "kind")) (default ("the command was refused" : str) (sv_get_str last "error"))
  end.
(** [me]. *)
Definition me (session : option Session) : V :=
  match session with
  | None => sv_object
  | Some s => sv_obj [("email" : str, sv_str (session_email s)); ("name" : str, sv_str (session_name s));
      ("identity_id" : str, sv_str (identity_id s)); ("role" : str, sv_of_option (session_role s))]
  end.
(** [parsed_body]; [command_name], [domain_name]. *)
Definition malformed_body : V := refusal 400 "MalformedBody" "request body is not valid JSON".
Definition parsed_body (raw : str) : Prelude.result V V :=
  if bool_decide (IpText.trim raw = []) then Ok sv_object
  else match sv_from_str raw with
  | Ok body => if sv_is_object body then Ok body else Err malformed_body
  | Err _ => Err malformed_body
  end.
Definition command_name (command : V) : str := named command.
Definition domain_name (domain_ir : V) : str := named domain_ir.

(** ** Collections: [resolve_collection], [find_query], [dispatchable_command] *)
Definition resolve_collection (domain_ir config : V) (collection : str) : Prelude.result V V :=
  match find (λ a, str_eqb (collection_key a config) collection) (aggregates domain_ir) with
  | Some aggregate => Ok aggregate
  | None => Err (not_found ("no such collection: " ++ collection))
  end.
Definition find_query (aggregate : V) (name : str) : option V := find (λ q, says_str q "name" name) (array aggregate "queries").
Definition dispatchable_command (aggregate : V) (wanted : str) : option V :=
  find (λ c, str_eqb (snake (command_name c)) wanted) (List.filter (λ c, negb (creates c)) (commands aggregate)).

(** [value_object_field]; [query_args_from_params]. *)
Definition value_object_field (aggregate : V) (type_name : str) : option str :=
  value_object ← find_value_object aggregate type_name;
  first ← (attributes ← sv_get_array value_object "attributes"; list.head attributes);
  sv_get_str first "name".
Definition supplied (params : gmap str str) (name : str) : option str :=
  value ← params !! name; if bool_decide (value = []) then None else Some value.
Definition add_query_arg (aggregate : V) (params : gmap str str) (args : option V) (attribute : V) : option V :=
  args ← args;
  let name := attr_name attribute in
  match supplied params name with
  | None => if default false (sv_get attribute "optional" ≫= sv_as_bool) then Some args else None
  | Some raw =>
    let ty := type_of attribute in
    if bool_decide (is_Some (reference_target ty)) || existsb (str_eqb ty) PRIMITIVES then Some (sv_insert args name (sv_str raw))
    else wire_key ← value_object_field aggregate ty; Some (sv_insert args name (sv_obj [(wire_key, sv_str raw)]))
  end.
Definition query_args_from_params (aggregate query : V) (params : gmap str str) : option V :=
  attributes ← sv_get_array query "attributes"; fold_left (add_query_arg aggregate params) attributes (Some sv_object).

(** ** Identities: [identity_wire_key], [dig_source], [scalar_to_string], [apply_identity] *)
Definition identity_wire_key (aggregate : V) (field : str) : option str :=
  attribute ← find_attribute aggregate field; ty ← sv_get_str attribute "type";
  if bool_decide (is_Some (reference_target ty)) then None else value_object_field aggregate ty.
Definition scalar_to_string (value : V) : str :=
  match sv_as_str value with Some text => text | None => if sv_is_null value then [] else sv_text value end.
Definition dig_source (args : V) (source : str) : str :=
  match sv_get args source with
  | None => []
  | Some value =>
    if sv_is_object value then match sv_entries value with (_, first) :: _ => scalar_to_string first | [] => [] end
    else scalar_to_string value
  end.
Definition NO_PORT : str :=
  "this collection mints its identity through the domain's own identity_assignment port, which this                  host has no adapter runtime to call — create through the Ruby console engine, or configure a slug                  or sequence strategy instead".
Definition too_wide (pad : Z) (name : str) : str :=
  "the identity pad " ++ dec_Z pad ++ " for " ++ name ++ " is wider than the " ++ dec_Z MAX_IDENTITY_PAD ++ " this host will mint".
Definition minted (rule args : V) (name : str) (existing : nat) : Prelude.result V (option str) :=
  match sv_get_str rule "strategy" with
  | Some strategy =>
    if str_eqb strategy "slug" then Ok (Some (slugify (dig_source args (default [] (sv_get_str rule "source")))))
    else if str_eqb strategy "sequence" then
      let pad := default 3 (sv_get rule "pad" ≫= sv_as_u64) in
      if MAX_IDENTITY_PAD <? pad then Err (internal_error (too_wide pad name))
      else Ok (Some (default [] (sv_get_str rule "prefix") ++ zero_padded pad (S existing)))
    else if str_eqb strategy "port" then Err (not_implemented NO_PORT)
    else Ok None
  | None => Ok None
  end.
Definition collection_config (presentation : V) (name key : str) : option V :=
  collections ← sv_get presentation "collections"; entry ← sv_get collections name; sv_get entry key.
Definition apply_identity (presentation aggregate args : V) (existing : nat) : Prelude.result V V :=
  let name := agg_name aggregate in
  match (rule ← collection_config presentation name "identity"; field ← sv_get_str rule "field";
         if sv_contains args field then None else wire_key ← identity_wire_key aggregate field; Some (rule, field, wire_key)) with
  | None => Ok args
  | Some (rule, field, wire_key) =>
    let? identity := minted rule args name existing in
    Ok (match identity with
        | Some ((_ :: _) as text) => if sv_is_object args then sv_insert args field (sv_obj [(wire_key, sv_str text)]) else args
        | _ => args
        end)
  end.

(** ** Preconditions: [precondition_failed], [check_precondition] *)
Definition precondition_failed (rule : V) (derived : str) : V :=
  refusal 422 "PreconditionFailed" (default derived (sv_get_str rule "message")).
Definition state_field_of (domain_ir : V) (target_name : str) : option str :=
  target ← find (λ a, str_eqb (agg_name a) target_name) (aggregates domain_ir);
  l ← lifecycle target; sv_get_str l "field".
Definition check_precondition (domain_ir aggregate rule args instances : V) : Prelude.result V unit :=
  match (field ← sv_get_str rule "field"; target_id ← sv_get_str args field;
         attribute ← find_attribute aggregate field; ty ← sv_get_str attribute "type"; target_name ← reference_target ty;
         Some (target_name, target_id)) with
  | None => Ok ()
  | Some (target_name, target_id) =>
    match sv_get instances (domain_name domain_ir ++ "::" ++ target_name ++ "#" ++ target_id) with
    | None => Err (precondition_failed rule ("no " ++ to_lowercase target_name ++ " with that id"))
    | Some target =>
      match (expected ← sv_get_str rule "state"; state_field ← state_field_of domain_ir target_name; Some (expected, state_field)) with
      | None => Ok ()
      | Some (expected, state_field) =>
        let actual : str := default [] (sv_get_str target state_field) in
        if str_eqb actual expected then Ok ()
        else Err (precondition_failed rule (target_name ++ " is at " ++ actual ++ ", not " ++ expected))
      end
    end
  end.
Definition check_rules (domain_ir aggregate : V) (rules : list V) (args instances : V) : Prelude.result V unit :=
  try_fold (λ _ rule, check_precondition domain_ir aggregate rule args instances) () rules.

(** ** Sorting: [resolve_sort], [lifecycle_field] *)
Definition lifecycle_field (aggregate : V) : option str := l ← sv_get aggregate "lifecycle"; sv_get_str l "field".
Definition sort_of (aggregate collection_schema : V) (key : str) (params : gmap str str) : option SortSpec :=
  columns ← sv_get_array collection_schema "columns";
  column ← find (λ column, says_str column "key" key) columns;
  if bool_decide ((sv_get column "sortable" ≫= sv_as_bool) = Some false) then None
  else if negb (existsb (str_eqb (shape_of column)) SQL_SORTABLE_SHAPES) then None
  else
    field ← (if str_eqb key "__state__" then sv_get_str collection_schema "stateField" else Some key);
    if bool_decide (find_attribute aggregate field = None) && negb (bool_decide (lifecycle_field aggregate = Some field)) then None
    else Some {| sort_field := field; descending := bool_decide (params !! ("direction" : str) = Some ("desc" : str)) |}.
Definition resolve_sort (levels : nat) (domain_ir config : V) (collection : str) (aggregate : V) (params : gmap str str) :
    option (option SortSpec) :=
  match supplied params "sort" with
  | None => Some None
  | Some key =>
    schema ← build levels domain_ir config;
    Some (collections ← sv_get schema "collections"; collection_schema ← sv_get collections collection;
          sort_of aggregate collection_schema key params)
  end.

(** [created_id], [created_record]. *)
Definition created_id (result : V) : option str :=
  mutations ← sv_get_array result "mutations"; step ← list.last mutations; changes ← sv_as_array step;
  first ← list.head changes; sv_get_str first "id".
Definition created_record (domain_ir aggregate result : V) (id : str) : V :=
  let key := domain_name domain_ir ++ "::" ++ agg_name aggregate ++ "#" ++ id in
  match (instances ← sv_get result "instances"; sv_get instances key) with
  | Some state => ok (with_id id state)
  | None => internal_error (key ++ " was accepted but is not in the resulting state")
  end.
End answers.

(** ** The routes *)
Section routes.
Context `{U : UnicodeTables} `{UU : UnicodeUpper} {V I : Type} `{SV : Serde V} `{SN : SerdeNumbers V} `{ST : SerdeText V} `{SB : !Sandbox V}
  `{SE : !SerdeEq V} `{Inv : !Invoker V I}.
Context (levels : nat) (wasm_path : str) (c : LineageConfig) (installed : option V) (ir_depth : nat) (fault : option HostStore.Fault)
  (mode : Enforcement) (ir : V) (clock : nat → Moment).

Definition now : Z := clock_secs (clock 0%nat).
Definition loaded (d : Data V) : Prelude.result V V :=
  match load wasm_path c installed now d with Ok config => Ok config | Err e => Err (internal_error e) end.
(** [read_records]. *)
Definition read_records (aggregate : V) (d : Data V) : Prelude.result V (list (str * V)) :=
  match HostDispatch.read wasm_path d with
  | Err e => Err (internal_error e)
  | Ok result => Ok (instances_for result (record_prefix (domain_name ir) (agg_name aggregate)))
  end.
(** An answer or the refusal met on the way to it. *)
Definition answer_or_refusal (r : Prelude.result V V) : V := match r with Ok v | Err v => v end.
Definition named_collection (collection : str) (d : Data V) : Prelude.result V (V * V) :=
  let? config := loaded d in let? aggregate := resolve_collection ir config collection in Ok (config, aggregate).

(** [named_query_rows], [collection_index]; [record_show]. *)
Definition named_query_rows (aggregate query args : V) (d : Data V) : V :=
  let question := domain_name ir ++ "::" ++ agg_name aggregate ++ "." ++ named query in
  match query_request wasm_path installed question args now d with
  | Err e => internal_error e
  | Ok result =>
    match (queries ← sv_get_array result "queries"; list.head queries) with
    | None => internal_error ("the kernel answered no query step for " ++ question)
    | Some answered => match given answered "rows" with Some rows => ok rows | None => domain_refusal result end
    end
  end.
Definition asked_query (aggregate : V) (params : gmap str str) : option (V * V) :=
  name ← supplied params "query"; query ← find_query aggregate name;
  args ← query_args_from_params aggregate query params; Some (query, args).
Definition collection_rows (config aggregate : V) (collection : str) (params : gmap str str) (d : Data V) : option V :=
  match read_records aggregate d with
  | Err refused => Some refused
  | Ok records =>
    spec ← resolve_sort levels ir config collection aggregate params;
    Some (ok (sv_array (map (λ r, with_id r.1 r.2) (sort_records records spec))))
  end.
Definition collection_index (collection : str) (params : gmap str str) (d : Data V) : option V :=
  match named_collection collection d with
  | Err refused => Some refused
  | Ok (config, aggregate) =>
    match asked_query aggregate params with
    | Some (query, args) => Some (named_query_rows aggregate query args d)
    | None => collection_rows config aggregate collection params d
    end
  end.
Definition missing_record (aggregate : V) (id : str) : str := "no " ++ agg_name aggregate ++ " found for id " ++ debug_str id.
Definition record_show (collection id : str) (d : Data V) : V :=
  answer_or_refusal (
    let? found := named_collection collection d in
    let? records := read_records found.2 d in
    Ok (match find (λ r, str_eqb r.1 id) records with
        | Some (record_id, state) => ok (with_id record_id state)
        | None => not_found (missing_record found.2 id)
        end)).

(** [check_preconditions]. *)
Definition check_preconditions (presentation aggregate args : V) (d : Data V) : Prelude.result V unit :=
  match default [] (collection_config presentation (agg_name aggregate) "preconditions" ≫= sv_as_array) with
  | [] => Ok ()
  | rules =>
    match HostDispatch.read wasm_path d with
    | Err e => Err (internal_error e)
    | Ok state => check_rules ir aggregate rules args (default sv_object (sv_get state "instances"))
    end
  end.

(** What follows a command: [preview_answer], and the record of one that is accepted. *)
Definition preview_answer (verb : str) (invocation : Prelude.result str V) (asker : Caller) (s : Site V I) : V * Site V I :=
  match invocation with
  | Err e => (internal_error e, s)
  | Ok args =>
    let (outcome, h) := preview_request wasm_path c installed ir_depth fault mode verb args asker (clock 0) (clock 1) (host s) in
    (match outcome with Ok outcome => ok (HostDispatch.preview_answer (result_of outcome)) | Err e => internal_error e end, with_host s h)
  end.
Definition answered_command (aggregate : V) (id_of : V → str) (outcome : Prelude.result str (Outcome V)) : V :=
  match outcome with
  | Err e => internal_error e
  | Ok outcome =>
    if accepted outcome then created_record ir aggregate (result_of outcome) (id_of (result_of outcome))
    else domain_refusal (result_of outcome)
  end.

(** [collection_create]: what is dispatched, and its answer. *)
Definition creation (collection raw : str) (d : Data V) : Prelude.result V (V * str * V) :=
  let? found := named_collection collection d in
  let (presentation, aggregate) := (found : V * V) in
  let? args := parsed_body raw in
  match find creates (commands aggregate) with
  | None => Err (not_found (agg_name aggregate ++ " declares no creating command"))
  | Some creating =>
    let? records := read_records aggregate d in
    let? args := apply_identity presentation aggregate args (length records) in
    let? _ := check_preconditions presentation aggregate args d in
    Ok (aggregate, domain_name ir ++ "::" ++ agg_name aggregate ++ "." ++ command_name creating, args)
  end.
Definition collection_create (collection raw : str) (asker : Caller) (preview : bool) (s : Site V I) : V * Site V I :=
  match creation collection raw (store (host s)) with
  | Err refused => (refused, s)
  | Ok (aggregate, verb, args) =>
    if preview then preview_answer verb (facts_invocation args) asker s
    else
      let (outcome, h) := handle_facts_request wasm_path c installed ir_depth fault mode verb args asker (clock 0) (clock 1) (host s) in
      (answered_command aggregate (λ result, default [] (created_id result)) outcome, with_host s h)
  end.

(** [command_route]: the record first, then the command, then the body. *)
Definition aimed (collection id command raw : str) (d : Data V) : Prelude.result V (V * str * V) :=
  let? found := named_collection collection d in
  let aggregate := found.2 in
  let? records := read_records aggregate d in
  if negb (existsb (λ r, str_eqb r.1 id) records) then Err (not_found (missing_record aggregate id))
  else match dispatchable_command aggregate command with
  | None => Err (not_found (agg_name aggregate ++ " declares no command named " ++ debug_str command))
  | Some declared =>
    let? args := parsed_body raw in
    Ok (aggregate, domain_name ir ++ "::" ++ agg_name aggregate ++ "." ++ command_name declared, args)
  end.
Definition command_route (collection id command raw : str) (asker : Caller) (preview : bool) (s : Site V I) : V * Site V I :=
  match aimed collection id command raw (store (host s)) with
  | Err refused => (refused, s)
  | Ok (aggregate, verb, args) =>
    if preview then preview_answer verb (routed_invocation (sv_str id) args) asker s
    else
      let (outcome, h) := handle_routed_request wasm_path c installed ir_depth fault mode verb (sv_str id) args asker (clock 0) (clock 1) (host s) in
      (answered_command aggregate (λ _, id) outcome, with_host s h)
  end.

(** [presentation_save]. *)
Definition PRESENTATION_WRITE_REFUSAL : str :=
  "this host's kernel carries no ConsoleSettings bluebook, so it has no StateStyle/Collection/Overview commands to dispatch, and writing the rows behind its back would skip the invariants those commands enforce. Attach it with `attaches " ++ dquote ++ "ConsoleSettings" ++ dquote ++ "` in this domain's own .hecksagon and rebuild the kernel, or save from the Ruby console engine instead.".
Definition saved (outcome : Prelude.result (SaveRefusal V) V) : V :=
  match outcome with
  | Ok config => ok config
  | Err NoKernel => not_implemented PRESENTATION_WRITE_REFUSAL
  | Err (Malformed message) => refusal 422 "Malformed" message
  | Err (DomainRefusal result) => domain_refusal result
  | Err (Internal message) => internal_error message
  end.
Definition presentation_save (raw : str) (s : Site V I) : V * Site V I :=
  match parsed_body raw with
  | Err refused => (refused, s)
  | Ok submitted =>
    let (outcome, h) := save wasm_path c installed ir_depth fault mode clock ir submitted (host s) in (saved outcome, with_host s h)
  end.

(** [route]. *)
Definition admin_session (session : option Session) : bool :=
  match (s ← session; session_role s) with Some role => is_admin_role role | None => false end.
Definition api_segments (path : str) : list str :=
  map percent_decode (List.filter (λ s, negb (bool_decide (s = []))) (split (default [] (strip_prefix path "/api/")) "/")).
Definition collection_routes (r : Request) (session : option Session) (s : Site V I) : option (V * Site V I) :=
  let m := method r in
  let d := store (host s) in
  let preview := requested (asked r !! ("dry_run" : str)) in
  let nothing := Some (not_found ("no API route for " ++ m ++ " " ++ path r), s) in
  if str_eqb m "GET" then
    match api_segments (path r) with
    | [collection] => answer ← collection_index collection (asked r) d; Some (answer, s)
    | [collection; id] => Some (record_show collection id d, s)
    | _ => nothing
    end
  else if str_eqb m "POST" then
    match api_segments (path r) with
    | [collection] => Some (collection_create collection (raw_body r) (caller session) preview s)
    | [collection; id; command] => Some (command_route collection id command (raw_body r) (caller session) preview s)
    | _ => nothing
    end
  else nothing.
(** A document of the configuration: nothing where its fields do not end. *)
Definition document (make : V → option V) (d : Data V) : option V :=
  match loaded d with Err refused => Some refused | Ok presentation => ok <$> make presentation end.
Definition route (r : Request) (session : option Session) (s : Site V I) : option (V * Site V I) :=
  let asks m p := str_eqb (method r) m && str_eqb (path r) p in
  let d := store (host s) in
  if asks ("GET" : str) ("/api/me" : str) then Some (ok (me session), s)
  else if asks ("GET" : str) ("/api/ui-schema" : str) then answer ← document (build levels ir) d; Some (answer, s)
  else if asks ("GET" : str) ("/api/schema" : str) then answer ← document (schema levels ir) d; Some (answer, s)
  else if asks ("GET" : str) ("/api/presentation" : str) then answer ← document Some d; Some (answer, s)
  else if asks ("PUT" : str) ("/api/presentation" : str) then
    Some (if admin_session session then presentation_save (raw_body r) s else (refusal 403 "Forbidden" "admins only", s))
  else collection_routes r session s.
#[export] Instance api_routes : ApiRoutes V I := route.
End routes.

(** ** Facts: slugs *)

(** The runs of letters and digits of a text. *)
Fixpoint pieces (s : str) : list str :=
  match s with
  | [] => [[]]
  | c :: s' =>
    if is_ascii_alphanumeric c then match pieces s' with p :: ps => (c :: p) :: ps | [] => [[c]] end
    else [] :: pieces s'
  end.
Definition nonempty (s : str) : bool := match s with [] => false | _ => true end.
Definition words (s : str) : list str := List.filter nonempty (pieces s).
(** Words put together by single hyphens. *)
Definition is_word (w : str) : Prop := w ≠ [] ∧ forallb is_ascii_alphanumeric w = true.
Definition is_slug (s : str) : Prop := ∃ ws, ws ≠ [] ∧ Forall is_word ws ∧ s = join "-" ws.

(** What is written after a text that ends with a hyphen, or with none. *)
Fixpoint emitted (hyphen : bool) (s : str) : str :=
  match s with
  | [] => []
  | c :: s' => if is_ascii_alphanumeric c then c :: emitted false s' else if hyphen then emitted true s' else HYPHEN :: emitted true s'
  end.
Lemma alphanumeric_no_hyphen (c : char) : is_ascii_alphanumeric c = true → (c =? HYPHEN)%N = false.
Proof. intros H. destruct (N.eqb_spec c HYPHEN) as [->|]; [by vm_compute in H|done]. Qed.
Lemma ends_snoc (s : str) (c : char) : ends_with_hyphen (s ++ [c]) = (c =? HYPHEN)%N.
Proof. unfold ends_with_hyphen. by rewrite rev_app_distr. Qed.
Lemma slug_chars (s slug : str) : fold_left slug_char s slug = slug ++ emitted (ends_with_hyphen slug) s.
Proof.
  revert slug. induction s as [|c s IH]; intros slug; cbn [fold_left emitted]; [by rewrite app_nil_r|].
  rewrite IH. unfold slug_char. destruct (is_ascii_alphanumeric c) eqn:E.
  - rewrite ends_snoc, alphanumeric_no_hyphen, <- app_assoc by done. done.
  - destruct (ends_with_hyphen slug) eqn:Eh; cbn [negb]; [by rewrite Eh|]. by rewrite ends_snoc, <- app_assoc.
Qed.
Definition cut_end (s : str) : str := rev (drop_hyphens (rev s)).
Lemma drop_hyphens_app (a b : str) : drop_hyphens (a ++ b) = match drop_hyphens a with [] => drop_hyphens b | r => r ++ b end.
Proof. induction a as [|c a IH]; [done|]. cbn [app drop_hyphens]. by destruct (c =? HYPHEN)%N. Qed.
Lemma cut_end_cons (c : char) (s : str) :
  cut_end (c :: s) = match cut_end s with [] => if (c =? HYPHEN)%N then [] else [c] | r => c :: r end.
Proof.
  unfold cut_end. cbn [rev]. rewrite drop_hyphens_app. destruct (drop_hyphens (rev s)) as [|d r] eqn:E.
  - cbn [drop_hyphens]. by destruct (c =? HYPHEN)%N.
  - rewrite rev_app_distr. cbn [rev app]. destruct (rev r ++ [d]) eqn:Er; [by destruct (rev r)|done].
Qed.
Lemma drop_emitted (s : str) : drop_hyphens (emitted false s) = emitted true s ∧ drop_hyphens (emitted true s) = emitted true s.
Proof.
  induction s as [|c s [IH1 IH2]]; [done|]. cbn [emitted]. destruct (is_ascii_alphanumeric c) eqn:E; [|done].
  cbn [drop_hyphens]. by rewrite alphanumeric_no_hyphen.
Qed.
Lemma pieces_cons (s : str) : ∃ p ps, pieces s = p :: ps.
Proof. induction s as [|c s (p & ps & E)]; cbn [pieces]; [eauto|]. destruct (is_ascii_alphanumeric c); [rewrite E|]; eauto. Qed.
Definition joined_after (ps : list str) : str := match ps with [] => [] | _ => HYPHEN :: join "-" ps end.
Lemma join_hyphen (w : str) (ws : list str) : join "-" (w :: ws) = w ++ joined_after ws.
Proof. destruct ws; cbn; [by rewrite app_nil_r|done]. Qed.
Lemma join_nonempty (w : str) (ws : list str) : w ≠ [] → join "-" (w :: ws) ≠ [].
Proof. rewrite join_hyphen. by destruct w. Qed.
Lemma words_nonempty (ps : list str) : Forall (λ w, w ≠ []) (List.filter nonempty ps).
Proof. apply list.Forall_forall. intros w [_ H]%list_elem_of_In%filter_In. by destruct w. Qed.
Lemma cut_emitted (s p : str) (ps : list str) :
  pieces s = p :: ps →
  cut_end (emitted false s) = p ++ joined_after (List.filter nonempty ps) ∧ cut_end (emitted true s) = join "-" (words s).
Proof.
  unfold words. revert p ps. induction s as [|c s IH]; intros p ps; cbn [pieces emitted]; [by intros [= <- <-]|].
  destruct (pieces_cons s) as (q & qs & Eq). destruct (IH q qs Eq) as [IHf IHt]. rewrite Eq in IHt |- *.
  destruct (is_ascii_alphanumeric c) eqn:E; intros [= <- <-].
  - assert (cut_end (c :: emitted false s) = (c :: q) ++ joined_after (List.filter nonempty qs)) as ->.
    { rewrite cut_end_cons, IHf, alphanumeric_no_hyphen by done. change ((c :: q) ++ ?x) with (c :: (q ++ x)). by destruct (q ++ _). }
    split; [done|]. cbn [List.filter nonempty]. by rewrite join_hyphen.
  - change (List.filter nonempty ([] :: q :: qs)) with (List.filter nonempty (q :: qs)). split; [|done].
    rewrite cut_end_cons, IHt, N.eqb_refl. cbn [app].
    pose proof (words_nonempty (q :: qs)) as Hw. destruct (List.filter nonempty (q :: qs)) as [|w ws]; [done|].
    apply list.Forall_cons in Hw as [Hw _]. unfold joined_after. by destruct (join "-" (w :: ws)) eqn:Ej; [apply join_nonempty in Ej|].
Qed.
Lemma slug_of_words (text : str) : slug_of text = join "-" (words text).
Proof.
  unfold slug_of, trim_hyphens. rewrite slug_chars. cbn [ends_with_hyphen rev app]. rewrite (proj1 (drop_emitted text)).
  destruct (pieces_cons text) as (p & ps & E). by destruct (cut_emitted text p ps E).
Qed.

Lemma pieces_words (s : str) : Forall (λ w, forallb is_ascii_alphanumeric w = true) (pieces s).
Proof.
  induction s as [|c s IH]; [by repeat constructor|]. cbn [pieces]. destruct (is_ascii_alphanumeric c) eqn:E; [|by constructor].
  destruct (pieces s) as [|p ps]; [constructor; [cbn; by rewrite E|done]|]. apply list.Forall_cons in IH as [Hp IH].
  constructor; [cbn [forallb]; by rewrite E|done].
Qed.
Lemma words_are (s : str) : Forall is_word (words s).
Proof.
  pose proof (pieces_words s) as H. rewrite list.Forall_forall in H. apply list.Forall_forall.
  intros w [Hin Hn]%list_elem_of_In%filter_In. split; [by destruct w|]. by apply H, list_elem_of_In.
Qed.
Lemma or_record_slug (text : str) : is_slug (or_record (slug_of text)).
Proof.
  rewrite slug_of_words. pose proof (words_are text) as H. destruct (words text) as [|w ws] eqn:E.
  - exists ["record" : str]. split_and!; [done| |done]. repeat constructor; done.
  - exists (w :: ws). apply list.Forall_cons in H as [Hw Hws]. split_and!; [done|by constructor|].
    destruct (join "-" (w :: ws)) eqn:Ej; [|done]. by apply join_nonempty in Ej; [|apply Hw].
Qed.
Lemma pieces_app_word (w s : str) :
  forallb is_ascii_alphanumeric w = true → pieces (w ++ HYPHEN :: s) = w :: pieces s.
Proof.
  induction w as [|c w IH]; [done|]. cbn [forallb app pieces]. intros [Hc Hw]%andb_true_iff. by rewrite Hc, IH.
Qed.
Lemma pieces_word (w : str) : forallb is_ascii_alphanumeric w = true → pieces w = [w].
Proof. induction w as [|c w IH]; [done|]. cbn [forallb pieces]. intros [Hc Hw]%andb_true_iff. by rewrite Hc, IH. Qed.
(** The words of a slug are the words it was made of. *)
Lemma words_of_slug (ws : list str) : Forall is_word ws → words (join "-" ws) = ws.
Proof.
  unfold words. induction ws as [|w ws IH]; [done|]. intros [[Hn Ha] Hws]%list.Forall_cons. rewrite join_hyphen.
  specialize (IH Hws). destruct ws as [|w' ws]; cbn [joined_after].
  - rewrite app_nil_r, pieces_word by done. cbn. by destruct w.
  - rewrite pieces_app_word by done. cbn [List.filter]. rewrite IH. by destruct w.
Qed.

(** ** Facts: the order of the records *)

(** A comparison that orders, up to what it finds equal. *)
Record total_preorder {A} (cmp : A → A → comparison) : Prop := {
  tp_antisym : ∀ x y, cmp y x = CompOpp (cmp x y);
  tp_trans : ∀ x y z, cmp_le cmp x y → cmp_le cmp y z → cmp_le cmp x z
}.
Definition lex {A} (first second : A → A → comparison) (x y : A) : comparison :=
  match first x y with Eq => second x y | o => o end.

Lemma tp_on {A B} (f : B → A) (cmp : A → A → comparison) : total_preorder cmp → total_preorder (λ x y, cmp (f x) (f y)).
Proof. intros [Ha Ht]. split; [intros x y; apply Ha|]. intros x y z. apply Ht. Qed.
Lemma tp_refl {A} (cmp : A → A → comparison) (x : A) : total_preorder cmp → cmp x x = Eq.
Proof. intros [Ha _]. specialize (Ha x x). by destruct (cmp x x). Qed.
Lemma tp_opp {A} (cmp : A → A → comparison) : total_preorder cmp → total_preorder (λ x y, CompOpp (cmp x y)).
Proof.
  intros [Ha Ht]. split; [intros x y; by rewrite (Ha x y)|]. unfold cmp_le in *. intros x y z Hxy Hyz.
  rewrite <- Ha in *. by eapply Ht.
Qed.
Lemma tp_lex {A} (c1 c2 : A → A → comparison) : total_preorder c1 → total_preorder c2 → total_preorder (lex c1 c2).
Proof.
  intros [A1 T1] [A2 T2]. split.
  - intros x y. unfold lex. rewrite (A1 x y). destruct (c1 x y); cbn; [apply A2|done..].
  - intros x y z. unfold cmp_le, lex in *. specialize (T1 x y z) as Txyz. pose proof (T1 z x y) as Tzxy. pose proof (T1 y z x) as Tyzx.
    specialize (T2 x y z). rewrite (A1 x z) in Tzxy, Tyzx. rewrite (A1 y z) in Tzxy. rewrite (A1 x y) in Tyzx.
    destruct (c1 x y), (c1 y z), (c1 x z); cbn in *; try done; try (by apply T2); intros H1 H2 H3; try (by apply Txyz);
      try (by apply Tzxy); try (by apply Tyzx).
Qed.
Lemma tp_Z : total_preorder Z.compare.
Proof. split; [intros x y; apply Z.compare_antisym|]. unfold cmp_le. intros x y z. rewrite !Z.compare_le_iff. lia. Qed.
Lemma tp_str : total_preorder str_compare.
Proof. split; [apply str_compare_antisym|]. intros a b c. apply (by_id_le_trans (a, ()) (b, ()) (c, ())). Qed.
Lemma tp_ext {A} (c1 c2 : A → A → comparison) : (∀ x y, c1 x y = c2 x y) → total_preorder c1 → total_preorder c2.
Proof. intros H [Ha Ht]. split; [intros x y; by rewrite <- !H|]. unfold cmp_le in *. intros x y z. rewrite <- !H. apply Ht. Qed.

Lemma tp_float : total_preorder total_cmp.
Proof.
  set (nan x := if is_nan x then 1 else 0). set (sign x := if sign_negative x then 0 else 1).
  apply (tp_ext (lex (λ x y, nan x ?= nan y) (lex (λ x y, QueryFacts.compare3 (QueryFacts.rank x) (QueryFacts.rank y)) (λ x y, sign x ?= sign y)))).
  2: { apply tp_lex; [apply (tp_on nan), tp_Z|]. apply tp_lex; [|apply (tp_on sign), tp_Z].
       apply (tp_on QueryFacts.rank). split; [apply QueryFacts.compare3_antisym|apply QueryFacts.compare3_trans]. }
  intros x y. unfold total_cmp, lex. destruct (is_nan x) eqn:Ex, (is_nan y) eqn:Ey.
  - by destruct x, y.
  - destruct x; try done. unfold nan. cbn [is_nan]. by rewrite Ey.
  - destruct y; try done. unfold nan. cbn [is_nan]. rewrite Ex. by destruct x.
  - rewrite QueryFacts.f64_cmp_rank by done. unfold nan. rewrite Ex, Ey. cbn [Z.compare]. by destruct (QueryFacts.compare3 _ _).
Qed.

(** What the library says of numbers: none is a text. *)
Class SerdeNumberLaws (V : Type) `{SV : Serde V} `{SN : SerdeNumbers V} : Prop := {
  sv_number_not_str v : sv_is_number v = true → sv_as_str v = None
}.
#[global] Instance json_number_laws : SerdeNumberLaws Json.Json.
Proof. split. by intros []. Qed.
Section record_order.
Context {V : Type} `{SV : Serde V} `{SN : SerdeNumbers V} `{SNL : !SerdeNumberLaws V}.

Definition number_part (v : V) : f64 := if sv_is_number v then as_float v else f64_zero.
Definition text_part (v : V) : str := default [] (sv_as_str v).
Lemma compare_values_is (l r : V) :
  lex (λ x y, value_rank x ?= value_rank y) (lex (λ x y, total_cmp (number_part x) (number_part y)) (λ x y, str_compare (text_part x) (text_part y))) l r =
  compare_values l r.
Proof.
  unfold lex, compare_values, value_rank, number_part, text_part.
  destruct (sv_is_number l) eqn:El, (sv_is_number r) eqn:Er; cbn [andb].
  - rewrite !sv_number_not_str by done. cbn. by destruct (total_cmp _ _).
  - rewrite (sv_number_not_str l) by done. cbn. by destruct (sv_as_str r).
  - rewrite (sv_number_not_str r) by done. by destruct (sv_as_str l).
  - by destruct (sv_as_str l), (sv_as_str r).
Qed.
Lemma tp_values : total_preorder compare_values.
Proof.
  eapply tp_ext; [exact compare_values_is|]. apply tp_lex; [apply (tp_on value_rank), tp_Z|].
  apply tp_lex; [apply (tp_on number_part), tp_float|apply (tp_on text_part), tp_str].
Qed.
Lemma tp_sort_keys (descending : bool) : total_preorder (λ l r, compare_sort_keys l r descending).
Proof.
  assert (total_preorder (λ l r, compare_sort_keys l r false)) as H.
  { set (missing (o : option V) := match o with Some _ => 0 | None => 1 end). set (value (o : option V) := default sv_null o).
    apply (tp_ext (lex (λ l r : option V, missing l ?= missing r) (λ l r, compare_values (value l) (value r)))).
    - intros [l|] [r|]; try done. unfold lex. cbn. apply tp_refl, tp_values.
    - apply tp_lex; [apply (tp_on missing), tp_Z|apply (tp_on value), tp_values]. }
  destruct descending; [|exact H]. eapply tp_ext; [|apply (tp_opp _ H)]. done.
Qed.
Lemma tp_spec (spec : SortSpec) : total_preorder (by_spec (V:=V) spec).
Proof.
  apply (tp_lex (λ a b, compare_sort_keys (sort_key a.2 (sort_field spec)) (sort_key b.2 (sort_field spec)) (descending spec)) (λ a b, str_compare a.1 b.1)).
  - apply (tp_on (λ a : str * V, sort_key a.2 (sort_field spec)) _ (tp_sort_keys (descending spec))).
  - apply (tp_on fst), tp_str.
Qed.
Definition record_cmp (spec : option SortSpec) : str * V → str * V → comparison :=
  match spec with None => by_record_id | Some spec => by_spec spec end.
Lemma sort_records_is (records : list (str * V)) (spec : option SortSpec) : sort_records records spec = sort_by (record_cmp spec) records.
Proof. by destruct spec. Qed.
Lemma tp_record (spec : option SortSpec) : total_preorder (record_cmp spec).
Proof. destruct spec; [apply tp_spec|apply (tp_on fst), tp_str]. Qed.
Lemma record_cmp_eq (spec : option SortSpec) (a b : str * V) : record_cmp spec a b = Eq → a.1 = b.1.
Proof.
  destruct spec as [spec|]; cbn; unfold by_spec, by_record_id; [destruct (compare_sort_keys _ _ _); try done|]; apply str_compare_eq.
Qed.
Lemma sort_records_sorted (records : list (str * V)) (spec : option SortSpec) : StronglySorted (cmp_le (record_cmp spec)) (sort_records records spec).
Proof. rewrite sort_records_is. apply sort_by_sorted; apply (tp_record spec). Qed.
Lemma sort_records_perm (records : list (str * V)) (spec : option SortSpec) : sort_records records spec ≡ₚ records.
Proof. rewrite sort_records_is. apply sort_by_perm. Qed.
(** Records are answered in one order, whatever order they were kept in. *)
Lemma one_order (records records' : list (str * V)) (spec : option SortSpec) :
  NoDup records.*1 → records ≡ₚ records' → sort_records records spec = sort_records records' spec.
Proof.
  intros Hnd Hp. set (l1 := sort_records records spec). set (l2 := sort_records records' spec).
  assert (l1 ≡ₚ l2) as H12 by (unfold l1, l2; by rewrite !sort_records_perm).
  assert (NoDup l1.*1) as Hnd1 by (unfold l1; by rewrite sort_records_perm).
  assert (∀ x y, x ∈ l1 → y ∈ l1 → x.1 = y.1 → x = y) as Hkey.
  { intros x y [i Hi]%list_elem_of_lookup [j Hj]%list_elem_of_lookup He.
    assert (i = j) as <-; [|congruence]. eapply (NoDup_lookup _ i j x.1 Hnd1); rewrite list_lookup_fmap; [by rewrite Hi|]. by rewrite Hj, He. }
  assert (∀ l, (∀ x, x ∈ l → x ∈ l1) → StronglySorted (cmp_le (record_cmp spec)) l →
    StronglySorted (λ x y, x ∈ l1 ∧ y ∈ l1 ∧ cmp_le (record_cmp spec) x y) l) as Hin.
  { intros l Hl H. induction H as [|x l H IH Hx]; [constructor|]. constructor; [apply IH; intros y Hy; apply Hl; by right|].
    rewrite list.Forall_forall in Hx |- *. intros y Hy. split_and!; [apply Hl; by left|apply Hl; by right|by apply Hx]. }
  eapply (sorted_unique (λ x y, x ∈ l1 ∧ y ∈ l1 ∧ cmp_le (record_cmp spec) x y)); [|apply Hin; [done|apply sort_records_sorted]| |done].
  - intros x y (Hx & Hy & Hxy) (_ & _ & Hyx). apply Hkey; [done..|]. apply (record_cmp_eq spec).
    unfold cmp_le in *. rewrite (tp_antisym _ (tp_record spec) x y) in Hyx. by destruct (record_cmp spec x y).
  - apply Hin; [intros x Hx; by rewrite H12|apply sort_records_sorted].
Qed.
End record_order.

(** ** Facts: identities *)
Lemma digits_value_zeros (k : nat) (s : str) : digits_value (replicate k 48%N ++ s) = digits_value s.
Proof. unfold digits_value. rewrite fold_left_app. f_equal. by induction k. Qed.
(** The number of a padded identity is read back from it. *)
Lemma zero_padded_read (pad : Z) (n : nat) : parse_digits (zero_padded pad n) = Some (N.of_nat n).
Proof.
  unfold zero_padded, pad_left, parse_digits, dec_nat. destruct (dec_N_spec (N.of_nat n)) as (Hd & Hv & Hn).
  set (k := (_ - _)%nat). assert (forallb is_digit (replicate k 48%N ++ dec_N (N.of_nat n)) = true) as Hall.
  { rewrite forallb_app, Hd, andb_true_r. by induction k. }
  rewrite Hall, digits_value_zeros, Hv. by destruct k; [destruct (dec_N _)|].
Qed.
Lemma zero_padded_length (pad : Z) (n : nat) : length (zero_padded pad n) = Nat.max (Z.to_nat pad) (length (dec_nat n)).
Proof. unfold zero_padded, pad_left. rewrite length_app, length_replicate. lia. Qed.

Section identities.
Context `{U : UnicodeTables} {V : Type} `{SV : Serde V} `{SL : !SerdeLaws V} `{ST : SerdeText V}.
Lemma slugify_nonempty (text : str) : slugify text ≠ [].
Proof. unfold slugify, or_record. by destruct (slug_of _). Qed.

(** What a request gains: one value, the others as they were. *)
Definition gains (args args' : V) (field : str) (value : V) : Prop :=
  sv_get args' field = Some value ∧ ∀ k, k ≠ field → sv_get args' k = sv_get args k.
Lemma insert_gains (args : V) (field : str) (value : V) :
  sv_is_object args = true → gains args (sv_insert args field value) field value.
Proof.
  intros Ho. split; [|intros k Hk]; rewrite sv_get_insert by done; [by rewrite decide_True|by rewrite decide_False].
Qed.
(** What is left of an application once its rule is found and the request has no identity. *)
Lemma identity_applied (presentation aggregate args rule : V) (existing : nat) (field wire : str) :
  collection_config presentation (agg_name aggregate) "identity" = Some rule → sv_get_str rule "field" = Some field →
  identity_wire_key aggregate field = Some wire → sv_is_object args = true → sv_get args field = None →
  apply_identity presentation aggregate args existing =
    let? identity := minted rule args (agg_name aggregate) existing in
    Ok (match identity with Some ((_ :: _) as text) => sv_insert args field (sv_obj [(wire, sv_str text)]) | _ => args end).
Proof.
  intros Hr Hf Hw Ho Hn. unfold apply_identity, sv_contains. rewrite Hr. cbn [mbind option_bind]. rewrite Hf.
  cbn [mbind option_bind]. rewrite Hn. cbn [from_option]. rewrite Hw. cbn [mbind option_bind].
  destruct (minted _ _ _ _) as [[[|ch text]|]|]; try done. by rewrite Ho.
Qed.
End identities.

(** ** Facts: what a request may change *)
Section changes.
Context `{U : UnicodeTables} `{UU : UnicodeUpper} {V I : Type} `{SV : Serde V} `{SN : SerdeNumbers V} `{ST : SerdeText V} `{SB : !Sandbox V}
  `{SE : !SerdeEq V} `{Inv : !Invoker V I}.
Context (levels : nat) (wasm_path : str) (c : LineageConfig) (installed : option V) (ir_depth : nat) (fault : option HostStore.Fault)
  (mode : Enforcement) (ir : V) (clock : nat → Moment).
Abbreviation facts_request := (handle_facts_request wasm_path c installed ir_depth fault mode).
Abbreviation routed_request := (handle_routed_request wasm_path c installed ir_depth fault mode).
Abbreviation routed := (route levels wasm_path c installed ir_depth fault mode ir clock).

Lemma preview_keeps (verb : str) (invocation : Prelude.result str V) (asker : Caller) (s : Site V I) :
  store (host (preview_answer wasm_path c installed ir_depth fault mode clock verb invocation asker s).2) = store (host s).
Proof.
  unfold preview_answer, preview_request. destruct invocation as [args|e]; [|done].
  pose proof (HostDispatchFacts.preview_keeps_nothing wasm_path c installed ir_depth fault mode HostNeeds.Request verb args asker
    (clock 0%nat) (clock 1%nat) (host s)) as H.
  destruct (dispatch_with _ _ _ _ _ _ _ _ _ _ _ _ _ _) as [outcome h]. by destruct H as [H _].
Qed.
(** A creating command of the domain, and one of a record the kernel holds. *)
Definition creates_record (asker : Caller) (s s' : Site V I) : Prop :=
  ∃ aggregate command args, aggregate ∈ aggregates ir ∧ command ∈ commands aggregate ∧ creates command = true ∧
    s' = with_host s (facts_request (domain_name ir ++ "::" ++ agg_name aggregate ++ "." ++ command_name command) args asker
                        (clock 0%nat) (clock 1%nat) (host s)).2.
Definition acts_on_record (asker : Caller) (s s' : Site V I) : Prop :=
  ∃ aggregate command id args records, aggregate ∈ aggregates ir ∧ command ∈ commands aggregate ∧ creates command = false ∧
    read_records wasm_path ir aggregate (store (host s)) = Ok records ∧ id ∈ records.*1 ∧
    s' = with_host s (routed_request (domain_name ir ++ "::" ++ agg_name aggregate ++ "." ++ command_name command) (sv_str id) args asker
                        (clock 0%nat) (clock 1%nat) (host s)).2.
Definition saves_admitted (raw : str) : Prop := ∃ submitted, parsed_body raw = Ok submitted ∧ validate submitted ir = Ok ().

Lemma resolved_aggregate (config aggregate : V) (collection : str) :
  resolve_collection ir config collection = Ok aggregate → aggregate ∈ aggregates ir ∧ collection_key aggregate config = collection.
Proof.
  unfold resolve_collection. destruct (find _ _) as [a|] eqn:E; [|done]. intros [= <-]. apply find_some in E as [Hin Hk].
  split; [by apply list_elem_of_In|]. unfold str_eqb in Hk. by case_bool_decide.
Qed.
Lemma named_aggregate (collection : str) (d : Data V) (config aggregate : V) :
  named_collection wasm_path c installed ir clock collection d = Ok (config, aggregate) →
  loaded wasm_path c installed clock d = Ok config ∧ resolve_collection ir config collection = Ok aggregate.
Proof.
  unfold named_collection. destruct (loaded _ _ _ _ d) as [config'|]; [|done]. destruct (resolve_collection ir config' collection) eqn:E; [|done].
  by intros [= <- <-].
Qed.
Lemma create_changes (collection raw : str) (asker : Caller) (preview : bool) (s : Site V I) :
  let s' := (collection_create wasm_path c installed ir_depth fault mode ir clock collection raw asker preview s).2 in
  store (host s') ≠ store (host s) → preview = false ∧ creates_record asker s s'.
Proof.
  cbn zeta. unfold collection_create, creation. destruct (named_collection _ _ _ _ _ _ _) as [[config aggregate]|] eqn:En; [|done].
  apply named_aggregate in En as [_ [Hagg _]%resolved_aggregate].
  destruct (parsed_body raw) as [body|]; [|done]. destruct (find creates _) as [command|] eqn:Ef; [|done].
  apply find_some in Ef as [Hin Hc]. destruct (read_records _ _ _ _) as [records|]; [|done].
  destruct (apply_identity _ _ _ _) as [args|]; [|done]. destruct (check_preconditions _ _ _ _ _ _) as [[]|]; [|done].
  destruct preview; [intros H; by rewrite preview_keeps in H|]. intros _. split; [done|].
  destruct (facts_request _ _ _ _ _ _) as [outcome h] eqn:Eh. exists aggregate, command, args. rewrite Eh.
  split_and!; try done; by apply list_elem_of_In.
Qed.
Lemma command_changes (collection id command raw : str) (asker : Caller) (preview : bool) (s : Site V I) :
  let s' := (command_route wasm_path c installed ir_depth fault mode ir clock collection id command raw asker preview s).2 in
  store (host s') ≠ store (host s) → preview = false ∧ acts_on_record asker s s'.
Proof.
  cbn zeta. unfold command_route, aimed. destruct (named_collection _ _ _ _ _ _ _) as [[config aggregate]|] eqn:En; [|done].
  apply named_aggregate in En as [_ [Hagg _]%resolved_aggregate]. cbn [snd].
  destruct (read_records _ _ _ _) as [records|] eqn:Er; [|done].
  destruct (existsb _ records) eqn:Ee; [|done]. cbn [negb]. apply existsb_exists in Ee as ([k state] & Hk & Hid). unfold str_eqb in Hid.
  case_bool_decide as Hk'; [|done]. cbn [fst] in Hk'. subst k. destruct (dispatchable_command aggregate command) as [declared|] eqn:Ed; [|done].
  apply find_some in Ed as [[Hin Hc]%filter_In _]. destruct (parsed_body raw) as [args|]; [|done].
  destruct preview; [intros H; by rewrite preview_keeps in H|]. intros _. split; [done|].
  destruct (routed_request _ _ _ _ _ _ _) as [outcome h] eqn:Eh. exists aggregate, declared, id, args, records. rewrite Eh.
  split_and!; try done; [by apply list_elem_of_In|by destruct (creates declared)|].
  apply list_elem_of_fmap. exists (id, state). split; [done|by apply list_elem_of_In].
Qed.
Lemma save_changes (raw : str) (s : Site V I) :
  store (host (presentation_save wasm_path c installed ir_depth fault mode ir clock raw s).2) ≠ store (host s) → saves_admitted raw.
Proof.
  unfold presentation_save, saves_admitted. destruct (parsed_body raw) as [submitted|]; [|done]. unfold save.
  destruct (kernel_rows _ _ _ _) as [[rows|]|]; try done. destruct (validate submitted ir) as [[]|] eqn:Ev; [|done].
  intros _. by exists submitted.
Qed.

Lemma collection_changes (r : Request) (session : option Session) (s s' : Site V I) (v : V) :
  collection_routes levels wasm_path c installed ir_depth fault mode ir clock r session s = Some (v, s') → store (host s') ≠ store (host s) →
  method r = "POST" ∧ requested (asked r !! ("dry_run" : str)) = false ∧
  (creates_record (caller session) s s' ∨ acts_on_record (caller session) s s').
Proof.
  unfold collection_routes. destruct (str_eqb (method r) "GET").
  - destruct (api_segments (path r)) as [|collection [|id [|x rest]]]; try (by intros [= <- <-]).
    destruct (collection_index _ _ _ _ _ _ _ _ _) as [answer|]; [|done]. by intros [= <- <-].
  - destruct (str_eqb (method r) "POST") eqn:Em; [|by intros [= <- <-]]. unfold str_eqb in Em. case_bool_decide as Hm; [|done].
    destruct (api_segments (path r)) as [|collection [|id [|x [|y rest]]]]; try (by intros [= <- <-]).
    + intros [= Hs] Hne. apply (f_equal snd) in Hs. cbn [snd] in Hs. subst s'. split; [done|]. apply create_changes in Hne as [Hp Hc]. split; [done|]. by left.
    + intros [= Hs] Hne. apply (f_equal snd) in Hs. cbn [snd] in Hs. subst s'. split; [done|]. apply command_changes in Hne as [Hp Hc]. split; [done|]. by right.
Qed.

(** C24: the console writes only through declared commands.  Where an /api/ request
    changes what the host holds, it is the save of an admitted configuration by an admin,
    or a POST that asks for no dry run and is one run, as its caller, of a command the
    domain declares: a creating one, or another aimed at a record. *)
Theorem console_writes_are_declared_commands (r : Request) (session : option Session) (s s' : Site V I) (v : V) :
  routed r session s = Some (v, s') → store (host s') ≠ store (host s) →
  (method r = "PUT" ∧ path r = "/api/presentation" ∧ admin_session session = true ∧ saves_admitted (raw_body r)) ∨
  (method r = "POST" ∧ requested (asked r !! ("dry_run" : str)) = false ∧
   (creates_record (caller session) s s' ∨ acts_on_record (caller session) s s')).
Proof.
  unfold route. destruct (_ && _); [by intros [= <- <-]|].
  destruct (_ && _); [destruct (document _ _ _ _ _ _) as [answer|]; [|done]; by intros [= <- <-]|].
  destruct (_ && _); [destruct (document _ _ _ _ _ _) as [answer|]; [|done]; by intros [= <- <-]|].
  destruct (_ && _); [destruct (document _ _ _ _ _ _) as [answer|]; [|done]; by intros [= <- <-]|].
  destruct (_ && _) eqn:Ep.
  - apply andb_true_iff in Ep as [Em Ep]. unfold str_eqb in Em, Ep. case_bool_decide as Hm; [|done]. case_bool_decide as Hp; [|done].
    destruct (admin_session session) eqn:Ea; [|by intros [= <- <-]]. intros [= Hs] Hne. apply (f_equal snd) in Hs. cbn [snd] in Hs. subst s'.
    left. split_and!; try done. by eapply save_changes.
  - intros Hr Hne. right. by eapply collection_changes.
Qed.
End changes.

(** ** Properties *)
Section properties.
Context `{U : UnicodeTables} `{UU : UnicodeUpper} {V I : Type} `{SV : Serde V} `{SL : !SerdeLaws V} `{SN : SerdeNumbers V}
  `{ST : SerdeText V} `{SB : !Sandbox V} `{SE : !SerdeEq V}.
Context (levels : nat) (wasm_path : str) (c : LineageConfig) (installed : option V) (ir : V) (clock : nat → Moment).

Lemma found_by_key (config aggregate : V) :
  NoDup (map (λ a, collection_key a config) (aggregates ir)) → aggregate ∈ aggregates ir →
  resolve_collection ir config (collection_key aggregate config) = Ok aggregate.
Proof.
  unfold resolve_collection. induction (aggregates ir) as [|a aggs IH]; intros Hnd Hin; [by apply elem_of_nil in Hin|].
  cbn [map] in Hnd. apply list.NoDup_cons in Hnd as [Ha Hnd]. cbn [find]. unfold str_eqb at 1. case_bool_decide as Hk.
  - apply elem_of_cons in Hin as [->|Hin]; [done|]. exfalso. apply Ha. apply list_elem_of_In, in_map_iff. exists aggregate. split; [done|by apply list_elem_of_In].
  - apply elem_of_cons in Hin as [->|Hin]; [done|]. by apply IH.
Qed.
Lemma found_by_name (aggregate : V) (command : str) : acts aggregate command → ∃ declared, dispatchable_command aggregate command = Some declared.
Proof.
  intros (declared & Hin & Hc & Hn). unfold dispatchable_command. destruct (find _ _) as [d|] eqn:E; [by exists d|]. exfalso.
  eapply find_none in E; [|apply filter_In; split; [by apply list_elem_of_In|by rewrite Hc]]. cbn beta in E.
  unfold command_name, str_eqb in E. by rewrite bool_decide_true in E.
Qed.

(** C25: what the console is shown, it can do.  Where no two aggregates share a key, a
    command the interface's document offers for a collection, in a state or always, is
    reached under its route: for a record the kernel holds and a body that is an object,
    a command of the collection's own aggregate is dispatched, never a 404. *)
Theorem offered_commands_are_routed (config document collections collection : V) (key command : str) :
  NoDup (map (λ a, collection_key a config) (aggregates ir)) →
  build levels ir config = Some document → sv_get document "collections" = Some collections →
  sv_get collections key = Some collection → offers collection command →
  ∃ aggregate, aggregate ∈ aggregates ir ∧ resolve_collection ir config key = Ok aggregate ∧
    ∀ d records id raw body, loaded wasm_path c installed clock d = Ok config → read_records wasm_path ir aggregate d = Ok records →
      id ∈ records.*1 → parsed_body raw = Ok body →
      ∃ declared, declared ∈ commands aggregate ∧ creates declared = false ∧ snake (command_name declared) = command ∧
        aimed wasm_path c installed ir clock key id command raw d =
          Ok (aggregate, domain_name ir ++ "::" ++ agg_name aggregate ++ "." ++ command_name declared, body).
Proof.
  intros Hnd Hb Hcs Hc Ho. destruct (offered_acts config levels ir document collections collection key command Hb Hcs Hc Ho)
    as (aggregate & Hin & Hk & Hacts). exists aggregate. subst key.
  pose proof (found_by_key config aggregate Hnd Hin) as Hr. split_and!; [done|done|]. intros d records id raw body Hl Hrec Hid Hbody.
  destruct (found_by_name aggregate command Hacts) as [declared Hd]. exists declared.
  pose proof Hd as Hf. unfold dispatchable_command in Hf. apply find_some in Hf as [[Hdin Hdc]%filter_In Hdn].
  unfold str_eqb in Hdn. case_bool_decide as Hdn'; [|done].
  split_and!; [by apply list_elem_of_In|by destruct (creates declared)|done|].
  unfold aimed, named_collection. rewrite Hl, Hr. cbn [snd]. rewrite Hrec.
  assert (existsb (λ r : str * V, str_eqb r.1 id) records = true) as ->.
  { apply list_elem_of_fmap in Hid as (r & -> & Hin'). apply existsb_exists. exists r. split; [by apply list_elem_of_In|].
    unfold str_eqb. by rewrite bool_decide_true. }
  cbn [negb]. rewrite Hd, Hbody. done.
Qed.

(** C26: a record is created only where its preconditions hold.  What a creation
    dispatches was read against the kernel's records: each configured precondition on
    a reference the request gives names a record that is there, in the state it asks
    for. *)
Theorem creations_meet_their_preconditions (collection raw : str) (d : Data V) (aggregate args : V) (verb : str) :
  creation wasm_path c installed ir clock collection raw d = Ok (aggregate, verb, args) →
  ∃ config, loaded wasm_path c installed clock d = Ok config ∧ resolve_collection ir config collection = Ok aggregate ∧
    ∀ rules rule field id attribute target_name,
      collection_config config (agg_name aggregate) "preconditions" ≫= sv_as_array = Some rules → rule ∈ rules →
      sv_get_str rule "field" = Some field → sv_get_str args field = Some id → find_attribute aggregate field = Some attribute →
      reference_target (type_of attribute) = Some target_name →
      ∃ state instances target, HostDispatch.read wasm_path d = Ok state ∧ sv_get state "instances" = Some instances ∧
        sv_get instances (domain_name ir ++ "::" ++ target_name ++ "#" ++ id) = Some target ∧
        ∀ expected state_field, sv_get_str rule "state" = Some expected → state_field_of ir target_name = Some state_field →
          default [] (sv_get_str target state_field) = expected.
Proof.
  unfold creation. destruct (named_collection _ _ _ _ _ _ _) as [[config agg]|] eqn:En; [|done].
  apply named_aggregate in En as [Hl Hr]. destruct (parsed_body raw) as [body|]; [|done].
  destruct (find creates _) as [command|]; [|done]. destruct (read_records _ _ _ _) as [records|]; [|done].
  destruct (apply_identity _ _ _ _) as [args'|]; [|done]. destruct (check_preconditions _ _ _ _ _ _) as [[]|] eqn:Ec; [|done].
  intros [= <- <- <-]. exists config. split_and!; [done|done|].
  intros rules rule field id attribute target_name Hrules Hin Hf Hid Ha Ht. unfold check_preconditions in Ec. rewrite Hrules in Ec.
  destruct rules as [|r0 rules]; [by apply elem_of_nil in Hin|]. destruct (HostDispatch.read wasm_path d) as [state|]; [|done].
  change (check_rules ir agg (r0 :: rules) args' (default sv_object (sv_get state "instances")) = Ok ()) in Ec.
  set (all := r0 :: rules) in *.
  assert (check_precondition ir agg rule args' (default sv_object (sv_get state "instances")) = Ok ()) as Hc.
  { revert Ec Hin. unfold check_rules. generalize all. intros l. induction l as [|x l IH]; intros Ec Hin; [by apply elem_of_nil in Hin|].
    cbn [try_fold] in Ec. destruct (check_precondition ir agg x _ _) as [[]|] eqn:Ex; [|done].
    apply elem_of_cons in Hin as [->|Hin]; [done|by apply IH]. }
  unfold check_precondition in Hc. rewrite Hf in Hc. cbn [mbind option_bind] in Hc. rewrite Hid in Hc. cbn [mbind option_bind] in Hc.
  rewrite Ha in Hc. cbn [mbind option_bind] in Hc. unfold type_of in Ht.
  destruct (sv_get_str attribute "type") as [ty|]; [|done]. cbn [from_option Datatypes.id mbind option_bind] in Ht, Hc. rewrite Ht in Hc. cbn [mbind option_bind] in Hc.
  destruct (sv_get (default sv_object (sv_get state "instances")) (domain_name ir ++ "::" ++ target_name ++ "#" ++ id)) as [target|] eqn:Et; [|done].
  destruct (sv_get state "instances") as [instances|] eqn:Ei; [|by cbn in Et; rewrite sv_get_object in Et]. cbn [from_option Datatypes.id] in Et.
  exists state, instances, target. split_and!; [done|done|exact Et|]. intros expected state_field He Hs. rewrite He in Hc.
  cbn [mbind option_bind] in Hc. rewrite Hs in Hc. cbn [mbind option_bind] in Hc. destruct (str_eqb (default [] (sv_get_str target state_field)) expected) eqn:Ee; [|done].
  unfold str_eqb in Ee. by case_bool_decide.
Qed.

End properties.

(** A slug is the words of its text.  The slug of a text is its runs of letters and
    digits, in small letters and put together by hyphens, or "record" where it has
    none; and the slug of a slug is the slug itself. *)
Theorem slugs_are_the_words_of_a_text `{U : UnicodeTables} (text : str) :
  slugify text = or_record (join "-" (words (to_lowercase (IpText.trim text)))) ∧ is_slug (slugify text) ∧
  ∀ ws, ws ≠ [] → Forall is_word ws → slug_of (join "-" ws) = join "-" ws.
Proof.
  unfold slugify. split_and!; [by rewrite slug_of_words|apply or_record_slug|]. intros ws _ Hw. by rewrite slug_of_words, words_of_slug.
Qed.

(** C28: the records of a collection have one order.  Whatever they are sorted by, numbers
    and texts mixed and values missing, they come out sorted, all of them, and the same
    whatever order they were kept in. *)
Theorem records_have_one_order {V : Type} `{SV : Serde V} `{SN : SerdeNumbers V} `{SNL : !SerdeNumberLaws V}
    (records records' : list (str * V)) (spec : option SortSpec) :
  NoDup records.*1 → records ≡ₚ records' →
  sort_records records spec = sort_records records' spec ∧ sort_records records spec ≡ₚ records ∧
  StronglySorted (λ a b, record_cmp spec a b ≠ Gt) (sort_records records spec).
Proof. intros Hnd Hp. split_and!; [by apply one_order|apply sort_records_perm|apply sort_records_sorted]. Qed.

(** The interface's documents end.  Where no value object or entity of the domain
    contains itself - each is ranked above what its attributes are - one level more
    than the highest rank is enough for both documents, and any more give the same. *)
Theorem interface_documents_end `{U : UnicodeTables} `{UU : UnicodeUpper} {V : Type} `{SV : Serde V} `{SN : SerdeNumbers V}
    (domain_ir config : V) (rank : str → nat) (most : nat) :
  (∀ ty, rank ty ≤ most)%nat →
  (∀ a, a ∈ aggregates domain_ir → ranked (with_shared_value_objects a (aggregates domain_ir)) rank) →
  ∃ interface structure, ∀ levels, (most < levels)%nat →
    build levels domain_ir config = Some interface ∧ schema levels domain_ir config = Some structure.
Proof.
  intros Hm Hr. destruct (build_settles rank (S most) most Hm (Nat.lt_succ_diag_r most) domain_ir config Hr) as (interface & Hi & _).
  destruct (schema_settles rank (S most) most Hm (Nat.lt_succ_diag_r most) domain_ir config Hr) as (structure & Hs & _).
  exists interface, structure. intros levels Hl. split.
  - destruct (build_settles rank levels most Hm Hl domain_ir config Hr) as (d & Hd & Hd'). congruence.
  - destruct (schema_settles rank levels most Hm Hl domain_ir config Hr) as (d & Hd & Hd'). congruence.
Qed.
