(* ===== verification/WebRoutesFacts.v ===== *)
(** What the routes promise ([MemberRoutes.v], [WebRoutes.v]): what comes to the member
    routes and the members' page changes something only by the hand of an admin, by the
    account cookie or by a live assignment of the session's, every site that has an admin
    without an end date keeps one, a sign-in with Google stays in the browser it began
    in, and no route opens the gate. *)
From stdpp Require Import gmap.
From S2P Require Import Crypto VerifierFacts Tokens.
From S2P Require RateLimit.
From S2P Require Export MemberFacts MemberRoutes.
Open Scope Z_scope.

Section routes.
Context `{U : UnicodeTables} `{B : Base64Url} `{M : Hmac} {V : Type} `{SV : Serde V} `{SL : !SerdeLaws V} `{ST : SerdeText V}.
Context (lower_twice : ∀ s, to_lowercase (to_lowercase s) = to_lowercase s).
Context (c : LineageConfig) (ir : V) (aggregate storage : str) (Hset : settled c ir aggregate storage).
Context (account_cookie secret : str) (now : Z).
Context `{SB : !Sandbox V} (wasm_path : str) (installed : option V).
Implicit Types d : Data V.

(** The JSON routes that may change a member. *)
Inductive MemberRequest := AddMember | SetDisabled (disable : bool) | DeleteMember | SetRole.
Definition answered (r : MemberRequest) (raw_body : str) (cookies : gmap str str) d : V * Data V :=
  match r with
  | AddMember => add_member_route account_cookie secret c ir now raw_body cookies d
  | SetDisabled disable => set_member_disabled_route account_cookie secret c ir now raw_body cookies disable d
  | DeleteMember => set_member_deleted_route account_cookie secret c ir now raw_body cookies d
  | SetRole => set_member_role_route account_cookie secret c ir now raw_body cookies d
  end.

(** The caller a request names, and as what: the key its rows are compared with. *)
Definition caller_key (r : MemberRequest) (email : str) : str :=
  match r with AddMember => to_lowercase email | _ => email_key email end.
Definition caller_is (r : MemberRequest) (cookies : gmap str str) d : Prop :=
  ∃ token email, cookies !! account_cookie = Some token ∧ verify_account_token (V:=V) secret token now = Some email ∧
    caller_active now (rows c storage d) (caller_key r email) = true.

Lemma account_email_is (cookies : gmap str str) (email : str) :
  account_email (V:=V) account_cookie secret now cookies = Some email →
  ∃ token, cookies !! account_cookie = Some token ∧ verify_account_token (V:=V) secret token now = Some email.
Proof. unfold account_email. destruct (cookies !! account_cookie) as [t|]; [|done]. cbn [mbind option_bind]. by exists t. Qed.

Lemma add_member_steps d (name email role : str) (days : option Z) :
  rtc (Change c ir) d (add_member c ir now name email role days d).2.
Proof.
  unfold add_member. destruct (admit_person d c ir email name) as [[[]|e] d1] eqn:E.
  - pose proof (Joined c ir d email name) as H1. rewrite E in H1. cbn [snd] in H1.
    pose proof (Granted c ir now d1 (to_lowercase email) role (until_of now days)) as H2.
    destruct (grant_access_until _ _ _ _ _ _ _) as [o d2]. cbn [snd] in *. eapply rtc_l; [exact H1|]. by eapply rtc_once.
  - pose proof (Joined c ir d email name) as H1. rewrite E in H1. by apply rtc_once.
  - pose proof (Joined c ir d email name) as H1. rewrite E in H1. by apply rtc_once.
Qed.

(** What a request does to the members: nothing, or steps of an active admin. *)
Lemma request_steps (r : MemberRequest) (raw_body : str) (cookies : gmap str str) d :
  (answered r raw_body cookies d).2 = d ∨
  caller_is r cookies d ∧ rtc (Change c ir) d (answered r raw_body cookies d).2.
Proof.
  unfold answered, caller_is. destruct r as [|disable| |].
  - unfold add_member_route. destruct (account_email _ _ _ _) as [caller|] eqn:Ea; [|by left].
    apply account_email_is in Ea as (token & Ht & Hv).
    unfold caller_is_admin. rewrite (member_rows_ok c ir aggregate storage Hset).
    destruct (caller_active now (rows c storage d) (to_lowercase caller)) eqn:Eadm; [|by left].
    destruct (_ || _); [by left|]. destruct (negb _); [by left|].
    destruct (expiry_days _) as [days|]; [|by left]. right. split; [by exists token, caller|apply add_member_steps].
  - unfold set_member_disabled_route. destruct (account_email _ _ _ _) as [caller|] eqn:Ea; [|by left].
    apply account_email_is in Ea as (token & Ht & Hv). destruct (bool_decide _); [by left|].
    set (email := text_field _ _).
    destruct (caller_active now (rows c storage d) (email_key caller)) eqn:Eadm.
    + right. pose proof (Disabled c ir now d caller email disable) as Hc.
      destruct (set_person_disabled _ _ _ _ _ _ _) as [o d1]. split; [by exists token, caller|by apply rtc_once].
    + left. by destruct (only_admins_change_members c ir aggregate storage Hset now d caller email [] disable Eadm) as [-> _].
  - unfold set_member_deleted_route. destruct (account_email _ _ _ _) as [caller|] eqn:Ea; [|by left].
    apply account_email_is in Ea as (token & Ht & Hv). destruct (bool_decide _); [by left|].
    set (email := text_field _ _).
    destruct (caller_active now (rows c storage d) (email_key caller)) eqn:Eadm.
    + right. pose proof (Deleted c ir now d caller email) as Hc.
      destruct (set_person_deleted _ _ _ _ _ _) as [o d1]. split; [by exists token, caller|by apply rtc_once].
    + left. by destruct (only_admins_change_members c ir aggregate storage Hset now d caller email [] true Eadm) as (_ & -> & _).
  - unfold set_member_role_route. destruct (account_email _ _ _ _) as [caller|] eqn:Ea; [|by left].
    apply account_email_is in Ea as (token & Ht & Hv). destruct (bool_decide _); [by left|]. destruct (negb _); [by left|].
    set (email := text_field _ _). set (role := text_field _ "role").
    destruct (caller_active now (rows c storage d) (email_key caller)) eqn:Eadm.
    + right. pose proof (Role c ir now d caller email role) as Hc.
      destruct (set_person_role _ _ _ _ _ _ _) as [o d1]. split; [by exists token, caller|by apply rtc_once].
    + left. by destruct (only_admins_change_members c ir aggregate storage Hset now d caller email role true Eadm) as (_ & _ & ->).
Qed.

Lemma steps_keep_open_admin d d' : rtc (Change c ir) d d' → has_open_admin c storage d → has_open_admin c storage d'.
Proof. induction 1 as [|x y z Hx _ IH]; [done|]. intros Ho. by apply IH, (change_keeps lower_twice c ir aggregate storage Hset x). Qed.

(** The members' page: what its form does, and whom it asks. *)
Lemma grant_form_steps (form : gmap str str) d : rtc (Change c ir) d (grant_form c ir now form d).2.
Proof.
  unfold grant_form. destruct (negb _); [done|]. destruct (negb _); [done|]. destruct (form_days form) as [days|]; [|done].
  set (email := default [] _). set (name := form_name form email).
  pose proof (Joined c ir d email name) as H1. destruct (admit_person d c ir email name) as [[b|e] d1]; cbn [snd] in H1.
  - pose proof (Granted c ir now d1 email (default [] (form !! ("role" : str))) (until_of now days)) as H2.
    destruct (grant_access_until _ _ _ _ _ _ _) as [o d2]. cbn [snd] in *. eapply rtc_l; [exact H1|]. by eapply rtc_once.
  - by apply rtc_once.
Qed.
Definition session_admin (session : option Session) d : Prop :=
  ∃ m, session = Some m ∧ is_admin wasm_path installed ir now (identity_id m) d = true.
Lemma members_page_steps (method raw_body : str) (cookies : gmap str str) (session : option Session) d :
  let after := (admin_members_route account_cookie secret wasm_path c installed ir now method raw_body cookies session d).2 in
  after = d ∨ (method ≠ "GET" ∧ (session_admin session d ∨ caller_is AddMember cookies d) ∧ rtc (Change c ir) d after).
Proof.
  cbn zeta. unfold admin_members_route. destruct (members_page_caller _ _ _ _ _ _ _ _ _) as [[]|e] eqn:Ec; [|by left].
  unfold str_eqb. case_bool_decide as Hm; [by left|]. right. split; [done|]. split; [|apply grant_form_steps].
  revert Ec. unfold members_page_caller.
  destruct session as [m|].
  - destruct (is_admin wasm_path installed ir now (identity_id m) d) eqn:Ei; [left; by exists m|].
    destruct (account_email _ _ _ _) as [caller|] eqn:Ea; [|done]. intros Ec. right.
    apply account_email_is in Ea as (token & Ht & Hv). exists token, caller. split_and!; [done|done|].
    revert Ec. unfold caller_is_admin. rewrite (member_rows_ok c ir aggregate storage Hset).
    cbn [caller_key]. by destruct (caller_active now (rows c storage d) (to_lowercase caller)).
  - destruct (account_email _ _ _ _) as [caller|] eqn:Ea; [|done]. intros Ec. right.
    apply account_email_is in Ea as (token & Ht & Hv). exists token, caller. split_and!; [done|done|].
    revert Ec. unfold caller_is_admin. rewrite (member_rows_ok c ir aggregate storage Hset).
    cbn [caller_key]. by destruct (caller_active now (rows c storage d) (to_lowercase caller)).
Qed.

(** ** The days of a grant *)

(** Days that are given are a whole number from 1 to 365, whether they came as a
    number or as a text; nothing given, null and a blank text are no end date. *)
Theorem grants_end_within_a_year (raw : option V) (days : option Z) :
  expiry_days raw = Ok days →
  match days with
  | Some n => 1 <= n <= 365
  | None => match raw with
            | Some v => sv_is_null v = true ∨ ∃ s, sv_as_str v = Some s ∧ IpText.trim s = []
            | None => True
            end
  end.
Proof.
  unfold expiry_days. destruct raw as [v|]; [|by intros [= <-]]. destruct (sv_is_null v) eqn:En; [intros [= <-]; by left|].
  assert (∀ n : Z, (if in_days n then Ok (Some n) else Err EXPIRY_MESSAGE) = Ok days → ∃ m, days = Some m ∧ 1 <= m <= 365) as Hin.
  { intros n. unfold in_days, MAX_EXPIRY_DAYS. destruct (_ && _) eqn:E; [|done]. intros [= <-]. exists n.
    apply andb_true_iff in E as [H1%Z.leb_le H2%Z.leb_le]. done. }
  destruct (sv_as_str v) as [s|] eqn:Es.
  - case_bool_decide as Ht; [intros [= <-]; right; by exists s|].
    destruct (RateLimit.parse_u64 _) as [k|]; [|done]. by intros (n & -> & Hn)%Hin.
  - destruct (sv_as_u64 v) as [k|]; [|done]. by intros (n & -> & Hn)%Hin.
Qed.
End routes.

(** ** The routes of the site *)

(** What the routes promise ([WebRoutes.v]): a Google sign-in is finished only by the
    browser that started it; and what they do not give: a session, without which no
    page of the domain is answered. *)
From S2P Require Import Tokens SigninFlowFacts.
From S2P Require Export WebPagesFacts WebRoutes.
From S2P Require Import RateLimit SigninFlow WebText WebPages Tokens GoogleSignin MemberRoutes WebRoutes.
Open Scope Z_scope.

(** ** The cookies of a response *)

Section cookies.
Context {V : Type} `{SV : Serde V} `{SL : !SerdeLaws V}.
Definition cookies_of (response : V) : list str := omap sv_as_str (sv_list response "cookies").
Definition cookieless (v : V) : Prop := sv_is_object v = true ∧ sv_get v "cookies" = None.
Lemma obj_is (fields : list (str * V)) : sv_is_object (sv_obj fields) = true.
Proof. unfold sv_obj. apply sv_obj_is, sv_object_is. Qed.
Lemma respond_cookieless (status : Z) (content_type body : str) : cookieless (respond status content_type body).
Proof. unfold respond. split; [apply obj_is|sv_field]. Qed.
Lemma json_respond_cookieless (status : Z) (body : V) : cookieless (json_respond status body).
Proof. apply respond_cookieless. Qed.
Lemma json_error_cookieless (status : Z) (message : str) : cookieless (json_error status message).
Proof. apply respond_cookieless. Qed.
Lemma html_cookieless (status : Z) (body : str) : cookieless (html status body).
Proof. apply respond_cookieless. Qed.
Lemma redirect_cookieless (location : str) : cookieless (redirect location).
Proof. unfold redirect. split; [apply obj_is|sv_field]. Qed.
Lemma cookieless_none (v : V) : cookieless v → cookies_of v = [].
Proof. intros [_ H]. unfold cookies_of, sv_list, sv_get_array. by rewrite H. Qed.
Lemma redirect_with_cookie_sets (location cookie : str) : cookies_of (redirect_with_cookie location cookie) = [cookie].
Proof.
  unfold cookies_of, sv_list, sv_get_array, redirect_with_cookie.
  assert (sv_get (sv_obj _) "cookies" = Some (sv_array [sv_str cookie])) as -> by sv_field.
  cbn [mbind option_bind]. rewrite sv_as_array_array. cbn [from_option id omap list_omap]. by rewrite sv_as_str_str.
Qed.
Lemma respond_with_cookie_sets (status : Z) (content_type body cookie : str) :
  cookies_of (respond_with_cookie status content_type body cookie) = [cookie].
Proof.
  unfold cookies_of, sv_list, sv_get_array, respond_with_cookie.
  assert (sv_get (sv_obj _) "cookies" = Some (sv_array [sv_str cookie])) as -> by sv_field.
  cbn [mbind option_bind]. rewrite sv_as_array_array. cbn [from_option id omap list_omap]. by rewrite sv_as_str_str.
Qed.
Lemma with_cookie_sets (response : V) (cookie : str) :
  sv_is_object response = true → cookies_of (with_cookie response cookie) = cookies_of response ++ [cookie].
Proof.
  intros Ho. unfold cookies_of, with_cookie, sv_list. destruct (sv_get_array response "cookies") as [l|];
    unfold sv_get_array; rewrite sv_get_insert by done; rewrite decide_True by done; cbn [mbind option_bind];
    rewrite sv_as_array_array; cbn [from_option id]; rewrite ?list.omap_app; cbn [omap list_omap]; by rewrite sv_as_str_str.
Qed.
End cookies.
Create HintDb cookieless.
#[export] Hint Resolve respond_cookieless json_respond_cookieless json_error_cookieless html_cookieless redirect_cookieless : cookieless.
Ltac cookieless := intros; repeat case_match; simplify_eq/=; auto with cookieless.

Section members.
Context `{U : UnicodeTables} `{B : Base64Url} `{M : Hmac} {V : Type} `{SV : Serde V} `{SL : !SerdeLaws V} `{ST : SerdeText V} `{SB : !Sandbox V}.
Context (account_cookie secret wasm_path : str) (c : LineageConfig) (installed : option V) (ir : V) (now : Z).
Implicit Types d : Data V.

Lemma active_session_cookieless (cookies : gmap str str) d (response : V) :
  active_session_email account_cookie secret ir now cookies d = Err response → cookieless response.
Proof. unfold active_session_email, not_logged_in, lookup_failed. cookieless. Qed.
Lemma require_admin_cookieless (cookies : gmap str str) d (response : V) :
  require_admin account_cookie secret ir now cookies d = Err response → cookieless response.
Proof.
  unfold require_admin. destruct (active_session_email _ _ _ _ _ _) as [email|e] eqn:E.
  - unfold lookup_failed. cookieless.
  - intros [= <-]. by eapply active_session_cookieless.
Qed.
Lemma accounts_me_cookieless (cookies : gmap str str) d : cookieless (accounts_me_route account_cookie secret ir now cookies d).
Proof.
  unfold accounts_me_route. destruct (active_session_email _ _ _ _ _ _) as [email|e] eqn:E;
    [unfold lookup_failed; cookieless|by eapply active_session_cookieless].
Qed.
Lemma sso_token_cookieless (cookies : gmap str str) d : cookieless (accounts_sso_token_route account_cookie secret ir now cookies d).
Proof.
  unfold accounts_sso_token_route. destruct (active_session_email _ _ _ _ _ _) as [email|e] eqn:E;
    [auto with cookieless|by eapply active_session_cookieless].
Qed.
Lemma members_cookieless (cookies : gmap str str) d : cookieless (members_route account_cookie secret ir now cookies d).
Proof.
  unfold members_route. destruct (require_admin _ _ _ _ _ _) as [[]|e] eqn:E;
    [unfold lookup_failed; cookieless|by eapply require_admin_cookieless].
Qed.
Lemma member_request_cookieless (r : MemberRequest) (raw : str) (cookies : gmap str str) d :
  cookieless (answered c ir account_cookie secret now r raw cookies d).1.
Proof.
  destruct r; cbn [answered]; unfold add_member_route, add_member, granted_answer, set_member_disabled_route,
    set_member_deleted_route, set_member_role_route, update_failed, lookup_failed, not_logged_in, role_refused; cookieless.
Qed.
Lemma google_handoff_cookieless (raw : str) (spent : JtiStore) : cookieless (google_handoff_route (V:=V) secret now raw spent).1.
Proof. unfold google_handoff_route. cookieless. Qed.
Lemma admin_members_cookieless (method raw : str) (cookies : gmap str str) (session : option Session) d :
  cookieless (admin_members_route account_cookie secret wasm_path c installed ir now method raw cookies session d).1.
Proof. unfold admin_members_route, members_page_caller, grant_form, granted_page. cookieless. Qed.
End members.

(** ** What is set *)

Definition cookie_named (cookie : str) : str := match split_once cookie 61 with Some (name, _) => name | None => cookie end.
Lemma named_by (name rest : str) : 61%N ∉ name → cookie_named (name ++ "=" ++ rest) = name.
Proof. intros H. unfold cookie_named. change ("=" ++ rest) with (61%N :: rest). by rewrite split_once_single. Qed.
Lemma google_cookie_named (secure : bool) (rest : str) : cookie_named (cookie_name secure ++ "=" ++ rest) = cookie_name secure.
Proof. apply named_by. destruct secure; refine (bool_decide_unpack _ _); vm_compute; exact Logic.I. Qed.
Lemma session_is_no_google (secure : bool) : cookie_name secure ≠ "session".
Proof. by destruct secure. Qed.

Section routes.
Context `{U : UnicodeTables} `{B : Base64Url} `{M : Hmac} {V I K : Type} `{SV : Serde V} `{SL : !SerdeLaws V} `{ST : SerdeText V}
  `{SP : SerdePretty V} `{SF : SerdeFloat V} `{SB : !Sandbox V} `{Inv : !Invoker V I} `{JW : !JsonWebTokens V K} `{GH : !GoogleHttp V}
  `{HE : !HostExtension V I} `{AR : !ApiRoutes V I}.
Context (email_hint url_hint tel_hint textarea_hint : str → bool) (levels : nat).
Context (wasm_path : str) (c : LineageConfig) (installed : option V) (ir_depth : nat) (fault : option HostStore.Fault) (mode : Enforcement).
Context (account_cookie secret : str) (redirect_env site_env client_id client_secret : option str).
Context (ir : V) (schemas : option V) (clock : nat → Moment) (fresh_id fresh_jti : str) (signin : GoogleSignin).
Abbreviation own := (own_route (K:=K) wasm_path c installed ir_depth fault mode account_cookie secret redirect_env site_env client_id client_secret
  ir clock fresh_id fresh_jti signin).
Abbreviation called_back := (google_callback_route (K:=K) wasm_path c installed ir_depth fault mode account_cookie secret redirect_env site_env
  client_id client_secret ir clock fresh_id fresh_jti).
Abbreviation routed := (route (K:=K) email_hint url_hint tel_hint textarea_hint levels wasm_path c installed ir_depth fault mode account_cookie
  secret redirect_env site_env client_id client_secret ir schemas clock fresh_id fresh_jti signin).

(** A cookie a route may set: the account's, the sign-in's, or the end of a session. *)
Definition may_be_set (cookie : str) : Prop :=
  cookie_named cookie = account_cookie ∨ (∃ secure, cookie_named cookie = cookie_name secure) ∨
  cookie = clearing redirect_env site_env "session".
Context (Hname : 61%N ∉ account_cookie).

Lemma clearing_account_may : may_be_set (clearing redirect_env site_env account_cookie).
Proof. left. unfold clearing. change ("=; Max-Age=0" ++ ?r) with ("=" ++ ("; Max-Age=0" ++ r)). by apply named_by. Qed.
Lemma logout_sets (cookie : str) : cookie ∈ cookies_of (logout_response (V:=V) account_cookie redirect_env site_env) → may_be_set cookie.
Proof.
  unfold logout_response. rewrite with_cookie_sets by apply obj_is. rewrite redirect_with_cookie_sets.
  intros [->%list_elem_of_singleton| ->%list_elem_of_singleton]%elem_of_app; [right; by right|apply clearing_account_may].
Qed.
Lemma google_start_sets (cookie : str) : cookie ∈ cookies_of (google_start (V:=V) redirect_env site_env client_id signin) → may_be_set cookie.
Proof.
  unfold google_start. destruct (authorization_url _ _ _) as [url|e].
  - rewrite redirect_with_cookie_sets. intros ->%list_elem_of_singleton. right. left. eexists. apply google_cookie_named.
  - rewrite cookieless_none by auto with cookieless. by intros ?%elem_of_nil.
Qed.
Lemma google_landing_is (m : Session) :
  sv_is_object (google_landing (V:=V) account_cookie secret redirect_env site_env clock fresh_jti m) = true ∧
  ∀ cookie, cookie ∈ cookies_of (google_landing (V:=V) account_cookie secret redirect_env site_env clock fresh_jti m) → may_be_set cookie.
Proof.
  unfold google_landing. destruct (same_origin _ _).
  - split; [apply obj_is|]. intros cookie. rewrite redirect_with_cookie_sets. intros ->%list_elem_of_singleton. left. by apply named_by.
  - split; [apply redirect_cookieless|]. intros cookie. rewrite cookieless_none by auto with cookieless. by intros ?%elem_of_nil.
Qed.
Lemma google_callback_is (query : gmap str str) (nonce : str) (s : Site V I) :
  let response := (google_callback (K:=K) wasm_path c installed ir_depth fault mode account_cookie secret redirect_env site_env
    client_id client_secret ir clock fresh_id fresh_jti query nonce s).1 in
  sv_is_object response = true ∧ ∀ cookie, cookie ∈ cookies_of response → may_be_set cookie.
Proof.
  cbn zeta. unfold google_callback, google_failed.
  assert (∀ l, sv_is_object (redirect (V:=V) l) = true ∧ ∀ cookie, cookie ∈ cookies_of (redirect (V:=V) l) → may_be_set cookie) as Hr.
  { intros l. split; [apply redirect_cookieless|]. intros cookie. rewrite cookieless_none by auto with cookieless. by intros ?%elem_of_nil. }
  destruct (query !! _) as [code|]; [|apply Hr]. destruct (verify _ _ _ _ _) as [claims|]; [|apply Hr].
  destruct (HostDispatch.read _ _) as [state|]; [|apply Hr].
  destruct (google_member _ _ _ _ _ _ _ _ _ _ _ _) as [[m|] s1]; [apply google_landing_is|apply Hr].
Qed.
Lemma called_back_sets (r : Request) (s : Site V I) (cookie : str) : cookie ∈ cookies_of (called_back r s).1 → may_be_set cookie.
Proof.
  unfold google_callback_route. set (secure := secure_cookies _ _).
  assert (∀ response, sv_is_object response = true → (∀ cookie, cookie ∈ cookies_of response → may_be_set cookie) →
    cookie ∈ cookies_of (with_cookie response (GoogleSignin.clear_header secure)) → may_be_set cookie) as Hw.
  { intros response Ho Hc. rewrite with_cookie_sets by done. intros [?| ->%list_elem_of_singleton]%elem_of_app; [by apply Hc|].
    right. left. exists secure. unfold GoogleSignin.clear_header. change ("=; Max-Age=0; " ++ ?x) with ("=" ++ ("; Max-Age=0; " ++ x)).
    apply google_cookie_named. }
  destruct (google_signin_for _ _ _) as [g|].
  - pose proof (google_callback_is (asked r) (google_nonce g) s) as [Ho Hc]. cbn zeta in Ho, Hc.
    destruct (google_callback _ _ _ _ _ _ _ _ _ _ _ _ _ _ _ _ _ _ _) as [response s1]. by apply Hw.
  - apply Hw; [apply redirect_cookieless|]. intros k. unfold google_failed. rewrite cookieless_none by auto with cookieless.
    by intros ?%elem_of_nil.
Qed.
Lemma signup_cookieless (raw : str) (s : Site V I) : cookieless (signup_route wasm_path c installed ir_depth fault mode secret clock raw s).1.
Proof. unfold signup_route. cookieless. Qed.

Lemma own_route_sets (session : option Session) (r : Request) (s s' : Site V I) (response : V) (cookie : str) :
  own session r s = Some (response, s') → cookie ∈ cookies_of response → may_be_set cookie.
Proof.
  assert (∀ v t, cookieless v → Some (v, t) = Some (response, s') → cookie ∈ cookies_of response → may_be_set cookie) as Hnone.
  { intros v t Hv [= <- _]. rewrite cookieless_none by done. by intros ?%elem_of_nil. }
  assert (∀ q, Some (over_data (answered c ir account_cookie secret (now clock) q (raw_body r) (cookies r) (data s)) s) = Some (response, s') →
    cookie ∈ cookies_of response → may_be_set cookie) as Hmember.
  { intros q. apply Hnone, member_request_cookieless. }
  unfold own_route. cbn zeta.
  destruct (_ && _); [apply Hnone, html_cookieless|].
  destruct (_ && _); [intros [= <- <-]; apply logout_sets|].
  destruct (_ && _).
  { intros [= <- <-]. rewrite respond_with_cookie_sets. intros ->%list_elem_of_singleton. apply clearing_account_may. }
  destruct (_ && _); [apply Hnone, accounts_me_cookieless|].
  destruct (_ && _).
  { pose proof (google_handoff_cookieless (V:=V) secret (now clock) (raw_body r) (spent s)) as Hg.
    destruct (google_handoff_route _ _ _ _) as [v j]. by apply Hnone. }
  destruct (_ && _); [apply Hnone, members_cookieless|].
  destruct (_ && _); [apply (Hmember AddMember)|].
  destruct (_ && _).
  { pose proof (signup_cookieless (raw_body r) s) as Hg. destruct (signup_route _ _ _ _ _ _ _ _ _ _) as [v j]. by apply Hnone. }
  destruct (_ && _); [apply (Hmember (SetDisabled true))|].
  destruct (_ && _); [apply (Hmember (SetDisabled false))|].
  destruct (_ && _); [apply (Hmember SetRole)|].
  destruct (_ && _); [apply (Hmember DeleteMember)|].
  destruct (_ && _); [apply Hnone, sso_token_cookieless|].
  destruct (_ && _); [intros [= <- <-]; apply google_start_sets|].
  destruct (_ && _).
  { pose proof (called_back_sets r s cookie) as Hg. destruct (called_back r s) as [v j]. by intros [= <- <-]. }
  destruct (_ || _); [apply Hnone, admin_members_cookieless|done].
Qed.

(** What a verified code is worth: a token Google signed for the client, with the nonce. *)
Definition token_vouches (client nonce : str) (claims : Claims) : Prop :=
  ∃ id_token (key : K) (v : V), jwt_decode id_token key client [ISSUER; "accounts.google.com" : str] = Ok v ∧
    utf8_encode (default [] (sv_get_str v "nonce")) = utf8_encode nonce ∧ sv_get_str v "sub" = Some (subject claims).
Lemma verify_vouches (code uri nonce : str) (claims : Claims) :
  verify (K:=K) client_id client_secret code uri nonce = Ok claims → ∃ client, client_id = Some client ∧ token_vouches client nonce claims.
Proof.
  unfold verify, verify_id_token, prefixed, ok_or. destruct client_id as [client|]; [|done].
  destruct client_secret as [hidden|]; [|done]. destruct (exchange _ _ _ _) as [[[ok body] parsed]|]; [|done]. cbn [fst snd].
  destruct (negb ok); [done|]. destruct parsed as [answer|]; [|done]. destruct (sv_get_str answer "id_token") as [id_token|]; [|done].
  destruct (jwt_kid id_token) as [[kid|]|]; try done. destruct certs as [[jwks|]|]; try done.
  destruct (key_named jwks kid) as [entry|]; [|done]. destruct (sv_get_str entry "n") as [n|]; [|done].
  destruct (sv_get_str entry "e") as [e|]; [|done]. destruct (jwt_key n e) as [key|]; [|done].
  destruct (jwt_decode id_token key client _) as [v|] eqn:Ed; [|done]. unfold check_nonce. rewrite constant_time_eq_decides.
  case_bool_decide as En; [|done]. destruct (sv_get_str v "sub") as [sub|] eqn:Esub; [|done]. intros [= <-].
  exists client. split; [done|]. by exists id_token, key, v.
Qed.

(** C18: signing in never opens the gate.  Of the host's own routes none sets a cookie
    named [session], the sign-out's deletion apart, and without that cookie the
    domain's first page is answered by the way to the sign-in. *)
Theorem signing_in_never_opens_the_gate :
  account_cookie ≠ "session" →
  (∀ session r s response s' cookie, own session r s = Some (response, s') → cookie ∈ cookies_of response →
     cookie_named cookie = "session" → cookie = clearing redirect_env site_env "session") ∧
  (∀ r s s', cookies r !! ("session" : str) = None → method r = "GET" → path r = "/" → account_route r s = (None, s') →
     routed r s = Some (redirect "/login", s')).
Proof.
  intros Ha. split.
  - intros session r s response s' cookie Ho Hc Hn.
    destruct (own_route_sets _ _ _ _ _ _ Ho Hc) as [H|[[secure H]|H]]; [congruence| |done].
    rewrite Hn in H. symmetry in H. by apply session_is_no_google in H.
  - intros r s s' Hc Hm Hp He. unfold route, session_of_cookies. rewrite Hc. cbn [mbind option_bind].
    unfold auth_route. rewrite He.
    assert (own None r s' = None) as ->; [|by rewrite Hp].
    unfold own_route. rewrite Hm, Hp. reflexivity.
Qed.

(** The paths members are managed under. *)
Definition MEMBER_PATHS : list str :=
  ["/members"; "/members/disable"; "/members/enable"; "/members/role"; "/members/delete"; "/admin/members"].
Definition POST : str := "POST".
(** What a request under one of them may change the data as: an active admin by the
    account cookie, or, on the members' page, one whose [session] cookie is of an
    identity that the domain's own query gives an admin's role. *)
Definition admin_by_account (storage : str) (r : Request) (d : Data V) : Prop :=
  ∃ token email key, cookies r !! account_cookie = Some token ∧
    verify_account_token (V:=V) secret token (now clock) = Some email ∧ (key = to_lowercase email ∨ key = email_key email) ∧
    caller_active (now clock) (rows c storage d) key = true.
Definition admin_by_session (r : Request) (d : Data V) : Prop :=
  ∃ cookie m, cookies r !! ("session" : str) = Some cookie ∧
    parse_session_cookie (V:=V) secret cookie (now clock) = Some m ∧
    is_admin wasm_path installed ir (now clock) (identity_id m) d = true.

Ltac closed_paths := repeat match goal with
  | |- context [str_eqb ?p ?q] => let v := eval vm_compute in (str_eqb p q) in
      lazymatch v with true => change (str_eqb p q) with true | false => change (str_eqb p q) with false end
  end.
Lemma member_path_is (session : option Session) (r : Request) (s s' : Site V I) (response : V) :
  path r ∈ MEMBER_PATHS → own session r s = Some (response, s') →
  s' = s ∨
  (∃ q, s' = (over_data (answered c ir account_cookie secret (now clock) q (raw_body r) (cookies r) (data s)) s).2) ∨
  (path r = "/admin/members" ∧ s' = (over_data (admin_members_route account_cookie secret wasm_path c installed ir (now clock)
     (method r) (raw_body r) (cookies r) session (data s)) s).2).
Proof.
  intros Hp. unfold own_route. cbn zeta.
  generalize (str_eqb (method r) "GET") (str_eqb (method r) "POST"). intros get post.
  repeat (apply elem_of_cons in Hp as [Hp|Hp]; [rewrite Hp; closed_paths; destruct get, post; cbn [andb orb]|]);
    try (by apply elem_of_nil in Hp); intros [= <- <-]; try (by left).
  all: match goal with |- context [add_member_route] => right; left; exists AddMember; reflexivity | _ => idtac end.
  all: match goal with |- context [set_member_role_route] => right; left; exists SetRole; reflexivity | _ => idtac end.
  all: match goal with |- context [set_member_deleted_route] => right; left; exists DeleteMember; reflexivity | _ => idtac end.
  all: match goal with |- context [set_member_disabled_route _ _ _ _ _ _ _ ?off _] => right; left; exists (SetDisabled off); reflexivity | _ => idtac end.
  all: by right; right.
Qed.

Lemma with_data_same (s : Site V I) : with_data s (data s) = s.
Proof. by destruct s as [[]]. Qed.
Lemma data_with_data (s : Site V I) (d : Data V) : data (with_data s d) = d.
Proof. done. Qed.

(** C14: members are managed by admins alone.  Whatever request comes to one of the
    paths members are managed under - the four of the member list and the members'
    page - it changes nothing, or its account cookie holds an unexpired token of an
    email that is an active admin's, or it is a form sent to the members' page with a
    [session] cookie whose signed session is of an identity the domain's own query of
    live assignments gives an admin's role; and a site with an admin without an end
    date has one after it, whoever sent it.  The sign-ups and sign-ins that other
    paths serve are not spoken of here. *)
Theorem members_change_by_admins_only (aggregate storage : str) (r : Request) (s s' : Site V I) (response : V) :
  (∀ text, to_lowercase (to_lowercase text) = to_lowercase text) → settled c ir aggregate storage →
  path r ∈ MEMBER_PATHS → own (session_of_cookies (V:=V) secret clock (cookies r)) r s = Some (response, s') →
  (s' = s ∨ admin_by_account storage r (data s) ∨
   (path r = "/admin/members" ∧ method r ≠ "GET" ∧ admin_by_session r (data s))) ∧
  (has_open_admin c storage (data s) → has_open_admin c storage (data s')).
Proof.
  intros Hlow Hset Hp Ho.
  assert (∀ q, caller_is c storage account_cookie secret (now clock) q (cookies r) (data s) → admin_by_account storage r (data s)) as Hacc.
  { intros q (token & email & Ht & Hv & Hk). exists token, email, (caller_key q email). split_and!; [done|done| |done].
    destruct q; cbn [caller_key]; auto. }
  destruct (member_path_is _ _ _ _ _ Hp Ho) as [->|[[q ->]|[Hpath ->]]]; [auto| |].
  - unfold over_data. cbn [snd].
    destruct (request_steps c ir aggregate storage Hset account_cookie secret (now clock) q (raw_body r) (cookies r) (data s)) as [Hd|[Hc Hs]].
    { rewrite Hd, with_data_same. auto. }
    split; [right; left; by eapply Hacc|]. rewrite data_with_data. by eapply steps_keep_open_admin.
  - unfold over_data. cbn [snd].
    destruct (members_page_steps c ir aggregate storage Hset account_cookie secret (now clock) wasm_path installed (method r) (raw_body r)
      (cookies r) (session_of_cookies (V:=V) secret clock (cookies r)) (data s)) as [Hd|(Hm & Hc & Hs)].
    { rewrite Hd, with_data_same. auto. }
    split; [|rewrite data_with_data; by eapply steps_keep_open_admin].
    destruct Hc as [(m & Hm' & Ha)|Hc]; [right; right|right; left; by eapply Hacc].
    split_and!; [done|done|]. unfold session_of_cookies in Hm'.
    destruct (cookies r !! ("session" : str)) as [cookie|] eqn:Ek; [|done]. exists cookie, m. done.
Qed.



(** C13: a Google sign-in is finished by the browser that started it.  Where the callback
    answers anything but its refusal, or changes anything, the request's cookie holds a
    nonce and the very state of its query, and Google's token for its code carries the
    nonce. *)
Theorem google_signins_stay_in_their_browser (r : Request) (s : Site V I) :
  let secure := secure_cookies redirect_env site_env in
  called_back r s ≠ (with_cookie google_failed (GoogleSignin.clear_header secure), s) →
  ∃ nonce state code claims,
    cookies r !! cookie_name secure = Some (nonce ++ "." ++ state) ∧ 16 <= byte_len nonce ∧ 16 <= byte_len state ∧
    utf8_encode state = utf8_encode (default [] (asked r !! ("state" : str))) ∧
    asked r !! ("code" : str) = Some code ∧
    verify (K:=K) client_id client_secret code (redirect_uri redirect_env) nonce = Ok claims ∧
    ∃ client, client_id = Some client ∧ token_vouches client nonce claims.
Proof.
  cbn zeta. unfold google_callback_route. set (secure := secure_cookies _ _).
  unfold google_signin_for, read_google. destruct (cookies r !! cookie_name secure) as [value|] eqn:Ec; [|done]. cbn [mbind option_bind].
  destruct (split_once value 46) as [[nonce state]|] eqn:Es; [|done]. cbn [mbind option_bind fst snd].
  destruct (acceptable nonce && acceptable state) eqn:Ea; [|done]. cbn [mbind option_bind].
  unfold state_matches. cbn [google_state]. rewrite constant_time_eq_decides.
  case_bool_decide as Est; [|done]. cbn [google_nonce]. unfold google_callback.
  destruct (asked r !! ("code" : str)) as [code|] eqn:Eq; [|done].
  destruct (verify _ _ _ _ _) as [claims|] eqn:Ev; [|done]. intros _. exists nonce, state, code, claims.
  apply andb_true_iff in Ea as [[[Hn%Z.leb_le _]%andb_true_iff _]%andb_true_iff [[Hs%Z.leb_le _]%andb_true_iff _]%andb_true_iff].
  split_and!; [|exact Hn|exact Hs|exact Est|done|exact Ev|by eapply verify_vouches]. f_equal. by apply split_once_join in Es.
Qed.
End routes.
