(* ===== verification/WebWitness.v ===== *)
(** The theorems of [FormsFacts.v], [WebPagesFacts.v], [WebRoutesFacts.v],
    [Presentation.v] and [Api.v] at concrete inputs: the form that admits a member
    of a club, the shop of [SigninWitness.v] and its console. *)
From stdpp Require Import gmap.
From S2P Require Export FormsFacts.
Open Scope Z_scope.
#[local] Instance club_letters : UnicodeTables := {| debug_printable _ := true; to_lower c := [c] |}.
Abbreviation J := Json.Json.

Definition jattr (name ty : str) : J := sv_obj [("name" : str, sv_str name); ("type" : str, sv_str ty)].
Definition jlist (name ty : str) : J := sv_insert (jattr name ty) "list" (sv_bool true).
Definition jshape (name : str) (attributes : list J) : J :=
  sv_obj [("name" : str, sv_str name); ("attributes" : str, sv_array attributes)].
Definition person_name : J := jshape "PersonName" [jattr "first" "String"; jattr "last" "LastName"].
Definition last_name : J := jshape "LastName" [jattr "value" "String"].
Definition fee : J := jshape "Fee" [jattr "cents" "Integer"; jattr "currency" "String"].
Definition club_member : J := sv_obj [
  ("name" : str, sv_str "Member"); ("identified_by" : str, sv_array [sv_str "email"]);
  ("value_objects" : str, sv_array [person_name; fee])].
Definition club_roll : J := sv_obj [("name" : str, sv_str "Roll"); ("value_objects" : str, sv_array [last_name])].
Definition club : J := sv_obj [("name" : str, sv_str "Club"); ("aggregates" : str, sv_array [club_member; club_roll])].
Definition club_admit : J := sv_obj [
  ("name" : str, sv_str "Admit"); ("references" : str, sv_str "Member");
  ("attributes" : str, sv_array [jattr "name" "PersonName"; jattr "fee" "Fee"; jattr "active" "TrueClass"; jlist "tags" "String"])].
Definition club_rank (ty : str) : nat := if str_eqb ty "PersonName" then 2 else if str_eqb ty "LastName" || str_eqb ty "Fee" then 1 else 0.
Definition never (_ : str) : bool := false.
Definition club_fields : list Field := default [] (command_fields (V:=J) never never never never club club_member 6 club_admit).
Definition club_raw : gmap str str := list_to_map [
  ("id" : str, "ann@club.example" : str); ("name.first" : str, "Ann" : str); ("name.last.value" : str, "Lee" : str);
  ("fee.cents" : str, "250" : str); ("fee.currency" : str, [] : str); ("active" : str, "on" : str)].

Example club_paths :
  map field_path (flat_map inputs club_fields) =
  ["id" : str; "name.first" : str; "name.last.value" : str; "fee.cents" : str; "fee.currency" : str; "active" : str; "tags" : str].
Proof. vm_compute. reflexivity. Qed.

(** A name typed, and two tags a line each with a blank line between. *)
Definition club_typed : gmap str str := <["tags" := join CRLF ["loud" : str; "  " : str; " late " : str]]> club_raw.
Lemma command_forms_arrive_witness :
  ∃ v : J, extract_args club_fields club_typed = Ok v ∧
    at_path v ["name" : str; "last" : str; "value" : str] = Some (sv_str "Lee") ∧
    at_path v ["tags" : str] = Some (sv_array [sv_str "loud"; sv_str "late"]).
Proof.
  destruct (command_forms_arrive (V:=J) never never never never club club_member club_admit club_rank 2) as (fields & Hf & Hall).
  - apply ranked_decided. vm_compute. reflexivity.
  - apply well_named_decided. vm_compute. reflexivity.
  - apply told_apart_decided. vm_compute. reflexivity.
  - refine (bool_decide_unpack _ _). vm_compute. exact Logic.I.
  - assert (fields = club_fields) as ->.
    { specialize (Hf 6%nat (le_n 6)). unfold club_fields. by rewrite Hf. }
    destruct (Hall club_typed) as (v & Hv & Hin). exists v. split; [exact Hv|]. split.
    + assert (MkField "name.last.value" "Last" (TextKind "text") false ∈ flat_map inputs club_fields) as Hi
        by (apply list_elem_of_In; vm_compute; right; right; left; reflexivity).
      refine (eq_trans (Hin _ Hi) _). vm_compute. reflexivity.
    + destruct (flat_map inputs club_fields !! 6%nat) as [tags|] eqn:Et; [|vm_compute in Et; discriminate Et].
      assert (tags ∈ flat_map inputs club_fields) as Hi by (by apply list_elem_of_lookup_2 in Et).
      vm_compute in Et. injection Et as <-.
      refine (eq_trans (Hin _ Hi CRLF ["loud" : str; "  " : str; " late " : str] (or_introl eq_refl) _ _) _).
      * repeat constructor; refine (bool_decide_unpack _ _); vm_compute; exact Logic.I.
      * vm_compute. reflexivity.
      * vm_compute. reflexivity.
Defined.

Definition club_pairs : list (str * J) := [("a.b" : str, sv_str "1"); ("a.c" : str, sv_str "2"); ("d" : str, sv_str "3")].
Lemma nesting_loses_nothing_witness :
  ∃ v : J, nest club_pairs = Ok v ∧ at_path v ["a" : str; "c" : str] = Some (sv_str "2").
Proof.
  pose proof (nesting_loses_nothing (V:=J) club_pairs) as H. destruct (nest club_pairs) as [v|e] eqn:E; [|vm_compute in E; discriminate].
  exists v. split; [reflexivity|]. destruct H as [_ H].
  - refine (bool_decide_unpack _ _). vm_compute. exact Logic.I.
  - repeat constructor.
  - apply (H "a.c"). right. left.
Defined.

Definition club_posted : list (str * str) := [("name" : str, "Ann & Lee + ü" : str); ("note" : str, "1=1" : str)].
Lemma forms_are_read_back_witness : parse_form (form_text club_posted) = collected club_posted.
Proof. apply forms_are_read_back. repeat constructor. Defined.

(** ** The shop *)
From S2P Require Import SigninWitness.
From S2P Require Export WebRoutesFacts.
From S2P Require Import RateLimit SigninFlow WebText WebPages Tokens GoogleSignin MemberRoutes WebRoutes.
Open Scope Z_scope.

(** ** Pages *)

Definition bad_text : str := "<script>alert(1)</script>".
Lemma pages_hold_only_their_own_markup_witness :
  marks (form_body (V:=J) "Club" club_member club_admit "/a" club_fields {[ "id" : str := bad_text ]} (Some (sv_str bad_text))) =
  marks (form_body (V:=J) "Club" club_member club_admit "/b" club_fields ∅ (Some (sv_str "no"))).
Proof.
  destruct (pages_hold_only_their_own_markup (V:=J) "Club" "/a" "/b" bad_text "x" club_member club_admit WebWitness.person_name fee
    (sv_str bad_text) (sv_str "no") club_fields {[ "id" : str := bad_text ]} ∅
    [(bad_text, fee)] [("y" : str, WebWitness.person_name)]) as [H _]; [vm_compute; reflexivity..| | |exact H]; repeat constructor.
Defined.

Lemma refusals_without_preconditions_are_not_shown_witness :
  form_body (V:=J) "Club" club_member club_admit "/a" club_fields ∅ (Some (sv_obj [("error" : str, sv_str "already a member")])) =
  form_body "Club" club_member club_admit "/a" club_fields ∅ None.
Proof. apply refusals_without_preconditions_are_not_shown. vm_compute. reflexivity. Defined.

(** ** Members *)

Definition owner_cookies : gmap str str := {[ "hecks_session" : str := account_token (V:=J) "secret" owner_email 60 1000 ]}.
Definition disable_body : str := map (λ ch, if (ch =? 39)%N then 34%N else ch) "{'email':'gone@shop.example'}".
(** An admin's cookie does change a member. *)
Example an_admin_enables :
  has_access 1010 (answered shop shop_ir "hecks_session" "secret" 1010 (SetDisabled false) disable_body owner_cookies people).2 shop_ir gone_email = Ok true.
Proof. vm_compute. reflexivity. Qed.

Lemma grants_end_within_a_year_witness : 1 <= 365 <= 365 ∧ expiry_days (V:=J) (Some (sv_str "366")) = Err EXPIRY_MESSAGE.
Proof.
  split; [|vm_compute; reflexivity].
  apply (grants_end_within_a_year (V:=J) (Some (sv_str " 365 ")) (Some 365)). vm_compute. reflexivity.
Defined.

(** ** Routes *)

#[local] Instance no_pretty : SerdePretty J := sv_text.
#[local] Instance quiet_kernel : Sandbox J := {|
  wasm_run _ text := Ok text;
  sv_from_str _ := Ok (sv_obj [("instances" : str, sv_obj []); ("events" : str, sv_array []); ("refusals" : str, sv_array [])]);
  module_path _ _ := Err "no plugin"
|}.
#[local] Instance nobody : Invoker J unit := λ i _ _, (Err "no peer", i).
#[local] Instance no_extension : HostExtension J unit := {| guest_route _ s := (None, s); account_route _ s := (None, s) |}.
#[local] Instance no_api : ApiRoutes J unit := λ _ _ s, Some (redirect "/", s).
Definition browser_nonce : str := "nonce-0123456789".
Definition browser_state : str := "state-0123456789".
#[local] Instance one_token : JsonWebTokens J unit := {|
  jwt_kid _ := Ok (Some ("k1" : str)); jwt_key _ _ := Ok ();
  jwt_decode _ _ _ _ := Ok (sv_obj [("sub" : str, sv_str "google-7"); ("nonce" : str, sv_str browser_nonce)]) |}.
#[local] Instance one_exchange : GoogleHttp J := {|
  exchange _ _ _ _ := Ok (true, [], Ok (sv_obj [("id_token" : str, sv_str "a.b.c")]));
  certs := Ok (Ok (sv_obj [("keys" : str, sv_array [sv_obj [("kid" : str, sv_str "k1"); ("n" : str, sv_str "n"); ("e" : str, sv_str "e")]])])) |}.
Definition shop_site : Site J unit := {| host := shop_host {[ owner_email := owner ]}; spent := Verifier.with_capacity 10 |}.
Definition first_visit : Request := {| method := "GET"; path := "/"; asked := ∅; raw_body := []; cookies := owner_cookies |}.
Definition returning : Request := {|
  method := "GET"; path := "/auth/google/callback";
  asked := list_to_map [("state" : str, browser_state); ("code" : str, "4/x" : str)]; raw_body := [];
  cookies := {[ SECURE_NAME := browser_nonce ++ "." ++ browser_state ]} |}.

Lemma signing_in_never_opens_the_gate_witness :
  route (K:=unit) never never never never 5 "shop.wasm" shop (Some shop_ir) 0 None Off "hecks_session" "secret" None None
    (Some ("id" : str)) (Some ("pw" : str)) shop_ir None always "id-7" "jti-1" {| google_state := browser_state; google_nonce := browser_nonce |}
    first_visit shop_site = Some (redirect "/login", shop_site).
Proof.
  apply signing_in_never_opens_the_gate; try (vm_compute; reflexivity).
  - refine (bool_decide_unpack _ _). vm_compute. exact Logic.I.
  - discriminate.
Defined.

(** The owner asks to disable a member, once with the account cookie and once with none. *)
Definition in_time : nat → Moment := λ _, {| clock_secs := 1010; elapsed := Some 0 |}.
Definition people_site : Site J unit := with_data shop_site people.
Definition disable_request (cookies : gmap str str) : Request :=
  {| method := "POST"; path := "/members/disable"; asked := ∅; raw_body := disable_body; cookies := cookies |}.
Definition shop_signin : GoogleSignin := {| google_state := browser_state; google_nonce := browser_nonce |}.
Definition shop_own (r : Request) : option (J * Site J unit) :=
  own_route (K:=unit) "shop.wasm" shop (Some shop_ir) 0 None Off "hecks_session" "secret" None None
    (Some ("id" : str)) (Some ("pw" : str)) shop_ir in_time "id-7" "jti-1" shop_signin
    (session_of_cookies (V:=J) "secret" in_time (cookies r)) r people_site.
Lemma members_change_by_admins_only_witness :
  (∃ response s', shop_own (disable_request owner_cookies) = Some (response, s') ∧ has_open_admin shop "person" (data s')) ∧
  (∃ response, shop_own (disable_request ∅) = Some (response, people_site)).
Proof.
  assert (path (disable_request ∅) ∈ MEMBER_PATHS) as Hp by (refine (bool_decide_unpack _ _); vm_compute; exact Logic.I).
  split.
  - destruct (shop_own (disable_request owner_cookies)) as [[response s']|] eqn:E; [|exfalso; vm_compute in E; discriminate E].
    exists response, s'. split; [reflexivity|].
    refine (proj2 (members_change_by_admins_only (V:=J) (K:=unit) "shop.wasm" shop (Some shop_ir) 0 None Off "hecks_session" "secret"
      None None (Some ("id" : str)) (Some ("pw" : str)) shop_ir in_time "id-7" "jti-1" shop_signin "Person" "person" (disable_request owner_cookies)
      people_site s' response lower_letters_twice shop_settled Hp E) _).
    change (has_open_admin shop "person" people). exists owner_email, owner. split; [vm_compute; reflexivity|]. intros now. vm_compute. reflexivity.
  - destruct (shop_own (disable_request ∅)) as [[response s']|] eqn:E; [|exfalso; vm_compute in E; discriminate E].
    exists response.
    destruct (proj1 (members_change_by_admins_only (V:=J) (K:=unit) "shop.wasm" shop (Some shop_ir) 0 None Off "hecks_session" "secret"
      None None (Some ("id" : str)) (Some ("pw" : str)) shop_ir in_time "id-7" "jti-1" shop_signin "Person" "person" (disable_request ∅)
      people_site s' response lower_letters_twice shop_settled Hp E)) as [->|[(token & email & key & Ht & _)|(_ & _ & cookie & m & Hc & _)]].
    + reflexivity.
    + vm_compute in Ht. discriminate Ht.
    + vm_compute in Hc. discriminate Hc.
Defined.

Lemma google_signins_stay_in_their_browser_witness :
  ∃ nonce state, cookies returning !! cookie_name true = Some (nonce ++ "." ++ state).
Proof.
  destruct (google_signins_stay_in_their_browser (V:=J) (K:=unit) "shop.wasm" shop (Some shop_ir) 0 None Off "hecks_session" "secret" None None
    (Some ("id" : str)) (Some ("pw" : str)) shop_ir always "id-7" "jti-1" returning shop_site) as (nonce & state & _ & _ & H & _).
  - intros H. apply (f_equal (λ p, sv_text p.1)) in H. vm_compute in H. discriminate H.
  - exists nonce, state. exact H.
Defined.

(** ** The console *)
From S2P Require Import Api.
Open Scope Z_scope.
#[local] Instance no_capitals : UnicodeUpper := λ c, [c].

(** A depot: its orders are placed for a client who is open, shipped, and noted upon. *)
Definition jcommand (name references : str) (attributes : list J) : J := sv_obj [
  ("name" : str, sv_str name); ("references" : str, if str_eqb references "" then sv_null else sv_str references);
  ("attributes" : str, sv_array attributes)].
Definition jmove (command from to : str) : J :=
  sv_obj [("command" : str, sv_str command); ("from_state" : str, sv_str from); ("to_state" : str, sv_str to)].
Definition jlifecycle (key first : str) (moves : list J) : J :=
  sv_obj [("field" : str, sv_str key); ("default" : str, sv_str first); ("transitions" : str, sv_array moves)].
Definition order_number : J := jshape "OrderNumber" [jattr "value" "String"].
Definition delivery : J := jshape "Delivery" [jattr "street" "String"; jattr "weight" "Integer"].
Definition depot_order : J := sv_obj [
  ("name" : str, sv_str "Order");
  ("attributes" : str, sv_array [jattr "number" "OrderNumber"; jattr "client" "Reference<Client>"; jattr "delivery" "Delivery"]);
  ("value_objects" : str, sv_array [order_number; delivery]);
  ("lifecycle" : str, jlifecycle "status" "placed" [jmove "Ship" "placed" "shipped"]);
  ("commands" : str, sv_array [jcommand "Place" "" [jattr "number" "OrderNumber"; jattr "client" "Reference<Client>"];
                               jcommand "Ship" "Order" []; jcommand "AddNote" "Order" [jattr "text" "String"]])].
Definition depot_client : J := sv_obj [
  ("name" : str, sv_str "Client"); ("attributes" : str, sv_array [jattr "name" "String"]);
  ("lifecycle" : str, jlifecycle "standing" "open" [jmove "Close" "open" "closed"]);
  ("commands" : str, sv_array [jcommand "Enrol" "" [jattr "name" "String"]; jcommand "Close" "Client" []])].
Definition depot : J := sv_obj [("name" : str, sv_str "Depot"); ("aggregates" : str, sv_array [depot_order; depot_client])].
Definition depot_rank (ty : str) : nat := if str_eqb ty "OrderNumber" || str_eqb ty "Delivery" then 1 else 0.

(** The kernel of the depot: two orders of one client, and its console's settings. *)
Definition from_clients : J := sv_obj [("field" : str, sv_str "client"); ("state" : str, sv_str "open"); ("extra_json" : str, sv_null)].
Definition depot_instances : J := sv_obj [
  ("Depot::Order#o1" : str, sv_obj [("client" : str, sv_str "c1"); ("status" : str, sv_str "placed")]);
  ("Depot::Order#o2" : str, sv_obj [("client" : str, sv_str "c1"); ("status" : str, sv_str "shipped")]);
  ("Depot::Client#c1" : str, sv_obj [("name" : str, sv_str "Ann"); ("standing" : str, sv_str "open")]);
  ("Depot::Client#c2" : str, sv_obj [("name" : str, sv_str "Bea"); ("standing" : str, sv_str "closed")]);
  ("ConsoleSettings::CollectionRules#Order" : str, sv_obj [
     ("agg" : str, valued (sv_str "Order")); ("preconditions" : str, sv_array [from_clients])]);
  ("ConsoleSettings::CollectionIdentity#Order" : str, sv_obj [
     ("agg" : str, valued (sv_str "Order")); ("identity_field" : str, valued (sv_str "number"));
     ("identity_strategy" : str, valued (sv_str "sequence")); ("identity_prefix" : str, valued (sv_str "O-"))])].
Definition depot_answer : J := sv_obj [("instances" : str, depot_instances); ("events" : str, sv_array []); ("refusals" : str, sv_array [])].
#[local] Instance depot_kernel : Sandbox J := {|
  wasm_run _ _ := Ok ("answer" : str);
  sv_from_str text := if str_eqb text "answer" then Ok depot_answer else Json.parse text;
  module_path _ _ := Err "no plugin"
|}.
Definition depot_c : LineageConfig := {| config_domain := "Depot"; era := None; mirrored := None; seal_every := None |}.
Definition depot_site : Site J unit := {| host := {| store := empty_data; peers := (); log := [] |}; spent := Verifier.with_capacity 10 |}.
Definition quoted (s : str) : str := map (λ ch, if (ch =? 39)%N then 34%N else ch) s.
Definition depot_config : J := match loaded "depot.wasm" depot_c None always empty_data with Ok v => v | Err v => v end.

Definition depot_document : J := default sv_null (build 3 depot depot_config).
Definition depot_collections : J := default sv_null (sv_get depot_document "collections").
Definition depot_orders : J := default sv_null (sv_get depot_collections "orders").
Lemma offered_commands_are_routed_witness :
  ∃ aggregate : J, aimed "depot.wasm" depot_c None depot always "orders" "o2" "add_note" (quoted "{'text':'fragile'}") empty_data =
    Ok (aggregate, "Depot::Order.AddNote" : str, sv_obj [("text" : str, sv_str "fragile")]).
Proof.
  destruct (offered_commands_are_routed (V:=J) 3 "depot.wasm" depot_c None depot always depot_config depot_document depot_collections depot_orders
    "orders" "add_note") as (aggregate & Hin & Hr & Hall).
  - refine (bool_decide_unpack _ _). vm_compute. exact Logic.I.
  - vm_compute. reflexivity.
  - vm_compute. reflexivity.
  - vm_compute. reflexivity.
  - left. exists (default sv_null (list.head (sv_list depot_orders "alwaysAvailable"))).
    split; [apply list_elem_of_In; vm_compute; left; reflexivity|vm_compute; reflexivity].
  - destruct (Hall empty_data [("o1" : str, sv_obj [("client" : str, sv_str "c1"); ("status" : str, sv_str "placed")]);
      ("o2" : str, sv_obj [("client" : str, sv_str "c1"); ("status" : str, sv_str "shipped")])] "o2" (quoted "{'text':'fragile'}")
      (sv_obj [("text" : str, sv_str "fragile")])) as (declared & _ & _ & _ & _).
    + vm_compute. reflexivity.
    + assert (aggregate = depot_order) as -> by (apply (f_equal (λ r, match r with Ok a => a | Err a => a end)) in Hr; vm_compute in Hr; by rewrite <- Hr).
      vm_compute. reflexivity.
    + right. left.
    + vm_compute. reflexivity.
    + exists depot_order. vm_compute. reflexivity.
Defined.

Definition order_body : str := quoted "{'client':'c1'}".
Lemma creations_meet_their_preconditions_witness :
  ∃ target : J, sv_get depot_instances "Depot::Client#c1" = Some target ∧ sv_get_str target "standing" = Some ("open" : str).
Proof.
  destruct (creations_meet_their_preconditions (V:=J) "depot.wasm" depot_c None depot always "orders" order_body empty_data depot_order
    (sv_obj [("client" : str, sv_str "c1"); ("number" : str, sv_obj [("value" : str, sv_str "O-003")])]) "Depot::Order.Place")
    as (config & Hc & _ & Hall).
  - vm_compute. reflexivity.
  - assert (config = depot_config) as ->.
    { apply (f_equal (λ r, match r with Ok a => a | Err a => a end)) in Hc. by rewrite <- Hc. }
    destruct (Hall [sv_obj [("field" : str, sv_str "client"); ("state" : str, sv_str "open")]]
      (sv_obj [("field" : str, sv_str "client"); ("state" : str, sv_str "open")]) "client" "c1" (jattr "client" "Reference<Client>") "Client")
      as (state & instances & target & Hs & Hi & Ht & Hst); try (vm_compute; reflexivity).
    + left.
    + assert (state = depot_answer) as -> by (apply (f_equal (λ r, match r with Ok a => a | Err _ => sv_null end)) in Hs; by rewrite <- Hs).
      assert (instances = depot_instances) as -> by (cut (Some instances = Some depot_instances); [congruence|rewrite <- Hi; vm_compute; reflexivity]).
      exists target. split; [exact Ht|]. specialize (Hst "open" "standing" eq_refl eq_refl).
      destruct (sv_get_str target "standing"); [by f_equal|discriminate Hst].
Defined.


Lemma slugs_are_the_words_of_a_text_witness : slugify "  Hello, World -- 2nd! " = "hello-world-2nd" ∧ is_slug (slugify "?!").
Proof. split; [vm_compute; reflexivity|]. apply (slugs_are_the_words_of_a_text "?!"). Defined.

Definition mixed_records : list (str * J) := [
  ("c" : str, sv_obj [("n" : str, sv_str "x")]); ("a" : str, sv_obj [("n" : str, sv_i64 5)]); ("d" : str, sv_obj []);
  ("b" : str, sv_obj [("n" : str, sv_obj [("value" : str, sv_i64 3)])])].
Lemma records_have_one_order_witness :
  sort_records mixed_records (Some {| sort_field := "n"; descending := false |}) = sort_records (rev mixed_records) (Some {| sort_field := "n"; descending := false |}) ∧
  (sort_records mixed_records (Some {| sort_field := "n"; descending := false |})).*1 = ["b" : str; "a" : str; "c" : str; "d" : str].
Proof.
  split; [|vm_compute; reflexivity]. apply (records_have_one_order (V:=J)).
  - refine (bool_decide_unpack _ _). vm_compute. exact Logic.I.
  - symmetry. apply Permutation_sym, Permutation_rev.
Defined.

Lemma depot_ranked (a : J) : a ∈ aggregates depot → ranked (with_shared_value_objects a (aggregates depot)) depot_rank.
Proof.
  assert (∀ scoped, forallb (λ shape, forallb (λ inner, depot_rank (type_of inner) <? depot_rank (named shape))%nat (array shape "attributes"))
    (array scoped "value_objects" ++ array scoped "entities") = true → ranked (V:=J) scoped depot_rank) as H.
  { intros scoped Hall ty shape inner Hf Hin. rewrite forallb_forall in Hall. specialize (Hall shape).
    assert (In shape (array scoped "value_objects" ++ array scoped "entities") ∧ named shape = ty) as [Hs <-].
    { destruct Hf as [Hf|Hf]; apply find_some in Hf as [Hf Hn]; (split; [apply in_or_app; auto|]); unfold says_str in Hn; unfold named;
        apply bool_decide_eq_true in Hn; by rewrite Hn. }
    specialize (Hall Hs). rewrite forallb_forall in Hall. apply Nat.ltb_lt, Hall, list_elem_of_In, Hin. }
  intros Ha. apply H. apply list_elem_of_In in Ha. vm_compute in Ha. destruct Ha as [<-|[<-|[]]]; vm_compute; reflexivity.
Qed.
Lemma interface_documents_end_witness : ∃ interface, build 9 depot depot_config = Some interface ∧ build 2 depot depot_config = Some interface.
Proof.
  destruct (interface_documents_end (V:=J) depot depot_config depot_rank 1) as (interface & structure & H).
  - intros ty. unfold depot_rank. destruct (_ || _); lia.
  - exact depot_ranked.
  - exists interface. split; [refine (proj1 (H 9%nat _))|refine (proj1 (H 2%nat _))]; lia.
Defined.

Definition sent_rule : J := sv_obj [("field" : str, sv_str "client"); ("state" : str, sv_str "open"); ("message" : str, sv_str "no such client")].
Lemma saved_entries_come_back_witness :
  sv_get (reshape_precondition (precondition_row sent_rule)) "message" = Some (sv_str "no such client").
Proof.
  destruct (saved_entries_come_back sent_rule) as [H _].
  - unfold keyed_once. refine (bool_decide_unpack _ _). vm_compute. exact Logic.I.
  - rewrite H; [reflexivity|]. split; vm_compute; [discriminate|reflexivity].
Defined.

Definition styled (states : list str) : J := sv_obj (map (λ s, (s, sv_obj [("tone" : str, sv_str "good")])) states).
Definition admitted_config : J := sv_obj [
  ("states" : str, sv_obj [("Order" : str, styled ["placed"; "shipped"]); ("Client" : str, styled ["open"; "closed"])]);
  ("collections" : str, sv_obj [("Order" : str, sv_obj [("preconditions" : str, sv_array [sent_rule])])])].
Lemma admitted_configurations_fit_the_domain_witness :
  ∃ per_state entry, sv_get (section (V:=J) admitted_config "states") "Client" = Some per_state ∧ sv_get per_state "closed" = Some entry.
Proof.
  destruct (admitted_configurations_fit_the_domain admitted_config depot) as [H _]; [vm_compute; reflexivity|].
  apply (H depot_client "closed"); apply list_elem_of_In; vm_compute; right; left; reflexivity.
Defined.

Definition depot_request (m p body : str) : Request := {| method := m; path := p; asked := ∅; raw_body := body; cookies := ∅ |}.
Lemma console_writes_are_declared_commands_witness :
  match Api.route 3 "depot.wasm" depot_c None 0 None Off depot always (depot_request "POST" "/api/orders/o1/ship" []) None depot_site with
  | Some (v, s') => creates_record "depot.wasm" depot_c None 0 None Off depot always no_caller depot_site s' ∨
      acts_on_record "depot.wasm" depot_c None 0 None Off depot always no_caller depot_site s'
  | None => False
  end.
Proof.
  pose proof (console_writes_are_declared_commands (V:=J) 3 "depot.wasm" depot_c None 0 None Off depot always
    (depot_request "POST" "/api/orders/o1/ship" []) None depot_site) as H.
  destruct (Api.route _ _ _ _ _ _ _ _ _ _ _ _) as [[v s']|] eqn:E; [|vm_compute in E; discriminate E].
  destruct (H s' v eq_refl) as [(Hm & _)|(_ & _ & Hc)]; [|discriminate Hm|exact Hc].
  assert (length (HostStore.journal (store (host s'))) = 1%nat) as Hl.
  { change (match Some (v, s') with Some (_, t) => length (HostStore.journal (store (host t))) | None => O end = 1%nat).
    rewrite <- E. vm_compute. reflexivity. }
  intros Hs. rewrite Hs in Hl. vm_compute in Hl. discriminate Hl.
Defined.

Lemma kept_collections_show_nothing_witness :
  build_columns (V:=J) [sv_obj [("key" : str, sv_str "name")]] depot_client ∅ ∅
    (sv_get (reshape_collection_row (sv_obj [("label" : str, valued (sv_str "Clients"))])) "columns") = sv_array [].
Proof. apply kept_collections_show_nothing; vm_compute; reflexivity. Defined.

(** ** What the console does that it does not mean to *)

(** Two collections under one key: the document describes the later aggregate, and the
    routes lead to the earlier one, which declares none of its commands. *)
Definition shared_keys : J := sv_obj [("collections" : str, sv_obj [
  ("Order" : str, sv_obj [("key" : str, sv_str "things")]); ("Client" : str, sv_obj [("key" : str, sv_str "things")])])].
Example shared_keys_cross :
  (d ← build (V:=J) 3 depot shared_keys; cs ← sv_get d "collections"; things ← sv_get cs "things"; sv_get_str things "aggregate") = Some ("Client" : str) ∧
  resolve_collection depot shared_keys "things" = Ok depot_order ∧
  dispatchable_command depot_order "close" = None ∧ validate (sv_insert admitted_config "collections" (default sv_null (sv_get shared_keys "collections"))) depot = Ok ().
Proof. split_and!; vm_compute; reflexivity. Qed.

(** The state's column, saved and loaded, is no longer its pill, nor sortable. *)
Example saved_state_column :
  let shown entry := column_for (V:=J) [] depot_order ∅ ∅ entry in
  sv_get (shown (sv_str "__state__")) "shape" = Some (sv_str "pill") ∧
  sv_get (shown (reshape_column (column_row (sv_str "__state__")))) "shape" = Some sv_null.
Proof. split; vm_compute; reflexivity. Qed.

(** A query asked with an argument typed by another aggregate's value object is not
    asked: the interface describes the argument, and the route answers every record. *)
Definition asking_client : J := sv_insert depot_client "queries" (sv_array [sv_obj [
  ("name" : str, sv_str "ByOrder"); ("attributes" : str, sv_array [jattr "number" "OrderNumber"])]]).
Example borrowed_arguments_are_not_asked :
  let params : gmap str str := {[ "query" : str := "ByOrder" : str; "number" : str := "O-001" : str ]} in
  asked_query asking_client params = None ∧
  (d ← field (V:=J) (with_shared_value_objects asking_client [depot_order; asking_client]) ∅ sv_null 2 (jattr "number" "OrderNumber");
   sv_get_str d "field") = Some ("value" : str).
Proof. split; vm_compute; reflexivity. Qed.

(** A sequence is counted, not kept: with the first of three records gone the next
    identity is the last one's. *)
Example counted_identities_repeat :
  let held : list str := ["O-002"; "O-003"] in
  match apply_identity (V:=J) depot_config depot_order (sv_obj []) (length held) with
  | Ok args => (n ← sv_get args "number"; sv_get_str n "value") = list.last held
  | Err _ => False
  end.
Proof. vm_compute. reflexivity. Qed.
